(* ===== verification/_CoqProject ===== *)
-Q . S2P
Prelude.v
Codec.v
CodecFacts.v
CodecProps.v
Types.v
Workspace.v
ErrorDetail.v
Cbor.v
Object.v
ObjectProps.v
Store.v
Prolly.v
ProllyNode.v
ProllyTree.v
ProllyRead.v
ProllyShape.v
ProllyBuild.v
ProllyEdit.v
ProllyWrite.v
ProllyCursor.v
ProllyReach.v
ProllyDiff.v
ProllyProps.v
Chunk.v
OrderKey.v
Fence.v
Lock.v
LockFacts.v
LockProps.v
Cursor.v
Acl.v
AclCodec.v
AclProps.v
AclCodecProps.v
ProllyMap.v
Tabular.v
TabularKeys.v
TabularDecimal.v
TabularOrder.v
TabularCells.v
Schema.v
Table.v
TableStore.v
TableIndex.v
TableIndexProps.v
TableIndexBuild.v
TableMerge.v
TableMergeCells.v
VcsTree.v
VcsPath.v
VcsShard.v
VcsTreeProps.v
Registry.v
RegistryProps.v
RegistryCodec.v
VcsHistory.v
VcsContent.v
VcsEdit.v
Identity.v
IdentityProps.v
IdentityCodec.v
Effect.v
Engine.v
EngineFiles.v
EngineFs.v
Posix.v
EnginePosix.v
FileRefine.v
FileClaims.v
EngineVcs.v
EngineVcsProps.v
EngineRefs.v
EngineCommit.v
EngineDemo.v
Ledger.v
LedgerMerkle.v
LedgerClaims.v
LedgerCodec.v
LedgerEngine.v
LedgerAppend.v
