(* ===== verification/Prelude.v ===== *)
(** * Uldren Loom: a verification of the storage core

    Uldren Loom is a content-addressed, versioned store written in Rust. The engine ([crates/loom-core]) keeps
    workspaces of files, tables and other facets over an object store, with branches, merges, access control,
    identities and locks; [crates/loom-codec] and [crates/loom-types] hold the canonical encoding and the shared
    types. This library translates those parts into executable Rocq definitions, named as in the source, and
    proves what makes them correct.

    ** How the parts interact

    Every stored thing is an [Object] (blob, chunk list, tree, commit, tag) written in canonical CBOR and put in an
    object store under the hash of its bytes. Large contents are cut into chunks by content. Maps are prolly trees:
    search trees whose node boundaries depend on keys alone. Tables are schemas with a prolly tree of encoded rows and
    one per secondary index. A commit is a tree of directories over the slots of a working tree. The registry holds
    the workspaces with their branches, tags and HEAD. The engine ([Loom]) ties these to a working tree, a staging index,
    open files, merges in progress and policies of refs, and asks the access control, with the roles of the identity
    store, before it acts. Locks order writers by fences.

    ** Files and the code they model

    - [Prelude]: results, byte strings, bounded integers, ordered maps and sets, sorting, tactics.
    - [Codec], [CodecFacts], [CodecProps] (loom-codec/src/lib.rs), [Cbor] (loom-core/src/cbor.rs): canonical CBOR.
    - [Types], [Workspace], [ErrorDetail] (loom-types/src/digest.rs, error.rs, workspace.rs): digests, codes, facets, ids.
    - [Object], [ObjectProps] (object.rs); [Store] (provider.rs, provider/memory.rs): the class [ObjectStore] with its
      laws [StoreLaws], and the memory store as an instance.
    - [Prolly] (prolly.rs) with [ProllyNode], [ProllyTree], [ProllyRead], [ProllyShape], [ProllyBuild], [ProllyEdit],
      [ProllyWrite], [ProllyCursor], [ProllyReach], [ProllyDiff], [ProllyProps], [ProllyMap]: prolly trees.
    - [Chunk] (chunk.rs), [OrderKey] (order_key.rs), [Fence] (fence.rs), [Cursor] (the byte reader of stored forms).
    - [Lock], [LockFacts], [LockProps] (lock.rs): the lock coordinator.
    - [Acl], [AclCodec], [AclProps], [AclCodecProps] (acl.rs): grants, their evaluation and stored form.
    - [Tabular], [TabularKeys], [TabularDecimal], [TabularOrder], [TabularCells] (loom-types/src/tabular.rs,
      tabular/codec.rs); [Schema], [Table], [TableStore] (tabular.rs); [TableIndex], [TableIndexProps],
      [TableIndexBuild] (tabular/index.rs); [TableMerge], [TableMergeCells] (tabular/merge.rs).
    - [VcsTree], [VcsPath], [VcsShard], [VcsTreeProps], [VcsHistory], [VcsContent], [VcsEdit] (vcs/objects.rs, vcs/diff.rs,
      vcs/merge.rs, vcs.rs): trees, history and contents.
    - [Registry], [RegistryProps], [RegistryCodec] (workspace.rs): the workspace registry.
    - [Identity], [IdentityProps], [IdentityCodec] (identity.rs): principals, credentials, sessions, authority.
    - [Ledger] (ledger.rs: data, stored forms, the chain and, in its Module [LedgerProof], the Merkle proofs),
      [LedgerEngine] (ledger.rs: the operations on the engine), [LedgerMerkle], [LedgerClaims], [LedgerCodec],
      [LedgerAppend]: hash-chained ledgers with retention, checkpoints and proofs.
    - [Effect]: computations on a state that may fail, their runs and simulations.
    - [Engine] (vcs.rs, vcs/access.rs), [EngineFiles] (vcs/files.rs, vcs/handles.rs), [EngineFs] (fs.rs): the engine, its
      authorization, files, handles and directories. [EngineFs] reaches the files through the class [FileLayer].
    - [Posix], [EnginePosix], [FileRefine], [FileClaims]: the specification of a file system, with directories as sets of
      names and moves as renames, and the refinement; its proof runs the facade on the specified files on the way.
    - [EngineVcs] (vcs/commit.rs, vcs/merge.rs, vcs/replay.rs, vcs/protected_refs.rs), [EngineVcsProps], [EngineRefs],
      [EngineCommit], [EngineDemo]: commits, staging, refs, merges and replay on the engine, and example engines.

    ** What the theorems show

    - Codecs: decoding inverts encoding and only canonical bytes decode, for CBOR, objects, prolly nodes, rows, schemas,
      grants, registries and identity stores.
    - Prolly trees: insertions in any order give the tree that [build] gives over the entries, and a removal does
      exactly when it orphans no internal node; lookups, scans, cursors, diffs and the reachability walk return
      exactly what the entries say.
    - Tables: a table is the map its operations give; keys order as values; index scans return the rows in bounds;
      merges are pointwise and symmetric.
    - Trees, history, contents: reading back a commit gives the working tree; merge bases are the maximal common ancestors;
      a three-way merge takes the side that changed; streamed edits equal storing the edited bytes, and a write that wraps
      past 2^64 only resizes.
    - Locks, access control, identity, registry: fencing and exclusion along every run; evaluation equals its
      declarative reading; invariants of the stores along every sequence of calls, for identities with reloads and
      replication among them; sessions were opened by an authentication or bound by the host.
    - Engine: file and directory operations refine a file system, but for the moves and directories [Posix] gives no
      outcome; a commit moves one branch and can always be checked out again; merges combine both sides and can be
      aborted; replays are atomic; a fast-forward-only branch never loses history.
    - Ledgers: an append adds one entry and loses none; the head attests to the whole ledger; inclusion and consistency
      proofs are accepted where they should be and, without hash collisions, show what they claim; stored forms round-trip.
    - Flaws: theorems that state where the code departs from what it means to do; the manifest lists them.

    ** Parameters

    Hash functions are the class [Hasher] (32-byte output), key derivation, signatures and password hashing the class
    [Crypto], row predicates of grants an evaluator argument. Object stores are the class [ObjectStore] with
    [StoreLaws]: a universe of byte strings without collisions, a store invariant, and what put and get promise. The
    mergers of facet collections are the class [FacetMergers] with [FacetLaws]: they change only the stored contents.
    Each class has an instance, used by the witnesses.

    ** Bounds and fuel

    Integers keep their width: checked additions fail, others wrap or are shown not to. Loops of the source that are not
    structural take fuel. A decoder takes the nesting limit [MAX_DEPTH] of the source. Prolly builds and descents take 255
    levels, the range of the level byte, and path descents the limit of 64 of the source. Order keys, varints (ten
    groups), chunking and cursors take the length of their input; Merkle trees of ledgers the number of leaves, and the
    shifts of a consistency check the bits of the tree size. Directory trees take more than their depth, ancestor
    walks [walk_cost], the parent links of the history plus one. In [EngineVcs] one [fuel] serves all walks of a call;
    [None] is a call that needs more, and theorems on success state how much suffices.

    ** Not modelled

    The stored form of the engine state, lazily loaded state, streams, document overlays, and the facet engines
    (documents, vectors, search, graphs, time series, mail and calendars) are large parts of the engine not yet
    translated. The persistent store, servers, clients, command line, bindings and virtual file systems are dominated by
    disk, network and operating-system effects. Adapters to third-party engines (SQL, Tantivy, HNSW, Polars) are glue
    over code outside the repository. *)

From Stdlib Require Export Strings.Byte NArith Lia.
From Stdlib Require Strings.String.
Export Strings.String.StringSyntax.
From stdpp Require Export prelude gmap list sorting.

#[global] Open Scope N_scope.
#[global] Open Scope list_scope.
Declare Scope loom_scope.
Delimit Scope loom_scope with loom.

(** ** Fallible computations: Rust's [Result] *)

Inductive result (E A : Type) : Type :=
| Ok (a : A)
| Err (e : E).
Arguments Ok {E A} a.
Arguments Err {E A} e.

#[global] Instance result_ret E : MRet (result E) := fun A a => Ok a.
#[global] Instance result_bind E : MBind (result E) := fun A B f m =>
  match m with Ok a => f a | Err e => Err e end.
#[global] Instance result_fmap E : FMap (result E) := fun A B f m =>
  match m with Ok a => Ok (f a) | Err e => Err e end.

(** [opt.ok_or(e)] *)
Definition ok_or {E A} (o : option A) (e : E) : result E A :=
  match o with Some a => Ok a | None => Err e end.

(** [r.map_err(f)] *)
Definition map_err {E E' A} (f : E -> E') (r : result E A) : result E' A :=
  match r with Ok a => Ok a | Err e => Err (f e) end.

Lemma bind_Ok {E A B} (m : result E A) (f : A -> result E B) b :
  (m ≫= f) = Ok b <-> exists a, m = Ok a /\ f a = Ok b.
Proof. destruct m; simpl; naive_solver. Qed.

Lemma map_err_Ok {E E' A} (f : E -> E') (r : result E A) a : map_err f r = Ok a <-> r = Ok a.
Proof. destruct r; simpl; naive_solver. Qed.

Lemma ok_or_Ok {E A} (o : option A) (e : E) a : ok_or o e = Ok a <-> o = Some a.
Proof. destruct o; simpl; naive_solver. Qed.

Definition is_ok {E A} (r : result E A) : bool :=
  match r with Ok _ => true | Err _ => false end.

(** ** Bytes and fixed-width integers *)

Abbreviation bytes := (list byte).

#[global] Instance byte_eq_decision : EqDecision byte := Byte.byte_eq_dec.
#[global] Instance byte_countable : Countable byte :=
  inj_countable Byte.to_N Byte.of_N Byte.of_to_N.

Definition u8_max : N := 255.
Definition u16_max : N := 2 ^ 16 - 1.
Definition u32_max : N := 2 ^ 32 - 1.
Definition u64_max : N := 2 ^ 64 - 1.

(** [n as u8]: the low eight bits. *)
Definition as_u8 (n : N) : byte :=
  match Byte.of_N (n mod 256) with Some b => b | None => x00 end.

(** [n as u64] *)
Definition as_u64 (n : N) : N := n mod 2 ^ 64.
Definition as_u32 (n : N) : N := n mod 2 ^ 32.

Definition checked_add (max a b : N) : option N :=
  if a + b <=? max then Some (a + b) else None.

Definition saturating_add (max a b : N) : N := N.min max (a + b).

(** [(n as uK).to_be_bytes()] for a [k]-byte integer type, most significant byte first. *)
Fixpoint to_be_bytes (k : nat) (n : N) : bytes :=
  match k with
  | O => []
  | S k' => as_u8 (N.shiftr n (8 * N.of_nat k')) :: to_be_bytes k' n
  end.

(** [uK::from_be_bytes(b)] *)
Definition from_be_bytes (b : bytes) : N :=
  fold_left (fun acc x => acc * 256 + Byte.to_N x) b 0.

(** Two fields packed into one word: the low field below bit [k], the high field above it. *)
Lemma lor_shiftl_add a b k : a < 2 ^ k -> N.lor (N.shiftl b k) a = b * 2 ^ k + a.
Proof.
  intros Ha. rewrite <-N.shiftl_mul_pow2.
  assert (N.land (N.shiftl b k) a = 0) as Hz.
  { apply N.bits_inj_0. intros i. rewrite N.land_spec. destruct (N.lt_ge_cases i k).
    - by rewrite N.shiftl_spec_low.
    - rewrite <-(N.mod_small a (2 ^ k)), N.mod_pow2_bits_high by done. apply andb_false_r. }
  by rewrite (N.add_nocarry_lxor _ _ Hz), (N.lxor_lor _ _ Hz).
Qed.

Lemma as_u8_to_N n : Byte.to_N (as_u8 n) = n mod 256.
Proof.
  unfold as_u8. destruct (Byte.of_N (n mod 256)) eqn:E.
  - by apply Byte.to_of_N.
  - apply Byte.of_N_None_iff in E. pose proof (N.mod_lt n 256). lia.
Qed.

Lemma to_N_inj b1 b2 : Byte.to_N b1 = Byte.to_N b2 -> b1 = b2.
Proof.
  intros H. pose proof (Byte.of_to_N b1) as E1. pose proof (Byte.of_to_N b2) as E2.
  rewrite H in E1. congruence.
Qed.

Lemma to_N_lt b : Byte.to_N b < 256.
Proof. pose proof (Byte.to_N_bounded b). lia. Qed.

Lemma as_u8_of_to_N b : as_u8 (Byte.to_N b) = b.
Proof.
  apply to_N_inj. rewrite as_u8_to_N. apply N.mod_small, to_N_lt.
Qed.

Lemma as_u8_small n : n < 256 -> Byte.to_N (as_u8 n) = n.
Proof. intros H. rewrite as_u8_to_N. by apply N.mod_small. Qed.

Lemma length_to_be_bytes k n : length (to_be_bytes k n) = k.
Proof. induction k; simpl; congruence. Qed.

Lemma from_be_bytes_acc b acc :
  fold_left (fun acc x => acc * 256 + Byte.to_N x) b acc
  = acc * 256 ^ N.of_nat (length b) + from_be_bytes b.
Proof.
  unfold from_be_bytes. revert acc. induction b as [|x b IH]; intros acc; simpl.
  - lia.
  - rewrite (IH (acc * 256 + Byte.to_N x)), (IH (0 * 256 + Byte.to_N x)).
    change (N.pos (Pos.of_succ_nat (length b))) with (N.of_nat (S (length b))).
    rewrite Nat2N.inj_succ, N.pow_succ_r'. lia.
Qed.

Lemma from_be_bytes_cons x b :
  from_be_bytes (x :: b) = Byte.to_N x * 256 ^ N.of_nat (length b) + from_be_bytes b.
Proof. unfold from_be_bytes at 1. simpl. apply from_be_bytes_acc. Qed.

Lemma from_be_bytes_lt b : from_be_bytes b < 256 ^ N.of_nat (length b).
Proof.
  induction b as [|x b IH]; [done|]. rewrite from_be_bytes_cons. simpl length.
  rewrite Nat2N.inj_succ, N.pow_succ_r'. pose proof (to_N_lt x). nia.
Qed.

(** Encoding and decoding a [k]-byte big-endian integer are inverse. *)
Lemma from_to_be_bytes k n :
  from_be_bytes (to_be_bytes k n) = n mod 256 ^ N.of_nat k.
Proof.
  induction k as [|k IH]; [by rewrite N.mod_1_r|]. cbn [to_be_bytes].
  rewrite from_be_bytes_cons, IH, length_to_be_bytes, as_u8_to_N, N.shiftr_div_pow2.
  rewrite Nat2N.inj_succ, N.pow_succ_r'.
  replace (2 ^ (8 * N.of_nat k)) with (256 ^ N.of_nat k)
    by (rewrite N.pow_mul_r; done).
  rewrite (N.mul_comm 256), N.Div0.mod_mul_r. lia.
Qed.

Lemma from_to_be_bytes_small k n :
  n < 256 ^ N.of_nat k -> from_be_bytes (to_be_bytes k n) = n.
Proof. intros. rewrite from_to_be_bytes. by apply N.mod_small. Qed.

Lemma from_be_bytes_inj b1 b2 :
  length b1 = length b2 -> from_be_bytes b1 = from_be_bytes b2 -> b1 = b2.
Proof.
  revert b2. induction b1 as [|x b1 IH]; intros [|y b2]; simpl; [done..|].
  intros [= Hl] He. rewrite !from_be_bytes_cons, Hl in He.
  pose proof (from_be_bytes_lt b1) as H1. pose proof (from_be_bytes_lt b2) as H2.
  rewrite Hl in H1.
  assert (Byte.to_N x = Byte.to_N y) as Hxy by nia.
  f_equal; [by apply to_N_inj|]. apply IH; [done|nia].
Qed.

Lemma to_from_be_bytes b : to_be_bytes (length b) (from_be_bytes b) = b.
Proof.
  apply from_be_bytes_inj; [apply length_to_be_bytes|].
  apply from_to_be_bytes_small, from_be_bytes_lt.
Qed.

#[global] Arguments as_u8 : simpl never.
#[global] Arguments to_be_bytes : simpl never.
#[global] Arguments from_be_bytes : simpl never.
#[global] Arguments checked_add : simpl never.

(** ** Lexicographic order on byte strings: Rust's [Ord] for [[u8]] *)

Fixpoint cmp_bytes (a b : bytes) : comparison :=
  match a, b with
  | [], [] => Eq
  | [], _ :: _ => Lt
  | _ :: _, [] => Gt
  | x :: a', y :: b' =>
      match Byte.to_N x ?= Byte.to_N y with
      | Eq => cmp_bytes a' b'
      | c => c
      end
  end.

Definition bytes_lt (a b : bytes) : Prop := cmp_bytes a b = Lt.
Definition bytes_ltb (a b : bytes) : bool :=
  match cmp_bytes a b with Lt => true | _ => false end.
Definition bytes_leb (a b : bytes) : bool :=
  match cmp_bytes a b with Gt => false | _ => true end.

Infix "<b" := bytes_lt (at level 70) : loom_scope.
Infix "<b?" := bytes_ltb (at level 70) : loom_scope.
Infix "<=b?" := bytes_leb (at level 70) : loom_scope.
#[global] Open Scope loom_scope.

Lemma cmp_bytes_eq a b : cmp_bytes a b = Eq <-> a = b.
Proof.
  revert b. induction a as [|x a IH]; intros [|y b]; simpl; try done.
  destruct (N.compare_spec (Byte.to_N x) (Byte.to_N y)) as [H|H|H].
  - rewrite IH. apply to_N_inj in H. naive_solver.
  - split; [done|]. intros [= -> ->]. lia.
  - split; [done|]. intros [= -> ->]. lia.
Qed.

Lemma cmp_bytes_refl a : cmp_bytes a a = Eq.
Proof. by apply cmp_bytes_eq. Qed.

Lemma cmp_bytes_antisym a b : cmp_bytes b a = CompOpp (cmp_bytes a b).
Proof.
  revert b. induction a as [|x a IH]; intros [|y b]; simpl; try done.
  rewrite (N.compare_antisym (Byte.to_N x)).
  destruct (Byte.to_N x ?= Byte.to_N y); simpl; auto.
Qed.

Lemma cmp_bytes_gt a b : cmp_bytes a b = Gt <-> b <b a.
Proof. unfold bytes_lt. rewrite (cmp_bytes_antisym a b). by destruct (cmp_bytes a b). Qed.

#[global] Instance bytes_lt_trans : Transitive bytes_lt.
Proof.
  unfold bytes_lt. intros a. induction a as [|x a IH]; intros [|y b] [|z c]; simpl; try done.
  destruct (N.compare_spec (Byte.to_N x) (Byte.to_N y)) as [H|H|H];
    destruct (N.compare_spec (Byte.to_N y) (Byte.to_N z)) as [H'|H'|H'];
    destruct (N.compare_spec (Byte.to_N x) (Byte.to_N z)) as [H''|H''|H'']; try done; try lia.
  apply IH.
Qed.

#[global] Instance bytes_lt_irrefl : Irreflexive bytes_lt.
Proof. intros a. unfold complement, bytes_lt. by rewrite cmp_bytes_refl. Qed.

#[global] Instance bytes_lt_dec : RelDecision bytes_lt.
Proof. intros a b. unfold bytes_lt. apply _. Defined.

Lemma bytes_lt_trichotomy a b : a <b b \/ a = b \/ b <b a.
Proof.
  destruct (cmp_bytes a b) eqn:E.
  - right; left. by apply cmp_bytes_eq.
  - by left.
  - right; right. by apply cmp_bytes_gt.
Qed.

Lemma bytes_ltb_lt a b : (a <b? b) = true <-> a <b b.
Proof. unfold bytes_ltb, bytes_lt. by destruct (cmp_bytes a b). Qed.

Lemma bytes_ltb_ge a b : (a <b? b) = false <-> a = b \/ b <b a.
Proof.
  rewrite <-cmp_bytes_eq, <-cmp_bytes_gt. unfold bytes_ltb. destruct (cmp_bytes a b); naive_solver.
Qed.

Lemma bytes_leb_le a b : (a <=b? b) = true <-> a = b \/ a <b b.
Proof.
  rewrite <-cmp_bytes_eq. unfold bytes_leb, bytes_lt. destruct (cmp_bytes a b); naive_solver.
Qed.

Lemma bytes_leb_gt a b : (a <=b? b) = false <-> b <b a.
Proof. rewrite <-cmp_bytes_gt. unfold bytes_leb. by destruct (cmp_bytes a b). Qed.

(** [a] is at most [b]. *)
Definition bytes_le (a b : bytes) : Prop := ~ (b <b a).
Infix "<=b" := bytes_le (at level 70) : loom_scope.

Lemma bytes_le_lt a b : a <=b b <-> a = b \/ a <b b.
Proof.
  unfold bytes_le. split.
  - intros H. destruct (bytes_lt_trichotomy a b) as [?|[?|?]]; auto. done.
  - intros [->|H] H'; [by eapply bytes_lt_irrefl|]. eapply (bytes_lt_irrefl a). by etrans.
Qed.

#[global] Instance bytes_le_preorder : PreOrder bytes_le.
Proof.
  split; [intros a; apply bytes_le_lt; by left|]. intros a b c. rewrite !bytes_le_lt.
  intros [->|H1] [->|H2]; auto. right. by etrans.
Qed.

Lemma bytes_le_lt_trans a b c : a <=b b -> b <b c -> a <b c.
Proof. intros [->|H]%bytes_le_lt ?; [done|by etrans]. Qed.

Lemma bytes_lt_le_trans a b c : a <b b -> b <=b c -> a <b c.
Proof. intros H [->|H']%bytes_le_lt; [done|by etrans]. Qed.

Lemma bytes_leb_spec a b : reflect (a <=b b) (a <=b? b).
Proof.
  destruct (a <=b? b) eqn:E; constructor; [by apply bytes_le_lt, bytes_leb_le|].
  apply bytes_leb_gt in E. intros H. by apply H.
Qed.

Lemma bytes_ltb_spec a b : reflect (a <b b) (a <b? b).
Proof.
  destruct (a <b? b) eqn:E; constructor; [by apply bytes_ltb_lt|].
  apply bytes_ltb_ge in E. intros H. apply (proj2 (bytes_le_lt b a)) in H; [done|]. naive_solver.
Qed.

Lemma cmp_bytes_app q x y : cmp_bytes (q ++ x) (q ++ y) = cmp_bytes x y.
Proof. induction q as [|b q IH]; simpl; [done|]. by rewrite N.compare_refl. Qed.

Lemma bytes_lt_app q x y : q ++ x <b q ++ y <-> x <b y.
Proof. unfold bytes_lt. by rewrite cmp_bytes_app. Qed.

Lemma bytes_nil_le a : [] <=b a.
Proof. by destruct a. Qed.

(** [a.then(b)] *)
Definition cmp_then (c d : comparison) : comparison := match c with Eq => d | _ => c end.

Lemma cmp_bytes_cons x a y b :
  cmp_bytes (x :: a) (y :: b) = cmp_then (Byte.to_N x ?= Byte.to_N y) (cmp_bytes a b).
Proof. simpl. by destruct (_ ?= _). Qed.

(** Byte strings of one length are compared before what follows them. *)
Lemma cmp_bytes_app_length a b x y :
  length a = length b -> cmp_bytes (a ++ x) (b ++ y) = cmp_then (cmp_bytes a b) (cmp_bytes x y).
Proof.
  revert b. induction a as [|c a IH]; intros [|d b]; simpl; try done. intros [= Hl].
  rewrite (IH b Hl). by destruct (Byte.to_N c ?= Byte.to_N d).
Qed.

(** So are byte strings neither of which is a prefix of the other. *)
Lemma cmp_bytes_app_then a b x y :
  (forall x y, a ++ x = b ++ y -> a = b) ->
  cmp_bytes (a ++ x) (b ++ y) = cmp_then (cmp_bytes a b) (cmp_bytes x y).
Proof.
  revert b. induction a as [|c a IH]; intros [|d b] H; simpl; try done.
  - discriminate (H (d :: b) []). simpl. by rewrite app_nil_r.
  - discriminate (H [] (c :: a)). simpl. by rewrite app_nil_r.
  - destruct (N.compare_spec (Byte.to_N c) (Byte.to_N d)) as [E%to_N_inj| |]; try done. subst d.
    apply IH. intros x' y' E. specialize (H x' y'). simpl in H. rewrite E in H. by injection (H eq_refl).
Qed.

(** Big-endian integers compare as numbers. *)
Lemma cmp_to_be_bytes k m n :
  m < 256 ^ N.of_nat k -> n < 256 ^ N.of_nat k -> cmp_bytes (to_be_bytes k m) (to_be_bytes k n) = (m ?= n).
Proof.
  intros Hm Hn. rewrite <-(from_to_be_bytes_small k m), <-(from_to_be_bytes_small k n) at 2 by done.
  assert (length (to_be_bytes k m) = length (to_be_bytes k n)) as Hl by by rewrite !length_to_be_bytes.
  revert Hl. generalize (to_be_bytes k m) (to_be_bytes k n). clear. intros a.
  induction a as [|x a IH]; intros [|y b]; try done. intros [= Hl].
  rewrite cmp_bytes_cons, (IH b Hl), !from_be_bytes_cons, Hl.
  pose proof (from_be_bytes_lt a) as Ha. pose proof (from_be_bytes_lt b). rewrite Hl in Ha.
  destruct (N.compare_spec (Byte.to_N x) (Byte.to_N y)) as [E|E|E]; simpl.
  - rewrite E. case (N.compare_spec (from_be_bytes a)); case (N.compare_spec (_ + _)); intros; (done || lia).
  - symmetry. apply N.compare_lt_iff. nia.
  - symmetry. apply N.compare_gt_iff. nia.
Qed.

(** ** Sorting by a byte-string key *)

Section SortBy.
Context {A : Type} (key : A -> bytes).

(** [slice::sort_by(|a, b| key(a).cmp(key(b)))]: a stable sort. *)
Fixpoint insert_by (x : A) (l : list A) : list A :=
  match l with
  | [] => [x]
  | y :: l' => if key x <=b? key y then x :: l else y :: insert_by x l'
  end.

Definition sort_by (l : list A) : list A := foldr insert_by [] l.

(** [l.windows(2).any(|w| key(w[0]) == key(w[1]))] *)
Fixpoint adjacent_dup (l : list A) : bool :=
  match l with
  | x :: ((y :: _) as l') => bool_decide (key x = key y) || adjacent_dup l'
  | _ => false
  end.

Definition key_lt (x y : A) : Prop := key x <b key y.
Definition key_le (x y : A) : Prop := key x = key y \/ key x <b key y.
Definition sorted_by (l : list A) : Prop := StronglySorted key_lt l.

#[global] Instance key_lt_trans : Transitive key_lt.
Proof. intros x y z. unfold key_lt. apply transitivity. Qed.

#[global] Instance key_le_trans : Transitive key_le.
Proof.
  intros x y z [H1|H1] [H2|H2]; unfold key_le; rewrite ?H1, <-?H2 in *; auto.
  right. by etrans.
Qed.

Lemma insert_by_perm x l : insert_by x l ≡ₚ x :: l.
Proof.
  induction l as [|y l IH]; simpl; [done|].
  destruct (key x <=b? key y); [done|]. rewrite IH. apply Permutation_swap.
Qed.

Lemma sort_by_perm l : sort_by l ≡ₚ l.
Proof.
  induction l as [|x l IH]; simpl; [done|]. by rewrite insert_by_perm, IH.
Qed.

Lemma length_sort_by l : length (sort_by l) = length l.
Proof. by rewrite sort_by_perm. Qed.

Lemma insert_by_sorted x l : StronglySorted key_le l -> StronglySorted key_le (insert_by x l).
Proof.
  induction 1 as [|y l Hl IH Hy]; simpl; [by repeat constructor|].
  destruct (key x <=b? key y) eqn:E.
  - apply bytes_leb_le in E. constructor; [by constructor|].
    constructor; [done|]. eapply Forall_impl; [done|].
    intros z ?. by trans y.
  - apply bytes_leb_gt in E. constructor; [done|].
    rewrite insert_by_perm. constructor; [by right|done].
Qed.

Lemma sort_by_sorted l : StronglySorted key_le (sort_by l).
Proof. induction l; simpl; [constructor|by apply insert_by_sorted]. Qed.

(** Without adjacent duplicates a sorted list is strictly sorted. *)
Lemma sorted_by_no_dup l :
  StronglySorted key_le l -> adjacent_dup l = false -> sorted_by l.
Proof.
  intros H1 H2. apply Sorted_StronglySorted; [apply _|].
  induction H1 as [|x l Hl IH Hx]; [constructor|].
  destruct l as [|y l]; [by repeat constructor|]. simpl in H2.
  apply orb_false_iff in H2 as [H2 H3]. apply bool_decide_eq_false in H2.
  constructor; [by apply IH|]. constructor.
  apply Forall_cons in Hx as [[?|?] _]; done.
Qed.

Lemma sorted_by_adjacent_dup l : sorted_by l -> adjacent_dup l = false.
Proof.
  induction 1 as [|x l Hl IH Hx]; [done|]. destruct l as [|y l]; [done|]. simpl.
  apply orb_false_iff. split; [|apply IH].
  apply bool_decide_eq_false. intros E. apply Forall_cons in Hx as [Hx _].
  unfold key_lt in Hx. rewrite E in Hx. by eapply bytes_lt_irrefl.
Qed.

Lemma sort_by_id l : sorted_by l -> sort_by l = l.
Proof.
  induction 1 as [|x l Hl IH Hx]; simpl; [done|]. rewrite IH.
  destruct l as [|y l]; simpl; [done|]. apply Forall_cons in Hx as [Hx _].
  destruct (key x <=b? key y) eqn:E; [done|]. apply bytes_leb_gt in E.
  exfalso. eapply (bytes_lt_irrefl (key x)). by etrans.
Qed.

Lemma sorted_by_cons_inv x l :
  sorted_by (x :: l) -> sorted_by l /\ Forall (key_lt x) l.
Proof. apply StronglySorted_inv. Qed.

Lemma sorted_by_app l1 l2 :
  sorted_by (l1 ++ l2) <->
  sorted_by l1 /\ sorted_by l2 /\ (forall x y, x ∈ l1 -> y ∈ l2 -> key_lt x y).
Proof.
  induction l1 as [|x l1 IH]; simpl.
  - split; [|naive_solver]. intros H. split; [constructor|]. split; [done|]. set_solver.
  - split.
    + intros [H1 H2]%sorted_by_cons_inv. apply IH in H1 as (H3 & H4 & H5).
      apply Forall_app in H2 as [H6 H7]. rewrite Forall_forall in H7.
      split; [by constructor|]. split; [done|]. intros y z Hy. set_solver.
    + intros ([H1 H2]%sorted_by_cons_inv & H3 & H4). constructor.
      * apply IH. split; [done|]. split; [done|]. set_solver.
      * apply Forall_app. split; [done|]. apply Forall_forall. set_solver.
Qed.

(** Appending above the last element keeps a list sorted. *)
Lemma sorted_by_snoc l x :
  sorted_by l -> (forall y, last l = Some y -> key_lt y x) -> sorted_by (l ++ [x]).
Proof.
  intros Hl Hx. apply sorted_by_app. split; [done|]. split; [by repeat constructor|].
  intros y z Hy ->%list_elem_of_singleton. revert Hl Hx Hy.
  induction l as [|w l IH] using rev_ind; [set_solver|].
  intros (Hl & _ & Hlt)%sorted_by_app Hx Hy. rewrite last_snoc in Hx.
  specialize (Hx w eq_refl). apply elem_of_app in Hy as [Hy| ->%list_elem_of_singleton]; [|done].
  trans w; [|done]. apply Hlt; [done|]. set_solver.
Qed.

Lemma sorted_by_inj l x y : sorted_by l -> x ∈ l -> y ∈ l -> key x = key y -> x = y.
Proof.
  intros Hs. induction Hs as [|z l Hl IH Hz]; [set_solver|].
  rewrite Forall_forall in Hz. unfold key_lt in Hz.
  intros [->|Hx]%elem_of_cons [->|Hy]%elem_of_cons E; [done|..|by apply IH].
  - exfalso. specialize (Hz _ Hy). rewrite E in Hz. by eapply bytes_lt_irrefl.
  - exfalso. specialize (Hz _ Hx). rewrite E in Hz. by eapply bytes_lt_irrefl.
Qed.

(** Two strictly sorted lists with the same elements are equal. *)
Lemma sorted_by_unique l1 l2 :
  sorted_by l1 -> sorted_by l2 -> (forall x, x ∈ l1 <-> x ∈ l2) -> l1 = l2.
Proof.
  intros H1. revert l2. induction H1 as [|x l1 Hl1 IH Hx]; intros l2 H2 Hiff.
  - destruct l2 as [|y l2]; [done|]. exfalso. destruct (Hiff y). set_solver.
  - destruct H2 as [|y l2 Hl2 Hy]; [exfalso; destruct (Hiff x); set_solver|].
    rewrite Forall_forall in Hx, Hy.
    assert (x = y) as ->.
    { assert (x ∈ y :: l2) as [?|?]%elem_of_cons by (apply Hiff; set_solver); [done|].
      assert (y ∈ x :: l1) as [?|?]%elem_of_cons by (apply Hiff; set_solver); [done|].
      exfalso. eapply (bytes_lt_irrefl (key x)). trans (key y); [by apply Hx|by apply Hy]. }
    f_equal. apply IH; [done|]. intros z.
    assert (forall l : list A, (forall w, w ∈ l -> key_lt y w) -> y ∉ l) as Hn.
    { intros l Hl Hin. by eapply (bytes_lt_irrefl (key y)), Hl. }
    pose proof (Hn _ Hx). pose proof (Hn _ Hy). specialize (Hiff z). set_solver.
Qed.
Lemma sorted_by_NoDup l : sorted_by l -> NoDup (map key l).
Proof.
  induction 1 as [|x l Hl IH Hx]; simpl; constructor; [|done].
  intros (y & Hy & Hin)%list_elem_of_fmap. rewrite Forall_forall in Hx. specialize (Hx y Hin).
  unfold key_lt in Hx. rewrite Hy in Hx. by eapply bytes_lt_irrefl.
Qed.

Lemma NoDup_adjacent_dup l : NoDup (map key l) -> adjacent_dup l = false.
Proof.
  induction l as [|x l IH]; [done|]. destruct l as [|y l]; [done|].
  simpl map. intros [Hx Hl]%NoDup_cons. apply orb_false_iff. split; [|by apply IH].
  apply bool_decide_eq_false. intros E. apply Hx. rewrite E. left.
Qed.

(** The duplicate check of a sorted list finds exactly the repeated keys. *)
Lemma adjacent_dup_sort l : adjacent_dup (sort_by l) = false <-> NoDup (map key l).
Proof.
  rewrite <-(Permutation_map key (sort_by_perm l)). split; [|apply NoDup_adjacent_dup].
  intros H. apply sorted_by_NoDup, sorted_by_no_dup; [apply sort_by_sorted|done].
Qed.

(** Sorting forgets the order of a list without repeated keys. *)
Lemma sort_by_perm_eq l1 l2 : l1 ≡ₚ l2 -> NoDup (map key l1) -> sort_by l1 = sort_by l2.
Proof.
  intros Hp Hn. apply sorted_by_unique.
  - apply sorted_by_no_dup; [apply sort_by_sorted|by apply adjacent_dup_sort].
  - apply sorted_by_no_dup; [apply sort_by_sorted|]. apply adjacent_dup_sort. by rewrite <-Hp.
  - intros x. by rewrite !sort_by_perm, Hp.
Qed.
End SortBy.

Lemma sort_by_map {A B} (keyA : A -> bytes) (keyB : B -> bytes) (f : A -> B) l :
  (forall x, keyB (f x) = keyA x) -> sort_by keyB (map f l) = map f (sort_by keyA l).
Proof.
  intros H. induction l as [|x l IH]; simpl; [done|]. rewrite IH.
  generalize (sort_by keyA l). intros k. induction k as [|y k IHk]; simpl; [done|].
  rewrite !H. destruct (keyA x <=b? keyA y); simpl; congruence.
Qed.

Lemma sorted_by_map {A B} (keyA : A -> bytes) (keyB : B -> bytes) (f : A -> B) l :
  (forall x, keyB (f x) = keyA x) -> sorted_by keyB (map f l) <-> sorted_by keyA l.
Proof.
  intros H. induction l as [|x l IH]; simpl; [split; constructor|].
  assert (Forall (key_lt keyB (f x)) (map f l) <-> Forall (key_lt keyA x) l) as Hf.
  { rewrite Forall_map. apply Forall_iff. intros y. unfold key_lt. simpl. by rewrite !H. }
  split; intros [Hs Hx]%sorted_by_cons_inv; constructor; naive_solver.
Qed.

Lemma forallb_perm {A} (f : A -> bool) l1 l2 : l1 ≡ₚ l2 -> forallb f l1 = forallb f l2.
Proof. induction 1; simpl; try congruence. by destruct (f x), (f y). Qed.

(** ** Ordered maps: the iteration order of a [BTreeMap] with byte-string keys *)

Definition btree_iter {A} (m : gmap bytes A) : list (bytes * A) := sort_by fst (map_to_list m).

Lemma btree_iter_perm {A} (m : gmap bytes A) : btree_iter m ≡ₚ map_to_list m.
Proof. apply sort_by_perm. Qed.

Lemma btree_iter_NoDup {A} (m : gmap bytes A) : NoDup (map fst (btree_iter m)).
Proof. unfold btree_iter. rewrite sort_by_perm. apply NoDup_fst_map_to_list. Qed.

Lemma btree_iter_sorted {A} (m : gmap bytes A) : sorted_by fst (btree_iter m).
Proof.
  apply sorted_by_no_dup; [apply sort_by_sorted|]. apply adjacent_dup_sort, NoDup_fst_map_to_list.
Qed.

Lemma elem_of_btree_iter {A} (m : gmap bytes A) k v : (k, v) ∈ btree_iter m <-> m !! k = Some v.
Proof. unfold btree_iter. by rewrite sort_by_perm, elem_of_map_to_list. Qed.

Lemma list_to_map_btree_iter {A} (m : gmap bytes A) : list_to_map (btree_iter m) = m.
Proof.
  rewrite (list_to_map_proper _ (map_to_list m)); [apply list_to_map_to_list|apply btree_iter_NoDup|].
  apply btree_iter_perm.
Qed.

Lemma btree_iter_list_to_map {A} (l : list (bytes * A)) :
  NoDup (map fst l) -> btree_iter (list_to_map (M := gmap bytes A) l) ≡ₚ l.
Proof. intros H. rewrite btree_iter_perm. by apply map_to_list_to_map. Qed.

(** [into_iter().collect::<BTreeMap<_, _>>()]: a later entry replaces an earlier one. *)
Definition collect_map {A} (l : list (bytes * A)) : gmap bytes A :=
  foldl (fun m e => <[e.1 := e.2]> m) ∅ l.

Lemma collect_map_nodup {A} (l : list (bytes * A)) : NoDup (map fst l) -> collect_map l = list_to_map l.
Proof.
  intros Hn. unfold collect_map. cut (forall m : gmap bytes A, foldl (fun m e => <[e.1 := e.2]> m) m l = list_to_map l ∪ m).
  { intros ->. by rewrite (right_id_L ∅ (∪)). }
  induction l as [|[k v] l IH]; intros m; cbn [foldl fst snd map] in *.
  - by rewrite list_to_map_nil, (left_id_L ∅ (∪)).
  - apply NoDup_cons in Hn as [Hk Hn]. rewrite IH by done. rewrite list_to_map_cons.
    rewrite <-insert_union_r, insert_union_l; [done|]. by apply not_elem_of_list_to_map_1.
Qed.

Lemma collect_map_btree_iter {A} (m : gmap bytes A) : collect_map (btree_iter m) = m.
Proof. rewrite collect_map_nodup by apply btree_iter_NoDup. apply list_to_map_btree_iter. Qed.

(** [k.starts_with(prefix)] *)
Fixpoint starts_with (k prefix : bytes) {struct prefix} : bool :=
  match prefix, k with
  | [], _ => true
  | p :: prefix', x :: k' => bool_decide (p = x) && starts_with k' prefix'
  | _ :: _, [] => false
  end.

Lemma starts_with_app k p : starts_with k p = true <-> exists r, k = p ++ r.
Proof.
  revert k. induction p as [|b p IH]; intros k; [split; [by exists k|done]|].
  destruct k as [|x k]; simpl; [split; [done|by intros (r & [=])]|]. rewrite andb_true_iff, bool_decide_eq_true, IH.
  split; [intros (-> & r & ->); eauto|]. intros (r & [= -> ->]). eauto.
Qed.

(** The bytes of a string literal. *)
Definition str (s : String.string) : bytes := String.list_byte_of_string s.
#[global] Arguments str s%_string_scope.

(** ** UTF-8 validity: [core::str::from_utf8(s).is_ok()]

    The well-formed sequences of the Unicode standard, table 3-7, which is what Rust's
    [from_utf8] accepts: no overlong form, no surrogate, nothing above U+10FFFF. *)

Definition in_range (lo hi : N) (b : byte) : bool := (lo <=? Byte.to_N b) && (Byte.to_N b <=? hi).
Definition is_cont (b : byte) : bool := in_range 128 191 b.

(** The range of the second byte of a three-byte, four-byte sequence with leading byte [b]. *)
Definition second_of_3 (b : byte) (c : byte) : bool :=
  match Byte.to_N b with
  | 224 => in_range 160 191 c
  | 237 => in_range 128 159 c
  | _ => is_cont c
  end.
Definition second_of_4 (b : byte) (c : byte) : bool :=
  match Byte.to_N b with
  | 240 => in_range 144 191 c
  | 244 => in_range 128 143 c
  | _ => is_cont c
  end.

Fixpoint valid_utf8 (s : bytes) : bool :=
  match s with
  | [] => true
  | b1 :: s1 =>
      if Byte.to_N b1 <? 128 then valid_utf8 s1
      else match s1 with
      | [] => false
      | b2 :: s2 =>
          if in_range 194 223 b1 then is_cont b2 && valid_utf8 s2
          else match s2 with
          | [] => false
          | b3 :: s3 =>
              if in_range 224 239 b1 then second_of_3 b1 b2 && is_cont b3 && valid_utf8 s3
              else match s3 with
              | [] => false
              | b4 :: s4 =>
                  in_range 240 244 b1 && second_of_4 b1 b2 && is_cont b3 && is_cont b4
                  && valid_utf8 s4
              end
          end
      end
  end.

(** ** Counted loops

    [for _ in 0..n { body }] with an early return on an error, for a 64-bit [n] taken from the
    input. The recursion is on the binary representation of [n], so an error ends the loop at once
    whatever [n] is. *)

Section ForLoop.
Context {E S : Type} (body : S -> result E S).

Fixpoint for_pos (p : positive) (s : S) : result E S :=
  match p with
  | xH => body s
  | xO p' => s' ← for_pos p' s; for_pos p' s'
  | xI p' => s' ← body s; s'' ← for_pos p' s'; for_pos p' s''
  end.

Definition for_range (n : N) (s : S) : result E S :=
  match n with N0 => Ok s | Npos p => for_pos p s end.

(** The same loop counted in unary. *)
Fixpoint for_nat (n : nat) (s : S) : result E S :=
  match n with O => Ok s | Datatypes.S n' => s' ← body s; for_nat n' s' end.

Lemma for_nat_add n m s : for_nat (n + m) s = (s' ← for_nat n s; for_nat m s').
Proof.
  revert s. induction n as [|n IH]; intros s; simpl; [done|].
  destruct (body s) as [s'|]; simpl; [apply IH|done].
Qed.

Lemma for_pos_nat p s : for_pos p s = for_nat (Pos.to_nat p) s.
Proof.
  revert s. induction p as [p IH|p IH|]; intros s; cbn [for_pos].
  - rewrite Pos2Nat.inj_xI. cbn [for_nat Nat.mul]. destruct (body s) as [s'|]; simpl; [|done].
    rewrite Nat.add_0_r, for_nat_add, IH. destruct (for_nat _ s'); simpl; [apply IH|done].
  - rewrite Pos2Nat.inj_xO. cbn [Nat.mul]. rewrite Nat.add_0_r, for_nat_add, IH.
    destruct (for_nat _ s); simpl; [apply IH|done].
  - simpl. by destruct (body s).
Qed.

Lemma for_range_nat n s : for_range n s = for_nat (N.to_nat n) s.
Proof. destruct n as [|p]; [done|]. apply for_pos_nat. Qed.

(** Loop rule: an invariant indexed by the number of iterations done. *)
Lemma for_nat_inv (I : nat -> S -> Prop) n k s s' :
  (forall j t t', I j t -> body t = Ok t' -> I (j + 1)%nat t') ->
  I k s -> for_nat n s = Ok s' -> I (k + n)%nat s'.
Proof.
  intros Hstep. revert k s. induction n as [|n IH]; simpl; intros k s HI H.
  - injection H as <-. by rewrite Nat.add_0_r.
  - destruct (body s) as [t|] eqn:Eb; simpl in H; [|done].
    replace (k + Datatypes.S n)%nat with ((k + 1) + n)%nat by lia.
    eapply IH; [|done]. by eapply Hstep.
Qed.
End ForLoop.

(** A fallible computation under a bound on the rounds of its loops: [None] when the bound was too
    small, otherwise what the code returns. *)
Definition run_bind {E A B} (m : option (result E A)) (f : A -> option (result E B)) : option (result E B) :=
  match m with
  | None => None
  | Some (Err e) => Some (Err e)
  | Some (Ok x) => f x
  end.

Notation "x ⇠ m ; k" := (run_bind m (fun x => k)) (at level 20, m at level 100, k at level 200, right associativity) : loom_scope.

(** [for x in l { acc = body(acc, x)? }] with such a body. *)
Fixpoint run_fold {E A S} (body : S -> A -> option (result E S)) (s : S) (l : list A) : option (result E S) :=
  match l with
  | [] => Some (Ok s)
  | x :: l => s' ⇠ body s x; run_fold body s' l
  end.

Section TryList.
Context {E A S : Type}.

(** [for x in l { acc = body(acc, x)? }] *)
Section Fold.
Context (body : S -> A -> result E S).

Fixpoint try_fold (s : S) (l : list A) : result E S :=
  match l with
  | [] => Ok s
  | x :: l' => s' ← body s x; try_fold s' l'
  end.
End Fold.

(** [l.iter().map(f).collect::<Result<_, _>>()] *)
Section Map.
Context (f : A -> result E S).

Fixpoint try_map (l : list A) : result E (list S) :=
  match l with
  | [] => Ok []
  | x :: l' => y ← f x; ys ← try_map l'; Ok (y :: ys)
  end.
End Map.
End TryList.

Lemma try_fold_app {E A S} (body : S -> A -> result E S) s l1 l2 :
  try_fold body s (l1 ++ l2) = s' ← try_fold body s l1; try_fold body s' l2.
Proof. revert s. induction l1 as [|x l1 IH]; intros s; cbn [app try_fold]; [done|]. by destruct (body s x); cbn; [apply IH|]. Qed.

Lemma try_map_Ok {E A B} (f : A -> result E B) l l' :
  try_map f l = Ok l' <-> Forall2 (fun x y => f x = Ok y) l l'.
Proof.
  revert l'. induction l as [|x l IH]; simpl; intros l'.
  - split; [intros [= <-]; constructor|]. by inversion 1.
  - split.
    + destruct (f x) as [y|] eqn:Ex; simpl; [|done].
      destruct (try_map f l) as [ys|]; simpl; [|done]. intros [= <-].
      constructor; [done|]. by apply IH.
    + inversion 1 as [|? y ? ys Hx Hl]; subst. rewrite Hx. simpl.
      apply IH in Hl. by rewrite Hl.
Qed.

Lemma try_map_fmap {E A B C} (f : B -> result E C) (g : A -> B) (h : A -> C) l :
  (forall x, x ∈ l -> f (g x) = Ok (h x)) -> try_map f (g <$> l) = Ok (h <$> l).
Proof.
  intros H. apply try_map_Ok, Forall2_fmap, Forall2_same_length_lookup_2; [done|].
  intros i x y Hx Hy. simplify_eq. apply H. by eapply list_elem_of_lookup_2.
Qed.

(** ** Binary search: [slice::binary_search_by(|(k, _)| k.cmp(key))]

    The loop of the standard library: halve the candidate range until one element is left. *)

Fixpoint bsearch_loop (fuel : nat) (cmp : nat -> comparison) (base size : nat) : nat :=
  match fuel with
  | O => base
  | S fuel' =>
      if (size <=? 1)%nat then base
      else
        let half := (size / 2)%nat in
        let mid := (base + half)%nat in
        bsearch_loop fuel' cmp (match cmp mid with Gt => base | _ => mid end) (size - half)%nat
  end.

Section BinarySearch.
Context {A : Type}.
Implicit Types (l : list (bytes * A)) (k : bytes).

Definition key_at l (i : nat) : bytes := from_option fst [] (l !! i).

Definition binary_search l k : result nat nat :=
  match l with
  | [] => Err O
  | _ =>
      let cmp i := cmp_bytes (key_at l i) k in
      let base := bsearch_loop (length l) cmp O (length l) in
      match cmp base with
      | Eq => Ok base
      | Lt => Err (S base)
      | Gt => Err base
      end
  end.

Lemma sorted_key_at l i j :
  sorted_by fst l -> (i < j < length l)%nat -> key_at l i <b key_at l j.
Proof.
  intros Hs [Hij Hj]. destruct (lookup_lt_is_Some_2 l i) as [x Hx]; [lia|].
  destruct (lookup_lt_is_Some_2 l j) as [y Hy]; [lia|]. unfold key_at. rewrite Hx, Hy. simpl.
  rewrite <-(take_drop j l) in Hs. apply sorted_by_app in Hs as (_ & _ & H). apply H.
  - apply list_elem_of_lookup. exists i. rewrite lookup_take_lt; [done|lia].
  - apply list_elem_of_lookup. exists O. rewrite lookup_drop, Nat.add_0_r. done.
Qed.

(** The loop keeps the keys below the range at most [k] and the keys above it greater. *)
Lemma bsearch_loop_spec l k fuel base size :
  sorted_by fst l -> (0 < size <= fuel)%nat -> (base + size <= length l)%nat ->
  (base <> O -> cmp_bytes (key_at l base) k <> Gt) ->
  ((base + size < length l)%nat -> cmp_bytes (key_at l (base + size)) k = Gt) ->
  let b := bsearch_loop fuel (fun i => cmp_bytes (key_at l i) k) base size in
  (b < length l)%nat /\ (b <> O -> cmp_bytes (key_at l b) k <> Gt)
  /\ ((S b < length l)%nat -> cmp_bytes (key_at l (S b)) k = Gt).
Proof.
  intros Hs. revert base size. induction fuel as [|fuel IH]; intros base size Hf Hb Hlo Hhi; [lia|].
  cbn [bsearch_loop]. destruct (Nat.leb_spec size 1) as [H1|H1].
  - assert (size = 1%nat) as -> by lia. rewrite Nat.add_1_r in Hhi. simpl. split; [lia|done].
  - pose proof (Nat.div_lt size 2 ltac:(lia) ltac:(lia)).
    assert (1 <= size / 2)%nat by (apply (Nat.div_le_lower_bound size 2 1); lia).
    destruct (cmp_bytes (key_at l (base + size / 2)) k) eqn:E; apply IH; try lia.
    + intros _. by rewrite E.
    + replace (base + size / 2 + (size - size / 2))%nat with (base + size)%nat by lia. done.
    + intros _. by rewrite E.
    + replace (base + size / 2 + (size - size / 2))%nat with (base + size)%nat by lia. done.
    + done.
    + intros H2. destruct (decide (base + (size - size / 2) = base + size / 2)%nat) as [->|]; [done|].
      apply cmp_bytes_gt. apply cmp_bytes_gt in E. trans (key_at l (base + size / 2)); [done|].
      apply sorted_key_at; [done|]. pose proof (Nat.div_mod_eq size 2).
      pose proof (Nat.mod_upper_bound size 2). lia.
Qed.

(** On a sorted slice the search splits it at the key. *)
Lemma binary_search_Ok l k i :
  sorted_by fst l -> binary_search l k = Ok i ->
  exists v, l = take i l ++ (k, v) :: drop (S i) l.
Proof.
  intros Hs. unfold binary_search. destruct l as [|x l']; [done|]. set (l := x :: l') in *.
  destruct (bsearch_loop_spec l k (length l) O (length l)) as (Hb & _ & _); try done; try (simpl; lia).
  destruct (cmp_bytes _ _) eqn:E; try done. intros [= <-]. apply cmp_bytes_eq in E.
  set (b := bsearch_loop _ _ _ _) in *. destruct (lookup_lt_is_Some_2 l b Hb) as [[k' v] Hx].
  unfold key_at in E. rewrite Hx in E. simpl in E. subst k'. exists v.
  by rewrite <-(take_drop_middle l b (k, v)) at 1.
Qed.

Lemma binary_search_Err l k i :
  sorted_by fst l -> binary_search l k = Err i ->
  (i <= length l)%nat /\ Forall (fun e => e.1 <b k) (take i l) /\ Forall (fun e => k <b e.1) (drop i l).
Proof.
  intros Hs. unfold binary_search. destruct l as [|x l']; [by intros [= <-]|]. set (l := x :: l') in *.
  destruct (bsearch_loop_spec l k (length l) O (length l)) as (Hb & Hlo & Hhi); try done; try (simpl; lia).
  set (b := bsearch_loop _ _ _ _) in *.
  assert (forall j, (forall m, (m < j)%nat -> (m < length l)%nat -> key_at l m <b k) ->
    Forall (fun e => e.1 <b k) (take j l)) as Htake.
  { intros j H. apply Forall_lookup. intros m e [Hm Hlt]%lookup_take_Some.
    specialize (H m Hlt (lookup_lt_Some _ _ _ Hm)). unfold key_at in H. by rewrite Hm in H. }
  assert (forall j, (forall m, (j <= m < length l)%nat -> k <b key_at l m) ->
    Forall (fun e => k <b e.1) (drop j l)) as Hdrop.
  { intros j H. apply Forall_lookup. intros m e Hm. rewrite lookup_drop in Hm.
    pose proof (lookup_lt_Some _ _ _ Hm). specialize (H (j + m)%nat ltac:(lia)). unfold key_at in H.
    by rewrite Hm in H. }
  destruct (cmp_bytes (key_at l b) k) eqn:E; intros [= <-]; [split_and!..]; try lia.
  - apply Htake. intros m Hm _. destruct (decide (m = b)) as [->|]; [done|].
    trans (key_at l b); [|done]. apply sorted_key_at; [done|lia].
  - apply Hdrop. intros m Hm. assert (S b < length l)%nat as Hsb by lia.
    pose proof (proj1 (cmp_bytes_gt _ _) (Hhi Hsb)) as Hk.
    destruct (decide (m = S b)) as [->|]; [done|]. etrans; [exact Hk|]. apply sorted_key_at; [done|lia].
  - destruct (decide (b = O)) as [E0|E0]; [|by apply Hlo in E0]. rewrite E0. constructor.
  - apply Hdrop. intros m Hm. apply cmp_bytes_gt in E. destruct (decide (m = b)) as [->|]; [done|].
    etrans; [exact E|]. apply sorted_key_at; [done|lia].
Qed.
End BinarySearch.

(** Inverting a fallible map whose function has an inverse. *)
Lemma try_map_inv {E A B} (f : A -> result E B) (g : B -> A) (P : B -> Prop) l l' :
  (forall x y, f x = Ok y -> x = g y /\ P y) -> try_map f l = Ok l' -> l = map g l' /\ Forall P l'.
Proof.
  intros Hf H%try_map_Ok. induction H as [|x y l l' Hx _ [-> IH]]; [done|].
  apply Hf in Hx as [-> Hy]. split; [done|by constructor].
Qed.

Lemma try_map_compose {E A B C} (f : B -> result E C) (g : A -> B) l :
  try_map f (map g l) = try_map (fun x => f (g x)) l.
Proof. induction l as [|x l IH]; simpl; [done|]. by rewrite IH. Qed.

Lemma filter_all {A} (P : A -> Prop) `{!forall x, Decision (P x)} l : Forall P l -> filter P l = l.
Proof. induction 1 as [|x l Hx _ IH]; [done|]. rewrite filter_cons_True by done. by rewrite IH. Qed.

Lemma filter_nothing {A} (P : A -> Prop) `{!forall x, Decision (P x)} l :
  Forall (fun x => ~ P x) l -> filter P l = [].
Proof. induction 1 as [|x l Hx _ IH]; [done|]. by rewrite filter_cons_False. Qed.

Lemma filter_sorted {A} (key : A -> bytes) (P : A -> Prop) `{!forall x, Decision (P x)} l :
  sorted_by key l -> sorted_by key (filter P l).
Proof.
  induction 1 as [|x l Hl IH Hx]; [constructor|]. rewrite filter_cons. case_decide; [|done].
  constructor; [done|]. rewrite Forall_forall in Hx |- *. intros y [_ Hy]%list_elem_of_filter. by apply Hx.
Qed.

(** ** Automation *)

Create HintDb loom discriminated.
#[export] Hint Resolve to_N_lt from_be_bytes_lt : loom.
Create Rewrite HintDb loom.
#[export] Hint Rewrite @length_to_be_bytes @length_sort_by : loom.
