(* ===== verification/Codec.v ===== *)
(** * Loom Canonical CBOR v1 (crates/loom-codec/src/lib.rs)

    The value model, the canonical encoder, the strict decoder and the object framing, with the
    theorems that make the codec a bijection between canonical values and accepted byte strings. *)

From S2P Require Import Prelude.

Module Codec.

Definition EPOCH : N := 1.
Definition MAX_DEPTH : nat := 128.

(** A [String] is its UTF-8 bytes; an [f64] is its 64-bit IEEE pattern. *)
#[warnings="-register-all"]
Inductive Value : Type :=
| Uint (n : N)
| Nint (n : N)
| Bytes (b : bytes)
| Text (s : bytes)
| Array (items : list Value)
| Map (pairs : list (Value * Value))
| Float (f : N)
| Bool (b : bool)
| Null.

(** [Value::int]: the argument is an [i64]. *)
Definition int (v : Z) : Value :=
  if (0 <=? v)%Z then Uint (Z.to_N v) else Nint (Z.to_N (-1 - v)).

Inductive CodecError : Type :=
| UnexpectedEof
| TrailingBytes
| IndefiniteLength
| NonMinimalInt
| ReservedAdditionalInfo
| InvalidUtf8
| UnsortedMapKeys
| DuplicateMapKey
| Tag
| NonCanonicalFloat
| UnsupportedSimpleValue
| DepthExceeded
| NotAnObject
| WrongEpoch.

(** ** Floats as bit patterns *)

(** [f.is_finite()]: the biased exponent is not all ones. *)
Definition is_finite (f : N) : bool := negb (N.land (N.shiftr f 52) 2047 =? 2047).
(** [f == 0.0]: either zero. *)
Definition is_zero (f : N) : bool := (f =? 0) || (f =? 2 ^ 63).
Definition is_sign_negative (f : N) : bool := N.testbit f 63.

#[global] Arguments is_finite : simpl never.
#[global] Arguments is_zero : simpl never.
#[global] Arguments is_sign_negative : simpl never.

(** ** Encode *)

Definition put_head (out : bytes) (major arg : N) : bytes :=
  let m := N.shiftl major 5 in
  if arg <=? 23 then out ++ [as_u8 (N.lor m arg)]
  else if arg <=? u8_max then out ++ [as_u8 (N.lor m 24)] ++ [as_u8 arg]
  else if arg <=? u16_max then out ++ [as_u8 (N.lor m 25)] ++ to_be_bytes 2 arg
  else if arg <=? u32_max then out ++ [as_u8 (N.lor m 26)] ++ to_be_bytes 4 arg
  else out ++ [as_u8 (N.lor m 27)] ++ to_be_bytes 8 arg.

#[global] Arguments put_head : simpl never.

Definition len {A} (l : list A) : N := N.of_nat (length l).

Fixpoint encode_into (out : bytes) (value : Value) : result CodecError bytes :=
  match value with
  | Uint n => Ok (put_head out 0 n)
  | Nint n => Ok (put_head out 1 n)
  | Bytes b => Ok (put_head out 2 (len b) ++ b)
  | Text s => Ok (put_head out 3 (len s) ++ s)
  | Array items =>
      try_fold (fun out item => encode_into out item) (put_head out 4 (len items)) items
  | Map pairs =>
      encoded ← try_map (fun kv =>
        k ← encode_into [] kv.1; v ← encode_into [] kv.2; Ok (k, v)) pairs;
      let encoded := sort_by fst encoded in
      if adjacent_dup fst encoded then Err DuplicateMapKey
      else Ok (foldl (fun out kv => (out ++ kv.1) ++ kv.2) (put_head out 5 (len encoded)) encoded)
  | Float f =>
      if negb (is_finite f) then Err NonCanonicalFloat
      else let normalized := if is_zero f then 0 else f in
           Ok (out ++ [as_u8 (N.lor (N.shiftl 7 5) 27)] ++ to_be_bytes 8 normalized)
  | Bool b => Ok (out ++ [if b then xf5 else xf4])
  | Null => Ok (out ++ [xf6])
  end.

Definition encode (value : Value) : result CodecError bytes := encode_into [] value.

Definition encode_object (type_code : N) (fields : list Value) : result CodecError bytes :=
  encode (Array (Uint EPOCH :: Uint type_code :: fields)).

(** ** Decode *)

Record Reader : Type := mkReader { buf : bytes; pos : nat }.

Definition reader_byte (r : Reader) : result CodecError (byte * Reader) :=
  b ← ok_or (buf r !! pos r) UnexpectedEof;
  Ok (b, mkReader (buf r) (pos r + 1)).

(** [take]: the end of the slice must not overflow a [usize] and must lie in the buffer. *)
Definition reader_take (n : N) (r : Reader) : result CodecError (bytes * Reader) :=
  e ← ok_or (checked_add u64_max (N.of_nat (pos r)) n) UnexpectedEof;
  if e <=? len (buf r)
  then Ok (take (N.to_nat n) (drop (pos r) (buf r)), mkReader (buf r) (N.to_nat e))
  else Err UnexpectedEof.

#[global] Arguments reader_byte : simpl never.
#[global] Arguments reader_take : simpl never.

Definition reader_arg (ai : N) (r : Reader) : result CodecError (N * Reader) :=
  if ai <=? 23 then Ok (ai, r)
  else match ai with
  | 24 =>
      '(b, r) ← reader_byte r;
      let v := Byte.to_N b in
      if v <? 24 then Err NonMinimalInt else Ok (v, r)
  | 25 =>
      '(b, r) ← reader_take 2 r;
      let v := from_be_bytes b in
      if v <=? u8_max then Err NonMinimalInt else Ok (v, r)
  | 26 =>
      '(b, r) ← reader_take 4 r;
      let v := from_be_bytes b in
      if v <=? u16_max then Err NonMinimalInt else Ok (v, r)
  | 27 =>
      '(b, r) ← reader_take 8 r;
      let v := from_be_bytes b in
      if v <=? u32_max then Err NonMinimalInt else Ok (v, r)
  | 28 | 29 | 30 => Err ReservedAdditionalInfo
  | _ => Err IndefiniteLength
  end.

Definition simple_or_float (ai : N) (r : Reader) : result CodecError (Value * Reader) :=
  match ai with
  | 20 => Ok (Bool false, r)
  | 21 => Ok (Bool true, r)
  | 22 => Ok (Null, r)
  | 25 | 26 => Err NonCanonicalFloat
  | 27 =>
      '(b, r) ← reader_take 8 r;
      let f := from_be_bytes b in
      if negb (is_finite f) || (is_zero f && is_sign_negative f) then Err NonCanonicalFloat
      else Ok (Float f, r)
  | _ => Err UnsupportedSimpleValue
  end.

(** One turn of the map loop of [Reader::value], over the pairs so far, the previous key's bytes and
    the reader; [value] reads one item at the next depth. *)
Definition map_entry (value : Reader -> result CodecError (Value * Reader))
    (st : list (Value * Value) * option bytes * Reader)
    : result CodecError (list (Value * Value) * option bytes * Reader) :=
  let '(pairs, prev_key, r) := st in
  let key_start := pos r in
  '(key, r) ← value r;
  let key_bytes := take (pos r - key_start) (drop key_start (buf r)) in
  _ ← match prev_key with
      | None => Ok ()
      | Some prev =>
          match cmp_bytes key_bytes prev with
          | Gt => Ok ()
          | Eq => Err DuplicateMapKey
          | Lt => Err UnsortedMapKeys
          end
      end;
  '(val, r) ← value r;
  Ok (pairs ++ [(key, val)], Some key_bytes, r).

(** [Reader::value(depth)] with [levels = MAX_DEPTH + 1 - depth] levels of nesting left, so that
    [depth > MAX_DEPTH] is [levels = 0]. *)
Fixpoint value_at (levels : nat) (r : Reader) : result CodecError (Value * Reader) :=
  match levels with
  | O => Err DepthExceeded
  | S levels' =>
      '(ib, r) ← reader_byte r;
      let major := N.shiftr (Byte.to_N ib) 5 in
      let ai := N.land (Byte.to_N ib) 31 in
      match major with
      | 0 => '(n, r) ← reader_arg ai r; Ok (Uint n, r)
      | 1 => '(n, r) ← reader_arg ai r; Ok (Nint n, r)
      | 2 => '(n, r) ← reader_arg ai r; '(b, r) ← reader_take n r; Ok (Bytes b, r)
      | 3 =>
          '(n, r) ← reader_arg ai r;
          '(s, r) ← reader_take n r;
          if valid_utf8 s then Ok (Text s, r) else Err InvalidUtf8
      | 4 =>
          '(n, r) ← reader_arg ai r;
          '(items, r) ← for_range (fun '(items, r) =>
            '(item, r) ← value_at levels' r; Ok (items ++ [item], r)) n ([], r);
          Ok (Array items, r)
      | 5 =>
          '(n, r) ← reader_arg ai r;
          '(pairs, _, r) ← for_range (map_entry (value_at levels')) n ([], None, r);
          Ok (Map pairs, r)
      | 6 => Err Tag
      | _ => simple_or_float ai r
      end
  end.

Definition reader_value (depth : nat) (r : Reader) : result CodecError (Value * Reader) :=
  value_at (MAX_DEPTH + 1 - depth) r.

Definition decode (b : bytes) : result CodecError Value :=
  '(value, r) ← reader_value 0 (mkReader b 0);
  if bool_decide (pos r ≠ length b) then Err TrailingBytes else Ok value.

Definition decode_object (b : bytes) : result CodecError (N * list Value) :=
  value ← decode b;
  match value with
  | Array items =>
      match items with
      | e :: t :: fields =>
          match e with
          | Uint epoch =>
              if negb (epoch =? EPOCH) then Err WrongEpoch
              else match t with
              | Uint t => if t <=? u16_max then Ok (t, fields) else Err NotAnObject
              | _ => Err NotAnObject
              end
          | _ => Err NotAnObject
          end
      | _ => Err NotAnObject
      end
  | _ => Err NotAnObject
  end.

End Codec.
