(* ===== verification/CodecFacts.v ===== *)
(** * The codec's theorems

    The lemmas that relate the encoder and the strict decoder of [Codec], up to the two directions
    of the round trip: decoding what was encoded, and encoding what was decoded. *)

From S2P Require Import Prelude Codec.

Module CodecFacts.
Import Codec.

(** ** Structure of values *)

Section ValueInd.
Context (P : Value -> Prop)
  (HUint : forall n, P (Uint n)) (HNint : forall n, P (Nint n))
  (HBytes : forall b, P (Bytes b)) (HText : forall s, P (Text s))
  (HArray : forall items, Forall P items -> P (Array items))
  (HMap : forall pairs, Forall (fun kv => P kv.1 /\ P kv.2) pairs -> P (Map pairs))
  (HFloat : forall f, P (Float f)) (HBool : forall b, P (Bool b)) (HNull : P Null).

Fixpoint value_ind_nested (v : Value) : P v :=
  match v with
  | Uint n => HUint n
  | Nint n => HNint n
  | Bytes b => HBytes b
  | Text s => HText s
  | Array items => HArray items
      ((fix go l : Forall P l :=
          match l with [] => Forall_nil_2 _ | x :: l' => Forall_cons_2 _ _ _ (value_ind_nested x) (go l') end) items)
  | Map pairs => HMap pairs
      ((fix go l : Forall (fun kv => P kv.1 /\ P kv.2) l :=
          match l with
          | [] => Forall_nil_2 _
          | x :: l' => Forall_cons_2 _ _ _
              (conj (value_ind_nested x.1) (value_ind_nested x.2)) (go l')
          end) pairs)
  | Float f => HFloat f
  | Bool b => HBool b
  | Null => HNull
  end.
End ValueInd.

(** Nesting depth: the largest [depth] argument [Reader::value] is called with. *)
Fixpoint depth (v : Value) : nat :=
  match v with
  | Array items => max_list (map (fun x => S (depth x)) items)
  | Map pairs => max_list (map (fun kv => S (Nat.max (depth kv.1) (depth kv.2))) pairs)
  | _ => O
  end.

(** What the Rust types enforce: integers and lengths fit 64 bits, a [String] is UTF-8. *)
Fixpoint wf_value (v : Value) : bool :=
  match v with
  | Uint n | Nint n | Float n => n <=? u64_max
  | Bytes b => len b <=? u64_max
  | Text s => (len s <=? u64_max) && valid_utf8 s
  | Array items => (len items <=? u64_max) && forallb wf_value items
  | Map pairs => (len pairs <=? u64_max) && forallb (fun kv => wf_value kv.1 && wf_value kv.2) pairs
  | Bool _ | Null => true
  end.

Lemma wf_Array items :
  wf_value (Array items) = true <-> len items <= u64_max /\ forallb wf_value items = true.
Proof. cbn [wf_value]. by rewrite andb_true_iff, N.leb_le. Qed.

Lemma wf_Map pairs :
  wf_value (Map pairs) = true <->
  len pairs <= u64_max /\ forallb (fun kv => wf_value kv.1 && wf_value kv.2) pairs = true.
Proof. cbn [wf_value]. by rewrite andb_true_iff, N.leb_le. Qed.

Definition encoded (v : Value) : bytes := match encode v with Ok b => b | Err _ => [] end.

(** The value a canonical encoding stands for: maps in canonical key order, [-0.0] as [0.0]. *)
Fixpoint canon (v : Value) : Value :=
  match v with
  | Array items => Array (map canon items)
  | Map pairs =>
      Map (map snd (sort_by fst (map (fun kv => (encoded kv.1, (canon kv.1, canon kv.2))) pairs)))
  | Float f => Float (if is_zero f then 0 else f)
  | _ => v
  end.

(** ** Readers positioned inside a buffer *)

Definition at_pos (pre rest : bytes) : Reader := mkReader (pre ++ rest) (length pre).

Lemma reader_byte_cons pre b rest :
  reader_byte (at_pos pre (b :: rest)) = Ok (b, at_pos (pre ++ [b]) rest).
Proof.
  unfold reader_byte, at_pos; simpl. rewrite list_lookup_middle by done. simpl.
  by rewrite length_app, <-app_assoc.
Qed.

Lemma reader_byte_inv pre rest b r :
  reader_byte (at_pos pre rest) = Ok (b, r) ->
  exists rest', rest = b :: rest' /\ r = at_pos (pre ++ [b]) rest'.
Proof.
  destruct rest as [|b' rest].
  - unfold reader_byte, at_pos; simpl. rewrite app_nil_r, lookup_ge_None_2 by lia. done.
  - rewrite reader_byte_cons. intros [= -> <-]. eauto.
Qed.

Lemma reader_take_app n pre s rest :
  len s = n -> len (pre ++ s ++ rest) <= u64_max ->
  reader_take n (at_pos pre (s ++ rest)) = Ok (s, at_pos (pre ++ s) rest).
Proof.
  unfold len, reader_take, at_pos, checked_add; simpl. intros <- Hl.
  rewrite !length_app in *.
  case_match eqn:E1; [|apply N.leb_gt in E1; lia]. simpl.
  case_match eqn:E2; [|unfold len in E2; rewrite !length_app in E2; apply N.leb_gt in E2; lia].
  rewrite drop_app_length, take_app_length' by lia.
  do 2 f_equal. f_equal; [by rewrite app_assoc|lia].
Qed.

Lemma reader_take_inv n pre rest s r :
  reader_take n (at_pos pre rest) = Ok (s, r) ->
  exists rest', rest = s ++ rest' /\ len s = n /\ r = at_pos (pre ++ s) rest'.
Proof.
  unfold reader_take, checked_add, len, at_pos; simpl. intros H.
  case_match eqn:E1; simpl in H; [|done].
  case_match eqn:E2; [|done]. injection H as <- <-.
  apply N.leb_le in E2. rewrite length_app in E2. rewrite drop_app_length.
  exists (drop (N.to_nat n) rest). rewrite take_drop, length_take_le by lia.
  split; [done|]. split; [lia|]. f_equal; [|rewrite length_app, length_take_le by lia; lia].
  by rewrite <-app_assoc, take_drop.
Qed.

(** ** Heads: a major type with its argument *)

Lemma put_head_app out major arg : put_head out major arg = out ++ put_head [] major arg.
Proof. unfold put_head. by repeat case_match. Qed.

Definition head_byte (major ai : N) : byte := as_u8 (N.lor (N.shiftl major 5) ai).

Lemma head_byte_fields major ai :
  major < 8 -> ai < 32 ->
  N.shiftr (Byte.to_N (head_byte major ai)) 5 = major
  /\ N.land (Byte.to_N (head_byte major ai)) 31 = ai.
Proof.
  intros Hm Ha.
  assert (forallb (fun m => forallb (fun a =>
      (N.shiftr (Byte.to_N (head_byte (N.of_nat m) (N.of_nat a))) 5 =? N.of_nat m)
      && (N.land (Byte.to_N (head_byte (N.of_nat m) (N.of_nat a))) 31 =? N.of_nat a))
      (seq 0 32)) (seq 0 8) = true) as H by (vm_compute; reflexivity).
  rewrite forallb_forall in H. specialize (H (N.to_nat major)).
  rewrite forallb_forall in H. rewrite in_seq in H. specialize (H ltac:(lia) (N.to_nat ai)).
  rewrite in_seq, !N2Nat.id in H. specialize (H ltac:(lia)).
  apply andb_true_iff in H as [H1%N.eqb_eq H2%N.eqb_eq]. done.
Qed.

Lemma head_byte_split b :
  b = head_byte (N.shiftr (Byte.to_N b) 5) (N.land (Byte.to_N b) 31)
  /\ N.shiftr (Byte.to_N b) 5 < 8 /\ N.land (Byte.to_N b) 31 < 32.
Proof. destruct b; vm_compute; done. Qed.


Ltac head_arith := unfold u8_max, u16_max, u32_max, u64_max in *; lia.
Ltac head_cases :=
  repeat match goal with
  | |- context [N.leb ?a ?b] => destruct (N.leb_spec a b); try head_arith
  end.

(** The multi-byte head forms: additional information [ai] announces [k] bytes, and is used exactly
    for the arguments that do not fit the next shorter form. *)
Inductive wide_form : N -> nat -> N -> N -> Prop :=
| wide_u16 : wide_form 25 2 u8_max u16_max
| wide_u32 : wide_form 26 4 u16_max u32_max
| wide_u64 : wide_form 27 8 u32_max u64_max.

Lemma put_head_wide ai k lo hi major n :
  wide_form ai k lo hi -> lo < n <= hi ->
  put_head [] major n = head_byte major ai :: to_be_bytes k n.
Proof. destruct 1; intros ?; unfold put_head; by head_cases. Qed.

Lemma reader_arg_wide ai k lo hi r :
  wide_form ai k lo hi ->
  reader_arg ai r = ('(b, r) ← reader_take (N.of_nat k) r;
                     if from_be_bytes b <=? lo then Err NonMinimalInt else Ok (from_be_bytes b, r)).
Proof. by destruct 1. Qed.

Lemma wide_form_bound ai k lo hi : wide_form ai k lo hi -> hi + 1 = 256 ^ N.of_nat k /\ hi <= u64_max.
Proof. by destruct 1. Qed.

Lemma reader_arg_wide_app ai k lo hi n pre rest :
  wide_form ai k lo hi -> lo < n <= hi -> len (pre ++ to_be_bytes k n ++ rest) <= u64_max ->
  reader_arg ai (at_pos pre (to_be_bytes k n ++ rest))
  = Ok (n, at_pos (pre ++ to_be_bytes k n) rest).
Proof.
  intros Hw Hn Hl. rewrite (reader_arg_wide _ _ _ _ _ Hw).
  rewrite reader_take_app by (done || unfold len; by rewrite length_to_be_bytes). simpl.
  rewrite from_to_be_bytes_small by (apply wide_form_bound in Hw; lia).
  by destruct (N.leb_spec n lo); [lia|].
Qed.

Lemma reader_arg_wide_inv ai k lo hi pre rest n r :
  wide_form ai k lo hi -> reader_arg ai (at_pos pre rest) = Ok (n, r) ->
  exists rest', rest = to_be_bytes k n ++ rest' /\ r = at_pos (pre ++ to_be_bytes k n) rest'
  /\ lo < n <= hi.
Proof.
  intros Hw. rewrite (reader_arg_wide _ _ _ _ _ Hw). intros ([s r'] & (rest' & -> & Hl & ->)%reader_take_inv & H)%bind_Ok.
  destruct (N.leb_spec (from_be_bytes s) lo) as [|Hn]; [done|]. injection H as <- <-.
  assert (length s = k) as <- by (unfold len in Hl; lia). rewrite to_from_be_bytes.
  exists rest'. pose proof (from_be_bytes_lt s). apply wide_form_bound in Hw. split; [done|].
  split; [done|lia].
Qed.

(** A written head is read back: its first byte carries the major type, the rest the argument. *)
Lemma reader_arg_head major arg :
  arg <= u64_max ->
  exists ai tl, ai < 32 /\ put_head [] major arg = head_byte major ai :: tl
  /\ forall pre rest, len (pre ++ tl ++ rest) <= u64_max ->
     reader_arg ai (at_pos pre (tl ++ rest)) = Ok (arg, at_pos (pre ++ tl) rest).
Proof.
  intros Harg.
  assert (forall ai k lo hi, wide_form ai k lo hi -> lo < arg <= hi -> ai < 32 ->
    exists ai tl, ai < 32 /\ put_head [] major arg = head_byte major ai :: tl
    /\ forall pre rest, len (pre ++ tl ++ rest) <= u64_max ->
       reader_arg ai (at_pos pre (tl ++ rest)) = Ok (arg, at_pos (pre ++ tl) rest)) as Hwide.
  { intros ai k lo hi Hw Hn Hai. exists ai, (to_be_bytes k arg). split; [done|].
    split; [by eapply put_head_wide|]. intros. by eapply reader_arg_wide_app. }
  destruct (N.leb_spec arg 23) as [H23|H23].
  { exists arg, []. split; [lia|]. unfold put_head, reader_arg. split; [by head_cases|].
    intros pre rest _. rewrite app_nil_r. by head_cases. }
  destruct (N.leb_spec arg u8_max) as [H8|H8].
  { exists 24, [as_u8 arg]. split; [lia|]. unfold put_head. split; [by head_cases|].
    intros pre rest _. unfold reader_arg. simpl. rewrite reader_byte_cons. simpl.
    rewrite as_u8_small by head_arith. by destruct (N.ltb_spec arg 24); [lia|]. }
  destruct (N.leb_spec arg u16_max); [by eapply Hwide; [constructor|..]|].
  destruct (N.leb_spec arg u32_max); by eapply Hwide; [constructor|..].
Qed.

(** Every accepted argument is in its shortest form, so writing it again gives the bytes read. *)
Lemma reader_arg_inv ai pre rest n r :
  ai < 32 -> reader_arg ai (at_pos pre rest) = Ok (n, r) ->
  exists tl rest', rest = tl ++ rest' /\ r = at_pos (pre ++ tl) rest' /\ n <= u64_max
  /\ forall major, put_head [] major n = head_byte major ai :: tl.
Proof.
  intros Hai H.
  assert (forall k lo hi, wide_form ai k lo hi ->
    exists tl rest', rest = tl ++ rest' /\ r = at_pos (pre ++ tl) rest' /\ n <= u64_max
    /\ forall major, put_head [] major n = head_byte major ai :: tl) as Hwide.
  { intros k lo hi Hw. destruct (reader_arg_wide_inv _ _ _ _ _ _ _ _ Hw H) as (rest' & -> & -> & Hn).
    pose proof (wide_form_bound _ _ _ _ Hw). exists (to_be_bytes k n), rest'.
    split; [done|]. split; [done|]. split; [lia|]. intros. by eapply put_head_wide. }
  destruct (N.leb_spec ai 23) as [H23|H23].
  { unfold reader_arg in H. destruct (N.leb_spec ai 23); [|lia]. injection H as <- <-.
    exists [], rest. rewrite app_nil_r. split; [done|]. split; [done|]. split; [head_arith|].
    intros major. unfold put_head. by head_cases. }
  assert (ai = 24 \/ ai = 25 \/ ai = 26 \/ ai = 27 \/ ai = 28 \/ ai = 29 \/ ai = 30 \/ ai = 31)
    as [->|[->|[->|[->|[->|[->|[->| ->]]]]]]] by lia; try discriminate H;
    try by eapply Hwide; constructor.
  apply bind_Ok in H as ([b r'] & (rest' & -> & ->)%reader_byte_inv & H).
  simpl in H. destruct (N.ltb_spec (Byte.to_N b) 24); [done|]. injection H as <- <-.
  exists [b], rest'. split; [done|]. split; [done|]. pose proof (to_N_lt b).
  split; [head_arith|]. intros major. unfold put_head. head_cases. by rewrite as_u8_of_to_N.
Qed.

(** ** The encoder as a function to bytes *)

Definition flat_pairs (es : list (bytes * bytes)) : bytes := concat (map (fun e => e.1 ++ e.2) es).

Definition encode_pair (kv : Value * Value) : result CodecError (bytes * bytes) :=
  k ← encode kv.1; v ← encode kv.2; Ok (k, v).

Lemma foldl_pairs out es :
  foldl (fun out kv => (out ++ kv.1) ++ kv.2) out es = out ++ flat_pairs es.
Proof.
  unfold flat_pairs. revert out. induction es as [|e es IH]; intros out; simpl.
  - by rewrite app_nil_r.
  - by rewrite IH, <-!app_assoc.
Qed.

Lemma try_fold_encode items :
  Forall (fun x => forall out, encode_into out x = app out <$> encode x) items ->
  forall out, try_fold (fun out item => encode_into out item) out items
              = (fun bs => out ++ concat bs) <$> try_map encode items.
Proof.
  induction 1 as [|x items Hx _ IH]; intros out; simpl; [by rewrite app_nil_r|].
  rewrite Hx. destruct (encode x) as [b|]; simpl; [|done]. rewrite IH.
  destruct (try_map encode items); simpl; [|done]. by rewrite <-app_assoc.
Qed.

Lemma encode_into_app v out : encode_into out v = app out <$> encode v.
Proof.
  revert out. unfold encode, fmap, result_fmap.
  induction v as [n|n|b|s|items IH|pairs IH|f|b|] using value_ind_nested;
    intros out; cbn [encode_into].
  - by rewrite (put_head_app out).
  - by rewrite (put_head_app out).
  - by rewrite (put_head_app out), <-app_assoc.
  - by rewrite (put_head_app out), <-app_assoc.
  - rewrite !try_fold_encode by done. destruct (try_map _ _); simpl; [|done].
    by rewrite (put_head_app out), <-app_assoc.
  - destruct (try_map _ pairs) as [es|]; simpl; [|done].
    destruct (adjacent_dup _ _); [done|]. by rewrite !foldl_pairs, (put_head_app out), <-app_assoc.
  - destruct (is_finite f); done.
  - done.
  - done.
Qed.

Lemma encode_Array items :
  encode (Array items)
  = (bs ← try_map encode items; Ok (put_head [] 4 (len items) ++ concat bs)).
Proof.
  unfold encode at 1. simpl. rewrite try_fold_encode.
  - by destruct (try_map encode items).
  - apply Forall_forall. intros. apply encode_into_app.
Qed.

Lemma encode_Map pairs :
  encode (Map pairs)
  = (es ← try_map encode_pair pairs;
     let es := sort_by fst es in
     if adjacent_dup fst es then Err DuplicateMapKey
     else Ok (put_head [] 5 (len es) ++ flat_pairs es)).
Proof.
  unfold encode at 1. simpl. fold encode_pair.
  destruct (try_map _ pairs) as [es|]; simpl; [|done]. case_match; [done|]. by rewrite foldl_pairs.
Qed.

Lemma encode_pair_Ok kv e :
  encode_pair kv = Ok e <-> encode kv.1 = Ok e.1 /\ encode kv.2 = Ok e.2.
Proof.
  unfold encode_pair. destruct (encode kv.1), (encode kv.2), e; simpl; naive_solver.
Qed.

Lemma encoded_Ok v bs : encode v = Ok bs -> encoded v = bs.
Proof. unfold encoded. by intros ->. Qed.

(** An encoding of a map lists its pairs in the order of their encoded keys, without a repetition. *)
Lemma encode_Map_inv pairs bs :
  encode (Map pairs) = Ok bs ->
  let sorted := sort_by (fun kv => encoded kv.1) pairs in
  let es := map (fun kv => (encoded kv.1, encoded kv.2)) sorted in
  bs = put_head [] 5 (len pairs) ++ flat_pairs es /\ sorted_by fst es
  /\ Forall (fun kv => encode kv.1 = Ok (encoded kv.1) /\ encode kv.2 = Ok (encoded kv.2)) sorted.
Proof.
  rewrite encode_Map. intros (es & Hes%try_map_Ok & H)%bind_Ok. simpl in H.
  assert (es = map (fun kv => (encoded kv.1, encoded kv.2)) pairs
    /\ Forall (fun kv => encode kv.1 = Ok (encoded kv.1) /\ encode kv.2 = Ok (encoded kv.2)) pairs)
    as [-> Hall].
  { clear H. induction Hes as [|kv e pairs es [H1 H2]%encode_pair_Ok _ [IH1 IH2]]; [done|].
    unfold encoded. simpl. rewrite H1, H2. destruct e. split; [by f_equal|].
    constructor; [|done]. by rewrite H1, H2. }
  rewrite (sort_by_map (fun kv => encoded kv.1)) in H by done. simpl.
  destruct (adjacent_dup _ _) eqn:Ed; [done|]. injection H as <-.
  split; [by unfold len; rewrite length_map, length_sort_by|]. split.
  - apply sorted_by_no_dup; [|done]. rewrite <-(sort_by_map (fun kv => encoded kv.1) fst) by done.
    apply sort_by_sorted.
  - by rewrite sort_by_perm.
Qed.

(** ** Decoding an encoding *)

(** [bs] is read back as [v]: anywhere in a buffer, with [levels] levels of nesting left, the reader
    consumes exactly [bs] and returns the canonical form of [v], or reports that [v] is too deep. *)
Definition reads (v : Value) (bs : bytes) : Prop :=
  forall levels pre rest, len (pre ++ bs ++ rest) <= u64_max ->
  value_at levels (at_pos pre (bs ++ rest))
  = if (depth v <? levels)%nat then Ok (canon v, at_pos (pre ++ bs) rest) else Err DepthExceeded.

Definition canon_pair (kv : Value * Value) : Value * Value := (canon kv.1, canon kv.2).
Definition depth_pair (kv : Value * Value) : nat := Nat.max (depth kv.1) (depth kv.2).

Lemma canon_Map pairs :
  canon (Map pairs) = Map (map canon_pair (sort_by (fun kv => encoded kv.1) pairs)).
Proof.
  simpl. rewrite (sort_by_map (fun kv => encoded kv.1)) by done. by rewrite map_map.
Qed.

Lemma max_list_lt (f : Value -> nat) l n :
  (max_list (map (fun x => S (f x)) l) <? S n)%nat = forallb (fun x => (f x <? n)%nat) l.
Proof.
  induction l as [|x l IH]; simpl; [done|]. rewrite <-IH.
  destruct (Nat.ltb_spec (f x) n), (Nat.ltb_spec (max_list (map (λ x, S (f x)) l)) (S n)); simpl;
    (apply Nat.ltb_lt || apply Nat.ltb_ge); lia.
Qed.

Lemma max_list_pair_lt (f : Value * Value -> nat) l n :
  (max_list (map (fun x => S (f x)) l) <? S n)%nat = forallb (fun x => (f x <? n)%nat) l.
Proof.
  induction l as [|x l IH]; simpl; [done|]. rewrite <-IH.
  destruct (Nat.ltb_spec (f x) n), (Nat.ltb_spec (max_list (map (λ x, S (f x)) l)) (S n)); simpl;
    (apply Nat.ltb_lt || apply Nat.ltb_ge); lia.
Qed.

Lemma array_loop levels items encs :
  Forall2 reads items encs ->
  forall pre rest acc, len (pre ++ concat encs ++ rest) <= u64_max ->
  for_nat (fun '(items, r) => '(item, r) ← value_at levels r; Ok (items ++ [item], r))
    (length items) (acc, at_pos pre (concat encs ++ rest))
  = if forallb (fun v => (depth v <? levels)%nat) items
    then Ok (acc ++ map canon items, at_pos (pre ++ concat encs) rest) else Err DepthExceeded.
Proof.
  induction 1 as [|v b items encs Hv _ IH]; intros pre rest acc Hl; simpl.
  - by rewrite !app_nil_r.
  - simpl in Hl. rewrite <-app_assoc in Hl |- *. rewrite Hv by done.
    destruct (depth v <? levels)%nat; simpl; [|done].
    rewrite IH by (by rewrite <-app_assoc). destruct (forallb _ items); [|done].
    by rewrite <-!app_assoc.
Qed.

Definition last_key (prev : option bytes) (es : list (bytes * bytes)) : option bytes :=
  match last es with Some e => Some e.1 | None => prev end.

(** A pair whose key is above the previous one is read and pushed. *)
Lemma map_entry_step levels kv e pre rest acc (prev : option bytes) :
  reads kv.1 e.1 -> reads kv.2 e.2 -> (forall p, prev = Some p -> p <b e.1) ->
  len (pre ++ (e.1 ++ e.2) ++ rest) <= u64_max ->
  map_entry (value_at levels) (acc, prev, at_pos pre ((e.1 ++ e.2) ++ rest))
  = if (depth_pair kv <? levels)%nat
    then Ok (acc ++ [canon_pair kv], Some e.1, at_pos (pre ++ e.1 ++ e.2) rest)
    else Err DepthExceeded.
Proof.
  intros H1 H2 Hprev Hl. unfold map_entry, depth_pair. rewrite <-app_assoc in Hl |- *.
  rewrite H1 by done. destruct (Nat.ltb_spec (depth kv.1) levels) as [Hd1|Hd1]; simpl.
  2:{ destruct (Nat.ltb_spec (Nat.max (depth kv.1) (depth kv.2)) levels); [lia|done]. }
  replace (take _ (drop (length pre) ((pre ++ e.1) ++ e.2 ++ rest))) with e.1.
  2:{ rewrite <-app_assoc, drop_app_length, length_app, take_app_length' by lia. done. }
  assert (match prev with
    | Some prev => match cmp_bytes e.1 prev with
                   | Gt => Ok () | Eq => Err DuplicateMapKey | Lt => Err UnsortedMapKeys end
    | None => Ok () end = @Ok CodecError _ ()) as ->.
  { destruct prev as [p|]; [|done]. specialize (Hprev p eq_refl).
    apply cmp_bytes_gt in Hprev. by rewrite Hprev. }
  simpl. rewrite H2 by (by rewrite <-app_assoc).
  destruct (Nat.ltb_spec (depth kv.2) levels) as [Hd2|Hd2]; simpl;
    destruct (Nat.ltb_spec (Nat.max (depth kv.1) (depth kv.2)) levels); try lia; [|done].
  by rewrite <-app_assoc.
Qed.

Lemma map_loop levels pairs es :
  Forall2 (fun kv e => reads kv.1 e.1 /\ reads kv.2 e.2) pairs es ->
  sorted_by fst es ->
  forall pre rest acc (prev : option bytes),
  (forall p, prev = Some p -> Forall (fun e => p <b e.1) es) ->
  len (pre ++ flat_pairs es ++ rest) <= u64_max ->
  for_nat (map_entry (value_at levels)) (length pairs) (acc, prev, at_pos pre (flat_pairs es ++ rest))
  = if forallb (fun kv => (depth_pair kv <? levels)%nat) pairs
    then Ok (acc ++ map canon_pair pairs, last_key prev es, at_pos (pre ++ flat_pairs es) rest)
    else Err DepthExceeded.
Proof.
  unfold flat_pairs.
  induction 1 as [|kv e pairs es [Hk Hv] _ IH]; intros Hs pre rest acc prev Hprev Hl;
    cbn [length for_nat map concat forallb] in *.
  - by rewrite !app_nil_r.
  - rewrite <-app_assoc in Hl |- *.
    assert (forall p, prev = Some p -> p <b e.1) as Hp.
    { intros p [H _]%Hprev%Forall_cons. done. }
    rewrite (map_entry_step levels kv e pre) by done.
    destruct (depth_pair kv <? levels)%nat; simpl; [|done].
    apply sorted_by_cons_inv in Hs as [Hs He].
    rewrite IH; [|done| |by rewrite <-app_assoc].
    + destruct (forallb _ pairs); [|done]. rewrite <-!app_assoc. do 3 f_equal.
      unfold last_key. destruct es as [|e' es]; [done|]. rewrite last_cons_cons.
      by destruct (last (e' :: es)) eqn:El; [|apply last_None in El].
    + intros p [= <-]. done.
Qed.

(** The dispatch of [Reader::value] on the major type, with its counted loops in unary. *)
Definition value_body (levels : nat) (major ai : N) (r : Reader) : result CodecError (Value * Reader) :=
  match major with
  | 0 => '(n, r) ← reader_arg ai r; Ok (Uint n, r)
  | 1 => '(n, r) ← reader_arg ai r; Ok (Nint n, r)
  | 2 => '(n, r) ← reader_arg ai r; '(b, r) ← reader_take n r; Ok (Bytes b, r)
  | 3 => '(n, r) ← reader_arg ai r; '(s, r) ← reader_take n r;
         if valid_utf8 s then Ok (Text s, r) else Err InvalidUtf8
  | 4 => '(n, r) ← reader_arg ai r;
         '(items, r) ← for_nat (fun '(items, r) =>
           '(item, r) ← value_at levels r; Ok (items ++ [item], r)) (N.to_nat n) ([], r);
         Ok (Array items, r)
  | 5 => '(n, r) ← reader_arg ai r;
         '(pairs, _, r) ← for_nat (map_entry (value_at levels)) (N.to_nat n) ([], None, r);
         Ok (Map pairs, r)
  | 6 => Err Tag
  | _ => simple_or_float ai r
  end.

Lemma value_at_head levels pre major ai rest :
  major < 8 -> ai < 32 ->
  value_at (S levels) (at_pos pre (head_byte major ai :: rest))
  = value_body levels major ai (at_pos (pre ++ [head_byte major ai]) rest).
Proof.
  intros Hm Ha. cbn [value_at]. rewrite reader_byte_cons. cbn [mbind result_bind].
  destruct (head_byte_fields major ai Hm Ha) as [-> ->].
  assert (major = 0 \/ major = 1 \/ major = 2 \/ major = 3 \/ major = 4 \/ major = 5 \/ major = 6
    \/ major = 7) as [->|[->|[->|[->|[->|[->|[->| ->]]]]]]] by lia; try done;
    unfold value_body; destruct (reader_arg ai _) as [[n r]|]; simpl; try done;
    by rewrite for_range_nat.
Qed.

Lemma value_at_put_head levels pre major arg rest :
  major < 8 -> arg <= u64_max -> len (pre ++ put_head [] major arg ++ rest) <= u64_max ->
  exists ai r, value_at (S levels) (at_pos pre (put_head [] major arg ++ rest))
               = value_body levels major ai r
  /\ reader_arg ai r = Ok (arg, at_pos (pre ++ put_head [] major arg) rest).
Proof.
  intros Hm Harg Hl. destruct (reader_arg_head major arg Harg) as (ai & tl & Hai & Hp & Hr).
  rewrite Hp in *. exists ai, (at_pos (pre ++ [head_byte major ai]) (tl ++ rest)).
  split; [by apply value_at_head|].
  rewrite Hr by (by rewrite <-app_assoc). by rewrite <-app_assoc.
Qed.

Lemma reads_Float f : f <= u64_max -> is_finite f = true ->
  reads (Float f) (head_byte 7 27 :: to_be_bytes 8 (if is_zero f then 0 else f)).
Proof.
  intros Hf Hfin levels pre rest Hl. destruct levels as [|levels]; [done|].
  change ((head_byte 7 27 :: ?tl) ++ ?x) with (head_byte 7 27 :: (tl ++ x)).
  rewrite value_at_head by done. cbn [value_body simple_or_float].
  rewrite reader_take_app by (try (by rewrite <-app_assoc); unfold len; by rewrite length_to_be_bytes).
  cbn [mbind result_bind].
  rewrite from_to_be_bytes_small by (destruct (is_zero f); unfold u64_max in *; lia).
  replace (negb _ || _) with false.
  - simpl. by rewrite <-app_assoc.
  - symmetry. destruct (is_zero f) eqn:Ez; [done|]. by rewrite Hfin, Ez.
Qed.

Lemma reads_Array items encs :
  len items <= u64_max -> Forall2 reads items encs ->
  reads (Array items) (put_head [] 4 (len items) ++ concat encs).
Proof.
  intros Hn Hreads [|levels] pre rest Hl; [done|]. rewrite <-app_assoc in Hl |- *.
  destruct (value_at_put_head levels pre 4 (len items) (concat encs ++ rest)) as (ai & r & -> & Hr); [done..|].
  cbn [value_body]. rewrite Hr. cbn [mbind result_bind]. unfold len at 1. rewrite Nat2N.id.
  rewrite (array_loop levels items encs Hreads) by (by rewrite <-app_assoc).
  cbn [depth]. rewrite max_list_lt. destruct (forallb _ items); simpl; [|done]. by rewrite <-app_assoc.
Qed.

Lemma reads_Map pairs :
  let sorted := sort_by (fun kv => encoded kv.1) pairs in
  let es := map (fun kv => (encoded kv.1, encoded kv.2)) sorted in
  len pairs <= u64_max -> sorted_by fst es ->
  Forall (fun kv => reads kv.1 (encoded kv.1) /\ reads kv.2 (encoded kv.2)) sorted ->
  reads (Map pairs) (put_head [] 5 (len pairs) ++ flat_pairs es).
Proof.
  intros sorted es Hn Hs Hok [|levels] pre rest Hl; [done|]. rewrite <-app_assoc in Hl |- *.
  assert (Forall2 (fun kv e => reads kv.1 e.1 /\ reads kv.2 e.2) sorted es) as Hreads.
  { subst es. clear -Hok. induction Hok; simpl; by constructor. }
  destruct (value_at_put_head levels pre 5 (len pairs) (flat_pairs es ++ rest)) as (ai & r & -> & Hr); [done..|].
  cbn [value_body]. rewrite Hr. cbn [mbind result_bind]. unfold len at 1. rewrite Nat2N.id.
  replace (length pairs) with (length sorted) by apply length_sort_by.
  rewrite (map_loop levels sorted es Hreads Hs) by (try (intros ? [=]); by rewrite <-app_assoc).
  rewrite canon_Map. cbn [depth]. rewrite max_list_pair_lt. subst sorted.
  rewrite (forallb_perm _ _ _ (sort_by_perm (fun kv => encoded kv.1) pairs)).
  unfold depth_pair. destruct (forallb _ pairs); simpl; [|done]. by rewrite <-app_assoc.
Qed.

(** The reader recovers every well-formed value from its encoding. *)
Lemma encode_reads v bs : wf_value v = true -> encode v = Ok bs -> reads v bs.
Proof.
  revert bs. induction v as [n|n|b|s|items IH|pairs IH|f|b|] using value_ind_nested;
    intros bs Hwf Henc.
  1-4: injection Henc as <-; intros [|levels] pre rest Hl; [done|]; cbn [wf_value] in Hwf;
    rewrite ?andb_true_iff, ?N.leb_le in Hwf.
  - destruct (value_at_put_head levels pre 0 n rest) as (ai & r & -> & Hr); [done..|].
    cbn [value_body]. by rewrite Hr.
  - destruct (value_at_put_head levels pre 1 n rest) as (ai & r & -> & Hr); [done..|].
    cbn [value_body]. by rewrite Hr.
  - rewrite <-app_assoc in Hl |- *.
    destruct (value_at_put_head levels pre 2 (len b) (b ++ rest)) as (ai & r & -> & Hr); [done..|].
    cbn [value_body]. rewrite Hr. simpl. rewrite reader_take_app by (by rewrite <-?app_assoc).
    simpl. by rewrite <-app_assoc.
  - rewrite <-app_assoc in Hl |- *. destruct Hwf as [Hwf Hutf].
    destruct (value_at_put_head levels pre 3 (len s) (s ++ rest)) as (ai & r & -> & Hr); [done..|].
    cbn [value_body]. rewrite Hr. simpl. rewrite reader_take_app by (by rewrite <-?app_assoc).
    simpl. by rewrite Hutf, <-app_assoc.
  - rewrite encode_Array in Henc. apply bind_Ok in Henc as (encs & Hencs%try_map_Ok & [= <-]).
    cbn [wf_value] in Hwf. apply andb_true_iff in Hwf as [Hn%N.leb_le Hwf].
    apply reads_Array; [done|]. clear Hn.
    induction Hencs as [|x e items encs Hx _ IHl]; [done|]. simpl in Hwf.
    apply andb_true_iff in Hwf as [Hw1 Hw2]. apply Forall_cons in IH as [IH1 IH2].
    constructor; [by apply IH1|by apply IHl].
  - apply encode_Map_inv in Henc as (-> & Hs & Hok).
    cbn [wf_value] in Hwf. apply andb_true_iff in Hwf as [Hn%N.leb_le Hwf].
    apply reads_Map; [done..|]. clear Hs.
    rewrite <-(forallb_perm _ _ _ (sort_by_perm (fun kv => encoded kv.1) pairs)) in Hwf.
    rewrite <-(sort_by_perm (fun kv => encoded kv.1)) in IH.
    induction Hok as [|kv l [Ho1 Ho2] _ IHl]; [done|]. simpl in Hwf.
    rewrite !andb_true_iff in Hwf. destruct Hwf as [[Hw1 Hw2] Hw3].
    apply Forall_cons in IH as [[IH1 IH2] IH3]. constructor; auto.
  - unfold encode in Henc. cbn [encode_into] in Henc. destruct (is_finite f) eqn:Ef; [|done].
    simpl in Henc. injection Henc as <-. apply reads_Float; [by apply N.leb_le|done].
  - injection Henc as <-. intros [|levels] pre rest Hl; [done|].
    destruct b; [change xf5 with (head_byte 7 21)|change xf4 with (head_byte 7 20)];
      cbn [app]; by rewrite value_at_head.
  - injection Henc as <-. intros [|levels] pre rest Hl; [done|].
    change xf6 with (head_byte 7 22). cbn [app]. by rewrite value_at_head.
Qed.

(** ** Encoding what was decoded *)

(** [v] is a canonical value nested in at most [levels] levels whose encoding is [bs]. *)
Definition canonical_for (levels : nat) (v : Value) (bs : bytes) : Prop :=
  encode v = Ok bs /\ wf_value v = true /\ canon v = v /\ (depth v < levels)%nat.

(** A successful read consumed exactly the encoding of the value it returned. *)
Definition read_inverts (levels : nat) : Prop :=
  forall pre rest v r, value_at levels (at_pos pre rest) = Ok (v, r) ->
  exists bs rest', rest = bs ++ rest' /\ r = at_pos (pre ++ bs) rest' /\ canonical_for levels v bs.

Lemma array_loop_inv levels pre rest n items r :
  read_inverts levels ->
  for_nat (fun '(items, r) => '(item, r) ← value_at levels r; Ok (items ++ [item], r))
    n ([], at_pos pre rest) = Ok (items, r) ->
  exists encs rest', rest = concat encs ++ rest' /\ r = at_pos (pre ++ concat encs) rest'
  /\ length items = n /\ Forall2 (canonical_for levels) items encs.
Proof.
  intros Hinv H.
  apply (for_nat_inv _ (fun j '(items, r) => exists encs rest',
    rest = concat encs ++ rest' /\ r = at_pos (pre ++ concat encs) rest'
    /\ length items = j /\ Forall2 (canonical_for levels) items encs) n 0) in H; [done|..].
  - intros j [its r0] [its' r1] (encs & rest' & -> & -> & Hj & Hall) Hb.
    apply bind_Ok in Hb as ([v r2] & Hv & [= <- <-]).
    apply Hinv in Hv as (bs & rest'' & -> & -> & Hc).
    exists (encs ++ [bs]), rest''. rewrite concat_app. simpl. rewrite app_nil_r, <-!app_assoc.
    split; [done|]. split; [done|]. split; [rewrite length_app; simpl; lia|].
    by apply Forall2_app; [|constructor].
  - exists [], rest. simpl. by rewrite app_nil_r.
Qed.

Lemma map_entry_inv levels pre rest acc prev st :
  read_inverts levels ->
  map_entry (value_at levels) (acc, prev, at_pos pre rest) = Ok st ->
  exists kv e rest', rest = (e.1 ++ e.2) ++ rest'
  /\ st = (acc ++ [kv], Some e.1, at_pos (pre ++ e.1 ++ e.2) rest')
  /\ canonical_for levels kv.1 e.1 /\ canonical_for levels kv.2 e.2
  /\ (forall p, prev = Some p -> p <b e.1).
Proof.
  intros Hinv. unfold map_entry. intros ([k r1] & Hk & H)%bind_Ok.
  apply Hinv in Hk as (kb & rest1 & -> & -> & Hck).
  apply bind_Ok in H as ([] & Hcmp & H). simpl in Hcmp.
  apply bind_Ok in H as ([v r2] & Hv & [= <-]).
  apply Hinv in Hv as (vb & rest2 & -> & -> & Hcv).
  rewrite <-app_assoc, drop_app_length, length_app, take_app_length' in Hcmp |- * by (simpl; lia).
  exists (k, v), (kb, vb), rest2. simpl. rewrite <-!app_assoc. split_and!; try done.
  intros p ->. destruct (cmp_bytes kb p) eqn:E; [done..|]. by apply cmp_bytes_gt.
Qed.

Lemma map_loop_inv levels pre rest n pairs prev r :
  read_inverts levels ->
  for_nat (map_entry (value_at levels)) n ([], None, at_pos pre rest) = Ok (pairs, prev, r) ->
  exists es rest', rest = flat_pairs es ++ rest' /\ r = at_pos (pre ++ flat_pairs es) rest'
  /\ length pairs = n /\ sorted_by fst es
  /\ Forall2 (fun kv e => canonical_for levels kv.1 e.1 /\ canonical_for levels kv.2 e.2) pairs es.
Proof.
  intros Hinv H.
  apply (for_nat_inv _ (fun j '(pairs, prev, r) => exists es rest',
    rest = flat_pairs es ++ rest' /\ r = at_pos (pre ++ flat_pairs es) rest' /\ length pairs = j
    /\ sorted_by fst es /\ prev = last_key None es
    /\ Forall2 (fun kv e => canonical_for levels kv.1 e.1 /\ canonical_for levels kv.2 e.2) pairs es)
    n 0) in H; [naive_solver|..].
  - intros j [[ps pv] r0] st (es & rest' & -> & -> & Hj & Hs & -> & Hall) Hb.
    apply (map_entry_inv levels) in Hb as (kv & e & rest'' & -> & -> & Hc1 & Hc2 & Hlt); [|done].
    exists (es ++ [e]), rest''. unfold flat_pairs. rewrite map_app, concat_app. simpl.
    rewrite app_nil_r, <-!app_assoc. split_and!; try done.
    + rewrite length_app. simpl. lia.
    + apply sorted_by_snoc; [done|]. intros e' He'. apply Hlt. unfold last_key. by rewrite He'.
    + unfold last_key. by rewrite last_snoc.
    + apply Forall2_app; [done|]. by constructor; [|constructor].
  - exists [], rest. unfold flat_pairs. simpl. rewrite app_nil_r. split_and!; try done. constructor.
Qed.

Lemma canonical_Array levels items encs :
  len items <= u64_max -> Forall2 (canonical_for levels) items encs ->
  canonical_for (S levels) (Array items) (put_head [] 4 (len items) ++ concat encs).
Proof.
  intros Hn Hall.
  assert (try_map encode items = Ok encs) as He.
  { apply try_map_Ok. eapply Forall2_impl; [done|]. by intros v b (? & _). }
  split_and!.
  - by rewrite encode_Array, He.
  - cbn [wf_value]. apply andb_true_iff. split; [by apply N.leb_le|].
    apply forallb_forall. intros v Hv%list_elem_of_In.
    apply list_elem_of_lookup in Hv as [i Hi]. eapply Forall2_lookup_l in Hall as (b & _ & Hc); [|done].
    apply Hc.
  - cbn [canon]. f_equal. clear -Hall. induction Hall as [|v b l l' (_ & _ & Hc & _) _ IH]; simpl; congruence.
  - apply Nat.ltb_lt. cbn [depth]. rewrite max_list_lt. apply forallb_forall.
    intros v Hv%list_elem_of_In. apply list_elem_of_lookup in Hv as [i Hi].
    eapply Forall2_lookup_l in Hall as (b & _ & Hc); [|done]. apply Nat.ltb_lt, Hc.
Qed.

Lemma canonical_Map levels pairs es :
  len pairs <= u64_max -> sorted_by fst es ->
  Forall2 (fun kv e => canonical_for levels kv.1 e.1 /\ canonical_for levels kv.2 e.2) pairs es ->
  canonical_for (S levels) (Map pairs) (put_head [] 5 (len pairs) ++ flat_pairs es).
Proof.
  intros Hn Hs Hall.
  assert (es = map (fun kv => (encoded kv.1, encoded kv.2)) pairs) as Hes.
  { clear -Hall. induction Hall as [|kv [] l l' [(H1 & _) (H2 & _)] _ IH]; simpl; [done|].
    unfold encoded. by rewrite H1, H2, IH. }
  assert (forall kv, In kv pairs -> canonical_for levels kv.1 (encoded kv.1)
    /\ canonical_for levels kv.2 (encoded kv.2)) as Hin.
  { intros kv Hkv%list_elem_of_In. apply list_elem_of_lookup in Hkv as [i Hi].
    eapply Forall2_lookup_l in Hall as (e & _ & Hc1 & Hc2); [|done].
    by rewrite (encoded_Ok kv.1 e.1), (encoded_Ok kv.2 e.2) by (apply Hc1 || apply Hc2). }
  assert (try_map encode_pair pairs = Ok es) as He.
  { apply try_map_Ok. eapply Forall2_impl; [done|].
    intros kv e [(H1 & _) (H2 & _)]. by apply encode_pair_Ok. }
  assert (sort_by (fun kv => encoded kv.1) pairs = pairs) as Hsort.
  { apply sort_by_id. rewrite Hes in Hs.
    by apply (sorted_by_map (fun kv => encoded kv.1)) in Hs. }
  split_and!.
  - rewrite encode_Map, He. cbn [mbind result_bind]. rewrite sort_by_id by done.
    rewrite sorted_by_adjacent_dup by done. unfold len. by rewrite (Forall2_length _ _ _ Hall).
  - cbn [wf_value]. apply andb_true_iff. split; [by apply N.leb_le|]. apply forallb_forall.
    intros kv Hkv. destruct (Hin kv Hkv) as [(_ & H1 & _) (_ & H2 & _)]. by rewrite H1, H2.
  - rewrite canon_Map, Hsort. f_equal. rewrite <-(map_id pairs) at 2. apply map_ext_in.
    intros kv Hkv. destruct (Hin kv Hkv) as [(_ & _ & H1 & _) (_ & _ & H2 & _)].
    unfold canon_pair. rewrite H1, H2. by destruct kv.
  - apply Nat.ltb_lt. cbn [depth]. rewrite max_list_pair_lt. apply forallb_forall.
    intros kv Hkv. destruct (Hin kv Hkv) as [(_ & _ & _ & H1) (_ & _ & _ & H2)].
    apply Nat.ltb_lt. lia.
Qed.

Lemma simple_or_float_inv levels ai pre rest v r :
  simple_or_float ai (at_pos pre rest) = Ok (v, r) ->
  exists tl rest', rest = tl ++ rest' /\ r = at_pos (pre ++ tl) rest'
  /\ canonical_for (S levels) v (head_byte 7 ai :: tl).
Proof.
  assert (forall w, wf_value w = true -> canon w = w -> depth w = O -> encode w = Ok [head_byte 7 ai] ->
    exists tl rest', rest = tl ++ rest' /\ at_pos pre rest = at_pos (pre ++ tl) rest'
    /\ canonical_for (S levels) w (head_byte 7 ai :: tl)) as Hsimple.
  { intros w Hw Hc Hd He. exists [], rest. rewrite app_nil_r. split_and!; try done. split_and!; try done. lia. }
  unfold simple_or_float. intros H. repeat case_match; try discriminate H.
  all: try (injection H as <- <-; by apply Hsimple).
  apply bind_Ok in H as ([s r'] & (rest' & -> & Hl & ->)%reader_take_inv & H).
  destruct (is_finite (from_be_bytes s)) eqn:Ef; [|done].
  destruct (is_zero (from_be_bytes s) && is_sign_negative (from_be_bytes s)) eqn:Ez; [done|].
  injection H as <- <-. exists s, rest'. split_and!; try done.
  assert ((if is_zero (from_be_bytes s) then 0 else from_be_bytes s) = from_be_bytes s) as Hn.
  { destruct (is_zero (from_be_bytes s)) eqn:Ez'; [|done]. simpl in Ez.
    apply orb_true_iff in Ez' as [Ez'%N.eqb_eq|Ez'%N.eqb_eq]; [done|]. by rewrite Ez' in Ez. }
  assert (length s = 8%nat) as Hs by (unfold len in Hl; lia).
  split_and!; [| |by cbn [canon]; rewrite Hn|simpl; lia].
  - unfold encode. cbn [encode_into]. rewrite Ef. cbn [negb]. rewrite Hn, <-Hs, to_from_be_bytes. done.
  - apply N.leb_le. pose proof (from_be_bytes_lt s). rewrite Hs in *. unfold u64_max. lia.
Qed.

Lemma canonical_scalar levels v bs :
  encode v = Ok bs -> wf_value v = true -> canon v = v -> depth v = O -> canonical_for (S levels) v bs.
Proof. intros. split_and!; try done. lia. Qed.

Lemma value_body_inv levels major ai pre rest v r :
  read_inverts levels -> major < 8 -> ai < 32 ->
  value_body levels major ai (at_pos pre rest) = Ok (v, r) ->
  exists tl rest', rest = tl ++ rest' /\ r = at_pos (pre ++ tl) rest'
  /\ canonical_for (S levels) v (head_byte major ai :: tl).
Proof.
  intros Hinv Hm Hai H.
  assert (major = 0 \/ major = 1 \/ major = 2 \/ major = 3 \/ major = 4 \/ major = 5 \/ major = 6
    \/ major = 7) as [->|[->|[->|[->|[->|[->|[->| ->]]]]]]] by lia; cbn [value_body] in H;
    [..|done|by eapply simple_or_float_inv].
  all: apply bind_Ok in H as ([n r1] & (tl & rest1 & -> & -> & Hn & Hp)%reader_arg_inv & H); [|done].
  - injection H as <- <-. exists tl, rest1. split_and!; try done.
    apply canonical_scalar; try done; [by rewrite <-Hp|by apply N.leb_le].
  - injection H as <- <-. exists tl, rest1. split_and!; try done.
    apply canonical_scalar; try done; [by rewrite <-Hp|by apply N.leb_le].
  - apply bind_Ok in H as ([b r2] & (rest2 & -> & <- & ->)%reader_take_inv & [= <- <-]).
    exists (tl ++ b), rest2. rewrite <-!app_assoc. split_and!; try done.
    apply canonical_scalar; try done; [|by apply N.leb_le]. unfold encode. simpl. by rewrite Hp.
  - apply bind_Ok in H as ([b r2] & (rest2 & -> & <- & ->)%reader_take_inv & H).
    destruct (valid_utf8 b) eqn:Eu; [|done]. injection H as <- <-.
    exists (tl ++ b), rest2. rewrite <-!app_assoc. split_and!; try done.
    apply canonical_scalar; try done; [unfold encode; simpl; by rewrite Hp|].
    cbn [wf_value]. rewrite Eu. apply andb_true_iff. split; [by apply N.leb_le|done].
  - apply bind_Ok in H as ([items r2] & Hloop & [= <- <-]).
    apply array_loop_inv in Hloop as (encs & rest2 & -> & -> & Hlen & Hall); [|done].
    assert (n = len items) as -> by (unfold len; lia).
    exists (tl ++ concat encs), rest2. rewrite <-!app_assoc. split_and!; try done.
    change (head_byte 4 ai :: tl ++ concat encs) with ((head_byte 4 ai :: tl) ++ concat encs).
    rewrite <-Hp. by apply canonical_Array.
  - apply bind_Ok in H as ([[pairs pk] r2] & Hloop & [= <- <-]).
    apply map_loop_inv in Hloop as (es & rest2 & -> & -> & Hlen & Hs & Hall); [|done].
    assert (n = len pairs) as -> by (unfold len; lia).
    exists (tl ++ flat_pairs es), rest2. rewrite <-!app_assoc. split_and!; try done.
    change (head_byte 5 ai :: tl ++ flat_pairs es) with ((head_byte 5 ai :: tl) ++ flat_pairs es).
    rewrite <-Hp. by apply canonical_Map.
Qed.

Lemma value_at_inverts levels : read_inverts levels.
Proof.
  induction levels as [|levels IH]; intros pre rest v r H; [done|].
  destruct rest as [|ib rest].
  { cbn [value_at] in H. apply bind_Ok in H as ([b r1] & (rest' & [=] & _)%reader_byte_inv & _). }
  destruct (head_byte_split ib) as (Hib & Hm & Hai). rewrite Hib in H |- *.
  rewrite value_at_head in H by done.
  apply value_body_inv in H as (tl & rest' & -> & -> & Hc); [|done..].
  exists (head_byte (N.shiftr (Byte.to_N ib) 5) (N.land (Byte.to_N ib) 31) :: tl), rest'.
  by rewrite <-!app_assoc.
Qed.

(** ** Whole buffers *)

Lemma decode_encoding v bs rest :
  wf_value v = true -> encode v = Ok bs -> len (bs ++ rest) <= u64_max ->
  decode (bs ++ rest)
  = if (depth v <=? MAX_DEPTH)%nat
    then (if bool_decide (rest = []) then Ok (canon v) else Err TrailingBytes)
    else Err DepthExceeded.
Proof.
  intros Hwf Henc Hl. unfold decode, reader_value.
  change (mkReader (bs ++ rest) 0) with (at_pos [] (bs ++ rest)).
  rewrite (encode_reads v bs Hwf Henc) by done.
  replace (depth v <? MAX_DEPTH + 1 - 0)%nat with (depth v <=? MAX_DEPTH)%nat
    by (unfold Nat.ltb, MAX_DEPTH; simpl; done).
  destruct (depth v <=? MAX_DEPTH)%nat; simpl; [|done].
  destruct rest as [|b rest]; simpl.
  - by rewrite app_nil_r, bool_decide_eq_false_2 by auto.
  - by rewrite bool_decide_eq_true_2 by (rewrite ?length_app; simpl; lia).
Qed.

Lemma decode_canonical bs v :
  decode bs = Ok v ->
  encode v = Ok bs /\ wf_value v = true /\ canon v = v /\ (depth v <= MAX_DEPTH)%nat.
Proof.
  unfold decode, reader_value. intros ([w r] & H & Hend)%bind_Ok.
  change (mkReader bs 0) with (at_pos [] bs) in H.
  apply value_at_inverts in H as (bs' & rest' & -> & -> & He & Hw & Hc & Hd). simpl in Hend.
  case_bool_decide as Hpos; [done|]. injection Hend as ->.
  rewrite length_app in Hpos. destruct rest'; [|simpl in Hpos; lia]. rewrite app_nil_r.
  split_and!; try done. unfold MAX_DEPTH in *. lia.
Qed.

End CodecFacts.
