(* ===== verification/CodecProps.v ===== *)
(** * What the codec guarantees

    The properties of Loom Canonical CBOR that the rest of the system relies on: one encoding per
    value, one value per encoding, the exact failure conditions of both directions, and the object
    framing [[epoch, type, ...fields]]. *)

From S2P Require Import Prelude Codec CodecFacts.

Module CodecProps.
Import Codec CodecFacts.

(** A value the encoder accepts: every float is finite and no map has two keys with the same
    encoding. *)
Fixpoint encodable (v : Value) : bool :=
  match v with
  | Array items => forallb encodable items
  | Map pairs =>
      forallb (fun kv => encodable kv.1 && encodable kv.2) pairs
      && bool_decide (NoDup (map (fun kv => encoded kv.1) pairs))
  | Float f => is_finite f
  | _ => true
  end.

(** How a value fails to encode. *)
Definition encode_fails (v : Value) : Prop :=
  encode v = Err NonCanonicalFloat \/ encode v = Err DuplicateMapKey.

Definition encode_outcome (v : Value) : Prop :=
  if encodable v then encode v = Ok (encoded v) else encode_fails v.

Lemma try_map_outcome {A B} (f : A -> result CodecError B) (g : A -> B) (ok : A -> bool) l :
  Forall (fun x => if ok x then f x = Ok (g x)
                   else f x = Err NonCanonicalFloat \/ f x = Err DuplicateMapKey) l ->
  if forallb ok l then try_map f l = Ok (map g l)
  else try_map f l = Err NonCanonicalFloat \/ try_map f l = Err DuplicateMapKey.
Proof.
  induction 1 as [|x l Hx _ IH]; simpl; [done|].
  destruct (ok x); simpl; [|by destruct Hx as [-> | ->]; simpl; auto].
  rewrite Hx. simpl. destruct (forallb ok l); [by rewrite IH|by destruct IH as [-> | ->]; simpl; auto].
Qed.

Lemma encode_outcome_all v : encode_outcome v.
Proof.
  induction v as [n|n|b|s|items IH|pairs IH|f|b|] using value_ind_nested;
    [reflexivity..| | | |reflexivity|reflexivity].
  - unfold encode_outcome, encode_fails, encoded. rewrite encode_Array. cbn [encodable].
    apply (try_map_outcome encode encoded encodable) in IH.
    destruct (forallb _ items); [by rewrite IH|by destruct IH as [-> | ->]; simpl; auto].
  - enough (if encodable (Map pairs) then exists bs, encode (Map pairs) = Ok bs
            else encode_fails (Map pairs)) as H.
    { unfold encode_outcome, encoded. destruct (encodable _); [by destruct H as [bs ->]|done]. }
    unfold encode_fails. rewrite encode_Map. cbn [encodable].
    apply (Forall_impl _ (fun kv => if encodable kv.1 && encodable kv.2
      then encode_pair kv = Ok (encoded kv.1, encoded kv.2)
      else encode_pair kv = Err NonCanonicalFloat \/ encode_pair kv = Err DuplicateMapKey)) in IH.
    2:{ intros kv [H1 H2]. unfold encode_outcome, encode_fails, encode_pair in *.
        destruct (encodable kv.1); simpl; [rewrite H1|by destruct H1 as [-> | ->]; simpl; auto].
        destruct (encodable kv.2); simpl; [by rewrite H2|by destruct H2 as [-> | ->]; simpl; auto]. }
    apply (try_map_outcome encode_pair (fun kv => (encoded kv.1, encoded kv.2))) in IH.
    destruct (forallb _ pairs); simpl; [|by destruct IH as [-> | ->]; simpl; auto].
    rewrite IH. cbn [mbind result_bind].
    pose proof (adjacent_dup_sort fst (map (fun kv => (encoded kv.1, encoded kv.2)) pairs)) as Hd.
    rewrite map_map in Hd. cbn [fst] in Hd. case_bool_decide as Hn.
    + rewrite (proj2 Hd Hn). eauto.
    + destruct (adjacent_dup _ _); [by auto|naive_solver].
  - unfold encode_outcome, encode_fails, encoded, encode. cbn [encodable encode_into].
    destruct (is_finite f); simpl; auto.
Qed.

(** Decoding a canonical encoding returns the canonical form of the value, whatever the value,
    and refuses exactly the values nested deeper than [MAX_DEPTH]. *)
Theorem decode_encode v bs :
  wf_value v = true -> encode v = Ok bs -> len bs <= u64_max ->
  decode bs = if (depth v <=? MAX_DEPTH)%nat then Ok (canon v) else Err DepthExceeded.
Proof.
  intros Hwf He Hl. pose proof (decode_encoding v bs [] Hwf He) as H.
  rewrite app_nil_r in H. specialize (H Hl).
  rewrite H. by rewrite bool_decide_eq_true_2.
Qed.

Definition sample_value : Value :=
  Map [(Text [x7a], Float (2 ^ 63)); (Text [x61], Array [Nint 41; Bool true; Null])].

Lemma decode_encode_witness :
  decode (encoded sample_value)
  = Ok (Map [(Text [x61], Array [Nint 41; Bool true; Null]); (Text [x7a], Float 0)]).
Proof.
  apply (decode_encode sample_value (encoded sample_value)); vm_compute; done.
Defined.

(** C17: every accepted byte string is the one encoding of the value it decodes to, and that value is
    well formed, already canonical and nested at most [MAX_DEPTH] deep. So two different byte
    strings never decode to the same value, and no non-canonical form is accepted. *)
Theorem encode_decode bs v :
  decode bs = Ok v ->
  encode v = Ok bs /\ wf_value v = true /\ canon v = v /\ (depth v <= MAX_DEPTH)%nat.
Proof. apply decode_canonical. Qed.

Lemma encode_decode_witness :
  encode (Map [(Uint 1, Uint 0); (Uint 256, Uint 0)]) = Ok [xa2; x01; x00; x19; x01; x00; x00].
Proof. apply (encode_decode [xa2; x01; x00; x19; x01; x00; x00]); vm_compute; done. Defined.

(** Bytes after a complete top-level item are rejected as trailing bytes. *)
Lemma decode_trailing v bs rest :
  wf_value v = true -> encode v = Ok bs -> (depth v <= MAX_DEPTH)%nat ->
  len (bs ++ rest) <= u64_max -> rest <> [] -> decode (bs ++ rest) = Err TrailingBytes.
Proof.
  intros Hwf He Hd Hl Hr. rewrite (decode_encoding v bs rest Hwf He Hl).
  apply Nat.leb_le in Hd. by rewrite Hd, bool_decide_eq_false_2.
Qed.

(** Encoding succeeds exactly when every float is finite and no map repeats a key; otherwise it
    fails with [NonCanonicalFloat] or [DuplicateMapKey] and with no other error. *)
Theorem encode_result v :
  if encodable v then exists bs, encode v = Ok bs
  else encode v = Err NonCanonicalFloat \/ encode v = Err DuplicateMapKey.
Proof. pose proof (encode_outcome_all v) as H. unfold encode_outcome in H. destruct (encodable v); eauto. Qed.

(** Encoding forgets the order of the pairs of a map. *)
Lemma encode_Map_perm pairs1 pairs2 bs :
  pairs1 ≡ₚ pairs2 -> encode (Map pairs1) = Ok bs -> encode (Map pairs2) = Ok bs.
Proof.
  intros Hp. rewrite !encode_Map. intros (es1 & He1 & H)%bind_Ok. cbv zeta in H.
  assert (exists es2, try_map encode_pair pairs2 = Ok es2 /\ es1 ≡ₚ es2) as (es2 & -> & Hes).
  { clear H. apply try_map_Ok in He1. revert es1 He1. induction Hp as [|x l1 l2 _ IH|x y l|l1 l2 l3 _ IH1 _ IH2];
      intros es1 He1.
    - inversion He1. by exists [].
    - inversion He1 as [|? e ? es Hx Hl]; subst. destruct (IH _ Hl) as (es2 & He2 & Hes).
      exists (e :: es2). simpl. rewrite Hx, He2. split; [done|by constructor].
    - inversion He1 as [|? e1 ? es Hx Hl]; subst. inversion Hl as [|? e2 ? es' Hy Hl']; subst.
      apply try_map_Ok in Hl'. exists (e2 :: e1 :: es'). simpl. rewrite Hx, Hy, Hl'. split; [done|constructor].
    - destruct (IH1 _ He1) as (es2 & He2%try_map_Ok & Hes2). destruct (IH2 _ He2) as (es3 & He3 & Hes3).
      exists es3. split; [done|by trans es2]. }
  simpl. destruct (adjacent_dup fst (sort_by fst es1)) eqn:Ed; [done|].
  apply adjacent_dup_sort in Ed. rewrite <-(sort_by_perm_eq fst es1 es2) by done.
  by rewrite (proj2 (adjacent_dup_sort fst es1)).
Qed.

(** A value and its canonical form have one encoding. *)
Lemma encode_canon v bs : encode v = Ok bs -> encode (canon v) = Ok bs.
Proof.
  revert bs. induction v as [n|n|b|s|items IH|pairs IH|f|b|] using value_ind_nested; intros bs; try done.
  - cbn [canon]. rewrite !encode_Array. intros (es & He%try_map_Ok & [= <-])%bind_Ok.
    assert (try_map encode (map canon items) = Ok es) as ->.
    { apply try_map_Ok. induction He as [|v b items es Hv _ IHl]; [constructor|].
      apply Forall_cons in IH as [Hc IH]. constructor; auto. }
    simpl. unfold len. by rewrite length_map.
  - rewrite canon_Map. intros H.
    apply (encode_Map_perm pairs (sort_by (fun kv => encoded kv.1) pairs)) in H; [|by rewrite sort_by_perm].
    assert (Forall (fun kv => (forall bs, encode kv.1 = Ok bs -> encode (canon kv.1) = Ok bs) /\
      (forall bs, encode kv.2 = Ok bs -> encode (canon kv.2) = Ok bs)) (sort_by (fun kv => encoded kv.1) pairs)) as IH'
      by (by rewrite sort_by_perm).
    revert H IH'. generalize (sort_by (fun kv => encoded kv.1) pairs). clear. intros pairs H IH.
    rewrite encode_Map in *. apply bind_Ok in H as (es & He%try_map_Ok & H).
    assert (try_map encode_pair (map canon_pair pairs) = Ok es) as ->; [|done].
    apply try_map_Ok. clear H. induction He as [|kv e pairs es Hkv%encode_pair_Ok _ IHl]; [constructor|].
    apply Forall_cons in IH as [Hc IH]. constructor; [|auto]. apply encode_pair_Ok. naive_solver.
  - unfold encode. cbn [canon encode_into]. destruct (is_finite f) eqn:Ef; [|done]. cbn [negb].
    destruct (is_zero f) eqn:E; [done|]. by rewrite Ef, E.
Qed.

(** The canonical form of a value nests as deep as the value. *)
Lemma max_list_perm l1 l2 : l1 ≡ₚ l2 -> max_list l1 = max_list l2.
Proof. induction 1; cbn [max_list_with]; unfold id in *; lia. Qed.

Lemma depth_canon v : depth (canon v) = depth v.
Proof.
  induction v as [n|n|b|s|items IH|pairs IH|f|b|] using value_ind_nested; try done.
  - cbn [canon depth]. f_equal. rewrite map_map. induction IH as [|v items Hv _ IHl]; [done|]. cbn [map]. by rewrite Hv, IHl.
  - rewrite canon_Map. cbn [depth]. rewrite map_map.
    transitivity (max_list (map (fun kv => S (Nat.max (depth (canon kv.1)) (depth (canon kv.2)))) pairs)).
    + apply max_list_perm. by rewrite sort_by_perm.
    + f_equal. induction IH as [|kv pairs [H1 H2] _ IHl]; [done|]. cbn [map]. by rewrite H1, H2, IHl.
Qed.

Lemma decode_object_encoding type_code fields bs :
  type_code <= u16_max -> forallb wf_value fields = true -> len fields + 2 <= u64_max ->
  encode_object type_code fields = Ok bs -> len bs <= u64_max ->
  (depth (Array fields) <= MAX_DEPTH)%nat ->
  decode_object bs = Ok (type_code, map canon fields).
Proof.
  unfold encode_object. intros Ht Hwf Hn He Hl Hd. unfold decode_object.
  set (v := Array (Uint EPOCH :: Uint type_code :: fields)) in *.
  assert (wf_value v = true) as Hv.
  { subst v. cbn [wf_value forallb]. rewrite Hwf.
    assert ((type_code <=? u64_max) = true) as -> by (apply N.leb_le; unfold u16_max, u64_max in *; lia).
    rewrite !andb_true_r. apply N.leb_le. unfold len in *. simpl length. lia. }
  pose proof (decode_encoding v bs [] Hv He) as H. rewrite app_nil_r in H. rewrite (H Hl).
  assert ((depth v <=? MAX_DEPTH)%nat = true) as ->.
  { apply Nat.leb_le. subst v. cbn [depth map max_list] in *. unfold MAX_DEPTH in *. simpl in *. lia. }
  rewrite bool_decide_eq_true_2 by done. simpl. apply N.leb_le in Ht. by rewrite Ht.
Qed.

(** The object framing round trips: what [encode_object] writes, [decode_object] reads back with
    the same type code and the canonical fields. *)
Theorem decode_encode_object type_code fields bs :
  type_code <= u16_max -> forallb wf_value fields = true -> len fields + 2 <= u64_max ->
  encode_object type_code fields = Ok bs -> len bs <= u64_max ->
  (depth (Array fields) <= MAX_DEPTH)%nat ->
  decode_object bs = Ok (type_code, map canon fields).
Proof. apply decode_object_encoding. Qed.

Lemma decode_encode_object_witness :
  decode_object [x84; x01; x03; x61; x78; x07] = Ok (3, [Text [x78]; Uint 7]).
Proof.
  apply (decode_encode_object 3 [Text [x78]; Uint 7]); vm_compute; try done; lia.
Defined.

Lemma decode_object_inv bs type_code fields :
  decode_object bs = Ok (type_code, fields) ->
  decode bs = Ok (Array (Uint EPOCH :: Uint type_code :: fields)) /\ type_code <= u16_max.
Proof.
  unfold decode_object. destruct (decode bs) as [v|]; [|discriminate]. cbn [mbind result_bind].
  destruct v as [| | | |[|e [|t fields']]| | | |]; try discriminate.
  destruct e as [epoch| | | | | | | |]; try discriminate.
  destruct (N.eqb_spec epoch EPOCH) as [->|]; [|discriminate]. cbn [negb].
  destruct t as [t| | | | | | | |]; try discriminate.
  destruct (N.leb_spec t u16_max); [|discriminate]. by intros [= -> ->].
Qed.

Lemma decode_object_canonical bs type_code fields :
  decode_object bs = Ok (type_code, fields) ->
  encode_object type_code fields = Ok bs /\ type_code <= u16_max
  /\ forallb wf_value fields = true /\ map canon fields = fields.
Proof.
  intros (Hv & Ht)%decode_object_inv. apply decode_canonical in Hv as (He & Hw & Hc & _).
  split; [exact He|]. split; [exact Ht|].
  apply wf_Array in Hw as [_ [_ [_ Hw]%andb_true_iff]%andb_true_iff].
  split; [exact Hw|]. by injection Hc.
Qed.

(** An accepted object is the framing of its type code and fields: the type code fits 16 bits
    and encoding the parts again gives the bytes. *)
Theorem encode_decode_object bs type_code fields :
  decode_object bs = Ok (type_code, fields) ->
  encode_object type_code fields = Ok bs /\ type_code <= u16_max
  /\ forallb wf_value fields = true /\ map canon fields = fields.
Proof. apply decode_object_canonical. Qed.

Lemma encode_decode_object_witness : encode_object 3 [Text [x78]; Uint 7] = Ok [x84; x01; x03; x61; x78; x07].
Proof. apply (encode_decode_object [x84; x01; x03; x61; x78; x07]). vm_compute. done. Defined.

End CodecProps.
