(* ===== verification/Types.v ===== *)
(** * Shared types: error codes and content addresses

    [Module Error] models the stable error codes of crates/loom-types/src/error.rs; a [LoomError] is
    represented by its code, its message and details are diagnostics. [Module Digest] models the
    content addresses of crates/loom-types/src/digest.rs, over the two hash functions of the blake3
    and sha2 crates, which are parameters. *)

From S2P Require Import Prelude.

Module Error.

Inductive Code : Type :=
| NotFound | AlreadyExists | CorruptObject | IntegrityFailure | Unsupported | InvalidArgument
| Io | Internal | CrossWorkspace | CasMismatch | NotFastForward | DimensionMismatch
| PermissionDenied | AuthenticationFailed | IdentityNoRootCredential | TriggerNotFound
| TriggerDenied | CursorInvalid | E2eLocked | E2eKeyInvalid | Conflict | Locked
| LockLeaseExpired | FencingStale | LockNotHeld | NoSuchField | QueryParseError | SqlSyntax
| SqlConstraintViolation | SqlTableNotFound | SqlTypeMismatch | SqlExecutionFailed
| ResourceExhausted | IndexNotReady | DocumentNotText | Unavailable | RetainedGap.

Definition as_i32 (c : Code) : Z :=
  match c with
  | NotFound => 1 | AlreadyExists => 2 | CorruptObject => 3 | IntegrityFailure => 4
  | Unsupported => 5 | InvalidArgument => 6 | Io => 7 | Internal => 8 | CrossWorkspace => 9
  | CasMismatch => 10 | NotFastForward => 11 | DimensionMismatch => 12 | PermissionDenied => 13
  | AuthenticationFailed => 14 | IdentityNoRootCredential => 15 | TriggerNotFound => 16
  | TriggerDenied => 17 | CursorInvalid => 18 | E2eLocked => 19 | E2eKeyInvalid => 20
  | Conflict => 21 | Locked => 22 | LockLeaseExpired => 23 | FencingStale => 24
  | LockNotHeld => 25 | NoSuchField => 26 | QueryParseError => 27 | SqlSyntax => 28
  | SqlConstraintViolation => 29 | SqlTableNotFound => 30 | SqlTypeMismatch => 31
  | SqlExecutionFailed => 32 | ResourceExhausted => 33 | IndexNotReady => 34
  | DocumentNotText => 35 | Unavailable => 36 | RetainedGap => 37
  end.

#[global] Instance Code_eq_dec : EqDecision Code.
Proof. solve_decision. Defined.

End Error.

(** The engine's result type: [loom_types::error::Result]. *)
Abbreviation res := (result Error.Code).

Module Digest.

Definition DIGEST_LEN : nat := 32.

Inductive Algo : Type := Blake3 | Sha256.

#[global] Instance Algo_eq_dec : EqDecision Algo.
Proof. solve_decision. Defined.

Definition algo_code (a : Algo) : N := match a with Blake3 => 30 | Sha256 => 18 end.

Definition algo_from_code (code : N) : res Algo :=
  match code with
  | 30 => Ok Blake3
  | 18 => Ok Sha256
  | _ => Err Error.Unsupported
  end.

Record Digest : Type := mkDigest { algo : Algo; dbytes : bytes }.

#[global] Instance Digest_eq_dec : EqDecision Digest.
Proof. solve_decision. Defined.

(** [PartialEq], [Ord] and [Hash] of a digest look at its bytes only. *)
#[global] Instance digest_equiv : Equiv Digest := fun d1 d2 => dbytes d1 = dbytes d2.
#[global] Instance digest_equivalence : Equivalence (≡@{Digest}).
Proof.
  split; unfold equiv, digest_equiv; [intros d|intros d1 d2|intros d1 d2 d3]; congruence.
Qed.
#[global] Instance dbytes_proper : Proper ((≡) ==> (=)) dbytes.
Proof. by intros d1 d2. Qed.

(** The hash functions of the blake3 and sha2 crates: any functions to 32 bytes. *)
Class Hasher : Type := {
  raw_hash : Algo -> bytes -> bytes;
  raw_hash_len a b : length (raw_hash a b) = DIGEST_LEN;
}.

Definition hash `{Hasher} (a : Algo) (data : bytes) : Digest := mkDigest a (raw_hash a data).

Definition blake3 `{Hasher} (data : bytes) : Digest := hash Blake3 data.

Definition from_blake3_bytes (b : bytes) : Digest := mkDigest Blake3 b.

Definition wf_digest (d : Digest) : Prop := length (dbytes d) = DIGEST_LEN.

Lemma hash_wf `{Hasher} a data : wf_digest (hash a data).
Proof. apply raw_hash_len. Qed.
#[export] Hint Resolve hash_wf : loom.

End Digest.
