(* ===== verification/Workspace.v ===== *)
(** * Facets, authorization domains and workspace ids (crates/loom-types/src/workspace.rs)

    The stable tags persisted in stores, the names used on the wire, and the 16-byte identifiers. *)

From S2P Require Import Prelude Types.

Import Error.

Module FacetKind.

Inductive FacetKind : Type :=
| Files | Vcs | Sql | Kv | Document | Vector | Graph | Columnar | Queue | TimeSeries | Cas | Ledger
| Program | Calendar | Contacts | Mail | Search | Dataframe | Metrics | Logs | Traces | Inference.

#[global] Instance FacetKind_eq_dec : EqDecision FacetKind.
Proof. solve_decision. Defined.

Definition facet_ALL : list FacetKind :=
  [ Files; Vcs; Sql; Kv; Document; Vector; Graph; Columnar; Queue; TimeSeries; Cas; Ledger;
    Program; Calendar; Contacts; Mail; Search; Dataframe; Metrics; Logs; Traces; Inference ].

Definition facet_stable_tag (k : FacetKind) : N :=
  match k with
  | Files => 0 | Sql => 1 | Kv => 2 | Graph => 3 | Vector => 4 | Columnar => 5 | Ledger => 6
  | TimeSeries => 7 | Document => 8 | Cas => 9 | Queue => 10 | Calendar => 11 | Contacts => 12
  | Mail => 13 | Program => 14 | Search => 15 | Vcs => 16 | Dataframe => 17 | Metrics => 18
  | Logs => 19 | Traces => 20 | Inference => 21
  end.

Definition facet_from_stable_tag (tag : N) : option FacetKind :=
  match tag with
  | 0 => Some Files | 1 => Some Sql | 2 => Some Kv | 3 => Some Graph | 4 => Some Vector
  | 5 => Some Columnar | 6 => Some Ledger | 7 => Some TimeSeries | 8 => Some Document
  | 9 => Some Cas | 10 => Some Queue | 11 => Some Calendar | 12 => Some Contacts | 13 => Some Mail
  | 14 => Some Program | 15 => Some Search | 16 => Some Vcs | 17 => Some Dataframe
  | 18 => Some Metrics | 19 => Some Logs | 20 => Some Traces | 21 => Some Inference
  | _ => None
  end.

Definition facet_as_str (k : FacetKind) : bytes :=
  match k with
  | Files => str "files" | Vcs => str "vcs" | Sql => str "sql" | Kv => str "kv"
  | Document => str "document" | Vector => str "vector" | Graph => str "graph"
  | Columnar => str "columnar" | Queue => str "queue" | TimeSeries => str "time-series"
  | Cas => str "cas" | Ledger => str "ledger" | Program => str "program"
  | Calendar => str "calendar" | Contacts => str "contacts" | Mail => str "mail"
  | Search => str "search" | Dataframe => str "dataframe" | Metrics => str "metrics"
  | Logs => str "logs" | Traces => str "traces" | Inference => str "inference"
  end.

(** The arms of [parse], in order; the first name equal to the value wins. *)
Definition facet_parse_table : list (bytes * FacetKind) :=
  [ (str "files", Files); (str "vcs", Vcs); (str "sql", Sql); (str "kv", Kv);
    (str "document", Document); (str "vector", Vector); (str "graph", Graph);
    (str "columnar", Columnar); (str "queue", Queue); (str "time-series", TimeSeries);
    (str "cas", Cas); (str "ledger", Ledger); (str "program", Program); (str "calendar", Calendar);
    (str "contacts", Contacts); (str "mail", Mail); (str "search", Search);
    (str "dataframe", Dataframe); (str "metrics", Metrics); (str "logs", Logs);
    (str "traces", Traces); (str "inference", Inference) ].

Definition facet_parse (value : bytes) : res FacetKind :=
  match list_find (fun e => e.1 = value) facet_parse_table with
  | Some (_, (_, k)) => Ok k
  | None => Err InvalidArgument
  end.

Definition supports_file_projection (k : FacetKind) : bool := bool_decide (k = Files).
Definition supports_file_write_projection (k : FacetKind) : bool := bool_decide (k = Files).
Definition is_mountable (k : FacetKind) : bool := supports_file_projection k.

End FacetKind.

Module AclDomain.

Inductive AclDomain : Type :=
| Files | Vcs | Sql | Kv | Document | Vector | Graph | Columnar | Queue | TimeSeries | Cas | Ledger
| Program | Calendar | Contacts | Mail | Search | Dataframe | Metrics | Logs | Traces | Tickets
| Pages | Chat | Lifecycle | Meetings | Inference.

#[global] Instance AclDomain_eq_dec : EqDecision AclDomain.
Proof. solve_decision. Defined.

Definition domain_ALL : list AclDomain :=
  [ Files; Vcs; Sql; Kv; Document; Vector; Graph; Columnar; Queue; TimeSeries; Cas; Ledger;
    Program; Calendar; Contacts; Mail; Search; Dataframe; Metrics; Logs; Traces; Tickets; Pages;
    Chat; Lifecycle; Meetings; Inference ].

Definition domain_stable_tag (d : AclDomain) : N :=
  match d with
  | Files => 0 | Sql => 1 | Kv => 2 | Graph => 3 | Vector => 4 | Columnar => 5 | Ledger => 6
  | TimeSeries => 7 | Document => 8 | Cas => 9 | Queue => 10 | Calendar => 11 | Contacts => 12
  | Mail => 13 | Program => 14 | Search => 15 | Vcs => 16 | Dataframe => 17 | Metrics => 18
  | Logs => 19 | Traces => 20 | Tickets => 21 | Pages => 22 | Chat => 23 | Lifecycle => 24
  | Meetings => 25 | Inference => 26
  end.

Definition domain_from_stable_tag (tag : N) : option AclDomain :=
  match tag with
  | 0 => Some Files | 1 => Some Sql | 2 => Some Kv | 3 => Some Graph | 4 => Some Vector
  | 5 => Some Columnar | 6 => Some Ledger | 7 => Some TimeSeries | 8 => Some Document
  | 9 => Some Cas | 10 => Some Queue | 11 => Some Calendar | 12 => Some Contacts | 13 => Some Mail
  | 14 => Some Program | 15 => Some Search | 16 => Some Vcs | 17 => Some Dataframe
  | 18 => Some Metrics | 19 => Some Logs | 20 => Some Traces | 21 => Some Tickets
  | 22 => Some Pages | 23 => Some Chat | 24 => Some Lifecycle | 25 => Some Meetings
  | 26 => Some Inference
  | _ => None
  end.

Definition domain_as_str (d : AclDomain) : bytes :=
  match d with
  | Files => str "files" | Vcs => str "vcs" | Sql => str "sql" | Kv => str "kv"
  | Document => str "document" | Vector => str "vector" | Graph => str "graph"
  | Columnar => str "columnar" | Queue => str "queue" | TimeSeries => str "time-series"
  | Cas => str "cas" | Ledger => str "ledger" | Program => str "program"
  | Calendar => str "calendar" | Contacts => str "contacts" | Mail => str "mail"
  | Search => str "search" | Dataframe => str "dataframe" | Metrics => str "metrics"
  | Logs => str "logs" | Traces => str "traces" | Tickets => str "tickets" | Pages => str "pages"
  | Chat => str "chat" | Lifecycle => str "lifecycle" | Meetings => str "meetings"
  | Inference => str "inference"
  end.

Definition domain_parse (value : bytes) : res AclDomain :=
  match list_find (fun d => domain_as_str d = value) domain_ALL with
  | Some (_, d) => Ok d
  | None => Err InvalidArgument
  end.

Definition from_facet (k : FacetKind.FacetKind) : AclDomain :=
  match k with
  | FacetKind.Files => Files | FacetKind.Vcs => Vcs | FacetKind.Sql => Sql | FacetKind.Kv => Kv
  | FacetKind.Document => Document | FacetKind.Vector => Vector | FacetKind.Graph => Graph
  | FacetKind.Columnar => Columnar | FacetKind.Queue => Queue | FacetKind.TimeSeries => TimeSeries
  | FacetKind.Cas => Cas | FacetKind.Ledger => Ledger | FacetKind.Program => Program
  | FacetKind.Calendar => Calendar | FacetKind.Contacts => Contacts | FacetKind.Mail => Mail
  | FacetKind.Search => Search | FacetKind.Dataframe => Dataframe | FacetKind.Metrics => Metrics
  | FacetKind.Logs => Logs | FacetKind.Traces => Traces | FacetKind.Inference => Inference
  end.

End AclDomain.

Module WorkspaceId.

(** A [[u8; 16]] newtype; principals and roles are the same type. *)
Definition wf_id (id : bytes) : Prop := length id = 16%nat.

(** [bytes[i] = f(bytes[i])] *)
Definition update_byte (i : nat) (f : N -> N) (b : bytes) : bytes :=
  match b !! i with Some x => <[i := as_u8 (f (Byte.to_N x))]> b | None => b end.

Definition v4_from_bytes (b : bytes) : bytes :=
  update_byte 8 (fun x => N.lor (N.land x 0x3f) 0x80) (update_byte 6 (fun x => N.lor (N.land x 0x0f) 0x40) b).

End WorkspaceId.

(** ** The tables *)

Module WorkspaceFacts.

Lemma find_Ok {A} (l : list A) (P : A -> Prop) `{!forall x, Decision (P x)} i x :
  list_find P l = Some (i, x) -> x ∈ l /\ P x.
Proof. intros (Hi & HP & _)%list_find_Some. split; [by eapply list_elem_of_lookup_2|done]. Qed.

Lemma facet_parse v k : FacetKind.facet_parse v = Ok k <-> v = FacetKind.facet_as_str k.
Proof.
  split.
  - unfold FacetKind.facet_parse. destruct (list_find _ _) as [[i [n k']]|] eqn:E; [|done]. intros [= <-].
    apply find_Ok in E as [Hin <-].
    assert (Forall (fun e => e.1 = FacetKind.facet_as_str e.2) FacetKind.facet_parse_table) as H by (repeat constructor).
    rewrite Forall_forall in H. by apply H in Hin.
  - intros ->. by destruct k; vm_compute.
Qed.

Lemma domain_parse v d : AclDomain.domain_parse v = Ok d <-> v = AclDomain.domain_as_str d.
Proof.
  split.
  - unfold AclDomain.domain_parse. destruct (list_find _ _) as [[i d']|] eqn:E; [|done]. intros [= <-].
    by apply find_Ok in E as [_ <-].
  - intros ->. by destruct d; vm_compute.
Qed.

Lemma facet_tag t k : FacetKind.facet_from_stable_tag t = Some k <-> t = FacetKind.facet_stable_tag k.
Proof.
  split; [|intros ->; by destruct k].
  destruct t as [|p]; [by intros [= <-]|]. repeat (destruct p as [p|p|]; simpl; try done); by intros [= <-].
Qed.

Lemma domain_tag t d : AclDomain.domain_from_stable_tag t = Some d <-> t = AclDomain.domain_stable_tag d.
Proof.
  split; [|intros ->; by destruct d].
  destruct t as [|p]; [by intros [= <-]|]. repeat (destruct p as [p|p|]; simpl; try done); by intros [= <-].
Qed.

Lemma domain_tag_byte d : Byte.to_N (as_u8 (AclDomain.domain_stable_tag d)) = AclDomain.domain_stable_tag d.
Proof. by destruct d. Qed.

(** The persisted and the wire names of facets and authorization domains are one-to-one. A tag
    decodes to a facet (domain) exactly when it is that facet's tag, a name parses to it exactly when it
    is its name, the tags fit one byte, [ALL] lists everything once, and a facet's domain has the
    facet's name. *)
Theorem workspace_tables :
  (forall t k, FacetKind.facet_from_stable_tag t = Some k <-> t = FacetKind.facet_stable_tag k)
  /\ (forall t d, AclDomain.domain_from_stable_tag t = Some d <-> t = AclDomain.domain_stable_tag d)
  /\ (forall v k, FacetKind.facet_parse v = Ok k <-> v = FacetKind.facet_as_str k)
  /\ (forall v d, AclDomain.domain_parse v = Ok d <-> v = AclDomain.domain_as_str d)
  /\ (forall k, FacetKind.facet_stable_tag k < 256) /\ (forall d, AclDomain.domain_stable_tag d < 256)
  /\ (NoDup FacetKind.facet_ALL /\ forall k, k ∈ FacetKind.facet_ALL) /\ (NoDup AclDomain.domain_ALL /\ forall d, d ∈ AclDomain.domain_ALL)
  /\ forall k, AclDomain.domain_as_str (AclDomain.from_facet k) = FacetKind.facet_as_str k.
Proof.
  split_and!.
  - exact facet_tag.
  - exact domain_tag.
  - exact facet_parse.
  - exact domain_parse.
  - by intros [].
  - by intros [].
  - apply (bool_decide_unpack _). by vm_compute.
  - intros k. apply (bool_decide_unpack _). by destruct k; vm_compute.
  - apply (bool_decide_unpack _). by vm_compute.
  - intros d. apply (bool_decide_unpack _). by destruct d; vm_compute.
  - by intros [].
Qed.

End WorkspaceFacts.
