(* ===== verification/ErrorDetail.v ===== *)
(** * Structured error details and their CBOR form (crates/loom-types/src/error.rs)

    The details an error carries across a binding, written as an array of text-keyed maps and read back
    by key. A failed read is an error without its message. *)

From S2P Require Import Prelude Codec CodecFacts CodecProps.

Module ErrorDetail.
Import Codec CodecFacts CodecProps.

Inductive ErrorDetail : Type :=
| InvalidField (field : bytes) (rejected : option bytes) (accepted : list bytes)
| MissingResource (resource id : bytes)
| OptimisticConflict (resource id : bytes) (expected_root current_root : option bytes)
| Retry (retryable : bool) (retry_after_ms : option N)
| Remediation (action hint : bytes).

(** ** Writing *)

Definition text_pair (key value : bytes) : Value * Value := (Text key, Text value).

Definition optional_text_pair (key : bytes) (value : option bytes) : Value * Value :=
  (Text key, match value with Some v => Text v | None => Null end).

Definition to_cbor (d : ErrorDetail) : Value :=
  match d with
  | InvalidField field rejected accepted =>
      Map [text_pair (str "kind") (str "invalid_field"); text_pair (str "field") field;
           optional_text_pair (str "rejected") rejected; (Text (str "accepted"), Array (map Text accepted))]
  | MissingResource resource id =>
      Map [text_pair (str "kind") (str "missing_resource"); text_pair (str "resource") resource;
           text_pair (str "id") id]
  | OptimisticConflict resource id expected_root current_root =>
      Map [text_pair (str "kind") (str "optimistic_conflict"); text_pair (str "resource") resource;
           text_pair (str "id") id; optional_text_pair (str "expected_root") expected_root;
           optional_text_pair (str "current_root") current_root]
  | Retry retryable retry_after_ms =>
      Map [text_pair (str "kind") (str "retry"); (Text (str "retryable"), Bool retryable);
           (Text (str "retry_after_ms"), match retry_after_ms with Some n => Uint n | None => Null end)]
  | Remediation action hint =>
      Map [text_pair (str "kind") (str "remediation"); text_pair (str "action") action;
           text_pair (str "hint") hint]
  end.

(** [LoomError::details_cbor] *)
Definition details_cbor (details : list ErrorDetail) : option bytes :=
  match details with
  | [] => None
  | _ => match encode (Array (map to_cbor details)) with Ok bs => Some bs | Err _ => None end
  end.

(** ** Reading *)

Fixpoint field (fields : list (Value * Value)) (key : bytes) : option Value :=
  match fields with
  | [] => None
  | (Text k, v) :: fields => if bool_decide (k = key) then Some v else field fields key
  | _ :: fields => field fields key
  end.

Definition text_field (fields : list (Value * Value)) (key : bytes) : result () bytes :=
  match field fields key with Some (Text v) => Ok v | _ => Err () end.

Definition optional_text_field (fields : list (Value * Value)) (key : bytes) : result () (option bytes) :=
  match field fields key with
  | Some (Text v) => Ok (Some v)
  | Some Null | None => Ok None
  | _ => Err ()
  end.

Definition optional_uint_field (fields : list (Value * Value)) (key : bytes) : result () (option N) :=
  match field fields key with
  | Some (Uint n) => Ok (Some n)
  | Some Null | None => Ok None
  | _ => Err ()
  end.

Definition bool_field (fields : list (Value * Value)) (key : bytes) : result () bool :=
  match field fields key with Some (Bool b) => Ok b | _ => Err () end.

Definition text_array_field (fields : list (Value * Value)) (key : bytes) : result () (list bytes) :=
  match field fields key with
  | Some (Array values) => try_map (fun v => match v with Text s => Ok s | _ => Err () end) values
  | _ => Err ()
  end.

Definition from_cbor (v : Value) : result () ErrorDetail :=
  match v with
  | Map fields =>
      kind ← text_field fields (str "kind");
      if bool_decide (kind = str "invalid_field") then
        f ← text_field fields (str "field");
        r ← optional_text_field fields (str "rejected");
        a ← text_array_field fields (str "accepted");
        Ok (InvalidField f r a)
      else if bool_decide (kind = str "missing_resource") then
        r ← text_field fields (str "resource");
        i ← text_field fields (str "id");
        Ok (MissingResource r i)
      else if bool_decide (kind = str "optimistic_conflict") then
        r ← text_field fields (str "resource");
        i ← text_field fields (str "id");
        e ← optional_text_field fields (str "expected_root");
        c ← optional_text_field fields (str "current_root");
        Ok (OptimisticConflict r i e c)
      else if bool_decide (kind = str "retry") then
        r ← bool_field fields (str "retryable");
        m ← optional_uint_field fields (str "retry_after_ms");
        Ok (Retry r m)
      else if bool_decide (kind = str "remediation") then
        a ← text_field fields (str "action");
        h ← text_field fields (str "hint");
        Ok (Remediation a h)
      else Err ()
  | _ => Err ()
  end.

(** [LoomError::details_from_cbor] *)
Definition details_from_cbor (b : bytes) : result () (list ErrorDetail) :=
  v ← map_err (fun _ => ()) (decode b);
  match v with Array items => try_map from_cbor items | _ => Err () end.

(** ** Reading does not depend on the order of the fields *)

Lemma field_perm l l' key : NoDup (map fst l) -> l ≡ₚ l' -> field l key = field l' key.
Proof.
  intros Hn Hp. revert Hn. induction Hp as [|[k v] l l' _ IH|[k v] [k' v'] l|l1 l2 l3 H12 IH1 H23 IH2]; intros Hn.
  - done.
  - apply NoDup_cons in Hn as [_ Hn]. destruct k; simpl; rewrite ?IH by done; done.
  - apply NoDup_cons in Hn as [Hk _]. destruct k as [| | |s| | | | |], k' as [| | |s'| | | | |]; try done; simpl.
    case_bool_decide as E; [|done]. case_bool_decide as E'; [|done]. subst. destruct Hk. by left.
  - rewrite IH1, IH2; [done| |done]. by rewrite <-H12.
Qed.

Lemma from_cbor_fields l l' : (forall key, field l key = field l' key) -> from_cbor (Map l) = from_cbor (Map l').
Proof.
  intros H. cbn [from_cbor].
  assert (forall k, text_field l k = text_field l' k) as H1 by (intros; unfold text_field; by rewrite H).
  assert (forall k, optional_text_field l k = optional_text_field l' k) as H2 by (intros; unfold optional_text_field; by rewrite H).
  assert (forall k, optional_uint_field l k = optional_uint_field l' k) as H3 by (intros; unfold optional_uint_field; by rewrite H).
  assert (forall k, bool_field l k = bool_field l' k) as H4 by (intros; unfold bool_field; by rewrite H).
  assert (forall k, text_array_field l k = text_array_field l' k) as H5 by (intros; unfold text_array_field; by rewrite H).
  by rewrite !H1, !H2, H3, H4, H5.
Qed.

(** ** Round trip *)

(** The fields of a detail, and that their keys differ. *)
Definition pairs_of (d : ErrorDetail) : list (Value * Value) :=
  match to_cbor d with Map pairs => pairs | _ => [] end.

Lemma to_cbor_pairs d : to_cbor d = Map (pairs_of d).
Proof. by destruct d. Qed.

Lemma pairs_keys d : exists names, map fst (pairs_of d) = map Text names /\ NoDup names.
Proof.
  destruct d;
    (match goal with |- exists names, ?l = _ /\ _ =>
       let n := eval cbv [map fst pairs_of to_cbor text_pair optional_text_pair] in l in
       exists (omap (fun v => match v with Text s => Some s | _ => None end) n) end);
    (split; [done|]); apply (bool_decide_unpack _); by vm_compute.
Qed.

Lemma keys_NoDup d : NoDup (map fst (pairs_of d)).
Proof. destruct (pairs_keys d) as (names & -> & Hn). apply NoDup_fmap_2; [|done]. by intros ? ? [= ->]. Qed.

Lemma from_to_cbor d : from_cbor (canon (to_cbor d)) = Ok d.
Proof.
  rewrite to_cbor_pairs, canon_Map.
  rewrite (from_cbor_fields _ (map canon_pair (pairs_of d))).
  - destruct d as [f r a|r i|r i e c|b m|a h]; [| done | by destruct e, c | by destruct m | done].
    assert (try_map (E := ()) (fun v => match v with Text s => Ok s | _ => Err () end) (map canon (map Text a)) = Ok a) as Ha.
    { induction a as [|x a IH]; [done|]. cbn [map try_map canon]. by rewrite IH. }
    transitivity (a' ← try_map (E := ()) (fun v => match v with Text s => Ok s | _ => Err () end) (map canon (map Text a));
                  Ok (InvalidField f r a')); [by destruct r|]. by rewrite Ha.
  - intros key. apply field_perm.
    + assert (map fst (map canon_pair (sort_by (fun kv => encoded kv.1) (pairs_of d))) ≡ₚ map fst (pairs_of d)) as ->; [|apply keys_NoDup].
      rewrite map_map, (sort_by_perm _ (pairs_of d)). destruct (pairs_keys d) as (names & Hk & _).
      enough (map (fun x => (canon_pair x).1) (pairs_of d) = map fst (pairs_of d)) as -> by done.
      revert names Hk. induction (pairs_of d) as [|[k v] l IH]; intros [|n names]; try done.
      simpl. intros [= -> Hk]. f_equal. by apply (IH names).
    + by rewrite sort_by_perm.
Qed.

Lemma encodable_detail d : encodable (to_cbor d) = true.
Proof.
  destruct d as [f r a|r i|r i e c|b m|a h]; cbn [to_cbor].
  1: assert (forallb encodable (map Text a) = true) as Ha by (by induction a).
  all: cbn [encodable]; rewrite bool_decide_eq_true_2 by (apply (bool_decide_unpack _); by vm_compute).
  - cbn [forallb encodable text_pair optional_text_pair fst snd]. rewrite Ha. by destruct r.
  - done.
  - by destruct e, c.
  - by destruct m.
  - done.
Qed.

Lemma depth_detail d : (depth (to_cbor d) <= 2)%nat.
Proof.
  destruct d as [f r a|r i|r i e c|b m|a h]; [|apply Nat.leb_le; done|apply Nat.leb_le; by destruct e, c|apply Nat.leb_le; by destruct m|apply Nat.leb_le; done].
  assert (depth (Array (map Text a)) <= 1)%nat as Ha.
  { cbn [depth]. induction a as [|x a IH]; cbn -[Nat.max]; [lia|]. cbn [map] in IH. lia. }
  assert (depth (to_cbor (InvalidField f r a))
    = Nat.max 1 (Nat.max 1 (Nat.max 1 (Nat.max (S (Nat.max 0 (depth (Array (map Text a))))) 0)))) as -> by (by destruct r).
  lia.
Qed.

(** The details of an error survive the trip across a binding: [details_cbor] produces bytes for
    every non-empty list of details, and [details_from_cbor] reads exactly those details back, although
    the canonical form reorders the fields of each. *)
Theorem error_details_roundtrip (ds : list ErrorDetail) :
  ds <> [] -> Forall (fun d => wf_value (to_cbor d) = true) ds -> len ds <= u64_max ->
  len (encoded (Array (map to_cbor ds))) <= u64_max ->
  exists bs, details_cbor ds = Some bs /\ details_from_cbor bs = Ok ds.
Proof.
  intros Hne Hwf Hl Hb. set (v := Array (map to_cbor ds)) in *.
  assert (encode v = Ok (encoded v)) as He.
  { pose proof (encode_outcome_all v) as H. unfold encode_outcome in H.
    assert (encodable v = true) as E; [|by rewrite E in H]. subst v. cbn [encodable]. apply forallb_forall.
    intros x (d & <- & _)%in_map_iff. apply encodable_detail. }
  exists (encoded v). split; [by destruct ds; [|unfold details_cbor; fold v; rewrite He]|].
  pose proof (decode_encoding v (encoded v) []) as Hd. rewrite app_nil_r in Hd. unfold details_from_cbor. rewrite Hd; [|  |done|done].
  - assert (depth v <= MAX_DEPTH)%nat as Hdep.
    { subst v. transitivity 3%nat; [|unfold MAX_DEPTH; lia]. cbn [depth]. clear. induction ds as [|d ds IH]; cbn [map]; [apply Nat.le_0_l|].
      apply Nat.max_lub; [exact (le_n_S _ _ (depth_detail d))|exact IH]. }
    rewrite (proj2 (Nat.leb_le _ _) Hdep), bool_decide_eq_true_2 by done. subst v. cbn [canon map_err mbind result_bind].
    clear. induction ds as [|d ds IH]; cbn [map try_map]; [done|]. rewrite from_to_cbor. cbn [mbind result_bind]. by rewrite IH.
  - apply wf_Array. split; [unfold len in *; by rewrite length_map|]. apply forallb_forall. intros x (d & <- & Hd')%in_map_iff.
    rewrite Forall_forall in Hwf. by apply Hwf, list_elem_of_In.
Qed.

Definition sample_details : list ErrorDetail :=
  [InvalidField (str "mode") None [str "read"; str "write"]; Retry true (Some 250)].

Lemma error_details_roundtrip_witness :
  exists bs, details_cbor sample_details = Some bs /\ details_from_cbor bs = Ok sample_details.
Proof.
  apply (error_details_roundtrip sample_details); [done| | |].
  - constructor; [by vm_compute|]. constructor; [by vm_compute|constructor].
  - by vm_compute.
  - by vm_compute.
Defined.

End ErrorDetail.
