(* ===== verification/Cbor.v ===== *)
(** * CBOR helpers of the engine (crates/loom-core/src/cbor.rs)

    The conversions between canonical CBOR values and the engine's data, and the positional field
    reader [Fields]. *)

From S2P Require Import Prelude Codec CodecFacts Types.

Module Cbor.
Import Codec Digest.

(** [err]: every codec error is a corrupt object. *)
Definition err (e : CodecError) : Error.Code := Error.CorruptObject.

(** [encode]; the [expect] does not fire on the engine's values, each use shows that its value
    encodes. *)
Definition cbor_encode (v : Value) : bytes := match encode v with Ok b => b | Err _ => [] end.

(** [decode] *)
Definition cbor_decode (b : bytes) : res Value := map_err err (decode b).

Definition as_uint (v : Value) : res N :=
  match v with Uint n => Ok n | _ => Err Error.CorruptObject end.

Definition u8_from (n : N) : res N := if n <=? u8_max then Ok n else Err Error.CorruptObject.

Definition i64_max : N := 2 ^ 63 - 1.

Definition as_int (v : Value) : res Z :=
  match v with
  | Uint n => if n <=? i64_max then Ok (Z.of_N n) else Err Error.CorruptObject
  | Nint n => if n <=? i64_max then Ok (-1 - Z.of_N n)%Z else Err Error.CorruptObject
  | _ => Err Error.CorruptObject
  end.

Definition as_bool (v : Value) : res bool :=
  match v with Bool b => Ok b | _ => Err Error.CorruptObject end.

Definition as_bytes (v : Value) : res bytes :=
  match v with Bytes b => Ok b | _ => Err Error.CorruptObject end.

Definition as_text (v : Value) : res bytes :=
  match v with Text s => Ok s | _ => Err Error.CorruptObject end.

Definition as_array (v : Value) : res (list Value) :=
  match v with Array a => Ok a | _ => Err Error.CorruptObject end.

Definition as_map (v : Value) : res (list (Value * Value)) :=
  match v with Map m => Ok m | _ => Err Error.CorruptObject end.

Definition digest_value (d : Digest) : Value := Bytes (dbytes d).

Definition as_digest (v : Value) : res Digest :=
  b ← as_bytes v;
  if bool_decide (length b = DIGEST_LEN) then Ok (from_blake3_bytes b) else Err Error.CorruptObject.

Definition decode_array (b : bytes) : res (list Value) := v ← cbor_decode b; as_array v.

(** ** Positional fields: the iterator over a decoded array *)

Definition Fields : Type := list Value.

Definition next_field (f : Fields) : res (Value * Fields) :=
  match f with v :: f' => Ok (v, f') | [] => Err Error.CorruptObject end.

Definition read_field {A} (conv : Value -> res A) (f : Fields) : res (A * Fields) :=
  '(v, f) ← next_field f; a ← conv v; Ok (a, f).

Definition fields_uint : Fields -> res (N * Fields) := read_field as_uint.
Definition fields_int : Fields -> res (Z * Fields) := read_field as_int.
Definition fields_bool : Fields -> res (bool * Fields) := read_field as_bool.
Definition fields_bytes : Fields -> res (bytes * Fields) := read_field as_bytes.
Definition fields_text : Fields -> res (bytes * Fields) := read_field as_text.
Definition fields_array : Fields -> res (list Value * Fields) := read_field as_array.
Definition fields_map : Fields -> res (list (Value * Value) * Fields) := read_field as_map.
Definition fields_digest : Fields -> res (Digest * Fields) := read_field as_digest.

Definition fields_end (f : Fields) : res unit :=
  match f with [] => Ok () | _ :: _ => Err Error.CorruptObject end.

(** ** Lemmas *)

Lemma as_uint_Ok v n : as_uint v = Ok n <-> v = Uint n.
Proof. destruct v; simpl; naive_solver. Qed.
Lemma as_bytes_Ok v b : as_bytes v = Ok b <-> v = Bytes b.
Proof. destruct v; simpl; naive_solver. Qed.
Lemma as_text_Ok v s : as_text v = Ok s <-> v = Text s.
Proof. destruct v; simpl; naive_solver. Qed.
Lemma as_array_Ok v l : as_array v = Ok l <-> v = Array l.
Proof. destruct v; simpl; naive_solver. Qed.
Lemma as_map_Ok v l : as_map v = Ok l <-> v = Map l.
Proof. destruct v; simpl; naive_solver. Qed.
Lemma u8_from_Ok n m : u8_from n = Ok m <-> n = m /\ n <= u8_max.
Proof. unfold u8_from. destruct (N.leb_spec n u8_max); naive_solver lia. Qed.

Lemma as_digest_Ok v d : as_digest v = Ok d <-> v = digest_value d /\ algo d = Blake3 /\ wf_digest d.
Proof.
  unfold as_digest, digest_value, wf_digest. rewrite bind_Ok. split.
  - intros (b & ->%as_bytes_Ok & H). case_bool_decide; [|done]. injection H as <-. done.
  - intros (-> & Ha & Hl). exists (dbytes d). split; [done|].
    rewrite bool_decide_eq_true_2 by done. unfold from_blake3_bytes. by destruct d; simpl in *; subst.
Qed.

(** Reading back a digest keeps its bytes and forgets its algorithm. *)
Lemma as_digest_value d : wf_digest d -> as_digest (digest_value d) = Ok (from_blake3_bytes (dbytes d)).
Proof. intros H. by apply as_digest_Ok. Qed.

Lemma read_field_Ok {A} (conv : Value -> res A) f a f' :
  read_field conv f = Ok (a, f') <-> exists v, f = v :: f' /\ conv v = Ok a.
Proof.
  unfold read_field. destruct f as [|v f]; simpl.
  { split; [discriminate|]. by intros (? & ? & _). }
  rewrite bind_Ok. split.
  - intros (a' & E & [= <- <-]). eauto.
  - intros (v' & [= -> ->] & E). eauto.
Qed.

Lemma fields_end_Ok f : fields_end f = Ok () <-> f = [].
Proof. destruct f; simpl; naive_solver. Qed.

Lemma cbor_decode_Ok b v : cbor_decode b = Ok v <-> decode b = Ok v.
Proof. apply map_err_Ok. Qed.

Lemma decode_array_Ok b l : decode_array b = Ok l <-> decode b = Ok (Array l).
Proof.
  unfold decode_array. rewrite bind_Ok. setoid_rewrite cbor_decode_Ok. setoid_rewrite as_array_Ok.
  naive_solver.
Qed.

(** Signed integers survive the wire. *)
Lemma as_int_int z : (- 2 ^ 63 <= z < 2 ^ 63)%Z -> as_int (int z) = Ok z.
Proof.
  intros Hz. unfold int. destruct (Z.leb_spec 0 z) as [H|H]; simpl.
  - destruct (N.leb_spec (Z.to_N z) i64_max); [f_equal; lia|unfold i64_max in *; lia].
  - destruct (N.leb_spec (Z.to_N (-1 - z)) i64_max); [f_equal; lia|unfold i64_max in *; lia].
Qed.

End Cbor.
