(* ===== verification/Object.v ===== *)
(** * Content objects (crates/loom-core/src/object.rs)

    The five object types, their canonical byte form and its parser. A [BTreeMap] is a finite map
    read in key order; a string is its UTF-8 bytes. *)

From S2P Require Import Prelude Codec Types Cbor.

Module Object.
Import Codec Cbor Digest.

Inductive ObjectType : Type := OT_Blob | OT_ChunkList | OT_Tree | OT_Commit | OT_Tag.

Definition object_type_code (t : ObjectType) : N :=
  match t with
  | OT_Blob => 1 | OT_ChunkList => 2 | OT_Tree => 3 | OT_Commit => 4 | OT_Tag => 5
  end.

Definition object_type_from_u8 (b : N) : res ObjectType :=
  match b with
  | 1 => Ok OT_Blob
  | 2 => Ok OT_ChunkList
  | 3 => Ok OT_Tree
  | 4 => Ok OT_Commit
  | 5 => Ok OT_Tag
  | _ => Err Error.CorruptObject
  end.

Inductive EntryKind : Type :=
| EK_Tree | EK_Blob | EK_Symlink | EK_Subloom | EK_TreeShard | EK_Table | EK_ProllyMap | EK_Stream
| EK_TimeSeries | EK_Graph | EK_Ledger | EK_Columnar | EK_Document.

Definition entry_kind_code (k : EntryKind) : N :=
  match k with
  | EK_Tree => 1 | EK_Blob => 2 | EK_Symlink => 3 | EK_Subloom => 4 | EK_TreeShard => 5
  | EK_Table => 6 | EK_ProllyMap => 7 | EK_Stream => 8 | EK_TimeSeries => 9 | EK_Graph => 10
  | EK_Ledger => 11 | EK_Columnar => 12 | EK_Document => 13
  end.

Definition entry_kind_from_u8 (b : N) : res EntryKind :=
  match b with
  | 1 => Ok EK_Tree
  | 2 => Ok EK_Blob
  | 3 => Ok EK_Symlink
  | 4 => Ok EK_Subloom
  | 5 => Ok EK_TreeShard
  | 6 => Ok EK_Table
  | 7 => Ok EK_ProllyMap
  | 8 => Ok EK_Stream
  | 9 => Ok EK_TimeSeries
  | 10 => Ok EK_Graph
  | 11 => Ok EK_Ledger
  | 12 => Ok EK_Columnar
  | 13 => Ok EK_Document
  | _ => Err Error.CorruptObject
  end.

Record TreeEntry : Type := mkTreeEntry {
  te_name : bytes;
  te_kind : EntryKind;
  te_target : Digest;
  te_mode : N;
}.

Record ChunkRef : Type := mkChunkRef { cr_target : Digest; cr_size : N }.

Record Commit : Type := mkCommit {
  c_tree : Digest;
  c_parents : list Digest;
  c_author : bytes;
  c_timestamp_ms : N;
  c_message : bytes;
  c_meta : gmap bytes bytes;
}.

Record Tag : Type := mkTag {
  t_target : Digest;
  t_target_type : ObjectType;
  t_name : bytes;
  t_tagger : bytes;
  t_timestamp_ms : N;
  t_message : bytes;
}.

Inductive Object : Type :=
| OBlob (payload : bytes)
| OChunkList (total_size : N) (entries : list ChunkRef)
| OTree (entries : list TreeEntry)
| OCommit (c : Commit)
| OTag (t : Tag).

(** [Object::tree] *)
Definition tree (entries : list TreeEntry) : res Object :=
  let entries := sort_by te_name entries in
  if adjacent_dup te_name entries then Err Error.InvalidArgument else Ok (OTree entries).

Definition object_type (o : Object) : ObjectType :=
  match o with
  | OBlob _ => OT_Blob
  | OChunkList _ _ => OT_ChunkList
  | OTree _ => OT_Tree
  | OCommit _ => OT_Commit
  | OTag _ => OT_Tag
  end.

Definition chunk_ref_value (e : ChunkRef) : Value :=
  Array [digest_value (cr_target e); Uint (cr_size e)].

Definition tree_entry_value (e : TreeEntry) : Value :=
  Array [Text (te_name e); Uint (entry_kind_code (te_kind e)); digest_value (te_target e);
         Uint (te_mode e)].

Definition meta_pair (kv : bytes * bytes) : Value * Value := (Text kv.1, Text kv.2).

(** [Object::cbor_fields] *)
Definition cbor_fields (o : Object) : N * list Value :=
  let ty := object_type_code (object_type o) in
  match o with
  | OBlob payload => (ty, [Bytes payload])
  | OChunkList total_size entries =>
      (ty, [Uint total_size; Array (map chunk_ref_value entries)])
  | OTree entries => (ty, [Array (map tree_entry_value entries)])
  | OCommit c =>
      (ty, [digest_value (c_tree c); Array (map digest_value (c_parents c)); Text (c_author c);
            Uint (c_timestamp_ms c); Text (c_message c);
            Map (map meta_pair (btree_iter (c_meta c)))])
  | OTag t =>
      (ty, [digest_value (t_target t); Uint (object_type_code (t_target_type t)); Text (t_name t);
            Text (t_tagger t); Uint (t_timestamp_ms t); Text (t_message t)])
  end.

(** [Object::canonical]; an error here is the panic of its [expect]. *)
Definition canonical (o : Object) : result CodecError bytes :=
  let '(type_code, fields) := cbor_fields o in encode_object type_code fields.

(** [Object::digest_with], [Object::digest] *)
Definition digest_with `{Hasher} (a : Algo) (o : Object) : result CodecError Digest :=
  b ← canonical o; Ok (hash a b).

Definition digest `{Hasher} (o : Object) : result CodecError Digest := digest_with Blake3 o.

Definition chunk_ref_item (item : Value) : res ChunkRef :=
  e ← as_array item;
  '(target, e) ← fields_digest e;
  '(size, e) ← fields_uint e;
  _ ← fields_end e;
  Ok (mkChunkRef target size).

Definition tree_entry_item (entries : list TreeEntry) (item : Value) : res (list TreeEntry) :=
  e ← as_array item;
  '(name, e) ← fields_text e;
  '(k, e) ← fields_uint e;
  k ← u8_from k;
  kind ← entry_kind_from_u8 k;
  '(target, e) ← fields_digest e;
  '(mode, e) ← fields_uint e;
  mode ← (if mode <=? u32_max then Ok mode else Err Error.CorruptObject);
  _ ← fields_end e;
  match last entries with
  | Some prev => if name <=b? te_name prev then Err Error.CorruptObject
                 else Ok (entries ++ [mkTreeEntry name kind target mode])
  | None => Ok (entries ++ [mkTreeEntry name kind target mode])
  end.

Definition meta_insert (meta : gmap bytes bytes) (kv : Value * Value) : res (gmap bytes bytes) :=
  k ← as_text kv.1; v ← as_text kv.2; Ok (<[k := v]> meta).

(** The body of [Object::decode] for one object type. *)
Definition decode_fields (ty : ObjectType) (f : Fields) : res (Object * Fields) :=
  match ty with
  | OT_Blob => '(b, f) ← fields_bytes f; Ok (OBlob b, f)
  | OT_ChunkList =>
      '(total_size, f) ← fields_uint f;
      '(items, f) ← fields_array f;
      entries ← try_map chunk_ref_item items;
      Ok (OChunkList total_size entries, f)
  | OT_Tree =>
      '(items, f) ← fields_array f;
      entries ← try_fold tree_entry_item [] items;
      Ok (OTree entries, f)
  | OT_Commit =>
      '(tree, f) ← fields_digest f;
      '(ps, f) ← fields_array f;
      parents ← try_map as_digest ps;
      '(author, f) ← fields_text f;
      '(timestamp_ms, f) ← fields_uint f;
      '(message, f) ← fields_text f;
      '(pairs, f) ← fields_map f;
      meta ← try_fold meta_insert ∅ pairs;
      Ok (OCommit (mkCommit tree parents author timestamp_ms message meta), f)
  | OT_Tag =>
      '(target, f) ← fields_digest f;
      '(code, f) ← fields_uint f;
      code ← u8_from code;
      target_type ← object_type_from_u8 code;
      '(name, f) ← fields_text f;
      '(tagger, f) ← fields_text f;
      '(timestamp_ms, f) ← fields_uint f;
      '(message, f) ← fields_text f;
      Ok (OTag (mkTag target target_type name tagger timestamp_ms message), f)
  end.

(** [Object::decode] *)
Definition decode_obj (b : bytes) : res Object :=
  '(type_code, fields) ← map_err err (decode_object b);
  t ← u8_from type_code;
  ty ← object_type_from_u8 t;
  '(obj, f) ← decode_fields ty fields;
  _ ← fields_end f;
  Ok obj.

Definition content_address_with `{Hasher} (a : Algo) (content : bytes) : Digest := hash a content.

Definition content_address `{Hasher} (content : bytes) : Digest :=
  content_address_with Blake3 content.

End Object.
