(* ===== verification/ObjectProps.v ===== *)
(** * Properties of the object model

    The canonical form never fails, decoding inverts it, and only canonical bytes decode: each
    logical object has one byte form. Decoding keeps the bytes of a digest and tags it as BLAKE3, so
    an object is read back up to the equality of digests. *)

From S2P Require Import Prelude Codec CodecFacts CodecProps Types Cbor Object.

Module ObjectProps.
Import Codec CodecFacts CodecProps Cbor Digest Object.

(** ** Well-formed objects: what the Rust types guarantee *)

Definition wf_text (s : bytes) : Prop := len s <= u64_max /\ valid_utf8 s = true.

Definition wf_tree_entry (e : TreeEntry) : Prop :=
  wf_text (te_name e) /\ wf_digest (te_target e) /\ te_mode e <= u32_max.

Definition wf_chunk_ref (e : ChunkRef) : Prop := wf_digest (cr_target e) /\ cr_size e <= u64_max.

(** The trees are those [Object::tree] builds: strictly ascending names. *)
Definition wf_object (o : Object) : Prop :=
  match o with
  | OBlob payload => len payload <= u64_max
  | OChunkList total_size entries =>
      total_size <= u64_max /\ len entries <= u64_max /\ Forall wf_chunk_ref entries
  | OTree entries =>
      len entries <= u64_max /\ Forall wf_tree_entry entries /\ sorted_by te_name entries
  | OCommit c =>
      wf_digest (c_tree c) /\ len (c_parents c) <= u64_max /\ Forall wf_digest (c_parents c)
      /\ wf_text (c_author c) /\ c_timestamp_ms c <= u64_max /\ wf_text (c_message c)
      /\ len (btree_iter (c_meta c)) <= u64_max
      /\ map_Forall (fun k v => wf_text k /\ wf_text v) (c_meta c)
  | OTag t =>
      wf_digest (t_target t) /\ wf_text (t_name t) /\ wf_text (t_tagger t)
      /\ t_timestamp_ms t <= u64_max /\ wf_text (t_message t)
  end.

(** ** Objects up to the algorithm tag of their digests *)

Definition retag (d : Digest) : Digest := from_blake3_bytes (dbytes d).

Definition retag_entry (e : TreeEntry) : TreeEntry :=
  mkTreeEntry (te_name e) (te_kind e) (retag (te_target e)) (te_mode e).

Definition retag_chunk (e : ChunkRef) : ChunkRef := mkChunkRef (retag (cr_target e)) (cr_size e).

Definition retag_object (o : Object) : Object :=
  match o with
  | OBlob payload => OBlob payload
  | OChunkList total_size entries => OChunkList total_size (map retag_chunk entries)
  | OTree entries => OTree (map retag_entry entries)
  | OCommit c =>
      OCommit (mkCommit (retag (c_tree c)) (map retag (c_parents c)) (c_author c)
                 (c_timestamp_ms c) (c_message c) (c_meta c))
  | OTag t =>
      OTag (mkTag (retag (t_target t)) (t_target_type t) (t_name t) (t_tagger t)
              (t_timestamp_ms t) (t_message t))
  end.

(** The derived [PartialEq] of objects, over the byte equality of digests. *)
#[global] Instance object_equiv : Equiv Object := fun o1 o2 => retag_object o1 = retag_object o2.
#[global] Instance object_equivalence : Equivalence (≡@{Object}).
Proof.
  split; unfold equiv, object_equiv; [intros o|intros o1 o2|intros o1 o2 o3]; congruence.
Qed.

Lemma retag_object_idem o : retag_object (retag_object o) = retag_object o.
Proof.
  destruct o as [|? es|es|[]|]; simpl; try done; rewrite map_map; done.
Qed.

Lemma retag_equiv o : retag_object o ≡ o.
Proof. apply retag_object_idem. Qed.

Lemma cbor_fields_retag o : cbor_fields (retag_object o) = cbor_fields o.
Proof. destruct o as [|? es|es|[]|]; simpl; try done; rewrite map_map; done. Qed.

#[global] Instance canonical_proper : Proper ((≡) ==> (=)) canonical.
Proof.
  intros o1 o2 H. unfold canonical. by rewrite <-(cbor_fields_retag o1), H, cbor_fields_retag.
Qed.

(** ** The canonical form never fails *)

Lemma put_head_length_mono major n m :
  n <= m -> (length (put_head [] major n) <= length (put_head [] major m))%nat.
Proof.
  intros H. unfold put_head.
  repeat match goal with |- context [?a <=? ?b] => destruct (N.leb_spec a b) end;
    simpl; rewrite ?length_to_be_bytes; unfold u8_max, u16_max, u32_max in *; lia.
Qed.

Lemma encoded_Text s : encoded (Text s) = put_head [] 3 (len s) ++ s.
Proof. reflexivity. Qed.

(** Two strings with the same encoding are the same string. *)
#[global] Instance encoded_Text_inj : Inj (=) (=) (fun s => encoded (Text s)).
Proof.
  intros s1 s2 H. rewrite !encoded_Text in H.
  assert (len s1 = len s2) as Hl.
  { pose proof (f_equal length H) as Hl. rewrite !length_app in Hl. unfold len in *.
    destruct (N.lt_trichotomy (N.of_nat (length s1)) (N.of_nat (length s2))) as [Hc|[Hc|Hc]]; [|done|];
      pose proof (put_head_length_mono 3 _ _ (N.lt_le_incl _ _ Hc)); lia. }
  rewrite Hl in H. by apply app_inv_head in H.
Qed.

Lemma meta_keys_encoded l :
  map (fun kv => encoded kv.1) (map meta_pair l) = (fun s => encoded (Text s)) <$> map fst l.
Proof. unfold fmap. induction l as [|[k v] l IH]; simpl; [done|]. by rewrite <-IH. Qed.

Lemma forallb_map_true {A B} (f : B -> bool) (g : A -> B) l :
  (forall x, x ∈ l -> f (g x) = true) -> forallb f (map g l) = true.
Proof.
  induction l as [|x l IH]; intros H; [done|]. cbn [map forallb].
  rewrite (H x) by left. apply IH. intros y Hy. apply H. by right.
Qed.

Lemma encodable_meta m : encodable (Map (map meta_pair (btree_iter m))) = true.
Proof.
  cbn [encodable]. apply andb_true_iff. split.
  - by apply forallb_map_true.
  - apply bool_decide_eq_true. rewrite meta_keys_encoded. apply (NoDup_fmap_2 _), btree_iter_NoDup.
Qed.

Lemma encodable_fields o : forallb encodable (cbor_fields o).2 = true.
Proof.
  destruct o as [|? es|es|c|]; cbn [cbor_fields snd forallb]; rewrite ?encodable_meta;
    cbn [encodable andb]; try done; rewrite ?andb_true_r; by apply forallb_map_true.
Qed.

Lemma canonical_ok o : exists bs, canonical o = Ok bs.
Proof.
  unfold canonical, encode_object. pose proof (encodable_fields o) as H.
  destruct (cbor_fields o) as [ty fields]. cbn [snd] in H.
  pose proof (encode_outcome_all (Array (Uint EPOCH :: Uint ty :: fields))) as Ho.
  unfold encode_outcome in Ho. cbn [encodable forallb andb] in Ho. rewrite H in Ho. eauto.
Qed.

(** ** Decoding inverts the canonical form *)

Lemma wf_Text s : wf_text s -> wf_value (Text s) = true.
Proof. intros [H1 H2]. cbn [wf_value]. rewrite H2, andb_true_r. by apply N.leb_le. Qed.

Lemma wf_Uint n : n <= u64_max -> wf_value (Uint n) = true.
Proof. apply N.leb_le. Qed.

Lemma wf_digest_value d : wf_digest d -> wf_value (digest_value d) = true.
Proof. intros H. apply N.leb_le. unfold len. rewrite H. by vm_compute. Qed.

Lemma object_type_code_bound t : object_type_code t <= u8_max.
Proof. destruct t; by vm_compute. Qed.

Lemma entry_kind_code_bound k : entry_kind_code k <= u8_max.
Proof. destruct k; by vm_compute. Qed.

Lemma u8_u64 n : n <= u8_max -> n <= u64_max.
Proof. unfold u8_max, u64_max. lia. Qed.

Lemma u32_u64 n : n <= u32_max -> n <= u64_max.
Proof. unfold u32_max, u64_max. lia. Qed.

Hint Resolve wf_Text wf_Uint wf_digest_value object_type_code_bound entry_kind_code_bound u8_u64
  u32_u64 : loom.

Lemma wf_tuple l : (length l <= 10)%nat -> forallb wf_value l = true -> wf_value (Array l) = true.
Proof. intros Hl H. apply wf_Array. split; [unfold len, u64_max; lia|done]. Qed.

Lemma wf_tree_entry_value e : wf_tree_entry e -> wf_value (tree_entry_value e) = true.
Proof.
  intros (Hn & Ht & Hm). apply wf_tuple; [simpl; lia|]. cbn [forallb].
  rewrite wf_Text, wf_digest_value, !wf_Uint; auto with loom.
Qed.

Lemma wf_chunk_ref_value e : wf_chunk_ref e -> wf_value (chunk_ref_value e) = true.
Proof.
  intros (Ht & Hs). apply wf_tuple; [simpl; lia|]. cbn [forallb].
  rewrite wf_digest_value, wf_Uint; auto with loom.
Qed.

Lemma wf_items {A} (f : A -> Value) (P : A -> Prop) l :
  (forall x, P x -> wf_value (f x) = true) -> len l <= u64_max -> Forall P l ->
  wf_value (Array (map f l)) = true.
Proof.
  intros Hf Hl HP. apply wf_Array. unfold len in *. rewrite length_map. split; [done|].
  rewrite Forall_forall in HP. apply forallb_map_true. auto.
Qed.

Lemma wf_meta m :
  len (btree_iter m) <= u64_max -> map_Forall (fun k v => wf_text k /\ wf_text v) m ->
  wf_value (Map (map meta_pair (btree_iter m))) = true.
Proof.
  intros Hl Hm. apply wf_Map. unfold len in *. rewrite length_map. split; [done|].
  apply forallb_map_true. intros [k v] Hin%elem_of_btree_iter.
  destruct (Hm k v Hin). cbn [meta_pair fst snd]. rewrite !wf_Text; auto.
Qed.

Lemma wf_fields o : wf_object o -> forallb wf_value (cbor_fields o).2 = true.
Proof.
  destruct o as [p|n es|es|c|t]; cbn [wf_object cbor_fields snd forallb]; rewrite ?andb_true_r.
  - apply N.leb_le.
  - intros (Hn & Hl & Hes). rewrite wf_Uint by done.
    eapply wf_items; [apply wf_chunk_ref_value|done..].
  - intros (Hl & Hes & _). eapply wf_items; [apply wf_tree_entry_value|done..].
  - intros (? & Hl & Hp & ? & ? & ? & Hm & Hmeta).
    rewrite wf_digest_value, !wf_Text, wf_Uint, wf_meta, (wf_items digest_value wf_digest);
      auto with loom.
  - intros (? & ? & ? & ? & ?). rewrite wf_digest_value, !wf_Text, !wf_Uint; auto with loom.
Qed.

Lemma depth_items {A} (f : A -> Value) n l :
  (forall x, depth (f x) = n) -> (depth (Array (map f l)) <= S n)%nat.
Proof.
  intros H. cbn [depth]. induction l as [|x l IH]; cbn [map max_list fold_right]; [lia|].
  rewrite H. unfold max_list in *. simpl in *. lia.
Qed.

Lemma depth_meta l : (depth (Map (map meta_pair l)) <= 1)%nat.
Proof.
  cbn [depth]. unfold max_list. induction l as [|x l IH]; cbn [map fold_right]; [lia|]. simpl in *. lia.
Qed.

Lemma depth_fields o : (depth (Array (cbor_fields o).2) <= MAX_DEPTH)%nat.
Proof.
  trans 3%nat; [|unfold MAX_DEPTH; lia].
  destruct o as [p|n es|es|c|t]; cbn [cbor_fields snd].
  - simpl. lia.
  - pose proof (depth_items chunk_ref_value 1 es (fun _ => eq_refl)). cbn in *. lia.
  - pose proof (depth_items tree_entry_value 1 es (fun _ => eq_refl)). cbn in *. lia.
  - pose proof (depth_items digest_value 0 (c_parents c) (fun _ => eq_refl)).
    pose proof (depth_meta (btree_iter (c_meta c))). cbn in *. lia.
  - simpl. lia.
Qed.

Lemma entry_kind_roundtrip k : entry_kind_from_u8 (entry_kind_code k) = Ok k.
Proof. by destruct k. Qed.

Lemma object_type_roundtrip t : object_type_from_u8 (object_type_code t) = Ok t.
Proof. by destruct t. Qed.

Lemma u8_from_small n : n <= u8_max -> u8_from n = Ok n.
Proof. intros H. by apply u8_from_Ok. Qed.

(** Reading one positional field from the front. *)
Lemma read_field_cons {A} (conv : Value -> res A) v a f :
  conv v = Ok a -> read_field conv (v :: f) = Ok (a, f).
Proof. intros H. apply read_field_Ok. eauto. Qed.

Lemma fields_text_cons s f : fields_text (Text s :: f) = Ok (s, f).
Proof. by apply read_field_cons. Qed.
Lemma fields_uint_cons n f : fields_uint (Uint n :: f) = Ok (n, f).
Proof. by apply read_field_cons. Qed.
Lemma fields_bytes_cons b f : fields_bytes (Bytes b :: f) = Ok (b, f).
Proof. by apply read_field_cons. Qed.
Lemma fields_array_cons l f : fields_array (Array l :: f) = Ok (l, f).
Proof. by apply read_field_cons. Qed.
Lemma fields_map_cons l f : fields_map (Map l :: f) = Ok (l, f).
Proof. by apply read_field_cons. Qed.
Lemma fields_digest_cons d f :
  wf_digest d -> fields_digest (digest_value d :: f) = Ok (retag d, f).
Proof. intros H. by apply read_field_cons, as_digest_value. Qed.

Create Rewrite HintDb fields.
Hint Rewrite fields_text_cons fields_uint_cons fields_bytes_cons fields_array_cons fields_map_cons
  fields_digest_cons u8_from_small entry_kind_roundtrip object_type_roundtrip
  using (auto with loom) : fields.

(** Evaluates the field reader on the fields of an object. *)
Ltac read_fields := repeat (progress autorewrite with fields; cbn [mbind result_bind]).

Lemma chunk_ref_item_value e : wf_chunk_ref e -> chunk_ref_item (chunk_ref_value e) = Ok (retag_chunk e).
Proof. intros [Ht Hs]. unfold chunk_ref_item. cbn [as_array chunk_ref_value mbind result_bind]. by read_fields. Qed.

Lemma tree_entry_item_value acc e :
  wf_tree_entry e -> (forall p, last acc = Some p -> te_name p <b te_name e) ->
  tree_entry_item acc (tree_entry_value e) = Ok (acc ++ [retag_entry e]).
Proof.
  intros (Hn & Ht & Hm) Hlast. unfold tree_entry_item.
  cbn [as_array tree_entry_value mbind result_bind]. read_fields.
  apply N.leb_le in Hm. rewrite Hm. cbn [fields_end]. destruct (last acc) as [p|]; [|done].
  specialize (Hlast p eq_refl). apply bytes_leb_gt in Hlast. by rewrite Hlast.
Qed.

Lemma tree_entries_fold acc es :
  Forall wf_tree_entry es -> sorted_by te_name (acc ++ es) ->
  try_fold tree_entry_item acc (map tree_entry_value es) = Ok (acc ++ map retag_entry es).
Proof.
  intros Hwf. revert acc. induction Hwf as [|e es He _ IH]; intros acc Hs; simpl.
  { by rewrite app_nil_r. }
  rewrite tree_entry_item_value; [|done|].
  - simpl. change (retag_entry e :: map retag_entry es) with ([retag_entry e] ++ map retag_entry es).
    rewrite app_assoc. apply IH. rewrite <-app_assoc. simpl.
    apply (sorted_by_map te_name te_name retag_entry) in Hs; [|done]. rewrite map_app in Hs.
    apply (sorted_by_map te_name te_name retag_entry); [done|]. by rewrite map_app.
  - intros p Hp. apply sorted_by_app in Hs as (_ & _ & Hlt).
    apply (Hlt p e); [by eapply last_Some_elem_of|left].
Qed.

Lemma meta_fold m l :
  NoDup (map fst l) ->
  try_fold meta_insert m (map meta_pair l) = Ok ((list_to_map l : gmap bytes bytes) ∪ m).
Proof.
  revert m. induction l as [|[k v] l IH]; intros m; cbn [map fst try_fold].
  { intros _. by rewrite list_to_map_nil, (left_id_L ∅ (∪)). }
  intros [Hk Hl]%NoDup_cons. cbn [meta_insert meta_pair fst snd as_text mbind result_bind].
  rewrite IH by done. rewrite list_to_map_cons. f_equal.
  rewrite <-insert_union_r, insert_union_l; [done|]. by apply not_elem_of_list_to_map_1.
Qed.

(** The pairs of a commit's metadata in the order of their encoded keys. *)
Definition wire_meta (m : gmap bytes bytes) : list (bytes * bytes) :=
  sort_by (fun kv => encoded (Text kv.1)) (btree_iter m).

Lemma canon_meta m : canon (Map (map meta_pair (btree_iter m))) = Map (map meta_pair (wire_meta m)).
Proof.
  rewrite canon_Map. rewrite (sort_by_map (fun kv => encoded (Text kv.1))) by done. by rewrite map_map.
Qed.

Lemma wire_meta_fold m : try_fold meta_insert ∅ (map meta_pair (wire_meta m)) = Ok m.
Proof.
  assert (NoDup (map fst (wire_meta m))) as Hn.
  { unfold wire_meta. rewrite sort_by_perm. apply btree_iter_NoDup. }
  rewrite meta_fold by done. rewrite (right_id_L ∅ (∪)). f_equal.
  rewrite <-(list_to_map_btree_iter m) at 2. apply list_to_map_proper; [done|apply sort_by_perm].
Qed.

Lemma canon_items {A} (f : A -> Value) l :
  (forall x, canon (f x) = f x) -> canon (Array (map f l)) = Array (map f l).
Proof. intros H. cbn [canon]. f_equal. rewrite map_map. by apply map_ext. Qed.

Lemma canon_digest d : canon (digest_value d) = digest_value d.
Proof. done. Qed.

Lemma try_map_items {A B} (f : Value -> res B) (g : A -> Value) (h : A -> B) (P : A -> Prop) l :
  (forall x, P x -> f (g x) = Ok (h x)) -> Forall P l -> try_map f (map g l) = Ok (map h l).
Proof. intros Hf HP. rewrite Forall_forall in HP. apply (try_map_fmap f g h). auto. Qed.

Lemma decode_fields_canonical o :
  wf_object o ->
  decode_fields (object_type o) (map canon (cbor_fields o).2) = Ok (retag_object o, []).
Proof.
  destruct o as [p|n es|es|c|t]; cbn [wf_object cbor_fields snd map object_type decode_fields].
  - done.
  - intros (Hn & Hl & Hes). rewrite canon_items by done. cbn [canon]. read_fields.
    rewrite (try_map_items _ _ retag_chunk wf_chunk_ref); [done|apply chunk_ref_item_value|done].
  - intros (Hl & Hes & Hs). rewrite canon_items by done. cbn [canon]. read_fields.
    by rewrite tree_entries_fold.
  - intros (? & Hl & Hp & ? & ? & ? & Hm & Hmeta). rewrite canon_items, canon_meta, canon_digest by done.
    cbn [canon]. read_fields.
    rewrite (try_map_items _ _ retag wf_digest); [|by intros; apply as_digest_value|done]. read_fields.
    by rewrite wire_meta_fold.
  - intros (? & ? & ? & ? & ?). rewrite canon_digest. cbn [canon]. by read_fields.
Qed.

Lemma decode_canonical_object o bs :
  wf_object o -> canonical o = Ok bs -> len bs <= u64_max -> decode_obj bs = Ok (retag_object o).
Proof.
  intros Hwf Hc Hl. unfold canonical in Hc. unfold decode_obj.
  pose proof (wf_fields o Hwf) as Hw. pose proof (depth_fields o) as Hd.
  pose proof (decode_fields_canonical o Hwf) as Hf.
  assert ((cbor_fields o).1 = object_type_code (object_type o)) as Ht by by destruct o.
  assert (len (cbor_fields o).2 + 2 <= u64_max) as Hn by (destruct o; by vm_compute).
  destruct (cbor_fields o) as [ty fields]. cbn [fst snd] in *. subst ty.
  pose proof (object_type_code_bound (object_type o)) as Hb.
  assert (object_type_code (object_type o) <= u16_max) as Hb' by (unfold u8_max, u16_max in *; lia).
  rewrite (decode_object_encoding _ _ _ Hb' Hw Hn Hc Hl Hd).
  cbn [map_err mbind result_bind]. rewrite u8_from_small by done. cbn [mbind result_bind].
  rewrite object_type_roundtrip. cbn [mbind result_bind]. by rewrite Hf.
Qed.

(** ** Only canonical bytes decode *)

Lemma entry_kind_from_u8_Ok b k : entry_kind_from_u8 b = Ok k -> b = entry_kind_code k.
Proof.
  unfold entry_kind_from_u8. destruct b as [|b]; [discriminate|]. intros H.
  repeat (destruct b as [b|b|]; try discriminate; try (by injection H as <-)).
Qed.

Lemma object_type_from_u8_Ok b t : object_type_from_u8 b = Ok t -> b = object_type_code t.
Proof.
  unfold object_type_from_u8. destruct b as [|b]; [discriminate|]. intros H.
  repeat (destruct b as [b|b|]; try discriminate; try (by injection H as <-)).
Qed.

(** Inverts a run of the field reader. *)
Ltac inv_fields H :=
  repeat match type of H with
  | mbind _ (read_field ?c ?f) = Ok _ =>
      let v := fresh "v" in let a := fresh "a" in let f' := fresh "f" in let E := fresh "E" in
      apply bind_Ok in H as ([a f'] & (v & -> & E)%read_field_Ok & H);
      first [apply as_digest_Ok in E as (-> & E & ?) | apply as_uint_Ok in E as -> 
            | apply as_text_Ok in E as -> | apply as_array_Ok in E as -> | apply as_map_Ok in E as ->
            | apply as_bytes_Ok in E as ->]
  | mbind _ (u8_from _) = Ok _ =>
      let n := fresh "n" in let Hb := fresh "Hb" in
      apply bind_Ok in H as (n & [-> Hb]%u8_from_Ok & H)
  | mbind _ (entry_kind_from_u8 _) = Ok _ =>
      let k := fresh "k" in apply bind_Ok in H as (k & ->%entry_kind_from_u8_Ok & H)
  | mbind _ (object_type_from_u8 _) = Ok _ =>
      let k := fresh "k" in apply bind_Ok in H as (k & ->%object_type_from_u8_Ok & H)
  | mbind _ (fields_end _) = Ok _ =>
      apply bind_Ok in H as ([] & ->%fields_end_Ok & H)
  | mbind _ (as_array _) = Ok _ =>
      let l := fresh "l" in apply bind_Ok in H as (l & ->%as_array_Ok & H)
  end.

Lemma chunk_ref_item_Ok item e :
  chunk_ref_item item = Ok e -> item = chunk_ref_value e /\ retag_chunk e = e /\ wf_digest (cr_target e).
Proof.
  unfold chunk_ref_item, fields_digest, fields_uint. intros H. inv_fields H. injection H as <-.
  split; [done|]. split; [|done]. unfold retag_chunk, retag. destruct a; simpl in *. by subst.
Qed.

Lemma retag_digest d : algo d = Blake3 -> retag d = d.
Proof. destruct d; simpl. by intros ->. Qed.

Lemma tree_entry_item_Ok acc item acc' :
  tree_entry_item acc item = Ok acc' ->
  exists e, acc' = acc ++ [e] /\ item = tree_entry_value e /\ retag_entry e = e
  /\ wf_digest (te_target e) /\ te_mode e <= u32_max
  /\ (forall p, last acc = Some p -> te_name p <b te_name e).
Proof.
  unfold tree_entry_item, fields_text, fields_uint, fields_digest. intros H. inv_fields H.
  apply bind_Ok in H as (mode & Hm & H). destruct (N.leb_spec a1 u32_max); [|done].
  injection Hm as <-. inv_fields H. exists (mkTreeEntry a k a0 a1).
  assert (retag_entry (mkTreeEntry a k a0 a1) = mkTreeEntry a k a0 a1) as Hr.
  { unfold retag_entry. simpl. by rewrite retag_digest. }
  destruct (last acc) as [p|] eqn:El; [|by injection H as <-].
  destruct (a <=b? te_name p) eqn:Ep; [done|]. injection H as <-. apply bytes_leb_gt in Ep.
  split_and!; try done. by intros p' [= <-].
Qed.

Lemma tree_fold_Ok acc items acc' :
  sorted_by te_name acc -> try_fold tree_entry_item acc items = Ok acc' ->
  exists es, acc' = acc ++ es /\ items = map tree_entry_value es /\ map retag_entry es = es
  /\ Forall (fun e => wf_digest (te_target e) /\ te_mode e <= u32_max) es /\ sorted_by te_name acc'.
Proof.
  revert acc. induction items as [|item items IH]; simpl; intros acc Hs H.
  { injection H as <-. exists []. rewrite app_nil_r. repeat split; done. }
  apply bind_Ok in H as (acc1 & (e & -> & -> & He & Hd & Hm & Hlast)%tree_entry_item_Ok & H).
  apply IH in H as (es & -> & -> & Hes & Hwf & Hs').
  - exists (e :: es). rewrite <-app_assoc. simpl. rewrite He, Hes. split_and!; [done..| |].
    + constructor; [done|done].
    + by rewrite <-app_assoc in Hs'.
  - apply sorted_by_snoc; [done|]. intros y Hy. by apply Hlast.
Qed.

Lemma meta_fold_Ok m pairs m' :
  try_fold meta_insert m pairs = Ok m' -> exists l, pairs = map meta_pair l.
Proof.
  revert m. induction pairs as [|[k v] pairs IH]; simpl; intros m H; [by exists []|].
  unfold meta_insert in H. simpl in H.
  apply bind_Ok in H as (m1 & H1 & H). apply bind_Ok in H1 as (k' & ->%as_text_Ok & H1).
  apply bind_Ok in H1 as (v' & ->%as_text_Ok & _). apply IH in H as [l ->]. by exists ((k', v') :: l).
Qed.

(** The key of a map entry is a well-formed value whose encoding differs from every other key's. *)
Lemma wire_keys_NoDup l bs : encode (Map (map meta_pair l)) = Ok bs -> NoDup (map fst l).
Proof.
  intros H. pose proof (encode_outcome_all (Map (map meta_pair l))) as Ho. unfold encode_outcome in Ho.
  destruct (encodable (Map (map meta_pair l))) eqn:E.
  - cbn [encodable] in E. apply andb_true_iff in E as [_ E]. apply bool_decide_eq_true in E.
    rewrite meta_keys_encoded in E. by apply NoDup_fmap_1 in E.
  - destruct Ho as [Ho|Ho]; rewrite H in Ho; discriminate Ho.
Qed.

Lemma encode_Array_congr l1 l2 bs :
  Forall2 (fun v w => forall b, encode v = Ok b -> encode w = Ok b) l1 l2 ->
  encode (Array l1) = Ok bs -> encode (Array l2) = Ok bs.
Proof.
  intros Hl. rewrite !encode_Array. intros (es & Hes%try_map_Ok & H)%bind_Ok.
  assert (try_map encode l2 = Ok es) as ->.
  { apply try_map_Ok. clear H. revert es Hes. induction Hl as [|v w l1 l2 Hv _ IH]; intros es Hes.
    - inversion Hes. constructor.
    - inversion Hes; subst. constructor; auto. }
  simpl. unfold len in *. by rewrite <-(Forall2_length _ _ _ Hl).
Qed.

(** What the field reader checks itself, beyond the codec. *)
Definition checked_object (o : Object) : Prop :=
  retag_object o = o /\
  match o with
  | OBlob _ => True
  | OChunkList _ entries => Forall (fun e => wf_digest (cr_target e)) entries
  | OTree entries =>
      Forall (fun e => wf_digest (te_target e) /\ te_mode e <= u32_max) entries
      /\ sorted_by te_name entries
  | OCommit c => wf_digest (c_tree c) /\ Forall wf_digest (c_parents c)
  | OTag t => wf_digest (t_target t)
  end.

(** Fields equal up to the order of the pairs of a map. *)
Definition same_field (v w : Value) : Prop :=
  v = w \/ exists l1 l2, v = Map l1 /\ w = Map l2 /\ l1 ≡ₚ l2.

Lemma same_field_encode v w b : same_field v w -> encode v = Ok b -> encode w = Ok b.
Proof. intros [->|(l1 & l2 & -> & -> & H)]; [done|]. by apply encode_Map_perm. Qed.

Lemma same_field_wf v w : same_field v w -> wf_value v = wf_value w.
Proof.
  intros [->|(l1 & l2 & -> & -> & H)]; [done|]. cbn [wf_value]. unfold len. by rewrite (forallb_perm _ _ _ H), H.
Qed.

Lemma same_fields_refl l : Forall2 same_field l l.
Proof. apply Forall_Forall2_diag, Forall_true. by left. Qed.

Lemma chunk_refs_Ok items es :
  try_map chunk_ref_item items = Ok es ->
  items = map chunk_ref_value es /\ Forall (fun e => retag_chunk e = e /\ wf_digest (cr_target e)) es.
Proof. apply try_map_inv, chunk_ref_item_Ok. Qed.

Lemma digests_Ok items ds :
  try_map as_digest items = Ok ds ->
  items = map digest_value ds /\ Forall (fun d => retag d = d /\ wf_digest d) ds.
Proof.
  apply try_map_inv. intros v d (-> & Ha & Hd)%as_digest_Ok. split; [done|]. by rewrite retag_digest.
Qed.

Lemma map_fixed {A} (f : A -> A) (P : A -> Prop) l :
  Forall (fun x => f x = x /\ P x) l -> map f l = l /\ Forall P l.
Proof.
  induction 1 as [|x l [Hx HP] _ [Hm IH]]; [done|]. simpl. rewrite Hx, Hm. auto.
Qed.

Lemma meta_Ok pairs m bs :
  try_fold meta_insert ∅ pairs = Ok m -> encode (Map pairs) = Ok bs ->
  pairs ≡ₚ map meta_pair (btree_iter m).
Proof.
  intros H He. destruct (meta_fold_Ok _ _ _ H) as [l ->]. apply wire_keys_NoDup in He.
  rewrite meta_fold in H by done. injection H as <-. rewrite (right_id_L ∅ (∪)).
  symmetry. by apply Permutation_map, btree_iter_list_to_map.
Qed.

Lemma decode_fields_Ok ty fields o :
  Forall (fun v => exists b, encode v = Ok b) fields -> decode_fields ty fields = Ok (o, []) ->
  object_type o = ty /\ checked_object o /\ Forall2 same_field fields (cbor_fields o).2.
Proof.
  unfold checked_object, fields_bytes, fields_uint, fields_array, fields_digest, fields_text, fields_map.
  intros Henc H. destruct ty; cbn [decode_fields] in H; unfold fields_bytes, fields_uint, fields_array,
    fields_digest, fields_text, fields_map in H; inv_fields H.
  - injection H as <- ->. split_and!; [done..|]. apply same_fields_refl.
  - apply bind_Ok in H as (es & [-> [Hr Hd]%map_fixed]%chunk_refs_Ok & [= <- ->]). simpl. rewrite Hr.
    split_and!; [done..|]. apply same_fields_refl.
  - apply bind_Ok in H as (es & H1 & [= <- ->]).
    apply tree_fold_Ok in H1 as (es' & -> & -> & Hr & Hd & Hs); [|constructor]. simpl in *. rewrite Hr.
    split_and!; [done..|]. apply same_fields_refl.
  - apply bind_Ok in H as (ps & [-> [Hr Hd]%map_fixed]%digests_Ok & H). inv_fields H.
    apply bind_Ok in H as (m & Hm & [= <- ->]). simpl. rewrite Hr, retag_digest by done.
    split_and!; [done..|]. repeat (constructor; [by left|]). constructor; [|constructor].
    right. eexists _, _. split_and!; [done..|].
    do 5 apply Forall_cons in Henc as [_ Henc]. apply Forall_cons in Henc as [[b Hb] _].
    by eapply meta_Ok.
  - injection H as <- ->. simpl. rewrite retag_digest by done. split_and!; [done..|]. apply same_fields_refl.
Qed.

Lemma wf_Text_inv s : wf_value (Text s) = true -> wf_text s.
Proof. cbn [wf_value]. intros [H1%N.leb_le H2]%andb_true_iff. done. Qed.

Lemma wf_Uint_inv n : wf_value (Uint n) = true -> n <= u64_max.
Proof. apply N.leb_le. Qed.

Lemma wf_items_inv {A} (f : A -> Value) l :
  wf_value (Array (map f l)) = true -> len l <= u64_max /\ forall x, x ∈ l -> wf_value (f x) = true.
Proof.
  intros [Hl H]%wf_Array. unfold len in *. rewrite length_map in Hl. split; [done|].
  rewrite forallb_forall in H. intros x Hx. apply H, in_map. by apply list_elem_of_In.
Qed.

Lemma wf_meta_inv m :
  wf_value (Map (map meta_pair (btree_iter m))) = true ->
  len (btree_iter m) <= u64_max /\ map_Forall (fun k v => wf_text k /\ wf_text v) m.
Proof.
  intros [Hl H]%wf_Map. unfold len in *. rewrite length_map in Hl. split; [done|].
  rewrite forallb_forall in H. intros k v Hkv%elem_of_btree_iter.
  specialize (H (meta_pair (k, v))). cbn [meta_pair fst snd] in H.
  apply andb_true_iff in H as [H1%wf_Text_inv H2%wf_Text_inv]; [done|].
  apply in_map_iff. exists (k, v). split; [done|]. by apply list_elem_of_In.
Qed.

Lemma wf_object_of_fields o :
  checked_object o -> forallb wf_value (cbor_fields o).2 = true -> wf_object o.
Proof.
  intros [_ Hc]. destruct o as [p|n es|es|c|t]; cbn [wf_object cbor_fields snd forallb] in *;
    rewrite ?andb_true_r; rewrite ?andb_true_iff.
  - apply N.leb_le.
  - intros (Hn%wf_Uint_inv & [Hl He]%wf_items_inv). split_and!; [done..|].
    rewrite Forall_forall in Hc |- *. intros e Hin. split; [by apply Hc|].
    specialize (He e Hin). apply wf_Array in He as [_ He]. cbn [forallb] in He.
    rewrite !andb_true_iff in He. by destruct He as (_ & He%wf_Uint_inv & _).
  - intros [Hl He]%wf_items_inv. destruct Hc as [Hc Hs]. split_and!; [done| |done].
    rewrite Forall_forall in Hc |- *. intros e Hin. destruct (Hc e Hin) as [Hd Hm].
    split_and!; [|done..]. specialize (He e Hin). apply wf_Array in He as [_ He]. cbn [forallb] in He.
    rewrite !andb_true_iff in He. by destruct He as (He%wf_Text_inv & _).
  - intros (_ & [Hl _]%wf_items_inv & ?%wf_Text_inv & ?%wf_Uint_inv & ?%wf_Text_inv & [? ?]%wf_meta_inv).
    by destruct Hc.
  - intros (_ & _ & ?%wf_Text_inv & ?%wf_Text_inv & ?%wf_Uint_inv & ?%wf_Text_inv). done.
Qed.

Lemma encode_Array_items items bs :
  encode (Array items) = Ok bs -> Forall (fun v => exists b, encode v = Ok b) items.
Proof.
  rewrite encode_Array. intros (es & Hes%try_map_Ok & _)%bind_Ok.
  induction Hes; constructor; eauto.
Qed.

Lemma decode_obj_canonical bs o :
  decode_obj bs = Ok o -> canonical o = Ok bs /\ wf_object o /\ retag_object o = o.
Proof.
  unfold decode_obj. intros ([tc fields] & Hd%map_err_Ok & H)%bind_Ok. cbv beta iota in H. inv_fields H.
  apply bind_Ok in H as ([obj f] & Hf & H). cbv beta iota in H. inv_fields H. injection H as ->.
  apply decode_object_canonical in Hd as (He & Ht & Hw & _).
  pose proof (encode_Array_items _ _ He) as Hall. do 2 apply Forall_cons in Hall as [_ Hall].
  apply decode_fields_Ok in Hf as (Hty & Hc & Hsame); [|done].
  assert ((cbor_fields o).1 = object_type_code k) as Hcode by (rewrite <-Hty; by destruct o).
  assert (forallb wf_value (cbor_fields o).2 = true) as Hw'.
  { clear -Hsame Hw. induction Hsame as [|v w l1 l2 Hv _ IH]; [done|]. cbn [forallb] in *.
    rewrite <-(same_field_wf _ _ Hv). apply andb_true_iff in Hw as [-> Hw]. by apply IH. }
  split_and!; [|by apply wf_object_of_fields|apply Hc].
  unfold canonical, encode_object in *. destruct (cbor_fields o) as [ty fs]. simpl in Hcode. subst ty.
  eapply encode_Array_congr; [|done]. constructor; [done|]. constructor; [done|].
  eapply Forall2_impl; [done|]. intros v w Hs b. by apply same_field_encode.
Qed.

(** ** Decoding fails only as a corrupt object *)

Definition corrupt_only {A} (m : res A) : Prop := forall e, m = Err e -> e = Error.CorruptObject.

Lemma corrupt_bind {A B} (m : res A) (f : A -> res B) :
  corrupt_only m -> (forall a, corrupt_only (f a)) -> corrupt_only (m ≫= f).
Proof. intros Hm Hf e. destruct m; simpl; [apply Hf|]. intros [= <-]. by apply Hm. Qed.

Lemma corrupt_bind_pair {A B C} (m : res (A * B)) (f : A -> B -> res C) :
  corrupt_only m -> (forall a b, corrupt_only (f a b)) -> corrupt_only ('(a, b) ← m; f a b).
Proof. intros Hm Hf. apply corrupt_bind; [done|]. intros []. apply Hf. Qed.

Lemma corrupt_Ok {A} (a : A) : corrupt_only (Ok a).
Proof. intros e [=]. Qed.

Lemma corrupt_Err {A} : corrupt_only (Err Error.CorruptObject : res A).
Proof. by intros e [= <-]. Qed.

Lemma corrupt_try_map {A B} (f : A -> res B) l :
  (forall x, corrupt_only (f x)) -> corrupt_only (try_map f l).
Proof.
  intros Hf. induction l as [|x l IH]; simpl; [apply corrupt_Ok|].
  apply corrupt_bind; [done|]. intros y. apply corrupt_bind; [done|]. intros. apply corrupt_Ok.
Qed.

Lemma corrupt_try_fold {A S} (f : S -> A -> res S) s l :
  (forall s x, corrupt_only (f s x)) -> corrupt_only (try_fold f s l).
Proof. intros Hf. revert s. induction l; intros s; simpl; [apply corrupt_Ok|]. by apply corrupt_bind. Qed.

Create HintDb corrupt.
Hint Resolve corrupt_bind corrupt_bind_pair corrupt_Ok corrupt_Err corrupt_try_map corrupt_try_fold
  : corrupt.
Hint Extern 5 (corrupt_only (match ?x with _ => _ end)) => destruct x : corrupt.
Hint Extern 5 (corrupt_only (if ?x then _ else _)) => destruct x : corrupt.

Lemma corrupt_u8_from n : corrupt_only (u8_from n).
Proof. unfold u8_from. auto with corrupt. Qed.
Lemma corrupt_as_digest v : corrupt_only (as_digest v).
Proof. unfold as_digest, as_bytes. auto with corrupt. Qed.
Lemma corrupt_as_text v : corrupt_only (as_text v).
Proof. unfold as_text. auto with corrupt. Qed.
Lemma corrupt_as_array v : corrupt_only (as_array v).
Proof. unfold as_array. auto with corrupt. Qed.
Lemma corrupt_as_map v : corrupt_only (as_map v).
Proof. unfold as_map. auto with corrupt. Qed.
Lemma corrupt_as_uint v : corrupt_only (as_uint v).
Proof. unfold as_uint. auto with corrupt. Qed.
Lemma corrupt_as_bytes v : corrupt_only (as_bytes v).
Proof. unfold as_bytes. auto with corrupt. Qed.
Lemma corrupt_fields_end f : corrupt_only (fields_end f).
Proof. unfold fields_end. auto with corrupt. Qed.
Lemma corrupt_read_field {A} (conv : Value -> res A) f :
  (forall v, corrupt_only (conv v)) -> corrupt_only (read_field conv f).
Proof. intros H. unfold read_field, next_field. auto 6 with corrupt. Qed.
Lemma corrupt_object_type b : corrupt_only (object_type_from_u8 b).
Proof.
  intros e. destruct (object_type_from_u8 b) eqn:E; [done|]. intros [= <-]. revert E.
  unfold object_type_from_u8. repeat case_match; naive_solver.
Qed.
Lemma corrupt_entry_kind b : corrupt_only (entry_kind_from_u8 b).
Proof.
  intros e. destruct (entry_kind_from_u8 b) eqn:E; [done|]. intros [= <-]. revert E.
  unfold entry_kind_from_u8. repeat case_match; naive_solver.
Qed.
Hint Resolve corrupt_u8_from corrupt_as_digest corrupt_as_text corrupt_as_array corrupt_as_map
  corrupt_as_uint corrupt_as_bytes corrupt_fields_end corrupt_read_field corrupt_object_type
  corrupt_entry_kind : corrupt.

Lemma corrupt_chunk_ref_item v : corrupt_only (chunk_ref_item v).
Proof. unfold chunk_ref_item, fields_digest, fields_uint. auto 20 with corrupt. Qed.

Lemma corrupt_tree_entry_item acc v : corrupt_only (tree_entry_item acc v).
Proof. unfold tree_entry_item, fields_digest, fields_uint, fields_text. auto 30 with corrupt. Qed.

Lemma corrupt_meta_insert m kv : corrupt_only (meta_insert m kv).
Proof. unfold meta_insert. auto with corrupt. Qed.
Hint Resolve corrupt_chunk_ref_item corrupt_tree_entry_item corrupt_meta_insert : corrupt.

Lemma corrupt_decode_fields ty f : corrupt_only (decode_fields ty f).
Proof.
  destruct ty; cbn [decode_fields]; unfold fields_bytes, fields_digest, fields_uint, fields_text,
    fields_array, fields_map; auto 40 with corrupt.
Qed.
Hint Resolve corrupt_decode_fields : corrupt.

Lemma corrupt_decode_obj bs : corrupt_only (decode_obj bs).
Proof.
  unfold decode_obj. apply corrupt_bind_pair; [|auto 20 with corrupt].
  intros e. destruct (decode_object bs); simpl; [done|]. by intros [= <-].
Qed.

(** ** The object model's contract *)

(** [Object::canonical] never panics: every object has a canonical form. *)
Theorem object_canonical_total o : exists bs, canonical o = Ok bs.
Proof. apply canonical_ok. Qed.

(** Decoding the canonical form of a well-formed object gives the object back, equal to it under
    the derived equality (digests compare by their bytes; a decoded digest is tagged BLAKE3). *)
Theorem object_decode_canonical o bs :
  wf_object o -> canonical o = Ok bs -> len bs <= u64_max ->
  exists o', decode_obj bs = Ok o' /\ o' ≡ o.
Proof.
  intros Hwf Hc Hl. exists (retag_object o). split; [by apply decode_canonical_object|].
  apply retag_equiv.
Qed.

Definition sample_digest : Digest := mkDigest Sha256 (replicate 32 x07).
Definition sample_commit : Object :=
  OCommit (mkCommit sample_digest [sample_digest] [x61] 5 [] {[ [x62; x62] := [x31]; [x7a] := [x32] ]}).

Definition sample_commit_bytes : bytes :=
  Eval vm_compute in match canonical sample_commit with Ok bs => bs | Err _ => [] end.

Lemma object_decode_canonical_witness :
  exists o', decode_obj sample_commit_bytes = Ok o' /\ o' ≡ sample_commit.
Proof.
  apply (object_decode_canonical sample_commit sample_commit_bytes).
  - cbn [wf_object sample_commit c_tree c_parents c_author c_timestamp_ms c_message c_meta].
    do 2 (split; [by vm_compute|]). split; [by repeat constructor|].
    split; [by split; vm_compute|]. split; [by vm_compute|]. split; [by split; vm_compute|].
    split; [by vm_compute|]. apply map_Forall_insert_2; [by repeat split; vm_compute|].
    apply map_Forall_singleton. by repeat split; vm_compute.
  - by vm_compute.
  - by vm_compute.
Defined.

(** Bytes that decode are the canonical form of the object they decode to, which is well formed:
    a logical object has exactly one byte form. *)
Theorem object_canonical_decode bs o :
  decode_obj bs = Ok o -> canonical o = Ok bs /\ wf_object o.
Proof. intros (H1 & H2 & _)%decode_obj_canonical. done. Qed.

Lemma object_canonical_decode_witness : canonical (OBlob [x68; x69]) = Ok [x83; x01; x01; x42; x68; x69].
Proof. apply (object_canonical_decode [x83; x01; x01; x42; x68; x69]). by vm_compute. Defined.

(** Whatever the bytes, [Object::decode] fails only with [CORRUPT_OBJECT]. *)
Theorem object_decode_error bs e : decode_obj bs = Err e -> e = Error.CorruptObject.
Proof. apply corrupt_decode_obj. Qed.

Lemma object_decode_error_witness : exists e, decode_obj [x83; x01; x09; x40] = Err e /\ e = Error.CorruptObject.
Proof.
  eexists. split; [by vm_compute|]. apply (object_decode_error [x83; x01; x09; x40]). by vm_compute.
Defined.

(** [Object::tree] accepts exactly the entries with distinct names, and gives the tree with the
    same entries in strictly ascending order of name; a repeated name is an invalid argument. *)
Theorem object_tree entries :
  if bool_decide (NoDup (map te_name entries))
  then exists es, tree entries = Ok (OTree es) /\ es ≡ₚ entries /\ sorted_by te_name es
  else tree entries = Err Error.InvalidArgument.
Proof.
  unfold tree. pose proof (adjacent_dup_sort te_name entries) as H.
  case_bool_decide as Hn.
  - rewrite (proj2 H Hn). eexists. split_and!; [done|apply sort_by_perm|].
    apply sorted_by_no_dup; [apply sort_by_sorted|by apply H].
  - destruct (adjacent_dup te_name (sort_by te_name entries)); [done|]. exfalso. by apply Hn, H.
Qed.

End ObjectProps.
