(* ===== verification/Store.v ===== *)
(** * Object stores (crates/loom-core/src/provider.rs, provider/memory.rs)

    The content-addressed part of the [ObjectStore] trait as an interface, with the laws a client
    relies on, and the in-memory reference store as an instance. A store behind a lock is a state
    passed through each operation.

    Addresses are hashes, so two different byte strings may share one. The laws are stated for a set
    [U] of byte strings: storing a member of [U] succeeds and can be read back. For the in-memory
    store [U] is any set on which the hash is injective. *)

From S2P Require Import Prelude Codec Types.

Module Store.
Import Codec Digest.

Section Interface.
Context `{Hasher}.

(** [trait ObjectStore] *)
Class ObjectStore (S : Type) : Type := {
  digest_algo : S -> Algo;
  put : S -> bytes -> res (Digest * S);
  get : S -> Digest -> res (option bytes);
}.

(** What the engine relies on. [ok] is the store's own invariant. *)
Class StoreLaws (S : Type) `{ObjectStore S} (U : bytes -> Prop) (ok : S -> Prop) : Prop := {
  universe_len b : U b -> len b <= u64_max;
  get_proper s d1 d2 : d1 ≡ d2 -> get s d1 = get s d2;
  put_address s b d s' : put s b = Ok (d, s') -> d = hash (digest_algo s) b;
  put_keeps s b d s' : put s b = Ok (d, s') -> digest_algo s' = digest_algo s
    /\ (forall d' b', get s d' = Ok (Some b') -> get s' d' = Ok (Some b'));
  get_integrity s d b : ok s -> get s d = Ok (Some b) -> dbytes d = raw_hash (digest_algo s) b;
  put_stores s b : ok s -> U b -> exists d s', put s b = Ok (d, s')
    /\ ok s' /\ digest_algo s' = digest_algo s /\ get s' d = Ok (Some b)
    /\ (forall d' b', get s d' = Ok (Some b') -> get s' d' = Ok (Some b'));
}.
End Interface.

(** ** The in-memory store *)

Section Memory.
Context `{Hasher}.

(** [MemoryStore]: the map behind the mutex. *)
Record MemoryStore : Type := mkMemoryStore { objects : gmap bytes bytes }.

Definition memory_new : MemoryStore := mkMemoryStore ∅.

(** [entry(digest).or_insert_with(..)] keeps a value already present. *)
Definition memory_put (s : MemoryStore) (canonical : bytes) : res (Digest * MemoryStore) :=
  let digest := blake3 canonical in
  Ok (digest,
      match objects s !! dbytes digest with
      | Some _ => s
      | None => mkMemoryStore (<[dbytes digest := canonical]> (objects s))
      end).

Definition memory_get (s : MemoryStore) (d : Digest) : res (option bytes) :=
  Ok (objects s !! dbytes d).

Definition memory_has (s : MemoryStore) (d : Digest) : res bool :=
  Ok (bool_decide (is_Some (objects s !! dbytes d))).

Definition memory_len (s : MemoryStore) : nat := size (objects s).

(** [MemoryStore::objects] *)
Definition memory_objects (s : MemoryStore) : list (Digest * bytes) :=
  map (fun kv => (mkDigest Blake3 kv.1, kv.2)) (btree_iter (objects s)).

#[global] Instance memory_object_store : ObjectStore MemoryStore := {
  digest_algo _ := Blake3;
  put := memory_put;
  get := memory_get;
}.

(** Every object is stored under its own address. *)
Definition addressed (s : MemoryStore) : Prop :=
  map_Forall (fun k b => k = raw_hash Blake3 b) (objects s).

(** Every stored object belongs to the universe. *)
Definition within (U : bytes -> Prop) (s : MemoryStore) : Prop :=
  map_Forall (fun _ b => U b) (objects s).

Definition injective_on (U : bytes -> Prop) : Prop :=
  forall b1 b2, U b1 -> U b2 -> raw_hash Blake3 b1 = raw_hash Blake3 b2 -> b1 = b2.

Lemma memory_put_addressed s b d s' :
  addressed s -> memory_put s b = Ok (d, s') -> addressed s'.
Proof.
  unfold memory_put. intros Ha [= <- <-].
  destruct (objects s !! raw_hash Blake3 b); [done|]. by apply map_Forall_insert_2.
Qed.

Lemma memory_put_keeps s b d s' k v :
  memory_put s b = Ok (d, s') -> objects s !! k = Some v -> objects s' !! k = Some v.
Proof.
  unfold memory_put. intros [= <- <-] Hk.
  destruct (objects s !! raw_hash Blake3 b) eqn:E; [done|]. simpl.
  rewrite lookup_insert_ne; [done|]. intros Heq. simpl in *. congruence.
Qed.

(** The in-memory store implements the interface for a universe without collisions. *)
#[global] Instance memory_store_laws (U : bytes -> Prop)
    (Ulen : forall b, U b -> len b <= u64_max) (Uinj : injective_on U) :
  StoreLaws MemoryStore U (fun s => addressed s /\ within U s).
Proof.
  split; simpl.
  - exact Ulen.
  - intros s d1 d2 Hd. unfold memory_get. by rewrite Hd.
  - intros s b d s' [= <- _]. done.
  - intros s b d s' Hp. split; [done|]. intros d' b' [= Hg]. unfold memory_get. f_equal. by eapply memory_put_keeps.
  - intros s d b [Ha _] [= Hb]. apply (Ha _ _ Hb).
  - intros s b [Ha Hw] Hb. eexists _, _. split; [reflexivity|].
    assert (memory_put s b = Ok (blake3 b, match objects s !! raw_hash Blake3 b with
      | Some _ => s | None => mkMemoryStore (<[raw_hash Blake3 b := b]> (objects s)) end)) as Hput by done.
    split_and!.
    + by eapply memory_put_addressed.
    + simpl. destruct (objects s !! raw_hash Blake3 b); [done|]. by apply map_Forall_insert_2.
    + done.
    + unfold memory_get. simpl. destruct (objects s !! raw_hash Blake3 b) as [b'|] eqn:E; simpl.
      * rewrite E. do 2 f_equal. apply Uinj; [by eapply Hw|done|]. symmetry. by apply (Ha _ _ E).
      * by rewrite lookup_insert_eq.
    + intros d' b' [= Hg]. unfold memory_get. f_equal. by eapply memory_put_keeps.
Qed.

(** ** Properties of the in-memory store, whatever the hash function *)

(** [put] returns the address of the bytes and keeps the store sound: afterwards the address
    holds an object with that hash (the object itself when the address was free), every object held
    before is still held unchanged, nothing else is added, and every object is still filed under
    its own hash. *)
Theorem memory_put_correct s b d s' :
  addressed s -> memory_put s b = Ok (d, s') ->
  d = hash Blake3 b /\ addressed s'
  /\ (exists b', memory_get s' d = Ok (Some b') /\ raw_hash Blake3 b' = raw_hash Blake3 b
      /\ (memory_get s d = Ok None -> b' = b))
  /\ (forall d', memory_get s d' <> Ok None -> memory_get s' d' = memory_get s d')
  /\ (forall d', ~ (d' ≡ d) -> memory_get s' d' = memory_get s d').
Proof.
  intros Ha Hput. split_and!.
  - by injection Hput as <- _.
  - by eapply memory_put_addressed.
  - unfold memory_put in Hput. unfold memory_get. injection Hput as <- <-.
    destruct (objects s !! raw_hash Blake3 b) as [b'|] eqn:E; simpl in *.
    + exists b'. rewrite E. split_and!; [done| |done]. symmetry. apply (Ha _ _ E).
    + exists b. by rewrite lookup_insert_eq.
  - intros d' Hd. unfold memory_get in *. f_equal.
    destruct (objects s !! dbytes d') as [v|] eqn:E; [|done]. by eapply memory_put_keeps.
  - intros d' Hd. unfold memory_put in Hput. unfold memory_get. injection Hput as <- <-.
    destruct (objects s !! raw_hash Blake3 b); [done|]. simpl. rewrite lookup_insert_ne; [done|].
    intros Heq. by apply Hd.
Qed.

(** Storing the same bytes again changes nothing. *)
Lemma memory_put_again s b d s' :
  memory_put s b = Ok (d, s') -> memory_put s' b = Ok (d, s').
Proof.
  unfold memory_put. intros [= <- <-].
  destruct (objects s !! raw_hash Blake3 b) eqn:E; simpl in *; [by rewrite E|].
  by rewrite lookup_insert_eq.
Qed.
End Memory.

(** A concrete hash for examples. Its first byte is zero when the bit of the first input byte that
    the last input byte selects is set; the others are a polynomial of the input. *)
Definition toy_hash (b : bytes) : bytes :=
  let first := from_option Byte.to_N 0 (head b) in
  let final := from_option Byte.to_N 0 (last b) in
  (if N.testbit first final then x00 else x01)
  :: to_be_bytes 31 (foldl (fun acc x => (acc * 257 + Byte.to_N x + 1) mod 2 ^ 248) 0 b).

#[program] Definition toy_hasher : Hasher := {| raw_hash _ b := toy_hash b |}.
Next Obligation. intros. unfold toy_hash. cbn [length]. by rewrite length_to_be_bytes. Qed.

#[local] Existing Instance toy_hasher.

(** A finite universe on which the example hash is injective. *)
Lemma toy_injective_on (l : list bytes) : NoDup (map toy_hash l) -> injective_on (fun b => b ∈ l).
Proof.
  intros Hn b1 b2 H1 H2 He. apply list_elem_of_lookup in H1 as [i Hi]. apply list_elem_of_lookup in H2 as [j Hj].
  assert (i = j) as ->; [|congruence]. eapply (NoDup_lookup (map toy_hash l)); [done| |].
  - apply list_lookup_fmap_Some. eauto.
  - apply list_lookup_fmap_Some. exists b2. split; [exact He|exact Hj].
Qed.

(** A universe of finitely many byte strings on which the example hash has no collision. *)
Lemma finite_universe (l : list bytes) :
  forallb (fun b => len b <=? u64_max) l = true -> bool_decide (NoDup (map toy_hash l)) = true ->
  StoreLaws MemoryStore (fun b => b ∈ l) (fun s => addressed s /\ within (fun b => b ∈ l) s).
Proof.
  intros Hl Hn. apply memory_store_laws.
  - intros b Hb. rewrite forallb_forall in Hl. by apply N.leb_le, Hl, list_elem_of_In.
  - apply toy_injective_on. by apply bool_decide_eq_true_1 in Hn.
Qed.

Lemma memory_put_correct_witness :
  exists d s', memory_put memory_new [x01; x02] = Ok (d, s') /\ addressed s'.
Proof.
  eexists _, _. split; [reflexivity|].
  apply (memory_put_correct memory_new [x01; x02] (hash Blake3 [x01; x02])); [|reflexivity].
  apply map_Forall_empty.
Defined.

End Store.
