(* ===== verification/Prolly.v ===== *)
(** * Prolly trees (crates/loom-core/src/prolly.rs): the operations

    The node codec, bulk construction, point and range reads, incremental insertion and removal, the
    streaming cursor, the reachability walk and the diff, over any object store. A store is a state
    passed through the operations that write. Depth-bounded loops recurse on the number of levels
    left. *)

From S2P Require Import Prelude Codec Types Cbor Store.

Module Prolly.
Import Codec Cbor Digest Store.

Definition LEAF_TAG : N := 0.
Definition INTERNAL_TAG : N := 1.
Definition AVG_BITS : N := 5.
Definition BOUNDARY_MASK : N := N.shiftl 1 AVG_BITS - 1.
Definition MAX_DEPTH : nat := 64.

Abbreviation Entry := (bytes * bytes)%type.
Abbreviation Child := (bytes * Digest)%type.
Abbreviation ChildRun := (list (bytes * Digest)%type).

Definition is_boundary `{Hasher} (key : bytes) (level : N) : bool :=
  let h := blake3 (key ++ [as_u8 level]) in
  (* u32::from_le_bytes of the first four bytes *)
  let lead := from_be_bytes (reverse (take 4 (dbytes h))) in
  N.land lead BOUNDARY_MASK =? 0.

(** ** Node codec *)

Definition leaf_value (entries : list Entry) : Value :=
  Array [Uint LEAF_TAG; Array (map (fun e => Array [Bytes e.1; Bytes e.2]) entries)].

Definition encode_leaf (entries : list Entry) : bytes := cbor_encode (leaf_value entries).

Definition internal_value (children : ChildRun) : Value :=
  Array [Uint INTERNAL_TAG; Array (map (fun c => Array [Bytes c.1; digest_value c.2]) children)].

Definition encode_internal (children : ChildRun) : bytes := cbor_encode (internal_value children).

Inductive Node : Type :=
| NLeaf (entries : list Entry)
| NInternal (children : ChildRun).

Definition leaf_item (item : Value) : res Entry :=
  ef ← as_array item;
  '(k, ef) ← fields_bytes ef;
  '(v, ef) ← fields_bytes ef;
  _ ← fields_end ef;
  Ok (k, v).

Definition internal_item (item : Value) : res Child :=
  ef ← as_array item;
  '(max_key, ef) ← fields_bytes ef;
  '(digest, ef) ← fields_digest ef;
  _ ← fields_end ef;
  Ok (max_key, digest).

(** The part of [read_node] after the store lookup. *)
Definition parse_node (b : bytes) : res Node :=
  f ← decode_array b;
  '(tag, f) ← fields_uint f;
  '(items, f) ← fields_array f;
  _ ← fields_end f;
  if tag =? LEAF_TAG then entries ← try_map leaf_item items; Ok (NLeaf entries)
  else if tag =? INTERNAL_TAG then children ← try_map internal_item items; Ok (NInternal children)
  else Err Error.CorruptObject.

(** [validate_node_bytes] *)
Definition validate_item (tag : N) (item : Value) : res unit :=
  ef ← as_array item;
  ef ← (if tag =? LEAF_TAG then
          '(_, ef) ← fields_bytes ef; '(_, ef) ← fields_bytes ef; Ok ef
        else if tag =? INTERNAL_TAG then
          '(_, ef) ← fields_bytes ef; '(_, ef) ← fields_digest ef; Ok ef
        else Err Error.CorruptObject);
  fields_end ef.

Definition validate_node_bytes (b : bytes) : res unit :=
  f ← decode_array b;
  '(tag, f) ← fields_uint f;
  '(items, f) ← fields_array f;
  _ ← fields_end f;
  try_fold (fun _ item => validate_item tag item) () items.

(** [children.iter().position(|(mk, _)| mk >= key)] *)
Fixpoint position {A} (key : bytes) (children : list (bytes * A)) : option nat :=
  match children with
  | [] => None
  | c :: cs => if key <=b? c.1 then Some O else S <$> position key cs
  end.

Inductive Change : Type := Set_ (value : bytes) | Remove.

(** The edit of a sorted entry list, shared by [mutate] and [rebuild_with]. *)
Definition apply_change (entries : list Entry) (key : bytes) (change : Change) : list Entry :=
  match binary_search entries key with
  | Ok i =>
      match change with
      | Set_ v => <[i := (key_at entries i, v)]> entries
      | Remove => delete i entries
      end
  | Err i =>
      match change with
      | Set_ v => take i entries ++ (key, v) :: drop i entries
      | Remove => entries
      end
  end.

(** [upper_bound], on the reversed prefix: pop the trailing 0xFF bytes, increment the next one. *)
Fixpoint upper_bound_rev (rev_prefix : bytes) : option bytes :=
  match rev_prefix with
  | [] => None
  | last :: u =>
      if Byte.to_N last <? 255 then Some (reverse (as_u8 (Byte.to_N last + 1) :: u))
      else upper_bound_rev u
  end.

Definition upper_bound (prefix : bytes) : option bytes := upper_bound_rev (reverse prefix).

Section Ops.
Context `{hasher : Hasher} {S : Type} `{ops : !ObjectStore S}.

Definition read_node (store : S) (digest : Digest) : res Node :=
  o ← get store digest;
  b ← ok_or o Error.NotFound;
  parse_node b.

(** ** Construction *)

(** [run.last().expect(..).0] of a run that is not empty. *)
Definition max_key {A} (run : list (bytes * A)) : bytes := from_option fst [] (last run).

Definition flush_leaf (store : S) (run : list Entry) : res (Child * S) :=
  '(digest, store) ← put store (encode_leaf run);
  Ok ((max_key run, digest), store).

Definition flush_internal (store : S) (run : ChildRun) : res (Child * S) :=
  '(digest, store) ← put store (encode_internal run);
  Ok ((max_key run, digest), store).

(** The chunking loop of [chunk_leaves], [chunk_internal] and both phases of [build]: push each
    item on the run, and flush the run after a boundary key and at the end. *)
Fixpoint chunk_loop {A} (flush : S -> list (bytes * A) -> res (Child * S)) (level : N) (store : S)
    (out : ChildRun) (run : list (bytes * A)) (items : list (bytes * A)) : res (ChildRun * S) :=
  match items with
  | [] =>
      match run with
      | [] => Ok (out, store)
      | _ => '(n, store) ← flush store run; Ok (out ++ [n], store)
      end
  | item :: items =>
      let run := run ++ [item] in
      if is_boundary item.1 level then
        '(n, store) ← flush store run; chunk_loop flush level store (out ++ [n]) [] items
      else chunk_loop flush level store out run items
  end.

Definition chunk_leaves (store : S) (entries : list Entry) : res (ChildRun * S) :=
  chunk_loop flush_leaf 0 store [] [] entries.

Definition chunk_internal (store : S) (level : N) (children : ChildRun) : res (ChildRun * S) :=
  chunk_loop flush_internal level store [] [] children.

(** [build]'s [while level_nodes.len() > 1] loop: at most 255 rounds, the last of which fails to
    increment the level. *)
Fixpoint build_levels (fuel : nat) (store : S) (level : N) (level_nodes : ChildRun)
    : res (ChildRun * S) :=
  if (length level_nodes <=? 1)%nat then Ok (level_nodes, store)
  else match fuel with
  | O => Err Error.CorruptObject
  | Datatypes.S fuel =>
      '(parents, store) ← chunk_internal store level level_nodes;
      level ← ok_or (checked_add u8_max level 1) Error.CorruptObject;
      build_levels fuel store level parents
  end.

Definition build (store : S) (entries : list Entry) : res (option Digest * S) :=
  match entries with
  | [] => Ok (None, store)
  | _ =>
      '(level_nodes, store) ← chunk_leaves store entries;
      '(level_nodes, store) ← build_levels 255 store 1 level_nodes;
      Ok (snd <$> head level_nodes, store)
  end.

(** ** Incremental insertion and removal *)

Fixpoint height_loop (n : nat) (store : S) (h : N) (digest : Digest) : res N :=
  match n with
  | O => Err Error.CorruptObject
  | Datatypes.S n =>
      node ← read_node store digest;
      match node with
      | NLeaf _ => Ok h
      | NInternal children =>
          c ← ok_or (head children) Error.CorruptObject;
          height_loop n store (h + 1) c.2
      end
  end.

Definition height (store : S) (root : Digest) : res N :=
  height_loop (MAX_DEPTH + 1) store 0 root.

(** [level] counts down with the recursion, so it is the recursion's measure. An internal node
    without children, on which the index arithmetic of the code panics, is not one [read_node]
    gives for a tree the module built. *)
Fixpoint mutate (store : S) (digest : Digest) (level : nat) (key : bytes) (change : Change)
    (rightmost : bool) : res (option ChildRun * S) :=
  node ← read_node store digest;
  match node with
  | NLeaf entries =>
      let entries := apply_change entries key change in
      match last entries with
      | Some e =>
          if negb (is_boundary e.1 0) && negb rightmost then Ok (None, store)
          else '(ns, store) ← chunk_leaves store entries; Ok (Some ns, store)
      | None => '(ns, store) ← chunk_leaves store entries; Ok (Some ns, store)
      end
  | NInternal children =>
      match level with
      | O => Err Error.CorruptObject
      | Datatypes.S level' =>
          let i := default (length children - 1)%nat (position key children) in
          let child_rightmost := rightmost && (i =? length children - 1)%nat in
          c ← ok_or (children !! i) Error.Internal;
          '(sub, store) ← mutate store c.2 level' key change child_rightmost;
          match sub with
          | None => Ok (None, store)
          | Some sub =>
              let next := take i children ++ sub ++ drop (Datatypes.S i) children in
              match next with
              | [] => Ok (Some [], store)
              | _ =>
                  '(ns, store) ← chunk_internal store (N.of_nat level) next;
                  Ok (Some ns, store)
              end
          end
      end
  end.

(** [finish]'s first loop, then its collapse of single-child roots. *)
Fixpoint finish_levels (fuel : nat) (store : S) (level : N) (nodes : ChildRun)
    : res (ChildRun * S) :=
  if (length nodes <=? 1)%nat then Ok (nodes, store)
  else match fuel with
  | O => Err Error.CorruptObject
  | Datatypes.S fuel =>
      level ← ok_or (checked_add u8_max level 1) Error.CorruptObject;
      '(nodes, store) ← chunk_internal store level nodes;
      finish_levels fuel store level nodes
  end.

Fixpoint collapse (n : nat) (store : S) (root : Digest) : res Digest :=
  match n with
  | O => Err Error.CorruptObject
  | Datatypes.S n =>
      node ← read_node store root;
      match node with
      | NInternal [c] => collapse n store c.2
      | _ => Ok root
      end
  end.

Definition finish (store : S) (nodes : ChildRun) (level : N) : res (Digest * S) :=
  '(nodes, store) ← finish_levels 256 store level nodes;
  c ← ok_or (head nodes) Error.CorruptObject;
  root ← collapse (MAX_DEPTH + 1) store c.2;
  Ok (root, store).

(** ** Reads *)

Fixpoint get_loop (n : nat) (store : S) (digest : Digest) (key : bytes) : res (option bytes) :=
  match n with
  | O => Err Error.CorruptObject
  | Datatypes.S n =>
      node ← read_node store digest;
      match node with
      | NLeaf entries =>
          Ok match binary_search entries key with
             | Ok i => snd <$> entries !! i
             | Err _ => None
             end
      | NInternal children =>
          match position key children with
          | Some i =>
              c ← ok_or (children !! i) Error.Internal;
              get_loop n store c.2 key
          | None => Ok None
          end
      end
  end.

(** [get] *)
Definition lookup_key (store : S) (root : Digest) (key : bytes) : res (option bytes) :=
  get_loop MAX_DEPTH store root key.

(** [levels] is [MAX_DEPTH + 1 - depth]. *)
Fixpoint collect_entries (levels : nat) (store : S) (digest : Digest) (out : list Entry)
    : res (list Entry) :=
  match levels with
  | O => Err Error.CorruptObject
  | Datatypes.S levels =>
      node ← read_node store digest;
      match node with
      | NLeaf entries => Ok (out ++ entries)
      | NInternal children =>
          try_fold (fun out c => collect_entries levels store c.2 out) out children
      end
  end.

Definition entries (store : S) (root : Digest) : res (list Entry) :=
  collect_entries (MAX_DEPTH + 1) store root [].

(** The loop over the children of [collect_prefix], with its [continue] and [break]. *)
Fixpoint prefix_children (visit : Digest -> list Entry -> res (list Entry)) (prefix : bytes)
    (upper : option bytes) (out : list Entry) (children : ChildRun) : res (list Entry) :=
  match children with
  | [] => Ok out
  | c :: cs =>
      if c.1 <b? prefix then prefix_children visit prefix upper out cs
      else
        out ← visit c.2 out;
        match upper with
        | Some u => if u <=b? c.1 then Ok out else prefix_children visit prefix upper out cs
        | None => prefix_children visit prefix upper out cs
        end
  end.

Fixpoint collect_prefix (levels : nat) (store : S) (prefix : bytes) (upper : option bytes)
    (digest : Digest) (out : list Entry) : res (list Entry) :=
  match levels with
  | O => Err Error.CorruptObject
  | Datatypes.S levels =>
      node ← read_node store digest;
      match node with
      | NLeaf entries => Ok (out ++ filter (fun e => starts_with e.1 prefix = true) entries)
      | NInternal children =>
          prefix_children (collect_prefix levels store prefix upper) prefix upper out children
      end
  end.

Definition scan_prefix (store : S) (root : Digest) (prefix : bytes) : res (list Entry) :=
  collect_prefix (MAX_DEPTH + 1) store prefix (upper_bound prefix) root [].

(** ** Writes *)

Definition rebuild_with (store : S) (root : Digest) (key : bytes) (change : Change)
    : res (option Digest * S) :=
  es ← entries store root;
  build store (apply_change es key change).

(** An [Internal] error stands for the panic of an [expect]. *)
Definition insert_key (store : S) (root : option Digest) (key value : bytes) : res (Digest * S) :=
  match root with
  | None =>
      '(d, store) ← build store [(key, value)];
      d ← ok_or d Error.Internal; Ok (d, store)
  | Some r =>
      h ← height store r;
      '(nodes, store) ← mutate store r (N.to_nat h) key (Set_ value) true;
      match nodes with
      | Some nodes => finish store nodes h
      | None =>
          '(d, store) ← rebuild_with store r key (Set_ value);
          d ← ok_or d Error.Internal; Ok (d, store)
      end
  end.

Definition remove_key (store : S) (root : Digest) (key : bytes) : res (option Digest * S) :=
  h ← height store root;
  '(nodes, store) ← mutate store root (N.to_nat h) key Remove true;
  match nodes with
  | Some [] => Ok (None, store)
  | Some nodes => '(d, store) ← finish store nodes h; Ok (Some d, store)
  | None => rebuild_with store root key Remove
  end.

End Ops.
End Prolly.
