(* ===== verification/ProllyNode.v ===== *)
(** * Prolly trees: the node codec

    A node's bytes are canonical: encoding then parsing gives the node, and only the encoding of a
    node parses to it. *)

From S2P Require Import Prelude Codec CodecFacts CodecProps Types Cbor Store Prolly.

Module ProllyNode.
Import Codec CodecFacts CodecProps Cbor Digest Store Prolly.

(** Values made of arrays, byte strings, texts, 64-bit integers and null. *)
Fixpoint simple (v : Value) : bool :=
  match v with
  | Uint n => n <=? u64_max
  | Bytes _ | Null => true
  | Text s => valid_utf8 s
  | Array items => forallb simple items
  | _ => false
  end.

Lemma put_head_nonempty major n : (1 <= length (put_head [] major n))%nat.
Proof. unfold put_head. repeat case_match; rewrite ?length_app; simpl; lia. Qed.

Lemma encode_nonempty v bs : simple v = true -> encode v = Ok bs -> (1 <= length bs)%nat.
Proof.
  destruct v as [n|n|b|s|items|pairs|f|b|]; intros Hs; try discriminate Hs.
  - intros [= <-]. apply put_head_nonempty.
  - intros [= <-]. rewrite length_app. pose proof (put_head_nonempty 2 (len b)). lia.
  - intros [= <-]. rewrite length_app. pose proof (put_head_nonempty 3 (len s)). lia.
  - rewrite encode_Array. intros (es & _ & [= <-])%bind_Ok. rewrite length_app.
    pose proof (put_head_nonempty 4 (len items)). lia.
  - intros [= <-]. by apply le_n.
Qed.

Lemma simple_encodable v : simple v = true -> encodable v = true.
Proof.
  induction v as [n|n|b|s|items IH|pairs IH|f|b|] using value_ind_nested; intros Hs; try done.
  cbn [simple encodable] in *. rewrite forallb_forall in Hs |- *. rewrite Forall_forall in IH.
  intros x Hx. apply IH; [by apply list_elem_of_In|by apply Hs].
Qed.

Lemma simple_encodes v : simple v = true -> encode v = Ok (cbor_encode v).
Proof.
  intros H%simple_encodable. pose proof (encode_outcome_all v) as Ho. unfold encode_outcome in Ho.
  by rewrite H in Ho.
Qed.

Lemma concat_length_bound (encs : list bytes) :
  Forall (fun b => (1 <= length b)%nat) encs ->
  (length encs <= length (concat encs))%nat
  /\ Forall (fun b => (length b <= length (concat encs))%nat) encs.
Proof.
  induction 1 as [|b encs Hb _ [IH1 IH2]]; simpl; [done|]. rewrite length_app. split; [lia|].
  constructor; [lia|]. eapply Forall_impl; [exact IH2|]. simpl. lia.
Qed.

(** A value whose encoding fits in memory has lengths that fit. *)
Lemma simple_wf v bs :
  simple v = true -> encode v = Ok bs -> len bs <= u64_max -> wf_value v = true.
Proof.
  revert bs. induction v as [n|n|b|s|items IH|pairs IH|f|b|] using value_ind_nested;
    intros bs Hs He Hl; try discriminate Hs.
  - exact Hs.
  - injection He as <-. apply N.leb_le. unfold len in *. rewrite length_app in Hl. lia.
  - injection He as <-. cbn [wf_value]. cbn [simple] in Hs. rewrite Hs, andb_true_r. apply N.leb_le. unfold len in *. rewrite length_app in Hl. lia.
  - rewrite encode_Array in He. apply bind_Ok in He as (es & Hes%try_map_Ok & He). injection He as <-.
    cbn [simple] in Hs. rewrite forallb_forall in Hs.
    destruct (concat_length_bound es) as [H1 H2].
    { clear -Hes Hs. induction Hes as [|v e items es Hv _ IH]; constructor.
      - eapply encode_nonempty; [|done]. apply Hs. by left.
      - apply IH. intros x Hx. apply Hs. by right. }
    unfold len in Hl. rewrite length_app in Hl. pose proof (Forall2_length _ _ _ Hes) as Hlen.
    apply wf_Array. split; [unfold len; lia|]. apply forallb_forall. intros v Hv.
    apply list_elem_of_In in Hv. destruct (list_elem_of_lookup_1 _ _ Hv) as [i Hi].
    destruct (Forall2_lookup_l _ _ _ _ _ Hes Hi) as (e & He & Hve).
    rewrite Forall_forall in IH. rewrite Forall_forall in H2. apply (IH v Hv e); [by apply Hs, list_elem_of_In|done|].
    assert (e ∈ es) as Hin by by eapply list_elem_of_lookup_2. specialize (H2 e Hin). unfold len. lia.
  - done.
Qed.

Lemma simple_canon v : simple v = true -> canon v = v.
Proof.
  induction v as [n|n|b|s|items IH|pairs IH|f|b|] using value_ind_nested; intros Hs; try done.
  cbn [simple canon] in *. f_equal. rewrite forallb_forall in Hs.
  induction IH as [|x l Hx _ IHl]; [done|]. simpl. rewrite Hx by (apply Hs; by left). f_equal.
  apply IHl. intros y Hy. apply Hs. by right.
Qed.

Lemma simple_decode v :
  simple v = true -> (depth v <= Codec.MAX_DEPTH)%nat -> len (cbor_encode v) <= u64_max ->
  decode (cbor_encode v) = Ok v.
Proof.
  intros Hs Hd Hl. pose proof (simple_encodes v Hs) as He.
  pose proof (decode_encoding v (cbor_encode v) [] (simple_wf _ _ Hs He Hl) He) as H.
  rewrite app_nil_r in H. rewrite (H Hl). apply Nat.leb_le in Hd. rewrite Hd.
  rewrite bool_decide_eq_true_2 by done. by rewrite simple_canon.
Qed.

(** ** Nodes *)

Lemma forallb_map_simple {A} (f : A -> Value) l :
  (forall x, simple (f x) = true) -> forallb simple (map f l) = true.
Proof. intros H. induction l; simpl; [done|]. by rewrite H. Qed.

Lemma leaf_simple es : simple (leaf_value es) = true.
Proof. cbn [leaf_value simple forallb]. rewrite forallb_map_simple; done. Qed.

Lemma internal_simple ch : simple (internal_value ch) = true.
Proof. cbn [internal_value simple forallb]. rewrite forallb_map_simple; done. Qed.

Lemma depth_two {A} (f : A -> Value) tag l :
  (forall x, depth (f x) = 1%nat) -> (depth (Array [Uint tag; Array (map f l)]) <= Codec.MAX_DEPTH)%nat.
Proof.
  intros H. trans 3%nat; [|unfold Codec.MAX_DEPTH; lia]. cbn [depth map].
  assert (max_list (map (fun x => S (depth x)) (map f l)) <= 2)%nat as Hm.
  { unfold max_list. induction l as [|x l IH]; simpl; [lia|]. rewrite H. simpl in IH. lia. }
  unfold max_list in *. simpl in *. lia.
Qed.

Lemma leaf_depth es : (depth (leaf_value es) <= Codec.MAX_DEPTH)%nat.
Proof. by apply depth_two. Qed.

Lemma internal_depth ch : (depth (internal_value ch) <= Codec.MAX_DEPTH)%nat.
Proof. by apply depth_two. Qed.

Lemma leaf_item_value e : leaf_item (Array [Bytes e.1; Bytes e.2]) = Ok e.
Proof. by destruct e. Qed.

Lemma leaf_item_Ok item e : leaf_item item = Ok e -> item = Array [Bytes e.1; Bytes e.2].
Proof.
  unfold leaf_item, fields_bytes. intros (l & ->%as_array_Ok & H)%bind_Ok.
  apply bind_Ok in H as ([k ef] & (v & -> & ->%as_bytes_Ok)%read_field_Ok & H).
  apply bind_Ok in H as ([w ef'] & (v' & -> & ->%as_bytes_Ok)%read_field_Ok & H).
  by apply bind_Ok in H as ([] & ->%fields_end_Ok & [= <-]).
Qed.

Lemma internal_item_value c :
  wf_digest c.2 ->
  internal_item (Array [Bytes c.1; digest_value c.2]) = Ok (c.1, from_blake3_bytes (dbytes c.2)).
Proof.
  intros H. unfold internal_item. cbn [as_array mbind result_bind].
  unfold fields_bytes, fields_digest, read_field. cbn [next_field mbind result_bind as_bytes].
  by rewrite as_digest_value.
Qed.

Lemma internal_item_Ok item c :
  internal_item item = Ok c ->
  item = Array [Bytes c.1; digest_value c.2] /\ algo c.2 = Blake3 /\ wf_digest c.2.
Proof.
  unfold internal_item, fields_bytes, fields_digest. intros (l & ->%as_array_Ok & H)%bind_Ok.
  apply bind_Ok in H as ([k ef] & (v & -> & ->%as_bytes_Ok)%read_field_Ok & H).
  apply bind_Ok in H as ([d ef'] & (v' & -> & (-> & Ha & Hd)%as_digest_Ok)%read_field_Ok & H).
  by apply bind_Ok in H as ([] & ->%fields_end_Ok & [= <-]).
Qed.

Lemma try_map_leaf es : try_map leaf_item (map (fun e => Array [Bytes e.1; Bytes e.2]) es) = Ok es.
Proof.
  rewrite (try_map_fmap leaf_item _ id); [by rewrite list_fmap_id|]. intros. apply leaf_item_value.
Qed.

Lemma try_map_internal ch :
  Forall (fun c => wf_digest c.2) ch ->
  try_map internal_item (map (fun c => Array [Bytes c.1; digest_value c.2]) ch)
  = Ok (map (fun c => (c.1, from_blake3_bytes (dbytes c.2))) ch).
Proof.
  intros H. rewrite Forall_forall in H. apply (try_map_fmap internal_item).
  intros c Hc. by apply internal_item_value, H.
Qed.

Lemma parse_encode_leaf es :
  len (encode_leaf es) <= u64_max -> parse_node (encode_leaf es) = Ok (NLeaf es).
Proof.
  intros Hl. unfold parse_node, encode_leaf in *.
  rewrite (proj2 (decode_array_Ok _ _) (simple_decode _ (leaf_simple es) (leaf_depth es) Hl)).
  cbn [mbind result_bind]. unfold fields_uint, fields_array, read_field.
  cbn [next_field mbind result_bind as_uint as_array fields_end].
  change (LEAF_TAG =? LEAF_TAG) with true. cbv iota. by rewrite try_map_leaf.
Qed.

Lemma parse_encode_internal ch :
  Forall (fun c => wf_digest c.2) ch -> len (encode_internal ch) <= u64_max ->
  parse_node (encode_internal ch) = Ok (NInternal (map (fun c => (c.1, from_blake3_bytes (dbytes c.2))) ch)).
Proof.
  intros Hd Hl. unfold parse_node, encode_internal in *.
  rewrite (proj2 (decode_array_Ok _ _) (simple_decode _ (internal_simple ch) (internal_depth ch) Hl)).
  cbn [mbind result_bind]. unfold fields_uint, fields_array, read_field.
  cbn [next_field mbind result_bind as_uint as_array fields_end].
  change (INTERNAL_TAG =? LEAF_TAG) with false. change (INTERNAL_TAG =? INTERNAL_TAG) with true.
  cbv iota. by rewrite try_map_internal.
Qed.

(** The bytes a node stands for. *)
Definition node_value (n : Node) : Value :=
  match n with NLeaf es => leaf_value es | NInternal ch => internal_value ch end.

Definition wf_node (n : Node) : Prop :=
  match n with
  | NLeaf _ => True
  | NInternal ch => Forall (fun c => algo c.2 = Blake3 /\ wf_digest c.2) ch
  end.

Lemma parse_node_Ok b n : parse_node b = Ok n -> b = cbor_encode (node_value n) /\ wf_node n.
Proof.
  unfold parse_node, fields_uint, fields_array. intros (f & Hd%decode_array_Ok & H)%bind_Ok.
  apply bind_Ok in H as ([tag f'] & (v & -> & ->%as_uint_Ok)%read_field_Ok & H).
  apply bind_Ok in H as ([items f''] & (v' & -> & ->%as_array_Ok)%read_field_Ok & H).
  apply bind_Ok in H as ([] & ->%fields_end_Ok & H).
  apply decode_canonical in Hd as (He & _). unfold cbor_encode.
  destruct (N.eqb_spec tag LEAF_TAG) as [->|]; [|destruct (N.eqb_spec tag INTERNAL_TAG) as [->|]; [|done]];
    apply bind_Ok in H as (es & H & [= <-]); cbn [node_value wf_node].
  - apply (try_map_inv _ (fun e => Array [Bytes e.1; Bytes e.2]) (fun _ => True)) in H as [-> _];
      [|intros x e ->%leaf_item_Ok; done]. unfold leaf_value. by rewrite He.
  - apply (try_map_inv _ (fun c => Array [Bytes c.1; digest_value c.2])
             (fun c => algo c.2 = Blake3 /\ wf_digest c.2)) in H as [-> Hd];
      [|intros x c (-> & ?)%internal_item_Ok; done]. unfold internal_value. by rewrite He.
Qed.

Lemma parse_encode_node n :
  wf_node n -> len (cbor_encode (node_value n)) <= u64_max -> parse_node (cbor_encode (node_value n)) = Ok n.
Proof.
  destruct n as [es|ch]; cbn [wf_node node_value]; intros Hwf Hl; [by apply parse_encode_leaf|].
  assert (map (fun c => (c.1, from_blake3_bytes (dbytes c.2))) ch = ch) as Hid.
  { clear Hl. induction Hwf as [|[k [a b]] ch [Ha _] _ IH]; [done|]. simpl in *. subst a. by rewrite IH. }
  rewrite <-Hid at 2. apply parse_encode_internal; [|done].
  eapply Forall_impl; [exact Hwf|]. simpl. tauto.
Qed.

(** Prolly nodes have one byte form: for a node whose encoding fits in memory, exactly its
    encoding parses to it. *)
Theorem prolly_node_codec n b :
  wf_node n -> len (cbor_encode (node_value n)) <= u64_max ->
  parse_node b = Ok n <-> b = cbor_encode (node_value n).
Proof.
  intros Hwf Hl. split; [by intros [-> _]%parse_node_Ok|]. intros ->. by apply parse_encode_node.
Qed.

Lemma prolly_node_codec_witness : parse_node [x82; x00; x81; x82; x41; x61; x40] = Ok (NLeaf [([x61], [])]).
Proof. apply (prolly_node_codec (NLeaf [([x61], [])])); [done|by vm_compute|by vm_compute]. Defined.

(** ** Validation of node bytes on ingest *)

Lemma validate_leaf_item item : validate_item LEAF_TAG item = Ok () <-> exists e, leaf_item item = Ok e.
Proof.
  unfold validate_item, leaf_item. destruct (as_array item) as [ef|]; simpl; [|by naive_solver].
  unfold fields_bytes, read_field. destruct ef as [|v ef]; simpl; [by naive_solver|].
  destruct (as_bytes v); simpl; [|by naive_solver]. destruct ef as [|w ef]; simpl; [by naive_solver|].
  destruct (as_bytes w); simpl; [|by naive_solver]. destruct (fields_end ef) as [[]|]; simpl; naive_solver.
Qed.

Lemma validate_internal_item item :
  validate_item INTERNAL_TAG item = Ok () <-> exists c, internal_item item = Ok c.
Proof.
  unfold validate_item, internal_item. destruct (as_array item) as [ef|]; simpl; [|by naive_solver].
  unfold fields_bytes, fields_digest, read_field. destruct ef as [|v ef]; simpl; [by naive_solver|].
  destruct (as_bytes v); simpl; [|by naive_solver]. destruct ef as [|w ef]; simpl; [by naive_solver|].
  destruct (as_digest w); simpl; [|by naive_solver]. destruct (fields_end ef) as [[]|]; simpl; naive_solver.
Qed.

Lemma validate_other_item tag item :
  tag <> LEAF_TAG -> tag <> INTERNAL_TAG -> validate_item tag item <> Ok ().
Proof.
  intros H1%N.eqb_neq H2%N.eqb_neq. unfold validate_item. rewrite H1, H2. by destruct (as_array item).
Qed.

Lemma validate_items tag items :
  try_fold (fun _ item => validate_item tag item) () items = Ok ()
  <-> Forall (fun item => validate_item tag item = Ok ()) items.
Proof.
  induction items as [|item items IH]; simpl; [done|]. rewrite bind_Ok, Forall_cons.
  split; [|naive_solver]. intros ([] & H1 & H2). naive_solver.
Qed.

Lemma try_map_exists {A B} (f : A -> res B) l :
  (exists l', try_map f l = Ok l') <-> Forall (fun x => exists y, f x = Ok y) l.
Proof.
  split.
  - intros (l' & H%try_map_Ok). induction H; constructor; eauto.
  - induction 1 as [|x l (y & Hy) _ (l' & IH)]; [by exists []|]. exists (y :: l'). simpl. by rewrite Hy, IH.
Qed.

Definition empty_with_tag (tag : N) : Value := Array [Uint tag; Array []].

(** [validate_node_bytes] accepts the bytes that parse as a node and, besides them, exactly the
    encodings of an empty item list under an unknown node tag, which no reader accepts. *)
Theorem prolly_validate_node b :
  validate_node_bytes b = Ok () <->
  (exists n, parse_node b = Ok n)
  \/ (exists tag, tag <> LEAF_TAG /\ tag <> INTERNAL_TAG /\ decode b = Ok (empty_with_tag tag)).
Proof.
  unfold validate_node_bytes, parse_node, empty_with_tag.
  destruct (decode_array b) as [f|e] eqn:Ed; simpl.
  2: { split; [done|]. intros [[? [=]]|(tag & _ & _ & Hd)]. apply decode_array_Ok in Hd. congruence. }
  apply decode_array_Ok in Ed. unfold fields_uint, fields_array.
  destruct f as [|v f]; simpl; [rewrite Ed; naive_solver|].
  destruct v as [tag| | | | | | | |]; simpl; try (rewrite Ed; naive_solver).
  destruct f as [|v f]; simpl; [rewrite Ed; naive_solver|].
  destruct v as [| | | |items| | | |]; simpl; try (rewrite Ed; naive_solver).
  destruct f; simpl; [|rewrite Ed; naive_solver]. rewrite validate_items, Ed.
  destruct (N.eqb_spec tag LEAF_TAG) as [->|H1].
  { setoid_rewrite validate_leaf_item. rewrite <-try_map_exists.
    destruct (try_map leaf_item items); simpl; split; [naive_solver|naive_solver|naive_solver|].
    intros [[? [=]]|(tag & ? & ? & [= <-])]. done. }
  destruct (N.eqb_spec tag INTERNAL_TAG) as [->|H2].
  { setoid_rewrite validate_internal_item. rewrite <-try_map_exists.
    destruct (try_map internal_item items); simpl; split; [naive_solver|naive_solver|naive_solver|].
    intros [[? [=]]|(tag & ? & ? & [= <-])]. done. }
  destruct items as [|item items].
  - split; [|done]. intros _. right. by exists tag.
  - split; [intros [H _]%Forall_cons; by apply validate_other_item in H|].
    intros [[? [=]]|(tag' & _ & _ & [=])].
Qed.

End ProllyNode.
