(* ===== verification/ProllyTree.v ===== *)
(** * Prolly trees: the abstract tree

    A tree of entries, its representation in a store, and the shape the boundary rule gives an entry
    list: its leaves, the levels above them, and the root. *)

From S2P Require Import Prelude Codec Types Cbor Store Prolly ProllyNode.

Module ProllyTree.
Import Codec Cbor Digest Store Prolly ProllyNode.

#[warnings="-register-all"]
Inductive tree : Type :=
| Leaf (es : list Entry)
| Inode (cs : list (bytes * tree)).

Fixpoint tree_ind_nested (P : tree -> Prop) (Hleaf : forall es, P (Leaf es))
    (Hinode : forall cs, Forall (fun c => P c.2) cs -> P (Inode cs)) (t : tree) : P t :=
  match t with
  | Leaf es => Hleaf es
  | Inode cs =>
      Hinode cs
        ((fix go (cs : list (bytes * tree)) : Forall (fun c => P c.2) cs :=
            match cs with
            | [] => Forall_nil_2 _
            | c :: cs => Forall_cons_2 _ c cs (tree_ind_nested P Hleaf Hinode c.2) (go cs)
            end) cs)
  end.

Fixpoint flatten (t : tree) : list Entry :=
  match t with
  | Leaf es => es
  | Inode cs => concat (map (fun c => flatten c.2) cs)
  end.

Definition flatten_all (cs : list (bytes * tree)) : list Entry :=
  concat (map (fun c => flatten c.2) cs).

Fixpoint hgt (t : tree) : nat :=
  match t with
  | Leaf _ => O
  | Inode cs => S (max_list (map (fun c => hgt c.2) cs))
  end.

(** The map a tree stands for. *)
Definition tmap (es : list Entry) : gmap bytes bytes := list_to_map es.

(** Every child is filed under its greatest key. *)
Fixpoint keyed (t : tree) : Prop :=
  match t with
  | Leaf _ => True
  | Inode cs =>
      foldr (fun c P => (keyed c.2 /\ exists v, last (flatten c.2) = Some (c.1, v)) /\ P) True cs
  end.

Definition keyed_child (c : bytes * tree) : Prop :=
  keyed c.2 /\ exists v, last (flatten c.2) = Some (c.1, v).

Lemma keyed_Inode cs : keyed (Inode cs) <-> Forall keyed_child cs.
Proof.
  cbn [keyed]. induction cs as [|c cs IH]; simpl; [by split; [constructor|]|].
  rewrite IH, Forall_cons. done.
Qed.

(** ** Representation in a store *)

Section Repr.
Context `{hasher : Hasher} {S : Type} `{ops : !ObjectStore S}.

(** The node at [d] in [store] is the root of the tree [t]. *)
Fixpoint repr (store : S) (d : Digest) (t : tree) {struct t} : Prop :=
  match t with
  | Leaf es => read_node store d = Ok (NLeaf es)
  | Inode cs =>
      exists ch, read_node store d = Ok (NInternal ch)
      /\ (fix go (ch : ChildRun) (cs : list (bytes * tree)) {struct cs} : Prop :=
            match cs, ch with
            | [], [] => True
            | (k', t) :: cs, (k, d) :: ch => k = k' /\ repr store d t /\ go ch cs
            | _, _ => False
            end) ch cs
  end.

(** A child entry of the store stands for a child of the abstract tree. *)
Definition nrel (store : S) (c : Child) (n : bytes * tree) : Prop :=
  c.1 = n.1 /\ repr store c.2 n.2.

Lemma repr_Inode store d cs :
  repr store d (Inode cs) <->
  exists ch, read_node store d = Ok (NInternal ch) /\ Forall2 (nrel store) ch cs.
Proof.
  cbn [repr]. split; intros (ch & Hr & Hch); exists ch; (split; [done|]); clear Hr.
  - revert ch Hch. induction cs as [|[k' t] cs IH]; intros [|[k c] ch] Hch; try done; [].
    destruct Hch as (-> & Hc & Hch). constructor; [done|]. by apply IH.
  - induction Hch as [|[k c] [k' t] ch cs [Hk Hc] _ IH]; [done|]. simpl in *. done.
Qed.

(** A node stands for one tree. *)
Lemma repr_functional store d t1 t2 : repr store d t1 -> repr store d t2 -> t1 = t2.
Proof.
  revert d t2. induction t1 as [es|cs IH] using tree_ind_nested; intros d [es'|cs'].
  - simpl. congruence.
  - intros H1 (ch & H2 & _)%repr_Inode. simpl in H1. congruence.
  - intros (ch & H1 & _)%repr_Inode H2. simpl in H2. congruence.
  - intros (ch & H1 & Hch)%repr_Inode (ch' & H2 & Hch')%repr_Inode. f_equal.
    assert (ch' = ch) as -> by congruence. clear H1 H2. revert cs' Hch'.
    induction Hch as [|c [k t] ch cs [Hk Hc] _ IHch]; intros cs' Hch'; inversion Hch' as [|? [k' t'] ? cs'' [Hk' Hc']]; subst; [done|].
    apply Forall_cons in IH as [Ht IH]. simpl in *. f_equal; [|by apply IHch].
    rewrite (Ht c.2 t') by done. congruence.
Qed.

(** [s'] still holds every object of [s], under the same algorithm. *)
Definition extends (s s' : S) : Prop :=
  digest_algo s' = digest_algo s
  /\ forall d b, get s d = Ok (Some b) -> get s' d = Ok (Some b).

#[global] Instance extends_preorder : PreOrder extends.
Proof. split; [by intros s|]. intros s1 s2 s3 [H1 H2] [H3 H4]. split; [congruence|auto]. Qed.

Lemma read_node_Ok s d n :
  read_node s d = Ok n <-> exists b, get s d = Ok (Some b) /\ parse_node b = Ok n.
Proof.
  unfold read_node. split.
  - intros (o & Hg & (b & ->%ok_or_Ok & Hp)%bind_Ok)%bind_Ok. eauto.
  - intros (b & Hg & Hp). by rewrite Hg.
Qed.

Lemma read_node_mono s s' d n : extends s s' -> read_node s d = Ok n -> read_node s' d = Ok n.
Proof. intros [_ He]. rewrite !read_node_Ok. intros (b & Hg & Hp). eauto. Qed.

Lemma repr_mono s s' d t : extends s s' -> repr s d t -> repr s' d t.
Proof.
  intros He. revert d. induction t as [es|cs IH] using tree_ind_nested; intros d.
  - simpl. by apply read_node_mono.
  - rewrite !repr_Inode. intros (ch & Hr & Hch). exists ch. split; [by eapply read_node_mono|].
    clear Hr. induction Hch as [|c n ch cs [Hk Hc] _ IHch]; [constructor|].
    apply Forall_cons in IH as [Hn IH]. constructor; [|by apply IHch]. split; [done|by apply Hn].
Qed.

Lemma nrel_mono s s' ch cs : extends s s' -> Forall2 (nrel s) ch cs -> Forall2 (nrel s') ch cs.
Proof. intros He H. eapply Forall2_impl; [exact H|]. intros c n [Hk Hr]. split; [done|by eapply repr_mono]. Qed.

(** ** Addresses *)

(** The bytes and the address of a tree's root under an algorithm. *)
Fixpoint enc (a : Algo) (t : tree) : bytes :=
  match t with
  | Leaf es => encode_leaf es
  | Inode cs => encode_internal (map (fun c => (c.1, mkDigest a (raw_hash a (enc a c.2)))) cs)
  end.

Definition dig (a : Algo) (t : tree) : bytes := raw_hash a (enc a t).

Lemma encode_internal_ext ch1 ch2 :
  Forall2 (fun c1 c2 => c1.1 = c2.1 /\ c1.2 ≡ c2.2) ch1 ch2 -> encode_internal ch1 = encode_internal ch2.
Proof.
  intros Hch. unfold encode_internal, internal_value.
  assert (map (fun c => Array [Bytes c.1; digest_value c.2]) ch1
          = map (fun c => Array [Bytes c.1; digest_value c.2]) ch2) as Hm; [|by rewrite Hm].
  induction Hch as [|c1 c2 ch1 ch2 [Hk Hd] _ IH]; [done|]. cbn [map].
  rewrite IH, Hk. unfold digest_value at 1 3. by rewrite Hd.
Qed.
End Repr.

Section Laws.
Context `{hasher : Hasher} {S : Type} `{ops : !ObjectStore S} {U : bytes -> Prop} {ok : S -> Prop}
  `{laws : !StoreLaws S U ok}.

(** In a sound store the address of a node determines the tree below it and conversely. *)
Lemma repr_dig s d t : ok s -> repr s d t -> dbytes d = dig (digest_algo s) t.
Proof.
  intros Hok. revert d. induction t as [es|cs IH] using tree_ind_nested; intros d.
  - simpl. intros (b & Hg & [-> _]%parse_node_Ok)%read_node_Ok. by apply get_integrity in Hg.
  - intros (ch & (b & Hg & [-> _]%parse_node_Ok)%read_node_Ok & Hch)%repr_Inode.
    apply get_integrity in Hg; [|done]. rewrite Hg. unfold dig. cbn [enc node_value]. f_equal.
    apply encode_internal_ext. clear Hg.
    induction Hch as [|c [k t] ch cs [Hk Hc] _ IHch]; [constructor|].
    apply Forall_cons in IH as [Ht IH]. constructor; [|by apply IHch]. split; [done|].
    unfold equiv, digest_equiv. simpl. by apply Ht.
Qed.

Lemma repr_proper s d1 d2 t : d1 ≡ d2 -> repr s d1 t -> repr s d2 t.
Proof.
  intros Hd. assert (read_node s d1 = read_node s d2) as Hr.
  { unfold read_node. by rewrite (get_proper s d1 d2 Hd). }
  destruct t as [es|cs]; [simpl; congruence|]. rewrite !repr_Inode. by rewrite Hr.
Qed.

Lemma put_leaf s es :
  ok s -> U (encode_leaf es) ->
  exists d s', put s (encode_leaf es) = Ok (d, s') /\ ok s' /\ extends s s' /\ repr s' d (Leaf es).
Proof.
  intros Hok HU. destruct (put_stores s _ Hok HU) as (d & s' & Hput & Hok' & Ha & Hg & Hk).
  exists d, s'. split_and!; try done. simpl. apply read_node_Ok. eexists. split; [exact Hg|].
  apply parse_encode_leaf. by eapply universe_len.
Qed.

Lemma put_internal s ch cs :
  ok s -> Forall2 (nrel s) ch cs -> U (enc (digest_algo s) (Inode cs)) ->
  exists d s', put s (encode_internal ch) = Ok (d, s') /\ ok s' /\ extends s s' /\ repr s' d (Inode cs).
Proof.
  intros Hok Hch HU.
  assert (Forall (fun c => wf_digest c.2) ch) as Hwf.
  { clear HU. induction Hch as [|c n ch cs [_ Hr] _ IH]; constructor; [|done]. unfold wf_digest.
    rewrite (repr_dig s _ _ Hok Hr). apply raw_hash_len. }
  assert (encode_internal ch = enc (digest_algo s) (Inode cs)) as He.
  { cbn [enc]. apply encode_internal_ext. clear HU Hwf. induction Hch as [|c n ch cs [Hk Hr] _ IH];
      constructor; [|done]. split; [done|]. by apply (repr_dig s). }
  rewrite <-He in HU. destruct (put_stores s _ Hok HU) as (d & s' & Hput & Hok' & Ha & Hg & Hk).
  assert (extends s s') as Hext by done.
  exists d, s'. split_and!; try done. apply repr_Inode. eexists. split.
  - apply read_node_Ok. eexists. split; [exact Hg|].
    apply parse_encode_internal; [done|]. by eapply universe_len.
  - clear -Hch Hext laws. induction Hch as [|c n ch cs [Hc Hr] _ IH]; constructor; [|done].
    split; [done|]. eapply repr_proper; [|by eapply repr_mono]. done.
Qed.
End Laws.

End ProllyTree.
