(* ===== verification/ProllyRead.v ===== *)
(** * Prolly trees: point lookups and scans

    On a tree whose children are filed under their greatest key, reads give what the sorted entry
    list gives. *)

From S2P Require Import Prelude Codec Types Cbor Store Prolly ProllyNode ProllyTree.

Module ProllyRead.
Import Codec Cbor Digest Store Prolly ProllyNode ProllyTree.

(** ** Prefix ranges *)

Lemma upper_bound_snoc p b :
  upper_bound (p ++ [b]) = if Byte.to_N b <? 255 then Some (p ++ [as_u8 (Byte.to_N b + 1)]) else upper_bound p.
Proof.
  unfold upper_bound. rewrite reverse_snoc. cbn [upper_bound_rev].
  destruct (Byte.to_N b <? 255); [|done]. by rewrite reverse_cons, reverse_involutive.
Qed.

Lemma bytes_between_app q x y k :
  q ++ x <=b k -> k <b q ++ y -> exists z, k = q ++ z /\ x <=b z /\ z <b y.
Proof.
  revert k. induction q as [|b q IH]; intros k; [simpl; eauto|].
  destruct k as [|c k]; [intros H; by exfalso; apply H|]. unfold bytes_le, bytes_lt. simpl.
  destruct (N.compare_spec (Byte.to_N c) (Byte.to_N b)) as [E|E|E]; [|done|].
  - apply to_N_inj in E as ->. intros H1 H2.
    destruct (IH k H1 H2) as (z & -> & ? & ?). by exists z.
  - intros _. done.
Qed.

Lemma bytes_le_head b z : [b] <=b z -> exists c r, z = c :: r /\ Byte.to_N b <= Byte.to_N c.
Proof.
  destruct z as [|c r]; [intros H; by exfalso; apply H|]. intros H. exists c, r. split; [done|].
  unfold bytes_le, bytes_lt in H. simpl in H. destruct (N.compare_spec (Byte.to_N c) (Byte.to_N b)); [lia|done|lia].
Qed.

Lemma bytes_lt_head z b : z <b [b] -> z = [] \/ exists c r, z = c :: r /\ Byte.to_N c < Byte.to_N b.
Proof.
  destruct z as [|c r]; [by left|]. right. exists c, r. split; [done|]. unfold bytes_lt in *. simpl in *.
  destruct (N.compare_spec (Byte.to_N c) (Byte.to_N b)); [by destruct r|done|done].
Qed.

Lemma bytes_le_app_r q x y : q ++ x <=b q ++ y <-> x <=b y.
Proof. unfold bytes_le. by rewrite bytes_lt_app. Qed.

(** The keys with a prefix are the keys from the prefix up to its upper bound. *)
Lemma starts_with_range p k :
  starts_with k p = true <-> p <=b k /\ forall u, upper_bound p = Some u -> k <b u.
Proof.
  rewrite starts_with_app. revert k. induction p as [|b p IH] using rev_ind; intros k.
  { split; [|by exists k]. intros _. split; [apply bytes_nil_le|done]. }
  rewrite upper_bound_snoc. destruct (N.ltb_spec (Byte.to_N b) 255) as [Hb|Hb].
  - assert (Byte.to_N (as_u8 (Byte.to_N b + 1)) = Byte.to_N b + 1) as Hs by (apply as_u8_small; lia).
    split.
    + intros (r & ->). rewrite <-app_assoc. split; [by apply bytes_le_app_r; destruct r; apply bytes_le_lt; [left|right; unfold bytes_lt; simpl; rewrite N.compare_refl]|].
      intros u [= <-]. apply bytes_lt_app. unfold bytes_lt. simpl. rewrite Hs.
      by rewrite (proj2 (N.compare_lt_iff _ _)) by lia.
    + intros [H1 H2]. specialize (H2 _ eq_refl).
      destruct (bytes_between_app _ _ _ _ H1 H2) as (z & -> & (c & r & -> & Hc)%bytes_le_head & Hz).
      apply bytes_lt_head in Hz as [|(c' & r' & [= <- <-] & Hc')]; [done|]. rewrite Hs in Hc'.
      assert (c = b) as -> by (apply to_N_inj; lia). exists r. by rewrite <-app_assoc.
  - split.
    + intros (r & ->). rewrite <-app_assoc. split; [|apply IH; eauto].
      apply bytes_le_app_r. destruct r; apply bytes_le_lt; [by left|right; unfold bytes_lt; simpl; by rewrite N.compare_refl].
    + intros [H1 H2]. destruct (proj2 (IH k)) as (z & ->).
      { split; [|done]. etrans; [|exact H1]. rewrite <-(app_nil_r p) at 1. apply bytes_le_app_r, bytes_nil_le. }
      apply bytes_le_app_r, bytes_le_head in H1 as (c & r & -> & Hc). pose proof (to_N_lt c).
      assert (c = b) as -> by (apply to_N_inj; pose proof (to_N_lt b); lia). exists r. by rewrite <-app_assoc.
Qed.

(** ** Positions among children *)

Lemma position_Some {A} key (cs : list (bytes * A)) i :
  position key cs = Some i ->
  exists cs1 c cs2, cs = cs1 ++ c :: cs2 /\ length cs1 = i
  /\ Forall (fun c => c.1 <b key) cs1 /\ key <=b c.1.
Proof.
  revert i. induction cs as [|c cs IH]; simpl; intros i; [done|].
  destruct (bytes_leb_spec key c.1) as [H|H].
  - intros [= <-]. by exists [], c, cs.
  - destruct (position key cs) as [j|]; simpl; [|done]. intros [= <-].
    destruct (IH j eq_refl) as (cs1 & c' & cs2 & -> & <- & Hlt & Hle).
    exists (c :: cs1), c', cs2. split_and!; try done. constructor; [|done].
    by destruct (bytes_lt_trichotomy key c.1) as [?|[?|?]]; [exfalso; apply H, bytes_le_lt; auto..|].
Qed.

Lemma position_None {A} key (cs : list (bytes * A)) :
  position key cs = None -> Forall (fun c => c.1 <b key) cs.
Proof.
  induction cs as [|c cs IH]; simpl; [constructor|].
  destruct (bytes_leb_spec key c.1) as [H|H]; [done|].
  destruct (position key cs); [done|]. intros _. constructor; [|by apply IH].
  by destruct (bytes_lt_trichotomy key c.1) as [?|[?|?]]; [exfalso; apply H, bytes_le_lt; auto..|].
Qed.

Lemma position_ext {A B} key (cs : list (bytes * A)) (ds : list (bytes * B)) :
  map fst cs = map fst ds -> position key cs = position key ds.
Proof.
  revert ds. induction cs as [|c cs IH]; intros [|d ds]; simpl; try done. intros [= -> H]. by rewrite (IH ds).
Qed.

(** ** Sorted entry lists *)

Lemma sorted_last_max (l : list Entry) k v e :
  sorted_by fst l -> last l = Some (k, v) -> e ∈ l -> e.1 <=b k.
Proof.
  intros Hs Hl He. apply last_Some in Hl as (l' & ->). apply sorted_by_app in Hs as (_ & _ & H).
  apply elem_of_app in He as [He| ->%list_elem_of_singleton]; [|done].
  apply bytes_le_lt. right. apply (H e (k, v)); [done|]. by apply list_elem_of_singleton.
Qed.

Lemma sorted_flatten_child cs1 c cs2 :
  sorted_by fst (flatten_all (cs1 ++ c :: cs2)) -> sorted_by fst (flatten c.2).
Proof.
  unfold flatten_all. rewrite map_app, concat_app. simpl. intros (_ & H & _)%sorted_by_app.
  by apply sorted_by_app in H as (H & _).
Qed.

Lemma flatten_all_app cs1 cs2 : flatten_all (cs1 ++ cs2) = flatten_all cs1 ++ flatten_all cs2.
Proof. unfold flatten_all. by rewrite map_app, concat_app. Qed.

Lemma flatten_all_cons c cs : flatten_all (c :: cs) = flatten c.2 ++ flatten_all cs.
Proof. done. Qed.

Lemma flatten_all_single c : flatten_all [c] = flatten c.2.
Proof. rewrite flatten_all_cons. apply app_nil_r. Qed.

Lemma elem_of_flatten_all e cs : e ∈ flatten_all cs <-> exists c, c ∈ cs /\ e ∈ flatten c.2.
Proof.
  induction cs as [|c cs IH]; [set_solver|]. rewrite flatten_all_cons, elem_of_app, IH. set_solver.
Qed.

(** Children filed below a key hold only smaller keys. *)
Lemma flatten_all_below cs key :
  Forall keyed_child cs -> sorted_by fst (flatten_all cs) -> Forall (fun c => c.1 <b key) cs ->
  Forall (fun e => e.1 <b key) (flatten_all cs).
Proof.
  intros Hk Hs Hlt. apply Forall_forall. intros e (c & Hc & He)%elem_of_flatten_all.
  rewrite Forall_forall in Hk. rewrite Forall_forall in Hlt. destruct (Hk c Hc) as [_ [v Hv]].
  apply list_elem_of_split in Hc as (cs1 & cs2 & ->). apply (bytes_le_lt_trans _ c.1); [|apply Hlt; set_solver].
  eapply sorted_last_max; [|done..]. by eapply sorted_flatten_child.
Qed.

(** Entries after a child are above the key it is filed under. *)
Lemma flatten_all_above cs1 c cs2 :
  keyed_child c -> sorted_by fst (flatten_all (cs1 ++ c :: cs2)) ->
  Forall (fun e => c.1 <b e.1) (flatten_all cs2).
Proof.
  intros [_ [v Hv]]. rewrite flatten_all_app, flatten_all_cons. intros (_ & H & _)%sorted_by_app.
  apply sorted_by_app in H as (_ & _ & H). apply Forall_forall. intros e He.
  apply (H (c.1, v) e); [by apply last_Some_elem_of|done].
Qed.

Lemma tmap_app l1 l2 : tmap (l1 ++ l2) = tmap l1 ∪ tmap l2.
Proof. apply list_to_map_app. Qed.

Lemma tmap_None l k : Forall (fun e => e.1 <> k) l -> tmap l !! k = None.
Proof.
  intros H. apply not_elem_of_list_to_map_1. intros (e & -> & He)%list_elem_of_fmap.
  rewrite Forall_forall in H. by apply (H e He).
Qed.

Lemma tmap_below l k : Forall (fun e => e.1 <b k) l -> tmap l !! k = None.
Proof.
  intros H. apply tmap_None. eapply Forall_impl; [exact H|]. simpl. intros e He E. rewrite E in He.
  by eapply bytes_lt_irrefl.
Qed.

Lemma tmap_above l k : Forall (fun e => k <b e.1) l -> tmap l !! k = None.
Proof.
  intros H. apply tmap_None. eapply Forall_impl; [exact H|]. simpl. intros e He E. rewrite E in He.
  by eapply bytes_lt_irrefl.
Qed.

Lemma tmap_mid l1 l2 l3 k :
  tmap l1 !! k = None -> tmap l3 !! k = None -> tmap (l1 ++ l2 ++ l3) !! k = tmap l2 !! k.
Proof.
  intros H1 H3. rewrite !tmap_app, lookup_union_r by done.
  destruct (tmap l2 !! k) as [v|] eqn:E.
  - by apply lookup_union_Some_l.
  - by apply lookup_union_None.
Qed.

Lemma hgt_child cs c n : (hgt (Inode cs) < S n)%nat -> c ∈ cs -> (hgt c.2 < n)%nat.
Proof.
  cbn [hgt]. intros H Hc.
  assert (hgt c.2 <= max_list (map (fun c => hgt c.2) cs))%nat; [|lia].
  clear H. unfold max_list. induction cs as [|c' cs IH]; [set_solver|]. simpl in *.
  apply elem_of_cons in Hc as [->|Hc]; [lia|]. specialize (IH Hc). lia.
Qed.

Section Reads.
Context `{hasher : Hasher} {S : Type} `{ops : !ObjectStore S}.
Implicit Types (s : S) (t : tree) (d : Digest).

Lemma nrel_keys s ch cs : Forall2 (nrel s) ch cs -> map fst ch = map fst cs.
Proof. induction 1 as [|c n ch cs [Hk _] _ IH]; simpl; congruence. Qed.

(** ** Point lookup *)

Lemma get_loop_spec s t n d key :
  repr s d t -> keyed t -> sorted_by fst (flatten t) -> (hgt t < n)%nat ->
  get_loop n s d key = Ok (tmap (flatten t) !! key).
Proof.
  revert n d. induction t as [es|cs IH] using tree_ind_nested; intros n d Hr Hk Hs Hn;
    (destruct n as [|n]; [lia|]); cbn [get_loop].
  - simpl in Hr. rewrite Hr. simpl. f_equal. simpl in Hs.
    destruct (binary_search es key) as [i|i] eqn:E.
    + apply binary_search_Ok in E as [v He]; [|done].
      assert (es !! i = Some (key, v)) as ->.
      { rewrite He. apply list_lookup_middle. rewrite length_take.
        apply (f_equal length) in He. rewrite length_app in He. simpl in He.
        rewrite length_take, length_drop in He. lia. }
      simpl. symmetry. apply elem_of_list_to_map_1; [by apply sorted_by_NoDup|].
      rewrite He. set_solver.
    + apply binary_search_Err in E as (_ & H1 & H2); [|done].
      rewrite <-(take_drop i es). rewrite tmap_app, (proj2 (lookup_union_None _ _ _)); [done|].
      split; [by apply tmap_below|by apply tmap_above].
  - apply repr_Inode in Hr as (ch & Hr & Hch). rewrite Hr. cbn [mbind result_bind].
    apply keyed_Inode in Hk. change (flatten (Inode cs)) with (flatten_all cs) in *.
    rewrite (position_ext key ch cs) by by eapply nrel_keys.
    destruct (position key cs) as [i|] eqn:E.
    + apply position_Some in E as (cs1 & c & cs2 & -> & <- & Hlt & Hle).
      apply Forall2_app_inv_r in Hch as (ch1 & ch' & H1 & H2 & ->).
      inversion H2 as [|[k dc] ? ch2 ? [Hck Hc] Hch2]; subst. simpl in Hc.
      rewrite list_lookup_middle by (symmetry; by eapply Forall2_length).
      cbn [ok_or mbind result_bind snd].
      rewrite Forall_app, Forall_cons in IH, Hk. destruct IH as (_ & IHc & _), Hk as (Hk1 & Hkc & _).
      rewrite (IHc n dc); [|done|by apply Hkc|by eapply sorted_flatten_child|by apply (hgt_child (cs1 ++ c :: cs2)); [|set_solver]].
      f_equal. pose proof (flatten_all_above _ _ _ Hkc Hs) as Habove.
      rewrite flatten_all_app, flatten_all_cons in Hs |- *. symmetry. apply tmap_mid.
      * apply tmap_below, flatten_all_below; [done| |done]. by apply sorted_by_app in Hs as (? & _).
      * apply tmap_above. eapply Forall_impl; [exact Habove|]. simpl. intros e He.
        by eapply bytes_le_lt_trans.
    + f_equal. symmetry. apply position_None in E. by apply tmap_below, flatten_all_below.
Qed.

(** ** Full scan *)

Lemma collect_entries_spec s t n d out :
  repr s d t -> (hgt t < n)%nat -> collect_entries n s d out = Ok (out ++ flatten t).
Proof.
  revert n d out. induction t as [es|cs IH] using tree_ind_nested; intros n d out Hr Hn;
    (destruct n as [|n]; [lia|]); cbn [collect_entries].
  - simpl in Hr. by rewrite Hr.
  - apply repr_Inode in Hr as (ch & Hr & Hch). rewrite Hr. simpl. clear Hr.
    assert (forall c, c ∈ cs -> (hgt c.2 < n)%nat) as Hc by (intros c; by apply hgt_child).
    clear Hn. revert out. induction Hch as [|c m ch cs [Hk Hm] _ IHch]; intros out; simpl; [by rewrite app_nil_r|].
    apply Forall_cons in IH as [Ht IH]. rewrite (Ht n); [|done|apply Hc; left]. simpl.
    rewrite IHch; [by rewrite app_assoc|done|]. intros c' Hc'. apply Hc. by right.
Qed.

(** ** Prefix scan *)

Lemma filter_none prefix (l : list Entry) :
  Forall (fun e => starts_with e.1 prefix <> true) l -> filter (fun e => starts_with e.1 prefix = true) l = [].
Proof. induction 1 as [|e l He _ IH]; [done|]. by rewrite filter_cons_False. Qed.

Lemma prefix_children_spec s n prefix ch cs out :
  Forall (fun c => forall d out, repr s d c.2 -> keyed c.2 -> sorted_by fst (flatten c.2) ->
    (hgt c.2 < n)%nat -> collect_prefix n s prefix (upper_bound prefix) d out
    = Ok (out ++ filter (fun e => starts_with e.1 prefix = true) (flatten c.2))) cs ->
  Forall2 (nrel s) ch cs -> Forall keyed_child cs -> sorted_by fst (flatten_all cs) ->
  (forall c, c ∈ cs -> (hgt c.2 < n)%nat) ->
  prefix_children (collect_prefix n s prefix (upper_bound prefix)) prefix (upper_bound prefix) out ch
  = Ok (out ++ filter (fun e => starts_with e.1 prefix = true) (flatten_all cs)).
Proof.
  intros IH Hch. revert out. induction Hch as [|c m ch cs [Hk Hm] _ IHch]; intros out Hkc Hs Hh; simpl.
  { by rewrite app_nil_r. }
  apply Forall_cons in IH as [Ht IH]. apply Forall_cons in Hkc as [Hkm Hkc].
  pose proof (sorted_flatten_child [] m cs Hs) as Hsm.
  pose proof (flatten_all_above [] m cs Hkm Hs) as Habove.
  rewrite flatten_all_cons in Hs |- *. apply sorted_by_app in Hs as (_ & Hs & _).
  assert (forall c', c' ∈ cs -> (hgt c'.2 < n)%nat) as Hh' by (intros c' ?; apply Hh; by right).
  rewrite filter_app, Hk. destruct (bytes_ltb_spec m.1 prefix) as [Hlt|Hge].
  - rewrite (filter_none prefix (flatten m.2)); [by apply IHch|]. apply Forall_forall.
    intros e He [Hpre _]%starts_with_range. destruct Hkm as [_ [v Hv]]. apply Hpre.
    eapply bytes_le_lt_trans; [|exact Hlt]. by eapply sorted_last_max.
  - rewrite Ht; [|done|by apply Hkm|done|apply Hh; left]. simpl.
    destruct (upper_bound prefix) as [u|] eqn:Eu; [|rewrite app_assoc; by apply IHch].
    destruct (bytes_leb_spec u m.1) as [Hle|Hgt]; [|rewrite app_assoc; by apply IHch].
    rewrite (filter_none prefix (flatten_all cs)); [by rewrite app_nil_r|].
    eapply Forall_impl; [exact Habove|]. simpl. intros e He [_ Hup]%starts_with_range.
    specialize (Hup u Eu). apply Hle. by etrans.
Qed.

Lemma collect_prefix_spec s t n prefix d out :
  repr s d t -> keyed t -> sorted_by fst (flatten t) -> (hgt t < n)%nat ->
  collect_prefix n s prefix (upper_bound prefix) d out
  = Ok (out ++ filter (fun e => starts_with e.1 prefix = true) (flatten t)).
Proof.
  revert n d out. induction t as [es|cs IH] using tree_ind_nested; intros n d out Hr Hk Hs Hn;
    (destruct n as [|n]; [lia|]); cbn [collect_prefix].
  - simpl in Hr. by rewrite Hr.
  - apply repr_Inode in Hr as (ch & Hr & Hch). rewrite Hr. simpl. apply keyed_Inode in Hk.
    apply prefix_children_spec; try done.
    + eapply Forall_impl; [exact IH|]. simpl. intros c Hc d' out' ????. by apply Hc.
    + intros c. by apply hgt_child.
Qed.
End Reads.

End ProllyRead.
