(* ===== verification/ProllyShape.v ===== *)
(** * Prolly trees: the shape the boundary rule gives

    Cutting a list after its boundary items, the levels of a tree over a sorted entry list, and the
    lemmas that make a local edit agree with building from scratch: cutting is local, so a segment
    that ends in a boundary of every level up to [i] can be treated on its own up to level [i]. *)

From S2P Require Import Prelude Codec Types Cbor Store Prolly ProllyNode ProllyTree ProllyRead.

Module ProllyShape.
Import Codec Cbor Digest Store Prolly ProllyNode ProllyTree ProllyRead.

(** ** Cutting after boundaries *)

Section Chunks.
Context {A : Type} (b : A -> bool).

Fixpoint chunks (run l : list A) : list (list A) :=
  match l with
  | [] => match run with [] => [] | _ => [run] end
  | x :: l => if b x then (run ++ [x]) :: chunks [] l else chunks (run ++ [x]) l
  end.

(** The list is empty or ends in a boundary. *)
Definition ends (l : list A) : Prop := forall x, last l = Some x -> b x = true.

Lemma chunks_concat run l : concat (chunks run l) = run ++ l.
Proof.
  revert run. induction l as [|x l IH]; intros run; simpl.
  - destruct run; simpl; by rewrite ?app_nil_r.
  - destruct (b x); simpl; rewrite IH; simpl; by rewrite <-app_assoc.
Qed.

Lemma chunks_nonempty run l : Forall (fun r => r <> []) (chunks run l).
Proof.
  revert run. induction l as [|x l IH]; intros run; simpl.
  - destruct run; by repeat constructor.
  - destruct (b x); [constructor; [by destruct run|]|]; apply IH.
Qed.

Lemma chunks_app_ends run l1 l2 :
  ends l1 -> (l1 = [] -> run = []) -> chunks run (l1 ++ l2) = chunks run l1 ++ chunks [] l2.
Proof.
  revert run. induction l1 as [|x l1 IH]; intros run He Hr; simpl; [by rewrite Hr|].
  assert (ends l1) as He'.
  { intros y Hy. apply He. rewrite last_cons, Hy. done. }
  destruct (b x) eqn:E; simpl.
  - f_equal. by apply IH.
  - apply IH; [done|]. intros ->. specialize (He x eq_refl). congruence.
Qed.

Lemma chunks_app l1 l2 : ends l1 -> chunks [] (l1 ++ l2) = chunks [] l1 ++ chunks [] l2.
Proof. intros. by apply chunks_app_ends. Qed.

(** A piece that is not the last ends in a boundary and is cut the same on its own. *)
Lemma chunks_split run l r rs :
  chunks run l = r :: rs -> rs <> [] ->
  exists l1 l2, l = l1 ++ l2 /\ r = run ++ l1 /\ l1 <> [] /\ ends l1 /\ rs = chunks [] l2
  /\ chunks run l1 = [r].
Proof.
  revert run. induction l as [|x l IH]; intros run; simpl.
  - destruct run; [done|]. intros [= <- <-]. done.
  - destruct (b x) eqn:E.
    + intros [= <- <-] Hrs. exists [x], l. split_and!; try done; simpl; [|by rewrite E].
      intros y [= <-]. done.
    + intros H Hrs. destruct (IH _ H Hrs) as (l1 & l2 & -> & -> & Hne & He & -> & Hc).
      exists (x :: l1), l2. split_and!; try done; simpl; [by rewrite <-app_assoc| |by rewrite E].
      intros y Hy. apply He. rewrite last_cons in Hy. by destruct (last l1) eqn:El; [|by destruct l1; simpl in *; [|rewrite last_cons in El; destruct (last l1)]].
Qed.

Lemma chunks_app_inv l rs1 rs2 :
  chunks [] l = rs1 ++ rs2 -> rs2 <> [] ->
  ends (concat rs1) /\ chunks [] (concat rs1) = rs1 /\ chunks [] (concat rs2) = rs2.
Proof.
  revert l. induction rs1 as [|r rs1 IH]; intros l H Hne; simpl in *.
  - split_and!; [by intros x|done|]. by rewrite <-H, chunks_concat.
  - apply chunks_split in H as (l1 & l2 & -> & -> & Hl1 & He & Hrs & Hc); [|by destruct rs1; destruct rs2].
    symmetry in Hrs. destruct (IH l2 Hrs Hne) as (He' & Hc' & Hc2). simpl in *.
    split_and!; [|by rewrite chunks_app, Hc, Hc'|done].
    intros x Hx. rewrite last_app in Hx. destruct (last (concat rs1)) eqn:El; [|by apply He].
    injection Hx as ->. by apply He'.
Qed.

Lemma chunks_singleton l : l <> [] -> (length l <= 1)%nat -> chunks [] l = [l].
Proof. destruct l as [|x [|]]; simpl; [done| |lia]. by destruct (b x). Qed.
End Chunks.

(** ** The levels over an entry list *)

Section Shape.
Context `{hasher : Hasher}.

Definition leaf_node (r : list Entry) : bytes * tree := (max_key r, Leaf r).
Definition inode (r : list (bytes * tree)) : bytes * tree := (max_key r, Inode r).

Definition cut {A} (level : N) (x : bytes * A) : bool := is_boundary x.1 level.

Definition leaf_nodes (es : list Entry) : list (bytes * tree) := map leaf_node (chunks (cut 0) [] es).

Definition inodes (level : N) (ns : list (bytes * tree)) : list (bytes * tree) :=
  map inode (chunks (cut level) [] ns).

(** The nodes at level [i] of the tree over [es]. *)
Fixpoint tower (i : nat) (es : list Entry) : list (bytes * tree) :=
  match i with
  | O => leaf_nodes es
  | S j => inodes (N.of_nat i) (tower j es)
  end.

(** The last key of [es] is a boundary at every level up to [i]. *)
Definition closed (i : nat) (es : list Entry) : Prop :=
  forall e, last es = Some e -> forall j, (j <= i)%nat -> is_boundary e.1 (N.of_nat j) = true.

Lemma flatten_all_inode rs : flatten_all (map inode rs) = flatten_all (concat rs).
Proof.
  induction rs as [|r rs IH]; [done|]. cbn [map concat]. by rewrite flatten_all_cons, flatten_all_app, IH.
Qed.

Lemma flatten_all_leaf rs : flatten_all (map leaf_node rs) = concat rs.
Proof. induction rs as [|r rs IH]; [done|]. cbn [map concat]. by rewrite flatten_all_cons, IH. Qed.

Lemma flatten_inodes level ns : flatten_all (inodes level ns) = flatten_all ns.
Proof. unfold inodes. by rewrite flatten_all_inode, chunks_concat. Qed.

Lemma flatten_leaf_nodes es : flatten_all (leaf_nodes es) = es.
Proof. unfold leaf_nodes. by rewrite flatten_all_leaf, chunks_concat. Qed.

Lemma flatten_tower i es : flatten_all (tower i es) = es.
Proof. induction i as [|i IH]; simpl; [apply flatten_leaf_nodes|]. by rewrite flatten_inodes. Qed.

(** Every node of a level is filed under its greatest key. *)
Lemma keyed_leaf_nodes es : Forall keyed_child (leaf_nodes es).
Proof.
  unfold leaf_nodes. apply Forall_map. eapply Forall_impl; [apply chunks_nonempty|]. simpl.
  intros r Hr. split; [done|]. simpl. unfold max_key. destruct (last r) as [[k v]|] eqn:E; [by exists v|].
  by apply last_None in E.
Qed.

Lemma flatten_all_last cs c v :
  last cs = Some c -> last (flatten c.2) = Some v -> last (flatten_all cs) = Some v.
Proof.
  intros (cs' & ->)%last_Some Hv. rewrite flatten_all_app, flatten_all_cons, app_nil_r, last_app, Hv. done.
Qed.

Lemma keyed_inodes level ns : Forall keyed_child ns -> Forall keyed_child (inodes level ns).
Proof.
  intros Hns. unfold inodes. apply Forall_map.
  rewrite <-(chunks_concat (cut level) [] ns) in Hns at 1. simpl in Hns.
  pose proof (chunks_nonempty (cut level) [] ns) as Hne. revert Hne Hns.
  induction (chunks (cut level) [] ns) as [|r rs IH]; [constructor|].
  intros [Hr Hrs]%Forall_cons [Hkr Hkrs]%Forall_app. constructor; [|by apply IH].
  simpl. split; [by apply keyed_Inode|]. simpl. unfold max_key.
  destruct (last r) as [c|] eqn:E; [|by apply last_None in E].
  pose proof E as (r' & ->)%last_Some. apply Forall_app in Hkr as [_ [[_ (v & Hv)] _]%Forall_cons].
  exists v. by eapply flatten_all_last.
Qed.

Lemma keyed_tower i es : Forall keyed_child (tower i es).
Proof. induction i; simpl; [apply keyed_leaf_nodes|by apply keyed_inodes]. Qed.

(** The last node of a level carries the last key. *)
Lemma tower_last i es c : last (tower i es) = Some c -> exists v, last es = Some (c.1, v).
Proof.
  intros Hc. pose proof (keyed_tower i es) as Hk. rewrite Forall_forall in Hk.
  destruct (Hk c) as [_ [v Hv]]; [by apply last_Some_elem_of|].
  exists v. rewrite <-(flatten_tower i es). by eapply flatten_all_last.
Qed.

Lemma closed_le i j es : (j <= i)%nat -> closed i es -> closed j es.
Proof. intros Hj Hc e He k Hk. apply Hc; [done|lia]. Qed.

Lemma closed_ends i es : closed (S i) es -> ends (cut (N.of_nat (S i))) (tower i es).
Proof.
  intros Hc c Hl. destruct (tower_last _ _ _ Hl) as [v Hv]. apply (Hc _ Hv (S i)). lia.
Qed.

Lemma closed_ends_0 i es : closed i es -> ends (cut 0) es.
Proof. intros Hc e He. apply (Hc e He O). lia. Qed.

(** A closed segment is cut on its own. *)
Lemma tower_app i es1 es2 : closed i es1 -> tower i (es1 ++ es2) = tower i es1 ++ tower i es2.
Proof.
  induction i as [|i IH]; intros Hc; cbn [tower].
  - unfold leaf_nodes. rewrite chunks_app, map_app; [done|]. by eapply closed_ends_0.
  - rewrite IH by (eapply closed_le; [|done]; lia). unfold inodes.
    rewrite chunks_app, map_app; [done|]. by apply closed_ends.
Qed.

Lemma tower_nil i : tower i [] = [].
Proof. induction i as [|i IH]; [done|]. cbn [tower]. by rewrite IH. Qed.

(** Conversely a level falls apart at any node into closed segments. *)
Lemma tower_app_inv i es cs1 cs2 :
  tower i es = cs1 ++ cs2 -> cs2 <> [] ->
  closed i (flatten_all cs1) /\ tower i (flatten_all cs1) = cs1 /\ tower i (flatten_all cs2) = cs2.
Proof.
  revert es cs1 cs2. induction i as [|i IH]; intros es cs1 cs2 H Hne; cbn [tower] in H |- *.
  - unfold leaf_nodes in H. apply map_eq_app in H as (rs1 & rs2 & H & <- & <-).
    destruct (chunks_app_inv _ _ _ _ H) as (He & H1 & H2); [by destruct rs2|].
    rewrite !flatten_all_leaf. unfold leaf_nodes. rewrite H1, H2. split_and!; try done.
    intros e Hl j Hj. assert (j = O) as -> by lia. by apply He.
  - unfold inodes in H. apply map_eq_app in H as (rs1 & rs2 & H & <- & <-).
    pose proof (chunks_concat (cut (N.of_nat (S i))) [] (tower i es)) as Hcat. rewrite H, concat_app in Hcat.
    pose proof (chunks_nonempty (cut (N.of_nat (S i))) [] (tower i es)) as Hnes. rewrite H in Hnes.
    destruct (chunks_app_inv _ _ _ _ H) as (He & H1 & H2); [by destruct rs2|].
    apply Forall_app in Hnes as [_ Hnes]. symmetry in Hcat. simpl in Hcat.
    destruct (IH es (concat rs1) (concat rs2) Hcat) as (Hc & Ht1 & Ht2).
    { destruct rs2 as [|r rs2]; [done|]. apply Forall_cons in Hnes as [Hr _]. by destruct r. }
    rewrite !flatten_all_inode, Ht1, Ht2. unfold inodes. rewrite H1, H2. split_and!; try done.
    intros e Hl j Hj. destruct (decide (j = S i)) as [->|]; [|apply Hc; [done|lia]].
    destruct (last (concat rs1)) as [c|] eqn:El.
    + rewrite <-Ht1 in El. destruct (tower_last _ _ _ El) as [v Hv]. rewrite Hl in Hv.
      injection Hv as ->. rewrite Ht1 in El. by apply He.
    + apply last_None in El. rewrite El in Hl. done.
Qed.

(** One node of a level in its context. *)
Lemma tower_node i es cs1 c cs2 :
  tower i es = cs1 ++ c :: cs2 ->
  tower i (flatten_all cs1) = cs1 /\ tower i (flatten c.2) = [c] /\ tower i (flatten_all cs2) = cs2
  /\ closed i (flatten_all cs1) /\ (cs2 <> [] -> closed i (flatten c.2)).
Proof.
  intros H. destruct (tower_app_inv i es cs1 (c :: cs2)) as (Hc1 & H1 & Hcc); [done..|].
  pose proof (flatten_all_single c) as Hfc.
  destruct cs2 as [|c2 cs2].
  - rewrite Hfc in Hcc. rewrite tower_nil. done.
  - destruct (tower_app_inv i (flatten_all (c :: c2 :: cs2)) [c] (c2 :: cs2)) as (Hc & Ht & Ht2); [done..|].
    rewrite Hfc in Hc, Ht. done.
Qed.

(** The nodes of level [i] all have height [i]. *)
Fixpoint leveled (i : nat) (t : tree) : Prop :=
  match i, t with
  | O, Leaf _ => True
  | S i, Inode cs => cs <> [] /\ Forall (fun c => leveled i c.2) cs
  | _, _ => False
  end.

Lemma leveled_inodes i level ns :
  Forall (fun c => leveled i c.2) ns -> Forall (fun c => leveled (S i) c.2) (inodes level ns).
Proof.
  intros Hns. unfold inodes. apply Forall_map.
  rewrite <-(chunks_concat (cut level) [] ns) in Hns at 1. simpl in Hns.
  pose proof (chunks_nonempty (cut level) [] ns) as Hne. revert Hne Hns.
  induction (chunks (cut level) [] ns) as [|r rs IH]; [constructor|].
  intros [Hr Hrs]%Forall_cons [Hkr Hkrs]%Forall_app. constructor; [done|by apply IH].
Qed.

Lemma leveled_leaf_nodes es : Forall (fun c => leveled 0 c.2) (leaf_nodes es).
Proof. unfold leaf_nodes. apply Forall_map, Forall_true. done. Qed.

Lemma leveled_tower i es : Forall (fun c => leveled i c.2) (tower i es).
Proof. induction i; simpl; [apply leveled_leaf_nodes|by apply leveled_inodes]. Qed.

Lemma leveled_hgt i t : leveled i t -> hgt t = i.
Proof.
  revert t. induction i as [|i IH]; intros [es|cs]; try done. intros [Hne Hcs]. cbn [hgt]. f_equal.
  unfold max_list. induction Hcs as [|c cs Hc Hcs IHcs]; [done|]. simpl. rewrite (IH _ Hc).
  destruct cs as [|c' cs]; [simpl; lia|]. simpl in *. rewrite IHcs by done. lia.
Qed.
End Shape.

End ProllyShape.
