(* ===== verification/ProllyBuild.v ===== *)
(** * Prolly trees: construction

    The chunking loops write the nodes of the abstract levels, and [build] writes the tree whose shape
    the boundary rule gives, for any sound store. *)

From S2P Require Import Prelude Codec Types Cbor Store Prolly ProllyNode ProllyTree ProllyRead ProllyShape.

Module ProllyBuild.
Import Codec Cbor Digest Store Prolly ProllyNode ProllyTree ProllyRead ProllyShape.

(** Every node of a tree. *)
Fixpoint nodes (t : tree) : list tree :=
  t :: match t with
       | Leaf _ => []
       | Inode cs => concat (map (fun c => nodes c.2) cs)
       end.

Section Pure.
Context `{hasher : Hasher}.

(** The bytes of every node of the tree belong to the universe. *)
Definition covered (U : bytes -> Prop) (a : Algo) (t : tree) : Prop :=
  Forall (fun n => U (enc a n)) (nodes t).

Lemma covered_root U a t : covered U a t -> U (enc a t).
Proof. unfold covered. destruct t; cbn [nodes]; by intros [H _]%Forall_cons. Qed.

Lemma covered_Inode U a cs : covered U a (Inode cs) -> Forall (fun c => covered U a c.2) cs.
Proof.
  unfold covered. cbn [nodes]. intros [_ H]%Forall_cons. induction cs as [|c cs IH]; [constructor|].
  simpl in H. apply Forall_app in H as [H1 H2]. constructor; [done|by apply IH].
Qed.

(** Adds levels from [level] up until one node is left, in at most [fuel] rounds. *)
Fixpoint climb (fuel : nat) (level : N) (ns : list (bytes * tree)) : option (list (bytes * tree)) :=
  if (length ns <=? 1)%nat then Some ns
  else match fuel with
  | O => None
  | S fuel => climb fuel (level + 1) (inodes level ns)
  end.

(** The tree over a list of entries; [None] for the empty list and for a tree of more than 254
    levels. *)
Definition pure_build (es : list Entry) : option tree :=
  ns ← climb 254 1 (leaf_nodes es); snd <$> head ns.

Lemma inodes_nil level ns : inodes level ns = [] -> ns = [].
Proof.
  unfold inodes. intros H%map_eq_nil. pose proof (chunks_concat (cut level) [] ns) as Hc.
  by rewrite H in Hc.
Qed.

Lemma covered_inodes U a level ns :
  Forall (fun c => covered U a c.2) (inodes level ns) -> Forall (fun c => covered U a c.2) ns.
Proof.
  unfold inodes. rewrite Forall_map. intros H.
  pose proof (chunks_concat (cut level) [] ns) as Hc. simpl in Hc. rewrite <-Hc. clear Hc.
  induction H as [|r rs Hr _ IH]; [constructor|]. simpl. apply Forall_app. split; [|done].
  by apply covered_Inode.
Qed.

Lemma climb_covered U a fuel level ns ns' :
  climb fuel level ns = Some ns' -> Forall (fun c => covered U a c.2) ns' ->
  Forall (fun c => covered U a c.2) ns.
Proof.
  revert level ns. induction fuel as [|fuel IH]; intros level ns; cbn [climb];
    destruct (length ns <=? 1)%nat; try done; try (by intros [= <-]).
  intros H Hc. eapply covered_inodes. by eapply IH.
Qed.

Lemma climb_flatten fuel level ns ns' : climb fuel level ns = Some ns' -> flatten_all ns' = flatten_all ns.
Proof.
  revert level ns. induction fuel as [|fuel IH]; intros level ns; cbn [climb];
    destruct (length ns <=? 1)%nat; try done; try (by intros [= <-]).
  intros H%IH. by rewrite H, flatten_inodes.
Qed.

Lemma climb_keyed fuel level ns ns' :
  climb fuel level ns = Some ns' -> Forall keyed_child ns -> Forall keyed_child ns'.
Proof.
  revert level ns. induction fuel as [|fuel IH]; intros level ns; cbn [climb];
    destruct (length ns <=? 1)%nat; try done; try (by intros [= <-]).
  intros H Hk. eapply IH; [done|]. by apply keyed_inodes.
Qed.

(** Climbing from a level of an entry list reaches a single node at the first level that has one. *)
Lemma climb_tower fuel i es ns :
  climb fuel (N.of_nat (S i)) (tower i es) = Some ns ->
  exists m, (i <= m <= i + fuel)%nat /\ ns = tower m es /\ (length ns <= 1)%nat
  /\ forall j, (i <= j < m)%nat -> (1 < length (tower j es))%nat.
Proof.
  revert i. induction fuel as [|fuel IH]; intros i; cbn [climb];
    destruct (Nat.leb_spec (length (tower i es)) 1) as [Hl|Hl]; try done.
  1, 2: intros [= <-]; exists i; split_and!; try done; lia.
  replace (N.of_nat (S i) + 1) with (N.of_nat (S (S i))) by lia.
  change (inodes (N.of_nat (S i)) (tower i es)) with (tower (S i) es). intros H.
  destruct (IH _ H) as (m & Hm & -> & Hlen & Hj). exists m. split_and!; try done; try lia.
  intros j Hj'. destruct (decide (j = i)) as [->|]; [done|]. apply Hj. lia.
Qed.

Lemma climb_leaves fuel es ns :
  climb fuel 1 (leaf_nodes es) = Some ns ->
  exists m, (m <= fuel)%nat /\ ns = tower m es /\ (length ns <= 1)%nat
  /\ forall j, (j < m)%nat -> (1 < length (tower j es))%nat.
Proof.
  intros (m & Hm & H & Hl & Hj)%(climb_tower fuel 0). exists m. split_and!; try done; [lia|].
  intros j Hjm. apply Hj. lia.
Qed.

(** [head] of a climb is its only node. *)
Lemma climb_head fuel es t :
  (ns ← climb fuel 1 (leaf_nodes es); snd <$> head ns) = Some t ->
  exists k, climb fuel 1 (leaf_nodes es) = Some [(k, t)].
Proof.
  destruct (climb fuel 1 (leaf_nodes es)) as [ns|] eqn:E; cbn [mbind option_bind]; [|done].
  destruct (climb_leaves fuel es ns E) as (m & _ & _ & Hl & _).
  destruct ns as [|[k t'] [|]]; simpl in *; [done| |lia]. intros [= ->]. by exists k.
Qed.
End Pure.

Section Build.
Context `{hasher : Hasher} {S : Type} `{ops : !ObjectStore S} {U : bytes -> Prop} {ok : S -> Prop}
  `{laws : !StoreLaws S U ok}.
Implicit Types s : S.

(** What a chunking loop needs to know of its flush operation: it writes the node of a run. *)
Definition flush_spec {A B} (flush : S -> list (bytes * A) -> res (Child * S))
    (R : S -> bytes * A -> bytes * B -> Prop) (mk : list (bytes * B) -> tree) : Prop :=
  forall s run prun, ok s -> Forall2 (R s) run prun -> U (enc (digest_algo s) (mk prun)) ->
  exists d s', flush s run = Ok ((max_key run, d), s') /\ ok s' /\ extends s s' /\ repr s' d (mk prun).

Lemma max_key_map {A} (run : list (bytes * A)) : max_key run = default [] (last (map fst run)).
Proof. unfold max_key. change (map fst run) with (fst <$> run). rewrite fmap_last. by destruct (last run). Qed.

Lemma max_key_rel {A B} (R : bytes * A -> bytes * B -> Prop) run prun :
  (forall x y, R x y -> x.1 = y.1) -> Forall2 R run prun -> max_key run = max_key prun.
Proof.
  intros HR Hrun. rewrite !max_key_map. do 2 f_equal.
  induction Hrun as [|x y run prun Hxy _ IH]; simpl; [done|]. by rewrite (HR _ _ Hxy), IH.
Qed.

(** A chunking loop writes the nodes of the runs its items are cut into. *)
Lemma chunk_loop_spec {A B} (flush : S -> list (bytes * A) -> res (Child * S))
    (R : S -> bytes * A -> bytes * B -> Prop) (mk : list (bytes * B) -> tree) level :
  flush_spec flush R mk -> (forall s x y, R s x y -> x.1 = y.1) ->
  (forall s s' x y, extends s s' -> R s x y -> R s' x y) ->
  forall items pitems s out pout run prun,
  ok s -> Forall2 (R s) items pitems -> Forall2 (R s) run prun -> Forall2 (nrel s) out pout ->
  Forall (fun r => U (enc (digest_algo s) (mk r))) (chunks (cut level) prun pitems) ->
  exists out' s', chunk_loop flush level s out run items = Ok (out', s') /\ ok s' /\ extends s s'
  /\ Forall2 (nrel s') out' (pout ++ map (fun r => (max_key r, mk r)) (chunks (cut level) prun pitems)).
Proof.
  intros Hflush Hkey Hmono. induction items as [|x items IH];
    intros pitems s out pout run prun Hok Hitems Hrun Hout HU;
    inversion Hitems as [|? y ? pitems' Hxy Hitems']; subst; cbn [chunk_loop chunks] in *.
  - destruct Hrun as [|x y run prun Hxy Hrun].
    { exists out, s. simpl. rewrite app_nil_r. split_and!; done. }
    apply Forall_cons in HU as [HU _].
    destruct (Hflush s (x :: run) (y :: prun)) as (d & s' & -> & Hok' & Hext & Hr); [done|by constructor|done|].
    simpl. eexists _, s'. split_and!; try done. apply Forall2_app; [by eapply nrel_mono|].
    constructor; [|done]. split; [|done]. simpl. eapply (max_key_rel (R s)); [apply Hkey|by constructor].
  - unfold cut at 1 in HU. rewrite (Hkey _ _ _ Hxy).
    assert (Forall2 (R s) (run ++ [x]) (prun ++ [y])) as Hrun' by (apply Forall2_app; [done|by repeat constructor]).
    unfold cut at 1. destruct (is_boundary y.1 level).
    + apply Forall_cons in HU as [HU HUs].
      destruct (Hflush s (run ++ [x]) (prun ++ [y])) as (d & s' & -> & Hok' & Hext & Hr); [done..|]. simpl.
      destruct (IH pitems' s' (out ++ [(max_key (run ++ [x]), d)]) (pout ++ [(max_key (prun ++ [y]), mk (prun ++ [y]))]) [] [])
        as (out' & s'' & -> & Hok'' & Hext' & Hout'); try done.
      * eapply Forall2_impl; [exact Hitems'|]. intros. by eapply Hmono.
      * apply Forall2_app; [by eapply nrel_mono|]. constructor; [|done]. split; [|done]. simpl.
        eapply (max_key_rel (R s)); [apply Hkey|done].
      * destruct Hext as [Ha _]. by rewrite Ha.
      * exists out', s''. split_and!; try done; [by etrans|]. by rewrite <-app_assoc in Hout'.
    + apply IH; done.
Qed.

Lemma flush_leaf_spec : flush_spec flush_leaf (fun _ => eq) Leaf.
Proof.
  intros s run prun Hok Hrun HU. assert (run = prun) as -> by (clear HU; induction Hrun; congruence).
  destruct (put_leaf s prun Hok HU) as (d & s' & Hput & Hok' & Hext & Hr).
  exists d, s'. unfold flush_leaf. rewrite Hput. done.
Qed.

Lemma flush_internal_spec : flush_spec flush_internal nrel Inode.
Proof.
  intros s run prun Hok Hrun HU.
  destruct (put_internal s run prun Hok Hrun HU) as (d & s' & Hput & Hok' & Hext & Hr).
  exists d, s'. unfold flush_internal. rewrite Hput. done.
Qed.

Definition covered_all s (ns : list (bytes * tree)) : Prop :=
  Forall (fun c => covered U (digest_algo s) c.2) ns.

Lemma chunk_leaves_spec s es :
  ok s -> covered_all s (leaf_nodes es) ->
  exists ch s', chunk_leaves s es = Ok (ch, s') /\ ok s' /\ extends s s'
  /\ Forall2 (nrel s') ch (leaf_nodes es).
Proof.
  intros Hok HU. unfold chunk_leaves.
  destruct (chunk_loop_spec flush_leaf (fun _ => eq) Leaf 0 flush_leaf_spec) with
    (items := es) (pitems := es) (s := s) (out := @nil Child) (pout := @nil (bytes * tree))
    (run := @nil Entry) (prun := @nil Entry) as (ch & s' & H & Hok' & Hext & Hch); try done.
  - by intros ??? ->.
  - unfold covered_all, leaf_nodes in HU. rewrite Forall_map in HU. eapply Forall_impl; [exact HU|].
    intros r. apply covered_root.
  - by exists ch, s'.
Qed.

Lemma chunk_internal_spec s level ch cs :
  ok s -> Forall2 (nrel s) ch cs -> covered_all s (inodes level cs) ->
  exists ch' s', chunk_internal s level ch = Ok (ch', s') /\ ok s' /\ extends s s'
  /\ Forall2 (nrel s') ch' (inodes level cs).
Proof.
  intros Hok Hch HU. unfold chunk_internal.
  destruct (chunk_loop_spec flush_internal nrel Inode level flush_internal_spec) with
    (items := ch) (pitems := cs) (s := s) (out := @nil Child) (pout := @nil (bytes * tree))
    (run := @nil Child) (prun := @nil (bytes * tree)) as (ch' & s' & H & Hok' & Hext & Hch'); try done.
  - by intros ? [] [] [? _].
  - intros s1 s2 c n Hext [Hk Hr]. split; [done|by eapply repr_mono].
  - unfold covered_all, inodes in HU. rewrite Forall_map in HU. eapply Forall_impl; [exact HU|].
    intros r. apply covered_root.
  - by exists ch', s'.
Qed.

Lemma covered_all_ext s s' ns : extends s s' -> covered_all s ns -> covered_all s' ns.
Proof. intros [Ha _]. unfold covered_all. by rewrite Ha. Qed.

Lemma nrel_length s ch cs : Forall2 (nrel s) ch cs -> length ch = length cs.
Proof. apply Forall2_length. Qed.

Lemma build_levels_spec n fuel s level ch ns ns' :
  (n <= fuel)%nat -> level + N.of_nat n <= u8_max -> climb n level ns = Some ns' ->
  ok s -> Forall2 (nrel s) ch ns -> covered_all s ns' ->
  exists ch' s', build_levels fuel s level ch = Ok (ch', s') /\ ok s' /\ extends s s'
  /\ Forall2 (nrel s') ch' ns'.
Proof.
  revert fuel s level ch ns. induction n as [|n IH]; intros fuel s level ch ns Hf Hl Hc Hok Hch HU;
    cbn [climb] in Hc; rewrite <-(nrel_length _ _ _ Hch) in Hc; destruct fuel as [|fuel];
    cbn [build_levels]; destruct (length ch <=? 1)%nat; try done; try lia;
    try (injection Hc as <-; by exists ch, s).
  assert (covered_all s (inodes level ns)) as HU1 by by eapply climb_covered.
  destruct (chunk_internal_spec s level ch ns Hok Hch HU1) as (ch1 & s1 & -> & Hok1 & Hext1 & Hch1).
  simpl. unfold checked_add. rewrite (proj2 (N.leb_le (level + 1) u8_max)) by lia. simpl.
  destruct (IH fuel s1 (level + 1) ch1 (inodes level ns)) as (ch' & s' & -> & Hok' & Hext' & Hch');
    try done; [lia|lia|by eapply covered_all_ext|].
  exists ch', s'. split_and!; try done. by etrans.
Qed.

Lemma pure_build_climb es t :
  pure_build es = Some t -> exists k, climb 254 1 (leaf_nodes es) = Some [(k, t)].
Proof. apply climb_head. Qed.

Lemma build_spec s es t :
  ok s -> pure_build es = Some t -> covered U (digest_algo s) t ->
  exists d s', build s es = Ok (Some d, s') /\ ok s' /\ extends s s' /\ repr s' d t.
Proof.
  intros Hok (k & Hc)%pure_build_climb HU.
  assert (covered_all s [(k, t)]) as HU1 by by constructor.
  destruct (chunk_leaves_spec s es Hok) as (ch & s1 & Hch & Hok1 & Hext1 & Hrel1);
    [by eapply climb_covered|].
  destruct (build_levels_spec 254 255 s1 1 ch (leaf_nodes es) [(k, t)]) as (ch' & s' & Hb & Hok' & Hext' & Hrel');
    try done; [lia|by eapply covered_all_ext|].
  inversion Hrel' as [|[k' d] ? ? ? [_ Hr] Hnil]; subst. inversion Hnil; subst.
  exists d, s'. unfold build. destruct es as [|e es]; [done|]. rewrite Hch. cbn [mbind result_bind].
  rewrite Hb. cbn [mbind result_bind].
  split_and!; try done. by etrans.
Qed.

(** What a built tree holds. *)
Lemma pure_build_tree es t :
  pure_build es = Some t ->
  flatten t = es /\ keyed t
  /\ exists m, (m <= 254)%nat /\ leveled m t /\ exists k, tower m es = [(k, t)]
     /\ forall j, (j < m)%nat -> (1 < length (tower j es))%nat.
Proof.
  intros (k & Hc)%pure_build_climb. pose proof (climb_flatten _ _ _ _ Hc) as Hf.
  pose proof (climb_keyed _ _ _ _ Hc (keyed_leaf_nodes es)) as [[Hk _] _]%Forall_cons.
  rewrite flatten_leaf_nodes, flatten_all_cons, app_nil_r in Hf. simpl in Hf. split_and!; [done..|].
  destruct (climb_leaves _ es _ Hc) as (m & Hm & Ht & _ & Hj). exists m. split_and!; [done| |].
  - pose proof (leveled_tower m es) as Hl. rewrite <-Ht in Hl. by apply Forall_cons in Hl as [Hl _].
  - by exists k.
Qed.
End Build.

End ProllyBuild.
