(* ===== verification/ProllyEdit.v ===== *)
(** * Prolly trees: edits of an entry list and of a tree

    The edit of a sorted entry list, the effect of [mutate] on an abstract tree, and the two facts
    about it: it edits the entries of the tree, and unless it leaves an internal node open it gives
    the levels that building over the edited entries gives. *)

From S2P Require Import Prelude Codec Types Cbor Store Prolly ProllyNode ProllyTree ProllyRead ProllyShape ProllyBuild.

Module ProllyEdit.
Import Codec Cbor Digest Store Prolly ProllyNode ProllyTree ProllyRead ProllyShape ProllyBuild.

(** ** Edits of a sorted list *)

Definition new_entry (key : bytes) (change : Change) : list Entry :=
  match change with Set_ v => [(key, v)] | Remove => [] end.

(** The entries below the key, the new entry if there is one, the entries above the key. *)
Definition edited (l : list Entry) (key : bytes) (change : Change) : list Entry :=
  filter (fun e => e.1 <b key) l ++ new_entry key change ++ filter (fun e => key <b e.1) l.

Lemma below_not_above (l : list Entry) key :
  Forall (fun e => e.1 <b key) l -> Forall (fun e => ~ key <b e.1) l.
Proof. intros H. eapply Forall_impl; [exact H|]. simpl. intros e He H'. eapply (bytes_lt_irrefl key). by etrans. Qed.

Lemma above_not_below (l : list Entry) key :
  Forall (fun e => key <b e.1) l -> Forall (fun e => ~ e.1 <b key) l.
Proof. intros H. eapply Forall_impl; [exact H|]. simpl. intros e He H'. eapply (bytes_lt_irrefl key). by etrans. Qed.

(** An edit is local: entries below and above the key are left alone. *)
Lemma edited_local l1 l l2 key change :
  Forall (fun e => e.1 <b key) l1 -> Forall (fun e => key <b e.1) l2 ->
  edited (l1 ++ l ++ l2) key change = l1 ++ edited l key change ++ l2.
Proof.
  intros H1 H2. unfold edited. rewrite !filter_app.
  rewrite (filter_all _ l1 H1), (filter_all _ l2 H2).
  rewrite (filter_nothing _ l1 (below_not_above _ _ H1)), (filter_nothing _ l2 (above_not_below _ _ H2)).
  simpl. by rewrite !app_nil_r, <-!app_assoc.
Qed.

Lemma edited_sorted l key change : sorted_by fst l -> sorted_by fst (edited l key change).
Proof.
  intros Hs. unfold edited. apply sorted_by_app. split_and!; [by apply filter_sorted| |].
  - apply sorted_by_app. split_and!; [destruct change; repeat constructor|by apply filter_sorted|].
    intros x y Hx [Hy _]%list_elem_of_filter. destruct change; simpl in Hx; [|by apply not_elem_of_nil in Hx].
    by apply list_elem_of_singleton in Hx as ->.
  - intros x y [Hx _]%list_elem_of_filter [Hy|[Hy _]%list_elem_of_filter]%elem_of_app; unfold key_lt.
    + destruct change; simpl in Hy; [|by apply not_elem_of_nil in Hy]. by apply list_elem_of_singleton in Hy as ->.
    + by trans key.
Qed.

(** The code's edit of a leaf or of the whole entry list. *)
Lemma apply_change_edited l key change :
  sorted_by fst l -> apply_change l key change = edited l key change.
Proof.
  intros Hs. unfold apply_change. destruct (binary_search l key) as [i|i] eqn:E.
  - destruct (binary_search_Ok l key i Hs E) as [v Hv].
    assert (i < length l)%nat as Hi.
    { apply (f_equal length) in Hv. rewrite length_app in Hv. simpl in Hv.
      rewrite length_take, length_drop in Hv. lia. }
    assert (length (take i l) = i) as Hlen by (rewrite length_take; lia).
    pose proof Hs as Hs'. rewrite Hv in Hs'. apply sorted_by_app in Hs' as (_ & [_ H2]%sorted_by_cons_inv & H1).
    assert (Forall (fun e => e.1 <b key) (take i l)) as Hlo.
    { apply Forall_forall. intros e He. apply (H1 e (key, v)); [done|left]. }
    assert (edited l key change = take i l ++ new_entry key change ++ drop (S i) l) as ->.
    { rewrite Hv at 1. change ((key, v) :: drop (S i) l) with ([(key, v)] ++ drop (S i) l).
      rewrite edited_local by done. f_equal. f_equal. unfold edited. simpl.
      rewrite !filter_cons_False; [by rewrite app_nil_r|simpl; apply bytes_lt_irrefl..]. }
    destruct change as [w|]; simpl.
    + assert (l !! i = Some (key, v)) as Hli by (rewrite Hv; by apply list_lookup_middle).
      unfold key_at. rewrite Hli. simpl. by apply insert_take_drop.
    + rewrite delete_take_drop. done.
  - destruct (binary_search_Err l key i Hs E) as (_ & H1 & H2).
    assert (edited l key change = take i l ++ new_entry key change ++ drop i l) as ->.
    { rewrite <-(take_drop i l) at 1. rewrite <-(app_nil_l (drop i l)) at 1.
      rewrite edited_local by done. f_equal. f_equal. unfold edited. by rewrite app_nil_r. }
    destruct change; simpl; [done|]. by rewrite take_drop.
Qed.

Lemma edited_tmap l key change :
  sorted_by fst l ->
  tmap (edited l key change)
  = match change with Set_ v => <[key := v]> (tmap l) | Remove => delete key (tmap l) end.
Proof.
  intros Hs. apply map_eq. intros k.
  pose proof (sorted_by_NoDup _ _ Hs) as Hn.
  pose proof (sorted_by_NoDup _ _ (edited_sorted l key change Hs)) as Hn'.
  destruct (decide (k = key)) as [->|Hk].
  - assert (tmap (edited l key change) !! key = tmap (new_entry key change) !! key) as ->.
    { unfold edited. apply tmap_mid; [apply tmap_below|apply tmap_above];
        apply Forall_forall; intros e He; by apply list_elem_of_filter in He as [He _]. }
    destruct change; simpl; [by rewrite !lookup_insert_eq|by rewrite lookup_delete_eq].
  - transitivity (tmap l !! k).
    2: { destruct change; [by rewrite lookup_insert_ne|by rewrite lookup_delete_ne]. }
    apply option_eq. intros v. unfold tmap. rewrite <-!elem_of_list_to_map by done. unfold edited.
    rewrite !elem_of_app, !list_elem_of_filter. simpl.
    assert ((k, v) ∉ new_entry key change) as Hne by (destruct change; set_solver).
    destruct (bytes_lt_trichotomy k key) as [?|[?|?]]; naive_solver.
Qed.

(** The last key survives an insertion below it. *)
Lemma last_edited_set l key v k w :
  sorted_by fst l -> last l = Some (k, w) -> key <=b k ->
  exists w', last (edited l key (Set_ v)) = Some (k, w').
Proof.
  intros Hs Hl Hle. apply last_Some in Hl as (l' & ->). unfold edited. rewrite !filter_app.
  apply bytes_le_lt in Hle as [->|Hlt].
  - apply sorted_by_app in Hs as (Hs & _ & H). exists v.
    rewrite (filter_nothing (fun e => k <b e.1) l'), (filter_nothing (fun e => k <b e.1) [_]).
    + simpl. by rewrite last_snoc.
    + constructor; [apply bytes_lt_irrefl|constructor].
    + apply Forall_forall. intros e He H'. apply (bytes_lt_irrefl k). etrans; [exact H'|].
      apply (H e (k, w)); [done|left].
  - exists w. rewrite (filter_all (fun e => key <b e.1) [_]) by by repeat constructor.
    by rewrite !app_assoc, last_snoc.
Qed.

(** ** The edit of a tree *)

Section Edit.
Context `{hasher : Hasher}.
Implicit Types (t : tree) (cs : list (bytes * tree)) (key : bytes) (change : Change).

(** The child the edit descends into. *)
Definition descend_index {A} key (cs : list (bytes * A)) : nat :=
  default (length cs - 1)%nat (position key cs).

Definition child_rightmost {A} (rightmost : bool) key (cs : list (bytes * A)) : bool :=
  rightmost && (descend_index key cs =? length cs - 1)%nat.

(** The children of an edited internal node, given the nodes that replace its edited child. *)
Definition spliced {A} key (cs sub : list (bytes * A)) : list (bytes * A) :=
  take (descend_index key cs) cs ++ sub ++ drop (S (descend_index key cs)) cs.

(** The nodes that replace [t], or [None] when the edit opens a leaf that is not the last. *)
Fixpoint pmut (level : nat) t key change (rightmost : bool) : option (list (bytes * tree)) :=
  match t with
  | Leaf es =>
      let es := apply_change es key change in
      match last es with
      | Some e => if negb (is_boundary e.1 0) && negb rightmost then None else Some (leaf_nodes es)
      | None => Some (leaf_nodes es)
      end
  | Inode cs =>
      match level with
      | O => None
      | S level' =>
          c ← cs !! descend_index key cs;
          sub ← pmut level' c.2 key change (child_rightmost rightmost key cs);
          Some (inodes (N.of_nat level) (spliced key cs sub))
      end
  end.

(** The edit leaves an internal node that is not the last of its level without a closing boundary:
    the removal emptied the child that closed it. *)
Fixpoint orphaned (level : nat) t key change (rightmost : bool) : bool :=
  match t, level with
  | Inode cs, S level' =>
      match cs !! descend_index key cs with
      | None => false
      | Some c =>
          orphaned level' c.2 key change (child_rightmost rightmost key cs)
          || match pmut level' c.2 key change (child_rightmost rightmost key cs) with
             | None => false
             | Some sub =>
                 match last (spliced key cs sub) with
                 | None => false
                 | Some n => negb rightmost && negb (is_boundary n.1 (N.of_nat level))
                 end
             end
      end
  | _, _ => false
  end.

(** The edit descends into the child whose range holds the key. *)
Lemma descend_child cs key :
  cs <> [] -> Forall keyed_child cs -> sorted_by fst (flatten_all cs) ->
  exists cs1 c cs2, cs = cs1 ++ c :: cs2 /\ length cs1 = descend_index key cs
  /\ Forall (fun e => e.1 <b key) (flatten_all cs1) /\ Forall (fun e => key <b e.1) (flatten_all cs2)
  /\ (cs2 <> [] -> key <=b c.1).
Proof.
  intros Hne Hk Hs. unfold descend_index. destruct (position key cs) as [i|] eqn:E; simpl.
  - apply position_Some in E as (cs1 & c & cs2 & -> & <- & Hlt & Hle). exists cs1, c, cs2.
    apply Forall_app in Hk as [Hk1 [Hkc Hk2]%Forall_cons].
    pose proof (flatten_all_above _ _ _ Hkc Hs) as Habove. split_and!; try done.
    + apply flatten_all_below; [done| |done]. rewrite flatten_all_app in Hs.
      by apply sorted_by_app in Hs as (? & _).
    + eapply Forall_impl; [exact Habove|]. simpl. intros e He. by eapply bytes_le_lt_trans.
  - apply position_None in E. destruct cs as [|c cs1 _] using rev_ind; [done|]. exists cs1, c, [].
    rewrite length_app. simpl. split_and!; [done|lia| |constructor|done].
    apply Forall_app in Hk as [Hk _]. apply Forall_app in E as [E _]. apply flatten_all_below; [done| |done].
    rewrite flatten_all_app in Hs. by apply sorted_by_app in Hs as (? & _).
Qed.

Lemma descend_split {A} key (cs1 : list (bytes * A)) (c : bytes * A) (cs2 : list (bytes * A)) :
  length cs1 = descend_index key (cs1 ++ c :: cs2) ->
  (cs1 ++ c :: cs2) !! descend_index key (cs1 ++ c :: cs2) = Some c
  /\ (forall sub, spliced key (cs1 ++ c :: cs2) sub = cs1 ++ sub ++ cs2)
  /\ (forall rm, child_rightmost rm key (cs1 ++ c :: cs2) = rm && bool_decide (cs2 = [])).
Proof.
  intros Hl. unfold spliced, child_rightmost. rewrite <-Hl. split_and!.
  - by apply list_lookup_middle.
  - intros sub. rewrite take_app_length. do 2 f_equal.
    change (c :: cs2) with ([c] ++ cs2). rewrite app_assoc. apply drop_app_length'.
    rewrite length_app. simpl. lia.
  - intros rm. f_equal. rewrite length_app. simpl.
    case_bool_decide as H; [subst; simpl; apply Nat.eqb_eq; lia|].
    apply Nat.eqb_neq. destruct cs2; [done|]. simpl. lia.
Qed.

(** What an edit does to a search tree of height [i]. *)
Lemma pmut_edits i t key change rm ns :
  leveled i t -> keyed t -> sorted_by fst (flatten t) -> pmut i t key change rm = Some ns ->
  flatten_all ns = edited (flatten t) key change /\ Forall keyed_child ns
  /\ Forall (fun c => leveled i c.2) ns.
Proof.
  revert t rm ns. induction i as [|i IH]; intros [es|cs] rm ns Hl Hk Hs Hp; try done.
  - cbn [pmut] in Hp. simpl in Hs. rewrite apply_change_edited in Hp by done.
    assert (ns = leaf_nodes (edited es key change)) as ->.
    { destruct (last (edited es key change)); [destruct (negb _ && negb _)|]; naive_solver. }
    split_and!; [apply flatten_leaf_nodes|apply keyed_leaf_nodes|apply leveled_leaf_nodes].
  - destruct Hl as [Hne Hl]. apply keyed_Inode in Hk. change (flatten (Inode cs)) with (flatten_all cs) in *.
    destruct (descend_child cs key Hne Hk Hs) as (cs1 & c & cs2 & -> & Hi & H1 & H2 & _).
    destruct (descend_split key cs1 c cs2 Hi) as (Hlk & Hsp & _).
    cbn [pmut] in Hp. rewrite Hlk in Hp. cbn [mbind option_bind] in Hp.
    destruct (pmut i c.2 key change _) as [sub|] eqn:Esub; [|done]. cbn [mbind option_bind] in Hp.
    injection Hp as <-. rewrite Hsp.
    apply Forall_app in Hk as [Hk1 [Hkc Hk2]%Forall_cons]. apply Forall_app in Hl as [Hl1 [Hlc Hl2]%Forall_cons].
    destruct (IH c.2 _ sub Hlc (proj1 Hkc) (sorted_flatten_child _ _ _ Hs) Esub) as (Hf & Hks & Hls).
    split_and!.
    + rewrite flatten_inodes, !flatten_all_app, flatten_all_cons, Hf. by rewrite edited_local.
    + apply keyed_inodes. by rewrite !Forall_app.
    + apply leveled_inodes. by rewrite !Forall_app.
Qed.

Lemma tower_0_single es k t : tower 0 es = [(k, t)] -> t = Leaf es.
Proof.
  cbn [tower]. unfold leaf_nodes. pose proof (chunks_concat (cut 0) [] es) as Hc.
  destruct (chunks (cut 0) [] es) as [|r [|]]; simpl; try done. intros [= _ <-].
  simpl in Hc. by rewrite app_nil_r in Hc; subst.
Qed.

Lemma tower_S_single i es k t : tower (S i) es = [(k, t)] -> t = Inode (tower i es) /\ tower i es <> [].
Proof.
  cbn [tower]. unfold inodes. pose proof (chunks_concat (cut (N.of_nat (S i))) [] (tower i es)) as Hc.
  pose proof (chunks_nonempty (cut (N.of_nat (S i))) [] (tower i es)) as Hn.
  destruct (chunks _ _ _) as [|r [|]]; simpl; try done. intros [= _ <-].
  simpl in Hc. rewrite app_nil_r in Hc. subst r. by apply Forall_cons in Hn as [Hn _].
Qed.

(** An edited node is the level over the edited entries, unless the edit orphans a node; and a
    closed node stays closed. *)
Lemma pmut_tower i es k t key change rm ns :
  tower i es = [(k, t)] -> sorted_by fst es -> (rm = false -> closed i es) ->
  pmut i t key change rm = Some ns -> orphaned i t key change rm = false ->
  ns = tower i (edited es key change) /\ (rm = false -> closed i (edited es key change)).
Proof.
  revert es k t rm ns. induction i as [|i IH]; intros es k t rm ns Ht Hs Hcl Hp Ho.
  - apply tower_0_single in Ht as ->. cbn [pmut] in Hp. rewrite apply_change_edited in Hp by done.
    assert (ns = leaf_nodes (edited es key change)) as ->.
    { destruct (last (edited es key change)); [destruct (negb _ && negb _)|]; naive_solver. }
    split; [done|]. intros -> e He j Hj. assert (j = O) as -> by lia. rewrite He in Hp. simpl in Hp.
    change (N.of_nat 0) with 0. by destruct (is_boundary e.1 0).
  - pose proof (tower_S_single _ _ _ _ Ht) as [-> Hne].
    pose proof (keyed_tower i es) as Hk. pose proof (flatten_tower i es) as Hf.
    rewrite <-Hf in Hs. destruct (descend_child _ key Hne Hk Hs) as (cs1 & c & cs2 & Hcs & Hi & H1 & H2 & _).
    destruct (tower_node _ _ _ _ _ Hcs) as (T1 & Tc & T2 & C1 & Cc).
    rewrite Hcs in *. destruct (descend_split key cs1 c cs2 Hi) as (Hlk & Hsp & Hrm).
    cbn [pmut orphaned] in Hp, Ho. rewrite Hlk in Hp, Ho. cbn [mbind option_bind] in Hp. rewrite Hrm in Hp, Ho.
    destruct (pmut i c.2 key change _) as [sub|] eqn:Esub; [|done]. cbn [mbind option_bind] in Hp.
    injection Hp as <-. rewrite Hsp in Ho |- *. apply orb_false_iff in Ho as [Ho Hlast].
    rewrite flatten_all_app, flatten_all_cons in Hf, Hs.
    assert (sorted_by fst (flatten c.2)) as Hsc.
    { apply sorted_by_app in Hs as (_ & Hs & _). by apply sorted_by_app in Hs as (? & _). }
    assert (rm && bool_decide (cs2 = []) = false -> closed i (flatten c.2)) as Hclc.
    { case_bool_decide as Hcs2; [|by intros _; apply Cc]. rewrite andb_true_r. intros ->. subst cs2.
      specialize (Hcl eq_refl). apply (closed_le (S i)); [lia|]. intros e He. apply Hcl.
      rewrite <-Hf, app_nil_r, last_app, He. done. }
    destruct c as [kc tc]. destruct (IH (flatten tc) kc tc _ sub Tc Hsc Hclc Esub Ho) as [-> Hclsub].
    simpl in *. rewrite <-Hf, edited_local by done.
    assert (cs1 ++ tower i (edited (flatten tc) key change) ++ cs2
            = tower i (flatten_all cs1 ++ edited (flatten tc) key change ++ flatten_all cs2)) as Hnext.
    { rewrite tower_app, T1 by done. f_equal. destruct (decide (cs2 = [])) as [->|Hcs2].
      - simpl. by rewrite !app_nil_r.
      - rewrite tower_app, T2; [done|]. apply Hclsub. by rewrite bool_decide_eq_false_2, andb_false_r. }
    split; [by rewrite Hnext|]. intros ->. simpl in *. intros e He j Hj.
    destruct (decide (j = S i)) as [->|Hji].
    + rewrite Hnext in Hlast. destruct (last (tower i _)) as [n|] eqn:El.
      * destruct (tower_last _ _ _ El) as [v Hv]. rewrite He in Hv. injection Hv as ->.
        by apply negb_false_iff in Hlast.
      * apply last_None in El. rewrite <-(flatten_tower i (flatten_all cs1 ++ _)), El in He. done.
    + destruct (last (flatten_all cs2)) as [e2|] eqn:E2.
      * apply (Hcl eq_refl e); [|lia]. rewrite <-Hf, !last_app, E2 in *. done.
      * apply last_None in E2. rewrite E2, app_nil_r in He. rewrite last_app in He.
        destruct (last (edited (flatten tc) key change)) as [e1|] eqn:E1.
        -- injection He as ->. apply (Hclsub eq_refl e E1). lia.
        -- apply (C1 e He). lia.
Qed.

Lemma keyed_last cs n :
  Forall keyed_child cs -> last cs = Some n -> exists v, last (flatten_all cs) = Some (n.1, v).
Proof.
  intros Hk Hl. rewrite Forall_forall in Hk. destruct (Hk n) as [_ [v Hv]]; [by apply last_Some_elem_of|].
  exists v. by eapply flatten_all_last.
Qed.

(** An insertion never opens a leaf and never orphans a node. *)
Lemma pmut_set i es k t key v rm :
  tower i es = [(k, t)] -> sorted_by fst es -> (rm = false -> closed i es /\ key <=b k) ->
  (exists ns, pmut i t key (Set_ v) rm = Some ns) /\ orphaned i t key (Set_ v) rm = false.
Proof.
  revert es k t rm. induction i as [|i IH]; intros es k t rm Ht Hs Hrm;
    (edestruct (fun i => tower_last i es (k, t)) as [w Hw]; [by rewrite Ht|]); simpl in Hw.
  - apply tower_0_single in Ht as ->. split; [|done]. cbn [pmut]. rewrite apply_change_edited by done.
    destruct rm; [destruct (last (edited _ _ _)); simpl; rewrite ?andb_false_r; eauto|]. destruct (Hrm eq_refl) as [Hcl Hle].
    destruct (last_edited_set es key v k w Hs Hw Hle) as [w' ->]. simpl.
    pose proof (Hcl _ Hw O (Nat.le_refl _)) as Hb.
    change (N.of_nat 0) with 0 in Hb. simpl in Hb. rewrite Hb. simpl. eauto.
  - pose proof (tower_S_single _ _ _ _ Ht) as [-> Hne].
    pose proof (keyed_tower i es) as Hk. pose proof (flatten_tower i es) as Hf.
    pose proof (leveled_tower i es) as Hlv. rewrite <-Hf in Hs.
    destruct (descend_child _ key Hne Hk Hs) as (cs1 & c & cs2 & Hcs & Hi & H1 & H2 & Hle).
    destruct (tower_node _ _ _ _ _ Hcs) as (_ & Tc & _ & _ & Cc).
    rewrite Hcs in *. destruct (descend_split key cs1 c cs2 Hi) as (Hlk & Hsp & Hcrm).
    pose proof (sorted_flatten_child _ _ _ Hs) as Hsc.
    apply Forall_app in Hlv as [_ [Hlc _]%Forall_cons]. pose proof Hk as [Hk1 [Hkc Hk2]%Forall_cons]%Forall_app.
    destruct c as [kc tc]. destruct (IH (flatten tc) kc tc (rm && bool_decide (cs2 = []))) as [(sub & Hsub) Ho]; [done..| |].
    { case_bool_decide as Hcs2; [|by intros _; split; [apply Cc|apply Hle]]. rewrite andb_true_r. intros ->.
      subst cs2. destruct (Hrm eq_refl) as [Hcl Hk']. destruct Hkc as [_ [u Hu]]. simpl in Hu.
      assert (last es = Some (kc, u)) as Hes.
      { rewrite <-Hf, flatten_all_app, last_app, flatten_all_single. simpl. by rewrite Hu. }
      rewrite Hw in Hes. injection Hes as -> ->. split; [|done]. apply (closed_le (S i)); [lia|].
      intros e He. rewrite Hu in He. injection He as <-. by apply Hcl. }
    destruct (pmut_edits i tc key (Set_ v) _ sub Hlc (proj1 Hkc) Hsc Hsub) as (Hfs & Hks & _).
    cbn [pmut orphaned]. rewrite Hlk, Hcrm. cbn [mbind option_bind snd]. rewrite Hsub, Ho. simpl. split; [eauto|].
    rewrite Hsp. destruct (last (cs1 ++ sub ++ cs2)) as [n|] eqn:El; [|done]. destruct rm; [done|].
    simpl. apply negb_false_iff. destruct (Hrm eq_refl) as [Hcl Hk'].
    destruct (keyed_last (cs1 ++ sub ++ cs2) n) as [u Hu]; [by rewrite !Forall_app|done|].
    rewrite !flatten_all_app, Hfs, <-edited_local in Hu by done.
    rewrite flatten_all_app, flatten_all_cons in Hf, Hs. simpl in Hf, Hs. rewrite Hf in Hu, Hs.
    destruct (last_edited_set es key v k w Hs Hw Hk') as [w' Hw']. rewrite Hw' in Hu. injection Hu as <- _.
    apply (Hcl _ Hw (S i)). lia.
Qed.
End Edit.

End ProllyEdit.
