(* ===== verification/ProllyWrite.v ===== *)
(** * Prolly trees: insertion and removal

    [mutate] and [finish] write the edited tree. Insertion gives the tree [build] gives over the
    edited entries. Removal gives it too unless it orphans an internal node; in every case the result
    is a search tree over the reduced entries. *)

From S2P Require Import Prelude Codec Types Cbor Store Prolly ProllyNode ProllyTree ProllyRead ProllyShape ProllyBuild ProllyEdit.

Module ProllyWrite.
Import Codec Cbor Digest Store Prolly ProllyNode ProllyTree ProllyRead ProllyShape ProllyBuild ProllyEdit.

(** ** Single-child roots *)

Fixpoint pcollapse (t : tree) : tree :=
  match t with
  | Inode [(_, t')] => pcollapse t'
  | _ => t
  end.

Fixpoint singles (t : tree) : nat :=
  match t with
  | Inode [(_, t')] => S (singles t')
  | _ => O
  end.

Lemma pcollapse_flatten t : flatten (pcollapse t) = flatten t.
Proof.
  induction t as [es|cs IH] using tree_ind_nested; [done|].
  destruct cs as [|[k t] [|]]; try done. apply Forall_cons in IH as [IH _]. simpl in *.
  by rewrite IH, app_nil_r.
Qed.

Lemma pcollapse_keyed t : keyed t -> keyed (pcollapse t).
Proof.
  induction t as [es|cs IH] using tree_ind_nested; [done|].
  destruct cs as [|[k t] [|]]; try done. apply Forall_cons in IH as [IH _].
  intros [[Hk _] _]%keyed_Inode%Forall_cons. by apply IH.
Qed.

Lemma pcollapse_leveled i t : leveled i t -> exists j, (j <= i)%nat /\ leveled j (pcollapse t).
Proof.
  revert t. induction i as [|i IH]; intros [es|cs] Hl; try done; [by exists O|].
  destruct cs as [|[k t] [|]]; [by destruct Hl| |by exists (S i)].
  destruct Hl as [_ [Hl _]%Forall_cons]. destruct (IH t Hl) as (j & ? & ?). exists j. split; [lia|done].
Qed.

Lemma singles_leveled i t : leveled i t -> (singles t <= i)%nat.
Proof.
  revert t. induction i as [|i IH]; intros [es|cs] Hl; try done.
  destruct cs as [|[k t] [|]]; [by destruct Hl| |simpl; lia].
  destruct Hl as [_ [Hl _]%Forall_cons]. specialize (IH t Hl). simpl. lia.
Qed.

(** A search tree: what a represented tree is before and after any edit. *)
Definition search_tree (t : tree) : Prop :=
  keyed t /\ sorted_by fst (flatten t) /\ leveled (hgt t) t.

Section Pure.
Context `{hasher : Hasher}.

Lemma climb_cases fuel level ns c :
  climb fuel level ns = Some [c] -> ns = [c] \/ exists cs, c.2 = Inode cs /\ (1 < length cs)%nat.
Proof.
  revert level ns. induction fuel as [|fuel IH]; intros level ns; cbn [climb];
    destruct (Nat.leb_spec (length ns) 1) as [Hl|Hl]; try done; try (intros [= ->]; by left).
  intros [H|H]%IH; right; [|done]. unfold inodes in H. exists ns. split; [|done].
  pose proof (chunks_concat (cut level) [] ns) as Hc. destruct (chunks _ _ _) as [|r [|]]; try done.
  simpl in *. rewrite app_nil_r in Hc. subst r. by injection H as <-.
Qed.

Lemma climb_singles fuel level ns k t h :
  climb fuel level ns = Some [(k, t)] -> Forall (fun c => leveled h c.2) ns -> (singles t <= h)%nat.
Proof.
  intros [->|(cs & Hcs & Hlen)]%climb_cases Hl; simpl in *.
  - apply Forall_cons in Hl as [Hl _]. by apply singles_leveled.
  - subst t. destruct cs as [|[] [|]]; simpl in *; lia.
Qed.

(** Climbing from a level reaches the first single-node level. *)
Lemma climb_reach n i m es c :
  (i <= m <= i + n)%nat -> tower m es = [c] ->
  (forall j, (i <= j < m)%nat -> (1 < length (tower j es))%nat) ->
  climb n (N.of_nat (S i)) (tower i es) = Some [c].
Proof.
  revert i. induction n as [|n IH]; intros i Him Hm Hj; cbn [climb].
  - assert (i = m) as -> by lia. by rewrite Hm.
  - destruct (decide (i = m)) as [->|Hne]; [by rewrite Hm|].
    rewrite (proj2 (Nat.leb_gt _ _)) by (apply Hj; lia).
    replace (N.of_nat (S i) + 1) with (N.of_nat (S (S i))) by lia.
    change (inodes (N.of_nat (S i)) (tower i es)) with (tower (S i) es). apply IH; [lia|done|].
    intros j Hj'. apply Hj. lia.
Qed.

(** Above a single-node level every level is one node with one child. *)
Lemma tower_above j m es k t :
  tower m es = [(k, t)] -> exists t', tower (j + m) es = [(k, t')] /\ pcollapse t' = pcollapse t.
Proof.
  intros Hm. induction j as [|j IH]; [by exists t|]. destruct IH as (t' & Ht' & Hc).
  exists (Inode [(k, t')]). split; [|done]. cbn [tower Nat.add]. rewrite Ht'. unfold inodes.
  by rewrite chunks_singleton.
Qed.

(** A built tree has no single-child root. *)
Lemma pure_build_collapsed es t : pure_build es = Some t -> pcollapse t = t.
Proof.
  intros (_ & _ & m & _ & _ & k & Hm & Hj)%pure_build_tree. destruct m as [|m].
  - by apply tower_0_single in Hm as ->.
  - apply tower_S_single in Hm as [-> _]. specialize (Hj m ltac:(lia)).
    destruct (tower m es) as [|[] [|]]; simpl in *; [lia..|done].
Qed.

(** Finishing from the level [h] over [es] gives the tree [build] gives. *)
Lemma finish_builds h es t :
  (h <= 254)%nat -> pure_build es = Some t ->
  exists k top, climb (255 - h) (N.of_nat (S h)) (tower h es) = Some [(k, top)]
  /\ tower (Nat.max h (hgt t)) es = [(k, top)] /\ pcollapse top = t.
Proof.
  intros Hh Hb. pose proof (pure_build_collapsed _ _ Hb) as Hc.
  destruct (pure_build_tree _ _ Hb) as (_ & _ & m & Hm & Hl & k & Ht & Hj).
  rewrite (leveled_hgt _ _ Hl). destruct (decide (h <= m)%nat) as [Hle|Hgt].
  - exists k, t. rewrite Nat.max_r by done. split_and!; try done. eapply climb_reach; [|done|]; [lia|].
    intros j Hj'. apply Hj. lia.
  - destruct (tower_above (h - m) m es k t Ht) as (t' & Ht' & Hc').
    replace (h - m + m)%nat with h in Ht' by lia. exists k, t'. rewrite Nat.max_l by lia.
    split_and!; [|done|congruence]. rewrite Ht'. by destruct (255 - h)%nat.
Qed.

(** ** Nodes that an edit leaves open

    In a built tree every internal node ends in a boundary of its level, except along the right edge. *)

Fixpoint shut (i : nat) (t : tree) (rightmost : bool) : Prop :=
  match i, t with
  | S i', Inode cs =>
      (rightmost = false -> forall c, last cs = Some c -> is_boundary c.1 (N.of_nat i) = true)
      /\ forall cs1 c cs2, cs = cs1 ++ c :: cs2 -> shut i' c.2 (rightmost && bool_decide (cs2 = []))
  | _, _ => True
  end.

(** One of the nodes, the last of which is on the right edge or not, is not shut. *)
Definition ajar (i : nat) (ns : list (bytes * tree)) (rightmost : bool) : Prop :=
  exists ns1 n ns2, ns = ns1 ++ n :: ns2 /\ ~ shut i n.2 (rightmost && bool_decide (ns2 = [])).

Lemma tower_shut i es k t rm : tower i es = [(k, t)] -> (rm = false -> closed i es) -> shut i t rm.
Proof.
  revert es k t rm. induction i as [|i IH]; intros es k t rm Ht Hc; [done|].
  pose proof (tower_S_single _ _ _ _ Ht) as [-> _]. cbn [shut]. split.
  - intros -> c Hl. by apply (closed_ends i es (Hc eq_refl)).
  - intros cs1 [kc tc] cs2 Hcs. destruct (tower_node _ _ _ _ _ Hcs) as (_ & Tc & _ & _ & Cc). cbn [snd] in *.
    apply (IH _ _ _ _ Tc). case_bool_decide as H2; [|by auto]. rewrite andb_true_r. intros ->. subst cs2.
    apply (closed_le (S i)); [lia|]. intros e He. apply (Hc eq_refl).
    rewrite <-(flatten_tower i es), Hcs, flatten_all_app, last_app, flatten_all_single. simpl. by rewrite He.
Qed.

Lemma concat_split {A} (rs : list (list A)) l1 x l2 :
  concat rs = l1 ++ x :: l2 -> Forall (fun r => r <> []) rs ->
  exists rs1 r1 r2 rs2, rs = rs1 ++ (r1 ++ x :: r2) :: rs2 /\ (l2 = [] <-> r2 = [] /\ rs2 = []).
Proof.
  revert l1. induction rs as [|r rs IH]; intros l1 H Hne; [by destruct l1|]. apply Forall_cons in Hne as [Hr Hne]. cbn [concat] in H.
  apply app_eq_app in H as (l & [[-> H]|[-> Hc]]).
  - destruct l as [|y l]; cbn [app] in *.
    + destruct (IH [] (eq_sym H) Hne) as (rs1 & r1 & r2 & rs2 & -> & Hl). rewrite app_nil_r. by exists (l1 :: rs1), r1, r2, rs2.
    + injection H as <- ->. exists [], l1, l, rs. split; [done|]. destruct Hne as [|r' rs' Hr' _]; [cbn [concat]; rewrite app_nil_r; naive_solver|]. split; [intros [_ Hn]%app_eq_nil|by intros [_ ?]]. cbn [concat] in Hn. by apply app_eq_nil in Hn as [? _].
  - destruct (IH l Hc Hne) as (rs1 & r1 & r2 & rs2 & -> & Hl). by exists (r :: rs1), r1, r2, rs2.
Qed.

(** A node that is not shut stays so under the levels above it. *)
Lemma ajar_up i ns rm : ajar i ns rm -> ajar (S i) (inodes (N.of_nat (S i)) ns) rm.
Proof.
  intros (ns1 & n & ns2 & -> & Hn). unfold inodes. set (rs := chunks _ _ _).
  destruct (concat_split rs ns1 n ns2) as (rs1 & r1 & r2 & rs2 & Hrs & Hnil); [exact (chunks_concat _ [] _)|apply chunks_nonempty|].
  rewrite Hrs, map_app. exists (map inode rs1), (inode (r1 ++ n :: r2)), (map inode rs2). split; [done|].
  intros [_ Hs]. apply Hn. specialize (Hs r1 n r2 eq_refl). replace (rm && bool_decide (ns2 = [])) with (rm && bool_decide (map inode rs2 = []) && bool_decide (r2 = [])); [exact Hs|].
  rewrite <-andb_assoc. f_equal. rewrite <-bool_decide_and. apply bool_decide_ext. rewrite Hnil. destruct rs2; cbn [map]; naive_solver.
Qed.

Lemma climb_ajar fuel i ns k t :
  ajar i ns true -> Forall (fun c => leveled i c.2) ns -> climb fuel (N.of_nat (S i)) ns = Some [(k, t)] -> exists j, leveled j t /\ ~ shut j t true.
Proof.
  revert i ns. induction fuel as [|fuel IH]; intros i ns Ha Hl; cbn [climb]; destruct (length ns <=? 1)%nat; try done;
    try (intros [= ->]; exists i; destruct Ha as ([|? [|]] & n & ns2 & Hns & Hn); try done; injection Hns as <- <-; by apply Forall_cons in Hl as [Hl _]).
  replace (N.of_nat (S i) + 1) with (N.of_nat (S (S i))) by lia. apply IH; [by apply ajar_up|by apply leveled_inodes].
Qed.

(** An edit that orphans a node leaves it open. *)
Lemma orphaned_ajar i t key change rm :
  leveled i t -> keyed t -> sorted_by fst (flatten t) -> orphaned i t key change rm = true -> exists ns, pmut i t key change rm = Some ns /\ ajar i ns rm.
Proof.
  revert t rm. induction i as [|i IH]; intros [es|cs] rm Hl Hk Hs; try done. destruct Hl as [Hne Hl]. apply keyed_Inode in Hk.
  change (flatten (Inode cs)) with (flatten_all cs) in *.
  destruct (descend_child cs key Hne Hk Hs) as (cs1 & c & cs2 & -> & Hi & H1 & H2 & _).
  destruct (descend_split key cs1 c cs2 Hi) as (Hlk & Hsp & Hrm). cbn [orphaned pmut]. rewrite Hlk. cbn [mbind option_bind]. rewrite Hrm.
  apply Forall_app in Hk as [_ [[Hkc _] _]%Forall_cons]. apply Forall_app in Hl as [_ [Hlc _]%Forall_cons].
  specialize (IH c.2 (rm && bool_decide (cs2 = [])) Hlc Hkc (sorted_flatten_child _ _ _ Hs)).
  destruct (orphaned i c.2 key change _).
  - intros _. destruct (IH eq_refl) as (sub & -> & (s1 & n & s2 & -> & Hn)). cbn [mbind option_bind]. eexists. split; [done|]. apply ajar_up.
    rewrite Hsp. exists (cs1 ++ s1), n, (s2 ++ cs2). split; [by rewrite <-!app_assoc|].
    replace (rm && bool_decide (s2 ++ cs2 = [])) with (rm && bool_decide (cs2 = []) && bool_decide (s2 = [])); [done|].
    rewrite <-andb_assoc. f_equal. rewrite <-bool_decide_and. apply bool_decide_ext. destruct s2; cbn [app]; naive_solver.
  - cbn [orb]. destruct (pmut i c.2 key change _) as [sub|]; [|done]. cbn [mbind option_bind]. rewrite Hsp. intros Hlast. eexists. split; [done|].
    destruct (last _) as [n|] eqn:El; [|done]. apply andb_true_iff in Hlast as [->%negb_true_iff Hb%negb_true_iff]. apply last_Some in El as [l El]. rewrite El.
    unfold inodes. destruct (concat_split (chunks (cut (N.of_nat (S i))) [] (l ++ [n])) l n []) as (rs1 & r1 & r2 & rs2 & Hrs & Hnil);
      [exact (chunks_concat _ [] _)|apply chunks_nonempty|]. destruct (proj1 Hnil eq_refl) as [-> ->]. rewrite Hrs, map_app.
    exists (map inode rs1), (inode (r1 ++ [n])), []. split; [done|]. cbn [andb]. intros [Hsh _]. specialize (Hsh eq_refl n). rewrite last_snoc in Hsh.
    rewrite Hsh in Hb; done.
Qed.

Lemma pcollapse_shut i t : leveled i t -> ~ shut i t true -> exists j, leveled j (pcollapse t) /\ ~ shut j (pcollapse t) true.
Proof.
  revert t. induction i as [|i IH]; intros [es|cs] Hl Hn; try done; try (by exfalso; apply Hn).
  destruct cs as [|[k t] [|c cs]]; [by destruct Hl| |by exists (S i)]. destruct Hl as [_ [Hl _]%Forall_cons]. cbn [pcollapse].
  apply (IH t Hl). intros Hs. apply Hn. split; [done|]. intros cs1 c cs2 Hc. destruct cs1 as [|? [|]]; [|done|done]. by injection Hc as <- <-.
Qed.

Lemma covered_tower_le U a i j es :
  (i <= j)%nat -> Forall (fun c => covered U a c.2) (tower j es) -> Forall (fun c => covered U a c.2) (tower i es).
Proof. intros Hij Hc. induction Hij as [|j _ IH]; [done|]. apply IH. by eapply covered_inodes. Qed.

Lemma keyed_nonempty ns : Forall keyed_child ns -> flatten_all ns = [] -> ns = [].
Proof.
  destruct ns as [|c ns]; [done|]. intros [[_ [v Hv]] _]%Forall_cons Hf.
  rewrite flatten_all_cons in Hf. apply app_eq_nil in Hf as [Hf _]. by rewrite Hf in Hv.
Qed.
End Pure.

Section Write.
Context `{hasher : Hasher} {S : Type} `{ops : !ObjectStore S} {U : bytes -> Prop} {ok : S -> Prop}
  `{laws : !StoreLaws S U ok}.
Implicit Types (s : S) (t : tree).

Lemma height_loop_spec n s h d t i :
  repr s d t -> leveled i t -> (i < n)%nat -> height_loop n s h d = Ok (h + N.of_nat i).
Proof.
  revert n h d t. induction i as [|i IH]; intros n h d [es|cs] Hr Hl Hn; try done;
    (destruct n as [|n]; [lia|]); cbn [height_loop].
  - simpl in Hr. rewrite Hr. simpl. f_equal. lia.
  - apply repr_Inode in Hr as (ch & Hr & Hch). rewrite Hr. simpl. destruct Hl as [Hne Hl].
    destruct Hch as [|c n' ch cs [_ Hc] _]; [done|]. apply Forall_cons in Hl as [Hl _]. simpl.
    rewrite (IH n (h + 1) c.2 n'.2); [f_equal; lia|done|done|lia].
Qed.

Lemma height_spec s d t : repr s d t -> leveled (hgt t) t -> (hgt t <= 64)%nat -> height s d = Ok (N.of_nat (hgt t)).
Proof. intros Hr Hl Hh. unfold height. rewrite (height_loop_spec _ _ _ _ _ _ Hr Hl); [done|unfold MAX_DEPTH; lia]. Qed.

Lemma nrel_lookup s ch cs i c :
  Forall2 (nrel s) ch cs -> cs !! i = Some c -> exists c', ch !! i = Some c' /\ nrel s c' c.
Proof. intros Hch Hi. destruct (Forall2_lookup_r _ _ _ _ _ Hch Hi) as (c' & ? & ?). eauto. Qed.

Lemma nrel_descend s ch cs key :
  Forall2 (nrel s) ch cs ->
  descend_index key ch = descend_index key cs /\ length ch = length cs.
Proof.
  intros Hch. pose proof (Forall2_length _ _ _ Hch) as Hl. split; [|done]. unfold descend_index.
  by rewrite Hl, (position_ext key ch cs) by by eapply nrel_keys.
Qed.

Lemma nrel_spliced s ch cs key chs sub :
  Forall2 (nrel s) ch cs -> Forall2 (nrel s) chs sub -> Forall2 (nrel s) (spliced key ch chs) (spliced key cs sub).
Proof.
  intros Hch Hsub. unfold spliced. destruct (nrel_descend s ch cs key Hch) as [-> _].
  apply Forall2_app; [by apply Forall2_take|]. apply Forall2_app; [done|by apply Forall2_drop].
Qed.

(** One level of [mutate] on an internal node, in terms of the splice. *)
Lemma mutate_internal s d level key change rm ch c :
  read_node s d = Ok (NInternal ch) -> ch !! descend_index key ch = Some c ->
  mutate s d (Datatypes.S level) key change rm
  = ('(sub, s) ← mutate s c.2 level key change (child_rightmost rm key ch);
     match sub with
     | None => Ok (None, s)
     | Some sub => '(ns, s) ← chunk_internal s (N.of_nat (Datatypes.S level)) (spliced key ch sub); Ok (Some ns, s)
     end).
Proof.
  intros Hr Hc. cbn [mutate]. rewrite Hr. cbn [mbind result_bind].
  fold (descend_index key ch). rewrite Hc. cbn [ok_or mbind result_bind].
  fold (child_rightmost rm key ch). destruct (mutate s c.2 level key change _) as [[[sub|] s']|]; try done.
  cbn [mbind result_bind]. fold (spliced key ch sub). by destruct (spliced key ch sub).
Qed.

(** [mutate] writes what the abstract edit gives. *)
Lemma mutate_refines i s d t key change rm :
  ok s -> repr s d t -> leveled i t ->
  match pmut i t key change rm with
  | None => mutate s d i key change rm = Ok (None, s)
  | Some ns => covered_all (U := U) s ns ->
      exists ch s', mutate s d i key change rm = Ok (Some ch, s') /\ ok s' /\ extends s s'
      /\ Forall2 (nrel s') ch ns
  end.
Proof.
  revert s d t rm. induction i as [|i IH]; intros s d [es|cs] rm Hok Hr Hl; try done.
  - simpl in Hr. cbn [pmut mutate]. rewrite Hr. cbn [mbind result_bind].
    assert (covered_all (U := U) s (leaf_nodes (apply_change es key change)) ->
      exists ch s', ('(ns, s) ← chunk_leaves s (apply_change es key change); Ok (Some ns, s)) = Ok (Some ch, s')
      /\ ok s' /\ extends s s' /\ Forall2 (nrel s') ch (leaf_nodes (apply_change es key change))) as Hc.
    { intros HU. destruct (chunk_leaves_spec s _ Hok HU) as (ch & s' & -> & ? & ? & ?). by exists ch, s'. }
    destruct (last (apply_change es key change)) as [e|]; [|done].
    by destruct (negb (is_boundary e.1 0) && negb rm).
  - destruct Hl as [Hne Hl]. apply repr_Inode in Hr as (ch & Hr & Hch). cbn [pmut].
    destruct (nrel_descend s ch cs key Hch) as [Hdi Hlen].
    assert (exists c, cs !! descend_index key cs = Some c) as [c Hc].
    { apply lookup_lt_is_Some_2. unfold descend_index. destruct (position key cs) as [j|] eqn:Ej; simpl.
      - apply position_Some in Ej as (? & ? & ? & -> & <- & _). rewrite length_app. simpl. lia.
      - destruct cs; [done|]. simpl. lia. }
    destruct (nrel_lookup s ch cs _ c Hch Hc) as (c' & Hc' & Hk & Hrc).
    rewrite Hc. cbn [mbind option_bind]. rewrite (mutate_internal s d i key change rm ch c') by (done || by rewrite Hdi).
    replace (child_rightmost rm key ch) with (child_rightmost rm key cs) by (unfold child_rightmost; by rewrite Hdi, Hlen).
    assert (leveled i c.2) as Hlc by (rewrite Forall_forall in Hl; by eapply Hl, list_elem_of_lookup_2).
    specialize (IH s c'.2 c.2 (child_rightmost rm key cs) Hok Hrc Hlc).
    destruct (pmut i c.2 key change _) as [sub|]; cbn [mbind option_bind]; [|by rewrite IH].
    intros HU. destruct IH as (chs & s1 & -> & Hok1 & Hext1 & Hsub).
    { apply covered_inodes in HU. unfold spliced in HU. rewrite !Forall_app in HU. apply HU. }
    cbn [mbind result_bind].
    destruct (chunk_internal_spec s1 (N.of_nat (Datatypes.S i)) (spliced key ch chs) (spliced key cs sub) Hok1)
      as (ch' & s' & -> & Hok' & Hext' & Hch'); [|by eapply covered_all_ext|].
    { apply nrel_spliced; [by eapply nrel_mono|done]. }
    exists ch', s'. split_and!; try done. by etrans.
Qed.

Lemma finish_levels_spec n fuel s level ch ns ns' :
  (n <= fuel)%nat -> level + N.of_nat n <= u8_max -> climb n (level + 1) ns = Some ns' ->
  ok s -> Forall2 (nrel s) ch ns -> covered_all (U := U) s ns' ->
  exists ch' s', finish_levels fuel s level ch = Ok (ch', s') /\ ok s' /\ extends s s'
  /\ Forall2 (nrel s') ch' ns'.
Proof.
  revert fuel s level ch ns. induction n as [|n IH]; intros fuel s level ch ns Hf Hl Hc Hok Hch HU;
    cbn [climb] in Hc; rewrite <-(nrel_length _ _ _ Hch) in Hc; destruct fuel as [|fuel];
    cbn [finish_levels]; destruct (length ch <=? 1)%nat; try done; try lia;
    try (injection Hc as <-; by exists ch, s).
  assert (covered_all (U := U) s (inodes (level + 1) ns)) as HU1 by by eapply climb_covered.
  unfold checked_add. rewrite (proj2 (N.leb_le (level + 1) u8_max)) by lia. cbn [ok_or mbind result_bind].
  destruct (chunk_internal_spec s (level + 1) ch ns Hok Hch HU1) as (ch1 & s1 & -> & Hok1 & Hext1 & Hch1).
  cbn [mbind result_bind].
  destruct (IH fuel s1 (level + 1) ch1 (inodes (level + 1) ns)) as (ch' & s' & -> & Hok' & Hext' & Hch');
    try done; [lia|lia|by eapply covered_all_ext|].
  exists ch', s'. split_and!; try done. by etrans.
Qed.

Lemma collapse_spec n s d t :
  repr s d t -> (singles t < n)%nat -> exists d', collapse n s d = Ok d' /\ repr s d' (pcollapse t).
Proof.
  revert d t. induction n as [|n IH]; intros d t Hr Hn; [lia|]. cbn [collapse].
  destruct t as [es|cs].
  - simpl in Hr. rewrite Hr. simpl. by exists d.
  - pose proof Hr as (ch & Hrn & Hch)%repr_Inode. rewrite Hrn. simpl.
    destruct Hch as [|c [k t] ch cs [_ Hc] Hch]; [by exists d|].
    destruct Hch as [|]; [|by exists d]. simpl in Hc, Hn. apply IH; [done|lia].
Qed.

Lemma finish_spec s ch ns h k top :
  (h <= 64)%nat -> climb (255 - h) (N.of_nat (Datatypes.S h)) ns = Some [(k, top)] ->
  Forall (fun c => leveled h c.2) ns -> ok s -> Forall2 (nrel s) ch ns -> covered U (digest_algo s) top ->
  exists d s', finish s ch (N.of_nat h) = Ok (d, s') /\ ok s' /\ extends s s' /\ repr s' d (pcollapse top).
Proof.
  intros Hh Hc Hl Hok Hch HU. unfold finish.
  destruct (finish_levels_spec (255 - h) 256 s (N.of_nat h) ch ns [(k, top)]) as (ch' & s' & Hf & Hok' & Hext & Hch');
    try done; [lia|unfold u8_max; lia|by replace (N.of_nat h + 1) with (N.of_nat (Datatypes.S h)) by lia
    |by constructor|].
  rewrite Hf. cbn [mbind result_bind].
  inversion Hch' as [|[k' d] ? ? ? [_ Hr] Hnil]; subst. inversion Hnil; subst. cbn [head ok_or mbind result_bind].
  destruct (collapse_spec (MAX_DEPTH + 1) s' d top Hr) as (d' & Hcol & Hr').
  { pose proof (climb_singles _ _ _ _ _ _ Hc Hl). unfold MAX_DEPTH. lia. }
  simpl snd. rewrite Hcol. cbn [mbind result_bind]. by exists d', s'.
Qed.

Lemma entries_spec s d t : repr s d t -> (hgt t <= 64)%nat -> entries s d = Ok (flatten t).
Proof. intros Hr Hh. unfold entries. rewrite (collect_entries_spec _ _ _ _ _ Hr); [done|unfold MAX_DEPTH; lia]. Qed.

(** ** Edits of a search tree *)

(** The tree an edit builds before it drops single-child roots: the local path when the edit opens
    no leaf, the rebuilt tree otherwise. *)
Definition edit_top t key change : option (list (bytes * tree)) :=
  match pmut (hgt t) t key change true with
  | Some ns => climb (255 - hgt t) (N.of_nat (Datatypes.S (hgt t))) ns
  | None => climb 254 1 (leaf_nodes (edited (flatten t) key change))
  end.

Lemma edit_top_search t key change k top :
  search_tree t -> edit_top t key change = Some [(k, top)] ->
  keyed (pcollapse top) /\ flatten (pcollapse top) = edited (flatten t) key change.
Proof.
  intros (Hk & Hs & Hl). unfold edit_top. rewrite pcollapse_flatten. intros Ht.
  assert (Forall keyed_child [(k, top)] /\ flatten_all [(k, top)] = edited (flatten t) key change) as [Hkc Hf].
  { destruct (pmut (hgt t) t key change true) as [ns|] eqn:Ep.
    - destruct (pmut_edits _ _ _ _ _ _ Hl Hk Hs Ep) as (Hf & Hkn & _).
      split; [by eapply climb_keyed|]. rewrite <-Hf. by eapply climb_flatten.
    - split; [eapply climb_keyed; [done|apply keyed_leaf_nodes]|].
      rewrite (climb_flatten _ _ _ _ Ht). apply flatten_leaf_nodes. }
  rewrite flatten_all_single in Hf. apply Forall_cons in Hkc as [[Hkt _] _].
  split; [by apply pcollapse_keyed|done].
Qed.

Lemma pure_build_of_climb es k t : climb 254 1 (leaf_nodes es) = Some [(k, t)] -> pure_build es = Some t.
Proof. intros H. unfold pure_build. by rewrite H. Qed.

Lemma rebuild_with_spec s r t key change k top :
  ok s -> repr s r t -> search_tree t -> (hgt t <= 64)%nat ->
  climb 254 1 (leaf_nodes (edited (flatten t) key change)) = Some [(k, top)] ->
  covered U (digest_algo s) top ->
  exists d s', rebuild_with s r key change = Ok (Some d, s') /\ ok s' /\ extends s s'
  /\ repr s' d (pcollapse top).
Proof.
  intros Hok Hr (_ & Hs & _) Hh Hc HU. unfold rebuild_with.
  rewrite (entries_spec _ _ _ Hr Hh). cbn [mbind result_bind]. rewrite apply_change_edited by done.
  apply pure_build_of_climb in Hc. rewrite (pure_build_collapsed _ _ Hc). by apply build_spec.
Qed.

Lemma insert_key_spec s r t key v k top :
  ok s -> repr s r t -> search_tree t -> (hgt t <= 64)%nat ->
  edit_top t key (Set_ v) = Some [(k, top)] -> covered U (digest_algo s) top ->
  exists d s', insert_key s (Some r) key v = Ok (d, s') /\ ok s' /\ extends s s' /\ repr s' d (pcollapse top).
Proof.
  intros Hok Hr Hst Hh Htop HU. pose proof Hst as (Hk & Hs & Hl). unfold insert_key, edit_top in *.
  rewrite (height_spec s r t Hr Hl Hh). cbn [mbind result_bind]. rewrite Nat2N.id.
  pose proof (mutate_refines (hgt t) s r t key (Set_ v) true Hok Hr Hl) as Hm.
  destruct (pmut (hgt t) t key (Set_ v) true) as [ns|] eqn:Ep.
  - destruct Hm as (ch & s1 & -> & Hok1 & Hext1 & Hch).
    { eapply climb_covered; [done|by constructor]. }
    cbn [mbind result_bind]. destruct (pmut_edits _ _ _ _ _ _ Hl Hk Hs Ep) as (_ & _ & Hln).
    destruct (finish_spec s1 ch ns (hgt t) k top) as (d & s' & Hf & Hok' & Hext' & Hr'); try done.
    { destruct Hext1 as [Ha _]. by rewrite Ha. }
    exists d, s'. split_and!; try done. by etrans.
  - rewrite Hm. cbn [mbind result_bind].
    destruct (rebuild_with_spec s r t key (Set_ v) k top) as (d & s' & -> & ?); try done. by exists d, s'.
Qed.

Lemma remove_key_spec s r t key k top :
  ok s -> repr s r t -> search_tree t -> (hgt t <= 64)%nat ->
  edit_top t key Remove = Some [(k, top)] -> covered U (digest_algo s) top ->
  exists d s', remove_key s r key = Ok (Some d, s') /\ ok s' /\ extends s s' /\ repr s' d (pcollapse top).
Proof.
  intros Hok Hr Hst Hh Htop HU. pose proof Hst as (Hk & Hs & Hl). unfold remove_key, edit_top in *.
  rewrite (height_spec s r t Hr Hl Hh). cbn [mbind result_bind]. rewrite Nat2N.id.
  pose proof (mutate_refines (hgt t) s r t key Remove true Hok Hr Hl) as Hm.
  destruct (pmut (hgt t) t key Remove true) as [ns|] eqn:Ep.
  - destruct Hm as (ch & s1 & -> & Hok1 & Hext1 & Hch).
    { eapply climb_covered; [done|by constructor]. }
    cbn [mbind result_bind]. destruct (pmut_edits _ _ _ _ _ _ Hl Hk Hs Ep) as (_ & _ & Hln).
    destruct (finish_spec s1 ch ns (hgt t) k top) as (d & s' & Hf & Hok' & Hext' & Hr'); try done.
    { destruct Hext1 as [Ha _]. by rewrite Ha. }
    destruct Hch as [|c n ch ns Hc Hch]; [by destruct (255 - hgt t)%nat; simpl in Htop|].
    rewrite Hf. cbn [mbind result_bind]. exists d, s'. split_and!; try done. by etrans.
  - rewrite Hm. cbn [mbind result_bind]. by apply (rebuild_with_spec s r t key Remove k top).
Qed.

(** Removing the only entry empties the tree. *)
Lemma remove_key_last s r t key :
  ok s -> repr s r t -> search_tree t -> (hgt t <= 64)%nat -> edited (flatten t) key Remove = [] ->
  exists s', remove_key s r key = Ok (None, s') /\ ok s' /\ extends s s'.
Proof.
  intros Hok Hr Hst Hh He. pose proof Hst as (Hk & Hs & Hl). unfold remove_key.
  rewrite (height_spec s r t Hr Hl Hh). cbn [mbind result_bind]. rewrite Nat2N.id.
  pose proof (mutate_refines (hgt t) s r t key Remove true Hok Hr Hl) as Hm.
  destruct (pmut (hgt t) t key Remove true) as [ns|] eqn:Ep.
  - destruct (pmut_edits _ _ _ _ _ _ Hl Hk Hs Ep) as (Hf & Hkn & _). rewrite He in Hf.
    apply keyed_nonempty in Hf as ->; [|done]. destruct Hm as (ch & s1 & -> & Hok1 & Hext1 & Hch); [constructor|].
    inversion Hch; subst. by exists s1.
  - rewrite Hm. cbn [mbind result_bind]. unfold rebuild_with. rewrite (entries_spec _ _ _ Hr Hh).
    cbn [mbind result_bind]. rewrite apply_change_edited, He by done. by exists s.
Qed.

(** ** Edits of a built tree *)

Lemma pure_build_search es t : sorted_by fst es -> pure_build es = Some t -> search_tree t.
Proof.
  intros Hs (Hf & Hk & m & _ & Hl & _)%pure_build_tree. split_and!; [done|by rewrite Hf|].
  by rewrite (leveled_hgt _ _ Hl).
Qed.

Lemma edit_top_builds es t t' key change :
  sorted_by fst es -> pure_build es = Some t -> (hgt t <= 64)%nat ->
  orphaned (hgt t) t key change true = false -> pure_build (edited es key change) = Some t' ->
  exists k top, edit_top t key change = Some [(k, top)] /\ pcollapse top = t'
  /\ forall a, Forall (fun c => covered U a c.2) (tower (Nat.max (hgt t) (hgt t')) (edited es key change)) ->
     covered U a top.
Proof.
  intros Hs Hb Hh Ho Hb'. destruct (pure_build_tree _ _ Hb) as (Hf & Hk & m & Hm & Hl & k & Ht & _).
  pose proof (leveled_hgt _ _ Hl) as Hhm. unfold edit_top. rewrite Hhm in *.
  destruct (pmut m t key change true) as [ns|] eqn:Ep.
  - destruct (pmut_tower m es k t key change true ns) as [-> _]; try done.
    destruct (finish_builds m (edited es key change) t' Hm Hb') as (k' & top & Hc & Htop & Hcol).
    exists k', top. split_and!; try done. intros a. rewrite Htop. by intros [? _]%Forall_cons.
  - rewrite Hf. destruct (pure_build_climb _ _ Hb') as [k' Hc]. exists k', t'.
    split_and!; [done|by eapply pure_build_collapsed|]. intros a HU.
    destruct (pure_build_tree _ _ Hb') as (_ & _ & m' & _ & Hl' & k'' & Ht' & _).
    rewrite (leveled_hgt _ _ Hl') in HU. apply (covered_tower_le _ _ m') in HU; [|lia].
    rewrite Ht' in HU. by apply Forall_cons in HU as [HU _].
Qed.

(** The tree an edit leaves when it orphans a node is not the tree of any entries. *)
Lemma orphaned_not_built es t es' t' key change k top :
  sorted_by fst es -> pure_build es = Some t -> orphaned (hgt t) t key change true = true ->
  edit_top t key change = Some [(k, top)] -> pure_build es' = Some t' -> pcollapse top <> t'.
Proof.
  intros Hs Hb Ho Htop Hb'. destruct (pure_build_search _ _ Hs Hb) as (Hk & Hs' & Hl).
  destruct (orphaned_ajar _ _ _ _ _ Hl Hk Hs' Ho) as (ns & Hp & Ha). unfold edit_top in Htop. rewrite Hp in Htop.
  destruct (pmut_edits _ _ _ _ _ _ Hl Hk Hs' Hp) as (_ & _ & Hln).
  destruct (climb_ajar _ _ _ _ _ Ha Hln Htop) as (j & Hlj & Hn). destruct (pcollapse_shut j top Hlj Hn) as (m & Hm & Hnm).
  intros E. rewrite E in Hm, Hnm. destruct (pure_build_tree _ _ Hb') as (_ & _ & m' & _ & Hl' & k' & Ht' & _).
  assert (m = m') as -> by (by rewrite <-(leveled_hgt _ _ Hm), (leveled_hgt _ _ Hl')). apply Hnm. by eapply tower_shut.
Qed.

Lemma insert_not_orphaned es t key v :
  sorted_by fst es -> pure_build es = Some t -> orphaned (hgt t) t key (Set_ v) true = false.
Proof.
  intros Hs (Hf & Hk & m & _ & Hl & k & Ht & _)%pure_build_tree. rewrite (leveled_hgt _ _ Hl).
  by apply (pmut_set m es k t key v true).
Qed.
End Write.

End ProllyWrite.
