(* ===== verification/ProllyCursor.v ===== *)
(** * Prolly trees: the streaming cursor

    The lazy in-order cursor with its stack of partly visited internal nodes, and the theorem that
    draining it gives the entries of the requested range, each once and in order. *)

From S2P Require Import Prelude Codec Types Cbor Store Prolly ProllyNode ProllyTree ProllyRead.

Module ProllyCursor.
Import Codec Cbor Digest Store Prolly ProllyNode ProllyTree ProllyRead.

Section Cursor.
Context `{hasher : Hasher} {S : Type} `{ops : !ObjectStore S}.

(** [ProllyCursor]; the top of the stack is the head of the list. *)
Record Cursor : Type := mkCursor {
  stack : list (ChildRun * nat);
  leaf : list Entry;
  leaf_idx : nat;
  upper : option bytes;
  start : option bytes;
  depth_guard : nat;
}.

(** [while idx < items.len() && items[idx].0 < s { idx += 1 }] from index 0. *)
Fixpoint skip_below {A} (s : bytes) (items : list (bytes * A)) : nat :=
  match items with
  | [] => O
  | x :: items => if x.1 <b? s then Datatypes.S (skip_below s items) else O
  end.

Definition start_index {A} (start : option bytes) (items : list (bytes * A)) : nat :=
  match start with Some s => skip_below s items | None => O end.

(** [descend_from]: [budget] is how often the depth guard may still be raised. *)
Fixpoint descend_loop (budget : nat) (store : S) (cur : Cursor) (d : Digest) : res Cursor :=
  match budget with
  | O => Err Error.CorruptObject
  | Datatypes.S budget =>
      let guard := Datatypes.S (depth_guard cur) in
      node ← read_node store d;
      match node with
      | NLeaf entries =>
          Ok (mkCursor (stack cur) entries (start_index (start cur) entries) (upper cur) (start cur) guard)
      | NInternal children =>
          let idx := start_index (start cur) children in
          match children !! idx with
          | None => Ok (mkCursor (stack cur) [] O (upper cur) (start cur) guard)
          | Some child =>
              descend_loop budget store
                (mkCursor ((children, Datatypes.S idx) :: stack cur) (leaf cur) (leaf_idx cur)
                   (upper cur) (start cur) guard) child.2
          end
      end
  end.

Definition descend_from (store : S) (cur : Cursor) (d : Digest) : res Cursor :=
  descend_loop (MAX_DEPTH * MAX_DEPTH - depth_guard cur) store cur d.

Definition open_range (store : S) (root : Digest) (start upper : option bytes) : res Cursor :=
  descend_from store (mkCursor [] [] O upper start O) root.

(** [ProllyCursor::open] *)
Definition open_all (store : S) (root : Digest) : res Cursor := open_range store root None None.

Definition open_prefix (store : S) (root : Digest) (prefix : bytes) : res Cursor :=
  open_range store root (Some prefix) (upper_bound prefix).

(** The inner loop of [next]: pop spent frames, take the next child of the first one that has one. *)
Fixpoint next_child (stack : list (ChildRun * nat)) : option (Digest * list (ChildRun * nat)) :=
  match stack with
  | [] => None
  | (children, idx) :: stack =>
      match children !! idx with
      | Some child => Some (child.2, (children, Datatypes.S idx) :: stack)
      | None => next_child stack
      end
  end.

(** [next]. Each round moves to another leaf, so the loop is given a number of rounds; [None] is
    running out of them, which [cursor_drains] excludes. *)
Fixpoint cursor_next (rounds : nat) (store : S) (cur : Cursor)
    : option (res (option Entry * Cursor)) :=
  match leaf cur !! leaf_idx cur with
  | Some (k, v) =>
      let past := match upper cur with Some u => u <=b? k | None => false end in
      if past then
        Some (Ok (None, mkCursor [] [] O (upper cur) (start cur) (depth_guard cur)))
      else
        Some (Ok (Some (k, v),
                  mkCursor (stack cur) (leaf cur) (Datatypes.S (leaf_idx cur)) (upper cur) (start cur)
                    (depth_guard cur)))
  | None =>
      match rounds with
      | O => None
      | Datatypes.S rounds =>
          match next_child (stack cur) with
          | None => Some (Ok (None, mkCursor [] (leaf cur) (leaf_idx cur) (upper cur) None O))
          | Some (child, stack) =>
              match descend_from store (mkCursor stack (leaf cur) (leaf_idx cur) (upper cur) None O) child with
              | Err e => Some (Err e)
              | Ok cur => cursor_next rounds store cur
              end
          end
      end
  end.

(** The cursor returns these entries, one per call, and then reports its end. *)
Inductive drains (store : S) : Cursor -> list Entry -> Prop :=
| drains_end cur cur' rounds :
    cursor_next rounds store cur = Some (Ok (None, cur')) -> drains store cur []
| drains_next cur e cur' es rounds :
    cursor_next rounds store cur = Some (Ok (Some e, cur')) -> drains store cur' es ->
    drains store cur (e :: es).

(** ** Ranges *)

Definition above_start (start : option bytes) (e : Entry) : Prop :=
  match start with Some s => ~ (e.1 <b s) | None => True end.
Definition below_upper (upper : option bytes) (e : Entry) : Prop :=
  match upper with Some u => e.1 <b u | None => True end.

#[global] Instance above_start_dec start e : Decision (above_start start e).
Proof. unfold above_start. destruct start; apply _. Defined.
#[global] Instance below_upper_dec upper e : Decision (below_upper upper e).
Proof. unfold below_upper. destruct upper; apply _. Defined.

(** Skipping to the start keeps the entries from it on. *)
Lemma start_index_entries st (es : list Entry) :
  sorted_by fst es -> drop (start_index st es) es = filter (above_start st) es.
Proof.
  intros Hs. destruct st as [k|]; simpl.
  - induction Hs as [|e es Hs IH He]; [done|]. simpl. destruct (bytes_ltb_spec e.1 k) as [Hlt|Hge].
    + rewrite filter_cons_False by (simpl; by intros Hn). apply IH.
    + rewrite filter_cons_True by done. simpl. f_equal. symmetry. apply filter_all.
      eapply Forall_impl; [exact He|]. unfold key_lt. simpl. intros e' He' Hk. apply Hge. by etrans.
  - symmetry. by apply filter_all, Forall_true.
Qed.

Lemma start_index_ext {A B} st (l1 : list (bytes * A)) (l2 : list (bytes * B)) :
  map fst l1 = map fst l2 -> start_index st l1 = start_index st l2.
Proof.
  destruct st as [k|]; [|done]. simpl. revert l2. induction l1 as [|x l1 IH]; intros [|y l2]; simpl; try done.
  intros [= -> H]. destruct (y.1 <b? k); [f_equal|]; by auto.
Qed.

(** Children skipped on the way to the start hold nothing from it on, and those after the first
    kept child hold only entries from it on. *)
Lemma start_index_children st (cs : list (bytes * tree)) :
  Forall keyed_child cs -> sorted_by fst (flatten_all cs) ->
  filter (above_start st) (flatten_all cs)
  = match drop (start_index st cs) cs with
    | [] => []
    | c :: cs' => filter (above_start st) (flatten c.2) ++ flatten_all cs'
    end.
Proof.
  intros Hk Hs. destruct st as [k|]; simpl.
  - induction cs as [|c cs IH]; [done|]. simpl.
    apply Forall_cons in Hk as [Hkc Hk]. pose proof (sorted_flatten_child [] c cs Hs) as Hsc.
    pose proof (flatten_all_above [] c cs Hkc Hs) as Habove.
    rewrite flatten_all_cons in Hs |- *. apply sorted_by_app in Hs as (_ & Hs & _). rewrite filter_app.
    destruct (bytes_ltb_spec c.1 k) as [Hlt|Hge]; simpl.
    + rewrite (filter_nothing _ (flatten c.2)); [by apply IH|]. apply Forall_forall. intros e He Hn.
      apply Hn. destruct Hkc as [_ [v Hv]]. eapply bytes_le_lt_trans; [|exact Hlt]. by eapply sorted_last_max.
    + f_equal. apply filter_all. eapply Forall_impl; [exact Habove|]. simpl. intros e He Hn. apply Hge. by etrans.
  - rewrite filter_all by by apply Forall_true. destruct cs as [|c cs]; [done|]. simpl.
    rewrite (filter_all _ (flatten c.2)) by by apply Forall_true. done.
Qed.
End Cursor.

(** The number of nodes of a tree, of a list of children. *)
Fixpoint weight (t : tree) : nat :=
  S match t with Leaf _ => O | Inode cs => sum_list (map (fun c => weight c.2) cs) end.
Definition weights (cs : list (bytes * tree)) : nat := sum_list (map (fun c => weight c.2) cs).

Lemma weight_Inode cs : weight (Inode cs) = S (weights cs).
Proof. done. Qed.

Lemma weights_app cs1 cs2 : weights (cs1 ++ cs2) = (weights cs1 + weights cs2)%nat.
Proof. unfold weights. rewrite map_app. induction (map _ cs1); simpl in *; lia. Qed.

Section Drain.
Context `{hasher : Hasher} {S : Type} `{ops : !ObjectStore S}.
Implicit Types (s : S) (cur : Cursor).

(** The children of a frame still to visit. *)
Definition visitable (t : tree) : Prop :=
  keyed t /\ sorted_by fst (flatten t) /\ (hgt t < MAX_DEPTH * MAX_DEPTH)%nat.

Definition frame_rel s (f : ChildRun * nat) (cs : list (bytes * tree)) : Prop :=
  Forall2 (nrel s) (drop f.2 f.1) cs /\ Forall (fun c => visitable c.2) cs.

Definition rest_of (css : list (list (bytes * tree))) : list Entry := concat (map flatten_all css).
Definition work (css : list (list (bytes * tree))) : nat := sum_list (map weights css).

(** What the cursor has still to return, and how many nodes it has still to visit. *)
Definition pending s cur (es : list Entry) (n : nat) : Prop :=
  exists css, Forall2 (frame_rel s) (stack cur) css
  /\ es = drop (leaf_idx cur) (leaf cur) ++ rest_of css /\ (work css <= n)%nat.

Lemma hgt_children cs c n : (hgt (Inode cs) < n)%nat -> c ∈ cs -> (hgt c.2 < n)%nat.
Proof. intros H Hc. pose proof (hgt_child cs c (hgt (Inode cs)) ltac:(lia) Hc). lia. Qed.

(** Descending into a tree puts its entries from the start on in front of what was pending. *)
Lemma descend_loop_spec s t n cur d css :
  repr s d t -> keyed t -> sorted_by fst (flatten t) -> (hgt t < n)%nat -> (n <= MAX_DEPTH * MAX_DEPTH)%nat ->
  Forall2 (frame_rel s) (stack cur) css ->
  exists cur', descend_loop n s cur d = Ok cur' /\ upper cur' = upper cur /\ start cur' = start cur
  /\ exists css', Forall2 (frame_rel s) (stack cur') css'
     /\ drop (leaf_idx cur') (leaf cur') ++ rest_of css'
        = filter (above_start (start cur)) (flatten t) ++ rest_of css
     /\ (work css' < weight t + work css)%nat.
Proof.
  revert n cur d css. induction t as [es|cs IH] using tree_ind_nested; intros n cur d css Hr Hk Hs Hn Hmax Hst;
    (destruct n as [|n]; [lia|]); cbn [descend_loop].
  - simpl in Hr. rewrite Hr. simpl. eexists. split_and!; [done..|]. exists css. simpl in Hs |- *.
    rewrite start_index_entries by done. split_and!; [done..|lia].
  - apply repr_Inode in Hr as (ch & Hr & Hch). rewrite Hr. cbn [mbind result_bind].
    apply keyed_Inode in Hk. change (flatten (Inode cs)) with (flatten_all cs) in *.
    rewrite (start_index_ext _ ch cs) by by eapply nrel_keys.
    rewrite (start_index_children _ cs Hk Hs), weight_Inode.
    set (i := start_index (start cur) cs).
    pose proof (Forall2_drop _ ch cs i Hch) as Hdrop.
    destruct (ch !! i) as [c|] eqn:Ec.
    + rewrite (drop_S _ _ _ Ec) in Hdrop.
      inversion Hdrop as [|? m ? cs' [_ Hm] Hcs' Hd0 Hd]; subst. clear Hdrop. symmetry in Hd.
      assert (cs !! i = Some m) as Hi.
      { pose proof (lookup_drop cs i 0) as Hl. rewrite Hd, Nat.add_0_r in Hl. done. }
      assert (m ∈ cs) as Hmin by by eapply list_elem_of_lookup_2.
      rewrite Forall_forall in IH. rewrite Forall_forall in Hk.
      destruct (IH m Hmin n (mkCursor ((ch, Datatypes.S i) :: stack cur) (leaf cur) (leaf_idx cur)
        (upper cur) (start cur) (Datatypes.S (depth_guard cur))) c.2 (cs' :: css))
        as (cur' & Hd' & Hu & Hst' & css' & H1 & H2 & H3).
      * done.
      * by apply (Hk m).
      * apply list_elem_of_split in Hmin as (l1 & l2 & ->). by eapply sorted_flatten_child.
      * by apply (hgt_child cs).
      * lia.
      * constructor; [|done]. split; [done|]. apply Forall_forall. intros c' Hc'.
        assert (c' ∈ cs) as Hin by (eapply subseteq_drop; rewrite Hd; by right).
        split_and!; [by apply (Hk c')| |by apply (hgt_children cs); [lia|]].
        apply list_elem_of_split in Hin as (l1 & l2 & ->). by eapply sorted_flatten_child.
      * exists cur'. split_and!; try done. exists css'. split_and!; [done| |].
        -- rewrite H2. simpl. unfold rest_of. simpl. by rewrite app_assoc.
        -- pose proof (weights_app (take i cs) (drop i cs)) as Hw. rewrite take_drop, Hd in Hw.
           unfold work, weights in *. simpl in *. lia.
    + rewrite lookup_ge_None in Ec. rewrite (drop_ge cs) by (rewrite <-(Forall2_length _ _ _ Hch); done).
      eexists. split_and!; [done..|]. exists css. split_and!; [done|done|lia].
Qed.

Lemma next_child_spec s fs css :
  Forall2 (frame_rel s) fs css ->
  match next_child fs with
  | None => rest_of css = []
  | Some (d, fs') =>
      exists c css', repr s d c /\ visitable c /\ Forall2 (frame_rel s) fs' css'
      /\ rest_of css = flatten c ++ rest_of css' /\ work css = (weight c + work css')%nat
  end.
Proof.
  induction 1 as [|[ch i] cs fs css [Hrel Hv] Hfs IH]; [done|]. cbn [next_child]. simpl in Hrel.
  destruct (ch !! i) as [c|] eqn:Ec.
  - rewrite (drop_S _ _ _ Ec) in Hrel. inversion Hrel as [|? m ? cs' [_ Hm] Hcs']; subst.
    apply Forall_cons in Hv as [Hvm Hv]. exists m.2, (cs' :: css). split_and!; try done.
    + by constructor.
    + unfold rest_of. simpl. by rewrite flatten_all_cons, app_assoc.
    + unfold work, weights. simpl. lia.
  - apply lookup_ge_None in Ec. rewrite drop_ge in Hrel by done. inversion Hrel; subst. done.
Qed.

Lemma filter_no_start (es : list Entry) : filter (above_start None) es = es.
Proof. by apply filter_all, Forall_true. Qed.

Lemma past_upper cur (e : Entry) :
  match upper cur with Some u => u <=b? e.1 | None => false end = negb (bool_decide (below_upper (upper cur) e)).
Proof.
  unfold below_upper. destruct (upper cur) as [u|]; [|done]. destruct (bytes_leb_spec u e.1) as [H|H].
  - by rewrite bool_decide_eq_false_2.
  - rewrite bool_decide_eq_true_2; [done|]. destruct (bytes_lt_trichotomy e.1 u) as [?|[?|?]]; [done|..];
      exfalso; apply H, bytes_le_lt; auto.
Qed.

(** Moving on from a spent leaf. *)
Lemma cursor_advance s n cur es :
  leaf cur !! leaf_idx cur = None -> pending s cur es n ->
  (es = [] /\ exists cur', forall m, cursor_next (Datatypes.S m) s cur = Some (Ok (None, cur')))
  \/ exists cur' n', n = Datatypes.S n' /\ pending s cur' es n' /\ upper cur' = upper cur
     /\ forall m, cursor_next (Datatypes.S m) s cur = cursor_next m s cur'.
Proof.
  intros El (css & Hst & -> & Hw). apply lookup_ge_None in El as Hge. rewrite drop_ge by done.
  cbn [cursor_next]. rewrite El. pose proof (next_child_spec s _ _ Hst) as Hn.
  destruct (next_child (stack cur)) as [[d fs]|]; [|left; rewrite Hn; eauto]. right.
  destruct Hn as (c & css' & Hr & (Hk & Hs & Hh) & Hfs & Hrest & Hwork).
  assert (1 <= weight c)%nat as Hw1 by (destruct c; simpl; lia).
  destruct (descend_loop_spec s c (MAX_DEPTH * MAX_DEPTH) (mkCursor fs (leaf cur) (leaf_idx cur) (upper cur) None 0) d css')
    as (cur' & Hd & Hu & Hstart & css2 & H1 & H2 & H3); try done.
  exists cur', (n - 1)%nat. split_and!; [lia| |done|].
  - exists css2. split_and!; [done| |lia]. simpl in H2. rewrite filter_no_start in H2. by rewrite H2, Hrest.
  - intros m. unfold descend_from. cbn [depth_guard]. rewrite Nat.sub_0_r, Hd. done.
Qed.

(** One call of [next]: the first pending entry if it is below the upper bound, otherwise the end. *)
Lemma cursor_next_spec s n cur es :
  pending s cur es n ->
  match es with
  | [] => exists cur', cursor_next (Datatypes.S n) s cur = Some (Ok (None, cur'))
  | e :: es' =>
      if decide (below_upper (upper cur) e)
      then exists cur' n', cursor_next (Datatypes.S n) s cur = Some (Ok (Some e, cur'))
           /\ pending s cur' es' n' /\ upper cur' = upper cur
      else exists cur', cursor_next (Datatypes.S n) s cur = Some (Ok (None, cur'))
  end.
Proof.
  revert cur. induction n as [n IH] using lt_wf_ind; intros cur Hp.
  destruct (leaf cur !! leaf_idx cur) as [[k v]|] eqn:El.
  - destruct Hp as (css & Hst & -> & Hw). rewrite (drop_S _ _ _ El). cbn [app].
    pose proof (past_upper cur (k, v)) as Hpast. cbn [fst] in Hpast.
    cbn [cursor_next]. rewrite El, Hpast.
    case_decide as Hb; [rewrite bool_decide_eq_true_2 by done|rewrite bool_decide_eq_false_2 by done]; simpl; [|eauto].
    eexists _, n. split; [done|]. split; [|done]. by exists css.
  - destruct (cursor_advance s n cur es El Hp) as [[-> (cur' & Hc)]|(cur' & n' & -> & Hp' & Hu & Hc)]; [eauto|].
    specialize (IH n' ltac:(lia) cur' Hp'). rewrite Hu in IH.
    destruct es as [|e es]; [|case_decide]; by setoid_rewrite Hc.
Qed.

Lemma pending_drains s n cur es :
  pending s cur es n -> sorted_by fst es -> drains s cur (filter (below_upper (upper cur)) es).
Proof.
  revert n cur. induction es as [|e es IH]; intros n cur Hp Hs; pose proof (cursor_next_spec s n cur _ Hp) as H;
    cbv beta iota in H.
  - destruct H as [cur' H]. by eapply drains_end.
  - apply sorted_by_cons_inv in Hs as [Hs He]. case_decide as Hb.
    + destruct H as (cur' & n' & H & Hp' & Hu). rewrite filter_cons_True by done.
      eapply drains_next; [done|]. rewrite <-Hu. by eapply IH.
    + destruct H as [cur' H]. rewrite filter_cons_False by done. rewrite filter_nothing; [by eapply drains_end|].
      eapply Forall_impl; [exact He|]. unfold key_lt, below_upper in *. destruct (upper cur) as [u|]; [|done].
      simpl. intros e' He' Hlt. apply Hb. by etrans.
Qed.

(** Opening a range and draining the cursor gives the entries of the range. *)
Lemma open_range_spec s root t st up :
  repr s root t -> keyed t -> sorted_by fst (flatten t) -> (hgt t < MAX_DEPTH * MAX_DEPTH)%nat ->
  exists cur, open_range s root st up = Ok cur
  /\ drains s cur (filter (below_upper up) (filter (above_start st) (flatten t))).
Proof.
  intros Hr Hk Hs Hh. unfold open_range, descend_from. cbn [depth_guard]. rewrite Nat.sub_0_r.
  destruct (descend_loop_spec s t (MAX_DEPTH * MAX_DEPTH) (mkCursor [] [] 0 up st 0) root [])
    as (cur' & Hd & Hu & Hstart & css & H1 & H2 & H3); try done.
  exists cur'. split; [done|]. simpl in Hu. rewrite <-Hu. eapply (pending_drains s (work css)).
  - exists css. split_and!; [done| |done]. simpl in H2. by rewrite H2, app_nil_r.
  - by apply filter_sorted.
Qed.
End Drain.

End ProllyCursor.
