(* ===== verification/ProllyReach.v ===== *)
(** * Prolly trees: the reachability walk

    The resumable walk that collects node addresses and leaf entries, skipping subtrees whose root is
    already held. The clock behind a deadline is a function of the number of readings made so far. *)

From S2P Require Import Prelude Codec Types Cbor Store Prolly ProllyNode ProllyTree ProllyRead ProllyShape ProllyCursor.

Module ProllyReach.
Import Codec Cbor Digest Store Prolly ProllyNode ProllyTree ProllyRead ProllyCursor.

(** A set of digests holds their bytes: digests compare by their bytes. *)
Definition DigestSet : Type := gset bytes.

Definition usize_max : N := 2 ^ 64 - 1.

Record ProllyReach : Type := mkProllyReach {
  reach_nodes : list Digest;
  reach_leaf_values : list bytes;
  reach_leaf_entries : list Entry;
}.

Definition no_reach : ProllyReach := mkProllyReach [] [] [].

Definition extend_reach (r1 r2 : ProllyReach) : ProllyReach :=
  mkProllyReach (reach_nodes r1 ++ reach_nodes r2) (reach_leaf_values r1 ++ reach_leaf_values r2)
    (reach_leaf_entries r1 ++ reach_leaf_entries r2).

Definition visit_node (r : ProllyReach) (d : Digest) : ProllyReach :=
  extend_reach r (mkProllyReach [d] [] []).

Definition visit_leaf (r : ProllyReach) (entries : list Entry) : ProllyReach :=
  extend_reach r (mkProllyReach [] (map snd entries) entries).

(** [ProllyReachCursor]: the top of the stack is the head of the list. *)
Definition ProllyReachCursor : Type := list (Digest * nat).

Definition reach_cursor_new (root : Digest) : ProllyReachCursor := [(root, O)].

Definition completed (c : ProllyReachCursor) : bool := bool_decide (c = []).

Section Reach.
Context `{hasher : Hasher} {S : Type} `{ops : !ObjectStore S}.
Context (expired : nat -> bool).

(** The loop of [step_reachable_with_leaves]: [tick] counts the clock readings, [rounds] bounds the
    iterations and [None] is running out of them. *)
Fixpoint step_loop (rounds : nat) (store : S) (have : DigestSet) (budget visited : N) (tick : nat)
    (cursor : ProllyReachCursor) (out : ProllyReach)
    : option (res (ProllyReach * N * ProllyReachCursor * nat)) :=
  if negb (visited <? budget) then Some (Ok (out, visited, cursor, tick))
  else match rounds with
  | O => None
  | Datatypes.S rounds =>
      if expired tick then Some (Ok (out, visited, cursor, Datatypes.S tick))
      else
        let tick := Datatypes.S tick in
        match cursor with
        | [] => Some (Ok (out, visited, [], tick))
        | (d, depth) :: stack =>
            if (MAX_DEPTH <? depth)%nat then Some (Err Error.CorruptObject)
            else if bool_decide (dbytes d ∈ have) then
              step_loop rounds store have budget visited tick stack out
            else
              let out := visit_node out d in
              let visited := visited + 1 in
              match read_node store d with
              | Err e => Some (Err e)
              | Ok (NLeaf entries) =>
                  step_loop rounds store have budget visited tick stack (visit_leaf out entries)
              | Ok (NInternal children) =>
                  step_loop rounds store have budget visited tick
                    (map (fun c => (c.2, Datatypes.S depth)) children ++ stack) out
              end
        end
  end.

Definition step_reachable_with_leaves (rounds : nat) (store : S) (have : DigestSet) (budget : N)
    (tick : nat) (cursor : ProllyReachCursor) : option (res (ProllyReach * N * ProllyReachCursor * nat)) :=
  step_loop rounds store have budget 0 tick cursor no_reach.

(** [reachable_with_leaves_until]: [while !cursor.completed() { step }], [rounds] bounding both
    loops. *)
Fixpoint until_loop (steps rounds : nat) (store : S) (have : DigestSet) (tick : nat)
    (cursor : ProllyReachCursor) (out : ProllyReach) : option (res ProllyReach) :=
  if completed cursor then Some (Ok out)
  else match steps with
  | O => None
  | Datatypes.S steps =>
      match step_reachable_with_leaves rounds store have usize_max tick cursor with
      | None => None
      | Some (Err e) => Some (Err e)
      | Some (Ok (step, _, cursor, tick)) =>
          until_loop steps rounds store have tick cursor (extend_reach out step)
      end
  end.

Definition reachable_with_leaves_until (fuel : nat) (store : S) (root : Digest) (have : DigestSet)
    : option (res ProllyReach) :=
  until_loop fuel fuel store have O (reach_cursor_new root) no_reach.
End Reach.

Section Walks.
Context `{hasher : Hasher} {S : Type} `{ops : !ObjectStore S}.

(** No deadline. *)
Definition never : nat -> bool := fun _ => false.

Definition reachable_with_leaves (fuel : nat) (store : S) (root : Digest) (have : DigestSet)
    : option (res ProllyReach) :=
  reachable_with_leaves_until never fuel store root have.

Definition reachable_nodes (fuel : nat) (store : S) (root : Digest) : option (res (list Digest)) :=
  match reachable_with_leaves fuel store root ∅ with
  | None => None
  | Some r => Some (reach_nodes <$> r)
  end.

(** ** The deadline *)

(** Once the deadline has passed, the walk with a deadline does not return: from any state that
    is not completed, every step gives up at once without progress, and the loop around it never
    looks at the deadline. *)
Theorem prolly_reach_deadline_spins (expired : nat -> bool) (store : S) have tick cursor out :
  (forall n, (tick <= n)%nat -> expired n = true) -> cursor <> [] ->
  forall steps rounds, until_loop expired steps rounds store have tick cursor out = None.
Proof.
  intros He Hc steps rounds. revert tick out He.
  induction steps as [|steps IH]; intros tick out He; cbn [until_loop];
    unfold completed; rewrite bool_decide_eq_false_2 by done; [done|].
  unfold step_reachable_with_leaves. destruct rounds; [done|]. cbn [step_loop].
  rewrite He by lia. apply IH. intros n Hn. apply He. lia.
Qed.
End Walks.

(** ** The walk over an abstract tree *)

Section Spec.
Context `{hasher : Hasher} {S : Type} `{ops : !ObjectStore S} {U : bytes -> Prop} {ok : S -> Prop}
  `{laws : !StoreLaws S U ok}.

(** The nodes the walk visits, in order. *)
Fixpoint pruned (have : DigestSet) (a : Algo) (t : tree) : list tree :=
  if decide (dig a t ∈ have) then []
  else t :: match t with Leaf _ => [] | Inode cs => concat (map (fun c => pruned have a c.2) cs) end.

Definition leaf_entries_of (t : tree) : list Entry := match t with Leaf es => es | Inode _ => [] end.

Definition entries_of (ts : list tree) : list Entry := concat (map leaf_entries_of ts).

(** What a walk reports for a list of visited nodes. *)
Definition reports (a : Algo) (r : ProllyReach) (ts : list tree) : Prop :=
  map dbytes (reach_nodes r) = map (dig a) ts
  /\ reach_leaf_entries r = entries_of ts /\ reach_leaf_values r = map snd (entries_of ts).

Lemma entries_of_app ts1 ts2 : entries_of (ts1 ++ ts2) = entries_of ts1 ++ entries_of ts2.
Proof. unfold entries_of. by rewrite map_app, concat_app. Qed.

Lemma reports_app a r1 r2 ts1 ts2 :
  reports a r1 ts1 -> reports a r2 ts2 -> reports a (extend_reach r1 r2) (ts1 ++ ts2).
Proof.
  intros (H1 & H2 & H3) (H4 & H5 & H6). unfold reports, extend_reach. simpl.
  by rewrite entries_of_app, !map_app, H1, H2, H3, H4, H5, H6.
Qed.

Lemma extend_reach_assoc r1 r2 r3 :
  extend_reach (extend_reach r1 r2) r3 = extend_reach r1 (extend_reach r2 r3).
Proof. unfold extend_reach. simpl. by rewrite !app_assoc. Qed.

Lemma extend_reach_nil r : extend_reach r no_reach = r.
Proof. destruct r. unfold extend_reach. simpl. by rewrite !app_nil_r. Qed.

Lemma visit_leaf_extend r d es :
  visit_leaf (visit_node r d) es = extend_reach r (visit_leaf (visit_node no_reach d) es).
Proof. unfold visit_leaf, visit_node. by rewrite extend_reach_assoc. Qed.

(** A stack entry stands for a subtree that is not too deep. *)
Definition stacked (s : S) (f : Digest * nat) (t : tree) : Prop :=
  repr s f.1 t /\ (f.2 + hgt t <= MAX_DEPTH)%nat.

Definition total (ts : list tree) : nat := sum_list (map weight ts).

Lemma stacked_children s ch cs depth :
  Forall2 (nrel s) ch cs -> (depth + hgt (Inode cs) <= MAX_DEPTH)%nat ->
  Forall2 (stacked s) (map (fun c => (c.2, Datatypes.S depth)) ch) (map snd cs).
Proof.
  intros Hch Hd.
  assert (forall c, c ∈ cs -> (Datatypes.S depth + hgt c.2 <= MAX_DEPTH)%nat) as Hh.
  { intros c Hc. pose proof (hgt_child cs c (hgt (Inode cs)) ltac:(lia) Hc). lia. }
  clear Hd. induction Hch as [|c n ch cs [_ Hr] _ IH]; simpl; constructor.
  - split; [done|]. apply Hh. left.
  - apply IH. intros c' Hc'. apply Hh. by right.
Qed.

Lemma total_children cs : total (map snd cs) = weights cs.
Proof. unfold total, weights. by rewrite map_map. Qed.

Lemma total_app ts1 ts2 : total (ts1 ++ ts2) = (total ts1 + total ts2)%nat.
Proof. unfold total. rewrite map_app. induction (map weight ts1); simpl in *; lia. Qed.

(** One step with a budget and rounds to spare visits everything on the stack. *)
Lemma step_loop_spec s have rounds budget visited tick stack ts out :
  ok s -> Forall2 (stacked s) stack ts -> (total ts < rounds)%nat -> visited + N.of_nat (total ts) < budget ->
  exists r visited' tick', step_loop never rounds s have budget visited tick stack out
    = Some (Ok (extend_reach out r, visited', [], tick'))
  /\ reports (digest_algo s) r (concat (map (pruned have (digest_algo s)) ts)).
Proof.
  intros Hok. revert visited tick stack ts out.
  induction rounds as [|rounds IH]; intros visited tick stack ts out Hst Hr Hb; [lia|].
  cbn [step_loop]. rewrite (proj2 (N.ltb_lt visited budget)) by lia. cbn [negb never].
  destruct Hst as [|[d depth] t stack ts [Hrep Hdepth] Hst].
  { exists no_reach, visited, (Datatypes.S tick). rewrite extend_reach_nil. done. }
  simpl in Hrep, Hdepth. rewrite (proj2 (Nat.ltb_ge MAX_DEPTH depth)) by lia.
  pose proof (repr_dig s d t Hok Hrep) as Hdig. rewrite Hdig.
  assert (total (t :: ts) = weight t + total ts)%nat as Htot by done. rewrite Htot in Hr, Hb.
  cbn [map concat]. destruct t as [es|cs]; cbn [pruned]; case_bool_decide as Hin.
  - rewrite decide_True by done. apply IH; [done|simpl in *; lia|simpl in *; lia].
  - rewrite decide_False by done. simpl in Hrep. rewrite Hrep.
    destruct (IH (visited + 1) (Datatypes.S tick) stack ts (visit_leaf (visit_node out d) es)) as (r & v' & t' & -> & Hrep');
      [done|simpl in *; lia|simpl in *; lia|].
    exists (extend_reach (visit_leaf (visit_node no_reach d) es) r), v', t'.
    split; [by rewrite visit_leaf_extend, extend_reach_assoc|]. apply reports_app; [|done].
    unfold reports, entries_of. simpl. by rewrite app_nil_r, Hdig.
  - rewrite decide_True by done. apply IH; [done|simpl in *; lia|simpl in *; lia].
  - rewrite decide_False by done. apply repr_Inode in Hrep as (ch & Hrn & Hch). rewrite Hrn.
    rewrite weight_Inode in Hr, Hb.
    destruct (IH (visited + 1) (Datatypes.S tick) (map (fun c => (c.2, Datatypes.S depth)) ch ++ stack)
      (map snd cs ++ ts) (visit_node out d)) as (r & v' & t' & -> & Hrep').
    + apply Forall2_app; [by apply stacked_children|done].
    + rewrite total_app, total_children. lia.
    + rewrite total_app, total_children. lia.
    + exists (extend_reach (visit_node no_reach d) r), v', t'.
      split; [unfold visit_node; by rewrite extend_reach_assoc|].
      rewrite map_app, concat_app, map_map in Hrep'.
      apply (reports_app _ _ _ [Inode cs]); [|done]. unfold reports. simpl. by rewrite Hdig.
Qed.

Lemma reachable_spec s have fuel root t :
  ok s -> repr s root t -> (hgt t <= MAX_DEPTH)%nat -> (weight t < fuel)%nat -> N.of_nat (weight t) < usize_max ->
  exists r, reachable_with_leaves fuel s root have = Some (Ok r)
  /\ reports (digest_algo s) r (pruned have (digest_algo s) t).
Proof.
  intros Hok Hr Hh Hf Hw. unfold reachable_with_leaves, reachable_with_leaves_until.
  unfold reach_cursor_new.
  destruct fuel as [|fuel]; [lia|]. cbn [until_loop]. unfold completed. rewrite bool_decide_eq_false_2 by done. unfold step_reachable_with_leaves.
  destruct (step_loop_spec s have (Datatypes.S fuel) usize_max 0 O [(root, O)] [t] no_reach)
    as (r & v & tk & Hstep & Hrep);
    [done|constructor; [split; [done|simpl; lia]|constructor]|unfold total; simpl; lia|unfold total; simpl; lia|].
  rewrite Hstep. exists r. simpl in Hrep. rewrite app_nil_r in Hrep. split; [|done].
  destruct fuel as [|fuel]; [destruct t; simpl in Hf; lia|]. by destruct r.
Qed.
End Spec.

End ProllyReach.
