(* ===== verification/ProllyDiff.v ===== *)
(** * Prolly trees: the diff

    The diff of two trees visits only what they do not share, and reports exactly the keys whose
    values differ. *)

From S2P Require Import Prelude Codec Types Cbor Store Prolly ProllyNode ProllyTree ProllyRead ProllyShape ProllyBuild ProllyCursor ProllyReach.

Module ProllyDiff.
Import Codec Cbor Digest Store Prolly ProllyNode ProllyTree ProllyRead ProllyBuild ProllyCursor ProllyReach.

Definition DiffEntry : Type := bytes * option bytes * option bytes.

(** The last loop of [diff]: one entry per key, in key order, whose values differ. *)
Definition diff_entry (am bm : gmap bytes bytes) (key : bytes) : option DiffEntry :=
  let av := am !! key in
  let bv := bm !! key in
  if bool_decide (av = bv) then None else Some (key, av, bv).

Definition diff_entries (am bm : gmap bytes bytes) : list DiffEntry :=
  omap (diff_entry am bm) (sort_by id (elements (dom am ∪ dom bm))).

Section Diff.
Context `{hasher : Hasher} {S : Type} `{ops : !ObjectStore S}.

Fixpoint changed_entries (levels : nat) (store : S) (have : DigestSet) (root : Digest) (out : list Entry)
    : res (list Entry) :=
  match levels with
  | O => Err Error.CorruptObject
  | Datatypes.S levels =>
      if bool_decide (dbytes root ∈ have) then Ok out
      else
        node ← read_node store root;
        match node with
        | NLeaf entries => Ok (out ++ entries)
        | NInternal children =>
            try_fold (fun out c => changed_entries levels store have c.2 out) out children
        end
  end.

Definition nodes_of (fuel : nat) (store : S) (root : option Digest) : option (res DigestSet) :=
  match root with
  | None => Some (Ok ∅)
  | Some r =>
      match reachable_nodes fuel store r with
      | None => None
      | Some ns => Some ((fun ns => list_to_set (map dbytes ns)) <$> ns)
      end
  end.

Definition changed_of (store : S) (root : option Digest) (have : DigestSet) : res (list Entry) :=
  match root with
  | None => Ok []
  | Some r => changed_entries (MAX_DEPTH + 1) store have r []
  end.

(** [diff]; [fuel] bounds the reachability walks. *)
Definition diff (fuel : nat) (store : S) (a b : option Digest) : option (res (list DiffEntry)) :=
  match nodes_of fuel store a with
  | None => None
  | Some (Err e) => Some (Err e)
  | Some (Ok a_nodes) =>
      match nodes_of fuel store b with
      | None => None
      | Some (Err e) => Some (Err e)
      | Some (Ok b_nodes) =>
          Some (am ← changed_of store a b_nodes;
                bm ← changed_of store b a_nodes;
                Ok (diff_entries (collect_map am) (collect_map bm)))
      end
  end.
End Diff.

(** ** Diffs of maps *)

Lemma elem_of_diff_entries am bm k x y :
  (k, x, y) ∈ diff_entries am bm <-> x = am !! k /\ y = bm !! k /\ x <> y.
Proof.
  unfold diff_entries. rewrite list_elem_of_omap. unfold diff_entry. split.
  - intros (k' & _ & H). case_bool_decide; [done|]. by injection H as <- <- <-.
  - intros (-> & -> & Hne). exists k. rewrite bool_decide_eq_false_2 by done. split; [|done].
    rewrite sort_by_perm, elem_of_elements, elem_of_union, !elem_of_dom.
    destruct (am !! k); [left; eauto|]. destruct (bm !! k); [right; eauto|done].
Qed.

Lemma diff_entries_sorted am bm : sorted_by (fun e => e.1.1) (diff_entries am bm).
Proof.
  unfold diff_entries. assert (sorted_by id (sort_by id (elements (dom am ∪ dom bm)))) as Hs.
  { apply sorted_by_no_dup; [apply sort_by_sorted|]. apply adjacent_dup_sort. rewrite map_id. apply NoDup_elements. }
  induction Hs as [|k l Hs IH Hk]; [constructor|]. simpl. destruct (diff_entry am bm k) as [e|] eqn:E; [|done].
  constructor; [done|]. unfold diff_entry in E. case_bool_decide; [done|]. injection E as <-.
  apply Forall_forall. intros e (k' & Hk' & He)%list_elem_of_omap. rewrite Forall_forall in Hk.
  unfold diff_entry in He. case_bool_decide; [done|]. injection He as <-. by apply (Hk k').
Qed.

(** ** Shared and changed nodes *)

Section Shared.
Context `{hasher : Hasher}.

Lemma nodes_Inode cs : nodes (Inode cs) = Inode cs :: concat (map (fun c => nodes c.2) cs).
Proof. done. Qed.

Lemma elem_of_concat_map {A B} (f : A -> list B) l y : y ∈ concat (map f l) <-> exists x, x ∈ l /\ y ∈ f x.
Proof.
  induction l as [|x l IH]; simpl; [set_solver|]. rewrite elem_of_app, IH. set_solver.
Qed.

Lemma nodes_refl t : t ∈ nodes t.
Proof. destruct t; left. Qed.

Lemma nodes_trans t n m : n ∈ nodes t -> m ∈ nodes n -> m ∈ nodes t.
Proof.
  induction t as [es|cs IH] using tree_ind_nested.
  - intros ->%list_elem_of_singleton. done.
  - rewrite nodes_Inode, elem_of_cons, elem_of_concat_map. intros [->|(c & Hc & Hn)] Hm; [done|].
    rewrite elem_of_cons, elem_of_concat_map. right. exists c. split; [done|]. rewrite Forall_forall in IH.
    by apply IH.
Qed.

(** Every entry lies in a leaf, and a leaf's entries are the tree's. *)
Lemma flatten_leaf t e : e ∈ flatten t <-> exists es, Leaf es ∈ nodes t /\ e ∈ es.
Proof.
  induction t as [es|cs IH] using tree_ind_nested.
  - split; [intros He; exists es; split; [left|done]|]. intros (es' & [= ->]%list_elem_of_singleton & He). done.
  - change (flatten (Inode cs)) with (flatten_all cs). rewrite elem_of_flatten_all. rewrite Forall_forall in IH.
    split.
    + intros (c & Hc & (es & Hes & He)%(IH c Hc)). exists es. split; [|done].
      rewrite nodes_Inode, elem_of_cons, elem_of_concat_map. right. eauto.
    + intros (es & Hes & He). rewrite nodes_Inode, elem_of_cons, elem_of_concat_map in Hes.
      destruct Hes as [[=]|(c & Hc & Hes)]. exists c. split; [done|]. apply (IH c Hc). eauto.
Qed.

(** In a sorted tree a key lies in one leaf. *)
Lemma leaf_unique t es1 es2 e1 e2 :
  sorted_by fst (flatten t) -> Leaf es1 ∈ nodes t -> Leaf es2 ∈ nodes t ->
  e1 ∈ es1 -> e2 ∈ es2 -> e1.1 = e2.1 -> es1 = es2.
Proof.
  intros Hs H1 H2 He1 He2 Hk. revert Hs H1 H2. induction t as [es|cs IH] using tree_ind_nested.
  - intros _ [= ->]%list_elem_of_singleton [= ->]%list_elem_of_singleton. done.
  - change (flatten (Inode cs)) with (flatten_all cs). rewrite nodes_Inode, !elem_of_cons.
    intros Hs [[=]|H1] [[=]|H2]. induction cs as [|c cs IHcs]; [by apply not_elem_of_nil in H1|].
    apply Forall_cons in IH as [IHc IH]. rewrite flatten_all_cons in Hs.
    apply sorted_by_app in Hs as (Hsc & Hs & Hlt). simpl in H1, H2.
    apply elem_of_app in H1, H2.
    assert (forall es e, Leaf es ∈ nodes c.2 -> e ∈ es -> e ∈ flatten c.2) as Hin
      by (intros; apply flatten_leaf; eauto).
    assert (forall es e, Leaf es ∈ concat (map (fun c => nodes c.2) cs) -> e ∈ es -> e ∈ flatten_all cs) as Hin'.
    { intros es e (c' & Hc' & Hes)%elem_of_concat_map He. apply elem_of_flatten_all. exists c'.
      split; [done|]. apply flatten_leaf. eauto. }
    destruct H1 as [H1|H1], H2 as [H2|H2].
    + by apply IHc.
    + exfalso. pose proof (Hlt e1 e2 (Hin _ _ H1 He1) (Hin' _ _ H2 He2)) as Hl. unfold key_lt in Hl.
      rewrite Hk in Hl. by eapply bytes_lt_irrefl.
    + exfalso. pose proof (Hlt e2 e1 (Hin _ _ H2 He2) (Hin' _ _ H1 He1)) as Hl. unfold key_lt in Hl.
      rewrite Hk in Hl. by eapply bytes_lt_irrefl.
    + by apply IHcs.
Qed.

(** An entry is visited, or lies below a node that is held. *)
Lemma pruned_or_held have a t e :
  e ∈ flatten t -> e ∈ entries_of (pruned have a t) \/ exists n, n ∈ nodes t /\ dig a n ∈ have /\ e ∈ flatten n.
Proof.
  induction t as [es|cs IH] using tree_ind_nested; intros He; cbn [pruned].
  - case_decide as Hd; [right; exists (Leaf es); split_and!; [left|done|done]|]. left.
    unfold entries_of. simpl. by rewrite app_nil_r.
  - case_decide as Hd; [right; exists (Inode cs); split_and!; [left|done|done]|].
    change (flatten (Inode cs)) with (flatten_all cs) in He.
    apply elem_of_flatten_all in He as (c & Hc & He). rewrite Forall_forall in IH.
    destruct (IH c Hc He) as [H|(n & Hn & Hd' & Hen)].
    + left. unfold entries_of in *. cbn [map concat leaf_entries_of app].
      apply elem_of_concat_map in H as (n & Hn & Hen). apply elem_of_concat_map. exists n. split; [|done].
      apply elem_of_concat_map. eauto.
    + right. exists n. split_and!; [|done..]. rewrite nodes_Inode, elem_of_cons, elem_of_concat_map. right. eauto.
Qed.

(** A visited entry lies in a leaf that is not held. *)
Lemma pruned_leaf have a t e :
  e ∈ entries_of (pruned have a t) -> exists es, Leaf es ∈ nodes t /\ e ∈ es /\ dig a (Leaf es) ∉ have.
Proof.
  intros (n & Hn & He)%elem_of_concat_map. destruct n as [es|]; [|by apply not_elem_of_nil in He].
  simpl in He. exists es. cut (Leaf es ∈ nodes t /\ dig a (Leaf es) ∉ have); [tauto|]. clear He. revert Hn.
  induction t as [es'|cs IH] using tree_ind_nested; cbn [pruned]; case_decide as Hd;
    intros Hn; try (by apply not_elem_of_nil in Hn).
  - apply list_elem_of_singleton in Hn as [= ->]. split; [left|done].
  - apply elem_of_cons in Hn as [[=]|Hn]. apply elem_of_concat_map in Hn as (c & Hc & Hn).
    rewrite Forall_forall in IH. destruct (IH c Hc Hn) as [H1 H2]. split; [|done].
    rewrite nodes_Inode, elem_of_cons, elem_of_concat_map. right. eauto.
Qed.

Lemma pruned_entry have a t e : e ∈ entries_of (pruned have a t) -> e ∈ flatten t.
Proof. intros (es & Hes & He & _)%pruned_leaf. apply flatten_leaf. eauto. Qed.

Lemma entries_of_pruned_sublist have a t : sublist (entries_of (pruned have a t)) (flatten t).
Proof.
  induction t as [es|cs IH] using tree_ind_nested; cbn [pruned]; case_decide as Hd; clear Hd;
    unfold entries_of; cbn [map concat leaf_entries_of app]; try apply sublist_nil_l;
    [rewrite app_nil_r; reflexivity|].
  change (flatten (Inode cs)) with (flatten_all cs). unfold flatten_all.
  induction IH as [|c cs Hc _ IHcs]; [done|]. simpl. rewrite map_app, concat_app. by apply sublist_app.
Qed.
End Shared.

Section Correct.
Context `{hasher : Hasher} {S : Type} `{ops : !ObjectStore S} {U : bytes -> Prop} {ok : S -> Prop}
  `{laws : !StoreLaws S U ok}.
Implicit Types (s : S) (t : tree).

Lemma nodes_repr s d t n : repr s d t -> n ∈ nodes t -> exists d', repr s d' n.
Proof.
  revert d. induction t as [es|cs IH] using tree_ind_nested; intros d Hr Hn.
  - apply list_elem_of_singleton in Hn as ->. by exists d.
  - rewrite nodes_Inode, elem_of_cons, elem_of_concat_map in Hn. destruct Hn as [->|(c & Hc & Hn)]; [by exists d|].
    apply repr_Inode in Hr as (ch & _ & Hch). rewrite Forall_forall in IH.
    apply list_elem_of_lookup in Hc as [i Hi]. destruct (Forall2_lookup_r _ _ _ _ _ Hch Hi) as (c' & _ & _ & Hrc).
    eapply (IH c); [by eapply list_elem_of_lookup_2|done..].
Qed.

(** Stored nodes with the same address are the same node. *)
Lemma stored_dig_inj s d1 d2 t1 t2 :
  ok s -> repr s d1 t1 -> repr s d2 t2 -> dig (digest_algo s) t1 = dig (digest_algo s) t2 -> t1 = t2.
Proof.
  intros Hok H1 H2 He. eapply repr_functional; [|exact H2]. eapply repr_proper; [|exact H1].
  unfold equiv, digest_equiv. by rewrite (repr_dig s d1 t1), (repr_dig s d2 t2).
Qed.

Definition node_digs (a : Algo) (t : tree) : DigestSet := list_to_set (map (dig a) (nodes t)).

Lemma elem_of_node_digs a t x : x ∈ node_digs a t <-> exists n, n ∈ nodes t /\ x = dig a n.
Proof. unfold node_digs. rewrite elem_of_list_to_set, list_elem_of_fmap. naive_solver. Qed.

(** A pruned key has the same value in the other tree and is pruned there too. *)
Lemma pruned_shared s d1 d2 t1 t2 k v :
  ok s -> repr s d1 t1 -> repr s d2 t2 -> sorted_by fst (flatten t2) ->
  (k, v) ∈ flatten t1 -> (k, v) ∉ entries_of (pruned (node_digs (digest_algo s) t2) (digest_algo s) t1) ->
  (k, v) ∈ flatten t2
  /\ forall v', (k, v') ∉ entries_of (pruned (node_digs (digest_algo s) t1) (digest_algo s) t2).
Proof.
  intros Hok Hr1 Hr2 Hs He Hn.
  destruct (pruned_or_held (node_digs (digest_algo s) t2) (digest_algo s) t1 (k, v) He)
    as [H|(n & Hn1 & (n' & Hn2 & Hd)%elem_of_node_digs & Hen)]; [done|].
  assert (n = n') as <-.
  { destruct (nodes_repr s d1 t1 n Hr1 Hn1) as [e1 Hre1]. destruct (nodes_repr s d2 t2 n' Hr2 Hn2) as [e2 Hre2].
    by eapply stored_dig_inj. }
  apply flatten_leaf in Hen as (es & Hes & Hin).
  pose proof (nodes_trans _ _ _ Hn1 Hes) as Hes1. pose proof (nodes_trans _ _ _ Hn2 Hes) as Hes2.
  split; [apply flatten_leaf; eauto|]. intros v' (es' & Hes' & Hin' & Hnot)%pruned_leaf.
  assert (es' = es) as -> by by eapply (leaf_unique t2 es' es (k, v') (k, v)).
  apply Hnot, elem_of_node_digs. eauto.
Qed.

Lemma changed_entries_spec s have t levels d out :
  ok s -> repr s d t -> (hgt t < levels)%nat ->
  changed_entries levels s have d out = Ok (out ++ entries_of (pruned have (digest_algo s) t)).
Proof.
  intros Hok. revert levels d out. induction t as [es|cs IH] using tree_ind_nested; intros levels d out Hr Hh;
    (destruct levels as [|levels]; [lia|]); cbn [changed_entries pruned]; rewrite (repr_dig s d _ Hok Hr);
    (case_bool_decide as Hd; [rewrite decide_True by done; by rewrite app_nil_r|rewrite decide_False by done]).
  - simpl in Hr. rewrite Hr. unfold entries_of. simpl. by rewrite app_nil_r.
  - apply repr_Inode in Hr as (ch & Hr & Hch). rewrite Hr. cbn [mbind result_bind]. clear Hr Hd.
    assert (forall c, c ∈ cs -> (hgt c.2 < levels)%nat) as Hc by (intros c; by apply hgt_child).
    clear Hh. unfold entries_of. cbn [map concat leaf_entries_of app]. revert out.
    induction Hch as [|c m ch cs [_ Hm] _ IHch]; intros out; simpl; [by rewrite app_nil_r|].
    apply Forall_cons in IH as [Ht IH]. rewrite (Ht levels); [|done|apply Hc; left]. simpl.
    rewrite IHch; [|done|intros c' Hc'; apply Hc; by right]. rewrite map_app, concat_app, app_assoc. done.
Qed.

(** ** Diffs of possibly empty trees *)

Definition orepr s (d : option Digest) (t : option tree) : Prop :=
  match d, t with
  | None, None => True
  | Some d, Some t => repr s d t
  | _, _ => False
  end.

Definition oflatten (t : option tree) : list Entry := from_option flatten [] t.

(** The sizes the walks and the depth guards allow. *)
Definition walkable (fuel : nat) (t : option tree) : Prop :=
  match t with
  | None => True
  | Some t => (hgt t <= MAX_DEPTH)%nat /\ (weight t < fuel)%nat /\ N.of_nat (weight t) < usize_max
  end.

Definition odigs (a : Algo) (t : option tree) : DigestSet := from_option (node_digs a) ∅ t.
Definition ochanged (have : DigestSet) (a : Algo) (t : option tree) : list Entry :=
  from_option (fun t => entries_of (pruned have a t)) [] t.

Lemma pruned_empty a t : pruned ∅ a t = nodes t.
Proof.
  induction t as [es|cs IH] using tree_ind_nested; cbn [pruned]; rewrite decide_False by set_solver; [done|].
  rewrite nodes_Inode. f_equal. induction IH as [|c cs Hc _ IHcs]; [done|]. simpl. by rewrite Hc, IHcs.
Qed.

Lemma nodes_of_spec s fuel d (t : option tree) :
  ok s -> orepr s d t -> walkable fuel t -> nodes_of fuel s d = Some (Ok (odigs (digest_algo s) t)).
Proof.
  intros Hok Hr Hw. destruct d as [d|], t as [t|]; try done. destruct Hw as (Hh & Hf & Hw). simpl in Hr.
  unfold nodes_of, reachable_nodes.
  destruct (reachable_spec s ∅ fuel d t Hok Hr Hh Hf Hw) as (r & -> & (Hn & _)). simpl.
  rewrite pruned_empty in Hn. by rewrite Hn.
Qed.

Lemma changed_of_spec s fuel d (t : option tree) have :
  ok s -> orepr s d t -> walkable fuel t -> changed_of s d have = Ok (ochanged have (digest_algo s) t).
Proof.
  intros Hok Hr Hw. destruct d as [d|], t as [t|]; try done. destruct Hw as (Hh & _). unfold changed_of.
  rewrite (changed_entries_spec s have t) by (done || (unfold MAX_DEPTH in *; lia)). done.
Qed.

Lemma ochanged_map s d (t : option tree) have :
  orepr s d t -> sorted_by fst (oflatten t) -> collect_map (ochanged have (digest_algo s) t) = tmap (ochanged have (digest_algo s) t)
  /\ forall k v, tmap (ochanged have (digest_algo s) t) !! k = Some v <-> (k, v) ∈ ochanged have (digest_algo s) t.
Proof.
  intros Hr Hs. assert (NoDup (map fst (ochanged have (digest_algo s) t))) as Hn.
  { destruct t as [t|]; [|constructor]. simpl. eapply sublist_NoDup; [by apply (sorted_by_NoDup fst (flatten t))|].
    apply (fmap_sublist fst), entries_of_pruned_sublist. }
  split; [by apply collect_map_nodup|]. intros k v. unfold tmap. by rewrite <-elem_of_list_to_map.
Qed.

Lemma ochanged_shared s d1 d2 (t1 t2 : option tree) k v :
  ok s -> orepr s d1 t1 -> orepr s d2 t2 -> sorted_by fst (oflatten t2) ->
  (k, v) ∈ oflatten t1 -> (k, v) ∉ ochanged (odigs (digest_algo s) t2) (digest_algo s) t1 ->
  (k, v) ∈ oflatten t2 /\ forall v', (k, v') ∉ ochanged (odigs (digest_algo s) t1) (digest_algo s) t2.
Proof.
  intros Hok Hr1 Hr2 Hs He Hn. destruct d1 as [d1|], t1 as [t1|]; try done.
  simpl in *. destruct d2 as [d2|], t2 as [t2|]; try done; simpl in *; [by eapply pruned_shared|].
  exfalso. apply Hn. rewrite pruned_empty. apply flatten_leaf in He as (es & Hes & He).
  apply elem_of_concat_map. eauto.
Qed.
End Correct.

(** Changed parts that omit only common bindings have the diff of the whole maps. *)
Lemma diff_entries_changed (ma mb am bm : gmap bytes bytes) :
  (forall k v, am !! k = Some v -> ma !! k = Some v) -> (forall k v, bm !! k = Some v -> mb !! k = Some v) ->
  (forall k v, ma !! k = Some v -> am !! k = None -> mb !! k = Some v /\ bm !! k = None) ->
  (forall k v, mb !! k = Some v -> bm !! k = None -> ma !! k = Some v /\ am !! k = None) ->
  diff_entries am bm = diff_entries ma mb.
Proof.
  intros Ha Hb Ha' Hb'. apply (sorted_by_unique (fun e => e.1.1)); [apply diff_entries_sorted..|].
  intros [[k x] y]. rewrite !elem_of_diff_entries. specialize (Ha k). specialize (Hb k). specialize (Ha' k).
  specialize (Hb' k). destruct (am !! k) as [v1|], (bm !! k) as [v2|], (ma !! k) as [v3|], (mb !! k) as [v4|];
    naive_solver.
Qed.

Section Whole.
Context `{hasher : Hasher} {S : Type} `{ops : !ObjectStore S} {U : bytes -> Prop} {ok : S -> Prop}
  `{laws : !StoreLaws S U ok}.

Lemma diff_spec (s : S) fuel d1 d2 t1 t2 :
  ok s -> orepr s d1 t1 -> orepr s d2 t2 -> walkable fuel t1 -> walkable fuel t2 ->
  sorted_by fst (oflatten t1) -> sorted_by fst (oflatten t2) ->
  diff fuel s d1 d2 = Some (Ok (diff_entries (tmap (oflatten t1)) (tmap (oflatten t2)))).
Proof.
  intros Hok Hr1 Hr2 Hw1 Hw2 Hs1 Hs2. unfold diff.
  rewrite (nodes_of_spec s fuel d1 t1), (nodes_of_spec s fuel d2 t2) by done.
  rewrite (changed_of_spec s fuel d1 t1), (changed_of_spec s fuel d2 t2) by done. cbn [mbind result_bind].
  destruct (ochanged_map s d1 t1 (odigs (digest_algo s) t2) Hr1 Hs1) as [-> Hm1].
  destruct (ochanged_map s d2 t2 (odigs (digest_algo s) t1) Hr2 Hs2) as [-> Hm2].
  assert (forall t k v, sorted_by fst (oflatten t) -> tmap (oflatten t) !! k = Some v <-> (k, v) ∈ oflatten t) as Hm.
  { intros t k v Hs. unfold tmap. rewrite <-elem_of_list_to_map; [done|]. by apply sorted_by_NoDup. }
  assert (forall t have k v, (k, v) ∈ ochanged have (digest_algo s) t -> (k, v) ∈ oflatten t) as Hsub.
  { intros [t|] have k v; [apply pruned_entry|done]. }
  do 2 f_equal. apply diff_entries_changed.
  - intros k v. rewrite Hm1, Hm by done. apply Hsub.
  - intros k v. rewrite Hm2, Hm by done. apply Hsub.
  - intros k v Hk Hn. apply Hm in Hk; [|done].
    destruct (ochanged_shared s d1 d2 t1 t2 k v) as [H1 H2]; try done.
    { intros Hin. apply Hm1 in Hin. congruence. }
    split; [by apply Hm|]. apply eq_None_not_Some. intros [w E%Hm2]. by apply H2 in E.
  - intros k v Hk Hn. apply Hm in Hk; [|done].
    destruct (ochanged_shared s d2 d1 t2 t1 k v) as [H1 H2]; try done.
    { intros Hin. apply Hm2 in Hin. congruence. }
    split; [by apply Hm|]. apply eq_None_not_Some. intros [w E%Hm1]. by apply H2 in E.
Qed.
End Whole.

End ProllyDiff.
