(* ===== verification/ProllyProps.v ===== *)
(** * Properties of prolly trees *)

From S2P Require Import Prelude Codec Types Cbor Store Prolly ProllyNode ProllyTree ProllyRead ProllyShape ProllyBuild ProllyEdit ProllyWrite ProllyCursor ProllyReach ProllyDiff.

Module ProllyProps.
Import Codec Cbor Digest Store Prolly ProllyNode ProllyTree ProllyRead ProllyShape ProllyBuild ProllyEdit
  ProllyWrite ProllyCursor ProllyReach ProllyDiff.

Section Props.
Context `{hasher : Hasher} {S : Type} `{ops : !ObjectStore S} {U : bytes -> Prop} {ok : S -> Prop}
  `{laws : !StoreLaws S U ok}.
Implicit Types (s : S) (t : tree).

(** [build] stores the tree that the boundary rule gives for the entries and returns its
    address: the address depends on the entries only, the store keeps all it held, and the tree
    holds the entries. *)
Theorem prolly_build s es t :
  ok s -> pure_build es = Some t -> covered U (digest_algo s) t ->
  exists d s', build s es = Ok (Some d, s') /\ ok s' /\ extends s s'
  /\ repr s' d t /\ dbytes d = dig (digest_algo s) t /\ flatten t = es.
Proof.
  intros Hok Hb HU. destruct (build_spec s es t Hok Hb HU) as (d & s' & H1 & H2 & H3 & H4).
  exists d, s'. split_and!; try done; [|by apply pure_build_tree in Hb as [? _]].
  destruct H3 as [Ha _]. rewrite <-Ha. by apply repr_dig.
Qed.

(** A point lookup in a search tree of height below 64 gives what the map of its entries
    gives. *)
Theorem prolly_get s d t key :
  repr s d t -> search_tree t -> (hgt t < MAX_DEPTH)%nat ->
  lookup_key s d key = Ok (tmap (flatten t) !! key).
Proof. intros Hr (Hk & Hs & _) Hh. by apply get_loop_spec. Qed.

(** A full scan of a tree of height at most 64 gives its entries in order. *)
Theorem prolly_entries s d t :
  repr s d t -> (hgt t <= MAX_DEPTH)%nat -> entries s d = Ok (flatten t).
Proof. intros Hr Hh. by apply entries_spec. Qed.

(** A prefix scan of a search tree gives exactly its entries with that prefix, in order,
    although it skips and stops early. *)
Theorem prolly_scan_prefix s d t prefix :
  repr s d t -> search_tree t -> (hgt t <= MAX_DEPTH)%nat ->
  scan_prefix s d prefix = Ok (filter (fun e => starts_with e.1 prefix = true) (flatten t)).
Proof.
  intros Hr (Hk & Hs & _) Hh. unfold scan_prefix.
  rewrite (collect_prefix_spec s t) by (done || lia). done.
Qed.

(** Inserting into a built tree gives the tree [build] gives over the edited entries, with the
    same address, and the edited entries are the entries of the updated map. *)
Theorem prolly_insert_builds s r es t t' key v :
  ok s -> sorted_by fst es -> pure_build es = Some t -> repr s r t -> (hgt t <= MAX_DEPTH)%nat ->
  let es' := apply_change es key (Set_ v) in
  pure_build es' = Some t' -> covered_all (U := U) s (tower (Nat.max (hgt t) (hgt t')) es') ->
  exists r' s', insert_key s (Some r) key v = Ok (r', s') /\ ok s' /\ extends s s'
  /\ repr s' r' t' /\ dbytes r' = dig (digest_algo s) t'
  /\ sorted_by fst es' /\ tmap es' = <[key := v]> (tmap es).
Proof.
  intros Hok Hs Hb Hr Hh. cbv zeta. rewrite apply_change_edited by done. intros Hb' HU.
  destruct (edit_top_builds (U := U) es t t' key (Set_ v)) as (k & top & Htop & Hcol & Hcov); try done.
  { by eapply insert_not_orphaned. }
  destruct (insert_key_spec s r t key v k top) as (r' & s' & Hi & Hok' & Hext & Hr'); try done.
  { by eapply pure_build_search. } { by apply Hcov. }
  rewrite Hcol in Hr'. exists r', s'. split_and!; try done.
  - pose proof Hext as [Ha _]. rewrite <-Ha. by apply repr_dig.
  - by apply edited_sorted.
  - by apply edited_tmap.
Qed.

(** Removing a key from a built tree gives the tree [build] gives over the reduced entries,
    with the same address, unless the removal leaves an internal node without its closing child;
    removing the only entry gives the empty tree. *)
Theorem prolly_remove_builds s r es t key :
  ok s -> sorted_by fst es -> pure_build es = Some t -> repr s r t -> (hgt t <= MAX_DEPTH)%nat ->
  orphaned (hgt t) t key Remove true = false ->
  let es' := apply_change es key Remove in
  tmap es' = delete key (tmap es)
  /\ (es' = [] -> exists s', remove_key s r key = Ok (None, s') /\ ok s' /\ extends s s')
  /\ (forall t', pure_build es' = Some t' ->
      covered_all (U := U) s (tower (Nat.max (hgt t) (hgt t')) es') ->
      exists r' s', remove_key s r key = Ok (Some r', s') /\ ok s' /\ extends s s'
      /\ repr s' r' t' /\ dbytes r' = dig (digest_algo s) t').
Proof.
  intros Hok Hs Hb Hr Hh Ho. cbv zeta. rewrite apply_change_edited by done.
  pose proof (pure_build_search _ _ Hs Hb) as Hst. pose proof (pure_build_tree _ _ Hb) as (Hf & _).
  split_and!; [by apply edited_tmap| |].
  - rewrite <-Hf. intros He. by eapply remove_key_last.
  - intros t' Hb' HU.
    destruct (edit_top_builds (U := U) es t t' key Remove) as (k & top & Htop & Hcol & Hcov); try done.
    destruct (remove_key_spec s r t key k top) as (r' & s' & Hi & Hok' & Hext & Hr'); try done.
    { by apply Hcov. }
    rewrite Hcol in Hr'. exists r', s'. split_and!; try done.
    pose proof Hext as [Ha _]. rewrite <-Ha. by apply repr_dig.
Qed.

(** C40: When removal is canonical. Removing a key from a built tree (the tree [pure_build] describes, which [build]
    stores), in any store and with any hash function, leaves a tree over exactly the other entries. Its address is the one [build] gives over those entries
    if and only if the removal orphans no internal node, that is, unless it empties the child that
    closed a node which is not the last of its level. *)
Theorem prolly_remove_canonical s r es t t' key k top :
  ok s -> sorted_by fst es -> pure_build es = Some t -> repr s r t -> (hgt t <= MAX_DEPTH)%nat ->
  edit_top t key Remove = Some [(k, top)] -> covered U (digest_algo s) top ->
  let es' := apply_change es key Remove in
  pure_build es' = Some t' -> covered U (digest_algo s) t' ->
  exists r1 s1 r2 s2, remove_key s r key = Ok (Some r1, s1)
  /\ (exists t1, repr s1 r1 t1 /\ keyed t1 /\ flatten t1 = es' /\ tmap es' = delete key (tmap es))
  /\ build s1 es' = Ok (Some r2, s2)
  /\ (dbytes r1 = dbytes r2 <-> orphaned (hgt t) t key Remove true = false).
Proof.
  intros Hok Hs Hb Hr Hh Htop HU. cbv zeta. rewrite apply_change_edited by done. intros Hb' HU'.
  pose proof (pure_build_search _ _ Hs Hb) as Hst. pose proof (pure_build_tree _ _ Hb) as (Hf & _).
  destruct (remove_key_spec s r t key k top) as (r1 & s1 & Hi & Hok1 & Hext1 & Hr1); try done.
  destruct (build_spec s1 (edited es key Remove) t' Hok1 Hb') as (r2 & s2 & Hbd & Hok2 & Hext2 & Hr2).
  { destruct Hext1 as [Ha _]. by rewrite Ha. }
  exists r1, s1, r2, s2. split; [done|]. split; [|split; [done|]].
  { destruct (edit_top_search t key Remove k top Hst Htop) as [Hkt Hft]. rewrite Hf in Hft. exists (pcollapse top). by rewrite edited_tmap. }
  pose proof (repr_mono _ _ _ _ Hext2 Hr1) as Hr12. rewrite (repr_dig s2 r1 _ Hok2 Hr12), (repr_dig s2 r2 _ Hok2 Hr2). split.
  - intros E. destruct (orphaned _ _ _ _ _) eqn:Ho; [|done]. exfalso.
    eapply (orphaned_not_built es t); [done..|]. by apply (stored_dig_inj s2 r1 r2).
  - intros Ho. destruct (edit_top_builds (U := U) es t t' key Remove) as (k' & top' & Htop' & <- & _); [done..|].
    rewrite Htop in Htop'. by injection Htop' as _ <-.
Qed.

(** Removing a key from any search tree, whatever its shape, gives a tree that is again a
    search tree over exactly the other entries. *)
Theorem prolly_remove_map s r t key k top :
  ok s -> repr s r t -> search_tree t -> (hgt t <= MAX_DEPTH)%nat ->
  edit_top t key Remove = Some [(k, top)] -> covered U (digest_algo s) top ->
  exists r' s' t', remove_key s r key = Ok (Some r', s') /\ ok s' /\ extends s s'
  /\ repr s' r' t' /\ keyed t' /\ sorted_by fst (flatten t')
  /\ tmap (flatten t') = delete key (tmap (flatten t)).
Proof.
  intros Hok Hr Hst Hh Htop HU.
  destruct (remove_key_spec s r t key k top) as (r' & s' & Hi & Hok' & Hext & Hr'); try done.
  destruct (edit_top_search t key Remove k top Hst Htop) as [Hk Hf].
  exists r', s', (pcollapse top). destruct Hst as (_ & Hs & _). rewrite Hf.
  split_and!; try done; [by apply edited_sorted|]. by rewrite edited_tmap.
Qed.

(** A cursor over a range returns the entries of a search tree from the start key on and below
    the upper bound, each once and in order, and then ends. *)
Theorem prolly_cursor_range s d t st up :
  repr s d t -> search_tree t -> (hgt t < MAX_DEPTH * MAX_DEPTH)%nat ->
  exists cur, open_range s d st up = Ok cur
  /\ drains s cur (filter (below_upper up) (filter (above_start st) (flatten t))).
Proof. intros Hr (Hk & Hs & _) Hh. by apply open_range_spec. Qed.

(** A cursor over a prefix returns exactly the entries with that prefix. *)
Lemma prolly_cursor_prefix s d t prefix :
  repr s d t -> search_tree t -> (hgt t < MAX_DEPTH * MAX_DEPTH)%nat ->
  exists cur, open_prefix s d prefix = Ok cur
  /\ drains s cur (filter (fun e => starts_with e.1 prefix = true) (flatten t)).
Proof.
  intros Hr (Hk & Hs & _) Hh. destruct (open_range_spec s d t (Some prefix) (upper_bound prefix)) as (cur & Ho & Hd); try done.
  exists cur. split; [done|]. rewrite list_filter_filter in Hd.
  erewrite list_filter_iff; [exact Hd|]. intros e. rewrite starts_with_range. unfold below_upper, above_start, bytes_le.
  destruct (upper_bound prefix) as [u|]; (split; [intros [H1 H2]; auto|intros [H1 H2]; split; [done|]]);
    by intros ? [= <-].
Qed.

(** The reachability walk visits every node that is not below a held node, in order, and
    reports the address of each and the entries of the visited leaves. *)
Theorem prolly_reachable s d t have fuel :
  ok s -> repr s d t -> (hgt t <= MAX_DEPTH)%nat -> (weight t < fuel)%nat -> N.of_nat (weight t) < usize_max ->
  exists r, reachable_with_leaves fuel s d have = Some (Ok r)
  /\ map dbytes (reach_nodes r) = map (dig (digest_algo s)) (pruned have (digest_algo s) t)
  /\ reach_leaf_entries r = entries_of (pruned have (digest_algo s) t)
  /\ reach_leaf_values r = map snd (entries_of (pruned have (digest_algo s) t)).
Proof.
  intros Hok Hr Hh Hf Hw. destruct (reachable_spec s have fuel d t Hok Hr Hh Hf Hw) as (r & H & H1 & H2 & H3).
  by exists r.
Qed.

(** The diff of two stored trees lists, in key order and once each, exactly the keys whose
    values differ, with the value on each side, although the entries of shared subtrees are skipped. *)
Theorem prolly_diff s fuel d1 d2 (t1 t2 : option tree) :
  ok s -> orepr s d1 t1 -> orepr s d2 t2 -> walkable fuel t1 -> walkable fuel t2 ->
  sorted_by fst (oflatten t1) -> sorted_by fst (oflatten t2) ->
  exists out, diff fuel s d1 d2 = Some (Ok out) /\ sorted_by (fun e => e.1.1) out
  /\ forall k x y, (k, x, y) ∈ out <->
     x = tmap (oflatten t1) !! k /\ y = tmap (oflatten t2) !! k /\ x <> y.
Proof.
  intros Hok Hr1 Hr2 Hw1 Hw2 Hs1 Hs2. eexists. split; [by apply (diff_spec s fuel d1 d2 t1 t2)|].
  split; [apply diff_entries_sorted|]. intros. apply elem_of_diff_entries.
Qed.

(** ** History independence *)

(** Inserting entries one after the other. *)
Fixpoint insert_all s (root : option Digest) (l : list Entry) : res (option Digest * S) :=
  match l with
  | [] => Ok (root, s)
  | e :: l => '(d, s) ← insert_key s root e.1 e.2; insert_all s (Some d) l
  end.

(** Each tree on the way exists, is not too tall, and its nodes belong to the universe. *)
Fixpoint insertable (a : Algo) (es l : list Entry) : Prop :=
  match l with
  | [] => True
  | e :: l =>
      let es' := edited es e.1 (Set_ e.2) in
      (exists t', pure_build es' = Some t' /\ (hgt t' <= MAX_DEPTH)%nat
       /\ Forall (fun c => covered U a c.2) (tower (Nat.max (from_option hgt O (pure_build es)) (hgt t')) es'))
      /\ insertable a es' l
  end.

Definition map_of (l : list Entry) (m : gmap bytes bytes) : gmap bytes bytes :=
  foldl (fun m e => <[e.1 := e.2]> m) m l.

Lemma insert_one s root es e t' :
  ok s -> sorted_by fst es ->
  match root with None => es = [] | Some r => exists t, pure_build es = Some t /\ repr s r t /\ (hgt t <= MAX_DEPTH)%nat end ->
  pure_build (edited es e.1 (Set_ e.2)) = Some t' ->
  Forall (fun c => covered U (digest_algo s) c.2)
    (tower (Nat.max (from_option hgt O (pure_build es)) (hgt t')) (edited es e.1 (Set_ e.2))) ->
  exists d s', insert_key s root e.1 e.2 = Ok (d, s') /\ ok s' /\ extends s s' /\ repr s' d t'.
Proof.
  intros Hok Hs Hroot Hb HU. destruct root as [r|].
  - destruct Hroot as (t & Ht & Hr & Hh). rewrite Ht in HU. simpl in HU.
    destruct (edit_top_builds (U := U) es t t' e.1 (Set_ e.2)) as (k & top & Htop & Hcol & Hcov); try done.
    { by eapply insert_not_orphaned. }
    destruct (insert_key_spec s r t e.1 e.2 k top) as (d & s' & Hi & ? & ? & Hr'); try done.
    { by eapply pure_build_search. } { by apply Hcov. }
    rewrite Hcol in Hr'. by exists d, s'.
  - subst es. destruct (build_spec s [(e.1, e.2)] t' Hok Hb) as (d & s' & Hbd & ? & ? & ?).
    { destruct (pure_build_tree _ _ Hb) as (_ & _ & m & _ & Hl & k & Ht & _).
      rewrite (leveled_hgt _ _ Hl), Nat.max_r, Ht in HU by (simpl; lia). by apply Forall_cons in HU as [HU _]. }
    exists d, s'. unfold insert_key. rewrite Hbd. done.
Qed.

(** The tree of some entries is covered where the levels over them are. *)
Lemma built_covered a es t n : pure_build es = Some t -> (hgt t <= n)%nat -> Forall (fun c => covered U a c.2) (tower n es) -> covered U a t.
Proof.
  intros (_ & _ & m & _ & Hl & k & Ht & _)%pure_build_tree. rewrite (leveled_hgt _ _ Hl). intros Hm HU.
  apply (covered_tower_le U a m n es Hm) in HU. rewrite Ht in HU. by apply Forall_cons in HU as [HU _].
Qed.

Lemma insert_all_spec l s root es :
  ok s -> sorted_by fst es ->
  match root with
  | None => es = []
  | Some r => exists t, pure_build es = Some t /\ repr s r t /\ (hgt t <= MAX_DEPTH)%nat /\ covered U (digest_algo s) t
  end ->
  insertable (digest_algo s) es l -> (root <> None \/ l <> []) ->
  exists d s' es' t, insert_all s root l = Ok (Some d, s') /\ ok s' /\ extends s s' /\ sorted_by fst es'
  /\ tmap es' = map_of l (tmap es) /\ pure_build es' = Some t /\ repr s' d t /\ (hgt t <= MAX_DEPTH)%nat /\ covered U (digest_algo s) t.
Proof.
  revert s root es. induction l as [|e l IH]; intros s root es Hok Hs Hroot Hl Hne.
  - destruct root as [r|]; [|by destruct Hne]. destruct Hroot as (t & ? & ? & ? & ?). by exists r, s, es, t.
  - destruct Hl as [(t' & Hb & Hh & HU) Hl].
    destruct (insert_one s root es e t' Hok Hs) as (d & s1 & Hi & Hok1 & Hext & Hr); [|done|done|].
    { destruct root as [r|]; [|done]. destruct Hroot as (t & ? & ? & ? & _). by exists t. }
    cbn [insert_all]. rewrite Hi. cbn [mbind result_bind]. pose proof Hext as [Ha _].
    destruct (IH s1 (Some d) (edited es e.1 (Set_ e.2))) as (d' & s' & es' & t & H1 & H2 & H3 & H4 & H5 & H6 & H7 & H8 & H9).
    + done.
    + by apply edited_sorted.
    + exists t'. rewrite Ha. split_and!; try done. eapply built_covered; [done| |exact HU]. lia.
    + by rewrite Ha.
    + by left.
    + exists d', s', es', t. rewrite <-Ha. split_and!; try done; [by etrans|]. rewrite H5, edited_tmap by done. done.
Qed.

(** C2: history independence: inserting entries one by one, in any order and with any replacements, gives a tree
    that holds exactly the resulting map, under the address that [build] gives over the sorted entries
    of that map, in this store or in any other store of the same digest algorithm. So the address
    depends on the map alone. *)
Theorem prolly_history_independent s l :
  ok s -> insertable (digest_algo s) [] l -> l <> [] ->
  let es := btree_iter (map_of l ∅) in
  exists d s', insert_all s None l = Ok (Some d, s') /\ ok s' /\ entries s' d = Ok es
  /\ forall s2, ok s2 -> digest_algo s2 = digest_algo s ->
     exists d2 s2', build s2 es = Ok (Some d2, s2') /\ ok s2' /\ dbytes d2 = dbytes d /\ entries s2' d2 = Ok es.
Proof.
  intros Hok Hl Hne es0.
  destruct (insert_all_spec l s None [] Hok) as (d & s' & es & t & H1 & H2 & [Ha _] & H4 & H5 & H6 & H7 & H8 & H9);
    [constructor|done|done|by right|].
  assert (es = es0) as ->.
  { apply (sorted_by_unique fst); [done|apply btree_iter_sorted|]. intros [k v]. unfold es0.
    rewrite elem_of_btree_iter. change (map_of l ∅) with (map_of l (tmap [])). rewrite <-H5. unfold tmap.
    rewrite <-elem_of_list_to_map; [done|]. by apply sorted_by_NoDup. }
  pose proof (pure_build_tree _ _ H6) as [Hf _]. exists d, s'. split_and!; [done..|by rewrite (entries_spec s' d t), Hf|].
  intros s2 Hok2 Ha2. destruct (build_spec s2 es0 t Hok2 H6) as (d2 & s2' & Hb & Hok' & [Ha' _] & Hr); [by rewrite Ha2|].
  exists d2, s2'. split_and!; [done..| |by rewrite (entries_spec s2' d2 t), Hf].
  rewrite (repr_dig s2' d2 t Hok' Hr), (repr_dig s' d t H2 H7). by rewrite Ha', Ha2, <-Ha.
Qed.
End Props.

(** ** A concrete tree

    Three entries whose keys select their boundaries bit by bit under the example hash: the tree has
    height two, and the entry with key 3 closes both its leaf and the internal node above it. *)

#[local] Existing Instance toy_hasher.

Definition demo : list Entry := [([x01], [x61]); ([x03], [x62]); ([x05], [x63])].
Definition demo_set : list Entry := [([x01], [x61]); ([x03], [x62]); ([x04], [x64]); ([x05], [x63])].
Definition demo_removed : list Entry := [([x03], [x62]); ([x05], [x63])].

Definition tree_of (es : list Entry) : tree := default (Leaf []) (pure_build es).
Definition demo_tree : tree := Eval vm_compute in tree_of demo.
Definition demo_set_tree : tree := Eval vm_compute in tree_of demo_set.
Definition demo_removed_tree : tree := Eval vm_compute in tree_of demo_removed.
Definition demo_orphan_tree : tree :=
  Eval vm_compute in match edit_top demo_tree [x03] Remove with Some [(_, t)] => t | _ => Leaf [] end.

Definition demo_universe : list bytes :=
  Eval vm_compute in
    remove_dups (map (enc Blake3)
      (concat (map nodes ([demo_tree; demo_orphan_tree] ++ map snd (tower 2 demo_set ++ tower 2 demo_removed
        ++ tower 2 [([x05], [x63])] ++ tower 2 [([x01], [x61]); ([x05], [x63])]))))).

(** The same entries in another order. *)
Definition demo_history : list Entry := [([x05], [x63]); ([x01], [x61]); ([x03], [x62])].

Definition demo_U (b : bytes) : Prop := b ∈ demo_universe.

#[local] Instance demo_laws : StoreLaws MemoryStore demo_U (fun s => addressed s /\ within demo_U s).
Proof. apply finite_universe; vm_compute; reflexivity. Qed.

Lemma demo_covered (ts : list tree) :
  forallb (fun n => bool_decide (enc Blake3 n ∈ demo_universe)) (concat (map nodes ts)) = true ->
  Forall (fun t => covered demo_U Blake3 t) ts.
Proof.
  rewrite forallb_forall. intros H. apply Forall_forall. intros t Ht. apply Forall_forall. intros n Hn.
  apply (bool_decide_eq_true_1 _), H. apply in_concat. exists (nodes t).
  split; [by apply in_map, list_elem_of_In|by apply list_elem_of_In].
Qed.

Lemma empty_ok : addressed memory_new /\ within demo_U memory_new.
Proof. split; apply map_Forall_empty. Qed.

(** The store and root after building the example. *)
Definition run_root {A} (r : res (option Digest * A)) : Digest :=
  match r with Ok (Some d, _) => d | _ => mkDigest Blake3 [] end.
Definition run_store (r : res (option Digest * MemoryStore)) : MemoryStore :=
  match r with Ok (_, s) => s | Err _ => memory_new end.
Definition returns_root (r : res (option Digest * MemoryStore)) : bool :=
  match r with Ok (Some _, _) => true | _ => false end.

Lemma run_Ok r : returns_root r = true -> r = Ok (Some (run_root r), run_store r).
Proof. by destruct r as [[[d|] s]|]. Qed.

Definition demo_store : MemoryStore := run_store (build memory_new demo).
Definition demo_root : Digest := run_root (build memory_new demo).

Lemma demo_built : (addressed demo_store /\ within demo_U demo_store) /\ repr demo_store demo_root demo_tree.
Proof.
  destruct (build_spec (U := demo_U) memory_new demo demo_tree empty_ok) as (d & s' & Hb & Hok & _ & Hr).
  - vm_compute. reflexivity.
  - pose proof (demo_covered [demo_tree]) as H. apply Forall_cons in H as [H _]; [exact H|].
    vm_compute. reflexivity.
  - unfold demo_store, demo_root. rewrite Hb. auto.
Qed.

Lemma demo_sorted : sorted_by fst demo.
Proof. apply sorted_by_no_dup; [repeat constructor; right; reflexivity|reflexivity]. Qed.

Lemma demo_search : search_tree demo_tree.
Proof. apply (pure_build_search demo); [apply demo_sorted|vm_compute; reflexivity]. Qed.

Lemma prolly_build_witness :
  exists d s', build memory_new demo = Ok (Some d, s') /\ (addressed s' /\ within demo_U s') /\ repr s' d demo_tree.
Proof.
  destruct (prolly_build (U := demo_U) memory_new demo demo_tree empty_ok) as (d & s' & H1 & H2 & _ & H3 & _).
  - vm_compute. reflexivity.
  - pose proof (demo_covered [demo_tree]) as H. apply Forall_cons in H as [H _]; [exact H|].
    vm_compute. reflexivity.
  - exists d, s'. auto.
Defined.

Lemma prolly_get_witness : lookup_key demo_store demo_root [x03] = Ok (Some [x62]).
Proof.
  rewrite (prolly_get demo_store demo_root demo_tree [x03]); [reflexivity|apply demo_built|apply demo_search|].
  vm_compute. lia.
Defined.

Lemma prolly_entries_witness : entries demo_store demo_root = Ok demo.
Proof.
  rewrite (prolly_entries demo_store demo_root demo_tree); [reflexivity|apply demo_built|]. vm_compute. lia.
Defined.

Lemma prolly_scan_prefix_witness : scan_prefix demo_store demo_root [x03] = Ok [([x03], [x62])].
Proof.
  rewrite (prolly_scan_prefix demo_store demo_root demo_tree [x03]);
    [reflexivity|apply demo_built|apply demo_search|]. vm_compute. lia.
Defined.

Lemma prolly_insert_builds_witness :
  exists r' s', insert_key demo_store (Some demo_root) [x04] [x64] = Ok (r', s') /\ repr s' r' demo_set_tree.
Proof.
  destruct (prolly_insert_builds (U := demo_U) demo_store demo_root demo demo_tree demo_set_tree [x04] [x64])
    as (r' & s' & H1 & _ & _ & H2 & _).
  - apply demo_built.
  - apply demo_sorted.
  - vm_compute. reflexivity.
  - apply demo_built.
  - vm_compute. lia.
  - vm_compute. reflexivity.
  - apply (Forall_map snd), (demo_covered (map snd _)). vm_compute. reflexivity.
  - exists r', s'. auto.
Defined.

Lemma prolly_remove_builds_witness :
  exists r' s', remove_key demo_store demo_root [x01] = Ok (Some r', s') /\ repr s' r' demo_removed_tree.
Proof.
  destruct (prolly_remove_builds (U := demo_U) demo_store demo_root demo demo_tree [x01]) as (_ & _ & H).
  - apply demo_built.
  - apply demo_sorted.
  - vm_compute. reflexivity.
  - apply demo_built.
  - vm_compute. lia.
  - vm_compute. reflexivity.
  - destruct (H demo_removed_tree) as (r' & s' & H1 & _ & _ & H2 & _).
    + vm_compute. reflexivity.
    + apply (Forall_map snd), (demo_covered (map snd _)). vm_compute. reflexivity.
    + exists r', s'. auto.
Defined.

Lemma prolly_remove_map_witness :
  exists r' s' t', remove_key demo_store demo_root [x03] = Ok (Some r', s') /\ repr s' r' t'
  /\ tmap (flatten t') = delete [x03] (tmap demo).
Proof.
  destruct (prolly_remove_map (U := demo_U) demo_store demo_root demo_tree [x03] [x05] demo_orphan_tree)
    as (r' & s' & t' & H1 & _ & _ & H2 & _ & _ & H3).
  - apply demo_built.
  - apply demo_built.
  - apply demo_search.
  - vm_compute. lia.
  - vm_compute. reflexivity.
  - pose proof (demo_covered [demo_orphan_tree]) as H. apply Forall_cons in H as [H _]; [exact H|].
    vm_compute. reflexivity.
  - exists r', s', t'. auto.
Defined.

Lemma prolly_cursor_range_witness :
  exists cur, open_range demo_store demo_root (Some [x02]) (Some [x05]) = Ok cur
  /\ drains demo_store cur [([x03], [x62])].
Proof.
  apply (prolly_cursor_range demo_store demo_root demo_tree (Some [x02]) (Some [x05]));
    [apply demo_built|apply demo_search|]. apply Nat.ltb_lt. vm_compute. reflexivity.
Defined.

Lemma prolly_reachable_witness :
  exists r, reachable_with_leaves 10 demo_store demo_root ∅ = Some (Ok r) /\ reach_leaf_entries r = demo.
Proof.
  destruct (prolly_reachable (U := demo_U) demo_store demo_root demo_tree ∅ 10) as (r & H1 & _ & H2 & _).
  - apply demo_built.
  - apply demo_built.
  - vm_compute. lia.
  - vm_compute. lia.
  - vm_compute. reflexivity.
  - exists r. split; [exact H1|]. rewrite H2. vm_compute. reflexivity.
Defined.

Lemma prolly_reach_deadline_spins_witness :
  until_loop (fun n => (2 <=? n)%nat) 1000 1000 demo_store ∅ 2 [(demo_root, O)] no_reach = None.
Proof.
  apply (prolly_reach_deadline_spins (fun n => (2 <=? n)%nat) demo_store ∅ 2 [(demo_root, O)] no_reach).
  - intros n Hn. by apply Nat.leb_le.
  - discriminate.
Defined.

Lemma prolly_diff_witness :
  exists out, diff 10 demo_store (Some demo_root) None = Some (Ok out) /\ ([x03], Some [x62], None) ∈ out.
Proof.
  destruct (prolly_diff (U := demo_U) demo_store 10 (Some demo_root) None (Some demo_tree) None)
    as (out & H1 & _ & H2).
  - apply demo_built.
  - apply demo_built.
  - done.
  - split; [vm_compute; lia|]. split; [vm_compute; lia|vm_compute; reflexivity].
  - done.
  - apply demo_search.
  - constructor.
  - exists out. split; [exact H1|]. apply H2. split; [vm_compute; reflexivity|]. split; [reflexivity|discriminate].
Defined.

Definition step_ok (es : list Entry) (e : Entry) : bool :=
  match pure_build (edited es e.1 (Set_ e.2)) with
  | Some t' =>
      (hgt t' <=? MAX_DEPTH)%nat
      && forallb (fun n => bool_decide (enc Blake3 n ∈ demo_universe))
           (concat (map nodes (map snd
             (tower (Nat.max (from_option hgt O (pure_build es)) (hgt t')) (edited es e.1 (Set_ e.2))))))
  | None => false
  end.

Lemma demo_step es e :
  step_ok es e = true ->
  exists t', pure_build (edited es e.1 (Set_ e.2)) = Some t' /\ (hgt t' <= MAX_DEPTH)%nat
  /\ Forall (fun c => covered demo_U Blake3 c.2)
       (tower (Nat.max (from_option hgt O (pure_build es)) (hgt t')) (edited es e.1 (Set_ e.2))).
Proof.
  unfold step_ok. destruct (pure_build (edited es e.1 (Set_ e.2))) as [t'|]; [|done].
  intros [Hh%Nat.leb_le Hc]%andb_true_iff. exists t'. split_and!; [done..|].
  by apply (Forall_map snd), (demo_covered (map snd _)).
Qed.

Lemma prolly_history_independent_witness :
  exists d s' d2 s2', insert_all memory_new None demo_history = Ok (Some d, s')
  /\ build memory_new demo = Ok (Some d2, s2') /\ dbytes d2 = dbytes d.
Proof.
  destruct (prolly_history_independent (U := demo_U) memory_new demo_history empty_ok) as (d & s' & H1 & _ & _ & H2).
  - do 3 (split; [apply demo_step; vm_compute; reflexivity|]). exact I.
  - discriminate.
  - destruct (H2 memory_new empty_ok eq_refl) as (d2 & s2' & Hb & _ & Hd & _). exists d, s', d2, s2'.
    split; [exact H1|]. split; [|exact Hd]. exact Hb.
Defined.

Lemma prolly_remove_canonical_witness :
  exists r1 s1 r2 s2, remove_key demo_store demo_root [x03] = Ok (Some r1, s1)
  /\ build s1 [([x01], [x61]); ([x05], [x63])] = Ok (Some r2, s2) /\ dbytes r1 <> dbytes r2.
Proof.
  pose proof (demo_covered [demo_orphan_tree]) as H1. apply Forall_cons in H1 as [H1 _]; [|vm_compute; reflexivity].
  pose proof (demo_covered [tree_of [([x01], [x61]); ([x05], [x63])]]) as H2. apply Forall_cons in H2 as [H2 _]; [|vm_compute; reflexivity].
  destruct (prolly_remove_canonical (U := demo_U) demo_store demo_root demo demo_tree (tree_of [([x01], [x61]); ([x05], [x63])]) [x03] [x05] demo_orphan_tree)
    as (r1 & s1 & r2 & s2 & Hr & _ & Hb & Heq).
  - apply demo_built.
  - apply demo_sorted.
  - vm_compute. reflexivity.
  - apply demo_built.
  - vm_compute. lia.
  - vm_compute. reflexivity.
  - exact H1.
  - vm_compute. reflexivity.
  - exact H2.
  - exists r1, s1, r2, s2. split; [exact Hr|]. split; [exact Hb|]. intros E%Heq. vm_compute in E. discriminate.
Defined.

End ProllyProps.
