(* ===== verification/Chunk.v ===== *)
(** * Content-defined chunking (crates/loom-core/src/chunk.rs)

    The gear hash, the cut point, the batch splitter and the streaming splitter. Sizes and positions
    are binary numbers; the scan recurses on the bytes it consumes. *)

From S2P Require Import Prelude Codec.

Module Chunk.
Import Codec.

Definition MIN_SIZE : N := 512 * 1024.
Definition AVG_SIZE : N := 1024 * 1024.
Definition MAX_SIZE : N := 4 * 1024 * 1024.
Definition CHUNK_THRESHOLD : N := MIN_SIZE.

(** [AVG_SIZE.trailing_zeros()] *)
Definition AVG_BITS : N := N.log2 AVG_SIZE.
Definition MASK_S_BITS : N := AVG_BITS + 2.
Definition MASK_L_BITS : N := AVG_BITS - 2.

Definition wrapping_mul (a b : N) : N := as_u64 (a * b).
Definition wrapping_add (a b : N) : N := as_u64 (a + b).

(** SplitMix64: one entry of the gear table from the advanced state. *)
Definition splitmix (state : N) : N :=
  let z := state in
  let z := wrapping_mul (N.lxor z (N.shiftr z 30)) 0xBF58476D1CE4E5B9 in
  let z := wrapping_mul (N.lxor z (N.shiftr z 27)) 0x94D049BB133111EB in
  N.lxor z (N.shiftr z 31).

Fixpoint build_gear (n : nat) (state : N) : list N :=
  match n with
  | O => []
  | S n =>
      let state := wrapping_add state 0x9E3779B97F4A7C15 in
      splitmix state :: build_gear n state
  end.

Definition GEAR : list N := build_gear 256 0x9E3779B97F4A7C15.

Definition gear (b : byte) : N := nth (N.to_nat (Byte.to_N b)) GEAR 0.

(** [(fp << 1).wrapping_add(GEAR[b])] *)
Definition roll (fp : N) (b : byte) : N := wrapping_add (as_u64 (N.shiftl fp 1)) (gear b).

(** Whether a chunk of length [i] with rolling hash [fp] may end here. *)
Definition is_cut (fp i : N) : bool :=
  let bits := if i <? AVG_SIZE then MASK_S_BITS else MASK_L_BITS in
  N.shiftr fp (64 - bits) =? 0.

(** The scan of [cut_point] from position [i]. *)
Fixpoint cut_scan (data : bytes) (fp i max_scan : N) : N :=
  match data with
  | [] => max_scan
  | b :: data =>
      if negb (i <? max_scan) then max_scan
      else
        let fp := roll fp b in
        let i := i + 1 in
        if i <? MIN_SIZE then cut_scan data fp i max_scan
        else if is_cut fp i then i else cut_scan data fp i max_scan
  end.

Definition cut_point (data : bytes) : N :=
  let n := len data in
  if n <=? MIN_SIZE then n else cut_scan data 0 0 (N.min n MAX_SIZE).

(** The loop of [chunk] and of [finish]; the fuel is the number of bytes left. *)
Fixpoint chunk_loop (fuel : nat) (rest : bytes) : list bytes :=
  match rest, fuel with
  | [], _ | _, O => []
  | _, S fuel =>
      let c := N.to_nat (cut_point rest) in
      take c rest :: chunk_loop fuel (drop c rest)
  end.

Definition chunk (data : bytes) : list bytes := chunk_loop (length data) data.

(** ** Streaming *)

Record StreamChunker : Type := mkStreamChunker { buf : bytes }.

Definition stream_new : StreamChunker := mkStreamChunker [].

(** The loop of [push]: the new buffer and the chunks emitted. *)
Fixpoint push_loop (fuel : nat) (b : bytes) : bytes * list bytes :=
  match b, fuel with
  | [], _ => ([], [])
  | _, O => (b, [])
  | _, S fuel =>
      let c := cut_point b in
      if c <? len b then
        let '(b', out) := push_loop fuel (drop (N.to_nat c) b) in
        (b', take (N.to_nat c) b :: out)
      else if MAX_SIZE <=? len b then ([], [b])
      else (b, [])
  end.

Definition push (sc : StreamChunker) (data : bytes) : StreamChunker * list bytes :=
  let b := buf sc ++ data in
  let '(b, out) := push_loop (length b) b in
  (mkStreamChunker b, out).

Definition finish (sc : StreamChunker) : list bytes := chunk_loop (length (buf sc)) (buf sc).

(** A stream of blocks, pushed in order and finished. *)
Fixpoint push_all (sc : StreamChunker) (blocks : list bytes) : StreamChunker * list bytes :=
  match blocks with
  | [] => (sc, [])
  | b :: blocks =>
      let '(sc, out) := push sc b in
      let '(sc, out') := push_all sc blocks in
      (sc, out ++ out')
  end.

Definition stream (blocks : list bytes) : list bytes :=
  let '(sc, out) := push_all stream_new blocks in out ++ finish sc.

#[global] Arguments cut_point : simpl never.
#[global] Arguments roll : simpl never.
#[global] Arguments is_cut : simpl never.

(** ** The cut point *)

Lemma cut_scan_bounds data fp i m :
  i < m -> m <= i + len data -> i < cut_scan data fp i m <= m /\ (MIN_SIZE <= cut_scan data fp i m \/ cut_scan data fp i m = m).
Proof.
  revert fp i. induction data as [|b data IH]; intros fp i Him Hm; [unfold len in Hm; simpl in Hm; lia|].
  cbn [cut_scan]. rewrite (proj2 (N.ltb_lt i m) Him). cbn [negb].
  assert (len (b :: data) = len data + 1) as Hlen by (unfold len; simpl; lia). rewrite Hlen in Hm.
  assert (i + 1 = m \/ i + 1 < m) as [He|Hlt] by lia.
  - assert (cut_scan data (roll fp b) (i + 1) m = m) as ->.
    { destruct data; [done|]. cbn [cut_scan]. by rewrite He, (proj2 (N.ltb_ge m m)) by lia. }
    destruct (N.ltb_spec (i + 1) MIN_SIZE); [lia|]. destruct (is_cut _ _); lia.
  - specialize (IH (roll fp b) (i + 1) Hlt ltac:(lia)).
    destruct (N.ltb_spec (i + 1) MIN_SIZE); [lia|]. destruct (is_cut _ _); lia.
Qed.

(** The scan does not look past its limit. *)
Lemma cut_scan_app data ext fp i m :
  m <= i + len data -> cut_scan (data ++ ext) fp i m = cut_scan data fp i m.
Proof.
  revert fp i. induction data as [|b data IH]; intros fp i Hm; cbn [app cut_scan].
  - destruct ext; [done|]. cbn [cut_scan]. unfold len in Hm. simpl in Hm.
    by rewrite (proj2 (N.ltb_ge i m)) by lia.
  - assert (len (b :: data) = len data + 1) as Hlen by (unfold len; simpl; lia). rewrite Hlen in Hm.
    destruct (negb _); [done|]. rewrite !IH by lia. done.
Qed.

(** A boundary found below the limit is found under any higher limit. *)
Lemma cut_scan_limit data ext fp i m m' :
  m <= i + len data -> m <= m' -> cut_scan data fp i m < m -> cut_scan (data ++ ext) fp i m' = cut_scan data fp i m.
Proof.
  revert fp i. induction data as [|b data IH]; intros fp i Hm Hmm; cbn [app cut_scan]; [lia|].
  assert (len (b :: data) = len data + 1) as Hlen by (unfold len; simpl; lia). rewrite Hlen in Hm.
  destruct (N.ltb_spec i m) as [Him|Him]; cbn [negb]; [|lia].
  rewrite (proj2 (N.ltb_lt i m')) by lia. cbn [negb].
  destruct (i + 1 <? MIN_SIZE); [|destruct (is_cut (roll fp b) (i + 1))]; try done; apply IH; lia.
Qed.

Lemma cut_point_bounds data :
  data <> [] -> 0 < cut_point data <= len data /\ cut_point data <= MAX_SIZE
  /\ (cut_point data < len data -> MIN_SIZE <= cut_point data).
Proof.
  intros Hne. assert (0 < len data) as Hl by (destruct data; [done|unfold len; simpl; lia]).
  unfold cut_point. destruct (N.leb_spec (len data) MIN_SIZE) as [H|H]; [unfold MIN_SIZE, MAX_SIZE in *; lia|].
  destruct (cut_scan_bounds data 0 0 (N.min (len data) MAX_SIZE)) as [[H1 H2] H3]; [unfold MAX_SIZE; lia|lia|].
  unfold MIN_SIZE, MAX_SIZE in *. lia.
Qed.

(** A settled cut stays when more bytes arrive. *)
Lemma cut_point_settled data ext :
  cut_point data < len data \/ (MAX_SIZE <= len data) -> cut_point (data ++ ext) = cut_point data.
Proof.
  intros Hc. assert (len (data ++ ext) = len data + len ext) as Hlen by (unfold len; rewrite length_app; lia).
  unfold cut_point in *. rewrite Hlen. destruct (N.leb_spec (len data) MIN_SIZE) as [H|H].
  { unfold MIN_SIZE, MAX_SIZE in *. lia. }
  rewrite (proj2 (N.leb_gt (len data + len ext) MIN_SIZE)) by lia.
  destruct (N.le_gt_cases MAX_SIZE (len data)) as [Hge|Hlt].
  - rewrite !N.min_r by lia. apply cut_scan_app. lia.
  - destruct Hc as [Hc|Hc]; [|lia]. rewrite (N.min_l (len data) MAX_SIZE) in * by lia. apply cut_scan_limit; lia.
Qed.

(** ** Splitting *)

Lemma len_take (n : N) (b : bytes) : n <= len b -> len (take (N.to_nat n) b) = n.
Proof. unfold len. intros H. rewrite length_take. lia. Qed.

Lemma chunk_loop_fuel fuel fuel' rest :
  (length rest <= fuel)%nat -> (length rest <= fuel')%nat -> chunk_loop fuel rest = chunk_loop fuel' rest.
Proof.
  revert fuel' rest. induction fuel as [|fuel IH]; intros fuel' rest H H'.
  { destruct rest; [by destruct fuel'|simpl in H; lia]. }
  destruct rest as [|b rest]; [by destruct fuel'|]. destruct fuel' as [|fuel']; [simpl in H'; lia|].
  cbn [chunk_loop]. f_equal. pose proof (cut_point_bounds (b :: rest) ltac:(done)) as Hb.
  assert (length (drop (N.to_nat (cut_point (b :: rest))) (b :: rest)) < length (b :: rest))%nat as Hd
    by (rewrite length_drop; unfold len in Hb; simpl length in *; lia).
  simpl length in *. apply IH; lia.
Qed.

(** The equation of the split: cut, then split the rest. *)
Lemma chunk_unfold data :
  data <> [] ->
  chunk data = take (N.to_nat (cut_point data)) data :: chunk (drop (N.to_nat (cut_point data)) data).
Proof.
  intros Hne. unfold chunk at 1. destruct data as [|b rest]; [done|]. cbn [length chunk_loop]. f_equal.
  pose proof (cut_point_bounds (b :: rest) ltac:(done)) as Hb. apply chunk_loop_fuel; [|lia].
  rewrite length_drop. simpl length. lia.
Qed.

Lemma chunk_nil : chunk [] = [].
Proof. done. Qed.

(** Induction along the split. *)
Lemma chunk_ind (P : bytes -> Prop) :
  P [] -> (forall data, data <> [] -> P (drop (N.to_nat (cut_point data)) data) -> P data) -> forall data, P data.
Proof.
  intros Hnil Hcons data. remember (length data) as n eqn:Hn. revert data Hn.
  induction n as [n IH] using lt_wf_ind. intros data ->.
  destruct (decide (data = [])) as [->|Hne]; [done|]. apply Hcons; [done|]. eapply IH; [|done].
  pose proof (cut_point_bounds data Hne) as Hb. rewrite length_drop. unfold len in Hb. lia.
Qed.

Lemma chunk_app_settled data ext :
  data <> [] -> cut_point data < len data \/ MAX_SIZE <= len data ->
  chunk (data ++ ext)
  = take (N.to_nat (cut_point data)) data :: chunk (drop (N.to_nat (cut_point data)) data ++ ext).
Proof.
  intros Hne Hs. rewrite chunk_unfold by (by destruct data). rewrite (cut_point_settled data ext Hs).
  pose proof (cut_point_bounds data Hne) as Hb.
  rewrite take_app_le, drop_app_le by (unfold len in Hb; lia). done.
Qed.

(** ** Streaming against batch *)

Lemma push_loop_chunk fuel b b' out ext :
  (length b <= fuel)%nat -> push_loop fuel b = (b', out) ->
  chunk (b ++ ext) = out ++ chunk (b' ++ ext) /\ len b' < MAX_SIZE.
Proof.
  revert b out. induction fuel as [|fuel IH]; intros b out Hf Hp.
  { destruct b; [|simpl in Hf; lia]. simpl in Hp. by simplify_eq. }
  destruct b as [|x b]; [simpl in Hp; by simplify_eq|]. set (data := x :: b) in *.
  assert (data <> []) as Hne by done. clearbody data. pose proof (cut_point_bounds data Hne) as Hb.
  assert (push_loop (S fuel) data = if cut_point data <? len data then
        let '(b', out) := push_loop fuel (drop (N.to_nat (cut_point data)) data) in
        (b', take (N.to_nat (cut_point data)) data :: out)
      else if MAX_SIZE <=? len data then ([], [data]) else (data, [])) as Heq by (by destruct data).
  rewrite Heq in Hp. destruct (N.ltb_spec (cut_point data) (len data)) as [Hc|Hc].
  - destruct (push_loop fuel _) as [b1 out1] eqn:E. simplify_eq.
    apply IH in E as [E Hl]; [|rewrite length_drop; unfold len in Hb; lia]. split; [|done].
    rewrite (chunk_app_settled data ext Hne (or_introl Hc)), E. done.
  - destruct (N.leb_spec MAX_SIZE (len data)) as [Hm|Hm]; simplify_eq; [|done]. split; [|done].
    rewrite (chunk_app_settled data ext Hne (or_intror Hm)).
    assert (N.to_nat (cut_point data) = length data) as -> by (unfold len in *; lia).
    by rewrite firstn_all, drop_all.
Qed.

Lemma push_chunk sc data sc' out ext :
  push sc data = (sc', out) ->
  chunk (buf sc ++ data ++ ext) = out ++ chunk (buf sc' ++ ext) /\ len (buf sc') < MAX_SIZE.
Proof.
  unfold push. destruct (push_loop _ _) as [b o] eqn:E. intros [= <- <-].
  apply (push_loop_chunk _ _ _ _ ext) in E; [|done]. by rewrite <-app_assoc in E.
Qed.

Lemma push_all_chunk blocks sc sc' out ext :
  push_all sc blocks = (sc', out) -> chunk (buf sc ++ concat blocks ++ ext) = out ++ chunk (buf sc' ++ ext).
Proof.
  revert sc out. induction blocks as [|b blocks IH]; intros sc out; simpl; [by intros [= <- <-]|].
  destruct (push sc b) as [sc1 o1] eqn:E1. destruct (push_all sc1 blocks) as [sc2 o2] eqn:E2.
  intros [= <- <-]. apply (push_chunk _ _ _ _ (concat blocks ++ ext)) in E1 as [E1 _].
  rewrite <-!app_assoc, E1. f_equal. by apply IH.
Qed.

(** ** Correctness *)

(** The chunks concatenate to the data and each fits its bounds. *)
Lemma chunk_concat (data : bytes) : concat (chunk data) = data /\ Forall (fun c => 0 < len c <= MAX_SIZE) (chunk data).
Proof.
  induction data as [|data Hne (IHc & IHb)] using chunk_ind; [rewrite chunk_nil; by split; [|constructor]|].
  pose proof (cut_point_bounds data Hne) as (H1 & H2 & H3). rewrite (chunk_unfold data Hne). split.
  - simpl. by rewrite IHc, take_drop.
  - constructor; [|done]. rewrite len_take by lia. lia.
Qed.

(** C33: Splitting loses nothing: the chunks of [chunk] concatenate to the data, none is empty, none
    is longer than [MAX_SIZE], and every chunk but the last is at least [MIN_SIZE] long. The loop
    always terminates with this result. *)
Theorem chunk_correct (data : bytes) :
  concat (chunk data) = data
  /\ Forall (fun c => 0 < len c <= MAX_SIZE) (chunk data)
  /\ forall front tail, chunk data = front ++ [tail] -> Forall (fun c => MIN_SIZE <= len c) front.
Proof.
  destruct (chunk_concat data) as [Hc Hb]. split_and!; [done|done|]. clear Hc Hb.
  induction data as [|data Hne IHm] using chunk_ind; [rewrite chunk_nil; by intros [|] ?|].
  pose proof (cut_point_bounds data Hne) as (H1 & H2 & H3). rewrite (chunk_unfold data Hne).
  intros [|c front] t; simpl; [by constructor|]. intros [= <- Hf]. constructor; [|by eapply IHm].
  rewrite len_take by lia. apply H3. destruct (N.lt_ge_cases (cut_point data) (len data)) as [?|Hge]; [done|].
  exfalso. rewrite drop_ge in Hf by (unfold len in Hge; lia). rewrite chunk_nil in Hf. by destruct front.
Qed.

(** C28: streaming does not change the boundaries: however the content is cut into pushed blocks, the
    chunks emitted by [push] and [finish] are exactly those of [chunk] on the concatenated bytes, and
    between pushes the pending buffer is shorter than [MAX_SIZE]. *)
Theorem chunk_stream (blocks : list bytes) :
  stream blocks = chunk (concat blocks)
  /\ forall sc data, len (buf (push sc data).1) < MAX_SIZE.
Proof.
  split.
  - unfold stream. destruct (push_all stream_new blocks) as [sc out] eqn:E.
    apply (push_all_chunk _ _ _ _ []) in E. rewrite !app_nil_r in E. symmetry. exact E.
  - intros sc data. destruct (push sc data) as [sc' out] eqn:E. by apply (push_chunk _ _ _ _ []) in E as [_ E].
Qed.

End Chunk.
