(* ===== verification/OrderKey.v ===== *)
(** * Fractional order keys (crates/loom-types/src/order_key.rs)

    Keys are byte strings over a 62-digit alphabet, compared as byte strings. [key_between] runs on
    fuel: a run that neither returns nor panics ends in [OutOfFuel]. *)

From S2P Require Import Prelude Types.

Module OrderKey.
Import Error.

Definition DIGITS : bytes :=
  Eval vm_compute in
    str "0123456789ABCDEFGHIJKLMNOPQRSTUVWXYZabcdefghijklmnopqrstuvwxyz".
Definition BASE : nat := 62.

Fixpoint find_index (l : bytes) (b : byte) : option nat :=
  match l with
  | [] => None
  | x :: l => if decide (x = b) then Some O else S <$> find_index l b
  end.

Definition digit_index (b : byte) : option nat := find_index DIGITS b.

(** How a run that returns no key ends. *)
Inductive Stop : Type :=
| Panic
| OutOfFuel.

Definition digit_at (key : bytes) (i : nat) : result Stop nat :=
  match key !! i with
  | Some b => ok_or (digit_index b) Panic
  | None => Ok O
  end.

(** [DIGITS[d]]; the index is checked. *)
Definition digit (d : nat) : result Stop byte := ok_or (DIGITS !! d) Panic.

(** The private string of an [OrderKey]. *)
Record OrderKey : Type := mkOrderKey { as_str : bytes }.

Definition parse (value : bytes) : res OrderKey :=
  match last value with
  | None => Err InvalidArgument
  | Some l =>
      if forallb (fun b => bool_decide (is_Some (digit_index b))) value then
        if bool_decide (DIGITS !! O = Some l) then Err InvalidArgument else Ok (mkOrderKey value)
      else Err InvalidArgument
  end.

Fixpoint key_loop (fuel : nat) (lo : bytes) (hi : option bytes) (out : bytes) (i : nat) : result Stop bytes :=
  match fuel with
  | O => Err OutOfFuel
  | S fuel =>
      d_lo ← digit_at lo i;
      d_hi ← match hi with Some h => digit_at h i | None => Ok BASE end;
      if (d_lo =? d_hi)%nat then
        b ← digit d_lo; key_loop fuel lo hi (out ++ [b]) (S i)
      else
        let mid := ((d_lo + d_hi) / 2)%nat in
        if (d_lo <? mid)%nat then
          b ← digit mid; Ok (out ++ [b])
        else
          b ← digit d_lo; key_loop fuel lo None (out ++ [b]) (S i)
  end.

(** Enough iterations for every pair of keys with [lo < hi]. *)
Definition key_fuel (lo : bytes) (hi : option bytes) : nat :=
  (length lo + length (default [] hi) + 1)%nat.

Definition key_between (lo : bytes) (hi : option bytes) : result Stop bytes :=
  key_loop (key_fuel lo hi) lo hi [] O.

Definition between (lo hi : option OrderKey) : result Stop OrderKey :=
  k ← key_between (default [] (as_str <$> lo)) (as_str <$> hi);
  Ok (mkOrderKey k).

(** ** The alphabet *)

Lemma find_index_Some l b d : find_index l b = Some d -> l !! d = Some b.
Proof.
  revert d. induction l as [|x l IH]; intros d; simpl; [done|]. case_decide; [intros [= <-]; by subst|].
  destruct (find_index l b) as [d'|] eqn:E; [|done]. intros [= <-]. by apply IH.
Qed.

Lemma digit_index_lookup b d : digit_index b = Some d -> DIGITS !! d = Some b.
Proof. apply find_index_Some. Qed.

Lemma digit_index_lt b d : digit_index b = Some d -> (d < BASE)%nat.
Proof. intros H%digit_index_lookup%lookup_lt_Some. exact H. Qed.

(** Every digit of the alphabet, with its byte; and the bytes increase with the digits. *)
Lemma digit_total d : (d < BASE)%nat -> exists b, DIGITS !! d = Some b /\ digit_index b = Some d.
Proof.
  intros Hd. assert (forallb (fun d => match DIGITS !! d with
    | Some b => bool_decide (digit_index b = Some d) | None => false end) (seq 0 BASE) = true) as H
    by (by vm_compute).
  rewrite forallb_forall in H. specialize (H d ltac:(apply in_seq; lia)).
  destruct (DIGITS !! d) as [b|]; [|done]. apply bool_decide_eq_true in H. by exists b.
Qed.

Lemma digits_sorted d d' b b' :
  DIGITS !! d = Some b -> DIGITS !! d' = Some b' -> (d < d')%nat -> (Byte.to_N b ?= Byte.to_N b') = Lt.
Proof.
  intros Hb Hb' Hlt. pose proof (lookup_lt_Some _ _ _ Hb). pose proof (lookup_lt_Some _ _ _ Hb').
  assert (forallb (fun d => forallb (fun d' => match DIGITS !! d, DIGITS !! d' with
    | Some b, Some b' => negb (d <? d')%nat || bool_decide ((Byte.to_N b ?= Byte.to_N b') = Lt)
    | _, _ => false end) (seq 0 BASE)) (seq 0 BASE) = true) as Hc by (by vm_compute).
  rewrite forallb_forall in Hc. specialize (Hc d ltac:(apply in_seq; split; [lia|done])).
  rewrite forallb_forall in Hc. specialize (Hc d' ltac:(apply in_seq; split; [lia|done])).
  rewrite Hb, Hb', (proj2 (Nat.ltb_lt _ _) Hlt) in Hc. by apply bool_decide_eq_true in Hc.
Qed.

(** ** The generated key *)

(** The loop on the suffixes still to be read: the reference form of [key_loop]. *)
Fixpoint mid (fuel : nat) (lo : bytes) (hi : option bytes) : result Stop bytes :=
  match fuel with
  | O => Err OutOfFuel
  | S fuel =>
      d_lo ← digit_at lo 0;
      d_hi ← match hi with Some h => digit_at h 0 | None => Ok BASE end;
      if (d_lo =? d_hi)%nat then
        b ← digit d_lo; cons b <$> mid fuel (tail lo) (tail <$> hi)
      else if (d_lo <? (d_lo + d_hi) / 2)%nat then
        b ← digit ((d_lo + d_hi) / 2)%nat; Ok [b]
      else
        b ← digit d_lo; cons b <$> mid fuel (tail lo) None
  end.

Lemma digit_at_drop key i : digit_at key i = digit_at (drop i key) 0.
Proof. unfold digit_at. by rewrite lookup_drop, Nat.add_0_r. Qed.

Lemma tail_drop (key : bytes) i : tail (drop i key) = drop (S i) key.
Proof. revert key. induction i as [|i IH]; intros [|x key]; try done. exact (IH key). Qed.

Lemma key_loop_mid fuel lo hi out i :
  key_loop fuel lo hi out i = app out <$> mid fuel (drop i lo) (drop i <$> hi).
Proof.
  revert hi out i. induction fuel as [|fuel IH]; intros hi out i; [done|].
  cbn [key_loop mid]. rewrite digit_at_drop. destruct (digit_at (drop i lo) 0) as [d_lo|]; [|done]. cbn [mbind result_bind].
  assert (match hi with Some h => digit_at h i | None => Ok BASE end
    = match drop i <$> hi with Some h => digit_at h 0 | None => Ok BASE end) as ->
    by (destruct hi; [apply digit_at_drop|done]).
  destruct (match drop i <$> hi with Some h => _ | None => _ end) as [d_hi|]; [|done]. cbn [mbind result_bind].
  assert (tail <$> (drop i <$> hi) = drop (S i) <$> hi) as -> by (destruct hi; [simpl; by rewrite tail_drop|done]).
  rewrite tail_drop. destruct (d_lo =? d_hi)%nat; [|destruct (d_lo <? _)%nat].
  - destruct (digit d_lo) as [b|]; [|done]. cbn [mbind result_bind]. rewrite IH.
    destruct (mid fuel _ _); [|done]. simpl. by rewrite <-app_assoc.
  - by destruct (digit _).
  - destruct (digit d_lo) as [b|]; [|done]. cbn [mbind result_bind]. rewrite IH.
    destruct (mid fuel _ _); [|done]. simpl. by rewrite <-app_assoc.
Qed.

(** Strings of digits, and those that may end a key. *)
Definition digits (s : bytes) : Prop := Forall (fun b => is_Some (digit_index b)) s.
Definition trimmed (s : bytes) : Prop := last s <> DIGITS !! O.
Definition canonical (s : bytes) : Prop := digits s /\ trimmed s /\ s <> [].

Lemma parse_canonical s k : parse s = Ok k <-> canonical s /\ k = mkOrderKey s.
Proof.
  unfold parse, canonical, trimmed, digits. destruct (last s) as [l|] eqn:E.
  - assert (s <> []) as Hne by (by intros ->).
    destruct (forallb _ s) eqn:Ef.
    + apply Is_true_true_2, forallb_True in Ef. case_bool_decide as Hl.
      * rewrite Hl. naive_solver.
      * split; [intros [= <-]|by intros [_ ->]]. split_and!; try done.
        eapply Forall_impl; [exact Ef|]. intros x Hx. by apply bool_decide_unpack in Hx.
    + split; [done|]. intros [(Hd & _ & _) _]. exfalso. apply not_true_iff_false in Ef. apply Ef.
      apply forallb_forall. intros x Hx. apply bool_decide_eq_true. rewrite Forall_forall in Hd.
      apply Hd. by apply list_elem_of_In.
  - apply last_None in E as ->. split; [done|]. by intros [(_ & _ & ?) _].
Qed.

Lemma canonical_cons b s : is_Some (digit_index b) -> canonical s -> canonical (b :: s).
Proof.
  intros Hb (Hd & Ht & Hne). split_and!; [by constructor| |done]. unfold trimmed in *.
  by destruct s as [|c s].
Qed.

(** A single digit above the minimum is a key. *)
Lemma digit_key d : (0 < d < BASE)%nat -> exists b, DIGITS !! d = Some b /\ digit d = Ok b /\ canonical [b].
Proof.
  intros Hd. destruct (digit_total d ltac:(lia)) as (b & Hb & Hi). exists b. unfold digit. rewrite Hb.
  split; [done|]. split; [done|]. split; [by repeat constructor|]. split; [|done]. unfold trimmed. simpl. intros H. symmetry in H.
  pose proof (digits_sorted 0 d _ _ H Hb ltac:(lia)) as Hc. by rewrite N.compare_refl in Hc.
Qed.

Lemma digit_ok b d : digit_index b = Some d -> digit d = Ok b.
Proof. intros H%digit_index_lookup. unfold digit. by rewrite H. Qed.

Lemma cons_digit_lt d d' b b' s s' :
  DIGITS !! d = Some b -> DIGITS !! d' = Some b' -> (d < d')%nat -> b :: s <b b' :: s'.
Proof. intros Hb Hb' Hlt. unfold bytes_lt. simpl. by rewrite (digits_sorted _ _ _ _ Hb Hb' Hlt). Qed.

Lemma cons_same_lt b s s' : b :: s <b b :: s' <-> s <b s'.
Proof. apply (bytes_lt_app [b]). Qed.

(** With no upper bound the loop returns a key above [lo]. *)
Lemma mid_open fuel lo :
  digits lo -> (length lo < fuel)%nat -> exists k, mid fuel lo None = Ok k /\ canonical k /\ lo <b k.
Proof.
  revert fuel. induction lo as [|b lo IH]; intros [|fuel] Hd Hf; try (simpl in Hf; lia).
  - destruct (digit_key 31 ltac:(unfold BASE; lia)) as (b & Hb & Hk & Hc). exists [b].
    cbn -[digit]. change (fst (Nat.divmod 62 1 0 1)) with 31%nat. by rewrite Hk.
  - apply Forall_cons in Hd as [[d Hb] Hd']. pose proof (digit_index_lt _ _ Hb) as Hlt.
    cbn [mid]. unfold digit_at at 1. cbn [lookup list_lookup]. rewrite Hb. cbn [ok_or mbind result_bind].
    rewrite (proj2 (Nat.eqb_neq _ _)) by lia. destruct (Nat.ltb_spec d ((d + BASE) / 2)) as [Hm|Hm].
    + destruct (digit_key ((d + BASE) / 2)) as (c & Hc & Hk & Hcc); [unfold BASE in *; split; [lia|apply Nat.Div0.div_lt_upper_bound; lia]|].
      exists [c]. rewrite Hk. split_and!; [done|done|]. by eapply cons_digit_lt; [by apply digit_index_lookup| |].
    + destruct (IH fuel Hd' ltac:(simpl in Hf; lia)) as (k & Hk & Hc & Hlo). rewrite (digit_ok _ _ Hb).
      cbn [mbind result_bind tail fmap]. rewrite Hk. exists (b :: k). split_and!; [done| |by apply cons_same_lt].
      by apply canonical_cons.
Qed.

(** One step of [mid] on two known digits, the lower one below the upper one. *)
Lemma mid_step fuel lo hi x y s c d_lo d_hi :
  digit_at lo 0 = Ok d_lo -> digit_at hi 0 = Ok d_hi -> (d_lo < d_hi < BASE)%nat ->
  DIGITS !! d_lo = Some x -> DIGITS !! d_hi = Some y -> hi = y :: s ->
  digits (tail lo) -> (length (tail lo) < fuel)%nat -> c = tail lo ->
  exists k, mid (S fuel) lo (Some hi) = Ok k /\ canonical k /\ x :: c <b k /\ k <b hi.
Proof.
  intros Hlo Hhi [Hlt Hbase] Hx Hy -> Hd Hf ->. cbn [mid]. rewrite Hlo, Hhi. cbn [mbind result_bind].
  rewrite (proj2 (Nat.eqb_neq _ _)) by lia. destruct (Nat.ltb_spec d_lo ((d_lo + d_hi) / 2)) as [Hm|Hm].
  - assert ((d_lo + d_hi) / 2 < d_hi)%nat as Hm' by (apply Nat.Div0.div_lt_upper_bound; lia).
    destruct (digit_key ((d_lo + d_hi) / 2) ltac:(lia)) as (b & Hb & Hk & Hc). exists [b]. rewrite Hk.
    split_and!; [done|done| |]; by eapply cons_digit_lt.
  - destruct (mid_open fuel (tail lo) Hd Hf) as (k & Hk & Hc & Hlk). unfold digit. rewrite Hx.
    cbn [ok_or mbind result_bind fmap]. rewrite Hk. exists (x :: k).
    split_and!; [done| |by apply cons_same_lt|by apply (cons_digit_lt d_lo d_hi)].
    apply canonical_cons; [|done]. destruct (digit_total d_lo ltac:(lia)) as (x' & Hx' & Hi). naive_solver.
Qed.

Lemma trimmed_tail b s : trimmed (b :: s) -> trimmed s.
Proof. unfold trimmed. by destruct s as [|c s]. Qed.

Lemma digit_at_cons b s d : digit_index b = Some d -> digit_at (b :: s) 0 = Ok d.
Proof. intros H. unfold digit_at. simpl. by rewrite H. Qed.

(** Below an upper bound that ends in no minimum digit the loop returns a key strictly between. *)
Lemma mid_bounded fuel lo hi :
  digits lo -> digits hi -> trimmed hi -> lo <b hi -> (length lo + length hi < fuel)%nat ->
  exists k, mid fuel lo (Some hi) = Ok k /\ canonical k /\ lo <b k /\ k <b hi.
Proof.
  revert fuel lo. induction hi as [|y hi IH]; intros [|fuel] lo Hlo Hhi Ht Hlt Hf; try (simpl in Hf; lia).
  { by destruct lo. }
  apply Forall_cons in Hhi as [[dy Hy] Hhi']. pose proof (digit_index_lt _ _ Hy) as Hdy.
  pose proof (digit_index_lookup _ _ Hy) as Ly. pose proof (digit_at_cons _ hi _ Hy) as Ay.
  assert (exists x dx, digit_at lo 0 = Ok dx /\ DIGITS !! dx = Some x /\ (lo = x :: tail lo \/ lo = [] /\ dx = O))
    as (x & dx & Ax & Lx & Hcase).
  { destruct lo as [|x lo']; [by exists "0"%byte, O; eauto|]. apply Forall_cons in Hlo as [[dx Hx] _].
    exists x, dx. split_and!; [by apply digit_at_cons|by apply digit_index_lookup|by left]. }
  assert (digits (tail lo)) as Hdt by (destruct lo; [done|by inversion Hlo]).
  assert (length (tail lo) <= length lo)%nat as Hlt' by (destruct lo; simpl; lia). simpl in Hf.
  assert (lo = [] -> [] <b x :: tail lo) as Hnil by done.
  destruct (decide (dx = dy)) as [<-|Hne].
  - assert (y = x) as -> by congruence.
    assert (tail lo <b hi) as Hlt2.
    { destruct Hcase as [E|[E ->]]; [rewrite E in Hlt; by apply cons_same_lt in Hlt|].
      subst lo. destruct hi; [|done]. unfold trimmed in Ht. simpl in Ht. by rewrite <-Lx in Ht. }
    destruct (IH fuel (tail lo) Hdt Hhi' (trimmed_tail _ _ Ht) Hlt2 ltac:(lia)) as (k & Hk & Hc & H1 & H2).
    exists (x :: k). cbn [mid]. rewrite Ax, Ay. cbn [mbind result_bind]. rewrite Nat.eqb_refl.
    rewrite (digit_ok _ _ Hy). cbn [mbind result_bind fmap option_fmap option_map tail]. rewrite Hk.
    split_and!; [done|by apply canonical_cons| |by apply cons_same_lt].
    destruct Hcase as [E|[-> _]]; [rewrite E; by apply cons_same_lt|done].
  - assert (dx < dy)%nat as Hdd.
    { destruct Hcase as [E|[E ->]]; [|lia]. apply not_ge. intros Hge. rewrite E in Hlt.
      pose proof (cons_digit_lt dy dx y x hi (tail lo) Ly Lx ltac:(lia)) as Hg. exact (irreflexivity bytes_lt _ (transitivity Hg Hlt)). }
    destruct (mid_step fuel lo (y :: hi) x y hi (tail lo) dx dy) as (k & Hk & Hc & H1 & H2); try done; [lia|].
    exists k. split_and!; try done. destruct Hcase as [E|[-> _]]; [by rewrite E|]. by destruct k.
Qed.

(** C30: fractional insertion. For canonical neighbours [lo < hi], either of which may be absent, the
    loop of [between] returns, never panics, and the key it returns is canonical (it passes [parse])
    and strictly between the two. *)
Theorem order_key_between (lo hi : option OrderKey) :
  (forall k, lo = Some k -> parse (as_str k) = Ok k) ->
  (forall k, hi = Some k -> parse (as_str k) = Ok k) ->
  (forall k k', lo = Some k -> hi = Some k' -> as_str k <b as_str k') ->
  exists k, between lo hi = Ok k /\ parse (as_str k) = Ok k
    /\ (forall l, lo = Some l -> as_str l <b as_str k) /\ (forall h, hi = Some h -> as_str k <b as_str h).
Proof.
  intros Hlo Hhi Hlt. set (l := default [] (as_str <$> lo)).
  assert (digits l) as Hl.
  { subst l. destruct lo as [k|]; [|by constructor]. pose proof (Hlo k eq_refl) as [(Hd & _) _]%parse_canonical. exact Hd. }
  assert (exists k, mid (key_fuel l (as_str <$> hi)) l (as_str <$> hi) = Ok k /\ canonical k
    /\ (lo = None \/ l <b k) /\ forall h, hi = Some h -> k <b as_str h) as (k & Hk & Hc & H1 & H2).
  { destruct hi as [h|]; simpl; unfold key_fuel.
    - pose proof (Hhi h eq_refl) as [(Hd & Ht & Hne) _]%parse_canonical.
      destruct (mid_bounded (length l + length (as_str h) + 1) l (as_str h)) as (k & Hk & Hc & H1 & H2); try done; try lia.
      { subst l. destruct lo as [k|]; [by apply Hlt|simpl]. by destruct (as_str h). }
      exists k. naive_solver.
    - destruct (mid_open (length l + 0 + 1) l) as (k & Hk & Hc & H1); [done|lia|]. exists k. naive_solver. }
  exists (mkOrderKey k). split_and!; [|by apply parse_canonical| |done].
  - unfold between, key_between. fold l. rewrite key_loop_mid.
    assert (drop 0 <$> (as_str <$> hi) = as_str <$> hi) as -> by (by destruct hi). by rewrite drop_0, Hk.
  - intros l' ->. simpl. by destruct H1.
Qed.

Lemma order_key_between_witness :
  exists k, between (Some (mkOrderKey (str "V"))) (Some (mkOrderKey (str "W"))) = Ok k
    /\ parse (as_str k) = Ok k /\ as_str k = str "VV".
Proof.
  destruct (order_key_between (Some (mkOrderKey (str "V"))) (Some (mkOrderKey (str "W")))) as (k & Hk & Hp & _).
  - intros ? [= <-]. by vm_compute.
  - intros ? [= <-]. by vm_compute.
  - intros ? ? [= <-] [= <-]. by vm_compute.
  - exists k. split; [exact Hk|]. split; [exact Hp|].
    assert (between (Some (mkOrderKey (str "V"))) (Some (mkOrderKey (str "W"))) = Ok (mkOrderKey (str "VV"))) as E
      by (by vm_compute).
    rewrite E in Hk. injection Hk as <-. reflexivity.
Defined.

End OrderKey.
