(* ===== verification/Fence.v ===== *)
(** * Fencing tokens (crates/loom-types/src/fence.rs)

    An (authority, epoch, sequence) triple with its packed 128-bit and two-limb forms. Field widths
    are the predicate [wf_fence]; the packing is written with the shifts and casts of the source. *)

From S2P Require Import Prelude.

Module Fence.

Record Fence : Type := mkFence { authority : N; epoch : N; sequence : N }.

#[global] Instance Fence_eq_dec : EqDecision Fence.
Proof. solve_decision. Defined.

(** [u32], [u32], [u64] *)
Definition wf_fence (f : Fence) : Prop :=
  authority f <= u32_max /\ epoch f <= u32_max /\ sequence f <= u64_max.

Definition EMBEDDED_AUTHORITY : N := 0.
Definition EMBEDDED_EPOCH : N := 0.

Definition embedded (seq : N) : Fence := mkFence EMBEDDED_AUTHORITY EMBEDDED_EPOCH seq.

Definition is_embedded (f : Fence) : bool :=
  (authority f =? EMBEDDED_AUTHORITY) && (epoch f =? EMBEDDED_EPOCH).

Definition embedded_sequence (f : Fence) : option N :=
  if is_embedded f then Some (sequence f) else None.

(** [as u32], and shifts of a 128-bit word. *)
Definition as_u32 (n : N) : N := n mod 2 ^ 32.
Definition shl128 (n k : N) : N := N.shiftl n k mod 2 ^ 128.

Definition to_u128 (f : Fence) : N :=
  N.lor (N.lor (shl128 (authority f) 96) (shl128 (epoch f) 64)) (sequence f).

Definition from_u128 (v : N) : Fence :=
  mkFence (as_u32 (N.shiftr v 96)) (as_u32 (N.shiftr v 64)) (as_u64 v).

Definition to_limbs (f : Fence) : N * N := (as_u64 (to_u128 f), as_u64 (N.shiftr (to_u128 f) 64)).

Definition from_limbs (low high : N) : Fence := from_u128 (N.lor (shl128 high 64) low).

(** The derived order: authority, then epoch, then sequence. *)
Definition fence_lt (f g : Fence) : Prop :=
  authority f < authority g \/
  authority f = authority g /\ (epoch f < epoch g \/ epoch f = epoch g /\ sequence f < sequence g).

(** ** Packing *)

Lemma to_u128_add f :
  wf_fence f -> to_u128 f = (authority f * 2 ^ 32 + epoch f) * 2 ^ 64 + sequence f.
Proof.
  destruct f as [a e s]. unfold wf_fence, to_u128, shl128, u32_max, u64_max. simpl authority. simpl epoch. simpl sequence.
  intros (Ha & He & Hs). rewrite !N.mod_small by (rewrite N.shiftl_mul_pow2; lia).
  assert (N.shiftl a 96 = N.shiftl (N.shiftl a 32) 64) as -> by (by rewrite N.shiftl_shiftl).
  rewrite <-N.shiftl_lor, !lor_shiftl_add by lia. done.
Qed.

Lemma from_u128_split v :
  from_u128 v = mkFence (v / 2 ^ 96 mod 2 ^ 32) (v / 2 ^ 64 mod 2 ^ 32) (v mod 2 ^ 64).
Proof. unfold from_u128, as_u32, as_u64. by rewrite !N.shiftr_div_pow2. Qed.

Lemma from_u128_add a e s :
  a < 2 ^ 32 -> e < 2 ^ 32 -> s < 2 ^ 64 -> from_u128 ((a * 2 ^ 32 + e) * 2 ^ 64 + s) = mkFence a e s.
Proof.
  intros Ha He Hs. rewrite from_u128_split.
  assert (((a * 2 ^ 32 + e) * 2 ^ 64 + s) / 2 ^ 64 = a * 2 ^ 32 + e) as E64
    by (rewrite N.div_add_l, N.div_small by lia; lia).
  f_equal.
  - change (2 ^ 96) with (2 ^ 64 * 2 ^ 32). rewrite <-N.Div0.div_div, E64, N.div_add_l, N.div_small by lia.
    rewrite N.mod_small; lia.
  - rewrite E64, N.add_comm, N.Div0.mod_add. by apply N.mod_small.
  - rewrite N.add_comm, N.Div0.mod_add. by apply N.mod_small.
Qed.

(** The packed forms of a fence lose nothing and keep the order: [from_u128] inverts [to_u128] and
    [from_limbs] inverts [to_limbs] on every fence of the field widths, the two limbs fit 64 bits, and
    comparing packed words is comparing fences by authority, epoch and sequence. *)
Theorem fence_packing (f g : Fence) :
  wf_fence f -> wf_fence g ->
  from_u128 (to_u128 f) = f
  /\ from_limbs (to_limbs f).1 (to_limbs f).2 = f
  /\ (to_limbs f).1 <= u64_max /\ (to_limbs f).2 <= u64_max
  /\ (fence_lt f g <-> to_u128 f < to_u128 g).
Proof.
  intros Hf Hg. unfold from_limbs, to_limbs, shl128, as_u64. cbn [fst snd].
  rewrite N.shiftr_div_pow2, (to_u128_add f Hf), (to_u128_add g Hg).
  destruct f as [a e s], g as [a' e' s']. unfold wf_fence, u32_max, u64_max, fence_lt in *. simpl in Hf, Hg |- *.
  destruct Hf as (Ha & He & Hs), Hg as (Ha' & He' & Hs').
  assert (((a * 2 ^ 32 + e) * 2 ^ 64 + s) / 2 ^ 64 = a * 2 ^ 32 + e) as E64
    by (rewrite N.div_add_l, N.div_small by lia; lia).
  assert (((a * 2 ^ 32 + e) * 2 ^ 64 + s) mod 2 ^ 64 = s) as M64
    by (rewrite N.add_comm, N.Div0.mod_add; apply N.mod_small; lia).
  rewrite E64, M64, (N.mod_small (a * 2 ^ 32 + e)) by lia.
  rewrite (N.mod_small (N.shiftl _ _)) by (rewrite N.shiftl_mul_pow2; lia). rewrite lor_shiftl_add by lia.
  rewrite from_u128_add by lia. split_and!; [done|done|lia|lia|]. lia.
Qed.

Lemma fence_packing_witness :
  from_u128 (to_u128 (mkFence 7 3 42)) = mkFence 7 3 42 /\ to_u128 (mkFence 7 3 42) < to_u128 (mkFence 7 4 0).
Proof.
  destruct (fence_packing (mkFence 7 3 42) (mkFence 7 4 0)) as (H1 & _ & _ & _ & H2).
  - by split_and!; vm_compute.
  - by split_and!; vm_compute.
  - split; [exact H1|]. apply H2. right. split; [reflexivity|]. left. by vm_compute.
Defined.

End Fence.
