(* ===== verification/Lock.v ===== *)
(** * The embedded lock coordinator (crates/loom-core/src/lock.rs)

    Leased, fenced, re-entrant locks in exclusive, shared and semaphore modes. Every method takes the
    coordinator and returns the coordinator it leaves, on error paths too: expired holders are dropped
    before a refusal is returned. Times and counters are [u64], permits and re-entrancy [u32]. *)

From S2P Require Import Prelude Types Fence.

Module Lock.
Import Error Fence.

Inductive LockMode : Type :=
| Exclusive
| Shared
| Semaphore (permits capacity : N).

Record LockOwner : Type := mkLockOwner { principal : bytes; session : bytes }.

Record LockToken : Type := mkLockToken {
  tok_key : bytes;
  tok_owner : LockOwner;
  tok_mode : LockMode;
  tok_fence : Fence;
  tok_deadline : N;
}.

Record Holder : Type := mkHolder {
  h_owner : LockOwner;
  h_mode : LockMode;
  h_fence : Fence;
  h_deadline : N;
  h_reentrancy : N;
}.

Record LockState : Type := mkLockState { holders : list Holder }.

Record LockCoordinator : Type := mkLockCoordinator {
  locks : gmap bytes LockState;
  next_fence_by_key : gmap bytes N;
  applied_fence_by_key : gmap bytes N;
}.

#[global] Instance LockMode_eq_dec : EqDecision LockMode.
Proof. solve_decision. Defined.
#[global] Instance LockOwner_eq_dec : EqDecision LockOwner.
Proof. solve_decision. Defined.

(** Updates of one field, as through [&mut self]. *)
Definition set_locks (c : LockCoordinator) (l : gmap bytes LockState) : LockCoordinator :=
  mkLockCoordinator l (next_fence_by_key c) (applied_fence_by_key c).
Definition set_holders (c : LockCoordinator) (key : bytes) (hs : list Holder) : LockCoordinator :=
  set_locks c (<[key := mkLockState hs]> (locks c)).

Definition token_for (key : bytes) (h : Holder) : LockToken :=
  mkLockToken key (h_owner h) (h_mode h) (h_fence h) (h_deadline h).

Definition validate_mode (mode : LockMode) : res () :=
  match mode with
  | Exclusive | Shared => Ok ()
  | Semaphore permits capacity =>
      if (permits =? 0) || (capacity =? 0) || (capacity <? permits) then Err InvalidArgument else Ok ()
  end.

(** [retain] on the holders of [key], then the removal of an entry left empty: the shape shared by
    [expire_key], [remove_holder] and [release_owner]. *)
Definition retain_holders (c : LockCoordinator) (key : bytes) (keep : Holder -> bool) : LockCoordinator :=
  match locks c !! key with
  | Some st =>
      match filter keep (holders st) with
      | [] => set_locks c (delete key (locks c))
      | hs => set_holders c key hs
      end
  | None => c
  end.

Definition live (now : N) (h : Holder) : bool := now <? h_deadline h.

Definition expire_key (c : LockCoordinator) (key : bytes) (now : N) : LockCoordinator :=
  retain_holders c key (live now).

(** The holder a token stands for. *)
Definition matches (t : LockToken) (h : Holder) : bool :=
  bool_decide (h_owner h = tok_owner t) && bool_decide (h_mode h = tok_mode t)
  && bool_decide (h_fence h = tok_fence t).

Definition remove_holder (c : LockCoordinator) (t : LockToken) : LockCoordinator :=
  retain_holders c (tok_key t) (fun h =>
    negb (bool_decide (h_owner h = tok_owner t)) || negb (bool_decide (h_mode h = tok_mode t))
    || negb (bool_decide (h_fence h = tok_fence t))).

(** [iter_mut().find(..)]: the position and value of the first match, through which it is updated. *)
Definition find_holder (c : LockCoordinator) (key : bytes) (owner : LockOwner) : option (nat * Holder) :=
  st ← locks c !! key;
  list_find (fun h => h_owner h = owner) (holders st).

Definition holder_for_token (c : LockCoordinator) (t : LockToken) : res (nat * Holder) :=
  ok_or (st ← locks c !! tok_key t; list_find (matches t) (holders st)) LockNotHeld.

(** The write through the reference found: holder [i] of [key] becomes [h]. *)
Definition write_holder (c : LockCoordinator) (key : bytes) (i : nat) (h : Holder) : LockCoordinator :=
  match locks c !! key with
  | Some st => set_holders c key (<[i := h]> (holders st))
  | None => c
  end.

(** The permits in use under [capacity], [None] where the source returns [false] early. *)
Fixpoint used_permits (hs : list Holder) (capacity used : N) : option N :=
  match hs with
  | [] => Some used
  | h :: hs =>
      match h_mode h with
      | Semaphore held held_capacity =>
          if negb (held_capacity =? capacity) then None
          else used ← checked_add u32_max used held; used_permits hs capacity used
      | _ => None
      end
  end.

Definition compatible (c : LockCoordinator) (key : bytes) (requested : LockMode) : bool :=
  match locks c !! key with
  | None => true
  | Some st =>
      match requested with
      | Exclusive => bool_decide (holders st = [])
      | Shared => forallb (fun h => bool_decide (h_mode h = Shared)) (holders st)
      | Semaphore permits capacity =>
          match (used ← used_permits (holders st) capacity 0; checked_add u32_max used permits) with
          | Some total => total <=? capacity
          | None => false
          end
      end
  end.

Definition issue_fence (c : LockCoordinator) (key : bytes) : LockCoordinator * Fence :=
  let counter := saturating_add u64_max (default 0 (next_fence_by_key c !! key)) 1 in
  (mkLockCoordinator (locks c) (<[key := counter]> (next_fence_by_key c)) (applied_fence_by_key c),
   embedded counter).

(** ** The operations *)

Definition try_acquire (c : LockCoordinator) (key : bytes) (owner : LockOwner) (mode : LockMode)
    (lease now : N) : LockCoordinator * res LockToken :=
  match validate_mode mode with
  | Err e => (c, Err e)
  | Ok _ =>
      if lease =? 0 then (c, Err InvalidArgument)
      else
        let c := expire_key c key now in
        match checked_add u64_max now lease with
        | None => (c, Err InvalidArgument)
        | Some deadline =>
            match find_holder c key owner with
            | Some (i, h) =>
                if negb (bool_decide (h_mode h = mode)) then (c, Err Locked)
                else
                  match checked_add u32_max (h_reentrancy h) 1 with
                  | None => (c, Err InvalidArgument)
                  | Some reentrancy =>
                      let h := mkHolder (h_owner h) (h_mode h) (h_fence h) deadline reentrancy in
                      (write_holder c key i h, Ok (token_for key h))
                  end
            | None =>
                if negb (compatible c key mode) then (c, Err Locked)
                else
                  let '(c, fence) := issue_fence c key in
                  let h := mkHolder owner mode fence deadline 1 in
                  let hs := default [] (holders <$> locks c !! key) in
                  (set_holders c key (hs ++ [h]), Ok (token_for key h))
            end
        end
  end.

Definition refresh (c : LockCoordinator) (t : LockToken) (lease now : N) : LockCoordinator * res LockToken :=
  if lease =? 0 then (c, Err InvalidArgument)
  else
    match checked_add u64_max now lease with
    | None => (c, Err InvalidArgument)
    | Some deadline =>
        match holder_for_token c t with
        | Err e => (c, Err e)
        | Ok (i, h) =>
            if h_deadline h <=? now then (remove_holder c t, Err LockLeaseExpired)
            else
              let h := mkHolder (h_owner h) (h_mode h) (h_fence h) deadline (h_reentrancy h) in
              (write_holder c (tok_key t) i h, Ok (token_for (tok_key t) h))
        end
    end.

Definition release (c : LockCoordinator) (t : LockToken) (now : N) : LockCoordinator * res () :=
  match holder_for_token c t with
  | Err e => (c, Err e)
  | Ok (i, h) =>
      if h_deadline h <=? now then (remove_holder c t, Err LockLeaseExpired)
      else if 1 <? h_reentrancy h then
        (write_holder c (tok_key t) i
           (mkHolder (h_owner h) (h_mode h) (h_fence h) (h_deadline h) (h_reentrancy h - 1)), Ok ())
      else (remove_holder c t, Ok ())
  end.

Definition break_key (c : LockCoordinator) (key : bytes) (now : N) : LockCoordinator * N :=
  let c := expire_key c key now in
  (set_locks c (delete key (locks c)), default 0 (N.of_nat ∘ length ∘ holders <$> locks c !! key)).

(** The body of the loop of [release_owner] for one key. *)
Definition release_owner_key (owner : LockOwner) (now : N) (acc : LockCoordinator * N) (key : bytes)
    : LockCoordinator * N :=
  let '(c, removed) := acc in
  let c := expire_key c key now in
  match locks c !! key with
  | None => (c, removed)
  | Some st =>
      let kept := filter (fun h => h_owner h <> owner) (holders st) in
      let removed := saturating_add u64_max removed
                       (N.of_nat (length (holders st)) - N.of_nat (length kept)) in
      (match kept with
       | [] => set_locks c (delete key (locks c))
       | _ => set_holders c key kept
       end, removed)
  end.

Definition release_owner (c : LockCoordinator) (owner : LockOwner) (now : N) : LockCoordinator * N :=
  foldl (release_owner_key owner now) (c, 0) (map fst (btree_iter (locks c))).

Definition apply_fence (c : LockCoordinator) (key : bytes) (fence : Fence) : LockCoordinator * res () :=
  match embedded_sequence fence with
  | None => (c, Err InvalidArgument)
  | Some seq =>
      let current := default 0 (applied_fence_by_key c !! key) in
      if seq <? current then (c, Err FencingStale)
      else (mkLockCoordinator (locks c) (next_fence_by_key c) (<[key := seq]> (applied_fence_by_key c)), Ok ())
  end.

Definition apply_fenced_write (c : LockCoordinator) (t : LockToken) (now : N) : LockCoordinator * res () :=
  match holder_for_token c t with
  | Err e => (c, Err e)
  | Ok (_, h) =>
      if h_deadline h <=? now then (remove_holder c t, Err LockLeaseExpired)
      else apply_fence c (tok_key t) (tok_fence t)
  end.

Definition applied_fence (c : LockCoordinator) (key : bytes) : option Fence :=
  embedded <$> applied_fence_by_key c !! key.

Fixpoint min_list (l : list N) : option N :=
  match l with
  | [] => None
  | x :: l => Some (match min_list l with Some y => N.min x y | None => x end)
  end.

Definition earliest_live_lease_deadline (c : LockCoordinator) (key : bytes) (now : N) : option N :=
  st ← locks c !! key;
  min_list (filter (fun d => now < d) (map h_deadline (holders st))).

Definition fence_counters (c : LockCoordinator) : list (bytes * N) := btree_iter (next_fence_by_key c).
Definition applied_fences (c : LockCoordinator) : list (bytes * N) := btree_iter (applied_fence_by_key c).

Definition restore_fences (next applied : list (bytes * N)) : LockCoordinator :=
  mkLockCoordinator ∅ (collect_map next) (collect_map applied).

(** ** Histories: any sequence of calls on one coordinator, restarts included *)

Inductive Op : Type :=
| TryAcquire (key : bytes) (owner : LockOwner) (mode : LockMode) (lease now : N)
| Refresh (t : LockToken) (lease now : N)
| Release (t : LockToken) (now : N)
| BreakKey (key : bytes) (now : N)
| ReleaseOwner (owner : LockOwner) (now : N)
| ApplyFence (key : bytes) (fence : Fence)
| ApplyFencedWrite (t : LockToken) (now : N)
| Restart.

Definition step (c : LockCoordinator) (op : Op) : LockCoordinator :=
  match op with
  | TryAcquire key owner mode lease now => (try_acquire c key owner mode lease now).1
  | Refresh t lease now => (refresh c t lease now).1
  | Release t now => (release c t now).1
  | BreakKey key now => (break_key c key now).1
  | ReleaseOwner owner now => (release_owner c owner now).1
  | ApplyFence key fence => (apply_fence c key fence).1
  | ApplyFencedWrite t now => (apply_fenced_write c t now).1
  | Restart => restore_fences (fence_counters c) (applied_fences c)
  end.

Definition run (c : LockCoordinator) (ops : list Op) : LockCoordinator := foldl step c ops.

End Lock.
