(* ===== verification/LockFacts.v ===== *)
(** * Lock coordinator: the invariant and its preservation

    What may be held together ([admissible]), the invariant of a coordinator ([inv]), the order of the
    fence counters and high-waters ([fences_le]), and that every operation keeps both. *)

From S2P Require Import Prelude Types Fence Lock.

Module LockFacts.
Import Error Fence Lock.

(** ** What may be held together *)

Definition permits_of (m : LockMode) : N := match m with Semaphore p _ => p | _ => 0 end.
Definition total_permits (ms : list LockMode) : N := foldr (fun m acc => permits_of m + acc) 0 ms.
Definition is_semaphore (cap : N) (m : LockMode) : Prop := exists p, m = Semaphore p cap.

(** One exclusive holder, any number of shared holders, or semaphore holders of one capacity whose
    permits fit it. *)
Definition admissible (ms : list LockMode) : Prop :=
  ms = [Exclusive] \/ Forall (eq Shared) ms
  \/ exists cap, Forall (is_semaphore cap) ms /\ total_permits ms <= cap.

Lemma total_permits_sublist ms ms' : sublist ms ms' -> total_permits ms <= total_permits ms'.
Proof. induction 1; simpl; lia. Qed.

Lemma total_permits_app ms ms' : total_permits (ms ++ ms') = total_permits ms + total_permits ms'.
Proof. induction ms as [|m ms IH]; simpl; [done|]. rewrite IH. lia. Qed.

Lemma Forall_sublist {A} (P : A -> Prop) l l' : sublist l l' -> Forall P l' -> Forall P l.
Proof. induction 1; rewrite ?Forall_cons; tauto. Qed.

Lemma admissible_sublist ms ms' : sublist ms ms' -> admissible ms' -> admissible ms.
Proof.
  intros Hs [->|[H|(cap & H & Hc)]].
  - apply sublist_cons_r in Hs as [Hs|(l & -> & Hs)]; apply sublist_nil_r in Hs as ->; [right; left; constructor|by left].
  - right; left. by eapply Forall_sublist.
  - right; right. exists cap. split; [by eapply Forall_sublist|]. apply total_permits_sublist in Hs. lia.
Qed.

(** ** The compatibility test decides admissibility *)

Lemma used_permits_Some hs cap used total :
  used_permits hs cap used = Some total <->
  Forall (is_semaphore cap) (map h_mode hs) /\ total = used + total_permits (map h_mode hs)
  /\ (hs = [] \/ total <= u32_max).
Proof.
  revert used. induction hs as [|h hs IH]; intros used; simpl.
  { split; [intros [= <-]|intros (_ & -> & _)]; [split_and!; [constructor|lia|by left]|f_equal; lia]. }
  unfold is_semaphore at 1. destruct (h_mode h) as [| |p cap'] eqn:E; simpl.
  1,2: split; [done|intros (H & _); apply Forall_cons in H as [[? ?] _]; done].
  destruct (N.eqb_spec cap' cap) as [->|Hne]; simpl; last first.
  { split; [done|]. intros (H & _). apply Forall_cons in H as [[? [=]] _]. done. }
  unfold checked_add. destruct (N.leb_spec (used + p) u32_max) as [Hle|Hgt]; simpl.
  - rewrite IH. rewrite Forall_cons. split.
    + intros (H1 & -> & H2). split_and!; [by eexists|done|lia|]. right. destruct H2 as [->|H2]; simpl; lia.
    + intros ((_ & H1) & -> & [|H2]); [done|]. split_and!; [done|lia|]. right. lia.
  - split; [done|]. intros (_ & -> & [|H]); [done|lia].
Qed.

Definition wf_mode (m : LockMode) : Prop :=
  match m with Semaphore p cap => 0 < p <= cap /\ cap <= u32_max | _ => True end.

Lemma validate_mode_Ok m : is_ok (validate_mode m) = true <-> match m with Semaphore p cap => 0 < p <= cap | _ => True end.
Proof.
  destruct m as [| |p cap]; simpl; [done|done|].
  destruct (N.eqb_spec p 0), (N.eqb_spec cap 0), (N.ltb_spec cap p); simpl; split; try done; lia.
Qed.

(** Adding one mode to what is held, mode by mode. *)
Lemma admissible_exclusive ms : admissible (ms ++ [Exclusive]) <-> ms = [].
Proof.
  split; [|intros ->; by left]. intros [H|[[_ H]%Forall_app|(cap & [_ H]%Forall_app & _)]].
  - destruct ms as [|m ms]; [done|]. apply (f_equal length) in H. rewrite length_app in H. simpl in H. lia.
  - by apply Forall_cons in H as [H _].
  - by apply Forall_cons in H as [[? ?] _].
Qed.

Lemma admissible_shared ms : admissible (ms ++ [Shared]) <-> Forall (eq Shared) ms.
Proof.
  split; [|intros H; right; left; by apply Forall_app_2, Forall_singleton].
  intros [H|[[H _]%Forall_app|(cap & [_ H]%Forall_app & _)]].
  - apply (f_equal last) in H. by rewrite last_snoc in H.
  - done.
  - by apply Forall_cons in H as [[? ?] _].
Qed.

Lemma admissible_semaphore ms p cap :
  admissible (ms ++ [Semaphore p cap]) <-> Forall (is_semaphore cap) ms /\ total_permits ms + p <= cap.
Proof.
  split.
  - intros [H|[[_ H]%Forall_app|(cap' & [H1 H]%Forall_app & Hle)]].
    + apply (f_equal last) in H. by rewrite last_snoc in H.
    + by apply Forall_cons in H as [H _].
    + apply Forall_cons in H as [[? [= -> ->]] _]. rewrite total_permits_app in Hle. simpl in Hle. split; [done|lia].
  - intros [H Hle]. right; right. exists cap. rewrite total_permits_app. simpl. split; [|lia].
    apply Forall_app_2; [done|]. apply Forall_singleton. by eexists.
Qed.

Lemma compatible_semaphore hs p cap :
  match (used ← used_permits hs cap 0; checked_add u32_max used p) with Some total => total <=? cap | None => false end = true
  <-> total_permits (map h_mode hs) + p <= u32_max /\ Forall (is_semaphore cap) (map h_mode hs) /\ total_permits (map h_mode hs) + p <= cap.
Proof.
  destruct (used_permits hs cap 0) as [used|] eqn:Eu; simpl.
  - apply used_permits_Some in Eu as (H & -> & Hr). unfold checked_add.
    destruct (N.leb_spec (0 + total_permits (map h_mode hs) + p) u32_max); simpl; rewrite ?N.leb_le.
    + split; [intros ?; split_and!; [lia|done|lia]|intros (_ & _ & ?); lia].
    + split; [done|intros (? & _ & _); lia].
  - split; [done|]. intros (Hle & H & _). exfalso.
    assert (used_permits hs cap 0 = Some (0 + total_permits (map h_mode hs))) as E'; [|congruence].
    apply used_permits_Some. split_and!; [done|done|]. right. lia.
Qed.

(** The holders of a key; none when the key has no entry. *)
Definition held (c : LockCoordinator) (key : bytes) : list Holder := default [] (holders <$> locks c !! key).

(** What the test admits is admissible; and it admits whatever is, for [u32] capacities. *)
Lemma compatible_sound c key mode :
  is_ok (validate_mode mode) = true -> compatible c key mode = true -> admissible (map h_mode (held c key) ++ [mode]).
Proof.
  rewrite validate_mode_Ok. unfold compatible, held. intros Hm. destruct (locks c !! key) as [[hs]|]; simpl; last first.
  { intros _. destruct mode as [| |p cap]; [by apply (admissible_exclusive [])|by apply (admissible_shared [])|].
    apply (admissible_semaphore []). simpl in *. split; [constructor|lia]. }
  destruct mode as [| |p cap].
  - rewrite admissible_exclusive, bool_decide_eq_true. by intros ->.
  - rewrite admissible_shared, Forall_map, Forall_forall, forallb_forall. intros H x Hx%list_elem_of_In.
    specialize (H x Hx). by apply bool_decide_eq_true in H.
  - rewrite admissible_semaphore, compatible_semaphore. tauto.
Qed.

Lemma compatible_complete c key mode :
  wf_mode mode -> admissible (map h_mode (held c key) ++ [mode]) -> compatible c key mode = true.
Proof.
  intros Hm. unfold compatible, held. destruct (locks c !! key) as [[hs]|]; simpl; [|done].
  destruct mode as [| |p cap]; simpl in Hm.
  - rewrite admissible_exclusive, bool_decide_eq_true. by destruct hs.
  - rewrite admissible_shared, Forall_map, Forall_forall, forallb_forall. intros H x Hx%list_elem_of_In.
    apply bool_decide_eq_true. symmetry. by apply H.
  - rewrite admissible_semaphore, compatible_semaphore. intros [? ?]. split_and!; [lia|done|done].
Qed.

(** ** The invariant *)

Definition counter (c : LockCoordinator) (key : bytes) : N := default 0 (next_fence_by_key c !! key).
Definition high_water (c : LockCoordinator) (key : bytes) : N := default 0 (applied_fence_by_key c !! key).

Definition holder_ok (n : N) (h : Holder) : Prop :=
  (exists q, h_fence h = embedded q /\ 1 <= q <= n) /\ 1 <= h_reentrancy h <= u32_max /\ h_deadline h <= u64_max.

(** The holders of one key whose fence counter is [n]. *)
Definition state_ok (n : N) (hs : list Holder) : Prop :=
  NoDup (map h_owner hs) /\ admissible (map h_mode hs) /\ Forall (holder_ok n) hs
  /\ (n < u64_max -> NoDup (map h_fence hs)).

Definition inv (c : LockCoordinator) : Prop :=
  (forall key, locks c !! key <> Some (mkLockState []))
  /\ (forall key, counter c key <= u64_max)
  /\ forall key, state_ok (counter c key) (held c key).

Lemma state_ok_nil n : state_ok n [].
Proof. split_and!; [constructor|right; left; constructor|constructor|intros _; constructor]. Qed.

Lemma state_ok_sublist n hs hs' : sublist hs hs' -> state_ok n hs' -> state_ok n hs.
Proof.
  intros Hs (Ho & Ha & Hh & Hf). split_and!.
  - eapply sublist_NoDup; [exact Ho|by apply (fmap_sublist h_owner)].
  - eapply admissible_sublist; [|exact Ha]. by apply (fmap_sublist h_mode).
  - by eapply Forall_sublist.
  - intros Hn. eapply sublist_NoDup; [by apply Hf|by apply (fmap_sublist h_fence)].
Qed.

Lemma map_insert_same {A B} (f : A -> B) l i x x' : l !! i = Some x -> f x' = f x -> map f (<[i := x']> l) = map f l.
Proof. intros Hi Hf. change (f <$> <[i := x']> l = f <$> l). rewrite list_fmap_insert, Hf. apply list_insert_id. by rewrite list_lookup_fmap, Hi. Qed.

(** Renewing a holder: its lease and re-entrancy change, nothing else. *)
Lemma state_ok_renew n hs i h d r :
  hs !! i = Some h -> state_ok n hs -> 1 <= r <= u32_max -> d <= u64_max ->
  state_ok n (<[i := mkHolder (h_owner h) (h_mode h) (h_fence h) d r]> hs).
Proof.
  intros Hi (Ho & Ha & Hh & Hf) Hr Hd. unfold state_ok. rewrite !(map_insert_same _ _ _ h _ Hi) by done.
  split_and!; try done. apply Forall_insert; [done|]. rewrite Forall_lookup in Hh.
  destruct (Hh _ _ Hi) as (Hq & _). exact (conj Hq (conj Hr Hd)).
Qed.

(** Admitting a new holder under the next fence. *)
Lemma state_ok_admit n hs h :
  state_ok n hs -> n <= u64_max -> (forall x, x ∈ hs -> h_owner x <> h_owner h) ->
  admissible (map h_mode hs ++ [h_mode h]) -> h_fence h = embedded (saturating_add u64_max n 1) ->
  1 <= h_reentrancy h <= u32_max -> h_deadline h <= u64_max ->
  state_ok (saturating_add u64_max n 1) (hs ++ [h]).
Proof.
  intros (Ho & Ha & Hh & Hf) Hn Hown Hadm Hfe Hr Hd. unfold state_ok. rewrite !map_app. simpl.
  assert (n <= saturating_add u64_max n 1) as Hle by (unfold saturating_add; lia).
  split_and!.
  - apply NoDup_app. split_and!; [done| |apply NoDup_singleton]. intros o (x & -> & Hx)%list_elem_of_fmap.
    rewrite list_elem_of_singleton. by apply Hown.
  - done.
  - apply Forall_app. split.
    + eapply Forall_impl; [exact Hh|]. intros x ((q & Hq & Hq') & Hx). split; [|done]. exists q. split; [done|lia].
    + constructor; [|constructor]. split_and!; try lia. exists (saturating_add u64_max n 1). split; [done|].
      unfold saturating_add, u64_max in *. lia.
  - intros Hlt. apply NoDup_app. split_and!; [|  |apply NoDup_singleton]; [apply Hf; lia|].
    intros f (x & -> & Hx)%list_elem_of_fmap. rewrite list_elem_of_singleton, Hfe.
    rewrite Forall_forall in Hh. destruct (Hh x Hx) as ((q & -> & Hq) & _). intros [= ->].
    unfold saturating_add in *. lia.
Qed.

(** ** The holders after each change *)

Lemma held_set_holders c key hs k : held (set_holders c key hs) k = if decide (k = key) then hs else held c k.
Proof. unfold held. simpl. case_decide as E; [subst; by rewrite lookup_insert_eq|by rewrite lookup_insert_ne by congruence]. Qed.

Lemma held_delete c key k : held (set_locks c (delete key (locks c))) k = if decide (k = key) then [] else held c k.
Proof. unfold held. simpl. case_decide as E; [subst; by rewrite lookup_delete_eq|by rewrite lookup_delete_ne by congruence]. Qed.

Lemma held_retain c key keep k :
  held (retain_holders c key keep) k = if decide (k = key) then filter keep (held c k) else held c k.
Proof.
  unfold retain_holders. destruct (locks c !! key) as [[hs]|] eqn:E.
  - assert (held c key = hs) as Hh by (unfold held; by rewrite E). simpl.
    destruct (filter keep hs) as [|h hs'] eqn:Ef; rewrite ?held_delete, ?held_set_holders;
      case_decide as Ek; try done; by rewrite Ek, Hh, Ef.
  - case_decide; [|done]. subst. unfold held. by rewrite E.
Qed.

Lemma held_write c key i h k :
  held (write_holder c key i h) k = if decide (k = key) then <[i := h]> (held c k) else held c k.
Proof.
  unfold write_holder. destruct (locks c !! key) as [st|] eqn:E.
  - rewrite held_set_holders. case_decide; [|done]. subst. unfold held. by rewrite E.
  - case_decide; [|done]. subst. unfold held. by rewrite E.
Qed.

(** ** Lookups *)

Lemma find_holder_Some c key owner i h :
  find_holder c key owner = Some (i, h) -> held c key !! i = Some h /\ h_owner h = owner.
Proof.
  unfold find_holder, held. destruct (locks c !! key) as [[hs]|]; simpl; [|done].
  intros (? & ? & _)%list_find_Some. done.
Qed.

Lemma find_holder_None c key owner : find_holder c key owner = None <-> forall x, x ∈ held c key -> h_owner x <> owner.
Proof.
  unfold find_holder, held. destruct (locks c !! key) as [[hs]|]; simpl.
  - by rewrite list_find_None, Forall_forall.
  - split; [|done]. intros _ x Hx. by apply elem_of_nil in Hx.
Qed.

Lemma holder_for_token_Ok c t i h :
  holder_for_token c t = Ok (i, h) -> held c (tok_key t) !! i = Some h /\ matches t h = true.
Proof.
  unfold holder_for_token, held. destruct (locks c !! tok_key t) as [[hs]|]; simpl; [|done].
  destruct (list_find _ hs) as [[j x]|] eqn:E; simpl; [|done]. intros [= -> ->].
  apply list_find_Some in E as (? & ? & _). split; [done|]. by apply Is_true_true.
Qed.

Lemma holder_for_token_Err c t e :
  holder_for_token c t = Err e <-> e = LockNotHeld /\ forall x, x ∈ held c (tok_key t) -> matches t x = false.
Proof.
  unfold holder_for_token, held. destruct (locks c !! tok_key t) as [[hs]|]; simpl.
  - destruct (list_find _ hs) as [[j x]|] eqn:E; simpl.
    + split; [done|]. intros [_ H]. apply list_find_Some in E as (Hj & Hm & _).
      apply Is_true_true in Hm. rewrite (H x) in Hm; [done|]. by eapply list_elem_of_lookup_2.
    + apply list_find_None in E. rewrite Forall_forall in E. split; [|by intros [-> _]].
      intros [= <-]. split; [done|]. intros x Hx. apply not_true_iff_false. intros Hm. apply (E x Hx).
      by apply Is_true_true.
  - split; [intros [= <-]; split; [done|]; intros x Hx; by apply elem_of_nil in Hx|by intros [-> _]].
Qed.

Lemma matches_spec t h :
  matches t h = true <-> h_owner h = tok_owner t /\ h_mode h = tok_mode t /\ h_fence h = tok_fence t.
Proof. unfold matches. rewrite !andb_true_iff, !bool_decide_eq_true. tauto. Qed.

(** ** Preservation *)

(** Only the register of holders changes. *)
Definition same_fences (c c' : LockCoordinator) : Prop :=
  next_fence_by_key c' = next_fence_by_key c /\ applied_fence_by_key c' = applied_fence_by_key c.

Lemma inv_same c c' :
  inv c -> same_fences c c' -> (forall key, locks c' !! key <> Some (mkLockState [])) ->
  (forall key, state_ok (counter c key) (held c' key)) -> inv c'.
Proof.
  intros (_ & Hn & _) [Hs _] He Hk. unfold inv, counter. rewrite Hs. by split_and!.
Qed.

Lemma same_retain c key keep : same_fences c (retain_holders c key keep).
Proof. unfold retain_holders. destruct (locks c !! key); [|done]. by destruct (filter _ _). Qed.

Lemma same_write c key i h : same_fences c (write_holder c key i h).
Proof. unfold write_holder. by destruct (locks c !! key). Qed.

Lemma inv_retain c key keep : inv c -> inv (retain_holders c key keep).
Proof.
  intros Hi. pose proof Hi as (He & Hn & Hk). apply (inv_same c); [done|apply same_retain| |].
  - intros k. unfold retain_holders. destruct (locks c !! key) as [[hs]|]; [|done]. simpl.
    destruct (filter _ _) as [|h hs'] eqn:E; simpl.
    + destruct (decide (k = key)) as [->|]; [by rewrite lookup_delete_eq|by rewrite lookup_delete_ne].
    + destruct (decide (k = key)) as [->|]; [by rewrite lookup_insert_eq|by rewrite lookup_insert_ne].
  - intros k. rewrite held_retain. case_decide; [|done]. eapply state_ok_sublist; [|apply Hk]. apply sublist_filter.
Qed.

Lemma inv_renew c key i h d r :
  inv c -> held c key !! i = Some h -> 1 <= r <= u32_max -> d <= u64_max ->
  inv (write_holder c key i (mkHolder (h_owner h) (h_mode h) (h_fence h) d r)).
Proof.
  intros Hi Hl Hr Hd. pose proof Hi as (He & Hn & Hk). apply (inv_same c); [done|apply same_write| |].
  - intros k. unfold write_holder. destruct (locks c !! key) as [[hs]|] eqn:E; [|done]. simpl.
    destruct (decide (k = key)) as [->|]; [rewrite lookup_insert_eq|by rewrite lookup_insert_ne].
    intros [= H]. apply (f_equal length) in H. rewrite length_insert in H. destruct hs; [|done]. by eapply He.
  - intros k. rewrite held_write. case_decide; [|done]. subst. by apply state_ok_renew.
Qed.

Lemma inv_holder c key i h : inv c -> held c key !! i = Some h -> holder_ok (counter c key) h.
Proof. intros (_ & _ & Hk) Hl. destruct (Hk key) as (_ & _ & Hh & _). rewrite Forall_lookup in Hh. by eapply Hh. Qed.

Lemma inv_delete c key : inv c -> inv (set_locks c (delete key (locks c))).
Proof.
  intros Hi. pose proof Hi as (He & Hn & Hk). apply (inv_same c); [done|done| |].
  - intros k. simpl. destruct (decide (k = key)) as [->|]; [by rewrite lookup_delete_eq|by rewrite lookup_delete_ne].
  - intros k. rewrite held_delete. case_decide; [apply state_ok_nil|done].
Qed.

(** The coordinator after a new holder is admitted. *)
Lemma inv_admit c key h :
  inv c -> (forall x, x ∈ held c key -> h_owner x <> h_owner h) ->
  admissible (map h_mode (held c key) ++ [h_mode h]) -> h_fence h = (issue_fence c key).2 ->
  1 <= h_reentrancy h <= u32_max -> h_deadline h <= u64_max ->
  inv (set_holders (issue_fence c key).1 key (held c key ++ [h])).
Proof.
  intros (He & Hn & Hk) Ho Ha Hf Hr Hd.
  assert (forall k, counter (set_holders (issue_fence c key).1 key (held c key ++ [h])) k
    = if decide (k = key) then saturating_add u64_max (counter c k) 1 else counter c k) as Hc.
  { intros k. unfold counter. simpl. case_decide; [subst; by rewrite lookup_insert_eq|by rewrite lookup_insert_ne by congruence]. }
  split_and!.
  - intros k. simpl. destruct (decide (k = key)) as [->|]; [rewrite lookup_insert_eq|by rewrite lookup_insert_ne].
    intros [= H]. by apply app_nil in H as [_ ?].
  - intros k. rewrite Hc. case_decide; [unfold saturating_add; lia|done].
  - intros k. rewrite Hc, held_set_holders. case_decide; [subst; by apply state_ok_admit|]. apply Hk.
Qed.

Lemma checked_add_Some max a b r : checked_add max a b = Some r <-> r = a + b /\ a + b <= max.
Proof. unfold checked_add. destruct (N.leb_spec (a + b) max); split; try done; naive_solver lia. Qed.

Lemma inv_try_acquire c key owner mode lease now : inv c -> inv (try_acquire c key owner mode lease now).1.
Proof.
  intros Hi. unfold try_acquire. destruct (validate_mode mode) as [u|] eqn:Ev; [|done].
  destruct (lease =? 0); [done|]. apply (inv_retain c key (live now)) in Hi. fold (expire_key c key now) in Hi.
  set (c1 := expire_key c key now) in *. clearbody c1. cbv zeta.
  destruct (checked_add u64_max now lease) as [d|] eqn:Ed; [|done]. apply checked_add_Some in Ed as [-> Hd].
  destruct (find_holder c1 key owner) as [[i h]|] eqn:Ef.
  - apply find_holder_Some in Ef as [Hl _]. destruct (negb _); [done|].
    destruct (checked_add u32_max (h_reentrancy h) 1) as [r|] eqn:Er; [|done]. apply checked_add_Some in Er as [-> Hr].
    pose proof (inv_holder _ _ _ _ Hi Hl) as (_ & ? & _). simpl. apply inv_renew; try done. lia.
  - destruct (compatible c1 key mode) eqn:Ec; simpl; [|done].
    apply (inv_admit c1 key (mkHolder owner mode (issue_fence c1 key).2 (now + lease) 1)); simpl; try done.
    + by apply find_holder_None.
    + apply compatible_sound; [by rewrite Ev|done].
Qed.

(** The operations that look a token up. *)
Lemma inv_refresh c t lease now : inv c -> inv (refresh c t lease now).1.
Proof.
  intros Hi. unfold refresh. destruct (lease =? 0); [done|].
  destruct (checked_add u64_max now lease) as [d|] eqn:Ed; [|done]. apply checked_add_Some in Ed as [-> Hd].
  destruct (holder_for_token c t) as [[i h]|] eqn:Ef; [|done]. apply holder_for_token_Ok in Ef as [Hl _].
  pose proof (inv_holder _ _ _ _ Hi Hl) as (_ & ? & _).
  destruct (h_deadline h <=? now); simpl; [by apply inv_retain|by apply inv_renew].
Qed.

Lemma inv_release c t now : inv c -> inv (release c t now).1.
Proof.
  intros Hi. unfold release. destruct (holder_for_token c t) as [[i h]|] eqn:Ef; [|done].
  apply holder_for_token_Ok in Ef as [Hl _]. pose proof (inv_holder _ _ _ _ Hi Hl) as (_ & ? & ?).
  destruct (h_deadline h <=? now); simpl; [by apply inv_retain|].
  destruct (N.ltb_spec 1 (h_reentrancy h)); simpl; [apply inv_renew; try done; lia|by apply inv_retain].
Qed.

Lemma release_owner_key_retain owner now c n key :
  (release_owner_key owner now (c, n) key).1
  = retain_holders (expire_key c key now) key (fun h => negb (bool_decide (h_owner h = owner))).
Proof.
  unfold release_owner_key, retain_holders at 1. destruct (locks (expire_key c key now) !! key) as [st|]; [|done].
  rewrite (list_filter_iff (fun h => h_owner h <> owner) (fun h => negb (bool_decide (h_owner h = owner)))); [by destruct (filter _ _)|].
  intros h. by rewrite negb_True, bool_decide_spec.
Qed.

(** A fact that survives dropping holders survives [release_owner]. *)
Lemma release_owner_keeps (P : LockCoordinator -> Prop) c owner now :
  (forall c key keep, P c -> P (retain_holders c key keep)) -> P c -> P (release_owner c owner now).1.
Proof.
  intros HP. unfold release_owner. generalize 0. generalize (map fst (btree_iter (locks c))). intros keys.
  revert c. induction keys as [|k keys IH]; intros c n Hc; cbn [foldl]; [done|].
  destruct (release_owner_key owner now (c, n) k) as [c' n'] eqn:E. apply IH.
  change c' with (c', n').1. rewrite <-E, release_owner_key_retain. by apply HP, HP.
Qed.

Lemma inv_apply_fence c key fence : inv c -> inv (apply_fence c key fence).1.
Proof. intros Hi. unfold apply_fence. destruct (embedded_sequence fence); [|done]. by destruct (_ <? _). Qed.

Lemma restart_counters c :
  next_fence_by_key (restore_fences (fence_counters c) (applied_fences c)) = next_fence_by_key c
  /\ applied_fence_by_key (restore_fences (fence_counters c) (applied_fences c)) = applied_fence_by_key c.
Proof. split; apply collect_map_btree_iter. Qed.

Lemma inv_restore next applied : (forall key n, (key, n) ∈ next -> n <= u64_max) -> inv (restore_fences next applied).
Proof.
  intros Hn. split_and!; [intros key; simpl; by rewrite lookup_empty| |intros key; unfold held; simpl; rewrite lookup_empty; apply state_ok_nil].
  intros key. unfold counter. simpl. unfold collect_map.
  assert (forall m : gmap bytes N, (forall k v, m !! k = Some v -> v <= u64_max) ->
    forall k v, foldl (fun m e => <[e.1 := e.2]> m) m next !! k = Some v -> v <= u64_max) as H.
  { clear key. induction next as [|[k0 v0] next IH]; intros m Hm; [done|]. simpl. apply IH.
    - intros key n Hin. apply (Hn key). by right.
    - intros k v. destruct (decide (k = k0)) as [->|]; [rewrite lookup_insert_eq|rewrite lookup_insert_ne by done; apply Hm].
      intros [= <-]. apply (Hn k0). by left. }
  destruct (_ !! key) as [v|] eqn:E; simpl; [|unfold u64_max; lia]. eapply H; [|exact E].
  intros k v' Hk. by rewrite lookup_empty in Hk.
Qed.

Lemma inv_step c op : inv c -> inv (step c op).
Proof.
  intros Hi. destruct op; simpl.
  - by apply inv_try_acquire.
  - by apply inv_refresh.
  - by apply inv_release.
  - by apply inv_delete, inv_retain.
  - by apply release_owner_keeps; [intros; apply inv_retain|].
  - by apply inv_apply_fence.
  - unfold apply_fenced_write. destruct (holder_for_token c t) as [[i h]|]; [|done].
    destruct (_ <=? _); [by apply inv_retain|by apply inv_apply_fence].
  - apply (inv_same (mkLockCoordinator ∅ (next_fence_by_key c) (applied_fence_by_key c))).
    + destruct Hi as (_ & Hn & _). split_and!; [intros key; simpl; by rewrite lookup_empty|done|].
      intros key. unfold held. simpl. rewrite lookup_empty. apply state_ok_nil.
    + exact (restart_counters c).
    + intros key. simpl. by rewrite lookup_empty.
    + intros key. unfold held. simpl. rewrite lookup_empty. apply state_ok_nil.
Qed.

Lemma inv_run c ops : inv c -> inv (run c ops).
Proof. revert c. induction ops as [|op ops IH]; intros c Hc; [done|]. by apply IH, inv_step. Qed.

(** ** Fences only grow *)

Definition fences_le (c c' : LockCoordinator) : Prop :=
  forall key, counter c key <= counter c' key /\ high_water c key <= high_water c' key.

#[global] Instance fences_le_preorder : PreOrder fences_le.
Proof.
  split; [intros c key; split; reflexivity|]. intros c1 c2 c3 H1 H2 key.
  destruct (H1 key), (H2 key). split; etrans; eassumption.
Qed.

Lemma same_fences_le c c' : same_fences c c' -> fences_le c c'.
Proof. intros [H1 H2] key. unfold counter, high_water. by rewrite H1, H2. Qed.

Lemma same_trans c1 c2 c3 : same_fences c1 c2 -> same_fences c2 c3 -> same_fences c1 c3.
Proof. intros [H1 H2] [H3 H4]. split; congruence. Qed.

Lemma apply_fence_le c key fence : fences_le c (apply_fence c key fence).1.
Proof.
  unfold apply_fence. destruct (embedded_sequence fence) as [q|]; [|done].
  destruct (N.ltb_spec q (default 0 (applied_fence_by_key c !! key))) as [|Hge]; [done|].
  intros k. split; [done|]. unfold high_water. simpl. destruct (decide (k = key)) as [->|];
    [by rewrite lookup_insert_eq|by rewrite lookup_insert_ne].
Qed.

Lemma try_acquire_le c key owner mode lease now :
  (forall k, counter c k <= u64_max) -> fences_le c (try_acquire c key owner mode lease now).1.
Proof.
  intros Hn. unfold try_acquire. destruct (validate_mode mode); [|done]. destruct (lease =? 0); [done|].
  pose proof (same_retain c key (live now)) as Hs. fold (expire_key c key now) in Hs.
  set (c1 := expire_key c key now) in *. clearbody c1. cbv zeta. pose proof (same_fences_le _ _ Hs) as Hle.
  destruct (checked_add _ _ _) as [d|]; [|done].
  destruct (find_holder c1 key owner) as [[i h]|].
  - destruct (negb _); [done|]. destruct (checked_add _ _ _); [|done]. simpl. etrans; [exact Hle|].
    apply same_fences_le, same_write.
  - destruct (negb _); [done|]. simpl. destruct Hs as [Hs _]. intros k. specialize (Hle k) as [Hc Hh]. split; [|done].
    unfold counter in *. simpl. destruct (decide (k = key)) as [->|]; [rewrite lookup_insert_eq|by rewrite lookup_insert_ne].
    simpl. rewrite Hs in *. specialize (Hn key). unfold saturating_add. lia.
Qed.

Lemma step_le c op : (forall k, counter c k <= u64_max) -> fences_le c (step c op).
Proof.
  intros Hn. destruct op; simpl.
  - by apply try_acquire_le.
  - unfold refresh. destruct (lease =? 0); [done|]. destruct (checked_add _ _ _); [|done].
    destruct (holder_for_token c t) as [[i h]|]; [|done].
    destruct (_ <=? _); apply same_fences_le; [apply same_retain|apply same_write].
  - unfold release. destruct (holder_for_token c t) as [[i h]|]; [|done].
    destruct (_ <=? _); [|destruct (_ <? _)]; apply same_fences_le; [apply same_retain|apply same_write|apply same_retain].
  - apply same_fences_le. exact (same_retain c key (live now)).
  - apply same_fences_le, release_owner_keeps; [|done]. intros c' k keep H. eapply same_trans; [exact H|apply same_retain].
  - apply apply_fence_le.
  - unfold apply_fenced_write. destruct (holder_for_token c t) as [[i h]|]; [|done].
    destruct (_ <=? _); [apply same_fences_le, same_retain|apply apply_fence_le].
  - apply same_fences_le, restart_counters.
Qed.

Lemma run_le c ops : inv c -> fences_le c (run c ops).
Proof.
  revert c. induction ops as [|op ops IH]; intros c Hc; [done|]. pose proof Hc as (_ & Hn & _).
  etrans; [by apply (step_le c op)|]. by apply IH, inv_step.
Qed.

End LockFacts.
