(* ===== verification/LockProps.v ===== *)
(** * Lock coordinator: the correctness theorems

    Mutual exclusion over every history, the exact outcome of an acquisition, release as its inverse,
    the lease rules of tokens, and the fencing guarantee against a holder that outlived its lease. *)

From S2P Require Import Prelude Types Fence Lock LockFacts.

Module LockProps.
Import Error Fence Lock LockFacts.

(** The holders of [key] whose lease runs at [now]. *)
Definition live_at (c : LockCoordinator) (key : bytes) (now : N) : list Holder := filter (live now) (held c key).

Lemma held_expire c key now k : held (expire_key c key now) k = if decide (k = key) then live_at c k now else held c k.
Proof. apply held_retain. Qed.

Lemma counter_expire c key now k : counter (expire_key c key now) k = counter c k.
Proof. unfold counter, expire_key. by destruct (same_retain c key (live now)) as [-> _]. Qed.

Lemma try_acquire_eq c key owner mode lease now :
  is_ok (validate_mode mode) = true -> 0 < lease -> now + lease <= u64_max ->
  try_acquire c key owner mode lease now =
    let c := expire_key c key now in
    match find_holder c key owner with
    | Some (i, h) =>
        if negb (bool_decide (h_mode h = mode)) then (c, Err Locked)
        else
          match checked_add u32_max (h_reentrancy h) 1 with
          | None => (c, Err InvalidArgument)
          | Some r =>
              let h := mkHolder (h_owner h) (h_mode h) (h_fence h) (now + lease) r in
              (write_holder c key i h, Ok (token_for key h))
          end
    | None =>
        if negb (compatible c key mode) then (c, Err Locked)
        else
          let h := mkHolder owner mode (embedded (saturating_add u64_max (counter c key) 1)) (now + lease) 1 in
          (set_holders (issue_fence c key).1 key (held c key ++ [h]), Ok (token_for key h))
    end.
Proof.
  intros Hm Hl Hd. unfold try_acquire. destruct (validate_mode mode); [|done].
  rewrite (proj2 (N.eqb_neq _ _)) by lia. rewrite (proj2 (checked_add_Some u64_max now lease _) (conj eq_refl Hd)).
  done.
Qed.

(** What an accepted request was. *)
Lemma try_acquire_valid c key owner mode lease now c' t :
  try_acquire c key owner mode lease now = (c', Ok t) ->
  is_ok (validate_mode mode) = true /\ 0 < lease /\ now + lease <= u64_max.
Proof.
  unfold try_acquire. destruct (validate_mode mode); [|done]. destruct (N.eqb_spec lease 0); [done|].
  destruct (checked_add u64_max now lease) as [d|] eqn:E; [|done]. apply checked_add_Some in E as [-> E].
  intros _. split_and!; [done|lia|done].
Qed.

Lemma live_owner_find c key owner now :
  (forall h, h ∈ live_at c key now -> h_owner h <> owner) -> find_holder (expire_key c key now) key owner = None.
Proof. intros H. apply find_holder_None. rewrite held_expire, decide_True by done. exact H. Qed.

(** A fresh acquisition, when it is accepted. *)
Lemma try_acquire_fresh c key owner mode lease now c' t :
  (forall h, h ∈ live_at c key now -> h_owner h <> owner) ->
  try_acquire c key owner mode lease now = (c', Ok t) ->
  t = mkLockToken key owner mode (embedded (saturating_add u64_max (counter c key) 1)) (now + lease)
  /\ (forall k, held c' k = if decide (k = key)
       then live_at c key now ++ [mkHolder owner mode (tok_fence t) (now + lease) 1] else held c k)
  /\ counter c' key = saturating_add u64_max (counter c key) 1.
Proof.
  intros Hf Ht. destruct (try_acquire_valid _ _ _ _ _ _ _ _ Ht) as (H1 & H2 & H3).
  rewrite try_acquire_eq in Ht by done. cbv zeta in Ht. rewrite (live_owner_find _ _ _ _ Hf) in Ht.
  destruct (negb _); [done|]. injection Ht as <- <-. rewrite counter_expire. split_and!; [done| |].
  - intros k. rewrite held_set_holders. case_decide as Ek.
    + by rewrite held_expire, decide_True.
    + change (held (expire_key c key now) k = held c k). by rewrite held_expire, decide_False.
  - unfold counter at 1. simpl. rewrite lookup_insert_eq. simpl. f_equal. apply (counter_expire c key now key).
Qed.

(** The holder a granted token stands for is registered under its fence. *)
Lemma try_acquire_fence c key owner mode lease now c' t :
  inv c -> try_acquire c key owner mode lease now = (c', Ok t) ->
  exists q, tok_fence t = embedded q /\ 1 <= q <= counter c' key.
Proof.
  intros Hi Ht. pose proof (inv_try_acquire c key owner mode lease now Hi) as Hi'. rewrite Ht in Hi'. simpl in Hi'.
  destruct (try_acquire_valid _ _ _ _ _ _ _ _ Ht) as (H1 & H2 & H3). rewrite try_acquire_eq in Ht by done. cbv zeta in Ht.
  assert (exists i h, held c' key !! i = Some h /\ h_fence h = tok_fence t) as (i & h & Hl & <-).
  { destruct (find_holder _ key owner) as [[i h]|] eqn:Ef.
    - apply find_holder_Some in Ef as [Hl _]. destruct (negb _); [done|]. destruct (checked_add _ _ _) as [r|]; [|done].
      injection Ht as <- <-. exists i. eexists. rewrite held_write, decide_True by done.
      split; [by apply list_lookup_insert_eq, lookup_lt_is_Some_1|done].
    - destruct (negb _); [done|]. injection Ht as <- <-. eexists (length (held (expire_key c key now) key)), _.
      rewrite held_set_holders, decide_True by done. split; [by apply list_lookup_middle|done]. }
  destruct (inv_holder _ _ _ _ Hi' Hl) as (Hq & _). exact Hq.
Qed.

Lemma try_acquire_key c key owner mode lease now c' t :
  try_acquire c key owner mode lease now = (c', Ok t) -> tok_key t = key.
Proof.
  intros Ht. destruct (try_acquire_valid _ _ _ _ _ _ _ _ Ht) as (H1 & H2 & H3).
  rewrite try_acquire_eq in Ht by done. cbv zeta in Ht. destruct (find_holder _ _ _) as [[i h]|].
  - destruct (negb _); [done|]. destruct (checked_add _ _ _); [|done]. by injection Ht as <- <-.
  - destruct (negb _); [done|]. by injection Ht as <- <-.
Qed.

Lemma apply_fenced_write_high c t now c' :
  apply_fenced_write c t now = (c', Ok ()) -> high_water c' (tok_key t) = sequence (tok_fence t).
Proof.
  unfold apply_fenced_write. destruct (holder_for_token c t) as [[i h]|]; [|done]. destruct (_ <=? _); [done|].
  unfold apply_fence, embedded_sequence. destruct (is_embedded _); [|done]. destruct (_ <? _); [done|].
  intros [= <-]. unfold high_water. simpl. by rewrite lookup_insert_eq.
Qed.

(** ** Mutual exclusion *)

(** C27: mutual exclusion over every history. Whatever sequence of acquisitions, refreshes, releases,
    breaks, fenced writes and restarts runs on a coordinator restored from persisted counters, no owner
    holds a key twice, what is held together is one exclusive holder, shared holders, or semaphore
    holders within one capacity, every holder's fence was issued for its key, and no empty entry
    stays in the register. In particular an exclusive holder is alone, and the permits of a semaphore
    never exceed its capacity. *)
Theorem lock_exclusion (next applied : list (bytes * N)) (ops : list Op) :
  (forall key n, (key, n) ∈ next -> n <= u64_max) ->
  let c := run (restore_fences next applied) ops in
  inv c
  /\ (forall key h, h ∈ held c key -> h_mode h = Exclusive -> held c key = [h])
  /\ (forall key h p cap, h ∈ held c key -> h_mode h = Semaphore p cap ->
        total_permits (map h_mode (held c key)) <= cap).
Proof.
  intros Hn. cbv zeta. assert (inv (run (restore_fences next applied) ops)) as Hi by (by apply inv_run, inv_restore).
  set (c := run _ _) in *. clearbody c. split; [done|]. destruct Hi as (_ & _ & Hk).
  assert (forall key h, h ∈ held c key -> h_mode h ∈ map h_mode (held c key)) as Hm
    by (intros; by apply (list_elem_of_fmap_2 h_mode)).
  split.
  - intros key h Hh He. destruct (Hk key) as (_ & Ha & _). specialize (Hm _ _ Hh). rewrite He in Hm.
    destruct Ha as [Ha|[Ha|(cap & Ha & _)]].
    + destruct (held c key) as [|x [|y hs]]; try done. by apply list_elem_of_singleton in Hh as ->.
    + rewrite Forall_forall in Ha. by apply Ha in Hm.
    + rewrite Forall_forall in Ha. by apply Ha in Hm as [? ?].
  - intros key h p cap Hh He. destruct (Hk key) as (_ & Ha & _). specialize (Hm _ _ Hh). rewrite He in Hm.
    destruct Ha as [Ha|[Ha|(cap' & Ha & Hle)]].
    + rewrite Ha in Hm. by apply list_elem_of_singleton in Hm.
    + rewrite Forall_forall in Ha. by apply Ha in Hm.
    + rewrite Forall_forall in Ha. by apply Ha in Hm as [? [= -> ->]].
Qed.

(** ** Acquisition *)

(** The exact outcome of [try_acquire] on a well-formed request. Expired holders of the key are
    dropped first. An owner that holds nothing is admitted exactly when its mode is admissible beside
    the live holders, under a fresh fence, and refused with [Locked] otherwise. An owner that already
    holds the key re-enters in the same mode, keeping its fence and taking the new lease, and is refused
    in another mode. Other keys are untouched. *)
Theorem lock_acquire (c : LockCoordinator) key owner mode lease now :
  inv c -> wf_mode mode -> 0 < lease -> now + lease <= u64_max ->
  let '(c', r) := try_acquire c key owner mode lease now in
  (forall k, k <> key -> held c' k = held c k)
  /\ match list_find (fun h => h_owner h = owner) (live_at c key now) with
     | None =>
         (admissible (map h_mode (live_at c key now) ++ [mode]) /\
          r = Ok (mkLockToken key owner mode (embedded (saturating_add u64_max (counter c key) 1)) (now + lease)) /\
          held c' key = live_at c key now
            ++ [mkHolder owner mode (embedded (saturating_add u64_max (counter c key) 1)) (now + lease) 1])
         \/ (~ admissible (map h_mode (live_at c key now) ++ [mode]) /\ r = Err Locked /\ held c' key = live_at c key now)
     | Some (i, h) =>
         (h_mode h <> mode /\ r = Err Locked /\ held c' key = live_at c key now)
         \/ (h_mode h = mode /\ h_reentrancy h = u32_max /\ r = Err InvalidArgument /\ held c' key = live_at c key now)
         \/ (h_mode h = mode /\ h_reentrancy h < u32_max /\
             r = Ok (mkLockToken key owner mode (h_fence h) (now + lease)) /\
             held c' key = <[i := mkHolder owner mode (h_fence h) (now + lease) (h_reentrancy h + 1)]> (live_at c key now))
     end.
Proof.
  intros Hi Hm Hl Hd. assert (is_ok (validate_mode mode) = true) as Hv by (apply validate_mode_Ok; destruct mode; simpl in *; tauto).
  rewrite try_acquire_eq by done. cbv zeta. pose proof (inv_retain c key (live now) Hi) as Hi1.
  fold (expire_key c key now) in Hi1.
  assert (find_holder (expire_key c key now) key owner = list_find (fun h => h_owner h = owner) (live_at c key now)) as Hf.
  { rewrite <-(decide_True (P := key = key) (live_at c key now) (held c key) eq_refl), <-held_expire.
    unfold find_holder, held. by destruct (locks _ !! key). }
  pose proof (held_expire c key now) as He. pose proof (He key) as Hk. rewrite decide_True in Hk by done.
  rewrite Hf. destruct (list_find _ _) as [[i h]|] eqn:El.
  - apply list_find_Some in El as (Hi' & Ho & _). rewrite <-Hk in Hi'.
    pose proof (inv_holder _ _ _ _ Hi1 Hi') as (_ & Hr & _).
    destruct (decide (h_mode h = mode)) as [Hme|Hme]; [rewrite bool_decide_eq_true_2 by done|rewrite bool_decide_eq_false_2 by done]; cbn [negb].
    + destruct (checked_add u32_max (h_reentrancy h) 1) as [r|] eqn:Er.
      * apply checked_add_Some in Er as [-> Er]. split; [intros k Hne; by rewrite held_write, decide_False, He, decide_False|].
        right; right. unfold token_for. simpl. rewrite Ho, Hme. split_and!; [done|lia|done|].
        by rewrite held_write, decide_True, Hk.
      * split; [intros k Hne; by rewrite He, decide_False|]. right; left. split_and!; try done.
        unfold checked_add in Er. destruct (N.leb_spec (h_reentrancy h + 1) u32_max); [done|lia].
    + split; [intros k Hne; by rewrite He, decide_False|]. by left.
  - destruct (compatible (expire_key c key now) key mode) eqn:Ec; cbn [negb].
    + apply (compatible_sound _ _ _ Hv) in Ec. rewrite Hk in Ec. rewrite counter_expire. split.
      * intros k Hne. rewrite held_set_holders, decide_False by done.
        change (held (expire_key c key now) k = held c k). by rewrite He, decide_False.
      * left. split_and!; [done|done|]. by rewrite held_set_holders, decide_True, Hk.
    + split; [intros k Hne; by rewrite He, decide_False|]. right. split_and!; try done. rewrite <-Hk.
      intros Ha%(compatible_complete _ _ _ Hm). congruence.
Qed.

(** ** Release *)

(** The holders [remove_holder] keeps are those the token does not stand for. *)
Lemma held_remove c t k :
  held (remove_holder c t) k
  = if decide (k = tok_key t) then filter (fun h => matches t h = false) (held c k) else held c k.
Proof.
  unfold remove_holder. rewrite held_retain. case_decide; [|done]. apply list_filter_iff. intros h. unfold matches.
  by repeat case_bool_decide.
Qed.

Lemma token_of_owner c t i h :
  inv c -> held c (tok_key t) !! i = Some h -> matches t h = true ->
  forall x, x ∈ held c (tok_key t) -> h_owner x = tok_owner t -> x = h.
Proof.
  intros (_ & _ & Hk) Hl Hm x (j & Hx)%list_elem_of_lookup Ho. destruct (Hk (tok_key t)) as (Hn & _).
  apply matches_spec in Hm as (Ho' & _). assert (i = j) as ->; [|congruence].
  eapply (NoDup_lookup (map h_owner (held c (tok_key t)))); [exact Hn| |].
  - change (map h_owner) with (fmap (M := list) h_owner). rewrite list_lookup_fmap, Hl. done.
  - change (map h_owner) with (fmap (M := list) h_owner). rewrite list_lookup_fmap, Hx. simpl. by rewrite Ho, Ho'.
Qed.

(** Release undoes an acquisition. A token granted to an owner that held nothing on the key is
    accepted by [release] at any time before its lease ends, and the holders of every key are then
    those that were live before the acquisition. *)
Theorem lock_release_acquire (c : LockCoordinator) key owner mode lease now c1 t now' :
  inv c -> (forall h, h ∈ live_at c key now -> h_owner h <> owner) ->
  try_acquire c key owner mode lease now = (c1, Ok t) -> now' < tok_deadline t ->
  exists c2, release c1 t now' = (c2, Ok ())
    /\ forall k, held c2 k = if decide (k = key) then live_at c key now else held c k.
Proof.
  intros Hi Hf Ht Hlt. pose proof (inv_try_acquire c key owner mode lease now Hi) as Hi1. rewrite Ht in Hi1. simpl in Hi1.
  destruct (try_acquire_fresh _ _ _ _ _ _ _ _ Hf Ht) as (-> & Hh & _). simpl in *.
  set (t := mkLockToken _ _ _ _ _) in *. pose proof (Hh key) as Hk. rewrite decide_True in Hk by done.
  assert (forall x, x ∈ live_at c key now -> matches t x = false) as Hnm.
  { intros x Hx. apply not_true_iff_false. rewrite matches_spec. intros (Ho & _). by apply (Hf x Hx). }
  unfold release. destruct (holder_for_token c1 t) as [[i h]|e] eqn:E.
  - apply holder_for_token_Ok in E as [El Em].
    assert (h = mkHolder owner mode (tok_fence t) (now + lease) 1) as ->.
    { symmetry. apply (token_of_owner c1 t i h Hi1 El Em); [|done]. simpl. rewrite Hk. apply elem_of_app. right. by left. }
    simpl. rewrite (proj2 (N.leb_gt _ _)) by done. eexists. split; [done|]. intros k. rewrite held_remove. simpl.
    rewrite Hh. case_decide; [|done]. subst. rewrite filter_app, filter_all by (apply Forall_forall; exact Hnm).
    rewrite filter_cons_False, filter_nil, app_nil_r; [done|]. apply not_false_iff_true. by apply matches_spec.
  - apply holder_for_token_Err in E as [_ E]. simpl in E. rewrite Hk in E.
    specialize (E (mkHolder owner mode (tok_fence t) (now + lease) 1) ltac:(apply elem_of_app; right; by left)).
    apply not_true_iff_false in E. destruct E. by apply matches_spec.
Qed.

(** ** Leases *)

(** What a token is worth. A token that stands for no holder is refused with [LockNotHeld] and
    changes nothing. Once the lease of its holder has run out, [refresh], [release] and
    [apply_fenced_write] all refuse it with [LockLeaseExpired], drop the holder so that the token never
    matches again, and record no fence. While the lease runs, [release] accepts it and
    [apply_fenced_write] records its fence exactly when the fence is not below the high-water. *)
Theorem lock_token (c : LockCoordinator) (t : LockToken) lease now :
  inv c -> 0 < lease -> now + lease <= u64_max ->
  match holder_for_token c t with
  | Err _ =>
      refresh c t lease now = (c, Err LockNotHeld) /\ release c t now = (c, Err LockNotHeld)
      /\ apply_fenced_write c t now = (c, Err LockNotHeld)
  | Ok (i, h) =>
      if h_deadline h <=? now then
        exists c', refresh c t lease now = (c', Err LockLeaseExpired) /\ release c t now = (c', Err LockLeaseExpired)
          /\ apply_fenced_write c t now = (c', Err LockLeaseExpired)
          /\ (forall x, x ∈ held c' (tok_key t) -> matches t x = false)
          /\ forall key, high_water c' key = high_water c key
      else
        (exists c', refresh c t lease now = (c', Ok (mkLockToken (tok_key t) (tok_owner t) (tok_mode t) (tok_fence t) (now + lease)))
           /\ held c' (tok_key t) = <[i := mkHolder (h_owner h) (h_mode h) (h_fence h) (now + lease) (h_reentrancy h)]> (held c (tok_key t)))
        /\ (exists c', release c t now = (c', Ok ())
           /\ held c' (tok_key t) =
                if 1 <? h_reentrancy h
                then <[i := mkHolder (h_owner h) (h_mode h) (h_fence h) (h_deadline h) (h_reentrancy h - 1)]> (held c (tok_key t))
                else filter (fun x => matches t x = false) (held c (tok_key t)))
        /\ exists c' r, apply_fenced_write c t now = (c', r)
           /\ ((high_water c (tok_key t) <= sequence (tok_fence t) /\ r = Ok () /\ high_water c' (tok_key t) = sequence (tok_fence t))
               \/ (sequence (tok_fence t) < high_water c (tok_key t) /\ r = Err FencingStale /\ c' = c))
  end.
Proof.
  intros Hi Hl Hd. unfold refresh, release, apply_fenced_write. rewrite (proj2 (N.eqb_neq _ _)) by lia.
  rewrite (proj2 (checked_add_Some u64_max now lease _) (conj eq_refl Hd)).
  destruct (holder_for_token c t) as [[i h]|e] eqn:E; [|by apply holder_for_token_Err in E as [-> _]].
  apply holder_for_token_Ok in E as [El Em]. destruct (inv_holder _ _ _ _ Hi El) as ((q & Hq & _) & _).
  apply matches_spec in Em as (Eo & Emo & Efe). destruct (h_deadline h <=? now).
  - exists (remove_holder c t). split_and!; try done.
    + intros x. rewrite held_remove, decide_True by done. by intros [? _]%list_elem_of_filter.
    + intros key. unfold high_water, remove_holder. by destruct (same_retain c (tok_key t) (fun h => negb (bool_decide (h_owner h = tok_owner t))
        || negb (bool_decide (h_mode h = tok_mode t)) || negb (bool_decide (h_fence h = tok_fence t)))) as [_ ->].
  - split_and!.
    + eexists. unfold token_for. simpl. rewrite Eo, Emo, Efe. split; [done|]. by rewrite held_write, decide_True.
    + destruct (1 <? h_reentrancy h); eexists; (split; [done|]); [by rewrite held_write, decide_True|by rewrite held_remove, decide_True].
    + unfold apply_fence. rewrite <-Efe, Hq. simpl. fold (high_water c (tok_key t)).
      destruct (N.ltb_spec q (high_water c (tok_key t))); eexists _, _; (split; [done|]); [by right|left].
      split_and!; try done. unfold high_water. simpl. by rewrite lookup_insert_eq.
Qed.

(** ** Fencing *)

(** C4: the fencing guarantee. Suppose [a] was granted a token on a key, and later, after any history,
    [b] was granted a fresh token on the same key and completed a fenced write with it. From then on,
    after any further history, restarts included, every write with [a]'s token fails: [apply_fence]
    rejects its fence with [FencingStale] and [apply_fenced_write] is an error. The fence counter must
    not be exhausted: at [u64::MAX] it saturates and tokens share a fence. *)
Theorem lock_fencing (c0 : LockCoordinator) key a mode_a lease_a now_a c1 token_a ops1
    b mode_b lease_b now_b c3 token_b ops2 now_w c4 ops3 now_z :
  inv c0 ->
  try_acquire c0 key a mode_a lease_a now_a = (c1, Ok token_a) ->
  counter (run c1 ops1) key < u64_max ->
  (forall h, h ∈ live_at (run c1 ops1) key now_b -> h_owner h <> b) ->
  try_acquire (run c1 ops1) key b mode_b lease_b now_b = (c3, Ok token_b) ->
  apply_fenced_write (run c3 ops2) token_b now_w = (c4, Ok ()) ->
  apply_fence (run c4 ops3) key (tok_fence token_a) = (run c4 ops3, Err FencingStale)
  /\ is_ok (apply_fenced_write (run c4 ops3) token_a now_z).2 = false.
Proof.
  intros Hi0 Ha Hmax Hfresh Hb Hw.
  assert (inv c1) as Hi1 by (pose proof (inv_try_acquire c0 key a mode_a lease_a now_a Hi0) as H; by rewrite Ha in H).
  pose proof (inv_run c1 ops1 Hi1) as Hi2.
  assert (inv c3) as Hi3 by (pose proof (inv_try_acquire _ key b mode_b lease_b now_b Hi2) as H; by rewrite Hb in H).
  assert (inv c4) as Hi4.
  { pose proof (inv_step _ (ApplyFencedWrite token_b now_w) (inv_run c3 ops2 Hi3)) as H. simpl in H. by rewrite Hw in H. }
  destruct (try_acquire_fence _ _ _ _ _ _ _ _ Hi0 Ha) as (q & Hq & Hq').
  assert (tok_key token_a = key) as Hka by (by apply try_acquire_key in Ha).
  destruct (try_acquire_fresh _ _ _ _ _ _ _ _ Hfresh Hb) as (-> & _ & _).
  assert (q < high_water c4 key) as Hlt.
  { destruct (run_le c1 ops1 Hi1 key) as [Hle _]. apply apply_fenced_write_high in Hw. simpl in Hw. rewrite Hw.
    unfold saturating_add. lia. }
  destruct (run_le c4 ops3 Hi4 key) as [_ Hle]. set (c5 := run c4 ops3) in *.
  assert (apply_fence c5 key (tok_fence token_a) = (c5, Err FencingStale)) as Hst.
  { unfold apply_fence. rewrite Hq. simpl. by rewrite (proj2 (N.ltb_lt q _)) by (fold (high_water c5 key); lia). }
  split; [done|]. unfold apply_fenced_write. destruct (holder_for_token c5 token_a) as [[i h]|]; [|done].
  destruct (_ <=? _); [done|]. by rewrite Hka, Hst.
Qed.

(** ** Concrete histories *)

Definition alice : LockOwner := mkLockOwner (str "alice") (str "s1").
Definition bob : LockOwner := mkLockOwner (str "bob") (str "s2").
Definition doc : bytes := str "doc".
Definition empty_coordinator : LockCoordinator := restore_fences [] [].

Lemma inv_empty : inv empty_coordinator.
Proof. apply inv_restore. intros key n H. by apply elem_of_nil in H. Qed.

Lemma lock_exclusion_witness :
  let c := run (restore_fences [(doc, 7)] [])
             [TryAcquire doc alice (Semaphore 2 3) 10 0; TryAcquire doc bob (Semaphore 1 3) 10 5] in
  inv c /\ length (held c doc) = 2%nat /\ total_permits (map h_mode (held c doc)) <= 3.
Proof.
  destruct (lock_exclusion [(doc, 7)] []
    [TryAcquire doc alice (Semaphore 2 3) 10 0; TryAcquire doc bob (Semaphore 1 3) 10 5]) as (H1 & _ & H3).
  - intros key n [= -> ->]%list_elem_of_singleton. by vm_compute.
  - split; [exact H1|]. split; [by vm_compute|].
    apply (H3 doc (mkHolder alice (Semaphore 2 3) (embedded 8) 10 1) 2 3); [|reflexivity].
    vm_compute. left.
Defined.

Lemma lock_acquire_witness :
  exists c' t, try_acquire empty_coordinator doc alice Exclusive 10 0 = (c', Ok t) /\ length (held c' doc) = 1%nat.
Proof.
  pose proof (lock_acquire empty_coordinator doc alice Exclusive 10 0 inv_empty I
    ltac:(by vm_compute) ltac:(by vm_compute)) as H.
  destruct (try_acquire empty_coordinator doc alice Exclusive 10 0) as [c' r]. destruct H as [_ H].
  destruct H as [(_ & -> & Hh)|(H & _)].
  - eexists c', _. split; [reflexivity|]. by rewrite Hh.
  - destruct H. left. by vm_compute.
Defined.

Lemma lock_release_acquire_witness :
  exists c1 t c2, try_acquire empty_coordinator doc alice Exclusive 10 0 = (c1, Ok t)
    /\ release c1 t 9 = (c2, Ok ()) /\ held c2 doc = [].
Proof.
  destruct (lock_release_acquire empty_coordinator doc alice Exclusive 10 0
    (try_acquire empty_coordinator doc alice Exclusive 10 0).1
    (mkLockToken doc alice Exclusive (embedded 1) 10) 9 inv_empty) as (c2 & H1 & H2).
  - intros h. vm_compute. inversion 1.
  - by vm_compute.
  - by vm_compute.
  - eexists _, _, c2. split; [|split; [exact H1|]]; [by vm_compute|]. rewrite H2. by vm_compute.
Defined.

Lemma lock_token_witness :
  let c := (try_acquire empty_coordinator doc alice Exclusive 10 0).1 in
  (release c (mkLockToken doc alice Exclusive (embedded 1) 10) 10).2 = Err LockLeaseExpired.
Proof.
  pose proof (lock_token (try_acquire empty_coordinator doc alice Exclusive 10 0).1
    (mkLockToken doc alice Exclusive (embedded 1) 10) 5 10 (inv_try_acquire _ _ _ _ _ _ inv_empty)
    ltac:(by vm_compute) ltac:(by vm_compute)) as H.
  assert (holder_for_token (try_acquire empty_coordinator doc alice Exclusive 10 0).1
    (mkLockToken doc alice Exclusive (embedded 1) 10) = Ok (0%nat, mkHolder alice Exclusive (embedded 1) 10 1)) as E
    by (by vm_compute).
  rewrite E in H. destruct H as (c' & _ & H & _). cbv zeta. by rewrite H.
Defined.

Lemma lock_fencing_witness :
  let c1 := (try_acquire empty_coordinator doc alice Exclusive 10 0).1 in
  let c3 := (try_acquire c1 doc bob Exclusive 10 20).1 in
  let c4 := (apply_fenced_write c3 (mkLockToken doc bob Exclusive (embedded 2) 30) 25).1 in
  (apply_fence (run c4 [Restart]) doc (embedded 1)).2 = Err FencingStale.
Proof.
  cbv zeta.
  destruct (lock_fencing empty_coordinator doc alice Exclusive 10 0
    (try_acquire empty_coordinator doc alice Exclusive 10 0).1
    (mkLockToken doc alice Exclusive (embedded 1) 10) []
    bob Exclusive 10 20
    (try_acquire (try_acquire empty_coordinator doc alice Exclusive 10 0).1 doc bob Exclusive 10 20).1
    (mkLockToken doc bob Exclusive (embedded 2) 30) [] 25
    (apply_fenced_write (try_acquire (try_acquire empty_coordinator doc alice Exclusive 10 0).1 doc bob Exclusive 10 20).1
       (mkLockToken doc bob Exclusive (embedded 2) 30) 25).1 [Restart] 40 inv_empty) as [H _].
  - by vm_compute.
  - by vm_compute.
  - intros h. vm_compute. inversion 1.
  - by vm_compute.
  - by vm_compute.
  - change (embedded 1) with (tok_fence (mkLockToken doc alice Exclusive (embedded 1) 10)). by rewrite H.
Defined.

End LockProps.
