(* ===== verification/Cursor.v ===== *)
(** * Byte cursors (the readers and writers of crates/loom-core/src/acl.rs, identity.rs and vcs.rs)

    Stored records are sequences of fixed-width fields, variable-length integers and length-prefixed
    byte strings. Every reader takes the bytes left and returns its value with the bytes after it. The
    modules of the engine each have a copy of this cursor. *)

From S2P Require Import Prelude Types Workspace.

Module Cursor.
Import Error.

Definition len (b : bytes) : N := N.of_nat (length b).

(** ** Writing *)

(** Seven bits at a time, low first; a [u64] has at most ten groups. *)
Fixpoint put_uvarint_loop (fuel : nat) (v : N) : bytes :=
  match fuel with
  | O => []
  | S fuel =>
      let b := N.land v 0x7f in
      let v := N.shiftr v 7 in
      if v =? 0 then [as_u8 b] else as_u8 (N.lor b 0x80) :: put_uvarint_loop fuel v
  end.

Definition put_uvarint (v : N) : bytes := put_uvarint_loop 10 v.

Definition put_bytes (b : bytes) : bytes := put_uvarint (as_u64 (len b)) ++ b.

Definition put_opt_id (v : option bytes) : bytes :=
  match v with None => [x00] | Some id => x01 :: id end.

Definition put_opt_str (v : option bytes) : bytes :=
  match v with None => [x00] | Some v => x01 :: put_bytes v end.

(** ** Reading *)

Abbreviation reader A := (bytes -> res (A * bytes)).

Definition cur_take (n : N) : reader bytes := fun rest =>
  if n <=? len rest then Ok (take (N.to_nat n) rest, drop (N.to_nat n) rest) else Err CorruptObject.

Definition cur_u8 : reader N := fun rest =>
  match rest with [] => Err CorruptObject | b :: rest => Ok (Byte.to_N b, rest) end.

Fixpoint uvarint_loop (rest : bytes) (shift out : N) : res (N * bytes) :=
  match rest with
  | [] => Err CorruptObject
  | b :: rest =>
      let b := Byte.to_N b in
      let out := N.lor out (as_u64 (N.shiftl (N.land b 0x7f) shift)) in
      if N.land b 0x80 =? 0 then Ok (out, rest)
      else
        let shift := shift + 7 in
        if 64 <=? shift then Err CorruptObject else uvarint_loop rest shift out
  end.

Definition cur_uvarint : reader N := fun rest => uvarint_loop rest 0 0.

Definition cur_take16 : reader bytes := cur_take 16.

Definition cur_opt_id : reader (option bytes) := fun rest =>
  '(tag, rest) ← cur_u8 rest;
  match tag with
  | 0 => Ok (None, rest)
  | 1 => '(id, rest) ← cur_take16 rest; Ok (Some id, rest)
  | _ => Err CorruptObject
  end.

Definition cur_bytes : reader bytes := fun rest =>
  '(n, rest) ← cur_uvarint rest; cur_take n rest.

Definition cur_string : reader bytes := fun rest =>
  '(b, rest) ← cur_bytes rest;
  if valid_utf8 b then Ok (b, rest) else Err CorruptObject.

Definition cur_opt_str : reader (option bytes) := fun rest =>
  '(tag, rest) ← cur_u8 rest;
  match tag with
  | 0 => Ok (None, rest)
  | 1 => '(s, rest) ← cur_string rest; Ok (Some s, rest)
  | _ => Err CorruptObject
  end.

(** [for _ in 0..n]: every item takes at least one byte, so a count above the bytes left ends in the
    truncation error of the item after the last, and the bytes left bound the iterations. *)
Fixpoint cur_many {A} (p : reader A) (fuel : nat) (n : N) (rest : bytes) : res (list A * bytes) :=
  if n =? 0 then Ok ([], rest)
  else
    match fuel with
    | O => Err CorruptObject
    | S fuel =>
        '(x, rest) ← p rest;
        '(xs, rest) ← cur_many p fuel (n - 1) rest;
        Ok (x :: xs, rest)
    end.

Definition cur_repeat {A} (p : reader A) (n : N) : reader (list A) := fun rest =>
  cur_many p (length rest) n rest.

(** [p] reads back what was written for [x], whatever follows. *)
Definition reads {A} (p : reader A) (b : bytes) (x : A) : Prop := forall rest, p (b ++ rest) = Ok (x, rest).

(** ** Variable-length integers *)

Lemma cont_bit (b : byte) : (N.land (Byte.to_N b) 0x80 =? 0) = (Byte.to_N b <? 128).
Proof. by destruct b. Qed.

Lemma uvarint_reads fuel v shift out rest :
  v < 2 ^ (7 * N.of_nat fuel) -> (0 < fuel)%nat -> v * 2 ^ shift < 2 ^ 64 -> out < 2 ^ shift -> shift < 64 ->
  uvarint_loop (put_uvarint_loop fuel v ++ rest) shift out = Ok (out + v * 2 ^ shift, rest).
Proof.
  revert v shift out. induction fuel as [|fuel IH]; intros v shift out Hv Hf Hlt Hout Hs; [lia|].
  cbn [put_uvarint_loop]. rewrite N.shiftr_div_pow2. change 0x7f with (N.ones 7). rewrite N.land_ones. change (2 ^ 7) with 128.
  pose proof (N.Div0.div_mod v 128) as Hdm. pose proof (N.mod_lt v 128 ltac:(done)) as Hm.
  set (q := v / 128) in *. set (r := v mod 128) in *. clearbody q r. subst v.
  assert (N.lor out (N.shiftl r shift) = out + r * 2 ^ shift) as Hor
    by (rewrite N.lor_comm, lor_shiftl_add by done; lia).
  assert (as_u64 (N.shiftl r shift) = N.shiftl r shift) as H64
    by (unfold as_u64; apply N.mod_small; rewrite N.shiftl_mul_pow2; nia).
  destruct (N.eqb_spec q 0) as [->|Hq].
  - cbn [app uvarint_loop]. rewrite cont_bit, as_u8_small by lia. rewrite (proj2 (N.ltb_lt _ _)) by done.
    change 0x7f with (N.ones 7). rewrite N.land_ones. change (2 ^ 7) with 128. rewrite N.mod_small, H64, Hor by done. do 2 f_equal; lia.
  - change 0x80 with (N.shiftl 1 7) at 1. rewrite N.lor_comm, lor_shiftl_add by done. change (1 * 2 ^ 7) with 128.
    cbn [app uvarint_loop]. rewrite cont_bit, as_u8_small by lia. rewrite (proj2 (N.ltb_ge _ _)) by lia.
    change 0x7f with (N.ones 7). rewrite N.land_ones. change (2 ^ 7) with 128.
    assert ((128 + r) mod 128 = r) as -> by (rewrite N.add_comm; change 128 with (1 * 128) at 1; rewrite N.Div0.mod_add; by apply N.mod_small).
    rewrite H64, Hor. assert (2 ^ (shift + 7) = 128 * 2 ^ shift) as Hpow by (rewrite N.pow_add_r; lia).
    assert (shift + 7 < 64) as Hs'.
    { apply (N.pow_lt_mono_r_iff 2); [lia|]. rewrite Hpow. nia. }
    rewrite (proj2 (N.leb_gt _ _)) by done. rewrite IH; [do 2 f_equal; rewrite Hpow; lia| |  | | |done].
    + rewrite Nat2N.inj_succ in Hv. replace (7 * N.succ (N.of_nat fuel)) with (7 * N.of_nat fuel + 7) in Hv by lia.
      rewrite N.pow_add_r in Hv. change (2 ^ 7) with 128 in Hv. nia.
    + destruct fuel; [|lia]. simpl in Hv. lia.
    + rewrite Hpow. nia.
    + rewrite Hpow. nia.
Qed.

Lemma reads_uvarint v : v <= u64_max -> reads cur_uvarint (put_uvarint v) v.
Proof.
  intros Hv rest. unfold cur_uvarint, put_uvarint.
  assert (v < 2 ^ 64) as Hv' by (unfold u64_max in Hv; lia).
  rewrite uvarint_reads; [do 2 f_equal; change (2 ^ 0) with 1; lia| |lia|change (2 ^ 0) with 1; lia|done|done].
  etrans; [exact Hv'|]. by apply N.pow_lt_mono_r.
Qed.

Lemma as_u64_small v : v <= u64_max -> as_u64 v = v.
Proof. intros H. apply N.mod_small. unfold u64_max in H. lia. Qed.

(** ** The readers *)

Lemma reads_take b : reads (cur_take (len b)) b b.
Proof.
  intros rest. unfold cur_take, len. rewrite length_app, (proj2 (N.leb_le _ _)) by lia.
  by rewrite Nat2N.id, take_app_length, drop_app_length.
Qed.

Lemma reads_bytes b : len b <= u64_max -> reads cur_bytes (put_bytes b) b.
Proof.
  intros Hb rest. unfold cur_bytes, put_bytes. rewrite <-app_assoc, as_u64_small, reads_uvarint by done.
  cbn [mbind result_bind]. apply reads_take.
Qed.

Lemma reads_string b : len b <= u64_max -> valid_utf8 b = true -> reads cur_string (put_bytes b) b.
Proof. intros Hb Hu rest. unfold cur_string. rewrite reads_bytes by done. cbn [mbind result_bind]. by rewrite Hu. Qed.

Lemma reads_id id : WorkspaceId.wf_id id -> reads cur_take16 id id.
Proof. intros Hid. pose proof (reads_take id) as H. unfold len in H. by rewrite Hid in H. Qed.

Lemma reads_opt_id v : (forall id, v = Some id -> WorkspaceId.wf_id id) -> reads cur_opt_id (put_opt_id v) v.
Proof.
  intros Hv rest. destruct v as [id|]; [|done]. unfold cur_opt_id. cbn [put_opt_id app cur_u8 mbind result_bind].
  change (Byte.to_N x01) with 1. cbn iota. by rewrite reads_id by auto.
Qed.

Lemma reads_opt_str v :
  (forall b, v = Some b -> len b <= u64_max /\ valid_utf8 b = true) -> reads cur_opt_str (put_opt_str v) v.
Proof.
  intros Hv rest. destruct v as [b|]; [|done]. unfold cur_opt_str. cbn [put_opt_str app cur_u8 mbind result_bind].
  change (Byte.to_N x01) with 1. cbn iota. destruct (Hv b eq_refl). by rewrite reads_string.
Qed.

(** A counted sequence of items of at least one byte each. *)
Lemma reads_repeat {A} (p : reader A) (w : A -> bytes) xs :
  Forall (fun x => reads p (w x) x /\ w x <> []) xs ->
  reads (cur_repeat p (N.of_nat (length xs))) (concat (map w xs)) xs.
Proof.
  intros Hxs rest. unfold cur_repeat.
  assert (length xs <= length (concat (map w xs) ++ rest))%nat as Hf.
  { rewrite length_app. induction Hxs as [|x xs [_ Hne] _ IH]; simpl; [lia|].
    rewrite length_app. destruct (w x); [done|simpl; lia]. }
  revert Hf. generalize (length (concat (map w xs) ++ rest)). intros fuel.
  revert fuel. induction Hxs as [|x xs [Hr Hne] _ IH]; intros fuel Hf; [by destruct fuel|].
  destruct fuel as [|fuel]; [simpl in Hf; lia|]. cbn [length map concat cur_many].
  rewrite (proj2 (N.eqb_neq _ _)) by lia. rewrite <-app_assoc, Hr. cbn [mbind result_bind].
  replace (N.of_nat (S (length xs)) - 1) with (N.of_nat (length xs)) by lia.
  rewrite IH by (simpl in Hf; lia). done.
Qed.

End Cursor.
