(* ===== verification/Acl.v ===== *)
(** * Access control: grants, evaluation and the stored form (crates/loom-core/src/acl.rs)

    [BTreeSet<AclRight>] is a [gset] iterated in the order of the enumeration. The predicate evaluator
    (the CEL engine behind [AclPredicateEvaluator]) is an argument of the evaluation. The decoder reads
    a cursor; here it takes the bytes left and returns them. *)

From S2P Require Import Prelude Types Workspace.

Module Acl.
Import Error AclDomain.

Definition ACL_MAX_SCOPES_PER_GRANT : N := 64.
Definition ACL_MAX_SCOPE_PREFIX_LEN : N := 1024.
Definition ACL_MAX_GRANTS_PER_SUBJECT : N := 256.
Definition ACL_MAX_PREDICATE_LEN : N := 4096.
Definition ACL_PREDICATE_LANGUAGE_CEL : bytes := str "cel".

Inductive AclRight : Type := Read | Write | Advance | Merge | Execute | Admin.

Inductive AclEffect : Type := Allow | Deny.

Inductive AclSubject : Type :=
| Principal (id : bytes)
| Role (id : bytes)
| Everyone.

Inductive AclScopeKind : Type := SK_Ref | SK_Collection | SK_Path | SK_Key | SK_Table | SK_Exec.

Inductive AclScope : Type :=
| AllScope
| PrefixScope (kind : AclScopeKind) (prefix : bytes).

Record AclPredicate : Type := mkAclPredicate { language : bytes; expression : bytes }.

Inductive AclResourceScope : Type :=
| AllResource
| PrefixResource (kind : AclScopeKind) (value : bytes).

Record AclResource : Type := mkAclResource {
  r_workspace : bytes;
  r_domain : AclDomain;
  r_ref_name : option bytes;
  r_scope : AclResourceScope;
}.

#[global] Instance AclRight_eq_dec : EqDecision AclRight.
Proof. solve_decision. Defined.
#[global] Instance AclEffect_eq_dec : EqDecision AclEffect.
Proof. solve_decision. Defined.
#[global] Instance AclSubject_eq_dec : EqDecision AclSubject.
Proof. solve_decision. Defined.
#[global] Instance AclScopeKind_eq_dec : EqDecision AclScopeKind.
Proof. solve_decision. Defined.
#[global] Instance AclScope_eq_dec : EqDecision AclScope.
Proof. solve_decision. Defined.
#[global] Instance AclPredicate_eq_dec : EqDecision AclPredicate.
Proof. solve_decision. Defined.

(** The rights in the order of the derived [Ord]. *)
Definition all_rights : list AclRight := [Read; Write; Advance; Merge; Execute; Admin].

Definition right_to_u8 (r : AclRight) : N :=
  match r with Read => 0 | Write => 1 | Advance => 2 | Merge => 3 | Execute => 4 | Admin => 5 end.

Definition right_from_u8 (b : N) : res AclRight :=
  match b with
  | 0 => Ok Read | 1 => Ok Write | 2 => Ok Advance | 3 => Ok Merge | 4 => Ok Execute | 5 => Ok Admin
  | _ => Err CorruptObject
  end.

#[global] Program Instance AclRight_countable : Countable AclRight :=
  {| encode r := N.succ_pos (right_to_u8 r);
     decode p := match right_from_u8 (N.pred (Npos p)) with Ok r => Some r | Err _ => None end |}.
Next Obligation. by intros []. Qed.

Definition rights_iter (rights : gset AclRight) : list AclRight := filter (fun r => r ∈ rights) all_rights.

Record AclEvaluationContext : Type := mkAclEvaluationContext {
  cx_principal : bytes;
  cx_roles : gset bytes;
  cx_resource : AclResource;
  cx_right : AclRight;
}.

Definition AclPredicateEvaluator : Type := AclPredicate -> AclEvaluationContext -> res bool.

Record AclGrant : Type := mkAclGrant {
  subject : AclSubject;
  workspace : option bytes;
  domain : option AclDomain;
  ref_glob : option bytes;
  scopes : list AclScope;
  rights : gset AclRight;
  effect : AclEffect;
  predicate : option AclPredicate;
}.

#[global] Instance AclGrant_eq_dec : EqDecision AclGrant.
Proof. solve_decision. Defined.

Record AclStore : Type := mkAclStore { grants : list AclGrant }.

Definition acl_new : AclStore := mkAclStore [].

(** ** Matching *)

(** [glob_matches_at]: [*] any bytes, [?] one byte. *)
Fixpoint glob_matches_at (pattern : bytes) : bytes -> bool :=
  match pattern with
  | [] => fun value => match value with [] => true | _ => false end
  | c :: rest =>
      if bool_decide (c = "*"%byte) then
        fix star (value : bytes) : bool :=
          glob_matches_at rest value || match value with [] => false | _ :: tail => star tail end
      else if bool_decide (c = "?"%byte) then
        fun value => match value with [] => false | _ :: tail => glob_matches_at rest tail end
      else
        fun value =>
          match value with [] => false | head :: tail => bool_decide (head = c) && glob_matches_at rest tail end
  end.

Definition glob_matches (pattern value : bytes) : bool := glob_matches_at pattern value.

Definition scope_kind_covers (grant resource : AclScopeKind) : bool :=
  bool_decide (grant = resource)
  || (bool_decide (grant = SK_Collection)
      && match resource with SK_Collection | SK_Path | SK_Key | SK_Table => true | _ => false end).

Definition scope_matches (s : AclScope) (resource : AclResourceScope) : bool :=
  match s, resource with
  | AllScope, _ => true
  | PrefixScope _ _, AllResource => false
  | PrefixScope kind prefix, PrefixResource resource_kind value =>
      scope_kind_covers kind resource_kind && starts_with value prefix
  end.

Definition is_none_or {A} (o : option A) (f : A -> bool) : bool :=
  match o with None => true | Some a => f a end.

Definition subject_matches (g : AclGrant) (principal : bytes) (roles : gset bytes) : bool :=
  match subject g with
  | Everyone => true
  | Principal p => bool_decide (p = principal)
  | Role role => bool_decide (role ∈ roles)
  end.

Definition ref_matches (g : AclGrant) (resource_ref : option bytes) : bool :=
  match ref_glob g, resource_ref with
  | None, _ => true
  | Some pattern, Some value => glob_matches pattern value
  | Some _, None => false
  end.

Definition base_matches (g : AclGrant) (principal : bytes) (roles : gset bytes) (resource : AclResource)
    (right : AclRight) : bool :=
  subject_matches g principal roles
  && is_none_or (workspace g) (fun ns => bool_decide (ns = r_workspace resource))
  && is_none_or (domain g) (fun d => bool_decide (d = r_domain resource))
  && ref_matches g (r_ref_name resource)
  && existsb (fun s => scope_matches s (r_scope resource)) (scopes g)
  && (bool_decide (right ∈ rights g) || bool_decide (Admin ∈ rights g)).

(** ** Changing the store *)

Definition validate_scopes (ss : list AclScope) : res () :=
  match ss with
  | [] => Err InvalidArgument
  | _ =>
      if ACL_MAX_SCOPES_PER_GRANT <? N.of_nat (length ss) then Err InvalidArgument
      else if existsb (fun s => match s with
                                | PrefixScope _ prefix => ACL_MAX_SCOPE_PREFIX_LEN <? N.of_nat (length prefix)
                                | AllScope => false
                                end) ss then Err InvalidArgument
      else Ok ()
  end.

Definition validate_predicate (p : AclPredicate) : res () :=
  if negb (bool_decide (language p = ACL_PREDICATE_LANGUAGE_CEL)) then Err InvalidArgument
  else if bool_decide (expression p = []) then Err InvalidArgument
  else if ACL_MAX_PREDICATE_LEN <? N.of_nat (length (expression p)) then Err InvalidArgument
  else Ok ().

(** [AclPredicate::cel] *)
Definition cel (e : bytes) : res AclPredicate :=
  let p := mkAclPredicate ACL_PREDICATE_LANGUAGE_CEL e in
  _ ← validate_predicate p; Ok p.

Definition validate_opt_predicate (p : option AclPredicate) : res () :=
  match p with Some p => validate_predicate p | None => Ok () end.

Definition grant (s : AclStore) (g : AclGrant) : res AclStore :=
  if bool_decide (rights g = ∅) then Err InvalidArgument
  else
    _ ← validate_scopes (scopes g);
    _ ← validate_opt_predicate (predicate g);
    let existing := N.of_nat (length (filter (fun c => subject c = subject g) (grants s))) in
    if ACL_MAX_GRANTS_PER_SUBJECT <=? existing then Err InvalidArgument
    else Ok (mkAclStore (grants s ++ [g])).

Definition revoke (s : AclStore) (g : AclGrant) : AclStore * bool :=
  let kept := filter (fun c => c <> g) (grants s) in
  (mkAclStore kept, negb (length kept =? length (grants s))%nat).

Definition revoke_one (s : AclStore) (g : AclGrant) : AclStore * bool :=
  match list_find (fun c => c = g) (grants s) with
  | None => (s, false)
  | Some (i, _) => (mkAclStore (delete i (grants s)), true)
  end.

(** The whole-domain grant [allow] and [deny] build. *)
Definition simple_grant (e : AclEffect) (sub : AclSubject) (ws : option bytes)
    (facet : option FacetKind.FacetKind) (rs : list AclRight) : AclGrant :=
  mkAclGrant sub ws (from_facet <$> facet) None [AllScope] (list_to_set rs) e None.

Definition allow (s : AclStore) sub ws facet rs : res AclStore := grant s (simple_grant Allow sub ws facet rs).
Definition deny (s : AclStore) sub ws facet rs : res AclStore := grant s (simple_grant Deny sub ws facet rs).

(** ** Evaluation *)

Fixpoint global_admin_loop (gs : list AclGrant) (allowed : bool) : res () :=
  match gs with
  | [] => if allowed then Ok () else Err PermissionDenied
  | g :: gs =>
      match predicate g with
      | Some _ => Err PermissionDenied
      | None =>
          match effect g with
          | Deny => Err PermissionDenied
          | Allow => global_admin_loop gs true
          end
      end
  end.

Definition global_admin_matches (principal : bytes) (roles : gset bytes) (g : AclGrant) : bool :=
  bool_decide (workspace g = None) && bool_decide (domain g = None) && bool_decide (Admin ∈ rights g)
  && subject_matches g principal roles.

Definition authorize_global_admin_with_roles (s : AclStore) (authenticated_mode : bool) (principal : bytes)
    (roles : list bytes) : res () :=
  if negb authenticated_mode then Ok ()
  else global_admin_loop (filter (global_admin_matches principal (list_to_set roles)) (grants s)) false.

Definition authorize_global_admin (s : AclStore) (authenticated_mode : bool) (principal : bytes) : res () :=
  authorize_global_admin_with_roles s authenticated_mode principal [].

(** Whether the predicate of a matching grant holds. *)
Definition predicate_matches (evaluator : option AclPredicateEvaluator) (cx : AclEvaluationContext)
    (g : AclGrant) : res bool :=
  match predicate g with
  | None => Ok true
  | Some p => match evaluator with Some ev => ev p cx | None => Err PermissionDenied end
  end.

Fixpoint authorize_loop (evaluator : option AclPredicateEvaluator) (cx : AclEvaluationContext)
    (gs : list AclGrant) (allowed : bool) : res () :=
  match gs with
  | [] => if allowed then Ok () else Err PermissionDenied
  | g :: gs =>
      m ← predicate_matches evaluator cx g;
      match effect g, m with
      | Deny, true => Err PermissionDenied
      | Deny, false => authorize_loop evaluator cx gs allowed
      | Allow, true => authorize_loop evaluator cx gs true
      | Allow, false => authorize_loop evaluator cx gs allowed
      end
  end.

Definition authorize_resource_with_roles_and_evaluator (s : AclStore) (authenticated_mode : bool)
    (principal : bytes) (roles : list bytes) (resource : AclResource) (right : AclRight)
    (evaluator : option AclPredicateEvaluator) : res () :=
  if negb authenticated_mode then Ok ()
  else
    let roles := list_to_set roles in
    authorize_loop evaluator (mkAclEvaluationContext principal roles resource right)
      (filter (fun g => base_matches g principal roles resource right) (grants s)) false.

Definition authorize_resource_with_roles (s : AclStore) (authenticated_mode : bool) (principal : bytes)
    (roles : list bytes) (resource : AclResource) (right : AclRight) : res () :=
  authorize_resource_with_roles_and_evaluator s authenticated_mode principal roles resource right None.

(** [AclResource::all] *)
Definition resource_all (ws : bytes) (d : AclDomain) : AclResource := mkAclResource ws d None AllResource.

Definition authorize_with_roles (s : AclStore) (authenticated_mode : bool) (principal : bytes)
    (roles : list bytes) (ws : bytes) (d : AclDomain) (right : AclRight) : res () :=
  authorize_resource_with_roles s authenticated_mode principal roles (resource_all ws d) right.

Definition authorize (s : AclStore) (authenticated_mode : bool) (principal ws : bytes) (d : AclDomain)
    (right : AclRight) : res () :=
  authorize_with_roles s authenticated_mode principal [] ws d right.

End Acl.
