(* ===== verification/AclCodec.v ===== *)
(** * The stored form of an access-control list (crates/loom-core/src/acl.rs, [encode] and [decode])

    Every reader takes the bytes left and returns its value with the bytes after it. *)

From S2P Require Import Prelude Types Workspace Cursor Acl.

Module AclCodec.
Import Error AclDomain Acl.
Export Cursor.

(** ** Writing *)

Definition scope_kind_to_u8 (k : AclScopeKind) : N :=
  match k with SK_Ref => 0 | SK_Collection => 1 | SK_Path => 2 | SK_Key => 3 | SK_Table => 4 | SK_Exec => 5 end.

Definition put_scope (s : AclScope) : bytes :=
  match s with
  | AllScope => [x00]
  | PrefixScope kind prefix => x01 :: as_u8 (scope_kind_to_u8 kind) :: put_bytes prefix
  end.

Definition put_opt_predicate (p : option AclPredicate) : bytes :=
  match p with None => [x00] | Some p => x01 :: put_bytes (language p) ++ put_bytes (expression p) end.

Definition effect_to_u8 (e : AclEffect) : N := match e with Allow => 0 | Deny => 1 end.

Definition put_subject (s : AclSubject) : bytes :=
  match s with Everyone => [x00] | Principal p => x01 :: p | Role r => x02 :: r end.

Definition put_domain (d : option AclDomain) : bytes :=
  match d with None => [x00] | Some d => [x01; as_u8 (domain_stable_tag d)] end.

(** The body of the loop of [encode]. *)
Definition put_grant (g : AclGrant) : bytes :=
  put_subject (subject g) ++ put_opt_id (workspace g) ++ put_domain (domain g) ++ put_opt_str (ref_glob g)
  ++ [as_u8 (effect_to_u8 (effect g))]
  ++ put_uvarint (as_u64 (N.of_nat (length (rights_iter (rights g)))))
  ++ map (fun r => as_u8 (right_to_u8 r)) (rights_iter (rights g))
  ++ put_uvarint (as_u64 (N.of_nat (length (scopes g)))) ++ concat (map put_scope (scopes g))
  ++ put_opt_predicate (predicate g).

Definition MAGIC : bytes := str "LACL".

Definition acl_encode (s : AclStore) : bytes :=
  MAGIC ++ put_uvarint (as_u64 (N.of_nat (length (grants s)))) ++ concat (map put_grant (grants s)).

(** ** Reading *)

Definition scope_kind_from_u8 (b : N) : res AclScopeKind :=
  match b with
  | 0 => Ok SK_Ref | 1 => Ok SK_Collection | 2 => Ok SK_Path | 3 => Ok SK_Key | 4 => Ok SK_Table | 5 => Ok SK_Exec
  | _ => Err CorruptObject
  end.

Definition effect_from_u8 (b : N) : res AclEffect :=
  match b with 0 => Ok Allow | 1 => Ok Deny | _ => Err CorruptObject end.

Definition cur_scope : reader AclScope := fun rest =>
  '(tag, rest) ← cur_u8 rest;
  match tag with
  | 0 => Ok (AllScope, rest)
  | 1 =>
      '(k, rest) ← cur_u8 rest;
      kind ← scope_kind_from_u8 k;
      '(prefix, rest) ← cur_bytes rest;
      Ok (PrefixScope kind prefix, rest)
  | _ => Err CorruptObject
  end.

Definition cur_scopes : reader (list AclScope) := fun rest =>
  '(n, rest) ← cur_uvarint rest;
  if ACL_MAX_SCOPES_PER_GRANT <? n then Err CorruptObject else cur_repeat cur_scope n rest.

Definition cur_opt_predicate : reader (option AclPredicate) := fun rest =>
  '(tag, rest) ← cur_u8 rest;
  match tag with
  | 0 => Ok (None, rest)
  | 1 =>
      '(l, rest) ← cur_string rest;
      '(e, rest) ← cur_string rest;
      Ok (Some (mkAclPredicate l e), rest)
  | _ => Err CorruptObject
  end.

Definition cur_subject : reader AclSubject := fun rest =>
  '(tag, rest) ← cur_u8 rest;
  match tag with
  | 0 => Ok (Everyone, rest)
  | 1 => '(id, rest) ← cur_take16 rest; Ok (Principal id, rest)
  | 2 => '(id, rest) ← cur_take16 rest; Ok (Role id, rest)
  | _ => Err CorruptObject
  end.

Definition cur_domain : reader (option AclDomain) := fun rest =>
  '(tag, rest) ← cur_u8 rest;
  match tag with
  | 0 => Ok (None, rest)
  | 1 =>
      '(t, rest) ← cur_u8 rest;
      d ← ok_or (domain_from_stable_tag t) CorruptObject;
      Ok (Some d, rest)
  | _ => Err CorruptObject
  end.

Definition cur_right : reader AclRight := fun rest =>
  '(b, rest) ← cur_u8 rest;
  r ← right_from_u8 b;
  Ok (r, rest).

(** The body of the loop of [decode]. *)
Definition cur_grant : reader AclGrant := fun rest =>
  '(sub, rest) ← cur_subject rest;
  '(ws, rest) ← cur_opt_id rest;
  '(d, rest) ← cur_domain rest;
  '(rg, rest) ← cur_opt_str rest;
  '(eb, rest) ← cur_u8 rest;
  e ← effect_from_u8 eb;
  '(rn, rest) ← cur_uvarint rest;
  '(rs, rest) ← cur_repeat cur_right rn rest;
  '(ss, rest) ← cur_scopes rest;
  '(p, rest) ← cur_opt_predicate rest;
  let g := mkAclGrant sub ws d rg ss (list_to_set rs) e p in
  if bool_decide (rights g = ∅) then Err CorruptObject
  else
    _ ← map_err (fun _ => CorruptObject) (validate_scopes (scopes g));
    _ ← map_err (fun _ => CorruptObject) (validate_opt_predicate (predicate g));
    Ok (g, rest).

Definition acl_decode (b : bytes) : res AclStore :=
  '(magic, rest) ← cur_take 4 b;
  if negb (bool_decide (magic = MAGIC)) then Err CorruptObject
  else
    '(n, rest) ← cur_uvarint rest;
    '(gs, rest) ← cur_repeat cur_grant n rest;
    match rest with [] => Ok (mkAclStore gs) | _ => Err CorruptObject end.

End AclCodec.
