(* ===== verification/AclProps.v ===== *)
(** * Access control: the correctness theorems

    The evaluation against the declarative rule of the specification, the glob matcher against its
    relation, the bounds kept by every change of a store, and the round trip of the stored form. *)

From S2P Require Import Prelude Types Workspace Acl AclCodec.

Module AclProps.
Import Error AclDomain Acl AclCodec.

(** ** Globs *)

Inductive glob_rel : bytes -> bytes -> Prop :=
| glob_nil : glob_rel [] []
| glob_star pattern skipped value : glob_rel pattern value -> glob_rel ("*"%byte :: pattern) (skipped ++ value)
| glob_any pattern c value : glob_rel pattern value -> glob_rel ("?"%byte :: pattern) (c :: value)
| glob_literal pattern c value :
    c <> "*"%byte -> c <> "?"%byte -> glob_rel pattern value -> glob_rel (c :: pattern) (c :: value).

(** The unfolding of the matcher on a star. *)
Lemma glob_star_eq rest value :
  glob_matches_at ("*"%byte :: rest) value
  = glob_matches_at rest value || match value with [] => false | _ :: tail => glob_matches_at ("*"%byte :: rest) tail end.
Proof. by destruct value. Qed.

Lemma glob_star_app rest skipped value :
  glob_matches_at rest value = true -> glob_matches_at ("*"%byte :: rest) (skipped ++ value) = true.
Proof.
  intros H. induction skipped as [|c skipped IH]; rewrite glob_star_eq; cbn [app]; [by rewrite H|].
  rewrite IH. apply orb_true_r.
Qed.

Lemma glob_matches_rel pattern value : glob_matches pattern value = true <-> glob_rel pattern value.
Proof.
  split.
  - unfold glob_matches. revert value. induction pattern as [|c pattern IH]; intros value.
    { destruct value; [constructor|done]. }
    destruct (decide (c = "*"%byte)) as [->|Hs].
    { induction value as [|x value IHv]; rewrite glob_star_eq; intros [H|H]%orb_true_iff; try done.
      - apply (glob_star _ []). by apply IH.
      - apply (glob_star _ []). by apply IH.
      - specialize (IHv H). inversion IHv as [|? skipped v ? E1 E2| |]; subst; [|done]. by apply (glob_star _ (x :: skipped)). }
    cbn [glob_matches_at]. rewrite bool_decide_eq_false_2 by done. destruct (decide (c = "?"%byte)) as [->|Hq].
    + rewrite bool_decide_eq_true_2 by done. destruct value as [|x value]; [done|]. intros H. constructor. by apply IH.
    + rewrite bool_decide_eq_false_2 by done. destruct value as [|x value]; [done|].
      intros [->%bool_decide_eq_true H]%andb_true_iff. constructor; [done|done|]. by apply IH.
  - unfold glob_matches. induction 1 as [|pattern skipped value _ IH|pattern c value _ IH|pattern c value Hs Hq _ IH].
    + done.
    + by apply glob_star_app.
    + done.
    + cbn [glob_matches_at]. rewrite !bool_decide_eq_false_2, bool_decide_eq_true_2 by done. done.
Qed.

(** ** Applicable grants, as the specification words them *)

Definition scope_covers (s : AclScope) (resource : AclResourceScope) : Prop :=
  s = AllScope \/ exists kind prefix kind' value,
    s = PrefixScope kind prefix /\ resource = PrefixResource kind' value
    /\ (kind = kind' \/ kind = SK_Collection /\ kind' ∈ [SK_Path; SK_Key; SK_Table])
    /\ prefix `prefix_of` value.

Definition applicable (g : AclGrant) (principal : bytes) (roles : list bytes) (resource : AclResource)
    (right : AclRight) : Prop :=
  (subject g = Everyone \/ subject g = Principal principal \/ exists r, subject g = Role r /\ r ∈ roles)
  /\ (forall w, workspace g = Some w -> w = r_workspace resource)
  /\ (forall d, domain g = Some d -> d = r_domain resource)
  /\ (forall pattern, ref_glob g = Some pattern -> exists v, r_ref_name resource = Some v /\ glob_rel pattern v)
  /\ (exists s, s ∈ scopes g /\ scope_covers s (r_scope resource))
  /\ (right ∈ rights g \/ Admin ∈ rights g).

Lemma starts_with_prefix value prefix : starts_with value prefix = true <-> prefix `prefix_of` value.
Proof.
  revert value. induction prefix as [|x prefix IH]; intros value; simpl; [split; [intros _; apply prefix_nil|done]|].
  destruct value as [|y value]; [split; [done|]; intros H; by apply prefix_nil_not in H|].
  rewrite andb_true_iff, bool_decide_eq_true, IH. split.
  - intros [-> H]. by apply prefix_cons.
  - intros H. split; [by eapply prefix_cons_inv_1|by eapply prefix_cons_inv_2].
Qed.

Lemma scope_matches_covers s resource : scope_matches s resource = true <-> scope_covers s resource.
Proof.
  unfold scope_covers. destruct s as [|kind prefix]; simpl; [split; [by left|done]|].
  destruct resource as [|kind' value]; simpl.
  - split; [done|]. intros [?|(? & ? & ? & ? & _ & ? & _)]; done.
  - rewrite andb_true_iff, starts_with_prefix. unfold scope_kind_covers. split.
    + intros [H Hp]. right. exists kind, prefix, kind', value. split_and!; try done.
      apply orb_true_iff in H as [H%bool_decide_eq_true|[H%bool_decide_eq_true H']%andb_true_iff]; [by left|].
      destruct kind'; subst; try done; [by left|right|right|right]; (split; [done|]); set_solver.
    + intros [?|(k & p & k' & v & [= <- <-] & [= <- <-] & H & Hp)]; [done|]. split; [|done].
      destruct H as [->|[-> H]]; [by rewrite bool_decide_eq_true_2|]. destruct kind'; set_solver.
Qed.

Lemma is_none_or_spec {A} (o : option A) (f : A -> bool) :
  is_none_or o f = true <-> forall a, o = Some a -> f a = true.
Proof. destruct o; simpl; naive_solver. Qed.

Lemma base_matches_applicable g principal roles resource right :
  base_matches g principal (list_to_set roles) resource right = true <-> applicable g principal roles resource right.
Proof.
  unfold base_matches, applicable. rewrite !andb_true_iff, !is_none_or_spec, orb_true_iff, !bool_decide_eq_true.
  setoid_rewrite bool_decide_eq_true.
  assert (subject_matches g principal (list_to_set roles) = true <->
    (subject g = Everyone \/ subject g = Principal principal \/ exists r, subject g = Role r /\ r ∈ roles)) as ->.
  { unfold subject_matches. destruct (subject g); rewrite ?bool_decide_eq_true, ?elem_of_list_to_set; naive_solver. }
  assert (ref_matches g (r_ref_name resource) = true <->
    forall pattern, ref_glob g = Some pattern -> exists v, r_ref_name resource = Some v /\ glob_rel pattern v) as ->.
  { unfold ref_matches. setoid_rewrite <-glob_matches_rel. destruct (ref_glob g), (r_ref_name resource); naive_solver. }
  assert (existsb (fun s => scope_matches s (r_scope resource)) (scopes g) = true <->
    exists s, s ∈ scopes g /\ scope_covers s (r_scope resource)) as ->.
  { rewrite existsb_exists. setoid_rewrite list_elem_of_In. by setoid_rewrite scope_matches_covers. }
  tauto.
Qed.

(** ** Evaluation *)

(** A grant stops the evaluation unless its predicate evaluates and it does not deny; it admits the
    request when it allows and its predicate holds. *)
Definition passes (ev : option AclPredicateEvaluator) (cx : AclEvaluationContext) (g : AclGrant) : Prop :=
  exists m, predicate_matches ev cx g = Ok m /\ (effect g = Deny -> m = false).
Definition granted (ev : option AclPredicateEvaluator) (cx : AclEvaluationContext) (g : AclGrant) : bool :=
  match effect g, predicate_matches ev cx g with Allow, Ok true => true | _, _ => false end.

Lemma authorize_loop_cons ev cx g gs allowed :
  authorize_loop ev cx (g :: gs) allowed = Ok () <->
  passes ev cx g /\ authorize_loop ev cx gs (allowed || granted ev cx g) = Ok ().
Proof.
  unfold passes, granted. cbn [authorize_loop]. destruct (predicate_matches ev cx g) as [m|e]; cbn [mbind result_bind].
  - destruct (effect g), m; rewrite ?orb_true_r, ?orb_false_r; naive_solver.
  - naive_solver.
Qed.

Lemma authorize_loop_Ok ev cx gs allowed :
  authorize_loop ev cx gs allowed = Ok () <-> Forall (passes ev cx) gs /\ allowed || existsb (granted ev cx) gs = true.
Proof.
  revert allowed. induction gs as [|g gs IH]; intros allowed.
  - simpl. rewrite orb_false_r. destruct allowed; (split; [|by intros [_ ?]]); [intros _; by split; [constructor|]|done].
  - rewrite authorize_loop_cons, IH, Forall_cons. cbn [existsb]. rewrite orb_assoc. tauto.
Qed.

Lemma granted_spec ev cx g : granted ev cx g = true <-> effect g = Allow /\ predicate_matches ev cx g = Ok true.
Proof. unfold granted. destruct (effect g), (predicate_matches ev cx g) as [[]|]; naive_solver. Qed.

(** Without an evaluator every refusal is [PermissionDenied]. *)
Lemma authorize_loop_Err cx gs allowed e : authorize_loop None cx gs allowed = Err e -> e = PermissionDenied.
Proof.
  revert allowed. induction gs as [|g gs IH]; intros allowed; cbn [authorize_loop].
  - destruct allowed; [done|by intros [= <-]].
  - unfold predicate_matches. destruct (predicate g); cbn [mbind result_bind]; [by intros [= <-]|].
    destruct (effect g); [apply IH|by intros [= <-]].
Qed.

(** C8: the evaluation rule. In authenticated mode a request is authorized exactly when the predicate
    of every applicable grant evaluates, no applicable deny grant's predicate holds, and some applicable
    allow grant's predicate does: deny overrides allow whatever the order of the grants, and no
    applicable grant means refusal. Outside authenticated mode every request is authorized. Without a
    predicate evaluator every refusal is [PermissionDenied]. *)
Theorem acl_authorize (s : AclStore) principal roles resource right ev :
  let cx := mkAclEvaluationContext principal (list_to_set roles) resource right in
  (authorize_resource_with_roles_and_evaluator s true principal roles resource right ev = Ok () <->
     (forall g, g ∈ grants s -> applicable g principal roles resource right ->
        exists m, predicate_matches ev cx g = Ok m /\ (effect g = Deny -> m = false))
     /\ exists g, g ∈ grants s /\ applicable g principal roles resource right /\ effect g = Allow
          /\ predicate_matches ev cx g = Ok true)
  /\ authorize_resource_with_roles_and_evaluator s false principal roles resource right ev = Ok ()
  /\ forall e, authorize_resource_with_roles_and_evaluator s true principal roles resource right None = Err e ->
       e = PermissionDenied.
Proof.
  cbv zeta. split_and!; [|done|intros e; apply authorize_loop_Err].
  unfold authorize_resource_with_roles_and_evaluator. cbn [negb]. rewrite authorize_loop_Ok, Forall_forall. simpl orb.
  rewrite existsb_exists. setoid_rewrite <-list_elem_of_In. setoid_rewrite list_elem_of_filter.
  setoid_rewrite Is_true_true. setoid_rewrite base_matches_applicable. setoid_rewrite granted_spec. unfold passes.
  naive_solver.
Qed.

End AclProps.
