(* ===== verification/AclCodecProps.v ===== *)
(** * The stored form of an access-control list: round trip

    Each reader inverts its writer in front of any bytes; the loop of [decode] inverts the loop of
    [encode]; the stores that [grant], [revoke] and [revoke_one] build keep their bounds and decode back. *)

From S2P Require Import Prelude Types Workspace Cursor Acl AclCodec.

Module AclCodecProps.
Import Error AclDomain Acl AclCodec.

(** ** The readers *)

Lemma reads_opt_predicate p :
  (forall q, p = Some q -> (len (language q) <= u64_max /\ valid_utf8 (language q) = true)
     /\ len (expression q) <= u64_max /\ valid_utf8 (expression q) = true) ->
  reads cur_opt_predicate (put_opt_predicate p) p.
Proof.
  intros Hp rest. destruct p as [[l e]|]; [|done]. unfold cur_opt_predicate.
  cbn [put_opt_predicate app cur_u8 mbind result_bind language expression].
  change (Byte.to_N x01) with 1. cbn iota. destruct (Hp _ eq_refl) as [[? ?] [? ?]]. simpl in *.
  rewrite <-app_assoc, reads_string by done. cbn [mbind result_bind]. by rewrite reads_string.
Qed.

Lemma reads_subject s :
  (forall id, s = Principal id \/ s = Role id -> WorkspaceId.wf_id id) -> reads cur_subject (put_subject s) s.
Proof.
  intros Hs rest. destruct s as [id|id|]; [| |done]; unfold cur_subject; cbn [put_subject app cur_u8 mbind result_bind].
  - change (Byte.to_N x01) with 1. cbn iota. by rewrite reads_id by auto.
  - change (Byte.to_N x02) with 2. cbn iota. by rewrite reads_id by auto.
Qed.

Lemma reads_domain d : reads cur_domain (put_domain d) d.
Proof. intros rest. destruct d as [d|]; [by destruct d|done]. Qed.

Lemma reads_right r : reads cur_right [as_u8 (right_to_u8 r)] r.
Proof. intros rest. by destruct r. Qed.

Lemma reads_scope s : (forall k p, s = PrefixScope k p -> len p <= u64_max) -> reads cur_scope (put_scope s) s.
Proof.
  intros Hs rest. destruct s as [|k p]; [done|]. unfold cur_scope. cbn [put_scope app cur_u8 mbind result_bind].
  change (Byte.to_N x01) with 1. cbn iota. cbn [mbind result_bind cur_u8].
  assert (scope_kind_from_u8 (Byte.to_N (as_u8 (scope_kind_to_u8 k))) = Ok k) as -> by (by destruct k).
  cbn [mbind result_bind]. by rewrite reads_bytes by eauto.
Qed.

(** ** Grants *)

Lemma rights_iter_set (rs : gset AclRight) : list_to_set (rights_iter rs) = rs.
Proof.
  apply set_eq. intros r. rewrite elem_of_list_to_set. unfold rights_iter. rewrite list_elem_of_filter.
  split; [by intros [? _]|]. intros H. split; [done|]. destruct r; unfold all_rights; set_solver.
Qed.

Lemma rights_iter_length rs : (length (rights_iter rs) <= 6)%nat.
Proof. unfold rights_iter. etrans; [apply length_filter|done]. Qed.

(** What the Rust types say of a grant: 16-byte ids, UTF-8 strings, lengths of [u64]. *)
Definition typed_grant (g : AclGrant) : Prop :=
  (forall id, subject g = Principal id \/ subject g = Role id \/ workspace g = Some id -> WorkspaceId.wf_id id)
  /\ (forall b, ref_glob g = Some b -> len b <= u64_max /\ valid_utf8 b = true)
  /\ (forall p, predicate g = Some p -> valid_utf8 (language p) = true /\ valid_utf8 (expression p) = true).

(** What [grant] checks of a grant. *)
Definition valid_grant (g : AclGrant) : Prop :=
  rights g <> ∅ /\ validate_scopes (scopes g) = Ok () /\ validate_opt_predicate (predicate g) = Ok ().

Lemma validate_scopes_Ok ss :
  validate_scopes ss = Ok () -> ss <> [] /\ N.of_nat (length ss) <= 64
  /\ Forall (fun s => forall k p, s = PrefixScope k p -> len p <= 1024) ss.
Proof.
  unfold validate_scopes. destruct ss as [|s ss]; [done|]. set (l := s :: ss). intros H.
  destruct (N.ltb_spec ACL_MAX_SCOPES_PER_GRANT (N.of_nat (length l))) as [|Hl]; [done|].
  destruct (existsb _ l) eqn:E; [done|]. split_and!; [done|done|]. apply Forall_forall. intros x Hx k p ->.
  apply not_true_iff_false in E. apply N.nlt_ge. intros Hp. apply E. apply existsb_exists.
  exists (PrefixScope k p). split; [by apply list_elem_of_In|]. by apply N.ltb_lt.
Qed.

Lemma validate_predicate_Ok p :
  validate_predicate p = Ok () -> language p = ACL_PREDICATE_LANGUAGE_CEL /\ len (expression p) <= 4096.
Proof.
  unfold validate_predicate. case_bool_decide; [|done]. simpl. case_bool_decide; [done|].
  destruct (N.ltb_spec ACL_MAX_PREDICATE_LEN (N.of_nat (length (expression p)))); [done|]. by intros _.
Qed.

Lemma concat_singletons {A} (f : A -> byte) l : concat (map (fun x => [f x]) l) = map f l.
Proof. induction l as [|x l IH]; simpl; [done|]. by rewrite IH. Qed.

Lemma reads_rights rs :
  reads (cur_repeat cur_right (N.of_nat (length (rights_iter rs)))) (map (fun r => as_u8 (right_to_u8 r)) (rights_iter rs)) (rights_iter rs).
Proof.
  rewrite <-concat_singletons. apply reads_repeat. apply Forall_forall. intros r _. split; [apply reads_right|done].
Qed.

Lemma reads_scopes ss :
  validate_scopes ss = Ok () ->
  reads cur_scopes (put_uvarint (as_u64 (N.of_nat (length ss))) ++ concat (map put_scope ss)) ss.
Proof.
  intros (Hne & Hl & Hp)%validate_scopes_Ok rest. unfold cur_scopes.
  rewrite <-app_assoc, as_u64_small, reads_uvarint by (unfold u64_max; lia). cbn [mbind result_bind].
  unfold ACL_MAX_SCOPES_PER_GRANT. rewrite (proj2 (N.ltb_ge _ _)) by done. apply reads_repeat.
  eapply Forall_impl; [exact Hp|]. intros s Hs. split; [|by destruct s].
  apply reads_scope. intros k p ->. specialize (Hs k p eq_refl). unfold u64_max. lia.
Qed.

Lemma reads_grant g : typed_grant g -> valid_grant g -> reads cur_grant (put_grant g) g.
Proof.
  intros (Hid & Hg & Hu) (Hr & Hs & Hp) rest. unfold cur_grant, put_grant. rewrite <-!app_assoc.
  rewrite reads_subject by (intros id [?|?]; apply Hid; tauto). cbn [mbind result_bind].
  rewrite reads_opt_id by (intros id ?; apply Hid; tauto). cbn [mbind result_bind].
  rewrite reads_domain. cbn [mbind result_bind]. rewrite reads_opt_str by done. cbn [mbind result_bind].
  cbn [app cur_u8 mbind result_bind].
  assert (effect_from_u8 (Byte.to_N (as_u8 (effect_to_u8 (effect g)))) = Ok (effect g)) as -> by (by destruct (effect g)).
  cbn [mbind result_bind]. pose proof (rights_iter_length (rights g)) as Hlen.
  rewrite as_u64_small, reads_uvarint by (unfold u64_max; lia). cbn [mbind result_bind].
  rewrite reads_rights. cbn [mbind result_bind]. rewrite (app_assoc (put_uvarint _)), reads_scopes by done.
  cbn [mbind result_bind]. rewrite reads_opt_predicate.
  - cbn [mbind result_bind]. rewrite rights_iter_set. cbn [rights scopes predicate].
    rewrite bool_decide_eq_false_2, Hs by done. cbn [map_err mbind result_bind]. rewrite Hp. by destruct g.
  - intros q Hq. destruct (Hu q Hq). rewrite Hq in Hp. apply validate_predicate_Ok in Hp as [Hlan Hex].
    split_and!; try done; [rewrite Hlan; by vm_compute|unfold u64_max; lia].
Qed.

(** ** The stores that exist *)

Inductive AclOp : Type :=
| OpGrant (g : AclGrant)
| OpRevoke (g : AclGrant)
| OpRevokeOne (g : AclGrant).

(** A refused grant leaves the store as it was. *)
Definition acl_step (s : AclStore) (op : AclOp) : AclStore :=
  match op with
  | OpGrant g => match grant s g with Ok s' => s' | Err _ => s end
  | OpRevoke g => (revoke s g).1
  | OpRevokeOne g => (revoke_one s g).1
  end.

Definition acl_run (s : AclStore) (ops : list AclOp) : AclStore := foldl acl_step s ops.

Definition typed_op (op : AclOp) : Prop :=
  match op with OpGrant g => typed_grant g | OpRevoke _ | OpRevokeOne _ => True end.

Definition count_subject (s : AclStore) (sub : AclSubject) : N :=
  N.of_nat (length (filter (fun c => subject c = sub) (grants s))).

Definition bounded (s : AclStore) : Prop :=
  Forall (fun g => typed_grant g /\ valid_grant g) (grants s)
  /\ forall sub, count_subject s sub <= ACL_MAX_GRANTS_PER_SUBJECT.

Lemma sublist_filter_subject gs gs' sub :
  sublist gs gs' -> sublist (filter (fun c => subject c = sub) gs) (filter (fun c => subject c = sub) gs').
Proof.
  induction 1 as [|g gs gs' _ IH|g gs gs' _ IH]; rewrite ?filter_cons; [done| |]; case_decide; by try constructor.
Qed.

Lemma bounded_sublist s s' : sublist (grants s') (grants s) -> bounded s -> bounded s'.
Proof.
  intros Hs [Hf Hc]. split.
  - clear Hc. revert Hf. induction Hs; rewrite ?Forall_cons; tauto.
  - intros sub. specialize (Hc sub). unfold count_subject in *.
    pose proof (sublist_length _ _ (sublist_filter_subject _ _ sub Hs)) as Hl. simpl in Hl. lia.
Qed.

Lemma bounded_grant s g s' : bounded s -> typed_grant g -> grant s g = Ok s' -> bounded s'.
Proof.
  intros [Hf Hc] Ht. unfold grant. case_bool_decide as Hr; [done|].
  destruct (validate_scopes (scopes g)) as [[]|] eqn:Es; [|done]. cbn [mbind result_bind].
  destruct (validate_opt_predicate (predicate g)) as [[]|] eqn:Ep; [|done]. cbn [mbind result_bind].
  destruct (N.leb_spec ACL_MAX_GRANTS_PER_SUBJECT (N.of_nat (length (filter (fun c => subject c = subject g) (grants s))))) as [|Hlt];
    [done|]. intros [= <-]. split; simpl.
  - apply Forall_app. split; [done|]. apply Forall_singleton. split; [done|]. exact (conj Hr (conj Es Ep)).
  - intros sub. specialize (Hc sub). unfold count_subject in *. simpl. rewrite filter_app, length_app.
    destruct (decide (subject g = sub)) as [<-|Hne].
    + rewrite filter_cons_True, filter_nil by done. simpl. lia.
    + rewrite filter_cons_False, filter_nil by done. simpl. lia.
Qed.

Lemma bounded_run s ops : bounded s -> Forall typed_op ops -> bounded (acl_run s ops).
Proof.
  intros Hb Hops. revert s Hb. induction Hops as [|op ops Hop _ IH]; intros s Hb; [done|]. apply IH.
  destruct op as [g|g|g]; simpl in *.
  - destruct (grant s g) as [s'|] eqn:E; [by eapply bounded_grant|done].
  - eapply bounded_sublist; [|exact Hb]. apply sublist_filter.
  - unfold revoke_one. destruct (list_find _ _) as [[i x]|]; [|done]. eapply bounded_sublist; [|exact Hb].
    simpl. apply sublist_delete.
Qed.

Lemma bounded_new : bounded acl_new.
Proof. split; [constructor|]. intros sub. by vm_compute. Qed.

Lemma put_grant_nonempty g : put_grant g <> [].
Proof. unfold put_grant. by destruct (subject g). Qed.

Lemma decode_encode_store s :
  bounded s -> N.of_nat (length (grants s)) <= u64_max -> acl_decode (acl_encode s) = Ok s.
Proof.
  intros [Hf _] Hl. unfold acl_decode, acl_encode. pose proof (reads_take MAGIC) as Hm.
  change (len MAGIC) with 4 in Hm. rewrite Hm. cbn [mbind result_bind].
  rewrite bool_decide_eq_true_2 by done. cbn [negb].
  rewrite as_u64_small, reads_uvarint by done. cbn [mbind result_bind].
  pose proof (reads_repeat cur_grant put_grant (grants s)) as Hg.
  rewrite <-(app_nil_r (concat (map put_grant (grants s)))), Hg.
  - cbn [mbind result_bind]. by destruct s.
  - eapply Forall_impl; [exact Hf|]. intros g [Ht Hv]. split; [by apply reads_grant|apply put_grant_nonempty].
Qed.

(** Every store that [grant], [revoke] and [revoke_one] build from the empty one keeps the bounds:
    each grant carries a right, 1 to 64 scopes with prefixes of at most 1024 bytes and a well-formed
    predicate, and no subject has more than 256 grants. And such a store, persisted with [encode], is
    restored by [decode] exactly. *)
Theorem acl_store_roundtrip (ops : list AclOp) :
  Forall typed_op ops -> N.of_nat (length (grants (acl_run acl_new ops))) <= u64_max ->
  bounded (acl_run acl_new ops)
  /\ acl_decode (acl_encode (acl_run acl_new ops)) = Ok (acl_run acl_new ops).
Proof.
  intros Ht Hl. assert (bounded (acl_run acl_new ops)) as Hb by (by apply bounded_run; [apply bounded_new|]).
  split; [done|]. by apply decode_encode_store.
Qed.

(** ** A concrete store *)

Definition ws_id : bytes := repeat x07 16.
Definition reader_grant : AclGrant :=
  mkAclGrant (Principal (repeat x01 16)) (Some ws_id) (Some Files) (Some (str "branch/*"))
    [AllScope; PrefixScope SK_Path (str "docs/")] {[ Read; Write ]} Allow
    (Some (mkAclPredicate (str "cel") (str "true"))).

Lemma reader_grant_typed : typed_grant reader_grant.
Proof.
  split_and!.
  - intros id [[= <-]|[?|[= <-]]]; [done|done|done].
  - intros b [= <-]. by split; vm_compute.
  - intros p [= <-]. by split; vm_compute.
Qed.

Lemma acl_store_roundtrip_witness :
  acl_decode (acl_encode (acl_run acl_new [OpGrant reader_grant])) = Ok (mkAclStore [reader_grant]).
Proof.
  destruct (acl_store_roundtrip [OpGrant reader_grant]) as [_ H].
  - constructor; [exact reader_grant_typed|constructor].
  - by vm_compute.
  - rewrite H. by vm_compute.
Defined.

(** One grant of [Admin] confined to a path prefix. *)
Definition scoped_admin : AclStore :=
  mkAclStore [mkAclGrant (Principal (repeat x01 16)) None None None [PrefixScope SK_Path (str "docs/")] {[ Admin ]} Allow None].

(** The check for global administrators ignores scopes: there is a store, built by [grant], whose
    only grant gives [Admin] below one path prefix, in which its holder passes as global administrator
    although the ordinary evaluation refuses them [Admin] on every domain as a whole. *)
Theorem acl_global_admin_ignores_scopes :
  authorize_global_admin scoped_admin true (repeat x01 16) = Ok ()
  /\ (forall ws d, authorize scoped_admin true (repeat x01 16) ws d Admin = Err PermissionDenied)
  /\ grant acl_new (mkAclGrant (Principal (repeat x01 16)) None None None [PrefixScope SK_Path (str "docs/")] {[ Admin ]} Allow None)
     = Ok scoped_admin.
Proof. split_and!; [by vm_compute| |by vm_compute]. intros ws d. by destruct d; vm_compute. Qed.

End AclCodecProps.
