(* ===== verification/ProllyMap.v ===== *)
(** * Prolly trees as maps: the interface their clients use

    [stored s root es] says that the tree at [root] in the store [s] is the tree [build] gives for the
    sorted entries [es]. The lemmas state each operation of the tree in these terms, so that the
    tables, the merges and the working trees above need no tree of nodes. *)

From S2P Require Import Prelude Codec Types Cbor Store Prolly ProllyNode ProllyTree ProllyRead ProllyShape ProllyBuild ProllyEdit ProllyWrite ProllyCursor ProllyReach ProllyDiff.

Module ProllyMap.
Import Codec Cbor Digest Store Prolly ProllyNode ProllyTree ProllyRead ProllyShape ProllyBuild ProllyEdit
  ProllyWrite ProllyCursor ProllyReach ProllyDiff.

Section Stored.
Context `{hasher : Hasher} {S : Type} `{ops : !ObjectStore S} {U : bytes -> Prop} {ok : S -> Prop}
  `{laws : !StoreLaws S U ok}.
Implicit Types (s : S) (root : option Digest) (es : list Entry).

(** Trees of a height and size the loops of the module handle. *)
Definition moderate (t : tree) : Prop := (hgt t < MAX_DEPTH)%nat /\ N.of_nat (weight t) < usize_max.

Definition stored s root es : Prop :=
  sorted_by fst es /\
  match root with
  | None => es = []
  | Some d => exists t, pure_build es = Some t /\ repr s d t /\ moderate t
  end.

(** The entries make a moderate tree whose nodes belong to the universe. *)
Definition buildable (a : Algo) es : Prop :=
  es = [] \/ exists t, pure_build es = Some t /\ covered U a t /\ moderate t.

(** The number of nodes the walks over the tree of [es] visit. *)
Definition walk_size es : nat := from_option weight O (pure_build es).

Lemma stored_sorted s root es : stored s root es -> sorted_by fst es.
Proof. by intros [? _]. Qed.

Lemma stored_mono s s' root es : extends s s' -> stored s root es -> stored s' root es.
Proof.
  intros He [Hs H]. split; [done|]. destruct root as [d|]; [|done]. destruct H as (t & Hb & Hr & Hm).
  exists t. split_and!; try done. by eapply repr_mono.
Qed.

Lemma stored_unique s d es es' : stored s (Some d) es -> stored s (Some d) es' -> es = es'.
Proof.
  intros [_ (t & Hb & Hr & _)] [_ (t' & Hb' & Hr' & _)]. rewrite (repr_functional _ _ _ _ Hr Hr') in Hb.
  apply pure_build_tree in Hb as [<- _], Hb' as [<- _]. done.
Qed.

Lemma stored_get s d es key : stored s (Some d) es -> lookup_key s d key = Ok (tmap es !! key).
Proof.
  intros [Hs (t & Hb & Hr & [Hh _])]. pose proof (pure_build_search _ _ Hs Hb) as (Hk & Hst & _).
  apply pure_build_tree in Hb as [<- _]. by apply get_loop_spec.
Qed.

Lemma stored_entries s d es : stored s (Some d) es -> entries s d = Ok es.
Proof.
  intros [Hs (t & Hb & Hr & [Hh _])]. apply pure_build_tree in Hb as [<- _]. apply entries_spec; [done|].
  unfold MAX_DEPTH in Hh. lia.
Qed.

Lemma stored_prefix s d es prefix :
  stored s (Some d) es -> scan_prefix s d prefix = Ok (filter (fun e => starts_with e.1 prefix = true) es).
Proof.
  intros [Hs (t & Hb & Hr & [Hh _])]. pose proof (pure_build_search _ _ Hs Hb) as (Hk & Hst & _).
  apply pure_build_tree in Hb as [<- _]. unfold scan_prefix. rewrite (collect_prefix_spec s t) by (done || lia). done.
Qed.

Lemma stored_range s d es st up :
  stored s (Some d) es ->
  exists cur, open_range s d st up = Ok cur /\ drains s cur (filter (below_upper up) (filter (above_start st) es)).
Proof.
  intros [Hs (t & Hb & Hr & [Hh _])]. pose proof (pure_build_search _ _ Hs Hb) as (Hk & Hst & _).
  apply pure_build_tree in Hb as [<- _]. apply open_range_spec; try done. unfold MAX_DEPTH in *. lia.
Qed.

Lemma stored_diff s fuel ra rb ea eb :
  ok s -> stored s ra ea -> stored s rb eb -> (walk_size ea < fuel)%nat -> (walk_size eb < fuel)%nat ->
  diff fuel s ra rb = Some (Ok (diff_entries (tmap ea) (tmap eb))).
Proof.
  assert (forall r es, stored s r es -> (walk_size es < fuel)%nat ->
    exists t, orepr s r t /\ walkable fuel t /\ oflatten t = es) as H.
  { intros [d|] es [Hs H] Hf.
    - destruct H as (t & Hb & Hr & [Hh Hw]). exists (Some t). unfold walk_size in Hf. rewrite Hb in Hf.
      split_and!; [done| |by apply pure_build_tree in Hb as [? _]]. split_and!; [lia|exact Hf|done].
    - subst es. by exists None. }
  intros Hok Ha Hb Hfa Hfb. pose proof (stored_sorted _ _ _ Ha). pose proof (stored_sorted _ _ _ Hb).
  destruct (H ra ea Ha Hfa) as (ta & ? & ? & <-). destruct (H rb eb Hb Hfb) as (tb & ? & ? & <-).
  by apply diff_spec.
Qed.

Lemma stored_build s es :
  ok s -> sorted_by fst es -> buildable (digest_algo s) es ->
  exists root s', build s es = Ok (root, s') /\ ok s' /\ extends s s' /\ stored s' root es.
Proof.
  intros Hok Hs [->|(t & Hb & Hc & Hm)].
  - by exists None, s.
  - destruct (build_spec s es t Hok Hb Hc) as (d & s' & H1 & H2 & H3 & H4). exists (Some d), s'.
    split_and!; try done. split; [done|]. by exists t.
Qed.

(** The address of a stored map depends on its entries alone. *)
Lemma stored_address s s' d d' es :
  ok s -> ok s' -> digest_algo s = digest_algo s' -> stored s (Some d) es -> stored s' (Some d') es -> d ≡ d'.
Proof.
  intros Hok Hok' Ha [_ (t & Hb & Hr & _)] [_ (t' & Hb' & Hr' & _)].
  assert (t' = t) as -> by congruence.
  unfold equiv, digest_equiv. rewrite (repr_dig s d t), (repr_dig s' d' t), Ha by done. done.
Qed.
End Stored.

End ProllyMap.
