(* ===== verification/Tabular.v ===== *)
(** * Tabular values: keys and cells (crates/loom-types/src/tabular.rs)

    The scalar values of tables, their total order, the order-preserving key encoding and the cell
    encoding. A float is its bit pattern; a signed integer is a [Z] and an unsigned one an [N], with the
    width in [wf_cell]; a [BTreeMap<String, _>] is its list of entries in key order.
    crates/loom-core/src/tabular/codec.rs has its own copy of the key encoding. *)

From S2P Require Import Prelude Types Codec Cbor Cursor.

Module Tabular.
Import Error Cbor.

Inductive ColumnType : Type :=
| CT_Int | CT_Float | CT_Text | CT_Bool | CT_Bytes | CT_I8 | CT_I16 | CT_I32 | CT_I128 | CT_U8
| CT_U16 | CT_U32 | CT_U64 | CT_U128 | CT_F32 | CT_Decimal | CT_Date | CT_Time | CT_Timestamp
| CT_Interval | CT_Uuid | CT_Inet | CT_Point | CT_List | CT_Map.

Definition tag (ty : ColumnType) : N :=
  match ty with
  | CT_Int => 1 | CT_Float => 2 | CT_Text => 3 | CT_Bool => 4 | CT_Bytes => 5 | CT_I8 => 6
  | CT_I16 => 7 | CT_I32 => 8 | CT_I128 => 9 | CT_U8 => 10 | CT_U16 => 11 | CT_U32 => 12
  | CT_U64 => 13 | CT_U128 => 14 | CT_F32 => 15 | CT_Decimal => 16 | CT_Date => 17 | CT_Time => 18
  | CT_Timestamp => 19 | CT_Interval => 20 | CT_Uuid => 21 | CT_Inet => 22 | CT_Point => 23
  | CT_List => 24 | CT_Map => 25
  end.

Definition from_tag (b : N) : res ColumnType :=
  match b with
  | 1 => Ok CT_Int | 2 => Ok CT_Float | 3 => Ok CT_Text | 4 => Ok CT_Bool | 5 => Ok CT_Bytes
  | 6 => Ok CT_I8 | 7 => Ok CT_I16 | 8 => Ok CT_I32 | 9 => Ok CT_I128 | 10 => Ok CT_U8
  | 11 => Ok CT_U16 | 12 => Ok CT_U32 | 13 => Ok CT_U64 | 14 => Ok CT_U128 | 15 => Ok CT_F32
  | 16 => Ok CT_Decimal | 17 => Ok CT_Date | 18 => Ok CT_Time | 19 => Ok CT_Timestamp
  | 20 => Ok CT_Interval | 21 => Ok CT_Uuid | 22 => Ok CT_Inet | 23 => Ok CT_Point
  | 24 => Ok CT_List | 25 => Ok CT_Map
  | _ => Err CorruptObject
  end.

(** [std::net::IpAddr], by its octets. *)
Inductive IpAddr : Type := V4 (octets : bytes) | V6 (octets : bytes).

#[warnings="-register-all"]
Inductive Value : Type :=
| VNull
| VBool (b : bool)
| VInt (i : Z)
| VFloat (bits : N)
| VText (s : bytes)
| VBytes (b : bytes)
| VI8 (x : Z) | VI16 (x : Z) | VI32 (x : Z) | VI128 (x : Z)
| VU8 (x : N) | VU16 (x : N) | VU32 (x : N) | VU64 (x : N) | VU128 (x : N)
| VF32 (bits : N)
| VDecimal (mantissa : Z) (scale : N)
| VDate (d : Z)
| VTime (t : N)
| VTimestamp (t : Z)
| VInterval (months micros : Z)
| VUuid (u : N)
| VInet (ip : IpAddr)
| VPoint (x y : N)
| VList (items : list Value)
| VMap (entries : list (bytes * Value)).

Definition rank (v : Value) : N :=
  match v with
  | VNull => 0 | VBool _ => 1 | VInt _ => 2 | VFloat _ => 3 | VText _ => 4 | VBytes _ => 5
  | VI8 _ => 6 | VI16 _ => 7 | VI32 _ => 8 | VI128 _ => 9 | VU8 _ => 10 | VU16 _ => 11
  | VU32 _ => 12 | VU64 _ => 13 | VU128 _ => 14 | VF32 _ => 15 | VDecimal _ _ => 16 | VDate _ => 17
  | VTime _ => 18 | VTimestamp _ => 19 | VInterval _ _ => 20 | VUuid _ => 21 | VInet _ => 22
  | VPoint _ _ => 23 | VList _ => 24 | VMap _ => 25
  end.

Definition matches_type (v : Value) (ty : ColumnType) : bool :=
  match v, ty with
  | VNull, _ | VBool _, CT_Bool | VInt _, CT_Int | VFloat _, CT_Float | VText _, CT_Text
  | VBytes _, CT_Bytes | VI8 _, CT_I8 | VI16 _, CT_I16 | VI32 _, CT_I32 | VI128 _, CT_I128
  | VU8 _, CT_U8 | VU16 _, CT_U16 | VU32 _, CT_U32 | VU64 _, CT_U64 | VU128 _, CT_U128
  | VF32 _, CT_F32 | VDecimal _ _, CT_Decimal | VDate _, CT_Date | VTime _, CT_Time
  | VTimestamp _, CT_Timestamp | VInterval _ _, CT_Interval | VUuid _, CT_Uuid | VInet _, CT_Inet
  | VPoint _ _, CT_Point | VList _, CT_List | VMap _, CT_Map => true
  | _, _ => false
  end.

Abbreviation Row := (list Value).

(** ** The key encoding *)

(** [x as u<w>] of a signed integer, and the flip of its sign bit. *)
Definition as_unsigned (w : N) (x : Z) : N := Z.to_N (x mod 2 ^ Z.of_N w).
Definition flip_sign (w : N) (x : Z) : N := N.lxor (as_unsigned w x) (N.shiftl 1 (w - 1)).

(** [!bits] on [w] bits. *)
Definition bit_not (w bits : N) : N := N.lxor bits (N.ones w).

(** The total-order transform of a float of [w] bits: negatives flip all bits, others the sign. *)
Definition float_key (w bits : N) : N :=
  if negb (N.land bits (N.shiftl 1 (w - 1)) =? 0) then bit_not w bits else N.lor bits (N.shiftl 1 (w - 1)).

(** [0x00] becomes [0x00 0xFF]; the end is [0x00 0x00]. *)
Fixpoint encode_orderpreserving_bytes (b : bytes) : bytes :=
  match b with
  | [] => [x00; x00]
  | x :: b =>
      if bool_decide (x = x00) then x00 :: xff :: encode_orderpreserving_bytes b
      else x :: encode_orderpreserving_bytes b
  end.

(** The decimal digits of a positive number, most significant first, as numbers ([u128::to_string]
    without the ASCII offset). *)
Fixpoint digits_loop (fuel : nat) (n : N) (acc : list N) : list N :=
  match fuel with
  | O => acc
  | S fuel => if n =? 0 then acc else digits_loop fuel (n / 10) (n mod 10 :: acc)
  end.

(** A [u128] has at most 39 digits. *)
Definition decimal_digits (n : N) : list N := digits_loop 39 n [].

(** Trailing zeros are dropped down to one digit. *)
Fixpoint strip_zeros (rev_digits : list N) : list N :=
  match rev_digits with
  | 0 :: (_ :: _) as rest => strip_zeros rest
  | ds => ds
  end.

Definition encode_decimal_key (mantissa : Z) (scale : N) : bytes :=
  if (mantissa =? 0)%Z then [x80]
  else
    let digits := decimal_digits (Z.abs_N mantissa) in
    let e := (Z.of_nat (length digits) - Z.of_N scale - 1)%Z in
    let digits := reverse (strip_zeros (reverse digits)) in
    let exp := to_be_bytes 8 (flip_sign 64 e) in
    if (0 <? mantissa)%Z then
      x81 :: exp ++ map (fun d => as_u8 (d + 1)) digits ++ [x00]
    else
      x7f :: map (fun b => as_u8 (bit_not 8 (Byte.to_N b))) exp ++ map (fun d => as_u8 (10 - d)) digits ++ [xff].

(** [encode_key_value], returning what it appends; [key_bytes] appends it to an empty vector. *)
Fixpoint key_bytes (v : Value) : bytes :=
  as_u8 (rank v) ::
  match v with
  | VNull => []
  | VBool b => [if b then x01 else x00]
  | VInt i => to_be_bytes 8 (flip_sign 64 i)
  | VFloat bits => to_be_bytes 8 (float_key 64 bits)
  | VText s => encode_orderpreserving_bytes s
  | VBytes b => encode_orderpreserving_bytes b
  | VI8 x => [as_u8 (flip_sign 8 x)]
  | VI16 x => to_be_bytes 2 (flip_sign 16 x)
  | VI32 x => to_be_bytes 4 (flip_sign 32 x)
  | VI128 x => to_be_bytes 16 (flip_sign 128 x)
  | VU8 x => [as_u8 x]
  | VU16 x => to_be_bytes 2 x
  | VU32 x => to_be_bytes 4 x
  | VU64 x => to_be_bytes 8 x
  | VU128 x => to_be_bytes 16 x
  | VF32 bits => to_be_bytes 4 (float_key 32 bits)
  | VDecimal mantissa scale => encode_decimal_key mantissa scale
  | VDate d => to_be_bytes 4 (flip_sign 32 d)
  | VTime t => to_be_bytes 8 t
  | VTimestamp t => to_be_bytes 8 (flip_sign 64 t)
  | VInterval months micros => to_be_bytes 4 (flip_sign 32 months) ++ to_be_bytes 8 (flip_sign 64 micros)
  | VUuid u => to_be_bytes 16 u
  | VInet (V4 octets) => x00 :: octets
  | VInet (V6 octets) => x01 :: octets
  | VPoint x y => to_be_bytes 8 (float_key 64 x) ++ to_be_bytes 8 (float_key 64 y)
  | VList items => Cursor.put_uvarint (as_u64 (Codec.len items)) ++ concat (map key_bytes items)
  | VMap entries =>
      Cursor.put_uvarint (as_u64 (Codec.len entries)) ++
      concat (map (fun e => encode_orderpreserving_bytes e.1 ++ key_bytes e.2) entries)
  end.

Definition encode_pk_values (pk : list Value) : bytes := concat (map key_bytes pk).

(** ** The order of values *)

(** The signed reading of [w] bits. *)
Definition to_signed (w n : N) : Z :=
  if n <? 2 ^ (w - 1) then Z.of_N n else (Z.of_N n - 2 ^ Z.of_N w)%Z.

(** [total_cmp] of the standard library: the magnitude bits of a negative pattern are inverted and
    the results are compared as signed integers. *)
Definition total_key (w bits : N) : Z :=
  to_signed w (if N.testbit bits (w - 1) then N.lxor bits (N.ones (w - 1)) else bits).
Definition total_cmp (w a b : N) : comparison := (total_key w a ?= total_key w b)%Z.

Definition bool_cmp (a b : bool) : comparison :=
  match a, b with false, true => Lt | true, false => Gt | _, _ => Eq end.

(** [Ord for Value] *)
Definition value_cmp (a b : Value) : comparison :=
  match a, b with
  | VBool x, VBool y => bool_cmp x y
  | VInt x, VInt y | VI8 x, VI8 y | VI16 x, VI16 y | VI32 x, VI32 y | VI128 x, VI128 y
  | VDate x, VDate y | VTimestamp x, VTimestamp y => (x ?= y)%Z
  | VFloat x, VFloat y => total_cmp 64 x y
  | VF32 x, VF32 y => total_cmp 32 x y
  | VText x, VText y | VBytes x, VBytes y => cmp_bytes x y
  | VU8 x, VU8 y | VU16 x, VU16 y | VU32 x, VU32 y | VU64 x, VU64 y | VU128 x, VU128 y
  | VTime x, VTime y | VUuid x, VUuid y => x ?= y
  | VDecimal _ _, VDecimal _ _ | VInterval _ _, VInterval _ _ | VInet _, VInet _
  | VPoint _ _, VPoint _ _ | VList _, VList _ | VMap _, VMap _ => cmp_bytes (key_bytes a) (key_bytes b)
  | _, _ => rank a ?= rank b
  end.

(** [PartialEq for Value] *)
Definition value_eqb (a b : Value) : bool := match value_cmp a b with Eq => true | _ => false end.

(** [Ord for Vec<Value>]: lexicographic. *)
Fixpoint pk_cmp (a b : list Value) : comparison :=
  match a, b with
  | [], [] => Eq
  | [], _ :: _ => Lt
  | _ :: _, [] => Gt
  | x :: a, y :: b => match value_cmp x y with Eq => pk_cmp a b | c => c end
  end.

(** ** Cells *)

(** [to_le_bytes] and [from_le_bytes] of a [k]-byte integer. *)
Definition to_le_bytes (k : nat) (n : N) : bytes := reverse (to_be_bytes k n).
Definition from_le_bytes (b : bytes) : N := from_be_bytes (reverse b).

Fixpoint cell_value (v : Value) : Codec.Value :=
  match v with
  | VNull => Codec.Array [Codec.Uint 0]
  | VBool b => Codec.Array [Codec.Uint 1; Codec.Bool b]
  | VInt i => Codec.Array [Codec.Uint 2; Codec.int i]
  | VFloat bits => Codec.Array [Codec.Uint 3; Codec.Uint bits]
  | VText s => Codec.Array [Codec.Uint 4; Codec.Text s]
  | VBytes b => Codec.Array [Codec.Uint 5; Codec.Bytes b]
  | VI8 x => Codec.Array [Codec.Uint 6; Codec.int x]
  | VI16 x => Codec.Array [Codec.Uint 7; Codec.int x]
  | VI32 x => Codec.Array [Codec.Uint 8; Codec.int x]
  | VI128 x => Codec.Array [Codec.Uint 9; Codec.Bytes (to_le_bytes 16 (as_unsigned 128 x))]
  | VU8 x => Codec.Array [Codec.Uint 10; Codec.Uint x]
  | VU16 x => Codec.Array [Codec.Uint 11; Codec.Uint x]
  | VU32 x => Codec.Array [Codec.Uint 12; Codec.Uint x]
  | VU64 x => Codec.Array [Codec.Uint 13; Codec.Uint x]
  | VU128 x => Codec.Array [Codec.Uint 14; Codec.Bytes (to_le_bytes 16 x)]
  | VF32 bits => Codec.Array [Codec.Uint 15; Codec.Uint bits]
  | VDecimal mantissa scale =>
      Codec.Array [Codec.Uint 16; Codec.Bytes (to_le_bytes 16 (as_unsigned 128 mantissa)); Codec.Uint scale]
  | VDate d => Codec.Array [Codec.Uint 17; Codec.int d]
  | VTime t => Codec.Array [Codec.Uint 18; Codec.Uint t]
  | VTimestamp t => Codec.Array [Codec.Uint 19; Codec.int t]
  | VInterval months micros => Codec.Array [Codec.Uint 20; Codec.int months; Codec.int micros]
  | VUuid u => Codec.Array [Codec.Uint 21; Codec.Bytes (to_le_bytes 16 u)]
  | VInet (V4 octets) => Codec.Array [Codec.Uint 22; Codec.Uint 4; Codec.Bytes octets]
  | VInet (V6 octets) => Codec.Array [Codec.Uint 22; Codec.Uint 6; Codec.Bytes octets]
  | VPoint x y => Codec.Array [Codec.Uint 23; Codec.Uint x; Codec.Uint y]
  | VList items => Codec.Array [Codec.Uint 24; Codec.Array (map cell_value items)]
  | VMap entries =>
      Codec.Array [Codec.Uint 25; Codec.Map (map (fun e => (Codec.Text e.1, cell_value e.2)) entries)]
  end.

(** [encode_cell] and [encode_cells]; [Cbor.cbor_encode] is the encoder behind an [expect]. *)
Definition encode_cell (v : Value) : bytes := cbor_encode (cell_value v).
Definition encode_cells (values : list Value) : bytes := cbor_encode (Codec.Array (map cell_value values)).

(** [u8::try_from] and the like, on an unsigned and on a signed integer. *)
Definition narrow_u (w n : N) : res N := if n <? 2 ^ w then Ok n else Err CorruptObject.
Definition narrow_i (w : N) (n : Z) : res Z :=
  if ((- 2 ^ Z.of_N (w - 1) <=? n) && (n <? 2 ^ Z.of_N (w - 1)))%Z then Ok n else Err CorruptObject.

Definition fixed (k : nat) (b : bytes) : res bytes :=
  if bool_decide (length b = k) then Ok b else Err CorruptObject.

(** Reading the fields after the tag. Each helper reads one field and returns the fields left. *)
Definition field_i (w : N) (f : Fields) : res (Z * Fields) :=
  '(n, f) ← fields_int f; n ← narrow_i w n; Ok (n, f).
Definition field_u (w : N) (f : Fields) : res (N * Fields) :=
  '(n, f) ← fields_uint f; n ← narrow_u w n; Ok (n, f).
Definition field_u128 (f : Fields) : res (N * Fields) :=
  '(b, f) ← fields_bytes f; b ← fixed 16 b; Ok (from_le_bytes b, f).
Definition field_i128 (f : Fields) : res (Z * Fields) :=
  '(n, f) ← field_u128 f; Ok (to_signed 128 n, f).

Definition field_with {A} (mk : A -> Value) (r : res (A * Fields)) : res (Value * Fields) :=
  '(a, f) ← r; Ok (mk a, f).

(** The arms of [cell_from] that do not recurse. *)
Definition scalar_from (t : N) (f : Fields) : res (Value * Fields) :=
  match t with
  | 0 => Ok (VNull, f)
  | 1 => field_with VBool (fields_bool f)
  | 2 => field_with VInt (fields_int f)
  | 3 => field_with VFloat (fields_uint f)
  | 4 => field_with VText (fields_text f)
  | 5 => field_with VBytes (fields_bytes f)
  | 6 => field_with VI8 (field_i 8 f)
  | 7 => field_with VI16 (field_i 16 f)
  | 8 => field_with VI32 (field_i 32 f)
  | 9 => field_with VI128 (field_i128 f)
  | 10 => field_with VU8 (field_u 8 f)
  | 11 => field_with VU16 (field_u 16 f)
  | 12 => field_with VU32 (field_u 32 f)
  | 13 => field_with VU64 (fields_uint f)
  | 14 => field_with VU128 (field_u128 f)
  | 15 => field_with VF32 (field_u 32 f)
  | 16 => '(mantissa, f) ← field_i128 f; '(scale, f) ← field_u 32 f; Ok (VDecimal mantissa scale, f)
  | 17 => field_with VDate (field_i 32 f)
  | 18 => field_with VTime (fields_uint f)
  | 19 => field_with VTimestamp (fields_int f)
  | 20 => '(months, f) ← field_i 32 f; '(micros, f) ← fields_int f; Ok (VInterval months micros, f)
  | 21 => field_with VUuid (field_u128 f)
  | 22 =>
      '(family, f) ← fields_uint f;
      '(octets, f) ← fields_bytes f;
      match family with
      | 4 => octets ← fixed 4 octets; Ok (VInet (V4 octets), f)
      | 6 => octets ← fixed 16 octets; Ok (VInet (V6 octets), f)
      | _ => Err CorruptObject
      end
  | 23 => '(x, f) ← fields_uint f; '(y, f) ← fields_uint f; Ok (VPoint x y, f)
  | _ => Err CorruptObject
  end.

(** Every failure is the same code, so the structural matches on the array, its tag and the two
    recursive fields stand for [as_array], [f.uint()], [f.array()] and [f.map()]. *)
Fixpoint cell_from (item : Codec.Value) : res Value :=
  match item with
  | Codec.Array (Codec.Uint t :: f) =>
      '(value, f) ←
        match t, f with
        | 24, Codec.Array items :: f => vs ← try_map cell_from items; Ok (VList vs, f)
        | 25, Codec.Map pairs :: f =>
            es ← try_map (fun kv => k ← as_text kv.1; v ← cell_from kv.2; Ok (k, v)) pairs;
            Ok (VMap (btree_iter (collect_map es)), f)
        | _, _ => scalar_from t f
        end;
      _ ← fields_end f;
      Ok value
  | _ => Err CorruptObject
  end.

(** The values the Rust types hold: integers of their width, [String]s of UTF-8 bytes, a [BTreeMap]
    strictly ordered by its keys, vectors shorter than the address space. *)
Fixpoint wf_cell (v : Value) : Prop :=
  match v with
  | VNull | VBool _ => True
  | VInt i | VTimestamp i => (- 2 ^ 63 <= i < 2 ^ 63)%Z
  | VFloat n | VU64 n | VTime n => n < 2 ^ 64
  | VText s => valid_utf8 s = true /\ Codec.len s < 2 ^ 64
  | VBytes b => Codec.len b < 2 ^ 64
  | VI8 x => (- 2 ^ 7 <= x < 2 ^ 7)%Z
  | VI16 x => (- 2 ^ 15 <= x < 2 ^ 15)%Z
  | VI32 x | VDate x => (- 2 ^ 31 <= x < 2 ^ 31)%Z
  | VI128 x => (- 2 ^ 127 <= x < 2 ^ 127)%Z
  | VU8 x => x < 2 ^ 8
  | VU16 x => x < 2 ^ 16
  | VU32 x | VF32 x => x < 2 ^ 32
  | VU128 x | VUuid x => x < 2 ^ 128
  | VDecimal mantissa scale => (- 2 ^ 127 <= mantissa < 2 ^ 127)%Z /\ scale < 2 ^ 32
  | VInterval months micros => (- 2 ^ 31 <= months < 2 ^ 31)%Z /\ (- 2 ^ 63 <= micros < 2 ^ 63)%Z
  | VInet (V4 octets) => length octets = 4%nat
  | VInet (V6 octets) => length octets = 16%nat
  | VPoint x y => x < 2 ^ 64 /\ y < 2 ^ 64
  | VList items => Codec.len items < 2 ^ 64 /\ Forall id (map wf_cell items)
  | VMap entries =>
      Codec.len entries < 2 ^ 64 /\ sorted_by fst entries /\
      Forall (fun e => valid_utf8 e.1 = true /\ Codec.len e.1 < 2 ^ 64) entries /\
      Forall id (map (fun e => wf_cell e.2) entries)
  end.

(** ** Rows (crates/loom-core/src/tabular/codec.rs) *)

Definition encode_row (row : Row) : bytes := cbor_encode (Codec.Array (map cell_value row)).

(** [decode_row] under a schema of [arity] columns. *)
Definition decode_row (arity : nat) (b : bytes) : res Row :=
  items ← decode_array b;
  if bool_decide (length items = arity) then try_map cell_from items else Err CorruptObject.

End Tabular.
