(* ===== verification/TabularKeys.v ===== *)
(** * The order of tabular keys (crates/loom-types/src/tabular.rs)

    Comparing two encoded keys as bytes gives the order of the values they encode, and no encoded
    value is a proper prefix of another, so keys of several columns concatenate without ambiguity. *)

From S2P Require Import Prelude Types Codec Cbor Cursor Tabular.

Module TabularKeys.
Import Tabular.

(** ** Words *)

Lemma lxor_top w m : m < 2 ^ w -> N.lxor m (N.shiftl 1 w) = m + 2 ^ w.
Proof.
  intros Hm. rewrite N.shiftl_1_l. symmetry. apply N.add_nocarry_lxor.
  apply N.bits_inj_0. intros i. rewrite N.land_spec, N.pow2_bits_eqb.
  destruct (N.eqb_spec w i) as [<-|]; [|apply andb_false_r].
  by rewrite <-(N.mod_small m (2 ^ w)), N.mod_pow2_bits_high by done.
Qed.

Lemma lxor_top_set w m : m < 2 ^ w -> N.lxor (2 ^ w + m) (N.shiftl 1 w) = m.
Proof.
  intros Hm. rewrite N.add_comm, <-lxor_top by done.
  by rewrite N.lxor_assoc, N.lxor_nilpotent, N.lxor_0_r.
Qed.

Lemma pow2_split w : 0 < w -> 2 ^ w = 2 ^ (w - 1) + 2 ^ (w - 1).
Proof. intros. replace w with (N.succ (w - 1)) at 1 by lia. rewrite N.pow_succ_r'. lia. Qed.

(** Inverting the low [w] bits. *)
Lemma lxor_ones w m : m < 2 ^ w -> N.lxor m (N.ones w) = 2 ^ w - 1 - m.
Proof.
  intros Hm. change (N.lxor m (N.ones w)) with (N.lnot m w).
  destruct (N.eq_decidable m 0) as [->|Hz].
  - rewrite N.lnot_0_l, N.ones_equiv. lia.
  - pose proof (N.add_lnot_diag_low m w) as H. rewrite N.ones_equiv in H.
    assert (N.log2 m < w) as Hl by (apply N.log2_lt_pow2; lia). specialize (H Hl). lia.
Qed.

(** A sign-flipped integer is the integer moved up by half the range. *)
Lemma flip_sign_spec w x :
  0 < w -> (- 2 ^ Z.of_N (w - 1) <= x < 2 ^ Z.of_N (w - 1))%Z ->
  Z.of_N (flip_sign w x) = (x + 2 ^ Z.of_N (w - 1))%Z.
Proof.
  intros Hw Hx. pose proof (pow2_split w Hw) as Hp.
  assert (2 ^ Z.of_N w = 2 * 2 ^ Z.of_N (w - 1))%Z as Hpz
    by (change 2%Z with (Z.of_N 2); rewrite <-!N2Z.inj_pow, Hp; lia).
  assert (Z.of_N (2 ^ (w - 1)) = 2 ^ Z.of_N (w - 1))%Z as He by by rewrite N2Z.inj_pow.
  unfold flip_sign, as_unsigned. destruct (Z.leb_spec 0 x) as [H|H].
  - rewrite Z.mod_small by lia. rewrite lxor_top by lia. lia.
  - assert (x mod 2 ^ Z.of_N w = x + 2 ^ Z.of_N w)%Z as ->.
    { symmetry. apply (Z.mod_unique_pos _ _ (-1)); lia. }
    replace (Z.to_N (x + 2 ^ Z.of_N w)) with (2 ^ (w - 1) + Z.to_N (x + 2 ^ Z.of_N (w - 1))) by lia.
    rewrite lxor_top_set by lia. lia.
Qed.

Lemma flip_sign_lt w x :
  0 < w -> (- 2 ^ Z.of_N (w - 1) <= x < 2 ^ Z.of_N (w - 1))%Z -> flip_sign w x < 2 ^ w.
Proof.
  intros Hw Hx. pose proof (flip_sign_spec w x Hw Hx). pose proof (pow2_split w Hw).
  assert (Z.of_N (2 ^ (w - 1)) = 2 ^ Z.of_N (w - 1))%Z by by rewrite N2Z.inj_pow. lia.
Qed.

Lemma flip_sign_compare w x y :
  0 < w -> (- 2 ^ Z.of_N (w - 1) <= x < 2 ^ Z.of_N (w - 1))%Z ->
  (- 2 ^ Z.of_N (w - 1) <= y < 2 ^ Z.of_N (w - 1))%Z ->
  (flip_sign w x ?= flip_sign w y) = (x ?= y)%Z.
Proof.
  intros Hw Hx Hy. rewrite <-N2Z.inj_compare, !flip_sign_spec by done.
  by rewrite !(Z.add_comm _ (2 ^ _)), Z.add_compare_mono_l.
Qed.

(** The key of a float is its place in the total order moved up by half the range. *)
Lemma float_key_spec w bits :
  0 < w -> bits < 2 ^ w -> Z.of_N (float_key w bits) = (total_key w bits + Z.of_N (2 ^ (w - 1)))%Z.
Proof.
  intros Hw Hb. pose proof (pow2_split w Hw) as Hp.
  assert (N.testbit bits (w - 1) = (2 ^ (w - 1) <=? bits)) as Ht.
  { destruct (N.leb_spec (2 ^ (w - 1)) bits) as [H|H].
    - rewrite N.testbit_odd, N.shiftr_div_pow2.
      replace (bits / 2 ^ (w - 1)) with 1; [done|]. apply (N.div_unique _ _ _ (bits - 2 ^ (w - 1))); lia.
    - by rewrite <-(N.mod_small bits (2 ^ (w - 1))), N.mod_pow2_bits_high by done. }
  assert (N.land bits (N.shiftl 1 (w - 1)) = if 2 ^ (w - 1) <=? bits then 2 ^ (w - 1) else 0) as Hl.
  { rewrite <-Ht, N.shiftl_1_l. apply N.bits_inj. intros i. rewrite N.land_spec, N.pow2_bits_eqb.
    destruct (N.eqb_spec (w - 1) i) as [<-|Hi].
    - rewrite andb_true_r. destruct (N.testbit bits (w - 1)); [by rewrite N.pow2_bits_true|by rewrite N.bits_0].
    - rewrite andb_false_r. destruct (N.testbit bits (w - 1)); [by rewrite N.pow2_bits_false|by rewrite N.bits_0]. }
  unfold float_key, total_key, bit_not, to_signed. rewrite Hl, Ht.
  assert (2 ^ Z.of_N w = Z.of_N (2 ^ w))%Z as -> by by rewrite N2Z.inj_pow.
  destruct (N.leb_spec (2 ^ (w - 1)) bits) as [H|H].
  - destruct (N.eqb_spec (2 ^ (w - 1)) 0); [lia|]. simpl. rewrite lxor_ones by done.
    assert (exists m, bits = m + 2 ^ (w - 1) /\ m < 2 ^ (w - 1)) as (m & -> & Hm)
      by (exists (bits - 2 ^ (w - 1)); lia).
    assert (N.lxor (m + 2 ^ (w - 1)) (N.ones (w - 1)) = 2 ^ (w - 1) - 1 - m + 2 ^ (w - 1)) as ->.
    { rewrite <-lxor_top by done.
      rewrite N.lxor_assoc, (N.lxor_comm (N.shiftl 1 _)), <-N.lxor_assoc, lxor_ones, lxor_top; lia. }
    destruct (N.ltb_spec (2 ^ (w - 1) - 1 - m + 2 ^ (w - 1)) (2 ^ (w - 1))); lia.
  - simpl. destruct (N.ltb_spec bits (2 ^ (w - 1))); [|lia].
    rewrite N.lor_comm, lor_shiftl_add by done. lia.
Qed.

Lemma float_key_lt w bits : 0 < w -> bits < 2 ^ w -> float_key w bits < 2 ^ w.
Proof.
  intros Hw Hb. unfold float_key. destruct (negb _); [|].
  - unfold bit_not. rewrite lxor_ones by done. lia.
  - destruct (N.eq_dec bits 0) as [->|Hz].
    + rewrite N.lor_0_l, N.shiftl_1_l. apply N.pow_lt_mono_r; lia.
    + apply N.log2_lt_pow2; [apply N.neq_0_lt_0; rewrite N.lor_eq_0_iff; naive_solver|].
      rewrite N.log2_lor, N.shiftl_1_l, N.log2_pow2 by lia.
      apply N.max_lub_lt; [apply N.log2_lt_pow2; lia|lia].
Qed.

Lemma float_key_compare w a b :
  0 < w -> a < 2 ^ w -> b < 2 ^ w -> (float_key w a ?= float_key w b) = total_cmp w a b.
Proof.
  intros Hw Ha Hb. rewrite <-N2Z.inj_compare, !float_key_spec by done.
  by rewrite !(Z.add_comm _ (Z.of_N _)), Z.add_compare_mono_l.
Qed.

(** ** Bodies *)

(** Words of [k] bytes compare as numbers. *)
Lemma cmp_words k w m n :
  w = 8 * N.of_nat k -> m < 2 ^ w -> n < 2 ^ w -> cmp_bytes (to_be_bytes k m) (to_be_bytes k n) = (m ?= n).
Proof.
  intros -> Hm Hn. rewrite N.pow_mul_r in Hm, Hn. by apply cmp_to_be_bytes.
Qed.

Lemma cmp_byte_words m n : m < 2 ^ 8 -> n < 2 ^ 8 -> cmp_bytes [as_u8 m] [as_u8 n] = (m ?= n).
Proof. intros Hm Hn. simpl. rewrite !as_u8_small by done. by destruct (m ?= n). Qed.

Lemma cmp_stuffed a b x y :
  cmp_bytes (encode_orderpreserving_bytes a ++ x) (encode_orderpreserving_bytes b ++ y)
  = cmp_then (cmp_bytes a b) (cmp_bytes x y).
Proof.
  revert b. induction a as [|c a IH]; intros [|d b]; cbn [encode_orderpreserving_bytes].
  - apply cmp_bytes_app.
  - case_bool_decide; subst; [done|]. by destruct d.
  - case_bool_decide; subst; [done|]. by destruct c.
  - repeat case_bool_decide; subst; cbn [app]; rewrite ?cmp_bytes_cons, ?IH, ?N.compare_refl; cbn [cmp_then];
      rewrite ?cmp_bytes_cons, ?N.compare_refl, ?IH; cbn [cmp_then]; try done.
    + by destruct d.
    + by destruct c.
    + by destruct (Byte.to_N c ?= Byte.to_N d).
Qed.

Lemma stuffed_prefix_free a b x y :
  encode_orderpreserving_bytes a ++ x = encode_orderpreserving_bytes b ++ y -> a = b /\ x = y.
Proof.
  intros H%cmp_bytes_eq. rewrite cmp_stuffed in H.
  destruct (cmp_bytes a b) eqn:E; try done. split; by apply cmp_bytes_eq.
Qed.

Lemma uvarint_prefix_free m n x y :
  m < 2 ^ 64 -> n < 2 ^ 64 ->
  Cursor.put_uvarint (as_u64 m) ++ x = Cursor.put_uvarint (as_u64 n) ++ y -> m = n /\ x = y.
Proof.
  intros Hm Hn E. unfold as_u64 in E. rewrite !N.mod_small in E by done.
  pose proof (Cursor.reads_uvarint m ltac:(unfold u64_max; lia) x) as H1.
  pose proof (Cursor.reads_uvarint n ltac:(unfold u64_max; lia) y) as H2.
  rewrite E, H2 in H1. naive_solver.
Qed.

End TabularKeys.
