(* ===== verification/TabularDecimal.v ===== *)
(** * The order of decimal keys (crates/loom-types/src/tabular.rs, [encode_decimal_key])

    The key of [mantissa * 10^(-scale)] sorts by the number it denotes: the exponent of the leading
    digit first, then the significant digits, each inverted for negative numbers. *)

From S2P Require Import Prelude Types Codec Cbor Cursor Tabular TabularKeys.

Module TabularDecimal.
Import Tabular TabularKeys.

(** The number a list of digits denotes, and the lexicographic order of digit lists. *)
Fixpoint digits_value (ds : list N) : N :=
  match ds with [] => 0 | d :: ds => d * 10 ^ N.of_nat (length ds) + digits_value ds end.

Fixpoint digits_cmp (a b : list N) : comparison :=
  match a, b with
  | [], [] => Eq
  | [], _ :: _ => Lt
  | _ :: _, [] => Gt
  | x :: a, y :: b => cmp_then (x ?= y) (digits_cmp a b)
  end.

Definition digit (d : N) : Prop := d < 10.

Lemma digits_value_app a b : digits_value (a ++ b) = digits_value a * 10 ^ N.of_nat (length b) + digits_value b.
Proof.
  induction a as [|d a IH]; simpl; [lia|].
  rewrite IH, length_app, Nat2N.inj_add, N.pow_add_r. lia.
Qed.

Lemma digits_value_lt ds : Forall digit ds -> digits_value ds < 10 ^ N.of_nat (length ds).
Proof.
  induction 1 as [|d ds Hd _ IH]; simpl digits_value; [done|].
  cbn [length]. rewrite Nat2N.inj_succ, N.pow_succ_r'. unfold digit in Hd. nia.
Qed.

(** ** The digits of a number *)

Lemma digits_loop_app fuel n acc : digits_loop fuel n acc = digits_loop fuel n [] ++ acc.
Proof.
  revert n acc. induction fuel as [|fuel IH]; intros n acc; simpl; [done|].
  destruct (n =? 0); [done|]. rewrite IH, (IH _ [_]), <-app_assoc. done.
Qed.

Lemma digits_loop_spec fuel n :
  n < 10 ^ N.of_nat fuel ->
  digits_value (digits_loop fuel n []) = n /\ Forall digit (digits_loop fuel n []) /\
  (0 < n -> exists k, length (digits_loop fuel n []) = S k /\ 10 ^ N.of_nat k <= n).
Proof.
  revert n. induction fuel as [|fuel IH]; intros n Hn; cbn [digits_loop].
  { change (10 ^ N.of_nat 0) with 1 in Hn. split_and!; [simpl; lia|done|lia]. }
  destruct (N.eqb_spec n 0) as [->|Hz]; [split_and!; [done|done|lia]|].
  rewrite Nat2N.inj_succ, N.pow_succ_r' in Hn.
  pose proof (N.Div0.div_mod n 10) as Hdm. pose proof (N.mod_lt n 10 ltac:(done)) as Hm.
  destruct (IH (n / 10)) as (Hv & Hd & Hl); [apply N.Div0.div_lt_upper_bound; lia|].
  rewrite digits_loop_app. split_and!.
  - rewrite digits_value_app, Hv. simpl. lia.
  - by apply Forall_app; split; [|constructor].
  - intros _. rewrite length_app. cbn [length].
    destruct (N.eq_dec (n / 10) 0) as [E|E].
    + exists 0%nat. split; [|simpl; lia]. rewrite E. by destruct fuel.
    + destruct Hl as (k & -> & Hk); [lia|]. exists (S k). split; [lia|].
      rewrite Nat2N.inj_succ, N.pow_succ_r'. etrans; [apply N.mul_le_mono_l, Hk|apply N.Div0.mul_div_le].
Qed.

(** ** Trailing zeros *)

Definition no_trailing (ds : list N) : Prop := forall l, ds <> l ++ [0].

Lemma strip_zeros_spec rev_digits :
  rev_digits <> [] -> 0 < digits_value (reverse rev_digits) ->
  exists k, rev_digits = replicate k 0 ++ strip_zeros rev_digits /\ head (strip_zeros rev_digits) <> Some 0 /\
    strip_zeros rev_digits <> [].
Proof.
  induction rev_digits as [|d ds IH]; intros Hn Hv; [done|].
  destruct (N.eq_dec d 0) as [->|Hd].
  - destruct ds as [|e ds]; [simpl in Hv; lia|].
    rewrite reverse_cons, digits_value_app in Hv. simpl in Hv.
    destruct IH as (k & E & H); [done|lia|]. exists (S k). simpl strip_zeros. by rewrite E at 1.
  - exists 0%nat. simpl. destruct d; [done|]. by split_and!.
Qed.

Lemma digits_value_zeros k : digits_value (replicate k 0) = 0.
Proof. induction k; simpl; lia. Qed.

(** The stripped digits of a positive number: the number is theirs shifted by the zeros dropped. *)
Lemma stripped_digits n :
  0 < n -> n < 10 ^ 39 ->
  exists k, let ds := decimal_digits n in let st := reverse (strip_zeros (reverse ds)) in
    n = digits_value st * 10 ^ N.of_nat k /\ length ds = (length st + k)%nat /\
    Forall digit st /\ no_trailing st /\ (0 < length ds)%nat /\
    10 ^ N.of_nat (length ds - 1) <= n < 10 ^ N.of_nat (length ds).
Proof.
  intros Hn Hb. destruct (digits_loop_spec 39 n Hb) as (Hv & Hd & Hl). fold (decimal_digits n) in *.
  destruct (Hl Hn) as (j & Hj & Hle). set (ds := decimal_digits n) in *.
  destruct (strip_zeros_spec (reverse ds)) as (k & E & Hh & Hne).
  { intros E%(f_equal length). rewrite length_reverse, Hj in E. done. }
  { by rewrite reverse_involutive, Hv. }
  assert (ds = reverse (strip_zeros (reverse ds)) ++ replicate k 0) as E'.
  { apply (f_equal reverse) in E. rewrite reverse_involutive, reverse_app, reverse_replicate in E. exact E. }
  exists k. cbv zeta. split_and!.
  - rewrite <-Hv at 1. rewrite E' at 1. rewrite digits_value_app, digits_value_zeros, length_replicate. lia.
  - by rewrite E' at 1; rewrite length_app, length_replicate.
  - rewrite E' in Hd. by apply Forall_app in Hd as [? _].
  - intros l El. apply (f_equal reverse) in El. rewrite reverse_involutive, reverse_snoc in El. by rewrite El in Hh.
  - lia.
  - rewrite Hj. by replace (S j - 1)%nat with j by lia.
  - rewrite <-Hv at 1. by apply digits_value_lt.
Qed.

(** ** Comparing digits *)

Lemma no_trailing_tail d ds : no_trailing (d :: ds) -> no_trailing ds.
Proof. intros H l E. apply (H (d :: l)). by rewrite E. Qed.

Lemma no_trailing_pos ds : ds <> [] -> no_trailing ds -> 0 < digits_value ds.
Proof.
  intros Hne Hn. destruct ds as [|d ds] using rev_ind; [done|].
  rewrite digits_value_app. simpl. destruct (N.eq_dec d 0) as [->|]; [by destruct (Hn ds)|]. lia.
Qed.

Lemma leading_digit x y a b p q : x < y -> a < p -> b < q -> (x * p + a) * q < (y * q + b) * p.
Proof.
  intros Hxy Ha Hb. apply (N.lt_le_trans _ ((x + 1) * p * q)).
  - apply N.mul_lt_mono_pos_r; lia.
  - transitivity (y * p * q); [|lia]. apply N.mul_le_mono_r, N.mul_le_mono_r. lia.
Qed.

(** Without trailing zeros the lexicographic order is the order of the fractions [0.d1d2...]. *)
Lemma digits_cmp_fraction a b :
  Forall digit a -> Forall digit b -> no_trailing a -> no_trailing b ->
  digits_cmp a b = (digits_value a * 10 ^ N.of_nat (length b) ?= digits_value b * 10 ^ N.of_nat (length a)).
Proof.
  intros Ha. revert b. induction Ha as [|x a Hx Ha IH]; intros b Hb Hna Hnb.
  - destruct b as [|y b]; [done|]. pose proof (no_trailing_pos (y :: b) ltac:(done) Hnb).
    symmetry. apply N.compare_lt_iff. change (10 ^ N.of_nat (length (@nil N))) with 1. cbn [digits_value] in *. lia.
  - destruct Hb as [|y b Hy Hb].
    { pose proof (no_trailing_pos (x :: a) ltac:(done) Hna). symmetry. apply N.compare_gt_iff.
      change (10 ^ N.of_nat (length (@nil N))) with 1. cbn [digits_value] in *. lia. }
    cbn [digits_cmp digits_value length]. rewrite (IH b Hb) by (by eapply no_trailing_tail).
    rewrite !Nat2N.inj_succ, !N.pow_succ_r'.
    pose proof (digits_value_lt a Ha) as Hla. pose proof (digits_value_lt b Hb) as Hlb.
    set (p := 10 ^ N.of_nat (length a)) in *. set (q := 10 ^ N.of_nat (length b)) in *. clearbody p q.
    destruct (N.compare_spec x y) as [->|H|H]; cbn [cmp_then].
    + replace ((y * p + digits_value a) * (10 * q)) with (10 * (y * p * q) + 10 * (digits_value a * q)) by lia.
      replace ((y * q + digits_value b) * (10 * p)) with (10 * (y * p * q) + 10 * (digits_value b * p)) by lia.
      destruct (N.compare_spec (digits_value a * q) (digits_value b * p)); symmetry;
        [apply N.compare_eq_iff|apply N.compare_lt_iff|apply N.compare_gt_iff]; lia.
    + symmetry. apply N.compare_lt_iff. pose proof (leading_digit x y _ (digits_value b) p q H Hla Hlb). lia.
    + symmetry. apply N.compare_gt_iff. pose proof (leading_digit y x _ (digits_value a) q p H Hlb Hla). lia.
Qed.

Lemma cmp_digits_pos a b x y :
  Forall digit a -> Forall digit b ->
  cmp_bytes (map (fun d => as_u8 (d + 1)) a ++ x00 :: x) (map (fun d => as_u8 (d + 1)) b ++ x00 :: y)
  = cmp_then (digits_cmp a b) (cmp_bytes x y).
Proof.
  intros Ha. revert b. induction Ha as [|d a Hd Ha IH]; intros b [|e b' He Hb]; cbn [map app digits_cmp];
    rewrite ?cmp_bytes_cons; unfold digit in *; rewrite ?as_u8_small by lia.
  - done.
  - by destruct e.
  - by destruct d.
  - rewrite (IH b' Hb). destruct (N.compare_spec d e), (N.compare_spec (d + 1) (e + 1)); simpl; (done || lia).
Qed.

Lemma cmp_digits_neg a b x y :
  Forall digit a -> Forall digit b ->
  cmp_bytes (map (fun d => as_u8 (10 - d)) a ++ xff :: x) (map (fun d => as_u8 (10 - d)) b ++ xff :: y)
  = cmp_then (digits_cmp b a) (cmp_bytes x y).
Proof.
  intros Ha. revert b. induction Ha as [|d a Hd Ha IH]; intros b [|e b' He Hb]; cbn [map app digits_cmp];
    rewrite ?cmp_bytes_cons; unfold digit in *; rewrite ?as_u8_small by lia.
  - done.
  - change (Byte.to_N xff) with 255. by rewrite (proj2 (N.compare_gt_iff 255 _)) by lia.
  - change (Byte.to_N xff) with 255. by rewrite (proj2 (N.compare_lt_iff _ 255)) by lia.
  - rewrite (IH b' Hb). destruct (N.compare_spec e d), (N.compare_spec (10 - d) (10 - e)); simpl; (done || lia).
Qed.

(** Inverted bytes of one length compare the other way. *)
Lemma cmp_inverted a b :
  length a = length b ->
  cmp_bytes (map (fun c => as_u8 (bit_not 8 (Byte.to_N c))) a) (map (fun c => as_u8 (bit_not 8 (Byte.to_N c))) b)
  = cmp_bytes b a.
Proof.
  revert b. induction a as [|c a IH]; intros [|d b]; try done. intros [= Hl]. cbn [map].
  rewrite !cmp_bytes_cons, (IH b Hl). unfold bit_not. pose proof (to_N_lt c). pose proof (to_N_lt d).
  rewrite !lxor_ones by done. change (2 ^ 8) with 256. rewrite !as_u8_small by lia.
  destruct (N.compare_spec (Byte.to_N d) (Byte.to_N c)), (N.compare_spec (256 - 1 - Byte.to_N c) (256 - 1 - Byte.to_N d));
    simpl; (done || lia).
Qed.

(** ** Exponents *)

(** Scaling both sides by powers of ten with the same difference of exponents. *)
Lemma scale_compare a b p q p' q' :
  p + q' = p' + q -> (a * 10 ^ p ?= b * 10 ^ q) = (a * 10 ^ p' ?= b * 10 ^ q').
Proof.
  intros E. assert (0 < 10 ^ p) by (apply N.neq_0_lt_0, N.pow_nonzero; lia).
  assert (0 < 10 ^ p') by (apply N.neq_0_lt_0, N.pow_nonzero; lia).
  assert (10 ^ p * 10 ^ q' = 10 ^ p' * 10 ^ q) by (rewrite <-!N.pow_add_r; by f_equal).
  destruct (N.compare_spec (a * 10 ^ p) (b * 10 ^ q)), (N.compare_spec (a * 10 ^ p') (b * 10 ^ q')); (done || nia).
Qed.

(** The exponent of the leading digit and the significant digits of [n * 10^(-s)]. *)
Definition exponent (n s : N) : Z := (Z.of_nat (length (decimal_digits n)) - Z.of_N s - 1)%Z.
Definition significant (n : N) : list N := reverse (strip_zeros (reverse (decimal_digits n))).

Definition magnitude (n : N) : Prop := 0 < n /\ n < 10 ^ 39.

Lemma smaller_exponent n s n' s' :
  magnitude n -> magnitude n' -> (exponent n s < exponent n' s')%Z -> n * 10 ^ s' < n' * 10 ^ s.
Proof.
  intros [H0 Hb] [H0' Hb'] He.
  destruct (stripped_digits n H0 Hb) as (k & _ & _ & _ & _ & Hl & _ & Hlt).
  destruct (stripped_digits n' H0' Hb') as (k' & _ & _ & _ & _ & Hl' & Hle' & _). unfold exponent in He.
  set (l := length (decimal_digits n)) in *. set (l' := length (decimal_digits n')) in *. clearbody l l'.
  apply (N.lt_le_trans _ (10 ^ (N.of_nat l + s'))).
  - rewrite N.pow_add_r. apply N.mul_lt_mono_pos_r; [|done]. apply N.neq_0_lt_0, N.pow_nonzero; lia.
  - transitivity (10 ^ (N.of_nat (l' - 1) + s)); [apply N.pow_le_mono_r; lia|].
    rewrite N.pow_add_r. by apply N.mul_le_mono_r.
Qed.

Lemma magnitude_compare n s n' s' :
  magnitude n -> magnitude n' ->
  cmp_then (exponent n s ?= exponent n' s')%Z (digits_cmp (significant n) (significant n'))
  = (n * 10 ^ s' ?= n' * 10 ^ s).
Proof.
  intros Hm Hm'. destruct (Z.compare_spec (exponent n s) (exponent n' s')) as [E|E|E]; cbn [cmp_then].
  - destruct Hm as [H0 Hb], Hm' as [H0' Hb'].
    destruct (stripped_digits n H0 Hb) as (k & Hv & Hl & Hd & Hn & _).
    destruct (stripped_digits n' H0' Hb') as (k' & Hv' & Hl' & Hd' & Hn' & _).
    fold (significant n) (significant n') in *. unfold exponent in E.
    rewrite digits_cmp_fraction by done.
    assert (forall t, n * 10 ^ t = digits_value (significant n) * 10 ^ (N.of_nat k + t)) as ->
      by (intros t; rewrite Hv at 1; by rewrite N.pow_add_r, N.mul_assoc).
    assert (forall t, n' * 10 ^ t = digits_value (significant n') * 10 ^ (N.of_nat k' + t)) as ->
      by (intros t; rewrite Hv' at 1; by rewrite N.pow_add_r, N.mul_assoc).
    apply scale_compare. lia.
  - symmetry. apply N.compare_lt_iff. by apply smaller_exponent.
  - symmetry. apply N.compare_gt_iff. by apply smaller_exponent.
Qed.

Lemma exponent_range n s : magnitude n -> s < 2 ^ 32 -> (- 2 ^ Z.of_N (64 - 1) <= exponent n s < 2 ^ Z.of_N (64 - 1))%Z.
Proof.
  intros [H0 Hb] Hs. destruct (stripped_digits n H0 Hb) as (k & _ & _ & _ & _ & Hl & Hle & _).
  assert (N.of_nat (length (decimal_digits n) - 1) < 39).
  { apply (N.pow_lt_mono_r_iff 10); [done|]. by eapply N.le_lt_trans. }
  unfold exponent. change (Z.of_N (64 - 1)) with 63%Z. lia.
Qed.

(** The bodies behind the sign marker. *)
Definition exponent_bytes (n s : N) : bytes := to_be_bytes 8 (flip_sign 64 (exponent n s)).

Lemma cmp_exponent n s n' s' :
  magnitude n -> magnitude n' -> s < 2 ^ 32 -> s' < 2 ^ 32 ->
  cmp_bytes (exponent_bytes n s) (exponent_bytes n' s') = (exponent n s ?= exponent n' s')%Z.
Proof.
  intros Hn Hn' Hs Hs'. pose proof (exponent_range n s Hn Hs). pose proof (exponent_range n' s' Hn' Hs').
  unfold exponent_bytes. rewrite (cmp_words 8 64) by (done || by apply flip_sign_lt).
  by apply flip_sign_compare.
Qed.

Lemma significant_digits n : magnitude n -> Forall digit (significant n).
Proof. intros [H0 Hb]. by destruct (stripped_digits n H0 Hb) as (k & _ & _ & Hd & _). Qed.

Lemma cmp_then_assoc a b c : cmp_then a (cmp_then b c) = cmp_then (cmp_then a b) c.
Proof. by destruct a. Qed.

Lemma cmp_positive n s n' s' x y :
  magnitude n -> magnitude n' -> s < 2 ^ 32 -> s' < 2 ^ 32 ->
  cmp_bytes ((exponent_bytes n s ++ map (fun d => as_u8 (d + 1)) (significant n) ++ [x00]) ++ x)
            ((exponent_bytes n' s' ++ map (fun d => as_u8 (d + 1)) (significant n') ++ [x00]) ++ y)
  = cmp_then (n * 10 ^ s' ?= n' * 10 ^ s) (cmp_bytes x y).
Proof.
  intros Hn Hn' Hs Hs'. rewrite <-!app_assoc. cbn [app].
  rewrite cmp_bytes_app_length by (unfold exponent_bytes; by rewrite !length_to_be_bytes).
  rewrite cmp_exponent, cmp_digits_pos, cmp_then_assoc, magnitude_compare by auto using significant_digits. done.
Qed.

Lemma cmp_negative n s n' s' x y :
  magnitude n -> magnitude n' -> s < 2 ^ 32 -> s' < 2 ^ 32 ->
  cmp_bytes ((map (fun b => as_u8 (bit_not 8 (Byte.to_N b))) (exponent_bytes n s) ++
              map (fun d => as_u8 (10 - d)) (significant n) ++ [xff]) ++ x)
            ((map (fun b => as_u8 (bit_not 8 (Byte.to_N b))) (exponent_bytes n' s') ++
              map (fun d => as_u8 (10 - d)) (significant n') ++ [xff]) ++ y)
  = cmp_then (n' * 10 ^ s ?= n * 10 ^ s') (cmp_bytes x y).
Proof.
  intros Hn Hn' Hs Hs'. rewrite <-!app_assoc. cbn [app].
  rewrite cmp_bytes_app_length by (unfold exponent_bytes; by rewrite !length_map, !length_to_be_bytes).
  rewrite cmp_inverted by (unfold exponent_bytes; by rewrite !length_to_be_bytes).
  rewrite cmp_exponent, cmp_digits_neg, cmp_then_assoc, magnitude_compare by auto using significant_digits. done.
Qed.

(** ** Keys of decimals *)

Definition wf_decimal (m : Z) (s : N) : Prop := (- 2 ^ 127 <= m < 2 ^ 127)%Z /\ s < 2 ^ 32.

Lemma wf_magnitude m s : wf_decimal m s -> m <> 0%Z -> magnitude (Z.abs_N m).
Proof.
  intros [Hm _] Hz. split; [lia|]. assert (Z.abs_N m <= 2 ^ 127) by lia.
  eapply N.le_lt_trans; [done|]. by vm_compute.
Qed.

(** The number a decimal denotes, compared: [m * 10^(-s)] against [m' * 10^(-s')]. *)
Definition decimal_compare (m : Z) (s : N) (m' : Z) (s' : N) : comparison :=
  (m * 10 ^ Z.of_N s' ?= m' * 10 ^ Z.of_N s)%Z.

Lemma decimal_key_cases m s :
  encode_decimal_key m s =
  match m with
  | 0%Z => [x80]
  | Z.pos p => x81 :: exponent_bytes (N.pos p) s ++ map (fun d => as_u8 (d + 1)) (significant (N.pos p)) ++ [x00]
  | Z.neg p =>
      x7f :: map (fun b => as_u8 (bit_not 8 (Byte.to_N b))) (exponent_bytes (N.pos p) s) ++
      map (fun d => as_u8 (10 - d)) (significant (N.pos p)) ++ [xff]
  end.
Proof. by destruct m. Qed.

Lemma cmp_decimal_keys m s m' s' x y :
  wf_decimal m s -> wf_decimal m' s' ->
  cmp_bytes (encode_decimal_key m s ++ x) (encode_decimal_key m' s' ++ y)
  = cmp_then (decimal_compare m s m' s') (cmp_bytes x y).
Proof.
  intros Hm Hm'. pose proof (wf_magnitude _ _ Hm) as Hw. pose proof (wf_magnitude _ _ Hm') as Hw'.
  destruct Hm as [_ Hs], Hm' as [_ Hs']. rewrite !decimal_key_cases. unfold decimal_compare.
  assert (0 < 10 ^ Z.of_N s)%Z by (apply Z.pow_pos_nonneg; lia).
  assert (0 < 10 ^ Z.of_N s')%Z by (apply Z.pow_pos_nonneg; lia).
  destruct m as [|p|p], m' as [|p'|p']; cbn [app]; rewrite cmp_bytes_cons; cbn [Byte.to_N].
  - by rewrite !Z.mul_0_l.
  - rewrite (proj2 (Z.compare_lt_iff _ _)) by lia. done.
  - rewrite (proj2 (Z.compare_gt_iff _ _)) by lia. done.
  - rewrite (proj2 (Z.compare_gt_iff _ _)) by lia. done.
  - rewrite N.compare_refl. cbn [cmp_then]. rewrite cmp_positive by auto. f_equal.
    rewrite <-N2Z.inj_compare, !N2Z.inj_mul, !N2Z.inj_pow. done.
  - rewrite (proj2 (Z.compare_gt_iff _ _)) by lia. done.
  - rewrite (proj2 (Z.compare_lt_iff _ _)) by lia. done.
  - rewrite (proj2 (Z.compare_lt_iff _ _)) by lia. done.
  - rewrite N.compare_refl. cbn [cmp_then]. rewrite cmp_negative by auto. f_equal.
    rewrite <-N2Z.inj_compare, !N2Z.inj_mul, !N2Z.inj_pow, <-!Pos2Z.opp_pos, !Z.mul_opp_l, <-Z.compare_opp. done.
Qed.

Lemma decimal_prefix_free m s m' s' x y :
  wf_decimal m s -> wf_decimal m' s' ->
  encode_decimal_key m s ++ x = encode_decimal_key m' s' ++ y ->
  encode_decimal_key m s = encode_decimal_key m' s' /\ x = y.
Proof.
  intros Hm Hm' H%cmp_bytes_eq. rewrite cmp_decimal_keys in H by done.
  destruct (decimal_compare m s m' s') eqn:E; try done. split; [|by apply cmp_bytes_eq].
  apply cmp_bytes_eq. pose proof (cmp_decimal_keys m s m' s' [] [] Hm Hm') as H'.
  by rewrite !app_nil_r, E in H'.
Qed.

End TabularDecimal.
