(* ===== verification/TabularOrder.v ===== *)
(** * Keys order as the values they encode (crates/loom-types/src/tabular.rs)

    The main theorems on the key encoding: it is prefix free, compares as [Ord for Value] does, and a
    key of several columns compares as the vector of its values. *)

From S2P Require Import Prelude Types Codec Cbor Cursor Tabular TabularKeys TabularDecimal.

Module TabularOrder.
Import Tabular TabularKeys TabularDecimal.

(** ** Structure of values *)

Definition is_scalar (v : Value) : bool := match v with VList _ | VMap _ => false | _ => true end.

Section ValueInd.
Context (P : Value -> Prop)
  (Hscalar : forall v, is_scalar v = true -> P v)
  (Hlist : forall items, Forall P items -> P (VList items))
  (Hmap : forall entries, Forall (fun e => P e.2) entries -> P (VMap entries)).

Fixpoint cell_ind (v : Value) : P v :=
  match v with
  | VList items => Hlist items
      ((fix go l : Forall P l :=
          match l with [] => Forall_nil_2 _ | x :: l' => Forall_cons_2 _ _ _ (cell_ind x) (go l') end) items)
  | VMap entries => Hmap entries
      ((fix go l : Forall (fun e => P e.2) l :=
          match l with [] => Forall_nil_2 _ | x :: l' => Forall_cons_2 _ _ _ (cell_ind x.2) (go l') end) entries)
  | v => Hscalar v eq_refl
  end.
End ValueInd.

Lemma wf_VList items : wf_cell (VList items) <-> Codec.len items < 2 ^ 64 /\ Forall wf_cell items.
Proof. simpl. by rewrite Forall_map. Qed.

Lemma wf_VMap entries :
  wf_cell (VMap entries) <->
  Codec.len entries < 2 ^ 64 /\ sorted_by fst entries /\
  Forall (fun e => valid_utf8 e.1 = true /\ Codec.len e.1 < 2 ^ 64) entries /\
  Forall (fun e => wf_cell e.2) entries.
Proof. simpl. by rewrite Forall_map. Qed.

Lemma rank_lt v : rank v < 26.
Proof. by destruct v. Qed.

Lemma rank_bytes v w : as_u8 (rank v) = as_u8 (rank w) -> rank v = rank w.
Proof.
  intros E%(f_equal Byte.to_N). pose proof (rank_lt v). pose proof (rank_lt w).
  by rewrite !as_u8_small in E by lia.
Qed.

(** What [key_bytes] writes behind the rank byte. *)
Definition key_body (v : Value) : bytes := tail (key_bytes v).

Lemma key_bytes_body v : key_bytes v = as_u8 (rank v) :: key_body v.
Proof. by destruct v. Qed.

(** ** No key is a proper prefix of another *)

Definition prefix_free_at (v : Value) : Prop :=
  forall w x y, wf_cell v -> wf_cell w -> key_bytes v ++ x = key_bytes w ++ y -> key_bytes v = key_bytes w /\ x = y.

Lemma prefix_free_concat {A} (enc : A -> bytes) (wf : A -> Prop) l l' x y :
  Forall (fun a => forall b x y, wf a -> wf b -> enc a ++ x = enc b ++ y -> enc a = enc b /\ x = y) l ->
  Forall wf l -> Forall wf l' -> length l = length l' ->
  concat (map enc l) ++ x = concat (map enc l') ++ y -> concat (map enc l) = concat (map enc l') /\ x = y.
Proof.
  intros H. revert l'. induction H as [|a l Ha _ IH]; intros [|b l'] Hl Hl' Hlen; try done.
  cbn [map concat]. rewrite <-!app_assoc. intros E.
  apply Forall_cons in Hl as [Hwa Hl]. apply Forall_cons in Hl' as [Hwb Hl'].
  apply Ha in E as [-> E]; [|done..]. apply IH in E as [-> ->]; auto.
Qed.

Lemma fixed_prefix_free (a b x y : bytes) : length a = length b -> a ++ x = b ++ y -> a = b /\ x = y.
Proof. intros Hl E. by apply app_inj_1 in E. Qed.

(** Bodies of one type that do not nest: words of the type's width, stuffed bytes, decimals. *)
Lemma scalar_prefix_free v : is_scalar v = true -> prefix_free_at v.
Proof.
  intros Hs w x y Hv Hw. rewrite !key_bytes_body. cbn [app]. intros [= Hr E]. apply rank_bytes in Hr as Hr'.
  rewrite Hr. cut (key_body v = key_body w /\ x = y); [by intros [-> ->]|].
  destruct v; try discriminate Hs; destruct w; try discriminate Hr'; clear Hs Hr Hr';
    unfold key_body in *; cbn [key_bytes tail] in *;
    try (apply fixed_prefix_free in E; [done|rewrite ?length_app, ?length_to_be_bytes; reflexivity]);
    try (apply stuffed_prefix_free in E as [-> ->]; done).
  - by apply decimal_prefix_free in E.
  - destruct ip, ip0; simpl in *; try discriminate;
      (injection E as E; apply fixed_prefix_free in E as [-> ->]; [done|congruence]).
Qed.

Lemma list_prefix_free items : Forall prefix_free_at items -> prefix_free_at (VList items).
Proof.
  intros IH w x y Hv Hw. rewrite !key_bytes_body. cbn [app]. intros [= Hr E]. apply (rank_bytes (VList items)) in Hr as Hr'.
  destruct w as [| | | | | | | | | | | | | | | | | | | | | | | |items'|]; try discriminate Hr'.
  apply wf_VList in Hv as [Hl Hv]. apply wf_VList in Hw as [Hl' Hw].
  unfold key_body in *. cbn [key_bytes tail] in *. rewrite <-!app_assoc in E.
  apply uvarint_prefix_free in E as [Hlen E]; [|done..].
  apply (prefix_free_concat key_bytes wf_cell) in E as [-> ->]; [by rewrite Hlen|done..|unfold Codec.len in Hlen; lia].
Qed.

Definition entry_key (e : bytes * Value) : bytes := encode_orderpreserving_bytes e.1 ++ key_bytes e.2.

Lemma map_prefix_free entries : Forall (fun e => prefix_free_at e.2) entries -> prefix_free_at (VMap entries).
Proof.
  intros IH w x y Hv Hw. rewrite !key_bytes_body. cbn [app]. intros [= Hr E]. apply (rank_bytes (VMap entries)) in Hr as Hr'.
  destruct w as [| | | | | | | | | | | | | | | | | | | | | | | | |entries']; try discriminate Hr'.
  apply wf_VMap in Hv as (Hl & _ & _ & Hv). apply wf_VMap in Hw as (Hl' & _ & _ & Hw).
  unfold key_body in *. cbn [key_bytes tail] in *. rewrite <-!app_assoc in E.
  apply uvarint_prefix_free in E as [Hlen E]; [|done..].
  apply (prefix_free_concat entry_key (fun e => wf_cell e.2)) in E as [E ->];
    [|..|done|done|unfold Codec.len in Hlen; lia].
  - unfold entry_key in E. by rewrite Hlen, E.
  - eapply Forall_impl; [exact IH|]. intros e He e' x' y' Hwe Hwe'. unfold entry_key. rewrite <-!app_assoc.
    intros E'. apply stuffed_prefix_free in E' as [-> E']. by apply He in E' as [-> ->].
Qed.

Lemma key_prefix_free v : prefix_free_at v.
Proof. induction v using cell_ind; auto using scalar_prefix_free, list_prefix_free, map_prefix_free. Qed.

Lemma cmp_key_app v w x y :
  wf_cell v -> wf_cell w ->
  cmp_bytes (key_bytes v ++ x) (key_bytes w ++ y) = cmp_then (cmp_bytes (key_bytes v) (key_bytes w)) (cmp_bytes x y).
Proof.
  intros Hv Hw. apply cmp_bytes_app_then. intros x' y' E. by apply key_prefix_free in E as [E _].
Qed.

(** ** Keys compare as values *)

Lemma value_cmp_rank v w : rank v <> rank w -> value_cmp v w = (rank v ?= rank w).
Proof. intros H. destruct v, w; first [exfalso; exact (H eq_refl)|reflexivity]. Qed.

Lemma cmp_signed k w x y :
  w = 8 * N.of_nat k -> 0 < w -> (- 2 ^ Z.of_N (w - 1) <= x < 2 ^ Z.of_N (w - 1))%Z ->
  (- 2 ^ Z.of_N (w - 1) <= y < 2 ^ Z.of_N (w - 1))%Z ->
  cmp_bytes (to_be_bytes k (flip_sign w x)) (to_be_bytes k (flip_sign w y)) = (x ?= y)%Z.
Proof.
  intros Hw H0 Hx Hy. rewrite (cmp_words k w) by auto using flip_sign_lt. by apply flip_sign_compare.
Qed.

Lemma cmp_floats k w x y :
  w = 8 * N.of_nat k -> 0 < w -> x < 2 ^ w -> y < 2 ^ w ->
  cmp_bytes (to_be_bytes k (float_key w x)) (to_be_bytes k (float_key w y)) = total_cmp w x y.
Proof.
  intros Hw H0 Hx Hy. rewrite (cmp_words k w) by auto using float_key_lt. by apply float_key_compare.
Qed.

Lemma cmp_key_body v w :
  wf_cell v -> wf_cell w -> rank v = rank w -> cmp_bytes (key_body v) (key_body w) = value_cmp v w.
Proof.
  intros Hv Hw Hr.
  assert (forall a b, cmp_bytes a b = cmp_bytes (as_u8 (rank v) :: a) (as_u8 (rank w) :: b)) as Hb
    by (intros a b; by rewrite cmp_bytes_cons, Hr, N.compare_refl).
  destruct v, w; try discriminate Hr;
    try (by rewrite Hb);
    clear Hb Hr; unfold key_body; cbn [key_bytes tail value_cmp wf_cell] in *.
  - by destruct b, b0.
  - by apply (cmp_signed 8).
  - by apply (cmp_floats 8).
  - pose proof (cmp_stuffed s s0 [] []) as H. rewrite !app_nil_r in H. rewrite H. by destruct (cmp_bytes s s0).
  - pose proof (cmp_stuffed b b0 [] []) as H. rewrite !app_nil_r in H. rewrite H. by destruct (cmp_bytes b b0).
  - rewrite cmp_byte_words by (by apply flip_sign_lt). by apply flip_sign_compare.
  - by apply (cmp_signed 2).
  - by apply (cmp_signed 4).
  - by apply (cmp_signed 16).
  - by apply cmp_byte_words.
  - by apply (cmp_words 2 16).
  - by apply (cmp_words 4 32).
  - by apply (cmp_words 8 64).
  - by apply (cmp_words 16 128).
  - by apply (cmp_floats 4).
  - by apply (cmp_signed 4).
  - by apply (cmp_words 8 64).
  - by apply (cmp_signed 8).
  - by apply (cmp_words 16 128).
Qed.

Lemma cmp_key v w : wf_cell v -> wf_cell w -> cmp_bytes (key_bytes v) (key_bytes w) = value_cmp v w.
Proof.
  intros Hv Hw. rewrite !key_bytes_body, cmp_bytes_cons. pose proof (rank_lt v). pose proof (rank_lt w).
  rewrite !as_u8_small by lia. destruct (N.eq_dec (rank v) (rank w)) as [E|E].
  - rewrite E, N.compare_refl. cbn [cmp_then]. by apply cmp_key_body.
  - rewrite value_cmp_rank by done. by destruct (N.compare_spec (rank v) (rank w)).
Qed.

Lemma pk_cmp_cons v a w b : pk_cmp (v :: a) (w :: b) = cmp_then (value_cmp v w) (pk_cmp a b).
Proof. simpl. by destruct (value_cmp v w). Qed.

Lemma cmp_pk a b : Forall wf_cell a -> Forall wf_cell b -> cmp_bytes (encode_pk_values a) (encode_pk_values b) = pk_cmp a b.
Proof.
  intros Ha. revert b. unfold encode_pk_values. induction Ha as [|v a Hv _ IH]; intros b [|w b' Hw Hb]; cbn [map concat].
  - done.
  - by rewrite key_bytes_body.
  - by rewrite key_bytes_body.
  - by rewrite cmp_key_app, cmp_key, pk_cmp_cons, IH by done.
Qed.

(** C22: the key of a primary key is order preserving: comparing the encoded keys of two primary keys,
    of any column types and any number of columns, as bytes gives the order of the vectors of
    values, and two keys are equal bytes exactly when the values are equal. *)
Theorem tabular_key_order a b :
  Forall wf_cell a -> Forall wf_cell b ->
  cmp_bytes (encode_pk_values a) (encode_pk_values b) = pk_cmp a b /\
  (encode_pk_values a = encode_pk_values b <-> pk_cmp a b = Eq).
Proof. intros Ha Hb. rewrite <-cmp_bytes_eq, cmp_pk by done. done. Qed.

(** Decimals of any scale sort by the number they denote: the bytes of two decimal keys compare as
    [m * 10^(-s)] and [m' * 10^(-s')] do, so [1.5] and [1.50] are one key. *)
Theorem tabular_decimal_order m s m' s' :
  wf_cell (VDecimal m s) -> wf_cell (VDecimal m' s') ->
  value_cmp (VDecimal m s) (VDecimal m' s') = (m * 10 ^ Z.of_N s' ?= m' * 10 ^ Z.of_N s)%Z.
Proof.
  intros Hm Hm'. pose proof (cmp_decimal_keys m s m' s' [] [] Hm Hm') as H. rewrite !app_nil_r in H.
  cbn [value_cmp key_bytes]. rewrite cmp_bytes_cons, N.compare_refl, H. unfold decimal_compare. by destruct (_ ?= _)%Z.
Qed.

Lemma tabular_key_order_witness :
  cmp_bytes (encode_pk_values [VInt (-3); VText (str "a")]) (encode_pk_values [VInt (-3); VText (str "ab"); VNull]) = Lt.
Proof.
  apply (tabular_key_order [VInt (-3); VText (str "a")] [VInt (-3); VText (str "ab"); VNull]);
    repeat (apply Forall_nil_2 || apply Forall_cons_2); vm_compute; done.
Defined.

Lemma tabular_decimal_order_witness : value_cmp (VDecimal 15 1) (VDecimal 150 2) = Eq.
Proof. rewrite (tabular_decimal_order 15 1 150 2); [reflexivity|by vm_compute..]. Defined.

End TabularOrder.
