(* ===== verification/TabularCells.v ===== *)
(** * Cells and rows round trip (crates/loom-types/src/tabular.rs, [cell_value] and [cell_from])

    A value written as a cell of Loom Canonical CBOR is read back exactly, whatever its type and
    nesting; a row is read back under its arity, and refused exactly when it nests deeper than the
    codec reads. *)

From S2P Require Import Prelude Types Codec CodecFacts CodecProps Cbor Object ObjectProps Tabular TabularOrder.

Module TabularCells.
Import Cbor ObjectProps Tabular TabularOrder.

(** ** Words and fields *)

Lemma from_to_le_bytes k n : n < 256 ^ N.of_nat k -> from_le_bytes (to_le_bytes k n) = n.
Proof. intros H. unfold from_le_bytes, to_le_bytes. rewrite reverse_involutive. by apply from_to_be_bytes_small. Qed.

Lemma to_signed_as_unsigned x : (- 2 ^ 127 <= x < 2 ^ 127)%Z -> to_signed 128 (as_unsigned 128 x) = x.
Proof.
  intros Hx. unfold to_signed, as_unsigned. change (Z.of_N 128) with 128%Z. change (2 ^ (128 - 1)) with (2 ^ 127).
  destruct (Z.leb_spec 0 x).
  - rewrite Z.mod_small by lia. destruct (N.ltb_spec (Z.to_N x) (2 ^ 127)); lia.
  - assert (x mod 2 ^ 128 = x + 2 ^ 128)%Z as -> by (symmetry; apply (Z.mod_unique_pos _ _ (-1)); lia).
    destruct (N.ltb_spec (Z.to_N (x + 2 ^ 128)) (2 ^ 127)); lia.
Qed.

Lemma as_unsigned_lt x : as_unsigned 128 x < 2 ^ 128.
Proof. unfold as_unsigned. change (Z.of_N 128) with 128%Z. pose proof (Z.mod_pos_bound x (2 ^ 128)). lia. Qed.

Lemma read_one {A} (conv : Codec.Value -> res A) v f a : conv v = Ok a -> read_field conv (v :: f) = Ok (a, f).
Proof. intros H. apply read_field_Ok. eauto. Qed.

Lemma field_i_int w n f :
  0 < w -> w <= 64 -> (- 2 ^ Z.of_N (w - 1) <= n < 2 ^ Z.of_N (w - 1))%Z -> field_i w (Codec.int n :: f) = Ok (n, f).
Proof.
  intros Hw Hw' Hn. unfold field_i, fields_int.
  assert (2 ^ Z.of_N (w - 1) <= 2 ^ 63)%Z by (apply Z.pow_le_mono_r; lia).
  rewrite (read_one _ _ _ n) by (apply as_int_int; lia). cbn [mbind result_bind]. unfold narrow_i.
  destruct (Z.leb_spec (- 2 ^ Z.of_N (w - 1)) n), (Z.ltb_spec n (2 ^ Z.of_N (w - 1))); done || lia.
Qed.

Lemma field_u_uint w n f : n < 2 ^ w -> field_u w (Codec.Uint n :: f) = Ok (n, f).
Proof.
  intros Hn. unfold field_u. cbn [fields_uint read_field next_field mbind result_bind as_uint].
  unfold narrow_u. by rewrite (proj2 (N.ltb_lt _ _)).
Qed.

Lemma fields_int_int n f : (- 2 ^ 63 <= n < 2 ^ 63)%Z -> fields_int (Codec.int n :: f) = Ok (n, f).
Proof. intros Hn. apply read_one. by apply as_int_int. Qed.

Lemma length_to_le_bytes k n : length (to_le_bytes k n) = k.
Proof. unfold to_le_bytes. by rewrite length_reverse, length_to_be_bytes. Qed.

Lemma field_u128_bytes n f : n < 2 ^ 128 -> field_u128 (Codec.Bytes (to_le_bytes 16 n) :: f) = Ok (n, f).
Proof.
  intros Hn. unfold field_u128. cbn [fields_bytes read_field next_field mbind result_bind as_bytes].
  unfold fixed. rewrite bool_decide_eq_true_2 by apply length_to_le_bytes. cbn [mbind result_bind].
  by rewrite from_to_le_bytes.
Qed.

Lemma field_i128_bytes x f :
  (- 2 ^ 127 <= x < 2 ^ 127)%Z -> field_i128 (Codec.Bytes (to_le_bytes 16 (as_unsigned 128 x)) :: f) = Ok (x, f).
Proof.
  intros Hx. unfold field_i128. rewrite field_u128_bytes by apply as_unsigned_lt. cbn [mbind result_bind].
  by rewrite to_signed_as_unsigned.
Qed.

(** ** The canonical form of a cell reads back *)

Definition reads_back (v : Value) : Prop := wf_cell v -> cell_from (CodecFacts.canon (cell_value v)) = Ok v.

Lemma canon_int z : CodecFacts.canon (Codec.int z) = Codec.int z.
Proof. unfold Codec.int. by destruct (0 <=? z)%Z. Qed.

Lemma scalar_reads_back v : is_scalar v = true -> reads_back v.
Proof.
  intros Hs Hv. destruct v as [| | | | | | | | | | | | | | | | | | | | | |[o|o]| | |]; try discriminate Hs; clear Hs;
    cbn [cell_value CodecFacts.canon map cell_from scalar_from wf_cell] in *; rewrite ?canon_int;
    rewrite ?fields_int_int, ?field_i_int, ?field_u_uint, ?field_u128_bytes, ?field_i128_bytes
      by (done || by destruct Hv); try done;
    try (destruct Hv; cbn [mbind result_bind]; rewrite ?fields_int_int, ?field_u_uint by done; done).
  - cbn. unfold fixed. by rewrite bool_decide_eq_true_2.
  - cbn. unfold fixed. by rewrite bool_decide_eq_true_2.
Qed.

Lemma try_map_map {A B} (f : Codec.Value -> res B) (g : A -> Codec.Value) (h : A -> B) l :
  Forall (fun x => f (g x) = Ok (h x)) l -> try_map f (map g l) = Ok (map h l).
Proof. intros H. by apply (try_map_items f g h (fun x => f (g x) = Ok (h x))). Qed.

Lemma list_reads_back items : Forall reads_back items -> reads_back (VList items).
Proof.
  intros IH [_ Hv]%wf_VList. cbn [cell_value CodecFacts.canon map cell_from].
  rewrite map_map, (try_map_map _ _ id).
  - cbn [mbind result_bind fields_end]. by rewrite map_id.
  - apply Forall_forall. intros v Hin. rewrite Forall_forall in IH, Hv. by apply IH, Hv.
Qed.

Definition cell_pair (e : bytes * Value) : Codec.Value * Codec.Value := (Codec.Text e.1, cell_value e.2).

(** The entries of a map value in the order of their encoded keys, which is the order on the wire. *)
Definition wire_entries (entries : list (bytes * Value)) : list (bytes * Value) :=
  sort_by (fun e => CodecFacts.encoded (Codec.Text e.1)) entries.

Lemma canon_cell_map entries :
  CodecFacts.canon (Codec.Map (map cell_pair entries))
  = Codec.Map (map (fun e => (Codec.Text e.1, CodecFacts.canon (cell_value e.2))) (wire_entries entries)).
Proof.
  rewrite CodecFacts.canon_Map, (sort_by_map (fun e => CodecFacts.encoded (Codec.Text e.1))) by done.
  by rewrite map_map.
Qed.

Lemma btree_iter_wire entries :
  sorted_by fst entries -> btree_iter (collect_map (wire_entries entries)) = entries.
Proof.
  intros Hs. pose proof (sorted_by_NoDup fst _ Hs) as Hn.
  assert (NoDup (map fst (wire_entries entries))) as Hn' by (unfold wire_entries; by rewrite sort_by_perm).
  rewrite collect_map_nodup by done. apply (sorted_by_unique fst); [apply btree_iter_sorted|done|].
  intros e. rewrite btree_iter_list_to_map by done. unfold wire_entries. by rewrite sort_by_perm.
Qed.

Lemma map_reads_back entries : Forall (fun e => reads_back e.2) entries -> reads_back (VMap entries).
Proof.
  intros IH (_ & Hs & _ & Hv)%wf_VMap.
  change (CodecFacts.canon (cell_value (VMap entries)))
    with (Codec.Array [Codec.Uint 25; CodecFacts.canon (Codec.Map (map cell_pair entries))]).
  rewrite canon_cell_map. cbn [cell_from]. rewrite (try_map_fmap _ _ id).
  - cbn [mbind result_bind fields_end]. by rewrite list_fmap_id, btree_iter_wire.
  - intros [k v] Hin. unfold wire_entries in Hin. rewrite sort_by_perm in Hin.
    rewrite Forall_forall in IH, Hv. cbn [fst snd as_text mbind result_bind].
    pose proof (IH (k, v) Hin (Hv (k, v) Hin)) as E. cbn [snd] in E. by rewrite E.
Qed.

Lemma cell_reads_back v : reads_back v.
Proof. induction v using cell_ind; auto using scalar_reads_back, list_reads_back, map_reads_back. Qed.

(** ** Cells are values the codec encodes *)

Lemma encodable_cell v : wf_cell v -> CodecProps.encodable (cell_value v) = true.
Proof.
  induction v as [v Hs|items IH|entries IH] using cell_ind; intros Hv.
  - destruct v as [| | | | | | | | | | | | | | | | | | | | | |[o|o]| | |]; try discriminate Hs;
      cbn [cell_value CodecProps.encodable forallb andb]; unfold Codec.int; repeat case_match; done.
  - apply wf_VList in Hv as [_ Hv]. cbn [cell_value CodecProps.encodable forallb andb]. rewrite andb_true_r.
    apply forallb_map_true. intros v Hin. rewrite Forall_forall in IH, Hv. by apply IH, Hv.
  - apply wf_VMap in Hv as (_ & Hs & _ & Hv). cbn [cell_value CodecProps.encodable forallb andb].
    rewrite andb_true_r. apply andb_true_iff. split.
    + apply forallb_map_true. intros e Hin. rewrite Forall_forall in IH, Hv. simpl. by apply IH, Hv.
    + apply bool_decide_eq_true. rewrite map_map. cbn [fst].
      rewrite <-(map_map fst (fun k => CodecFacts.encoded (Codec.Text k))).
      apply (NoDup_fmap_2 (fun s => CodecFacts.encoded (Codec.Text s))). by apply (sorted_by_NoDup fst).
Qed.

Lemma wf_int z : (- 2 ^ 63 <= z < 2 ^ 63)%Z -> CodecFacts.wf_value (Codec.int z) = true.
Proof.
  intros Hz. unfold Codec.int. destruct (Z.leb_spec 0 z); cbn [CodecFacts.wf_value]; apply N.leb_le; unfold u64_max; lia.
Qed.

Lemma wf_uint n : n < 2 ^ 64 -> CodecFacts.wf_value (Codec.Uint n) = true.
Proof. intros Hn. cbn [CodecFacts.wf_value]. apply N.leb_le. unfold u64_max. lia. Qed.

Lemma wf_bytes b : Codec.len b < 2 ^ 64 -> CodecFacts.wf_value (Codec.Bytes b) = true.
Proof. intros Hn. cbn [CodecFacts.wf_value]. apply N.leb_le. unfold u64_max. lia. Qed.

Lemma wf_text s : valid_utf8 s = true -> Codec.len s < 2 ^ 64 -> CodecFacts.wf_value (Codec.Text s) = true.
Proof. intros Hu Hn. cbn [CodecFacts.wf_value]. rewrite Hu, andb_true_r. apply N.leb_le. unfold u64_max. lia. Qed.

Lemma wf_array items :
  Codec.len items < 2 ^ 64 -> forallb CodecFacts.wf_value items = true -> CodecFacts.wf_value (Codec.Array items) = true.
Proof. intros Hl Hi. apply CodecFacts.wf_Array. split; [unfold u64_max; lia|done]. Qed.

Lemma len_bytes_small (b : bytes) k : length b = k -> (k <= 16)%nat -> Codec.len b < 2 ^ 64.
Proof. intros <- H. unfold Codec.len. lia. Qed.

Lemma wf_cell_value v : wf_cell v -> CodecFacts.wf_value (cell_value v) = true.
Proof.
  induction v as [v Hs|items IH|entries IH] using cell_ind; intros Hv.
  - destruct v as [| | | | | | | | | | | | | | | | | | | | | |[o|o]| | |]; try discriminate Hs; clear Hs;
      cbn [cell_value wf_cell] in *; apply wf_array; try done; cbn [forallb];
      rewrite ?wf_int, ?wf_uint, ?wf_bytes, ?wf_text; try done; try lia; try (by destruct Hv); try (destruct Hv; lia);
      eapply len_bytes_small; (apply length_to_le_bytes || exact Hv || lia).
  - apply wf_VList in Hv as [Hl Hv]. cbn [cell_value]. apply wf_array; [done|]. cbn [forallb].
    rewrite wf_uint, andb_true_r by done. apply wf_array; [unfold Codec.len in *; by rewrite length_map|].
    apply forallb_map_true. intros v Hin. rewrite Forall_forall in IH, Hv. by apply IH, Hv.
  - apply wf_VMap in Hv as (Hl & _ & Hu & Hv). cbn [cell_value]. apply wf_array; [done|]. cbn [forallb].
    rewrite wf_uint, andb_true_r by done. apply CodecFacts.wf_Map.
    split; [unfold Codec.len, u64_max in *; rewrite length_map; lia|].
    apply forallb_map_true. intros e Hin. rewrite Forall_forall in IH, Hv, Hu. cbn [fst snd].
    destruct (Hu e Hin). rewrite wf_text by done. by apply IH, Hv.
Qed.

(** ** Every accepted cell is the form of the value it reads as *)

Lemma as_int_inv v z : as_int v = Ok z -> v = Codec.int z /\ (- 2 ^ 63 <= z < 2 ^ 63)%Z.
Proof.
  unfold as_int, Codec.int, i64_max. destruct v; try done.
  - destruct (N.leb_spec n (2 ^ 63 - 1)); [|done]. intros [= <-].
    destruct (Z.leb_spec 0 (Z.of_N n)); [|lia]. split; [f_equal|]; lia.
  - destruct (N.leb_spec n (2 ^ 63 - 1)); [|done]. intros [= <-].
    destruct (Z.leb_spec 0 (-1 - Z.of_N n)); [lia|]. split; [f_equal|]; lia.
Qed.

Lemma fields_int_inv f z f' : fields_int f = Ok (z, f') -> f = Codec.int z :: f' /\ (- 2 ^ 63 <= z < 2 ^ 63)%Z.
Proof. intros (v & -> & E%as_int_inv)%read_field_Ok. naive_solver. Qed.

Lemma fields_uint_inv f n f' : fields_uint f = Ok (n, f') -> f = Codec.Uint n :: f'.
Proof. intros (v & -> & ->%as_uint_Ok)%read_field_Ok. done. Qed.

Lemma field_i_inv w f z f' :
  field_i w f = Ok (z, f') -> f = Codec.int z :: f' /\ (- 2 ^ Z.of_N (w - 1) <= z < 2 ^ Z.of_N (w - 1))%Z.
Proof.
  unfold field_i. intros ([n g] & [-> _]%fields_int_inv & H)%bind_Ok. apply bind_Ok in H as (n' & H & [= <- <-]).
  unfold narrow_i in H. destruct (Z.leb_spec (- 2 ^ Z.of_N (w - 1)) n), (Z.ltb_spec n (2 ^ Z.of_N (w - 1))); naive_solver lia.
Qed.

Lemma field_u_inv w f n f' : field_u w f = Ok (n, f') -> f = Codec.Uint n :: f' /\ n < 2 ^ w.
Proof.
  unfold field_u. intros ([m g] & ->%fields_uint_inv & H)%bind_Ok. apply bind_Ok in H as (n' & H & [= <- <-]).
  unfold narrow_u in H. destruct (N.ltb_spec m (2 ^ w)); naive_solver.
Qed.

Lemma to_from_le_bytes b : length b = 16%nat -> to_le_bytes 16 (from_le_bytes b) = b /\ from_le_bytes b < 2 ^ 128.
Proof.
  intros Hl. unfold to_le_bytes, from_le_bytes. rewrite <-Hl, <-(length_reverse b), to_from_be_bytes, reverse_involutive.
  split; [done|]. pose proof (from_be_bytes_lt (reverse b)) as H. rewrite length_reverse, Hl in H. exact H.
Qed.

Lemma fixed_Ok k b c : fixed k b = Ok c <-> b = c /\ length c = k.
Proof. unfold fixed. case_bool_decide; naive_solver. Qed.

Lemma field_u128_inv f n f' : field_u128 f = Ok (n, f') -> f = Codec.Bytes (to_le_bytes 16 n) :: f' /\ n < 2 ^ 128.
Proof.
  unfold field_u128. intros ([b g] & (v & -> & ->%as_bytes_Ok)%read_field_Ok & H)%bind_Ok.
  apply bind_Ok in H as (c & [-> Hl]%fixed_Ok & [= <- <-]). destruct (to_from_le_bytes c Hl) as [-> H]. done.
Qed.

Lemma as_unsigned_to_signed n : n < 2 ^ 128 ->
  as_unsigned 128 (to_signed 128 n) = n /\ (- 2 ^ 127 <= to_signed 128 n < 2 ^ 127)%Z.
Proof.
  intros Hn. unfold as_unsigned, to_signed. change (2 ^ (128 - 1)) with (2 ^ 127). change (Z.of_N 128) with 128%Z.
  destruct (N.ltb_spec n (2 ^ 127)).
  - rewrite Z.mod_small by lia. split; lia.
  - assert ((Z.of_N n - 2 ^ 128) mod 2 ^ 128 = Z.of_N n)%Z as -> by (symmetry; apply (Z.mod_unique_pos _ _ (-1)); lia).
    split; lia.
Qed.

Lemma field_i128_inv f x f' :
  field_i128 f = Ok (x, f') ->
  f = Codec.Bytes (to_le_bytes 16 (as_unsigned 128 x)) :: f' /\ (- 2 ^ 127 <= x < 2 ^ 127)%Z.
Proof.
  unfold field_i128. intros ([n g] & [-> Hn]%field_u128_inv & [= <- <-])%bind_Ok.
  destruct (as_unsigned_to_signed n Hn) as [-> H]. done.
Qed.

(** [v] is what the fields before [f'] say under tag [t]. *)
Definition scalar_form (t : N) (f f' : Fields) (v : Value) : Prop :=
  wf_cell v /\ CodecFacts.canon (cell_value v) = cell_value v /\
  exists g, f = g ++ f' /\ cell_value v = Codec.Array (Codec.Uint t :: g).

Lemma field_with_Ok {A} (mk : A -> Value) r v f' :
  field_with mk r = Ok (v, f') -> exists a, r = Ok (a, f') /\ v = mk a.
Proof. unfold field_with. intros ([a g] & -> & [= <- <-])%bind_Ok. eauto. Qed.

(** Invert the reads of one arm of [scalar_from]. *)
Ltac invert_reads :=
  repeat match goal with
  | H : field_with _ _ = Ok _ |- _ => apply field_with_Ok in H as (? & H & ->)
  | H : (_ ≫= _) = Ok _ |- _ => apply bind_Ok in H as (? & ? & H)
  | H : (let '(_, _) := ?p in _) = Ok _ |- _ => destruct p
  | H : fields_uint _ = Ok _ |- _ => apply fields_uint_inv in H
  | H : fields_int _ = Ok _ |- _ => apply fields_int_inv in H as [H ?]
  | H : field_u _ _ = Ok _ |- _ => apply field_u_inv in H as [H ?]
  | H : field_i _ _ = Ok _ |- _ => apply field_i_inv in H as [H ?]
  | H : field_u128 _ = Ok _ |- _ => apply field_u128_inv in H as [H ?]
  | H : field_i128 _ = Ok _ |- _ => apply field_i128_inv in H as [H ?]
  | H : fields_bytes _ = Ok _ |- _ => apply read_field_Ok in H as (? & H & ->%as_bytes_Ok)
  | H : fields_text _ = Ok _ |- _ => apply read_field_Ok in H as (? & H & ->%as_text_Ok)
  | H : fields_bool _ = Ok _ |- _ => apply read_field_Ok in H as (? & H & ?)
  | H : fixed _ _ = Ok _ |- _ => apply fixed_Ok in H as [-> ?]
  end.

Lemma inet_inv family (octets : bytes) (f f' : Fields) v :
  match family with
  | 4 => octets ← fixed 4 octets; Ok (VInet (V4 octets), f)
  | 6 => octets ← fixed 16 octets; Ok (VInet (V6 octets), f)
  | _ => Err Error.CorruptObject
  end = Ok (v, f') ->
  f = f' /\ ((family = 4 /\ v = VInet (V4 octets) /\ length octets = 4%nat) \/
            (family = 6 /\ v = VInet (V6 octets) /\ length octets = 16%nat)).
Proof.
  destruct family as [|p]; [done|]. destruct (decide (p = 4%positive)) as [->|H4].
  { intros (o & [-> Hl]%fixed_Ok & [= <- <-])%bind_Ok. eauto. }
  destruct (decide (p = 6%positive)) as [->|H6].
  { intros (o & [-> Hl]%fixed_Ok & [= <- <-])%bind_Ok. eauto. }
  repeat (destruct p as [p|p|]; try done).
Qed.

Lemma as_bool_inv v b : as_bool v = Ok b -> v = Codec.Bool b.
Proof. destruct v; simpl; naive_solver. Qed.

Definition small (v : Codec.Value) : Prop := CodecFacts.wf_value v = true.

Lemma scalar_from_inv t f v f' :
  Forall small f -> scalar_from t f = Ok (v, f') -> scalar_form t f f' v.
Proof.
  intros Hf H. unfold scalar_from in H.
  repeat match type of H with
  | match ?t with N0 => _ | Npos _ => _ end = _ => destruct t
  | match ?p with xI _ => _ | xO _ => _ | xH => _ end = _ => destruct p
  end; try discriminate H; invert_reads; try (apply inet_inv in H as (-> & [(-> & -> & ?)|(-> & -> & ?)]));
    simplify_eq; repeat (apply Forall_cons in Hf as [?Hv Hf]); unfold small in *;
    repeat match goal with H : as_bool _ = Ok _ |- _ => apply as_bool_inv in H; subst end;
    (split; [|split; [cbn [cell_value CodecFacts.canon map]; by rewrite ?canon_int|];
              cbn [cell_value]; eexists; split; [|reflexivity]; reflexivity]).
  all: cbn [wf_cell CodecFacts.wf_value] in *; rewrite ?andb_true_iff, ?N.leb_le in *; unfold u64_max in *.
  all: repeat match goal with H : _ /\ _ |- _ => destruct H end; split_and?; (done || lia).
Qed.

(** A value as the decoder returns it. *)
Definition canonical_value (c : Codec.Value) : Prop :=
  CodecFacts.wf_value c = true /\ CodecProps.encodable c = true /\ CodecFacts.canon c = c.

Lemma canonical_items items :
  canonical_value (Codec.Array items) -> Codec.len items < 2 ^ 64 /\ Forall canonical_value items.
Proof.
  intros ([Hl Hw]%CodecFacts.wf_Array & He & Hc). split; [unfold u64_max in Hl; lia|].
  cbn [CodecProps.encodable CodecFacts.canon] in He, Hc. injection Hc as Hc.
  apply Forall_forall. intros c Hin. split_and!.
  - rewrite forallb_forall in Hw. by apply Hw, list_elem_of_In.
  - rewrite forallb_forall in He. by apply He, list_elem_of_In.
  - apply list_elem_of_lookup in Hin as [i Hi]. pose proof (f_equal (lookup i) Hc) as E.
    rewrite list_lookup_fmap, Hi in E. by injection E.
Qed.

(** In a canonical map with text keys the pairs are in the order of their encoded keys. *)
Lemma canonical_text_pairs pairs :
  canonical_value (Codec.Map pairs) -> Forall (fun kv => exists k, kv.1 = Codec.Text k) pairs ->
  sorted_by (fun kv => CodecFacts.encoded kv.1) pairs /\
  Forall (fun kv => CodecFacts.wf_value kv.1 = true /\ canonical_value kv.2) pairs.
Proof.
  intros ([_ Hw]%CodecFacts.wf_Map & He & Hc) Ht.
  cbn [CodecProps.encodable] in He. apply andb_true_iff in He as [He Hn%bool_decide_eq_true].
  rewrite CodecFacts.canon_Map in Hc. injection Hc as Hc. set (enc := fun kv : Codec.Value * Codec.Value => CodecFacts.encoded kv.1) in *.
  assert (map enc (sort_by enc pairs) = map enc pairs) as Hk.
  { rewrite <-Hc at 2. rewrite map_map. apply map_ext_in. intros kv Hin%list_elem_of_In.
    rewrite sort_by_perm in Hin. rewrite Forall_forall in Ht. destruct (Ht kv Hin) as [k E].
    unfold enc, CodecFacts.canon_pair. cbn [fst]. by rewrite E. }
  assert (sorted_by enc pairs) as Hs.
  { pose proof (sorted_by_no_dup enc _ (sort_by_sorted enc pairs) (proj2 (adjacent_dup_sort enc pairs) Hn)) as H.
    apply (sorted_by_map enc id enc) in H; [|done]. rewrite Hk in H. by apply (sorted_by_map enc id enc) in H. }
  split; [done|]. rewrite sort_by_id in Hc by done. apply Forall_forall. intros kv Hin. split_and!.
  - rewrite forallb_forall in Hw. apply list_elem_of_In, Hw, andb_true_iff in Hin. by destruct Hin.
  - split_and!.
    + rewrite forallb_forall in Hw. apply list_elem_of_In, Hw, andb_true_iff in Hin. by destruct Hin.
    + rewrite forallb_forall in He. apply list_elem_of_In, He, andb_true_iff in Hin. by destruct Hin.
    + apply list_elem_of_lookup in Hin as [i Hi]. pose proof (f_equal (lookup i) Hc) as E.
      rewrite list_lookup_fmap, Hi in E. destruct kv. by injection E.
Qed.

(** [c] is the form of the value it reads as. *)
Definition form_of (c : Codec.Value) : Prop :=
  forall v, canonical_value c -> cell_from c = Ok v -> wf_cell v /\ CodecFacts.canon (cell_value v) = c.

Lemma form_of_list items (f : Fields) (v : Value * Fields) :
  Forall form_of items -> canonical_value (Codec.Array items) ->
  (vs ← try_map cell_from items; Ok (VList vs, f) : res (Value * Fields)) = Ok v -> v.2 = f /\ wf_cell v.1 /\
  CodecFacts.canon (cell_value v.1) = Codec.Array [Codec.Uint 24; Codec.Array items].
Proof.
  intros IH Hc (vs & Hvs & [= <-])%bind_Ok. cbn [fst snd]. apply canonical_items in Hc as [Hl Hc].
  apply try_map_Ok in Hvs. split; [done|].
  assert (Forall wf_cell vs /\ map CodecFacts.canon (map cell_value vs) = items) as [Hw E].
  { clear Hl. induction Hvs as [|c w items vs Hw _ IHl]; [done|].
    apply Forall_cons in IH as [Hf IH]. apply Forall_cons in Hc as [Hc1 Hc].
    destruct (IHl IH Hc) as [Hws E]. destruct (Hf w Hc1 Hw) as [Hwf Ec]. split; [by constructor|].
    cbn [map]. by rewrite Ec, E. }
  split; [|cbn [cell_value CodecFacts.canon map]; by rewrite E].
  apply wf_VList. split; [|done]. rewrite <-E in Hl. unfold Codec.len in *. by rewrite !length_map in Hl.
Qed.

Lemma form_of_entries pairs es :
  Forall (fun kv => form_of kv.2) pairs ->
  Forall (fun kv => CodecFacts.wf_value kv.1 = true /\ canonical_value kv.2) pairs ->
  Forall2 (fun kv e => (k ← as_text kv.1; v ← cell_from kv.2; Ok (k, v) : res (bytes * Value)) = Ok e) pairs es ->
  Forall (fun e => valid_utf8 e.1 = true /\ Codec.len e.1 < 2 ^ 64) es /\ Forall (fun e => wf_cell e.2) es /\
  map (fun e => (Codec.Text e.1, CodecFacts.canon (cell_value e.2))) es = pairs.
Proof.
  intros IH Hc H. induction H as [|[ck cv] [k v] pairs es H _ IHl]; [done|].
  apply Forall_cons in IH as [Hf IH]. apply Forall_cons in Hc as [[Hk Hv] Hc].
  destruct (IHl IH Hc) as (H1 & H2 & E). cbn [fst snd] in *.
  apply bind_Ok in H as (k' & ->%as_text_Ok & H). apply bind_Ok in H as (v' & H & [= -> ->]).
  destruct (Hf v Hv H) as [Hwf Ec]. cbn [CodecFacts.wf_value] in Hk.
  apply andb_true_iff in Hk as [Hl%N.leb_le Hu]. split_and!.
  - constructor; [|done]. split; [done|]. cbn [fst]. unfold u64_max in Hl. lia.
  - by constructor.
  - cbn [map fst snd]. by rewrite Ec, E.
Qed.

Lemma form_of_map pairs es :
  Forall (fun kv => form_of kv.2) pairs -> canonical_value (Codec.Map pairs) ->
  Forall2 (fun kv e => (k ← as_text kv.1; v ← cell_from kv.2; Ok (k, v) : res (bytes * Value)) = Ok e) pairs es ->
  let v := VMap (btree_iter (collect_map es)) in
  wf_cell v /\ CodecFacts.canon (cell_value v) = Codec.Array [Codec.Uint 25; Codec.Map pairs].
Proof.
  intros IH Hc H. destruct (canonical_text_pairs pairs Hc) as [Hs Hp].
  { clear -H. induction H as [|kv e pairs es H _ IHl]; constructor; [|done].
    apply bind_Ok in H as (k & ->%as_text_Ok & _). eauto. }
  destruct (form_of_entries pairs es IH Hp H) as (Hu & Hw & E). set (enc := fun e : bytes * Value => CodecFacts.encoded (Codec.Text e.1)).
  rewrite <-E in Hs. apply (sorted_by_map enc) in Hs; [|done].
  assert (NoDup (map fst es)) as Hn.
  { apply (sorted_by_NoDup enc) in Hs. unfold enc in Hs. rewrite <-(map_map fst (fun k => CodecFacts.encoded (Codec.Text k))) in Hs.
    by apply (NoDup_fmap_1 (fun s => CodecFacts.encoded (Codec.Text s))) in Hs. }
  assert (btree_iter (collect_map es) ≡ₚ es) as Hb by (rewrite collect_map_nodup by done; by apply btree_iter_list_to_map).
  cbv zeta. split.
  - apply wf_VMap. split_and!; [|apply btree_iter_sorted|by rewrite Hb..].
    destruct Hc as ([Hl _]%CodecFacts.wf_Map & _). unfold Codec.len, u64_max in *.
    rewrite Hb, (Forall2_length _ _ _ H) in *. lia.
  - set (b := btree_iter (collect_map es)) in *.
    change (CodecFacts.canon (cell_value (VMap b)))
      with (Codec.Array [Codec.Uint 25; CodecFacts.canon (Codec.Map (map cell_pair b))]).
    rewrite canon_cell_map. unfold wire_entries. fold enc.
    rewrite (sort_by_perm_eq enc b es), sort_by_id, E; [done..|].
    eapply sorted_by_NoDup in Hs. by rewrite Hb.
Qed.

Lemma cell_from_scalar t f v :
  Forall small f ->
  ('(value, f) ← scalar_from t f; _ ← fields_end f; Ok value) = Ok v ->
  wf_cell v /\ CodecFacts.canon (cell_value v) = Codec.Array (Codec.Uint t :: f).
Proof.
  intros Hf H. apply bind_Ok in H as ([w f'] & H & Hend). apply bind_Ok in Hend as ([] & ->%fields_end_Ok & [= ->]).
  apply scalar_from_inv in H as (Hw & Hc & g & -> & E); [|done]. by rewrite Hc, app_nil_r.
Qed.

Definition form_of_parts (c : Codec.Value) : Prop :=
  match c with
  | Codec.Array items => Forall form_of items
  | Codec.Map pairs => Forall (fun kv => form_of kv.2) pairs
  | _ => True
  end.

Lemma cell_from_cases t f :
  (t = 24 /\ exists items f', f = Codec.Array items :: f') \/ (t = 25 /\ exists pairs f', f = Codec.Map pairs :: f') \/
  cell_from (Codec.Array (Codec.Uint t :: f)) = ('(value, f) ← scalar_from t f; _ ← fields_end f; Ok value).
Proof.
  destruct (decide (t = 24)) as [->|H24].
  { destruct f as [|[] f]; auto. left. eauto. }
  destruct (decide (t = 25)) as [->|H25].
  { destruct f as [|[] f]; auto. right. left. eauto. }
  right. right. cbn [cell_from]. f_equal. repeat case_match; done.
Qed.

Lemma form_of_array items : Forall form_of_parts items -> form_of (Codec.Array items).
Proof.
  intros IH v Hc H. destruct items as [|[t| | | | | | | |] f]; try discriminate H. apply Forall_cons in IH as [_ IH].
  destruct (canonical_items _ Hc) as [_ Hf]. apply Forall_cons in Hf as [_ Hf].
  assert (Forall small f) as Hsm by (eapply Forall_impl; [exact Hf|]; by intros c (? & _)).
  destruct (cell_from_cases t f) as [(-> & items & f' & ->)|[(-> & pairs & f' & ->)|E]].
  - cbn [cell_from] in H. apply bind_Ok in H as ([w g] & H & Hend). apply bind_Ok in Hend as ([] & ->%fields_end_Ok & [= ->]).
    apply Forall_cons in IH as [IH _]. apply Forall_cons in Hf as [Hf _].
    apply form_of_list in H as (E & Hw & Ec); [|done..]. cbn [fst snd] in *. by subst f'.
  - cbn [cell_from] in H. apply bind_Ok in H as ([w g] & H & Hend). apply bind_Ok in Hend as ([] & ->%fields_end_Ok & [= ->]).
    apply bind_Ok in H as (es & Hes & [= <- ->]). apply Forall_cons in IH as [IH _]. apply Forall_cons in Hf as [Hf _].
    apply try_map_Ok in Hes. by apply form_of_map.
  - rewrite E in H. by apply cell_from_scalar.
Qed.

Lemma cell_form c : form_of c.
Proof.
  cut (form_of c /\ form_of_parts c); [by intros [? _]|].
  induction c as [| | | |items IH|pairs IH| | |] using CodecFacts.value_ind_nested; try (split; [by intros v _ H|done]).
  - split; [apply form_of_array|]; (eapply Forall_impl; [exact IH|]; by intros c []).
  - split; [by intros v _ H|]. eapply Forall_impl; [exact IH|]. by intros kv [_ []].
Qed.

(** ** Rows *)

Definition row_value (row : Row) : Codec.Value := Codec.Array (map cell_value row).

Definition wf_row (row : Row) : Prop := Codec.len row < 2 ^ 64 /\ Forall wf_cell row.

Lemma wf_row_value row : wf_row row -> CodecFacts.wf_value (row_value row) = true.
Proof.
  intros [Hl Hr]. apply wf_array; [unfold Codec.len in *; by rewrite length_map|].
  apply forallb_map_true. intros v Hin. rewrite Forall_forall in Hr. by apply wf_cell_value, Hr.
Qed.

Lemma encode_row_Ok row : Forall wf_cell row -> Codec.encode (row_value row) = Ok (encode_row row).
Proof.
  intros Hr. pose proof (CodecProps.encode_outcome_all (row_value row)) as H. unfold CodecProps.encode_outcome in H.
  assert (CodecProps.encodable (row_value row) = true) as He.
  { cbn [row_value CodecProps.encodable]. apply forallb_map_true. intros v Hin.
    rewrite Forall_forall in Hr. by apply encodable_cell, Hr. }
  rewrite He in H. rewrite H. unfold encode_row, cbor_encode. fold (row_value row). by rewrite H.
Qed.

Lemma cells_read_back row :
  Forall wf_cell row -> try_map cell_from (map CodecFacts.canon (map cell_value row)) = Ok row.
Proof.
  intros Hr. rewrite map_map, (try_map_map _ _ id); [by rewrite map_id|].
  eapply Forall_impl; [exact Hr|]. intros v Hv. by apply cell_reads_back.
Qed.

Lemma decode_row_Ok arity b row :
  decode_row arity b = Ok row <->
  exists items, Codec.decode b = Ok (Codec.Array items) /\ length items = arity /\ try_map cell_from items = Ok row.
Proof.
  unfold decode_row. rewrite bind_Ok. setoid_rewrite decode_array_Ok. split.
  - intros (items & Hd & H). case_bool_decide; [|done]. eauto.
  - intros (items & Hd & Hl & H). exists items. by rewrite bool_decide_eq_true_2.
Qed.

Lemma decode_encode_row row :
  wf_row row -> Codec.len (encode_row row) <= u64_max -> (CodecFacts.depth (row_value row) <= Codec.MAX_DEPTH)%nat ->
  decode_row (length row) (encode_row row) = Ok row.
Proof.
  intros Hr Hl Hd. apply decode_row_Ok. exists (map CodecFacts.canon (map cell_value row)).
  pose proof (CodecFacts.decode_encoding _ _ [] (wf_row_value row Hr) (encode_row_Ok row (proj2 Hr))) as H.
  rewrite app_nil_r in H. rewrite (H Hl), (proj2 (Nat.leb_le _ _) Hd), bool_decide_eq_true_2 by done.
  split; [done|]. rewrite !length_map. split; [done|]. apply cells_read_back, Hr.
Qed.

Lemma encode_decode_row arity b row :
  decode_row arity b = Ok row -> wf_row row /\ length row = arity /\ encode_row row = b.
Proof.
  intros (items & Hd & Hl & Hm)%decode_row_Ok.
  apply CodecFacts.decode_canonical in Hd as (He & Hw & Hc & _).
  assert (canonical_value (Codec.Array items)) as Hcan.
  { split_and!; [done| |done]. pose proof (CodecProps.encode_outcome_all (Codec.Array items)) as H.
    unfold CodecProps.encode_outcome, CodecProps.encode_fails in H.
    destruct (CodecProps.encodable (Codec.Array items)); [done|]. rewrite He in H. naive_solver. }
  apply canonical_items in Hcan as [Hlen Hcan]. apply try_map_Ok in Hm.
  assert (Forall wf_cell row /\ map CodecFacts.canon (map cell_value row) = items) as [Hr E].
  { clear -Hm Hcan. induction Hm as [|c v items row Hv _ IH]; [done|].
    apply Forall_cons in Hcan as [Hc Hcan]. destruct (IH Hcan) as [Hr E].
    destruct (cell_form c v Hc Hv) as [Hw Ec]. split; [by constructor|]. cbn [map]. by rewrite Ec, E. }
  apply Forall2_length in Hm as Hlm. split_and!; [split; [unfold Codec.len in *; by rewrite Hlm in Hlen|done]|congruence|].
  pose proof (CodecProps.encode_canon _ _ (encode_row_Ok row Hr)) as H. unfold row_value in H.
  cbn [CodecFacts.canon] in H. rewrite E, He in H. by injection H.
Qed.

(** A row and its bytes determine each other: bytes decode as a row exactly when they are the
    encoding of that row, the row has the arity asked for, is made of values of the cell types, and
    nests no deeper than the codec reads. *)
Theorem tabular_row_codec arity b row :
  Codec.len b <= u64_max ->
  decode_row arity b = Ok row <->
  wf_row row /\ length row = arity /\ (CodecFacts.depth (row_value row) <= Codec.MAX_DEPTH)%nat /\ encode_row row = b.
Proof.
  intros Hl. split.
  - intros H. apply encode_decode_row in H as H'. destruct H' as (Hr & Ha & Hb). split_and!; try done.
    subst b arity. apply decode_row_Ok in H as (items & H & _).
    apply CodecFacts.decode_canonical in H as H'. destruct H' as (_ & _ & _ & Hd).
    pose proof (CodecFacts.decode_encoding _ _ [] (wf_row_value row Hr) (encode_row_Ok row (proj2 Hr))) as E.
    rewrite app_nil_r in E. rewrite (E Hl) in H. destruct (Nat.leb_spec (CodecFacts.depth (row_value row)) Codec.MAX_DEPTH); done.
  - intros (Hr & <- & Hd & <-). by apply decode_encode_row.
Qed.

Definition sample_row : Row :=
  [VInt (-7); VDecimal 150 2; VMap [(str "aa", VList [VBool true; VNull]); (str "b", VText (str "x"))]; VI128 (-1)].

Lemma sample_row_wf : wf_row sample_row.
Proof.
  split; [done|]. unfold sample_row. rewrite !Forall_cons, wf_VMap, !Forall_cons. cbn [fst snd]. rewrite wf_VList, !Forall_cons.
  split_and!; lazymatch goal with
    | |- sorted_by _ _ => repeat constructor
    | |- Forall _ [] => apply Forall_nil_2
    | |- _ => vm_compute; done
    end.
Qed.

Lemma tabular_row_codec_witness : decode_row 4 (encode_row sample_row) = Ok sample_row.
Proof.
  apply (tabular_row_codec 4); [by vm_compute|]. split_and!; [apply sample_row_wf|done| |done].
  apply Nat.leb_le. by vm_compute.
Defined.

End TabularCells.
