(* ===== verification/Schema.v ===== *)
(** * Table schemas (crates/loom-core/src/tabular.rs, [IndexDef] and [Schema])

    A [usize] column index is an [N]; a [String] is its UTF-8 bytes. *)

From S2P Require Import Prelude Types Codec CodecFacts CodecProps Cbor Object ObjectProps Tabular TabularCells.

Module Schema.
Import Error Cbor ObjectProps Tabular.

Record IndexDef : Type := mkIndexDef {
  i_name : bytes;
  i_columns : list N;
  i_unique : bool;
}.

Record Schema : Type := mkSchema {
  columns : list (bytes * ColumnType);
  primary_key : list N;
  indexes : list IndexDef;
}.

#[global] Instance ColumnType_eq_dec : EqDecision ColumnType.
Proof. solve_decision. Defined.

(** [Schema::new] *)
Definition schema_new (cols : list (bytes * ColumnType)) (pk : list N) : res Schema :=
  if bool_decide (cols = []) then Err InvalidArgument
  else if bool_decide (pk = []) then Err InvalidArgument
  else if existsb (fun i => Codec.len cols <=? i) pk then Err InvalidArgument
  else Ok (mkSchema cols pk []).

Definition arity (s : Schema) : nat := length (columns s).

(** [columns.iter().position(|(n, _)| n == name)] *)
Fixpoint position_of (name : bytes) (cols : list (bytes * ColumnType)) (i : N) : option N :=
  match cols with
  | [] => None
  | c :: cols => if bool_decide (c.1 = name) then Some i else position_of name cols (i + 1)
  end.

Definition column (s : Schema) (name : bytes) : option N := position_of name (columns s) 0.

(** [Schema::index] *)
Definition index (s : Schema) (name : bytes) : option IndexDef :=
  snd <$> list_find (fun i => i_name i = name) (indexes s).

Definition with_index (s : Schema) (name : bytes) (cols : list bytes) (unique : bool) : res Schema :=
  if bool_decide (name = []) then Err InvalidArgument
  else if existsb (fun i => bool_decide (i_name i = name)) (indexes s) then Err InvalidArgument
  else if bool_decide (cols = []) then Err InvalidArgument
  else
    cols ← try_map (fun c => ok_or (column s c) InvalidArgument) cols;
    Ok (mkSchema (columns s) (primary_key s) (sort_by i_name (indexes s ++ [mkIndexDef name cols unique]))).

(** [Schema::check_row] *)
Definition check_row (s : Schema) (row : Row) : res unit :=
  if negb (bool_decide (length row = arity s)) then Err InvalidArgument
  else if forallb (fun p => matches_type p.1 p.2.2) (zip row (columns s)) then Ok ()
  else Err InvalidArgument.

(** ** The stored form *)

Definition column_value (c : bytes * ColumnType) : Codec.Value := Codec.Array [Codec.Text c.1; Codec.Uint (tag c.2)].
Definition index_value (i : IndexDef) : Codec.Value :=
  Codec.Array [Codec.Text (i_name i); Codec.Array (map Codec.Uint (i_columns i)); Codec.Bool (i_unique i)].

Definition to_cbor (s : Schema) : Codec.Value :=
  Codec.Array [Codec.Array (map column_value (columns s)); Codec.Array (map Codec.Uint (primary_key s));
    Codec.Array (map index_value (indexes s))].

(** [as_u8] of tabular/codec.rs; [as_usize] accepts every [u64] on a 64-bit target. *)
Definition column_from (col : Codec.Value) : res (bytes * ColumnType) :=
  cf ← as_array col;
  '(name, cf) ← fields_text cf;
  '(t, cf) ← fields_uint cf;
  t ← narrow_u 8 t;
  ty ← from_tag t;
  _ ← fields_end cf;
  Ok (name, ty).

Definition index_column_from (n : N) (c : Codec.Value) : res N :=
  col ← as_uint c;
  if n <=? col then Err CorruptObject else Ok col.

Definition index_from (n : N) (idx : Codec.Value) : res IndexDef :=
  xf ← as_array idx;
  '(name, xf) ← fields_text xf;
  '(cols_raw, xf) ← fields_array xf;
  '(unique, xf) ← fields_bool xf;
  _ ← fields_end xf;
  cols ← try_map (index_column_from n) cols_raw;
  Ok (mkIndexDef name cols unique).

Definition from_cbor (value : Codec.Value) : res Schema :=
  f ← as_array value;
  '(columns_raw, f) ← fields_array f;
  '(pk_raw, f) ← fields_array f;
  '(indexes_raw, f) ← fields_array f;
  _ ← fields_end f;
  cols ← try_map column_from columns_raw;
  pk ← try_map as_uint pk_raw;
  schema ← schema_new cols pk;
  idx ← try_map (index_from (Codec.len cols)) indexes_raw;
  Ok (mkSchema (columns schema) (primary_key schema) idx).

(** [Schema::encode] and [Schema::decode] *)
Definition schema_encode (s : Schema) : bytes := cbor_encode (to_cbor s).
Definition schema_decode (b : bytes) : res Schema := v ← cbor_decode b; from_cbor v.

(** ** Well-formed schemas *)

Definition wf_name (n : bytes) : Prop := valid_utf8 n = true /\ Codec.len n < 2 ^ 64.

Definition wf_index (n : N) (i : IndexDef) : Prop :=
  wf_name (i_name i) /\ Codec.len (i_columns i) < 2 ^ 64 /\ Forall (fun c => c < n) (i_columns i).

Definition wf_schema (s : Schema) : Prop :=
  columns s <> [] /\ primary_key s <> [] /\
  Codec.len (columns s) < 2 ^ 64 /\ Codec.len (primary_key s) < 2 ^ 64 /\ Codec.len (indexes s) < 2 ^ 64 /\
  Forall (fun c => wf_name c.1) (columns s) /\
  Forall (fun i => i < Codec.len (columns s)) (primary_key s) /\
  Forall (wf_index (Codec.len (columns s))) (indexes s).

(** What [with_index] keeps besides: named, distinct, non-empty indexes in the order of their names. *)
Definition declared_indexes (s : Schema) : Prop :=
  sorted_by i_name (indexes s) /\ Forall (fun i => i_name i <> [] /\ i_columns i <> []) (indexes s).

(** ** Construction *)

Lemma existsb_ge n (l : list N) : existsb (fun i => n <=? i) l = false <-> Forall (fun i => i < n) l.
Proof.
  induction l as [|i l IH]; simpl; [split; [constructor|done]|].
  rewrite orb_false_iff, IH, Forall_cons, N.leb_gt. done.
Qed.

Lemma schema_new_Ok cols pk s :
  schema_new cols pk = Ok s <->
  cols <> [] /\ pk <> [] /\ Forall (fun i => i < Codec.len cols) pk /\ s = mkSchema cols pk [].
Proof.
  unfold schema_new. repeat case_bool_decide; try naive_solver.
  destruct (existsb _ pk) eqn:E.
  - split; [done|]. intros (_ & _ & E'%existsb_ge & _). congruence.
  - apply existsb_ge in E. naive_solver.
Qed.

Lemma position_of_lt name cols i j : position_of name cols i = Some j -> j < i + Codec.len cols.
Proof.
  revert i. unfold Codec.len. induction cols as [|c cols IH]; intros i; [done|]. cbn [position_of length].
  case_bool_decide; [intros [= <-]; lia|]. intros Hp%IH. lia.
Qed.

Lemma column_lt s name j : column s name = Some j -> j < Codec.len (columns s).
Proof. apply position_of_lt. Qed.

Lemma with_index_Ok s name cols unique s' :
  with_index s name cols unique = Ok s' <->
  name <> [] /\ Forall (fun i => i_name i <> name) (indexes s) /\ cols <> [] /\
  exists js, Forall2 (fun c j => column s c = Some j) cols js /\
    s' = mkSchema (columns s) (primary_key s) (sort_by i_name (indexes s ++ [mkIndexDef name js unique])).
Proof.
  unfold with_index. case_bool_decide as Hn; [naive_solver|].
  assert (existsb (fun i => bool_decide (i_name i = name)) (indexes s) = false <-> Forall (fun i => i_name i <> name) (indexes s)) as He.
  { induction (indexes s) as [|i l IH]; simpl; [split; [constructor|done]|].
    rewrite orb_false_iff, IH, Forall_cons, bool_decide_eq_false. done. }
  destruct (existsb _ _); [naive_solver|]. case_bool_decide; [naive_solver|]. rewrite bind_Ok. split.
  - intros (js & Hj%try_map_Ok & [= <-]). split_and!; [done|by apply He|done|]. exists js. split; [|done].
    eapply Forall2_impl; [exact Hj|]. intros c j Hc. by apply ok_or_Ok in Hc.
  - intros (_ & _ & _ & js & Hj & ->). exists js. split; [|done]. apply try_map_Ok.
    eapply Forall2_impl; [exact Hj|]. intros c j Hc. by rewrite Hc.
Qed.

Lemma columns_below s cols js :
  Forall2 (fun c j => column s c = Some j) cols js -> Forall (fun j => j < Codec.len (columns s)) js.
Proof. induction 1 as [|c j cols js Hc _ IH]; constructor; [by eapply column_lt|done]. Qed.

Lemma sort_indexes_sorted l : NoDup (map i_name l) -> sorted_by i_name (sort_by i_name l).
Proof. intros H. apply sorted_by_no_dup; [apply sort_by_sorted|by apply adjacent_dup_sort]. Qed.

Lemma with_index_keeps s name cols unique s' :
  wf_schema s -> declared_indexes s -> wf_name name -> Codec.len cols < 2 ^ 64 -> Codec.len (indexes s) + 1 < 2 ^ 64 ->
  with_index s name cols unique = Ok s' -> wf_schema s' /\ declared_indexes s'.
Proof.
  intros (H1 & H2 & H3 & H4 & H5 & H6 & H7 & H8) [Hs Hd] Hn Hc Hl (Hne & Hx & Hcols & js & Hj & ->)%with_index_Ok.
  assert (Codec.len js = Codec.len cols) as Hjs by (unfold Codec.len; by rewrite (Forall2_length _ _ _ Hj)).
  pose proof (columns_below _ _ _ Hj) as Hb. split.
  - repeat (split; [done|]). cbn [columns primary_key indexes]. split_and!; try done.
    + unfold Codec.len in *. rewrite length_sort_by, length_app. simpl. lia.
    + rewrite sort_by_perm. apply Forall_app. split; [done|]. constructor; [|done].
      split_and!; [apply Hn..|cbn [i_columns]; lia|done].
  - split; cbn [indexes].
    + apply sort_indexes_sorted. rewrite map_app. apply NoDup_app. split_and!.
      * by apply (sorted_by_NoDup i_name).
      * intros n Hin%list_elem_of_fmap [= ->]%list_elem_of_singleton. destruct Hin as (i & Hi & Hin).
        rewrite Forall_forall in Hx. by destruct (Hx i Hin).
      * apply NoDup_singleton.
    + rewrite sort_by_perm. apply Forall_app. split; [done|]. constructor; [|done]. cbn [i_name i_columns].
      split; [done|]. intros ->. inversion Hj; subst. done.
Qed.

(** ** Round trip *)

Lemma tag_roundtrip ty : from_tag (tag ty) = Ok ty /\ tag ty < 2 ^ 8.
Proof. by destruct ty. Qed.

Lemma from_tag_inv t ty : from_tag t = Ok ty -> t = tag ty.
Proof.
  unfold from_tag. intros H.
  repeat match type of H with
  | match ?t with N0 => _ | Npos _ => _ end = _ => destruct t
  | match ?p with xI _ => _ | xO _ => _ | xH => _ end = _ => destruct p
  end; by try injection H as <-.
Qed.

Lemma column_from_value c : column_from (column_value c) = Ok c.
Proof.
  destruct c as [name ty]. destruct (tag_roundtrip ty) as [H1 H2].
  unfold column_from, narrow_u. cbn [column_value as_array mbind result_bind fields_text fields_uint read_field next_field as_text as_uint fst snd].
  rewrite (proj2 (N.ltb_lt _ _) H2). cbn [mbind result_bind]. by rewrite H1.
Qed.

Lemma column_from_inv v c : column_from v = Ok c -> v = column_value c.
Proof.
  unfold column_from. intros (cf & ->%as_array_Ok & H)%bind_Ok.
  apply bind_Ok in H as ([name g] & (x & -> & ->%as_text_Ok)%read_field_Ok & H).
  apply bind_Ok in H as ([t g'] & ->%TabularCells.fields_uint_inv & H).
  apply bind_Ok in H as (t' & Ht & H). apply bind_Ok in H as (ty & ->%from_tag_inv & H).
  apply bind_Ok in H as ([] & ->%fields_end_Ok & [= <-]).
  unfold narrow_u in Ht. destruct (t <? 2 ^ 8); [|done]. by injection Ht as ->.
Qed.

Lemma index_from_value n i : wf_index n i -> index_from n (index_value i) = Ok i.
Proof.
  intros (_ & _ & Hc). unfold index_from. cbn [index_value as_array mbind result_bind fields_text fields_array fields_bool
    read_field next_field as_text as_array as_bool fields_end].
  rewrite (try_map_items _ _ id (fun c => c < n)), map_id; [by destruct i| |done].
  intros c Hlt. unfold index_column_from. cbn [as_uint mbind result_bind].
  by rewrite (proj2 (N.leb_gt _ _)).
Qed.

Lemma index_from_inv n v i : index_from n v = Ok i -> v = index_value i /\ Forall (fun c => c < n) (i_columns i).
Proof.
  unfold index_from. intros (xf & ->%as_array_Ok & H)%bind_Ok.
  apply bind_Ok in H as ([name g] & (x & -> & ->%as_text_Ok)%read_field_Ok & H).
  apply bind_Ok in H as ([cs g'] & (x & -> & ->%as_array_Ok)%read_field_Ok & H).
  apply bind_Ok in H as ([u g''] & (x & -> & ->%TabularCells.as_bool_inv)%read_field_Ok & H).
  apply bind_Ok in H as ([] & ->%fields_end_Ok & H). apply bind_Ok in H as (cols & Hc%try_map_Ok & [= <-]).
  unfold index_value. cbn [i_name i_columns i_unique].
  assert (cs = map Codec.Uint cols /\ Forall (fun c => c < n) cols) as [-> Hb]; [|done].
  induction Hc as [|c j cs cols (m & ->%as_uint_Ok & Hj)%bind_Ok _ [-> IH]]; [done|].
  destruct (N.leb_spec n m); [done|]. injection Hj as <-. split; [done|by constructor].
Qed.

Lemma try_map_inverse {A B} (f : A -> res B) (g : B -> A) l l' :
  (forall a b, f a = Ok b -> a = g b) -> try_map f l = Ok l' -> l = map g l'.
Proof. intros H Hl%try_map_Ok. induction Hl as [|a b l l' E _ IH]; [done|]. cbn [map]. by rewrite <-(H a b E), IH. Qed.

Lemma from_cbor_value s : wf_schema s -> from_cbor (to_cbor s) = Ok s.
Proof.
  intros (H1 & H2 & _ & _ & _ & _ & H7 & H8). unfold from_cbor.
  cbn [to_cbor as_array mbind result_bind fields_array read_field next_field fields_end].
  rewrite (try_map_items column_from column_value id (fun _ => True)), map_id
    by ((intros; apply column_from_value) || by apply Forall_true).
  cbn [mbind result_bind]. rewrite (try_map_items as_uint Codec.Uint id (fun _ => True)), map_id by ((intros; reflexivity) || by apply Forall_true).
  cbn [mbind result_bind]. rewrite (proj2 (schema_new_Ok _ _ _)) by eauto. cbn [mbind result_bind columns primary_key].
  rewrite (try_map_items _ _ id (wf_index (Codec.len (columns s)))), map_id by (apply index_from_value || done).
  by destruct s.
Qed.

Lemma from_cbor_inv v s :
  from_cbor v = Ok s ->
  v = to_cbor s /\ columns s <> [] /\ primary_key s <> [] /\
  Forall (fun i => i < Codec.len (columns s)) (primary_key s) /\
  Forall (fun i => Forall (fun c => c < Codec.len (columns s)) (i_columns i)) (indexes s).
Proof.
  unfold from_cbor. intros (f & ->%as_array_Ok & H)%bind_Ok.
  apply bind_Ok in H as ([cr g] & (x & -> & ->%as_array_Ok)%read_field_Ok & H).
  apply bind_Ok in H as ([pr g'] & (x & -> & ->%as_array_Ok)%read_field_Ok & H).
  apply bind_Ok in H as ([ir g''] & (x & -> & ->%as_array_Ok)%read_field_Ok & H).
  apply bind_Ok in H as ([] & ->%fields_end_Ok & H).
  apply bind_Ok in H as (cols & Hc & H). apply bind_Ok in H as (pk & Hp & H).
  apply bind_Ok in H as (s0 & (Hne & Hnp & Hr & ->)%schema_new_Ok & H).
  apply bind_Ok in H as (idx & Hi & [= <-]). cbn [columns primary_key indexes].
  apply (try_map_inverse _ column_value) in Hc as ->; [|apply column_from_inv].
  apply (try_map_inverse _ Codec.Uint) in Hp as ->; [|intros a b; apply as_uint_Ok].
  assert (Forall (fun i => Forall (fun c => c < Codec.len cols) (i_columns i)) idx) as Hx.
  { apply try_map_Ok in Hi. induction Hi as [|w i ir idx Hw _ IH]; constructor; [|done].
    by apply index_from_inv in Hw as [_ ?]. }
  apply (try_map_inverse _ index_value) in Hi as ->; [|by intros a b [? _]%index_from_inv]. done.
Qed.

Lemma wf_to_cbor s : wf_schema s -> CodecFacts.wf_value (to_cbor s) = true.
Proof.
  intros (_ & _ & H3 & H4 & H5 & H6 & H7 & H8). unfold Codec.len in *.
  assert (forall l : list N, N.of_nat (length l) < 2 ^ 64 -> Forall (fun c => c < N.of_nat (length (columns s))) l ->
    CodecFacts.wf_value (Codec.Array (map Codec.Uint l)) = true) as Hu.
  { intros l Hl Hf. apply TabularCells.wf_array; [unfold Codec.len; by rewrite length_map|].
    apply forallb_map_true. intros c Hin. rewrite Forall_forall in Hf. apply TabularCells.wf_uint. specialize (Hf c Hin). lia. }
  apply TabularCells.wf_array; [done|]. cbn [forallb]. rewrite !andb_true_iff. split_and!; [|by apply Hu| |done];
    (apply TabularCells.wf_array; [unfold Codec.len; by rewrite length_map|]; apply forallb_map_true).
  - intros c Hin. rewrite Forall_forall in H6. destruct (H6 c Hin). apply TabularCells.wf_array; [done|].
    cbn [forallb]. rewrite TabularCells.wf_text, TabularCells.wf_uint; [done| |done|done].
    destruct (tag_roundtrip c.2). lia.
  - intros i Hin. rewrite Forall_forall in H8. destruct (H8 i Hin) as ([] & Hl & Hc).
    apply TabularCells.wf_array; [done|]. cbn [forallb]. rewrite TabularCells.wf_text, Hu by done. done.
Qed.

Lemma to_cbor_wf s :
  CodecFacts.wf_value (to_cbor s) = true ->
  Codec.len (columns s) < 2 ^ 64 /\ Codec.len (primary_key s) < 2 ^ 64 /\ Codec.len (indexes s) < 2 ^ 64 /\
  Forall (fun c => wf_name c.1) (columns s) /\
  Forall (fun i => wf_name (i_name i) /\ Codec.len (i_columns i) < 2 ^ 64) (indexes s).
Proof.
  assert (forall n, CodecFacts.wf_value (Codec.Text n) = true -> wf_name n) as Ht.
  { intros n. cbn [CodecFacts.wf_value]. rewrite andb_true_iff, N.leb_le. unfold u64_max, wf_name.
    intros [? ?]. split; [done|lia]. }
  assert (forall A (f : A -> Codec.Value) l, CodecFacts.wf_value (Codec.Array (map f l)) = true ->
    Codec.len l < 2 ^ 64 /\ Forall (fun x => CodecFacts.wf_value (f x) = true) l) as Ha.
  { intros A f l [Hl Hf]%CodecFacts.wf_Array. unfold Codec.len, u64_max in *. rewrite length_map in Hl.
    split; [lia|]. apply Forall_forall. intros x Hin. rewrite forallb_forall in Hf. apply Hf, in_map, list_elem_of_In, Hin. }
  intros [_ H]%CodecFacts.wf_Array. cbn [forallb] in H. rewrite !andb_true_iff in H.
  destruct H as (Hc & Hp & Hi & _). apply Ha in Hc as [Hc1 Hc2], Hp as [Hp1 _], Hi as [Hi1 Hi2].
  split_and!; try done.
  - eapply Forall_impl; [exact Hc2|]. intros c [_ H]%CodecFacts.wf_Array. cbn [forallb] in H.
    rewrite !andb_true_iff in H. apply Ht, H.
  - eapply Forall_impl; [exact Hi2|]. intros i [_ H]%CodecFacts.wf_Array. cbn [forallb] in H.
    rewrite !andb_true_iff in H. destruct H as (H1 & H2 & _). apply Ha in H2 as [H2 _]. split; [by apply Ht|done].
Qed.

Lemma encodable_to_cbor s : CodecProps.encodable (to_cbor s) = true.
Proof.
  cbn [to_cbor CodecProps.encodable forallb]. rewrite !andb_true_iff.
  split_and!; try done; (apply forallb_map_true; intros x _; cbn [column_value index_value CodecProps.encodable forallb andb]; try done).
  rewrite andb_true_r. by apply forallb_map_true.
Qed.

Lemma canon_to_cbor s : CodecFacts.canon (to_cbor s) = to_cbor s.
Proof.
  unfold to_cbor. change (CodecFacts.canon (Codec.Array [?a; ?b; ?c]))
    with (Codec.Array [CodecFacts.canon a; CodecFacts.canon b; CodecFacts.canon c]).
  rewrite !canon_items; try done. intros i. unfold index_value. cbn [CodecFacts.canon map].
  do 4 f_equal. rewrite map_map. by apply map_ext.
Qed.

Lemma depth_to_cbor s : (CodecFacts.depth (to_cbor s) <= Codec.MAX_DEPTH)%nat.
Proof.
  unfold Codec.MAX_DEPTH. transitivity 4%nat; [|lia].
  assert (forall A (f : A -> Codec.Value) n l, (forall x, CodecFacts.depth (f x) <= n)%nat ->
    (CodecFacts.depth (Codec.Array (map f l)) <= S n)%nat) as H.
  { intros A f n l Hf. cbn [CodecFacts.depth]. unfold max_list. induction l as [|x l IH]; cbn [map max_list_with]; [lia|].
    specialize (Hf x). simpl in *. lia. }
  pose proof (H _ column_value 1%nat (columns s) ltac:(simpl; lia)) as H1.
  pose proof (H _ Codec.Uint 0%nat (primary_key s) ltac:(simpl; lia)) as H2.
  assert (CodecFacts.depth (Codec.Array (map index_value (indexes s))) <= 3)%nat as H3.
  { apply H. intros i. pose proof (H _ Codec.Uint 0%nat (i_columns i) ltac:(simpl; lia)).
    unfold index_value. cbn [CodecFacts.depth map max_list max_list_with id] in *. lia. }
  unfold to_cbor. cbn [CodecFacts.depth map max_list max_list_with id] in *. lia.
Qed.

(** A schema and its stored bytes determine each other: bytes decode as a schema exactly when the
    schema is well formed (columns, a primary key and index columns in range) and the bytes are its
    encoding. *)
Theorem schema_codec b s :
  Codec.len b <= u64_max -> schema_decode b = Ok s <-> wf_schema s /\ schema_encode s = b.
Proof.
  intros Hl. assert (Codec.encode (to_cbor s) = Ok (schema_encode s)) as He.
  { pose proof (CodecProps.encode_outcome_all (to_cbor s)) as H. unfold CodecProps.encode_outcome in H.
    rewrite encodable_to_cbor in H. rewrite H. unfold schema_encode, cbor_encode. by rewrite H. }
  unfold schema_decode. rewrite bind_Ok. split.
  - intros (v & Hd%cbor_decode_Ok & Hf). apply CodecFacts.decode_canonical in Hd as (Hv & Hw & _).
    apply from_cbor_inv in Hf as (-> & H1 & H2 & H3 & H4). apply to_cbor_wf in Hw as (H5 & H6 & H7 & H8 & H9).
    split; [|congruence]. split_and!; try done. apply Forall_forall. intros i Hin.
    rewrite Forall_forall in H4, H9. destruct (H9 i Hin). split_and!; auto.
  - intros [Hw <-]. exists (to_cbor s). rewrite cbor_decode_Ok. split; [|by apply from_cbor_value].
    pose proof (CodecFacts.decode_encoding _ _ [] (wf_to_cbor s Hw) He) as H. rewrite app_nil_r in H.
    rewrite (H Hl), (proj2 (Nat.leb_le _ _) (depth_to_cbor s)), bool_decide_eq_true_2, canon_to_cbor by done. done.
Qed.

Definition sample_schema : Schema :=
  mkSchema [(str "id", CT_Int); (str "price", CT_Decimal); (str "tag", CT_Text)] [0] [mkIndexDef (str "by_tag") [2] true].

Lemma sample_schema_wf : wf_schema sample_schema /\ declared_indexes sample_schema.
Proof.
  split; [|split; repeat constructor; done].
  unfold wf_schema, wf_index, wf_name, sample_schema. cbn [columns primary_key indexes].
  rewrite !Forall_cons. cbn [fst i_name i_columns]. rewrite !Forall_cons.
  split_and!; try apply Forall_nil_2; by vm_compute.
Qed.

Lemma schema_codec_witness : schema_decode (schema_encode sample_schema) = Ok sample_schema.
Proof.
  apply (schema_codec (schema_encode sample_schema)); [by vm_compute|]. split; [apply sample_schema_wf|done].
Defined.

Lemma missing_column s cols e :
  try_map (fun c => ok_or (column s c) InvalidArgument) cols = Err e ->
  e = InvalidArgument /\ exists c, c ∈ cols /\ column s c = None.
Proof.
  induction cols as [|c cols IH]; [done|]. cbn [try_map]. destruct (column s c) as [j|] eqn:Hc; cbn [ok_or mbind result_bind].
  - destruct (try_map _ cols) as [js|e']; [done|]. intros [= ->]. destruct IH as (-> & c' & Hin & H); [done|].
    split; [done|]. exists c'. split; [by right|done].
  - intros [= <-]. split; [done|]. exists c. split; [by left|done].
Qed.

(** Every schema the engine builds keeps its invariant: [new] gives a well-formed schema, and
    [with_index] adds exactly the index asked for, refuses an empty or taken name, no columns, or a
    column that does not exist, and keeps the indexes in the order of their distinct names. *)
Theorem schema_with_index s name cols unique :
  wf_schema s -> declared_indexes s -> wf_name name -> Codec.len cols < 2 ^ 64 -> Codec.len (indexes s) + 1 < 2 ^ 64 ->
  match with_index s name cols unique with
  | Ok s' =>
      wf_schema s' /\ declared_indexes s' /\ columns s' = columns s /\ primary_key s' = primary_key s /\
      exists js, Forall2 (fun c j => column s c = Some j) cols js /\
        indexes s' ≡ₚ mkIndexDef name js unique :: indexes s
  | Err e =>
      e = InvalidArgument /\
      (name = [] \/ name ∈ map i_name (indexes s) \/ cols = [] \/ exists c, c ∈ cols /\ column s c = None)
  end.
Proof.
  intros Hw Hd Hn Hc Hl. destruct (with_index s name cols unique) as [s'|e] eqn:E.
  - destruct (with_index_keeps s name cols unique s') as [Hw' Hd']; try done. split_and!; try done;
      apply with_index_Ok in E as (_ & _ & _ & js & Hj & ->); try done.
    exists js. split; [done|]. cbn [indexes]. by rewrite sort_by_perm, Permutation_app_comm.
  - unfold with_index in E. case_bool_decide as H1; [naive_solver|].
    destruct (existsb _ (indexes s)) eqn:H2.
    { injection E as <-. split; [done|]. right. left. apply existsb_exists in H2 as (i & Hi & H2%bool_decide_eq_true).
      apply list_elem_of_fmap. exists i. split; [done|by apply list_elem_of_In]. }
    case_bool_decide as H3; [naive_solver|]. destruct (try_map _ cols) as [js|e'] eqn:H4; [done|].
    injection E as <-. apply missing_column in H4 as [-> H4]. auto.
Qed.

Lemma schema_with_index_witness :
  exists s', with_index sample_schema (str "by_price") [str "price"; str "id"] false = Ok s' /\ wf_schema s' /\ declared_indexes s'.
Proof.
  eexists. split; [reflexivity|].
  destruct (schema_with_index sample_schema (str "by_price") [str "price"; str "id"] false) as (H1 & H2 & _);
    [apply sample_schema_wf|apply sample_schema_wf|by vm_compute..|]. exact (conj H1 H2).
Defined.

End Schema.
