(* ===== verification/Table.v ===== *)
(** * Tables (crates/loom-core/src/tabular.rs, [Predicate], [Table] and [RowCursor])

    A [BTreeMap<Vec<Value>, Row>] is the list of its entries in the order of [Ord for Vec<Value>];
    inserting an equal key keeps the key that is there, as the standard library does. *)

From S2P Require Import Prelude Types Codec Cbor Store Prolly ProllyCursor Tabular Schema CodecFacts CodecProps Object ObjectProps ProllyTree ProllyMap TabularOrder TabularCells.

Module Table.
Import Error Cbor Digest Store Prolly Tabular Schema.

(** ** Ordered maps with primary keys *)

Abbreviation Rows := (list (list Value * Row)).

Fixpoint rows_get (pk : list Value) (rows : Rows) : option Row :=
  match rows with
  | [] => None
  | (k, row) :: rows =>
      match pk_cmp pk k with Eq => Some row | Lt => None | Gt => rows_get pk rows end
  end.

Fixpoint rows_insert (pk : list Value) (row : Row) (rows : Rows) : Rows :=
  match rows with
  | [] => [(pk, row)]
  | (k, old) :: rows' =>
      match pk_cmp pk k with
      | Eq => (k, row) :: rows'
      | Lt => (pk, row) :: rows
      | Gt => (k, old) :: rows_insert pk row rows'
      end
  end.

Fixpoint rows_remove (pk : list Value) (rows : Rows) : Rows :=
  match rows with
  | [] => []
  | (k, old) :: rows' =>
      match pk_cmp pk k with Eq => rows' | Lt => rows | Gt => (k, old) :: rows_remove pk rows' end
  end.

(** ** Predicates *)

Inductive CmpOp : Type := CEq | CNe | CLt | CLe | CGt | CGe.

Inductive Predicate : Type :=
| PAll
| PCompare (col : N) (op : CmpOp) (value : Value)
| PAnd (a b : Predicate).

Fixpoint eval (p : Predicate) (row : Row) : bool :=
  match p with
  | PAll => true
  | PAnd a b => eval a row && eval b row
  | PCompare col op value =>
      match row !! N.to_nat col with
      | None => false
      | Some cell =>
          match op, value_cmp cell value with
          | CEq, Eq | CNe, (Lt | Gt) | CLt, Lt | CLe, (Lt | Eq) | CGt, Gt | CGe, (Gt | Eq) => true
          | _, _ => false
          end
      end
  end.

(** ** Tables *)

Record Table : Type := mkTable { schema : Schema; rows : Rows }.

Definition table_new (s : Schema) : Table := mkTable s [].

(** [row[i]]; an index out of range panics, which is the [Internal] error. *)
Definition select (row : Row) (cols : list N) : res (list Value) :=
  try_map (fun i => ok_or (row !! N.to_nat i) Internal) cols.

Definition key_of (s : Schema) (row : Row) : res (list Value) := select row (primary_key s).

Definition table_insert (t : Table) (row : Row) : res Table :=
  _ ← check_row (schema t) row;
  key ← key_of (schema t) row;
  Ok (mkTable (schema t) (rows_insert key row (rows t))).

Definition table_get (t : Table) (pk : list Value) : option Row := rows_get pk (rows t).

Definition table_delete (t : Table) (pk : list Value) : bool * Table :=
  (bool_decide (is_Some (rows_get pk (rows t))), mkTable (schema t) (rows_remove pk (rows t))).

Definition scan (t : Table) (p : Predicate) : list Row := filter (fun r => eval p r = true) (map snd (rows t)).

(** ** The whole-table frame *)

Definition table_value (t : Table) : Codec.Value :=
  Codec.Array [to_cbor (schema t); Codec.Array (map (fun e => Codec.Array (map cell_value e.2)) (rows t))].

Definition table_encode (t : Table) : bytes := cbor_encode (table_value t).

Definition insert_item (t : Table) (r : Codec.Value) : res Table :=
  items ← as_array r;
  if bool_decide (length items = arity (schema t)) then
    row ← try_map cell_from items; table_insert t row
  else Err CorruptObject.

Definition table_decode (b : bytes) : res Table :=
  f ← decode_array b;
  '(sv, f) ← next_field f;
  s ← from_cbor sv;
  '(rs, f) ← fields_array f;
  _ ← fields_end f;
  try_fold insert_item (table_new s) rs.

(** ** Row storage *)

Section Storage.
Context `{hasher : Hasher} {S : Type} `{ops : !ObjectStore S}.

Definition row_entries (t : Table) : list Entry := map (fun e => (encode_pk_values e.1, encode_row e.2)) (rows t).

Definition build_rows (t : Table) (store : S) : res (option Digest * S) :=
  build store (sort_by fst (row_entries t)).

Definition load_rows (store : S) (s : Schema) (root : Digest) : res Table :=
  es ← entries store root;
  try_fold (fun t e => row ← decode_row (arity (schema t)) e.2; table_insert t row) (table_new s) es.

Definition get_row (store : S) (s : Schema) (root : Digest) (pk : list Value) : res (option Row) :=
  o ← lookup_key store root (encode_pk_values pk);
  match o with
  | Some value => row ← decode_row (arity s) value; Ok (Some row)
  | None => Ok None
  end.

Definition row_map_key (pk : list Value) : bytes := encode_pk_values pk.

(** [RowCursor]: the cursor of the row map with the schema. *)
Definition row_cursor_open_range (store : S) (root : Digest) (start upper : option bytes) : res ProllyCursor.Cursor :=
  ProllyCursor.open_range store root start upper.

Definition row_cursor_open (store : S) (root : Digest) : res ProllyCursor.Cursor := ProllyCursor.open_all store root.

Definition row_cursor_next (rounds : nat) (store : S) (s : Schema) (cur : ProllyCursor.Cursor)
    : option (res (option Row * ProllyCursor.Cursor)) :=
  match ProllyCursor.cursor_next rounds store cur with
  | None => None
  | Some (Err e) => Some (Err e)
  | Some (Ok (Some e, cur)) => Some (row ← decode_row (arity s) e.2; Ok (Some row, cur))
  | Some (Ok (None, cur)) => Some (Ok (None, cur))
  end.
End Storage.

End Table.

(** * Tables implement maps from primary keys to rows

    The ordered list of a table is the map from encoded primary keys to rows in key order; every
    operation acts on that map, and the row storage, the row cursor and the whole-table frame keep it. *)

Module TableProps.
Import Error Cbor Digest Store Prolly ProllyTree ProllyMap Tabular TabularOrder TabularCells Schema Table.

(** ** The map a list of rows stands for *)

Definition enc_entry (e : list Value * Row) : bytes * Row := (encode_pk_values e.1, e.2).
Definition rows_map (rows : Rows) : gmap bytes Row := list_to_map (map enc_entry rows).

Definition wf_rows (rows : Rows) : Prop :=
  Forall (fun e => Forall wf_cell e.1) rows /\ sorted_by fst (map enc_entry rows).

Lemma wf_rows_cons e rows :
  wf_rows (e :: rows) <->
  Forall wf_cell e.1 /\ wf_rows rows /\ Forall (fun e' => encode_pk_values e.1 <b encode_pk_values e'.1) rows.
Proof.
  unfold wf_rows. cbn [map]. rewrite Forall_cons. split.
  - intros [[H1 H2] [H3 H4]%sorted_by_cons_inv]. rewrite Forall_map in H4. done.
  - intros (H1 & [H2 H3] & H4). split; [done|]. constructor; [done|]. by rewrite Forall_map.
Qed.

Lemma rows_map_cons e rows : rows_map (e :: rows) = <[encode_pk_values e.1 := e.2]> (rows_map rows).
Proof. done. Qed.

Lemma rows_map_below k rows :
  Forall (fun e' => k <b encode_pk_values e'.1) rows -> rows_map rows !! k = None.
Proof.
  intros H. apply not_elem_of_list_to_map_1. rewrite <-list_fmap_compose. intros (e & -> & Hin)%list_elem_of_fmap.
  rewrite Forall_forall in H. specialize (H e Hin). simpl in H. by eapply bytes_lt_irrefl.
Qed.

Lemma below_trans (k k' : bytes) (rows : Rows) :
  k <b k' -> Forall (fun e' => k' <b encode_pk_values e'.1) rows -> Forall (fun e' => k <b encode_pk_values e'.1) rows.
Proof. intros Hk H. eapply Forall_impl; [exact H|]. intros e He. by etrans. Qed.

(** How the comparison of primary keys reads on encoded keys. *)
Lemma pk_cmp_spec a b :
  Forall wf_cell a -> Forall wf_cell b ->
  CompareSpec (encode_pk_values a = encode_pk_values b) (encode_pk_values a <b encode_pk_values b)
    (encode_pk_values b <b encode_pk_values a) (pk_cmp a b).
Proof.
  intros Ha Hb. rewrite <-cmp_pk by done. destruct (cmp_bytes _ _) eqn:E; constructor.
  - by apply cmp_bytes_eq.
  - done.
  - by apply cmp_bytes_gt.
Qed.

Lemma pk_cmp_eq a b :
  Forall wf_cell a -> Forall wf_cell b -> pk_cmp a b = Eq <-> encode_pk_values a = encode_pk_values b.
Proof. intros Ha Hb. rewrite <-cmp_pk by done. apply cmp_bytes_eq. Qed.

Lemma rows_get_spec pk rows :
  Forall wf_cell pk -> wf_rows rows -> rows_get pk rows = rows_map rows !! encode_pk_values pk.
Proof.
  intros Hpk. induction rows as [|[k row] rows IH]; [done|]. intros (Hk & Hw & Hlt)%wf_rows_cons.
  cbn [rows_get]. rewrite rows_map_cons. cbn [fst snd] in *. destruct (pk_cmp_spec pk k) as [E|E|E]; [done|done|..].
  - by rewrite E, lookup_insert_eq.
  - rewrite lookup_insert_ne by (intros E'; rewrite E' in E; by eapply bytes_lt_irrefl).
    symmetry. apply rows_map_below. by eapply below_trans.
  - rewrite lookup_insert_ne by (intros E'; rewrite E' in E; by eapply bytes_lt_irrefl). by apply IH.
Qed.

Lemma rows_insert_above k pk row rows :
  k <b encode_pk_values pk -> Forall (fun e' => k <b encode_pk_values e'.1) rows ->
  Forall (fun e' => k <b encode_pk_values e'.1) (rows_insert pk row rows).
Proof.
  intros Hk. induction 1 as [|[k' old] rows Hk' Hr IH]; cbn [rows_insert]; [by constructor|].
  destruct (pk_cmp pk k'); constructor; try done. by constructor.
Qed.

Lemma rows_insert_spec pk row rows :
  Forall wf_cell pk -> wf_rows rows ->
  wf_rows (rows_insert pk row rows) /\ rows_map (rows_insert pk row rows) = <[encode_pk_values pk := row]> (rows_map rows).
Proof.
  intros Hpk. induction rows as [|[k old] rows IH]; intros Hw.
  { split; [|done]. apply wf_rows_cons. done. }
  pose proof Hw as (Hk & Hw' & Hlt)%wf_rows_cons. cbn [fst snd] in *. cbn [rows_insert].
  destruct (pk_cmp_spec pk k) as [E|E|E]; [done|done|..].
  - split; [by apply wf_rows_cons|]. rewrite !rows_map_cons. cbn [fst snd]. by rewrite E, insert_insert_eq.
  - split; [|done]. apply wf_rows_cons. split_and!; [done..|]. constructor; [done|]. by eapply below_trans.
  - destruct (IH Hw') as [Hi Hm]. split.
    + apply wf_rows_cons. split_and!; [done..|]. by apply rows_insert_above.
    + rewrite !rows_map_cons, Hm. cbn [fst snd]. apply insert_insert_ne. intros E'. rewrite E' in E. by eapply bytes_lt_irrefl.
Qed.

Lemma rows_remove_above k pk rows :
  Forall (fun e' => k <b encode_pk_values e'.1) rows -> Forall (fun e' => k <b encode_pk_values e'.1) (rows_remove pk rows).
Proof.
  induction 1 as [|[k' old] rows Hk' Hr IH]; cbn [rows_remove]; [by constructor|].
  destruct (pk_cmp pk k'); try constructor; done.
Qed.

Lemma rows_remove_spec pk rows :
  Forall wf_cell pk -> wf_rows rows ->
  wf_rows (rows_remove pk rows) /\ rows_map (rows_remove pk rows) = delete (encode_pk_values pk) (rows_map rows).
Proof.
  intros Hpk. induction rows as [|[k old] rows IH]; intros Hw; [split; [done|]; symmetry; apply (delete_empty (M := gmap bytes))|].
  pose proof Hw as (Hk & Hw' & Hlt)%wf_rows_cons. cbn [fst snd] in *. cbn [rows_remove].
  destruct (pk_cmp_spec pk k) as [E|E|E]; [done|done|..].
  - split; [done|]. rewrite rows_map_cons. cbn [fst snd]. rewrite E, delete_insert_id; [done|]. by apply rows_map_below.
  - split; [done|]. rewrite delete_id; [done|]. apply rows_map_below. constructor; [done|]. by eapply below_trans.
  - destruct (IH Hw') as [Hi Hm]. split.
    + apply wf_rows_cons. split_and!; [done..|]. by apply rows_remove_above.
    + rewrite !rows_map_cons, Hm. cbn [fst snd]. symmetry. apply delete_insert_ne. intros E'. rewrite E' in E. by eapply bytes_lt_irrefl.
Qed.

(** The rows in key order are the iteration of the map. *)
Lemma rows_iter rows : wf_rows rows -> map enc_entry rows = btree_iter (rows_map rows).
Proof.
  intros [_ Hs]. apply (sorted_by_unique fst); [done|apply btree_iter_sorted|]. intros [k row].
  rewrite elem_of_btree_iter. unfold rows_map. rewrite <-elem_of_list_to_map; [done|]. by apply sorted_by_NoDup.
Qed.

Lemma rows_values rows : wf_rows rows -> map snd rows = map snd (btree_iter (rows_map rows)).
Proof. intros H. rewrite <-rows_iter, map_map by done. done. Qed.

(** ** Tables *)

Definition table_map (t : Table) : gmap bytes Row := rows_map (rows t).

(** A row the table accepts under key [k]: well formed, of the schema's types, with that key. *)
Definition row_fits (s : Schema) (k : bytes) (row : Row) : Prop :=
  wf_row row /\ check_row s row = Ok () /\ exists pk, key_of s row = Ok pk /\ encode_pk_values pk = k.

Definition wf_table (t : Table) : Prop :=
  wf_schema (schema t) /\ wf_rows (rows t) /\ map_Forall (row_fits (schema t)) (table_map t).

Lemma zip_matches row (cols : list (bytes * ColumnType)) :
  length row = length cols ->
  forallb (fun p => matches_type p.1 p.2.2) (zip row cols) = true <-> Forall2 (fun v c => matches_type v c.2 = true) row cols.
Proof.
  revert cols. induction row as [|v row IH]; intros [|c cols]; try done. intros [= Hl].
  cbn [zip zip_with forallb]. rewrite andb_true_iff, IH by done. split; [intros []; by constructor|]. by inversion 1.
Qed.

Lemma check_row_Ok s row :
  check_row s row = Ok () <->
  length row = arity s /\ Forall2 (fun v c => matches_type v c.2 = true) row (columns s).
Proof.
  unfold check_row, arity. case_bool_decide as Hl; cbn [negb]; [|naive_solver].
  rewrite <-zip_matches by done. destruct (forallb _ _); naive_solver.
Qed.

Lemma check_row_error s row e : check_row s row = Err e -> e = InvalidArgument.
Proof. unfold check_row. repeat case_match; naive_solver. Qed.

Lemma select_total row cols :
  Forall (fun i => i < Codec.len row) cols -> exists vs, select row cols = Ok vs.
Proof.
  unfold select, Codec.len. induction 1 as [|i cols Hi _ (vs & IH)]; [by exists []|]. cbn [try_map].
  destruct (lookup_lt_is_Some_2 row (N.to_nat i)) as [v E]; [lia|]. rewrite E, IH. simpl. eauto.
Qed.

Lemma select_Ok row cols vs : select row cols = Ok vs <-> Forall2 (fun i v => row !! N.to_nat i = Some v) cols vs.
Proof.
  unfold select. rewrite try_map_Ok. split; intros H; (eapply Forall2_impl; [exact H|]); intros i v; by rewrite ok_or_Ok.
Qed.

Lemma select_wf row cols vs : Forall wf_cell row -> select row cols = Ok vs -> Forall wf_cell vs.
Proof.
  intros Hr H%select_Ok. induction H as [|i v cols vs Hv _ IH]; constructor; [|done].
  rewrite Forall_forall in Hr. apply Hr. by eapply list_elem_of_lookup_2.
Qed.

Lemma key_of_total s row : wf_schema s -> length row = arity s -> exists pk, key_of s row = Ok pk.
Proof.
  intros (_ & _ & _ & _ & _ & _ & Hp & _) Hl. apply select_total. unfold Codec.len in *. by rewrite Hl.
Qed.

Lemma table_insert_Ok t row t' :
  wf_table t -> wf_row row -> table_insert t row = Ok t' ->
  exists pk, key_of (schema t) row = Ok pk /\ Forall wf_cell pk /\ schema t' = schema t /\
    table_map t' = <[encode_pk_values pk := row]> (table_map t) /\ wf_table t'.
Proof.
  intros (Hs & Hr & Hm) Hw H. unfold table_insert in H. apply bind_Ok in H as ([] & Hc & H).
  apply bind_Ok in H as (pk & Hk & [= <-]). exists pk.
  assert (Forall wf_cell pk) as Hpk by (eapply select_wf; [apply Hw|exact Hk]).
  destruct (rows_insert_spec pk row (rows t) Hpk Hr) as [H1 H2]. split_and!; try done.
  split_and!; [done..|]. unfold table_map. cbn [rows schema]. rewrite H2. apply map_Forall_insert_2; [|done].
  split_and!; [done..|]. eauto.
Qed.

Lemma table_insert_cases t row :
  wf_table t ->
  table_insert t row = match check_row (schema t) row with
    | Ok _ => match key_of (schema t) row with
              | Ok pk => Ok (mkTable (schema t) (rows_insert pk row (rows t)))
              | Err e => Err e
              end
    | Err e => Err e
    end.
Proof. intros _. unfold table_insert. destruct (check_row _ _); [|done]. simpl. by destruct (key_of _ _). Qed.

Lemma table_insert_fits t row :
  wf_table t -> check_row (schema t) row = Ok () -> exists t', table_insert t row = Ok t'.
Proof.
  intros Hw Hc. rewrite table_insert_cases, Hc by done. destruct (key_of_total (schema t) row) as [pk ->]; [apply Hw|by apply check_row_Ok|].
  eauto.
Qed.

(** ** Histories of a table *)

Inductive table_op : Type := OpInsert (row : Row) | OpDelete (pk : list Value).

Definition wf_op (op : table_op) : Prop :=
  match op with OpInsert row => wf_row row | OpDelete pk => Forall wf_cell pk end.

(** A refused insertion leaves the table as it was. *)
Definition run_op (t : Table) (op : table_op) : Table :=
  match op with
  | OpInsert row => match table_insert t row with Ok t' => t' | Err _ => t end
  | OpDelete pk => (table_delete t pk).2
  end.

(** The abstract table: a map from encoded primary keys to rows. *)
Definition spec_op (s : Schema) (m : gmap bytes Row) (op : table_op) : gmap bytes Row :=
  match op with
  | OpInsert row =>
      match check_row s row, key_of s row with
      | Ok _, Ok pk => <[encode_pk_values pk := row]> m
      | _, _ => m
      end
  | OpDelete pk => delete (encode_pk_values pk) m
  end.

Lemma run_op_refines t op :
  wf_table t -> wf_op op ->
  wf_table (run_op t op) /\ schema (run_op t op) = schema t /\ table_map (run_op t op) = spec_op (schema t) (table_map t) op.
Proof.
  intros Hw Hop. destruct op as [row|pk]; cbn [run_op spec_op wf_op] in *.
  - destruct (table_insert t row) as [t'|e] eqn:E.
    + apply table_insert_Ok in E as H; [|done..]. destruct H as (pk & Hk & _ & Hs & Hm & Hw').
      rewrite table_insert_cases in E by done. destruct (check_row _ _); [|done]. by rewrite Hk.
    + rewrite table_insert_cases in E by done. split_and!; [done..|]. destruct (check_row _ _); [|done]. by destruct (key_of _ _).
  - destruct Hw as (Hs & Hr & Hm). destruct (rows_remove_spec pk (rows t) Hop Hr) as [H1 H2].
    split_and!; try done. split_and!; try done. unfold table_map. cbn [table_delete rows schema snd]. rewrite H2.
    by apply map_Forall_delete.
Qed.

Lemma run_ops_refine t ops :
  wf_table t -> Forall wf_op ops ->
  wf_table (foldl run_op t ops) /\ schema (foldl run_op t ops) = schema t /\
  table_map (foldl run_op t ops) = foldl (spec_op (schema t)) (table_map t) ops.
Proof.
  intros Hw Hops. revert t Hw. induction Hops as [|op ops Hop _ IH]; intros t Hw; [done|]. cbn [foldl].
  destruct (run_op_refines t op Hw Hop) as (H1 & H2 & H3). destruct (IH _ H1) as (H4 & H5 & H6).
  by rewrite H5, H6, H2, H3.
Qed.

Lemma table_new_wf s : wf_schema s -> wf_table (table_new s).
Proof. intros Hs. split_and!; [done|split; constructor|apply map_Forall_empty]. Qed.

(** C26: a table is a map from primary keys to rows: after any history of insertions, refused
    insertions and deletions, its state is the map those operations give, a lookup returns what the
    map holds under the encoded key, and a scan returns the matching rows of the map in key order. *)
Theorem table_refines_map s ops :
  wf_schema s -> Forall wf_op ops ->
  let t := foldl run_op (table_new s) ops in
  let m := foldl (spec_op s) ∅ ops in
  wf_table t /\ table_map t = m /\
  (forall pk, Forall wf_cell pk -> table_get t pk = m !! encode_pk_values pk) /\
  (forall pk, Forall wf_cell pk -> (table_delete t pk).1 = bool_decide (is_Some (m !! encode_pk_values pk))) /\
  (forall p, scan t p = filter (fun r => eval p r = true) (map snd (btree_iter m))).
Proof.
  intros Hs Hops. cbv zeta. destruct (run_ops_refine (table_new s) ops (table_new_wf s Hs) Hops) as (Hw & _ & Hm).
  change (table_map (table_new s)) with (∅ : gmap bytes Row) in Hm. cbn [schema table_new] in Hm.
  rewrite <-Hm. pose proof Hw as (_ & Hr & _). split_and!; [done..| | |].
  - intros pk Hpk. by apply rows_get_spec.
  - intros pk Hpk. cbn [table_delete fst]. by rewrite rows_get_spec.
  - intros p. unfold scan. by rewrite rows_values.
Qed.

(** Tables are typed: after any history of operations every row has one cell per column and each
    cell is null or of its column's type; an insertion is accepted exactly when the row is so typed, and
    a refused one fails with [InvalidArgument]. *)
Theorem table_typed s ops row :
  wf_schema s -> Forall wf_op ops ->
  let t := foldl run_op (table_new s) ops in
  let typed row := length row = arity s /\ Forall2 (fun v c => matches_type v c.2 = true) row (columns s) in
  Forall typed (map snd (rows t)) /\
  ((exists t', table_insert t row = Ok t') <-> typed row) /\
  (forall e, table_insert t row = Err e -> e = InvalidArgument).
Proof.
  intros Hs Hops. cbv zeta. destruct (run_ops_refine (table_new s) ops (table_new_wf s Hs) Hops) as (Hw & Es & _).
  set (t := foldl run_op (table_new s) ops) in *. cbn [schema table_new] in Es. rewrite <-Es. split_and!.
  - pose proof Hw as (_ & Hr & Hm). rewrite rows_values, Forall_map by done. apply Forall_forall.
    intros [k r] Hin%elem_of_btree_iter. destruct (Hm _ _ Hin) as (_ & Hc & _). by apply check_row_Ok.
  - rewrite <-check_row_Ok. split; [|by apply table_insert_fits].
    intros [t' E]. unfold table_insert in E. apply bind_Ok in E as ([] & E & _). done.
  - intros e. rewrite table_insert_cases by done. destruct (check_row (schema t) row) as [[]|e'] eqn:Ec.
    + destruct (key_of_total (schema t) row) as [pk ->]; [apply Hw|by apply check_row_Ok|done].
    + intros [= <-]. by eapply check_row_error.
Qed.

End TableProps.
