(* ===== verification/TableStore.v ===== *)
(** * Stored tables

    The prolly row map of a table, its point lookups, its range cursor, and the whole-table frame all
    stand for the same map from primary keys to rows. *)

From S2P Require Import Prelude Types Codec CodecFacts CodecProps Cbor Store Object ObjectProps Prolly ProllyTree ProllyBuild ProllyCursor ProllyReach ProllyMap Tabular TabularOrder TabularCells Schema Table.

Module TableStore.
Import Error Cbor Digest Store Prolly ProllyTree ProllyCursor ProllyReach ProllyMap Tabular TabularOrder TabularCells Schema Table TableProps.

(** Rows the decoder reads back: not longer than the address space, not nested too deep. *)
Definition storable_row (row : Row) : Prop :=
  Codec.len (encode_row row) <= u64_max /\ (CodecFacts.depth (row_value row) <= Codec.MAX_DEPTH)%nat.

(** The entries of the row map of a table that stands for [m]. *)
Definition map_entries (m : gmap bytes Row) : list Entry := map (fun e => (e.1, encode_row e.2)) (btree_iter m).

Lemma map_entries_sorted m : sorted_by fst (map_entries m).
Proof. apply (sorted_by_map fst fst); [done|]. apply btree_iter_sorted. Qed.

Lemma map_entries_lookup m k : tmap (map_entries m) !! k = encode_row <$> m !! k.
Proof.
  unfold tmap, map_entries. rewrite <-(list_to_map_btree_iter m) at 2.
  change (map (fun e => (e.1, encode_row e.2)) (btree_iter m)) with (prod_map id encode_row <$> btree_iter m).
  rewrite list_to_map_fmap. by rewrite lookup_fmap.
Qed.

Lemma row_entries_map t : wf_rows (rows t) -> row_entries t = map_entries (table_map t).
Proof.
  intros Hr. unfold row_entries, map_entries, table_map. rewrite <-rows_iter, map_map by done. done.
Qed.

(** ** Loading rows one by one *)

Lemma add_rows_spec (l : list (bytes * Row)) t :
  wf_table t -> Forall (fun e => row_fits (schema t) e.1 e.2) l ->
  exists t', try_fold table_insert t (map snd l) = Ok t' /\ wf_table t' /\ schema t' = schema t /\
    table_map t' = foldl (fun m e => <[e.1 := e.2]> m) (table_map t) l.
Proof.
  revert t. induction l as [|[k row] l IH]; intros t Hw Hl; [by exists t|].
  apply Forall_cons in Hl as [Hf Hl]. cbn [fst snd map try_fold foldl] in *. destruct Hf as (Hr & Hc & pk & Hk & <-).
  destruct (table_insert_fits t row Hw Hc) as [t1 E]. rewrite E. cbn [mbind result_bind].
  destruct (table_insert_Ok t row t1 Hw Hr E) as (pk' & Hk' & _ & Hs & Hm & Hw1).
  assert (pk' = pk) as -> by congruence. destruct (IH t1 Hw1) as (t' & H1 & H2 & H3 & H4); [by rewrite Hs|].
  exists t'. rewrite <-Hm. split_and!; try done. congruence.
Qed.

Lemma table_fits t : wf_table t -> Forall (fun e => row_fits (schema t) e.1 e.2) (btree_iter (table_map t)).
Proof.
  intros (_ & _ & Hm). apply Forall_forall. intros [k row] Hin%elem_of_btree_iter. by apply (Hm k row).
Qed.

(** Inserting the rows of a table into an empty one gives the table back, up to the form of equal keys. *)
Lemma reload_rows t :
  wf_table t ->
  exists t', try_fold table_insert (table_new (schema t)) (map snd (rows t)) = Ok t' /\ wf_table t' /\
    schema t' = schema t /\ table_map t' = table_map t /\ map snd (rows t') = map snd (rows t).
Proof.
  intros Hw. pose proof Hw as (Hs & Hr & _).
  destruct (add_rows_spec (btree_iter (table_map t)) (table_new (schema t))) as (t' & H1 & H2 & H3 & H4);
    [by apply table_new_wf|exact (table_fits t Hw)|].
  rewrite (rows_values (rows t) Hr). fold (table_map t). exists t'. change (table_map (table_new (schema t))) with (∅ : gmap bytes Row) in H4.
  change (foldl _ ∅ (btree_iter (table_map t))) with (collect_map (btree_iter (table_map t))) in H4.
  rewrite collect_map_btree_iter in H4. split_and!; try done.
  rewrite rows_values by apply H2. by fold (table_map t'); rewrite H4.
Qed.

(** Two loops that agree on the states an invariant allows. *)
Lemma try_fold_agree {E A B} (P : B -> Prop) (f g : B -> A -> result E B) l b :
  P b -> (forall b x, P b -> x ∈ l -> f b x = g b x) -> (forall b x b', P b -> g b x = Ok b' -> P b') ->
  try_fold f b l = try_fold g b l.
Proof.
  revert b. induction l as [|x l IH]; intros b Hb H Hk; [done|]. cbn [try_fold]. rewrite H by (done || left).
  destruct (g b x) as [b'|] eqn:E'; [|done]. cbn [mbind result_bind]. apply IH; eauto.
  intros b0 y Hb0 Hy. apply H; [done|by right].
Qed.

Lemma table_insert_schema t row t' : table_insert t row = Ok t' -> schema t' = schema t.
Proof. unfold table_insert. intros ([] & _ & (pk & _ & [= <-])%bind_Ok)%bind_Ok. done. Qed.

Lemma try_fold_map {E A B C} (f : B -> A -> result E B) (g : C -> A) l b :
  try_fold f b (map g l) = try_fold (fun b x => f b (g x)) b l.
Proof. revert b. induction l as [|x l IH]; intros b; [done|]. cbn [map try_fold]. destruct (f b (g x)); [apply IH|done]. Qed.

(** ** The whole-table frame *)

Lemma table_value_rows t :
  table_value t = Codec.Array [to_cbor (schema t); Codec.Array (map row_value (map snd (rows t)))].
Proof. unfold table_value. by rewrite map_map. Qed.

Lemma wf_table_rows t : wf_table t -> Forall (fun row => wf_row row /\ length row = arity (schema t)) (map snd (rows t)).
Proof.
  intros (_ & Hr & Hm). rewrite rows_values by done. rewrite Forall_map. apply Forall_forall.
  intros [k row] Hin%elem_of_btree_iter. destruct (Hm _ _ Hin) as (H & [Hl _]%check_row_Ok & _). done.
Qed.

Lemma encode_table_Ok t : wf_table t -> Codec.encode (table_value t) = Ok (table_encode t).
Proof.
  intros Hw. pose proof (CodecProps.encode_outcome_all (table_value t)) as H. unfold CodecProps.encode_outcome in H.
  assert (CodecProps.encodable (table_value t) = true) as He.
  { rewrite table_value_rows. cbn [CodecProps.encodable forallb]. rewrite encodable_to_cbor, andb_true_r. cbn [andb].
    apply ObjectProps.forallb_map_true. intros row Hin. pose proof (wf_table_rows t Hw) as Hr. rewrite Forall_forall in Hr.
    destruct (Hr row Hin) as [[_ Hc] _]. cbn [row_value CodecProps.encodable]. apply ObjectProps.forallb_map_true.
    intros v Hv. rewrite Forall_forall in Hc. by apply encodable_cell, Hc. }
  rewrite He in H. unfold table_encode, cbor_encode. by rewrite H.
Qed.

Lemma wf_table_value t : wf_table t -> Codec.len (rows t) < 2 ^ 64 -> CodecFacts.wf_value (table_value t) = true.
Proof.
  intros Hw Hl. rewrite table_value_rows. apply wf_array; [done|]. cbn [forallb]. rewrite wf_to_cbor by apply Hw.
  rewrite andb_true_r. cbn [andb]. apply wf_array; [unfold Codec.len in *; by rewrite !length_map|].
  apply ObjectProps.forallb_map_true. intros row Hin. pose proof (wf_table_rows t Hw) as Hr. rewrite Forall_forall in Hr.
  by apply wf_row_value, Hr.
Qed.

Lemma insert_item_row t row :
  wf_row row -> length row = arity (schema t) -> insert_item t (CodecFacts.canon (row_value row)) = table_insert t row.
Proof.
  intros [_ Hr] Hl. unfold insert_item. cbn [row_value CodecFacts.canon as_array mbind result_bind].
  rewrite !length_map, bool_decide_eq_true_2 by done. by rewrite cells_read_back.
Qed.

(** The canonical bytes of a whole table decode back to its schema and its rows, in the same order,
    and depend on the schema and the row set alone. *)
Theorem table_frame t :
  wf_table t -> Codec.len (rows t) < 2 ^ 64 -> Codec.len (table_encode t) <= u64_max ->
  (CodecFacts.depth (table_value t) <= Codec.MAX_DEPTH)%nat ->
  (exists t', table_decode (table_encode t) = Ok t' /\ wf_table t' /\ schema t' = schema t /\
    table_map t' = table_map t /\ map snd (rows t') = map snd (rows t)) /\
  (forall t2, wf_table t2 -> schema t2 = schema t -> table_map t2 = table_map t -> table_encode t2 = table_encode t).
Proof.
  intros Hw Hl Hb Hd. split.
  - destruct (reload_rows t Hw) as (t' & H & Hrest). exists t'. split; [|done].
    pose proof (CodecFacts.decode_encoding _ _ [] (wf_table_value t Hw Hl) (encode_table_Ok t Hw)) as E.
    rewrite app_nil_r in E. unfold table_decode, decode_array, cbor_decode.
    rewrite (E Hb), (proj2 (Nat.leb_le _ _) Hd), bool_decide_eq_true_2, table_value_rows by done.
    cbn [CodecFacts.canon map map_err mbind result_bind as_array next_field]. rewrite canon_to_cbor, from_cbor_value by apply Hw.
    cbn [mbind result_bind fields_array read_field next_field as_array fields_end]. rewrite <-H, !map_map, !try_fold_map.
    apply (try_fold_agree (fun t' => schema t' = schema t)); [done| |].
    + intros t1 [pk row] Hs Hin. cbn [snd]. apply insert_item_row.
      all: pose proof (wf_table_rows t Hw) as Hr; rewrite Forall_map, Forall_forall in Hr; destruct (Hr _ Hin); (done || by rewrite Hs).
    + intros t1 [k row] t2 Hs Hi%table_insert_schema. congruence.
  - intros t2 Hw2 Hs Hm. unfold table_encode. rewrite !table_value_rows, Hs. do 4 f_equal.
    rewrite !rows_values by (apply Hw || apply Hw2). by fold (table_map t2) (table_map t); rewrite Hm.
Qed.

(** ** The row map *)

Section Stored.
Context `{hasher : Hasher} {S : Type} `{ops : !ObjectStore S} {U : bytes -> Prop} {ok : S -> Prop}
  `{laws : !StoreLaws S U ok}.
Implicit Types (s : S) (t : Table).

Lemma decode_stored_row (sch : Schema) k row :
  row_fits sch k row -> storable_row row -> decode_row (arity sch) (encode_row row) = Ok row.
Proof. intros (Hr & [Hl _]%check_row_Ok & _) [Hb Hd]. rewrite <-Hl. by apply decode_encode_row. Qed.

Lemma get_row_spec s t d pk :
  wf_table t -> map_Forall (fun _ row => storable_row row) (table_map t) -> Forall wf_cell pk ->
  stored s (Some d) (map_entries (table_map t)) -> get_row s (schema t) d pk = Ok (table_get t pk).
Proof.
  intros (Hs & Hr & Hm) Hst Hpk Hd. unfold get_row, table_get.
  rewrite (stored_get s d _ _ Hd), map_entries_lookup. cbn [mbind result_bind].
  rewrite rows_get_spec by done. fold (table_map t).
  destruct (table_map t !! encode_pk_values pk) as [row|] eqn:E; [|done]. cbn [fmap option_fmap option_map].
  by rewrite (decode_stored_row (schema t) _ row (Hm _ _ E) (Hst _ _ E)).
Qed.

Lemma load_rows_spec s t d :
  wf_table t -> map_Forall (fun _ row => storable_row row) (table_map t) ->
  stored s (Some d) (map_entries (table_map t)) ->
  exists t', load_rows s (schema t) d = Ok t' /\ wf_table t' /\ schema t' = schema t /\
    table_map t' = table_map t /\ map snd (rows t') = map snd (rows t).
Proof.
  intros Hw Hst Hd. destruct (reload_rows t Hw) as (t' & H & Hrest). exists t'. split; [|done].
  unfold load_rows. rewrite (stored_entries s d _ Hd). cbn [mbind result_bind]. rewrite <-H.
  rewrite rows_values by apply Hw. fold (table_map t). unfold map_entries.
  rewrite !try_fold_map. apply (try_fold_agree (fun t' => schema t' = schema t)); [done| |].
  - intros t1 [k row] Hs Hin%elem_of_btree_iter. cbn [fst snd]. pose proof Hw as (_ & _ & Hm).
    rewrite Hs, (decode_stored_row (schema t) k row (Hm _ _ Hin) (Hst _ _ Hin)). done.
  - intros t1 [k row] t2 Hs Hi%table_insert_schema. congruence.
Qed.

(** C29: the stored row map of a table stands for the table, where every row encodes within the nesting
    limit of 128 of the decoder (a table takes deeper rows, and they do not load back) and the
    store takes the objects of the row map: [build_rows] succeeds and returns a root that depends on the row
    set alone; a point lookup through the root returns what the table returns for every primary key, loading the root
    gives the same rows in the same order, and there is no root exactly when the table is empty. *)
Theorem table_storage s t :
  ok s -> wf_table t -> map_Forall (fun _ row => storable_row row) (table_map t) ->
  buildable (U := U) (digest_algo s) (map_entries (table_map t)) ->
  exists root s', build_rows t s = Ok (root, s') /\ ok s' /\ extends s s' /\
    (root = None <-> rows t = []) /\
    (forall t2, wf_rows (rows t2) -> table_map t2 = table_map t -> build_rows t2 s = build_rows t s) /\
    (forall d, root = Some d ->
      (forall pk, Forall wf_cell pk -> get_row s' (schema t) d pk = Ok (table_get t pk)) /\
      exists t', load_rows s' (schema t) d = Ok t' /\ wf_table t' /\ schema t' = schema t /\
        table_map t' = table_map t /\ map snd (rows t') = map snd (rows t)).
Proof.
  intros Hok Hw Hst Hb. assert (forall t2, wf_rows (rows t2) -> table_map t2 = table_map t ->
    build_rows t2 s = build s (map_entries (table_map t))) as Hbr.
  { intros t2 Hr Hm. unfold build_rows. rewrite row_entries_map, Hm by done. by rewrite sort_by_id by apply map_entries_sorted. }
  pose proof Hw as (_ & Hr & _). rewrite (Hbr t Hr eq_refl).
  destruct (stored_build s _ Hok (map_entries_sorted _) Hb) as (root & s' & H1 & H2 & H3 & H4).
  exists root, s'. split_and!; try done.
  - assert (rows t = [] <-> map_entries (table_map t) = []) as ->.
    { rewrite <-row_entries_map by done. unfold row_entries. destruct (rows t); naive_solver. }
    destruct H4 as [_ H4]. destruct root as [d|]; [|naive_solver]. destruct H4 as (tr & Hp & _).
    split; [done|]. intros E. by rewrite E in Hp.
  - intros d ->. split; [intros; by apply get_row_spec|]. by apply load_rows_spec.
Qed.

(** ** Range cursors *)

(** The row cursor returns these rows, one per call, and then reports its end. *)
Inductive row_drains (s : S) (sch : Schema) : Cursor -> list Row -> Prop :=
| row_drains_end cur cur' rounds :
    row_cursor_next rounds s sch cur = Some (Ok (None, cur')) -> row_drains s sch cur []
| row_drains_next cur row cur' rows rounds :
    row_cursor_next rounds s sch cur = Some (Ok (Some row, cur')) -> row_drains s sch cur' rows ->
    row_drains s sch cur (row :: rows).

Lemma row_drains_entries s sch cur (l : list (bytes * Row)) :
  drains s cur (map (fun e => (e.1, encode_row e.2)) l) ->
  Forall (fun e => decode_row (arity sch) (encode_row e.2) = Ok e.2) l -> row_drains s sch cur (map snd l).
Proof.
  intros Hd Hl. remember (map (fun e => (e.1, encode_row e.2)) l) as es eqn:E. revert l E Hl.
  induction Hd as [cur cur' rounds H|cur e cur' es rounds H Hd IH]; intros [|[k row] l] E Hl; try done.
  - apply (row_drains_end _ _ _ cur' rounds). unfold row_cursor_next. by rewrite H.
  - cbn [map fst snd] in E. injection E as -> E. apply Forall_cons in Hl as [Hr Hl]. cbn [snd] in Hr.
    apply (row_drains_next _ _ _ _ cur' _ rounds); [|by apply IH]. unfold row_cursor_next. rewrite H. cbn [snd]. by rewrite Hr.
Qed.

(** A primary key from [lo] on and below [hi]. *)
Definition in_range (lo hi : option (list Value)) (pk : list Value) : bool :=
  match lo with Some l => match pk_cmp pk l with Lt => false | _ => true end | None => true end &&
  match hi with Some h => match pk_cmp pk h with Lt => true | _ => false end | None => true end.

Lemma in_range_encoded lo hi pk v :
  Forall wf_cell pk -> (forall l, lo = Some l -> Forall wf_cell l) -> (forall h, hi = Some h -> Forall wf_cell h) ->
  in_range lo hi pk = true <->
  below_upper (row_map_key <$> hi) (encode_pk_values pk, v) /\ above_start (row_map_key <$> lo) (encode_pk_values pk, v).
Proof.
  intros Hpk Hlo Hhi. unfold in_range. rewrite andb_true_iff, (and_comm (below_upper _ _)).
  assert (forall k, Forall wf_cell k -> pk_cmp pk k = Lt <-> encode_pk_values pk <b encode_pk_values k) as Hlt.
  { intros k Hk. by rewrite <-cmp_pk. }
  destruct lo as [l|], hi as [h|]; cbn [fmap option_fmap option_map above_start below_upper fst]; unfold row_map_key;
    rewrite <-?Hlt by auto; repeat case_match; naive_solver.
Qed.

(** A range cursor over the stored row map returns exactly the rows whose primary key lies in the
    range asked for, by the order of values, once each and in key order. *)
Theorem table_range_scan s t d lo hi :
  wf_table t -> map_Forall (fun _ row => storable_row row) (table_map t) ->
  stored s (Some d) (map_entries (table_map t)) ->
  (forall l, lo = Some l -> Forall wf_cell l) -> (forall h, hi = Some h -> Forall wf_cell h) ->
  exists cur, row_cursor_open_range s d (row_map_key <$> lo) (row_map_key <$> hi) = Ok cur /\
    row_drains s (schema t) cur (map snd (filter (fun e => in_range lo hi e.1 = true) (rows t))).
Proof.
  intros Hw Hst Hd Hlo Hhi. pose proof Hw as (_ & Hr & Hm).
  destruct (stored_range s d _ (row_map_key <$> lo) (row_map_key <$> hi) Hd) as (cur & Ho & Hdr).
  exists cur. split; [exact Ho|]. rewrite <-row_entries_map in Hdr by done.
  set (rs := filter (fun e => in_range lo hi e.1 = true) (rows t)).
  replace (map snd rs) with (map snd (map enc_entry rs)) by (by rewrite map_map).
  apply row_drains_entries.
  - rewrite map_map. revert Hdr. unfold row_entries. match goal with |- drains _ _ ?a -> drains _ _ ?b => assert (a = b) as ->; [|done] end.
    subst rs. rewrite list_filter_filter. destruct Hr as [Hc _]. clear -Hc Hlo Hhi.
    induction Hc as [|[pk row] rs Hpk _ IH]; [done|]. cbn [map fst snd] in *. rewrite !filter_cons. cbn [fst].
    pose proof (in_range_encoded lo hi pk (encode_row row) Hpk Hlo Hhi) as Hi.
    repeat case_decide; cbn [map]; rewrite IH; naive_solver.
  - rewrite Forall_map. apply Forall_forall. intros [pk row] [_ Hin]%list_elem_of_filter.
    assert (table_map t !! encode_pk_values pk = Some row) as E.
    { apply elem_of_btree_iter. unfold table_map. rewrite <-rows_iter by done. apply list_elem_of_fmap. by exists (pk, row). }
    cbn [enc_entry snd]. by apply (decode_stored_row _ _ _ (Hm _ _ E) (Hst _ _ E)).
Qed.

End Stored.

(** ** A concrete table *)

#[local] Existing Instance toy_hasher.

Definition demo_rows : list Row :=
  [[VInt 7; VDecimal 15 1; VText (str "a")]; [VInt (-2); VNull; VText (str "b")]; [VInt 7; VDecimal 2 0; VNull]].

Definition demo_table : Table := foldl run_op (table_new sample_schema) (map OpInsert demo_rows).

Lemma buildable_nodes (l : list bytes) a es t :
  ProllyBuild.pure_build es = Some t ->
  forallb (fun n => bool_decide (enc a n ∈ l)) (ProllyBuild.nodes t) = true ->
  (hgt t <? MAX_DEPTH)%nat = true -> (N.of_nat (weight t) <? usize_max) = true ->
  buildable (U := fun b => b ∈ l) a es.
Proof.
  intros Hb Hn Hh Hw. right. exists t. split; [done|]. split; [|split; [by apply Nat.ltb_lt|by apply N.ltb_lt]].
  apply Forall_forall. intros n Hin. rewrite forallb_forall in Hn.
  by apply (bool_decide_eq_true_1 (enc a n ∈ l)), Hn, list_elem_of_In.
Qed.

Definition demo_entries : list Entry := Eval vm_compute in map_entries (table_map demo_table).
Definition demo_tree : tree := Eval vm_compute in default (Leaf []) (ProllyBuild.pure_build demo_entries).
Definition demo_universe : list bytes := Eval vm_compute in remove_dups (map (enc Blake3) (ProllyBuild.nodes demo_tree)).
Definition demo_U (b : bytes) : Prop := b ∈ demo_universe.

#[local] Instance demo_laws : StoreLaws MemoryStore demo_U (fun s => addressed s /\ within demo_U s).
Proof. apply finite_universe; vm_compute; reflexivity. Qed.

Lemma demo_entries_eq : map_entries (table_map demo_table) = demo_entries.
Proof. vm_compute. reflexivity. Qed.

Lemma demo_rows_wf : Forall wf_op (map OpInsert demo_rows).
Proof.
  unfold demo_rows. cbn [map]. rewrite !Forall_cons. cbn [wf_op]. unfold wf_row. rewrite !Forall_cons.
  split_and!; try apply Forall_nil_2; vm_compute; done.
Qed.

Lemma demo_wf : wf_table demo_table.
Proof. by apply (run_ops_refine (table_new sample_schema)); [apply table_new_wf, sample_schema_wf|apply demo_rows_wf]. Qed.

Lemma table_refines_map_witness :
  table_get demo_table [VInt 7] = Some [VInt 7; VDecimal 2 0; VNull] /\
  scan demo_table (PCompare 2 CEq VNull) = [[VInt 7; VDecimal 2 0; VNull]].
Proof.
  destruct (table_refines_map sample_schema (map OpInsert demo_rows)) as (_ & _ & H1 & _ & H2);
    [apply sample_schema_wf|apply demo_rows_wf|].
  fold demo_table in H1, H2. rewrite H1, H2; [split; reflexivity|].
  apply Forall_cons. split; [vm_compute; done|apply Forall_nil_2].
Defined.

Lemma table_typed_witness :
  table_insert demo_table [VText (str "7"); VNull; VNull] = Err InvalidArgument.
Proof.
  destruct (table_typed sample_schema (map OpInsert demo_rows) [VText (str "7"); VNull; VNull]) as (_ & [H _] & He);
    [apply sample_schema_wf|apply demo_rows_wf|]. fold demo_table in H, He.
  destruct (table_insert demo_table [VText (str "7"); VNull; VNull]) as [t'|e] eqn:E.
  - destruct H as [_ H]; [by exists t'|]. inversion H. discriminate.
  - f_equal. by apply He.
Defined.

Definition storable_rowb (row : Row) : bool :=
  (Codec.len (encode_row row) <=? u64_max) && (CodecFacts.depth (row_value row) <=? Codec.MAX_DEPTH)%nat.

Lemma demo_storable : map_Forall (fun _ row => storable_row row) (table_map demo_table).
Proof.
  assert (forallb (fun e => storable_rowb e.2) (btree_iter (table_map demo_table)) = true) as H by (vm_compute; reflexivity).
  intros k row Hin%elem_of_btree_iter. rewrite forallb_forall in H. apply list_elem_of_In, H in Hin.
  apply andb_true_iff in Hin as [H1%N.leb_le H2%Nat.leb_le]. done.
Qed.

Lemma demo_buildable : buildable (U := demo_U) Blake3 demo_entries.
Proof. apply (buildable_nodes _ _ _ demo_tree); vm_compute; reflexivity. Qed.

Lemma demo_empty_ok : addressed memory_new /\ within demo_U memory_new.
Proof. split; apply map_Forall_empty. Qed.

Lemma demo_stored :
  exists s d, stored (S := MemoryStore) s (Some d) demo_entries.
Proof.
  destruct (stored_build (U := demo_U) memory_new demo_entries demo_empty_ok) as (root & s & _ & _ & _ & H).
  - rewrite <-demo_entries_eq. apply map_entries_sorted.
  - apply demo_buildable.
  - destruct root as [d|]; [eauto|]. destruct H as [_ H]. discriminate H.
Qed.

Lemma table_storage_witness :
  exists d s', build_rows demo_table memory_new = Ok (Some d, s') /\
    get_row s' sample_schema d [VInt 7] = Ok (Some [VInt 7; VDecimal 2 0; VNull]).
Proof.
  destruct (table_storage (U := demo_U) memory_new demo_table demo_empty_ok demo_wf demo_storable)
    as (root & s' & H1 & _ & _ & H2 & _ & H3).
  - rewrite demo_entries_eq. apply demo_buildable.
  - destruct root as [d|]; [|exfalso; by assert (rows demo_table = []) by by apply H2].
    exists d, s'. split; [exact H1|]. destruct (H3 d eq_refl) as [H _]. change sample_schema with (schema demo_table).
    rewrite (H [VInt 7]); [reflexivity|]. apply Forall_cons. split; [vm_compute; done|apply Forall_nil_2].
Defined.

Lemma table_frame_witness :
  exists t', table_decode (table_encode demo_table) = Ok t' /\ map snd (rows t') = map snd (rows demo_table).
Proof.
  destruct (table_frame demo_table demo_wf) as [(t' & H1 & _ & _ & _ & H2) _].
  - vm_compute. reflexivity.
  - vm_compute. discriminate.
  - apply Nat.leb_le. vm_compute. reflexivity.
  - exists t'. auto.
Defined.

Lemma table_range_scan_witness :
  exists (s : MemoryStore) d cur, row_cursor_open_range s d (Some (row_map_key [VInt 0])) None = Ok cur /\
    row_drains s sample_schema cur [[VInt 7; VDecimal 2 0; VNull]].
Proof.
  destruct demo_stored as (s & d & H). exists s, d. rewrite <-demo_entries_eq in H.
  destruct (table_range_scan s demo_table d (Some [VInt 0]) None demo_wf demo_storable H) as (cur & H1 & H2).
  - intros l [= <-]. apply Forall_cons. split; [vm_compute; done|apply Forall_nil_2].
  - intros h. discriminate.
  - exists cur. split; [exact H1|exact H2].
Defined.

(** ** Rows that nest too deep *)

Fixpoint nested_list (n : nat) : Value := match n with O => VNull | Datatypes.S n => VList [nested_list n] end.

(** A table accepts a row that nests too deep and stores it, and reading it back fails: neither
    [insert] nor [build_rows] bounds the nesting of list and map cells, while the decoder refuses
    values more than 128 levels deep. *)
Theorem table_deep_row_unreadable :
  exists (sch : Schema) (row : Row) t d (s : MemoryStore),
    table_insert (table_new sch) row = Ok t /\ table_get t [VInt 1] = Some row /\
    build_rows t memory_new = Ok (Some d, s) /\ get_row s sch d [VInt 1] = Err CorruptObject.
Proof.
  pose (sch := mkSchema [(str "id", CT_Int); (str "tree", CT_List)] [0] []).
  pose (row := [VInt 1; nested_list 64]).
  pose (t := match table_insert (table_new sch) row with Ok t => t | Err _ => table_new sch end).
  pose (r := build_rows t memory_new).
  exists sch, row, t, (match r with Ok (Some d, _) => d | _ => mkDigest Blake3 [] end),
    (match r with Ok (_, s) => s | Err _ => memory_new end).
  split; [reflexivity|]. split; [reflexivity|]. split; vm_compute; reflexivity.
Qed.

End TableStore.
