(* ===== verification/TableIndex.v ===== *)
(** * Secondary indexes (crates/loom-core/src/tabular/index.rs)

    Index keys, the cursor that recovers the primary key from an index key, scans through an index,
    bulk construction and uniqueness. A cursor over key bytes is the bytes left; [Cur] of
    crates/loom-core/src/tabular/codec.rs reads as the cursor of the access-control list does. *)

From S2P Require Import Prelude Types Codec Cbor Store Prolly ProllyCursor Cursor Tabular Schema Table.

Module TableIndex.
Import Error Cbor Digest Store Prolly ProllyCursor Tabular Schema Table.

(** ** Keys *)

Definition encode_index_key (s : Schema) (idx : IndexDef) (row : Row) : res bytes :=
  cols ← select row (i_columns idx);
  pk ← select row (primary_key s);
  Ok (encode_pk_values cols ++ encode_pk_values pk).

Definition encode_index_prefix (values : list Value) : bytes := encode_pk_values values.

(** ** Skipping encoded values *)

Definition key_u8 : bytes -> res (N * bytes) := Cursor.cur_u8.
Definition key_take (n : N) : bytes -> res (bytes * bytes) := Cursor.cur_take n.
Definition key_uvarint : bytes -> res (N * bytes) := Cursor.cur_uvarint.

Fixpoint skip_orderpreserving_bytes (rest : bytes) : res bytes :=
  match rest with
  | [] => Err CorruptObject
  | b :: rest =>
      if bool_decide (b = x00) then
        match rest with
        | [] => Err CorruptObject
        | c :: rest =>
            if bool_decide (c = x00) then Ok rest
            else if bool_decide (c = xff) then skip_orderpreserving_bytes rest
            else Err CorruptObject
        end
      else skip_orderpreserving_bytes rest
  end.

(** [while c.u8()? != term {}] *)
Fixpoint skip_until (term : byte) (rest : bytes) : res bytes :=
  match rest with
  | [] => Err CorruptObject
  | b :: rest => if bool_decide (b = term) then Ok rest else skip_until term rest
  end.

Definition skip_decimal_key (rest : bytes) : res bytes :=
  '(marker, rest) ← key_u8 rest;
  if marker =? 0x80 then Ok rest
  else
    term ← (if marker =? 0x81 then Ok x00 else if marker =? 0x7f then Ok xff else Err CorruptObject);
    '(_, rest) ← key_take 8 rest;
    skip_until term rest.

Definition skip_take (n : N) (rest : bytes) : res bytes := '(_, rest) ← key_take n rest; Ok rest.
Definition skip_byte (rest : bytes) : res bytes := '(_, rest) ← key_u8 rest; Ok rest.

(** [for _ in 0..n { p(c)?; }]: every item takes at least one byte, so the bytes left bound the
    iterations. *)
Definition skip_many (p : bytes -> res bytes) (n : N) (rest : bytes) : res bytes :=
  '(_, rest) ← Cursor.cur_repeat (fun rest => rest ← p rest; Ok ((), rest)) n rest; Ok rest.

(** Every nested value starts at least one byte further, so the bytes left bound the nesting. *)
Fixpoint skip_at (levels : nat) (rest : bytes) : res bytes :=
  match levels with
  | O => Err CorruptObject
  | S levels =>
      '(r, rest) ← key_u8 rest;
      match r with
      | 0 => Ok rest
      | 1 | 6 | 10 => skip_byte rest
      | 7 | 11 => skip_take 2 rest
      | 8 | 12 | 15 | 17 => skip_take 4 rest
      | 2 | 3 | 13 | 18 | 19 => skip_take 8 rest
      | 9 | 14 | 21 => skip_take 16 rest
      | 20 => skip_take 12 rest
      | 23 => skip_take 16 rest
      | 4 | 5 => skip_orderpreserving_bytes rest
      | 16 => skip_decimal_key rest
      | 22 =>
          '(family, rest) ← key_u8 rest;
          match family with
          | 0 => skip_take 4 rest
          | 1 => skip_take 16 rest
          | _ => Err CorruptObject
          end
      | 24 => '(n, rest) ← key_uvarint rest; skip_many (skip_at levels) n rest
      | 25 =>
          '(n, rest) ← key_uvarint rest;
          skip_many (fun rest => rest ← skip_orderpreserving_bytes rest; skip_at levels rest) n rest
      | _ => Err CorruptObject
      end
  end.

Definition skip_key_value (rest : bytes) : res bytes := skip_at (length rest + 1) rest.

(** The bytes of the primary key behind the [nidx] indexed columns. *)
Fixpoint index_row_map_key (index_key : bytes) (nidx : nat) : res bytes :=
  match nidx with
  | O => Ok index_key
  | S nidx => rest ← skip_key_value index_key; index_row_map_key rest nidx
  end.

(** ** Scans *)

Inductive IndexBound : Type :=
| BEq (values : list Value)
| BGt (v : Value)
| BGtEq (v : Value)
| BLt (v : Value)
| BLtEq (v : Value)
| BAll.

(** The same loop as [upper_bound] of the prolly module. *)
Definition prefix_successor (prefix : bytes) : option bytes := upper_bound prefix.

(** [None]: no row qualifies. *)
Definition range_of (bound : IndexBound) : option (option bytes * option bytes) :=
  match bound with
  | BGtEq v => Some (Some (encode_index_prefix [v]), None)
  | BGt v =>
      match prefix_successor (encode_index_prefix [v]) with
      | Some s => Some (Some s, None)
      | None => None
      end
  | BLt v => Some (None, Some (encode_index_prefix [v]))
  | BLtEq v => Some (None, prefix_successor (encode_index_prefix [v]))
  | BEq _ | BAll => None
  end.

Section Scan.
Context `{hasher : Hasher} {S : Type} `{ops : !ObjectStore S}.

(** [while let Some(e) = cur.next()? { v.push(e); }]; [fuel] bounds the entries and the rounds of
    each call. *)
Fixpoint collect_cursor (fuel : nat) (store : S) (cur : Cursor) : option (res (list Entry)) :=
  match fuel with
  | O => None
  | Datatypes.S fuel' =>
      match cursor_next fuel store cur with
      | None => None
      | Some (Err e) => Some (Err e)
      | Some (Ok (None, _)) => Some (Ok [])
      | Some (Ok (Some e, cur)) =>
          match collect_cursor fuel' store cur with
          | Some (Ok es) => Some (Ok (e :: es))
          | r => r
          end
      end
  end.

Definition fetch_row (store : S) (s : Schema) (nidx : nat) (rows_root : Digest) (out : list Row) (e : Entry)
    : res (list Row) :=
  pk_key ← index_row_map_key e.1 nidx;
  o ← lookup_key store rows_root pk_key;
  match o with
  | Some value => row ← decode_row (arity s) value; Ok (out ++ [row])
  | None => Ok out
  end.

Definition fetch_rows (store : S) (s : Schema) (nidx : nat) (rows_root : Digest) (es : list Entry) : res (list Row) :=
  try_fold (fetch_row store s nidx rows_root) [] es.

Definition index_scan_rows (fuel : nat) (store : S) (s : Schema) (index_name : bytes) (rows_root index_root : Digest)
    (bound : IndexBound) : option (res (list Row)) :=
  match index s index_name with
  | None => Some (Err NotFound)
  | Some idx =>
      let fetch := fetch_rows store s (length (i_columns idx)) rows_root in
      match bound with
      | BEq values => Some (es ← scan_prefix store index_root (encode_index_prefix values); fetch es)
      | BAll => Some (es ← entries store index_root; fetch es)
      | _ =>
          match range_of bound with
          | None => Some (Ok [])
          | Some (start, upper) =>
              match open_range store index_root start upper with
              | Err e => Some (Err e)
              | Ok cur =>
                  match collect_cursor fuel store cur with
                  | None => None
                  | Some (Err e) => Some (Err e)
                  | Some (Ok es) => Some (fetch es)
                  end
              end
          end
      end
  end.

(** ** Construction *)

(** The rows of one index: the first prefix seen twice is a violation. *)
Fixpoint duplicate_prefix (idx : IndexDef) (seen : gset bytes) (rows : list Row) : res bool :=
  match rows with
  | [] => Ok false
  | row :: rows =>
      values ← select row (i_columns idx);
      let prefix := encode_index_prefix values in
      if bool_decide (prefix ∈ seen) then Ok true else duplicate_prefix idx ({[prefix]} ∪ seen) rows
  end.

Fixpoint unique_conflict_in (idxs : list IndexDef) (rows : list Row) : res (option bytes) :=
  match idxs with
  | [] => Ok None
  | idx :: idxs =>
      dup ← duplicate_prefix idx ∅ rows;
      if dup : bool then Ok (Some (i_name idx)) else unique_conflict_in idxs rows
  end.

Definition unique_conflict (s : Schema) (rows : list Row) : res (option bytes) :=
  unique_conflict_in (filter (fun i => i_unique i = true) (indexes s)) rows.

Definition index_entry (s : Schema) (idx : IndexDef) (row : Row) : res Entry :=
  k ← encode_index_key s idx row; Ok (k, []).

Definition build_index (s : Schema) (rows : list Row) (acc : list (bytes * Digest) * S) (idx : IndexDef)
    : res (list (bytes * Digest) * S) :=
  kv ← try_map (index_entry s idx) rows;
  '(root, store) ← build acc.2 (sort_by fst kv);
  Ok (match root with Some d => acc.1 ++ [(i_name idx, d)] | None => acc.1 end, store).

Definition build_indexes (store : S) (s : Schema) (rows : list Row) : res (list (bytes * Digest) * S) :=
  conflict ← unique_conflict s rows;
  match conflict with
  | Some _ => Err InvalidArgument
  | None => try_fold (build_index s rows) ([], store) (indexes s)
  end.

Definition build_index_roots (t : Table) (store : S) : res (list (bytes * Digest) * S) :=
  build_indexes store (schema t) (map snd (rows t)).

Definition stored_rows (store : S) (s : Schema) (rows_root : option Digest) : res (list Row) :=
  match rows_root with
  | Some r => es ← entries store r; try_map (fun e => decode_row (arity s) e.2) es
  | None => Ok []
  end.

Definition rows_violate_unique (store : S) (s : Schema) (rows_root : option Digest) : res bool :=
  if negb (existsb i_unique (indexes s)) then Ok false
  else
    rows ← stored_rows store s rows_root;
    conflict ← unique_conflict s rows;
    Ok (bool_decide (is_Some conflict)).

Definition build_indexes_from_rows (store : S) (s : Schema) (rows_root : option Digest)
    : res (list (bytes * Digest) * S) :=
  rows ← stored_rows store s rows_root;
  build_indexes store s rows.

(** ** Incremental maintenance *)

Definition insert_index (s : Schema) (old : option bytes) (row : Row) (acc : list (option Digest) * S)
    (ic : IndexDef * option Digest) : res (list (option Digest) * S) :=
  let '(idx, root) := ic in
  let '(out, store) := acc in
  '(root, store) ←
    match old with
    | Some old_val =>
        old_row ← decode_row (arity s) old_val;
        old_key ← encode_index_key s idx old_row;
        match root with
        | Some r => remove_key store r old_key
        | None => Ok (root, store)
        end
    | None => Ok (root, store)
    end;
  _ ←
    match i_unique idx, root with
    | true, Some r =>
        values ← select row (i_columns idx);
        found ← scan_prefix store r (encode_index_prefix values);
        match found with [] => Ok () | _ :: _ => Err InvalidArgument end
    | _, _ => Ok ()
    end;
  new_key ← encode_index_key s idx row;
  '(d, store) ← insert_key store root new_key [];
  Ok (out ++ [Some d], store).

Definition insert_row (store : S) (s : Schema) (rows_root : option Digest) (index_roots : list (option Digest))
    (row : Row) : res (option Digest * list (option Digest) * S) :=
  _ ← check_row s row;
  pk ← select row (primary_key s);
  let pk_key := encode_pk_values pk in
  let row_val := encode_row row in
  old ← match rows_root with Some r => lookup_key store r pk_key | None => Ok None end;
  '(d, store) ← insert_key store rows_root pk_key row_val;
  '(new_index, store) ← try_fold (insert_index s old row) ([], store) (zip (indexes s) index_roots);
  Ok (Some d, new_index, store).

Definition delete_index (s : Schema) (old_row : Row) (acc : list (option Digest) * S)
    (ic : IndexDef * option Digest) : res (list (option Digest) * S) :=
  let '(idx, root) := ic in
  let '(out, store) := acc in
  old_key ← encode_index_key s idx old_row;
  match root with
  | Some r => '(root, store) ← remove_key store r old_key; Ok (out ++ [root], store)
  | None => Ok (out ++ [None], store)
  end.

Definition delete_row (store : S) (s : Schema) (rows_root : option Digest) (index_roots : list (option Digest))
    (pk : list Value) : res (option Digest * list (option Digest) * bool * S) :=
  let pk_key := encode_pk_values pk in
  old ← match rows_root with Some r => lookup_key store r pk_key | None => Ok None end;
  match old with
  | None => Ok (rows_root, index_roots, false, store)
  | Some old_val =>
      '(new_rows, store) ← match rows_root with Some r => remove_key store r pk_key | None => Ok (None, store) end;
      old_row ← decode_row (arity s) old_val;
      '(new_index, store) ← try_fold (delete_index s old_row) ([], store) (zip (indexes s) index_roots);
      Ok (new_rows, new_index, true, store)
  end.
End Scan.

End TableIndex.
