(* ===== verification/TableIndexProps.v ===== *)
(** * Secondary indexes: scans return exactly the rows asked for

    The cursor over index keys skips exactly one encoded value, so the primary key behind the indexed
    columns is recovered; a scan through a built index returns the rows that satisfy its bound, in
    index order; and uniqueness is equality of the indexed values. *)

From S2P Require Import Prelude Types Codec CodecFacts Cbor Store Prolly ProllyTree ProllyRead ProllyCursor ProllyMap Cursor Tabular TabularKeys TabularDecimal TabularOrder TabularCells Schema Table TableStore TableIndex.

Module TableIndexProps.
Import Error Cbor Digest Store Prolly ProllyTree ProllyRead ProllyCursor ProllyMap Tabular TabularOrder TabularCells Schema Table TableProps TableStore TableIndex.

(** ** Skipping *)

Lemma key_u8_cons b rest : key_u8 (b :: rest) = Ok (Byte.to_N b, rest).
Proof. done. Qed.

Lemma skip_take_app n (b rest : bytes) : Codec.len b = n -> skip_take n (b ++ rest) = Ok rest.
Proof.
  intros <-. unfold skip_take, key_take, Cursor.cur_take, Cursor.len, Codec.len.
  rewrite length_app, (proj2 (N.leb_le _ _)) by lia. cbn [mbind result_bind].
  by rewrite Nat2N.id, drop_app_length.
Qed.

Lemma skip_stuffed b rest : skip_orderpreserving_bytes (encode_orderpreserving_bytes b ++ rest) = Ok rest.
Proof.
  induction b as [|x b IH]; [done|]. cbn [encode_orderpreserving_bytes]. case_bool_decide as Hx; cbn [app skip_orderpreserving_bytes].
  - exact IH.
  - by rewrite bool_decide_eq_false_2.
Qed.

Lemma skip_until_app term l rest : Forall (fun b => b <> term) l -> skip_until term (l ++ term :: rest) = Ok rest.
Proof.
  induction 1 as [|b l Hb _ IH]; cbn [app skip_until]; [by rewrite bool_decide_eq_true_2|].
  by rewrite bool_decide_eq_false_2.
Qed.

Lemma key_take_app n (b rest : bytes) : Codec.len b = n -> key_take n (b ++ rest) = Ok (b, rest).
Proof.
  intros <-. unfold key_take, Cursor.cur_take, Cursor.len, Codec.len.
  rewrite length_app, (proj2 (N.leb_le _ _)) by lia. by rewrite Nat2N.id, take_app_length, drop_app_length.
Qed.

Lemma skip_decimal_body term exp (f : N -> byte) (ds : list N) rest :
  Codec.len exp = 8 -> Forall (fun d => f d <> term) ds ->
  ('(_, rest) ← key_take 8 ((exp ++ map f ds ++ [term]) ++ rest); skip_until term rest) = Ok rest.
Proof.
  intros He Hd. rewrite <-!app_assoc. rewrite (key_take_app 8) by done. cbn [mbind result_bind app].
  apply skip_until_app. by rewrite Forall_map.
Qed.

Lemma skip_decimal m s rest :
  TabularDecimal.wf_decimal m s -> skip_decimal_key (encode_decimal_key m s ++ rest) = Ok rest.
Proof.
  intros Hm. pose proof (TabularDecimal.wf_magnitude m s Hm) as Hw. rewrite TabularDecimal.decimal_key_cases.
  assert (forall p, Codec.len (TabularDecimal.exponent_bytes p s) = 8) as He.
  { intros p. unfold Codec.len, TabularDecimal.exponent_bytes. by rewrite length_to_be_bytes. }
  assert (forall a b, a < 256 -> b < 256 -> a <> b -> as_u8 a <> as_u8 b) as Hne.
  { intros a b Ha Hb Hab E%(f_equal Byte.to_N). by rewrite !as_u8_small in E by lia. }
  destruct m as [|p|p]; [done| |]; specialize (Hw ltac:(done)); apply TabularDecimal.significant_digits in Hw;
    unfold TabularDecimal.digit in Hw; cbn [app]; unfold skip_decimal_key; rewrite key_u8_cons.
  - apply (skip_decimal_body x00); [apply He|]. eapply Forall_impl; [exact Hw|]. intros d Hd. cbn beta in Hd.
    change x00 with (as_u8 0). apply Hne; lia.
  - apply (skip_decimal_body xff); [unfold Codec.len in *; rewrite length_map; apply He|].
    eapply Forall_impl; [exact Hw|]. intros d Hd. cbn beta in Hd. change xff with (as_u8 255). apply Hne; lia.
Qed.

(** A counted sequence of items of at least one byte each. *)
Lemma skip_many_app {B} (p : bytes -> res bytes) (w : B -> bytes) xs rest :
  Forall (fun x => (forall rest, p (w x ++ rest) = Ok rest) /\ w x <> []) xs ->
  skip_many p (N.of_nat (length xs)) (concat (map w xs) ++ rest) = Ok rest.
Proof.
  intros Hxs. unfold skip_many, Cursor.cur_repeat.
  assert (length xs <= length (concat (map w xs) ++ rest))%nat as Hf.
  { rewrite length_app. induction Hxs as [|x xs [_ Hne] _ IH]; simpl; [lia|].
    rewrite length_app. destruct (w x); [done|simpl; lia]. }
  revert Hf. generalize (length (concat (map w xs) ++ rest)). intros fuel.
  cut ((length xs <= fuel)%nat -> exists us, Cursor.cur_many (fun rest => rest ← p rest; Ok ((), rest)) fuel (N.of_nat (length xs))
    (concat (map w xs) ++ rest) = Ok (us, rest)).
  { intros H Hf. destruct (H Hf) as (us & ->). done. }
  revert fuel. induction Hxs as [|x xs [Hr Hne] _ IH]; intros fuel Hf; [exists []; by destruct fuel|].
  destruct fuel as [|fuel]; [simpl in Hf; lia|]. cbn [length map concat Cursor.cur_many].
  rewrite (proj2 (N.eqb_neq _ _)) by lia. rewrite <-app_assoc, Hr. cbn [mbind result_bind].
  replace (N.of_nat (S (length xs)) - 1) with (N.of_nat (length xs)) by lia.
  destruct (IH fuel) as (us & ->); [simpl in Hf; lia|]. by exists (() :: us).
Qed.

Definition skips (v : Value) : Prop :=
  wf_cell v -> forall levels rest, (length (key_bytes v) <= levels)%nat -> skip_at levels (key_bytes v ++ rest) = Ok rest.

Lemma word_len k n : Codec.len (to_be_bytes k n) = N.of_nat k.
Proof. unfold Codec.len. by rewrite length_to_be_bytes. Qed.

Lemma scalar_skips v : is_scalar v = true -> skips v.
Proof.
  intros Hs Hv levels rest Hl. destruct levels as [|levels]; [by rewrite key_bytes_body in Hl; simpl in Hl; lia|]. clear Hl.
  destruct v as [| | | | | | | | | | | | | | | | | | | | | |[o|o]| | |]; try discriminate Hs; clear Hs;
    cbn [key_bytes rank app skip_at]; rewrite key_u8_cons; cbn [mbind result_bind]; rewrite as_u8_small by done; cbn iota;
    try done; try (apply skip_take_app; by rewrite ?word_len); try apply skip_stuffed.
  - by apply skip_decimal.
  - rewrite key_u8_cons. cbn [mbind result_bind]. apply skip_take_app. unfold Codec.len. by rewrite Hv.
  - rewrite key_u8_cons. cbn [mbind result_bind]. apply skip_take_app. unfold Codec.len. by rewrite Hv.
Qed.

Lemma concat_length_le {B} (w : B -> bytes) xs x : x ∈ xs -> (length (w x) <= length (concat (map w xs)))%nat.
Proof.
  induction 1 as [x xs|x y xs _ IH]; cbn [map concat]; rewrite length_app; lia.
Qed.

Lemma list_skips items : Forall skips items -> skips (VList items).
Proof.
  intros IH [Hl Hv]%wf_VList levels rest Hlev. cbn [key_bytes rank length] in Hlev. rewrite length_app in Hlev.
  destruct levels as [|levels]; [lia|]. cbn [key_bytes rank app skip_at]. rewrite key_u8_cons. cbn [mbind result_bind].
  rewrite as_u8_small by done. cbn iota. unfold as_u64 in *. rewrite N.mod_small in * by done. rewrite <-app_assoc.
  unfold key_uvarint. rewrite (Cursor.reads_uvarint (Codec.len items)) by (unfold u64_max; lia). cbn [mbind result_bind].
  apply skip_many_app. apply Forall_forall. intros v Hin. rewrite Forall_forall in IH, Hv.
  split; [|by rewrite key_bytes_body]. intros rest'. apply IH; [done|by apply Hv|].
  pose proof (concat_length_le key_bytes items v Hin). lia.
Qed.

Lemma map_skips entries : Forall (fun e => skips e.2) entries -> skips (VMap entries).
Proof.
  intros IH (Hl & _ & _ & Hv)%wf_VMap levels rest Hlev. cbn [key_bytes rank length] in Hlev. rewrite length_app in Hlev.
  destruct levels as [|levels]; [lia|]. cbn [key_bytes rank app skip_at]. rewrite key_u8_cons. cbn [mbind result_bind].
  rewrite as_u8_small by done. cbn iota. unfold as_u64 in *. rewrite N.mod_small in * by done. rewrite <-app_assoc.
  unfold key_uvarint. rewrite (Cursor.reads_uvarint (Codec.len entries)) by (unfold u64_max; lia). cbn [mbind result_bind].
  apply (skip_many_app _ entry_key). apply Forall_forall. intros e Hin. rewrite Forall_forall in IH, Hv. unfold entry_key. split.
  - intros rest'. rewrite <-app_assoc, skip_stuffed. cbn [mbind result_bind]. apply IH; [done|by apply Hv|].
    pose proof (concat_length_le entry_key entries e Hin) as H. unfold entry_key in H. rewrite length_app in H. lia.
  - rewrite key_bytes_body. by destruct (encode_orderpreserving_bytes e.1).
Qed.

Lemma value_skips v : skips v.
Proof. induction v using cell_ind; auto using scalar_skips, list_skips, map_skips. Qed.

Lemma skip_key_value_app v rest : wf_cell v -> skip_key_value (key_bytes v ++ rest) = Ok rest.
Proof. intros Hv. apply value_skips; [done|]. rewrite length_app. lia. Qed.

Lemma index_row_map_key_app values rest :
  Forall wf_cell values -> index_row_map_key (encode_pk_values values ++ rest) (length values) = Ok rest.
Proof.
  unfold encode_pk_values. induction 1 as [|v values Hv _ IH]; [done|]. cbn [map concat length index_row_map_key].
  by rewrite <-app_assoc, skip_key_value_app.
Qed.

(** ** Bounds on encoded keys *)

Lemma key_below c v x : wf_cell c -> wf_cell v -> key_bytes c ++ x <b key_bytes v <-> value_cmp c v = Lt.
Proof.
  intros Hc Hv. unfold bytes_lt. rewrite <-(app_nil_r (key_bytes v)), cmp_key_app, cmp_key by done.
  destruct (value_cmp c v); cbn [cmp_then]; [|done..]. by destruct x.
Qed.

Lemma key_prefix c v x : wf_cell c -> wf_cell v -> starts_with (key_bytes c ++ x) (key_bytes v) = true <-> value_cmp c v = Eq.
Proof.
  intros Hc Hv. rewrite <-cmp_key, cmp_bytes_eq, starts_with_app by done. split.
  - intros (r & E). by apply key_prefix_free in E as [E _].
  - intros ->. eauto.
Qed.

Lemma key_successor c v x u :
  wf_cell c -> wf_cell v -> upper_bound (key_bytes v) = Some u -> key_bytes c ++ x <b u <-> value_cmp c v <> Gt.
Proof.
  intros Hc Hv Hu. assert (key_bytes v <b u) as Hvu.
  { apply (starts_with_range (key_bytes v)); [|done]. apply starts_with_app. exists []. by rewrite app_nil_r. }
  pose proof (key_below c v x Hc Hv) as Hlt. pose proof (key_prefix c v x Hc Hv) as Heq.
  rewrite starts_with_range in Heq. split.
  - intros H E. destruct (bytes_lt_trichotomy (key_bytes c ++ x) (key_bytes v)) as [H'|H'];
      [apply Hlt in H'; congruence|].
    assert (value_cmp c v = Eq); [|congruence]. apply Heq. split; [|intros u' E'; congruence].
    apply bytes_le_lt. destruct H'; [by left|by right].
  - intros H. destruct (value_cmp c v) eqn:E; [by apply Heq| |done]. etrans; [by apply Hlt|done].
Qed.

Lemma upper_bound_Some b p : Byte.to_N b < 255 -> exists u, upper_bound (b :: p) = Some u.
Proof.
  intros Hb. induction p as [|c p IH] using rev_ind.
  - change [b] with ([] ++ [b]). rewrite upper_bound_snoc, (proj2 (N.ltb_lt _ _)) by done. eauto.
  - rewrite app_comm_cons, upper_bound_snoc. destruct (_ <? 255); eauto.
Qed.

Lemma key_has_successor v : exists u, upper_bound (key_bytes v) = Some u.
Proof.
  rewrite key_bytes_body. apply upper_bound_Some. pose proof (rank_lt v). rewrite as_u8_small; lia.
Qed.

Lemma starts_with_pk a b :
  Forall wf_cell a -> Forall wf_cell b ->
  starts_with (encode_pk_values a) (encode_pk_values b) = true <-> pk_cmp (take (length b) a) b = Eq.
Proof.
  intros Ha Hb. revert a Ha. unfold encode_pk_values. induction Hb as [|w b Hw _ IH]; intros a Ha.
  { cbn [map concat length take]. rewrite take_0. split; [done|]. intros _. apply starts_with_app. eauto. }
  destruct Ha as [|v a Hv Ha]; cbn [map concat length take].
  { split; [|done]. intros (r & E)%starts_with_app. by rewrite key_bytes_body in E. }
  rewrite pk_cmp_cons. rewrite starts_with_app. setoid_rewrite <-app_assoc. split.
  - intros (r & E). apply key_prefix_free in E as [E1 E2]; [|done..]. apply cmp_bytes_eq in E1. rewrite cmp_key in E1 by done.
    rewrite E1. cbn [cmp_then]. apply IH; [done|]. apply starts_with_app. eauto.
  - intros E. destruct (value_cmp v w) eqn:Evw; try done. cbn [cmp_then] in E. apply IH in E; [|done].
    apply starts_with_app in E as (r & E). exists r. rewrite E. f_equal. apply cmp_bytes_eq. by rewrite cmp_key.
Qed.

(** What a bound asks of the values of an index key: the indexed columns, then the primary key. *)
Definition bound_holds (bound : IndexBound) (vs : list Value) : bool :=
  match bound with
  | BEq values => match pk_cmp (take (length values) vs) values with Eq => true | _ => false end
  | BAll => true
  | BGt v => match vs with c :: _ => match value_cmp c v with Gt => true | _ => false end | [] => false end
  | BGtEq v => match vs with c :: _ => match value_cmp c v with Lt => false | _ => true end | [] => false end
  | BLt v => match vs with c :: _ => match value_cmp c v with Lt => true | _ => false end | [] => false end
  | BLtEq v => match vs with c :: _ => match value_cmp c v with Gt => false | _ => true end | [] => false end
  end.

Definition wf_bound (bound : IndexBound) : Prop :=
  match bound with
  | BEq values => Forall wf_cell values
  | BAll => True
  | BGt v | BGtEq v | BLt v | BLtEq v => wf_cell v
  end.

Definition is_range (bound : IndexBound) : bool := match bound with BEq _ | BAll => false | _ => true end.

Lemma range_of_spec bound c vs x :
  is_range bound = true -> wf_bound bound -> wf_cell c -> Forall wf_cell vs ->
  exists st up, range_of bound = Some (st, up) /\
    (below_upper up (encode_pk_values (c :: vs), x) /\ above_start st (encode_pk_values (c :: vs), x) <->
     bound_holds bound (c :: vs) = true).
Proof.
  intros Hr Hb Hc Hvs. unfold encode_pk_values. cbn [map concat].
  destruct bound as [| v|v|v|v|]; try done; cbn [range_of bound_holds wf_bound] in *;
    unfold encode_index_prefix, prefix_successor, encode_pk_values; cbn [map concat]; rewrite app_nil_r;
    destruct (key_has_successor v) as [u Hu]; rewrite ?Hu; eexists _, _; (split; [reflexivity|]);
    cbn [below_upper above_start fst]; rewrite ?(key_below c v _ Hc Hb), ?(key_successor c v _ u Hc Hb Hu);
    destruct (value_cmp c v); naive_solver.
Qed.

(** ** Draining a cursor *)

Section Scan.
Context `{hasher : Hasher} {S : Type} `{ops : !ObjectStore S} {U : bytes -> Prop} {ok : S -> Prop}
  `{laws : !StoreLaws S U ok}.
Implicit Types (s : S) (t : Table).

Lemma cursor_next_mono rounds rounds' s cur r :
  (rounds <= rounds')%nat -> cursor_next rounds s cur = Some r -> cursor_next rounds' s cur = Some r.
Proof.
  revert rounds' cur. induction rounds as [|rounds IH]; intros rounds' cur Hle;
    (destruct rounds' as [|rounds']; [try lia; done|]); cbn [cursor_next].
  - by destruct (leaf cur !! leaf_idx cur) as [[k v]|].
  - destruct (leaf cur !! leaf_idx cur) as [[k v]|]; [done|]. destruct (next_child _) as [[c st]|]; [|done].
    destruct (descend_from _ _ _); [|done]. apply IH. lia.
Qed.

Lemma collect_cursor_spec s cur es :
  drains s cur es -> exists fuel, forall fuel', (fuel <= fuel')%nat -> collect_cursor fuel' s cur = Some (Ok es).
Proof.
  induction 1 as [cur cur' rounds H|cur e cur' es rounds H _ (fuel & IH)].
  - exists (rounds + 1)%nat. intros [|fuel'] Hf; [lia|]. cbn [collect_cursor].
    by rewrite (cursor_next_mono rounds (Datatypes.S fuel') _ _ _ ltac:(lia) H).
  - exists (rounds + fuel + 1)%nat. intros [|fuel'] Hf; [lia|]. cbn [collect_cursor].
    rewrite (cursor_next_mono rounds (Datatypes.S fuel') _ _ _ ltac:(lia) H). by rewrite IH by lia.
Qed.

(** ** Index entries *)

Lemma encode_pk_values_app a b : encode_pk_values (a ++ b) = encode_pk_values a ++ encode_pk_values b.
Proof. unfold encode_pk_values. by rewrite map_app, concat_app. Qed.

(** The values an index key of [row] encodes. *)
Definition index_values (sch : Schema) (idx : IndexDef) (row : Row) : res (list Value) :=
  select row (i_columns idx ++ primary_key sch).

Definition index_list (sch : Schema) (idx : IndexDef) (rows : list Row) : list (bytes * Row) :=
  sort_by fst (map (fun row =>
    (match encode_index_key sch idx row with Ok k => k | Err _ => [] end, row)) rows).

Definition index_entries (sch : Schema) (idx : IndexDef) (rows : list Row) : list Entry :=
  map (fun e => (e.1, [])) (index_list sch idx rows).

Definition row_holds (sch : Schema) (idx : IndexDef) (bound : IndexBound) (row : Row) : bool :=
  match index_values sch idx row with Ok vs => bound_holds bound vs | Err _ => false end.

(** The rows that satisfy a bound, in index order. *)
Definition index_rows (sch : Schema) (idx : IndexDef) (bound : IndexBound) (rows : list Row) : list Row :=
  map snd (filter (fun e => row_holds sch idx bound e.2 = true) (index_list sch idx rows)).

Lemma select_app row a b vs :
  select row (a ++ b) = Ok vs <-> exists va vb, vs = va ++ vb /\ select row a = Ok va /\ select row b = Ok vb.
Proof.
  setoid_rewrite select_Ok. split.
  - intros (va & vb & Ha & Hb & ->)%Forall2_app_inv_l. eauto.
  - intros (va & vb & -> & Ha & Hb). by apply Forall2_app.
Qed.

(** What the scan needs to know of a row under its index key. *)
Lemma index_row_facts t idx k row :
  wf_table t -> wf_index (Codec.len (columns (schema t))) idx -> (k, row) ∈ index_list (schema t) idx (map snd (rows t)) ->
  exists va pk, index_values (schema t) idx row = Ok (va ++ pk) /\ k = encode_pk_values (va ++ pk) /\
    length va = length (i_columns idx) /\ pk <> [] /\ Forall wf_cell va /\ Forall wf_cell pk /\
    table_map t !! encode_pk_values pk = Some row.
Proof.
  intros (Hs & Hr & Hm) (_ & _ & Hi) Hin. unfold index_list in Hin. rewrite sort_by_perm in Hin.
  apply list_elem_of_fmap in Hin as (row' & [= -> ->] & Hin).
  rewrite rows_values in Hin by done. apply list_elem_of_fmap in Hin as ([kk r] & Er & Hin). cbn [snd] in Er. subst r.
  apply elem_of_btree_iter in Hin. destruct (Hm kk row' Hin) as ([_ Hw] & [Hl _]%check_row_Ok & pk & Hk & <-).
  destruct (select_total row' (i_columns idx)) as [va Hva]; [unfold Codec.len in *; rewrite Hl; exact Hi|].
  exists va, pk. unfold encode_index_key. unfold key_of in Hk. rewrite Hva, Hk. cbn [mbind result_bind]. split_and!; try done.
  - apply select_app. eauto.
  - by rewrite encode_pk_values_app.
  - apply select_Ok, Forall2_length in Hva. done.
  - intros ->. apply select_Ok in Hk. inversion Hk as [E|]. destruct Hs as (_ & Hp & _). done.
  - by eapply select_wf.
  - by eapply select_wf.
Qed.

Lemma fetch_row_Ok s sch nidx rd out (e : Entry) pk value row :
  index_row_map_key e.1 nidx = Ok pk -> lookup_key s rd pk = Ok (Some value) -> decode_row (arity sch) value = Ok row ->
  fetch_row s sch nidx rd out e = Ok (out ++ [row]).
Proof.
  intros H0 H1 H2. apply bind_Ok. exists pk. split; [exact H0|]. apply bind_Ok. exists (Some value). split; [exact H1|].
  apply bind_Ok. exists row. split; [exact H2|reflexivity].
Qed.

Lemma fetch_row_spec s t idx rd out k row :
  wf_table t -> map_Forall (fun _ row => storable_row row) (table_map t) ->
  wf_index (Codec.len (columns (schema t))) idx -> stored s (Some rd) (map_entries (table_map t)) ->
  (k, row) ∈ index_list (schema t) idx (map snd (rows t)) ->
  fetch_row s (schema t) (length (i_columns idx)) rd out (k, []) = Ok (out ++ [row]).
Proof.
  intros Hw Hst Hi Hd Hin. destruct (index_row_facts t idx k row Hw Hi Hin) as (va & pk & _ & -> & Hl & _ & Hva & _ & E).
  pose proof Hw as (_ & _ & Hm). apply (fetch_row_Ok _ _ _ _ _ _ (encode_pk_values pk) (encode_row row)).
  - cbn [fst]. rewrite encode_pk_values_app, <-Hl. by apply index_row_map_key_app.
  - rewrite (stored_get s rd _ _ Hd), map_entries_lookup, E. done.
  - exact (decode_stored_row (schema t) _ row (Hm _ _ E) (Hst _ _ E)).
Qed.

Lemma fetch_rows_spec s t idx rd (l : list (bytes * Row)) :
  wf_table t -> map_Forall (fun _ row => storable_row row) (table_map t) ->
  wf_index (Codec.len (columns (schema t))) idx -> stored s (Some rd) (map_entries (table_map t)) ->
  (forall e, e ∈ l -> e ∈ index_list (schema t) idx (map snd (rows t))) ->
  fetch_rows s (schema t) (length (i_columns idx)) rd (map (fun e => (e.1, [])) l) = Ok (map snd l).
Proof.
  intros Hw Hst Hi Hd Hl. unfold fetch_rows. change (map snd l) with ([] ++ map snd l). generalize (@nil Row).
  induction l as [|[k row] l IH]; intros out; [by rewrite app_nil_r|]. cbn [map try_fold fst snd].
  rewrite (fetch_row_spec s t idx rd out k row) by (done || apply Hl; left). cbn [mbind result_bind].
  rewrite IH by (intros e He; apply Hl; by right). by rewrite <-app_assoc.
Qed.

(** ** Order of an index *)

Lemma index_keys_NoDup t idx :
  wf_table t -> wf_index (Codec.len (columns (schema t))) idx ->
  NoDup (map fst (index_list (schema t) idx (map snd (rows t)))).
Proof.
  intros Hw Hi. unfold index_list. rewrite (Permutation_map fst (sort_by_perm _ _)), map_map. cbn [fst].
  pose proof Hw as (_ & Hr & Hm). rewrite rows_values, map_map by done. fold (table_map t).
  apply NoDup_fmap_2_strong; [|apply NoDup_fmap_1 with fst, sorted_by_NoDup, btree_iter_sorted].
  assert (forall k row, (k, row) ∈ btree_iter (table_map t) ->
    index_row_map_key (match encode_index_key (schema t) idx row with Ok k => k | Err _ => [] end) (length (i_columns idx)) = Ok k) as Hk.
  { intros k row Hin. destruct (index_row_facts t idx (match encode_index_key (schema t) idx row with Ok k => k | Err _ => [] end) row Hw Hi)
      as (va & pk & _ & -> & <- & _ & Hva & _ & E).
    - unfold index_list. rewrite sort_by_perm. apply (list_elem_of_fmap_2' _ _ row); [|done].
      rewrite rows_values by done. apply list_elem_of_fmap. by exists (k, row).
    - rewrite encode_pk_values_app, index_row_map_key_app by done.
      apply elem_of_btree_iter, Hm in Hin as (_ & _ & pk' & Hk' & <-). apply Hm in E as (_ & _ & pk'' & Hk'' & <-).
      congruence. }
  intros [k1 r1] [k2 r2] H1 H2 E. cbn [snd] in E. pose proof (Hk _ _ H1) as E1. rewrite E, (Hk _ _ H2) in E1.
  injection E1 as ->. apply elem_of_btree_iter in H1, H2. congruence.
Qed.

Lemma index_list_sorted t idx :
  wf_table t -> wf_index (Codec.len (columns (schema t))) idx -> sorted_by fst (index_list (schema t) idx (map snd (rows t))).
Proof.
  intros Hw Hi. pose proof (index_keys_NoDup t idx Hw Hi) as Hn. unfold index_list in *.
  apply sorted_by_no_dup; [apply sort_by_sorted|]. apply adjacent_dup_sort.
  by rewrite (Permutation_map fst (sort_by_perm fst _)) in Hn.
Qed.

Definition row_before (sch : Schema) (idx : IndexDef) (r1 r2 : Row) : Prop :=
  match index_values sch idx r1, index_values sch idx r2 with
  | Ok a, Ok b => pk_cmp a b = Lt
  | _, _ => False
  end.

Lemma map_filter {A B} (f : A -> B) (p : B -> bool) l :
  map f (filter (fun x => p (f x) = true) l) = filter (fun y => p y = true) (map f l).
Proof. induction l as [|x l IH]; [done|]. cbn [map]. rewrite !filter_cons. destruct (decide (p (f x) = true)); cbn [map]; by rewrite IH. Qed.

Lemma StronglySorted_map_impl {A B} (R : A -> A -> Prop) (Q : B -> B -> Prop) (f : A -> B) l :
  (forall x y, x ∈ l -> y ∈ l -> R x y -> Q (f x) (f y)) -> StronglySorted R l -> StronglySorted Q (map f l).
Proof.
  intros HR Hs. induction Hs as [|x l Hs IH Hx]; cbn [map]; constructor.
  - apply IH. intros y z Hy Hz. apply HR; by right.
  - rewrite Forall_map. rewrite Forall_forall in Hx |- *. intros y Hy. apply HR; [left|by right|by apply Hx].
Qed.

(** The rows an index scan returns: those the bound admits, by their indexed values and then by key. *)
Lemma index_rows_spec t idx bound :
  wf_table t -> wf_index (Codec.len (columns (schema t))) idx ->
  index_rows (schema t) idx bound (map snd (rows t)) ≡ₚ
    filter (fun row => row_holds (schema t) idx bound row = true) (map snd (rows t)) /\
  StronglySorted (row_before (schema t) idx) (index_rows (schema t) idx bound (map snd (rows t))).
Proof.
  intros Hw Hi. unfold index_rows. split.
  - unfold index_list. rewrite (map_filter snd (row_holds (schema t) idx bound)).
    rewrite (Permutation_map snd (sort_by_perm fst _)), map_map. cbn [snd]. by rewrite map_id.
  - eapply StronglySorted_map_impl; [|apply filter_sorted, (index_list_sorted t idx Hw Hi)].
    intros [k1 r1] [k2 r2] [_ H1]%list_elem_of_filter [_ H2]%list_elem_of_filter Hlt.
    apply index_row_facts in H1 as (v1 & p1 & E1 & -> & _ & _ & ? & ? & _); [|done..].
    apply index_row_facts in H2 as (v2 & p2 & E2 & -> & _ & _ & ? & ? & _); [|done..].
    unfold row_before. cbn [snd]. rewrite E1, E2. unfold key_lt in Hlt. cbn [fst] in Hlt.
    destruct (pk_cmp_spec (v1 ++ p1) (v2 ++ p2)) as [E|E|E]; [by apply Forall_app..| |done|].
    + rewrite E in Hlt. by destruct (irreflexivity bytes_lt _ Hlt).
    + destruct (irreflexivity bytes_lt (encode_pk_values (v1 ++ p1))). by etrans.
Qed.

(** ** Scans *)

Lemma filter_map_ext {A B} (f : A -> B) (P : B -> Prop) (Q : A -> Prop)
    `{forall y, Decision (P y)} `{forall x, Decision (Q x)} l :
  (forall x, x ∈ l -> P (f x) <-> Q x) -> filter P (map f l) = map f (filter Q l).
Proof.
  induction l as [|x l IH]; intros HPQ; [done|]. cbn [map]. rewrite !filter_cons.
  rewrite IH by (intros y Hy; apply HPQ; by right). pose proof (HPQ x ltac:(left)) as Hx.
  destruct (decide (P (f x))), (decide (Q x)); naive_solver.
Qed.

Lemma index_entries_filter t idx bound (P : Entry -> Prop) `{forall e, Decision (P e)} :
  wf_table t -> wf_index (Codec.len (columns (schema t))) idx ->
  (forall vs, Forall wf_cell vs -> vs <> [] -> P (encode_pk_values vs, []) <-> bound_holds bound vs = true) ->
  filter P (index_entries (schema t) idx (map snd (rows t))) =
  map (fun e => (e.1, [])) (filter (fun e => row_holds (schema t) idx bound e.2 = true)
    (index_list (schema t) idx (map snd (rows t)))).
Proof.
  intros Hw Hi HP. unfold index_entries. apply filter_map_ext. intros [k row] Hin. cbn [fst snd].
  destruct (index_row_facts t idx k row Hw Hi Hin) as (va & pk & E & -> & _ & Hpk & Hva & Hpw & _).
  unfold row_holds. rewrite E. apply HP; [by apply Forall_app|]. by destruct va.
Qed.

Lemma index_found sch name idx :
  wf_schema sch -> index sch name = Some idx -> wf_index (Codec.len (columns sch)) idx /\ idx ∈ indexes sch /\ i_name idx = name.
Proof.
  intros (_ & _ & _ & _ & _ & _ & _ & Hi) H. unfold index in H. apply fmap_Some in H as ([j i] & Hf & ->).
  apply list_find_Some in Hf as (Hin%list_elem_of_lookup_2 & Hn & _). cbn [snd].
  rewrite Forall_forall in Hi. split; [by apply Hi|done].
Qed.

(** The scan through the two stored trees, by the kind of bound. *)
Lemma index_scan_spec s t name idx rd id bound :
  wf_table t -> map_Forall (fun _ row => storable_row row) (table_map t) -> index (schema t) name = Some idx ->
  stored s (Some rd) (map_entries (table_map t)) ->
  stored s (Some id) (index_entries (schema t) idx (map snd (rows t))) -> wf_bound bound ->
  exists fuel, forall fuel', (fuel <= fuel')%nat ->
    index_scan_rows fuel' s (schema t) name rd id bound = Some (Ok (index_rows (schema t) idx bound (map snd (rows t)))).
Proof.
  intros Hw Hst Hn Hrd Hid Hb. destruct (index_found (schema t) name idx) as [Hi _]; [apply Hw|done|].
  set (l := filter (fun e => row_holds (schema t) idx bound e.2 = true) (index_list (schema t) idx (map snd (rows t)))).
  assert (fetch_rows s (schema t) (length (i_columns idx)) rd (map (fun e => (e.1, [])) l) = Ok (map snd l)) as Hf.
  { apply (fetch_rows_spec s t idx rd l Hw Hst Hi Hrd). intros e He. by apply list_elem_of_filter in He as [_ He]. }
  unfold index_scan_rows, index_rows. fold l. rewrite Hn. destruct (is_range bound) eqn:Hr.
  - assert (exists st up, range_of bound = Some (st, up) /\
      filter (below_upper up) (filter (above_start st) (index_entries (schema t) idx (map snd (rows t)))) = map (fun e => (e.1, [])) l)
      as (st & up & Hro & Hfl).
    { destruct (range_of_spec bound (VBool true) [] [] Hr Hb) as (st & up & Hro & _); [done..|].
      exists st, up. split; [done|]. rewrite list_filter_filter. apply (index_entries_filter t idx bound); [done..|].
      intros [|c vs] Hcv Hne; [done|]. apply Forall_cons in Hcv as [Hc Hvs].
      destruct (range_of_spec bound c vs [] Hr Hb Hc Hvs) as (st' & up' & Hro' & Hiff). assert (st' = st /\ up' = up) as [-> ->] by by rewrite Hro in Hro'; injection Hro'.
      rewrite <-Hiff. naive_solver. }
    destruct (stored_range s id _ st up Hid) as (cur & Ho & Hdr). rewrite Hfl in Hdr.
    destruct (collect_cursor_spec s cur _ Hdr) as [fuel Hc]. exists fuel. intros fuel' Hle.
    destruct bound; try done; rewrite Hro, Ho, (Hc fuel' Hle); by f_equal.
  - exists O. intros fuel' _. destruct bound as [vs| | | | |]; try done.
    + rewrite (stored_prefix s id _ _ Hid). unfold encode_index_prefix.
      rewrite (index_entries_filter t idx (BEq vs)); [exact (f_equal Some Hf)|done..|].
      intros xs Hxs _. cbn [fst bound_holds]. rewrite starts_with_pk by done. destruct (pk_cmp _ _); naive_solver.
    + rewrite (stored_entries s id _ Hid). rewrite <-(filter_all (fun _ => True) (index_entries _ _ _)) by by apply Forall_true.
      rewrite (index_entries_filter t idx BAll); [exact (f_equal Some Hf)|done..].
Qed.

End Scan.

End TableIndexProps.
