(* ===== verification/TableIndexBuild.v ===== *)
(** * Secondary indexes: uniqueness, construction, and scans of a built index

    [build_indexes] refuses a row set with two rows that agree on a unique index and otherwise stores
    one tree per index, through which a scan returns the rows its bound admits. *)

From S2P Require Import Prelude Types Codec Store Prolly ProllyTree ProllyBuild ProllyMap Tabular TabularOrder TabularCells Schema Table TableStore TableIndex TableIndexProps.

Module TableIndexBuild.
Import Error Digest Store Prolly ProllyTree ProllyMap Tabular TabularOrder TabularCells Schema Table TableProps TableStore TableIndex TableIndexProps.

(** ** Uniqueness *)

Definition agree_on (idx : IndexDef) (r1 r2 : Row) : Prop :=
  match select r1 (i_columns idx), select r2 (i_columns idx) with
  | Ok a, Ok b => pk_cmp a b = Eq
  | _, _ => False
  end.

Definition violates (idx : IndexDef) (rows : list Row) : Prop :=
  exists i j r1 r2, (i < j)%nat /\ rows !! i = Some r1 /\ rows !! j = Some r2 /\ agree_on idx r1 r2.

(** Rows an index can be computed for. *)
Definition indexable (idx : IndexDef) (row : Row) : Prop :=
  exists vs, select row (i_columns idx) = Ok vs /\ Forall wf_cell vs.

Lemma violates_cons idx row rows :
  violates idx (row :: rows) <-> (exists j r, rows !! j = Some r /\ agree_on idx row r) \/ violates idx rows.
Proof.
  split.
  - intros ([|i] & [|j] & r1 & r2 & Hlt & H1 & H2 & H3); try lia.
    + injection H1 as ->. left. eauto.
    + right. exists i, j, r1, r2. split_and!; try done. lia.
  - intros [(j & r & H1 & H2)|(i & j & r1 & r2 & Hlt & H)].
    + exists O, (Datatypes.S j), row, r. split_and!; try done. lia.
    + exists (Datatypes.S i), (Datatypes.S j), r1, r2. split; [lia|done].
Qed.

Lemma duplicate_prefix_spec idx seen rows :
  Forall (indexable idx) rows ->
  exists b, duplicate_prefix idx seen rows = Ok b /\
    (b = true <->
      (exists r vs, r ∈ rows /\ select r (i_columns idx) = Ok vs /\ encode_pk_values vs ∈ seen) \/ violates idx rows).
Proof.
  intros Hr. revert seen. induction Hr as [|row rows (vs & Hs & Hv) Hr IH]; intros seen.
  { exists false. split; [done|]. split; [done|]. intros [(r & vs & [] % not_elem_of_nil & _)|(i & j & r1 & r2 & _ & H & _)]. done. }
  cbn [duplicate_prefix]. rewrite Hs. cbn [mbind result_bind]. unfold encode_index_prefix.
  destruct (decide (encode_pk_values vs ∈ seen)) as [Hin|Hin].
  { rewrite bool_decide_eq_true_2 by done. exists true. split; [done|]. split; [|done]. intros _. left. exists row, vs. split; [left|done]. }
  rewrite bool_decide_eq_false_2 by done. destruct (IH ({[encode_pk_values vs]} ∪ seen)) as (b & E & Hb).
  exists b. split; [done|]. rewrite Hb, violates_cons. setoid_rewrite elem_of_cons. clear IH Hb E. split.
  - intros [(r & ws & Hr1 & Hr2 & [E%elem_of_singleton|Hr3]%elem_of_union)|Hvi]; [|left; by eauto 7|by auto].
    right. left. apply list_elem_of_lookup in Hr1 as [j Hj]. exists j, r. split; [done|].
    unfold agree_on. rewrite Hs, Hr2. rewrite Forall_forall in Hr.
    destruct (Hr r) as (ws' & E' & Hw); [by eapply list_elem_of_lookup_2|]. assert (ws' = ws) as -> by congruence.
    by apply pk_cmp_eq.
  - intros [(r & ws & [->|Hr1] & Hr2 & Hr3)|[(j & r & Hj & Ha)|Hvi]]; [| |left|by right].
    + congruence.
    + left. exists r, ws. split_and!; try done. set_solver.
    + unfold agree_on in Ha. rewrite Hs in Ha. destruct (select r (i_columns idx)) as [ws|] eqn:E; [|done].
      exists r, ws. split_and!; [by eapply list_elem_of_lookup_2|done|]. apply elem_of_union_l, elem_of_singleton.
      rewrite Forall_forall in Hr. destruct (Hr r) as (ws' & E' & Hw); [by eapply list_elem_of_lookup_2|].
      assert (ws' = ws) as -> by congruence. symmetry. by apply pk_cmp_eq.
Qed.

(** Every row of a table has indexed values. *)
Lemma table_indexable t idx :
  wf_table t -> wf_index (Codec.len (columns (schema t))) idx -> Forall (indexable idx) (map snd (rows t)).
Proof.
  intros Hw (_ & _ & Hi). eapply Forall_impl; [exact (wf_table_rows t Hw)|]. intros row [[_ Hc] Hl]. cbn beta in Hc.
  destruct (select_total row (i_columns idx)) as [vs Hs]; [unfold Codec.len in *; by rewrite Hl|].
  exists vs. split; [done|]. by eapply select_wf.
Qed.

Lemma unique_conflict_in_spec idxs rows :
  Forall (fun idx => Forall (indexable idx) rows) idxs ->
  exists c, unique_conflict_in idxs rows = Ok c /\
    match c with
    | None => forall idx, idx ∈ idxs -> ~ violates idx rows
    | Some name => exists idx, idx ∈ idxs /\ i_name idx = name /\ violates idx rows
    end.
Proof.
  induction 1 as [|idx idxs Hi _ (c & E & Hc)]; [exists None; split; [done|]; by intros idx ?%not_elem_of_nil|].
  destruct (duplicate_prefix_spec idx ∅ rows Hi) as (b & Eb & Hb). cbn [unique_conflict_in]. rewrite Eb. cbn [mbind result_bind].
  assert (b = true <-> violates idx rows) as Hv by (rewrite Hb; set_solver). destruct b.
  - exists (Some (i_name idx)). split; [done|]. exists idx. split; [left|]. naive_solver.
  - exists c. split; [done|]. destruct c as [name|].
    + destruct Hc as (idx' & ? & ?). exists idx'. split; [by right|done].
    + intros idx' [->|Hin]%elem_of_cons; [naive_solver|by apply Hc].
Qed.

(** The unique indexes of a schema that a row set breaks. *)
Definition broken (sch : Schema) (rows : list Row) (idx : IndexDef) : Prop :=
  idx ∈ indexes sch /\ i_unique idx = true /\ violates idx rows.

Lemma unique_conflict_spec t :
  wf_table t ->
  exists c, unique_conflict (schema t) (map snd (rows t)) = Ok c /\
    match c with
    | None => forall idx, ~ broken (schema t) (map snd (rows t)) idx
    | Some name => exists idx, broken (schema t) (map snd (rows t)) idx /\ i_name idx = name
    end.
Proof.
  intros Hw. unfold unique_conflict.
  destruct (unique_conflict_in_spec (filter (fun i => i_unique i = true) (indexes (schema t))) (map snd (rows t))) as (c & E & Hc).
  - apply Forall_forall. intros idx [_ Hin]%list_elem_of_filter. apply table_indexable; [done|].
    pose proof Hw as ((_ & _ & _ & _ & _ & _ & _ & Hi) & _). rewrite Forall_forall in Hi. by apply Hi.
  - exists c. split; [done|]. unfold broken. destruct c as [name|].
    + destruct Hc as (idx & [Hu Hin]%list_elem_of_filter & Hn & Hv). by exists idx.
    + intros idx (Hin & Hu & Hv). eapply Hc; [|done]. by apply list_elem_of_filter.
Qed.

(** ** Construction *)

Section Build.
Context `{hasher : Hasher} {S : Type} `{ops : !ObjectStore S} {U : bytes -> Prop} {ok : S -> Prop}
  `{laws : !StoreLaws S U ok}.
Implicit Types (s : S) (t : Table).

Lemma index_entry_rows t idx :
  wf_table t -> wf_index (Codec.len (columns (schema t))) idx ->
  exists kv, try_map (index_entry (schema t) idx) (map snd (rows t)) = Ok kv /\
    sort_by fst kv = index_entries (schema t) idx (map snd (rows t)).
Proof.
  intros Hw Hi.
  exists (map (fun row => (match encode_index_key (schema t) idx row with Ok k => k | Err _ => [] end, [])) (map snd (rows t))). split.
  - apply try_map_Ok, Forall2_fmap_r, Forall_Forall2_diag. eapply Forall_impl; [exact (wf_table_rows t Hw)|]. intros row [_ Hl].
    destruct (select_total row (i_columns idx)) as [va Hva]; [unfold Codec.len; rewrite Hl; apply Hi|].
    destruct (key_of_total (schema t) row) as [pk Hpk]; [apply Hw|done|].
    unfold compose, index_entry, encode_index_key. unfold key_of in Hpk. by rewrite Hva, Hpk.
  - unfold index_entries, index_list. rewrite <-(sort_by_map fst fst) by done. by rewrite !map_map.
Qed.

Lemma build_index_spec s t acc idx :
  ok s -> wf_table t -> wf_index (Codec.len (columns (schema t))) idx -> rows t <> [] ->
  buildable (U := U) (digest_algo s) (index_entries (schema t) idx (map snd (rows t))) ->
  exists d s', build_index (schema t) (map snd (rows t)) (acc, s) idx = Ok (acc ++ [(i_name idx, d)], s') /\
    ok s' /\ extends s s' /\ stored s' (Some d) (index_entries (schema t) idx (map snd (rows t))).
Proof.
  intros Hok Hw Hi Hne Hb. destruct (index_entry_rows t idx Hw Hi) as (kv & E & Es). unfold build_index. rewrite E.
  cbn [mbind result_bind snd fst]. rewrite Es.
  assert (sorted_by fst (index_entries (schema t) idx (map snd (rows t)))) as Hs.
  { apply (sorted_by_map fst fst); [done|]. by apply index_list_sorted. }
  destruct (stored_build s _ Hok Hs Hb) as (root & s' & E' & H1 & H2 & H3).
  rewrite E'. cbn [mbind result_bind]. destruct root as [d|]; [by exists d, s'|].
  destruct H3 as [_ H3]. exfalso. apply (f_equal length) in H3. unfold index_entries, index_list in H3.
  rewrite length_map, length_sort_by, !length_map in H3. by destruct (rows t).
Qed.

Lemma build_index_list s t acc idxs :
  ok s -> wf_table t -> Forall (wf_index (Codec.len (columns (schema t)))) idxs -> rows t <> [] ->
  Forall (fun idx => buildable (U := U) (digest_algo s) (index_entries (schema t) idx (map snd (rows t)))) idxs ->
  exists roots s', try_fold (build_index (schema t) (map snd (rows t))) (acc, s) idxs = Ok (acc ++ roots, s') /\
    ok s' /\ extends s s' /\
    Forall2 (fun idx nd => nd.1 = i_name idx /\
      stored s' (Some nd.2) (index_entries (schema t) idx (map snd (rows t)))) idxs roots.
Proof.
  intros Hok Hw Hi Hne. revert acc s Hok. induction Hi as [|idx idxs Hi _ IH]; intros acc s Hok Hb.
  { exists [], s. rewrite app_nil_r. by split_and!. }
  apply Forall_cons in Hb as [Hb Hbs]. destruct (build_index_spec s t acc idx Hok Hw Hi Hne Hb) as (d & s1 & E & Hok1 & He1 & Hst).
  cbn [try_fold]. rewrite E. cbn [mbind result_bind].
  destruct (IH (acc ++ [(i_name idx, d)]) s1 Hok1) as (roots & s2 & E2 & Hok2 & He2 & HF).
  { by rewrite (proj1 He1). }
  exists ((i_name idx, d) :: roots), s2. rewrite E2, <-app_assoc. split_and!; try done; [by etrans|].
  constructor; [|done]. split; [done|]. by eapply stored_mono.
Qed.

Lemma same_names {P : IndexDef -> bytes * Digest -> Prop} idxs roots :
  Forall2 (fun idx nd => nd.1 = i_name idx /\ P idx nd) idxs roots -> map fst roots = map i_name idxs.
Proof. induction 1 as [|idx nd idxs roots [E _] _ IH]; [done|]. cbn [map]. by rewrite E, IH. Qed.

Definition indexes_buildable s t : Prop :=
  Forall (fun idx => buildable (U := U) (digest_algo s) (index_entries (schema t) idx (map snd (rows t)))) (indexes (schema t)).

Lemma build_rows_stored s t :
  ok s -> wf_table t -> rows t <> [] -> buildable (U := U) (digest_algo s) (map_entries (table_map t)) ->
  exists rd s', build_rows t s = Ok (Some rd, s') /\ ok s' /\ extends s s' /\ stored s' (Some rd) (map_entries (table_map t)).
Proof.
  intros Hok (_ & Hr & _) Hne Hb. unfold build_rows. rewrite row_entries_map, sort_by_id by (done || apply map_entries_sorted).
  destruct (stored_build s _ Hok (map_entries_sorted _) Hb) as ([rd|] & s' & E & H1 & H2 & H3); [by exists rd, s'|].
  destruct H3 as [_ H3]. rewrite <-row_entries_map in H3 by done. unfold row_entries in H3. by destruct (rows t).
Qed.

Lemma build_indexes_stored s t :
  ok s -> wf_table t -> rows t <> [] -> indexes_buildable s t ->
  (forall idx, ~ broken (schema t) (map snd (rows t)) idx) ->
  exists roots s', build_indexes s (schema t) (map snd (rows t)) = Ok (roots, s') /\ extends s s' /\
    Forall2 (fun idx nd => nd.1 = i_name idx /\
      stored s' (Some nd.2) (index_entries (schema t) idx (map snd (rows t)))) (indexes (schema t)) roots.
Proof.
  intros Hok Hw Hne Hb Hu. pose proof Hw as ((_ & _ & _ & _ & _ & _ & _ & Hi) & _).
  destruct (build_index_list s t [] _ Hok Hw Hi Hne Hb) as (roots & s' & H1 & _ & H2 & H3). exists roots, s'.
  destruct (unique_conflict_spec t Hw) as ([name|] & E & Hc); [destruct Hc as (idx & Hx & _); by destruct (Hu idx)|].
  unfold build_indexes. rewrite E. done.
Qed.

(** [build_indexes] refuses a row set exactly when two of its rows agree, by value, on every column
    of a unique index; otherwise it stores one tree per index, in schema order, and none for an
    empty table. *)
Theorem index_unique s t :
  ok s -> wf_table t -> indexes_buildable s t ->
  (build_indexes s (schema t) (map snd (rows t)) = Err InvalidArgument /\
    exists idx, broken (schema t) (map snd (rows t)) idx) \/
  ((forall idx, ~ broken (schema t) (map snd (rows t)) idx) /\
    exists roots s', build_indexes s (schema t) (map snd (rows t)) = Ok (roots, s') /\ ok s' /\ extends s s' /\
      map fst roots = match rows t with [] => [] | _ :: _ => map i_name (indexes (schema t)) end).
Proof.
  intros Hok Hw Hb. destruct (unique_conflict_spec t Hw) as (c & E & Hc). unfold build_indexes. rewrite E. cbn [mbind result_bind].
  destruct c as [name|]; [left; naive_solver|]. right. split; [done|]. pose proof Hw as ((_ & _ & _ & _ & _ & _ & _ & Hi) & _).
  destruct (decide (rows t = [])) as [Hr|Hr].
  - exists [], s. rewrite Hr. split_and!; try done. clear. generalize (indexes (schema t)). intros l. induction l as [|idx l IH]; [done|exact IH].
  - destruct (build_index_list s t [] _ Hok Hw Hi Hr Hb) as (roots & s' & H1 & H2 & H3 & H4). exists roots, s'.
    split_and!; try done. assert (map fst roots = map i_name (indexes (schema t))) as -> by (by apply same_names in H4).
    by destruct (rows t).
Qed.

(** C25: a scan of a built index returns, for every bound, exactly the rows of the table whose indexed
    values the bound admits, ordered by those values and then by primary key. *)
Theorem index_scan s t name idx bound :
  ok s -> wf_table t -> rows t <> [] -> map_Forall (fun _ row => storable_row row) (table_map t) ->
  buildable (U := U) (digest_algo s) (map_entries (table_map t)) -> indexes_buildable s t ->
  (forall idx, ~ broken (schema t) (map snd (rows t)) idx) -> index (schema t) name = Some idx -> wf_bound bound ->
  exists rd s1 roots s2 id, build_rows t s = Ok (Some rd, s1) /\
    build_indexes s1 (schema t) (map snd (rows t)) = Ok (roots, s2) /\ (name, id) ∈ roots /\
    exists fuel rs,
      (forall fuel', (fuel <= fuel')%nat -> index_scan_rows fuel' s2 (schema t) name rd id bound = Some (Ok rs)) /\
      rs ≡ₚ filter (fun row => row_holds (schema t) idx bound row = true) (map snd (rows t)) /\
      StronglySorted (row_before (schema t) idx) rs.
Proof.
  intros Hok Hw Hne Hst Hbr Hbi Hu Hn Hb. destruct (build_rows_stored s t Hok Hw Hne Hbr) as (rd & s1 & E1 & Hok1 & He1 & Hrd).
  destruct (build_indexes_stored s1 t Hok1 Hw Hne) as (roots & s2 & E2 & He2 & HF); [by unfold indexes_buildable; rewrite (proj1 He1)|done|].
  destruct (index_found (schema t) name idx) as (Hi & Hin & <-); [apply Hw|done|].
  apply list_elem_of_lookup in Hin as [j Hj]. destruct (Forall2_lookup_l _ _ _ _ _ HF Hj) as ([nm id] & Hr & Hnm & Hid).
  cbn [fst snd] in *. subst nm. exists rd, s1, roots, s2, id. split_and!; [done|done|by eapply list_elem_of_lookup_2|].
  destruct (index_scan_spec s2 t (i_name idx) idx rd id bound) as [fuel Hs]; [done..|by eapply stored_mono|done|done|].
  exists fuel, (index_rows (schema t) idx bound (map snd (rows t))). split; [exact Hs|]. by apply index_rows_spec.
Qed.

End Build.

(** ** An example *)

#[local] Existing Instance toy_hasher.

Definition demo_index : IndexDef := mkIndexDef (str "by_tag") [2] true.
Definition demo_index_entries : list Entry :=
  Eval vm_compute in index_entries sample_schema demo_index (map snd (rows demo_table)).
Definition index_tree : tree := Eval vm_compute in default (Leaf []) (ProllyBuild.pure_build demo_index_entries).
Definition index_universe : list bytes :=
  Eval vm_compute in remove_dups (map (enc Blake3) (ProllyBuild.nodes demo_tree ++ ProllyBuild.nodes index_tree)).
Definition index_U (b : bytes) : Prop := b ∈ index_universe.

#[local] Instance index_laws : StoreLaws MemoryStore index_U (fun s => addressed s /\ within index_U s).
Proof. apply finite_universe; vm_compute; reflexivity. Qed.

Lemma demo_index_buildable : indexes_buildable (U := index_U) memory_new demo_table.
Proof.
  apply Forall_cons. split; [|apply Forall_nil_2].
  assert (index_entries (schema demo_table) (mkIndexDef (str "by_tag") [2] true) (map snd (rows demo_table)) = demo_index_entries)
    as E by (vm_compute; reflexivity).
  rewrite E. apply (buildable_nodes _ _ _ index_tree); vm_compute; reflexivity.
Qed.

Lemma demo_rows_buildable : buildable (U := index_U) (digest_algo memory_new) (map_entries (table_map demo_table)).
Proof. rewrite demo_entries_eq. apply (buildable_nodes _ _ _ demo_tree); vm_compute; reflexivity. Qed.

Lemma demo_unbroken : forall idx, ~ broken (schema demo_table) (map snd (rows demo_table)) idx.
Proof.
  destruct (unique_conflict_spec demo_table demo_wf) as (c & E & Hc).
  assert (c = None) as -> by (vm_compute in E; by injection E). exact Hc.
Qed.

Lemma index_empty_ok : addressed memory_new /\ within index_U memory_new.
Proof. split; apply map_Forall_empty. Qed.

Lemma index_unique_witness :
  exists roots s', build_indexes memory_new sample_schema (map snd (rows demo_table)) = Ok (roots, s') /\
    map fst roots = [str "by_tag"].
Proof.
  destruct (index_unique (U := index_U) memory_new demo_table index_empty_ok demo_wf demo_index_buildable)
    as [[_ (idx & H)]|(_ & roots & s' & E & _ & _ & H)].
  - destruct (demo_unbroken idx H).
  - exists roots, s'. split; [exact E|exact H].
Defined.

Lemma index_scan_witness :
  exists rd s1 roots s2 id, build_rows demo_table memory_new = Ok (Some rd, s1) /\
    build_indexes s1 sample_schema (map snd (rows demo_table)) = Ok (roots, s2) /\
    exists fuel rs, (forall fuel', (fuel <= fuel')%nat ->
      index_scan_rows fuel' s2 sample_schema (str "by_tag") rd id (BGt (VText (str "a"))) = Some (Ok rs)) /\
      rs ≡ₚ [[VInt (-2); VNull; VText (str "b")]].
Proof.
  destruct (index_scan (U := index_U) memory_new demo_table (str "by_tag") demo_index (BGt (VText (str "a"))) index_empty_ok
    demo_wf) as (rd & s1 & roots & s2 & id & E1 & E2 & _ & fuel & rs & H1 & H2 & _).
  - discriminate.
  - exact demo_storable.
  - exact demo_rows_buildable.
  - exact demo_index_buildable.
  - exact demo_unbroken.
  - reflexivity.
  - vm_compute. done.
  - exists rd, s1, roots, s2, id. split_and!; [exact E1|exact E2|]. exists fuel, rs. split; [exact H1|].
    rewrite H2. reflexivity.
Defined.

End TableIndexBuild.
