(* ===== verification/TableMerge.v ===== *)
(** * Row-level diff and three-way merge of tables

    [merge_rows] and [merge_rows_cells] of the tabular engine over stored row maps, against the
    pointwise three-way merge of the maps from primary keys to rows. *)

From S2P Require Import Prelude Types Codec Store Prolly ProllyTree ProllyBuild ProllyDiff ProllyMap Tabular TabularOrder TabularCells Schema Table TableStore.

Module TableMerge.
Import Error Digest Store Prolly ProllyTree ProllyDiff ProllyMap Tabular TabularOrder TabularCells Schema Table TableProps TableStore.

(** ** Row-level diff *)

Inductive RowDiff : Type := Added (row : Row) | Updated (from to : Row) | Removed (row : Row).

Definition diff_row (s : Schema) (out : list RowDiff) (e : DiffEntry) : res (list RowDiff) :=
  match e.1.2, e.2 with
  | None, Some o => r ← decode_row (arity s) o; Ok (out ++ [Added r])
  | Some b, None => r ← decode_row (arity s) b; Ok (out ++ [Removed r])
  | Some b, Some o => r ← decode_row (arity s) b; r' ← decode_row (arity s) o; Ok (out ++ [Updated r r'])
  | None, None => Ok out
  end.

(** ** Three-way merge *)

Definition merge_cell (b o t : Value) : option Value :=
  if value_eqb o t then Some o else if value_eqb o b then Some t else if value_eqb t b then Some o else None.

(** Column by column; the code indexes all three rows at every column, a panic beyond their length. *)
Fixpoint merge_cells (base ours theirs : Row) : option Row :=
  match base, ours, theirs with
  | b :: base, o :: ours, t :: theirs =>
      match merge_cell b o t with
      | Some cell => cons cell <$> merge_cells base ours theirs
      | None => None
      end
  | _, _, _ => Some []
  end.

Inductive TableMerge : Type := Merged (root : option Digest) | Conflicts (rows : list Row).

(** What the loop over the changes of [theirs] does with one key. *)
Inductive action : Type := Keep | Assign (v : option bytes) | Clash (row : Row).

Definition apply_action (key : bytes) (a : action) (acc : gmap bytes bytes * list Row) : gmap bytes bytes * list Row :=
  match a with
  | Keep => acc
  | Assign (Some v) => (<[key := v]> acc.1, acc.2)
  | Assign None => (delete key acc.1, acc.2)
  | Clash row => (acc.1, acc.2 ++ [row])
  end.

Definition either (a b : option bytes) : option bytes := match a with Some v => Some v | None => b end.

(** A key both sides changed, in [merge_rows]. *)
Definition resolve_row (s : Schema) (base ours theirs : option bytes) : res action :=
  if bool_decide (ours = theirs) then Ok Keep
  else
    match either ours theirs with
    | Some rb => row ← decode_row (arity s) rb; Ok (Clash row)
    | None => Ok Keep
    end.

(** A key both sides changed, in [merge_rows_cells]. *)
Definition resolve_cells (s : Schema) (base ours theirs : option bytes) : res action :=
  if bool_decide (ours = theirs) then Ok Keep
  else
    match base, ours, theirs with
    | Some b, Some o, Some t =>
        base_row ← decode_row (arity s) b;
        our_row ← decode_row (arity s) o;
        their_row ← decode_row (arity s) t;
        match merge_cells base_row our_row their_row with
        | Some row => Ok (Assign (Some (encode_row row)))
        | None => Ok (Clash their_row)
        end
    | _, _, _ =>
        match either ours theirs with
        | Some rb => row ← decode_row (arity s) rb; Ok (Clash row)
        | None => Ok Keep
        end
    end.

Section Merge.
Context `{hasher : Hasher} {S : Type} `{ops : !ObjectStore S}.

Definition diff_rows (fuel : nat) (store : S) (s : Schema) (base other : option Digest) : option (res (list RowDiff)) :=
  ds ⇠ diff fuel store base other; Some (try_fold (diff_row s) [] ds).

(** The merge loop, by the way it treats a key that both sides changed. *)
Definition merge_step (resolve : option bytes -> option bytes -> option bytes -> res action)
    (ours_changed : gmap bytes (option bytes)) (acc : gmap bytes bytes * list Row) (e : DiffEntry)
    : res (gmap bytes bytes * list Row) :=
  let '(key, base_v, their_v) := e in
  a ← match ours_changed !! key with
      | None => Ok (Assign their_v)
      | Some our_v => resolve base_v our_v their_v
      end;
  Ok (apply_action key a acc).

Definition merge_with (resolve : option bytes -> option bytes -> option bytes -> res action)
    (fuel : nat) (store : S) (base ours theirs : option Digest) : option (res (TableMerge * S)) :=
  ours_d ⇠ diff fuel store base ours;
  let ours_changed := collect_map (map (fun e => (e.1.1, e.2)) ours_d) in
  theirs_d ⇠ diff fuel store base theirs;
  Some (
    es ← match ours with Some r => entries store r | None => Ok [] end;
    '(merged, conflicts) ← try_fold (merge_step resolve ours_changed) (collect_map es, []) theirs_d;
    match conflicts with
    | _ :: _ => Ok (Conflicts conflicts, store)
    | [] => '(root, store) ← build store (btree_iter merged); Ok (Merged root, store)
    end).

Definition merge_rows (fuel : nat) (store : S) (s : Schema) (base ours theirs : option Digest)
    : option (res (TableMerge * S)) :=
  merge_with (resolve_row s) fuel store base ours theirs.

Definition merge_rows_cells (fuel : nat) (store : S) (s : Schema) (base ours theirs : option Digest)
    : option (res (TableMerge * S)) :=
  merge_with (resolve_cells s) fuel store base ours theirs.
End Merge.

End TableMerge.

(** * Properties of the table merge *)

Module TableMergeProps.
Import Error Digest Store Prolly ProllyTree ProllyDiff ProllyMap Tabular TabularOrder TabularCells Schema Table TableProps TableStore TableMerge.

(** ** The merge loop *)

Definition new_value (a : action) (ours : option bytes) : option bytes :=
  match a with Assign v => v | Keep | Clash _ => ours end.

Definition clash (a : action) : option Row := match a with Clash row => Some row | _ => None end.

Lemma apply_action_lookup key a acc k :
  (apply_action key a acc).1 !! k = if bool_decide (key = k) then new_value a (acc.1 !! k) else acc.1 !! k.
Proof.
  destruct a as [|[v|]|row]; cbn [apply_action fst new_value]; case_bool_decide as E; subst; try done;
    by rewrite ?lookup_insert_eq, ?lookup_delete_eq, ?lookup_insert_ne, ?lookup_delete_ne.
Qed.

Lemma apply_action_clash key a acc :
  (apply_action key a acc).2 = acc.2 ++ match clash a with Some row => [row] | None => [] end.
Proof. destruct a as [|[v|]|row]; cbn [apply_action snd clash]; by rewrite ?app_nil_r. Qed.

Lemma merge_loop_spec resolve changed (f : DiffEntry -> action) m c (l : list DiffEntry) :
  NoDup (map (fun e => e.1.1) l) ->
  (forall e, e ∈ l -> match changed !! e.1.1 with
    | None => Ok (Assign e.2) | Some our_v => resolve e.1.2 our_v e.2 end = Ok (f e)) ->
  exists m', try_fold (merge_step resolve changed) (m, c) l = Ok (m', c ++ omap (fun e => clash (f e)) l) /\
    (forall k, (forall e, e ∈ l -> e.1.1 <> k) -> m' !! k = m !! k) /\
    (forall e, e ∈ l -> m' !! e.1.1 = new_value (f e) (m !! e.1.1)).
Proof.
  revert m c. induction l as [|[[k b] t] l IH]; intros m c Hn Hf.
  { exists m. cbn [try_fold omap list_omap]. rewrite app_nil_r. split_and!; [done|done|]. by intros e ?%not_elem_of_nil. }
  cbn [map fst] in Hn. apply NoDup_cons in Hn as [Hk Hn]. cbn [try_fold merge_step].
  pose proof (Hf (k, b, t) ltac:(left)) as E. cbn [fst snd] in E. rewrite E. cbn [mbind result_bind].
  destruct (IH (apply_action k (f (k, b, t)) (m, c)).1 (apply_action k (f (k, b, t)) (m, c)).2 Hn) as (m' & H1 & H2 & H3).
  { intros e He. apply Hf. by right. }
  rewrite <-surjective_pairing in H1. exists m'. split_and!.
  - rewrite H1, apply_action_clash. cbn [snd omap list_omap]. rewrite <-app_assoc. by destruct (clash (f (k, b, t))).
  - intros k' Hk'. rewrite H2 by (intros e He; apply Hk'; by right). rewrite apply_action_lookup, bool_decide_eq_false_2; [done|].
    apply (Hk' (k, b, t)). left.
  - assert (forall e, e ∈ l -> e.1.1 <> k) as Hne.
    { intros e He <-. apply Hk. apply list_elem_of_fmap. eauto. }
    intros e [->|He]%elem_of_cons.
    + cbn [fst]. rewrite H2 by done. by rewrite apply_action_lookup, bool_decide_eq_true_2.
    + rewrite H3, apply_action_lookup, bool_decide_eq_false_2 by (done || (intros E'; by apply (Hne e))). done.
Qed.

(** The changes of [ours], by key. *)
Lemma ours_changed_lookup (B O : gmap bytes bytes) k :
  collect_map (map (fun e => (e.1.1, e.2)) (diff_entries B O)) !! k = if bool_decide (B !! k = O !! k) then None else Some (O !! k).
Proof.
  assert (NoDup (map fst (map (fun e : DiffEntry => (e.1.1, e.2)) (diff_entries B O)))) as Hn.
  { rewrite map_map. cbn [fst]. apply (sorted_by_NoDup (fun e => e.1.1)), diff_entries_sorted. }
  rewrite collect_map_nodup by done. case_bool_decide as E.
  - apply not_elem_of_list_to_map_1. rewrite <-list_fmap_compose. intros ([[k' x] y] & -> & Hin)%list_elem_of_fmap.
    cbn [compose fst] in *. apply elem_of_diff_entries in Hin as (-> & -> & Hne). done.
  - apply elem_of_list_to_map_1; [done|]. apply list_elem_of_fmap. exists (k, B !! k, O !! k). split; [done|].
    by apply elem_of_diff_entries.
Qed.

(** What becomes of a key, from its three versions. *)
Definition outcome (resolve : option bytes -> option bytes -> option bytes -> res action) (b o t : option bytes) : res action :=
  if bool_decide (b = t) then Ok Keep else if bool_decide (b = o) then Ok (Assign t) else resolve b o t.

(** ** Tables *)

Definition row_bytes (t : Table) : gmap bytes bytes := encode_row <$> table_map t.

(** A key on which all three versions differ. *)
Definition conflict (b o t : option bytes) : Prop := b <> o /\ b <> t /\ o <> t.

#[global] Instance conflict_dec b o t : Decision (conflict b o t).
Proof. unfold conflict. apply _. Defined.

(** [ours] where [theirs] kept the base, [theirs] elsewhere. *)
Definition merged_map {A} (kept : bytes -> bool) (O T : gmap bytes A) : gmap bytes A :=
  filter (fun e => kept e.1 = true) O ∪ filter (fun e => kept e.1 = false) T.

Lemma merged_map_lookup {A} (kept : bytes -> bool) (O T : gmap bytes A) k :
  merged_map kept O T !! k = if kept k then O !! k else T !! k.
Proof.
  unfold merged_map. rewrite lookup_union, !map_lookup_filter. cbn [fst].
  destruct (kept k) eqn:E; destruct (O !! k) as [x|], (T !! k) as [y|]; cbn [mbind option_bind];
    rewrite ?option_guard_False by congruence; rewrite ?option_guard_True by congruence; done.
Qed.

Definition kept (B T : gmap bytes bytes) (k : bytes) : bool := bool_decide (B !! k = T !! k).

Lemma map_entries_bytes (m : gmap bytes Row) : map_entries m = btree_iter (encode_row <$> m : gmap bytes bytes).
Proof.
  apply (sorted_by_unique fst); [apply map_entries_sorted|apply btree_iter_sorted|].
  intros [k v]. rewrite elem_of_btree_iter, lookup_fmap. unfold map_entries. rewrite list_elem_of_fmap. split.
  - intros ([k' row] & [= -> ->] & H%elem_of_btree_iter). cbn [fst snd]. by rewrite H.
  - intros (row & Hk & ->)%fmap_Some. exists (k, row). by rewrite elem_of_btree_iter.
Qed.

(** Rows keyed and typed as the schema says make a table. *)
Lemma table_of_map (sch : Schema) (m : gmap bytes Row) :
  wf_schema sch -> map_Forall (row_fits sch) m -> exists t, wf_table t /\ schema t = sch /\ table_map t = m.
Proof.
  intros Hs Hm. destruct (add_rows_spec (btree_iter m) (table_new sch)) as (t & _ & H2 & H3 & H4).
  - by apply table_new_wf.
  - apply Forall_forall. intros [k row] Hin%elem_of_btree_iter. by apply (Hm k row).
  - exists t. split_and!; try done. rewrite H4. apply collect_map_btree_iter.
Qed.

Section Stored.
Context `{hasher : Hasher} {S : Type} `{ops : !ObjectStore S} {U : bytes -> Prop} {ok : S -> Prop}
  `{laws : !StoreLaws S U ok}.
Implicit Types (s : S) (t : Table).

(** The maps of three stored trees, and fuel for the walks over them. *)
Definition three_stored (fuel : nat) s (rb ro rt : option Digest) (B O T : gmap bytes bytes) : Prop :=
  (stored s rb (btree_iter B) /\ (walk_size (btree_iter B) < fuel)%nat) /\
  (stored s ro (btree_iter O) /\ (walk_size (btree_iter O) < fuel)%nat) /\
  (stored s rt (btree_iter T) /\ (walk_size (btree_iter T) < fuel)%nat).

Lemma merge_with_spec resolve fuel s rb ro rt B O T (f : bytes -> action) :
  ok s -> three_stored fuel s rb ro rt B O T ->
  (forall k, outcome resolve (B !! k) (O !! k) (T !! k) = Ok (f k)) ->
  exists M, (forall k, M !! k = new_value (f k) (O !! k)) /\
  merge_with resolve fuel s rb ro rt = Some (
    match omap (fun e : DiffEntry => clash (f e.1.1)) (diff_entries B T) with
    | [] => '(root, s') ← build s (btree_iter M); Ok (Merged root, s')
    | rows => Ok (Conflicts rows, s)
    end).
Proof.
  intros Hok ([Hb Fb] & [Ho Fo] & [Ht Ft]) Hf. unfold merge_with.
  rewrite (stored_diff s fuel rb ro _ _ Hok Hb Ho Fb Fo), (stored_diff s fuel rb rt _ _ Hok Hb Ht Fb Ft).
  cbn [run_bind]. unfold tmap. rewrite !list_to_map_btree_iter.
  assert (match ro with Some r => entries s r | None => Ok [] end = Ok (btree_iter O)) as ->.
  { destruct ro as [d|]; [exact (stored_entries s d _ Ho)|]. destruct Ho as [_ Ho]. by rewrite Ho. }
  cbn [mbind result_bind]. rewrite collect_map_btree_iter.
  destruct (merge_loop_spec resolve (collect_map (map (fun e => (e.1.1, e.2)) (diff_entries B O))) (fun e => f e.1.1) O []
    (diff_entries B T)) as (m' & -> & H1 & H2).
  { apply (sorted_by_NoDup (fun e => e.1.1)), diff_entries_sorted. }
  { intros [[k x] y] (-> & -> & Hne)%elem_of_diff_entries. cbn [fst snd]. rewrite ours_changed_lookup, <-Hf. unfold outcome.
    rewrite (bool_decide_eq_false_2 (B !! k = T !! k)) by done. by case_bool_decide. }
  exists m'. split; [|cbn [mbind result_bind app]; by destruct (omap _ _)].
  intros k. destruct (decide (B !! k = T !! k)) as [E|E].
  - rewrite H1; [|intros [[k' x] y] (-> & -> & Hne)%elem_of_diff_entries <-; done].
    specialize (Hf k). unfold outcome in Hf. rewrite bool_decide_eq_true_2 in Hf by done. by injection Hf as <-.
  - apply (H2 (k, B !! k, T !! k)). by apply elem_of_diff_entries.
Qed.

(** The loop by what it does with each key, up to what shows. *)
Lemma merge_with_actions resolve fuel s rb ro rt B O T (act : bytes -> action) :
  ok s -> three_stored fuel s rb ro rt B O T ->
  (forall k, exists a, outcome resolve (B !! k) (O !! k) (T !! k) = Ok a /\
    clash a = clash (act k) /\ new_value a (O !! k) = new_value (act k) (O !! k)) ->
  exists M, (forall k, M !! k = new_value (act k) (O !! k)) /\
  merge_with resolve fuel s rb ro rt = Some (
    match omap (fun e : DiffEntry => clash (act e.1.1)) (diff_entries B T) with
    | [] => '(root, s') ← build s (btree_iter M); Ok (Merged root, s')
    | rows => Ok (Conflicts rows, s)
    end).
Proof.
  intros Hok H3 Ha.
  set (f := fun k => match outcome resolve (B !! k) (O !! k) (T !! k) with Ok a => a | Err _ => Keep end).
  assert (forall k, outcome resolve (B !! k) (O !! k) (T !! k) = Ok (f k) /\ clash (f k) = clash (act k) /\
    new_value (f k) (O !! k) = new_value (act k) (O !! k)) as Hf.
  { intros k. destruct (Ha k) as (a & E & Hc & Hn). unfold f. by rewrite E. }
  destruct (merge_with_spec resolve fuel s rb ro rt _ _ _ f Hok H3) as (M & HM & ->); [apply Hf|].
  exists M. split; [intros k; rewrite HM; apply Hf|].
  assert (omap (fun e : DiffEntry => clash (f e.1.1)) (diff_entries B T) = omap (fun e : DiffEntry => clash (act e.1.1)) (diff_entries B T)) as ->;
    [|done]. apply list_omap_ext, Forall_Forall2_diag, Forall_forall. intros e _. apply Hf.
Qed.

(** The change of one key between two revisions. *)
Definition row_change (ta tb : Table) (k : bytes) : option RowDiff :=
  match table_map ta !! k, table_map tb !! k with
  | None, Some row => Some (Added row)
  | Some row, None => Some (Removed row)
  | Some from, Some to => if bool_decide (encode_row from = encode_row to) then None else Some (Updated from to)
  | None, None => None
  end.

Lemma row_bytes_decode (sch : Schema) t (k v : bytes) :
  wf_table t -> schema t = sch -> map_Forall (fun _ row => storable_row row) (table_map t) -> row_bytes t !! k = Some v ->
  exists row, table_map t !! k = Some row /\ decode_row (arity sch) v = Ok row /\ v = encode_row row.
Proof.
  intros (_ & _ & Hm) <- Hst (row & E & Hk)%lookup_fmap_Some. exists row. split_and!; [done| |done]. rewrite <-E.
  exact (decode_stored_row (schema t) k row (Hm _ _ Hk) (Hst _ _ Hk)).
Qed.

(** A stored revision of a table, and fuel for the walks over it. *)
Definition revision (fuel : nat) s (sch : Schema) (r : option Digest) t : Prop :=
  wf_table t /\ schema t = sch /\ map_Forall (fun _ row => storable_row row) (table_map t) /\
  stored s r (map_entries (table_map t)) /\ (walk_size (map_entries (table_map t)) < fuel)%nat.

Lemma diff_row_change fuel s sch ra rb ta tb out k :
  revision fuel s sch ra ta -> revision fuel s sch rb tb ->
  match diff_entry (row_bytes ta) (row_bytes tb) k with
  | Some e => diff_row sch out e
  | None => Ok out
  end = Ok (out ++ option_list (row_change ta tb k)).
Proof.
  intros (Hwa & Ea & Hsa & _) (Hwb & Eb & Hsb & _). unfold diff_entry, row_change, diff_row.
  assert (forall t, row_bytes t !! k = encode_row <$> table_map t !! k) as Hl by (intros t; unfold row_bytes; by rewrite lookup_fmap).
  pose proof (fun v => row_bytes_decode sch ta k v Hwa Ea Hsa) as Ha. pose proof (fun v => row_bytes_decode sch tb k v Hwb Eb Hsb) as Hb.
  rewrite !Hl in *. destruct (table_map ta !! k) as [x|], (table_map tb !! k) as [y|]; cbn [fmap option_fmap option_map] in *.
  - destruct (Ha _ eq_refl) as (x' & [= <-] & Dx & _), (Hb _ eq_refl) as (y' & [= <-] & Dy & _).
    destruct (decide (encode_row x = encode_row y)) as [E|E].
    + rewrite !bool_decide_eq_true_2 by congruence. cbn [option_list]. by rewrite app_nil_r.
    + rewrite !bool_decide_eq_false_2 by congruence. cbn [fst snd]. by rewrite Dx, Dy.
  - destruct (Ha _ eq_refl) as (x' & [= <-] & Dx & _). rewrite bool_decide_eq_false_2 by done. cbn [fst snd]. by rewrite Dx.
  - destruct (Hb _ eq_refl) as (y' & [= <-] & Dy & _). rewrite bool_decide_eq_false_2 by done. cbn [fst snd]. by rewrite Dy.
  - rewrite bool_decide_eq_true_2 by done. cbn [option_list]. by rewrite app_nil_r.
Qed.

(** The row-level diff of two stored revisions of a table lists, in key order, every row added,
    removed or changed between them, and nothing else. *)
Theorem table_diff s fuel sch ra rb ta tb :
  ok s -> revision fuel s sch ra ta -> revision fuel s sch rb tb ->
  diff_rows fuel s sch ra rb =
  Some (Ok (omap (row_change ta tb) (sort_by id (elements (dom (row_bytes ta) ∪ dom (row_bytes tb)))))).
Proof.
  intros Hok Ha Hb. pose proof Ha as (_ & _ & _ & Sa & Fa). pose proof Hb as (_ & _ & _ & Sb & Fb).
  unfold diff_rows. rewrite (stored_diff s fuel ra rb _ _ Hok Sa Sb Fa Fb), !map_entries_bytes. cbn [run_bind]. unfold tmap.
  rewrite !list_to_map_btree_iter. fold (row_bytes ta) (row_bytes tb). do 2 f_equal. unfold diff_entries.
  rewrite <-(app_nil_l (omap (row_change ta tb) _)). generalize (@nil RowDiff).
  induction (sort_by id (elements (dom (row_bytes ta) ∪ dom (row_bytes tb)))) as [|k l IH]; intros out; [by rewrite app_nil_r|].
  pose proof (diff_row_change fuel s sch ra rb ta tb out k Ha Hb) as E. cbn [omap list_omap].
  destruct (diff_entry (row_bytes ta) (row_bytes tb) k) as [e|], (row_change ta tb k) as [c|]; cbn [try_fold option_list] in *;
    rewrite ?E; cbn [mbind result_bind]; rewrite ?app_nil_r, ?IH, <-?app_assoc; try done.
  injection E as E. by apply (f_equal length) in E; rewrite length_app in E; cbn [length] in E; lia.
Qed.

(** Three revisions of a table under one schema, stored and readable. *)
Definition three_tables (fuel : nat) s (sch : Schema) (rb ro rt : option Digest) (tb to tt : Table) : Prop :=
  wf_schema sch /\
  Forall (fun t => wf_table t /\ schema t = sch /\ map_Forall (fun _ row => storable_row row) (table_map t)) [tb; to; tt] /\
  three_stored fuel s rb ro rt (row_bytes tb) (row_bytes to) (row_bytes tt).

(** The row reported for a conflict. *)
Definition conflict_row (to tt : Table) (k : bytes) : option Row :=
  match table_map to !! k with Some row => Some row | None => table_map tt !! k end.

Definition row_action (tb to tt : Table) (k : bytes) : action :=
  let b := row_bytes tb !! k in let o := row_bytes to !! k in let t := row_bytes tt !! k in
  if decide (conflict b o t) then match conflict_row to tt k with Some row => Clash row | None => Keep end
  else if kept (row_bytes tb) (row_bytes tt) k then Keep
  else Assign t.

Lemma outcome_rows fuel s (sch : Schema) rb ro rt tb to tt (k : bytes) :
  three_tables fuel s sch rb ro rt tb to tt ->
  exists a, outcome (resolve_row sch) (row_bytes tb !! k) (row_bytes to !! k) (row_bytes tt !! k) = Ok a /\
    clash a = clash (row_action tb to tt k) /\
    new_value a (row_bytes to !! k) = new_value (row_action tb to tt k) (row_bytes to !! k).
Proof.
  intros (_ & Hall & _). rewrite !Forall_cons in Hall. destruct Hall as ((Hwb & Eb & Hsb) & (Hwo & Eo & Hso) & (Hwt & Et & Hst) & _).
  unfold outcome, row_action, kept, resolve_row, conflict. set (b := row_bytes tb !! k).
  destruct (decide (b = row_bytes tt !! k)) as [E1|E1].
  { rewrite !bool_decide_eq_true_2, decide_False by naive_solver. by exists Keep. }
  rewrite !(bool_decide_eq_false_2 (b = row_bytes tt !! k)) by done.
  destruct (decide (b = row_bytes to !! k)) as [E2|E2].
  { rewrite bool_decide_eq_true_2, decide_False by naive_solver. by eexists. }
  rewrite (bool_decide_eq_false_2 (b = _)) by done. destruct (decide (row_bytes to !! k = row_bytes tt !! k)) as [E3|E3].
  { rewrite bool_decide_eq_true_2, decide_False by naive_solver. exists Keep. by rewrite E3. }
  rewrite bool_decide_eq_false_2, decide_True by naive_solver. unfold conflict_row.
  destruct (row_bytes to !! k) as [v|] eqn:E4; cbn [either].
  - destruct (row_bytes_decode sch to k v Hwo Eo Hso E4) as (row & -> & -> & _). by exists (Clash row).
  - assert (table_map to !! k = None) as -> by (unfold row_bytes in E4; rewrite lookup_fmap in E4; by destruct (table_map to !! k)).
    destruct (row_bytes tt !! k) as [v|] eqn:E5; [|done].
    destruct (row_bytes_decode sch tt k v Hwt Et Hst E5) as (row & -> & -> & _). by exists (Clash row).
Qed.

Definition merged_rows (tb to tt : Table) : gmap bytes Row :=
  merged_map (kept (row_bytes tb) (row_bytes tt)) (table_map to) (table_map tt).

(** The rows [merge_rows] reports, in key order. *)
Definition conflict_rows (tb to tt : Table) : list Row :=
  omap (fun e : DiffEntry => clash (row_action tb to tt e.1.1)) (diff_entries (row_bytes tb) (row_bytes tt)).

Lemma merged_rows_bytes tb to tt k :
  (encode_row <$> merged_rows tb to tt : gmap bytes bytes) !! k =
  if kept (row_bytes tb) (row_bytes tt) k then row_bytes to !! k else row_bytes tt !! k.
Proof.
  unfold merged_rows. rewrite lookup_fmap, merged_map_lookup. destruct (kept _ _ k); unfold row_bytes; by rewrite lookup_fmap.
Qed.

Lemma elem_of_conflict_rows tb to tt row :
  row ∈ conflict_rows tb to tt <->
  exists k, conflict (row_bytes tb !! k) (row_bytes to !! k) (row_bytes tt !! k) /\ conflict_row to tt k = Some row.
Proof.
  unfold conflict_rows. rewrite list_elem_of_omap. unfold row_action. split.
  - intros ([[k x] y] & _ & H). cbn [fst] in H. exists k. case_decide; [|by destruct (kept _ _ k)]. split; [done|].
    destruct (conflict_row to tt k); cbn [clash] in H; congruence.
  - intros (k & Hc & E). exists (k, row_bytes tb !! k, row_bytes tt !! k). cbn [fst]. rewrite elem_of_diff_entries.
    rewrite decide_True, E by done. destruct Hc as (_ & Hc & _). done.
Qed.

Lemma conflict_has_row tb to tt k :
  conflict (row_bytes tb !! k) (row_bytes to !! k) (row_bytes tt !! k) -> exists row, conflict_row to tt k = Some row.
Proof.
  unfold conflict, conflict_row, row_bytes. rewrite !lookup_fmap. intros (_ & _ & H).
  destruct (table_map to !! k); [by eexists|]. destruct (table_map tt !! k); [by eexists|done].
Qed.

Lemma conflict_rows_nil tb to tt :
  conflict_rows tb to tt = [] <-> forall k, ~ conflict (row_bytes tb !! k) (row_bytes to !! k) (row_bytes tt !! k).
Proof.
  split.
  - intros E k Hc. destruct (conflict_has_row tb to tt k Hc) as [row Hr].
    assert (row ∈ conflict_rows tb to tt) as Hin by (apply elem_of_conflict_rows; eauto). rewrite E in Hin. by apply not_elem_of_nil in Hin.
  - intros H. destruct (conflict_rows tb to tt) as [|row l] eqn:E; [done|].
    assert (row ∈ conflict_rows tb to tt) as (k & Hc & _)%elem_of_conflict_rows by (rewrite E; left). by destruct (H k).
Qed.

Lemma no_conflict_value tb to tt k :
  conflict_rows tb to tt = [] ->
  new_value (row_action tb to tt k) (row_bytes to !! k) =
  if kept (row_bytes tb) (row_bytes tt) k then row_bytes to !! k else row_bytes tt !! k.
Proof.
  intros H. unfold row_action. rewrite decide_False by (by apply conflict_rows_nil). by destruct (kept _ _ k).
Qed.

Lemma merge_rows_spec fuel s sch rb ro rt tb to tt :
  ok s -> three_tables fuel s sch rb ro rt tb to tt ->
  merge_rows fuel s sch rb ro rt = Some (
    match conflict_rows tb to tt with
    | [] => '(root, s') ← build s (map_entries (merged_rows tb to tt)); Ok (Merged root, s')
    | rows => Ok (Conflicts rows, s)
    end).
Proof.
  intros Hok H. pose proof H as (_ & _ & H3). unfold merge_rows.
  destruct (merge_with_actions (resolve_row sch) fuel s rb ro rt _ _ _ (row_action tb to tt) Hok H3) as (M & HM & ->);
    [intros k; by eapply outcome_rows|].
  fold (conflict_rows tb to tt). destruct (conflict_rows tb to tt) eqn:E; [|done]. rewrite map_entries_bytes.
  assert (M = encode_row <$> merged_rows tb to tt) as ->; [|done]. apply map_eq. intros k.
  rewrite HM, merged_rows_bytes. by apply no_conflict_value.
Qed.

Lemma three_tables_swap fuel s sch rb ro rt tb to tt :
  three_tables fuel s sch rb ro rt tb to tt -> three_tables fuel s sch rb rt ro tb tt to.
Proof.
  intros (Hs & Hall & Hb & Ho & Ht). split_and!; try done. rewrite !Forall_cons in *. naive_solver.
Qed.

Lemma conflict_rows_swap tb to tt : conflict_rows tb to tt = [] -> conflict_rows tb tt to = [].
Proof. rewrite !conflict_rows_nil. unfold conflict. intros H k (H1 & H2 & H3). apply (H k). by split_and!. Qed.

Lemma merged_rows_swap tb to tt :
  conflict_rows tb to tt = [] -> map_entries (merged_rows tb tt to) = map_entries (merged_rows tb to tt).
Proof.
  intros H. rewrite !map_entries_bytes. f_equal. apply map_eq. intros k. rewrite !merged_rows_bytes.
  apply conflict_rows_nil with (k := k) in H. unfold kept, conflict in *. repeat case_bool_decide; try congruence.
  destruct (decide (row_bytes to !! k = row_bytes tt !! k)); naive_solver.
Qed.

Lemma merged_rows_fit fuel s sch rb ro rt tb to tt :
  three_tables fuel s sch rb ro rt tb to tt -> map_Forall (row_fits sch) (merged_rows tb to tt).
Proof.
  intros (_ & Hall & _) k row H. rewrite !Forall_cons in Hall. destruct Hall as (_ & ((_ & _ & Ho) & Eo & _) & ((_ & _ & Ht) & Et & _) & _).
  unfold merged_rows in H. rewrite merged_map_lookup in H. rewrite Eo in Ho. rewrite Et in Ht.
  destruct (kept _ _ k); [by apply (Ho k)|by apply (Ht k)].
Qed.

(** C13: a row-level merge is the pointwise three-way merge of the two row maps: when no key was changed
    differently by both sides, the merged root stores the table that has theirs where theirs changed
    the base and ours elsewhere, whichever side is called ours; otherwise the merge reports exactly the
    rows of those keys and stores nothing. *)
Theorem table_merge s fuel sch rb ro rt tb to tt :
  ok s -> three_tables fuel s sch rb ro rt tb to tt ->
  buildable (U := U) (digest_algo s) (map_entries (merged_rows tb to tt)) ->
  ((forall k, ~ conflict (row_bytes tb !! k) (row_bytes to !! k) (row_bytes tt !! k)) /\
    exists root s' tm, merge_rows fuel s sch rb ro rt = Some (Ok (Merged root, s')) /\
      merge_rows fuel s sch rb rt ro = Some (Ok (Merged root, s')) /\ ok s' /\ extends s s' /\
      wf_table tm /\ schema tm = sch /\ stored s' root (map_entries (table_map tm)) /\
      forall k, row_bytes tm !! k =
        if bool_decide (row_bytes tb !! k = row_bytes tt !! k) then row_bytes to !! k else row_bytes tt !! k) \/
  (exists rows, rows <> [] /\ merge_rows fuel s sch rb ro rt = Some (Ok (Conflicts rows, s)) /\
    forall row, row ∈ rows <->
      exists k, conflict (row_bytes tb !! k) (row_bytes to !! k) (row_bytes tt !! k) /\ conflict_row to tt k = Some row).
Proof.
  intros Hok H Hb. rewrite (merge_rows_spec fuel s sch rb ro rt tb to tt Hok H).
  rewrite (merge_rows_spec fuel s sch rb rt ro tb tt to Hok (three_tables_swap _ _ _ _ _ _ _ _ _ H)).
  destruct (conflict_rows tb to tt) as [|row rows] eqn:E.
  - left. split; [by apply conflict_rows_nil|].
    destruct (stored_build s _ Hok (map_entries_sorted _) Hb) as (root & s' & H1 & H2 & H3 & H4).
    destruct (table_of_map sch (merged_rows tb to tt)) as (tm & Hw & Hs & Hm); [apply H|by eapply merged_rows_fit|].
    exists root, s', tm. rewrite (conflict_rows_swap _ _ _ E), (merged_rows_swap _ _ _ E), H1. cbn [mbind result_bind].
    split_and!; try done; [by rewrite Hm|]. intros k. unfold row_bytes at 1. by rewrite Hm, merged_rows_bytes.
  - right. exists (row :: rows). split_and!; [done|done|]. intros row'. rewrite <-E. apply elem_of_conflict_rows.
Qed.

End Stored.

End TableMergeProps.
