(* ===== verification/TableMergeCells.v ===== *)
(** * The cell-level merge of tables *)

From S2P Require Import Prelude Types Codec Store Prolly ProllyTree ProllyBuild ProllyDiff ProllyMap Tabular TabularOrder TabularCells Schema Table TableStore TableMerge.

Module TableMergeCells.
Import Error Digest Store Prolly ProllyTree ProllyDiff ProllyMap Tabular TabularOrder TabularCells Schema Table TableProps TableStore TableMerge TableMergeProps.

(** ** Rows *)

Lemma merge_cell_choice b o t v : merge_cell b o t = Some v -> v = o \/ v = t.
Proof. unfold merge_cell. repeat case_match; naive_solver. Qed.

(** A merged row has at every column what the merge of the three cells gives. *)
Lemma merge_cells_Some (b o t r : Row) :
  length o = length b -> length t = length b ->
  merge_cells b o t = Some r <->
  length r = length b /\
  forall i x y z, b !! i = Some x -> o !! i = Some y -> t !! i = Some z -> r !! i = merge_cell x y z.
Proof.
  revert o t r. induction b as [|x b IH]; intros [|y o] [|z t] r Ho Ht; try done; cbn [length] in *.
  { cbn [merge_cells]. split; [by intros [= <-]|]. intros [H _]. by destruct r. }
  injection Ho as Ho. injection Ht as Ht. cbn [merge_cells]. destruct (merge_cell x y z) as [c|] eqn:Ec; split; try done.
  - intros (r' & E & ->)%fmap_Some. apply IH in E as [Hl E]; [|done..]. cbn [length]. split; [by rewrite Hl|].
    intros [|i] x' y' z' Hx Hy Hz; [|by apply (E i)]. injection Hx as ->. injection Hy as ->. injection Hz as ->. done.
  - intros [Hl H]. destruct r as [|c' r]; [done|]. pose proof (H O x y z eq_refl eq_refl eq_refl) as E. rewrite Ec in E.
    injection E as ->. apply fmap_Some. exists r. split; [|done]. apply IH; [done..|]. split; [by injection Hl|].
    intros i x' y' z' Hx Hy Hz. by apply (H (Datatypes.S i)).
  - intros [Hl H]. destruct r as [|c' r]; [done|]. pose proof (H O x y z eq_refl eq_refl eq_refl) as E. by rewrite Ec in E.
Qed.

(** It fails exactly on a column that both sides changed, differently. *)
Lemma merge_cells_None (b o t : Row) :
  length o = length b -> length t = length b ->
  merge_cells b o t = None <->
  exists i x y z, b !! i = Some x /\ o !! i = Some y /\ t !! i = Some z /\
    value_eqb y z = false /\ value_eqb y x = false /\ value_eqb z x = false.
Proof.
  revert o t. induction b as [|x b IH]; intros [|y o] [|z t] Ho Ht; try done; cbn [length] in *.
  { cbn [merge_cells]. split; [done|]. by intros (i & x & y & z & H & _). }
  injection Ho as Ho. injection Ht as Ht. cbn [merge_cells].
  assert (merge_cell x y z = None <-> value_eqb y z = false /\ value_eqb y x = false /\ value_eqb z x = false) as Hc.
  { unfold merge_cell. repeat case_match; naive_solver. }
  destruct (merge_cell x y z) as [c|] eqn:E.
  - rewrite fmap_None, IH by done. split.
    + intros (i & H). by exists (Datatypes.S i).
    + intros ([|i] & x' & y' & z' & Hx & Hy & Hz & H); [|by exists i, x', y', z'].
      injection Hx as ->. injection Hy as ->. injection Hz as ->. by apply Hc in H.
  - split; [|done]. intros _. exists O, x, y, z. split_and!; try done; naive_solver.
Qed.

Lemma pk_cmp_cells a b : pk_cmp a b = Eq -> Forall2 (fun y z => value_eqb y z = true) a b.
Proof.
  revert b. induction a as [|x a IH]; intros [|y b] H; try done; constructor; cbn [pk_cmp] in H; unfold value_eqb;
    destruct (value_cmp x y); try done. by apply IH.
Qed.

(** Merging keeps the types of the columns and the key. *)
Lemma merge_cells_fits sch k b o t r :
  row_fits sch k b -> row_fits sch k o -> row_fits sch k t -> merge_cells b o t = Some r -> row_fits sch k r.
Proof.
  intros (_ & [Lb _]%check_row_Ok & _) ([Wo Co] & [Lo To]%check_row_Ok & po & Ko & Eo) ([_ Ct] & [Lt Tt]%check_row_Ok & pt & Kt & Et) E.
  apply merge_cells_Some in E as [Lr E]; [|congruence..].
  assert (forall i v, r !! i = Some v -> exists y z, o !! i = Some y /\ t !! i = Some z /\ (v = y \/ v = z) /\ (value_eqb y z = true -> v = y)) as Hr.
  { intros i v Hv. destruct (lookup_lt_is_Some_2 b i) as [x Hx]; [rewrite <-Lr; by eapply lookup_lt_Some|].
    destruct (lookup_lt_is_Some_2 o i) as [y Hy]; [rewrite Lo, <-Lb; by eapply lookup_lt_Some|].
    destruct (lookup_lt_is_Some_2 t i) as [z Hz]; [rewrite Lt, <-Lb; by eapply lookup_lt_Some|].
    exists y, z. rewrite (E i x y z Hx Hy Hz) in Hv. split_and!; try done; [by eapply merge_cell_choice|].
    intros Hyz. unfold merge_cell in Hv. rewrite Hyz in Hv. congruence. }
  rewrite Forall_lookup in Co, Ct. split_and!.
  - split; [unfold Codec.len in *; by rewrite Lr, Lb, <-Lo|]. apply Forall_lookup. intros i v Hv.
    destruct (Hr i v Hv) as (y & z & Hy & Hz & [->| ->] & _); eauto.
  - apply check_row_Ok. split; [congruence|]. apply Forall2_same_length_lookup_2; [unfold arity in *; congruence|].
    intros i v c Hv Hc. destruct (Hr i v Hv) as (y & z & Hy & Hz & [->| ->] & _);
      [by eapply (Forall2_lookup_lr _ _ _ _ _ _ To)|by eapply (Forall2_lookup_lr _ _ _ _ _ _ Tt)].
  - exists po. split; [|done].
    assert (Forall2 (fun y z => value_eqb y z = true) po pt) as Hp.
    { apply pk_cmp_cells, pk_cmp_eq; [| |congruence]; (eapply select_wf; [|done]); by apply Forall_lookup. }
    apply select_Ok in Ko, Kt. apply select_Ok. pose proof (Forall2_length _ _ _ Ko) as Lk.
    apply Forall2_same_length_lookup_2; [done|]. intros j i v Hj Hv.
    destruct (Forall2_lookup_l _ _ _ _ _ Kt Hj) as (z & Hz & Htz).
    pose proof (Forall2_lookup_lr _ _ _ _ _ _ Ko Hj Hv) as Hoi. cbn beta in Hoi.
    pose proof (Forall2_lookup_lr _ _ _ _ _ _ Hp Hv Hz) as Hyz. cbn beta in Hyz.
    destruct (lookup_lt_is_Some_2 r (N.to_nat i)) as [c Hc]; [rewrite Lr, Lb, <-Lo; by eapply lookup_lt_Some|].
    destruct (Hr _ _ Hc) as (y' & z' & Hy' & Hz' & _ & Heq). rewrite Hc. f_equal.
    assert (y' = v) as -> by congruence. assert (z' = z) as -> by congruence. by apply Heq.
Qed.

(** ** Tables *)

(** The row the cells of three versions of a key merge to. *)
Definition cell_row (tb to tt : Table) (k : bytes) : option Row :=
  match table_map tb !! k, table_map to !! k, table_map tt !! k with
  | Some b, Some o, Some t => merge_cells b o t
  | _, _, _ => None
  end.

(** The row reported when they do not merge. *)
Definition cell_conflict_row (tb to tt : Table) (k : bytes) : option Row :=
  match table_map tb !! k, table_map to !! k, table_map tt !! k with
  | Some _, Some _, Some t => Some t
  | _, _, _ => conflict_row to tt k
  end.

Definition conflict_at (tb to tt : Table) (k : bytes) : Prop :=
  conflict (row_bytes tb !! k) (row_bytes to !! k) (row_bytes tt !! k).

#[global] Instance conflict_at_dec tb to tt k : Decision (conflict_at tb to tt k).
Proof. unfold conflict_at. apply _. Defined.

Definition cell_action (tb to tt : Table) (k : bytes) : action :=
  if decide (conflict_at tb to tt k) then
    match cell_row tb to tt k, cell_conflict_row tb to tt k with
    | Some r, _ => Assign (Some (encode_row r))
    | None, Some row => Clash row
    | None, None => Keep
    end
  else if kept (row_bytes tb) (row_bytes tt) k then Keep
  else Assign (row_bytes tt !! k).

Definition merged_cells (tb to tt : Table) : gmap bytes Row :=
  map_imap (fun k row => Some (if decide (conflict_at tb to tt k) then default row (cell_row tb to tt k) else row))
    (merged_rows tb to tt).

Definition cell_conflict_rows (tb to tt : Table) : list Row :=
  omap (fun e : DiffEntry => clash (cell_action tb to tt e.1.1)) (diff_entries (row_bytes tb) (row_bytes tt)).

(** A conflict that the cells do not resolve. *)
Definition unresolved (tb to tt : Table) (k : bytes) : Prop := conflict_at tb to tt k /\ cell_row tb to tt k = None.

Lemma conflict_at_rows tb to tt k :
  conflict_at tb to tt k -> exists row, cell_conflict_row tb to tt k = Some row.
Proof.
  intros H. unfold cell_conflict_row. destruct (conflict_has_row tb to tt k H) as [row Hr].
  destruct (table_map tb !! k), (table_map to !! k), (table_map tt !! k); eauto.
Qed.

Lemma elem_of_cell_conflict_rows tb to tt row :
  row ∈ cell_conflict_rows tb to tt <-> exists k, unresolved tb to tt k /\ cell_conflict_row tb to tt k = Some row.
Proof.
  unfold cell_conflict_rows. rewrite list_elem_of_omap. unfold cell_action, unresolved. split.
  - intros ([[k x] y] & _ & H). cbn [fst] in H. exists k. case_decide; [|by destruct (kept _ _ k)].
    destruct (cell_row tb to tt k); [done|]. destruct (cell_conflict_row tb to tt k); naive_solver.
  - intros (k & [Hc Hn] & E). exists (k, row_bytes tb !! k, row_bytes tt !! k). cbn [fst]. rewrite elem_of_diff_entries.
    rewrite decide_True, Hn, E by done. destruct Hc as (_ & Hc & _). done.
Qed.

Lemma cell_conflict_rows_nil tb to tt :
  cell_conflict_rows tb to tt = [] <-> forall k, ~ unresolved tb to tt k.
Proof.
  split.
  - intros E k Hc. destruct (conflict_at_rows tb to tt k) as [row Hr]; [apply Hc|].
    assert (row ∈ cell_conflict_rows tb to tt) as Hin by (apply elem_of_cell_conflict_rows; eauto).
    rewrite E in Hin. by apply not_elem_of_nil in Hin.
  - intros H. destruct (cell_conflict_rows tb to tt) as [|row l] eqn:E; [done|].
    assert (row ∈ cell_conflict_rows tb to tt) as (k & Hc & _)%elem_of_cell_conflict_rows by (rewrite E; left). by destruct (H k).
Qed.

Lemma merged_cells_lookup tb to tt k :
  (forall k, ~ unresolved tb to tt k) ->
  merged_cells tb to tt !! k = if decide (conflict_at tb to tt k) then cell_row tb to tt k else merged_rows tb to tt !! k.
Proof.
  intros Hu. unfold merged_cells. rewrite map_lookup_imap. case_decide as Hc; [|by destruct (merged_rows tb to tt !! k)].
  destruct (cell_row tb to tt k) as [r|] eqn:E; [|by destruct (Hu k)].
  assert (is_Some (merged_rows tb to tt !! k)) as [row ->]; [|done].
  unfold merged_rows. rewrite merged_map_lookup. unfold kept. rewrite bool_decide_eq_false_2 by apply Hc.
  unfold cell_row in E. destruct (table_map tb !! k), (table_map to !! k), (table_map tt !! k); done.
Qed.

Section Stored.
Context `{hasher : Hasher} {S : Type} `{ops : !ObjectStore S} {U : bytes -> Prop} {ok : S -> Prop}
  `{laws : !StoreLaws S U ok}.
Implicit Types (s : S) (t : Table).

Lemma outcome_cells fuel s (sch : Schema) rb ro rt tb to tt (k : bytes) :
  three_tables fuel s sch rb ro rt tb to tt ->
  exists a, outcome (resolve_cells sch) (row_bytes tb !! k) (row_bytes to !! k) (row_bytes tt !! k) = Ok a /\
    clash a = clash (cell_action tb to tt k) /\
    new_value a (row_bytes to !! k) = new_value (cell_action tb to tt k) (row_bytes to !! k).
Proof.
  intros H. destruct (outcome_rows fuel s sch rb ro rt tb to tt k H) as (a & E & Hc & Hn). revert E Hc Hn.
  unfold row_action, cell_action. destruct (decide (conflict_at tb to tt k)) as [Hx|Hx]; [|rewrite decide_False by exact Hx].
  - intros _ _ _. destruct H as (_ & Hall & _). rewrite !Forall_cons in Hall.
    destruct Hall as ((Hwb & Eb & Hsb) & (Hwo & Eo & Hso) & (Hwt & Et & Hst) & _).
    pose proof Hx as (H1 & H2 & H3). unfold outcome, resolve_cells. rewrite !bool_decide_eq_false_2 by done.
    unfold cell_row, cell_conflict_row, conflict_row.
    assert (forall t, row_bytes t !! k = None -> table_map t !! k = None) as HN.
    { intros t. unfold row_bytes. rewrite lookup_fmap. by destruct (table_map t !! k). }
    destruct (row_bytes to !! k) as [vo|] eqn:E4; [destruct (row_bytes_decode sch to k vo Hwo Eo Hso E4) as (o & -> & Do & _)|rewrite (HN to E4)];
    (destruct (row_bytes tt !! k) as [vt|] eqn:E5; [destruct (row_bytes_decode sch tt k vt Hwt Et Hst E5) as (t & -> & Dt & _)|rewrite (HN tt E5)]);
    (destruct (row_bytes tb !! k) as [vb|] eqn:E6; [destruct (row_bytes_decode sch tb k vb Hwb Eb Hsb E6) as (b & -> & Db & _)|rewrite (HN tb E6)]);
    cbn [either]; rewrite ?Db, ?Do, ?Dt; cbn [mbind result_bind]; try done; try (by eexists).
    destruct (merge_cells b o t); by eexists.
  - intros E Hc Hn. exists a. split_and!; try done. rewrite <-E. unfold outcome, resolve_cells, resolve_row.
    unfold conflict_at, conflict in Hx. repeat case_bool_decide; naive_solver.
Qed.

Lemma merged_cells_fit fuel s sch rb ro rt tb to tt :
  three_tables fuel s sch rb ro rt tb to tt -> (forall k, ~ unresolved tb to tt k) ->
  map_Forall (row_fits sch) (merged_cells tb to tt).
Proof.
  intros H Hu k row. rewrite merged_cells_lookup by done. case_decide; [|by apply (merged_rows_fit _ _ _ _ _ _ _ _ _ H)].
  destruct H as (_ & Hall & _). rewrite !Forall_cons in Hall.
  destruct Hall as (((_ & _ & Hb) & Eb & _) & ((_ & _ & Ho) & Eo & _) & ((_ & _ & Ht) & Et & _) & _).
  rewrite Eb in Hb. rewrite Eo in Ho. rewrite Et in Ht. unfold cell_row.
  destruct (table_map tb !! k) as [b|] eqn:E1; [|done]. destruct (table_map to !! k) as [o|] eqn:E2; [|done].
  destruct (table_map tt !! k) as [t|] eqn:E3; [|done].
  exact (merge_cells_fits sch k b o t row (Hb _ _ E1) (Ho _ _ E2) (Ht _ _ E3)).
Qed.

Lemma merge_rows_cells_spec fuel s sch rb ro rt tb to tt :
  ok s -> three_tables fuel s sch rb ro rt tb to tt ->
  merge_rows_cells fuel s sch rb ro rt = Some (
    match cell_conflict_rows tb to tt with
    | [] => '(root, s') ← build s (map_entries (merged_cells tb to tt)); Ok (Merged root, s')
    | rows => Ok (Conflicts rows, s)
    end).
Proof.
  intros Hok H. pose proof H as (_ & _ & H3). unfold merge_rows_cells.
  destruct (merge_with_actions (resolve_cells sch) fuel s rb ro rt _ _ _ (cell_action tb to tt) Hok H3) as (M & HM & ->);
    [intros k; by eapply outcome_cells|].
  fold (cell_conflict_rows tb to tt). destruct (cell_conflict_rows tb to tt) eqn:E; [|done]. rewrite map_entries_bytes.
  assert (M = encode_row <$> merged_cells tb to tt) as ->; [|done]. apply map_eq. intros k.
  rewrite cell_conflict_rows_nil in E. rewrite HM, lookup_fmap, merged_cells_lookup by done. unfold cell_action.
  case_decide as Hx.
  - destruct (cell_row tb to tt k) eqn:Er; [done|]. by destruct (E k).
  - rewrite <-lookup_fmap, merged_rows_bytes. by destruct (kept _ _ k).
Qed.

(** A cell-level merge succeeds exactly when every key that both sides changed differently has three
    rows of which each column was changed by at most one side, or by both to equal values; the merged
    root then stores the table with those rows merged column by column and every other key merged as in
    the row-level merge; otherwise the merge reports exactly the rows of the remaining keys. *)
Theorem table_merge_cells s fuel sch rb ro rt tb to tt :
  ok s -> three_tables fuel s sch rb ro rt tb to tt ->
  buildable (U := U) (digest_algo s) (map_entries (merged_cells tb to tt)) ->
  ((forall k, conflict_at tb to tt k -> is_Some (cell_row tb to tt k)) /\
    exists root s' tm, merge_rows_cells fuel s sch rb ro rt = Some (Ok (Merged root, s')) /\ ok s' /\ extends s s' /\
      wf_table tm /\ schema tm = sch /\ stored s' root (map_entries (table_map tm)) /\
      forall k,
        (conflict_at tb to tt k -> table_map tm !! k = cell_row tb to tt k) /\
        (~ conflict_at tb to tt k -> row_bytes tm !! k =
          if bool_decide (row_bytes tb !! k = row_bytes tt !! k) then row_bytes to !! k else row_bytes tt !! k)) \/
  (exists rows, rows <> [] /\ merge_rows_cells fuel s sch rb ro rt = Some (Ok (Conflicts rows, s)) /\
    forall row, row ∈ rows <-> exists k, unresolved tb to tt k /\ cell_conflict_row tb to tt k = Some row).
Proof.
  intros Hok H Hb. rewrite (merge_rows_cells_spec fuel s sch rb ro rt tb to tt Hok H).
  destruct (cell_conflict_rows tb to tt) as [|row rows] eqn:E.
  - pose proof E as Hu. rewrite cell_conflict_rows_nil in Hu. left. split.
    { intros k Hk. destruct (cell_row tb to tt k) eqn:Er; [done|]. by destruct (Hu k). }
    destruct (stored_build s _ Hok (map_entries_sorted _) Hb) as (root & s' & H1 & H2 & H3 & H4).
    destruct (table_of_map sch (merged_cells tb to tt)) as (tm & Hw & Hs & Hm); [apply H|by eapply merged_cells_fit|].
    exists root, s', tm. rewrite H1. cbn [mbind result_bind]. split_and!; try done; [by rewrite Hm|].
    intros k. unfold row_bytes at 1. rewrite Hm, lookup_fmap, merged_cells_lookup by done. split; intros Hk.
    + by rewrite decide_True.
    + rewrite decide_False, <-lookup_fmap by done. apply merged_rows_bytes.
  - right. exists (row :: rows). split_and!; [done|done|]. intros row'. rewrite <-E. apply elem_of_cell_conflict_rows.
Qed.

End Stored.

(** ** An example: ours changes a price, theirs a tag of another or of the same row *)

#[local] Existing Instance toy_hasher.

Definition price_tag (id : Z) (m : Z) (tag : bytes) : Row := [VInt id; VDecimal m 1; VText tag].
Definition table_of (rs : list Row) : Table := foldl run_op (table_new sample_schema) (map OpInsert rs).

Definition base_table : Table := table_of [price_tag 1 15 (str "a"); price_tag 2 20 (str "b")].
Definition our_table : Table := table_of [price_tag 1 16 (str "a"); price_tag 2 20 (str "b")].
Definition their_table : Table := table_of [price_tag 1 15 (str "a"); price_tag 2 20 (str "c")].
Definition their_table' : Table := table_of [price_tag 1 15 (str "c"); price_tag 2 20 (str "b")].

Definition merge_tree (m : gmap bytes Row) : tree := default (Leaf []) (ProllyBuild.pure_build (map_entries m)).
Definition merge_maps : list (gmap bytes Row) :=
  [table_map base_table; table_map our_table; table_map their_table; table_map their_table';
   merged_rows base_table our_table their_table; merged_cells base_table our_table their_table'].
Definition merge_universe : list bytes :=
  Eval vm_compute in remove_dups (concat (map (fun m => map (enc Blake3) (ProllyBuild.nodes (merge_tree m))) merge_maps)).
Definition merge_U (b : bytes) : Prop := b ∈ merge_universe.

#[local] Instance merge_laws : StoreLaws MemoryStore merge_U (fun s => addressed s /\ within merge_U s).
Proof. apply finite_universe; vm_compute; reflexivity. Qed.

Lemma merge_buildable m : m ∈ merge_maps -> buildable (U := merge_U) Blake3 (map_entries m).
Proof.
  unfold merge_maps. rewrite !elem_of_cons, elem_of_nil.
  intros [->|[->|[->|[->|[->|[->|[]]]]]]];
    match goal with |- buildable _ (map_entries ?m) => apply (buildable_nodes _ _ _ (merge_tree m)) end; vm_compute; reflexivity.
Qed.

Lemma table_of_wf rs : Forall wf_row rs -> wf_table (table_of rs) /\ schema (table_of rs) = sample_schema.
Proof.
  intros H. destruct (run_ops_refine (table_new sample_schema) (map OpInsert rs)) as (Hw & Hs & _).
  - apply table_new_wf, sample_schema_wf.
  - by apply Forall_map.
  - done.
Qed.

Lemma example_wf t : t ∈ [base_table; our_table; their_table; their_table'] ->
  wf_table t /\ schema t = sample_schema /\ map_Forall (fun _ row => storable_row row) (table_map t).
Proof.
  assert (forall id m tag, wf_cell (VInt id) -> wf_cell (VDecimal m 1) -> wf_cell (VText tag) -> wf_row (price_tag id m tag)) as Hrow.
  { intros id m tag H1 H2 H3. split; [vm_compute; done|]. unfold price_tag. rewrite !Forall_cons.
    split_and!; [exact H1|exact H2|exact H3|apply Forall_nil_2]. }
  intros Hin. cut ((wf_table t /\ schema t = sample_schema) /\ map_Forall (fun _ row => storable_row row) (table_map t)); [tauto|]. split.
  - rewrite !elem_of_cons, elem_of_nil in Hin. destruct Hin as [->|[->|[->|[->|[]]]]]; apply table_of_wf;
      rewrite !Forall_cons; (split_and!; [apply Hrow; vm_compute; done|apply Hrow; vm_compute; done|apply Forall_nil_2]).
  - assert (forallb (fun t => forallb (fun e => storable_rowb e.2) (btree_iter (table_map t)))
      [base_table; our_table; their_table; their_table'] = true) as H by (vm_compute; reflexivity).
    rewrite forallb_forall in H. apply list_elem_of_In, H in Hin. rewrite forallb_forall in Hin.
    intros k row Hk%elem_of_btree_iter. apply list_elem_of_In, Hin in Hk.
    apply andb_true_iff in Hk as [H1%N.leb_le H2%Nat.leb_le]. done.
Qed.

Lemma example_stored tt : tt ∈ [their_table; their_table'] ->
  exists (s : MemoryStore) rb ro rt, (addressed s /\ within merge_U s) /\
    three_tables 10 s sample_schema rb ro rt base_table our_table tt.
Proof.
  intros Ht. assert (forall t, t ∈ [base_table; our_table; tt] -> t ∈ [base_table; our_table; their_table; their_table']) as Hall by set_solver.
  assert (forall t, t ∈ [base_table; our_table; tt] -> table_map t ∈ merge_maps) as Hmm.
  { intros t Hin%Hall. unfold merge_maps. set_solver. }
  assert (forall t, t ∈ [base_table; our_table; tt] -> (walk_size (btree_iter (row_bytes t)) < 10)%nat) as Hws.
  { assert (forallb (fun t => (walk_size (btree_iter (row_bytes t)) <? 10)%nat) [base_table; our_table; their_table; their_table'] = true)
      as H by (vm_compute; reflexivity). rewrite forallb_forall in H. intros t Hin%Hall. by apply Nat.ltb_lt, H, list_elem_of_In. }
  assert (forall s t, addressed s /\ within merge_U s -> t ∈ [base_table; our_table; tt] ->
    exists r s', (addressed s' /\ within merge_U s') /\ extends s s' /\ stored s' r (btree_iter (row_bytes t))) as Hb.
  { intros s t Hok Hin. destruct (stored_build (U := merge_U) s (map_entries (table_map t)) Hok (map_entries_sorted _)) as (r & s' & _ & H1 & H2 & H3).
    - by apply merge_buildable, Hmm.
    - exists r, s'. rewrite map_entries_bytes in H3. done. }
  destruct (Hb memory_new base_table) as (rb & s1 & Hok1 & _ & H1); [split; apply map_Forall_empty|left|].
  destruct (Hb s1 our_table Hok1) as (ro & s2 & Hok2 & He2 & H2); [right; left|].
  destruct (Hb s2 tt Hok2) as (rt & s3 & Hok3 & He3 & H3); [right; right; left|].
  exists s3, rb, ro, rt. split; [done|]. split_and!.
  - apply sample_schema_wf.
  - apply Forall_forall. intros t Hin. by apply example_wf, Hall.
  - unfold three_stored. assert (stored s3 rb (btree_iter (row_bytes base_table))) by (eapply stored_mono; [|exact H1]; by etrans).
    assert (stored s3 ro (btree_iter (row_bytes our_table))) by by eapply stored_mono.
    split_and!; try done; apply Hws; set_solver.
Qed.

Lemma table_merge_witness :
  exists (s : MemoryStore) rb ro rt root s', merge_rows 10 s sample_schema rb ro rt = Some (Ok (Merged root, s')).
Proof.
  destruct (example_stored their_table ltac:(left)) as (s & rb & ro & rt & Hok & H).
  destruct (table_merge (U := merge_U) s 10 sample_schema rb ro rt base_table our_table their_table Hok H)
    as [(_ & root & s' & tm & E & _)|(rows & Hne & _ & Hr)].
  - apply merge_buildable. unfold merge_maps. set_solver.
  - exists s, rb, ro, rt, root, s'. exact E.
  - exfalso. assert (conflict_rows base_table our_table their_table = []) as Hn by (vm_compute; reflexivity).
    destruct rows as [|row rows]; [destruct (Hne eq_refl)|]. destruct (proj1 (Hr row) ltac:(left)) as (k & Hc & _).
    exact (proj1 (conflict_rows_nil _ _ _) Hn k Hc).
Defined.

Lemma table_diff_witness :
  exists (s : MemoryStore) ra rb, diff_rows 10 s sample_schema ra rb =
    Some (Ok [Updated (price_tag 1 15 (str "a")) (price_tag 1 16 (str "a"))]).
Proof.
  destruct (example_stored their_table ltac:(left)) as (s & rb & ro & rt & Hok & _ & Hall & (Hb & Fb) & (Ho & Fo) & _).
  rewrite Forall_forall in Hall. destruct (Hall base_table ltac:(left)) as (Wb & Eb & Sb).
  destruct (Hall our_table ltac:(right; left)) as (Wo & Eo & So). exists s, rb, ro.
  rewrite (table_diff (U := merge_U) s 10 sample_schema rb ro base_table our_table Hok).
  - vm_compute. reflexivity.
  - unfold revision. rewrite !map_entries_bytes. exact (conj Wb (conj Eb (conj Sb (conj Hb Fb)))).
  - unfold revision. rewrite !map_entries_bytes. exact (conj Wo (conj Eo (conj So (conj Ho Fo)))).
Defined.

Lemma table_merge_cells_witness :
  exists (s : MemoryStore) rb ro rt root s', merge_rows_cells 10 s sample_schema rb ro rt = Some (Ok (Merged root, s')) /\
    cell_row base_table our_table their_table' (encode_pk_values [VInt 1]) = Some (price_tag 1 16 (str "c")).
Proof.
  destruct (example_stored their_table' ltac:(right; left)) as (s & rb & ro & rt & Hok & H).
  destruct (table_merge_cells (U := merge_U) s 10 sample_schema rb ro rt base_table our_table their_table' Hok H)
    as [(_ & root & s' & tm & E & _)|(rows & Hne & _ & Hr)].
  - apply merge_buildable. unfold merge_maps. set_solver.
  - exists s, rb, ro, rt, root, s'. split; [exact E|vm_compute; reflexivity].
  - exfalso. assert (cell_conflict_rows base_table our_table their_table' = []) as Hn by (vm_compute; reflexivity).
    destruct rows as [|row rows]; [destruct (Hne eq_refl)|]. destruct (proj1 (Hr row) ltac:(left)) as (k & Hc & _).
    exact (proj1 (cell_conflict_rows_nil _ _ _) Hn k Hc).
Defined.

End TableMergeCells.
