(* ===== verification/VcsTree.v ===== *)
(** * Version control: paths, staged slots and directory trees (crates/loom-core/src/vcs.rs,
    vcs/objects.rs, vcs/commit.rs)

    A working tree is a flat map from paths to staged slots. A commit stores it as a tree of [Tree]
    objects, one per directory, large directories sharded; a checkout flattens the tree again. *)

From S2P Require Import Prelude Codec Types Object Store Prolly.

Module VcsTree.
Import Error Digest Object Store.

(** ** Paths *)

Definition slash : byte := x2f.

(** [s.split_once('/')] *)
Fixpoint split_once (s : bytes) : option (bytes * bytes) :=
  match s with
  | [] => None
  | c :: s =>
      if bool_decide (c = slash) then Some ([], s)
      else match split_once s with Some (a, b) => Some (c :: a, b) | None => None end
  end.

(** [s.rsplit_once('/')] *)
Definition rsplit_once (s : bytes) : option (bytes * bytes) :=
  match split_once (reverse s) with
  | Some (a, b) => Some (reverse b, reverse a)
  | None => None
  end.

(** [s.strip_prefix(prefix)] *)
Definition strip_prefix (s prefix : bytes) : option bytes :=
  if starts_with s prefix then Some (drop (length prefix) s) else None.

Fixpoint trim_start (s : bytes) : bytes :=
  match s with
  | c :: s' => if bool_decide (c = slash) then trim_start s' else s
  | [] => []
  end.

(** [s.contains("//")] *)
Fixpoint has_double_slash (s : bytes) : bool :=
  match s with
  | c :: (c' :: _) as s' => (bool_decide (c = slash) && bool_decide (c' = slash)) || has_double_slash s'
  | _ => false
  end.

Definition normalize_path (path : bytes) : res bytes :=
  let p := trim_start path in
  if bool_decide (p = []) || bool_decide (last p = Some slash) || has_double_slash p then Err InvalidArgument
  else Ok p.

(** The proper ancestors of a path, nearest first; a path of [n] bytes has fewer than [n]. *)
Fixpoint ancestors_loop (fuel : nat) (cursor : bytes) : list bytes :=
  match fuel with
  | O => []
  | S fuel =>
      match rsplit_once cursor with
      | Some (parent, _) => if bool_decide (parent = []) then [] else parent :: ancestors_loop fuel parent
      | None => []
      end
  end.

Definition path_ancestors (path : bytes) : list bytes := ancestors_loop (length path) path.

(** ** Staged slots *)

Record StagedFile : Type := mkStagedFile { content_addr : Digest; mode : N }.

Inductive StagedEntry : Type :=
| SFile (f : StagedFile)
| STable (root : Digest)
| SStream (root : Digest)
| STimeSeries (root : Digest)
| SGraph (root : Digest)
| SLedger (root : Digest)
| SColumnar (root : Digest)
| SDocument (root : Digest).

Abbreviation WorkTree := (gmap bytes StagedEntry).

(** ** Namespace collisions *)

(** The (leaf, child) pairs of the report; the repair texts are left out. *)
Definition namespace_preflight (files : WorkTree) (dirs : gset bytes) : gset (bytes * bytes) :=
  let above path := filter (fun a => is_Some (files !! a)) (path_ancestors path) in
  let of_file path :=
    list_to_set (map (fun a => (a, path)) (above path)) ∪
    (if bool_decide (path ∈ dirs) then {[(path, path ++ [slash])]} else ∅) in
  let of_dir dir :=
    (if bool_decide (is_Some (files !! dir)) then {[(dir, dir ++ [slash])]} else ∅) ∪
    list_to_set (map (fun a => (a, dir)) (above dir)) in
  ⋃ (map of_file (elements (dom files)) ++ map of_dir (elements dirs)).

Definition validate_vcs_namespace_preflight (files : WorkTree) (dirs : gset bytes) : res unit :=
  if bool_decide (namespace_preflight files dirs = ∅) then Ok () else Err InvalidArgument.

#[global] Instance entry_kind_eq_dec : EqDecision EntryKind.
Proof. solve_decision. Defined.

(** ** Building trees *)

Definition DIR_SHARD_THRESHOLD : N := 256.
Definition MAX_SHARD_DEPTH : nat := 64.
Definition DIR_MODE : N := 16384. (* 0o040000 *)

Definition tree_entry_of (name : bytes) (staged : StagedEntry) : TreeEntry :=
  match staged with
  | SFile f => mkTreeEntry name EK_Blob (content_addr f) (mode f)
  | STable root => mkTreeEntry name EK_Table root 0
  | SStream root => mkTreeEntry name EK_Stream root 0
  | STimeSeries root => mkTreeEntry name EK_TimeSeries root 0
  | SGraph root => mkTreeEntry name EK_Graph root 0
  | SLedger root => mkTreeEntry name EK_Ledger root 0
  | SColumnar root => mkTreeEntry name EK_Columnar root 0
  | SDocument root => mkTreeEntry name EK_Document root 0
  end.

(** The name of a file directly under [prefix], the directory of one further down. *)
Definition file_child (prefix : bytes) (e : bytes * StagedEntry) : option (bytes * StagedEntry) :=
  match strip_prefix e.1 prefix with
  | Some rest => match split_once rest with None => Some (rest, e.2) | Some _ => None end
  | None => None
  end.

Definition file_dir (prefix path : bytes) : option bytes :=
  match strip_prefix path prefix with
  | Some rest => match split_once rest with None => None | Some (seg, _) => Some seg end
  | None => None
  end.

Definition dir_child (prefix dir : bytes) : option bytes :=
  match strip_prefix dir prefix with
  | Some rest =>
      if bool_decide (rest = []) then None
      else Some (match split_once rest with Some (seg, _) => seg | None => rest end)
  | None => None
  end.

Definition file_children (files : WorkTree) (prefix : bytes) : list (bytes * StagedEntry) :=
  omap (file_child prefix) (btree_iter files).

(** The [BTreeSet] of the directories under [prefix]. *)
Definition dir_children (files : WorkTree) (dirs : gset bytes) (prefix : bytes) : gset bytes :=
  list_to_set (omap (file_dir prefix) (elements (dom files)) ++ omap (dir_child prefix) (elements dirs)).

(** In the order of a [BTreeSet]. *)
Definition set_iter (X : gset bytes) : list bytes := sort_by id (elements X).

Section Ops.
Context `{hasher : Hasher} {S : Type} `{ops : !ObjectStore S}.

(** [canonical] never fails. *)
Definition put_object (store : S) (o : Object) : res (Digest * S) :=
  match canonical o with
  | Ok b => put store b
  | Err _ => Err CorruptObject
  end.

Definition get_object (store : S) (d : Digest) : res Object :=
  o ← get store d;
  b ← ok_or o NotFound;
  decode_obj b.

(** The name of the last entry of a run that is not empty. *)
Definition max_name (run : list TreeEntry) : bytes := from_option te_name [] (last run).

Definition flush_shard_node (store : S) (run : list TreeEntry) : res (TreeEntry * S) :=
  o ← tree run;
  '(node, store) ← put_object store o;
  Ok (mkTreeEntry (max_name run) EK_TreeShard node DIR_MODE, store).

(** One level of shards; the loops over ordinary entries and over shard entries are the same. *)
Fixpoint shard_loop (depth : N) (store : S) (out run items : list TreeEntry) : res (list TreeEntry * S) :=
  match items with
  | [] =>
      match run with
      | [] => Ok (out, store)
      | _ => '(e, store) ← flush_shard_node store run; Ok (out ++ [e], store)
      end
  | entry :: items =>
      let run := run ++ [entry] in
      if Prolly.is_boundary (te_name entry) depth then
        '(e, store) ← flush_shard_node store run;
        shard_loop depth store (out ++ [e]) [] items
      else shard_loop depth store out run items
  end.

(** [depth] is a [u8]: at most 255 rounds before it overflows. *)
Fixpoint shard_levels (fuel : nat) (depth : N) (store : S) (level : list TreeEntry) : res (list TreeEntry * S) :=
  if (length level <=? 1)%nat then Ok (level, store)
  else
    match fuel with
    | O => Err CorruptObject
    | Datatypes.S fuel =>
        '(parents, store) ← shard_loop depth store [] [] level;
        depth ← ok_or (checked_add u8_max depth 1) CorruptObject;
        shard_levels fuel depth store parents
    end.

(** The remaining shard of a list that is not empty. *)
Definition put_sharded_tree (store : S) (entries : list TreeEntry) : res (Digest * S) :=
  o ← tree entries;
  match o with
  | OTree sorted =>
      '(level, store) ← shard_loop 0 store [] [] sorted;
      '(level, store) ← shard_levels 255 1 store level;
      match level with
      | e :: _ => Ok (te_target e, store)
      | [] => Err CorruptObject
      end
  | _ => Err CorruptObject
  end.

Definition put_directory (store : S) (entries : list TreeEntry) : res (Digest * S) :=
  if DIR_SHARD_THRESHOLD <? Codec.len entries then put_sharded_tree store entries
  else o ← tree entries; put_object store o.

(** [fuel] bounds the depth of the directories. *)
Fixpoint build_subtree (fuel : nat) (store : S) (files : WorkTree) (dirs : gset bytes) (prefix : bytes)
    : option (res (Digest * S)) :=
  match fuel with
  | O => None
  | Datatypes.S fuel =>
      let entries := map (fun e => tree_entry_of e.1 e.2) (file_children files prefix) in
      r ⇠ run_fold (fun acc seg =>
             r ⇠ build_subtree fuel acc.2 files dirs (prefix ++ seg ++ [slash]);
             Some (Ok (acc.1 ++ [mkTreeEntry seg EK_Tree r.1 DIR_MODE], r.2)))
           (entries, store) (set_iter (dir_children files dirs prefix));
      Some (put_directory r.2 r.1)
  end.

(** ** Reading trees *)

(** [levels] is what is left of the depth limit. *)
Fixpoint collect_dir_entries (levels : nat) (store : S) (node : Digest) : res (list TreeEntry) :=
  match levels with
  | O => Err CorruptObject
  | Datatypes.S levels =>
      o ← get_object store node;
      match o with
      | OTree entries =>
          if forallb (fun e => negb (bool_decide (te_kind e = EK_TreeShard))) entries then Ok entries
          else
            try_fold (fun out e =>
              if bool_decide (te_kind e = EK_TreeShard) then
                es ← collect_dir_entries levels store (te_target e); Ok (out ++ es)
              else Err CorruptObject) [] entries
      | _ => Err CorruptObject
      end
  end.

Definition tree_entries (store : S) (dir : Digest) : res (list TreeEntry) :=
  collect_dir_entries (Datatypes.S MAX_SHARD_DEPTH) store dir.

(** The slot of an entry that is not a directory. *)
Definition staged_of (e : TreeEntry) : StagedEntry :=
  match te_kind e with
  | EK_Table => STable (te_target e)
  | EK_Stream => SStream (te_target e)
  | EK_TimeSeries => STimeSeries (te_target e)
  | EK_Graph => SGraph (te_target e)
  | EK_Ledger => SLedger (te_target e)
  | EK_Columnar => SColumnar (te_target e)
  | EK_Document => SDocument (te_target e)
  | _ => SFile (mkStagedFile (te_target e) (te_mode e))
  end.

(** [fuel] bounds the depth of the directories. *)
Fixpoint flatten_tree (fuel : nat) (store : S) (tree : Digest) (prefix : bytes) (acc : WorkTree * gset bytes)
    : option (res (WorkTree * gset bytes)) :=
  match fuel with
  | O => None
  | Datatypes.S fuel =>
      es ⇠ Some (tree_entries store tree);
      run_fold (fun acc e =>
        let path := prefix ++ te_name e in
        match te_kind e with
        | EK_Tree => flatten_tree fuel store (te_target e) (path ++ [slash]) (acc.1, {[path]} ∪ acc.2)
        | _ => Some (Ok (<[path := staged_of e]> acc.1, acc.2))
        end) acc es
  end.

Definition get_commit (store : S) (d : Digest) : res Commit :=
  o ← get_object store d;
  match o with OCommit c => Ok c | _ => Err CorruptObject end.

Definition commit_tree (store : S) (d : Digest) : res Digest := c ← get_commit store d; Ok (c_tree c).

Definition flatten_commit (fuel : nat) (store : S) (d : Digest) : option (res (WorkTree * gset bytes)) :=
  c ⇠ Some (get_commit store d);
  flatten_tree fuel store (c_tree c) [] (∅, ∅).
End Ops.

End VcsTree.
