(* ===== verification/VcsPath.v ===== *)
(** * Version control: facts about paths *)

From S2P Require Import Prelude Codec Types Object Store Prolly VcsTree.

Module VcsPath.
Import VcsTree.

Lemma split_once_Some s a b : split_once s = Some (a, b) <-> s = a ++ slash :: b /\ slash ∉ a.
Proof.
  revert a b. induction s as [|c s IH]; intros a b; cbn [split_once].
  { split; [done|]. intros [H _]. by destruct a. }
  case_bool_decide as Hc.
  - subst c. split; [by intros [= <- <-]; split; [|apply not_elem_of_nil]|].
    intros [E Ha]. destruct a as [|c' a]; [by injection E as ->|]. injection E as <- _. exfalso. apply Ha. left.
  - destruct (split_once s) as [[a' b']|] eqn:E.
    + split.
      * intros [= <- <-]. destruct (proj1 (IH a' b') eq_refl) as [-> Ha]. split; [done|].
        rewrite elem_of_cons. intros [E'|?]; [by rewrite E' in Hc|done].
      * intros [Es Ha]. destruct a as [|c' a]; [by injection Es as -> _|]. injection Es as <- Es.
        assert (Some (a', b') = Some (a, b)) as [= -> ->]; [|done]. apply IH. split; [done|]. intros ?. apply Ha. by right.
    + split; [done|]. intros [Es Ha]. destruct a as [|c' a]; [by injection Es as -> _|]. injection Es as <- Es.
      assert (None = Some (a, b)); [|done]. apply IH. split; [done|]. intros ?. apply Ha. by right.
Qed.

Lemma split_once_None s : split_once s = None <-> slash ∉ s.
Proof.
  induction s as [|c s IH]; cbn [split_once]; [by split; [intros _; apply not_elem_of_nil|]|].
  rewrite not_elem_of_cons. case_bool_decide as Hc; [naive_solver|].
  destruct (split_once s) as [[a b]|]; naive_solver.
Qed.

Lemma rsplit_once_Some s a b : rsplit_once s = Some (a, b) <-> s = a ++ slash :: b /\ slash ∉ b.
Proof.
  unfold rsplit_once. destruct (split_once (reverse s)) as [[x y]|] eqn:E.
  - apply split_once_Some in E as [E Hx]. apply (f_equal reverse) in E. rewrite reverse_involutive in E.
    rewrite reverse_app, reverse_cons, <-app_assoc in E. cbn [app] in E. split.
    + intros [= <- <-]. split; [done|]. by rewrite elem_of_reverse.
    + intros [E' Hb]. rewrite E' in E. f_equal.
      assert (Some (reverse b, reverse a) = Some (x, y)) as [= <- <-]; [|by rewrite !reverse_involutive].
      rewrite <-(proj2 (split_once_Some (reverse b ++ slash :: reverse a) (reverse b) (reverse a))) by (split; [done|by rewrite elem_of_reverse]).
      rewrite <-(proj2 (split_once_Some (x ++ slash :: y) x y)) by done. f_equal.
      apply (f_equal reverse) in E. rewrite !reverse_app, !reverse_cons, !reverse_involutive in E.
      rewrite <-!app_assoc in E. done.
  - apply split_once_None in E. split; [done|]. intros [-> _]. exfalso. apply E. rewrite elem_of_reverse. set_solver.
Qed.

Lemma rsplit_once_None s : rsplit_once s = None <-> slash ∉ s.
Proof.
  unfold rsplit_once. rewrite <-elem_of_reverse, <-split_once_None. by destruct (split_once (reverse s)) as [[]|].
Qed.

Lemma starts_with_drop s prefix : starts_with s prefix = true -> s = prefix ++ drop (length prefix) s.
Proof. intros (r & ->)%starts_with_app. by rewrite drop_app_length. Qed.

Lemma strip_prefix_Some s prefix rest : strip_prefix s prefix = Some rest <-> s = prefix ++ rest.
Proof.
  unfold strip_prefix. destruct (starts_with s prefix) eqn:E.
  - split; [by intros [= <-]; apply starts_with_drop|]. intros ->. by rewrite drop_app_length.
  - split; [done|]. intros ->. assert (starts_with (prefix ++ rest) prefix = true) by (apply starts_with_app; eauto). congruence.
Qed.

(** ** Ancestors *)

Lemma ancestors_loop_spec fuel p a :
  (length p <= fuel)%nat -> a ∈ ancestors_loop fuel p <-> a <> [] /\ exists b, p = a ++ slash :: b.
Proof.
  revert p. induction fuel as [|fuel IH]; intros p Hf; cbn [ancestors_loop].
  { destruct p; [|simpl in Hf; lia]. split; [by intros ?%not_elem_of_nil|]. intros [_ [b E]]. by destruct a. }
  destruct (rsplit_once p) as [[parent leaf]|] eqn:E.
  - apply rsplit_once_Some in E as [-> Hl]. case_bool_decide as Hp.
    + subst parent. split; [by intros ?%not_elem_of_nil|]. intros [Ha [b E]]. destruct a as [|c a]; [done|].
      injection E as <- E. exfalso. apply Hl. rewrite E. set_solver.
    + rewrite elem_of_cons, IH by (rewrite length_app in Hf; simpl in Hf; lia). split.
      * intros [->|[Ha [b ->]]]; [by eauto|]. split; [done|]. rewrite <-app_assoc. by eexists.
      * intros [Ha [b E]]. apply app_eq_inv in E as [(k & -> & E)|(k & -> & E)].
        -- destruct k as [|c k]; [left; by rewrite app_nil_r|]. injection E as <- E. right. split; [done|].
           by exists k.
        -- destruct k as [|c k]; [left; by rewrite app_nil_r|]. injection E as <- E. exfalso. apply Hl. rewrite E. set_solver.
  - apply rsplit_once_None in E. split; [by intros ?%not_elem_of_nil|]. intros [_ [b ->]]. exfalso. apply E. set_solver.
Qed.

Lemma elem_of_path_ancestors p a : a ∈ path_ancestors p <-> a <> [] /\ exists b, p = a ++ slash :: b.
Proof. by apply ancestors_loop_spec. Qed.

(** ** Segments *)

Fixpoint segments (s : bytes) : list bytes :=
  match s with
  | [] => [[]]
  | c :: s =>
      if bool_decide (c = slash) then [] :: segments s
      else match segments s with seg :: rest => (c :: seg) :: rest | [] => [[c]] end
  end.

Lemma segments_not_nil s : segments s <> [].
Proof. destruct s as [|c s]; cbn [segments]; [done|]. case_bool_decide; [done|]. by destruct (segments s). Qed.

Lemma segments_slash a b : segments (a ++ slash :: b) = segments a ++ segments b.
Proof.
  induction a as [|c a IH]; cbn [segments app].
  - by rewrite bool_decide_eq_true_2.
  - rewrite IH. case_bool_decide; [done|]. pose proof (segments_not_nil a). by destruct (segments a).
Qed.

Lemma segments_plain s : slash ∉ s -> segments s = [s].
Proof.
  induction s as [|c s IH]; [done|]. rewrite not_elem_of_cons. intros [Hc Hs]. cbn [segments].
  by rewrite bool_decide_eq_false_2, IH by done.
Qed.

(** What [normalize_path] gives, with segments that are text. *)
Definition wf_segment (seg : bytes) : Prop := seg <> [] /\ valid_utf8 seg = true /\ Codec.len seg <= u64_max.
Definition wf_path (p : bytes) : Prop := Forall wf_segment (segments p).

Lemma wf_path_slash a b : wf_path (a ++ slash :: b) <-> wf_path a /\ wf_path b.
Proof. unfold wf_path. rewrite segments_slash. apply Forall_app. Qed.

Lemma wf_path_nonempty p : wf_path p -> p <> [].
Proof. intros H ->. unfold wf_path in H. cbn [segments] in H. apply Forall_cons in H as [[H _] _]. done. Qed.

Lemma wf_path_segment p : slash ∉ p -> wf_path p <-> wf_segment p.
Proof. intros H. unfold wf_path. rewrite segments_plain by done. rewrite Forall_cons. split; [by intros [? _]|by split]. Qed.

Lemma segments_head q :
  q <> [] -> last q <> Some slash -> has_double_slash q = false ->
  exists seg rest, segments q = seg :: rest /\ (head q <> Some slash -> seg <> []) /\ Forall (fun seg => seg <> []) rest.
Proof.
  induction q as [|c q IH]; intros Hq Hl Hd; [done|]. destruct q as [|c' q].
  { cbn [segments]. rewrite bool_decide_eq_false_2 by (intros ->; done). by exists [c], []. }
  assert (last (c' :: q) <> Some slash) as Hl' by done. cbn [has_double_slash] in Hd. apply orb_false_iff in Hd as [Hd Hd'].
  destruct (IH ltac:(done) Hl' Hd') as (seg & rest & E & H1 & H2).
  change (segments (c :: c' :: q)) with (if bool_decide (c = slash) then [] :: segments (c' :: q)
    else match segments (c' :: q) with seg :: rest => (c :: seg) :: rest | [] => [[c]] end).
  rewrite E. destruct (decide (c = slash)) as [Hc|Hc].
  - rewrite bool_decide_eq_true_2 in Hd |- * by done. exists [], (seg :: rest). split_and!; [done|intros Hn; destruct Hn; cbn [head]; by rewrite Hc|]. constructor; [|done]. apply H1. intros [= ->].
    by rewrite bool_decide_eq_true_2 in Hd.
  - rewrite (bool_decide_eq_false_2 (c = slash)) by done. by exists (c :: seg), rest.
Qed.

(** A normalized path has no empty segment. *)
Lemma normalize_path_segments path p :
  normalize_path path = Ok p -> p <> [] /\ Forall (fun seg => seg <> []) (segments p).
Proof.
  unfold normalize_path. set (q := trim_start path).
  assert (head q <> Some slash) as Hq.
  { subst q. induction path as [|c path IH]; cbn [trim_start]; [done|]. case_bool_decide; [done|]. by intros [= ?]. }
  case_bool_decide as H1; [done|]. case_bool_decide as H2; [done|]. destruct (has_double_slash q) eqn:H3; [done|].
  intros [= <-]. destruct (segments_head q H1 H2 H3) as (seg & rest & -> & Hs & Hr). split; [done|]. constructor; [by apply Hs|done].
Qed.

End VcsPath.
