(* ===== verification/VcsShard.v ===== *)
(** * Version control: what building a tree writes

    A build only stores objects, so a store that records them tells beforehand what any store will be
    asked to hold and which address the build returns. *)

From S2P Require Import Prelude Codec Types Object ObjectProps Store Prolly ProllyTree VcsTree VcsPath ProllyShape.

Module VcsWrite.
Import Error Digest Object ObjectProps Store VcsTree VcsPath.

(** ** The recording store *)

Definition log_store `{Hasher} (a : Algo) : ObjectStore (list bytes) := {|
  digest_algo _ := a;
  put l b := Ok (hash a b, l ++ [b]);
  get _ _ := Ok None;
|}.

Section Simulation.
Context `{hasher : Hasher} {S : Type} `{ops : !ObjectStore S} {U : bytes -> Prop} {ok : S -> Prop}
  `{laws : !StoreLaws S U ok} (a : Algo).
#[local] Existing Instance log_store.
Implicit Types (s : S) (l w : list bytes).

(** [s] holds every byte string of [w] under its address. *)
Definition stores s w : Prop :=
  Forall (fun b => (forall d, d ≡ hash (digest_algo s) b -> get s d = Ok (Some b)) /\ Codec.len b <= u64_max) w.

Lemma stores_mono s s' w : ProllyTree.extends s s' -> stores s w -> stores s' w.
Proof.
  intros [Ha Hg] H. eapply Forall_impl; [exact H|]. intros b [H1 H2]. rewrite Ha. auto.
Qed.

Lemma stores_app s w1 w2 : stores s (w1 ++ w2) <-> stores s w1 /\ stores s w2.
Proof. apply Forall_app. Qed.

(** What the recording run returns and writes, any sound store returns and holds. *)
Definition carries {A} (r : option (res (A * list bytes))) l (run : S -> option (res (A * S))) : Prop :=
  forall x l', r = Some (Ok (x, l')) -> exists w, l' = l ++ w /\
    forall s, ok s -> digest_algo s = a -> Forall U w ->
    exists s', run s = Some (Ok (x, s')) /\ ok s' /\ ProllyTree.extends s s' /\ stores s' w.

Lemma carries_ret {A} (x : A) l : carries (Some (Ok (x, l))) l (fun s => Some (Ok (x, s))).
Proof.
  intros y l' [= -> ->]. exists []. rewrite app_nil_r. split; [done|]. intros s Hok _ _. exists s.
  split_and!; try done. by apply Forall_nil_2.
Qed.

Lemma carries_bind {A B} r l (run : S -> option (res (A * S))) (k : A * list bytes -> option (res (B * list bytes)))
    (k' : A * S -> option (res (B * S))) :
  carries r l run -> (forall x l, carries (k (x, l)) l (fun s => k' (x, s))) ->
  carries (run_bind r k) l (fun s => run_bind (run s) k').
Proof.
  intros Hr Hk y l' H. destruct r as [[[x l1]|e]|]; cbn [run_bind] in H; try done.
  destruct (Hr x l1 eq_refl) as (w1 & -> & H1). destruct (Hk x _ y l' H) as (w2 & -> & H2).
  exists (w1 ++ w2). rewrite app_assoc. split; [done|]. intros s Hok Ha HU. apply Forall_app in HU as [HU1 HU2].
  destruct (H1 s Hok Ha HU1) as (s1 & E1 & Hok1 & He1 & Hst1).
  destruct (H2 s1 Hok1) as (s2 & E2 & Hok2 & He2 & Hst2); [by rewrite (proj1 He1)|done|].
  exists s2. rewrite E1. cbn [run_bind]. split_and!; try done; [by etrans|]. apply stores_app. split; [by eapply stores_mono|done].
Qed.

Lemma carries_res {A B} (r : res (A * list bytes)) l (run : S -> res (A * S)) (k : A * list bytes -> res (B * list bytes))
    (k' : A * S -> res (B * S)) :
  carries (Some r) l (fun s => Some (run s)) -> (forall x l, carries (Some (k (x, l))) l (fun s => Some (k' (x, s)))) ->
  carries (Some (r ≫= k)) l (fun s => Some (run s ≫= k')).
Proof.
  intros Hr Hk y l' H. destruct r as [[x l1]|e]; cbn [mbind result_bind] in H; [|done].
  destruct (Hr x l1 eq_refl) as (w1 & -> & H1). destruct (Hk x _ y l' H) as (w2 & -> & H2).
  exists (w1 ++ w2). rewrite app_assoc. split; [done|]. intros s Hok Ha HU. apply Forall_app in HU as [HU1 HU2].
  destruct (H1 s Hok Ha HU1) as (s1 & E1 & Hok1 & He1 & Hst1).
  destruct (H2 s1 Hok1) as (s2 & E2 & Hok2 & He2 & Hst2); [by rewrite (proj1 He1)|done|]. injection E1 as E1.
  exists s2. rewrite E1. cbn [mbind result_bind]. split_and!; try done; [by etrans|]. apply stores_app. split; [by eapply stores_mono|done].
Qed.

(** A step that does not touch the store. *)
Ltac carry_pure t o := destruct t as [o|]; cbn [mbind result_bind]; [|by intros ? ? ?].

Lemma carries_put_object o l : carries (Some (put_object (S := list bytes) (ops := log_store a) l o)) l (fun s => Some (put_object s o)).
Proof.
  unfold put_object. destruct (canonical o) as [b|e]; [|by intros x l' H]. intros x l' [= <- <-]. exists [b]. split; [done|].
  intros s Hok Ha HU. apply Forall_cons in HU as [HU _].
  destruct (put_stores s b Hok HU) as (d & s' & E & Hok' & Ha' & Hg & Hold). exists s'.
  pose proof (put_address s b d s' E) as ->. rewrite E, Ha. split_and!; try done. apply Forall_cons. split; [|by apply Forall_nil_2].
  rewrite Ha', Ha. rewrite Ha in Hg. split; [|by apply universe_len]. intros d Hd. by rewrite (get_proper s' _ _ Hd).
Qed.

Lemma carries_flush run l :
  carries (Some (flush_shard_node (S := list bytes) (ops := log_store a) l run)) l (fun s => Some (flush_shard_node s run)).
Proof.
  unfold flush_shard_node. carry_pure (tree run) o. apply carries_res; [apply carries_put_object|].
  intros x l'. apply carries_ret.
Qed.

Lemma carries_shard_loop depth out run items l :
  carries (Some (shard_loop (S := list bytes) (ops := log_store a) depth l out run items)) l (fun s => Some (shard_loop depth s out run items)).
Proof.
  revert out run l. induction items as [|e items IH]; intros out run l; cbn [shard_loop].
  - destruct run; [apply carries_ret|]. apply carries_res; [apply carries_flush|]. intros x l'. apply carries_ret.
  - destruct (Prolly.is_boundary (te_name e) depth); [|apply IH].
    apply carries_res; [apply carries_flush|]. intros x l'. apply IH.
Qed.

Lemma carries_shard_levels fuel depth level l :
  carries (Some (shard_levels (S := list bytes) (ops := log_store a) fuel depth l level)) l (fun s => Some (shard_levels fuel depth s level)).
Proof.
  revert depth level l. induction fuel as [|fuel IH]; intros depth level l; cbn [shard_levels];
    destruct (length level <=? 1)%nat; try apply carries_ret; [by intros x l' H|].
  apply carries_res; [apply carries_shard_loop|]. intros x l'. cbn beta iota. carry_pure (ok_or (checked_add u8_max depth 1) CorruptObject) n. apply IH.
Qed.

Lemma carries_put_directory entries l :
  carries (Some (put_directory (S := list bytes) (ops := log_store a) l entries)) l (fun s => Some (put_directory s entries)).
Proof.
  unfold put_directory. destruct (DIR_SHARD_THRESHOLD <? Codec.len entries).
  - unfold put_sharded_tree. carry_pure (tree entries) o. destruct o as [| |sorted| |]; try (by intros x l' H).
    apply carries_res; [apply carries_shard_loop|]. intros level l1. apply carries_res; [apply carries_shard_levels|].
    intros [|e level'] l2; [by intros x l' H|apply carries_ret].
  - carry_pure (tree entries) o. apply carries_put_object.
Qed.

(** The recording run of a build foretells every build. *)
Lemma carries_build_subtree fuel files dirs prefix l :
  carries (build_subtree (S := list bytes) (ops := log_store a) fuel l files dirs prefix) l (fun s => build_subtree fuel s files dirs prefix).
Proof.
  revert prefix l. induction fuel as [|fuel IH]; intros prefix l; cbn [build_subtree]; [by intros x l' H|].
  apply carries_bind.
  - generalize (map (fun e => tree_entry_of e.1 e.2) (file_children files prefix)).
    generalize (set_iter (dir_children files dirs prefix)). intros segs. revert l.
    induction segs as [|seg segs IHs]; intros l entries; cbn [run_fold]; [apply carries_ret|].
    apply (carries_bind _ l (fun s => run_bind (build_subtree fuel s files dirs (prefix ++ seg ++ [slash]))
      (fun r => Some (Ok (entries ++ [mkTreeEntry seg EK_Tree r.1 DIR_MODE], r.2))))).
    + apply carries_bind; [apply IH|]. intros d l'. cbn [fst snd]. apply carries_ret.
    + intros es l'. apply IHs.
  - intros es l'. cbn [fst snd]. apply carries_put_directory.
Qed.
End Simulation.

End VcsWrite.

(** * Version control: storing and reading one directory

    Whatever the number of its entries, a directory that is written is read back in name order. *)

Module VcsShard.
Import Error Digest Object ObjectProps Store ProllyShape VcsTree VcsPath VcsWrite.

Section Directory.
Context `{hasher : Hasher} {S : Type} `{ops : !ObjectStore S} (a : Algo).
Implicit Types (l w : list bytes) (s : S).

Abbreviation log := (log_store a).

(** [d] holds [o] in every store that holds [w]. *)
Definition holds_object w (d : Digest) (o : Object) : Prop :=
  forall s d', digest_algo s = a -> stores s w -> d' ≡ d -> get_object s d' = Ok (retag_object o).

Lemma holds_object_mono w w' d o : (forall s, stores s w' -> stores s w) -> holds_object w d o -> holds_object w' d o.
Proof. intros Hw H s d' Ha Hs. apply H; auto. Qed.

Lemma put_object_spec o l :
  wf_object o -> exists d w, put_object (ops := log) l o = Ok (d, l ++ w) /\ wf_digest d /\ holds_object w d o.
Proof.
  intros Hw. unfold put_object. destruct (canonical_ok o) as [b Hb]. rewrite Hb. exists (hash a b), [b].
  split_and!; [done|apply raw_hash_len|]. intros s d' Ha Hs Hd. apply Forall_cons in Hs as [[Hg Hl] _].
  unfold get_object. rewrite Ha in Hg. rewrite (Hg _ Hd). cbn [mbind result_bind ok_or].
  by apply (decode_canonical_object o b).
Qed.

(** ** One level of shards *)

(** The shard entry that stands for a run. *)
Definition shard_of w (e : TreeEntry) (run : list TreeEntry) : Prop :=
  te_name e = max_name run /\ te_kind e = EK_TreeShard /\ wf_tree_entry e /\ holds_object w (te_target e) (OTree run).

Lemma shard_of_app w1 w2 e run : shard_of w1 e run \/ shard_of w2 e run -> shard_of (w1 ++ w2) e run.
Proof.
  intros [(H1 & H2 & H3 & H4)|(H1 & H2 & H3 & H4)]; split_and!; try done; (eapply holds_object_mono; [|exact H4]);
    intros s Hs; apply stores_app in Hs; tauto.
Qed.

Lemma tree_sorted run : sorted_by te_name run -> tree run = Ok (OTree run).
Proof. intros Hs. unfold tree. by rewrite sort_by_id, sorted_by_adjacent_dup. Qed.

Lemma max_name_wf run : run <> [] -> Forall wf_tree_entry run -> wf_text (max_name run).
Proof.
  intros Hne Hw. unfold max_name. destruct (last run) as [e|] eqn:E; [|by apply last_None in E].
  rewrite Forall_forall in Hw. apply (Hw e). by apply last_Some_elem_of.
Qed.

Lemma flush_spec run l :
  run <> [] -> sorted_by te_name run -> Forall wf_tree_entry run -> Codec.len run <= u64_max ->
  exists e w, flush_shard_node (ops := log) l run = Ok (e, l ++ w) /\ shard_of w e run.
Proof.
  intros Hne Hs Hw Hl. unfold flush_shard_node. rewrite tree_sorted by done. cbn [mbind result_bind].
  destruct (put_object_spec (OTree run) l) as (d & w & -> & Hd & Ho); [done|]. cbn [mbind result_bind].
  eexists _, w. split; [reflexivity|]. split; [done|]. split; [done|]. split; [|done]. split; [by apply max_name_wf|].
  split; [done|]. cbn [te_mode]. by vm_compute.
Qed.

Definition shard_cut (depth : N) (e : TreeEntry) : bool := Prolly.is_boundary (te_name e) depth.

Lemma shard_loop_spec depth l out run items :
  sorted_by te_name (run ++ items) -> Forall wf_tree_entry (run ++ items) -> Codec.len (run ++ items) <= u64_max ->
  exists out' w, shard_loop (ops := log) depth l out run items = Ok (out ++ out', l ++ w) /\
    Forall2 (shard_of w) out' (chunks (shard_cut depth) run items).
Proof.
  revert l out run. induction items as [|e items IH]; intros l out run Hs Hw Hl; cbn [shard_loop chunks].
  - rewrite app_nil_r in *. destruct run as [|e run]; [exists [], []; by rewrite !app_nil_r|].
    destruct (flush_spec (e :: run) l) as (x & w & -> & Hx); [done..|]. cbn [mbind result_bind].
    exists [x], w. split; [done|]. constructor; [exact Hx|constructor].
  - unfold shard_cut at 1. assert (run ++ e :: items = (run ++ [e]) ++ items) as E by by rewrite <-app_assoc. rewrite E in *.
    destruct (Prolly.is_boundary (te_name e) depth); [|by apply IH].
    apply sorted_by_app in Hs as (Hs1 & Hs2 & _). apply Forall_app in Hw as [Hw1 Hw2].
    assert (Codec.len (run ++ [e]) <= u64_max /\ Codec.len items <= u64_max) as [Hl1 Hl2].
    { unfold Codec.len in *. rewrite length_app in Hl. lia. }
    destruct (flush_spec (run ++ [e]) l) as (x & w & -> & Hx); [by destruct run|done..|]. cbn [mbind result_bind].
    destruct (IH (l ++ w) (out ++ [x]) []) as (out' & w' & -> & Ho); [done..|].
    exists (x :: out'), (w ++ w'). rewrite <-!app_assoc. split; [done|]. constructor; [by apply shard_of_app; left|].
    eapply Forall2_impl; [exact Ho|]. intros y r Hy. by apply shard_of_app; right.
Qed.

(** ** Names of a level *)

Definition names (l : list TreeEntry) : list bytes := map te_name l.

(** The names one level up. *)
Definition names_up (depth : N) (ns : list bytes) : list bytes :=
  map (fun r => default [] (last r)) (chunks (fun n => Prolly.is_boundary n depth) [] ns).

Lemma chunks_map {A B} (f : A -> B) (p : B -> bool) run items :
  chunks p (map f run) (map f items) = map (map f) (chunks (fun x => p (f x)) run items).
Proof.
  revert run. induction items as [|x items IH]; intros run; cbn [map chunks]; [by destruct run|].
  change ([f x]) with (map f [x]). rewrite <-map_app. destruct (p (f x)); cbn [map]; [|by rewrite IH].
  f_equal. apply (IH []).
Qed.

Lemma max_name_last run : max_name run = default [] (last (names run)).
Proof. unfold max_name, names. change (map te_name run) with (te_name <$> run). rewrite fmap_last. by destruct (last run). Qed.

Lemma shard_names w depth out items :
  Forall2 (shard_of w) out (chunks (shard_cut depth) [] items) -> names out = names_up depth (names items).
Proof.
  intros H. unfold names_up, names. rewrite (chunks_map te_name (fun n => Prolly.is_boundary n depth) []), map_map.
  change (fun x => Prolly.is_boundary (te_name x) depth) with (shard_cut depth).
  induction H as [|e r out rs (He & _) _ IH]; [done|]. unfold names in *. cbn [map]. rewrite He, max_name_last. by rewrite IH.
Qed.

Lemma max_name_in run : run <> [] -> exists e, e ∈ run /\ max_name run = te_name e.
Proof.
  intros Hne. unfold max_name. destruct (last run) as [e|] eqn:E; [|by apply last_None in E].
  exists e. split; [by apply last_Some_elem_of|done].
Qed.

Lemma shards_sorted w out runs :
  Forall2 (shard_of w) out runs -> Forall (fun r => r <> []) runs -> sorted_by te_name (concat runs) -> sorted_by te_name out.
Proof.
  induction 1 as [|e r out runs He Hrest IH]; intros Hne Hs; [constructor|]. cbn [concat] in Hs.
  apply Forall_cons in Hne as [Hr Hne]. apply sorted_by_app in Hs as (_ & Hs & Hlt). constructor; [by apply IH|].
  destruct (max_name_in r Hr) as (x & Hx & Ex). destruct He as (He & _).
  apply Forall_forall. intros e' Hin. unfold key_lt. rewrite He, Ex.
  apply list_elem_of_lookup in Hin as [i Hi]. destruct (Forall2_lookup_l _ _ _ _ _ Hrest Hi) as (r' & Hr' & (-> & _)).
  rewrite Forall_lookup in Hne. destruct (max_name_in r' (Hne _ _ Hr')) as (y & Hy & ->). apply Hlt; [done|].
  apply list_elem_of_In, in_concat. exists r'. rewrite <-!list_elem_of_In. split; [by eapply list_elem_of_lookup_2|done].
Qed.

(** ** Reading shards *)

Definition reads w (n : nat) (d : Digest) (es : list TreeEntry) : Prop :=
  forall s d' levels, digest_algo s = a -> stores s w -> d' ≡ d -> (n <= levels)%nat -> collect_dir_entries levels s d' = Ok es.

Definition ordinary (e : TreeEntry) : Prop := te_kind e <> EK_TreeShard.

Lemma forallb_ordinary run :
  Forall ordinary run -> forallb (fun e => negb (bool_decide (te_kind e = EK_TreeShard))) (map retag_entry run) = true.
Proof. induction 1 as [|e run He _ IH]; [done|]. cbn [map forallb]. cbn [retag_entry te_kind]. by rewrite bool_decide_eq_false_2. Qed.

Lemma leaf_reads w d run : holds_object w d (OTree run) -> Forall ordinary run -> reads w 1 d (map retag_entry run).
Proof.
  intros H Ho s d' levels Ha Hs Hd Hl. destruct levels as [|levels]; [lia|]. cbn [collect_dir_entries].
  rewrite (H s d' Ha Hs Hd). cbn [mbind result_bind retag_object]. by rewrite forallb_ordinary.
Qed.

(** A level of shards over the lists of entries below them. *)
Definition level_reads w (n : nat) (level : list TreeEntry) (ess : list (list TreeEntry)) : Prop :=
  Forall2 (fun e es => te_kind e = EK_TreeShard /\ reads w n (te_target e) es) level ess.

Lemma reads_app w1 w2 n d es : reads w1 n d es \/ reads w2 n d es -> reads (w1 ++ w2) n d es.
Proof. intros [H|H] s d' levels Ha Hs Hd; apply stores_app in Hs as [? ?]; by apply H. Qed.

Lemma interior_reads w n d run ess :
  holds_object w d (OTree run) -> run <> [] -> level_reads w n run ess -> reads w (1 + n) d (concat ess).
Proof.
  intros H Hne Hr s d' levels Ha Hs Hd Hl. destruct levels as [|levels]; [lia|]. cbn [collect_dir_entries].
  rewrite (H s d' Ha Hs Hd). cbn [mbind result_bind retag_object].
  assert (forallb (fun e => negb (bool_decide (te_kind e = EK_TreeShard))) (map retag_entry run) = false) as ->.
  { destruct Hr as [|e es run ess [He _] _]; [done|]. cbn [map forallb retag_entry te_kind]. by rewrite bool_decide_eq_true_2. }
  rewrite <-(app_nil_l (concat ess)). generalize (@nil TreeEntry). clear H Hne Hd.
  induction Hr as [|e es run ess [He Hes] _ IH]; intros out; cbn [map try_fold concat]; [by rewrite app_nil_r|].
  cbn [retag_entry te_kind te_target]. rewrite bool_decide_eq_true_2 by done.
  rewrite (Hes s _ levels) by (done || lia). cbn [mbind result_bind]. rewrite IH. by rewrite <-app_assoc.
Qed.

Lemma Forall2_concat {A B} (R : A -> B -> Prop) ls k :
  Forall2 R (concat ls) k -> exists ks, k = concat ks /\ Forall2 (Forall2 R) ls ks.
Proof.
  revert k. induction ls as [|l ls IH]; intros k H; cbn [concat] in H.
  - apply Forall2_nil_inv_l in H as ->. by exists [].
  - apply Forall2_app_inv_l in H as (k1 & k2 & H1 & H2 & ->). destruct (IH _ H2) as (ks & -> & H3).
    exists (k1 :: ks). split; [done|]. by constructor.
Qed.

Lemma shard_step w w' n level ess out depth :
  level_reads w n level ess -> Forall2 (shard_of w') out (chunks (shard_cut depth) [] level) ->
  exists ess', level_reads (w ++ w') (1 + n) out ess' /\ concat ess' = concat ess.
Proof.
  intros Hr Ho. pose proof (chunks_nonempty (shard_cut depth) [] level) as Hne.
  unfold level_reads in Hr. rewrite <-(chunks_concat (shard_cut depth) [] level : _ = level) in Hr.
  destruct (Forall2_concat _ _ _ Hr) as (esss & -> & Hr'). clear Hr. exists (map (@concat TreeEntry) esss). split.
  - unfold level_reads. revert esss Hr'. induction Ho as [|e r out runs (_ & He & _ & Hh) _ IH]; intros esss Hr'.
    { apply Forall2_nil_inv_l in Hr' as ->. constructor. }
    apply Forall2_cons_inv_l in Hr' as (es & esss' & Hes & Hr' & ->). apply Forall_cons in Hne as [Hne1 Hne].
    cbn [map]. constructor; [|by apply IH]. split; [done|]. eapply (interior_reads _ _ _ r es); [|done|].
    + eapply holds_object_mono; [|exact Hh]. intros s Hs. by apply stores_app in Hs as [_ ?].
    + eapply Forall2_impl; [exact Hes|]. intros c ces [Hc Hce]. split; [done|]. apply reads_app. by left.
  - clear. induction esss as [|es esss IH]; [done|]. cbn [map concat]. by rewrite IH, concat_app.
Qed.

(** ** The whole directory *)

(** The rounds of sharding until one shard is left. *)
Fixpoint shard_rounds (fuel : nat) (depth : N) (ns : list bytes) : option nat :=
  if (length ns <=? 1)%nat then Some O
  else match fuel with
  | O => None
  | Datatypes.S fuel => Datatypes.S <$> shard_rounds fuel (depth + 1) (names_up depth ns)
  end.

(** The sharded form of a directory stays within the depth its readers accept. *)
Definition shallow (ns : list bytes) : Prop := is_Some (shard_rounds MAX_SHARD_DEPTH 1 (names_up 0 ns)).

Lemma length_concat_nonempty {A} (xss : list (list A)) :
  Forall (fun xs => xs <> []) xss -> (length xss <= length (concat xss))%nat.
Proof. induction 1 as [|xs xss Hx _ IH]; [done|]. cbn [concat length]. rewrite length_app. destruct xs; [done|]. simpl. lia. Qed.

(** What a level of shards satisfies besides what it reads. *)
Definition good_level (level : list TreeEntry) : Prop :=
  sorted_by te_name level /\ Forall wf_tree_entry level /\ Codec.len level <= u64_max.

Lemma shard_level_good w out level depth :
  good_level level -> Forall2 (shard_of w) out (chunks (shard_cut depth) [] level) -> good_level out.
Proof.
  intros (Hs & Hw & Hl) Ho. pose proof (chunks_nonempty (shard_cut depth) [] level) as Hne.
  pose proof (chunks_concat (shard_cut depth) [] level) as Hc. cbn [app] in Hc. split_and!.
  - eapply shards_sorted; [exact Ho|done|]. by rewrite Hc.
  - clear -Ho. induction Ho as [|e r out runs (_ & _ & He & _) _ IH]; constructor; done.
  - unfold Codec.len in *. rewrite (Forall2_length _ _ _ Ho). apply length_concat_nonempty in Hne. rewrite Hc in Hne. lia.
Qed.

Lemma shard_levels_spec rounds fuel depth l level w0 n ess r :
  shard_rounds rounds depth (names level) = Some r -> (rounds <= fuel)%nat -> depth + N.of_nat rounds <= u8_max ->
  good_level level -> level_reads w0 n level ess ->
  exists level' w ess', shard_levels (ops := log) fuel depth l level = Ok (level', l ++ w) /\
    level_reads (w0 ++ w) (r + n) level' ess' /\ concat ess' = concat ess /\ (length level' <= 1)%nat /\ (level = [] <-> level' = []) /\ good_level level'.
Proof.
  revert fuel depth l level w0 n ess r. induction rounds as [|rounds IH]; intros fuel depth l level w0 n ess r Hr Hf Hd Hg Hreads;
    cbn [shard_rounds] in Hr; unfold names in Hr at 1; rewrite length_map in Hr; destruct fuel as [|fuel]; cbn [shard_levels];
    destruct (Nat.leb_spec (length level) 1) as [Hlen|Hlen]; try done; try lia;
    try (injection Hr as <-; exists level, [], ess; rewrite !app_nil_r; split_and!; done || apply Hg).
  apply fmap_Some in Hr as (r' & Hr & ->). pose proof Hg as (Hs & Hw & Hl).
  destruct (shard_loop_spec depth l [] [] level Hs Hw Hl) as (out & w1 & -> & Ho). cbn [mbind result_bind app].
  rewrite <-(shard_names _ _ _ _ Ho) in Hr. destruct (shard_step _ _ _ _ _ _ _ Hreads Ho) as (ess1 & Hreads1 & Hc1).
  unfold checked_add. rewrite (proj2 (N.leb_le (depth + 1) u8_max)) by lia. cbn [ok_or mbind result_bind].
  destruct (IH fuel (depth + 1) (l ++ w1) out (w0 ++ w1) (1 + n)%nat ess1 r' Hr) as (level' & w2 & ess' & H1 & H2 & H3 & H4 & H5 & H6);
    [lia|lia|by eapply shard_level_good|done|].
  exists level', (w1 ++ w2), ess'. rewrite H1, !app_assoc. replace (Datatypes.S r' + n)%nat with (r' + (1 + n))%nat by lia.
  split; [done|]. split; [done|]. split; [congruence|]. split; [done|]. split; [|done]. rewrite <-H5. split; [intros ->; simpl in Hlen; lia|]. intros ->.
  apply Forall2_length in Ho. pose proof (chunks_concat (shard_cut depth) [] level) as Hc.
  destruct (chunks (shard_cut depth) [] level); [|done]. cbn [concat app] in Hc. by subst.
Qed.

Lemma shard_rounds_le fuel depth ns r : shard_rounds fuel depth ns = Some r -> (r <= fuel)%nat.
Proof.
  revert depth ns r. induction fuel as [|fuel IH]; intros depth ns r; cbn [shard_rounds]; destruct (length ns <=? 1)%nat;
    try (intros [= <-]; lia). intros (r' & H%IH & ->)%fmap_Some. lia.
Qed.

Lemma put_sharded_spec entries l :
  good_level entries -> Forall ordinary entries -> entries <> [] -> shallow (names entries) ->
  exists d w, put_sharded_tree (ops := log) l entries = Ok (d, l ++ w) /\ wf_digest d /\
    reads w (Datatypes.S MAX_SHARD_DEPTH) d (map retag_entry entries).
Proof.
  intros Hg Ho Hne [r Hr]. pose proof Hg as (Hs & Hw & Hl). unfold put_sharded_tree. rewrite tree_sorted by done.
  cbn [mbind result_bind]. destruct (shard_loop_spec 0 l [] [] entries Hs Hw Hl) as (out & w0 & -> & H0). cbn [mbind result_bind app].
  rewrite <-(shard_names _ _ _ _ H0) in Hr. assert (level_reads w0 1 out (map (map retag_entry) (chunks (shard_cut 0) [] entries))) as Hreads.
  { pose proof (chunks_concat (shard_cut 0) [] entries) as Hc. cbn [app] in Hc. rewrite <-Hc in Ho. clear -H0 Ho.
    induction H0 as [|e r out runs (_ & He & _ & Hh) _ IH]; [constructor|]. cbn [concat] in Ho. apply Forall_app in Ho as [Ho1 Ho2].
    cbn [map]. constructor; [|by apply IH]. split; [done|]. by apply leaf_reads. }
  destruct (shard_levels_spec MAX_SHARD_DEPTH 255 1 (l ++ w0) out w0 1 (map (map retag_entry) (chunks (shard_cut 0) [] entries)) r Hr) as (level & w & ess & -> & H2 & H3 & H4 & H5 & _ & H6 & _);
    [unfold MAX_SHARD_DEPTH; lia|by vm_compute|by eapply shard_level_good|done|].
  cbn [mbind result_bind]. pose proof (chunks_concat (shard_cut 0) [] entries) as Hc. cbn [app] in Hc.
  destruct level as [|e [|]]; [|clear H4|simpl in H4; lia].
  { exfalso. assert (out = []) as -> by by apply H5. apply Forall2_length in H0. destruct (chunks (shard_cut 0) [] entries); [|done].
    by rewrite <-Hc in Hne. }
  apply Forall2_cons_inv_l in H2 as (es & ess' & [_ He] & Hnil & ->). apply Forall2_nil_inv_l in Hnil as ->.
  exists (te_target e), (w0 ++ w). rewrite app_assoc. split_and!; [done| |].
  - apply Forall_cons in H6 as [H6 _]. apply H6.
  - cbn [concat] in H3. rewrite app_nil_r in H3. rewrite <-concat_map, Hc in H3. rewrite <-H3.
    apply shard_rounds_le in Hr. intros s d' levels Ha Hst Hd Hle. apply He; try done. lia.
Qed.

(** A directory is written and read back, whatever its size. *)
Lemma put_directory_spec entries l :
  NoDup (names entries) -> Forall wf_tree_entry entries -> Codec.len entries <= u64_max -> Forall ordinary entries ->
  (DIR_SHARD_THRESHOLD < Codec.len entries -> shallow (names (sort_by te_name entries))) ->
  exists d w, put_directory (ops := log) l entries = Ok (d, l ++ w) /\ wf_digest d /\
    forall s d', digest_algo s = a -> stores s w -> d' ≡ d ->
    tree_entries s d' = Ok (map retag_entry (sort_by te_name entries)).
Proof.
  intros Hn Hw Hl Ho Hsh. set (sorted := sort_by te_name entries) in *.
  assert (adjacent_dup te_name sorted = false) as Hd by by apply adjacent_dup_sort.
  assert (sorted_by te_name sorted) as Hs by (apply sorted_by_no_dup; [apply sort_by_sorted|done]).
  assert (sorted ≡ₚ entries) as Hp by apply sort_by_perm.
  assert (good_level sorted) as Hg.
  { split_and!; [done|by rewrite Hp|]. unfold Codec.len in *. by rewrite Hp. }
  assert (Forall ordinary sorted) as Ho' by by rewrite Hp.
  assert (tree entries = Ok (OTree sorted)) as Ht by (unfold tree; by fold sorted; rewrite Hd).
  unfold put_directory, tree_entries. destruct (N.ltb_spec DIR_SHARD_THRESHOLD (Codec.len entries)) as [Hlt|_].
  - destruct (put_sharded_spec sorted l Hg Ho') as (d & w & E & Hwd & Hr); [|by apply Hsh|].
    { intros E. apply (f_equal length) in E. rewrite Hp in E. unfold Codec.len, DIR_SHARD_THRESHOLD in Hlt. simpl in E. lia. }
    exists d, w. split_and!; [|done|]; [|by intros; apply Hr].
    unfold put_sharded_tree in *. rewrite tree_sorted in E by done. by rewrite Ht.
  - rewrite Ht. cbn [mbind result_bind]. destruct (put_object_spec (OTree sorted) l) as (d & w & -> & Hwd & Hh).
    { destruct Hg as (? & ? & ?). done. }
    exists d, w. split_and!; [done|done|]. intros s d' Ha Hst Hd'. apply (leaf_reads w d sorted); try done.
    unfold MAX_SHARD_DEPTH. lia.
Qed.

End Directory.
End VcsShard.
