(* ===== verification/VcsTreeProps.v ===== *)
(** * Version control: a working tree is stored and read back

    Building the tree of a working tree and flattening it again gives the working tree, with the
    directories its paths imply. *)

From S2P Require Import Prelude Codec Types Object ObjectProps Store Prolly ProllyTree VcsTree VcsPath VcsShard.

Module VcsTreeProps.
Import Error Digest Object ObjectProps Store VcsTree VcsPath VcsWrite VcsShard.

(** ** What is expected back *)

(** Addresses are read back with the default algorithm tag. *)
Definition retag_staged (e : StagedEntry) : StagedEntry :=
  match e with
  | SFile f => SFile (mkStagedFile (retag (content_addr f)) (mode f))
  | STable root => STable (retag root)
  | SStream root => SStream (retag root)
  | STimeSeries root => STimeSeries (retag root)
  | SGraph root => SGraph (retag root)
  | SLedger root => SLedger (retag root)
  | SColumnar root => SColumnar (retag root)
  | SDocument root => SDocument (retag root)
  end.

Definition staged_addr (e : StagedEntry) : Digest :=
  match e with
  | SFile f => content_addr f
  | STable root | SStream root | STimeSeries root | SGraph root | SLedger root | SColumnar root | SDocument root => root
  end.

Definition staged_mode (e : StagedEntry) : N := match e with SFile f => mode f | _ => 0 end.

Definition wf_staged (e : StagedEntry) : Prop := wf_digest (staged_addr e) /\ staged_mode e <= u32_max.

Lemma staged_of_entry name e : staged_of (retag_entry (tree_entry_of name e)) = retag_staged e.
Proof. by destruct e. Qed.

Lemma tree_entry_of_name name e : te_name (tree_entry_of name e) = name.
Proof. by destruct e. Qed.

Lemma tree_entry_of_kind name e : te_kind (tree_entry_of name e) <> EK_Tree /\ ordinary (tree_entry_of name e).
Proof. by destruct e. Qed.

Lemma tree_entry_of_wf name e : wf_segment name -> wf_staged e -> wf_tree_entry (tree_entry_of name e).
Proof. intros (_ & H1 & H2) [H3 H4]. by destruct e. Qed.

(** The directories of a working tree: the recorded ones and every proper ancestor of a path. *)
Definition closed_dirs (files : WorkTree) (dirs : gset bytes) : gset bytes :=
  dirs ∪ list_to_set (elements (dom files ∪ dirs) ≫= path_ancestors).

(** A path of the working tree, file or directory. *)
Definition has_path (files : WorkTree) (dirs : gset bytes) (p : bytes) : Prop := p ∈ dom files ∪ dirs.

Lemma elem_of_closed_dirs files dirs d :
  d ∈ closed_dirs files dirs <-> d ∈ dirs \/ d <> [] /\ exists b, has_path files dirs (d ++ slash :: b).
Proof.
  unfold closed_dirs, has_path. rewrite elem_of_union, elem_of_list_to_set, list_elem_of_bind.
  setoid_rewrite elem_of_path_ancestors. setoid_rewrite elem_of_elements. naive_solver.
Qed.

(** ** Working trees that can be committed *)

(** The entries of the directory [prefix]. *)
Definition child_names (files : WorkTree) (dirs : gset bytes) (prefix : bytes) : list bytes :=
  sort_by id (map fst (file_children files prefix) ++ set_iter (dir_children files dirs prefix)).

(** Paths are normalized text, slots are well formed, no path is both a leaf and a directory, and no
    directory is too large for the format. *)
Record committable `{Hasher} (files : WorkTree) (dirs : gset bytes) : Prop := {
  ct_path p : has_path files dirs p -> wf_path p;
  ct_slot p e : files !! p = Some e -> wf_staged e;
  ct_clean : validate_vcs_namespace_preflight files dirs = Ok ();
  ct_size : 2 * N.of_nat (size files) + N.of_nat (size dirs) <= u64_max;
  ct_shallow prefix : DIR_SHARD_THRESHOLD < Codec.len (child_names files dirs prefix) -> shallow (child_names files dirs prefix);
}.

(** The paths of a working tree have fewer than [fuel] segments below [prefix]. *)
Definition fits (fuel : nat) (files : WorkTree) (dirs : gset bytes) (prefix : bytes) : Prop :=
  forall rest, has_path files dirs (prefix ++ rest) -> (length (segments rest) < fuel)%nat.

Definition depth_of (files : WorkTree) (dirs : gset bytes) : nat :=
  max_list (map (fun p => length (segments p)) (elements (dom files ∪ dirs))).

Lemma fits_root files dirs fuel : (depth_of files dirs < fuel)%nat -> fits fuel files dirs [].
Proof.
  unfold depth_of. intros Hf p Hp. unfold has_path in Hp. cbn [app] in Hp. rewrite <-elem_of_elements in Hp.
  eapply Nat.le_lt_trans; [|exact Hf]. apply max_list_elem_of_le, list_elem_of_fmap. eauto.
Qed.

(** ** The collision check *)

Lemma preflight_clean files dirs p a :
  validate_vcs_namespace_preflight files dirs = Ok () -> is_Some (files !! a) -> has_path files dirs p ->
  ~ (exists b, p = a ++ slash :: b) \/ a = [].
Proof.
  unfold validate_vcs_namespace_preflight. case_bool_decide as E; [|done]. intros _ Ha Hp.
  destruct (decide (a = [])) as [|Hne]; [by right|left]. intros Hb.
  assert (a ∈ path_ancestors p) as Hin by by apply elem_of_path_ancestors.
  assert ((a, p) ∈ namespace_preflight files dirs); [|set_solver].
  assert ((a, p) ∈ (list_to_set (map (fun x => (x, p)) (filter (fun x => is_Some (files !! x)) (path_ancestors p))) : gset (bytes * bytes))) as Hin'.
  { apply elem_of_list_to_set, list_elem_of_fmap. exists a. split; [done|]. by apply list_elem_of_filter. }
  unfold namespace_preflight. apply elem_of_union_list. apply elem_of_union in Hp as [Hp|Hp]; apply elem_of_elements in Hp.
  - eexists. split; [apply elem_of_app; left; apply list_elem_of_fmap; exists p; split; [reflexivity|exact Hp]|]. set_solver.
  - eexists. split; [apply elem_of_app; right; apply list_elem_of_fmap; exists p; split; [reflexivity|exact Hp]|]. set_solver.
Qed.

Lemma preflight_not_dir files dirs a :
  validate_vcs_namespace_preflight files dirs = Ok () -> is_Some (files !! a) -> a ∉ dirs.
Proof.
  unfold validate_vcs_namespace_preflight. case_bool_decide as E; [|done]. intros _ Ha Hd.
  assert ((a, a ++ [slash]) ∈ namespace_preflight files dirs); [|set_solver].
  unfold namespace_preflight. apply elem_of_union_list. eexists. split.
  - apply elem_of_app. right. apply list_elem_of_fmap. exists a. split; [reflexivity|by apply elem_of_elements].
  - cbn beta. rewrite bool_decide_eq_true_2 by done. set_solver.
Qed.

(** ** The children of a directory *)

Lemma elem_of_file_children files prefix name e :
  (name, e) ∈ file_children files prefix <-> files !! (prefix ++ name) = Some e /\ slash ∉ name.
Proof.
  unfold file_children. rewrite list_elem_of_omap. unfold file_child. split.
  - intros ([p x] & Hin & H). cbn [fst snd] in H. destruct (strip_prefix p prefix) as [rest|] eqn:E; [|done].
    apply strip_prefix_Some in E as ->. destruct (split_once rest) eqn:Es; [done|]. injection H as -> ->.
    apply split_once_None in Es. by apply elem_of_btree_iter in Hin.
  - intros [H Hs]. exists (prefix ++ name, e). split; [by apply elem_of_btree_iter|]. cbn [fst snd].
    rewrite (proj2 (strip_prefix_Some _ _ name)) by done. by rewrite (proj2 (split_once_None _)).
Qed.

(** The prefixes [build_subtree] and [flatten_tree] are called with. *)
Definition dir_prefix (prefix : bytes) : Prop := prefix = [] \/ exists q, prefix = q ++ [slash].

Lemma dir_prefix_child prefix seg : dir_prefix (prefix ++ seg ++ [slash]).
Proof. right. exists (prefix ++ seg). by rewrite app_assoc. Qed.

Lemma wf_path_rest prefix rest : dir_prefix prefix -> wf_path (prefix ++ rest) -> wf_path rest.
Proof.
  intros [->|[q ->]]; [done|]. rewrite <-app_assoc. cbn [app]. by intros [_ H]%wf_path_slash.
Qed.

Lemma elem_of_dir_children files dirs prefix seg :
  (forall p, has_path files dirs p -> wf_path p) -> dir_prefix prefix ->
  (seg ∈ dir_children files dirs prefix) <->
  (slash ∉ seg) /\ ((exists b, has_path files dirs (prefix ++ seg ++ slash :: b)) \/ prefix ++ seg ∈ dirs).
Proof.
  intros Hwf Hp. unfold dir_children, has_path. rewrite elem_of_list_to_set, elem_of_app, !list_elem_of_omap.
  setoid_rewrite elem_of_elements. unfold file_dir, dir_child. split.
  - intros [(p & Hin & H)|(p & Hin & H)]; (destruct (strip_prefix p prefix) as [rest|] eqn:E; [|done]);
      apply strip_prefix_Some in E as ->.
    + destruct (split_once rest) as [[x b]|] eqn:Es; [|done]. injection H as ->. apply split_once_Some in Es as [-> Hs].
      split; [done|]. left. exists b. set_solver.
    + case_bool_decide as Hr; [done|]. injection H as H. destruct (split_once rest) as [[x b]|] eqn:Es.
      * apply split_once_Some in Es as [-> Hs]. subst x. split; [done|]. left. exists b. set_solver.
      * apply split_once_None in Es. subst rest. auto.
  - intros [Hs [[b Hb]|Hd]].
    + assert (split_once (seg ++ slash :: b) = Some (seg, b)) as Es by by apply split_once_Some.
      apply elem_of_union in Hb as [Hb|Hb]; [left|right]; exists (prefix ++ seg ++ slash :: b);
        rewrite (proj2 (strip_prefix_Some _ _ (seg ++ slash :: b))), Es by done; [done|].
      by rewrite bool_decide_eq_false_2 by by destruct seg.
    + right. exists (prefix ++ seg). rewrite (proj2 (strip_prefix_Some _ _ seg)) by done. split; [done|].
      rewrite (proj2 (split_once_None _)) by done. rewrite bool_decide_eq_false_2; [done|]. intros ->.
      assert (wf_path prefix) as Hw by (apply Hwf; unfold has_path; rewrite app_nil_r in Hd; set_solver).
      rewrite <-(app_nil_r prefix) in Hw. apply wf_path_rest in Hw; [|done]. by apply wf_path_nonempty in Hw.
Qed.

(** ** Folding contributions *)

(** Adding submaps of [F] in any order adds all of [F] when they cover it. *)
Lemma fold_union_cover {A} (F acc : gmap bytes A) (cs : list (gmap bytes A)) :
  Forall (fun c => c ⊆ F) cs -> (forall k x, F !! k = Some x -> exists c, c ∈ cs /\ c !! k = Some x) ->
  foldl (fun m c => c ∪ m) acc cs = F ∪ acc.
Proof.
  intros Hsub Hcov.
  assert (forall k, foldl (fun m c => c ∪ m) acc cs !! k =
    if decide (Exists (fun c => is_Some (c !! k)) cs) then F !! k else acc !! k) as H.
  { intros k. clear Hcov. induction cs as [|c cs IH] using rev_ind; [rewrite decide_False; [done|]; by intros ?%Exists_nil|].
    apply Forall_app in Hsub as [Hsub Hc]. apply Forall_cons in Hc as [Hc _]. rewrite foldl_app. cbn [foldl].
    destruct (c !! k) as [x|] eqn:E.
    - rewrite (lookup_union_Some_l _ _ _ _ E), decide_True by (apply Exists_app; right; apply Exists_cons; left; by eexists).
      symmetry. by eapply lookup_weaken.
    - rewrite lookup_union_r, IH by done. apply decide_ext. rewrite Exists_app, Exists_cons, Exists_nil, E, is_Some_alt. tauto. }
  apply map_eq. intros k. rewrite H. destruct (F !! k) as [x|] eqn:E.
  - rewrite (lookup_union_Some_l _ _ _ _ E). destruct (Hcov k x E) as (c & Hc & Hx).
    rewrite decide_True; [done|]. apply Exists_exists. exists c. split; [done|by eexists].
  - rewrite lookup_union_r by done. destruct (decide _) as [(c & Hc & [x Hx])%Exists_exists|]; [|done].
    rewrite Forall_forall in Hsub. pose proof (lookup_weaken _ _ _ _ Hx (Hsub c Hc)). congruence.
Qed.

Lemma fold_union_set (D acc : gset bytes) (cs : list (gset bytes)) :
  Forall (fun c => c ⊆ D) cs -> (forall d, d ∈ D -> exists c, c ∈ cs /\ d ∈ c) ->
  foldl (fun m c => c ∪ m) acc cs = D ∪ acc.
Proof.
  intros Hsub Hcov. apply set_eq. intros d.
  assert (d ∈ foldl (fun m c => c ∪ m) acc cs <-> (exists c, c ∈ cs /\ d ∈ c) \/ d ∈ acc) as ->.
  { clear. induction cs as [|c cs IH] using rev_ind; [set_solver|]. rewrite foldl_app. cbn [foldl]. set_solver. }
  rewrite Forall_forall in Hsub. set_solver.
Qed.

Section RoundTrip.
Context `{hasher : Hasher} {S : Type} `{ops : !ObjectStore S} (a : Algo) (files : WorkTree) (dirs : gset bytes).
Context (Hct : committable files dirs).
Implicit Types (l w : list bytes) (s : S) (prefix seg : bytes).

(** What lies below a prefix. *)
Definition files_under prefix : WorkTree := filter (fun kv => starts_with kv.1 prefix = true) files.
Definition dirs_under prefix : gset bytes := filter (fun d => starts_with d prefix = true) (closed_dirs files dirs).

(** What flattening an entry of the directory [prefix] adds. *)
Definition entry_files prefix (e : TreeEntry) : WorkTree :=
  match te_kind e with
  | EK_Tree => retag_staged <$> files_under (prefix ++ te_name e ++ [slash])
  | _ => {[prefix ++ te_name e := staged_of (retag_entry e)]}
  end.

Definition entry_dirs prefix (e : TreeEntry) : gset bytes :=
  match te_kind e with
  | EK_Tree => {[prefix ++ te_name e]} ∪ dirs_under (prefix ++ te_name e ++ [slash])
  | _ => ∅
  end.

(** An entry of the directory [prefix]. *)
Definition dir_entry prefix (e : TreeEntry) : Prop :=
  (exists name x, (name, x) ∈ file_children files prefix /\ e = tree_entry_of name x) \/
  (te_name e ∈ dir_children files dirs prefix /\ te_kind e = EK_Tree).

Lemma files_under_lookup prefix p x :
  (retag_staged <$> files_under prefix) !! p = Some x <->
  exists y rest, files !! p = Some y /\ p = prefix ++ rest /\ x = retag_staged y.
Proof.
  rewrite lookup_fmap, fmap_Some. unfold files_under. setoid_rewrite map_lookup_filter_Some. cbn [fst].
  setoid_rewrite starts_with_app. naive_solver.
Qed.

Lemma elem_of_dirs_under prefix d : d ∈ dirs_under prefix <-> d ∈ closed_dirs files dirs /\ exists rest, d = prefix ++ rest.
Proof. unfold dirs_under. rewrite elem_of_filter, starts_with_app. naive_solver. Qed.

Lemma closed_dirs_wf d : d ∈ closed_dirs files dirs -> wf_path d.
Proof.
  intros [H|[_ [b H]]]%elem_of_closed_dirs; [apply (ct_path _ _ Hct); unfold has_path; set_solver|].
  apply (ct_path _ _ Hct), wf_path_slash in H. tauto.
Qed.

Lemma dir_child_wf prefix seg : dir_prefix prefix -> seg ∈ dir_children files dirs prefix -> wf_segment seg.
Proof.
  intros Hp [Hs H]%elem_of_dir_children; [|by apply Hct|done]. apply wf_path_segment; [done|]. apply (wf_path_rest prefix); [done|].
  destruct H as [[b H]|H].
  - apply (ct_path _ _ Hct) in H. rewrite app_assoc in H. by apply wf_path_slash in H as [H _].
  - apply (ct_path _ _ Hct). unfold has_path. set_solver.
Qed.

Lemma file_child_wf prefix name x :
  dir_prefix prefix -> (name, x) ∈ file_children files prefix -> wf_segment name /\ wf_staged x.
Proof.
  intros Hp [H Hs]%elem_of_file_children. split; [|by eapply Hct].
  apply wf_path_segment; [done|]. apply (wf_path_rest prefix); [done|]. apply (ct_path _ _ Hct).
  unfold has_path. apply elem_of_union_l, elem_of_dom. by eexists.
Qed.

(** A name stands for a file or for a directory, not for both. *)
Lemma file_not_dir prefix name x :
  dir_prefix prefix -> (name, x) ∈ file_children files prefix -> name ∉ dir_children files dirs prefix.
Proof.
  intros Hp Hf [Hs H]%elem_of_dir_children; [|by apply Hct|done]. pose proof (file_child_wf prefix name x Hp Hf) as [[Hne _] _].
  apply elem_of_file_children in Hf as [Hf _]. assert (is_Some (files !! (prefix ++ name))) as Hsome by by eexists.
  pose proof (ct_clean _ _ Hct) as Hc. destruct H as [[b Hb]|Hd]; [|by eapply preflight_not_dir].
  destruct (preflight_clean files dirs _ _ Hc Hsome Hb) as [Hno|E]; [|by destruct prefix, name].
  apply Hno. exists b. by rewrite <-app_assoc.
Qed.

Lemma entry_files_sub prefix e :
  dir_prefix prefix -> dir_entry prefix e -> entry_files prefix e ⊆ retag_staged <$> files_under prefix.
Proof.
  intros Hp [(name & x & Hf & ->)|[Hd Hk]]; unfold entry_files.
  - apply elem_of_file_children in Hf as [Hf _].
    destruct (tree_entry_of_kind name x) as [Hk _]. destruct (te_kind (tree_entry_of name x)) eqn:E; try done;
      rewrite tree_entry_of_name, staged_of_entry, map_singleton_subseteq_l; apply files_under_lookup; eauto.
  - rewrite Hk. apply map_subseteq_spec. intros p y (z & rest & H1 & H2 & H3)%files_under_lookup.
    apply files_under_lookup. exists z, (te_name e ++ slash :: rest). split_and!; try done. by rewrite H2, <-!app_assoc.
Qed.

Lemma entry_files_cover prefix p x :
  dir_prefix prefix -> (retag_staged <$> files_under prefix) !! p = Some x ->
  (exists name y, (name, y) ∈ file_children files prefix /\ entry_files prefix (tree_entry_of name y) !! p = Some x) \/
  (exists seg, seg ∈ dir_children files dirs prefix /\
     (retag_staged <$> files_under (prefix ++ seg ++ [slash])) !! p = Some x).
Proof.
  intros Hp (y & rest & Hy & -> & ->)%files_under_lookup. destruct (split_once rest) as [[seg b]|] eqn:E.
  - right. apply split_once_Some in E as [-> Hs]. exists seg. split.
    + apply elem_of_dir_children; [apply Hct|done|]. split; [done|]. left. exists b. unfold has_path.
      apply elem_of_union_l, elem_of_dom. by eexists.
    + apply files_under_lookup. exists y, b. split_and!; try done. by rewrite <-!app_assoc.
  - left. apply split_once_None in E. exists rest, y. split; [by apply elem_of_file_children|]. unfold entry_files.
    destruct (tree_entry_of_kind rest y) as [Hk _]. destruct (te_kind (tree_entry_of rest y)) eqn:E'; try done;
      by rewrite tree_entry_of_name, staged_of_entry, lookup_singleton_eq.
Qed.

Lemma entry_dirs_sub prefix e : dir_prefix prefix -> dir_entry prefix e -> entry_dirs prefix e ⊆ dirs_under prefix.
Proof.
  intros Hp He d. unfold entry_dirs. destruct He as [(name & x & Hf & ->)|[Hd Hk]].
  { destruct (tree_entry_of_kind name x) as [Hk _]. by destruct (te_kind (tree_entry_of name x)). }
  rewrite Hk, elem_of_union, elem_of_singleton. intros [->|(H & rest & E)%elem_of_dirs_under]; apply elem_of_dirs_under.
  - split; [|by eexists]. pose proof (dir_child_wf _ _ Hp Hd) as [Hne _]. apply elem_of_dir_children in Hd as [_ Hd]; [|apply Hct|done].
    apply elem_of_closed_dirs. destruct Hd as [[b Hb]|Hd]; [|by left]. right. split; [by destruct prefix, (te_name e)|].
    exists b. by rewrite <-app_assoc.
  - split; [done|]. exists (te_name e ++ slash :: rest). by rewrite E, <-!app_assoc.
Qed.

Lemma entry_dirs_cover prefix d :
  dir_prefix prefix -> d ∈ dirs_under prefix ->
  exists seg, seg ∈ dir_children files dirs prefix /\ (d = prefix ++ seg \/ d ∈ dirs_under (prefix ++ seg ++ [slash])).
Proof.
  intros Hp (Hd & rest & ->)%elem_of_dirs_under. pose proof (closed_dirs_wf _ Hd) as Hw. pose proof Hd as Hd'.
  apply elem_of_closed_dirs in Hd. destruct (split_once rest) as [[seg b]|] eqn:E.
  - apply split_once_Some in E as [-> Hs]. exists seg. split.
    + apply elem_of_dir_children; [apply Hct|done|]. split; [done|]. left. destruct Hd as [Hd|[_ [c Hc]]].
      * exists b. unfold has_path. set_solver.
      * exists (b ++ slash :: c). by rewrite <-!app_assoc in Hc.
    + right. apply elem_of_dirs_under. split; [done|]. exists b. by rewrite <-!app_assoc.
  - apply split_once_None in E. exists rest. split; [|by left]. apply elem_of_dir_children; [apply Hct|done|]. split; [done|].
    destruct Hd as [Hd|[_ [c Hc]]]; [by right|]. left. exists c. by rewrite <-!app_assoc in Hc.
Qed.

(** ** Reading a directory and what is below it *)

(** [d] is the root of the tree of what is below [prefix], in every store that holds [w]. *)
Definition flattens w (fuel : nat) (d : Digest) prefix : Prop :=
  forall s d' fuel' acc, digest_algo s = a -> stores s w -> d' ≡ d -> (fuel <= fuel')%nat ->
  flatten_tree fuel' s d' prefix acc = Some (Ok ((retag_staged <$> files_under prefix) ∪ acc.1, dirs_under prefix ∪ acc.2)).

Definition flat_entry w fuel prefix (e : TreeEntry) : Prop :=
  te_kind e = EK_Tree -> flattens w fuel (te_target e) (prefix ++ te_name e ++ [slash]).

Lemma flattens_app w1 w2 fuel d prefix : flattens w1 fuel d prefix \/ flattens w2 fuel d prefix -> flattens (w1 ++ w2) fuel d prefix.
Proof. intros [H|H] s d' fuel' acc Ha Hs Hd; apply stores_app in Hs as [? ?]; by apply H. Qed.

Lemma flatten_entries w fuel fuel' prefix s es acc :
  Forall (flat_entry w fuel prefix) es -> digest_algo s = a -> stores s w -> (fuel <= fuel')%nat ->
  run_fold (fun acc e =>
    let path := prefix ++ te_name e in
    match te_kind e with
    | EK_Tree => flatten_tree fuel' s (te_target e) (path ++ [slash]) (acc.1, {[path]} ∪ acc.2)
    | _ => Some (Ok (<[path := staged_of e]> acc.1, acc.2))
    end) acc (map retag_entry es) =
  Some (Ok (foldl (fun m c => c ∪ m) acc.1 (map (entry_files prefix) es), foldl (fun m c => c ∪ m) acc.2 (map (entry_dirs prefix) es))).
Proof.
  intros Hes Ha Hs Hf. revert acc. induction Hes as [|e es He _ IH]; intros acc; [by destruct acc|].
  cbn [map run_fold foldl]. unfold entry_files at 1, entry_dirs at 1. cbn [retag_entry te_kind te_name te_target].
  unfold flat_entry in He. destruct (te_kind e) eqn:Hk;
    try (cbn [run_bind]; rewrite IH; cbn [fst snd]; by rewrite insert_union_singleton_l, (left_id_L ∅ (∪))).
  rewrite <-app_assoc. rewrite (He eq_refl s) by done. cbn [run_bind fst snd]. rewrite IH. cbn [fst snd].
  by rewrite (assoc_L (∪)), (comm_L (∪) (dirs_under _) {[_]}).
Qed.

(** ** Building the subdirectories *)

Definition sub_entry w fuel prefix seg (e : TreeEntry) : Prop :=
  te_name e = seg /\ te_kind e = EK_Tree /\ wf_digest (te_target e) /\ te_mode e = DIR_MODE /\
  flattens w fuel (te_target e) (prefix ++ seg ++ [slash]).

Definition builds fuel prefix : Prop :=
  forall l, exists d w, build_subtree (ops := log_store a) fuel l files dirs prefix = Some (Ok (d, l ++ w)) /\
    wf_digest d /\ flattens w fuel d prefix.

Lemma build_subdirs fuel prefix segs entries l :
  Forall (fun seg => builds fuel (prefix ++ seg ++ [slash])) segs ->
  exists es w, run_fold (fun acc seg =>
      r ⇠ build_subtree (ops := log_store a) fuel acc.2 files dirs (prefix ++ seg ++ [slash]);
      Some (Ok (acc.1 ++ [mkTreeEntry seg EK_Tree r.1 DIR_MODE], r.2))) (entries, l) segs =
    Some (Ok (entries ++ es, l ++ w)) /\ Forall2 (sub_entry w fuel prefix) segs es.
Proof.
  intros H. revert entries l. induction H as [|seg segs Hseg _ IH]; intros entries l; cbn [run_fold].
  { exists [], []. by rewrite !app_nil_r. }
  destruct (Hseg l) as (d & w & E & Hd & Hf). cbn [fst snd]. rewrite E. cbn [run_bind fst snd].
  destruct (IH (entries ++ [mkTreeEntry seg EK_Tree d DIR_MODE]) (l ++ w)) as (es & w' & -> & Hes).
  exists (mkTreeEntry seg EK_Tree d DIR_MODE :: es), (w ++ w'). rewrite <-!app_assoc. split; [done|].
  constructor; [split_and!; try done; apply flattens_app; by left|].
  eapply Forall2_impl; [exact Hes|]. intros x e (?&?&?&?&?). split_and!; try done. apply flattens_app. by right.
Qed.

Lemma fits_child fuel prefix seg :
  dir_prefix prefix -> fits (Datatypes.S fuel) files dirs prefix -> seg ∈ dir_children files dirs prefix ->
  (0 < fuel)%nat /\ fits fuel files dirs (prefix ++ seg ++ [slash]).
Proof.
  intros Hp Hf [Hs H]%elem_of_dir_children; [|apply Hct|done]. split.
  - assert (forall r, (0 < length (segments r))%nat) as Hpos.
    { intros r. pose proof (segments_not_nil r). destruct (segments r); [done|simpl; lia]. }
    destruct H as [[b H]|H]; [apply Hf in H|assert (has_path files dirs (prefix ++ seg)) as H' by (unfold has_path; set_solver); apply Hf in H'].
    + rewrite segments_slash, length_app in H. pose proof (Hpos b). pose proof (Hpos seg). lia.
    + pose proof (Hpos seg). lia.
  - intros rest Hr. rewrite <-!app_assoc in Hr. apply Hf in Hr. cbn [app] in Hr.
    rewrite segments_slash, (segments_plain seg), length_app in Hr by done. simpl in Hr. lia.
Qed.

(** ** Building a directory *)

(** The entries [build_subtree] gives a directory. *)
Definition file_entries prefix : list TreeEntry := map (fun e => tree_entry_of e.1 e.2) (file_children files prefix).

Lemma names_app es1 es2 : names (es1 ++ es2) = names es1 ++ names es2.
Proof. apply map_app. Qed.

Lemma file_entries_names prefix : names (file_entries prefix) = map fst (file_children files prefix).
Proof. unfold names, file_entries. rewrite map_map. apply map_ext. intros [n x]. apply tree_entry_of_name. Qed.

Lemma sub_entries_names w fuel prefix segs es : Forall2 (sub_entry w fuel prefix) segs es -> names es = segs.
Proof. induction 1 as [|seg e segs es (He & _) _ IH]; [done|]. unfold names in *. cbn [map]. by rewrite He, IH. Qed.

Lemma NoDup_file_children prefix : NoDup (map fst (file_children files prefix)).
Proof.
  unfold file_children. assert (NoDup (map fst (btree_iter files))) as H.
  { unfold btree_iter. rewrite (Permutation_map fst (sort_by_perm fst _)). apply NoDup_fst_map_to_list. }
  induction (btree_iter files) as [|[p x] ps IH]; cbn [omap list_omap map]; [constructor|].
  cbn [map fst] in H. apply NoDup_cons in H as [Hp H]. unfold file_child at 1. cbn [fst snd].
  destruct (strip_prefix p prefix) as [rest|] eqn:E; [|by apply IH]. destruct (split_once rest) as [[]|] eqn:Es; [by apply IH|].
  cbn [map fst]. constructor; [|by apply IH]. intros ([n y] & Hn & Hin)%list_elem_of_fmap. cbn [fst] in Hn. subst n.
  apply list_elem_of_omap in Hin as ([q z] & Hq & Hf). unfold file_child in Hf. cbn [fst snd] in Hf.
  destruct (strip_prefix q prefix) as [rest'|] eqn:E'; [|done]. destruct (split_once rest'); [done|]. injection Hf as -> ->.
  apply strip_prefix_Some in E as ->, E' as ->. apply Hp, list_elem_of_fmap. by exists (prefix ++ rest, y).
Qed.

Lemma set_iter_perm (X : gset bytes) : set_iter X ≡ₚ elements X.
Proof. apply sort_by_perm. Qed.

Lemma child_names_NoDup prefix :
  dir_prefix prefix -> NoDup (map fst (file_children files prefix) ++ set_iter (dir_children files dirs prefix)).
Proof.
  intros Hp. rewrite set_iter_perm. apply NoDup_app. split_and!; [apply NoDup_file_children| |apply NoDup_elements].
  intros n ([m x] & -> & Hin)%list_elem_of_fmap. rewrite elem_of_elements. by eapply file_not_dir.
Qed.

Lemma omap_length_le {A B} (f : A -> option B) (xs : list A) : (length (omap f xs) <= length xs)%nat.
Proof. induction xs as [|x xs IH]; cbn [omap list_omap length]; [done|]. destruct (f x); simpl; lia. Qed.

Lemma size_list_to_set_le (xs : list bytes) : (length (elements (list_to_set xs : gset bytes)) <= length xs)%nat.
Proof.
  apply submseteq_length, NoDup_submseteq; [apply NoDup_elements|]. intros x. by rewrite elem_of_elements, elem_of_list_to_set.
Qed.

Lemma child_names_count prefix :
  (length (map fst (file_children files prefix) ++ set_iter (dir_children files dirs prefix)) <= 2 * size files + size dirs)%nat.
Proof.
  rewrite length_app, length_map.
  assert (length (file_children files prefix) <= size files)%nat as H1.
  { unfold file_children. etrans; [apply omap_length_le|]. unfold btree_iter. by rewrite sort_by_perm, length_map_to_list. }
  assert (length (set_iter (dir_children files dirs prefix)) <= size files + size dirs)%nat as H2.
  { rewrite set_iter_perm. etrans; [apply size_list_to_set_le|]. rewrite length_app.
    apply Nat.add_le_mono; (etrans; [apply omap_length_le|]); [|done]. change (length (elements (dom files))) with (size (dom files)).
    by rewrite size_dom. }
  lia.
Qed.

Lemma child_names_len prefix :
  Codec.len (map fst (file_children files prefix) ++ set_iter (dir_children files dirs prefix)) <= u64_max.
Proof. pose proof (ct_size _ _ Hct) as Hs. pose proof (child_names_count prefix). unfold Codec.len. lia. Qed.

(** What a directory's entries are. *)
Lemma entries_dir w fuel prefix es :
  Forall2 (sub_entry w fuel prefix) (set_iter (dir_children files dirs prefix)) es ->
  Forall (dir_entry prefix) (file_entries prefix ++ es) /\ Forall (flat_entry w fuel prefix) (file_entries prefix ++ es).
Proof.
  intros Hes. assert (forall e, e ∈ es -> exists seg, seg ∈ dir_children files dirs prefix /\ sub_entry w fuel prefix seg e) as Hsub.
  { intros e [i Hi]%list_elem_of_lookup. destruct (Forall2_lookup_r _ _ _ _ _ Hes Hi) as (seg & Hseg & He). exists seg.
    split; [|done]. apply list_elem_of_lookup_2 in Hseg. by rewrite set_iter_perm, elem_of_elements in Hseg. }
  assert (forall e, e ∈ file_entries prefix -> exists name x, (name, x) ∈ file_children files prefix /\ e = tree_entry_of name x) as Hfile.
  { intros e ([name x] & -> & H)%list_elem_of_fmap. eauto. }
  rewrite !Forall_app, !Forall_forall. split_and!.
  - intros e (name & x & H)%Hfile. left. eauto.
  - intros e (seg & Hd & (<- & Hk & _))%Hsub. by right.
  - intros e (name & x & _ & ->)%Hfile Hk. by destruct (tree_entry_of_kind name x).
  - intros e (seg & _ & (<- & _ & _ & _ & Hf))%Hsub _. done.
Qed.

Lemma entries_wf w fuel prefix es :
  dir_prefix prefix -> Forall2 (sub_entry w fuel prefix) (set_iter (dir_children files dirs prefix)) es ->
  Forall wf_tree_entry (file_entries prefix ++ es) /\ Forall ordinary (file_entries prefix ++ es).
Proof.
  intros Hp Hes. assert (forall e, e ∈ es -> wf_tree_entry e /\ ordinary e) as Hsub.
  { intros e [i Hi]%list_elem_of_lookup. destruct (Forall2_lookup_r _ _ _ _ _ Hes Hi) as (seg & Hseg & (Hn & Hk & Hd & Hm & _)).
    apply list_elem_of_lookup_2 in Hseg. rewrite set_iter_perm, elem_of_elements in Hseg.
    destruct (dir_child_wf _ _ Hp Hseg) as (_ & H1 & H2). unfold wf_tree_entry, ordinary, wf_text. rewrite Hn, Hk, Hm. by split_and!. }
  assert (forall e, e ∈ file_entries prefix -> wf_tree_entry e /\ ordinary e) as Hfile.
  { intros e ([name x] & -> & H)%list_elem_of_fmap. cbn [fst snd]. destruct (file_child_wf _ _ _ Hp H).
    split; [by apply tree_entry_of_wf|apply tree_entry_of_kind]. }
  rewrite !Forall_app, !Forall_forall. split; (split; intros e He; [by apply Hfile|by apply Hsub]).
Qed.

(** The contributions of a directory's entries are all of what lies below it. *)
Lemma entries_total w fuel prefix es es' acc :
  dir_prefix prefix -> Forall2 (sub_entry w fuel prefix) (set_iter (dir_children files dirs prefix)) es ->
  es' ≡ₚ file_entries prefix ++ es ->
  foldl (fun m c => c ∪ m) acc (map (entry_files prefix) es') = (retag_staged <$> files_under prefix) ∪ acc.
Proof.
  intros Hp Hes Hperm. apply fold_union_cover.
  - rewrite Forall_map, Hperm. eapply Forall_impl; [apply (proj1 (entries_dir _ _ _ _ Hes))|]. intros e. by apply entry_files_sub.
  - intros k x [(name & y & H1 & H2)|(seg & H1 & H2)]%entry_files_cover; [| |done].
    + exists (entry_files prefix (tree_entry_of name y)). split; [|done]. rewrite Hperm. apply list_elem_of_fmap. eexists. split; [done|].
      apply elem_of_app. left. apply list_elem_of_fmap. by exists (name, y).
    + rewrite <-elem_of_elements, <-set_iter_perm in H1. apply list_elem_of_lookup in H1 as [i Hi].
      destruct (Forall2_lookup_l _ _ _ _ _ Hes Hi) as (e & He & (Hn & Hk & _)). exists (entry_files prefix e). split.
      * rewrite Hperm. apply list_elem_of_fmap. eexists. split; [done|]. apply elem_of_app. right. by eapply list_elem_of_lookup_2.
      * unfold entry_files. by rewrite Hk, Hn.
Qed.

Lemma entries_total_dirs w fuel prefix es es' acc :
  dir_prefix prefix -> Forall2 (sub_entry w fuel prefix) (set_iter (dir_children files dirs prefix)) es ->
  es' ≡ₚ file_entries prefix ++ es ->
  foldl (fun m c => c ∪ m) acc (map (entry_dirs prefix) es') = dirs_under prefix ∪ acc.
Proof.
  intros Hp Hes Hperm. apply fold_union_set.
  - rewrite Forall_map, Hperm. eapply Forall_impl; [apply (proj1 (entries_dir _ _ _ _ Hes))|]. intros e. by apply entry_dirs_sub.
  - intros d (seg & H1 & H2)%entry_dirs_cover; [|done].
    rewrite <-elem_of_elements, <-set_iter_perm in H1. apply list_elem_of_lookup in H1 as [i Hi].
    destruct (Forall2_lookup_l _ _ _ _ _ Hes Hi) as (e & He & (Hn & Hk & _)). exists (entry_dirs prefix e). split.
    + rewrite Hperm. apply list_elem_of_fmap. eexists. split; [done|]. apply elem_of_app. right. by eapply list_elem_of_lookup_2.
    + unfold entry_dirs. rewrite Hk, Hn. set_solver.
Qed.

(** Building what lies below [prefix] gives an address from which it is read back. *)
Lemma build_subtree_spec fuel prefix : dir_prefix prefix -> (0 < fuel)%nat -> fits fuel files dirs prefix -> builds fuel prefix.
Proof.
  revert prefix. induction fuel as [|fuel IH]; intros prefix Hp Hpos Hf l; [lia|]. cbn [build_subtree].
  destruct (build_subdirs fuel prefix (set_iter (dir_children files dirs prefix)) (file_entries prefix) l) as (es & w1 & E & Hes).
  { apply Forall_forall. intros seg Hseg. rewrite set_iter_perm, elem_of_elements in Hseg.
    destruct (fits_child _ _ _ Hp Hf Hseg). apply IH; [apply dir_prefix_child|done|done]. }
  unfold file_entries in E at 1. rewrite E. cbn [run_bind fst snd]. set (entries := file_entries prefix ++ es).
  assert (names entries = map fst (file_children files prefix) ++ set_iter (dir_children files dirs prefix)) as Hnames.
  { subst entries. by rewrite names_app, file_entries_names, (sub_entries_names _ _ _ _ _ Hes). }
  assert (names (sort_by te_name entries) = child_names files dirs prefix) as Hsorted.
  { unfold child_names. rewrite <-Hnames. unfold names. symmetry. by apply sort_by_map. }
  assert (Codec.len (names entries) = Codec.len entries) as Hlen by (unfold Codec.len, names; by rewrite length_map).
  destruct (entries_wf _ _ _ _ Hp Hes) as [Hw Ho].
  destruct (put_directory_spec (S := S) a entries (l ++ w1)) as (d & w2 & E2 & Hd & Hr); [|done| |done| |].
  - rewrite Hnames. by apply child_names_NoDup.
  - rewrite <-Hlen, Hnames. apply child_names_len.
  - rewrite Hsorted, <-Hlen. intros Hlt. apply (ct_shallow _ _ Hct). rewrite <-Hsorted.
    unfold Codec.len, names in *. by rewrite !length_map, sort_by_perm in *.
  - exists d, (w1 ++ w2). rewrite E2, app_assoc. split_and!; [done|done|].
    intros s d' fuel' acc Ha Hs Hd' Hf'. destruct fuel' as [|fuel']; [lia|]. cbn [flatten_tree]. apply stores_app in Hs as [Hs1 Hs2].
    rewrite (Hr s d' Ha Hs2 Hd'). cbn [run_bind].
    assert (Forall (flat_entry w1 fuel prefix) (sort_by te_name entries)) as Hflat.
    { rewrite sort_by_perm. by apply (entries_dir _ _ _ _ Hes). }
    rewrite (flatten_entries w1 fuel) by (done || lia).
    rewrite (entries_total w1 fuel _ es), (entries_total_dirs w1 fuel _ es); try done; apply sort_by_perm.
Qed.

Lemma files_under_root : files_under [] = files.
Proof. unfold files_under. apply map_filter_id. intros k x _. cbn [fst]. apply starts_with_app. by exists k. Qed.

Lemma dirs_under_root : dirs_under [] = closed_dirs files dirs.
Proof. apply set_eq. intros d. rewrite elem_of_dirs_under. split; [by intros [? _]|]. intros H. split; [done|by exists d]. Qed.

End RoundTrip.

Section Claims.
Context `{hasher : Hasher} {S : Type} `{ops : !ObjectStore S} {U : bytes -> Prop} {ok : S -> Prop} `{laws : !StoreLaws S U ok}.

(** C5: Storing a working tree succeeds in every store, gives one address and writes one list of
    objects, and from that address the same files and slots are read back, with the recorded
    directories and those their paths imply, whatever the number of entries of a directory. *)
Theorem tree_roundtrip (s : S) files dirs fuel :
  ok s -> committable files dirs -> (depth_of files dirs < fuel)%nat ->
  exists d w, build_subtree (ops := log_store (digest_algo s)) fuel [] files dirs [] = Some (Ok (d, w)) /\
    (Forall U w -> exists s', build_subtree fuel s files dirs [] = Some (Ok (d, s')) /\ ok s' /\ ProllyTree.extends s s' /\
       flatten_tree fuel s' d [] (∅, ∅) = Some (Ok (retag_staged <$> files, closed_dirs files dirs))).
Proof.
  intros Hok Hct Hf. destruct (build_subtree_spec (S := S) (digest_algo s) files dirs Hct fuel []) with (l := @nil bytes) as (d & w & E & _ & Hfl);
    [by left|lia|by apply fits_root|]. exists d, w. split; [done|]. intros HU.
  destruct (carries_build_subtree (U := U) (digest_algo s) fuel files dirs [] [] d w E) as (w' & [= ->] & H).
  destruct (H s Hok eq_refl HU) as (s' & Hb & Hok' & Hext & Hst). exists s'. split_and!; try done.
  rewrite (Hfl s' d fuel (∅, ∅)); try done; [|by destruct Hext]. cbn [fst snd].
  by rewrite files_under_root, dirs_under_root, (right_id_L ∅ (∪)), (right_id_L ∅ (∪)).
Qed.
End Claims.

(** ** An example: a file in a directory, a table and an empty directory *)

#[local] Existing Instance toy_hasher.

Definition sample_file : StagedEntry := SFile (mkStagedFile (blake3 (str "x")) 420).
Definition sample_files : WorkTree := {[str "a/b" := sample_file; str "c" := STable (blake3 (str "y"))]}.
Definition sample_dirs : gset bytes := {[str "e/f"]}.

(** Few paths: no directory is sharded. *)
Lemma small_committable files dirs :
  forallb (fun p => bool_decide (wf_path p)) (elements (dom files ∪ dirs)) = true ->
  map_Forall (fun _ e => wf_staged e) files -> validate_vcs_namespace_preflight files dirs = Ok () ->
  (2 * size files + size dirs <= 256)%nat -> committable files dirs.
Proof.
  intros Hp Hs Hc Hn. split; [| |done| |].
  - intros p Hin. rewrite forallb_forall in Hp. unfold has_path in Hin. apply (bool_decide_eq_true_1 _), Hp, list_elem_of_In.
    by apply elem_of_elements.
  - apply Hs.
  - unfold u64_max. lia.
  - intros prefix Hlt. pose proof (child_names_count files dirs prefix). unfold child_names, Codec.len, DIR_SHARD_THRESHOLD in Hlt.
    rewrite sort_by_perm in Hlt. lia.
Qed.

Lemma sample_committable : committable sample_files sample_dirs.
Proof.
  apply small_committable; [by vm_compute| |by vm_compute|by apply Nat.leb_le; vm_compute].
  unfold sample_files. apply map_Forall_insert_2; [by vm_compute|]. apply map_Forall_singleton. by vm_compute.
Qed.

Definition sample_writes : list bytes := Eval vm_compute in
  match build_subtree (ops := log_store Blake3) 4 [] sample_files sample_dirs [] with
  | Some (Ok (_, w)) => w
  | _ => []
  end.

#[local] Instance sample_laws : StoreLaws MemoryStore (fun b => b ∈ sample_writes) (fun s => addressed s /\ within (fun b => b ∈ sample_writes) s).
Proof. apply finite_universe; vm_compute; reflexivity. Qed.

Lemma tree_roundtrip_witness :
  exists d s', build_subtree 4 memory_new sample_files sample_dirs [] = Some (Ok (d, s')) /\
    flatten_tree 4 s' d [] (∅, ∅) = Some (Ok (retag_staged <$> sample_files, closed_dirs sample_files sample_dirs)).
Proof.
  destruct (tree_roundtrip (U := fun b => b ∈ sample_writes) memory_new sample_files sample_dirs 4) as (d & w & E & H).
  - split; apply map_Forall_empty.
  - apply sample_committable.
  - apply Nat.ltb_lt. by vm_compute.
  - assert (w = sample_writes) as Hw by (vm_compute in E; injection E as _ <-; reflexivity).
    destruct H as (s' & Hb & _ & _ & Hf); [rewrite Hw; by apply Forall_forall|]. exists d, s'. exact (conj Hb Hf).
Defined.

End VcsTreeProps.
