(* ===== verification/Registry.v ===== *)
(** * The workspace registry (crates/loom-core/src/workspace.rs)

    Workspaces by id with a unique-name index, each with its facets and its refs: branches, tags and
    the branch [HEAD] is attached to. *)

From S2P Require Import Prelude Codec Types Workspace Cbor.

Module Registry.
Import Error Digest FacetKind Cbor.

#[global] Instance FacetKind_countable : Countable FacetKind.
Proof.
  refine (inj_countable facet_stable_tag facet_from_stable_tag _). by intros [].
Defined.

Definition DEFAULT_NAME : bytes := str "Default".
Definition DEFAULT_BRANCH : bytes := str "main".
Definition LOOM_RESERVED_DIR : bytes := str ".loom".
Definition FACETS_RESERVED_DIR : bytes := str ".loom/facets".

Definition is_reserved_path (path : bytes) : bool :=
  let r := LOOM_RESERVED_DIR in
  bool_decide (path = r) ||
  ((length r <? length path)%nat && starts_with path r && bool_decide (path !! length r = Some x2f)).

Definition facet_root (facet : FacetKind) : bytes := FACETS_RESERVED_DIR ++ [x2f] ++ facet_as_str facet.

Fixpoint trim_slashes (s : bytes) : bytes :=
  match s with
  | c :: s' => if bool_decide (c = x2f) then trim_slashes s' else s
  | [] => []
  end.

Definition facet_path (facet : FacetKind) (relative : bytes) : bytes :=
  let root := facet_root facet in
  let relative := trim_slashes relative in
  if bool_decide (relative = []) then root else root ++ [x2f] ++ relative.

Inductive CompressionHint : Type := HintNone | HintFast | HintSmall.

Definition default_compression_for_facets (fs : list FacetKind) : CompressionHint :=
  if existsb (fun f => match f with
       | Files | Document | Sql | Program | Columnar | Calendar | Contacts | Mail | Search | Dataframe | Inference => true
       | _ => false end) fs then HintSmall
  else if existsb (fun f => match f with TimeSeries | Queue | Ledger | Graph => true | _ => false end) fs then HintFast
  else HintNone.

Inductive WsSelector : Type :=
| SelId (id : bytes)
| SelName (name : bytes)
| SelTyped (ty : FacetKind) (name : bytes)
| SelDefault (facet : FacetKind)
| SelDefaultFacet (facet : FacetKind).

(** [struct Record] *)
Record WsRecord : Type := mkWsRecord {
  ws_name : bytes;
  facets_of : gset FacetKind;
  branches : gmap bytes Digest;
  tags : gmap bytes Digest;
  head_of : bytes;
}.

Record Registry : Type := mkRegistry { by_id : gmap bytes WsRecord; by_name : gmap bytes bytes }.

Definition registry_new : Registry := mkRegistry ∅ ∅.

Implicit Types (r : Registry) (id name branch : bytes).

(** ** Names of refs *)

(** [s.contains(pat)] *)
Fixpoint contains (s pat : bytes) : bool :=
  starts_with s pat || match s with [] => false | _ :: s' => contains s' pat end.

(** [name.chars().any(char::is_control)] on UTF-8: U+0000 to U+001F, U+007F to U+009F; only a leading
    byte is C2. *)
Fixpoint has_control (s : bytes) : bool :=
  match s with
  | [] => false
  | c :: s' =>
      let n := Byte.to_N c in
      (n <=? 0x1f) || (n =? 0x7f)
      || ((n =? 0xc2) && match s' with c' :: _ => (0x80 <=? Byte.to_N c') && (Byte.to_N c' <=? 0x9f) | [] => false end)
      || has_control s'
  end.

Definition validate_ref_name (name : bytes) : res unit :=
  if bool_decide (name = []) || bool_decide (name = str "HEAD") || starts_with name (str "refs/")
     || bool_decide (head name = Some x2e) || bool_decide (last name = Some x2e) || contains name (str "..")
     || contains name [x2f] || contains name [x5c] || has_control name
  then Err InvalidArgument else Ok ().

(** ** Records *)

Definition record r id : res WsRecord := ok_or (by_id r !! id) NotFound.

(** [*self.record_mut(&id)? = rec] *)
Definition set_record r id (rec : WsRecord) : Registry := mkRegistry (<[id := rec]> (by_id r)) (by_name r).

Definition set_branches (rec : WsRecord) bs : WsRecord := mkWsRecord (ws_name rec) (facets_of rec) bs (tags rec) (head_of rec).
Definition set_tags (rec : WsRecord) ts : WsRecord := mkWsRecord (ws_name rec) (facets_of rec) (branches rec) ts (head_of rec).

Definition selected r id : res Registry :=
  rec ← record r id;
  Ok (mkRegistry {[id := rec]} {[ws_name rec := id]}).

(** ** Workspaces *)

Definition create_workspace r (name : option bytes) id : res Registry :=
  let name := default DEFAULT_NAME name in
  if bool_decide (is_Some (by_name r !! name)) then Err AlreadyExists
  else if bool_decide (is_Some (by_id r !! id)) then Err AlreadyExists
  else Ok (mkRegistry (<[id := mkWsRecord name ∅ ∅ ∅ DEFAULT_BRANCH]> (by_id r)) (<[name := id]> (by_name r))).

Definition add_facet r id (facet : FacetKind) : res Registry :=
  rec ← record r id;
  Ok (set_record r id (mkWsRecord (ws_name rec) ({[facet]} ∪ facets_of rec) (branches rec) (tags rec) (head_of rec))).

Definition create r (facet : FacetKind) (name : option bytes) id : res Registry :=
  r ← create_workspace r name id;
  add_facet r id facet.

Definition has_facet r id (facet : FacetKind) : res bool :=
  rec ← record r id;
  Ok (bool_decide (facet ∈ facets_of rec)).

(** The workspace of a name, if it has the facet. *)
Definition resolve_typed r name (facet : FacetKind) : res bytes :=
  id ← ok_or (by_name r !! name) NotFound;
  b ← has_facet r id facet;
  if (b : bool) then Ok id else Err NotFound.

Definition resolve r (sel : WsSelector) : res bytes :=
  match sel with
  | SelId id => if bool_decide (is_Some (by_id r !! id)) then Ok id else Err NotFound
  | SelName name => ok_or (by_name r !! name) NotFound
  | SelTyped ty name => resolve_typed r name ty
  | SelDefault facet | SelDefaultFacet facet => resolve_typed r DEFAULT_NAME facet
  end.

Definition open r (sel : WsSelector) : res bytes := resolve r sel.

Definition ensure_for_write r (sel : WsSelector) (new_id : bytes) : res (bytes * Registry) :=
  match resolve r sel with
  | Ok id => Ok (id, r)
  | Err NotFound =>
      match sel with
      | SelDefault facet | SelDefaultFacet facet =>
          match by_name r !! DEFAULT_NAME with
          | Some id => r ← add_facet r id facet; Ok (id, r)
          | None => r ← create r facet None new_id; Ok (new_id, r)
          end
      | SelName name => r ← create_workspace r (Some name) new_id; Ok (new_id, r)
      | SelTyped ty name =>
          match by_name r !! name with
          | Some id => r ← add_facet r id ty; Ok (id, r)
          | None => r ← create r ty (Some name) new_id; Ok (new_id, r)
          end
      | SelId _ => Err NotFound
      end
  | Err e => Err e
  end.

(** In the derived order, which is the order of the declaration. *)
Definition facets_iter (fs : gset FacetKind) : list FacetKind := filter (fun f => f ∈ fs) facet_ALL.

Definition facets r id : res (list FacetKind) := rec ← record r id; Ok (facets_iter (facets_of rec)).

Record WorkspaceInfo : Type := mkWorkspaceInfo {
  info_id : bytes;
  info_name : bytes;
  info_facets : list FacetKind;
  info_head : option Digest;
}.

Definition reg_list r (facet : option FacetKind) : list WorkspaceInfo :=
  map (fun e => mkWorkspaceInfo e.1 (ws_name e.2) (facets_iter (facets_of e.2)) (branches e.2 !! head_of e.2))
    (filter (fun e => match facet with None => true | Some f => bool_decide (f ∈ facets_of e.2) end = true) (btree_iter (by_id r))).

Definition rename r id (new_name : bytes) : res Registry :=
  match by_name r !! new_name with
  | Some existing => if bool_decide (existing = id) then Ok r else Err AlreadyExists
  | None =>
      rec ← record r id;
      Ok (mkRegistry (<[id := mkWsRecord new_name (facets_of rec) (branches rec) (tags rec) (head_of rec)]> (by_id r))
                     (<[new_name := id]> (delete (ws_name rec) (by_name r))))
  end.

Definition reg_delete r id : res Registry :=
  rec ← ok_or (by_id r !! id) NotFound;
  Ok (mkRegistry (delete id (by_id r)) (delete (ws_name rec) (by_name r))).

Definition ws_name_of r id : res bytes := rec ← record r id; Ok (ws_name rec).

Definition supports_branching r id : res bool := rec ← record r id; Ok true.

(** ** HEAD and branches *)

Definition head_branch r id : res bytes := rec ← record r id; Ok (head_of rec).

Definition set_head r id branch : res Registry :=
  _ ← validate_ref_name branch;
  rec ← record r id;
  if negb (bool_decide (branch = DEFAULT_BRANCH)) && negb (bool_decide (is_Some (branches rec !! branch))) then Err NotFound
  else Ok (set_record r id (mkWsRecord (ws_name rec) (facets_of rec) (branches rec) (tags rec) branch)).

Definition branch_tip r id branch : res (option Digest) :=
  _ ← validate_ref_name branch;
  rec ← record r id;
  Ok (branches rec !! branch).

Definition branch_list r id : res (list bytes) := rec ← record r id; Ok (map fst (btree_iter (branches rec))).

Definition branch_create r id name (at_ : Digest) : res Registry :=
  _ ← validate_ref_name name;
  rec ← record r id;
  if bool_decide (is_Some (branches rec !! name)) then Err AlreadyExists
  else Ok (set_record r id (set_branches rec (<[name := at_]> (branches rec)))).

(** [current != expected] compares the bytes of the digests. *)
Definition same_tip (current expected : option Digest) : bool := bool_decide (dbytes <$> current = dbytes <$> expected).

Definition update_branch r id branch (expected : option Digest) (new : Digest) : res Registry :=
  _ ← validate_ref_name branch;
  rec ← record r id;
  if negb (same_tip (branches rec !! branch) expected) then Err CasMismatch
  else Ok (set_record r id (set_branches rec (<[branch := new]> (branches rec)))).

Definition branch_delete r id name : res Registry :=
  _ ← validate_ref_name name;
  rec ← record r id;
  if bool_decide (head_of rec = name) then Err InvalidArgument
  else match branches rec !! name with
  | None => Err NotFound
  | Some _ => Ok (set_record r id (set_branches rec (delete name (branches rec))))
  end.

(** ** Tags *)

Definition tag_create r id name (target : Digest) : res Registry :=
  _ ← validate_ref_name name;
  rec ← record r id;
  if bool_decide (is_Some (tags rec !! name)) then Err AlreadyExists
  else Ok (set_record r id (set_tags rec (<[name := target]> (tags rec)))).

Definition tag_list r id : res (list bytes) := rec ← record r id; Ok (map fst (btree_iter (tags rec))).

Definition tag_target r id name : res (option Digest) :=
  _ ← validate_ref_name name;
  rec ← record r id;
  Ok (tags rec !! name).

Definition tag_delete r id name : res Registry :=
  _ ← validate_ref_name name;
  rec ← record r id;
  match tags rec !! name with
  | None => Err NotFound
  | Some _ => Ok (set_record r id (set_tags rec (delete name (tags rec))))
  end.

Definition tag_rename r id (old new : bytes) : res Registry :=
  _ ← validate_ref_name old;
  _ ← validate_ref_name new;
  rec ← record r id;
  match tags rec !! old with
  | None => Err NotFound
  | Some target =>
      if bool_decide (is_Some (tags rec !! new)) then Err AlreadyExists
      else Ok (set_record r id (set_tags rec (<[new := target]> (delete old (tags rec)))))
  end.

Definition require_same (a b : bytes) : res unit := if bool_decide (a = b) then Ok () else Err CrossWorkspace.

(** ** The stored form *)

Definition refs_map (refs : gmap bytes Digest) : Codec.Value :=
  Codec.Map (map (fun e => (Codec.Text e.1, digest_value e.2)) (btree_iter refs)).

Definition refs_from_map (pairs : list (Codec.Value * Codec.Value)) : res (gmap bytes Digest) :=
  try_fold (fun out kv => k ← as_text kv.1; d ← as_digest kv.2; Ok (<[k := d]> out)) ∅ pairs.

Definition facets_from_array (items : list Codec.Value) : res (gset FacetKind) :=
  try_fold (fun out item => t ← as_text item; f ← facet_parse t; Ok ({[f]} ∪ out)) ∅ items.

Definition id_bytes (raw : bytes) : res bytes :=
  if bool_decide (length raw = 16%nat) then Ok raw else Err CorruptObject.

Definition record_value (e : bytes * WsRecord) : Codec.Value :=
  Codec.Array [Codec.Bytes e.1; Codec.Uint 2; Codec.Text (ws_name e.2);
    Codec.Array (map (fun f => Codec.Text (facet_as_str f)) (facets_iter (facets_of e.2)));
    Codec.Text (head_of e.2); refs_map (branches e.2); refs_map (tags e.2)].

Definition registry_encode r : bytes := cbor_encode (Codec.Array (map record_value (btree_iter (by_id r)))).

Definition decode_record (reg : Registry) (item : Codec.Value) : res Registry :=
  fields ← as_array item;
  '(raw, f) ← fields_bytes fields;
  id ← id_bytes raw;
  if bool_decide (length fields = 7%nat) then
    '(version, f) ← fields_uint f;
    if negb (version =? 2) then Err CorruptObject
    else
      '(name, f) ← fields_text f;
      '(fs, f) ← fields_array f;
      fs ← facets_from_array fs;
      '(head, f) ← fields_text f;
      '(bs, f) ← fields_map f;
      bs ← refs_from_map bs;
      '(ts, f) ← fields_map f;
      ts ← refs_from_map ts;
      _ ← fields_end f;
      if bool_decide (is_Some (by_name reg !! name)) then Err CorruptObject
      else Ok (mkRegistry (<[id := mkWsRecord name fs bs ts head]> (by_id reg)) (<[name := id]> (by_name reg)))
  else Err CorruptObject.

Definition registry_decode (b : bytes) : res Registry :=
  items ← decode_array b;
  try_fold decode_record registry_new items.

End Registry.
