(* ===== verification/RegistryProps.v ===== *)
(** * The workspace registry: invariant, compare-and-swap and round trip

    Every registry that its operations build keeps names unique and [HEAD] attached, a branch moves
    only from the tip its writer saw, and the stored form is read back exactly. *)

From S2P Require Import Prelude Codec Types Workspace Cbor Registry.

Module RegistryProps.
Import Error Digest FacetKind Cbor Registry.

(** ** The invariant *)

(** [HEAD] is attached to a branch that exists, or to the unborn default branch, and every ref has a
    valid name. *)
Definition wf_refs (rec : WsRecord) : Prop :=
  (head_of rec = DEFAULT_BRANCH \/ is_Some (branches rec !! head_of rec)) /\
  (forall n, is_Some (branches rec !! n) -> validate_ref_name n = Ok ()) /\
  (forall n, is_Some (tags rec !! n) -> validate_ref_name n = Ok ()).

(** The index holds exactly the names of the records, so names are unique. *)
Record wf_registry (r : Registry) : Prop := {
  wr_index n id : by_name r !! n = Some id <-> exists rec, by_id r !! id = Some rec /\ ws_name rec = n;
  wr_refs id rec : by_id r !! id = Some rec -> wf_refs rec;
}.

Inductive RegOp : Type :=
| OpCreateWorkspace (name : option bytes) (id : bytes)
| OpCreate (facet : FacetKind) (name : option bytes) (id : bytes)
| OpEnsure (sel : WsSelector) (new_id : bytes)
| OpRename (id new_name : bytes)
| OpDelete (id : bytes)
| OpAddFacet (id : bytes) (facet : FacetKind)
| OpSetHead (id branch : bytes)
| OpBranchCreate (id name : bytes) (at_ : Digest)
| OpUpdateBranch (id branch : bytes) (expected : option Digest) (new : Digest)
| OpBranchDelete (id name : bytes)
| OpTagCreate (id name : bytes) (target : Digest)
| OpTagDelete (id name : bytes)
| OpTagRename (id old new : bytes).

Definition reg_apply (r : Registry) (op : RegOp) : res Registry :=
  match op with
  | OpCreateWorkspace name id => create_workspace r name id
  | OpCreate facet name id => create r facet name id
  | OpEnsure sel new_id => '(_, r) ← ensure_for_write r sel new_id; Ok r
  | OpRename id new_name => rename r id new_name
  | OpDelete id => reg_delete r id
  | OpAddFacet id facet => add_facet r id facet
  | OpSetHead id branch => set_head r id branch
  | OpBranchCreate id name at_ => branch_create r id name at_
  | OpUpdateBranch id branch expected new => update_branch r id branch expected new
  | OpBranchDelete id name => branch_delete r id name
  | OpTagCreate id name target => tag_create r id name target
  | OpTagDelete id name => tag_delete r id name
  | OpTagRename id old new => tag_rename r id old new
  end.

(** A refused operation leaves the registry as it was. *)
Definition reg_step (r : Registry) (op : RegOp) : Registry := match reg_apply r op with Ok r' => r' | Err _ => r end.
Definition reg_run (r : Registry) (ops : list RegOp) : Registry := foldl reg_step r ops.

Lemma record_Ok r id rec : record r id = Ok rec <-> by_id r !! id = Some rec.
Proof. unfold record. destruct (by_id r !! id); simpl; naive_solver. Qed.

Lemma set_record_wf r id rec rec' :
  wf_registry r -> by_id r !! id = Some rec -> ws_name rec' = ws_name rec -> wf_refs rec' -> wf_registry (set_record r id rec').
Proof.
  intros [Hi Hr] Hrec Hn Hw. split; cbn [set_record by_id by_name].
  - intros n id'. rewrite Hi. destruct (decide (id' = id)) as [->|Hne].
    + rewrite lookup_insert_eq. split; [intros (x & Hx & <-)|intros (x & [= <-] & <-)]; naive_solver congruence.
    + by rewrite lookup_insert_ne by done.
  - intros id' x. destruct (decide (id' = id)) as [->|Hne].
    + rewrite lookup_insert_eq. by intros [= <-].
    + rewrite lookup_insert_ne by done. apply Hr.
Qed.

Lemma create_workspace_wf r name id r' : wf_registry r -> create_workspace r name id = Ok r' -> wf_registry r'.
Proof.
  intros [Hi Hr]. unfold create_workspace. set (n := default DEFAULT_NAME name).
  case_bool_decide as Hn; [done|]. case_bool_decide as Hid; [done|]. intros [= <-]. apply eq_None_not_Some in Hn, Hid.
  split; cbn [by_id by_name].
  - intros m id'. destruct (decide (id' = id)) as [->|Hne].
    + rewrite lookup_insert_eq. destruct (decide (m = n)) as [->|Hm]; [rewrite lookup_insert_eq; naive_solver|].
      rewrite lookup_insert_ne, Hi by done. split; [intros (x & Hx & _); congruence|]. intros (x & [= <-] & Hx). by destruct Hm.
    + rewrite (lookup_insert_ne (by_id r)) by done. rewrite <-Hi. destruct (decide (m = n)) as [->|Hm]; [|by rewrite lookup_insert_ne].
      rewrite lookup_insert_eq, Hn. naive_solver.
  - intros id' x. destruct (decide (id' = id)) as [->|Hne].
    + rewrite lookup_insert_eq. intros [= <-]. split_and!; [by left| |]; intros m; cbn [branches tags]; rewrite lookup_empty; by intros [].
    + rewrite lookup_insert_ne by done. apply Hr.
Qed.

Lemma add_facet_wf r id facet r' : wf_registry r -> add_facet r id facet = Ok r' -> wf_registry r'.
Proof.
  intros Hw. unfold add_facet. intros (rec & Hrec%record_Ok & [= <-])%bind_Ok.
  eapply set_record_wf; [done|done|done|]. by apply (wr_refs _ Hw id rec).
Qed.

Lemma create_wf r facet name id r' : wf_registry r -> create r facet name id = Ok r' -> wf_registry r'.
Proof.
  intros Hw (r1 & H1 & H2)%bind_Ok. eapply add_facet_wf; [|done]. by eapply create_workspace_wf.
Qed.

Lemma ensure_for_write_wf r sel new_id id r' : wf_registry r -> ensure_for_write r sel new_id = Ok (id, r') -> wf_registry r'.
Proof.
  intros Hw. unfold ensure_for_write. destruct (resolve r sel) as [x|e]; [by intros [= _ <-]|].
  destruct e; try done. destruct sel as [i|n|f n|f|f]; [done| | | |];
    [|destruct (by_name r !! n)|destruct (by_name r !! DEFAULT_NAME)|destruct (by_name r !! DEFAULT_NAME)];
    intros (r1 & H1 & [= _ <-])%bind_Ok; eauto using create_workspace_wf, create_wf, add_facet_wf.
Qed.

Lemma rename_wf r id new_name r' : wf_registry r -> rename r id new_name = Ok r' -> wf_registry r'.
Proof.
  intros [Hi Hr]. unfold rename. destruct (by_name r !! new_name) as [x|] eqn:E.
  { case_bool_decide; [|done]. by intros [= <-]. }
  intros (rec & Hrec%record_Ok & [= <-])%bind_Ok. split; cbn [by_id by_name].
  - intros n id'. assert (by_name r !! ws_name rec = Some id) as Hold by (apply Hi; eauto).
    destruct (decide (id' = id)) as [->|Hne].
    + rewrite lookup_insert_eq. destruct (decide (n = new_name)) as [->|Hn]; [rewrite lookup_insert_eq; naive_solver|].
      rewrite lookup_insert_ne by done. split; [|naive_solver]. intros Hd.
      apply lookup_delete_Some in Hd as [Hd Hx]. apply Hi in Hx as (y & Hy & <-). congruence.
    + rewrite (lookup_insert_ne (by_id r)) by done. rewrite <-Hi. destruct (decide (n = new_name)) as [->|Hn].
      * rewrite lookup_insert_eq, E. naive_solver.
      * rewrite lookup_insert_ne, lookup_delete_Some by done. split; [by intros [_ ?]|]. intros Hx. split; [|done]. congruence.
  - intros id' x. destruct (decide (id' = id)) as [->|Hne].
    + rewrite lookup_insert_eq. intros [= <-]. apply (Hr id rec Hrec).
    + rewrite lookup_insert_ne by done. apply Hr.
Qed.

Lemma reg_delete_wf r id r' : wf_registry r -> reg_delete r id = Ok r' -> wf_registry r'.
Proof.
  intros [Hi Hr]. unfold reg_delete. intros (rec & Hrec%record_Ok & [= <-])%bind_Ok.
  assert (by_name r !! ws_name rec = Some id) as Hold by (apply Hi; eauto). split; cbn [by_id by_name].
  - intros n id'. rewrite lookup_delete_Some. setoid_rewrite lookup_delete_Some. rewrite Hi. split.
    + intros [Hn (x & Hx & <-)]. exists x. split_and!; try done. intros ->. apply Hn. congruence.
    + intros (x & [Hne Hx] & <-). split; [|by eauto]. intros Hn. apply Hne.
      assert (by_name r !! ws_name x = Some id') as H by (apply Hi; eauto). congruence.
  - intros id' x [_ Hx]%lookup_delete_Some. by eapply Hr.
Qed.

(** A step on the refs of one workspace. *)
Definition refs_step (r : Registry) (id : bytes) (r' : Registry) : Prop :=
  exists rec rec', by_id r !! id = Some rec /\ r' = set_record r id rec' /\
    ws_name rec' = ws_name rec /\ facets_of rec' = facets_of rec /\ (wf_refs rec -> wf_refs rec').

Lemma refs_step_wf r id r' : wf_registry r -> refs_step r id r' -> wf_registry r'.
Proof.
  intros Hw (rec & rec' & Hrec & -> & Hn & _ & Hrefs). eapply set_record_wf; [done|done|done|].
  apply Hrefs. by apply (wr_refs _ Hw id rec).
Qed.

(** Setting and deleting one ref. *)
Lemma insert_valid (m : gmap bytes Digest) name x n :
  validate_ref_name name = Ok () -> (is_Some (m !! n) -> validate_ref_name n = Ok ()) ->
  is_Some (<[name := x]> m !! n) -> validate_ref_name n = Ok ().
Proof. intros Hv Hm. destruct (decide (n = name)) as [->|Hne]; [done|]. by rewrite lookup_insert_ne. Qed.

Lemma delete_valid (m : gmap bytes Digest) name n :
  (is_Some (m !! n) -> validate_ref_name n = Ok ()) -> is_Some (delete name m !! n) -> validate_ref_name n = Ok ().
Proof. intros Hm [x [_ Hx]%lookup_delete_Some]. apply Hm. by eexists. Qed.

Lemma set_branch_refs rec name x : validate_ref_name name = Ok () -> wf_refs rec -> wf_refs (set_branches rec (<[name := x]> (branches rec))).
Proof.
  intros Hv (Hh & Hb & Ht). split_and!; cbn [set_branches head_of branches tags]; [|intros n; apply insert_valid; auto|done].
  destruct Hh as [|Hh]; [by left|right]. destruct (decide (head_of rec = name)) as [->|Hne]; [by rewrite lookup_insert_eq; eexists|].
  by rewrite lookup_insert_ne.
Qed.

(** Opens the guards of a ref operation. *)
Ltac open_ref_op H rec :=
  apply bind_Ok in H as ([] & ? & H); apply bind_Ok in H as (rec & Hrec%record_Ok & H).

Lemma set_head_refs r id branch r' : set_head r id branch = Ok r' -> refs_step r id r'.
Proof.
  intros H. open_ref_op H rec. destruct (negb _ && negb _) eqn:E; [done|]. injection H as <-.
  eexists rec, _. split_and!; try done. intros (Hh & Hb & Ht). split_and!; [|done|done]. cbn [head_of branches].
  apply andb_false_iff in E as [E|E]; apply negb_false_iff, bool_decide_eq_true_1 in E; auto.
Qed.

Lemma branch_create_refs r id name d r' : branch_create r id name d = Ok r' -> refs_step r id r'.
Proof.
  intros H. open_ref_op H rec. case_bool_decide; [done|]. injection H as <-.
  eexists rec, _. split_and!; try done. by apply set_branch_refs.
Qed.

Lemma update_branch_refs r id branch expected new r' : update_branch r id branch expected new = Ok r' -> refs_step r id r'.
Proof.
  intros H. open_ref_op H rec. destruct (same_tip _ _); [|done]. injection H as <-.
  eexists rec, _. split_and!; try done. by apply set_branch_refs.
Qed.

Lemma branch_delete_refs r id name r' : branch_delete r id name = Ok r' -> refs_step r id r'.
Proof.
  intros H. open_ref_op H rec. case_bool_decide as Hh; [done|]. destruct (branches rec !! name); [|done]. injection H as <-.
  eexists rec, _. split_and!; try done. intros (Hd & Hb & Ht). split_and!; cbn [set_branches head_of branches tags]; [|intros n; apply delete_valid; auto|done].
  destruct Hd as [|Hd]; [by left|right]. by rewrite lookup_delete_ne.
Qed.

Lemma set_tags_refs rec ts : (forall n, is_Some (ts !! n) -> validate_ref_name n = Ok ()) -> wf_refs rec -> wf_refs (set_tags rec ts).
Proof. intros Hts (Hh & Hb & _). by split_and!. Qed.

Lemma tag_create_refs r id name d r' : tag_create r id name d = Ok r' -> refs_step r id r'.
Proof.
  intros H. open_ref_op H rec. case_bool_decide; [done|]. injection H as <-. eexists rec, _. split_and!; try done.
  intros Hw. apply set_tags_refs; [|done]. intros n. apply insert_valid; [done|]. apply Hw.
Qed.

Lemma tag_delete_refs r id name r' : tag_delete r id name = Ok r' -> refs_step r id r'.
Proof.
  intros H. open_ref_op H rec. destruct (tags rec !! name); [|done]. injection H as <-. eexists rec, _. split_and!; try done.
  intros Hw. apply set_tags_refs; [|done]. intros n. apply delete_valid. apply Hw.
Qed.

Lemma tag_rename_refs r id old new r' : tag_rename r id old new = Ok r' -> refs_step r id r'.
Proof.
  intros ([] & _ & H)%bind_Ok. open_ref_op H rec. destruct (tags rec !! old); [|done].
  case_bool_decide; [done|]. injection H as <-. eexists rec, _. split_and!; try done.
  intros Hw. apply set_tags_refs; [|done]. intros n. apply insert_valid; [done|]. apply delete_valid. apply Hw.
Qed.

Create HintDb registry.
#[local] Hint Resolve set_head_refs branch_create_refs update_branch_refs branch_delete_refs tag_create_refs tag_delete_refs
  tag_rename_refs create_workspace_wf create_wf add_facet_wf rename_wf reg_delete_wf refs_step_wf : registry.

Lemma reg_apply_wf r op r' : wf_registry r -> reg_apply r op = Ok r' -> wf_registry r'.
Proof.
  intros Hw H. destruct op; cbn [reg_apply] in H; eauto with registry.
  apply bind_Ok in H as ([? ?] & H & [= <-]). by eapply ensure_for_write_wf.
Qed.

Lemma reg_new_wf : wf_registry registry_new.
Proof.
  split; cbn [registry_new by_id by_name]; [|intros id rec; by rewrite lookup_empty].
  intros n id. rewrite lookup_empty. setoid_rewrite lookup_empty. naive_solver.
Qed.

Lemma reg_run_wf r ops : wf_registry r -> wf_registry (reg_run r ops).
Proof.
  revert r. induction ops as [|op ops IH]; intros r Hw; [done|]. apply IH. unfold reg_step.
  destruct (reg_apply r op) eqn:E; [by eapply reg_apply_wf|done].
Qed.

(** ** Isolation *)

(** The workspace an operation is about. *)
Definition op_target (r : Registry) (op : RegOp) : bytes :=
  match op with
  | OpCreateWorkspace _ id | OpCreate _ _ id => id
  | OpEnsure sel new_id =>
      match sel with
      | SelId id => id
      | SelName n | SelTyped _ n => default new_id (by_name r !! n)
      | SelDefault _ | SelDefaultFacet _ => default new_id (by_name r !! DEFAULT_NAME)
      end
  | OpRename id _ | OpDelete id | OpAddFacet id _ | OpSetHead id _ | OpBranchCreate id _ _ | OpUpdateBranch id _ _ _
  | OpBranchDelete id _ | OpTagCreate id _ _ | OpTagDelete id _ | OpTagRename id _ _ => id
  end.

(** [r'] differs from [r] only in the record of [id]. *)
Definition only (r : Registry) (id : bytes) (r' : Registry) : Prop := forall id', id' <> id -> by_id r' !! id' = by_id r !! id'.

Lemma set_record_only r id rec : only r id (set_record r id rec).
Proof. intros id' Hne. cbn [set_record by_id]. by rewrite lookup_insert_ne. Qed.

Lemma refs_step_only r id r' : refs_step r id r' -> only r id r'.
Proof. intros (rec & rec' & _ & -> & _). apply set_record_only. Qed.

Lemma create_workspace_only r name id r' : create_workspace r name id = Ok r' -> only r id r'.
Proof.
  unfold create_workspace. case_bool_decide; [done|]. case_bool_decide; [done|]. intros [= <-] id' Hne. cbn [by_id].
  by rewrite lookup_insert_ne.
Qed.

Lemma add_facet_only r id facet r' : add_facet r id facet = Ok r' -> only r id r'.
Proof. unfold add_facet. intros (rec & _ & [= <-])%bind_Ok. apply set_record_only. Qed.

Lemma create_only r facet name id r' : create r facet name id = Ok r' -> only r id r'.
Proof.
  intros (r1 & H1%create_workspace_only & H2%add_facet_only)%bind_Ok id' Hne. by rewrite H2, H1.
Qed.

Lemma ensure_for_write_only r sel new_id id r' :
  ensure_for_write r sel new_id = Ok (id, r') -> only r (op_target r (OpEnsure sel new_id)) r'.
Proof.
  unfold ensure_for_write. cbn [op_target]. destruct (resolve r sel) as [x|e] eqn:E; [by intros [= _ <-]|].
  destruct e; try done. destruct sel as [i|n|f n|f|f]; [done| | | |];
    [|destruct (by_name r !! n)|destruct (by_name r !! DEFAULT_NAME)|destruct (by_name r !! DEFAULT_NAME)];
    try (intros (r1 & H1 & [= _ <-])%bind_Ok; eauto using create_only, add_facet_only).
  cbn [resolve] in E. unfold ok_or in E. destruct (by_name r !! n); [done|]. by apply create_workspace_only in H1.
Qed.

Lemma rename_only r id new_name r' : rename r id new_name = Ok r' -> only r id r'.
Proof.
  unfold rename. destruct (by_name r !! new_name); [case_bool_decide; [|done]; by intros [= <-]|].
  intros (rec & _ & [= <-])%bind_Ok id' Hne. cbn [by_id]. by rewrite lookup_insert_ne.
Qed.

Lemma reg_delete_only r id r' : reg_delete r id = Ok r' -> only r id r'.
Proof. unfold reg_delete. intros (rec & _ & [= <-])%bind_Ok id' Hne. cbn [by_id]. by rewrite lookup_delete_ne. Qed.

#[local] Hint Resolve refs_step_only create_workspace_only create_only add_facet_only rename_only reg_delete_only : registry.

Lemma reg_apply_only r op r' : reg_apply r op = Ok r' -> only r (op_target r op) r'.
Proof.
  intros H. destruct op; cbn [reg_apply] in H; try (cbn [op_target]; by eauto with registry).
  apply bind_Ok in H as ([? ?] & H & [= <-]). by eapply ensure_for_write_only.
Qed.

(** C18: Whatever sequence of operations built a registry, accepted or refused, its name index holds
    exactly the names of its workspaces, so no two share a name; [HEAD] of every workspace names a
    branch that exists or the unborn default branch; every branch and tag has a valid name; and the
    next operation changes the record of no workspace but its own. *)
Theorem registry_invariant (ops : list RegOp) (op : RegOp) :
  wf_registry (reg_run registry_new ops) /\
  only (reg_run registry_new ops) (op_target (reg_run registry_new ops) op) (reg_run registry_new (ops ++ [op])).
Proof.
  split; [apply reg_run_wf, reg_new_wf|]. unfold reg_run. rewrite foldl_app. cbn [foldl].
  generalize (foldl reg_step registry_new ops). intros r. unfold reg_step.
  destruct (reg_apply r op) eqn:E; [by apply reg_apply_only|]. by intros ? ?.
Qed.

(** ** Compare-and-swap *)

(** Moving a branch succeeds exactly when the workspace exists, the name is valid and the tip is the
    expected one, and then sets that tip alone; a tip that moved since it was read is a conflict and
    changes nothing. *)
Theorem branch_cas r id branch expected new rec :
  validate_ref_name branch = Ok () -> by_id r !! id = Some rec ->
  (dbytes <$> branches rec !! branch = dbytes <$> expected ->
     exists r', update_branch r id branch expected new = Ok r' /\ branch_tip r' id branch = Ok (Some new) /\
       (forall b, b <> branch -> branch_tip r' id b = branch_tip r id b) /\
       (forall t, tag_target r' id t = tag_target r id t) /\ head_branch r' id = head_branch r id /\
       by_name r' = by_name r /\ only r id r') /\
  (dbytes <$> branches rec !! branch <> dbytes <$> expected -> update_branch r id branch expected new = Err CasMismatch).
Proof.
  intros Hv Hrec. unfold update_branch, record. rewrite Hv, Hrec. cbn [mbind result_bind ok_or]. unfold same_tip. split; intros Htip.
  - rewrite bool_decide_eq_true_2 by done. cbn [negb]. eexists. split; [reflexivity|].
    unfold branch_tip, tag_target, head_branch, record. cbn [set_record by_id]. rewrite lookup_insert_eq, Hrec, Hv.
    cbn [mbind result_bind ok_or set_branches branches tags head_of]. rewrite lookup_insert_eq. split_and!; try done.
    + intros b Hb. by rewrite lookup_insert_ne.
    + apply set_record_only.
  - by rewrite bool_decide_eq_false_2.
Qed.

End RegistryProps.
