(* ===== verification/RegistryCodec.v ===== *)
(** * The workspace registry: its stored form is read back

    One record at a time: the decoder inverts the value of a record, and the records rebuild the name
    index. *)

From S2P Require Import Prelude Codec CodecFacts CodecProps Types Workspace Cbor Object ObjectProps Registry RegistryProps.

Module RegistryCodec.
Import Error Digest FacetKind Codec CodecFacts CodecProps Cbor ObjectProps Registry RegistryProps.

(** What the Rust types say of a record: UTF-8 strings and 32-byte digests. *)
Definition typed_refs (refs : gmap bytes Digest) : Prop := map_Forall (fun n d => wf_text n /\ wf_digest d) refs.

Definition typed_record (rec : WsRecord) : Prop :=
  wf_text (ws_name rec) /\ wf_text (head_of rec) /\ typed_refs (branches rec) /\ typed_refs (tags rec).

Definition typed_registry (r : Registry) : Prop := map_Forall (fun id rec => WorkspaceId.wf_id id /\ typed_record rec) (by_id r).

(** Lengths of [u64]. *)
Definition sized_record (rec : WsRecord) : Prop :=
  len (btree_iter (branches rec)) <= u64_max /\ len (btree_iter (tags rec)) <= u64_max.

Definition sized_registry (r : Registry) : Prop :=
  len (btree_iter (by_id r)) <= u64_max /\ map_Forall (fun _ rec => sized_record rec) (by_id r) /\ len (registry_encode r) <= u64_max.

(** Digests are read back with the default algorithm tag. *)
Definition retag_record (rec : WsRecord) : WsRecord :=
  mkWsRecord (ws_name rec) (facets_of rec) (retag <$> branches rec) (retag <$> tags rec) (head_of rec).

Definition retag_registry (r : Registry) : Registry := mkRegistry (retag_record <$> by_id r) (by_name r).

(** ** Tables of refs *)

Definition ref_pair (e : bytes * Digest) : Value * Value := (Text e.1, digest_value e.2).

Lemma ref_keys_encoded l : map (fun kv => encoded kv.1) (map ref_pair l) = (fun s => encoded (Text s)) <$> map fst l.
Proof. unfold fmap. induction l as [|[k v] l IH]; simpl; [done|]. by rewrite <-IH. Qed.

Lemma refs_encodable refs : encodable (refs_map refs) = true.
Proof.
  cbn [encodable refs_map]. apply andb_true_iff. split; [by apply forallb_map_true|].
  apply bool_decide_eq_true. change (fun e : bytes * Digest => (Text e.1, digest_value e.2)) with ref_pair.
  rewrite ref_keys_encoded. apply (NoDup_fmap_2 _), btree_iter_NoDup.
Qed.

Lemma refs_wf refs : typed_refs refs -> len (btree_iter refs) <= u64_max -> wf_value (refs_map refs) = true.
Proof.
  intros Hm Hl. apply wf_Map. unfold len in *. rewrite length_map. split; [done|].
  apply forallb_map_true. intros [k v] Hin%elem_of_btree_iter. destruct (Hm k v Hin). cbn [fst snd].
  by rewrite wf_Text, wf_digest_value.
Qed.

Lemma refs_depth refs : (depth (refs_map refs) <= 1)%nat.
Proof.
  cbn [depth refs_map]. unfold max_list. induction (btree_iter refs) as [|x l IH]; cbn [map fold_right]; [lia|]. simpl in *. lia.
Qed.

Lemma refs_fold m l :
  NoDup (map fst l) -> Forall (fun e => wf_digest e.2) l ->
  try_fold (fun out kv => k ← as_text kv.1; d ← as_digest kv.2; Ok (<[k := d]> out)) m (map ref_pair l)
  = Ok ((list_to_map (prod_map id retag <$> l) : gmap bytes Digest) ∪ m).
Proof.
  revert m. induction l as [|[k d] l IH]; intros m; cbn [map fst try_fold].
  { intros _ _. by rewrite fmap_nil, list_to_map_nil, (left_id_L ∅ (∪)). }
  intros [Hk Hn]%NoDup_cons [Hd Hl]%Forall_cons. cbn [ref_pair fst snd as_text mbind result_bind].
  cbn [snd] in Hd. rewrite as_digest_value by done. cbn [mbind result_bind]. fold ref_pair. rewrite IH by done.
  rewrite fmap_cons. change (prod_map id retag (k, d)) with (k, retag d). rewrite list_to_map_cons. f_equal.
  rewrite <-insert_union_r, insert_union_l; [done|]. apply not_elem_of_list_to_map_1.
  rewrite <-list_fmap_compose. done.
Qed.

Lemma refs_read refs : typed_refs refs -> exists pairs, canon (refs_map refs) = Map pairs /\ refs_from_map pairs = Ok (retag <$> refs).
Proof.
  intros Hm. unfold refs_map. change (fun e : bytes * Digest => (Text e.1, digest_value e.2)) with ref_pair.
  rewrite canon_Map, (sort_by_map (fun e : bytes * Digest => encoded (Text e.1))), map_map by done.
  set (l := sort_by (fun e : bytes * Digest => encoded (Text e.1)) (btree_iter refs)).
  eexists. split; [reflexivity|]. change (map (fun x => canon_pair (ref_pair x)) l) with (map ref_pair l).
  unfold refs_from_map. assert (l ≡ₚ btree_iter refs) as Hp by apply sort_by_perm.
  rewrite refs_fold.
  - rewrite (right_id_L ∅ (∪)). f_equal. rewrite list_to_map_fmap. f_equal.
    rewrite <-(list_to_map_btree_iter refs). apply list_to_map_proper; [|done]. rewrite Hp. apply btree_iter_NoDup.
  - rewrite Hp. apply btree_iter_NoDup.
  - rewrite Hp. apply Forall_forall. intros [k d] Hin%elem_of_btree_iter. by destruct (Hm k d Hin).
Qed.

(** ** Facets *)

Lemma facets_read fs m :
  try_fold (fun out item => t ← as_text item; f ← facet_parse t; Ok ({[f]} ∪ out)) m (map (fun f => Text (facet_as_str f)) fs)
  = Ok ((list_to_set fs : gset FacetKind) ∪ m).
Proof.
  revert m. induction fs as [|f fs IH]; intros m; cbn [map try_fold]; [by rewrite list_to_set_nil, (left_id_L ∅ (∪))|].
  cbn [as_text mbind result_bind]. rewrite (proj2 (WorkspaceFacts.facet_parse _ f) eq_refl). cbn [mbind result_bind].
  rewrite IH, list_to_set_cons. f_equal. set_solver.
Qed.

Lemma facets_iter_set (fs : gset FacetKind) : list_to_set (facets_iter fs) = fs.
Proof.
  apply set_eq. intros f. rewrite elem_of_list_to_set. unfold facets_iter. rewrite list_elem_of_filter.
  split; [by intros [? _]|]. intros H. split; [done|]. destruct f; unfold facet_ALL; set_solver.
Qed.

Lemma facets_iter_len (fs : gset FacetKind) : (length (facets_iter fs) <= 22)%nat.
Proof. unfold facets_iter. etrans; [apply length_filter|done]. Qed.

Lemma facet_text_wf f : wf_value (Text (facet_as_str f)) = true.
Proof. by destruct f. Qed.

(** ** Records *)

Lemma record_encodable e : encodable (record_value e) = true.
Proof.
  unfold record_value. cbn [encodable forallb]. rewrite !refs_encodable. cbn [andb]. rewrite !andb_true_r.
  by apply forallb_map_true.
Qed.

Lemma record_wf id rec : WorkspaceId.wf_id id -> typed_record rec -> sized_record rec -> wf_value (record_value (id, rec)) = true.
Proof.
  intros Hid (Hn & Hh & Hb & Ht) [Hbl Htl]. apply wf_tuple; [simpl; lia|]. cbn [forallb fst snd].
  rewrite !wf_Text, !refs_wf, wf_Uint by (done || by vm_compute). rewrite (wf_items _ (fun _ => True)); cycle 1.
  - intros f _. apply facet_text_wf.
  - pose proof (facets_iter_len (facets_of rec)). unfold len, u64_max. lia.
  - by apply Forall_forall.
  - rewrite !andb_true_r. apply N.leb_le. unfold len. rewrite Hid. by vm_compute.
Qed.

Lemma record_depth e : (depth (record_value e) <= 2)%nat.
Proof.
  pose proof (refs_depth (branches e.2)). pose proof (refs_depth (tags e.2)).
  pose proof (depth_items (fun f => Text (facet_as_str f)) 0 (facets_iter (facets_of e.2)) (fun _ => eq_refl)) as H1.
  unfold record_value. cbn [depth map] in *. unfold max_list in *. cbn [fold_right map id] in *. lia.
Qed.

Lemma record_read reg id rec :
  WorkspaceId.wf_id id -> typed_record rec -> by_name reg !! ws_name rec = None ->
  decode_record reg (canon (record_value (id, rec))) =
  Ok (mkRegistry (<[id := retag_record rec]> (by_id reg)) (<[ws_name rec := id]> (by_name reg))).
Proof.
  intros Hid (Hn & Hh & Hb & Ht) Hnew. destruct (refs_read _ Hb) as (bp & Eb & Rb). destruct (refs_read _ Ht) as (tp & Et & Rt).
  unfold record_value. cbn [canon map fst snd]. fold (refs_map (branches rec)) (refs_map (tags rec)).
  change (Map (map snd (sort_by fst (map (fun kv => (encoded kv.1, (canon kv.1, canon kv.2))) ?l)))) with (canon (Map l)).
  fold (refs_map (branches rec)) (refs_map (tags rec)). rewrite Eb, Et, map_map.
  unfold decode_record. cbn [as_array mbind result_bind]. read_fields.
  unfold id_bytes. rewrite (bool_decide_eq_true_2 (length id = 16%nat)) by done. cbn [mbind result_bind].
  rewrite bool_decide_eq_true_2 by done. change (2 =? 2) with true. cbn [negb canon].
  unfold facets_from_array. rewrite facets_read, facets_iter_set, (right_id_L ∅ (∪)). cbn [mbind result_bind].
  rewrite Rb. cbn [mbind result_bind]. rewrite Rt. cbn [mbind result_bind fields_end].
  rewrite Hnew, bool_decide_eq_false_2 by by intros []. done.
Qed.

(** ** The whole registry *)

Definition name_entry (e : bytes * WsRecord) : bytes * bytes := (ws_name e.2, e.1).

Lemma records_read reg l :
  Forall (fun e => WorkspaceId.wf_id e.1 /\ typed_record e.2) l -> NoDup (map fst l) -> NoDup (map fst (map name_entry l)) ->
  Forall (fun e => by_name reg !! ws_name e.2 = None) l ->
  try_fold decode_record reg (map (fun e => canon (record_value e)) l) =
  Ok (mkRegistry (list_to_map (prod_map id retag_record <$> l) ∪ by_id reg) (list_to_map (map name_entry l) ∪ by_name reg)).
Proof.
  revert reg. induction l as [|[id rec] l IH]; intros reg; cbn [map fst try_fold].
  { intros _ _ _ _. rewrite fmap_nil, !list_to_map_nil, !(left_id_L ∅ (∪)). by destruct reg. }
  intros [[Hid Ht] Hl]%Forall_cons [Hf Hnf]%NoDup_cons [Hn Hnn]%NoDup_cons [Hnew Hrest]%Forall_cons. cbn [fst snd] in *.
  rewrite record_read by done. cbn [mbind result_bind]. rewrite IH; [|done..|]; cbn [by_id by_name].
  - f_equal. rewrite fmap_cons. change (prod_map Datatypes.id retag_record (id, rec)) with (id, retag_record rec).
    change (name_entry (id, rec)) with (ws_name rec, id). rewrite !list_to_map_cons.
    rewrite <-!insert_union_r, !insert_union_l; [done| |].
    + by apply not_elem_of_list_to_map_1.
    + apply not_elem_of_list_to_map_1. by rewrite <-list_fmap_compose.
  - rewrite Forall_forall in Hrest |- *. intros [id' rec'] Hin. rewrite lookup_insert_ne; [by apply Hrest|]. intros E.
    apply Hn. cbn [name_entry fst snd] in *. rewrite E. apply list_elem_of_fmap. exists (name_entry (id', rec')). split; [done|].
    apply list_elem_of_fmap. by exists (id', rec').
Qed.

Lemma names_NoDup r : wf_registry r -> NoDup (map fst (map name_entry (btree_iter (by_id r)))).
Proof.
  intros [Hi _]. rewrite map_map. cbn [name_entry fst]. apply NoDup_fmap_2_strong.
  - intros [id1 x1] [id2 x2] H1%elem_of_btree_iter H2%elem_of_btree_iter E. cbn [snd] in E.
    assert (by_name r !! ws_name x1 = Some id1) as E1 by (apply Hi; eauto).
    assert (by_name r !! ws_name x2 = Some id2) as E2 by (apply Hi; eauto). rewrite E in E1. congruence.
  - eapply (NoDup_fmap_1 fst), btree_iter_NoDup.
Qed.

Lemma names_index r : wf_registry r -> (list_to_map (map name_entry (btree_iter (by_id r))) : gmap bytes bytes) = by_name r.
Proof.
  intros Hw. apply map_eq. intros n. apply option_eq. intros id.
  rewrite <-elem_of_list_to_map by by apply names_NoDup. rewrite (wr_index _ Hw), list_elem_of_fmap. split.
  - intros ([id' rec] & [= -> ->] & Hin%elem_of_btree_iter). eauto.
  - intros (rec & Hin & <-). exists (id, rec). split; [done|]. by apply elem_of_btree_iter.
Qed.

Lemma registry_value_encodes r :
  exists bs, encode (Array (map record_value (btree_iter (by_id r)))) = Ok bs /\ registry_encode r = bs.
Proof.
  pose proof (encode_outcome_all (Array (map record_value (btree_iter (by_id r))))) as Ho. unfold encode_outcome in Ho.
  cbn [encodable] in Ho. rewrite forallb_map_true in Ho by (intros; apply record_encodable).
  eexists. split; [exact Ho|]. unfold registry_encode, cbor_encode. by rewrite Ho.
Qed.

Lemma max_list_bound (ns : list nat) n : Forall (fun x => x <= n)%nat ns -> (max_list ns <= n)%nat.
Proof. induction 1 as [|x ns Hx _ IH]; [simpl; lia|]. change (max_list (x :: ns)) with (Nat.max x (max_list ns)). lia. Qed.

Lemma decode_encode_registry r :
  wf_registry r -> typed_registry r -> sized_registry r -> registry_decode (registry_encode r) = Ok (retag_registry r).
Proof.
  intros Hw Ht (Hl & Hsz & Hlen). destruct (registry_value_encodes r) as (bs & E & Hbs). rewrite Hbs in *.
  set (l := btree_iter (by_id r)) in *. assert (Forall (fun e => WorkspaceId.wf_id e.1 /\ typed_record e.2) l) as Htl.
  { apply Forall_forall. intros [id rec] Hin%elem_of_btree_iter. by apply Ht. }
  assert (wf_value (Array (map record_value l)) = true) as Hwf.
  { eapply (wf_items _ (fun e => (WorkspaceId.wf_id e.1 /\ typed_record e.2) /\ sized_record e.2)); [|done|].
    - intros [id rec] [[? ?] ?]. by apply record_wf.
    - rewrite Forall_forall in Htl |- *. intros [id rec] Hin. split; [by apply Htl|]. apply elem_of_btree_iter in Hin. by apply (Hsz id). }
  assert (depth (Array (map record_value l)) <= MAX_DEPTH)%nat as Hd.
  { trans 3%nat; [|unfold MAX_DEPTH; lia]. cbn [depth]. apply max_list_bound. rewrite !Forall_map. apply Forall_true.
    intros e. pose proof (record_depth e). lia. }
  pose proof (decode_encoding _ bs [] Hwf E) as Hdec. rewrite app_nil_r in Hdec. specialize (Hdec Hlen).
  apply Nat.leb_le in Hd. rewrite Hd, bool_decide_eq_true_2 in Hdec by done.
  unfold registry_decode, decode_array, cbor_decode. rewrite Hdec. cbn [map_err mbind result_bind canon as_array].
  rewrite map_map, records_read; [|done|apply btree_iter_NoDup|by apply names_NoDup|by apply Forall_forall; intros; apply lookup_empty].
  cbn [registry_new by_id by_name]. rewrite !(right_id_L ∅ (∪)). unfold retag_registry. do 2 f_equal; [|by apply names_index].
  subst l. by rewrite list_to_map_fmap, list_to_map_btree_iter.
Qed.

(** ** Typed operations build typed registries *)

Definition typed_sel (sel : WsSelector) : Prop := match sel with SelName n | SelTyped _ n => wf_text n | _ => True end.

Definition typed_op (op : RegOp) : Prop :=
  match op with
  | OpCreateWorkspace name id | OpCreate _ name id => from_option wf_text True name /\ WorkspaceId.wf_id id
  | OpEnsure sel new_id => typed_sel sel /\ WorkspaceId.wf_id new_id
  | OpRename _ new_name => wf_text new_name
  | OpSetHead _ branch => wf_text branch
  | OpBranchCreate _ name d | OpUpdateBranch _ name _ d | OpTagCreate _ name d => wf_text name /\ wf_digest d
  | OpTagRename _ _ new => wf_text new
  | _ => True
  end.

Lemma typed_set r id rec rec' :
  typed_registry r -> by_id r !! id = Some rec -> (typed_record rec -> typed_record rec') -> typed_registry (set_record r id rec').
Proof.
  intros Ht Hrec H. unfold typed_registry. cbn [set_record by_id]. apply map_Forall_insert_2; [|done].
  destruct (Ht id rec Hrec). auto.
Qed.

Lemma typed_new name id r r' :
  from_option wf_text True name -> WorkspaceId.wf_id id -> typed_registry r -> create_workspace r name id = Ok r' -> typed_registry r'.
Proof.
  intros Hn Hid Ht. unfold create_workspace. case_bool_decide; [done|]. case_bool_decide; [done|]. intros [= <-].
  unfold typed_registry. cbn [by_id]. apply map_Forall_insert_2; [|done]. split; [done|].
  split_and!; cbn [ws_name head_of branches tags]; [by destruct name| |apply map_Forall_empty|apply map_Forall_empty].
  by vm_compute.
Qed.

Lemma typed_add_facet r id f r' : typed_registry r -> add_facet r id f = Ok r' -> typed_registry r'.
Proof. intros Ht (rec & Hrec%record_Ok & [= <-])%bind_Ok. by eapply typed_set. Qed.

Lemma typed_create r f name id r' :
  from_option wf_text True name -> WorkspaceId.wf_id id -> typed_registry r -> create r f name id = Ok r' -> typed_registry r'.
Proof. intros Hn Hid Ht (r1 & H1 & H2)%bind_Ok. eapply typed_add_facet; [|done]. by eapply typed_new. Qed.

Lemma typed_ensure r sel new_id id r' :
  typed_sel sel -> WorkspaceId.wf_id new_id -> typed_registry r -> ensure_for_write r sel new_id = Ok (id, r') -> typed_registry r'.
Proof.
  intros Hs Hid Ht. unfold ensure_for_write. destruct (resolve r sel) as [x|e]; [by intros [= _ <-]|].
  destruct e; try done. destruct sel as [i|n|f n|f|f]; [done| | | |];
    [|destruct (by_name r !! n)|destruct (by_name r !! DEFAULT_NAME)|destruct (by_name r !! DEFAULT_NAME)];
    intros (r1 & H1 & [= _ <-])%bind_Ok;
    first [by eapply typed_add_facet | by eapply (typed_create r f None) | by eapply (typed_create r f (Some n)) | by eapply (typed_new (Some n))].
Qed.

Lemma typed_insert refs n d : typed_refs refs -> wf_text n /\ wf_digest d -> typed_refs (<[n := d]> refs).
Proof. intros Ht H. by apply map_Forall_insert_2. Qed.

Lemma typed_delete refs n : typed_refs refs -> typed_refs (delete n refs).
Proof. apply map_Forall_delete. Qed.

#[local] Hint Resolve typed_insert typed_delete : registry.

(** An operation on the refs of one record. *)
Ltac typed_ref_op H :=
  repeat match type of H with
  | mbind _ (validate_ref_name _) = Ok _ => apply bind_Ok in H as ([] & _ & H)
  | mbind _ (record _ _) = Ok _ => let x := fresh "rec" in let Hx := fresh "Hrec" in apply bind_Ok in H as (x & Hx%record_Ok & H)
  | (if ?b then _ else _) = Ok _ => destruct b; try done
  | match ?o with Some _ => _ | None => _ end = Ok _ => destruct o eqn:?; try done
  end;
  injection H as <-; eapply typed_set; [done|done|]; intros (? & ? & ? & ?);
  split_and!; cbn [set_branches set_tags ws_name head_of branches tags]; try done; eauto with registry.

Lemma reg_apply_typed r op r' : typed_op op -> typed_registry r -> reg_apply r op = Ok r' -> typed_registry r'.
Proof.
  intros Hop Ht H. destruct op as [name id|f name id|sel new_id|id n|id|id f|id b|id n d|id b e d|id n|id n d|id n|id o n]; cbn [reg_apply typed_op] in *.
  - destruct Hop. by eapply (typed_new name).
  - destruct Hop. by eapply (typed_create r f name).
  - destruct Hop. apply bind_Ok in H as ([? ?] & H & [= <-]). by eapply typed_ensure.
  - unfold rename in H. destruct (by_name r !! n); [case_bool_decide; [|done]; by injection H as <-|].
    apply bind_Ok in H as (rec & Hrec%record_Ok & [= <-]). unfold typed_registry. cbn [by_id]. apply map_Forall_insert_2; [|done].
    destruct (Ht id rec Hrec) as [? (? & ? & ? & ?)]. by split_and!.
  - apply bind_Ok in H as (rec & _ & [= <-]). unfold typed_registry. cbn [by_id]. by apply map_Forall_delete.
  - by eapply typed_add_facet.
  - unfold set_head in H. typed_ref_op H.
  - unfold branch_create in H. typed_ref_op H.
  - unfold update_branch in H. typed_ref_op H.
  - unfold branch_delete in H. typed_ref_op H.
  - unfold tag_create in H. typed_ref_op H.
  - unfold tag_delete in H. typed_ref_op H.
  - unfold tag_rename in H. typed_ref_op H. apply typed_insert; [by apply typed_delete|]. split; [done|]. by eapply (H2 o).
Qed.

Lemma reg_run_typed r ops : Forall typed_op ops -> typed_registry r -> typed_registry (reg_run r ops).
Proof.
  intros Hops. revert r. induction Hops as [|op ops Hop _ IH]; intros r Ht; [done|]. apply IH. unfold reg_step.
  destruct (reg_apply r op) eqn:E; [by eapply reg_apply_typed|done].
Qed.

(** Every registry that its operations build from the empty one, with texts that are UTF-8, 16-byte
    ids and 32-byte digests, is restored exactly from its stored form: each workspace with its name,
    facets, [HEAD], branches and tags, and the name index (a digest is read back with the default
    algorithm tag). *)
Theorem registry_roundtrip (ops : list RegOp) :
  Forall typed_op ops -> sized_registry (reg_run registry_new ops) ->
  registry_decode (registry_encode (reg_run registry_new ops)) = Ok (retag_registry (reg_run registry_new ops)).
Proof.
  intros Hops Hs. apply decode_encode_registry; [apply reg_run_wf, reg_new_wf| |done].
  apply reg_run_typed; [done|]. apply map_Forall_empty.
Qed.

(** ** An example *)

Definition ws1 : bytes := repeat x07 16.
Definition demo_tip : Digest := mkDigest Blake3 (repeat x09 32).
Definition demo_ops : list RegOp :=
  [OpEnsure (SelTyped Sql (str "books")) ws1; OpUpdateBranch ws1 (str "main") None demo_tip;
   OpBranchCreate ws1 (str "dev") demo_tip; OpSetHead ws1 (str "dev"); OpTagCreate ws1 (str "v1") demo_tip].

Lemma registry_roundtrip_witness :
  registry_decode (registry_encode (reg_run registry_new demo_ops)) = Ok (retag_registry (reg_run registry_new demo_ops)).
Proof.
  apply (registry_roundtrip demo_ops).
  - assert (wf_digest demo_tip) by done. assert (forall s, s ∈ [str "books"; str "main"; str "dev"; str "v1"] -> wf_text s) as Ht.
    { intros s. rewrite !elem_of_cons, elem_of_nil. intros [->|[->|[->|[->|[]]]]]; by split; vm_compute. }
    unfold demo_ops. rewrite !Forall_cons. split_and!; cbn [typed_op typed_sel]; [split| | | | |apply Forall_nil_2];
      try (split; [|done]); try (apply Ht; set_solver); done.
  - unfold sized_registry. split_and!; [by vm_compute| |by vm_compute].
    assert (forallb (fun e => bool_decide (sized_record e.2)) (btree_iter (by_id (reg_run registry_new demo_ops))) = true) as H
      by (vm_compute; reflexivity).
    rewrite forallb_forall in H. intros id rec Hin%elem_of_btree_iter%list_elem_of_In%H. by apply bool_decide_eq_true_1 in Hin.
Defined.

Lemma branch_cas_witness :
  exists r', update_branch (reg_run registry_new demo_ops) ws1 (str "main") (Some demo_tip) (mkDigest Blake3 (repeat x0a 32)) = Ok r' /\
    branch_tip r' ws1 (str "main") = Ok (Some (mkDigest Blake3 (repeat x0a 32))).
Proof.
  set (rec := mkWsRecord (str "books") {[Sql]} {[str "main" := demo_tip; str "dev" := demo_tip]} {[str "v1" := demo_tip]} (str "dev")).
  destruct (branch_cas (reg_run registry_new demo_ops) ws1 (str "main") (Some demo_tip) (mkDigest Blake3 (repeat x0a 32)) rec) as [H _].
  - by vm_compute.
  - by vm_compute.
  - destruct H as (r' & H1 & H2 & _); [by vm_compute|]. exists r'. exact (conj H1 H2).
Defined.

End RegistryCodec.
