(* ===== verification/VcsHistory.v ===== *)
(** * Version control: commit history (crates/loom-core/src/vcs/objects.rs, vcs/merge.rs, vcs/diff.rs, vcs.rs)

    Ancestors, merge bases and logs walk the commits of a store; three-way merges and changes compare
    working trees. Digests compare by their bytes, so a set of digests is the set of their bytes. *)

From S2P Require Import Prelude Codec Types Object ObjectProps Store VcsTree VcsTreeProps VcsPath.

Module VcsHistory.
Import Error Digest Object Store VcsTree VcsTreeProps.

(** ** Slots *)

#[global] Instance staged_file_eq_dec : EqDecision StagedFile.
Proof. solve_decision. Defined.

#[global] Instance staged_entry_eq_dec : EqDecision StagedEntry.
Proof. solve_decision. Defined.

(** [PartialEq] of slots: digests by their bytes. *)
Definition slot_eqb (x y : option StagedEntry) : bool := bool_decide (retag_staged <$> x = retag_staged <$> y).

Definition staged_rank (e : StagedEntry) : N :=
  match e with
  | SFile _ => 0 | STable _ => 1 | SStream _ => 2 | STimeSeries _ => 3 | SGraph _ => 4 | SLedger _ => 5
  | SColumnar _ => 6 | SDocument _ => 7
  end.

(** The derived [Ord]: by variant, then by address, then by mode. *)
Definition staged_lt (x y : StagedEntry) : bool :=
  match staged_rank x ?= staged_rank y with
  | Lt => true
  | Gt => false
  | Eq =>
      match cmp_bytes (dbytes (staged_addr x)) (dbytes (staged_addr y)) with
      | Lt => true
      | Gt => false
      | Eq => staged_mode x <? staged_mode y
      end
  end.

(** [Ord::min] *)
Definition staged_min (x y : StagedEntry) : StagedEntry := if staged_lt y x then y else x.

(** ** Comparing working trees *)

Inductive ChangeKind : Type := Added | Modified | Deleted.

Record Change : Type := mkChange { change_path : bytes; change_kind : ChangeKind }.

(** The keys of both, in order. *)
Definition both_paths (x y : WorkTree) : list bytes := set_iter (dom x ∪ dom y).

Definition change_at (from to : WorkTree) (path : bytes) : option Change :=
  match from !! path, to !! path with
  | None, Some _ => Some (mkChange path Added)
  | Some _, None => Some (mkChange path Deleted)
  | Some a, Some b => if slot_eqb (Some a) (Some b) then None else Some (mkChange path Modified)
  | None, None => None
  end.

Definition worktree_changes (from to : WorkTree) : list Change := omap (change_at from to) (both_paths from to).

(** [match v { Some(v) => m.insert(path, v), None => m.remove(path) }] *)
Definition put_slot (path : bytes) (v : option StagedEntry) (m : WorkTree) : WorkTree :=
  match v with Some v => <[path := v]> m | None => delete path m end.

Definition three_way_merge_files (base ours theirs : WorkTree) : WorkTree * list bytes :=
  foldl (fun '(merged, conflicts) path =>
    let b := base !! path in let o := ours !! path in let t := theirs !! path in
    if slot_eqb o t then (merged, conflicts)
    else if slot_eqb b o then (put_slot path t merged, conflicts)
    else if slot_eqb b t then (merged, conflicts)
    else (merged, conflicts ++ [path])) (ours, []) (both_paths ours theirs).

(** The pick of [reduce_bases] for a conflicting path. *)
Definition base_pick (o t : option StagedEntry) : option StagedEntry :=
  match o, t with
  | Some o, Some t => Some (staged_min o t)
  | Some o, None => Some o
  | None, t => t
  end.

Section Ops.
Context `{hasher : Hasher} {S : Type} `{ops : !ObjectStore S}.

(** ** Ancestors *)

(** The queue in order; [fuel] bounds the digests taken from it. *)
Fixpoint ancestors_walk (fuel : nat) (store : S) (queue : list Digest) (seen : gset bytes) : option (res (gset bytes)) :=
  match queue with
  | [] => Some (Ok seen)
  | d :: queue =>
      match fuel with
      | O => None
      | Datatypes.S fuel =>
          if bool_decide (dbytes d ∈ seen) then ancestors_walk fuel store queue seen
          else
            c ⇠ Some (get_commit store d);
            ancestors_walk fuel store (queue ++ c_parents c) ({[dbytes d]} ∪ seen)
      end
  end.

Definition ancestors (fuel : nat) (store : S) (start : Digest) : option (res (gset bytes)) :=
  ancestors_walk fuel store [start] ∅.

Definition is_ancestor (fuel : nat) (store : S) (a b : Digest) : option (res bool) :=
  seen ⇠ ancestors fuel store b;
  Some (Ok (bool_decide (dbytes a ∈ seen))).

(** ** Merge bases *)

Definition merge_base_set (fuel : nat) (store : S) (a b : Digest) : option (res (list Digest)) :=
  aa ⇠ ancestors fuel store a;
  bb ⇠ ancestors fuel store b;
  let common := aa ∩ bb in
  if bool_decide (common = ∅) then Some (Ok [])
  else
    dominated ⇠ run_fold (fun dominated c =>
        below ⇠ ancestors fuel store (from_blake3_bytes c);
        Some (Ok (dominated ∪ filter (fun other => other <> c /\ other ∈ common) below))) (∅ : gset bytes) (set_iter common);
    Some (Ok (map from_blake3_bytes (set_iter (common ∖ dominated)))).

(** [min] of a list already in order. *)
Definition merge_base (fuel : nat) (store : S) (a b : Digest) : option (res (option Digest)) :=
  l ⇠ merge_base_set fuel store a b; Some (Ok (head l)).

(** [sort] and [dedup]. *)
Definition sort_digests (ds : list Digest) : list bytes := set_iter (list_to_set (map dbytes ds)).

(** [fuel] also bounds the nesting of bases of bases. *)
Fixpoint reduce_bases (fuel : nat) (store : S) (bases : list Digest) : option (res (WorkTree * gset bytes)) :=
  match fuel with
  | O => None
  | Datatypes.S fuel' =>
      match sort_digests bases with
      | [] => Some (Ok (∅, ∅))
      | first :: rest =>
          acc ⇠ flatten_commit fuel store (from_blake3_bytes first);
          r ⇠ run_fold (fun '(acc_files, acc_dirs, folded) next =>
              inner ⇠ run_fold (fun inner f =>
                  bs ⇠ merge_base_set fuel store (from_blake3_bytes f) (from_blake3_bytes next);
                  Some (Ok (inner ∪ list_to_set (map dbytes bs)))) (∅ : gset bytes) folded;
              inner_acc ⇠ reduce_bases fuel' store (map from_blake3_bytes (set_iter inner));
              next_acc ⇠ flatten_commit fuel store (from_blake3_bytes next);
              let '(merged, conflicts) := three_way_merge_files inner_acc.1 acc_files next_acc.1 in
              let merged := foldl (fun m path => put_slot path (base_pick (acc_files !! path) (next_acc.1 !! path)) m) merged conflicts in
              Some (Ok (merged, acc_dirs ∪ next_acc.2, folded ++ [next]))) (acc.1, acc.2, [first]) rest;
          Some (Ok (r.1.1, r.1.2))
      end
  end.

(** ** Logs *)

(** [fuel] bounds the length of the first-parent chain. *)
Fixpoint log_walk (fuel : nat) (store : S) (out : list Digest) (cur : option Digest) : option (res (list Digest)) :=
  match cur with
  | None => Some (Ok out)
  | Some d =>
      match fuel with
      | O => None
      | Datatypes.S fuel =>
          c ⇠ Some (get_commit store d);
          log_walk fuel store (out ++ [d]) (head (c_parents c))
      end
  end.

Definition log_from (fuel : nat) (store : S) (tip : option Digest) : option (res (list Digest)) := log_walk fuel store [] tip.

(** One commit of the log in [blame]: the paths it claims. *)
Definition claim (remaining : gset bytes) (c_files p_files : WorkTree) : gset bytes :=
  filter (fun path => path ∈ remaining /\ slot_eqb (p_files !! path) (c_files !! path) = false) (dom c_files).

(** The loop stops when every path is claimed. *)
Fixpoint blame_loop (fuel : nat) (store : S) (log : list Digest) (remaining : gset bytes) (blame : gmap bytes Digest)
    : option (res (gmap bytes Digest)) :=
  match log with
  | [] => Some (Ok blame)
  | c :: log =>
      if bool_decide (remaining = ∅) then Some (Ok blame)
      else
        c_files ⇠ flatten_commit fuel store c;
        p_files ⇠ match log with
                   | p :: _ => flatten_commit fuel store p
                   | [] => Some (Ok (∅, ∅))
                   end;
        let claimed := claim remaining c_files.1 p_files.1 in
        blame_loop fuel store log (remaining ∖ claimed) (set_to_map (fun path => (path, c)) claimed ∪ blame)
  end.

Definition blame (fuel : nat) (store : S) (log : list Digest) : option (res (list (bytes * Digest))) :=
  match log with
  | [] => Some (Ok [])
  | tip :: _ =>
      current ⇠ flatten_commit fuel store tip;
      b ⇠ blame_loop fuel store log (dom current.1) ∅;
      let oldest := default tip (last log) in
      Some (Ok (map (fun path => (path, default oldest (b !! path))) (set_iter (dom current.1))))
  end.

(** The changes between two commits. *)
Definition diff_trees (fuel : nat) (store : S) (from to : Digest) : option (res (list Change)) :=
  f ⇠ flatten_commit fuel store from;
  t ⇠ flatten_commit fuel store to;
  Some (Ok (worktree_changes f.1 t.1)).
End Ops.

End VcsHistory.

(** * Version control: what the history walks compute

    The ancestors of a commit are the commits its parent links reach; the merge bases of two commits
    are their maximal common ancestors; a three-way merge takes the one side that changed. *)

Module VcsHistoryProps.
Import Error Digest Object Store VcsTree VcsTreeProps VcsHistory.

Section History.
Context `{hasher : Hasher} {S : Type} `{ops : !ObjectStore S}.
Implicit Types (s : S) (H : gmap bytes (list bytes)).

(** ** Histories *)

(** The commits of a store that a walk can reach, with the bytes of their parents. *)
Definition history s H : Prop :=
  map_Forall (fun b ps => (exists c, (forall d, dbytes d = b -> get_commit s d = Ok c) /\ map dbytes (c_parents c) = ps)
    /\ Forall (fun p => is_Some (H !! p)) ps) H.

Definition parent H (b p : bytes) : Prop := exists ps, H !! b = Some ps /\ p ∈ ps.

(** [x] is [y] or one of its ancestors. *)
Definition ancestor H (x y : bytes) : Prop := rtc (parent H) y x.

(** The parent links not yet followed. *)
Definition links (seen : gset bytes) (e : bytes * list bytes) : nat := if decide (e.1 ∈ seen) then O else length e.2.
Definition pending H (seen : gset bytes) : nat := sum_list (map (links seen) (map_to_list H)).

(** Enough for a walk over the whole history. *)
Definition walk_cost H : nat := Datatypes.S (pending H ∅).

Lemma sum_list_perm (xs ys : list nat) : xs ≡ₚ ys -> sum_list xs = sum_list ys.
Proof. induction 1; simpl in *; lia. Qed.

Lemma pending_see H seen b ps :
  H !! b = Some ps -> b ∉ seen -> (pending H ({[b]} ∪ seen) + length ps)%nat = pending H seen.
Proof.
  intros Hb Hn. assert (forall X, pending H X = (links X (b, ps) + sum_list (map (links X) (map_to_list (delete b H))))%nat) as E.
  { intros X. unfold pending. rewrite <-(insert_delete_id H b ps) at 1 by done.
    by rewrite (sum_list_perm _ _ (Permutation_map _ (map_to_list_insert _ _ _ (lookup_delete_eq H b)))). }
  rewrite !E. unfold links at 1 3. cbn [fst snd]. rewrite decide_True, decide_False by set_solver.
  assert (map (links ({[b]} ∪ seen)) (map_to_list (delete b H)) = map (links seen) (map_to_list (delete b H))) as ->; [|lia].
  apply map_ext_in. intros [x ps'] Hin%list_elem_of_In%elem_of_map_to_list. unfold links. cbn [fst snd]. apply decide_ext.
  apply lookup_delete_Some in Hin as [Hne _]. set_solver.
Qed.

(** ** The walk *)

(** What the loop keeps: every commit seen has its parents seen or queued, and everything seen or
    queued is an ancestor of the start. *)
Record walking H (start : bytes) (queue : list bytes) (seen : gset bytes) : Prop := {
  wk_start : start ∈ seen \/ start ∈ queue;
  wk_known : Forall (fun p => is_Some (H !! p)) queue;
  wk_closed b p : b ∈ seen -> parent H b p -> p ∈ seen \/ p ∈ queue;
  wk_anc b : b ∈ seen \/ b ∈ queue -> ancestor H b start;
}.

Lemma closed_reaches H (start x : bytes) (X : gset bytes) :
  start ∈ X -> (forall b p, b ∈ X -> parent H b p -> p ∈ X) -> ancestor H x start -> x ∈ X.
Proof. intros Hs Hc Hx. induction Hx as [y|y z x Hyz _ IH]; [done|]. apply IH. by eapply Hc. Qed.

Lemma walk_spec s H start fuel queue seen :
  history s H -> walking H start (map dbytes queue) seen -> (length queue + pending H seen <= fuel)%nat ->
  exists X, ancestors_walk fuel s queue seen = Some (Ok X) /\ forall x, x ∈ X <-> ancestor H x start.
Proof.
  intros HH. revert queue seen. induction fuel as [|fuel IH]; intros queue seen [Hst Hk Hc Ha] Hf.
  all: destruct queue as [|d queue]; cbn [ancestors_walk map length] in *.
  1, 3: exists seen; split; [done|]; intros x; split; [by intros Hx; apply Ha; left|]; apply closed_reaches;
        [by destruct Hst as [?|?%not_elem_of_nil]|intros b p Hb Hp; by destruct (Hc b p Hb Hp) as [?|?%not_elem_of_nil]].
  - lia.
  - apply Forall_cons in Hk as [[ps Hps] Hk]. case_bool_decide as Hd.
    + apply IH; [|lia]. split; [set_solver|done| |].
      * intros b p Hb Hp. destruct (Hc b p Hb Hp) as [?|?]; set_solver.
      * intros b Hb. apply Ha. set_solver.
    + destruct (HH _ _ Hps) as [(c & Hget & Hpar) Hpk]. rewrite (Hget d eq_refl). cbn [run_bind].
      apply IH.
      * rewrite map_app, Hpar. split.
        -- set_solver.
        -- apply Forall_app. by split.
        -- intros b p [->%elem_of_singleton|Hb]%elem_of_union Hp.
           ++ destruct Hp as (ps' & Hps' & Hp). rewrite Hps in Hps'. injection Hps' as <-. set_solver.
           ++ destruct (Hc b p Hb Hp) as [?|?]; set_solver.
        -- intros b Hb. assert ((b ∈ seen \/ b ∈ dbytes d :: map dbytes queue) \/ b ∈ ps) as [Hb'|Hb'] by set_solver; [by apply Ha|].
           unfold ancestor. eapply rtc_r; [apply (Ha (dbytes d)); set_solver|]. exists ps. done.
      * pose proof (pending_see H seen (dbytes d) ps Hps Hd) as Hp. rewrite length_app.
        assert (length (c_parents c) = length ps) as -> by by rewrite <-Hpar, length_map. lia.
Qed.

Lemma ancestors_spec s H fuel d :
  history s H -> is_Some (H !! dbytes d) -> (walk_cost H <= fuel)%nat ->
  exists X, ancestors fuel s d = Some (Ok X) /\ forall x, x ∈ X <-> ancestor H x (dbytes d).
Proof.
  intros HH Hd Hf. apply (walk_spec s H (dbytes d) fuel [d] ∅ HH); [|done]. split; [set_solver| |set_solver|].
  - by apply Forall_singleton.
  - intros b [?%elem_of_empty|Hb]; [done|]. cbn [map] in Hb. apply list_elem_of_singleton in Hb as ->. apply rtc_refl.
Qed.

Lemma ancestor_known s H x y : history s H -> is_Some (H !! y) -> ancestor H x y -> is_Some (H !! x).
Proof.
  intros HH Hy Hx. induction Hx as [y|y z x Hyz Hz IH]; [done|]. apply IH. destruct Hyz as (ps & Hps & Hin).
  destruct (HH _ _ Hps) as [_ Hk]. rewrite Forall_forall in Hk. by apply Hk.
Qed.

(** ** Merge bases *)

Definition common_ancestor H (a b x : bytes) : Prop := ancestor H x a /\ ancestor H x b.

(** Dominated by another common ancestor. *)
Definition dominated H (a b x : bytes) : Prop := exists y, common_ancestor H a b y /\ x <> y /\ ancestor H x y.

Lemma dominated_loop s H (fuel : nat) (cs : list bytes) (common acc : gset bytes) :
  history s H -> (walk_cost H <= fuel)%nat -> Forall (fun c => is_Some (H !! c)) cs ->
  exists D, run_fold (fun dominated c =>
      below ⇠ ancestors fuel s (from_blake3_bytes c);
      Some (Ok (dominated ∪ filter (fun other => other <> c /\ other ∈ common) below))) acc cs = Some (Ok D) /\
    forall x, x ∈ D <-> x ∈ acc \/ exists c, c ∈ cs /\ x <> c /\ x ∈ common /\ ancestor H x c.
Proof.
  intros HH Hf Hcs. revert acc. induction Hcs as [|c cs Hc _ IH]; intros acc; cbn [run_fold].
  { exists acc. split; [done|]. intros x. split; [by left|]. by intros [?|(c & ?%not_elem_of_nil & _)]. }
  destruct (ancestors_spec s H fuel (from_blake3_bytes c) HH Hc Hf) as (X & -> & HX). cbn [run_bind].
  destruct (IH (acc ∪ filter (fun other => other <> c /\ other ∈ common) X)) as (D & -> & HD). exists D. split; [done|].
  intros x. rewrite HD, elem_of_union, elem_of_filter, HX. cbn [dbytes from_blake3_bytes]. setoid_rewrite elem_of_cons. naive_solver.
Qed.

Lemma set_iter_elem (X : gset bytes) x : x ∈ set_iter X <-> x ∈ X.
Proof. by rewrite set_iter_perm, elem_of_elements. Qed.

Lemma set_iter_sorted (X : gset bytes) : sorted_by id (set_iter X).
Proof.
  apply sorted_by_no_dup; [apply sort_by_sorted|]. apply adjacent_dup_sort. rewrite map_id. apply NoDup_elements.
Qed.

Lemma map_dbytes_from (l : list bytes) : map dbytes (map from_blake3_bytes l) = l.
Proof. rewrite map_map. apply map_id. Qed.

Lemma merge_base_set_spec s H (fuel : nat) (a b : Digest) :
  history s H -> is_Some (H !! dbytes a) -> is_Some (H !! dbytes b) -> (walk_cost H <= fuel)%nat ->
  exists B : gset bytes, merge_base_set fuel s a b = Some (Ok (map from_blake3_bytes (set_iter B))) /\
    (forall x, x ∈ B <-> common_ancestor H (dbytes a) (dbytes b) x /\ ~ dominated H (dbytes a) (dbytes b) x) /\
    (forall x, common_ancestor H (dbytes a) (dbytes b) x -> x ∈ B \/ dominated H (dbytes a) (dbytes b) x).
Proof.
  intros HH Ha Hb Hf. unfold merge_base_set.
  destruct (ancestors_spec s H fuel a HH Ha Hf) as (A & -> & HA). destruct (ancestors_spec s H fuel b HH Hb Hf) as (B & -> & HB).
  cbn [run_bind]. assert (forall x, x ∈ A ∩ B <-> common_ancestor H (dbytes a) (dbytes b) x) as Hcommon.
  { intros x. by rewrite elem_of_intersection, HA, HB. }
  case_bool_decide as Hempty.
  - exists ∅. assert (forall x, ~ common_ancestor H (dbytes a) (dbytes b) x) as Hno by (intros x; rewrite <-Hcommon, Hempty; set_solver).
    split_and!; [done| |]; intros x; [|by intros ?%Hno]. split; [by intros ?%elem_of_empty|by intros [?%Hno _]].
  - destruct (dominated_loop s H fuel (set_iter (A ∩ B)) (A ∩ B) ∅ HH Hf) as (D & -> & HD).
    { apply Forall_forall. intros x [Hx _]%set_iter_elem%Hcommon. exact (ancestor_known s H x (dbytes a) HH Ha Hx). }
    cbn [run_bind]. exists ((A ∩ B) ∖ D).
    assert (forall x, common_ancestor H (dbytes a) (dbytes b) x -> x ∈ D <-> dominated H (dbytes a) (dbytes b) x) as HD'.
    { intros x Hx. rewrite HD. setoid_rewrite set_iter_elem. setoid_rewrite Hcommon. unfold dominated. set_solver. }
    split_and!; [done| |]; intros x; rewrite elem_of_difference, Hcommon.
    + split; intros [Hx Hd]; (split; [done|]); [by rewrite <-HD'|by rewrite HD'].
    + intros Hx. destruct (decide (x ∈ D)) as [Hd|Hd]; [right; by apply HD'|by left].
Qed.

(** Parents come before their children. *)
Definition acyclic H : Prop := exists rank : bytes -> nat, forall b p, parent H b p -> (rank p < rank b)%nat.

Lemma ancestor_rank H rank x y :
  (forall b p, parent H b p -> (rank p < rank b)%nat) -> ancestor H x y -> x = y \/ (rank x < rank y)%nat.
Proof. intros Hr Hx. induction Hx as [y|y z x Hyz _ IH]; [by left|]. right. apply Hr in Hyz. destruct IH as [->|?]; lia. Qed.

(** Following dominating ancestors ends at a base. *)
Lemma below_base H (a b x : bytes) (B : gset bytes) :
  acyclic H -> (forall x, x ∈ B <-> common_ancestor H a b x /\ ~ dominated H a b x) -> common_ancestor H a b x ->
  (forall x, common_ancestor H a b x -> x ∈ B \/ dominated H a b x) ->
  exists y, y ∈ B /\ ancestor H x y.
Proof.
  intros [rank Hr] HB Hx Hdec. remember (rank a - rank x)%nat as n eqn:En. revert x Hx En.
  induction (lt_wf n) as [n _ IH]. intros x Hx En. destruct (Hdec x Hx) as [Hin|(y & Hy & Hne & Hxy)].
  { exists x. split; [done|apply rtc_refl]. }
  pose proof (ancestor_rank H rank x y Hr Hxy) as [?|Hlt]; [done|].
  pose proof (ancestor_rank H rank y a Hr (proj1 Hy)) as Hya.
  destruct (IH (rank a - rank y)%nat) with (x := y) as (z & Hz & Hyz); [|done|done|].
  { subst n. destruct Hya as [->|?]; lia. }
  exists z. split; [done|]. unfold ancestor. by etrans.
Qed.

(** C12: The walk over parent links ends and decides ancestry, and the merge bases of two commits of an
    acyclic history are, in order and once each, exactly the common ancestors that are not ancestors
    of another common ancestor; every common ancestor is an ancestor of one of them. *)
Theorem merge_bases s H (fuel : nat) (a b : Digest) :
  history s H -> acyclic H -> is_Some (H !! dbytes a) -> is_Some (H !! dbytes b) -> (walk_cost H <= fuel)%nat ->
  (exists r, is_ancestor fuel s a b = Some (Ok r) /\ (r = true <-> ancestor H (dbytes a) (dbytes b))) /\
  exists l, merge_base_set fuel s a b = Some (Ok l) /\ sorted_by dbytes l /\
    (forall x, x ∈ map dbytes l <-> common_ancestor H (dbytes a) (dbytes b) x /\
       (forall y, common_ancestor H (dbytes a) (dbytes b) y -> ancestor H x y -> x = y)) /\
    (forall x, common_ancestor H (dbytes a) (dbytes b) x -> exists y, y ∈ map dbytes l /\ ancestor H x y).
Proof.
  intros HH Hac Ha Hb Hf. split.
  - unfold is_ancestor. destruct (ancestors_spec s H fuel b HH Hb Hf) as (X & -> & HX). cbn [run_bind]. eexists. split; [done|].
    by rewrite bool_decide_eq_true, HX.
  - destruct (merge_base_set_spec s H fuel a b HH Ha Hb Hf) as (B & -> & HB & Hdec). eexists. split; [done|].
    assert (forall x, x ∈ map dbytes (map from_blake3_bytes (set_iter B)) <-> x ∈ B) as Hin.
    { intros x. by rewrite map_dbytes_from, set_iter_elem. }
    split_and!.
    + apply (sorted_by_map id dbytes from_blake3_bytes); [done|]. apply set_iter_sorted.
    + intros x. rewrite Hin, HB. split; intros [Hx Hd]; (split; [done|]).
      * intros y Hy Hxy. destruct (decide (x = y)) as [|Hne]; [done|]. destruct Hd. by exists y.
      * intros (y & Hy & Hne & Hxy). by apply Hne, Hd.
    + intros x Hx. setoid_rewrite Hin. by apply (below_base H (dbytes a) (dbytes b)).
Qed.

End History.

(** ** Three-way merges *)

(** Equal slots, digests compared by their bytes. *)
Definition same_slot (x y : option StagedEntry) : Prop := retag_staged <$> x = retag_staged <$> y.

Lemma slot_eqb_spec x y : slot_eqb x y = true <-> same_slot x y.
Proof. apply bool_decide_eq_true. Qed.

Lemma slot_eqb_false x y : slot_eqb x y = false <-> ~ same_slot x y.
Proof. apply bool_decide_eq_false. Qed.

#[global] Instance same_slot_equivalence : Equivalence same_slot.
Proof. split; unfold same_slot; [intros x|intros x y|intros x y z]; congruence. Qed.

Section Merge.
Context (base ours theirs : WorkTree).

Definition takes_theirs (p : bytes) : bool :=
  negb (slot_eqb (ours !! p) (theirs !! p)) && slot_eqb (base !! p) (ours !! p).
Definition clashes (p : bytes) : bool :=
  negb (slot_eqb (ours !! p) (theirs !! p)) && negb (slot_eqb (base !! p) (ours !! p)) && negb (slot_eqb (base !! p) (theirs !! p)).

Definition merge_path (acc : WorkTree * list bytes) (path : bytes) : WorkTree * list bytes :=
  (if takes_theirs path then put_slot path (theirs !! path) acc.1 else acc.1, if clashes path then acc.2 ++ [path] else acc.2).

Lemma three_way_fold : three_way_merge_files base ours theirs = foldl merge_path (ours, []) (both_paths ours theirs).
Proof.
  unfold three_way_merge_files. generalize (ours, @nil bytes). induction (both_paths ours theirs) as [|p ps IH]; intros [m cs]; [done|].
  cbn [foldl]. rewrite IH. f_equal. unfold merge_path, takes_theirs, clashes. cbn [fst snd].
  by destruct (slot_eqb (ours !! p) (theirs !! p)), (slot_eqb (base !! p) (ours !! p)), (slot_eqb (base !! p) (theirs !! p)).
Qed.

Lemma put_slot_lookup p q v m : put_slot p v m !! q = if decide (p = q) then v else m !! q.
Proof.
  unfold put_slot. destruct v as [v|]; destruct (decide (p = q)) as [->|Hne];
    by rewrite ?lookup_insert_eq, ?lookup_insert_ne, ?lookup_delete_eq, ?lookup_delete_ne.
Qed.

Lemma merge_fold_spec ps acc :
  (foldl merge_path acc ps).2 = acc.2 ++ filter (fun p => clashes p = true) ps /\
  forall p, (foldl merge_path acc ps).1 !! p = if decide (p ∈ ps /\ takes_theirs p = true) then theirs !! p else acc.1 !! p.
Proof.
  revert acc. induction ps as [|q ps IH]; intros acc; cbn [foldl].
  { rewrite filter_nil, app_nil_r. split; [done|]. intros p. rewrite decide_False; [done|]. by intros [?%not_elem_of_nil _]. }
  destruct (IH (merge_path acc q)) as [IH1 IH2]. split.
  - rewrite IH1, filter_cons. unfold merge_path. cbn [snd]. destruct (clashes q); [|by rewrite decide_False].
    by rewrite decide_True, <-app_assoc.
  - intros p. rewrite IH2. destruct (decide (p ∈ ps /\ takes_theirs p = true)) as [[H1 H2]|Hno].
    + rewrite decide_True; [done|]. split; [by right|done].
    + unfold merge_path. cbn [fst]. destruct (takes_theirs q) eqn:Eq.
      * rewrite put_slot_lookup. destruct (decide (q = p)) as [->|Hne]; [rewrite decide_True; [done|]; split; [left|done]|].
        rewrite decide_False; [done|]. intros [[->|?]%elem_of_cons ?]; tauto.
      * rewrite decide_False; [done|]. intros [[->|?]%elem_of_cons ?]; [congruence|tauto].
Qed.

Lemma merged_slot p :
  (three_way_merge_files base ours theirs).1 !! p = if takes_theirs p then theirs !! p else ours !! p.
Proof.
  rewrite three_way_fold, (proj2 (merge_fold_spec _ _)). cbn [fst].
  destruct (takes_theirs p) eqn:E; [|by rewrite decide_False by naive_solver].
  destruct (decide (p ∈ both_paths ours theirs)) as [Hin|Hout]; [by rewrite decide_True|]. rewrite decide_False by tauto.
  unfold both_paths in Hout. rewrite set_iter_elem, not_elem_of_union, !not_elem_of_dom in Hout. destruct Hout as [-> ->]. done.
Qed.

Lemma elem_of_conflicts p :
  p ∈ (three_way_merge_files base ours theirs).2 <->
  ~ same_slot (ours !! p) (theirs !! p) /\ ~ same_slot (base !! p) (ours !! p) /\ ~ same_slot (base !! p) (theirs !! p).
Proof.
  rewrite three_way_fold, (proj1 (merge_fold_spec _ _)). cbn [snd app]. rewrite list_elem_of_filter. unfold clashes.
  rewrite !andb_true_iff, !negb_true_iff, !slot_eqb_false. unfold both_paths. rewrite set_iter_elem, elem_of_union, !elem_of_dom.
  split; [by intros [[[? ?] ?] _]|]. intros (H1 & H2 & H3). split; [by split|].
  destruct (ours !! p); [by left|]. destruct (theirs !! p); [by right|]. by destruct H1.
Qed.

Lemma conflicts_sorted : sorted_by id (three_way_merge_files base ours theirs).2.
Proof.
  rewrite three_way_fold, (proj1 (merge_fold_spec _ _)). cbn [snd app]. apply filter_sorted, set_iter_sorted.
Qed.
End Merge.

(** A three-way merge conflicts exactly at the paths that both sides changed, and changed differently;
    everywhere else it takes the side that changed, deletions included, and at a conflict it leaves
    ours. The conflicts come in path order, and swapping the sides gives the same conflicts and the
    same slots elsewhere. *)
Theorem three_way_merge base ours theirs :
  let '(merged, conflicts) := three_way_merge_files base ours theirs in
  sorted_by id conflicts /\
  (forall p, p ∈ conflicts <-> ~ same_slot (ours !! p) (theirs !! p) /\ ~ same_slot (base !! p) (ours !! p) /\ ~ same_slot (base !! p) (theirs !! p)) /\
  (forall p, same_slot (base !! p) (ours !! p) -> same_slot (merged !! p) (theirs !! p)) /\
  (forall p, same_slot (base !! p) (theirs !! p) -> same_slot (merged !! p) (ours !! p)) /\
  (forall p, same_slot (ours !! p) (theirs !! p) -> merged !! p = ours !! p) /\
  (forall p, p ∈ conflicts -> merged !! p = ours !! p) /\
  (three_way_merge_files base theirs ours).2 = conflicts /\
  (forall p, p ∉ conflicts -> same_slot ((three_way_merge_files base theirs ours).1 !! p) (merged !! p)).
Proof.
  pose proof (merged_slot base ours theirs) as Hm. pose proof (elem_of_conflicts base ours theirs) as Hc.
  pose proof (conflicts_sorted base ours theirs) as Hs. pose proof (merged_slot base theirs ours) as Hm'.
  pose proof (elem_of_conflicts base theirs ours) as Hc'. pose proof (conflicts_sorted base theirs ours) as Hs'.
  destruct (three_way_merge_files base ours theirs) as [m cs], (three_way_merge_files base theirs ours) as [m' cs']. cbn [fst snd] in *.
  assert (forall x y, {same_slot x y} + {~ same_slot x y}) as Hdec by (intros x y; unfold same_slot; apply option_eq_dec).
  assert (forall b o t p, takes_theirs b o t p = true <-> ~ same_slot (o !! p) (t !! p) /\ same_slot (b !! p) (o !! p)) as Htt.
  { intros b o t p. unfold takes_theirs. by rewrite andb_true_iff, negb_true_iff, slot_eqb_false, slot_eqb_spec. }
  assert (forall b o t p, takes_theirs b o t p = false <-> same_slot (o !! p) (t !! p) \/ ~ same_slot (b !! p) (o !! p)) as Htf.
  { intros b o t p. rewrite <-not_true_iff_false, Htt. destruct (Hdec (o !! p) (t !! p)), (Hdec (b !! p) (o !! p)); tauto. }
  split_and!; [done|done| | | | | |]; try (intros p Hp; rewrite Hm; destruct (takes_theirs base ours theirs p) eqn:E).
  - done.
  - apply Htf in E as [E|E]; [done|tauto].
  - apply Htt in E as [E1 E2]. by rewrite <-Hp.
  - done.
  - by apply Htt in E as [E _].
  - done.
  - apply Hc in Hp. apply Htt in E. tauto.
  - done.
  - apply (sorted_by_unique id); [done|done|]. intros p. rewrite Hc, Hc'. unfold same_slot. naive_solver congruence.
  - rewrite Hm'. apply Htt in E as [E1 E2]. destruct (takes_theirs base theirs ours p) eqn:E'; [|done].
    apply Htt in E' as [_ E']. by rewrite <-E', E2.
  - rewrite Hm'. destruct (takes_theirs base theirs ours p) eqn:E'; [done|]. rewrite Hc in Hp. apply Htf in E as [E|E]; [done|].
    apply Htf in E' as [E'|E']; [done|]. destruct (Hdec (ours !! p) (theirs !! p)); [done|tauto].
Qed.

(** ** Blame *)

Section Blame.
Context `{hasher : Hasher} {S : Type} `{ops : !ObjectStore S} (s : S) (fuel : nat).
Context (log : list Digest) (trees : list (WorkTree * gset bytes)).
Context (Hlog : Forall2 (fun d t => flatten_commit fuel s d = Some (Ok t)) log trees).

(** The slot of a path in the commit at a place of the log; none beyond its end. *)
Definition slot_at (i : nat) (p : bytes) : option StagedEntry := t ← trees !! i; t.1 !! p.

(** [c] is the commit of the log that set the present value of [p]: from it on the value is the present
    one, and before it the value was another, or the log ends. *)
Definition set_by (p : bytes) (c : Digest) : Prop :=
  exists i, log !! i = Some c /\ (forall j, (j <= i)%nat -> same_slot (slot_at j p) (slot_at 0 p)) /\
    ~ same_slot (slot_at (Datatypes.S i) p) (slot_at 0 p).

(** The state of the loop before the commit at place [k]. *)
Record blaming (k : nat) (remaining : gset bytes) (blamed : gmap bytes Digest) : Prop := {
  bl_same p : p ∈ remaining -> is_Some (slot_at 0 p) /\ forall j, (j <= k)%nat -> same_slot (slot_at j p) (slot_at 0 p);
  bl_done p : is_Some (slot_at 0 p) -> p ∉ remaining -> exists c, blamed !! p = Some c /\ set_by p c;
}.

Lemma same_slot_Some x y : same_slot x y -> is_Some y -> is_Some x.
Proof. unfold same_slot. destruct x; [by eexists|]. intros E [z ->]. done. Qed.

Lemma elem_of_claim (remaining : gset bytes) (c_files p_files : WorkTree) p :
  p ∈ claim remaining c_files p_files <-> p ∈ remaining /\ is_Some (c_files !! p) /\ ~ same_slot (p_files !! p) (c_files !! p).
Proof. unfold claim. rewrite elem_of_filter, elem_of_dom, slot_eqb_false. tauto. Qed.

Lemma blame_step (k : nat) (c : Digest) (remaining : gset bytes) (blamed : gmap bytes Digest) (c_files p_files : WorkTree) :
  blaming k remaining blamed -> log !! k = Some c -> (forall p, c_files !! p = slot_at k p) ->
  (forall p, p_files !! p = slot_at (Datatypes.S k) p) ->
  blaming (Datatypes.S k) (remaining ∖ claim remaining c_files p_files)
    (set_to_map (fun path => (path, c)) (claim remaining c_files p_files) ∪ blamed).
Proof.
  intros [Hsame Hdone] Hc Hcf Hpf. split.
  - intros p [Hp Hn]%elem_of_difference. destruct (Hsame p Hp) as [Hcur Heq]. split; [done|]. intros j Hj.
    destruct (decide (j <= k)%nat) as [|Hgt]; [by apply Heq|]. assert (j = Datatypes.S k) as -> by lia.
    rewrite elem_of_claim, Hcf, Hpf in Hn. pose proof (Heq k ltac:(done)) as Hk. rewrite <-Hk.
    destruct (slot_eqb (slot_at (Datatypes.S k) p) (slot_at k p)) eqn:E; [by apply slot_eqb_spec|]. apply slot_eqb_false in E.
    destruct Hn. split_and!; [done|by eapply same_slot_Some|done].
  - intros p Hcur Hp. destruct (decide (p ∈ claim remaining c_files p_files)) as [Hcl|Hcl].
    + exists c. split.
      * apply lookup_union_Some_l, lookup_set_to_map; [by intros ? ? _ _ [= ->]|]. by exists p.
      * apply elem_of_claim in Hcl as (Hr & _ & Hne). destruct (Hsame p Hr) as [_ Heq]. exists k. split_and!; [done|done|].
        intros E. apply Hne. rewrite Hcf, Hpf, E. symmetry. by apply Heq.
    + destruct (Hdone p Hcur) as (c' & Hc' & Hs); [set_solver|]. exists c'. split; [|done].
      rewrite lookup_union_r; [done|]. apply eq_None_not_Some. intros [y Hy]. apply lookup_set_to_map in Hy; [|by intros ? ? _ _ [= ->]].
      destruct Hy as (q & Hq & [= -> _]). done.
Qed.

Lemma blame_loop_spec (k : nat) (suffix : list Digest) (remaining : gset bytes) (blamed : gmap bytes Digest) :
  drop k log = suffix -> blaming k remaining blamed -> (suffix = [] -> remaining = ∅) ->
  exists b, blame_loop fuel s suffix remaining blamed = Some (Ok b) /\
    forall p, is_Some (slot_at 0 p) -> exists c, b !! p = Some c /\ set_by p c.
Proof.
  revert k remaining blamed. induction suffix as [|c suffix IH]; intros k remaining blamed Hd Hb Hend; cbn [blame_loop].
  { exists blamed. split; [done|]. intros p Hp. apply (bl_done _ _ _ Hb p Hp). rewrite Hend by done. apply not_elem_of_empty. }
  case_bool_decide as Hr.
  { exists blamed. split; [done|]. intros p Hp. apply (bl_done _ _ _ Hb p Hp). rewrite Hr. apply not_elem_of_empty. }
  assert (log !! k = Some c) as Hc by (rewrite <-(Nat.add_0_r k), <-lookup_drop, Hd; done).
  assert (drop (Datatypes.S k) log = suffix) as Hd' by (rewrite <-Nat.add_1_r, <-drop_drop, Hd; done).
  destruct (Forall2_lookup_l _ _ _ _ _ Hlog Hc) as (t & Ht & ->). cbn [run_bind].
  assert (forall p, t.1 !! p = slot_at k p) as Hcf by (intros p; unfold slot_at; by rewrite Ht).
  assert (exists t', match suffix with p :: _ => flatten_commit fuel s p | [] => Some (Ok (∅, ∅)) end = Some (Ok t') /\
    (forall p, t'.1 !! p = slot_at (Datatypes.S k) p)) as (t' & -> & Hpf).
  { destruct suffix as [|q suffix].
    - exists (∅, ∅). split; [done|]. intros p. unfold slot_at. rewrite lookup_ge_None_2; [done|].
      rewrite <-(Forall2_length _ _ _ Hlog). apply (f_equal length) in Hd'. rewrite length_drop in Hd'. simpl in Hd'. lia.
    - assert (log !! Datatypes.S k = Some q) as Hq by (rewrite <-(Nat.add_0_r (Datatypes.S k)), <-lookup_drop, Hd'; done).
      destruct (Forall2_lookup_l _ _ _ _ _ Hlog Hq) as (t' & Ht' & E). exists t'. split; [done|]. intros p. unfold slot_at. by rewrite Ht'. }
  cbn [run_bind]. apply (IH (Datatypes.S k)); [done|by apply blame_step|]. intros ->.
  apply set_eq. intros p. split; [|by intros ?%elem_of_empty]. intros [Hp Hn]%elem_of_difference. destruct Hn. apply elem_of_claim.
  destruct (bl_same _ _ _ Hb p Hp) as [Hcur Heq]. pose proof (same_slot_Some _ _ (Heq k ltac:(done)) Hcur) as Hk. rewrite Hcf, Hpf. split_and!; [done|done|].
  assert (slot_at (Datatypes.S k) p = None) as ->; [|by destruct Hk as [? ->]]. unfold slot_at. rewrite lookup_ge_None_2; [done|].
  rewrite <-(Forall2_length _ _ _ Hlog). apply (f_equal length) in Hd'. rewrite length_drop in Hd'. simpl in Hd'. lia.
Qed.

(** Blame names, for every path of the newest commit and in path order, the commit of the log that set
    the value the path has now: in that commit and in all newer ones the path has its present value,
    and in the next older one it had another or was missing. *)
Theorem blame_correct :
  log <> [] ->
  exists out, blame fuel s log = Some (Ok out) /\ sorted_by fst out /\
    (forall p, p ∈ map fst out <-> is_Some (slot_at 0 p)) /\ Forall (fun e => set_by e.1 e.2) out.
Proof.
  intros Hne. assert (exists tip rest, log = tip :: rest) as (tip & rest & Elog) by (destruct log; [done|eauto]).
  pose proof Hlog as Hl. rewrite Elog in Hl.
  apply Forall2_cons_inv_l in Hl as (t & ts & Ht & _ & Et).
  assert (forall p, t.1 !! p = slot_at 0 p) as Hcur by (intros p; unfold slot_at; by rewrite Et).
  destruct (blame_loop_spec 0 log (dom t.1) ∅) as (b & Hb & Hset); [done| |by rewrite Elog|].
  { split; [|intros p Hp Hn; by rewrite elem_of_dom, Hcur in Hn]. intros p Hp. rewrite elem_of_dom, Hcur in Hp. split; [done|].
    intros j Hj. by assert (j = O) as -> by lia. }
  unfold blame. rewrite Elog in Hb |- *. rewrite Ht. cbn [run_bind]. rewrite Hb. cbn [run_bind]. eexists. split; [reflexivity|].
  split_and!.
  - apply (sorted_by_map id fst (fun path => (path, _))); [done|]. apply set_iter_sorted.
  - intros p. rewrite map_map, map_id, set_iter_elem, elem_of_dom. by rewrite Hcur.
  - apply Forall_map, Forall_forall. intros p Hp. rewrite set_iter_elem, elem_of_dom, Hcur in Hp.
    destruct (Hset p Hp) as (c & Hc & Hsb). cbn [fst snd]. by rewrite Hc.
Qed.
End Blame.

End VcsHistoryProps.
