(* ===== verification/VcsContent.v ===== *)
(** * File content (crates/loom-core/src/vcs/objects.rs, vcs.rs [EditPlan])

    Content is stored as one blob or as a list of chunk blobs and found by the hash of its bytes.
    Reads touch only the chunks of their range; edits stream windows of the new content through the
    chunker.

    A range read and an edit return [None] where the code panics: a slice out of range. Arithmetic on
    [u64] wraps, as in a release build. The compression hint does not affect what is stored. *)

From S2P Require Import Prelude Codec Types Object Store Chunk VcsTree ObjectProps ProllyTree VcsShard.

Module VcsContent.
Import Error Digest Object Store Chunk VcsTree.

(** [b[lo..hi]] *)
Definition slice (b : bytes) (lo hi : N) : option bytes :=
  if (lo <=? hi) && (hi <=? Codec.len b) then Some (take (N.to_nat (hi - lo)) (drop (N.to_nat lo) b)) else None.

Definition sat_add (a b : N) : N := N.min (a + b) u64_max.
Definition wrapping_sub (a b : N) : N := as_u64 (a + 2 ^ 64 - b).

(** [buf[at..at + src.len()].copy_from_slice(src)] *)
Definition copy_at (buf : bytes) (at_ : N) (src : bytes) : option bytes :=
  if at_ + Codec.len src <=? Codec.len buf
  then Some (take (N.to_nat at_) buf ++ src ++ drop (N.to_nat at_ + length src) buf) else None.

Definition lift_opt {A} (o : option A) : option (res A) := match o with Some x => Some (Ok x) | None => None end.

(** ** Plans *)

Inductive EditKind : Type :=
| EditWrite (offset : N) (data : bytes)
| EditTruncate.

Record EditPlan : Type := mkEditPlan { ep_src : option Digest; old_size : N; new_size : N; ep_kind : EditKind }.

Definition plan_write (src : option Digest) (old_size offset : N) (data : bytes) : EditPlan :=
  mkEditPlan src old_size (N.max old_size (as_u64 (offset + Codec.len data))) (EditWrite offset data).

Definition plan_truncate (src : option Digest) (old_size size : N) : EditPlan := mkEditPlan src old_size size EditTruncate.

Definition BLOCK : N := CHUNK_THRESHOLD.

Section Ops.
Context `{hasher : Hasher} {S : Type} `{ops : !ObjectStore S}.

(** The store and the map from content addresses to objects. *)
Record Contents : Type := mkContents { c_store : S; content : gmap bytes Digest }.

(** ** Whole contents *)

(** [put] of one chunk. *)
Definition put_chunk (acc : list ChunkRef * S) (piece : bytes) : res (list ChunkRef * S) :=
  '(target, s) ← put_object acc.2 (OBlob piece);
  Ok (acc.1 ++ [mkChunkRef target (Codec.len piece)], s).

(** The object of a content: one blob, or chunks and their list. *)
Definition put_content (s : S) (b : bytes) : res (Digest * S) :=
  if Codec.len b <=? CHUNK_THRESHOLD then put_object s (OBlob b)
  else
    '(entries, s) ← try_fold put_chunk ([], s) (chunk b);
    put_object s (OChunkList (Codec.len b) entries).

Definition store_content (st : Contents) (b : bytes) : res (Digest * Contents) :=
  let addr := content_address_with (digest_algo (c_store st)) b in
  '(obj, s) ← put_content (c_store st) b;
  Ok (addr, mkContents s (<[dbytes addr := obj]> (content st))).

Definition content_object (st : Contents) (addr : Digest) : res Object :=
  obj ← ok_or (content st !! dbytes addr) NotFound;
  get_object (c_store st) obj.

Definition load_content (st : Contents) (addr : Digest) : res bytes :=
  o ← content_object st addr;
  match o with
  | OBlob b => Ok b
  | OChunkList _ entries =>
      try_fold (fun out e =>
        o ← get_object (c_store st) (cr_target e);
        match o with OBlob c => Ok (out ++ c) | _ => Err CorruptObject end) [] entries
  | _ => Err CorruptObject
  end.

Definition content_size (st : Contents) (addr : Digest) : res N :=
  o ← content_object st addr;
  match o with
  | OBlob b => Ok (Codec.len b)
  | OChunkList total_size _ => Ok total_size
  | _ => Err CorruptObject
  end.

(** ** Ranges *)

Fixpoint read_chunks (s : S) (offset end_ pos : N) (out : bytes) (entries : list ChunkRef) : option (res bytes) :=
  match entries with
  | [] => Some (Ok out)
  | e :: entries =>
      let chunk_start := pos in
      let chunk_end := as_u64 (pos + cr_size e) in
      if chunk_end <=? offset then read_chunks s offset end_ chunk_end out entries
      else if end_ <=? chunk_start then Some (Ok out)
      else
        let lo := N.max offset chunk_start in
        let hi := N.min end_ chunk_end in
        o ⇠ Some (get_object s (cr_target e));
        match o with
        | OBlob c =>
            piece ⇠ lift_opt (slice c (wrapping_sub lo chunk_start) (wrapping_sub hi chunk_start));
            read_chunks s offset end_ chunk_end (out ++ piece) entries
        | _ => Some (Err CorruptObject)
        end
  end.

Definition content_read_range (st : Contents) (addr : Digest) (offset len : N) : option (res bytes) :=
  o ⇠ Some (content_object st addr);
  match o with
  | OBlob b =>
      let total := Codec.len b in
      lift_opt (slice b (N.min offset total) (N.min (sat_add offset len) total))
  | OChunkList total_size entries =>
      let end_ := N.min (sat_add offset len) total_size in
      if end_ <=? offset then Some (Ok []) else read_chunks (c_store st) offset end_ 0 [] entries
  | _ => Some (Err CorruptObject)
  end.

(** ** Edits *)

(** The old bytes of a window, copied over [buf]. *)
Definition copy_old (st : Contents) (src : option Digest) (start lo hi : N) (buf : bytes) : option (res bytes) :=
  match src with
  | Some src =>
      if lo <? hi then
        old ⇠ content_read_range st src lo (hi - lo);
        lift_opt (copy_at buf (wrapping_sub lo start) old)
      else Some (Ok buf)
  | None => Some (Ok buf)
  end.

Definition edit_window (st : Contents) (plan : EditPlan) (start end_ : N) : option (res bytes) :=
  let buf := repeat x00 (N.to_nat (end_ - start)) in
  match ep_kind plan with
  | EditWrite offset data =>
      buf ⇠ copy_old st (ep_src plan) start (N.min start (old_size plan)) (N.min end_ (old_size plan)) buf;
      let dlo := N.max start offset in
      let dhi := N.min end_ (as_u64 (offset + Codec.len data)) in
      if dlo <? dhi then
        piece ⇠ lift_opt (slice data (wrapping_sub dlo offset) (wrapping_sub dhi offset));
        lift_opt (copy_at buf (wrapping_sub dlo start) piece)
      else Some (Ok buf)
  | EditTruncate => copy_old st (ep_src plan) start start (N.min end_ (old_size plan)) buf
  end.

(** The loop of a small result; [fuel] bounds the windows. *)
Fixpoint edit_small (fuel : nat) (st : Contents) (plan : EditPlan) (pos : N) (buf : bytes) : option (res bytes) :=
  if new_size plan <=? pos then Some (Ok buf)
  else
    match fuel with
    | O => None
    | Datatypes.S fuel =>
        let end_ := N.min (as_u64 (pos + BLOCK)) (new_size plan) in
        w ⇠ edit_window st plan pos end_;
        edit_small fuel st plan end_ (buf ++ w)
    end.

(** The streaming loop: the chunks the chunker emits are stored as they come. The incremental hash of
    the windows is the hash of their concatenation [hashed]. *)
Fixpoint edit_stream (fuel : nat) (st : Contents) (plan : EditPlan) (pos : N) (sc : StreamChunker) (hashed : bytes)
    (entries : list ChunkRef) : option (res (StreamChunker * bytes * list ChunkRef * S)) :=
  if new_size plan <=? pos then Some (Ok (sc, hashed, entries, c_store st))
  else
    match fuel with
    | O => None
    | Datatypes.S fuel =>
        let end_ := N.min (as_u64 (pos + BLOCK)) (new_size plan) in
        w ⇠ edit_window st plan pos end_;
        let '(sc, emitted) := push sc w in
        r ⇠ Some (try_fold put_chunk (entries, c_store st) emitted);
        edit_stream fuel (mkContents r.2 (content st)) plan end_ sc (hashed ++ w) r.1
    end.

(** One window per block. *)
Definition windows_of (plan : EditPlan) : nat := Datatypes.S (N.to_nat (new_size plan / BLOCK)).

Definition build_edited_content (st : Contents) (plan : EditPlan) : option (res (Digest * N * Contents)) :=
  let a := digest_algo (c_store st) in
  if new_size plan <=? CHUNK_THRESHOLD then
    buf ⇠ edit_small (windows_of plan) st plan 0 [];
    let addr := content_address_with a buf in
    r ⇠ Some (put_object (c_store st) (OBlob buf));
    Some (Ok (addr, new_size plan, mkContents r.2 (<[dbytes addr := r.1]> (content st))))
  else
    r ⇠ edit_stream (windows_of plan) st plan 0 stream_new [] [];
    let '(sc, hashed, entries, s) := r in
    t ⇠ Some (try_fold put_chunk (entries, s) (finish sc));
    let addr := hash a hashed in
    r ⇠ Some (put_object t.2 (OChunkList (new_size plan) t.1));
    Some (Ok (addr, new_size plan, mkContents r.2 (<[dbytes addr := r.1]> (content st)))).
End Ops.
#[global] Arguments Contents : clear implicits.

End VcsContent.

(** * File content: reads and edits agree with the bytes

    A content is read back whole and in ranges, and an edit stores exactly what writing the edited
    bytes at once would. *)

Module VcsContentProps.
Import Error Digest Object ObjectProps Store Chunk VcsTree VcsWrite VcsShard VcsContent.

(** [b[i..j]], clamped to the end. *)
Definition sub (b : bytes) (i j : N) : bytes := take (N.to_nat (j - i)) (drop (N.to_nat i) b).

Lemma len_sub b i j : i <= j -> j <= Codec.len b -> Codec.len (sub b i j) = j - i.
Proof. unfold Codec.len, sub. intros H1 H2. rewrite length_take, length_drop. lia. Qed.

Lemma slice_sub b i j : i <= j -> j <= Codec.len b -> slice b i j = Some (sub b i j).
Proof. intros H1%N.leb_le H2%N.leb_le. unfold slice. by rewrite H1, H2. Qed.

Lemma sub_app b i j k : i <= j <= k -> sub b i j ++ sub b j k = sub b i k.
Proof.
  intros H. unfold sub. rewrite <-(take_drop (N.to_nat (j - i)) (take (N.to_nat (k - i)) (drop (N.to_nat i) b))).
  rewrite take_take, skipn_firstn_comm, drop_drop. f_equal; [f_equal; lia|]. f_equal; [lia|]. f_equal. lia.
Qed.

Section Read.
Context `{hasher : Hasher} {S : Type} `{ops : !ObjectStore S}.
Implicit Types (s : S) (st : Contents S) (b c : bytes).

(** ** What it means to hold a content *)

Definition chunk_holds s (e : ChunkRef) c : Prop := cr_size e = Codec.len c /\ get_object s (cr_target e) = Ok (OBlob c).

Definition object_holds s (o : Object) b : Prop :=
  match o with
  | OBlob p => p = b
  | OChunkList total es => total = Codec.len b /\ exists cs, concat cs = b /\ Forall2 (chunk_holds s) es cs
  | _ => False
  end.

Definition holds st addr b : Prop := Codec.len b <= u64_max /\ exists o, content_object st addr = Ok o /\ object_holds (c_store st) o b.

Lemma load_holds st addr b : holds st addr b -> load_content st addr = Ok b.
Proof.
  intros [_ (o & Ho & Hb)]. unfold load_content. rewrite Ho. cbn [mbind result_bind].
  destruct o as [p|total es| | |]; try done; [by rewrite <-Hb|]. destruct Hb as (_ & cs & <- & Hcs).
  clear Ho. change (concat cs) with ([] ++ concat cs). generalize (@nil byte).
  induction Hcs as [|e c es cs [_ He] _ IH]; intros out; cbn [try_fold concat]; [by rewrite app_nil_r|].
  rewrite He. cbn [mbind result_bind]. rewrite IH. by rewrite <-app_assoc.
Qed.

Lemma size_holds st addr b : holds st addr b -> content_size st addr = Ok (Codec.len b).
Proof.
  intros [_ (o & Ho & Hb)]. unfold content_size. rewrite Ho. cbn [mbind result_bind].
  destruct o as [p|total es| | |]; try done; [by rewrite <-Hb|]. by destruct Hb as [-> _].
Qed.

(** ** Ranges *)

Lemma wrapping_sub_le x y : y <= x -> x <= u64_max -> wrapping_sub x y = x - y.
Proof.
  unfold wrapping_sub, as_u64, u64_max. intros H1 H2. replace (x + 2 ^ 64 - y) with ((x - y) + 1 * 2 ^ 64) by lia.
  rewrite N.Div0.mod_add. apply N.mod_small. lia.
Qed.

Lemma as_u64_id x : x <= u64_max -> as_u64 x = x.
Proof. unfold as_u64, u64_max. intros H. apply N.mod_small. lia. Qed.

Lemma len_app b c : Codec.len (b ++ c) = Codec.len b + Codec.len c.
Proof. unfold Codec.len. rewrite length_app. lia. Qed.

Lemma read_chunks_spec s offset end_ pos out es cs :
  Forall2 (chunk_holds s) es cs -> pos + Codec.len (concat cs) <= u64_max -> end_ <= pos + Codec.len (concat cs) -> offset < end_ ->
  read_chunks s offset end_ pos out es = Some (Ok (out ++ sub (concat cs) (offset - pos) (end_ - pos))).
Proof.
  intros Hcs. revert pos out. induction Hcs as [|e c es cs [Hsize He] _ IH]; intros pos out Hmax Hend Hlt; cbn [read_chunks concat] in *.
  { unfold sub. by rewrite drop_nil, take_nil, app_nil_r. }
  rewrite len_app in Hmax, Hend. rewrite Hsize, as_u64_id by lia.
  destruct (N.leb_spec (pos + Codec.len c) offset) as [H1|H1].
  { rewrite IH by lia. do 3 f_equal. unfold sub, Codec.len in *. rewrite drop_app_ge by lia. f_equal; [lia|]. f_equal. lia. }
  destruct (N.leb_spec end_ pos) as [H2|H2].
  { unfold sub. replace (end_ - pos - (offset - pos)) with 0 by lia. by rewrite take_0, app_nil_r. }
  rewrite He. cbn [run_bind]. rewrite !wrapping_sub_le by lia. rewrite slice_sub by lia. cbn [lift_opt run_bind].
  rewrite IH by lia. rewrite <-app_assoc. do 3 f_equal. unfold sub, Codec.len in *.
  rewrite drop_app_le by lia. rewrite take_app. f_equal.
  - destruct (N.leb_spec (pos + N.of_nat (length c)) end_) as [H3|H3].
    + rewrite !take_ge by (rewrite length_drop; lia). f_equal. lia.
    + f_equal; [lia|]. f_equal. lia.
  - rewrite length_drop. f_equal; [lia|]. replace (N.to_nat (offset - (pos + N.of_nat (length c)))) with O by lia. done.
Qed.

(** A range read is the range of the bytes, shorter at the end. *)
Lemma read_holds st addr b offset n :
  holds st addr b -> content_read_range st addr offset n = Some (Ok (sub b offset (N.min (offset + n) (Codec.len b)))).
Proof.
  intros [Hmax (o & Ho & Hb)]. unfold content_read_range. rewrite Ho. cbn [run_bind]. unfold sat_add.
  destruct o as [p|total es| | |]; try done.
  - cbn [object_holds] in Hb. subst p. rewrite slice_sub by lia. cbn [lift_opt]. do 2 f_equal. unfold sub.
    destruct (N.le_gt_cases (Codec.len b) offset) as [H|H].
    + replace (N.min (N.min (offset + n) u64_max) (Codec.len b) - N.min offset (Codec.len b)) with 0 by lia.
      replace (N.min (offset + n) (Codec.len b) - offset) with 0 by lia. by rewrite !take_0.
    + f_equal; [lia|]. f_equal. lia.
  - destruct Hb as (-> & cs & <- & Hcs). destruct (N.leb_spec (N.min (N.min (offset + n) u64_max) (Codec.len (concat cs))) offset) as [H|H].
    + unfold sub. replace (N.min (offset + n) (Codec.len (concat cs)) - offset) with 0 by lia. by rewrite take_0.
    + rewrite (read_chunks_spec _ _ _ _ _ _ cs) by (done || lia). cbn [app]. do 3 f_equal; lia.
Qed.
End Read.

Section Write.
Context `{hasher : Hasher} {S : Type} `{ops : !ObjectStore S} (a : Algo).
Implicit Types (s : S) (b c : bytes) (l w : list bytes).

Abbreviation log := (log_store a).

(** ** Writing on the recording store *)

Definition chunk_put w (e : ChunkRef) c : Prop := wf_chunk_ref e /\ cr_size e = Codec.len c /\ holds_object (S := S) a w (cr_target e) (OBlob c).

Lemma chunk_put_app w1 w2 e c : chunk_put w1 e c \/ chunk_put w2 e c -> chunk_put (w1 ++ w2) e c.
Proof.
  intros [(H1 & H2 & H3)|(H1 & H2 & H3)]; (split; [exact H1|]; split; [exact H2|]; eapply holds_object_mono; [|exact H3]);
    intros s Hs; apply stores_app in Hs; tauto.
Qed.

Lemma put_chunks_spec pieces es l :
  Forall (fun c => Codec.len c <= u64_max) pieces ->
  exists es' w, try_fold (put_chunk (ops := log)) (es, l) pieces = Ok (es ++ es', l ++ w) /\ Forall2 (chunk_put w) es' pieces.
Proof.
  intros H. revert es l. induction H as [|c pieces Hc _ IH]; intros es l; cbn [try_fold]; [exists [], []; by rewrite !app_nil_r|].
  destruct (put_object_spec (S := S) a (OBlob c) l) as (d & w & E & Hd & Hh); [done|].
  assert (put_chunk (ops := log) (es, l) c = Ok (es ++ [mkChunkRef d (Codec.len c)], l ++ w)) as ->
    by (unfold put_chunk; cbn [fst snd]; by rewrite E). cbn [mbind result_bind].
  destruct (IH (es ++ [mkChunkRef d (Codec.len c)]) (l ++ w)) as (es' & w' & -> & Hes).
  exists (mkChunkRef d (Codec.len c) :: es'), (w ++ w'). rewrite <-!app_assoc. split; [done|].
  constructor; [apply chunk_put_app; left; split; [by split|by split]|].
  eapply Forall2_impl; [exact Hes|]. intros e x Hx. apply chunk_put_app. by right.
Qed.

Lemma put_content_spec b l :
  Codec.len b <= u64_max ->
  exists d w, put_content (ops := log) l b = Ok (d, l ++ w) /\
    forall s d', digest_algo s = a -> stores s w -> d' ≡ d -> exists o, get_object s d' = Ok o /\ object_holds s o b.
Proof.
  intros Hb. unfold put_content. destruct (N.leb_spec (Codec.len b) CHUNK_THRESHOLD) as [_|_].
  { destruct (put_object_spec (S := S) a (OBlob b) l) as (d & w & E & _ & Hh); [done|]. exists d, w. split; [done|].
    intros s d' Ha Hs Hd. exists (OBlob b). split; [by apply Hh|done]. }
  destruct (chunk_concat b) as [Hc Hl]. destruct (put_chunks_spec (chunk b) [] l) as (es & w1 & -> & Hes).
  { eapply Forall_impl; [exact Hl|]. intros c [_ H]. etrans; [exact H|]. by vm_compute. }
  cbn [mbind result_bind app].
  assert (wf_object (OChunkList (Codec.len b) es)) as Hwf.
  { split; [done|]. split.
    - unfold Codec.len. rewrite (Forall2_length _ _ _ Hes). unfold Codec.len in Hb. rewrite <-Hc in Hb.
      assert (length (chunk b) <= length (concat (chunk b)))%nat; [|lia]. apply length_concat_nonempty.
      eapply Forall_impl; [exact Hl|]. intros c [H _] ->. by vm_compute in H.
    - clear -Hes. induction Hes as [|e c es cs (H & _) _ IH]; constructor; done. }
  destruct (put_object_spec (S := S) a (OChunkList (Codec.len b) es) (l ++ w1)) as (d & w2 & -> & _ & Hh); [done|].
  exists d, (w1 ++ w2). rewrite app_assoc. split; [done|]. intros s d' Ha Hs Hd. apply stores_app in Hs as [Hs1 Hs2].
  exists (OChunkList (Codec.len b) (map retag_chunk es)). split; [by apply (Hh s d')|]. split; [done|]. exists (chunk b). split; [done|].
  clear -Hes Ha Hs1. induction Hes as [|e c es cs (H1 & H2 & H3) _ IH]; cbn [map]; constructor; [|done].
  split; [done|]. by apply (H3 s (retag (cr_target e))).
Qed.
End Write.

Section Claims.
Context `{hasher : Hasher} {S : Type} `{ops : !ObjectStore S} {U : bytes -> Prop} {ok : S -> Prop} `{laws : !StoreLaws S U ok}.
Implicit Types (s : S) (st : Contents S).

Lemma carries_put_chunks a pieces es (l : list bytes) :
  carries (U := U) (ok := ok) a (Some (try_fold (put_chunk (ops := log_store a)) (es, l) pieces)) l (fun s => Some (try_fold put_chunk (es, s) pieces)).
Proof.
  revert es l. induction pieces as [|c pieces IH]; intros es l; cbn [try_fold]; [apply carries_ret|].
  apply (carries_res a _ l (fun s => put_chunk (es, s) c)); [|intros x l'; apply IH].
  unfold put_chunk. cbn [fst snd]. apply (carries_res a); [apply carries_put_object|]. intros d l'. apply carries_ret.
Qed.

Lemma carries_put_content a b (l : list bytes) :
  carries (U := U) (ok := ok) a (Some (put_content (ops := log_store a) l b)) l (fun s => Some (put_content s b)).
Proof.
  unfold put_content. destruct (Codec.len b <=? CHUNK_THRESHOLD); [apply carries_put_object|].
  apply (carries_res a); [apply carries_put_chunks|]. intros es l'. apply carries_put_object.
Qed.

(** C31: Storing a content succeeds, returns the hash of its bytes as its address, and writes one list of
    objects, whatever the store; afterwards the content is read back whole, with its size, and every
    range read returns exactly the bytes of the range, fewer at the end of the content. *)
Theorem content_roundtrip st b :
  ok (c_store st) -> Codec.len b <= u64_max ->
  exists d w, put_content (ops := log_store (digest_algo (c_store st))) [] b = Ok (d, w) /\
    (Forall U w -> exists st', store_content st b = Ok (hash (digest_algo (c_store st)) b, st') /\ ok (c_store st') /\
       load_content st' (hash (digest_algo (c_store st)) b) = Ok b /\
       content_size st' (hash (digest_algo (c_store st)) b) = Ok (Codec.len b) /\
       forall offset n, content_read_range st' (hash (digest_algo (c_store st)) b) offset n
         = Some (Ok (sub b offset (N.min (offset + n) (Codec.len b))))).
Proof.
  intros Hok Hb. set (a := digest_algo (c_store st)). destruct (put_content_spec (S := S) a b [] Hb) as (d & w & E & Hh). cbn [app] in E.
  exists d, w. split; [done|]. intros HU. destruct (carries_put_content a b [] d w) as (w' & [= ->] & Hc); [by rewrite E|].
  destruct (Hc (c_store st) Hok eq_refl HU) as (s' & [= Hp] & Hok' & [Ha' _] & Hst).
  set (st' := mkContents s' (<[dbytes (hash a b) := d]> (content st))).
  assert (holds st' (hash a b) b) as Hholds.
  { split; [done|]. destruct (Hh s' d Ha' Hst) as (o & Ho & Hob); [done|]. exists o. split; [|done].
    unfold content_object. cbn [content st' c_store]. rewrite lookup_insert_eq. done. }
  exists st'. split_and!; [|done|by apply load_holds|by apply size_holds|by intros; apply read_holds].
  unfold store_content. rewrite Hp. done.
Qed.
End Claims.

End VcsContentProps.
