(* ===== verification/VcsEdit.v ===== *)
(** * File content: an edit stores what writing the edited bytes would

    The windows of an edit are the ranges of the edited content, and the chunks that streaming them
    emits are the chunks of the whole, so the two ways of writing leave the same store. *)

From S2P Require Import Prelude Codec Types Object ObjectProps Store Chunk ProllyTree VcsTree VcsShard VcsContent VcsTreeProps VcsHistory.

Module VcsEdit.
Import Error Digest Object Store Chunk VcsTree VcsContent VcsContentProps.

(** ** The edited bytes *)

(** A write at an offset, the gap after the old end filled with zeros. *)
Definition written (old : bytes) (offset : N) (data : bytes) : bytes :=
  let o := N.to_nat offset in
  take o (old ++ repeat x00 (o - length old)) ++ data ++ drop (o + length data) old.

Definition resized (old : bytes) (size : N) : bytes :=
  let n := N.to_nat size in take n old ++ repeat x00 (n - length old).

Definition edited (old : bytes) (plan : EditPlan) : bytes :=
  match ep_kind plan with EditWrite offset data => written old offset data | EditTruncate => resized old (new_size plan) end.

Lemma lookup_zeros n k : (k < n)%nat -> repeat x00 n !! k = Some x00.
Proof. revert k. induction n as [|n IH]; intros [|k] H; cbn [repeat]; [lia|lia|done|]. apply IH. lia. Qed.

(** The byte at a place, zero after the end. *)
Definition pad (old : bytes) (k : nat) : option byte := if (k <? length old)%nat then old !! k else Some x00.

Lemma lookup_padded old n k : (k < length old + n)%nat -> (old ++ repeat x00 n) !! k = pad old k.
Proof.
  intros H. unfold pad. destruct (Nat.ltb_spec k (length old)) as [H1|H1]; [by rewrite lookup_app_l|].
  rewrite lookup_app_r by done. apply lookup_zeros. lia.
Qed.

Lemma length_written old offset data :
  length (written old offset data) = Nat.max (length old) (N.to_nat offset + length data).
Proof. unfold written. rewrite !length_app, length_take, length_app, repeat_length, length_drop. lia. Qed.

Lemma lookup_written old offset data k :
  (k < length (written old offset data))%nat ->
  written old offset data !! k =
  if (k <? N.to_nat offset)%nat then pad old k
  else if (k <? N.to_nat offset + length data)%nat then data !! (k - N.to_nat offset)%nat else pad old k.
Proof.
  rewrite length_written. intros Hk. unfold written. set (o := N.to_nat offset) in *.
  assert (length (take o (old ++ repeat x00 (o - length old))) = o) as Ho by (rewrite length_take, length_app, repeat_length; lia).
  destruct (Nat.ltb_spec k o) as [H1|H1].
  { rewrite lookup_app_l by lia. rewrite lookup_take_lt by lia. apply lookup_padded. lia. }
  rewrite lookup_app_r, Ho by lia. destruct (Nat.ltb_spec k (o + length data)) as [H2|H2]; [by rewrite lookup_app_l by lia|].
  rewrite lookup_app_r, lookup_drop by lia. unfold pad. rewrite (proj2 (Nat.ltb_lt _ _)) by lia. f_equal. lia.
Qed.

Lemma length_resized old size : length (resized old size) = N.to_nat size.
Proof. unfold resized. rewrite length_app, length_take, repeat_length. lia. Qed.

Lemma lookup_resized old size k : (k < N.to_nat size)%nat -> resized old size !! k = pad old k.
Proof.
  intros Hk. unfold resized, pad. destruct (Nat.ltb_spec k (length old)) as [H|H].
  - rewrite lookup_app_l by (rewrite length_take; lia). by rewrite lookup_take_lt.
  - rewrite lookup_app_r, length_take by (rewrite length_take; lia). apply lookup_zeros. lia.
Qed.

(** ** Windows *)

Lemma lookup_sub b i j k : sub b i j !! k = if (k <? N.to_nat (j - i))%nat then b !! (N.to_nat i + k)%nat else None.
Proof.
  unfold sub. destruct (Nat.ltb_spec k (N.to_nat (j - i))) as [H|H].
  - by rewrite lookup_take_lt, lookup_drop.
  - apply lookup_ge_None_2. rewrite length_take. lia.
Qed.

Lemma copy_at_lookup buf at_ src :
  at_ + Codec.len src <= Codec.len buf ->
  exists out, copy_at buf at_ src = Some out /\ length out = length buf /\
    forall k, out !! k = if (N.to_nat at_ <=? k)%nat && (k <? N.to_nat at_ + length src)%nat then src !! (k - N.to_nat at_)%nat else buf !! k.
Proof.
  intros H. unfold copy_at. rewrite (proj2 (N.leb_le _ _)) by done. eexists. split; [reflexivity|]. unfold Codec.len in H. split.
  { rewrite !length_app, length_take, length_drop. lia. }
  intros k. destruct (Nat.leb_spec (N.to_nat at_) k) as [H1|H1]; cbn [andb].
  - rewrite lookup_app_r by (rewrite length_take; lia). rewrite length_take, Nat.min_l by lia.
    destruct (Nat.ltb_spec k (N.to_nat at_ + length src)) as [H2|H2]; [by rewrite lookup_app_l by lia|].
    rewrite lookup_app_r, lookup_drop by lia. f_equal. lia.
  - rewrite lookup_app_l by (rewrite length_take; lia). by rewrite lookup_take_lt.
Qed.

Section Windows.
Context `{hasher : Hasher} {S : Type} `{ops : !ObjectStore S}.
Implicit Types (st : Contents S).

(** The old content of a plan. *)
Definition source st (src : option Digest) (old : bytes) : Prop :=
  match src with Some d => holds st d old | None => old = [] end.

(** The zeros of a window with the old bytes over them. *)
Lemma copy_old_spec st src old start end_ lo :
  source st src old -> start <= end_ -> end_ <= u64_max -> (start < N.min end_ (Codec.len old) -> lo = start) ->
  (N.min end_ (Codec.len old) <= start -> N.min end_ (Codec.len old) <= lo) ->
  exists out, copy_old st src start lo (N.min end_ (Codec.len old)) (repeat x00 (N.to_nat (end_ - start))) = Some (Ok out) /\
    length out = N.to_nat (end_ - start) /\ forall k, (k < N.to_nat (end_ - start))%nat -> out !! k = pad old (N.to_nat start + k).
Proof.
  intros Hsrc Hse Hmax Hlo Hno. unfold copy_old.
  assert (N.min end_ (Codec.len old) <= start -> length (repeat x00 (N.to_nat (end_ - start))) = N.to_nat (end_ - start) /\
    forall k, (k < N.to_nat (end_ - start))%nat -> repeat x00 (N.to_nat (end_ - start)) !! k = pad old (N.to_nat start + k)) as Hz.
  { intros H. rewrite repeat_length. split; [done|]. intros k Hk. rewrite lookup_zeros by done. unfold pad.
    rewrite (proj2 (Nat.ltb_ge _ _)) by (unfold Codec.len in *; lia). done. }
  destruct src as [d|]; [|cbn [source] in Hsrc; subst old; eexists; split; [reflexivity|]; apply Hz; unfold Codec.len; simpl; lia].
  destruct (N.ltb_spec lo (N.min end_ (Codec.len old))) as [Hlt|Hge].
  - destruct (N.lt_ge_cases start (N.min end_ (Codec.len old))) as [Hs|Hs]; [|specialize (Hno Hs); lia]. rewrite (Hlo Hs) in *. clear Hlo Hno.
    rewrite (read_holds st d old) by done. cbn [run_bind]. rewrite wrapping_sub_le by lia. replace (start - start) with 0 by lia.
    set (piece := sub old start _). assert (length piece = N.to_nat (N.min end_ (Codec.len old) - start)) as Hpl.
    { subst piece. unfold sub, Codec.len in *. rewrite length_take, length_drop. lia. }
    destruct (copy_at_lookup (repeat x00 (N.to_nat (end_ - start))) 0 piece) as (out & -> & Hl & Hk).
    { unfold Codec.len. rewrite repeat_length, Hpl. lia. }
    exists out. rewrite repeat_length in Hl. split_and!; [done|done|]. intros k Hlt'. rewrite Hk. change (N.to_nat 0) with O. rewrite Nat.sub_0_r.
    change (0 <=? k)%nat with true. cbn [andb]. destruct (Nat.ltb_spec k (0 + length piece)) as [H1|H1].
    + subst piece. rewrite lookup_sub, (proj2 (Nat.ltb_lt _ _)) by (unfold Codec.len in *; lia).
      unfold pad. by rewrite (proj2 (Nat.ltb_lt _ _)) by (unfold Codec.len in *; lia).
    + rewrite lookup_zeros by done. unfold pad. by rewrite (proj2 (Nat.ltb_ge _ _)) by (unfold Codec.len in *; lia).
  - eexists. split; [reflexivity|]. apply Hz. destruct (N.lt_ge_cases start (N.min end_ (Codec.len old))) as [Hs|Hs]; [|done].
    rewrite (Hlo Hs) in Hge. done.
Qed.

(** A plan for an old content whose sizes fit. *)
Definition planned (old : bytes) (plan : EditPlan) : Prop :=
  old_size plan = Codec.len old /\ new_size plan = Codec.len (edited old plan) /\ new_size plan + BLOCK <= u64_max /\
  match ep_kind plan with EditWrite offset data => offset + Codec.len data <= u64_max | EditTruncate => True end.

(** A window of an edit is a range of the edited content. *)
Lemma edit_window_spec st plan old start end_ :
  source st (ep_src plan) old -> planned old plan -> start <= end_ -> end_ <= new_size plan ->
  edit_window st plan start end_ = Some (Ok (sub (edited old plan) start end_)).
Proof.
  intros Hsrc (Hold & Hnew & Hmax & Hkind) Hse Hend. unfold edit_window, edited in *. rewrite Hold.
  destruct (ep_kind plan) as [offset data|].
  - destruct (copy_old_spec st (ep_src plan) old start end_ (N.min start (Codec.len old)) Hsrc Hse) as (buf & -> & Hbl & Hbk); [lia|lia|lia|].
    cbn [run_bind]. rewrite as_u64_id by done. set (new := written old offset data) in *.
    assert (length new = Nat.max (length old) (N.to_nat offset + length data)) as Hlen by apply length_written.
    assert (forall out, length out = N.to_nat (end_ - start) ->
      (forall k, (k < N.to_nat (end_ - start))%nat -> out !! k = new !! (N.to_nat start + k)%nat) -> out = sub new start end_) as Hfin.
    { intros out Hl Hk. apply list_eq. intros k. rewrite lookup_sub. destruct (Nat.ltb_spec k (N.to_nat (end_ - start))) as [H|H]; [by apply Hk|].
      apply lookup_ge_None_2. lia. }
    destruct (N.ltb_spec (N.max start offset) (N.min end_ (offset + Codec.len data))) as [Hd|Hd].
    + rewrite !wrapping_sub_le by lia. rewrite slice_sub by (unfold Codec.len in *; lia). cbn [lift_opt run_bind].
      set (piece := sub data _ _). assert (length piece = N.to_nat (N.min end_ (offset + Codec.len data) - N.max start offset)) as Hpl.
      { subst piece. unfold sub, Codec.len in *. rewrite length_take, length_drop. lia. }
      destruct (copy_at_lookup buf (N.max start offset - start) piece) as (out & -> & Hl & Hk); [unfold Codec.len in *; lia|].
      cbn [lift_opt]. do 2 f_equal. apply Hfin; [lia|]. intros k Hkl. rewrite Hk, (lookup_written old offset data) by (fold new; unfold Codec.len in *; lia).
      destruct (Nat.leb_spec (N.to_nat (N.max start offset - start)) k) as [H1|H1]; cbn [andb].
      * rewrite (proj2 (Nat.ltb_ge (N.to_nat start + k) (N.to_nat offset))) by lia.
        destruct (Nat.ltb_spec k (N.to_nat (N.max start offset - start) + length piece)) as [H2|H2].
        -- rewrite (proj2 (Nat.ltb_lt _ _)) by (unfold Codec.len in *; lia). subst piece. rewrite lookup_sub, (proj2 (Nat.ltb_lt _ _)) by lia. f_equal. lia.
        -- rewrite (proj2 (Nat.ltb_ge _ _)) by (unfold Codec.len in *; lia). by apply Hbk.
      * rewrite (proj2 (Nat.ltb_lt (N.to_nat start + k) (N.to_nat offset))) by lia. by apply Hbk.
    + do 2 f_equal. apply Hfin; [done|]. intros k Hkl. rewrite (lookup_written old offset data) by (fold new; unfold Codec.len in *; lia).
      rewrite Hbk by done. destruct (Nat.ltb_spec (N.to_nat start + k) (N.to_nat offset)) as [H1|H1]; [done|].
      by rewrite (proj2 (Nat.ltb_ge _ _)) by (unfold Codec.len in *; lia).
  - destruct (copy_old_spec st (ep_src plan) old start end_ start Hsrc Hse) as (buf & -> & Hbl & Hbk); [lia|lia|lia|].
    do 2 f_equal. apply list_eq. intros k. rewrite lookup_sub. destruct (Nat.ltb_spec k (N.to_nat (end_ - start))) as [H|H].
    + rewrite Hbk by done. symmetry. apply lookup_resized. lia.
    + apply lookup_ge_None_2. lia.
Qed.

End Windows.

Section Stream.
Context `{hasher : Hasher} {S : Type} `{ops : !ObjectStore S} {U : bytes -> Prop} {ok : S -> Prop} `{laws : !StoreLaws S U ok}.
Implicit Types (s : S) (st : Contents S).

(** ** Storing chunks keeps the old content readable *)

Lemma get_object_mono s s' d o : ProllyTree.extends s s' -> get_object s d = Ok o -> get_object s' d = Ok o.
Proof.
  intros [_ He]. unfold get_object. intros (x & Hx & H)%bind_Ok. apply bind_Ok in H as (b & Hb & Hd).
  destruct x as [b'|]; [|done]. injection Hb as ->. by rewrite (He _ _ Hx).
Qed.

Lemma source_mono st s' src old : ProllyTree.extends (c_store st) s' -> source st src old -> source (mkContents s' (content st)) src old.
Proof.
  intros He. destruct src as [d|]; [|done]. intros [Hl (o & Ho & Hob)]. split; [done|]. exists o. split.
  - unfold content_object in *. cbn [content c_store]. apply bind_Ok in Ho as (x & Hx & Hg). rewrite Hx. by apply (get_object_mono (c_store st)).
  - destruct o as [p|total es| | |]; try done. destruct Hob as (Ht & cs & Hc & Hes). split; [done|]. exists cs. split; [done|].
    eapply Forall2_impl; [exact Hes|]. intros e c [H1 H2]. split; [done|]. by apply (get_object_mono (c_store st)).
Qed.

Lemma put_object_extends s o d s' : put_object s o = Ok (d, s') -> ProllyTree.extends s s'.
Proof. unfold put_object. destruct (canonical o) as [b|]; [|done]. intros H. destruct (put_keeps s b d s' H). by split. Qed.

Lemma put_chunks_extends es s pieces es' s' : try_fold put_chunk (es, s) pieces = Ok (es', s') -> ProllyTree.extends s s'.
Proof.
  revert es s. induction pieces as [|c pieces IH]; intros es s; cbn [try_fold]; [by intros [= _ <-]|].
  intros ([es1 s1] & H1 & H2)%bind_Ok. unfold put_chunk in H1. apply bind_Ok in H1 as ([d s2] & Hp & [= <- <-]).
  etrans; [by eapply put_object_extends|]. by eapply IH.
Qed.

Lemma next_block old plan fuel pos :
  planned old plan -> pos < new_size plan -> new_size plan <= pos + N.of_nat (Datatypes.S fuel) * BLOCK ->
  let end_ := N.min (as_u64 (pos + BLOCK)) (new_size plan) in
  pos < end_ /\ end_ <= new_size plan /\ new_size plan <= end_ + N.of_nat fuel * BLOCK.
Proof.
  intros (_ & _ & Hmax & _) Hpos Hfuel end_. subst end_. rewrite as_u64_id by lia. unfold BLOCK, CHUNK_THRESHOLD, MIN_SIZE in *. lia.
Qed.

Lemma windows_enough plan : new_size plan <= 0 + N.of_nat (windows_of plan) * BLOCK.
Proof.
  unfold windows_of. pose proof (N.Div0.div_mod (new_size plan) BLOCK) as Hd.
  pose proof (N.mod_lt (new_size plan) BLOCK) as Hm. set (q := new_size plan / BLOCK) in *. unfold BLOCK, CHUNK_THRESHOLD, MIN_SIZE in *. lia.
Qed.

(** ** The loop of a small result *)

Lemma edit_small_spec fuel st plan old pos acc :
  source st (ep_src plan) old -> planned old plan -> pos <= new_size plan -> new_size plan <= pos + N.of_nat fuel * BLOCK ->
  edit_small fuel st plan pos acc = Some (Ok (acc ++ sub (edited old plan) pos (new_size plan))).
Proof.
  intros Hsrc Hplan. revert pos acc. induction fuel as [|fuel IH]; intros pos acc Hpos Hfuel; cbn [edit_small];
    destruct (N.leb_spec (new_size plan) pos) as [Hend|Hend];
    try (assert (pos = new_size plan) as -> by lia; unfold sub; by rewrite N.sub_diag, take_0, app_nil_r).
  { lia. }
  destruct (next_block old plan fuel pos Hplan Hend Hfuel) as (Hlt & Hle & Hrest). set (end_ := N.min _ _) in *.
  rewrite (edit_window_spec st plan old) by (done || lia). cbn [run_bind]. rewrite IH, <-app_assoc, sub_app by (done || lia). done.
Qed.

(** ** The streaming loop *)

Lemma edit_stream_spec fuel st plan old pos sc hashed entries :
  source st (ep_src plan) old -> planned old plan -> pos <= new_size plan -> new_size plan <= pos + N.of_nat fuel * BLOCK ->
  exists sc' emitted, chunk (buf sc ++ sub (edited old plan) pos (new_size plan)) = emitted ++ finish sc' /\
    edit_stream fuel st plan pos sc hashed entries =
    match try_fold put_chunk (entries, c_store st) emitted with
    | Ok (es, s) => Some (Ok (sc', hashed ++ sub (edited old plan) pos (new_size plan), es, s))
    | Err e => Some (Err e)
    end.
Proof.
  intros Hsrc Hplan. revert st pos sc hashed entries Hsrc.
  induction fuel as [|fuel IH]; intros st pos sc hashed entries Hsrc Hpos Hfuel; cbn [edit_stream];
    destruct (N.leb_spec (new_size plan) pos) as [Hend|Hend];
    try (exists sc, []; assert (pos = new_size plan) as -> by lia; unfold sub; rewrite N.sub_diag, take_0, !app_nil_r; done).
  { lia. }
  destruct (next_block old plan fuel pos Hplan Hend Hfuel) as (Hlt & Hle & Hrest). set (end_ := N.min _ _) in *.
  rewrite (edit_window_spec st plan old) by (done || lia). cbn [run_bind]. set (w := sub (edited old plan) pos end_).
  set (ext := sub (edited old plan) end_ (new_size plan)). assert (sub (edited old plan) pos (new_size plan) = w ++ ext) as ->.
  { subst w ext. rewrite sub_app by lia. done. }
  destruct (push sc w) as [sc1 out1] eqn:Ep. pose proof (push_chunk _ _ _ _ ext Ep) as [Hc _]. rewrite Hc.
  destruct (try_fold put_chunk (entries, c_store st) out1) as [[es1 s1]|e] eqn:Ef; cbn [run_bind fst snd].
  - destruct (IH (mkContents s1 (content st)) end_ sc1 (hashed ++ w) es1) as (sc' & emitted & Hc' & ->); [|lia|done|].
    { eapply source_mono; [by eapply put_chunks_extends|done]. }
    exists sc', (out1 ++ emitted). subst ext. rewrite <-!app_assoc, Hc'. split; [done|].
    rewrite try_fold_app, Ef. done.
  - exists (mkStreamChunker []), (out1 ++ chunk (buf sc1 ++ ext)). split; [by rewrite app_nil_r|]. by rewrite try_fold_app, Ef.
Qed.

Lemma sub_whole b n : n = Codec.len b -> sub b 0 n = b.
Proof. intros ->. unfold sub, Codec.len. change (N.to_nat 0) with O. rewrite drop_0, N.sub_0_r, Nat2N.id. apply firstn_all. Qed.

Lemma build_edited_spec st plan old :
  source st (ep_src plan) old -> planned old plan ->
  build_edited_content st plan =
  Some ('(addr, st') ← store_content st (edited old plan); Ok (addr, Codec.len (edited old plan), st')).
Proof.
  intros Hsrc Hplan. pose proof Hplan as (_ & Hnew & _ & _). set (new := edited old plan) in *.
  pose proof (windows_enough plan) as Hw. assert (sub new 0 (new_size plan) = new) as Hall by by apply sub_whole.
  unfold build_edited_content, store_content, put_content. rewrite Hnew at 1. destruct (N.leb_spec (Codec.len new) CHUNK_THRESHOLD).
  - rewrite (edit_small_spec _ st plan old) by (done || lia). fold new. rewrite Hall. cbn [run_bind app].
    destruct (put_object _ _) as [[obj s]|e]; cbn; by rewrite ?Hnew.
  - destruct (edit_stream_spec (windows_of plan) st plan old 0 stream_new [] [] Hsrc Hplan) as (sc & em & Hc & ->); [lia|done|].
    fold new in Hc |- *. rewrite Hall in Hc |- *. cbn [stream_new buf app] in Hc. rewrite Hc, try_fold_app.
    destruct (try_fold put_chunk ([], c_store st) em) as [[es s]|e]; cbn; [|done].
    destruct (try_fold put_chunk (es, s) (finish sc)) as [[es' s']|e]; cbn; [|done]. rewrite Hnew.
    destruct (put_object _ _) as [[obj s'']|e]; cbn; done.
Qed.

(** ** Writes past the last offset

    The end of a write wraps at 2^64. No window then meets the written bytes, so the write is a resize. *)

Lemma copy_old_unique st src old start end_ lo lo' :
  source st src old -> start <= end_ -> end_ <= u64_max ->
  (forall l, l = lo \/ l = lo' -> (start < N.min end_ (Codec.len old) -> l = start) /\ (N.min end_ (Codec.len old) <= start -> N.min end_ (Codec.len old) <= l)) ->
  copy_old st src start lo (N.min end_ (Codec.len old)) (repeat x00 (N.to_nat (end_ - start))) =
  copy_old st src start lo' (N.min end_ (Codec.len old)) (repeat x00 (N.to_nat (end_ - start))).
Proof.
  intros Hsrc Hse Hmax Hl. destruct (Hl lo ltac:(by left)) as [A1 A2]. destruct (Hl lo' ltac:(by right)) as [B1 B2].
  destruct (copy_old_spec st src old start end_ lo Hsrc Hse Hmax A1 A2) as (b1 & -> & L1 & K1).
  destruct (copy_old_spec st src old start end_ lo' Hsrc Hse Hmax B1 B2) as (b2 & -> & L2 & K2). do 2 f_equal. apply list_eq. intros k.
  destruct (Nat.lt_ge_cases k (N.to_nat (end_ - start))) as [Hk|Hk]; [by rewrite K1, K2|]. by rewrite !lookup_ge_None_2 by lia.
Qed.

(** The end of the write wraps. *)
Definition wraps (offset : N) (data : bytes) : Prop := offset <= u64_max /\ Codec.len data <= u64_max /\ u64_max < offset + Codec.len data.

Lemma wraps_end offset data :
  wraps offset data -> as_u64 (offset + Codec.len data) = offset + Codec.len data - 2 ^ 64 /\ as_u64 (offset + Codec.len data) < offset.
Proof.
  intros (H1 & H2 & H3). assert (as_u64 (offset + Codec.len data) = offset + Codec.len data - 2 ^ 64) as ->; [|unfold u64_max in *; lia].
  unfold as_u64. symmetry. apply (N.mod_unique _ _ 1); unfold u64_max in *; lia.
Qed.

Section Wrap.
Context (src : option Digest) (old : bytes) (offset : N) (data : bytes).
Abbreviation write_plan := (plan_write src (Codec.len old) offset data).
Abbreviation resize_plan := (plan_truncate src (Codec.len old) (new_size write_plan)).
Hypothesis Hw : wraps offset data.
Hypothesis Hmax : new_size write_plan + BLOCK <= u64_max.

Lemma edit_window_wraps st start end_ :
  source st src old -> start <= end_ -> end_ <= new_size write_plan -> edit_window st write_plan start end_ = edit_window st resize_plan start end_.
Proof.
  intros Hsrc Hse Hend. unfold edit_window. cbn [plan_write plan_truncate ep_kind ep_src old_size].
  rewrite (copy_old_unique st src old start end_ (N.min start (Codec.len old)) start Hsrc Hse) by (lia || (intros l [-> | ->]; split; lia)).
  destruct (copy_old _ _ _ _ _ _) as [[buf|e]|]; cbn [run_bind]; [|done|done]. destruct (wraps_end offset data Hw) as [_ He].
  by rewrite (proj2 (N.ltb_ge _ _)) by lia.
Qed.

Lemma block_end pos : pos < new_size write_plan -> pos <= N.min (as_u64 (pos + BLOCK)) (new_size write_plan).
Proof. intros Hpos. rewrite as_u64_id by lia. lia. Qed.

Lemma edit_small_wraps fuel st pos acc : source st src old -> edit_small fuel st write_plan pos acc = edit_small fuel st resize_plan pos acc.
Proof.
  intros Hsrc. revert pos acc. induction fuel as [|fuel IH]; intros pos acc; cbn [edit_small]; change (new_size resize_plan) with (new_size write_plan); [done|].
  destruct (N.leb_spec (new_size write_plan) pos) as [|Hpos]; [done|]. rewrite edit_window_wraps; [|done|by apply block_end|apply N.le_min_r].
  destruct (edit_window _ _ _ _) as [[w|e]|]; cbn [run_bind]; [apply IH|done|done].
Qed.

Lemma edit_stream_wraps fuel st pos sc hashed entries :
  source st src old -> edit_stream fuel st write_plan pos sc hashed entries = edit_stream fuel st resize_plan pos sc hashed entries.
Proof.
  revert st pos sc hashed entries. induction fuel as [|fuel IH]; intros st pos sc hashed entries Hsrc; cbn [edit_stream];
    change (new_size resize_plan) with (new_size write_plan); [done|].
  destruct (N.leb_spec (new_size write_plan) pos) as [|Hpos]; [done|]. rewrite edit_window_wraps; [|done|by apply block_end|apply N.le_min_r].
  destruct (edit_window _ _ _ _) as [[w|e]|]; cbn [run_bind]; [|done|done]. destruct (push sc w) as [sc1 out1].
  destruct (try_fold put_chunk _ out1) as [[es1 s1]|e] eqn:Ef; cbn [run_bind]; [|done]. apply IH.
  eapply source_mono; [by eapply put_chunks_extends|done].
Qed.

Lemma build_edited_wraps st : source st src old -> build_edited_content st write_plan = build_edited_content st resize_plan.
Proof.
  intros Hsrc. unfold build_edited_content. change (new_size resize_plan) with (new_size write_plan). change (windows_of resize_plan) with (windows_of write_plan).
  by rewrite edit_small_wraps, edit_stream_wraps.
Qed.
End Wrap.

Lemma build_resized st src old size :
  source st src old -> size + BLOCK <= u64_max ->
  build_edited_content st (plan_truncate src (Codec.len old) size) = Some ('(addr, st') ← store_content st (resized old size); Ok (addr, size, st')).
Proof.
  intros Hsrc Hmax. assert (Codec.len (resized old size) = size) as Hl by (unfold Codec.len; rewrite length_resized; lia).
  rewrite (build_edited_spec st (plan_truncate src (Codec.len old) size) old Hsrc); unfold planned, plan_truncate, edited;
    cbn [ep_kind old_size new_size]; rewrite Hl; [done|lia].
Qed.

(** C23: Editing a stored content in place stores what storing the whole edited bytes would, with the same address,
    size, store and index, for small and for streamed results and also when the store fails, wherever the result
    leaves room for a block below 2^64. A write whose end is below 2^64 gives the old bytes with the data over
    them, the gap past the old end filled with zeros; a resize gives the old bytes cut or extended with
    zeros. A write whose end wraps past 2^64 writes none of its data: it only resizes, to the wrapped end where that is
    past the old one. *)
Theorem content_edit st src old :
  source st src old ->
  (forall offset data, N.max (Codec.len old) (offset + Codec.len data) + BLOCK <= u64_max ->
     build_edited_content st (plan_write src (Codec.len old) offset data) =
     Some ('(addr, st') ← store_content st (written old offset data);
           Ok (addr, N.max (Codec.len old) (offset + Codec.len data), st'))) /\
  (forall size, size + BLOCK <= u64_max ->
     build_edited_content st (plan_truncate src (Codec.len old) size) =
     Some ('(addr, st') ← store_content st (resized old size); Ok (addr, size, st'))) /\
  (forall offset data, wraps offset data ->
     let size := N.max (Codec.len old) (offset + Codec.len data - 2 ^ 64) in
     size + BLOCK <= u64_max ->
     build_edited_content st (plan_write src (Codec.len old) offset data) =
     Some ('(addr, st') ← store_content st (resized old size); Ok (addr, size, st'))).
Proof.
  intros Hsrc. split_and!.
  - intros offset data Hmax. assert (Codec.len (written old offset data) = N.max (Codec.len old) (offset + Codec.len data)) as Hl.
    { unfold Codec.len. rewrite length_written. lia. }
    rewrite <-Hl. apply (build_edited_spec st (plan_write src (Codec.len old) offset data) old Hsrc).
    unfold planned, plan_write, edited. cbn [ep_kind old_size new_size]. rewrite as_u64_id, Hl by lia. lia.
  - intros size Hmax. by apply build_resized.
  - intros offset data Hw size Hmax. destruct (wraps_end offset data Hw) as [He _].
    assert (new_size (plan_write src (Codec.len old) offset data) = size) as Hn by (unfold plan_write; cbn [new_size]; by rewrite He).
    rewrite (build_edited_wraps src old offset data Hw), Hn by (done || by rewrite Hn). by apply build_resized.
Qed.
End Stream.

End VcsEdit.

(** * Version control: example histories and contents

    A history with a fork on a concrete memory store, and concrete contents, on which the theorems
    about history, blame and content apply. *)

Module VcsSamples.
Import Error Digest Object Store VcsTree VcsWrite VcsTreeProps VcsHistory VcsHistoryProps VcsContent VcsContentProps VcsEdit.

#[local] Existing Instance toy_hasher.

(** ** A fork: two commits on one root *)

Definition file_of (text : bytes) : StagedEntry := SFile (mkStagedFile (mkDigest Blake3 (repeat x05 31 ++ text)) 420).
Definition root_files : WorkTree := {[str "a" := file_of [x01]; str "b" := file_of [x02]]}.
Definition left_files : WorkTree := {[str "a" := file_of [x03]; str "b" := file_of [x02]]}.
Definition right_files : WorkTree := {[str "a" := file_of [x01]; str "b" := file_of [x04]]}.

Definition put_commit (s : MemoryStore) (files : WorkTree) (parents : list Digest) : option (res (Digest * MemoryStore)) :=
  t ⇠ build_subtree 4 s files ∅ [];
  Some (put_object t.2 (OCommit (mkCommit t.1 parents (str "ann") 1 (str "m") ∅))).

Definition forked : option (res (Digest * Digest * Digest * MemoryStore)) :=
  r ⇠ put_commit memory_new root_files [];
  a ⇠ put_commit r.2 left_files [r.1];
  b ⇠ put_commit a.2 right_files [r.1];
  Some (Ok (r.1, a.1, b.1, b.2)).

Definition fork : Digest * Digest * Digest * MemoryStore := Eval vm_compute in
  match forked with Some (Ok x) => x | _ => (blake3 [], blake3 [], blake3 [], memory_new) end.

Definition fork_root : Digest := Eval vm_compute in fork.1.1.1.
Definition fork_left : Digest := Eval vm_compute in fork.1.1.2.
Definition fork_right : Digest := Eval vm_compute in fork.1.2.
Definition fork_store : MemoryStore := Eval vm_compute in fork.2.

Definition fork_history : gmap bytes (list bytes) :=
  {[dbytes fork_root := []; dbytes fork_left := [dbytes fork_root]; dbytes fork_right := [dbytes fork_root]]}.

Lemma fork_commit d c :
  get_commit fork_store (mkDigest Blake3 (dbytes d)) = Ok c -> forall d', dbytes d' = dbytes d -> get_commit fork_store d' = Ok c.
Proof. unfold get_commit, get_object, get. cbn [memory_object_store]. unfold memory_get. cbn [dbytes]. by intros H d' ->. Qed.

Lemma fork_is_history : history fork_store fork_history.
Proof.
  unfold history. assert (forall d, dbytes d ∈ [dbytes fork_root] -> is_Some (fork_history !! dbytes d)) as Hroot.
  { intros d Hd. apply list_elem_of_singleton in Hd as ->. by vm_compute; eexists. }
  unfold fork_history at 1. repeat apply map_Forall_insert_2; [| | |apply map_Forall_empty].
  all: split; [eexists; split; [apply fork_commit; vm_compute; reflexivity|by vm_compute]|].
  1: apply Forall_nil_2.
  all: apply Forall_singleton, Hroot, list_elem_of_singleton; done.
Qed.

Lemma fork_acyclic : acyclic fork_history.
Proof.
  exists (fun b => if decide (b = dbytes fork_root) then 0%nat else 1%nat). intros b p (ps & Hb & Hp).
  assert (dbytes fork_left <> dbytes fork_root /\ dbytes fork_right <> dbytes fork_root) as [Hl Hr] by (split; by vm_compute).
  unfold fork_history in Hb. apply lookup_insert_Some in Hb as [[<- <-]|[_ Hb]]; [by apply elem_of_nil in Hp|].
  apply lookup_insert_Some in Hb as [[<- <-]|[_ Hb]]; [|apply lookup_singleton_Some in Hb as [<- <-]];
    apply list_elem_of_singleton in Hp as ->; rewrite decide_True, decide_False by done; lia.
Qed.

Lemma merge_bases_witness :
  exists l, merge_base_set 8 fork_store fork_left fork_right = Some (Ok l) /\ sorted_by dbytes l /\
    (forall x, common_ancestor fork_history (dbytes fork_left) (dbytes fork_right) x ->
       exists y, y ∈ map dbytes l /\ ancestor fork_history x y).
Proof.
  destruct (merge_bases fork_store fork_history 8 fork_left fork_right) as [_ (l & H1 & H2 & _ & H3)].
  - apply fork_is_history.
  - apply fork_acyclic.
  - by vm_compute; eexists.
  - by vm_compute; eexists.
  - apply Nat.leb_le. by vm_compute.
  - exists l. exact (conj H1 (conj H2 H3)).
Defined.

(** ** Blame on the left branch *)

Definition tree_of (d : Digest) : WorkTree * gset bytes :=
  match flatten_commit 4 fork_store d with Some (Ok t) => t | _ => (∅, ∅) end.
Definition left_tree : WorkTree * gset bytes := Eval vm_compute in tree_of fork_left.
Definition root_tree : WorkTree * gset bytes := Eval vm_compute in tree_of fork_root.

Lemma left_flat : flatten_commit 4 fork_store fork_left = Some (Ok left_tree).
Proof. vm_cast_no_check (@eq_refl (option (res (WorkTree * gset bytes))) (Some (Ok left_tree))). Qed.
Lemma root_flat : flatten_commit 4 fork_store fork_root = Some (Ok root_tree).
Proof. vm_cast_no_check (@eq_refl (option (res (WorkTree * gset bytes))) (Some (Ok root_tree))). Qed.

Lemma blame_correct_witness :
  exists out, blame 4 fork_store [fork_left; fork_root] = Some (Ok out) /\
    Forall (fun e => set_by [fork_left; fork_root] [left_tree; root_tree] e.1 e.2) out.
Proof.
  destruct (blame_correct fork_store 4 [fork_left; fork_root] [left_tree; root_tree]) as (out & H1 & _ & _ & H2).
  - exact (List.Forall2_cons _ _ left_flat (List.Forall2_cons _ _ root_flat (List.Forall2_nil _))).
  - discriminate.
  - exists out. exact (conj H1 H2).
Defined.

(** ** Contents *)

Definition demo_content : bytes := repeat x41 40.
Definition demo_writes : list bytes := Eval vm_compute in
  match put_content (ops := log_store Blake3) [] demo_content with Ok (_, w) => w | Err _ => [] end.

#[local] Instance demo_laws : StoreLaws MemoryStore (fun b => b ∈ demo_writes) (fun s => addressed s /\ within (fun b => b ∈ demo_writes) s).
Proof. apply finite_universe; vm_compute; reflexivity. Qed.

Definition no_contents : Contents MemoryStore := mkContents memory_new ∅.

Lemma content_roundtrip_witness :
  exists st', store_content no_contents demo_content = Ok (hash Blake3 demo_content, st') /\
    load_content st' (hash Blake3 demo_content) = Ok demo_content.
Proof.
  destruct (content_roundtrip (U := fun b => b ∈ demo_writes) no_contents demo_content) as (d & w & E & H).
  - split; apply map_Forall_empty.
  - apply N.leb_le. by vm_compute.
  - assert (w = demo_writes) as Hw by (vm_compute in E; injection E as _ <-; reflexivity).
    destruct H as (st' & H1 & _ & H2 & _); [rewrite Hw; by apply Forall_forall|]. exists st'. exact (conj H1 H2).
Defined.

Lemma content_edit_witness :
  build_edited_content no_contents (plan_write None 0 4 (str "data")) =
  Some ('(addr, st') ← store_content no_contents (written [] 4 (str "data")); Ok (addr, 8, st')).
Proof.
  destruct (content_edit (U := fun b => b ∈ demo_writes) no_contents None []) as (H & _ & _); [done|].
  apply (H 4 (str "data")). apply N.leb_le. by vm_compute.
Defined.

End VcsSamples.
