(* ===== verification/Identity.v ===== *)
(** * Principals, roles, credentials and sessions (crates/loom-core/src/identity.rs)

    The local identity store: who exists, which roles and credentials they have, which sessions are
    bound to them, and which principal is the authority. The password hash, SHA-1, the signature
    schemes and the hex codec are parameters.

    An operation that fails leaves the store as it was, except where a challenge has already been
    consumed: those operations return the store beside the result. *)

From S2P Require Import Prelude Codec Types Workspace Cbor VcsTree.

Module Identity.
Import Error Codec Digest Cbor.

Definition KEY_LEN : N := 32.
Definition MYSQL_NATIVE_PASSWORD_HASH_LEN : nat := 20.
Definition HANDOFF_RECORD_TYPE : bytes := str "loom.identity.authority_handoff.v1".
Definition HANDOFF_PAYLOAD_TYPE : bytes := str "loom.identity.authority_handoff.payload.v1".
Definition PRINCIPAL_SIGNED_PAYLOAD_TYPE : bytes := str "loom.identity.principal_signed_payload.v1".
Definition ALG_ES256 : bytes := str "ES256".
Definition SUITE_ED25519 : bytes := str "Ed25519".
Definition MAX_PUBLIC_KEY_LEN : N := 4096.

(** The ids of the built-in roles end in 1 to 5. *)
Definition role_id (n : byte) : bytes := [x6c; x6f; x6f; x6d; x00; x00; x40; x00; x80; x00; x00; x00; x00; x00; x00; n].
Definition ROLE_ADMIN_ID : bytes := role_id x01.
Definition ROLE_READER_ID : bytes := role_id x02.
Definition ROLE_WRITER_ID : bytes := role_id x03.
Definition ROLE_OPERATOR_ID : bytes := role_id x04.
Definition ROLE_SERVICE_ID : bytes := role_id x05.

(** ** Records *)

Inductive PrincipalKind : Type := Root | User | Service.

Record Principal : Type := mkPrincipal {
  p_id : bytes; p_handle : bytes; p_name : bytes; p_kind : PrincipalKind;
  p_enabled : bool; has_passphrase : bool; p_roles : gset bytes;
}.

Record AppCredential : Type := mkAppCredential { ac_id : bytes; ac_principal : bytes; ac_label : bytes; ac_enabled : bool }.

Inductive ExternalCredentialKind : Type := PublicKey | MtlsCertificate | Passkey | OidcSubject | SamlSubject.

Record ExternalCredential : Type := mkExternalCredential {
  ec_id : bytes; ec_principal : bytes; ec_kind : ExternalCredentialKind; ec_label : bytes;
  ec_issuer : bytes; ec_subject : bytes; ec_material : option bytes; ec_enabled : bool;
}.

Record Challenge : Type := mkChallenge {
  ch_id : bytes; ch_credential : bytes; ch_nonce : bytes; ch_issued : N; ch_expires : N;
}.

Record PublicKeyRecord : Type := mkPublicKeyRecord {
  pk_id : bytes; pk_principal : bytes; pk_label : bytes; pk_algorithm : bytes; pk_bytes : bytes; pk_enabled : bool;
}.

Record IdentityRole : Type := mkIdentityRole { role_key : bytes; role_name : bytes; role_enabled : bool }.

Record Session : Type := mkSession { session_key : bytes; session_owner : bytes }.

Inductive AuthorityMode : Type := Authority | Mirror | Detached.

Record AuthorityState : Type := mkAuthorityState {
  a_mode : AuthorityMode; a_authority : bytes; a_generation : N; a_head : option Digest;
}.

Record Handoff : Type := mkHandoff {
  h_from : bytes; h_to : bytes; h_generation : N; h_head : option Digest; signed_record : bytes;
}.

Record Detach : Type := mkDetach { previous_authority : bytes; new_authority : bytes; d_generation : N; reason : bytes }.

Record PassphraseVerifier : Type := mkPassphraseVerifier { pv_salt : bytes; pv_hash : bytes; pv_mysql : option bytes }.

Record AppCredentialVerifier : Type := mkAppCredentialVerifier {
  av_credential : AppCredential; av_salt : bytes; av_hash : bytes; av_mysql : option bytes;
}.

#[global] Instance PrincipalKind_eq_dec : EqDecision PrincipalKind.
Proof. solve_decision. Defined.
#[global] Instance ExternalCredentialKind_eq_dec : EqDecision ExternalCredentialKind.
Proof. solve_decision. Defined.
#[global] Instance AuthorityMode_eq_dec : EqDecision AuthorityMode.
Proof. solve_decision. Defined.

Record IdentityStore : Type := mkIdentityStore {
  root : option bytes;
  authority : AuthorityState;
  handoffs : gmap N Handoff;
  detach : option Detach;
  principals : gmap bytes Principal;
  id_handles : gmap bytes bytes;
  roles : gmap bytes IdentityRole;
  passphrases : gmap bytes PassphraseVerifier;
  app_credentials : gmap bytes AppCredentialVerifier;
  external_credentials : gmap bytes ExternalCredential;
  external_challenges : gmap bytes Challenge;
  public_keys : gmap bytes PublicKeyRecord;
  sessions : gmap bytes bytes;
}.

Implicit Types (s : IdentityStore).

(** Assignments to one field. *)
Definition set_authority s (a : AuthorityState) (hs : gmap N Handoff) (d : option Detach) : IdentityStore :=
  mkIdentityStore (root s) a hs d (principals s) (id_handles s) (roles s) (passphrases s) (app_credentials s)
    (external_credentials s) (external_challenges s) (public_keys s) (sessions s).
Definition set_principals s (ps : gmap bytes Principal) : IdentityStore :=
  mkIdentityStore (root s) (authority s) (handoffs s) (detach s) ps (id_handles s) (roles s) (passphrases s) (app_credentials s)
    (external_credentials s) (external_challenges s) (public_keys s) (sessions s).
Definition set_handles s (hs : gmap bytes bytes) : IdentityStore :=
  mkIdentityStore (root s) (authority s) (handoffs s) (detach s) (principals s) hs (roles s) (passphrases s) (app_credentials s)
    (external_credentials s) (external_challenges s) (public_keys s) (sessions s).
Definition set_passphrases s (pp : gmap bytes PassphraseVerifier) : IdentityStore :=
  mkIdentityStore (root s) (authority s) (handoffs s) (detach s) (principals s) (id_handles s) (roles s) pp (app_credentials s)
    (external_credentials s) (external_challenges s) (public_keys s) (sessions s).
Definition set_app_credentials s (ac : gmap bytes AppCredentialVerifier) : IdentityStore :=
  mkIdentityStore (root s) (authority s) (handoffs s) (detach s) (principals s) (id_handles s) (roles s) (passphrases s) ac
    (external_credentials s) (external_challenges s) (public_keys s) (sessions s).
Definition set_external s (ec : gmap bytes ExternalCredential) (ch : gmap bytes Challenge) : IdentityStore :=
  mkIdentityStore (root s) (authority s) (handoffs s) (detach s) (principals s) (id_handles s) (roles s) (passphrases s)
    (app_credentials s) ec ch (public_keys s) (sessions s).
Definition set_public_keys s (pk : gmap bytes PublicKeyRecord) : IdentityStore :=
  mkIdentityStore (root s) (authority s) (handoffs s) (detach s) (principals s) (id_handles s) (roles s) (passphrases s)
    (app_credentials s) (external_credentials s) (external_challenges s) pk (sessions s).
Definition set_sessions s (ss : gmap bytes bytes) : IdentityStore :=
  mkIdentityStore (root s) (authority s) (handoffs s) (detach s) (principals s) (id_handles s) (roles s) (passphrases s)
    (app_credentials s) (external_credentials s) (external_challenges s) (public_keys s) ss.

(** ** Construction and queries *)

Definition built_in_roles : gmap bytes IdentityRole :=
  list_to_map (map (fun '(id, name) => (id, mkIdentityRole id name true))
    [(ROLE_ADMIN_ID, str "admin"); (ROLE_READER_ID, str "reader"); (ROLE_WRITER_ID, str "writer");
     (ROLE_OPERATOR_ID, str "operator"); (ROLE_SERVICE_ID, str "service")]).

Definition identity_new (root : bytes) : IdentityStore :=
  mkIdentityStore (Some root) (mkAuthorityState Authority root 0 None) ∅ None
    {[root := mkPrincipal root (str "root") (str "root") Root true false {[ROLE_ADMIN_ID]}]}
    {[str "root" := root]} built_in_roles ∅ ∅ ∅ ∅ ∅ ∅.

Definition authenticated_mode s : bool :=
  negb (bool_decide (passphrases s = ∅)) || negb (bool_decide (app_credentials s = ∅))
  || negb (bool_decide (external_credentials s = ∅)) || (1 <? size (principals s))%nat.

Definition principal s (id : bytes) : res Principal := ok_or (principals s !! id) NotFound.
Definition role s (id : bytes) : res IdentityRole := ok_or (roles s !! id) NotFound.

(** Whether an enabled administrator other than [excluded] has a credential. *)
Definition recovers s (excluded : option bytes) (id : bytes) (p : Principal) : bool :=
  let has_app_credential := existsb (fun e => bool_decide (ac_principal (av_credential e.2) = id) && ac_enabled (av_credential e.2))
    (map_to_list (app_credentials s)) in
  let has_external_credential := existsb (fun e => bool_decide (ec_principal e.2 = id) && ec_enabled e.2)
    (map_to_list (external_credentials s)) in
  negb (bool_decide (Some id = excluded)) && p_enabled p && bool_decide (ROLE_ADMIN_ID ∈ p_roles p)
  && (bool_decide (is_Some (passphrases s !! id)) || has_app_credential || has_external_credential).

Definition has_recovery_principal_excluding s (excluded : option bytes) : bool :=
  existsb (fun e => recovers s excluded e.1 e.2) (map_to_list (principals s)).

Definition has_recovery_principal s : bool := has_recovery_principal_excluding s None.

(** ** Handles *)

Definition is_lower (b : byte) : bool := let n := Byte.to_N b in (97 <=? n) && (n <=? 122).
Definition is_upper (b : byte) : bool := let n := Byte.to_N b in (65 <=? n) && (n <=? 90).
Definition is_digit (b : byte) : bool := let n := Byte.to_N b in (48 <=? n) && (n <=? 57).
Definition is_alphanumeric (b : byte) : bool := is_lower b || is_upper b || is_digit b.
Definition to_ascii_lowercase (b : byte) : byte := if is_upper b then as_u8 (Byte.to_N b + 32) else b.

Definition handle_byte (b : byte) : bool :=
  is_lower b || is_digit b || bool_decide (b = x2e) || bool_decide (b = x5f) || bool_decide (b = x2d).

Definition normalize_principal_handle (value : bytes) : res bytes :=
  let value := map to_ascii_lowercase value in
  match head value, last value with
  | Some first, Some final =>
      if (Codec.len value <=? 64) && is_alphanumeric first && is_alphanumeric final && forallb handle_byte value
      then Ok value else Err InvalidArgument
  | _, _ => Err InvalidArgument
  end.

(** The loop over the characters of a name. A character that is not ASCII is a run of bytes that are
    not alphanumeric, so the loop may run over the bytes. *)
Fixpoint handle_loop (name handle : bytes) (separator_pending : bool) : bytes :=
  match name with
  | [] => handle
  | c :: name =>
      if is_alphanumeric c then
        let handle := if separator_pending && negb (bool_decide (handle = [])) then handle ++ [x2d] else handle in
        handle_loop name (handle ++ [to_ascii_lowercase c]) false
      else handle_loop name handle true
  end.

Definition principal_handle_from_display_name (name : bytes) : res bytes :=
  normalize_principal_handle (handle_loop name [] false).

(** ** Principals and roles *)

Definition add_principal_with_handle s (id handle name : bytes) (kind : PrincipalKind) : res IdentityStore :=
  if bool_decide (is_Some (principals s !! id)) then Err AlreadyExists
  else
    handle ← normalize_principal_handle handle;
    if bool_decide (is_Some (id_handles s !! handle)) then Err AlreadyExists
    else if bool_decide (name = []) then Err InvalidArgument
    else
      let s := set_principals s (<[id := mkPrincipal id handle name kind true false ∅]> (principals s)) in
      Ok (set_handles s (<[handle := id]> (id_handles s))).

Definition add_principal s (id name : bytes) (kind : PrincipalKind) : res IdentityStore :=
  handle ← principal_handle_from_display_name name;
  add_principal_with_handle s id handle name kind.

Definition resolve_handle s (handle : bytes) : res (option bytes) :=
  handle ← normalize_principal_handle handle;
  Ok (match id_handles s !! handle with
      | Some p => if bool_decide (is_Some (principals s !! p)) then Some p else None
      | None => None
      end).

Definition with_handle (p : Principal) (handle : bytes) : Principal :=
  mkPrincipal (p_id p) handle (p_name p) (p_kind p) (p_enabled p) (has_passphrase p) (p_roles p).
Definition with_roles (p : Principal) (rs : gset bytes) : Principal :=
  mkPrincipal (p_id p) (p_handle p) (p_name p) (p_kind p) (p_enabled p) (has_passphrase p) rs.
Definition with_passphrase (p : Principal) : Principal :=
  mkPrincipal (p_id p) (p_handle p) (p_name p) (p_kind p) (p_enabled p) true (p_roles p).

Definition rename_principal_handle s (id handle : bytes) : res IdentityStore :=
  handle ← normalize_principal_handle handle;
  if match id_handles s !! handle with Some existing => negb (bool_decide (existing = id)) | None => false end
  then Err AlreadyExists
  else
    p ← principal s id;
    Ok (set_handles (set_principals s (<[id := with_handle p handle]> (principals s))) (<[handle := id]> (id_handles s))).

Definition assign_role s (id role_ : bytes) : res IdentityStore :=
  r ← role s role_;
  if negb (role_enabled r) then Err PermissionDenied
  else
    p ← principal s id;
    if bool_decide (role_ ∈ p_roles p) then Err AlreadyExists
    else Ok (set_principals s (<[id := with_roles p ({[role_]} ∪ p_roles p)]> (principals s))).

Definition revoke_role s (id role_ : bytes) : res (bool * IdentityStore) :=
  p ← principal s id;
  let removed := bool_decide (role_ ∈ p_roles p) in
  let s' := set_principals s (<[id := with_roles p (p_roles p ∖ {[role_]})]> (principals s)) in
  if removed && authenticated_mode s' && negb (has_recovery_principal s') then Err IdentityNoRootCredential
  else Ok (removed, s').

Definition effective_roles s (id : bytes) : res (gset bytes) :=
  p ← principal s id;
  Ok (filter (fun r => role_enabled <$> roles s !! r = Some true) (p_roles p)).

Definition remove_principal s (id : bytes) : res (Principal * IdentityStore) :=
  removed ← principal s id;
  if authenticated_mode s && negb (has_recovery_principal_excluding s (Some id)) then Err IdentityNoRootCredential
  else
    let external := filter (fun e => ec_principal e.2 <> id) (external_credentials s) in
    Ok (removed, mkIdentityStore (if bool_decide (root s = Some id) then None else root s) (authority s) (handoffs s) (detach s)
      (delete id (principals s)) (id_handles s) (roles s) (delete id (passphrases s))
      (filter (fun e => ac_principal (av_credential e.2) <> id) (app_credentials s)) external
      (filter (fun e => is_Some (external !! ch_credential e.2)) (external_challenges s))
      (filter (fun e => pk_principal e.2 <> id) (public_keys s))
      (filter (fun e => e.2 <> id) (sessions s))).

(** ** Credentials *)

(** [argon2] and its errors, SHA-1, the verifiers of the two signature suites, and the hex codec. *)
Class Crypto : Type := {
  argon2 : bytes -> bytes -> res bytes;
  sha1 : bytes -> bytes;
  verify_es256_signature : bytes -> bytes -> bytes -> res ();
  verify_ed25519_signature : bytes -> bytes -> bytes -> res ();
  hex_encode : bytes -> bytes;
  hex_decode : bytes -> option bytes;
}.

Section Credentials.
Context `{crypto : Crypto}.

Definition derive_passphrase_hash (passphrase salt : bytes) : res bytes :=
  if Codec.len salt <? 8 then Err InvalidArgument else argon2 passphrase salt.

Definition mysql_native_password_hash (password : bytes) : bytes := sha1 (sha1 password).

Definition xor_byte (a b : byte) : byte := as_u8 (N.lxor (Byte.to_N a) (Byte.to_N b)).

Definition mysql_native_password_verify (stored_hash challenge scramble : bytes) : bool :=
  if negb (length scramble =? MYSQL_NATIVE_PASSWORD_HASH_LEN)%nat then false
  else
    let challenge_hash := sha1 (challenge ++ stored_hash) in
    let stage1 := zip_with xor_byte scramble challenge_hash in
    bool_decide (sha1 stage1 = stored_hash).

Definition set_passphrase s (id passphrase salt : bytes) : res IdentityStore :=
  if bool_decide (passphrase = []) then Err InvalidArgument
  else
    p ← principal s id;
    if negb (p_enabled p) then Err PermissionDenied
    else
      h ← derive_passphrase_hash passphrase salt;
      let v := mkPassphraseVerifier salt h (Some (mysql_native_password_hash passphrase)) in
      Ok (set_principals (set_passphrases s (<[id := v]> (passphrases s))) (<[id := with_passphrase p]> (principals s))).

Definition bind_session s (id session_id : bytes) : res (Session * IdentityStore) :=
  if bool_decide (session_id = []) then Err InvalidArgument
  else
    p ← principal s id;
    if negb (p_enabled p) then Err AuthenticationFailed
    else Ok (mkSession session_id id, set_sessions s (<[session_id := id]> (sessions s))).

Definition authenticate_passphrase s (id passphrase session_id : bytes) : res (Session * IdentityStore) :=
  if bool_decide (session_id = []) then Err InvalidArgument
  else
    p ← principal s id;
    if negb (p_enabled p) then Err AuthenticationFailed
    else
      v ← ok_or (passphrases s !! id) AuthenticationFailed;
      h ← derive_passphrase_hash passphrase (pv_salt v);
      if negb (bool_decide (h = pv_hash v)) then Err AuthenticationFailed
      else Ok (mkSession session_id id, set_sessions s (<[session_id := id]> (sessions s))).

(** [{:02x}] *)
Definition hex_digit (n : N) : byte := as_u8 (if n <? 10 then 48 + n else 87 + n).
Definition hex_byte (b : byte) : bytes := [hex_digit (Byte.to_N b / 16); hex_digit (Byte.to_N b mod 16)].

(** The groups of a displayed id: 4, 2, 2, 2 and 6 bytes. *)
Definition workspace_id_display (id : bytes) : bytes :=
  let group i n := concat (map hex_byte (take n (drop i id))) in
  group 0%nat 4%nat ++ [x2d] ++ group 4%nat 2%nat ++ [x2d] ++ group 6%nat 2%nat ++ [x2d] ++ group 8%nat 2%nat ++ [x2d] ++ group 10%nat 6%nat.

Definition TOKEN_PREFIX : bytes := str "loom_app_".
Definition app_credential_token (id secret : bytes) : bytes :=
  TOKEN_PREFIX ++ workspace_id_display id ++ [x5f] ++ hex_encode secret.

Definition create_app_credential s (id cred label secret salt : bytes) : res (AppCredential * IdentityStore) :=
  if bool_decide (secret = []) then Err InvalidArgument
  else if bool_decide (is_Some (app_credentials s !! cred)) then Err AlreadyExists
  else
    p ← principal s id;
    if negb (p_enabled p) then Err PermissionDenied
    else if bool_decide (label = []) then Err InvalidArgument
    else
      let credential := mkAppCredential cred id label true in
      h ← derive_passphrase_hash secret salt;
      let v := mkAppCredentialVerifier credential salt h (Some (mysql_native_password_hash (app_credential_token cred secret))) in
      Ok (credential, set_app_credentials s (<[cred := v]> (app_credentials s))).

Definition revoke_app_credential s (cred : bytes) : res (AppCredential * IdentityStore) :=
  v ← ok_or (app_credentials s !! cred) NotFound;
  Ok (av_credential v, set_app_credentials s (delete cred (app_credentials s))).

(** [s.rsplit_once('_')] *)
Definition rsplit_underscore (b : bytes) : option (bytes * bytes) :=
  match list_find (fun c => c = x5f) (reverse b) with
  | Some (i, _) => Some (take (length b - S i) b, drop (length b - i) b)
  | None => None
  end.

(** [WorkspaceId::parse] *)
Definition workspace_id_parse (value : bytes) : option bytes :=
  match hex_decode (filter (fun c => c <> x2d) value) with
  | Some raw => if (length raw =? 16)%nat then Some raw else None
  | None => None
  end.

Definition parse_app_credential_token (token : bytes) : res (bytes * bytes) :=
  rest ← ok_or (VcsTree.strip_prefix token TOKEN_PREFIX) AuthenticationFailed;
  '(id, secret_hex) ← ok_or (rsplit_underscore rest) AuthenticationFailed;
  id ← ok_or (workspace_id_parse id) AuthenticationFailed;
  secret ← ok_or (hex_decode secret_hex) AuthenticationFailed;
  Ok (id, secret).

Definition authenticate_app_credential s (token session_id : bytes) : res (Session * IdentityStore) :=
  '(cred, secret) ← parse_app_credential_token token;
  v ← ok_or (app_credentials s !! cred) AuthenticationFailed;
  if negb (ac_enabled (av_credential v)) then Err AuthenticationFailed
  else
    let id := ac_principal (av_credential v) in
    p ← principal s id;
    if negb (p_enabled p) then Err AuthenticationFailed
    else
      h ← derive_passphrase_hash secret (av_salt v);
      if negb (bool_decide (h = av_hash v)) then Err AuthenticationFailed
      else bind_session s id session_id.

(** Whether the stored MySQL verifier, where there is one, accepts the scramble. *)
Definition mysql_accepts (stored : option bytes) (challenge scramble : bytes) : bool :=
  match stored with Some h => mysql_native_password_verify h challenge scramble | None => false end.

Definition authenticate_mysql_native_password s (id scramble challenge session_id : bytes) : res (Session * IdentityStore) :=
  p ← principal s id;
  if negb (p_enabled p) then Err AuthenticationFailed
  else if negb (length scramble =? MYSQL_NATIVE_PASSWORD_HASH_LEN)%nat then Err AuthenticationFailed
  else
    let passphrase_verified := match passphrases s !! id with Some v => mysql_accepts (pv_mysql v) challenge scramble | None => false end in
    let app_credential_verified := existsb (fun e =>
      ac_enabled (av_credential e.2) && bool_decide (ac_principal (av_credential e.2) = id)
      && mysql_accepts (av_mysql e.2) challenge scramble) (map_to_list (app_credentials s)) in
    if passphrase_verified || app_credential_verified then bind_session s id session_id else Err AuthenticationFailed.

(** ** External credentials and challenges *)

Definition validate_external_credential_text (value : bytes) : res bytes :=
  if bool_decide (value = []) then Err InvalidArgument
  else if 512 <? Codec.len value then Err InvalidArgument
  else Ok value.

Record ExternalCredentialSpec : Type := mkExternalCredentialSpec {
  es_id : bytes; es_kind : ExternalCredentialKind; es_label : bytes; es_issuer : bytes; es_subject : bytes; es_material : option bytes;
}.

(** The proof an external credential stands for. *)
Definition same_proof (c : ExternalCredential) (kind : ExternalCredentialKind) (issuer subject : bytes) (material : option bytes) : bool :=
  ec_enabled c && bool_decide (ec_kind c = kind) && bool_decide (ec_issuer c = issuer) && bool_decide (ec_subject c = subject)
  && bool_decide (ec_material c = material).

Definition create_external_credential s (id : bytes) (spec : ExternalCredentialSpec) : res (ExternalCredential * IdentityStore) :=
  if bool_decide (is_Some (external_credentials s !! es_id spec)) then Err AlreadyExists
  else
    p ← principal s id;
    if negb (p_enabled p) then Err PermissionDenied
    else
      label ← validate_external_credential_text (es_label spec);
      issuer ← validate_external_credential_text (es_issuer spec);
      subject ← validate_external_credential_text (es_subject spec);
      material ← match es_material spec with
                 | Some m => m ← validate_external_credential_text m; Ok (Some m)
                 | None => Ok None
                 end;
      if existsb (fun e => same_proof e.2 (es_kind spec) issuer subject material) (map_to_list (external_credentials s))
      then Err AlreadyExists
      else
        let c := mkExternalCredential (es_id spec) id (es_kind spec) label issuer subject material true in
        Ok (c, set_external s (<[es_id spec := c]> (external_credentials s)) (external_challenges s)).

Definition revoke_external_credential s (cred : bytes) : res (ExternalCredential * IdentityStore) :=
  c ← ok_or (external_credentials s !! cred) NotFound;
  Ok (c, set_external s (delete cred (external_credentials s)) (filter (fun e => ch_credential e.2 <> cred) (external_challenges s))).

Definition create_external_credential_challenge s (cred id nonce : bytes) (issued_at_ms expires_at_ms : N)
    : res (Challenge * IdentityStore) :=
  if bool_decide (is_Some (external_challenges s !! id)) then Err AlreadyExists
  else if Codec.len nonce <? 16 then Err InvalidArgument
  else if 1024 <? Codec.len nonce then Err InvalidArgument
  else if expires_at_ms <=? issued_at_ms then Err InvalidArgument
  else
    c ← ok_or (external_credentials s !! cred) NotFound;
    if negb (ec_enabled c) then Err PermissionDenied
    else
      p ← principal s (ec_principal c);
      if negb (p_enabled p) then Err PermissionDenied
      else
        let ch := mkChallenge id cred nonce issued_at_ms expires_at_ms in
        Ok (ch, set_external s (external_credentials s) (<[id := ch]> (external_challenges s))).

(** The challenge is gone whatever the result. *)
Definition consume_external_credential_challenge s (id : bytes) (now_ms : N) : res Challenge * IdentityStore :=
  match external_challenges s !! id with
  | None => (Err AuthenticationFailed, s)
  | Some ch =>
      (if ch_expires ch <? now_ms then Err AuthenticationFailed
       else
         c ← ok_or (external_credentials s !! ch_credential ch) AuthenticationFailed;
         if negb (ec_enabled c) then Err AuthenticationFailed
         else
           p ← principal s (ec_principal c);
           if negb (p_enabled p) then Err AuthenticationFailed else Ok ch,
       set_external s (external_credentials s) (delete id (external_challenges s)))
  end.

Definition prune_external_credential_challenges s (now_ms : N) : nat * IdentityStore :=
  let kept := filter (fun e => now_ms <= ch_expires e.2) (external_challenges s) in
  ((size (external_challenges s) - size kept)%nat, set_external s (external_credentials s) kept).

Record VerifiedExternalCredentialAuth : Type := mkVerifiedExternalCredentialAuth {
  va_kind : ExternalCredentialKind; va_issuer : bytes; va_subject : bytes; va_material : option bytes;
  va_challenge : option bytes; va_now_ms : N; va_session : bytes;
}.

(** Keep the store where the result is an error. *)
Definition or_keep {A} s (r : res (A * IdentityStore)) : res A * IdentityStore :=
  match r with Ok (x, s') => (Ok x, s') | Err e => (Err e, s) end.

(** The first matching credential in id order. *)
Definition find_external s (r : VerifiedExternalCredentialAuth) : option (bytes * ExternalCredential) :=
  head (filter (fun e => same_proof e.2 (va_kind r) (va_issuer r) (va_subject r) (va_material r) = true)
    (btree_iter (external_credentials s))).

Definition authenticate_verified_external_credential s (r : VerifiedExternalCredentialAuth) : res Session * IdentityStore :=
  match find_external s r with
  | None => (Err AuthenticationFailed, s)
  | Some (_, c) =>
      match principal s (ec_principal c) with
      | Err e => (Err e, s)
      | Ok p =>
          if negb (p_enabled p) then (Err AuthenticationFailed, s)
          else
            match va_challenge r with
            | None => or_keep s (bind_session s (ec_principal c) (va_session r))
            | Some ch_id =>
                match external_challenges s !! ch_id with
                | None => (Err AuthenticationFailed, s)
                | Some ch =>
                    if negb (bool_decide (ch_credential ch = ec_id c)) then (Err AuthenticationFailed, s)
                    else
                      let '(r', s') := consume_external_credential_challenge s ch_id (va_now_ms r) in
                      match r' with
                      | Err e => (Err e, s')
                      | Ok _ => or_keep s' (bind_session s' (ec_principal c) (va_session r))
                      end
                end
            end
      end
  end.

(** ** Sessions *)

Definition session_principal s (session_id : bytes) : res bytes := ok_or (sessions s !! session_id) AuthenticationFailed.

Definition effective_principal s (session_id : option bytes) : res bytes :=
  match session_id with
  | Some id => session_principal s id
  | None => if negb (authenticated_mode s) then ok_or (root s) AuthenticationFailed else Err AuthenticationFailed
  end.

(** ** Signed records *)

Definition optional_head (head : option Digest) : Value :=
  match head with Some d => Bytes (dbytes d) | None => Null end.

Definition identity_authority_handoff_payload (from to : bytes) (generation : N) (head : option Digest) : bytes :=
  cbor_encode (Array [Text HANDOFF_PAYLOAD_TYPE; Bytes from; Bytes to; Uint generation; optional_head head]).

Definition validate_signature_suite (value : bytes) : res () :=
  if bool_decide (value = ALG_ES256) || bool_decide (value = SUITE_ED25519) then Ok () else Err InvalidArgument.

Definition principal_signature_payload (id key_id suite purpose payload : bytes) : res bytes :=
  _ ← validate_signature_suite suite;
  if bool_decide (purpose = []) then Err InvalidArgument
  else Ok (cbor_encode (Array [Text PRINCIPAL_SIGNED_PAYLOAD_TYPE; Text suite; Text purpose; Bytes id; Bytes key_id; Bytes payload])).

Definition identity_authority_handoff_record (from to : bytes) (generation : N) (head : option Digest)
    (algorithm key_id signature : bytes) : res bytes :=
  if bool_decide (algorithm = []) || bool_decide (key_id = []) || bool_decide (signature = []) then Err InvalidArgument
  else
    let payload := identity_authority_handoff_payload from to generation head in
    Ok (cbor_encode (Array [Text HANDOFF_RECORD_TYPE;
          Map [(Text (str "alg"), Text algorithm); (Text (str "kid"), Bytes key_id)]; Bytes payload; Bytes signature])).

Record AuthorityHandoffRecord : Type := mkAuthorityHandoffRecord {
  r_algorithm : bytes; r_key_id : bytes; r_payload : bytes; r_signature : bytes;
}.

(** The loop over the protected headers; a later one wins. *)
Definition protected_header (acc : option bytes * option bytes) (kv : Value * Value) : res (option bytes * option bytes) :=
  k ← as_text kv.1;
  if bool_decide (k = str "alg") then v ← as_text kv.2; Ok (Some v, acc.2)
  else if bool_decide (k = str "kid") then v ← as_bytes kv.2; Ok (acc.1, Some v)
  else Err CorruptObject.

(** Present and not empty. *)
Definition some_nonempty (o : option bytes) : res bytes :=
  match o with Some ((_ :: _) as b) => Ok b | _ => Err CorruptObject end.

Definition parse_authority_handoff_record (b : bytes) : res AuthorityHandoffRecord :=
  fs ← decode_array b;
  '(record_type, fs) ← fields_text fs;
  if negb (bool_decide (record_type = HANDOFF_RECORD_TYPE)) then Err CorruptObject
  else
    '(protected, fs) ← fields_map fs;
    '(payload, fs) ← fields_bytes fs;
    '(signature, fs) ← fields_bytes fs;
    _ ← fields_end fs;
    '(algorithm, key_id) ← try_fold protected_header (None, None) protected;
    algorithm ← some_nonempty algorithm;
    key_id ← some_nonempty key_id;
    payload ← some_nonempty (Some payload);
    signature ← some_nonempty (Some signature);
    Ok (mkAuthorityHandoffRecord algorithm key_id payload signature).

Definition handoff_payload (h : Handoff) : bytes :=
  identity_authority_handoff_payload (h_from h) (h_to h) (h_generation h) (h_head h).

Definition validate_authority_handoff_record (h : Handoff) : res () :=
  r ← parse_authority_handoff_record (signed_record h);
  if negb (bool_decide (r_payload r = handoff_payload h)) then Err CorruptObject else Ok ().

(** ** Public keys *)

Definition validate_public_key_material (algorithm value : bytes) : res () :=
  if bool_decide (value = []) then Err InvalidArgument
  else if MAX_PUBLIC_KEY_LEN <? Codec.len value then Err InvalidArgument
  else if bool_decide (algorithm = SUITE_ED25519) && negb (Codec.len value =? 32) then Err InvalidArgument
  else Ok ().

Definition add_public_key s (id key label algorithm material : bytes) : res (PublicKeyRecord * IdentityStore) :=
  if bool_decide (is_Some (public_keys s !! key)) then Err AlreadyExists
  else
    p ← principal s id;
    if negb (p_enabled p) then Err PermissionDenied
    else
      label ← validate_external_credential_text label;
      _ ← validate_signature_suite algorithm;
      _ ← validate_public_key_material algorithm material;
      let k := mkPublicKeyRecord key id label algorithm material true in
      Ok (k, set_public_keys s (<[key := k]> (public_keys s))).

Definition revoke_public_key s (key : bytes) : res (PublicKeyRecord * IdentityStore) :=
  k ← ok_or (public_keys s !! key) NotFound;
  Ok (k, set_public_keys s (delete key (public_keys s))).

Definition verify_identity_signature (algorithm public_key payload signature : bytes) : res () :=
  if bool_decide (algorithm = ALG_ES256) then verify_es256_signature public_key payload signature
  else if bool_decide (algorithm = SUITE_ED25519) then
    if negb (Codec.len public_key =? 32) then Err InvalidArgument else verify_ed25519_signature public_key payload signature
  else Err InvalidArgument.

Definition key_id_from_header (value : bytes) : res bytes :=
  if (length value =? 16)%nat then Ok value else Err InvalidArgument.

Definition verify_authority_handoff_signature s (h : Handoff) : res () :=
  r ← map_err (fun _ => InvalidArgument) (parse_authority_handoff_record (signed_record h));
  if negb (bool_decide (r_payload r = handoff_payload h)) then Err InvalidArgument
  else
    key_id ← key_id_from_header (r_key_id r);
    k ← ok_or (public_keys s !! key_id) NotFound;
    if negb (pk_enabled k) then Err PermissionDenied
    else if negb (bool_decide (pk_principal k = h_from h)) then Err PermissionDenied
    else if negb (bool_decide (pk_algorithm k = r_algorithm r)) then Err InvalidArgument
    else verify_identity_signature (r_algorithm r) (pk_bytes k) (r_payload r) (r_signature r).

Definition verify_principal_signature s (id key_id suite purpose payload signature : bytes) : res () :=
  _ ← validate_signature_suite suite;
  k ← ok_or (public_keys s !! key_id) NotFound;
  if negb (pk_enabled k) then Err PermissionDenied
  else if negb (bool_decide (pk_principal k = id)) then Err PermissionDenied
  else if negb (bool_decide (pk_algorithm k = suite)) then Err InvalidArgument
  else
    signed_payload ← principal_signature_payload id key_id suite purpose payload;
    verify_identity_signature suite (pk_bytes k) signed_payload signature.

(** ** The authority *)

Definition apply_authority_handoff s (h : Handoff) (become_authority : bool) : res IdentityStore :=
  if negb (bool_decide (h_from h = a_authority (authority s))) then Err Conflict
  else if h_generation h <=? a_generation (authority s) then Err Conflict
  else if bool_decide (signed_record h = []) then Err InvalidArgument
  else
    _ ← map_err (fun _ => InvalidArgument) (validate_authority_handoff_record h);
    _ ← verify_authority_handoff_signature s h;
    let a := mkAuthorityState (if become_authority then Authority else Mirror) (h_to h) (h_generation h) (h_head h) in
    Ok (set_authority s a (<[h_generation h := h]> (handoffs s)) None).

Definition force_detach_authority s (new_authority : bytes) (generation : N) (reason : bytes) : res (Detach * IdentityStore) :=
  if generation <=? a_generation (authority s) then Err Conflict
  else if bool_decide (reason = []) then Err InvalidArgument
  else
    let d := mkDetach (a_authority (authority s)) new_authority generation reason in
    Ok (d, set_authority s (mkAuthorityState Detached new_authority generation None) (handoffs s) (Some d)).
End Credentials.

End Identity.
