(* ===== verification/IdentityProps.v ===== *)
(** * Identity: the invariant of the store, authentic sessions, recovery

    Every reference of a store that its operations build leads to a record that is there; every session
    comes from a proof of its principal; the guarded operations keep a principal that can recover. *)

From S2P Require Import Prelude Codec Types Workspace Cbor VcsTree Identity.

Module IdentityProps.
Import Error Codec Digest Cbor Identity.

Section Runs.
Context `{crypto : Crypto}.
Implicit Types (s : IdentityStore) (id sid : bytes).

(** ** Operations and runs *)

Inductive IdOp : Type :=
| OAddPrincipal (id handle name : bytes) (kind : PrincipalKind)
| OAddNamed (id name : bytes) (kind : PrincipalKind)
| ORenameHandle (id handle : bytes)
| OAssignRole (id role : bytes)
| ORevokeRole (id role : bytes)
| ORemovePrincipal (id : bytes)
| OSetPassphrase (id passphrase salt : bytes)
| OAuthPassphrase (id passphrase session : bytes)
| OCreateApp (id cred label secret salt : bytes)
| ORevokeApp (cred : bytes)
| OAuthApp (token session : bytes)
| OAuthMysql (id scramble challenge session : bytes)
| OCreateExternal (id : bytes) (spec : ExternalCredentialSpec)
| ORevokeExternal (cred : bytes)
| OCreateChallenge (cred id nonce : bytes) (issued expires : N)
| OConsumeChallenge (id : bytes) (now : N)
| OPruneChallenges (now : N)
| OAuthExternal (r : VerifiedExternalCredentialAuth)
| OBindSession (id session : bytes)
| OAddKey (id key label algorithm material : bytes)
| ORevokeKey (key : bytes)
| OHandoff (h : Handoff) (become_authority : bool)
| OForceDetach (new_authority : bytes) (generation : N) (reason : bytes).

(** The store after a call that may fail. *)
Definition after s (r : res IdentityStore) : IdentityStore := match r with Ok s' => s' | Err _ => s end.
Definition after_pair {A} s (r : res (A * IdentityStore)) : IdentityStore := match r with Ok (_, s') => s' | Err _ => s end.

Definition id_step s (op : IdOp) : IdentityStore :=
  match op with
  | OAddPrincipal id handle name kind => after s (add_principal_with_handle s id handle name kind)
  | OAddNamed id name kind => after s (add_principal s id name kind)
  | ORenameHandle id handle => after s (rename_principal_handle s id handle)
  | OAssignRole id role => after s (assign_role s id role)
  | ORevokeRole id role => after_pair s (revoke_role s id role)
  | ORemovePrincipal id => after_pair s (remove_principal s id)
  | OSetPassphrase id passphrase salt => after s (set_passphrase s id passphrase salt)
  | OAuthPassphrase id passphrase session => after_pair s (authenticate_passphrase s id passphrase session)
  | OCreateApp id cred label secret salt => after_pair s (create_app_credential s id cred label secret salt)
  | ORevokeApp cred => after_pair s (revoke_app_credential s cred)
  | OAuthApp token session => after_pair s (authenticate_app_credential s token session)
  | OAuthMysql id scramble challenge session => after_pair s (authenticate_mysql_native_password s id scramble challenge session)
  | OCreateExternal id spec => after_pair s (create_external_credential s id spec)
  | ORevokeExternal cred => after_pair s (revoke_external_credential s cred)
  | OCreateChallenge cred id nonce issued expires => after_pair s (create_external_credential_challenge s cred id nonce issued expires)
  | OConsumeChallenge id now => (consume_external_credential_challenge s id now).2
  | OPruneChallenges now => (prune_external_credential_challenges s now).2
  | OAuthExternal r => (authenticate_verified_external_credential s r).2
  | OBindSession id session => after_pair s (bind_session s id session)
  | OAddKey id key label algorithm material => after_pair s (add_public_key s id key label algorithm material)
  | ORevokeKey key => after_pair s (revoke_public_key s key)
  | OHandoff h become_authority => after s (apply_authority_handoff s h become_authority)
  | OForceDetach a generation reason => after_pair s (force_detach_authority s a generation reason)
  end.

Definition id_run s (ops : list IdOp) : IdentityStore := foldl id_step s ops.

(** ** The invariant *)

Definition known s id : Prop := is_Some (principals s !! id).

Definition wf_principal s id (p : Principal) : Prop :=
  p_id p = id /\ p_enabled p = true /\ p_name p <> [] /\ p_roles p ⊆ dom (roles s) /\
  id_handles s !! p_handle p = Some id /\ normalize_principal_handle (p_handle p) = Ok (p_handle p) /\
  has_passphrase p = bool_decide (is_Some (passphrases s !! id)).

(** Every reference to a principal satisfies [K]. *)
Record refer (K : bytes -> Prop) s : Prop := {
  rf_root : forall r, root s = Some r -> K r;
  rf_passphrases : map_Forall (fun id _ => K id) (passphrases s);
  rf_apps : map_Forall (fun c v => ac_id (av_credential v) = c /\ K (ac_principal (av_credential v))) (app_credentials s);
  rf_externals : map_Forall (fun c v => ec_id v = c /\ K (ec_principal v)) (external_credentials s);
  rf_keys : map_Forall (fun k v => pk_id v = k /\ K (pk_principal v)) (public_keys s);
  rf_sessions : map_Forall (fun sid id => sid <> [] /\ K id) (sessions s);
}.

Record wf_identity s : Prop := {
  wi_principals : map_Forall (wf_principal s) (principals s);
  wi_refer : refer (known s) s;
  wi_roles : roles s = built_in_roles;
  wi_handles : map_Forall (fun h _ => normalize_principal_handle h = Ok h) (id_handles s);
  wi_challenges : map_Forall (fun c v => ch_id v = c /\ is_Some (external_credentials s !! ch_credential v)) (external_challenges s);
  wi_keys : map_Forall (fun _ v => validate_signature_suite (pk_algorithm v) = Ok () /\
    validate_public_key_material (pk_algorithm v) (pk_bytes v) = Ok ()) (public_keys s);
  wi_handoffs : map_Forall (fun g h => h_generation h = g /\ signed_record h <> [] /\ validate_authority_handoff_record h = Ok ()) (handoffs s);
}.

(** ** The operations keep it *)

Lemma filter_Forall {A} (P : bytes -> A -> Prop) (Q : bytes * A -> Prop) `{!forall x, Decision (Q x)} (m : gmap bytes A) :
  map_Forall P m -> map_Forall P (filter Q m).
Proof. intros HP k v Hk. apply map_lookup_filter_Some in Hk as [Hk _]. by apply HP. Qed.

Lemma refer_mono (K K' : bytes -> Prop) s : (forall x, K x -> K' x) -> refer K s -> refer K' s.
Proof.
  intros HK []. split.
  - auto.
  - by eapply map_Forall_impl; [|intros x v Hx; apply HK, Hx].
  - eapply map_Forall_impl; [exact rf_apps0|]. intros x v [? ?]. auto.
  - eapply map_Forall_impl; [exact rf_externals0|]. intros x v [? ?]. auto.
  - eapply map_Forall_impl; [exact rf_keys0|]. intros x v [? ?]. auto.
  - eapply map_Forall_impl; [exact rf_sessions0|]. intros x v [? ?]. auto.
Qed.

Lemma known_insert s id p x : known s x -> is_Some (<[id := p]> (principals s) !! x).
Proof. intros Hx. destruct (decide (x = id)) as [->|Hne]; [by rewrite lookup_insert_eq|by rewrite lookup_insert_ne]. Qed.

(** A principal is replaced by one that is well formed. *)
Lemma wf_set_principal s id p' :
  wf_identity s -> wf_principal s id p' -> wf_identity (set_principals s (<[id := p']> (principals s))).
Proof.
  intros [] Hp'. split; try done.
  - by apply map_Forall_insert_2.
  - destruct (refer_mono _ _ s (known_insert s id p') wi_refer0). by split.
Qed.

Lemma principal_Ok s id p : principal s id = Ok p -> principals s !! id = Some p.
Proof. unfold principal. by destruct (principals s !! id); intros [=->]. Qed.

Lemma lower_idem b : to_ascii_lowercase (to_ascii_lowercase b) = to_ascii_lowercase b.
Proof. by destruct b. Qed.

Lemma normalize_idem h h' : normalize_principal_handle h = Ok h' -> normalize_principal_handle h' = Ok h'.
Proof.
  unfold normalize_principal_handle. intros Hh. assert (h' = map to_ascii_lowercase h) as ->.
  { repeat case_match; by simplify_eq. }
  rewrite map_map. rewrite (map_ext _ _ lower_idem). exact Hh.
Qed.

Lemma not_is_Some {A} (o : option A) : ~ is_Some o -> o = None.
Proof. destruct o; [|done]. intros Hn. by destruct Hn. Qed.

Lemma wf_add s id h n k s' : wf_identity s -> add_principal_with_handle s id h n k = Ok s' -> wf_identity s'.
Proof.
  intros Hwf. unfold add_principal_with_handle. case_bool_decide as Hid; [done|]. intros (h' & Hh & Hs)%bind_Ok.
  case_bool_decide as Hfree; [done|]. case_bool_decide as Hn; [done|]. injection Hs as <-.
  apply not_is_Some in Hid, Hfree. pose proof Hwf as [Hps Hrf _ Hhs _ _ _]. apply normalize_idem in Hh.
  set (p := mkPrincipal id h' n k true false ∅). split; try apply Hwf.
  - apply map_Forall_insert_2.
    + split_and!; try done; cbn [p_roles p_handle p_id id_handles set_handles roles passphrases set_principals p has_passphrase]; [by rewrite lookup_insert_eq|].
      symmetry. apply bool_decide_eq_false. intros [v Hv]. apply (rf_passphrases _ _ Hrf) in Hv as [? Hv]. congruence.
    + intros x q Hq. destruct (Hps x q Hq) as (? & ? & ? & ? & Hx & ? & ?). split_and!; try done. cbn.
      rewrite lookup_insert_ne; [done|]. intros ->. congruence.
  - destruct (refer_mono _ _ s (known_insert s id p) Hrf). by split.
  - by apply map_Forall_insert_2.
Qed.

Lemma wf_rename s id h s' : wf_identity s -> rename_principal_handle s id h = Ok s' -> wf_identity s'.
Proof.
  intros Hwf. unfold rename_principal_handle. intros (h' & Hh & Hs)%bind_Ok. destruct (match _ with Some _ => _ | None => _ end) eqn:Eh; [done|].
  apply bind_Ok in Hs as (p & Hp%principal_Ok & [= <-]). pose proof Hwf as [Hps Hrf _ Hhs _ _ _]. apply normalize_idem in Hh.
  split; try apply Hwf.
  - apply map_Forall_insert_2.
    + destruct (Hps id p Hp) as (? & ? & ? & ? & ? & ? & ?). split_and!; try done. cbn. by rewrite lookup_insert_eq.
    + intros x q Hq. destruct (Hps x q Hq) as (? & ? & ? & ? & Hx & ? & ?). split_and!; try done. cbn.
      destruct (decide (h' = p_handle q)) as [->|Hne]; [|by rewrite lookup_insert_ne]. rewrite lookup_insert_eq. rewrite Hx in Eh.
      apply negb_false_iff, bool_decide_eq_true in Eh. by subst.
  - destruct (refer_mono _ _ s (known_insert s id (with_handle p h')) Hrf). by split.
  - by apply map_Forall_insert_2.
Qed.

Lemma wf_assign s id r s' : wf_identity s -> assign_role s id r = Ok s' -> wf_identity s'.
Proof.
  intros Hwf. unfold assign_role. intros (ro & Hr & Hs)%bind_Ok. destruct (role_enabled ro); [|done]. cbn [negb] in Hs.
  apply bind_Ok in Hs as (p & Hp%principal_Ok & Hs). case_bool_decide; [done|]. injection Hs as <-. apply wf_set_principal; [done|].
  destruct (wi_principals _ Hwf id p Hp) as (? & ? & ? & Hsub & ? & ? & ?). split_and!; try done. cbn.
  assert (r ∈ dom (roles s)); [|set_solver]. apply elem_of_dom. unfold role in Hr. destruct (roles s !! r); [done|discriminate].
Qed.

Lemma wf_revoke s id r b s' : wf_identity s -> revoke_role s id r = Ok (b, s') -> wf_identity s'.
Proof.
  intros Hwf. unfold revoke_role. intros (p & Hp%principal_Ok & Hs)%bind_Ok. destruct (_ && _); [done|]. injection Hs as <- <-.
  apply wf_set_principal; [done|]. destruct (wi_principals _ Hwf id p Hp) as (? & ? & ? & Hsub & ? & ? & ?). split_and!; try done. cbn. set_solver.
Qed.

Lemma wf_remove s id p s' : wf_identity s -> remove_principal s id = Ok (p, s') -> wf_identity s'.
Proof.
  intros Hwf. unfold remove_principal. intros (q & Hq%principal_Ok & Hs)%bind_Ok. destruct (_ && _); [done|]. injection Hs as <- <-.
  pose proof Hwf as [Hps [] Hro Hhs Hch Hk Hho]. assert (forall x, known s x -> x <> id -> is_Some (delete id (principals s) !! x)) as Hkeep.
  { intros x Hx Hne. by rewrite lookup_delete_ne. }
  split; cbn; try done; [| | |by apply filter_Forall].
  - intros x r Hx. apply lookup_delete_Some in Hx as [Hne Hx]. destruct (Hps x r Hx) as (? & ? & ? & ? & ? & ? & Hpp). split_and!; try done.
    cbn. by rewrite lookup_delete_ne.
  - split; cbn.
    + intros r. case_bool_decide as Hr; [done|]. intros Hr'. apply Hkeep; [by apply rf_root0|]. congruence.
    + intros x v Hx. apply lookup_delete_Some in Hx as [Hne Hx]. apply Hkeep; [by eapply rf_passphrases0|done].
    + intros x v Hx. apply map_lookup_filter_Some in Hx as [Hx Hne]. destruct (rf_apps0 x v Hx). split; [done|]. by apply Hkeep.
    + intros x v Hx. apply map_lookup_filter_Some in Hx as [Hx Hne]. destruct (rf_externals0 x v Hx). split; [done|]. by apply Hkeep.
    + intros x v Hx. apply map_lookup_filter_Some in Hx as [Hx Hne]. destruct (rf_keys0 x v Hx). split; [done|]. by apply Hkeep.
    + intros x v Hx. apply map_lookup_filter_Some in Hx as [Hx Hne]. destruct (rf_sessions0 x v Hx). split; [done|]. by apply Hkeep.
  - intros x v Hx. apply map_lookup_filter_Some in Hx as [Hx Hne]. split; [by apply Hch|done].
Qed.

Lemma wf_passphrase s id pw salt s' : wf_identity s -> set_passphrase s id pw salt = Ok s' -> wf_identity s'.
Proof.
  intros Hwf. unfold set_passphrase. case_bool_decide; [done|]. intros (p & Hp%principal_Ok & Hs)%bind_Ok.
  destruct (p_enabled p) eqn:Een; [|done]. cbn [negb] in Hs. apply bind_Ok in Hs as (h & Hh & [= <-]).
  pose proof Hwf as [Hps [] Hro Hhs Hch Hk Hho]. pose proof (known_insert s id (with_passphrase p)) as Hkn. split; try done.
  - intros x q Hx. cbn in Hx. apply lookup_insert_Some in Hx as [[<- <-]|[Hne Hx]].
    + destruct (Hps id p Hp) as (? & ? & ? & ? & ? & ? & ?). split_and!; try done. cbn. symmetry. apply bool_decide_eq_true.
      rewrite lookup_insert_eq. eauto.
    + destruct (Hps x q Hx) as (? & ? & ? & ? & ? & ? & Hpp). split_and!; try done. cbn. by rewrite lookup_insert_ne.
  - destruct (refer_mono _ _ s Hkn (wi_refer _ Hwf)). split; try done. cbn. apply map_Forall_insert_2; [|done].
    apply Hkn. by exists p.
Qed.

(** The sessions get a new entry for a known principal. *)
Lemma wf_session s id sid : wf_identity s -> sid <> [] -> known s id -> wf_identity (set_sessions s (<[sid := id]> (sessions s))).
Proof. intros [Hps [] Hro Hhs Hch Hk Hho] Hs Hid. split; try done. split; try done. cbn. by apply map_Forall_insert_2. Qed.

Lemma wf_bind s id sid x s' : wf_identity s -> bind_session s id sid = Ok (x, s') -> wf_identity s'.
Proof.
  intros Hwf. unfold bind_session. case_bool_decide; [done|]. intros (p & Hp%principal_Ok & Hs)%bind_Ok. destruct (negb _); [done|].
  injection Hs as _ <-. apply wf_session; try done. by exists p.
Qed.

(** Credentials, challenges and keys of known principals. *)
Lemma wf_app s (m : gmap bytes AppCredentialVerifier) :
  wf_identity s -> map_Forall (fun c v => ac_id (av_credential v) = c /\ known s (ac_principal (av_credential v))) m ->
  wf_identity (set_app_credentials s m).
Proof. intros [Hps [] Hro Hhs Hch Hk Hho] Hm. split; try done; by split. Qed.

Lemma wf_external s (m : gmap bytes ExternalCredential) (c : gmap bytes Challenge) :
  wf_identity s -> map_Forall (fun c v => ec_id v = c /\ known s (ec_principal v)) m ->
  map_Forall (fun c v => ch_id v = c /\ is_Some (m !! ch_credential v)) c -> wf_identity (set_external s m c).
Proof. intros [Hps [] Hro Hhs Hch Hk Hho] Hm Hc. split; try done; by split. Qed.

Lemma map_Forall_delete_keep {A} (P : bytes -> A -> Prop) (m : gmap bytes A) k : map_Forall P m -> map_Forall P (delete k m).
Proof. intros HP x v Hx. apply lookup_delete_Some in Hx as [_ Hx]. by apply HP. Qed.

Lemma wf_consume s id now : wf_identity s -> wf_identity (consume_external_credential_challenge s id now).2.
Proof.
  intros Hwf. unfold consume_external_credential_challenge. destruct (external_challenges s !! id); [|done].
  apply wf_external; [done|apply Hwf|]. apply map_Forall_delete_keep, Hwf.
Qed.

Lemma wf_or_keep s s0 id sid : wf_identity s0 -> s = s0 -> wf_identity (or_keep s (bind_session s0 id sid)).2.
Proof. intros Hwf ->. destruct (bind_session s0 id sid) as [[x s']|e] eqn:E; [|done]. by eapply wf_bind. Qed.

Lemma wf_auth_external s r : wf_identity s -> wf_identity (authenticate_verified_external_credential s r).2.
Proof.
  intros Hwf. unfold authenticate_verified_external_credential. destruct (find_external s r) as [[cred c]|]; [|done].
  destruct (principal s (ec_principal c)) as [p|]; [|done]. destruct (negb _); [done|].
  destruct (va_challenge r) as [ch_id|]; [|by apply wf_or_keep]. destruct (external_challenges s !! ch_id) as [ch|]; [|done].
  destruct (negb _); [done|]. pose proof (wf_consume s ch_id (va_now_ms r) Hwf) as Hc.
  destruct (consume_external_credential_challenge s ch_id (va_now_ms r)) as [[x|e] s']; [|done]. by apply wf_or_keep.
Qed.

Lemma wf_create_external s id spec c s' :
  wf_identity s -> create_external_credential s id spec = Ok (c, s') -> wf_identity s'.
Proof.
  intros Hwf E. pose proof Hwf as [Hps [] Hro Hhs Hch Hk Hho]. unfold create_external_credential in E. case_bool_decide; [done|].
  apply bind_Ok in E as (p & Hp%principal_Ok & E). destruct (negb _); [done|]. apply bind_Ok in E as (l & _ & E).
  apply bind_Ok in E as (i & _ & E). apply bind_Ok in E as (su & _ & E). apply bind_Ok in E as (m & _ & E).
  destruct (existsb _ _); [done|]. injection E as <- <-. apply wf_external; [done| |].
  - apply map_Forall_insert_2; [|done]. split; [done|]. by exists p.
  - intros x v Hx. destruct (Hch x v Hx) as [? ?]. split; [done|].
    destruct (decide (ch_credential v = es_id spec)) as [->|]; [by rewrite lookup_insert_eq|by rewrite lookup_insert_ne].
Qed.

Lemma wf_revoke_external s cred c s' : wf_identity s -> revoke_external_credential s cred = Ok (c, s') -> wf_identity s'.
Proof.
  intros Hwf (x & _ & [= _ <-])%bind_Ok. pose proof Hwf as [Hps [] Hro Hhs Hch Hk Hho].
  apply wf_external; [done|by apply map_Forall_delete_keep|]. intros y v Hy. apply map_lookup_filter_Some in Hy as [Hy Hne].
  destruct (Hch y v Hy). split; [done|]. by rewrite lookup_delete_ne.
Qed.

Lemma wf_create_challenge s cred id nonce issued expires c s' :
  wf_identity s -> create_external_credential_challenge s cred id nonce issued expires = Ok (c, s') -> wf_identity s'.
Proof.
  intros Hwf E. pose proof Hwf as [Hps [] Hro Hhs Hch Hk Hho]. unfold create_external_credential_challenge in E.
  case_bool_decide; [done|]. do 3 (destruct (_ <? _) || destruct (_ <=? _); [done|]).
  apply bind_Ok in E as (ec & Hec & E). destruct (negb _); [done|]. apply bind_Ok in E as (p & Hp & E). destruct (negb _); [done|].
  injection E as <- <-. apply wf_external; [done|done|]. apply map_Forall_insert_2; [|done]. split; [done|]. cbn.
  by destruct (external_credentials s !! cred) in Hec |- *; [eexists|].
Qed.

Lemma wf_create_app s id cred label secret salt c s' :
  wf_identity s -> create_app_credential s id cred label secret salt = Ok (c, s') -> wf_identity s'.
Proof.
  intros Hwf E. unfold create_app_credential in E. case_bool_decide; [done|]. case_bool_decide; [done|].
  apply bind_Ok in E as (p & Hp%principal_Ok & E). destruct (negb _); [done|]. case_bool_decide; [done|].
  apply bind_Ok in E as (h & _ & [= _ <-]). apply wf_app; [done|]. apply map_Forall_insert_2; [|apply Hwf]. split; [done|]. by exists p.
Qed.

Lemma wf_add_key s id key label algorithm material k s' :
  wf_identity s -> add_public_key s id key label algorithm material = Ok (k, s') -> wf_identity s'.
Proof.
  intros [Hps [] Hro Hhs Hch Hk Hho] E. unfold add_public_key in E. case_bool_decide; [done|].
  apply bind_Ok in E as (p & Hp%principal_Ok & E). destruct (negb _); [done|]. apply bind_Ok in E as (l & _ & E).
  apply bind_Ok in E as ([] & Ha & E). apply bind_Ok in E as ([] & Hm & [= <- <-]). split; try done.
  - split; try done. cbn. apply map_Forall_insert_2; [|done]. split; [done|]. by exists p.
  - cbn. by apply map_Forall_insert_2.
Qed.

Lemma wf_revoke_key s key k s' : wf_identity s -> revoke_public_key s key = Ok (k, s') -> wf_identity s'.
Proof.
  intros [Hps [] Hro Hhs Hch Hk Hho] (x & _ & [= _ <-])%bind_Ok. split; try done; [|by apply map_Forall_delete_keep].
  split; try done. by apply map_Forall_delete_keep.
Qed.

Lemma wf_handoff s h b s' : wf_identity s -> apply_authority_handoff s h b = Ok s' -> wf_identity s'.
Proof.
  intros [Hps [] Hro Hhs Hch Hk Hho] E. unfold apply_authority_handoff in E.
  destruct (negb _); [done|]. destruct (_ <=? _); [done|]. case_bool_decide; [done|].
  apply bind_Ok in E as ([] & Hv & E). apply bind_Ok in E as ([] & _ & [= <-]). split; try done.
  cbn. apply map_Forall_insert_2; [|done]. split_and!; [done|done|]. by destruct (validate_authority_handoff_record h) as [[]|].
Qed.

Lemma wf_detach s a g reason d s' : wf_identity s -> force_detach_authority s a g reason = Ok (d, s') -> wf_identity s'.
Proof.
  intros [Hps [] Hro Hhs Hch Hk Hho] E. unfold force_detach_authority in E. destruct (_ <=? _); [done|]. case_bool_decide; [done|].
  injection E as _ <-. split; try done; by split.
Qed.

(** A proof of a principal's identity binds a session to the principal, or changes nothing. *)
Definition binds s (r : res (Session * IdentityStore)) id sid : Prop := forall x s', r = Ok (x, s') -> bind_session s id sid = Ok (x, s').

Lemma auth_passphrase_binds s id pw sid : binds s (authenticate_passphrase s id pw sid) id sid.
Proof.
  intros x s'. unfold authenticate_passphrase, bind_session. case_bool_decide; [done|]. destruct (principal s id) as [p|]; [|done]. cbn.
  destruct (negb _); [done|]. destruct (passphrases s !! id); [|done]. cbn. destruct (derive_passphrase_hash _ _); [|done]. cbn.
  by destruct (negb _).
Qed.

Lemma auth_app_binds s token sid x s' :
  authenticate_app_credential s token sid = Ok (x, s') -> exists id, bind_session s id sid = Ok (x, s').
Proof.
  unfold authenticate_app_credential. intros ([c sec] & _ & E)%bind_Ok. apply bind_Ok in E as (v & _ & E). destruct (negb _); [done|].
  apply bind_Ok in E as (p & _ & E). destruct (negb _); [done|]. apply bind_Ok in E as (h & _ & E). destruct (negb _); [done|]. by eexists.
Qed.

Lemma auth_mysql_binds s id scramble challenge sid : binds s (authenticate_mysql_native_password s id scramble challenge sid) id sid.
Proof.
  intros x s'. unfold authenticate_mysql_native_password. intros (p & _ & E)%bind_Ok. destruct (negb _); [done|]. destruct (negb _); [done|].
  by destruct (_ || _).
Qed.

Lemma after_wf s (r : res IdentityStore) : wf_identity s -> (forall s', r = Ok s' -> wf_identity s') -> wf_identity (after s r).
Proof. destruct r; cbn; auto. Qed.
Lemma after_pair_wf {A} s (r : res (A * IdentityStore)) :
  wf_identity s -> (forall x s', r = Ok (x, s') -> wf_identity s') -> wf_identity (after_pair s r).
Proof. destruct r as [[]|]; cbn; eauto. Qed.

Lemma id_step_wf s op : wf_identity s -> wf_identity (id_step s op).
Proof.
  intros Hwf. destruct op; cbn [id_step]; try (apply after_wf; [done|intros s' E]); try (apply after_pair_wf; [done|intros x s' E]).
  - by eapply wf_add.
  - apply bind_Ok in E as (h & _ & E). by eapply wf_add.
  - by eapply wf_rename.
  - by eapply wf_assign.
  - by eapply wf_revoke.
  - by eapply wf_remove.
  - by eapply wf_passphrase.
  - eapply wf_bind, auth_passphrase_binds; done.
  - by eapply wf_create_app.
  - apply bind_Ok in E as (v & _ & [= _ <-]). apply wf_app; [done|]. apply map_Forall_delete_keep, Hwf.
  - apply auth_app_binds in E as [id E]. by eapply wf_bind.
  - eapply wf_bind, auth_mysql_binds; done.
  - by eapply wf_create_external.
  - by eapply wf_revoke_external.
  - by eapply wf_create_challenge.
  - by apply wf_consume.
  - apply wf_external; [done|apply Hwf|]. apply filter_Forall, Hwf.
  - by apply wf_auth_external.
  - by eapply wf_bind.
  - by eapply wf_add_key.
  - by eapply wf_revoke_key.
  - by eapply wf_handoff.
  - by eapply wf_detach.
Qed.

Lemma identity_new_root root :
  exists p, principals (identity_new root) !! root = Some p /\ p_enabled p = true /\ ROLE_ADMIN_ID ∈ p_roles p.
Proof. eexists. split; [apply lookup_singleton_eq|]. split; [done|]. cbn [p_roles]. by apply elem_of_singleton. Qed.

Lemma identity_new_wf root : wf_identity (identity_new root).
Proof.
  split; cbn; try done; [|split; cbn; try done|].
  - apply map_Forall_singleton. split_and!; try done.
    intros x Hx. cbn in Hx. apply elem_of_singleton in Hx as ->. apply elem_of_dom. by exists (mkIdentityRole ROLE_ADMIN_ID (str "admin") true).
  - intros r [= <-]. eexists. apply lookup_singleton_eq.
  - apply map_Forall_insert_2; [done|apply map_Forall_empty].
Qed.

Lemma id_run_wf s ops : wf_identity s -> wf_identity (id_run s ops).
Proof. revert s. induction ops as [|op ops IH]; intros s Hwf; [done|]. apply IH, id_step_wf, Hwf. Qed.

(** ** Sessions come from proofs *)

(** [op], called in [s], shows that its caller is the principal [id] and opens the session [sid] for it. *)
Inductive proves s : IdOp -> bytes -> bytes -> Prop :=
| proves_passphrase id pw sid v :
    passphrases s !! id = Some v -> argon2 pw (pv_salt v) = Ok (pv_hash v) -> proves s (OAuthPassphrase id pw sid) sid id
| proves_app token sid cred secret v :
    parse_app_credential_token token = Ok (cred, secret) -> app_credentials s !! cred = Some v -> ac_enabled (av_credential v) = true ->
    argon2 secret (av_salt v) = Ok (av_hash v) -> proves s (OAuthApp token sid) sid (ac_principal (av_credential v))
| proves_mysql_passphrase id scramble challenge sid v stored :
    passphrases s !! id = Some v -> pv_mysql v = Some stored -> mysql_native_password_verify stored challenge scramble = true ->
    proves s (OAuthMysql id scramble challenge sid) sid id
| proves_mysql_app scramble challenge sid cred v stored :
    app_credentials s !! cred = Some v -> ac_enabled (av_credential v) = true -> av_mysql v = Some stored ->
    mysql_native_password_verify stored challenge scramble = true ->
    proves s (OAuthMysql (ac_principal (av_credential v)) scramble challenge sid) sid (ac_principal (av_credential v))
| proves_external r cred c :
    external_credentials s !! cred = Some c -> same_proof c (va_kind r) (va_issuer r) (va_subject r) (va_material r) = true ->
    (forall x, va_challenge r = Some x -> exists ch, external_challenges s !! x = Some ch /\ ch_credential ch = cred /\
      va_now_ms r <= ch_expires ch /\ external_challenges (id_step s (OAuthExternal r)) !! x = None) ->
    proves s (OAuthExternal r) (va_session r) (ec_principal c).

(** [op] is the host's: it opens the session [sid] for a principal that is there and enabled, without any
    credential. *)
Definition hosted s (op : IdOp) sid id : Prop :=
  op = OBindSession id sid /\ exists p, principals s !! id = Some p /\ p_enabled p = true.

(** What a call does to the sessions: [sid] keeps its principal, or [op] proves its new one, or binds it for the host. *)
Definition opens s op s' : Prop :=
  forall sid id, sessions s' !! sid = Some id -> sessions s !! sid = Some id \/ proves s op sid id \/ hosted s op sid id.

Lemma bind_opens s id sid x s' op : bind_session s id sid = Ok (x, s') -> proves s op sid id \/ hosted s op sid id -> opens s op s'.
Proof.
  unfold bind_session. case_bool_decide; [done|]. intros (p & _ & E)%bind_Ok Hp. destruct (negb _); [done|]. injection E as _ <-.
  intros sid' id'. cbn. intros [[-> ->]|[_ ?]]%lookup_insert_Some; auto.
Qed.

Lemma derive_argon2 pw salt h : derive_passphrase_hash pw salt = Ok h -> argon2 pw salt = Ok h.
Proof. unfold derive_passphrase_hash. by destruct (_ <? _). Qed.

Lemma opens_passphrase s id pw sid : opens s (OAuthPassphrase id pw sid) (after_pair s (authenticate_passphrase s id pw sid)).
Proof.
  destruct (authenticate_passphrase s id pw sid) as [[x s']|] eqn:E; [|by left].
  eapply (bind_opens s id sid x s'); [by eapply auth_passphrase_binds|left].
  unfold authenticate_passphrase in E. case_bool_decide; [done|]. apply bind_Ok in E as (p & _ & E). destruct (negb _); [done|].
  apply bind_Ok in E as (v & Hv & E). apply bind_Ok in E as (h & Hh%derive_argon2 & E). case_bool_decide; [|done]. subst h.
  econstructor; [|done]. by destruct (passphrases s !! id) as [?|]; simplify_eq/=.
Qed.

Lemma opens_app s token sid : opens s (OAuthApp token sid) (after_pair s (authenticate_app_credential s token sid)).
Proof.
  destruct (authenticate_app_credential s token sid) as [[x s']|] eqn:E; [|by left]. cbn. unfold authenticate_app_credential in E.
  apply bind_Ok in E as ([cred secret] & Ht & E). apply bind_Ok in E as (v & Hv & E). destruct (ac_enabled _) eqn:He; [|done].
  apply bind_Ok in E as (p & _ & E). destruct (negb _); [done|]. apply bind_Ok in E as (h & Hh%derive_argon2 & E). case_bool_decide; [|done]. subst h.
  eapply bind_opens; [exact E|left]. econstructor; [exact Ht| |exact He|exact Hh]. by destruct (app_credentials s !! cred) as [?|]; simplify_eq/=.
Qed.

Lemma mysql_accepts_Some o challenge scramble :
  mysql_accepts o challenge scramble = true -> exists h, o = Some h /\ mysql_native_password_verify h challenge scramble = true.
Proof. destruct o as [h|]; [|done]. by exists h. Qed.

Lemma opens_mysql s id scramble challenge sid :
  opens s (OAuthMysql id scramble challenge sid) (after_pair s (authenticate_mysql_native_password s id scramble challenge sid)).
Proof.
  destruct (authenticate_mysql_native_password s id scramble challenge sid) as [[x s']|] eqn:E; [|by left].
  eapply (bind_opens s id sid x s'); [by eapply auth_mysql_binds|left]. unfold authenticate_mysql_native_password in E. apply bind_Ok in E as (p & _ & E).
  destruct (negb _); [done|]. destruct (negb _); [done|]. destruct (match passphrases s !! id with Some _ => _ | None => _ end) eqn:Hp.
  - destruct (passphrases s !! id) as [v|] eqn:Hv; [|done]. apply mysql_accepts_Some in Hp as (h & Hm & Hs). by eapply proves_mysql_passphrase.
  - cbn in E. destruct (existsb _ _) eqn:Ha; [|done]. apply existsb_exists in Ha as ([c v] & Hin & Ha).
    apply list_elem_of_In, elem_of_map_to_list in Hin. apply andb_true_iff in Ha as [[He Hid%bool_decide_eq_true]%andb_true_iff Ha].
    apply mysql_accepts_Some in Ha as (h & Hm & Hs). cbn in *. subst id. by eapply proves_mysql_app.
Qed.

Lemma find_external_Some s r cred c :
  find_external s r = Some (cred, c) -> external_credentials s !! cred = Some c /\ same_proof c (va_kind r) (va_issuer r) (va_subject r) (va_material r) = true.
Proof.
  unfold find_external. intros Hh%head_Some_elem_of. apply list_elem_of_filter in Hh as [Hs Hin]. split; [|done].
  by apply elem_of_btree_iter in Hin.
Qed.

Lemma or_keep_opens s s0 id sid op : sessions s0 = sessions s -> proves s op sid id -> opens s op (or_keep s0 (bind_session s0 id sid)).2.
Proof.
  intros Hs Hp sid' id'. unfold bind_session. case_bool_decide; cbn; [rewrite Hs; auto|]. destruct (principal s0 id) as [p|]; cbn; [|rewrite Hs; auto].
  destruct (negb _); cbn; [rewrite Hs; auto|]. rewrite Hs. intros [[-> ->]|[_ ?]]%lookup_insert_Some; auto.
Qed.

Lemma or_keep_challenges s id sid : external_challenges (or_keep s (bind_session s id sid)).2 = external_challenges s.
Proof. unfold bind_session. case_bool_decide; [done|]. destruct (principal s id); [|done]. cbn. by destruct (negb _). Qed.

Lemma opens_external s r : wf_identity s -> opens s (OAuthExternal r) (authenticate_verified_external_credential s r).2.
Proof.
  intros Hwf. assert (Hst : id_step s (OAuthExternal r) = (authenticate_verified_external_credential s r).2) by done.
  unfold authenticate_verified_external_credential in *. destruct (find_external s r) as [[cred c]|] eqn:Hf; [|by left].
  apply find_external_Some in Hf as [Hc Hsp]. destruct (rf_externals _ _ (wi_refer _ Hwf) _ _ Hc) as [Hid _].
  destruct (principal s (ec_principal c)) as [p|]; [|by left]. destruct (negb _); [by left|].
  destruct (va_challenge r) as [x|] eqn:Hx; [|by apply or_keep_opens; [|econstructor; [done..|by rewrite Hx]]].
  destruct (external_challenges s !! x) as [ch|] eqn:Hch; [|by left]. case_bool_decide as Hcr; [|by left]. cbn [negb] in *.
  unfold consume_external_credential_challenge in *. rewrite Hch in *. destruct (_ <? _) eqn:Hn; [by left|].
  destruct (ok_or _ _ ≫= _); [|by left]. apply or_keep_opens; [done|]. econstructor; [done..|].
  intros y Hy. assert (y = x) as -> by congruence. exists ch. split_and!; [done|congruence|by apply N.ltb_ge in Hn|].
  rewrite Hst, or_keep_challenges. apply lookup_delete_eq.
Qed.

Lemma opens_bind s id sid : opens s (OBindSession id sid) (after_pair s (bind_session s id sid)).
Proof.
  destruct (bind_session s id sid) as [[x s']|] eqn:E; [|by left]. eapply bind_opens; [done|right]. split; [done|].
  unfold bind_session in E. case_bool_decide; [done|]. apply bind_Ok in E as (p & Hp%principal_Ok & E). exists p. split; [done|]. by destruct (p_enabled p).
Qed.

(** The calls that authenticate nobody open no session. *)
Definition quiet s s' : Prop := forall sid id, sessions s' !! sid = Some id -> sessions s !! sid = Some id.

Lemma quiet_same s s' : sessions s' = sessions s -> quiet s s'.
Proof. intros E ??. by rewrite E. Qed.

Lemma after_quiet s (r : res IdentityStore) : (forall s', r = Ok s' -> quiet s s') -> quiet s (after s r).
Proof. destruct r; cbn; [auto|by intros _ ?]. Qed.
Lemma after_pair_quiet {A} s (r : res (A * IdentityStore)) : (forall x s', r = Ok (x, s') -> quiet s s') -> quiet s (after_pair s r).
Proof. destruct r as [[]|]; cbn; [eauto|by intros _ ?]. Qed.

Ltac quiet_branches E :=
  repeat match type of E with
  | (if ?b then _ else _) = Ok _ => destruct b; try discriminate E
  | (_ ≫= _) = Ok _ => let H := fresh in apply bind_Ok in E as (? & H & E)
  | Ok _ = Ok _ => injection E; clear E; intros; subst
  end.

Lemma quiet_opens s op s' : quiet s s' -> opens s op s'.
Proof. intros Hq sid id Hs. left. by apply Hq. Qed.

Lemma id_step_opens s op : wf_identity s -> opens s op (id_step s op).
Proof.
  intros Hwf. destruct op; cbn [id_step].
  8: apply opens_passphrase. 10: apply opens_app. 10: apply opens_mysql. 15: by apply opens_external.
  15: apply opens_bind.
  all: apply quiet_opens.
  all: try (apply after_quiet; intros s' E). all: try (apply after_pair_quiet; intros x s' E).
  all: try (unfold add_principal, add_principal_with_handle, rename_principal_handle, assign_role, revoke_role, set_passphrase,
    create_app_credential, revoke_app_credential, create_external_credential, revoke_external_credential,
    create_external_credential_challenge, add_public_key, revoke_public_key, apply_authority_handoff, force_detach_authority in E;
    quiet_branches E; by apply quiet_same).
  - unfold remove_principal in E. quiet_branches E. intros sid i Hs. cbn in Hs. by apply map_lookup_filter_Some in Hs as [? _].
  - apply quiet_same. unfold consume_external_credential_challenge. by destruct (external_challenges s !! id).
  - by apply quiet_same.
Qed.

(** ** Recovery *)

(** The principal [id] is an enabled administrator with a credential of some kind. *)
Definition can_recover s id : Prop := exists p, principals s !! id = Some p /\ p_enabled p = true /\ ROLE_ADMIN_ID ∈ p_roles p /\
  (is_Some (passphrases s !! id) \/
   (exists c v, app_credentials s !! c = Some v /\ ac_principal (av_credential v) = id /\ ac_enabled (av_credential v) = true) \/
   (exists c v, external_credentials s !! c = Some v /\ ec_principal v = id /\ ec_enabled v = true)).

Lemma existsb_map {A} (f : bytes * A -> bool) (m : gmap bytes A) :
  existsb f (map_to_list m) = true <-> exists k v, m !! k = Some v /\ f (k, v) = true.
Proof.
  rewrite existsb_exists. split.
  - intros ([k v] & Hin & Hf). exists k, v. split; [|done]. by apply elem_of_map_to_list, list_elem_of_In.
  - intros (k & v & Hk & Hf). exists (k, v). split; [|done]. by apply list_elem_of_In, elem_of_map_to_list.
Qed.

Lemma has_recovery_excluding_spec s ex :
  has_recovery_principal_excluding s ex = true <-> exists id, Some id <> ex /\ can_recover s id.
Proof.
  unfold has_recovery_principal_excluding. rewrite existsb_map. split.
  - intros (id & p & Hp & Hr). cbn in Hr. unfold recovers in Hr.
    rewrite !andb_true_iff, !orb_true_iff, negb_true_iff, bool_decide_eq_false, !bool_decide_eq_true, !existsb_map in Hr.
    destruct Hr as [[[Hne He] Ha] Hc]. exists id. split; [done|]. exists p. split_and!; [done..|]. destruct Hc as [[Hc|Hc]|Hc]; [by left|right; left|right; right].
    + destruct Hc as (c & v & Hv & [Hx%bool_decide_eq_true ?]%andb_true_iff). by exists c, v.
    + destruct Hc as (c & v & Hv & [Hx%bool_decide_eq_true ?]%andb_true_iff). by exists c, v.
  - intros (id & Hne & p & Hp & He & Ha & Hc). exists id, p. split; [done|]. cbn. unfold recovers.
    rewrite !andb_true_iff, !orb_true_iff, negb_true_iff, bool_decide_eq_false, !bool_decide_eq_true, !existsb_map.
    split_and!; [done..|]. destruct Hc as [Hc|[(c & v & Hv & <- & Hen)|(c & v & Hv & <- & Hen)]]; [by left; left|left; right|right];
      exists c, v; (split; [done|]); cbn; rewrite Hen; by rewrite bool_decide_eq_true_2.
Qed.

Lemma has_recovery_spec s : has_recovery_principal s = true <-> exists id, can_recover s id.
Proof. unfold has_recovery_principal. rewrite has_recovery_excluding_spec. split; [intros (id & _ & ?)|intros [id ?]]; by exists id. Qed.

Lemma can_recover_authenticated s s' id :
  can_recover s id -> passphrases s' = passphrases s -> app_credentials s' = app_credentials s ->
  external_credentials s' = external_credentials s -> authenticated_mode s' = true.
Proof.
  assert (Hne : forall A (m : gmap bytes A) k v, m !! k = Some v -> negb (bool_decide (m = ∅)) = true).
  { intros A m k v Hk. apply negb_true_iff, bool_decide_eq_false. intros ->. by rewrite lookup_empty in Hk. }
  unfold authenticated_mode. intros (p & _ & _ & _ & Hc) -> -> ->.
  destruct Hc as [[v Hv]|[(c & v & Hv & _)|(c & v & Hv & _)]]; rewrite (Hne _ _ _ _ Hv), ?orb_true_r; done.
Qed.

(** A principal goes on recovering while it keeps its record, its role and its credentials. *)
Record keeps s s' id : Prop := {
  kp_principal : forall p, principals s !! id = Some p -> ROLE_ADMIN_ID ∈ p_roles p ->
    exists p', principals s' !! id = Some p' /\ (p_enabled p = true -> p_enabled p' = true) /\ ROLE_ADMIN_ID ∈ p_roles p';
  kp_passphrase : is_Some (passphrases s !! id) -> is_Some (passphrases s' !! id);
  kp_apps : forall c v, app_credentials s !! c = Some v -> ac_principal (av_credential v) = id -> app_credentials s' !! c = Some v;
  kp_externals : forall c v, external_credentials s !! c = Some v -> ec_principal v = id -> external_credentials s' !! c = Some v;
}.

Lemma can_recover_mono s s' id : keeps s s' id -> can_recover s id -> can_recover s' id.
Proof.
  intros [Hp Hs Ha Hx] (p & Hl & He & Hr & Hc). destruct (Hp p Hl Hr) as (p' & Hl' & He' & Hr'). exists p'. split_and!; [done|auto|done|].
  destruct Hc as [?|[(c & v & Hv & Hi & Hen)|(c & v & Hv & Hi & Hen)]]; [auto|right; left|right; right]; exists c, v; auto.
Qed.

Lemma keeps_same s s' id :
  principals s' = principals s -> passphrases s' = passphrases s -> app_credentials s' = app_credentials s ->
  external_credentials s' = external_credentials s -> keeps s s' id.
Proof. intros H1 H2 H3 H4. split; [intros p; rewrite H1; eauto|rewrite H2; eauto|rewrite H3; eauto|rewrite H4; eauto]. Qed.

(** A record that keeps its roles, or gains some. *)
Lemma keeps_principal s s' id i p p' :
  principals s !! i = Some p -> principals s' = <[i := p']> (principals s) -> p_enabled p' = p_enabled p -> p_roles p ⊆ p_roles p' ->
  (forall x, is_Some (passphrases s !! x) -> is_Some (passphrases s' !! x)) ->
  app_credentials s' = app_credentials s -> external_credentials s' = external_credentials s -> keeps s s' id.
Proof.
  intros Hi H1 He Hr H2 H3 H4. split; [|auto|rewrite H3; eauto|rewrite H4; eauto].
  intros q Hq Ha. rewrite H1. destruct (decide (id = i)) as [->|]; [rewrite lookup_insert_eq|rewrite lookup_insert_ne by done; eauto].
  simplify_eq. exists p'. rewrite He. split_and!; [done|auto|by apply Hr].
Qed.


Lemma keeps_revoke_role s id i r x s' :
  has_recovery_principal s = true -> revoke_role s i r = Ok (x, s') -> keeps s s' id \/ has_recovery_principal s' = true.
Proof.
  intros (id' & Hr)%has_recovery_spec (p & Hp%principal_Ok & E)%bind_Ok. case_bool_decide as Hin; cbn [andb] in E.
  - right. set (s1 := set_principals _ _) in E. rewrite (can_recover_authenticated s s1 id' Hr) in E by done.
    by destruct (has_recovery_principal s1) eqn:E1; [injection E as _ <-|].
  - injection E as _ <-. left. eapply (keeps_principal _ _ _ i p); [done..| |done|done|done]. cbn. set_solver.
Qed.

Lemma keeps_remove s i x s' :
  has_recovery_principal s = true -> remove_principal s i = Ok (x, s') -> has_recovery_principal s' = true.
Proof.
  intros (id' & Hr)%has_recovery_spec (p & Hp%principal_Ok & E)%bind_Ok. rewrite (can_recover_authenticated s s id' Hr) in E by done.
  destruct (has_recovery_principal_excluding s (Some i)) eqn:Hx; [|done]. injection E as _ <-.
  apply has_recovery_excluding_spec in Hx as (id & Hne & Hc). apply has_recovery_spec. exists id. revert Hc. apply can_recover_mono. split; cbn.
  - intros q Hq Ha. exists q. rewrite lookup_delete_ne by congruence. auto.
  - intros Hv. by rewrite lookup_delete_ne by congruence.
  - intros c v Hv Hi. apply map_lookup_filter_Some. split; [done|]. cbn. congruence.
  - intros c v Hv Hi. apply map_lookup_filter_Some. split; [done|]. cbn. congruence.
Qed.

Lemma keeps_passphrase s id i pw salt s' : set_passphrase s i pw salt = Ok s' -> keeps s s' id.
Proof.
  unfold set_passphrase. case_bool_decide; [done|]. intros (p & Hp%principal_Ok & E)%bind_Ok. destruct (negb _); [done|].
  apply bind_Ok in E as (h & _ & [= <-]). eapply (keeps_principal _ _ _ i p); try done. cbn.
  intros x [v Hv]. apply lookup_insert_is_Some'. right. by exists v.
Qed.

Lemma keeps_add s id i handle name kind s' : add_principal_with_handle s i handle name kind = Ok s' -> keeps s s' id.
Proof.
  unfold add_principal_with_handle. case_bool_decide as Hi; [done|]. intros E. quiet_branches E.
  split; cbn; [|done..]. intros p Hp Ha. exists p. rewrite lookup_insert_ne; [done|]. intros <-. apply Hi. by exists p.
Qed.

Lemma keeps_rename s id i handle s' : rename_principal_handle s i handle = Ok s' -> keeps s s' id.
Proof.
  unfold rename_principal_handle. intros (h & _ & E)%bind_Ok. destruct (match _ with Some _ => _ | None => _ end); [done|].
  apply bind_Ok in E as (p & Hp%principal_Ok & [= <-]). by eapply (keeps_principal _ _ _ i p).
Qed.

Lemma keeps_assign s id i r s' : assign_role s i r = Ok s' -> keeps s s' id.
Proof.
  unfold assign_role. intros (ro & _ & E)%bind_Ok. destruct (negb _); [done|]. apply bind_Ok in E as (p & Hp%principal_Ok & E).
  case_bool_decide; [done|]. injection E as <-. eapply (keeps_principal _ _ _ i p); [done..| |done|done|done]. cbn. set_solver.
Qed.

Lemma keeps_create_app s id i cred label secret salt c s' : create_app_credential s i cred label secret salt = Ok (c, s') -> keeps s s' id.
Proof.
  unfold create_app_credential. case_bool_decide; [done|]. case_bool_decide as Hc; [done|]. intros E. quiet_branches E.
  split; cbn; [eauto|done| |done]. intros c v Hv _. rewrite lookup_insert_ne; [done|]. intros <-. apply Hc. by exists v.
Qed.

Lemma keeps_create_external s id i spec c s' : create_external_credential s i spec = Ok (c, s') -> keeps s s' id.
Proof.
  unfold create_external_credential. case_bool_decide as Hc; [done|]. intros E. quiet_branches E.
  split; cbn; [eauto|done|done|]. intros c v Hv _. rewrite lookup_insert_ne; [done|]. intros <-. apply Hc. by exists v.
Qed.

Lemma keeps_then s id i sid x s' : bind_session s i sid = Ok (x, s') -> keeps s s' id.
Proof. unfold bind_session. intros E. quiet_branches E. by apply keeps_same. Qed.

Lemma keeps_auth_external s id r : keeps s (authenticate_verified_external_credential s r).2 id.
Proof.
  assert (Hk : forall s0 i sid, keeps s s0 id -> principals s0 = principals s -> passphrases s0 = passphrases s ->
    app_credentials s0 = app_credentials s -> external_credentials s0 = external_credentials s -> keeps s (or_keep s0 (bind_session s0 i sid)).2 id).
  { intros s0 i sid ? ????. unfold bind_session. case_bool_decide; [done|]. destruct (principal s0 i); [|done]. cbn.
    destruct (negb _); [done|]. by apply keeps_same. }
  assert (Hs : keeps s s id) by by apply keeps_same.
  unfold authenticate_verified_external_credential. destruct (find_external s r) as [[]|]; [|done]. destruct (principal s _); [|done].
  destruct (negb _); [done|]. destruct (va_challenge r); [|by apply Hk]. destruct (external_challenges s !! _) eqn:Hc; [|done]. destruct (negb _); [done|].
  unfold consume_external_credential_challenge. rewrite Hc. set (s1 := set_external _ _ _).
  assert (keeps s s1 id) by by apply keeps_same. destruct (if _ <? _ then _ else _); [by apply Hk|done].
Qed.

(** Credential revocation is the call without the guard. *)
Definition revokes_credential (op : IdOp) : bool := match op with ORevokeApp _ | ORevokeExternal _ => true | _ => false end.

Lemma recovery_after s (r : res IdentityStore) :
  has_recovery_principal s = true -> (forall s' id, r = Ok s' -> keeps s s' id) -> has_recovery_principal (after s r) = true.
Proof.
  intros H Hk. destruct r as [s'|]; [|done]. apply has_recovery_spec in H as [id H]. apply has_recovery_spec. exists id.
  eapply can_recover_mono; [by apply Hk|done].
Qed.
Lemma recovery_after_pair {A} s (r : res (A * IdentityStore)) :
  has_recovery_principal s = true -> (forall x s' id, r = Ok (x, s') -> keeps s s' id) -> has_recovery_principal (after_pair s r) = true.
Proof.
  intros H Hk. destruct r as [[x s']|]; [|done]. apply has_recovery_spec in H as [id H]. apply has_recovery_spec. exists id.
  eapply can_recover_mono; [by eapply Hk|done].
Qed.
Lemma recovery_keeps s s' : has_recovery_principal s = true -> (forall id, keeps s s' id) -> has_recovery_principal s' = true.
Proof. intros [id H]%has_recovery_spec Hk. apply has_recovery_spec. exists id. by eapply can_recover_mono. Qed.

Lemma recovery_step s op :
  has_recovery_principal s = true -> revokes_credential op = false -> has_recovery_principal (id_step s op) = true.
Proof.
  intros H Hop. destruct op; try discriminate Hop; cbn [id_step]; clear Hop.
  5: { destruct (revoke_role s id _) as [[x s']|] eqn:E; [|done]. pose proof H as [i Hi]%has_recovery_spec.
       destruct (keeps_revoke_role s i _ _ _ _ H E); [|done]. apply has_recovery_spec. exists i. by eapply can_recover_mono. }
  5: { destruct (remove_principal s id) as [[x s']|] eqn:E; [|done]. by eapply keeps_remove. }
  all: try (apply recovery_after; [done|intros s' i E]). all: try (apply recovery_after_pair; [done|intros x s' i E]).
  - by eapply keeps_add.
  - apply bind_Ok in E as (h & _ & E). by eapply keeps_add.
  - by eapply keeps_rename.
  - by eapply keeps_assign.
  - by eapply keeps_passphrase.
  - eapply keeps_then, auth_passphrase_binds, E.
  - by eapply keeps_create_app.
  - apply auth_app_binds in E as [j E]. by eapply keeps_then.
  - eapply keeps_then, auth_mysql_binds, E.
  - by eapply keeps_create_external.
  - unfold create_external_credential_challenge in E. quiet_branches E. by apply keeps_same.
  - apply (recovery_keeps s); [done|]. intros i. unfold consume_external_credential_challenge.
    destruct (external_challenges s !! id); by apply keeps_same.
  - apply (recovery_keeps s); [done|]. intros i. by apply keeps_same.
  - apply (recovery_keeps s); [done|]. intros i. apply keeps_auth_external.
  - by eapply keeps_then.
  - unfold add_public_key in E. quiet_branches E. by apply keeps_same.
  - unfold revoke_public_key in E. quiet_branches E. by apply keeps_same.
  - unfold apply_authority_handoff in E. quiet_branches E. by apply keeps_same.
  - unfold force_detach_authority in E. quiet_branches E. by apply keeps_same.
Qed.










(** ** The properties *)

(** Once some enabled administrator has a credential, one has for as long as no credential is revoked: role
    revocation and principal removal refuse to take the last one away. *)
Theorem recovery_kept s ops :
  has_recovery_principal s = true -> Forall (fun op => revokes_credential op = false) ops -> has_recovery_principal (id_run s ops) = true.
Proof.
  revert s. induction ops as [|op ops IH]; intros s Hs Hops; [done|]. apply Forall_cons in Hops as [Hop Hops].
  apply IH; [|done]. by apply recovery_step.
Qed.


End Runs.

(** ** Witnesses *)

Section Witnesses.

(** The hex codec, and functions with the types of the others. *)
Definition toy_hex_value (b : byte) : option N :=
  let n := Byte.to_N b in if (48 <=? n) && (n <=? 57) then Some (n - 48) else if (97 <=? n) && (n <=? 102) then Some (n - 87) else None.
Fixpoint toy_hex_decode (b : bytes) : option bytes :=
  match b with
  | [] => Some []
  | x :: y :: b => h ← toy_hex_value x; l ← toy_hex_value y; b ← toy_hex_decode b; Some (as_u8 (16 * h + l) :: b)
  | _ => None
  end.

Definition toy_crypto : Crypto := {|
  argon2 pw salt := Ok (take 32 (pw ++ salt ++ repeat x00 32)); sha1 b := take 20 (b ++ repeat x00 20);
  verify_es256_signature key payload sig := if bool_decide (sig = key ++ payload) then Ok () else Err IntegrityFailure;
  verify_ed25519_signature key payload sig := if bool_decide (sig = key ++ payload) then Ok () else Err IntegrityFailure;
  hex_encode b := concat (map hex_byte b); hex_decode := toy_hex_decode |}.
#[local] Existing Instance toy_crypto.

Definition demo_root : bytes := repeat x01 16.
Definition demo_salt : bytes := repeat x73 8.
Definition demo_ops : list IdOp :=
  [OSetPassphrase demo_root (str "secret") demo_salt; OAddNamed (repeat x02 16) (str "Ann") User; OAuthPassphrase demo_root (str "secret") (str "s1")].

Lemma recovery_kept_witness :
  has_recovery_principal (id_run (id_run (identity_new demo_root) demo_ops) [ORevokeRole demo_root ROLE_ADMIN_ID; ORemovePrincipal demo_root]) = true.
Proof. apply recovery_kept; [vm_compute; reflexivity|]. apply Forall_cons; split; [reflexivity|]. apply Forall_cons; split; [reflexivity|constructor]. Defined.



End Witnesses.

End IdentityProps.
