(* ===== verification/IdentityCodec.v ===== *)
(** * The stored identity record (the codec and the replication of crates/loom-core/src/identity.rs)

    [identity_encode] and [identity_decode] are [IdentityStore::encode] and [decode]; sessions are not
    stored. [identity_roundtrip] reads back every store whose handles and authority refer to principals
    it has; [removal_undecodable] shows that the store a removal leaves cannot be read back. The last
    part models [authority_witness] and [replicate_authority_from]. *)

From S2P Require Import Prelude Codec Types Workspace Cbor Cursor Identity IdentityProps Store.

Module IdentityCodec.
Import Error Codec Digest Cbor Cursor Identity IdentityProps Store.
Implicit Types (s : IdentityStore).

(** ** Fields *)

Definition put_flag (b : bool) : bytes := [if b then x01 else x00].
Definition cur_bool : reader bool := fun rest =>
  '(tag, rest) ← cur_u8 rest;
  match tag with 0 => Ok (false, rest) | 1 => Ok (true, rest) | _ => Err CorruptObject end.

(** A tag and [n] bytes. *)
Definition cur_opt_take (n : N) : reader (option bytes) := fun rest =>
  '(tag, rest) ← cur_u8 rest;
  match tag with
  | 0 => Ok (None, rest)
  | 1 => '(b, rest) ← cur_take n rest; Ok (Some b, rest)
  | _ => Err CorruptObject
  end.

Definition put_optional_digest (d : option Digest) : bytes :=
  match d with None => [x00] | Some d => x01 :: as_u8 (algo_code (algo d)) :: dbytes d end.

Definition cur_optional_digest : reader (option Digest) := fun rest =>
  '(tag, rest) ← cur_u8 rest;
  match tag with
  | 0 => Ok (None, rest)
  | 1 =>
      '(code, rest) ← cur_u8 rest;
      a ← algo_from_code code;
      '(b, rest) ← cur_take 32 rest;
      Ok (Some (mkDigest a b), rest)
  | _ => Err CorruptObject
  end.

(** [put_uvarint(len)] and the items; [for _ in 0..uvarint] of an item reader. *)
Definition put_list {A} (w : A -> bytes) (l : list A) : bytes := put_uvarint (as_u64 (N.of_nat (length l))) ++ concat (map w l).
Definition cur_list {A} (p : reader A) : reader (list A) := fun rest => '(n, rest) ← cur_uvarint rest; cur_repeat p n rest.

Definition principal_kind_to_u8 (k : PrincipalKind) : N := match k with Root => 0 | User => 1 | Service => 2 end.
Definition principal_kind_from_u8 (b : N) : res PrincipalKind :=
  match b with 0 => Ok Root | 1 => Ok User | 2 => Ok Service | _ => Err CorruptObject end.

Definition external_credential_kind_to_u8 (k : ExternalCredentialKind) : N :=
  match k with PublicKey => 0 | MtlsCertificate => 1 | Passkey => 2 | OidcSubject => 3 | SamlSubject => 4 end.
Definition external_credential_kind_from_u8 (b : N) : res ExternalCredentialKind :=
  match b with 0 => Ok PublicKey | 1 => Ok MtlsCertificate | 2 => Ok Passkey | 3 => Ok OidcSubject | 4 => Ok SamlSubject | _ => Err CorruptObject end.

Definition authority_mode_to_u8 (m : AuthorityMode) : N := match m with Authority => 0 | Mirror => 1 | Detached => 2 end.
Definition authority_mode_from_u8 (b : N) : res AuthorityMode :=
  match b with 0 => Ok Authority | 1 => Ok Mirror | 2 => Ok Detached | _ => Err CorruptObject end.

(** ** Records *)

Definition put_authority (a : AuthorityState) : bytes :=
  [as_u8 (authority_mode_to_u8 (a_mode a))] ++ a_authority a ++ put_uvarint (a_generation a) ++ put_optional_digest (a_head a).
Definition cur_authority : reader AuthorityState := fun rest =>
  '(b, rest) ← cur_u8 rest; mode ← authority_mode_from_u8 b;
  '(id, rest) ← cur_take16 rest;
  '(g, rest) ← cur_uvarint rest;
  '(head, rest) ← cur_optional_digest rest;
  Ok (mkAuthorityState mode id g head, rest).

Definition put_handoff (h : Handoff) : bytes :=
  h_from h ++ h_to h ++ put_uvarint (h_generation h) ++ put_optional_digest (h_head h) ++ put_bytes (signed_record h).
Definition cur_handoff : reader Handoff := fun rest =>
  '(from, rest) ← cur_take16 rest;
  '(to, rest) ← cur_take16 rest;
  '(g, rest) ← cur_uvarint rest;
  '(head, rest) ← cur_optional_digest rest;
  '(rec_, rest) ← cur_bytes rest;
  if bool_decide (rec_ = []) then Err CorruptObject
  else
    let h := mkHandoff from to g head rec_ in
    _ ← map_err (fun _ => CorruptObject) (validate_authority_handoff_record h);
    Ok (h, rest).

Definition put_detach (d : option Detach) : bytes :=
  match d with
  | None => [x00]
  | Some d => [x01] ++ previous_authority d ++ new_authority d ++ put_uvarint (d_generation d) ++ put_bytes (reason d)
  end.
Definition cur_detach : reader (option Detach) := fun rest =>
  '(tag, rest) ← cur_u8 rest;
  match tag with
  | 0 => Ok (None, rest)
  | 1 =>
      '(previous, rest) ← cur_take16 rest;
      '(new, rest) ← cur_take16 rest;
      '(g, rest) ← cur_uvarint rest;
      '(why, rest) ← cur_string rest;
      Ok (Some (mkDetach previous new g why), rest)
  | _ => Err CorruptObject
  end.

Definition put_role (r : IdentityRole) : bytes := role_key r ++ put_bytes (role_name r) ++ put_flag (role_enabled r).
Definition cur_role : reader IdentityRole := fun rest =>
  '(id, rest) ← cur_take16 rest;
  '(name, rest) ← cur_string rest;
  '(enabled, rest) ← cur_bool rest;
  Ok (mkIdentityRole id name enabled, rest).

(** [BTreeSet<RoleId>] in order. *)
Definition roles_iter (rs : gset bytes) : list bytes := sort_by (fun r => r) (elements rs).

Definition put_principal (p : Principal) : bytes :=
  p_id p ++ put_bytes (p_handle p) ++ put_bytes (p_name p) ++ [as_u8 (principal_kind_to_u8 (p_kind p))]
  ++ put_flag (p_enabled p) ++ put_flag (has_passphrase p) ++ put_list (fun r => r) (roles_iter (p_roles p)).

(** A role id that the store has. *)
Definition cur_role_of (rs : gmap bytes IdentityRole) : reader bytes := fun rest =>
  '(r, rest) ← cur_take16 rest;
  if bool_decide (is_Some (rs !! r)) then Ok (r, rest) else Err CorruptObject.

Definition cur_principal (rs : gmap bytes IdentityRole) : reader Principal := fun rest =>
  '(id, rest) ← cur_take16 rest;
  '(raw, rest) ← cur_string rest; handle ← normalize_principal_handle raw;
  '(name, rest) ← cur_string rest;
  '(b, rest) ← cur_u8 rest; kind ← principal_kind_from_u8 b;
  '(enabled, rest) ← cur_bool rest;
  '(flag, rest) ← cur_bool rest;
  '(prs, rest) ← cur_list (cur_role_of rs) rest;
  Ok (mkPrincipal id handle name kind enabled flag (list_to_set prs), rest).

(** The MySQL verifier, which the older format does not have. *)
Definition cur_mysql (v9 : bool) : reader (option bytes) := fun rest => if v9 then cur_opt_take 20 rest else Ok (None, rest).

Definition put_passphrase (e : bytes * PassphraseVerifier) : bytes :=
  e.1 ++ put_bytes (pv_salt e.2) ++ pv_hash e.2 ++ put_opt_id (pv_mysql e.2).
Definition cur_passphrase (v9 : bool) (ps : gmap bytes Principal) : reader (bytes * PassphraseVerifier) := fun rest =>
  '(id, rest) ← cur_take16 rest;
  '(salt, rest) ← cur_bytes rest;
  '(h, rest) ← cur_take 32 rest;
  '(mysql, rest) ← cur_mysql v9 rest;
  if bool_decide (is_Some (ps !! id)) then Ok ((id, mkPassphraseVerifier salt h mysql), rest) else Err CorruptObject.

Definition put_app (e : bytes * AppCredentialVerifier) : bytes :=
  let c := av_credential e.2 in
  e.1 ++ ac_principal c ++ put_bytes (ac_label c) ++ put_flag (ac_enabled c) ++ put_bytes (av_salt e.2) ++ av_hash e.2 ++ put_opt_id (av_mysql e.2).
Definition cur_app (v9 : bool) (ps : gmap bytes Principal) : reader (bytes * AppCredentialVerifier) := fun rest =>
  '(id, rest) ← cur_take16 rest;
  '(p, rest) ← cur_take16 rest;
  '(label, rest) ← cur_string rest;
  '(enabled, rest) ← cur_bool rest;
  '(salt, rest) ← cur_bytes rest;
  '(h, rest) ← cur_take 32 rest;
  '(mysql, rest) ← cur_mysql v9 rest;
  if bool_decide (is_Some (ps !! p)) then Ok ((id, mkAppCredentialVerifier (mkAppCredential id p label enabled) salt h mysql), rest)
  else Err CorruptObject.

Definition put_external (e : bytes * ExternalCredential) : bytes :=
  let c := e.2 in
  e.1 ++ ec_principal c ++ [as_u8 (external_credential_kind_to_u8 (ec_kind c))] ++ put_bytes (ec_label c) ++ put_bytes (ec_issuer c)
  ++ put_bytes (ec_subject c) ++ put_opt_str (ec_material c) ++ put_flag (ec_enabled c).
Definition cur_external (ps : gmap bytes Principal) : reader (bytes * ExternalCredential) := fun rest =>
  '(id, rest) ← cur_take16 rest;
  '(p, rest) ← cur_take16 rest;
  '(b, rest) ← cur_u8 rest; kind ← external_credential_kind_from_u8 b;
  '(label, rest) ← cur_string rest;
  '(issuer, rest) ← cur_string rest;
  '(subject, rest) ← cur_string rest;
  '(material, rest) ← cur_opt_str rest;
  '(enabled, rest) ← cur_bool rest;
  if bool_decide (is_Some (ps !! p)) then Ok ((id, mkExternalCredential id p kind label issuer subject material enabled), rest)
  else Err CorruptObject.

Definition put_challenge (e : bytes * Challenge) : bytes :=
  e.1 ++ ch_credential e.2 ++ put_bytes (ch_nonce e.2) ++ put_uvarint (ch_issued e.2) ++ put_uvarint (ch_expires e.2).
Definition cur_challenge (ecs : gmap bytes ExternalCredential) : reader (bytes * Challenge) := fun rest =>
  '(id, rest) ← cur_take16 rest;
  '(c, rest) ← cur_take16 rest;
  '(nonce, rest) ← cur_bytes rest;
  '(issued, rest) ← cur_uvarint rest;
  '(expires, rest) ← cur_uvarint rest;
  if bool_decide (is_Some (ecs !! c)) then Ok ((id, mkChallenge id c nonce issued expires), rest) else Err CorruptObject.

Definition put_key (k : PublicKeyRecord) : bytes :=
  pk_id k ++ pk_principal k ++ put_bytes (pk_label k) ++ put_bytes (pk_algorithm k) ++ put_bytes (pk_bytes k) ++ put_flag (pk_enabled k).
Definition cur_key (ps : gmap bytes Principal) : reader PublicKeyRecord := fun rest =>
  '(id, rest) ← cur_take16 rest;
  '(p, rest) ← cur_take16 rest;
  '(label, rest) ← cur_string rest;
  '(algorithm, rest) ← cur_string rest;
  '(material, rest) ← cur_bytes rest;
  '(enabled, rest) ← cur_bool rest;
  if bool_decide (is_Some (ps !! p)) then
    _ ← map_err (fun _ => CorruptObject) (validate_signature_suite algorithm);
    _ ← map_err (fun _ => CorruptObject) (validate_public_key_material algorithm material);
    Ok (mkPublicKeyRecord id p label algorithm material enabled, rest)
  else Err CorruptObject.

Definition put_handle (e : bytes * bytes) : bytes := put_bytes e.1 ++ e.2.

(** The loop over the handles, which refuses a repeated one; the bytes left bound the iterations. *)
Fixpoint cur_handles (ps : gmap bytes Principal) (fuel : nat) (n : N) (acc : gmap bytes bytes) (rest : bytes)
    : res (gmap bytes bytes * bytes) :=
  if n =? 0 then Ok (acc, rest)
  else
    match fuel with
    | O => Err CorruptObject
    | S fuel =>
        '(raw, rest) ← cur_string rest; handle ← normalize_principal_handle raw;
        '(p, rest) ← cur_take16 rest;
        if negb (bool_decide (is_Some (ps !! p))) || bool_decide (is_Some (acc !! handle)) then Err CorruptObject
        else cur_handles ps fuel (n - 1) (<[handle := p]> acc) rest
    end.

(** ** The store *)

(** [BTreeMap<u64, _>] in order. *)
Definition handoffs_iter (m : gmap N Handoff) : list (N * Handoff) := sort_by (fun e => to_be_bytes 8 e.1) (map_to_list m).

Definition MAGIC8 : bytes := str "LID8".
Definition MAGIC9 : bytes := str "LID9".

(** Everything before the handles. *)
Definition put_records s : bytes :=
  put_opt_id (root s) ++ put_authority (authority s) ++ put_list put_handoff (map snd (handoffs_iter (handoffs s)))
  ++ put_detach (detach s) ++ put_list put_role (map snd (btree_iter (roles s)))
  ++ put_list put_principal (map snd (btree_iter (principals s))) ++ put_list put_passphrase (btree_iter (passphrases s))
  ++ put_list put_app (btree_iter (app_credentials s)) ++ put_list put_external (btree_iter (external_credentials s))
  ++ put_list put_challenge (btree_iter (external_challenges s)) ++ put_list put_key (map snd (btree_iter (public_keys s))).

Definition identity_encode s : bytes := MAGIC9 ++ put_records s ++ put_list put_handle (btree_iter (id_handles s)).

(** [roles.entry(id).or_insert(role)] for the built-in roles. *)
Definition ensure_builtin_roles (rs : gmap bytes IdentityRole) : gmap bytes IdentityRole := rs ∪ built_in_roles.

Definition keyed {A} (key : A -> bytes) (l : list A) : gmap bytes A := collect_map (map (fun x => (key x, x)) l).

Definition cur_records (v9 : bool) : reader IdentityStore := fun rest =>
  '(root, rest) ← cur_opt_id rest;
  '(authority, rest) ← cur_authority rest;
  '(hs, rest) ← cur_list cur_handoff rest;
  '(detach, rest) ← cur_detach rest;
  '(rs, rest) ← cur_list cur_role rest;
  let roles := ensure_builtin_roles (keyed role_key rs) in
  '(ps, rest) ← cur_list (cur_principal roles) rest;
  let principals := keyed p_id ps in
  '(pp, rest) ← cur_list (cur_passphrase v9 principals) rest;
  '(apps, rest) ← cur_list (cur_app v9 principals) rest;
  '(exts, rest) ← cur_list (cur_external principals) rest;
  let externals := collect_map exts in
  '(chs, rest) ← cur_list (cur_challenge externals) rest;
  '(ks, rest) ← cur_list (cur_key principals) rest;
  Ok (mkIdentityStore root authority (foldl (fun m h => <[h_generation h := h]> m) ∅ hs) detach principals ∅ roles
        (collect_map pp) (collect_map apps) externals (collect_map chs) (keyed pk_id ks) ∅, rest).

(** The checks after the last byte. *)
Definition identity_consistent s : bool :=
  forallb (fun e => Bool.eqb (has_passphrase e.2) (bool_decide (is_Some (passphrases s !! e.1)))) (btree_iter (principals s))
  && match root s with Some r => bool_decide (is_Some (principals s !! r)) | None => true end
  && bool_decide (is_Some (principals s !! a_authority (authority s)))
  && match detach s with Some d => bool_decide (new_authority d = a_authority (authority s)) | None => true end.

Definition identity_decode (b : bytes) : res IdentityStore :=
  '(magic, rest) ← cur_take 4 b;
  if negb (bool_decide (magic = MAGIC8)) && negb (bool_decide (magic = MAGIC9)) then Err CorruptObject
  else
    '(s, rest) ← cur_records (bool_decide (magic = MAGIC9)) rest;
    '(n, rest) ← cur_uvarint rest;
    '(hs, rest) ← cur_handles (principals s) (length rest) n ∅ rest;
    if negb (bool_decide (rest = [])) then Err CorruptObject
    else if identity_consistent s then Ok (set_handles s hs) else Err CorruptObject.

(** ** Reading back *)

Definition text (b : bytes) : Prop := valid_utf8 b = true /\ len b <= u64_max.
Definition opt_len (n : nat) (o : option bytes) : Prop := forall b, o = Some b -> length b = n.

Lemma reads_bool b : reads cur_bool (put_flag b) b.
Proof. by destruct b. Qed.

Lemma reads_cat {A} (p : reader A) b x rest : reads p b x -> p (b ++ rest) = Ok (x, rest).
Proof. intros H. apply H. Qed.

Lemma reads_take_n n b : length b = n -> reads (cur_take (N.of_nat n)) b b.
Proof. intros <-. apply reads_take. Qed.

Lemma reads_text b : text b -> reads cur_string (put_bytes b) b.
Proof. intros []. by apply reads_string. Qed.

Lemma reads_opt_take n o : opt_len n o -> reads (cur_opt_take (N.of_nat n)) (put_opt_id o) o.
Proof.
  intros Ho rest. destruct o as [b|]; [|done]. unfold cur_opt_take. cbn [put_opt_id app cur_u8 mbind result_bind].
  change (Byte.to_N x01) with 1. cbn iota. by rewrite (reads_take_n n) by auto.
Qed.

Lemma reads_opt_text o : (forall b, o = Some b -> text b) -> reads cur_opt_str (put_opt_str o) o.
Proof. intros Ho. apply reads_opt_str. intros b Hb. destruct (Ho b Hb). done. Qed.

Lemma reads_optional_digest o : (forall d, o = Some d -> wf_digest d) -> reads cur_optional_digest (put_optional_digest o) o.
Proof.
  intros Ho rest. destruct o as [d|]; [|done]. unfold cur_optional_digest. cbn [put_optional_digest app cur_u8 mbind result_bind].
  change (Byte.to_N x01) with 1. cbn iota. assert (algo_from_code (Byte.to_N (as_u8 (algo_code (algo d)))) = Ok (algo d)) as -> by by destruct (algo d).
  cbn [mbind result_bind]. change 32 with (N.of_nat 32). rewrite (reads_take_n 32) by by apply Ho. by destruct d.
Qed.

Lemma reads_list {A} (p : reader A) (w : A -> bytes) l :
  N.of_nat (length l) <= u64_max -> Forall (fun x => reads p (w x) x /\ w x <> []) l -> reads (cur_list p) (put_list w l) l.
Proof.
  intros Hl Hf rest. unfold cur_list, put_list. rewrite <- app_assoc, as_u64_small, reads_uvarint by done. cbn [mbind result_bind].
  by apply reads_repeat.
Qed.

Lemma cur_u8_cat b rest : cur_u8 ([b] ++ rest) = Ok (Byte.to_N b, rest).
Proof. done. Qed.

(** Read the next field of a record whose readers are applied to its fields in turn. *)
Ltac read_field :=
  first [ rewrite reads_id by auto | rewrite reads_uvarint by auto | rewrite reads_optional_digest by auto | rewrite reads_bytes by auto
        | rewrite reads_text by auto | rewrite reads_opt_text by auto | rewrite reads_bool
        | rewrite (reads_take_n 32 : forall b, _ -> reads (cur_take 32) b b) by auto
        | rewrite (reads_opt_take 20 : forall b, _ -> reads (cur_opt_take 20) (put_opt_id b) b) by auto | rewrite cur_u8_cat ];
  cbn [mbind result_bind].
Ltac read_record := intros rest; rewrite <- ?app_assoc; repeat read_field.

Record typed_authority (a : AuthorityState) : Prop := {
  ta_id : WorkspaceId.wf_id (a_authority a); ta_gen : a_generation a <= u64_max; ta_head : forall d, a_head a = Some d -> wf_digest d }.

Lemma reads_authority a : typed_authority a -> reads cur_authority (put_authority a) a.
Proof.
  intros [] . unfold cur_authority, put_authority. read_record.
  assert (authority_mode_from_u8 (Byte.to_N (as_u8 (authority_mode_to_u8 (a_mode a)))) = Ok (a_mode a)) as -> by by destruct (a_mode a).
  cbn [mbind result_bind]. repeat read_field. by destruct a.
Qed.

Record typed_handoff (h : Handoff) : Prop := {
  th_from : WorkspaceId.wf_id (h_from h); th_to : WorkspaceId.wf_id (h_to h); th_gen : h_generation h <= u64_max;
  th_head : forall d, h_head h = Some d -> wf_digest d; th_record : len (signed_record h) <= u64_max }.

Lemma reads_handoff h :
  typed_handoff h -> signed_record h <> [] -> validate_authority_handoff_record h = Ok () -> reads cur_handoff (put_handoff h) h.
Proof.
  intros [] Hne Hv. unfold cur_handoff, put_handoff. read_record. rewrite (bool_decide_eq_false_2 _ Hne).
  replace (mkHandoff _ _ _ _ _) with h by by destruct h. by rewrite Hv.
Qed.

Definition typed_detach (d : Detach) : Prop :=
  WorkspaceId.wf_id (previous_authority d) /\ WorkspaceId.wf_id (new_authority d) /\ d_generation d <= u64_max /\ text (reason d).

Lemma reads_detach o : (forall d, o = Some d -> typed_detach d) -> reads cur_detach (put_detach o) o.
Proof.
  intros Ho. destruct o as [d|]; [|done]. destruct (Ho d eq_refl) as (? & ? & ? & ?). unfold cur_detach, put_detach. read_record.
  change (Byte.to_N x01) with 1. cbn iota. repeat read_field. by destruct d.
Qed.

Definition typed_role (r : IdentityRole) : Prop := WorkspaceId.wf_id (role_key r) /\ text (role_name r).

Lemma reads_role r : typed_role r -> reads cur_role (put_role r) r.
Proof. intros []. unfold cur_role, put_role. read_record. by destruct r. Qed.

Record typed_principal (p : Principal) : Prop := {
  tp_id : WorkspaceId.wf_id (p_id p); tp_handle : text (p_handle p); tp_name : text (p_name p);
  tp_roles : set_Forall WorkspaceId.wf_id (p_roles p); tp_count : N.of_nat (size (p_roles p)) <= u64_max }.

Lemma wf_id_nonempty id : WorkspaceId.wf_id id -> id <> [].
Proof. by intros H ->. Qed.

Lemma id_cons_nonempty id (b : bytes) : WorkspaceId.wf_id id -> id ++ b <> [].
Proof. intros H. by destruct id. Qed.

Lemma reads_principal rs p :
  typed_principal p -> p_roles p ⊆ dom rs -> normalize_principal_handle (p_handle p) = Ok (p_handle p) ->
  reads (cur_principal rs) (put_principal p) p.
Proof.
  intros [] Hr Hn. unfold cur_principal, put_principal. read_record. rewrite Hn. cbn [mbind result_bind]. repeat read_field.
  assert (principal_kind_from_u8 (Byte.to_N (as_u8 (principal_kind_to_u8 (p_kind p)))) = Ok (p_kind p)) as -> by by destruct (p_kind p).
  cbn [mbind result_bind]. repeat read_field.
  assert (Hp : roles_iter (p_roles p) ≡ₚ elements (p_roles p)) by apply sort_by_perm.
  rewrite reads_list; [|by rewrite Hp|].
  - cbn [mbind result_bind]. assert (list_to_set (roles_iter (p_roles p)) = p_roles p) as ->; [|by destruct p].
    apply set_eq. intros x. by rewrite elem_of_list_to_set, Hp, elem_of_elements.
  - apply Forall_forall. intros r. rewrite Hp, elem_of_elements. intros Hin. split; [|by apply wf_id_nonempty, tp_roles0].
    intros rest0. unfold cur_role_of. rewrite reads_id by by apply tp_roles0. cbn [mbind result_bind].
    rewrite bool_decide_eq_true_2; [done|]. by apply elem_of_dom, Hr.
Qed.

Definition typed_verifier (salt h : bytes) (mysql : option bytes) : Prop := len salt <= u64_max /\ length h = 32%nat /\ opt_len 20 mysql.

Lemma reads_passphrase ps e :
  WorkspaceId.wf_id e.1 -> typed_verifier (pv_salt e.2) (pv_hash e.2) (pv_mysql e.2) -> is_Some (ps !! e.1) ->
  reads (cur_passphrase true ps) (put_passphrase e) e.
Proof.
  intros Hid (? & ? & ?) Hp. unfold cur_passphrase, cur_mysql, put_passphrase. read_record.
  rewrite bool_decide_eq_true_2 by done. by destruct e as [? []].
Qed.

Record typed_app (v : AppCredentialVerifier) : Prop := {
  tv_id : WorkspaceId.wf_id (ac_id (av_credential v)); tv_principal : WorkspaceId.wf_id (ac_principal (av_credential v));
  tv_label : text (ac_label (av_credential v)); tv_verifier : typed_verifier (av_salt v) (av_hash v) (av_mysql v) }.

Lemma reads_app_tail ps e :
  typed_app e.2 -> ac_id (av_credential e.2) = e.1 -> is_Some (ps !! ac_principal (av_credential e.2)) -> reads (cur_app true ps) (put_app e) e.
Proof.
  intros [Hid Hp Hl (? & ? & ?)] Heq Hs. rewrite Heq in Hid. unfold cur_app, cur_mysql, put_app. read_record.
  rewrite bool_decide_eq_true_2 by done. destruct e as [i [[]]]. by cbn in *; subst.
Qed.

Record typed_external (c : ExternalCredential) : Prop := {
  te_id : WorkspaceId.wf_id (ec_id c); te_principal : WorkspaceId.wf_id (ec_principal c); te_label : text (ec_label c);
  te_issuer : text (ec_issuer c); te_subject : text (ec_subject c); te_material : forall b, ec_material c = Some b -> text b }.

Lemma reads_external ps e :
  typed_external e.2 -> ec_id e.2 = e.1 -> is_Some (ps !! ec_principal e.2) -> reads (cur_external ps) (put_external e) e.
Proof.
  intros [Hid Hp Hl Hi Hsu Hm] Heq Hs. rewrite Heq in Hid. unfold cur_external, put_external. read_record.
  assert (external_credential_kind_from_u8 (Byte.to_N (as_u8 (external_credential_kind_to_u8 (ec_kind e.2)))) = Ok (ec_kind e.2)) as ->
    by by destruct (ec_kind e.2).
  cbn [mbind result_bind]. repeat read_field. rewrite bool_decide_eq_true_2 by done. destruct e as [i []]. by cbn in *; subst.
Qed.

Record typed_challenge (c : Challenge) : Prop := {
  tc_id : WorkspaceId.wf_id (ch_id c); tc_credential : WorkspaceId.wf_id (ch_credential c); tc_nonce : len (ch_nonce c) <= u64_max;
  tc_issued : ch_issued c <= u64_max; tc_expires : ch_expires c <= u64_max }.

Lemma reads_challenge ecs e :
  typed_challenge e.2 -> ch_id e.2 = e.1 -> is_Some (ecs !! ch_credential e.2) -> reads (cur_challenge ecs) (put_challenge e) e.
Proof.
  intros [Hid Hp Hn Hi He] Heq Hs. rewrite Heq in Hid. unfold cur_challenge, put_challenge. read_record.
  rewrite bool_decide_eq_true_2 by done. destruct e as [i []]. by cbn in *; subst.
Qed.

Record typed_key (k : PublicKeyRecord) : Prop := {
  tk_id : WorkspaceId.wf_id (pk_id k); tk_principal : WorkspaceId.wf_id (pk_principal k); tk_label : text (pk_label k);
  tk_algorithm : text (pk_algorithm k); tk_bytes : len (pk_bytes k) <= u64_max }.

Lemma reads_key ps k :
  typed_key k -> is_Some (ps !! pk_principal k) -> validate_signature_suite (pk_algorithm k) = Ok () ->
  validate_public_key_material (pk_algorithm k) (pk_bytes k) = Ok () -> reads (cur_key ps) (put_key k) k.
Proof.
  intros [] Hs Ha Hm. unfold cur_key, put_key. read_record. rewrite bool_decide_eq_true_2 by done. rewrite Ha, Hm. by destruct k.
Qed.

(** The stores the Rust types can hold: ids of 16 bytes, text that is UTF-8, hashes of their lengths, counts in a [u64]. *)
Record typed_identity s : Prop := {
  ti_root : forall r, root s = Some r -> WorkspaceId.wf_id r;
  ti_authority : typed_authority (authority s);
  ti_handoffs : map_Forall (fun _ h => typed_handoff h) (handoffs s) /\ N.of_nat (size (handoffs s)) <= u64_max;
  ti_detach : forall d, detach s = Some d -> typed_detach d;
  ti_principals : map_Forall (fun _ p => typed_principal p) (principals s) /\ N.of_nat (size (principals s)) <= u64_max;
  ti_passphrases : map_Forall (fun id v => WorkspaceId.wf_id id /\ typed_verifier (pv_salt v) (pv_hash v) (pv_mysql v)) (passphrases s) /\
    N.of_nat (size (passphrases s)) <= u64_max;
  ti_apps : map_Forall (fun _ v => typed_app v) (app_credentials s) /\ N.of_nat (size (app_credentials s)) <= u64_max;
  ti_externals : map_Forall (fun _ c => typed_external c) (external_credentials s) /\ N.of_nat (size (external_credentials s)) <= u64_max;
  ti_challenges : map_Forall (fun _ c => typed_challenge c) (external_challenges s) /\ N.of_nat (size (external_challenges s)) <= u64_max;
  ti_keys : map_Forall (fun _ k => typed_key k) (public_keys s) /\ N.of_nat (size (public_keys s)) <= u64_max;
  ti_handles : map_Forall (fun h id => text h /\ WorkspaceId.wf_id id) (id_handles s) /\ N.of_nat (size (id_handles s)) <= u64_max;
}.

Lemma btree_iter_length {A} (m : gmap bytes A) : length (btree_iter m) = size m.
Proof. by rewrite btree_iter_perm, length_map_to_list. Qed.

(** A map is read back from its entries, or from its values where they hold their keys. *)
Lemma reads_map {A} (p : reader (bytes * A)) (w : bytes * A -> bytes) (m : gmap bytes A) :
  N.of_nat (size m) <= u64_max -> (forall k v, m !! k = Some v -> reads p (w (k, v)) (k, v) /\ w (k, v) <> []) ->
  reads (cur_list p) (put_list w (btree_iter m)) (btree_iter m).
Proof.
  intros Hs Hm. apply reads_list; [by rewrite btree_iter_length|]. apply Forall_forall. intros [k v] Hin%elem_of_btree_iter. by apply Hm.
Qed.

Lemma reads_values {A} (p : reader A) (w : A -> bytes) (m : gmap bytes A) :
  N.of_nat (size m) <= u64_max -> (forall k v, m !! k = Some v -> reads p (w v) v /\ w v <> []) ->
  reads (cur_list p) (put_list w (map snd (btree_iter m))) (map snd (btree_iter m)).
Proof.
  intros Hs Hm. apply reads_list; [by rewrite length_map, btree_iter_length|]. apply Forall_map, Forall_forall.
  intros [k v] Hin%elem_of_btree_iter. by eapply Hm.
Qed.

Lemma keyed_values {A} (key : A -> bytes) (m : gmap bytes A) :
  (forall k v, m !! k = Some v -> key v = k) -> keyed key (map snd (btree_iter m)) = m.
Proof.
  intros Hm. unfold keyed. rewrite map_map. rewrite <- (collect_map_btree_iter m) at 2. f_equal.
  rewrite <- (map_id (btree_iter m)) at 2. apply map_ext_in. intros [k v] Hin. cbn. f_equal. apply Hm, elem_of_btree_iter. by apply list_elem_of_In.
Qed.

Lemma handoffs_iter_elem m g h : (g, h) ∈ handoffs_iter m <-> m !! g = Some h.
Proof. unfold handoffs_iter. by rewrite sort_by_perm, elem_of_map_to_list. Qed.

Lemma handoffs_values (m : gmap N Handoff) :
  map_Forall (fun g h => h_generation h = g) m ->
  foldl (fun m h => <[h_generation h := h]> m) ∅ (map snd (handoffs_iter m)) = m.
Proof.
  intros Hm. apply map_eq. intros g. assert (Hn : NoDup (handoffs_iter m)).
  { unfold handoffs_iter. rewrite sort_by_perm. apply NoDup_map_to_list. }
  assert (Hin : forall g h, (g, h) ∈ handoffs_iter m <-> m !! g = Some h) by (intros; apply handoffs_iter_elem). revert Hn Hin.
  generalize (handoffs_iter m). intros l Hn Hin.
  cut (forall acc : gmap N Handoff, foldl (fun m h => <[h_generation h := h]> m) acc (map snd l) !! g =
    match list_find (fun e => e.1 = g) l with Some (_, e) => Some e.2 | None => acc !! g end).
  { intros ->. rewrite lookup_empty. destruct (list_find _ l) as [[i [g' h]]|] eqn:E.
    - apply list_find_Some in E as (Hl & Hg & _). cbn in Hg. subst g'. symmetry. apply Hin. by eapply list_elem_of_lookup_2.
    - apply list_find_None in E. destruct (m !! g) as [h|] eqn:Eg; [|done]. apply Hin in Eg.
      rewrite Forall_forall in E. by destruct (E _ Eg). }
  assert (Hgen : Forall (fun e : N * Handoff => h_generation e.2 = e.1) l).
  { apply Forall_forall. intros [g' h] Hx. by apply Hm, Hin. }
  assert (Hnd : NoDup (map fst l)).
  { apply NoDup_fmap_fst; [|done]. intros x h1 h2 H1%Hin H2%Hin. congruence. }
  clear Hin Hn Hm. induction l as [|[g' h] l IH]; intros acc; [done|]. cbn in *. apply Forall_cons in Hgen as [Hg Hgen].
  apply NoDup_cons in Hnd as [Hni Hnd]. rewrite IH by done. cbn in Hg. rewrite Hg. destruct (decide (g' = g)) as [->|Hne].
  - destruct (list_find _ l) as [[i e]|] eqn:E.
    + apply list_find_Some in E as (Hl & He & _). destruct Hni. rewrite <- He. apply list_elem_of_fmap_2, (list_elem_of_lookup_2 _ _ _ Hl).
    + cbn. by rewrite lookup_insert_eq.
  - destruct (list_find _ l) as [[i e]|]; [done|]. cbn. by rewrite lookup_insert_ne.
Qed.

Lemma built_in_roles_keyed k r : built_in_roles !! k = Some r -> role_key r = k /\ typed_role r.
Proof.
  intros H%elem_of_map_to_list%list_elem_of_In.
  assert (Hb : forallb (fun e => bool_decide (role_key e.2 = e.1) && (length (role_key e.2) =? 16)%nat && valid_utf8 (role_name e.2)
    && (len (role_name e.2) <=? u64_max)) (map_to_list built_in_roles) = true) by (vm_compute; reflexivity).
  rewrite forallb_forall in Hb. specialize (Hb _ H). cbn in Hb. rewrite !andb_true_iff, bool_decide_eq_true in Hb.
  destruct Hb as [[[Hk Hl%Nat.eqb_eq] Hu] Hn%N.leb_le]. exact (conj Hk (conj Hl (conj Hu Hn))).
Qed.

(** What the records give back: the store without its handles and sessions. *)
Definition stored s : IdentityStore := set_sessions (set_handles s ∅) ∅.

Lemma reads_records s : wf_identity s -> typed_identity s -> reads (cur_records true) (put_records s) (stored s).
Proof.
  intros [Hps [] Hro Hhs Hch Hk Hho] []. destruct ti_handoffs0 as [Hth Hnh], ti_principals0 as [Htp Hnp], ti_passphrases0 as [Htv Hnv],
    ti_apps0 as [Hta Hna], ti_externals0 as [Hte Hne], ti_challenges0 as [Htc Hnc], ti_keys0 as [Htk Hnk]. intros rest. unfold put_records, cur_records.
  rewrite <- ?app_assoc. rewrite reads_opt_id by done. cbn [mbind result_bind]. rewrite reads_authority by done. cbn [mbind result_bind].
  rewrite reads_list; cycle 1.
  { rewrite length_map. unfold handoffs_iter. by rewrite sort_by_perm, length_map_to_list. }
  { apply Forall_map, Forall_forall. intros [g h] Hin%handoffs_iter_elem. cbn. destruct (Hho _ _ Hin) as (_ & Hs & Hv).
    split; [apply reads_handoff; [by eapply Hth|done|done]|]. apply id_cons_nonempty. by apply Hth in Hin as []. }
  cbn [mbind result_bind]. rewrite reads_detach by done. cbn [mbind result_bind]. rewrite Hro.
  rewrite reads_values; [|by vm_compute|]; cycle 1.
  { intros k r Hr. apply built_in_roles_keyed in Hr as [_ Ht]. split; [by apply reads_role|]. by apply id_cons_nonempty, Ht. }
  cbn [mbind result_bind]. rewrite (keyed_values role_key built_in_roles) by (intros k r Hr; by apply built_in_roles_keyed).
  assert (ensure_builtin_roles built_in_roles = built_in_roles) as -> by apply (idemp_L (∪)).
  rewrite reads_values; [|done|]; cycle 1.
  { intros k p Hp. destruct (Hps k p Hp) as (_ & _ & _ & Hr & _ & Hn & _). rewrite Hro in Hr. split; [by apply reads_principal; [by eapply Htp|..]|].
    apply id_cons_nonempty. by apply Htp in Hp as []. }
  cbn [mbind result_bind]. rewrite (keyed_values p_id) by (intros k p Hp; by apply Hps in Hp as []).
  rewrite reads_map; [|done|]; cycle 1.
  { intros k v Hv. destruct (Htv k v Hv) as [Hid Ht]. split; [|by apply id_cons_nonempty]. apply reads_passphrase; [done|done|]. by eapply rf_passphrases0. }
  cbn [mbind result_bind]. rewrite reads_map; [|done|]; cycle 1.
  { intros k v Hv. destruct (rf_apps0 k v Hv) as [Heq Hp]. pose proof (Hta k v Hv) as Ht. split; [by apply (reads_app_tail _ (k, v))|].
    apply id_cons_nonempty. cbn. rewrite <- Heq. apply Ht. }
  cbn [mbind result_bind]. rewrite reads_map; [|done|]; cycle 1.
  { intros k v Hv. destruct (rf_externals0 k v Hv) as [Heq Hp]. pose proof (Hte k v Hv) as Ht. split; [by apply (reads_external _ (k, v))|].
    apply id_cons_nonempty. cbn. rewrite <- Heq. apply Ht. }
  cbn [mbind result_bind]. rewrite (collect_map_btree_iter (external_credentials s)). rewrite reads_map; [|done|]; cycle 1.
  { intros k v Hv. destruct (Hch k v Hv) as [Heq Hp]. pose proof (Htc k v Hv) as Ht. split; [by apply (reads_challenge _ (k, v))|].
    apply id_cons_nonempty. cbn. rewrite <- Heq. apply Ht. }
  cbn [mbind result_bind]. rewrite reads_values; [|done|]; cycle 1.
  { intros k v Hv. destruct (rf_keys0 k v Hv) as [_ Hp]. destruct (Hk k v Hv). pose proof (Htk k v Hv) as Ht. split; [by apply reads_key|].
    apply id_cons_nonempty, Ht. }
  cbn [mbind result_bind]. rewrite !collect_map_btree_iter, handoffs_values by (intros g h Hh; by apply Hho in Hh as []).
  rewrite (keyed_values pk_id) by (intros k v Hv; by apply rf_keys0 in Hv as []). unfold stored. rewrite <- Hro. by destruct s.
Qed.

(** ** Which stores can be read back *)

Definition handles_known (ps : gmap bytes Principal) (l : list (bytes * bytes)) : bool := forallb (fun e => bool_decide (is_Some (ps !! e.2))) l.

(** Every handle leads to a principal, the authority is one, and a detachment names the authority. *)
Definition readable s : bool :=
  handles_known (principals s) (btree_iter (id_handles s)) && bool_decide (is_Some (principals s !! a_authority (authority s)))
  && match detach s with Some d => bool_decide (new_authority d = a_authority (authority s)) | None => true end.

Lemma cur_handles_spec ps l rest :
  Forall (fun e => text e.1 /\ WorkspaceId.wf_id e.2 /\ normalize_principal_handle e.1 = Ok e.1) l -> NoDup (map fst l) ->
  forall fuel acc, (length l <= fuel)%nat -> Forall (fun e => acc !! e.1 = None) l ->
  cur_handles ps fuel (N.of_nat (length l)) acc (concat (map put_handle l) ++ rest) =
    if handles_known ps l then Ok (foldl (fun m e => <[e.1 := e.2]> m) acc l, rest) else Err CorruptObject.
Proof.
  induction l as [|[h id] l IH]; intros Hl Hn fuel acc Hf Ha; [by destruct fuel|].
  apply Forall_cons in Hl as [(Ht & Hid & Hnorm) Hl], Ha as [Ha Ha']. apply NoDup_cons in Hn as [Hni Hn]. cbn in Ht, Hid, Hnorm, Ha, Hni.
  destruct fuel as [|fuel]; [cbn in Hf; lia|]. cbn [length map concat cur_handles]. rewrite (proj2 (N.eqb_neq _ _)) by lia.
  unfold put_handle at 1. cbn [fst snd]. rewrite <- !app_assoc, reads_text by done. cbn [mbind result_bind]. rewrite Hnorm. cbn [mbind result_bind].
  rewrite reads_id by done. cbn [mbind result_bind]. rewrite Ha, (bool_decide_eq_false_2 (is_Some None)) by by intros []. rewrite orb_false_r.
  unfold handles_known. cbn [forallb snd]. case_bool_decide; cbn [negb andb]; [|done].
  replace (N.of_nat (S (length l)) - 1) with (N.of_nat (length l)) by lia. cbn [foldl fst snd]. apply IH; [done|done|cbn in Hf; lia|].
  apply Forall_forall. intros [h' id'] Hin. cbn. rewrite Forall_forall in Ha'. rewrite lookup_insert_ne; [by apply (Ha' _ Hin)|].
  intros <-. apply Hni. apply (list_elem_of_fmap_2 fst _ _ Hin).
Qed.

Lemma consistent_stored s : wf_identity s ->
  identity_consistent (stored s) = bool_decide (is_Some (principals s !! a_authority (authority s)))
    && match detach s with Some d => bool_decide (new_authority d = a_authority (authority s)) | None => true end.
Proof.
  intros [Hps [] Hro Hhs Hch Hk Hho]. unfold identity_consistent. cbn [stored set_sessions set_handles root authority detach principals passphrases].
  rewrite (proj2 (forallb_forall _ _)); cycle 1.
  { intros [k p] Hin%list_elem_of_In%elem_of_btree_iter. cbn. destruct (Hps k p Hin) as (_ & _ & _ & _ & _ & _ & ->). apply eqb_reflx. }
  destruct (root s) as [r|]; [|done]. by rewrite (bool_decide_eq_true_2 _ (rf_root0 r eq_refl)).
Qed.

Lemma decode_encode_identity s : wf_identity s -> typed_identity s ->
  identity_decode (identity_encode s) = if readable s then Ok (set_sessions s ∅) else Err CorruptObject.
Proof.
  intros Hwf Ht. unfold identity_decode, identity_encode. change 4 with (len MAGIC9). rewrite reads_take. cbn [mbind result_bind].
  rewrite (bool_decide_eq_true_2 (MAGIC9 = MAGIC9)) by done. rewrite andb_false_r. rewrite reads_records by done. cbn [mbind result_bind].
  unfold put_list. destruct (ti_handles _ Ht) as [Hth Hnh].
  rewrite <- (app_nil_r (_ ++ _)), <- app_assoc, as_u64_small, reads_uvarint by by rewrite btree_iter_length.
  cbn [mbind result_bind]. rewrite cur_handles_spec.
  - unfold readable. rewrite <- andb_assoc, <- consistent_stored by done.
    change (principals (stored s)) with (principals s). destruct (handles_known _ _); [|done]. cbn [andb mbind result_bind].
    rewrite bool_decide_eq_true_2 by done. cbn [negb]. destruct (identity_consistent _); [|done].
    change (foldl _ ∅ ?l) with (collect_map l). rewrite collect_map_btree_iter. by destruct s.
  - apply Forall_forall. intros [h id] Hin%elem_of_btree_iter. cbn. destruct (Hth h id Hin). split_and!; [done|done|]. by eapply (wi_handles _ Hwf).
  - apply btree_iter_NoDup.
  - rewrite app_nil_r. induction (btree_iter (id_handles s)) as [|[h id] l IH]; [done|]. cbn [map concat length]. rewrite length_app.
    assert (put_handle (h, id) <> []); [|destruct (put_handle (h, id)); [done|cbn; lia]].
    unfold put_handle, put_bytes, put_uvarint. cbn. by destruct (_ =? 0).
  - apply Forall_forall. intros e _. apply lookup_empty.
Qed.

(** A removal shrinks the store. *)
Lemma typed_remove s id p s' : typed_identity s -> remove_principal s id = Ok (p, s') -> typed_identity s'.
Proof.
  intros [] E. apply bind_Ok in E as (q & _ & E). destruct (_ && _); [done|]. injection E as _ <-.
  assert (Hsub : forall A (P : bytes -> A -> Prop) (m m' : gmap bytes A), m' ⊆ m -> map_Forall P m /\ N.of_nat (size m) <= u64_max ->
    map_Forall P m' /\ N.of_nat (size m') <= u64_max).
  { intros A P m m' Hm [HP Hs]. split; [|apply map_subseteq_size in Hm; lia]. intros k v Hk. apply HP. by eapply lookup_weaken. }
  split; cbn; try done; try (eapply Hsub; [|done]; apply delete_subseteq || apply map_filter_subseteq).
  intros r. case_bool_decide; [done|]. auto.
Qed.

(** ** The properties *)

(** C20: Decoding an encoded store gives the store without its sessions when every handle and the authority refer to a
    principal of the store and a detachment names the authority; otherwise it reports a corrupt object. *)
Theorem identity_roundtrip s : wf_identity s -> typed_identity s ->
  identity_decode (identity_encode s) = if readable s then Ok (set_sessions s ∅) else Err CorruptObject.
Proof. apply decode_encode_identity. Qed.

(** C38: The store that a successful principal removal leaves cannot be decoded once it is stored: the principal's handles stay. *)
Theorem removal_undecodable s id p s' : wf_identity s -> typed_identity s -> remove_principal s id = Ok (p, s') ->
  identity_decode (identity_encode s') = Err CorruptObject.
Proof.
  intros Hwf Ht E. rewrite decode_encode_identity; [|by eapply wf_remove|by eapply typed_remove]. pose proof E as E'.
  apply bind_Ok in E as (q & Hq%principal_Ok & E). destruct (_ && _); [done|]. injection E as -> <-.
  destruct (wi_principals _ Hwf id p Hq) as (_ & _ & _ & _ & Hh & _). unfold readable. cbn [id_handles principals].
  assert (handles_known (delete id (principals s)) (btree_iter (id_handles s)) = false) as ->; [|done].
  apply not_true_iff_false. unfold handles_known. rewrite forallb_forall. intros Hall.
  specialize (Hall (p_handle p, id)). rewrite bool_decide_eq_true in Hall. cbn in Hall. rewrite lookup_delete_eq in Hall.
  by destruct Hall as [? ?]; [apply list_elem_of_In, elem_of_btree_iter|].
Qed.

(** ** Replication of the authority *)

Section Replication.
Context `{hasher : Hasher} `{crypto : Crypto}.

Definition WITNESS_RECORD_TYPE : bytes := str "loom.identity.authority_witness.v1".

Record AuthorityWitness : Type := mkAuthorityWitness {
  w_authority : bytes; w_mode : AuthorityMode; w_generation : N; w_head : option Digest;
  snapshot_digest : Digest; latest_handoff_digest : option Digest;
}.

Definition digest_value (d : Digest) : Value := Array [Uint (algo_code (algo d)); Bytes (dbytes d)].
Definition optional_digest_value (d : option Digest) : Value := match d with Some d => digest_value d | None => Null end.

Definition witness_encode (w : AuthorityWitness) : bytes :=
  cbor_encode (Array [Text WITNESS_RECORD_TYPE; Bytes (w_authority w); Uint (authority_mode_to_u8 (w_mode w)); Uint (w_generation w);
    optional_digest_value (w_head w); digest_value (snapshot_digest w); optional_digest_value (latest_handoff_digest w)]).

Definition witness_digest (w : AuthorityWitness) (a : Algo) : Digest := hash a (witness_encode w).

Definition authority_witness s (a : Algo) : AuthorityWitness :=
  mkAuthorityWitness (a_authority (authority s)) (a_mode (authority s)) (a_generation (authority s)) (a_head (authority s))
    (hash a (identity_encode s)) ((fun e => hash a (signed_record e.2)) <$> last (handoffs_iter (handoffs s))).

Record SyncReport : Type := mkSyncReport { from_generation : N; to_generation : N; applied : bool; report_witness : AuthorityWitness }.

(** [self.authority.mode = mode] *)
Definition set_mode s (m : AuthorityMode) : IdentityStore :=
  set_authority s (mkAuthorityState m (a_authority (authority s)) (a_generation (authority s)) (a_head (authority s))) (handoffs s) (detach s).

(** One step of the loop over the later handoffs: the authority and the generation expected next. *)
Definition chain_step source (acc : bytes * N * bool) (h : Handoff) : res (bytes * N * bool) :=
  let '(expected_authority, expected_generation, _) := acc in
  if negb (bool_decide (h_from h = expected_authority)) then Err Conflict
  else if h_generation h <=? expected_generation then Err Conflict
  else _ ← verify_authority_handoff_signature source h; Ok (h_to h, h_generation h, true).

Definition later_handoffs source (g : N) : list Handoff :=
  filter (fun h => g < h_generation h) (map snd (handoffs_iter (handoffs source))).

Definition replicate_authority_from s source (a : Algo) (become_authority : bool) : res (SyncReport * IdentityStore) :=
  let from_g := a_generation (authority s) in
  let to_g := a_generation (authority source) in
  if to_g <? from_g then Err Conflict
  else if to_g =? from_g then
    let w := authority_witness (set_mode source (a_mode (authority s))) a in
    if bool_decide (dbytes (snapshot_digest (authority_witness s a)) = dbytes (snapshot_digest w)) then Ok (mkSyncReport from_g to_g false w, s)
    else Err Conflict
  else if bool_decide (is_Some (detach s)) || bool_decide (a_mode (authority source) = Detached) then Err Conflict
  else
    '(expected_authority, expected_generation, advanced) ←
      try_fold (chain_step source) (a_authority (authority s), from_g, false) (later_handoffs source from_g);
    if negb advanced || negb (expected_generation =? to_g) || negb (bool_decide (expected_authority = a_authority (authority source)))
    then Err Conflict
    else
      let s' := set_mode source (if become_authority then Authority else Mirror) in
      Ok (mkSyncReport from_g to_g true (authority_witness s' a), s').

(** A chain of signed handoffs, each from the authority and above the generation the one before left. *)
Inductive signed_chain source : bytes -> N -> list Handoff -> bytes -> N -> Prop :=
| chain_nil a g : signed_chain source a g [] a g
| chain_cons g h hs b k : g < h_generation h -> verify_authority_handoff_signature source h = Ok () ->
    signed_chain source (h_to h) (h_generation h) hs b k -> signed_chain source (h_from h) g (h :: hs) b k.

Lemma chain_step_Ok source acc h acc' :
  chain_step source acc h = Ok acc' ->
  h_from h = acc.1.1 /\ acc.1.2 < h_generation h /\ verify_authority_handoff_signature source h = Ok () /\ acc' = (h_to h, h_generation h, true).
Proof.
  destruct acc as [[a g] adv]. unfold chain_step. case_bool_decide as Ha; [|done]. cbn [negb].
  destruct (N.leb_spec (h_generation h) g) as [|Hg]; [done|]. intros ([] & Hv & E)%bind_Ok. injection E as <-. done.
Qed.

Lemma chain_fold source hs acc acc' :
  try_fold (chain_step source) acc hs = Ok acc' -> signed_chain source acc.1.1 acc.1.2 hs acc'.1.1 acc'.1.2.
Proof.
  revert acc. induction hs as [|h hs IH]; intros acc Hf; [injection Hf as <-; constructor|].
  apply bind_Ok in Hf as (acc1 & Hs & Hf). apply chain_step_Ok in Hs as (<- & Hg & Hv & ->). apply IH in Hf. by constructor.
Qed.

(** Replication succeeds only at the same generation, with equal snapshots and without changing anything, or when the source's
    later handoffs are a chain of signed records, each from the authority the one before named and with a higher generation, from
    the destination's authority and generation to the source's; the destination is then the source with its own mode. *)
Theorem replicate_fast_forward s source a become_authority report s' :
  replicate_authority_from s source a become_authority = Ok (report, s') ->
  let g := a_generation (authority s) in
  from_generation report = g /\ to_generation report = a_generation (authority source) /\
  if applied report then
    g < a_generation (authority source) /\ s' = set_mode source (if become_authority then Authority else Mirror) /\ detach s = None /\
    signed_chain source (a_authority (authority s)) g (later_handoffs source g) (a_authority (authority source)) (a_generation (authority source)) /\
    report_witness report = authority_witness s' a
  else
    g = a_generation (authority source) /\ s' = s /\
    raw_hash a (identity_encode s) = raw_hash a (identity_encode (set_mode source (a_mode (authority s)))).
Proof.
  unfold replicate_authority_from. cbv zeta. destruct (N.ltb_spec (a_generation (authority source)) (a_generation (authority s))) as [|Hle]; [done|].
  destruct (N.eqb_spec (a_generation (authority source)) (a_generation (authority s))) as [Heq|Hne].
  - case_bool_decide as Hd; [|done]. intros [= <- <-]. cbn. by rewrite Heq.
  - case_bool_decide as Hde; [done|]. destruct (bool_decide (a_mode _ = _)); [done|]. cbn [orb].
    intros ([[b k] adv] & Hf & E)%bind_Ok. destruct adv; [|done]. cbn [negb orb] in E.
    destruct (N.eqb_spec k (a_generation (authority source))) as [->|]; [|done]. case_bool_decide; [|done]. cbn [negb orb] in E.
    injection E as <- <-. cbn. subst b. split_and!; [done..|lia|done| |by apply (chain_fold _ _ _ _ Hf)|done].
    by destruct (detach s); [destruct Hde; eexists|].
Qed.

(** ** The stores that calls build

    New stores, the calls of [IdOp], failed ones included, storing a store and loading it again, and replication from
    another such store, which takes over the source whole, its sessions included. [host] says whether the host
    opens sessions itself, with [bind_session]. *)

Definition binds_session (op : IdOp) : bool := match op with OBindSession _ _ => true | _ => false end.

Inductive built (host : bool) : IdentityStore -> Prop :=
| built_new r : built host (identity_new r)
| built_call s op : built host s -> (binds_session op = true -> host = true) -> built host (id_step s op)
| built_reload s s' : built host s -> typed_identity s -> identity_decode (identity_encode s) = Ok s' -> built host s'
| built_replica s source a become_authority : built host s -> built host source ->
    built host (after_pair s (replicate_authority_from s source a become_authority)).

(** Replication leaves the store as it was or makes it the source in another mode. *)
Lemma replica_report s source a b report s' :
  replicate_authority_from s source a b = Ok (report, s') -> s' = if applied report then set_mode source (if b then Authority else Mirror) else s.
Proof.
  unfold replicate_authority_from. cbv zeta. destruct (_ <? _); [done|]. destruct (_ =? _); [destruct (bool_decide _); [|done]; by intros [= <- <-]|].
  destruct (_ || _); [done|]. intros ([[x k] adv] & _ & E)%bind_Ok. destruct (_ || _); [done|]. by injection E as <- <-.
Qed.

Lemma wf_set_mode s m : wf_identity s -> wf_identity (set_mode s m).
Proof. intros [Hps [] Hro Hhs Hch Hk Hho]. split; try done; by split. Qed.

Lemma wf_no_sessions s : wf_identity s -> wf_identity (set_sessions s ∅).
Proof. intros [Hps [] Hro Hhs Hch Hk Hho]. split; try done; by split. Qed.

Lemma reload_Ok s s' : wf_identity s -> typed_identity s -> identity_decode (identity_encode s) = Ok s' -> s' = set_sessions s ∅.
Proof. intros Hwf Ht. rewrite decode_encode_identity by done. destruct (readable s); [|done]. by intros [= <-]. Qed.

Lemma built_wf host s : built host s -> wf_identity s.
Proof.
  induction 1 as [r|s op _ IH _|s s' _ IH Ht E|s source a b _ IH _ IHs].
  - apply identity_new_wf.
  - by apply id_step_wf.
  - rewrite (reload_Ok s s' IH Ht E). by apply wf_no_sessions.
  - destruct (replicate_authority_from s source a b) as [[report s']|e] eqn:E; [|done]. cbn [after_pair]. rewrite (replica_report _ _ _ _ _ _ E).
    destruct (applied report); [by apply wf_set_mode|done].
Qed.

Lemma built_run host s ops : built host s -> Forall (fun op => binds_session op = true -> host = true) ops -> built host (id_run s ops).
Proof. intros Hb Hops. revert s Hb. induction Hops as [|op ops Hop _ IH]; intros s Hb; [done|]. apply IH. by apply built_call. Qed.

(** The session [sid] has stood for [id] since the call that opened it: an authentication that proved to be [id], or
    one by the host; through later calls, and through replication from the store in which it was opened. *)
Inductive opened (host : bool) (sid id : bytes) : IdentityStore -> Prop :=
| opened_proof s op : built host s -> proves s op sid id -> sessions (id_step s op) !! sid = Some id -> opened host sid id (id_step s op)
| opened_host s op : built host s -> host = true -> hosted s op sid id -> sessions (id_step s op) !! sid = Some id -> opened host sid id (id_step s op)
| opened_call s op : opened host sid id s -> sessions (id_step s op) !! sid = Some id -> opened host sid id (id_step s op)
| opened_replica s source a become_authority report s' : opened host sid id source ->
    replicate_authority_from s source a become_authority = Ok (report, s') -> applied report = true -> opened host sid id s'.

Lemma built_opened host s sid id : built host s -> sessions s !! sid = Some id -> opened host sid id s.
Proof.
  induction 1 as [r|s op Hb IH Hop|s s' Hb IH Ht E|s source a b Hb IH Hbs IHs]; intros Hs.
  - done.
  - pose proof (built_wf _ _ Hb) as Hwf. destruct (id_step_opens s op Hwf sid id Hs) as [Hold|[Hp|Hh]].
    + by apply opened_call; [apply IH|].
    + by apply opened_proof.
    + apply opened_host; [done| |done|done]. apply Hop. by destruct Hh as [-> _].
  - rewrite (reload_Ok s s' (built_wf _ _ Hb) Ht E) in Hs. done.
  - destruct (replicate_authority_from s source a b) as [[report s']|e] eqn:E; [|by apply IH]. cbn [after_pair] in *.
    destruct (applied report) eqn:Ha.
    + apply (opened_replica host sid id s source a b report s'); [|done|done]. apply IHs.
      apply replica_report in E. rewrite Ha in E. by rewrite E in Hs.
    + apply replica_report in E. rewrite Ha in E. subst s'. by apply IH.
Qed.

(** C10: In every store that calls build (new stores, every mutating call of the identity store, failed calls included,
    storing and loading again, and replication from another such store) each credential, challenge, public key, session
    and the root refer to records that are there, each principal is enabled, owns its normalized handle and its passphrase
    flag says whether it has a passphrase, the roles are the built-in ones, and the keys and authority handoffs are valid. *)
Theorem identity_invariant host s : built host s -> wf_identity s.
Proof. apply built_wf. Qed.

(** C19: A session that such a store recognizes for a principal was opened, in this store or in one it was replicated from,
    by an authentication call that proved to be that principal (by passphrase, token of an enabled app credential, MySQL scramble, or
    verified external credential with its own unexpired challenge, which is used up) or, only where the host binds sessions
    itself, by [bind_session], which checks that the principal is there and enabled and asks for no credential. It has been that
    principal's ever since, and the principal is there and enabled. *)
Theorem sessions_authentic host s sid id :
  built host s -> session_principal s sid = Ok id ->
  opened host sid id s /\ exists p, principal s id = Ok p /\ p_enabled p = true.
Proof.
  unfold session_principal. intros Hb Hs. assert (Hl : sessions s !! sid = Some id).
  { by destruct (sessions _ !! sid) as [?|]; simplify_eq/=. }
  split; [by apply built_opened|]. pose proof (built_wf _ _ Hb) as Hwf. destruct (rf_sessions _ _ (wi_refer _ Hwf) _ _ Hl) as [_ [p Hp]].
  exists p. unfold principal. rewrite Hp. split; [done|]. by apply (wi_principals _ Hwf) in Hp as (_ & ? & _).
Qed.

End Replication.

(** ** Witnesses *)

(** An evaluator for [text]. *)
Definition text_b (b : bytes) : bool := valid_utf8 b && (len b <=? u64_max).

Section Witnesses.
#[local] Existing Instance toy_crypto.

Definition demo_ann : bytes := repeat x02 16.
Definition demo_app : bytes := repeat x03 16.
Definition demo_verifier : AppCredentialVerifier := Eval vm_compute in
  match app_credentials (id_step (identity_new demo_root) (OCreateApp demo_root demo_app (str "ci") (str "key") demo_salt)) !! demo_app with
  | Some v => v | None => mkAppCredentialVerifier (mkAppCredential [] [] [] false) [] [] None end.

(** The root principal with an app credential, and Ann. *)
Definition demo_identity : IdentityStore :=
  let s := identity_new demo_root in
  let s := set_app_credentials s (<[demo_app := demo_verifier]> (app_credentials s)) in
  let s := set_principals s (<[demo_ann := mkPrincipal demo_ann (str "ann") (str "Ann") User true false ∅]> (principals s)) in
  set_handles s (<[str "ann" := demo_ann]> (id_handles s)).

Lemma demo_identity_run :
  demo_identity = id_run (identity_new demo_root) [OCreateApp demo_root demo_app (str "ci") (str "key") demo_salt; OAddNamed demo_ann (str "Ann") User].
Proof. vm_cast_no_check (@eq_refl IdentityStore demo_identity). Qed.

Lemma typed_demo : typed_identity demo_identity.
Proof.
  assert (Ht : forall b, text_b b = true -> text b).
  { intros b [Hu Hn%N.leb_le]%andb_true_iff. exact (conj Hu Hn). }
  assert (H0 : 0 <= u64_max) by (vm_compute; discriminate).
  split.
  - intros r [= <-]. reflexivity.
  - split; [reflexivity|exact H0|discriminate].
  - split; [apply map_Forall_empty|exact H0].
  - discriminate.
  - split; [apply map_Forall_insert_2; [|apply map_Forall_singleton]|vm_compute; discriminate].
    + split; [reflexivity|by apply Ht|by apply Ht|intros x Hx; by apply not_elem_of_empty in Hx|exact H0].
    + split; [reflexivity|by apply Ht|by apply Ht| |vm_compute; discriminate].
      cbn [p_roles]. intros x Hx. apply elem_of_singleton in Hx as ->. reflexivity.
  - split; [apply map_Forall_empty|exact H0].
  - split; [apply map_Forall_insert_2; [|apply map_Forall_empty]|vm_compute; discriminate]. split; [reflexivity|reflexivity|by apply Ht|].
    split_and!; [vm_compute; discriminate|reflexivity|intros b [= <-]; reflexivity].
  - split; [apply map_Forall_empty|exact H0].
  - split; [apply map_Forall_empty|exact H0].
  - split; [apply map_Forall_empty|exact H0].
  - split; [apply map_Forall_insert_2; [|apply map_Forall_singleton]|vm_compute; discriminate]; (split; [by apply Ht|reflexivity]).
Qed.

(** A mirror at an earlier generation follows one handoff signed by the root. *)
Definition demo_key : PublicKeyRecord := mkPublicKeyRecord (repeat x04 16) demo_root (str "k") ALG_ES256 (str "pub") true.
Definition demo_source : IdentityStore :=
  let s := set_public_keys demo_identity {[pk_id demo_key := demo_key]} in
  let payload := identity_authority_handoff_payload demo_root demo_ann 1 None in
  match identity_authority_handoff_record demo_root demo_ann 1 None ALG_ES256 (pk_id demo_key) (pk_bytes demo_key ++ payload) with
  | Ok r => after s (apply_authority_handoff s (mkHandoff demo_root demo_ann 1 None r) true)
  | Err _ => s
  end.

Lemma replicate_fast_forward_witness :
  exists report s', replicate_authority_from (hasher := Store.toy_hasher) demo_identity demo_source Blake3 false = Ok (report, s') /\
    applied report = true /\ s' = set_mode demo_source Mirror.
Proof.
  assert (H : match replicate_authority_from (hasher := Store.toy_hasher) demo_identity demo_source Blake3 false with
    Ok (report, _) => applied report | Err _ => false end = true) by (vm_cast_no_check (@eq_refl bool true)).
  destruct (replicate_authority_from (hasher := Store.toy_hasher) demo_identity demo_source Blake3 false) as [[report s']|e] eqn:E; [|discriminate H].
  exists report, s'. split; [reflexivity|]. split; [exact H|].
  destruct (replicate_fast_forward (hasher := Store.toy_hasher) demo_identity demo_source Blake3 false report s' E) as (_ & _ & Hr).
  rewrite H in Hr. exact (proj1 (proj2 Hr)).
Defined.

(** The root logs in to the source and hands it over to Ann; a new store becomes its mirror. *)
Definition demo_handoff : Handoff := Eval vm_compute in
  mkHandoff demo_root demo_ann 1 None
    (match identity_authority_handoff_record demo_root demo_ann 1 None ALG_ES256 (pk_id demo_key)
       (pk_bytes demo_key ++ identity_authority_handoff_payload demo_root demo_ann 1 None) with Ok r => r | Err _ => [] end).
Definition demo_calls : list IdOp :=
  [OSetPassphrase demo_root (str "secret") demo_salt; OAuthPassphrase demo_root (str "secret") (str "s1"); OAddNamed demo_ann (str "Ann") User;
   OAddKey demo_root (pk_id demo_key) (str "k") ALG_ES256 (pk_bytes demo_key); OHandoff demo_handoff true].
Definition demo_mirror : IdentityStore :=
  after_pair (identity_new demo_root) (replicate_authority_from (hasher := Store.toy_hasher) (identity_new demo_root) (id_run (identity_new demo_root) demo_calls) Blake3 false).

Lemma demo_mirror_built : built (hasher := Store.toy_hasher) false demo_mirror.
Proof. apply built_replica; [apply built_new|]. apply built_run; [apply built_new|]. by repeat constructor. Qed.

Lemma identity_invariant_witness : wf_identity demo_mirror /\ a_generation (authority demo_mirror) = 1.
Proof.
  split; [exact (identity_invariant (hasher := Store.toy_hasher) false demo_mirror demo_mirror_built)|].
  vm_cast_no_check (@eq_refl N 1).
Defined.

Lemma sessions_authentic_witness :
  session_principal demo_mirror (str "s1") = Ok demo_root /\ opened (hasher := Store.toy_hasher) false (str "s1") demo_root demo_mirror.
Proof.
  assert (H : session_principal demo_mirror (str "s1") = Ok demo_root) by (vm_cast_no_check (@eq_refl (res bytes) (Ok demo_root))).
  split; [exact H|]. exact (proj1 (sessions_authentic (hasher := Store.toy_hasher) false demo_mirror (str "s1") demo_root demo_mirror_built H)).
Defined.

Lemma identity_roundtrip_witness : identity_decode (identity_encode demo_identity) = Ok (set_sessions demo_identity ∅).
Proof.
  assert (Hwf : wf_identity demo_identity) by (rewrite demo_identity_run; apply id_run_wf, identity_new_wf).
  rewrite (identity_roundtrip demo_identity Hwf typed_demo). assert (readable demo_identity = true) as -> by (vm_compute; reflexivity). reflexivity.
Defined.

Lemma removal_undecodable_witness :
  exists p s', remove_principal demo_identity demo_ann = Ok (p, s') /\ identity_decode (identity_encode s') = Err CorruptObject.
Proof.
  assert (Hwf : wf_identity demo_identity) by (rewrite demo_identity_run; apply id_run_wf, identity_new_wf).
  assert (Hr : is_ok (remove_principal demo_identity demo_ann) = true) by (vm_cast_no_check (@eq_refl bool true)).
  destruct (remove_principal demo_identity demo_ann) as [[p s']|e] eqn:E; [|discriminate Hr].
  exists p, s'. split; [reflexivity|]. exact (removal_undecodable demo_identity demo_ann p s' Hwf typed_demo E).
Defined.

End Witnesses.

End IdentityCodec.
