(* ===== verification/Effect.v ===== *)
(** * Stateful fallible computations

    The engine's methods take [&mut self] and return a [Result]: a method that fails keeps what it
    changed before. A computation takes a state and gives a result with the state after it, or nothing
    where the code would panic or a loop bound was too small. [sim] relates two computations on
    different states and is closed under sequencing, which is how the refinements are composed. *)

From S2P Require Import Prelude Types.

Module Effect.

Definition M (St A : Type) : Type := St -> option (res A * St).

Section Ops.
Context {St : Type}.

Definition m_ret {A} (x : A) : M St A := fun s => Some (Ok x, s).
Definition m_err {A} (e : Error.Code) : M St A := fun s => Some (Err e, s).
Definition m_lift {A} (r : res A) : M St A := fun s => Some (r, s).
Definition m_run {A} (r : option (res A)) : M St A := fun s => match r with Some r => Some (r, s) | None => None end.
Definition m_gets {A} (f : St -> A) : M St A := fun s => Some (Ok (f s), s).
Definition m_read {A} (f : St -> res A) : M St A := fun s => Some (f s, s).
Definition m_modify (f : St -> St) : M St unit := fun s => Some (Ok (), f s).

Definition m_bind {A B} (m : M St A) (k : A -> M St B) : M St B := fun s =>
  match m s with
  | Some (Ok x, s) => k x s
  | Some (Err e, s) => Some (Err e, s)
  | None => None
  end.

(** [for x in l { body(x)? }] *)
Fixpoint m_each {A} (body : A -> M St unit) (l : list A) : M St unit :=
  match l with [] => m_ret () | x :: l => m_bind (body x) (fun _ => m_each body l) end.

(** [l.iter().map(f).collect::<Result<Vec<_>>>()] *)
Fixpoint m_map {A B} (f : A -> M St B) (l : list A) : M St (list B) :=
  match l with
  | [] => m_ret []
  | x :: l => m_bind (f x) (fun y => m_bind (m_map f l) (fun ys => m_ret (y :: ys)))
  end.

(** [if c { return Err(e) }] *)
Definition m_guard (c : bool) (e : Error.Code) : M St unit := if c then m_err e else m_ret ().
End Ops.

Notation "x ⟸ m ; k" := (m_bind m (fun x => k)) (at level 20, m at level 100, k at level 200, right associativity) : loom_scope.
Notation "' p ⟸ m ; k" := (m_bind m (fun x => match x with p => k end))
  (at level 20, p pattern, m at level 100, k at level 200, right associativity) : loom_scope.

Lemma m_bind_done {St A B} (m : M St A) (k : A -> M St B) s y s' :
  m_bind m k s = Some (Ok y, s') -> exists x s1, m s = Some (Ok x, s1) /\ k x s1 = Some (Ok y, s').
Proof. unfold m_bind. destruct (m s) as [[[x|e] s1]|]; [|done|done]. intros H. by exists x, s1. Qed.

Lemma m_bind_run {St A B} (m : M St A) (k : A -> M St B) s s1 x : m s = Some (Ok x, s1) -> m_bind m k s = k x s1.
Proof. unfold m_bind. by intros ->. Qed.

(** ** Simulation *)

Section Sim.
Context {St1 St2 : Type} (R : St1 -> St2 -> Prop).

(** Where the second computation is defined, the first gives the same result and keeps the relation. *)
Definition sim {A} (m1 : M St1 A) (m2 : M St2 A) : Prop :=
  forall s1 s2 r s2', R s1 s2 -> m2 s2 = Some (r, s2') -> exists s1', m1 s1 = Some (r, s1') /\ R s1' s2'.

Lemma sim_ret {A} (x : A) : sim (m_ret x) (m_ret x).
Proof. intros s1 s2 r s2' HR [= <- <-]. eauto. Qed.
Lemma sim_err {A} e : sim (m_err (A := A) e) (m_err e).
Proof. intros s1 s2 r s2' HR [= <- <-]. eauto. Qed.
Lemma sim_lift {A} (x : res A) : sim (m_lift x) (m_lift x).
Proof. intros s1 s2 r s2' HR [= <- <-]. eauto. Qed.
Lemma sim_gets {A} (f1 : St1 -> A) (f2 : St2 -> A) : (forall s1 s2, R s1 s2 -> f1 s1 = f2 s2) -> sim (m_gets f1) (m_gets f2).
Proof. intros Hf s1 s2 r s2' HR [= <- <-]. exists s1. split; [|done]. unfold m_gets. by rewrite (Hf _ _ HR). Qed.
Lemma sim_read {A} (f1 : St1 -> res A) (f2 : St2 -> res A) : (forall s1 s2, R s1 s2 -> f1 s1 = f2 s2) -> sim (m_read f1) (m_read f2).
Proof. intros Hf s1 s2 r s2' HR [= <- <-]. exists s1. split; [|done]. unfold m_read. by rewrite (Hf _ _ HR). Qed.
Lemma sim_modify f1 f2 : (forall s1 s2, R s1 s2 -> R (f1 s1) (f2 s2)) -> sim (m_modify f1) (m_modify f2).
Proof. intros Hf s1 s2 r s2' HR [= <- <-]. eauto. Qed.
Lemma sim_guard c e : sim (m_guard c e) (m_guard c e).
Proof. destruct c; [apply sim_err|apply sim_ret]. Qed.

Lemma sim_bind {A B} (m1 : M St1 A) (m2 : M St2 A) (k1 : A -> M St1 B) (k2 : A -> M St2 B) :
  sim m1 m2 -> (forall x, sim (k1 x) (k2 x)) -> sim (m_bind m1 k1) (m_bind m2 k2).
Proof.
  intros Hm Hk s1 s2 r s2' HR H. unfold m_bind in *. destruct (m2 s2) as [[[x|e] t2]|] eqn:E; [| |done].
  - destruct (Hm _ _ _ _ HR E) as (t1 & -> & Ht). by apply (Hk x t1 t2).
  - injection H as <- <-. destruct (Hm _ _ _ _ HR E) as (t1 & -> & Ht). eauto.
Qed.

Lemma sim_each {A} (b1 : A -> M St1 unit) (b2 : A -> M St2 unit) l : (forall x, sim (b1 x) (b2 x)) -> sim (m_each b1 l) (m_each b2 l).
Proof. intros Hb. induction l as [|x l IH]; [apply sim_ret|]. by apply sim_bind. Qed.

Lemma sim_map {A B} (f1 : A -> M St1 B) (f2 : A -> M St2 B) l : (forall x, sim (f1 x) (f2 x)) -> sim (m_map f1 l) (m_map f2 l).
Proof.
  intros Hf. induction l as [|x l IH]; [apply sim_ret|]. apply sim_bind; [done|]. intros y. apply sim_bind; [done|]. intros ys. apply sim_ret.
Qed.
End Sim.

(** ** Simulation with pre- and postconditions

    The computations may return different values, related by the postcondition with the states; after
    an error the states are related by [R] again. *)
Section Hoare.
Context {St1 St2 : Type} (R : St1 -> St2 -> Prop).

Definition simh {A B} (P : St1 -> St2 -> Prop) (m1 : M St1 A) (m2 : M St2 B) (Q : A -> B -> St1 -> St2 -> Prop) : Prop :=
  forall s1 s2 r2 s2', P s1 s2 -> m2 s2 = Some (r2, s2') -> exists r1 s1', m1 s1 = Some (r1, s1') /\
    match r1, r2 with
    | Ok x, Ok y => Q x y s1' s2'
    | Err e1, Err e2 => e1 = e2 /\ R s1' s2'
    | _, _ => False
    end.

Lemma simh_sim {A} (m1 : M St1 A) (m2 : M St2 A) : simh R m1 m2 (fun x y s1 s2 => x = y /\ R s1 s2) -> sim R m1 m2.
Proof.
  intros H s1 s2 r s2' HR Hr. destruct (H s1 s2 r s2' HR Hr) as (r1 & s1' & E & Hm). exists s1'. rewrite E.
  destruct r1, r; try done; destruct Hm as [-> ?]; done.
Qed.

Lemma simh_bind {A B C D} P (m1 : M St1 A) (m2 : M St2 B) (k1 : A -> M St1 C) (k2 : B -> M St2 D) Q T :
  simh P m1 m2 Q -> (forall x y, simh (Q x y) (k1 x) (k2 y) T) -> simh P (m_bind m1 k1) (m_bind m2 k2) T.
Proof.
  intros Hm Hk s1 s2 r s2' HP H. unfold m_bind in *. destruct (m2 s2) as [[[y|e] t2]|] eqn:E; [| |done].
  - destruct (Hm _ _ _ _ HP E) as ([x|e] & t1 & -> & Hq); [|done]. by apply (Hk x y t1 t2).
  - injection H as <- <-. destruct (Hm _ _ _ _ HP E) as ([x|e1] & t1 & -> & Hq); [done|]. exists (Err e1), t1. done.
Qed.

(** A step of the second computation alone that only restricts the states. *)
Lemma simh_assume {A B} (P : St1 -> St2 -> Prop) (c : St2 -> bool) (m1 : M St1 A) (m2 : M St2 B) Q :
  simh (fun s1 s2 => P s1 s2 /\ c s2 = true) m1 m2 Q ->
  simh P m1 (m_bind (fun s => if c s then Some (Ok (), s) else None) (fun _ => m2)) Q.
Proof. intros Hm s1 s2 r s2' HP H. unfold m_bind in H. destruct (c s2) eqn:Ec; [|done]. by apply (Hm s1 s2). Qed.

Lemma simh_pre {A B} (P P' : St1 -> St2 -> Prop) (m1 : M St1 A) (m2 : M St2 B) Q :
  (forall s1 s2, P s1 s2 -> P' s1 s2) -> simh P' m1 m2 Q -> simh P m1 m2 Q.
Proof. intros HP Hm s1 s2 r s2' H. apply Hm. by apply HP. Qed.

Lemma simh_ret {A B} (P : St1 -> St2 -> Prop) (x : A) (y : B) (Q : A -> B -> St1 -> St2 -> Prop) :
  (forall s1 s2, P s1 s2 -> Q x y s1 s2) -> simh P (m_ret x) (m_ret y) Q.
Proof. intros HQ s1 s2 r s2' H [= <- <-]. eexists _, _. split; [done|]. by apply HQ. Qed.

Lemma simh_err {A B} (P : St1 -> St2 -> Prop) e (Q : A -> B -> St1 -> St2 -> Prop) :
  (forall s1 s2, P s1 s2 -> R s1 s2) -> simh P (m_err e) (m_err e) Q.
Proof. intros HR s1 s2 r s2' H [= <- <-]. eexists _, _. split; [done|]. split; [done|]. by apply HR. Qed.

Lemma simh_read {A B} (P : St1 -> St2 -> Prop) (f1 : St1 -> res A) (f2 : St2 -> res B) (Q : A -> B -> St1 -> St2 -> Prop) :
  (forall s1 s2, P s1 s2 -> match f1 s1, f2 s2 with
    | Ok x, Ok y => Q x y s1 s2 | Err e1, Err e2 => e1 = e2 /\ R s1 s2 | _, _ => False end) ->
  simh P (m_read f1) (m_read f2) Q.
Proof. intros HQ s1 s2 r s2' H [= <- <-]. eexists _, _. split; [done|]. by apply HQ. Qed.

(** The same check on both sides. *)
Lemma simh_check {A} (P : St1 -> St2 -> Prop) (f1 : St1 -> res A) (f2 : St2 -> res A) :
  (forall s1 s2, P s1 s2 -> R s1 s2) -> (forall s1 s2, R s1 s2 -> f1 s1 = f2 s2) ->
  simh P (m_read f1) (m_read f2) (fun x y s1 s2 => x = y /\ P s1 s2).
Proof.
  intros HR Hf. apply simh_read. intros s1 s2 H. rewrite (Hf _ _ (HR _ _ H)). destruct (f2 s2); split; auto.
Qed.

Lemma simh_lift {A} (P : St1 -> St2 -> Prop) (r : res A) :
  (forall s1 s2, P s1 s2 -> R s1 s2) -> simh P (m_lift r) (m_lift r) (fun x y s1 s2 => x = y /\ P s1 s2).
Proof. intros HR s1 s2 r' s2' H [= <- <-]. eexists _, _. split; [done|]. destruct r; split; auto. Qed.

Lemma simh_modify (P : St1 -> St2 -> Prop) f1 f2 (Q : unit -> unit -> St1 -> St2 -> Prop) :
  (forall s1 s2, P s1 s2 -> Q () () (f1 s1) (f2 s2)) -> simh P (m_modify f1) (m_modify f2) Q.
Proof. intros HQ s1 s2 r s2' H [= <- <-]. eexists _, _. split; [done|]. by apply HQ. Qed.

(** ** Steps under a precondition *)

Lemma simh_extract {A B} (F : Prop) (P : St1 -> St2 -> Prop) (m1 : M St1 A) (m2 : M St2 B) Q :
  (F -> simh P m1 m2 Q) -> simh (fun s1 s2 => F /\ P s1 s2) m1 m2 Q.
Proof. intros H s1 s2 r s2' [HF HP]. by apply H. Qed.

Lemma simh_lift_bind {A C D} (P : St1 -> St2 -> Prop) (r : res A) (k1 : A -> M St1 C) (k2 : A -> M St2 D) T :
  (forall s1 s2, P s1 s2 -> R s1 s2) -> (forall x, r = Ok x -> simh P (k1 x) (k2 x) T) -> simh P (m_bind (m_lift r) k1) (m_bind (m_lift r) k2) T.
Proof.
  intros HP Hk s1 s2 r' s2' HPs. unfold m_bind, m_lift. destruct r as [x|e]; [by apply (Hk x eq_refl)|]. intros [= <- <-]. eexists _, _. split; [done|]. split; auto.
Qed.

Lemma simh_read_bind {A C D} (P : St1 -> St2 -> Prop) (f1 : St1 -> res A) (f2 : St2 -> res A) (k1 : A -> M St1 C) (k2 : A -> M St2 D) T :
  (forall s1 s2, P s1 s2 -> R s1 s2 /\ f1 s1 = f2 s2) -> (forall x, simh P (k1 x) (k2 x) T) ->
  simh P (m_bind (m_read f1) k1) (m_bind (m_read f2) k2) T.
Proof.
  intros HP Hk s1 s2 r' s2' HPs. destruct (HP s1 s2 HPs) as [HR Hf]. unfold m_bind, m_read. rewrite Hf.
  destruct (f2 s2) as [x|e]; [by apply (Hk x)|]. intros [= <- <-]. eexists _, _. split; [done|]. split; auto.
Qed.

Lemma simh_guard_bind {C D} (P : St1 -> St2 -> Prop) c e (k1 : unit -> M St1 C) (k2 : unit -> M St2 D) T :
  (forall s1 s2, P s1 s2 -> R s1 s2) -> (c = false -> simh P (k1 ()) (k2 ()) T) -> simh P (m_bind (m_guard c e) k1) (m_bind (m_guard c e) k2) T.
Proof.
  intros HP Hk s1 s2 r' s2' HPs. destruct c; [|by apply Hk]. intros [= <- <-]. eexists _, _. split; [done|]. split; auto.
Qed.

(** A step of the first computation alone. *)
Lemma simh_left {A C D} (P : St1 -> St2 -> Prop) (Q : A -> St1 -> St2 -> Prop) (m1 : M St1 A) (k1 : A -> M St1 C) (m2 : M St2 D) T :
  (forall s1 s2, P s1 s2 -> exists x s1', m1 s1 = Some (Ok x, s1') /\ Q x s1' s2) -> (forall x, simh (Q x) (k1 x) m2 T) -> simh P (m_bind m1 k1) m2 T.
Proof.
  intros Hm Hk s1 s2 r s2' HP H. destruct (Hm s1 s2 HP) as (x & s1' & E & HQ). unfold m_bind. rewrite E. by apply (Hk x s1' s2).
Qed.

Lemma simh_assoc {A B C D} (P : St1 -> St2 -> Prop) (m : M St1 A) (k : A -> M St1 B) (k' : B -> M St1 C) (m2 : M St2 D) T :
  simh P (m_bind m (fun x => m_bind (k x) k')) m2 T -> simh P (m_bind (m_bind m k) k') m2 T.
Proof.
  intros H s1 s2 r s2' HP Hr. destruct (H s1 s2 r s2' HP Hr) as (r1 & s1' & E & Hm). exists r1, s1'. split; [|done]. rewrite <- E.
  unfold m_bind. by destruct (m s1) as [[[x|e] t]|].
Qed.
Lemma simh_assoc_r {A B C D} (P : St1 -> St2 -> Prop) (m : M St2 A) (k : A -> M St2 B) (k' : B -> M St2 C) (m1 : M St1 D) T :
  simh P m1 (m_bind m (fun x => m_bind (k x) k')) T -> simh P m1 (m_bind (m_bind m k) k') T.
Proof.
  intros H s1 s2 r s2' HP Hr. apply (H s1 s2 r s2' HP). rewrite <- Hr. unfold m_bind. by destruct (m s2) as [[[x|e] t]|].
Qed.
End Hoare.

End Effect.
