(* ===== verification/Engine.v ===== *)
(** * The engine's state and its access checks (crates/loom-core/src/vcs.rs, vcs/access.rs)

    [Loom] holds the object store with the content index, the workspace registry, the working tree and
    staging index of every workspace, the open files, the protected refs and the identity and grants
    that its methods check. The state is fully loaded; the compression hints, the queue offsets, the
    key-value caches and the document overlay are not part of it. *)

From S2P Require Import Prelude Types Workspace Store Acl VcsTree VcsContent Registry Identity Effect.

Module Engine.
Import Error Digest FacetKind AclDomain Store Acl VcsTree VcsContent Registry Identity Effect.

(** ** Open files *)

Inductive OpenMode : Type := OpenRead | OpenWrite | OpenReadWrite | OpenAppend.

#[global] Instance OpenMode_eq_dec : EqDecision OpenMode.
Proof. solve_decision. Defined.

Definition can_read (m : OpenMode) : bool := match m with OpenWrite => false | _ => true end.
Definition can_write (m : OpenMode) : bool := match m with OpenRead => false | _ => true end.
Definition creates (m : OpenMode) : bool := match m with OpenRead => false | _ => true end.

Definition open_mode_to_u8 (m : OpenMode) : N := match m with OpenRead => 0 | OpenWrite => 1 | OpenReadWrite => 2 | OpenAppend => 3 end.
Definition open_mode_from_u8 (b : N) : res OpenMode :=
  match b with 0 => Ok OpenRead | 1 => Ok OpenWrite | 2 => Ok OpenReadWrite | 3 => Ok OpenAppend | _ => Err CorruptObject end.
Definition from_wire_tag (tag : N) : res OpenMode := map_err (fun _ => InvalidArgument) (open_mode_from_u8 tag).

Record FileStat : Type := mkFileStat { fs_size : N; fs_mode : N }.

Record OpenHandle : Type := mkOpenHandle { h_inode : N; h_offset : N; h_mode : OpenMode }.

Record Inode : Type := mkInode {
  i_ns : bytes; i_path : option bytes; i_addr : Digest; i_size : N; i_mode : N; open_count : N;
}.

(** The open-file fields of the engine. *)
Record Opens : Type := mkOpens {
  inodes : gmap N Inode;
  handles : gmap N OpenHandle;
  path_to_inode : gmap (bytes * bytes) N;
  next_inode : N;
  next_handle : N;
}.

(** ** Merges in progress and protected refs *)

Record MergeConflict : Type := mkMergeConflict {
  mc_path : bytes; mc_base : option StagedEntry; mc_ours : option StagedEntry; mc_theirs : option StagedEntry;
}.

Record MergeInProgress : Type := mkMergeInProgress {
  other_parent : Digest; our_head : Digest; merge_message : bytes; merge_conflicts_of : list MergeConflict;
  pre_work : WorkTree; pre_dirs : gset bytes;
}.

Record ProtectedRefPolicy : Type := mkProtectedRefPolicy {
  fast_forward_only : bool; signed_commits_required : bool; signed_ref_advance_required : bool;
  required_review_count : N; retention_lock : bool; governance_lock : bool;
}.

(** ** The engine *)

(** What the authorization checks read. *)
Record Access : Type := mkAccess {
  identity : option IdentityStore;
  acl : AclStore;
  predicate_evaluator : option AclPredicateEvaluator;
  session : option bytes;
}.

Section Loom.
Context `{hasher : Hasher} {S : Type} `{ops : !ObjectStore S}.

Record Loom : Type := mkLoom {
  contents : Contents S;
  registry : Registry;
  work : gmap bytes WorkTree;
  dirs : gmap bytes (gset bytes);
  index : gmap bytes WorkTree;
  merge_state : gmap bytes MergeInProgress;
  opens : Opens;
  protected_refs : gmap (bytes * bytes) ProtectedRefPolicy;
  access : Access;
}.
Implicit Types (l : Loom) (ns path : bytes).

Definition loom_new (store : S) : Loom :=
  mkLoom (mkContents store ∅) registry_new ∅ ∅ ∅ ∅ (mkOpens ∅ ∅ ∅ 1 1) ∅ (mkAccess None acl_new None None).

(** Assignments to one field. *)
Definition set_contents l c : Loom :=
  mkLoom c (registry l) (work l) (dirs l) (index l) (merge_state l) (opens l) (protected_refs l) (access l).
Definition set_registry l r : Loom :=
  mkLoom (contents l) r (work l) (dirs l) (index l) (merge_state l) (opens l) (protected_refs l) (access l).
Definition set_work l w : Loom :=
  mkLoom (contents l) (registry l) w (dirs l) (index l) (merge_state l) (opens l) (protected_refs l) (access l).
Definition set_dirs l d : Loom :=
  mkLoom (contents l) (registry l) (work l) d (index l) (merge_state l) (opens l) (protected_refs l) (access l).
Definition set_index l i : Loom :=
  mkLoom (contents l) (registry l) (work l) (dirs l) i (merge_state l) (opens l) (protected_refs l) (access l).
Definition set_merge_state l m : Loom :=
  mkLoom (contents l) (registry l) (work l) (dirs l) (index l) m (opens l) (protected_refs l) (access l).
Definition set_opens l o : Loom :=
  mkLoom (contents l) (registry l) (work l) (dirs l) (index l) (merge_state l) o (protected_refs l) (access l).
Definition set_protected_refs l p : Loom :=
  mkLoom (contents l) (registry l) (work l) (dirs l) (index l) (merge_state l) (opens l) p (access l).
Definition set_access l a : Loom :=
  mkLoom (contents l) (registry l) (work l) (dirs l) (index l) (merge_state l) (opens l) (protected_refs l) a.

Definition set_identity_store l (i : IdentityStore) : Loom :=
  set_access l (mkAccess (Some i) (acl (access l)) (predicate_evaluator (access l)) (session (access l))).
Definition set_acl_store l (a : AclStore) : Loom :=
  set_access l (mkAccess (identity (access l)) a (predicate_evaluator (access l)) (session (access l))).
Definition set_session l (s : bytes) : Loom :=
  set_access l (mkAccess (identity (access l)) (acl (access l)) (predicate_evaluator (access l)) (Some s)).
Definition clear_session l : Loom :=
  set_access l (mkAccess (identity (access l)) (acl (access l)) (predicate_evaluator (access l)) None).

(** [self.work.get(&ns).cloned().unwrap_or_default()] *)
Definition work_of l ns : WorkTree := default ∅ (work l !! ns).
Definition index_of l ns : WorkTree := default ∅ (index l !! ns).
Definition dirs_of l ns : gset bytes := default ∅ (dirs l !! ns).

(** [self.work.entry(ns).or_default().insert(path, e)] *)
Definition put_work l ns path (e : StagedEntry) : Loom := set_work l (<[ns := <[path := e]> (work_of l ns)]> (work l)).

(** [if let Some(w) = self.work.get_mut(&ns) { w.remove(path); }] *)
Definition remove_work l ns path : Loom :=
  match work l !! ns with Some w => set_work l (<[ns := delete path w]> (work l)) | None => l end.

(** ** Directories *)

Definition record_dir (d : gmap bytes (gset bytes)) (ns dir : bytes) : gmap bytes (gset bytes) :=
  let chain := if bool_decide (dir = []) then [] else dir :: path_ancestors dir in
  <[ns := list_to_set chain ∪ default ∅ (d !! ns)]> d.

Definition dir_exists (d : gmap bytes (gset bytes)) (ns dir : bytes) : bool :=
  bool_decide (dir = []) || bool_decide (dir ∈ default ∅ (d !! ns)).
End Loom.

(** ** Authorization *)

Implicit Types (a : Access).

Definition effective_principal a : res (option bytes) :=
  match identity a with
  | Some i => p ← Identity.effective_principal i (session a); Ok (Some p)
  | None => Ok None
  end.

Definition authorize_resource a (resource : AclResource) (right : AclRight) : res () :=
  match identity a with
  | None => Ok ()
  | Some i =>
      principal ← Identity.effective_principal i (session a);
      roles ← effective_roles i principal;
      authorize_resource_with_roles_and_evaluator (acl a) (authenticated_mode i) principal (elements roles) resource right (predicate_evaluator a)
  end.

Definition authorize_domain a ns (d : AclDomain) (right : AclRight) : res () := authorize_resource a (resource_all ns d) right.
Definition authorize a ns (facet : FacetKind) (right : AclRight) : res () := authorize_domain a ns (from_facet facet) right.

Definition authorize_scoped a ns (facet : FacetKind) (kind : AclScopeKind) (value : bytes) (right : AclRight) : res () :=
  authorize_resource a (mkAclResource ns (from_facet facet) None (PrefixResource kind value)) right.

Definition authorize_facet_path a ns facet path right : res () := authorize_scoped a ns facet SK_Path path right.
Definition authorize_collection a ns facet collection right : res () := authorize_scoped a ns facet SK_Collection collection right.
Definition authorize_key a ns facet key right : res () := authorize_scoped a ns facet SK_Key key right.
Definition authorize_table a ns table right : res () := authorize_scoped a ns FacetKind.Sql SK_Table table right.

Definition authorize_ref a ns (ref_name : bytes) (right : AclRight) : res () :=
  authorize_resource a (mkAclResource ns AclDomain.Vcs (Some ref_name) AllResource) right.

Definition normalize_projection_path (path : bytes) : res bytes :=
  let path := trim_start path in
  if bool_decide (path = []) then Ok [] else normalize_path path.

Definition authorize_file_path a ns path right : res () :=
  path ← normalize_projection_path path;
  authorize_facet_path a ns FacetKind.Files path right.

Definition authorize_path a ns path right : res () := authorize_file_path a ns path right.

Definition authorize_global_admin a : res () :=
  match identity a with
  | None => Ok ()
  | Some i =>
      principal ← Identity.effective_principal i (session a);
      roles ← effective_roles i principal;
      authorize_global_admin_with_roles (acl a) (authenticated_mode i) principal (elements roles)
  end.

(** [for facet in self.registry.facets(ns)? { self.authorize(ns, facet, right)? }] *)
Definition authorize_workspace_facets a (r : Registry) ns (right : AclRight) : res () :=
  fs ← facets r ns;
  try_fold (fun _ facet => authorize a ns facet right) () fs.

Definition guard_reserved_write (path : bytes) : res () := if is_reserved_path path then Err PermissionDenied else Ok ().

Definition SYMLINK_MODE : N := 40960. (* 0o120000 *)
Definition FILE_TYPE_MASK : N := 61440. (* 0o170000 *)
Definition is_symlink_mode (mode : N) : bool := N.land mode FILE_TYPE_MASK =? SYMLINK_MODE.
Definition DEFAULT_FILE_MODE : N := 33188. (* 0o100644 *)

End Engine.
