(* ===== verification/EngineFiles.v ===== *)
(** * Files and file handles (crates/loom-core/src/vcs/files.rs, vcs/handles.rs and the slot updates of
    vcs/objects.rs)

    Whole-file and byte-range operations on the working tree, and open files: handles on inodes that
    share the bytes of a path and survive its removal. An error of the store loses nothing the engine
    had; the objects written before it are not tracked. *)

From S2P Require Import Prelude Codec Types Workspace Store Acl VcsTree VcsContent Registry Effect Engine.

Module EngineFiles.
Import Error Digest Store Acl VcsTree VcsContent Registry Effect Engine.

Section Ops.
Context `{hasher : Hasher} {S : Type} `{ops : !ObjectStore S}.
Abbreviation Loom := (Loom (S := S)).
Implicit Types (l : Loom) (ns path : bytes).

(** ** Checks *)

Definition auth_path ns path (right : AclRight) : M Loom () := m_read (fun l => authorize_path (access l) ns path right).
Definition auth_facet ns facet (right : AclRight) : M Loom () := m_read (fun l => authorize (access l) ns facet right).

(** [self.work.get(&ns).and_then(|w| w.get(path))] *)
Definition work_slot l ns path : option StagedEntry := work_of l ns !! path.

Definition file_slot l ns path : res (option (Digest * N)) :=
  match work_slot l ns path with
  | Some (SFile f) => Ok (Some (content_addr f, mode f))
  | Some _ => Err InvalidArgument
  | None => Ok None
  end.

(** The parent of a path, where it has one, is a directory. *)
Definition parent_exists (d : gmap bytes (gset bytes)) ns path : bool :=
  match rsplit_once path with Some (parent, _) => dir_exists d ns parent | None => true end.

Definition check_file_target (d : gmap bytes (gset bytes)) ns path : res () :=
  if dir_exists d ns path then Err AlreadyExists
  else if negb (parent_exists d ns path) then Err NotFound
  else Ok ().

(** ** Contents and slots *)

Definition m_store_content (b : bytes) : M Loom Digest := fun l =>
  match store_content (contents l) b with
  | Ok (addr, c) => Some (Ok addr, set_contents l c)
  | Err e => Some (Err e, l)
  end.

Definition m_edit_content (plan : EditPlan) : M Loom (Digest * N) := fun l =>
  match build_edited_content (contents l) plan with
  | Some (Ok (addr, size, c)) => Some (Ok (addr, size), set_contents l c)
  | Some (Err e) => Some (Err e, l)
  | None => None
  end.

Definition set_inodes (o : Opens) (m : gmap N Inode) : Opens := mkOpens m (handles o) (path_to_inode o) (next_inode o) (next_handle o).
Definition set_handles (o : Opens) (m : gmap N OpenHandle) : Opens := mkOpens (inodes o) m (path_to_inode o) (next_inode o) (next_handle o).

Definition put_file_slot l ns path (addr : Digest) (size mode : N) : Loom :=
  let o := opens l in
  let o := match path_to_inode o !! (ns, path) with
           | Some id =>
               match inodes o !! id with
               | Some ino => set_inodes o (<[id := mkInode (i_ns ino) (i_path ino) addr size mode (open_count ino)]> (inodes o))
               | None => o
               end
           | None => o
           end in
  put_work (set_opens l o) ns path (SFile (mkStagedFile addr mode)).

Definition apply_inode_content (id : N) (addr : Digest) (size : N) : M Loom () := fun l =>
  let o := opens l in
  match inodes o !! id with
  | None => Some (Err NotFound, l)
  | Some ino =>
      let l := set_opens l (set_inodes o (<[id := mkInode (i_ns ino) (i_path ino) addr size (i_mode ino) (open_count ino)]> (inodes o))) in
      Some (Ok (), match i_path ino with
                   | Some p => put_work l (i_ns ino) p (SFile (mkStagedFile addr (i_mode ino)))
                   | None => l
                   end)
  end.

(** ** Whole files *)

Definition write_file_norm ns path (b : bytes) (mode : N) : M Loom () :=
  _ ⟸ m_read (fun l => check_file_target (dirs l) ns path);
  addr ⟸ m_store_content b;
  m_modify (fun l => put_file_slot l ns path addr (Codec.len b) mode).

Definition write_file ns path (b : bytes) (mode : N) : M Loom () :=
  path ⟸ m_lift (normalize_path path);
  _ ⟸ auth_path ns path Write;
  _ ⟸ m_lift (guard_reserved_write path);
  write_file_norm ns path b mode.

Definition write_file_reserved ns path (b : bytes) (mode : N) : M Loom () :=
  path ⟸ m_lift (normalize_path path);
  write_file_norm ns path b mode.

Definition append_file ns path (b : bytes) : M Loom () :=
  path ⟸ m_lift (normalize_path path);
  _ ⟸ auth_path ns path Write;
  _ ⟸ m_lift (guard_reserved_write path);
  _ ⟸ m_read (fun l => check_file_target (dirs l) ns path);
  '(old, mode) ⟸ m_read (fun l =>
     slot ← file_slot l ns path;
     match slot with
     | Some (addr, mode) => old ← load_content (contents l) addr; Ok (old, mode)
     | None => Ok ([], DEFAULT_FILE_MODE)
     end);
  addr ⟸ m_store_content (old ++ b);
  m_modify (fun l => put_file_slot l ns path addr (Codec.len (old ++ b)) mode).

Definition read_file_norm ns path : M Loom bytes :=
  m_read (fun l =>
    slot ← file_slot l ns path;
    match slot with Some (addr, _) => load_content (contents l) addr | None => Err NotFound end).

Definition read_file ns path : M Loom bytes :=
  path ⟸ m_lift (normalize_path path);
  _ ⟸ auth_path ns path Read;
  read_file_norm ns path.

Definition read_file_reserved ns path : M Loom bytes :=
  path ⟸ m_lift (normalize_path path);
  read_file_norm ns path.

Definition unlink l ns path : Loom :=
  let o := opens l in
  let o := match path_to_inode o !! (ns, path) with
           | Some id =>
               let m := match inodes o !! id with
                        | Some ino => <[id := mkInode (i_ns ino) None (i_addr ino) (i_size ino) (i_mode ino) (open_count ino)]> (inodes o)
                        | None => inodes o
                        end in
               mkOpens m (handles o) (delete (ns, path) (path_to_inode o)) (next_inode o) (next_handle o)
           | None => o
           end in
  remove_work (set_opens l o) ns path.

Definition remove_file_norm ns path : M Loom () := m_modify (fun l => unlink l ns path).

Definition remove_file ns path : M Loom () :=
  path ⟸ m_lift (normalize_path path);
  _ ⟸ auth_path ns path Write;
  _ ⟸ m_lift (guard_reserved_write path);
  remove_file_norm ns path.

Definition remove_file_reserved ns path : M Loom () :=
  path ⟸ m_lift (normalize_path path);
  remove_file_norm ns path.

Definition symlink ns (target link_path : bytes) : M Loom () :=
  path ⟸ m_lift (normalize_path link_path);
  _ ⟸ m_lift (guard_reserved_write path);
  _ ⟸ m_read (fun l =>
    if dir_exists (dirs l) ns path then Err AlreadyExists
    else if bool_decide (is_Some (work_slot l ns path)) then Err AlreadyExists
    else if bool_decide (target = []) then Err InvalidArgument
    else if negb (parent_exists (dirs l) ns path) then Err NotFound
    else Ok ());
  addr ⟸ m_store_content target;
  m_modify (fun l => put_file_slot l ns path addr (Codec.len target) SYMLINK_MODE).

Definition read_link ns path : M Loom bytes :=
  path ⟸ m_lift (normalize_path path);
  m_read (fun l =>
    match work_slot l ns path with
    | Some (SFile f) =>
        if is_symlink_mode (mode f) then
          b ← load_content (contents l) (content_addr f);
          if valid_utf8 b then Ok b else Err InvalidArgument
        else Err InvalidArgument
    | Some _ => Err InvalidArgument
    | None => Err NotFound
    end).

Definition staged_paths l ns : list bytes := map fst (btree_iter (work_of l ns)).

(** ** Byte ranges *)

Definition m_read_range (addr : Digest) (offset len : N) : M Loom bytes := fun l => m_run (content_read_range (contents l) addr offset len) l.

Definition read_at ns path (offset len : N) : M Loom bytes :=
  path ⟸ m_lift (normalize_path path);
  _ ⟸ auth_path ns path Read;
  slot ⟸ m_read (fun l => file_slot l ns path);
  match slot with Some (addr, _) => m_read_range addr offset len | None => m_err NotFound end.

(** The address, the size and the mode of the file that an edit starts from. *)
Definition edit_source ns path : M Loom (option Digest * N * N) :=
  m_read (fun l =>
    slot ← file_slot l ns path;
    match slot with
    | Some (addr, mode) => size ← content_size (contents l) addr; Ok (Some addr, size, mode)
    | None => Ok (None, 0, DEFAULT_FILE_MODE)
    end).

Definition edit_file ns path (plan : option Digest -> N -> EditPlan) : M Loom () :=
  path ⟸ m_lift (normalize_path path);
  _ ⟸ auth_path ns path Write;
  _ ⟸ m_lift (guard_reserved_write path);
  _ ⟸ m_read (fun l => check_file_target (dirs l) ns path);
  '(src, old_size, mode) ⟸ edit_source ns path;
  '(addr, size) ⟸ m_edit_content (plan src old_size);
  m_modify (fun l => put_file_slot l ns path addr size mode).

Definition write_at ns path (offset : N) (data : bytes) : M Loom () :=
  edit_file ns path (fun src old_size => plan_write src old_size offset data).

Definition truncate_file ns path (size : N) : M Loom () :=
  edit_file ns path (fun src old_size => plan_truncate src old_size size).

(** ** Handles *)

Definition alloc_inode (ino : Inode) (linked : option (bytes * bytes)) : M Loom N := fun l =>
  let o := opens l in
  let id := next_inode o in
  let p := match linked with Some key => <[key := id]> (path_to_inode o) | None => path_to_inode o end in
  Some (Ok id, set_opens l (mkOpens (<[id := ino]> (inodes o)) (handles o) p (as_u64 (id + 1)) (next_handle o))).

Definition alloc_handle (h : OpenHandle) : M Loom N := fun l =>
  let o := opens l in
  let id := next_handle o in
  Some (Ok id, set_opens l (mkOpens (inodes o) (<[id := h]> (handles o)) (path_to_inode o) (next_inode o) (as_u64 (id + 1)))).

(** The inode of a path already open, with one more opening; else a new one, for the file or for a new file. *)
Definition open_inode ns path (m : OpenMode) : M Loom N := fun l =>
  let o := opens l in
  match path_to_inode o !! (ns, path) with
  | Some id =>
      let ins := match inodes o !! id with
                 | Some ino => <[id := mkInode (i_ns ino) (i_path ino) (i_addr ino) (i_size ino) (i_mode ino) (as_u32 (open_count ino + 1))]> (inodes o)
                 | None => inodes o
                 end in
      Some (Ok id, set_opens l (set_inodes o ins))
  | None =>
      (slot ⟸ m_read (fun l => file_slot l ns path);
       match slot with
       | Some (addr, mode) =>
           size ⟸ m_read (fun l => content_size (contents l) addr);
           alloc_inode (mkInode ns (Some path) addr size mode 1) (Some (ns, path))
       | None =>
           _ ⟸ m_guard (negb (creates m)) NotFound;
           _ ⟸ m_read (fun l => if negb (parent_exists (dirs l) ns path) then Err NotFound else Ok ());
           empty ⟸ m_store_content [];
           id ⟸ alloc_inode (mkInode ns (Some path) empty 0 DEFAULT_FILE_MODE 1) (Some (ns, path));
           _ ⟸ m_modify (fun l => put_work l ns path (SFile (mkStagedFile empty DEFAULT_FILE_MODE)));
           m_ret id
       end) l
  end.

Definition file_open ns path (m : OpenMode) : M Loom N :=
  path ⟸ m_lift (normalize_path path);
  _ ⟸ (if can_read m then auth_path ns path Read else m_ret ());
  _ ⟸ (if can_write m then auth_path ns path Write else m_ret ());
  _ ⟸ (if negb (bool_decide (m = OpenRead)) then m_lift (guard_reserved_write path) else m_ret ());
  _ ⟸ m_read (fun l => if dir_exists (dirs l) ns path then Err AlreadyExists else Ok ());
  id ⟸ open_inode ns path m;
  _ ⟸ (if bool_decide (m = OpenWrite) then empty ⟸ m_store_content []; apply_inode_content id empty 0 else m_ret ());
  alloc_handle (mkOpenHandle id 0 m).

Definition handle_of (h : N) : M Loom OpenHandle := m_read (fun l => ok_or (handles (opens l) !! h) NotFound).
Definition handle_inode (id : N) : M Loom Inode := m_read (fun l => ok_or (inodes (opens l) !! id) NotFound).

Definition authorize_handle (h : OpenHandle) (right : AclRight) : M Loom () :=
  ino ⟸ handle_inode (h_inode h);
  match i_path ino with
  | Some path => auth_path (i_ns ino) path right
  | None => auth_facet (i_ns ino) FacetKind.Files right
  end.

(** [if let Some(hr) = self.handles.get_mut(&handle) { hr.offset = f(hr.offset) }] *)
Definition move_cursor (h : N) (f : N -> N) : M Loom () := m_modify (fun l =>
  let o := opens l in
  match handles o !! h with
  | Some x => set_opens l (set_handles o (<[h := mkOpenHandle (h_inode x) (f (h_offset x)) (h_mode x)]> (handles o)))
  | None => l
  end).

(** The handle, its mode and its rights checked, and its inode. *)
Definition checked_handle (handle : N) (ok_mode : OpenMode -> bool) (right : OpenMode -> AclRight) : M Loom (OpenHandle * Inode) :=
  h ⟸ handle_of handle;
  _ ⟸ m_guard (negb (ok_mode (h_mode h))) InvalidArgument;
  _ ⟸ authorize_handle h (right (h_mode h));
  ino ⟸ handle_inode (h_inode h);
  m_ret (h, ino).

Definition file_read (handle len : N) : M Loom bytes :=
  '(h, ino) ⟸ checked_handle handle can_read (fun _ => Read);
  data ⟸ m_read_range (i_addr ino) (h_offset h) len;
  _ ⟸ move_cursor handle (fun o => as_u64 (o + Codec.len data));
  m_ret data.

Definition file_read_at (handle offset len : N) : M Loom bytes :=
  '(h, ino) ⟸ checked_handle handle can_read (fun _ => Read);
  m_read_range (i_addr ino) offset len.

Definition edit_inode (id : N) (plan : EditPlan) : M Loom () :=
  '(addr, size) ⟸ m_edit_content plan;
  apply_inode_content id addr size.

Definition file_write (handle : N) (data : bytes) : M Loom N :=
  '(h, ino) ⟸ checked_handle handle can_write (fun _ => Write);
  let at_ := if bool_decide (h_mode h = OpenAppend) then i_size ino else h_offset h in
  _ ⟸ edit_inode (h_inode h) (plan_write (Some (i_addr ino)) (i_size ino) at_ data);
  _ ⟸ move_cursor handle (fun _ => as_u64 (at_ + Codec.len data));
  m_ret (Codec.len data).

Definition file_write_at (handle offset : N) (data : bytes) : M Loom N :=
  '(h, ino) ⟸ checked_handle handle can_write (fun _ => Write);
  _ ⟸ edit_inode (h_inode h) (plan_write (Some (i_addr ino)) (i_size ino) offset data);
  m_ret (Codec.len data).

Definition file_truncate (handle size : N) : M Loom () :=
  '(h, ino) ⟸ checked_handle handle can_write (fun _ => Write);
  edit_inode (h_inode h) (plan_truncate (Some (i_addr ino)) (i_size ino) size).

Definition file_flush (handle : N) : M Loom () := _ ⟸ handle_of handle; m_ret ().

Definition file_stat (handle : N) : M Loom FileStat :=
  '(h, ino) ⟸ checked_handle handle (fun _ => true) (fun m => if can_read m then Read else Write);
  m_ret (mkFileStat (i_size ino) (i_mode ino)).

(** One opening less of an inode; at the last it goes away. *)
Definition close_inode (o : Opens) (id : N) : Opens :=
  match inodes o !! id with
  | None => o
  | Some ino =>
      let count := open_count ino - 1 in
      if count =? 0 then
        mkOpens (delete id (inodes o)) (handles o)
          (match i_path ino with Some p => delete (i_ns ino, p) (path_to_inode o) | None => path_to_inode o end) (next_inode o) (next_handle o)
      else set_inodes o (<[id := mkInode (i_ns ino) (i_path ino) (i_addr ino) (i_size ino) (i_mode ino) count]> (inodes o))
  end.

Definition file_close (handle : N) : M Loom () :=
  h ⟸ handle_of handle;
  m_modify (fun l => set_opens l (close_inode (set_handles (opens l) (delete handle (handles (opens l)))) (h_inode h))).
End Ops.

End EngineFiles.
