(* ===== verification/EngineFs.v ===== *)
(** * The filesystem facade (crates/loom-core/src/fs.rs)

    Metadata, listings, directories, and moving, copying and walking subtrees. The facade uses the file
    operations of the working tree through [FileLayer], so that the proofs can run it on the engine and on the
    file operations of the specification. *)

From S2P Require Import Prelude Codec Types Store VcsTree VcsContent Effect Engine EngineFiles.

Module EngineFs.
Import Error Digest Store VcsTree VcsContent Effect Engine EngineFiles.

(** What the facade calls. *)
Class FileLayer (St : Type) : Type := {
  fl_file_mode : St -> bytes -> bytes -> option N;
  fl_staged : St -> bytes -> list bytes;
  fl_dirs : St -> gmap bytes (gset bytes);
  fl_set_dirs : St -> gmap bytes (gset bytes) -> St;
  fl_read_file : bytes -> bytes -> M St bytes;
  fl_write_file : bytes -> bytes -> bytes -> N -> M St ();
  fl_remove_file : bytes -> bytes -> M St ();
}.

Inductive FileKind : Type := KFile | KDirectory | KSymlink.

Record Stat : Type := mkStat { st_path : bytes; st_kind : FileKind; st_size : N; st_mode : N }.
Record DirEntry : Type := mkDirEntry { de_name : bytes; de_kind : FileKind }.

Definition kind_of_mode (mode : N) : FileKind := if is_symlink_mode mode then KSymlink else KFile.

(** [path.trim_start_matches('/').trim_end_matches('/')] *)
Definition dir_path (path : bytes) : bytes := reverse (trim_start (reverse (trim_start path))).

(** [format!("{dir}/")], and nothing for the root. *)
Definition prefix_of (dir : bytes) : bytes := if bool_decide (dir = []) then [] else dir ++ [slash].

(** The children of a directory: a path below one of them makes it a directory. *)
Definition add_file_child (prefix : bytes) (m : gmap bytes bool) (key : bytes) : gmap bytes bool :=
  match strip_prefix key prefix with
  | None | Some [] => m
  | Some rest =>
      match split_once rest with
      | Some (seg, _) => <[seg := true]> m
      | None => match m !! rest with Some _ => m | None => <[rest := false]> m end
      end
  end.

Definition add_dir_child (prefix : bytes) (m : gmap bytes bool) (d : bytes) : gmap bytes bool :=
  match strip_prefix d prefix with
  | None | Some [] => m
  | Some rest => <[match split_once rest with Some (seg, _) => seg | None => rest end := true]> m
  end.

Section Facade.
Context {St : Type} `{layer : !FileLayer St}.
Implicit Types (ns path : bytes) (s : St).

Definition is_file s ns norm : bool := bool_decide (is_Some (fl_file_mode s ns norm)).
Definition is_dir s ns norm : bool := dir_exists (fl_dirs s) ns norm.

Definition exists_path ns path : M St bool :=
  norm ⟸ m_lift (normalize_path path);
  m_gets (fun s => is_file s ns norm || is_dir s ns norm).

Definition stat ns path : M St Stat :=
  norm ⟸ m_lift (normalize_path path);
  fm ⟸ m_gets (fun s => fl_file_mode s ns norm);
  match fm with
  | Some mode => b ⟸ fl_read_file ns norm; m_ret (mkStat norm (kind_of_mode mode) (Codec.len b) mode)
  | None =>
      d ⟸ m_gets (fun s => is_dir s ns norm);
      if (d : bool) then m_ret (mkStat norm KDirectory 0 DIR_MODE) else m_err NotFound
  end.

Definition list_directory ns path : M St (list DirEntry) :=
  let dir := dir_path path in
  d ⟸ m_gets (fun s => is_dir s ns dir);
  _ ⟸ m_guard (negb (bool_decide (dir = [])) && negb d) NotFound;
  let prefix := prefix_of dir in
  m_gets (fun s =>
    let children := foldl (add_file_child prefix) ∅ (fl_staged s ns) in
    let children := foldl (add_dir_child prefix) children (set_iter (default ∅ (fl_dirs s !! ns))) in
    map (fun e => mkDirEntry e.1 (if e.2 : bool then KDirectory else KFile)) (btree_iter children)).

Definition create_directory_norm ns norm (recursive : bool) : M St () :=
  f ⟸ m_gets (fun s => is_file s ns norm);
  _ ⟸ m_guard f AlreadyExists;
  d ⟸ m_gets (fun s => is_dir s ns norm);
  if (d : bool) then m_ret ()
  else
    ok ⟸ m_gets (fun s =>
      match rsplit_once norm with Some (parent, _) => bool_decide (parent = []) || is_dir s ns parent | None => true end);
    _ ⟸ m_guard (negb recursive && negb ok) NotFound;
    m_modify (fun s => fl_set_dirs s (record_dir (fl_dirs s) ns norm)).

Definition create_directory ns path (recursive : bool) : M St () :=
  norm ⟸ m_lift (normalize_path path);
  _ ⟸ m_lift (guard_reserved_write norm);
  create_directory_norm ns norm recursive.

Definition create_directory_reserved ns path (recursive : bool) : M St () :=
  norm ⟸ m_lift (normalize_path path);
  create_directory_norm ns norm recursive.

(** [staged_paths(ns).filter(|k| k.starts_with(&prefix))] *)
Definition staged_under s ns (prefix : bytes) : list bytes := filter (fun k => starts_with k prefix = true) (fl_staged s ns).

(** [set.retain(|k| k != &dir && !k.starts_with(&prefix))] *)
Definition drop_dirs (d : gmap bytes (gset bytes)) ns (dir prefix : bytes) : gmap bytes (gset bytes) :=
  match d !! ns with
  | Some set => <[ns := filter (fun k => k <> dir /\ starts_with k prefix = false) set]> d
  | None => d
  end.

Definition remove_directory ns path (recursive : bool) : M St () :=
  norm ⟸ m_lift (normalize_path path);
  _ ⟸ m_lift (guard_reserved_write norm);
  d ⟸ m_gets (fun s => is_dir s ns norm);
  _ ⟸ m_guard (negb d) NotFound;
  let prefix := norm ++ [slash] in
  child_files ⟸ m_gets (fun s => staged_under s ns prefix);
  has_child_dir ⟸ m_gets (fun s => existsb (fun k => starts_with k prefix) (elements (default ∅ (fl_dirs s !! ns))));
  _ ⟸ m_guard (negb recursive && (negb (bool_decide (child_files = [])) || has_child_dir)) InvalidArgument;
  _ ⟸ m_each (fun key => fl_remove_file ns key) child_files;
  m_modify (fun s => fl_set_dirs s (drop_dirs (fl_dirs s) ns norm prefix)).

Definition copy_path ns (src dst : bytes) (recursive : bool) : M St () :=
  s0 ⟸ m_lift (normalize_path src);
  d0 ⟸ m_lift (normalize_path dst);
  fm ⟸ m_gets (fun s => fl_file_mode s ns s0);
  match fm with
  | Some mode => b ⟸ fl_read_file ns s0; fl_write_file ns d0 b mode
  | None =>
      d ⟸ m_gets (fun s => is_dir s ns s0);
      _ ⟸ m_guard (negb d) NotFound;
      _ ⟸ m_guard (negb recursive) InvalidArgument;
      let prefix := s0 ++ [slash] in
      keys ⟸ m_gets (fun s => staged_under s ns prefix);
      files ⟸ m_map (fun key =>
        fm ⟸ m_gets (fun s => fl_file_mode s ns key);
        b ⟸ fl_read_file ns key;
        m_ret (drop (length prefix) key, default DEFAULT_FILE_MODE fm, b)) keys;
      sub_dirs ⟸ m_gets (fun s => filter (fun k => k = s0 \/ starts_with k prefix = true) (set_iter (default ∅ (fl_dirs s !! ns))));
      _ ⟸ m_modify (fun s => fl_set_dirs s (record_dir (fl_dirs s) ns d0));
      _ ⟸ m_each (fun sd =>
        let rel := if bool_decide (sd = s0) then [] else drop (length prefix) sd in
        let target := if bool_decide (rel = []) then d0 else d0 ++ [slash] ++ rel in
        m_modify (fun s => fl_set_dirs s (record_dir (fl_dirs s) ns target))) sub_dirs;
      m_each (fun f => let '(rel, mode, b) := f in fl_write_file ns (d0 ++ [slash] ++ rel) b mode) files
  end.

Definition move_path ns (src dst : bytes) : M St () :=
  s0 ⟸ m_lift (normalize_path src);
  _ ⟸ m_lift (guard_reserved_write s0);
  d0 ⟸ m_lift (normalize_path dst);
  _ ⟸ m_lift (guard_reserved_write d0);
  _ ⟸ copy_path ns src dst true;
  f ⟸ m_gets (fun s => is_file s ns s0);
  if (f : bool) then fl_remove_file ns s0
  else
    let prefix := s0 ++ [slash] in
    under ⟸ m_gets (fun s => staged_under s ns prefix);
    _ ⟸ m_each (fun key => fl_remove_file ns key) under;
    m_modify (fun s => fl_set_dirs s (drop_dirs (fl_dirs s) ns s0 prefix)).

Definition walk ns (root : bytes) : M St (list bytes) :=
  let dir := dir_path root in
  f ⟸ m_gets (fun s => is_file s ns dir);
  if negb (bool_decide (dir = [])) && f then m_ret [dir]
  else m_gets (fun s => staged_under s ns (prefix_of dir)).
End Facade.

(** ** The engine *)

Section Layer.
Context `{hasher : Hasher} {S : Type} `{ops : !ObjectStore S}.

Definition file_mode (l : Loom (S := S)) (ns norm : bytes) : option N :=
  match work_slot l ns norm with Some (SFile f) => Some (mode f) | _ => None end.

#[global] Instance engine_layer : FileLayer (Loom (S := S)) := {|
  fl_file_mode := file_mode;
  fl_staged := staged_paths;
  fl_dirs := dirs;
  fl_set_dirs := set_dirs;
  fl_read_file := read_file;
  fl_write_file := write_file;
  fl_remove_file := remove_file |}.
End Layer.

(** Two layers whose operations simulate each other run the facade alike. *)
Class LayerSim {St1 St2 : Type} `{l1 : !FileLayer St1} `{l2 : !FileLayer St2} (R : St1 -> St2 -> Prop) : Prop := {
  ls_file_mode s1 s2 ns p : R s1 s2 -> fl_file_mode s1 ns p = fl_file_mode s2 ns p;
  ls_staged s1 s2 ns : R s1 s2 -> fl_staged s1 ns = fl_staged s2 ns;
  ls_dirs s1 s2 : R s1 s2 -> fl_dirs s1 = fl_dirs s2;
  ls_set_dirs s1 s2 d : R s1 s2 -> R (fl_set_dirs s1 d) (fl_set_dirs s2 d);
  ls_read ns p : sim R (fl_read_file ns p) (fl_read_file ns p);
  ls_write ns p b m : sim R (fl_write_file ns p b m) (fl_write_file ns p b m);
  ls_remove ns p : sim R (fl_remove_file ns p) (fl_remove_file ns p);
}.

Section FacadeSim.
Context {St1 St2 : Type} `{l1 : !FileLayer St1} `{l2 : !FileLayer St2} (R : St1 -> St2 -> Prop) `{ls : !LayerSim R}.

Lemma ls_is_file s1 s2 ns p : R s1 s2 -> is_file s1 ns p = is_file s2 ns p.
Proof. intros H. unfold is_file. by rewrite (ls_file_mode _ _ ns p H). Qed.
Lemma ls_is_dir s1 s2 ns p : R s1 s2 -> is_dir s1 ns p = is_dir s2 ns p.
Proof. intros H. unfold is_dir. by rewrite (ls_dirs _ _ H). Qed.
Lemma ls_under s1 s2 ns p : R s1 s2 -> staged_under s1 ns p = staged_under s2 ns p.
Proof. intros H. unfold staged_under. by rewrite (ls_staged _ _ ns H). Qed.
Lemma ls_map_dirs f : sim R (m_modify (fun s => fl_set_dirs s (f (fl_dirs s)))) (m_modify (fun s => fl_set_dirs s (f (fl_dirs s)))).
Proof. apply sim_modify. intros s1 s2 H. rewrite (ls_dirs _ _ H). by apply ls_set_dirs. Qed.

(** Follow the two runs, which are the same code. *)
Ltac sim_step :=
  match goal with
  | |- sim _ (m_bind _ _) (m_bind _ _) => apply sim_bind; [|intros ?]
  | |- sim _ (m_lift _) _ => apply sim_lift
  | |- sim _ (m_guard _ _) _ => apply sim_guard
  | |- sim _ (m_ret _) _ => apply sim_ret
  | |- sim _ (m_err _) _ => apply sim_err
  | |- sim _ (m_each _ _) _ => apply sim_each; intros ?
  | |- sim _ (m_map _ _) _ => apply sim_map; intros ?
  | |- sim _ (m_modify (fun s => fl_set_dirs s (?f (fl_dirs s)))) _ => apply ls_map_dirs
  | |- sim _ (m_modify (fun s => fl_set_dirs s (record_dir (fl_dirs s) ?ns ?d))) _ => apply (ls_map_dirs (fun x => record_dir x ns d))
  | |- sim _ (m_modify (fun s => fl_set_dirs s (drop_dirs (fl_dirs s) ?ns ?d ?p))) _ => apply (ls_map_dirs (fun x => drop_dirs x ns d p))
  | |- sim _ (fl_read_file _ _) _ => apply ls_read
  | |- sim _ (fl_write_file _ _ _ _) _ => apply ls_write
  | |- sim _ (fl_remove_file _ _) _ => apply ls_remove
  | |- sim _ (match ?x with _ => _ end) _ => destruct x
  | |- sim _ (m_gets _) _ => apply sim_gets; intros s1 s2 HR;
      rewrite ?(ls_is_file _ _ _ _ HR), ?(ls_is_dir _ _ _ _ HR), ?(ls_under _ _ _ _ HR), ?(ls_file_mode _ _ _ _ HR), ?(ls_dirs _ _ HR), ?(ls_staged _ _ _ HR);
      try reflexivity
  end.

Lemma exists_sim ns p : sim R (exists_path ns p) (exists_path ns p).
Proof. unfold exists_path. repeat sim_step. Qed.
Lemma stat_sim ns p : sim R (stat ns p) (stat ns p).
Proof. unfold stat. repeat sim_step. Qed.
Lemma list_directory_sim ns p : sim R (list_directory ns p) (list_directory ns p).
Proof. unfold list_directory. cbv zeta. repeat sim_step. Qed.
Lemma create_directory_norm_sim ns p r : sim R (create_directory_norm ns p r) (create_directory_norm ns p r).
Proof.
  unfold create_directory_norm. repeat sim_step. destruct (rsplit_once p) as [[parent ?]|]; [|done]. by rewrite (ls_is_dir _ _ _ _ HR).
Qed.
Lemma create_directory_sim ns p r : sim R (create_directory ns p r) (create_directory ns p r).
Proof. unfold create_directory. do 2 (sim_step; [sim_step|]). apply create_directory_norm_sim. Qed.
Lemma create_directory_reserved_sim ns p r : sim R (create_directory_reserved ns p r) (create_directory_reserved ns p r).
Proof. unfold create_directory_reserved. sim_step; [sim_step|]. apply create_directory_norm_sim. Qed.
Lemma remove_directory_sim ns p r : sim R (remove_directory ns p r) (remove_directory ns p r).
Proof. unfold remove_directory. cbv zeta. repeat sim_step. Qed.
Lemma copy_path_sim ns p q r : sim R (copy_path ns p q r) (copy_path ns p q r).
Proof. unfold copy_path. cbv zeta. repeat sim_step. Qed.
Lemma move_path_sim ns p q : sim R (move_path ns p q) (move_path ns p q).
Proof. unfold move_path. cbv zeta. do 4 (sim_step; [sim_step|]). sim_step; [apply copy_path_sim|]. repeat sim_step. Qed.
Lemma walk_sim ns p : sim R (walk ns p) (walk ns p).
Proof. unfold walk. cbv zeta. repeat sim_step. Qed.
End FacadeSim.

End EngineFs.
