(* ===== verification/Posix.v ===== *)
(** * What the file layer promises: names, files, directories and descriptors

    The specification of the engine's files as an ordinary file system. A name leads to a file or to a
    typed collection; a file has its bytes and its mode, and the name it was created under or renamed to while that
    name leads to it; a directory is a name that may have others below it; a handle has a file, a cursor and a mode.
    There are no content addresses, no chunks and no inode tables, and nothing is collected. Directories are
    specified on the sets of names: what is below a directory, which directories a call adds or drops,
    and a rename that gives the files new names and moves no bytes.

    A computation has no specified outcome where it would create a content outside [storable], the set of
    contents under consideration, or more than [2^32] open handles, and where the facade of the
    engine parts from a file system: where it would make a directory with the name of a file, and where it would
    move a path onto itself, into itself, a directory onto one above it, or a file that is open or replaces
    an open one. *)

From S2P Require Import Prelude Codec Types Workspace Acl VcsTree VcsPath VcsContent VcsEdit Registry Effect Engine EngineFiles EngineFs.

Module Posix.
Import Error Acl VcsTree VcsPath VcsContent VcsContentProps VcsEdit Registry Effect Engine EngineFiles EngineFs.

Inductive Node : Type :=
| NFile (i : N)
| NOther (e : StagedEntry).

Record File : Type := mkFile { f_ns : bytes; f_path : bytes; f_bytes : bytes; f_mode : N }.

Record Descriptor : Type := mkDescriptor { d_file : N; d_offset : N; d_mode : OpenMode }.

Record Fs : Type := mkFs {
  names : gmap bytes (gmap bytes Node);
  fs_dirs : gmap bytes (gset bytes);
  files : gmap N File;
  next_file : N;
  descriptors : gmap N Descriptor;
  next_descriptor : N;
  fs_access : Access;
}.
Implicit Types (s : Fs) (ns path : bytes) (i h : N).

Definition set_names s m : Fs := mkFs m (fs_dirs s) (files s) (next_file s) (descriptors s) (next_descriptor s) (fs_access s).
Definition set_files s m : Fs := mkFs (names s) (fs_dirs s) m (next_file s) (descriptors s) (next_descriptor s) (fs_access s).
Definition set_fs_dirs s d : Fs := mkFs (names s) d (files s) (next_file s) (descriptors s) (next_descriptor s) (fs_access s).
Definition set_descriptors s m n : Fs := mkFs (names s) (fs_dirs s) (files s) (next_file s) m n (fs_access s).

Definition names_of s ns : gmap bytes Node := default ∅ (names s !! ns).
Definition name s ns path : option Node := names_of s ns !! path.

(** A new file under a name. *)
Definition create s ns path (b : bytes) (mode : N) : Fs :=
  mkFs (<[ns := <[path := NFile (next_file s)]> (names_of s ns)]> (names s)) (fs_dirs s)
    (<[next_file s := mkFile ns path b mode]> (files s)) (next_file s + 1) (descriptors s) (next_descriptor s) (fs_access s).

Definition set_bytes s i (b : bytes) : Fs :=
  match files s !! i with Some f => set_files s (<[i := mkFile (f_ns f) (f_path f) b (f_mode f)]> (files s)) | None => s end.

(** Write a whole file: into the file of the name, or into a new one. *)
Definition put s ns path (b : bytes) (mode : N) : Fs :=
  match name s ns path with
  | Some (NFile i) => set_files s (<[i := mkFile ns path b mode]> (files s))
  | _ => create s ns path b mode
  end.

Definition unlink s ns path : Fs :=
  match names s !! ns with Some m => set_names s (<[ns := delete path m]> (names s)) | None => s end.

(** The file of a name. *)
Definition lookup_file s ns path : res (option File) :=
  match name s ns path with
  | Some (NFile i) => Ok (files s !! i)
  | Some (NOther _) => Err InvalidArgument
  | None => Ok None
  end.

(** ** Paths and directories *)

(** The paths above a path, from the root down: those it continues with a slash. *)
Fixpoint above (p : bytes) : list bytes :=
  match p with
  | [] => []
  | c :: p => (if bool_decide (c = slash) then [[]] else []) ++ map (cons c) (above p)
  end.

(** The path lies below the directory; everything lies below the root. *)
Definition inside (dir p : bytes) : bool :=
  match dir with [] => true | _ => bool_decide (take (S (length dir)) p = dir ++ [slash]) end.

(** What follows the directory in a path below it. *)
Definition below (dir p : bytes) : bytes := match dir with [] => p | _ => drop (S (length dir)) p end.
Definition join (dir r : bytes) : bytes := match dir with [] => r | _ => dir ++ slash :: r end.

Definition dirs_in s ns : gset bytes := default ∅ (fs_dirs s !! ns).
Definition has_dir s ns p : bool := bool_decide (p = [] \/ p ∈ dirs_in s ns).
Definition has_file s ns p : bool := match name s ns p with Some (NFile _) => true | _ => false end.

(** The directory right above the path exists. *)
Definition has_parent s ns p : bool := match last (above p) with Some d => has_dir s ns d | None => true end.

(** A file may be put under the name. *)
Definition target_free s ns p : res () :=
  if has_dir s ns p then Err AlreadyExists else if has_parent s ns p then Ok () else Err NotFound.

(** Every name, file or directory, of a workspace. *)
Definition paths s ns : gset bytes := dom (names_of s ns) ∪ dirs_in s ns.

Section Ops.
Context (storable : bytes -> bool).

(** The contents under consideration; the limit leaves room for one more block. *)
Definition fits (b : bytes) : bool := storable b && (Codec.len b + BLOCK <=? u64_max).
Definition assume_fits (b : bytes) : M Fs () := fun s => if fits b then Some (Ok (), s) else None.

Definition p_auth_path ns path (right : AclRight) : M Fs () := m_read (fun s => authorize_path (fs_access s) ns path right).

(** [normalize], authorize and refuse the reserved subtree. *)
Definition p_target ns path : M Fs bytes :=
  path ⟸ m_lift (normalize_path path);
  _ ⟸ p_auth_path ns path Write;
  _ ⟸ m_lift (guard_reserved_write path);
  m_ret path.

Definition p_write_norm ns path (b : bytes) (mode : N) : M Fs () :=
  _ ⟸ m_read (fun s => target_free s ns path);
  _ ⟸ assume_fits b;
  m_modify (fun s => put s ns path b mode).

Definition p_write_file ns path (b : bytes) (mode : N) : M Fs () :=
  path ⟸ p_target ns path;
  p_write_norm ns path b mode.

Definition p_write_file_reserved ns path (b : bytes) (mode : N) : M Fs () :=
  path ⟸ m_lift (normalize_path path);
  p_write_norm ns path b mode.

(** Replace the bytes of a file by a function of them; a missing file is created from no bytes. *)
Definition p_edit ns path (f : bytes -> bytes) : M Fs () :=
  path ⟸ p_target ns path;
  _ ⟸ m_read (fun s => target_free s ns path);
  old ⟸ m_read (fun s => lookup_file s ns path);
  let b := f (match old with Some x => f_bytes x | None => [] end) in
  _ ⟸ assume_fits b;
  m_modify (fun s => put s ns path b (match old with Some x => f_mode x | None => DEFAULT_FILE_MODE end)).

Definition p_append_file ns path (b : bytes) : M Fs () := p_edit ns path (fun old => old ++ b).
Definition p_write_at ns path (offset : N) (data : bytes) : M Fs () := p_edit ns path (fun old => written old offset data).
Definition p_truncate_file ns path (size : N) : M Fs () := p_edit ns path (fun old => resized old size).

(** The file a read finds. *)
Definition p_found s ns path : res File := o ← lookup_file s ns path; ok_or o NotFound.

Definition p_read_file ns path : M Fs bytes :=
  path ⟸ m_lift (normalize_path path);
  _ ⟸ p_auth_path ns path Read;
  m_read (fun s => f ← p_found s ns path; Ok (f_bytes f)).

Definition p_read_file_reserved ns path : M Fs bytes :=
  path ⟸ m_lift (normalize_path path);
  m_read (fun s => f ← p_found s ns path; Ok (f_bytes f)).

(** At most [len] bytes from [offset]. *)
Definition range (b : bytes) (offset len : N) : bytes := sub b offset (N.min (offset + len) (Codec.len b)).

Definition p_read_at ns path (offset len : N) : M Fs bytes :=
  path ⟸ m_lift (normalize_path path);
  _ ⟸ p_auth_path ns path Read;
  m_read (fun s => f ← p_found s ns path; Ok (range (f_bytes f) offset len)).

Definition p_remove_file ns path : M Fs () :=
  path ⟸ p_target ns path;
  m_modify (fun s => unlink s ns path).

Definition p_remove_file_reserved ns path : M Fs () :=
  path ⟸ m_lift (normalize_path path);
  m_modify (fun s => unlink s ns path).

Definition p_symlink ns (target link_path : bytes) : M Fs () :=
  path ⟸ m_lift (normalize_path link_path);
  _ ⟸ m_lift (guard_reserved_write path);
  _ ⟸ m_read (fun s =>
    if has_dir s ns path then Err AlreadyExists
    else if bool_decide (is_Some (name s ns path)) then Err AlreadyExists
    else if bool_decide (target = []) then Err InvalidArgument
    else if negb (has_parent s ns path) then Err NotFound
    else Ok ());
  _ ⟸ assume_fits target;
  m_modify (fun s => put s ns path target SYMLINK_MODE).

Definition p_read_link ns path : M Fs bytes :=
  path ⟸ m_lift (normalize_path path);
  m_read (fun s =>
    o ← lookup_file s ns path;
    f ← ok_or o NotFound;
    if negb (is_symlink_mode (f_mode f)) then Err InvalidArgument
    else if valid_utf8 (f_bytes f) then Ok (f_bytes f) else Err InvalidArgument).

(** ** Handles *)

(** The file to open, created where the mode creates. *)
Definition p_open_file ns path (m : OpenMode) : M Fs N :=
  n ⟸ m_gets (fun s => name s ns path);
  match n with
  | Some (NFile i) => m_ret i
  | Some (NOther _) => m_err InvalidArgument
  | None =>
      _ ⟸ m_guard (negb (creates m)) NotFound;
      _ ⟸ m_read (fun s => if negb (has_parent s ns path) then Err NotFound else Ok ());
      _ ⟸ assume_fits [];
      i ⟸ m_gets next_file;
      _ ⟸ m_modify (fun s => create s ns path [] DEFAULT_FILE_MODE);
      m_ret i
  end.

(** Room for one more handle: ids are not reused, and an inode counts its handles in 32 bits. *)
Definition has_room s : bool := (next_descriptor s <? u64_max) && (N.of_nat (size (descriptors s)) + 1 <? 2 ^ 32).
Definition assume_room : M Fs () := fun s => if has_room s then Some (Ok (), s) else None.

Definition p_alloc (d : Descriptor) : M Fs N := fun s =>
  if has_room s
  then Some (Ok (next_descriptor s), set_descriptors s (<[next_descriptor s := d]> (descriptors s)) (next_descriptor s + 1))
  else None.

Definition p_file_open ns path (m : OpenMode) : M Fs N :=
  path ⟸ m_lift (normalize_path path);
  _ ⟸ (if can_read m then p_auth_path ns path Read else m_ret ());
  _ ⟸ (if can_write m then p_auth_path ns path Write else m_ret ());
  _ ⟸ (if negb (bool_decide (m = OpenRead)) then m_lift (guard_reserved_write path) else m_ret ());
  _ ⟸ m_read (fun s => if has_dir s ns path then Err AlreadyExists else Ok ());
  _ ⟸ assume_room;
  i ⟸ p_open_file ns path m;
  _ ⟸ (if bool_decide (m = OpenWrite) then _ ⟸ assume_fits []; m_modify (fun s => set_bytes s i []) else m_ret ());
  p_alloc (mkDescriptor i 0 m).

(** Whether the name a file was created under still leads to it. *)
Definition linked s i (f : File) : bool := match name s (f_ns f) (f_path f) with Some (NFile j) => j =? i | _ => false end.

(** The handle and its file, authorized by the name of the file or, without one, in its workspace. *)
Definition p_handle h (ok_mode : OpenMode -> bool) (right : OpenMode -> AclRight) : M Fs (Descriptor * File) :=
  d ⟸ m_read (fun s => ok_or (descriptors s !! h) NotFound);
  _ ⟸ m_guard (negb (ok_mode (d_mode d))) InvalidArgument;
  m_read (fun s =>
    f ← ok_or (files s !! d_file d) NotFound;
    _ ← (if linked s (d_file d) f then authorize_path (fs_access s) (f_ns f) (f_path f) (right (d_mode d))
         else authorize (fs_access s) (f_ns f) FacetKind.Files (right (d_mode d)));
    Ok (d, f)).

Definition seek h (offset : N) : M Fs () := m_modify (fun s =>
  match descriptors s !! h with
  | Some d => set_descriptors s (<[h := mkDescriptor (d_file d) offset (d_mode d)]> (descriptors s)) (next_descriptor s)
  | None => s
  end).

Definition p_file_read h (len : N) : M Fs bytes :=
  '(d, f) ⟸ p_handle h can_read (fun _ => Read);
  let b := range (f_bytes f) (d_offset d) len in
  _ ⟸ seek h (d_offset d + Codec.len b);
  m_ret b.

Definition p_file_read_at h (offset len : N) : M Fs bytes :=
  '(d, f) ⟸ p_handle h can_read (fun _ => Read);
  m_ret (range (f_bytes f) offset len).

Definition p_file_write h (data : bytes) : M Fs N :=
  '(d, f) ⟸ p_handle h can_write (fun _ => Write);
  let at_ := if bool_decide (d_mode d = OpenAppend) then Codec.len (f_bytes f) else d_offset d in
  let b := written (f_bytes f) at_ data in
  _ ⟸ assume_fits b;
  _ ⟸ m_modify (fun s => set_bytes s (d_file d) b);
  _ ⟸ seek h (at_ + Codec.len data);
  m_ret (Codec.len data).

Definition p_file_write_at h (offset : N) (data : bytes) : M Fs N :=
  '(d, f) ⟸ p_handle h can_write (fun _ => Write);
  let b := written (f_bytes f) offset data in
  _ ⟸ assume_fits b;
  _ ⟸ m_modify (fun s => set_bytes s (d_file d) b);
  m_ret (Codec.len data).

Definition p_file_truncate h (size : N) : M Fs () :=
  '(d, f) ⟸ p_handle h can_write (fun _ => Write);
  let b := resized (f_bytes f) size in
  _ ⟸ assume_fits b;
  m_modify (fun s => set_bytes s (d_file d) b).

Definition p_file_flush h : M Fs () := _ ⟸ m_read (fun s => ok_or (descriptors s !! h) NotFound); m_ret ().

Definition p_file_stat h : M Fs FileStat :=
  '(d, f) ⟸ p_handle h (fun _ => true) (fun m => if can_read m then Read else Write);
  m_ret (mkFileStat (Codec.len (f_bytes f)) (f_mode f)).

Definition p_file_close h : M Fs () :=
  _ ⟸ m_read (fun s => ok_or (descriptors s !! h) NotFound);
  m_modify (fun s => set_descriptors s (delete h (descriptors s)) (next_descriptor s)).

(** ** Directories *)

Definition p_exists ns path : M Fs bool :=
  p ⟸ m_lift (normalize_path path);
  m_gets (fun s => has_file s ns p || has_dir s ns p).

Definition p_stat ns path : M Fs Stat :=
  p ⟸ m_lift (normalize_path path);
  m_read (fun s =>
    if has_file s ns p then
      _ ← authorize_path (fs_access s) ns p Read;
      f ← p_found s ns p;
      Ok (mkStat p (if is_symlink_mode (f_mode f) then KSymlink else KFile) (Codec.len (f_bytes f)) (f_mode f))
    else if has_dir s ns p then Ok (mkStat p KDirectory 0 DIR_MODE)
    else Err NotFound).

(** The path without the slashes around it. *)
Fixpoint slashes (p : bytes) : nat :=
  match p with c :: p => if bool_decide (c = slash) then S (slashes p) else O | [] => O end.
Definition strip p : bytes := let q := drop (slashes p) p in take (length q - slashes (reverse q)) q.

(** The child of a directory that a path below it goes through. *)
Definition child (dir p : bytes) : option bytes :=
  if inside dir p && bool_decide (below dir p <> []) then head (segments (below dir p)) else None.
Definition children s ns (dir : bytes) : gset bytes := list_to_set (omap (child dir) (elements (paths s ns))).

(** A child is listed as a directory where it is one, or where there is something below it. *)
Definition listed_as s ns p : FileKind :=
  if bool_decide (p ∈ dirs_in s ns) || existsb (inside p) (elements (paths s ns)) then KDirectory else KFile.

Definition p_list_directory ns path : M Fs (list DirEntry) :=
  let dir := strip path in
  m_read (fun s =>
    if has_dir s ns dir then Ok (map (fun n => mkDirEntry n (listed_as s ns (join dir n))) (set_iter (children s ns dir)))
    else Err NotFound).

(** The names below a directory, in order. *)
Definition names_below s ns (dir : bytes) : list bytes := set_iter (filter (fun p => inside dir p = true) (dom (names_of s ns))).

Definition p_walk ns path : M Fs (list bytes) :=
  let dir := strip path in
  m_gets (fun s => if bool_decide (dir <> []) && has_file s ns dir then [dir] else names_below s ns dir).

(** The directory and those above it. *)
Definition lineage (p : bytes) : gset bytes := list_to_set (p :: above p) ∖ {[ [] ]}.
Definition add_dirs s ns (X : gset bytes) : Fs :=
  if bool_decide (X = ∅) then s else set_fs_dirs s (<[ns := dirs_in s ns ∪ X]> (fs_dirs s)).

(** Some directory of the set has the name of a file or a collection. *)
Definition clashes s ns (X : gset bytes) : bool := bool_decide (Exists (fun p => is_Some (name s ns p)) (elements X)).

Definition p_make_dir ns p (recursive : bool) : M Fs () := fun s =>
  if has_file s ns p then Some (Err AlreadyExists, s)
  else if has_dir s ns p then Some (Ok (), s)
  else if negb recursive && negb (has_parent s ns p) then Some (Err NotFound, s)
  else if clashes s ns (lineage p) then None
  else Some (Ok (), add_dirs s ns (lineage p)).

Definition p_create_directory ns path (recursive : bool) : M Fs () :=
  p ⟸ m_lift (normalize_path path);
  _ ⟸ m_lift (guard_reserved_write p);
  p_make_dir ns p recursive.

Definition p_create_directory_reserved ns path (recursive : bool) : M Fs () :=
  p ⟸ m_lift (normalize_path path);
  p_make_dir ns p recursive.

(** ** Subtrees *)

(** The longest prefix of the list that is allowed, and the refusal that ends it. *)
Fixpoint allowed {A} (f : A -> res ()) (l : list A) : list A * res () :=
  match l with
  | [] => ([], Ok ())
  | x :: l => match f x with Ok _ => let '(a, r) := allowed f l in (x :: a, r) | Err e => ([], Err e) end
  end.

(** The caller may write the name. *)
Definition may_write s ns p : res () := _ ← authorize_path (fs_access s) ns p Write; guard_reserved_write p.

Definition may_put s ns p : res () := _ ← may_write s ns p; target_free s ns p.

(** The file under a path, or the files below it. *)
Definition subtree s ns p : list bytes := if has_file s ns p then [p] else names_below s ns p.

Definition unlink_all s ns (l : list bytes) : Fs := set_names s (alter (filter (fun e => e.1 ∉ l)) ns (names s)).
Definition drop_dir s ns p : Fs := set_fs_dirs s (alter (filter (fun d => d <> p /\ inside p d = false)) ns (fs_dirs s)).

(** Remove names in turn; at a refusal what is removed stays removed. *)
Definition p_remove_all ns (l : list bytes) : M Fs () := fun s =>
  let '(done, r) := allowed (may_write s ns) l in Some (r, unlink_all s ns done).

Definition p_remove_tree ns p : M Fs () :=
  l ⟸ m_gets (fun s => names_below s ns p);
  _ ⟸ p_remove_all ns l;
  m_modify (fun s => drop_dir s ns p).

Definition p_remove_directory ns path (recursive : bool) : M Fs () :=
  p ⟸ m_lift (normalize_path path);
  _ ⟸ m_lift (guard_reserved_write p);
  _ ⟸ m_read (fun s =>
    if negb (has_dir s ns p) then Err NotFound
    else if negb recursive && existsb (inside p) (elements (paths s ns)) then Err InvalidArgument
    else Ok ());
  p_remove_tree ns p.

(** The new path of [p] when [src] becomes [dst]. *)
Definition moved (src dst p : bytes) : bytes :=
  match drop (S (length src)) p with [] => dst | r => dst ++ slash :: r end.

(** The directories a copy of a directory has. *)
Definition new_dirs s ns (src dst : bytes) : gset bytes :=
  if has_file s ns src then ∅
  else lineage dst ∪ ⋃ (map (fun d => lineage (moved src dst d)) (filter (fun d => inside src d = true) (elements (dirs_in s ns)))).

(** The files the caller may read under some names. *)
Definition read_all s ns (l : list bytes) : res (list (bytes * File)) :=
  try_map (fun p => _ ← authorize_path (fs_access s) ns p Read; f ← p_found s ns p; Ok (p, f)) l.

Definition put_all s ns (l : list (bytes * File)) : Fs := foldl (fun s e => put s ns e.1 (f_bytes e.2) (f_mode e.2)) s l.

(** Copy a file, or a directory with all below it: nothing is changed unless all of it can be read; at a refused target
    what is copied stays. *)
Definition p_copy ns (src dst : bytes) (recursive : bool) : M Fs () := fun s =>
  if negb (has_file s ns src) && negb (has_dir s ns src) then Some (Err NotFound, s)
  else if negb (has_file s ns src) && negb recursive then Some (Err InvalidArgument, s)
  else match read_all s ns (subtree s ns src) with
  | Err e => Some (Err e, s)
  | Ok l =>
      let new := new_dirs s ns src dst in
      if clashes s ns new || negb (forallb (fun e => fits (f_bytes e.2)) l) then None
      else
        let s1 := add_dirs s ns new in
        let '(done, r) := allowed (fun e => may_put s1 ns e.1) (map (fun e => (moved src dst e.1, e.2)) l) in
        Some (r, put_all s1 ns done)
  end.

Definition p_copy_path ns (src dst : bytes) (recursive : bool) : M Fs () :=
  src ⟸ m_lift (normalize_path src);
  dst ⟸ m_lift (normalize_path dst);
  p_copy ns src dst recursive.

(** Give new names to the files, collections and directories of a subtree. *)
Definition renamed s ns (src dst : bytes) : Fs :=
  let l := subtree s ns src in
  let fresh := list_to_map (omap (fun p => (fun n => (moved src dst p, n)) <$> name s ns p) l) in
  let old := filter (fun e => e.1 ∉ l) (names_of s ns) in
  let file i f := if linked s i f && bool_decide (f_ns f = ns /\ f_path f ∈ l)
    then mkFile ns (moved src dst (f_path f)) (f_bytes f) (f_mode f) else f in
  let s1 := set_files (set_names s (<[ns := fresh ∪ old]> (names s))) (map_imap (fun i f => Some (file i f)) (files s)) in
  if has_file s ns src then s1 else drop_dir (add_dirs s1 ns (new_dirs s ns src dst)) ns src.

Definition overlap s ns (src dst : bytes) : bool :=
  bool_decide (src = dst) || (negb (has_file s ns src) && (inside src dst || inside dst src)).

(** Some of the names lead to an open file. *)
Definition busy s ns (l : list bytes) : bool :=
  existsb (fun p => match name s ns p with Some (NFile i) => existsb (fun e => d_file e.2 =? i) (map_to_list (descriptors s)) | _ => false end) l.

(** Move a file or a directory. A move that is refused keeps what it copied and removed before; one that succeeds is
    a rename. *)
Definition p_move ns (src dst : bytes) : M Fs () := fun s =>
  let l := subtree s ns src in
  if (has_file s ns src || has_dir s ns src) && (overlap s ns src dst || busy s ns (l ++ map (moved src dst) l)) then None
  else match (_ ⟸ p_copy ns src dst true; if has_file s ns src then p_remove_all ns [src] else p_remove_tree ns src) s with
  | Some (Ok _, _) => Some (Ok (), renamed s ns src dst)
  | r => r
  end.

Definition p_move_path ns (src dst : bytes) : M Fs () :=
  src ⟸ m_lift (normalize_path src);
  _ ⟸ m_lift (guard_reserved_write src);
  dst ⟸ m_lift (normalize_path dst);
  _ ⟸ m_lift (guard_reserved_write dst);
  p_move ns src dst.
End Ops.

End Posix.
