(* ===== verification/EnginePosix.v ===== *)
(** * What the engine relies on for file contents

    The interface between the content layer and its clients: storing a content of a set [V] succeeds,
    the content is held under its address, and every content of [V] held before still is.
    [content_laws] discharges it from the laws of the object store, for a set [V] on which the content
    hash is injective and whose objects the store accepts. *)

From S2P Require Import Prelude Codec Types Object ObjectProps Store Chunk ProllyTree VcsTree VcsShard VcsContent VcsEdit Workspace Acl Registry Effect Engine EngineFiles EngineFs Posix.

Module ContentLaws.
Import Error Digest Object Store Chunk VcsTree VcsWrite VcsShard VcsContent VcsContentProps VcsEdit.

Class ContentLaws {S : Type} `{hasher : Hasher} `{ops : !ObjectStore S} (V : bytes -> Prop) (cok : Contents S -> Prop) : Prop := {
  store_held st b : cok st -> V b -> exists addr st', store_content st b = Ok (addr, st') /\ cok st' /\ holds st' addr b /\
    (forall addr' b', V b' -> holds st addr' b' -> holds st' addr' b');
}.

Section Laws.
Context `{hasher : Hasher} {S : Type} `{ops : !ObjectStore S} {U : bytes -> Prop} {ok : S -> Prop} `{laws : !StoreLaws S U ok}.
Implicit Types (s : S) (st : Contents S) (b : bytes).
Context (a : Algo) (V : bytes -> Prop).

(** [V] is small enough, its objects are in the store's set, and its content addresses are distinct. *)
Record admissible : Prop := {
  adm_len b : V b -> Codec.len b <= u64_max;
  adm_objects b d w : V b -> put_content (ops := log_store a) [] b = Ok (d, w) -> Forall U w;
  adm_inj b b' : V b -> V b' -> raw_hash a b = raw_hash a b' -> b = b';
}.

(** Every entry of the content index leads to the content it is the hash of. *)
Definition indexed st : Prop :=
  ok (c_store st) /\ digest_algo (c_store st) = a /\
  forall k d, content st !! k = Some d -> exists b o, V b /\ k = raw_hash a b /\ get_object (c_store st) d = Ok o /\ object_holds (c_store st) o b.

Lemma chunk_holds_mono s s' e c : ProllyTree.extends s s' -> chunk_holds s e c -> chunk_holds s' e c.
Proof. intros He [H1 H2]. split; [done|]. by eapply get_object_mono. Qed.

Lemma object_holds_mono s s' o b : ProllyTree.extends s s' -> object_holds s o b -> object_holds s' o b.
Proof.
  intros He. destruct o; try done. intros (H1 & cs & H2 & H3). split; [done|]. exists cs. split; [done|].
  eapply Forall2_impl; [exact H3|]. intros e c. by apply chunk_holds_mono.
Qed.

Lemma holds_unique st addr b b' : holds st addr b -> holds st addr b' -> b = b'.
Proof. intros H1%load_holds H2%load_holds. congruence. Qed.

Lemma stored_object st b :
  admissible -> ok (c_store st) -> digest_algo (c_store st) = a -> V b ->
  exists d s' o, put_content (c_store st) b = Ok (d, s') /\ ok s' /\ ProllyTree.extends (c_store st) s' /\
    get_object s' d = Ok o /\ object_holds s' o b.
Proof.
  intros Hadm Hok Ha Hb. destruct (put_content_spec (S := S) a b [] (adm_len Hadm b Hb)) as (d & w & E & Hh). cbn [app] in E.
  destruct (carries_put_content (U := U) (ok := ok) a b [] d w) as (w' & [= ->] & Hc); [by rewrite E|].
  destruct (Hc (c_store st) Hok Ha (adm_objects Hadm b d w' Hb E)) as (s' & [= Hp] & Hok' & He & Hst).
  destruct (Hh s' d) as (o & Ho & Hob); [by rewrite (proj1 He)|done|done|]. by exists d, s', o.
Qed.

Lemma content_laws : admissible -> ContentLaws V indexed.
Proof.
  intros Hadm. split. intros st b (Hok & Ha & Hidx) Hb.
  destruct (stored_object st b Hadm Hok Ha Hb) as (d & s' & o & Hp & Hok' & He & Ho & Hob).
  set (addr := hash a b). set (st' := mkContents s' (<[dbytes addr := d]> (content st))). exists addr, st'.
  assert (Hold : forall k x, content st !! k = Some x -> k <> dbytes addr -> content st' !! k = Some x).
  { intros k x Hk Hne. cbn. rewrite lookup_insert_ne; [done|]. intros <-. by apply Hne. }
  assert (Hnew : content st' !! dbytes addr = Some d) by apply lookup_insert_eq.
  assert (Hobj : forall x o', get_object (c_store st) x = Ok o' -> get_object s' x = Ok o') by (intros; by eapply get_object_mono).
  split_and!.
  - unfold store_content. rewrite Ha, Hp. done.
  - split; [done|]. split; [cbn [st' c_store]; by rewrite (proj1 He)|]. intros k x Hk. destruct (decide (k = dbytes addr)) as [->|Hne].
    + rewrite Hnew in Hk. injection Hk as <-. by exists b, o.
    + cbn in Hk. rewrite lookup_insert_ne in Hk by (intros <-; by apply Hne). destruct (Hidx k x Hk) as (b' & o' & HV & Hkb & Hg & Hh).
      exists b', o'. split_and!; [done|done|by apply Hobj|by eapply object_holds_mono].
  - split; [by apply (adm_len Hadm)|]. exists o. split; [|done]. unfold content_object. rewrite Hnew. exact Ho.
  - intros addr' b' HV' Hh'. destruct (decide (dbytes addr' = dbytes addr)) as [Heq|Hne].
    + assert (b' = b) as ->.
      { pose proof Hh' as [_ (o' & Ho' & _)]. unfold content_object in Ho'. apply bind_Ok in Ho' as (x & Hx & _).
        destruct (content st !! dbytes addr') as [x'|] eqn:Ex; [|done]. injection Hx as ->.
        destruct (Hidx _ _ Ex) as (b2 & o2 & HV2 & Hk & Hg2 & Hh2). assert (b2 = b) as -> by (apply (adm_inj Hadm); [done|done|cbn in Heq; congruence]).
        apply (holds_unique st addr'); [done|]. split; [by apply (adm_len Hadm)|]. exists o2. split; [|done].
        unfold content_object. rewrite Ex. exact Hg2. }
      split; [apply Hh'|]. exists o. split; [|done]. unfold content_object. rewrite Heq, Hnew. exact Ho.
    + destruct Hh' as [Hl (o' & Ho' & Hob')]. split; [done|]. exists o'. split; [|by eapply object_holds_mono].
      unfold content_object in *. apply bind_Ok in Ho' as (x & Hx & Hg). destruct (content st !! dbytes addr') as [x'|] eqn:Ex; [|done].
      injection Hx as ->. rewrite (Hold _ _ Ex Hne). by apply Hobj.
Qed.
End Laws.

End ContentLaws.

(** * The engine's files behave like the specification

    [rel] relates the engine's working tree, inodes, handles and content index to the names, files and
    descriptors of [Posix]; every file operation keeps it and returns the specified result. *)

Module EnginePosix.
Import Error Digest Store Acl VcsTree VcsContent VcsContentProps VcsEdit ContentLaws Registry Effect Engine EngineFiles EngineFs Posix.

Section Refine.
Context `{hasher : Hasher} {S : Type} `{ops : !ObjectStore S} (storable : bytes -> bool) {cok : Contents S -> Prop}
  `{claws : !ContentLaws (fun b => fits storable b = true) cok}.
Abbreviation Loom := (Loom (S := S)).
Implicit Types (l : Loom) (s : Fs) (ns p b : bytes) (φ : gmap N N) (x : option N).

(** ** The relation *)

Definition stored l addr b : Prop := holds (contents l) addr b /\ fits storable b = true.

Definition slot_rel l s (e : option StagedEntry) (n : option Node) ns p : Prop :=
  match e, n with
  | Some (SFile f), Some (NFile i) => exists b, files s !! i = Some (mkFile ns p b (mode f)) /\ stored l (content_addr f) b
  | Some e, Some (NOther e') => e = e' /\ (forall f, e <> SFile f)
  | None, None => True
  | _, _ => False
  end.

(** The handles on an inode. *)
Definition count (id : N) (hs : gmap N OpenHandle) : nat := size (filter (fun e => h_inode e.2 = id) hs).

(** One opening of the inode [x] has no handle yet. *)
Definition pending x (id : N) : N := if bool_decide (x = Some id) then 1 else 0.

Record inode_rel l s φ x (id : N) (ino : Inode) (i : N) (f : File) : Prop := {
  ir_phi : φ !! id = Some i;
  ir_file : files s !! i = Some f;
  ir_ns : i_ns ino = f_ns f;
  ir_mode : i_mode ino = f_mode f;
  ir_size : i_size ino = Codec.len (f_bytes f);
  ir_stored : stored l (i_addr ino) (f_bytes f);
  ir_path : i_path ino = if linked s i f then Some (f_path f) else None;
  ir_pti : linked s i f = true -> path_to_inode (opens l) !! (f_ns f, f_path f) = Some id;
  ir_lt : id < next_inode (opens l);
  ir_count : open_count ino = N.of_nat (count id (handles (opens l))) + pending x id;
  ir_live : 0 < open_count ino;
}.

Definition handle_rel l φ (h : N) (o : option OpenHandle) (d : option Descriptor) : Prop :=
  match o, d with
  | Some o, Some d => h_offset o = d_offset d /\ h_mode o = d_mode d /\ φ !! h_inode o = Some (d_file d) /\
      is_Some (inodes (opens l) !! h_inode o) /\ h < next_handle (opens l) /\ d_offset d <= u64_max
  | None, None => True
  | _, _ => False
  end.

Record rel_at φ x l s : Prop := {
  re_access : access l = fs_access s;
  re_dirs : dirs l = fs_dirs s;
  re_cok : cok (contents l);
  re_slots : forall ns p, slot_rel l s (work_slot l ns p) (name s ns p) ns p;
  re_fresh : forall i f, files s !! i = Some f -> i < next_file s;
  re_inodes : forall id ino, inodes (opens l) !! id = Some ino -> exists i f, inode_rel l s φ x id ino i f;
  re_pti : forall ns p id, path_to_inode (opens l) !! (ns, p) = Some id ->
    exists ino, inodes (opens l) !! id = Some ino /\ i_ns ino = ns /\ i_path ino = Some p;
  re_inj : forall id id' i, φ !! id = Some i -> φ !! id' = Some i -> is_Some (inodes (opens l) !! id) -> is_Some (inodes (opens l) !! id') -> id = id';
  re_handles : forall h, handle_rel l φ h (handles (opens l) !! h) (descriptors s !! h);
  re_next : next_handle (opens l) = next_descriptor s;
  re_next_inode : next_inode (opens l) <= next_descriptor s + (if x is Some _ then 1 else 0);
}.

Definition rel l s : Prop := exists φ, rel_at φ None l s.

(** ** Counting handles *)

Lemma count_insert id hs h o : hs !! h = None -> count id (<[h := o]> hs) = (count id hs + (if bool_decide (h_inode o = id) then 1 else 0))%nat.
Proof.
  intros Hh. unfold count. case_bool_decide as Hid.
  - rewrite map_filter_insert_True by done. rewrite map_size_insert_None; [lia|]. apply map_lookup_filter_None. by left.
  - rewrite map_filter_insert_False by done. rewrite delete_id by done. lia.
Qed.

Lemma count_delete id hs h o : hs !! h = Some o -> count id hs = (count id (delete h hs) + (if bool_decide (h_inode o = id) then 1 else 0))%nat.
Proof. intros Hh. rewrite <- (insert_delete_id hs h o Hh) at 1. apply count_insert, lookup_delete_eq. Qed.

Lemma count_update id hs h o o' : hs !! h = Some o -> h_inode o' = h_inode o -> count id (<[h := o']> hs) = count id hs.
Proof.
  intros Hh Ho. rewrite (count_delete id hs h o Hh), <- insert_delete_eq, count_insert by apply lookup_delete_eq. by rewrite Ho.
Qed.

Lemma count_zero id hs : count id hs = 0%nat <-> forall h o, hs !! h = Some o -> h_inode o <> id.
Proof.
  unfold count. rewrite map_size_empty_iff. split.
  - intros He h o Hh Hid. assert (Hl : filter (fun e => h_inode e.2 = id) hs !! h = Some o) by by apply map_lookup_filter_Some.
    by rewrite He, lookup_empty in Hl.
  - intros Hall. apply map_empty. intros h. apply map_lookup_filter_None. right. intros o Hh. by apply Hall in Hh.
Qed.

Lemma count_le id hs : (count id hs <= size hs)%nat.
Proof. unfold count. apply map_subseteq_size, map_filter_subseteq. Qed.

(** ** Facts of related states *)

Lemma slot_file l s ns p i :
  slot_rel l s (work_slot l ns p) (name s ns p) ns p -> name s ns p = Some (NFile i) ->
  exists f b, work_slot l ns p = Some (SFile f) /\ files s !! i = Some (mkFile ns p b (mode f)) /\ stored l (content_addr f) b.
Proof.
  intros H E. rewrite E in H. unfold slot_rel in H. destruct (work_slot l ns p) as [[f| | | | | | |]|]; try done; try by destruct H.
  destruct H as (b & Hf & Hs). by exists f, b.
Qed.

Lemma linked_true s i f : linked s i f = true <-> name s (f_ns f) (f_path f) = Some (NFile i).
Proof.
  unfold linked. destruct (name s _ _) as [[j|e]|]; [|done|done]. rewrite N.eqb_eq. split; [by intros ->|by intros [= ->]].
Qed.

(** A file that a name leads to has the name. *)
Lemma named_linked φ x l s ns p i f :
  rel_at φ x l s -> name s ns p = Some (NFile i) -> files s !! i = Some f -> f_ns f = ns /\ f_path f = p /\ linked s i f = true.
Proof.
  intros HR Hn Hf. destruct (slot_file l s ns p i (re_slots _ _ _ _ HR ns p) Hn) as (g & b & _ & Hf' & _). rewrite Hf in Hf'.
  injection Hf' as ->. split_and!; [done..|]. by apply linked_true.
Qed.

(** The inode of an open path is the one of the path's file. *)
Lemma open_path φ x l s ns p id :
  rel_at φ x l s -> path_to_inode (opens l) !! (ns, p) = Some id ->
  exists ino i f, inodes (opens l) !! id = Some ino /\ inode_rel l s φ x id ino i f /\ name s ns p = Some (NFile i) /\ f_ns f = ns /\ f_path f = p.
Proof.
  intros HR Hp. destruct (re_pti _ _ _ _ HR _ _ _ Hp) as (ino & Hi & Hns & Hpath). destruct (re_inodes _ _ _ _ HR _ _ Hi) as (i & f & Hir).
  pose proof (ir_path _ _ _ _ _ _ _ _ Hir) as Hl. rewrite Hpath in Hl. destruct (linked s i f) eqn:El; [|done]. injection Hl as ->.
  apply linked_true in El. rewrite (ir_ns _ _ _ _ _ _ _ _ Hir) in Hns. subst ns. by exists ino, i, f.
Qed.

(** A live inode of a file that has a name is the one the name leads to. *)
Lemma inode_unique φ x l s id id' ino ino' i f f' :
  rel_at φ x l s -> inodes (opens l) !! id = Some ino -> inodes (opens l) !! id' = Some ino' ->
  inode_rel l s φ x id ino i f -> inode_rel l s φ x id' ino' i f' -> id = id'.
Proof. intros HR H1 H2 I1 I2. eapply (re_inj _ _ _ _ HR); [apply I1|apply I2|by eexists|by eexists]. Qed.

(** ** Contents *)

Lemma slot_rel_mono l l' s e n ns p :
  (forall addr b, stored l addr b -> stored l' addr b) -> slot_rel l s e n ns p -> slot_rel l' s e n ns p.
Proof.
  intros Hs. unfold slot_rel. destruct e as [[f| | | | | | |]|], n as [[i|e']|]; try done. intros (b & Hf & Hb). exists b. auto.
Qed.

Lemma rel_store φ x l s b :
  rel_at φ x l s -> fits storable b = true ->
  exists addr c, store_content (contents l) b = Ok (addr, c) /\ rel_at φ x (set_contents l c) s /\ stored (set_contents l c) addr b.
Proof.
  intros HR Hb. destruct (store_held (contents l) b (re_cok _ _ _ _ HR) Hb) as (addr & c & E & Hc & Hh & Hkeep).
  exists addr, c. split; [done|]. assert (Hs : forall addr' b', stored l addr' b' -> stored (set_contents l c) addr' b').
  { intros addr' b' [H1 H2]. split; [|done]. by apply Hkeep. }
  split; [|done]. destruct HR. split; try done.
  - intros ns p. eapply slot_rel_mono; [exact Hs|]. apply re_slots0.
  - intros id ino Hi. destruct (re_inodes0 id ino Hi) as (i & f & []). exists i, f. split; try done. by apply Hs.
Qed.

(** ** New bytes for a file *)

Lemma work_slot_put l ns p e ns' p' : work_slot (put_work l ns p e) ns' p' = if bool_decide (ns' = ns /\ p' = p) then Some e else work_slot l ns' p'.
Proof.
  unfold work_slot, work_of, put_work. cbn [work set_work]. destruct (decide (ns' = ns)) as [->|Hn].
  - rewrite lookup_insert_eq. cbn [from_option]. change (id ?y) with y. destruct (decide (p' = p)) as [->|Hp].
    + rewrite lookup_insert_eq. by rewrite bool_decide_eq_true_2.
    + rewrite lookup_insert_ne by done. by rewrite bool_decide_eq_false_2 by tauto.
  - rewrite lookup_insert_ne by done. by rewrite bool_decide_eq_false_2 by tauto.
Qed.

Lemma name_unique φ x l s ns p ns' p' i :
  rel_at φ x l s -> name s ns p = Some (NFile i) -> name s ns' p' = Some (NFile i) -> ns' = ns /\ p' = p.
Proof.
  intros HR H1 H2. destruct (slot_file l s ns p i (re_slots _ _ _ _ HR ns p) H1) as (f & b & _ & Hf & _).
  destruct (named_linked φ x l s ns' p' i _ HR H2 Hf) as (<- & <- & _). done.
Qed.

(** The engine after new bytes for the file [i]: the slot of its name and its inode, where it has them. *)
Record updates φ s l l' (i : N) (addr : Digest) (size m : N) : Prop := {
  up_contents : contents l' = contents l;
  up_access : access l' = access l;
  up_dirs : dirs l' = dirs l;
  up_handles : handles (opens l') = handles (opens l);
  up_pti : path_to_inode (opens l') = path_to_inode (opens l);
  up_next : next_inode (opens l') = next_inode (opens l) /\ next_handle (opens l') = next_handle (opens l);
  up_work ns p : work_slot l' ns p = match name s ns p with
    | Some (NFile j) => if j =? i then Some (SFile (mkStagedFile addr m)) else work_slot l ns p
    | _ => work_slot l ns p end;
  up_inodes id : inodes (opens l') !! id = (fun ino => if bool_decide (φ !! id = Some i)
    then mkInode (i_ns ino) (i_path ino) addr size m (open_count ino) else ino) <$> inodes (opens l) !! id;
}.

Lemma rel_update φ x l l' s i f b m addr :
  rel_at φ x l s -> files s !! i = Some f -> stored l addr b -> updates φ s l l' i addr (Codec.len b) m ->
  rel_at φ x l' (set_files s (<[i := mkFile (f_ns f) (f_path f) b m]> (files s))).
Proof.
  intros HR Hf Hb [Hc Ha Hd Hh Hp [Hni Hnh] Hw Hi]. pose proof HR as []. assert (Hst : forall addr' b', stored l addr' b' -> stored l' addr' b').
  { intros addr' b' [? ?]. split; [by rewrite Hc|done]. }
  set (s' := set_files s _). assert (Hlive : forall id, is_Some (inodes (opens l') !! id) <-> is_Some (inodes (opens l) !! id)).
  { intros id. rewrite Hi. apply fmap_is_Some. }
  split; rewrite ?Hc, ?Ha, ?Hd, ?Hh, ?Hp, ?Hni, ?Hnh; try done.
  - intros ns p. rewrite Hw. change (name s' ns p) with (name s ns p). specialize (re_slots0 ns p).
    destruct (name s ns p) as [[j|e]|] eqn:En; [destruct (N.eqb_spec j i) as [->|Hne]|..].
    + exists b. split; [|by apply Hst]. cbn [s' set_files files]. rewrite lookup_insert_eq.
      by destruct (named_linked φ x l s ns p i f HR En Hf) as (-> & -> & _).
    + unfold slot_rel in *. destruct (work_slot l ns p) as [[g| | | | | | |]|]; try done. destruct re_slots0 as (b0 & Hb0 & Hs0). exists b0.
      split; [|by apply Hst]. cbn [s' set_files files]. by rewrite lookup_insert_ne by done.
    + unfold slot_rel in *. by destruct (work_slot l ns p) as [[g| | | | | | |]|].
    + unfold slot_rel in *. by destruct (work_slot l ns p) as [[g| | | | | | |]|].
  - intros j g. cbn [s' set_files files next_file]. intros [[<- _]|[_ Hg]]%lookup_insert_Some; [by eapply re_fresh0|by eapply re_fresh0].
  - intros id ino'. rewrite Hi. intros (ino & Hid & ->)%fmap_Some. destruct (re_inodes0 id ino Hid) as (j & g & []). rewrite ir_phi0.
    destruct (decide (j = i)) as [->|Hne].
    + rewrite bool_decide_eq_true_2 by done. rewrite Hf in ir_file0. injection ir_file0 as <-. exists i, (mkFile (f_ns f) (f_path f) b m).
      split; try done; rewrite ?Hh, ?Hp, ?Hni; try done; [cbn [s' set_files files]; by rewrite lookup_insert_eq|by apply Hst].
    + rewrite bool_decide_eq_false_2 by congruence. exists j, g.
      split; rewrite ?Hh, ?Hp, ?Hni; try done; [cbn [s' set_files files]; by rewrite lookup_insert_ne|by apply Hst].
  - intros ns p id Hpp. destruct (re_pti0 ns p id Hpp) as (ino & Hino & Hns & Hpath). rewrite Hi, Hino. cbn.
    case_bool_decide; eexists; split; [reflexivity|done|reflexivity|done].
  - intros id id' j H1 H2 H3%Hlive H4%Hlive. by eapply re_inj0.
  - intros h. specialize (re_handles0 h). cbn [s' set_files descriptors]. unfold handle_rel in *. rewrite Hnh.
    destruct (handles (opens l) !! h), (descriptors s !! h); try done. destruct re_handles0 as (? & ? & ? & ? & ? & ?). rewrite Hlive. done.
Qed.

(** A live inode belongs to [i] exactly when it is the one the name of [i] leads to. *)
Lemma inode_of_name φ x l s ns p i :
  rel_at φ x l s -> name s ns p = Some (NFile i) ->
  forall id ino, inodes (opens l) !! id = Some ino -> (φ !! id = Some i <-> path_to_inode (opens l) !! (ns, p) = Some id).
Proof.
  intros HR Hn id ino Hid. destruct (re_inodes _ _ _ _ HR id ino Hid) as (j & f & Hir). split.
  - intros Hphi. rewrite (ir_phi _ _ _ _ _ _ _ _ Hir) in Hphi. injection Hphi as ->.
    destruct (named_linked φ x l s ns p i f HR Hn) as (<- & <- & Hl); [apply Hir|]. by apply Hir.
  - intros Hp. destruct (open_path φ x l s ns p id HR Hp) as (ino' & i' & f' & Hi' & Hir' & Hn' & _). rewrite Hn in Hn'. injection Hn' as <-. apply Hir'.
Qed.

Lemma put_file_slot_updates φ x l s ns p i addr size m :
  rel_at φ x l s -> name s ns p = Some (NFile i) -> updates φ s l (put_file_slot l ns p addr size m) i addr size m.
Proof.
  intros HR Hn. pose proof (inode_of_name φ x l s ns p i HR Hn) as Hid.
  assert (Hwork : forall ns' p' l', work l' = work l -> work_slot (put_work l' ns p (SFile (mkStagedFile addr m))) ns' p' =
    match name s ns' p' with Some (NFile j) => if j =? i then Some (SFile (mkStagedFile addr m)) else work_slot l ns' p' | _ => work_slot l ns' p' end).
  { intros ns' p' l' Hl. rewrite work_slot_put. assert (work_slot l' ns' p' = work_slot l ns' p') as -> by (unfold work_slot, work_of; by rewrite Hl).
    case_bool_decide as Heq; [destruct Heq as [-> ->]; rewrite Hn; by rewrite N.eqb_refl|].
    destruct (name s ns' p') as [[j|]|] eqn:En; [|done|done]. destruct (N.eqb_spec j i) as [->|]; [|done].
    by destruct Heq; apply (name_unique φ x l s ns p ns' p' i). }
  unfold put_file_slot. destruct (path_to_inode (opens l) !! (ns, p)) as [id|] eqn:Hp; [destruct (inodes (opens l) !! id) as [ino|] eqn:Ei|];
    (split; try done; [intros; by apply Hwork|]); intros id'; cbn [put_work set_opens set_work opens set_inodes inodes].
  - destruct (decide (id' = id)) as [->|Hne].
    + rewrite lookup_insert_eq, Ei. cbn. by rewrite bool_decide_eq_true_2 by by apply (Hid id ino Ei).
    + rewrite lookup_insert_ne by done. destruct (inodes (opens l) !! id') as [ino'|] eqn:Ei'; [|done]. cbn.
      rewrite bool_decide_eq_false_2; [done|]. intros H%(Hid id' ino' Ei'). rewrite H in Hp. congruence.
  - destruct (open_path φ x l s ns p id HR Hp) as (ino' & _ & _ & Hi' & _). congruence.
  - destruct (inodes (opens l) !! id') as [ino'|] eqn:Ei'; [|done]. cbn.
    rewrite bool_decide_eq_false_2; [done|]. intros H%(Hid id' ino' Ei'). rewrite H in Hp. congruence.
Qed.

(** ** New names *)

Lemma name_create s ns p b m ns' p' :
  name (create s ns p b m) ns' p' = if bool_decide (ns' = ns /\ p' = p) then Some (NFile (next_file s)) else name s ns' p'.
Proof.
  unfold name, names_of, create. cbn [names]. destruct (decide (ns' = ns)) as [->|Hn].
  - rewrite lookup_insert_eq. cbn [from_option]. change (id ?y) with y. destruct (decide (p' = p)) as [->|Hp].
    + rewrite lookup_insert_eq. by rewrite bool_decide_eq_true_2.
    + rewrite lookup_insert_ne by done. by rewrite bool_decide_eq_false_2 by tauto.
  - rewrite lookup_insert_ne by done. by rewrite bool_decide_eq_false_2 by tauto.
Qed.

Lemma linked_create s ns p b m i f : i < next_file s -> (forall j, name s ns p <> Some (NFile j)) -> linked (create s ns p b m) i f = linked s i f.
Proof.
  intros Hi Hn. unfold linked. rewrite name_create. case_bool_decide as Hb; [|done]. destruct Hb as [-> ->].
  rewrite (proj2 (N.eqb_neq _ _)) by lia. destruct (name s ns p) as [[j|]|] eqn:E; try done. by destruct (Hn j).
Qed.

Lemma rel_create φ x l s ns p b m addr :
  rel_at φ x l s -> (forall i, name s ns p <> Some (NFile i)) -> stored l addr b ->
  rel_at φ x (put_work l ns p (SFile (mkStagedFile addr m))) (create s ns p b m).
Proof.
  intros HR Hn Hb. pose proof HR as []. assert (Hold : forall i f, files s !! i = Some f -> files (create s ns p b m) !! i = Some f).
  { intros i f Hf. cbn [create files]. rewrite lookup_insert_ne; [done|]. apply re_fresh0 in Hf. lia. }
  split; try done.
  - intros ns' p'. rewrite work_slot_put, name_create. case_bool_decide as Heq.
    + destruct Heq as [-> ->]. exists b. split; [|done]. cbn [create files]. apply lookup_insert_eq.
    + specialize (re_slots0 ns' p'). unfold slot_rel in *. destruct (work_slot l ns' p') as [[g| | | | | | |]|], (name s ns' p') as [[j|]|]; try done.
      destruct re_slots0 as (b0 & Hb0 & Hs0). exists b0. split; [by apply Hold|done].
  - intros i f. cbn [create files next_file]. intros [[<- _]|[_ Hf]]%lookup_insert_Some; [lia|]. apply re_fresh0 in Hf. lia.
  - intros id ino Hid. destruct (re_inodes0 id ino Hid) as (i & f & []). exists i, f.
    pose proof (re_fresh0 i f ir_file0) as Hlt. pose proof (linked_create s ns p b m i f Hlt Hn) as Hl.
    split; try done; [by apply Hold|by rewrite Hl|by rewrite Hl].
Qed.

Lemma pti_none φ x l s ns p : rel_at φ x l s -> (forall i, name s ns p <> Some (NFile i)) -> path_to_inode (opens l) !! (ns, p) = None.
Proof.
  intros HR Hn. destruct (path_to_inode (opens l) !! (ns, p)) as [id|] eqn:Hp; [|done].
  destruct (open_path φ x l s ns p id HR Hp) as (_ & i & _ & _ & _ & Hname & _). by destruct (Hn i).
Qed.

Lemma set_opens_id l : set_opens l (opens l) = l.
Proof. by destruct l. Qed.

Lemma rel_put φ x l s ns p b m addr :
  rel_at φ x l s -> stored l addr b -> rel_at φ x (put_file_slot l ns p addr (Codec.len b) m) (put s ns p b m).
Proof.
  intros HR Hb. unfold put. destruct (name s ns p) as [[i|e]|] eqn:Hn.
  - destruct (slot_file l s ns p i (re_slots _ _ _ _ HR ns p) Hn) as (f & b0 & _ & Hf & _).
    eapply (rel_update φ x l _ s i _ b m addr HR Hf Hb). by apply (put_file_slot_updates φ x).
  - assert (Hno : forall i, name s ns p <> Some (NFile i)) by (intros i; by rewrite Hn). unfold put_file_slot.
    rewrite (pti_none φ x l s ns p HR Hno), set_opens_id. by apply rel_create.
  - assert (Hno : forall i, name s ns p <> Some (NFile i)) by (intros i; by rewrite Hn). unfold put_file_slot.
    rewrite (pti_none φ x l s ns p HR Hno), set_opens_id. by apply rel_create.
Qed.

(** New bytes through an inode. *)
Lemma rel_apply φ x l s id ino i f addr b :
  rel_at φ x l s -> inodes (opens l) !! id = Some ino -> inode_rel l s φ x id ino i f -> stored l addr b ->
  exists l', apply_inode_content id addr (Codec.len b) l = Some (Ok (), l') /\ rel_at φ x l' (set_bytes s i b).
Proof.
  intros HR Hid Hir Hb. unfold apply_inode_content. rewrite Hid. eexists. split; [reflexivity|].
  unfold set_bytes. rewrite (ir_file _ _ _ _ _ _ _ _ Hir). eapply (rel_update φ x l _ s i f b (f_mode f) addr HR); [apply Hir|done|].
  assert (Hins : forall id', <[id := mkInode (i_ns ino) (i_path ino) addr (Codec.len b) (f_mode f) (open_count ino)]> (inodes (opens l)) !! id' =
    (fun ino => if bool_decide (φ !! id' = Some i) then mkInode (i_ns ino) (i_path ino) addr (Codec.len b) (f_mode f) (open_count ino) else ino)
      <$> inodes (opens l) !! id').
  { intros id'. destruct (decide (id' = id)) as [->|Hne].
    - rewrite lookup_insert_eq, Hid. cbn. by rewrite bool_decide_eq_true_2 by apply Hir.
    - rewrite lookup_insert_ne by done. destruct (inodes (opens l) !! id') as [ino'|] eqn:Ei'; [|done]. cbn.
      rewrite bool_decide_eq_false_2; [done|]. intros H. apply Hne. eapply (re_inj _ _ _ _ HR); [exact H|apply Hir|by eexists|by eexists]. }
  pose proof (ir_path _ _ _ _ _ _ _ _ Hir) as Hpath. rewrite (ir_mode _ _ _ _ _ _ _ _ Hir). rewrite Hpath in Hins |- *.
  destruct (linked s i f) eqn:El; split; try done; try exact Hins; intros ns p.
  - rewrite work_slot_put. apply linked_true in El. rewrite (ir_ns _ _ _ _ _ _ _ _ Hir). case_bool_decide as Heq.
    + destruct Heq as [-> ->]. by rewrite El, N.eqb_refl.
    + destruct (name s ns p) as [[j|]|] eqn:En; [|done|done]. destruct (N.eqb_spec j i) as [->|]; [|done].
      by destruct Heq; apply (name_unique φ x l s (f_ns f) (f_path f) ns p i).
  - change (work_slot l ns p = match name s ns p with Some (NFile j) => if j =? i then Some (SFile (mkStagedFile addr (f_mode f))) else work_slot l ns p | _ => work_slot l ns p end).
    destruct (name s ns p) as [[j|]|] eqn:En; [|done|done]. destruct (N.eqb_spec j i) as [->|]; [|done].
    destruct (named_linked φ x l s ns p i f HR En) as (_ & _ & Hl); [apply Hir|]. congruence.
Qed.

(** ** Removing a name *)

Lemma name_unlink s ns p ns' p' : name (Posix.unlink s ns p) ns' p' = if bool_decide (ns' = ns /\ p' = p) then None else name s ns' p'.
Proof.
  unfold name, names_of, Posix.unlink. destruct (names s !! ns) as [m|] eqn:Em; cbn [names set_names].
  - destruct (decide (ns' = ns)) as [->|Hn].
    + rewrite lookup_insert_eq, Em. cbn [from_option]. change (id ?y) with y. destruct (decide (p' = p)) as [->|Hp].
      * rewrite lookup_delete_eq. by rewrite bool_decide_eq_true_2.
      * rewrite lookup_delete_ne by done. by rewrite bool_decide_eq_false_2 by tauto.
    + rewrite lookup_insert_ne by done. by rewrite bool_decide_eq_false_2 by tauto.
  - case_bool_decide as Hb; [|done]. destruct Hb as [-> ->]. rewrite Em. apply lookup_empty.
Qed.

Lemma work_slot_remove l ns p ns' p' : work_slot (remove_work l ns p) ns' p' = if bool_decide (ns' = ns /\ p' = p) then None else work_slot l ns' p'.
Proof.
  unfold work_slot, work_of, remove_work. destruct (work l !! ns) as [m|] eqn:Em; cbn [work set_work].
  - destruct (decide (ns' = ns)) as [->|Hn].
    + rewrite lookup_insert_eq, Em. cbn [from_option]. change (id ?y) with y. destruct (decide (p' = p)) as [->|Hp].
      * rewrite lookup_delete_eq. by rewrite bool_decide_eq_true_2.
      * rewrite lookup_delete_ne by done. by rewrite bool_decide_eq_false_2 by tauto.
    + rewrite lookup_insert_ne by done. by rewrite bool_decide_eq_false_2 by tauto.
  - case_bool_decide as Hb; [|done]. destruct Hb as [-> ->]. rewrite Em. apply lookup_empty.
Qed.

Lemma linked_unlink s ns p i f : linked (Posix.unlink s ns p) i f = linked s i f && negb (bool_decide (f_ns f = ns /\ f_path f = p)).
Proof.
  unfold linked. rewrite name_unlink. case_bool_decide; [|by rewrite andb_true_r]. by rewrite andb_false_r.
Qed.

Lemma unlink_fields s ns p : files (Posix.unlink s ns p) = files s /\ fs_dirs (Posix.unlink s ns p) = fs_dirs s /\ next_file (Posix.unlink s ns p) = next_file s /\
  descriptors (Posix.unlink s ns p) = descriptors s /\ next_descriptor (Posix.unlink s ns p) = next_descriptor s /\ fs_access (Posix.unlink s ns p) = fs_access s.
Proof. unfold Posix.unlink. by destruct (names s !! ns). Qed.

Lemma remove_work_fields l ns p : contents (remove_work l ns p) = contents l /\ dirs (remove_work l ns p) = dirs l /\
  opens (remove_work l ns p) = opens l /\ access (remove_work l ns p) = access l.
Proof. unfold remove_work. by destruct (work l !! ns). Qed.

(** The engine after a name is removed: its slot is gone and its inode has no path any more. *)
Record unlinks l l' ns p : Prop := {
  ul_contents : contents l' = contents l;
  ul_dirs : dirs l' = dirs l;
  ul_access : access l' = access l;
  ul_work ns' p' : work_slot l' ns' p' = if bool_decide (ns' = ns /\ p' = p) then None else work_slot l ns' p';
  ul_handles : handles (opens l') = handles (opens l);
  ul_next : next_inode (opens l') = next_inode (opens l) /\ next_handle (opens l') = next_handle (opens l);
  ul_pti : path_to_inode (opens l') = delete (ns, p) (path_to_inode (opens l));
  ul_inodes id : inodes (opens l') !! id = (fun ino => if bool_decide (path_to_inode (opens l) !! (ns, p) = Some id)
    then mkInode (i_ns ino) None (i_addr ino) (i_size ino) (i_mode ino) (open_count ino) else ino) <$> inodes (opens l) !! id;
}.

Lemma unlink_unlinks l ns p : unlinks l (EngineFiles.unlink l ns p) ns p.
Proof.
  unfold EngineFiles.unlink. match goal with |- unlinks _ (remove_work ?x _ _) _ _ => set (l1 := x) end.
  destruct (remove_work_fields l1 ns p) as (Hc & Hd & Ho & Ha). split; rewrite ?Ho; try done.
  - intros ns' p'. by rewrite work_slot_remove.
  - unfold l1. cbn. by destruct (path_to_inode (opens l) !! (ns, p)).
  - unfold l1. cbn. by destruct (path_to_inode (opens l) !! (ns, p)).
  - unfold l1. cbn. destruct (path_to_inode (opens l) !! (ns, p)) eqn:Hp; [done|]. by rewrite delete_id.
  - intros id'. unfold l1. cbn. destruct (path_to_inode (opens l) !! (ns, p)) as [id|] eqn:Hp; cbn; [|by destruct (inodes (opens l) !! id')].
    destruct (decide (id' = id)) as [->|Hne].
    + rewrite bool_decide_eq_true_2 by done. destruct (inodes (opens l) !! id) as [ino|] eqn:Ei; cbn; [by rewrite lookup_insert_eq|by rewrite Ei].
    + rewrite bool_decide_eq_false_2 by congruence. destruct (inodes (opens l) !! id) as [ino|] eqn:Ei; [rewrite lookup_insert_ne by done|];
        by destruct (inodes (opens l) !! id').
Qed.

(** The inode a name leads to is the one of the file that has the name. *)
Lemma pti_linked φ x l s ns p id ino i f :
  rel_at φ x l s -> inode_rel l s φ x id ino i f ->
  path_to_inode (opens l) !! (ns, p) = Some id <-> linked s i f = true /\ f_ns f = ns /\ f_path f = p.
Proof.
  intros HR Hir. split.
  - intros Hpp. destruct (open_path φ x l s ns p id HR Hpp) as (ino2 & i2 & f2 & _ & Hir2 & Hn2 & Hns2 & Hp2).
    assert (i2 = i) as -> by (pose proof (ir_phi _ _ _ _ _ _ _ _ Hir2); pose proof (ir_phi _ _ _ _ _ _ _ _ Hir); congruence).
    assert (f2 = f) as -> by (pose proof (ir_file _ _ _ _ _ _ _ _ Hir2); pose proof (ir_file _ _ _ _ _ _ _ _ Hir); congruence).
    split; [|done]. apply linked_true. by rewrite Hns2, Hp2.
  - intros (Hl & <- & <-). by apply (ir_pti _ _ _ _ _ _ _ _ Hir).
Qed.

Lemma rel_unlink φ l s ns p : rel_at φ None l s -> rel_at φ None (EngineFiles.unlink l ns p) (Posix.unlink s ns p).
Proof.
  intros HR. pose proof HR as []. destruct (unlink_fields s ns p) as (Ef & Ed & En & Ede & End_ & Ea).
  pose proof (unlink_unlinks l ns p) as [Hc Hd Ha Hw Hh [Hni Hnh] Hp Hi]. set (l' := EngineFiles.unlink l ns p) in *. clearbody l'.
  assert (Hst : forall addr' b', stored l addr' b' -> stored l' addr' b') by (intros addr' b' [? ?]; split; [by rewrite Hc|done]).
  assert (Hlive : forall id, is_Some (inodes (opens l') !! id) <-> is_Some (inodes (opens l) !! id)) by (intros id; rewrite Hi; apply fmap_is_Some).
  split; rewrite ?Hc, ?Hd, ?Ha, ?Hh, ?Hni, ?Hnh, ?Ef, ?Ed, ?En, ?Ede, ?Ea, ?End_; try done.
  - intros ns' p'. rewrite Hw, name_unlink. case_bool_decide; [done|]. specialize (re_slots0 ns' p').
    unfold slot_rel in *. rewrite Ef. destruct (work_slot l ns' p') as [[g| | | | | | |]|], (name s ns' p') as [[j|]|]; try done.
    destruct re_slots0 as (b0 & Hb0 & Hs0). exists b0. auto.
  - intros id ino'. rewrite Hi. intros (ino & Hid & ->)%fmap_Some. destruct (re_inodes0 id ino Hid) as (i & f & Hir). exists i, f. pose proof Hir as [].
    pose proof (pti_linked φ None l s ns p id ino i f HR Hir) as Hat.
    split; rewrite ?Hh, ?Hni, ?Ef; try (case_bool_decide; done); try done.
    + case_bool_decide; by apply Hst.
    + rewrite linked_unlink. case_bool_decide as Hb; cbn.
      * apply Hat in Hb as (-> & -> & ->). by rewrite bool_decide_eq_true_2.
      * rewrite ir_path0. destruct (linked s i f); [|done]. rewrite bool_decide_eq_false_2; [done|]. intros [? ?]. by apply Hb, Hat.
    + rewrite linked_unlink, Hp. intros [Hl Hb%negb_true_iff%bool_decide_eq_false]%andb_true_iff. rewrite lookup_delete_ne; [auto|]. intros Heq. apply Hb. split; congruence.
  - intros ns' p' id. rewrite Hp. intros [Hne Hpp]%lookup_delete_Some. destruct (re_pti0 ns' p' id Hpp) as (ino & Hino & Hns & Hpath).
    exists ino. rewrite Hi, Hino. cbn. rewrite bool_decide_eq_false_2; [done|]. intros Hpp'.
    destruct (re_pti0 ns p id Hpp') as (ino2 & Hino2 & Hns2 & Hpath2). congruence.
  - intros id id' j H1 H2 H3%Hlive H4%Hlive. by eapply re_inj0.
  - intros h. specialize (re_handles0 h). unfold handle_rel in *. rewrite Hnh.
    destruct (handles (opens l) !! h), (descriptors s !! h); try done. destruct re_handles0 as (? & ? & ? & ? & ? & ?). rewrite Hlive. done.
Qed.

(** ** Opening and closing *)

Lemma handles_size φ x l s : rel_at φ x l s -> size (handles (opens l)) = size (descriptors s).
Proof.
  intros HR. rewrite <- !size_dom. f_equal. apply set_eq. intros h. rewrite !elem_of_dom. pose proof (re_handles _ _ _ _ HR h) as Hh.
  unfold handle_rel in Hh. destruct (handles (opens l) !! h), (descriptors s !! h); try done; (split; intros [? ?]; try done; by eexists).
Qed.

Lemma dead_count φ x l s id : rel_at φ x l s -> inodes (opens l) !! id = None -> count id (handles (opens l)) = 0%nat.
Proof.
  intros HR Hid. apply count_zero. intros h o Ho <-. pose proof (re_handles _ _ _ _ HR h) as Hh. rewrite Ho in Hh. unfold handle_rel in Hh.
  destruct (descriptors s !! h); [|done]. destruct Hh as (_ & _ & _ & [? ?] & _). congruence.
Qed.

Lemma inode_lt φ x l s id ino : rel_at φ x l s -> inodes (opens l) !! id = Some ino -> id < next_inode (opens l).
Proof. intros HR Hi. destruct (re_inodes _ _ _ _ HR id ino Hi) as (i & f & []). done. Qed.

(** One more opening of an open path. *)
Lemma rel_reopen φ l s id ino i f :
  rel_at φ None l s -> inodes (opens l) !! id = Some ino -> inode_rel l s φ None id ino i f -> has_room s = true ->
  rel_at φ (Some id) (set_opens l (set_inodes (opens l)
    (<[id := mkInode (i_ns ino) (i_path ino) (i_addr ino) (i_size ino) (i_mode ino) (as_u32 (open_count ino + 1))]> (inodes (opens l))))) s.
Proof.
  intros HR Hid Hir Hroom. apply andb_true_iff in Hroom as [_ Hroom%N.ltb_lt].
  assert (Hc : as_u32 (open_count ino + 1) = open_count ino + 1).
  { unfold as_u32. apply N.mod_small. rewrite (ir_count _ _ _ _ _ _ _ _ Hir). pose proof (count_le id (handles (opens l))) as Hle.
    rewrite (handles_size φ None l s HR) in Hle. unfold pending. rewrite bool_decide_eq_false_2 by done. lia. }
  rewrite Hc. pose proof HR as []. split; try done.
  - intros id' ino'. cbn [opens set_opens inodes set_inodes]. intros [[<- <-]|[Hne Hid']]%lookup_insert_Some.
    + exists i, f. pose proof Hir as []. split; try done; cbn; [|lia]. rewrite ir_count0. unfold pending. rewrite (bool_decide_eq_false_2 (None = Some id)), (bool_decide_eq_true_2 (Some id = Some id)) by done. lia.
    + destruct (re_inodes0 id' ino' Hid') as (j & g & []). exists j, g. split; try done. rewrite ir_count0. unfold pending.
      by rewrite !bool_decide_eq_false_2 by congruence.
  - intros ns p id' Hp. destruct (re_pti0 ns p id' Hp) as (ino' & Hi' & Hns & Hpath). cbn [opens set_opens inodes set_inodes].
    destruct (decide (id' = id)) as [->|Hne]; [rewrite lookup_insert_eq|rewrite lookup_insert_ne by done; eauto]. simplify_eq. by eexists.
  - intros id1 id2 j H1 H2. cbn [opens set_opens inodes set_inodes]. rewrite !lookup_insert_is_Some'. intros H3 H4.
    eapply re_inj0; [done|done|destruct H3 as [<-|?]|destruct H4 as [<-|?]]; try done; by exists ino.
  - intros h. specialize (re_handles0 h). unfold handle_rel in *. cbn [opens set_opens set_inodes handles next_handle inodes].
    destruct (handles (opens l) !! h), (descriptors s !! h); try done. destruct re_handles0 as (? & ? & ? & ? & ? & ?). split_and!; try done.
    apply lookup_insert_is_Some'. by right.
  - cbn. lia.
Qed.

(** A new inode for a file whose name is not open. *)
Lemma rel_open_new φ l s ns p i fl b :
  rel_at φ None l s -> path_to_inode (opens l) !! (ns, p) = None -> name s ns p = Some (NFile i) ->
  files s !! i = Some (mkFile ns p b (mode fl)) -> stored l (content_addr fl) b -> has_room s = true ->
  exists l', alloc_inode (mkInode ns (Some p) (content_addr fl) (Codec.len b) (mode fl) 1) (Some (ns, p)) l = Some (Ok (next_inode (opens l)), l') /\
    let φ' := <[next_inode (opens l) := i]> φ in rel_at φ' (Some (next_inode (opens l))) l' s /\ φ' !! next_inode (opens l) = Some i.
Proof.
  intros HR Hp Hn Hf Hs Hroom. apply andb_true_iff in Hroom as [Hroom%N.ltb_lt _]. eexists. split; [reflexivity|].
  cbv zeta. remember (next_inode (opens l)) as id eqn:Eid. split; [|apply lookup_insert_eq]. pose proof HR as []. assert (Hdead : inodes (opens l) !! id = None).
  { destruct (inodes (opens l) !! id) as [ino|] eqn:Ei; [|done]. pose proof (inode_lt φ None l s id ino HR Ei). lia. }
  assert (Hnext : as_u64 (id + 1) = id + 1). { unfold as_u64. apply N.mod_small. unfold u64_max in *. lia. }
  assert (Hphi : forall id', is_Some (inodes (opens l) !! id') -> <[id := i]> φ !! id' = φ !! id').
  { intros id' [ino' Hi']. apply lookup_insert_ne. intros <-. congruence. }
  assert (Hlk : linked s i (mkFile ns p b (mode fl)) = true) by by apply linked_true.
  split; try done; rewrite ?Hnext.
  - intros id' ino'. cbn [opens set_opens inodes]. intros [[<- <-]|[Hne Hid']]%lookup_insert_Some.
    + exists i, (mkFile ns p b (mode fl)). split; try done; cbn [opens set_opens path_to_inode next_inode handles open_count i_path f_ns f_path].
      * apply lookup_insert_eq.
      * by rewrite Hlk.
      * intros _. apply lookup_insert_eq.
      * rewrite ?Hnext. lia.
      * rewrite (dead_count φ None l s id HR Hdead). unfold pending. by rewrite bool_decide_eq_true_2.
    + destruct (re_inodes0 id' ino' Hid') as (j & g & Hir). pose proof Hir as []. exists j, g.
      split; try done; cbn [opens set_opens path_to_inode next_inode handles].
      * rewrite Hphi; [done|by eexists].
      * intros Hl. rewrite lookup_insert_ne; [auto|]. intros Heq. specialize (ir_pti0 Hl). rewrite <- Heq in ir_pti0. congruence.
      * rewrite ?Hnext. lia.
      * rewrite ir_count0. unfold pending. by rewrite !bool_decide_eq_false_2 by congruence.
  - intros ns' p' id'. cbn [opens set_opens path_to_inode inodes]. intros [[[= <- <-] <-]|[Hne Hpp]]%lookup_insert_Some.
    + rewrite lookup_insert_eq. by eexists.
    + destruct (re_pti0 ns' p' id' Hpp) as (ino' & Hi' & ?). exists ino'. rewrite lookup_insert_ne; [done|]. intros <-. congruence.
  - intros id1 id2 j H1 H2. cbn [opens set_opens inodes]. intros [H3|H3]%lookup_insert_is_Some [H4|H4]%lookup_insert_is_Some.
    + congruence.
    + destruct H4 as [Hne H4]. rewrite Hphi in H2 by done. subst id1. rewrite lookup_insert_eq in H1. injection H1 as <-.
      destruct H4 as [ino2 H4]. apply (inode_of_name φ None l s ns p i HR Hn id2 ino2 H4) in H2. congruence.
    + destruct H3 as [Hne H3]. rewrite Hphi in H1 by done. subst id2. rewrite lookup_insert_eq in H2. injection H2 as <-.
      destruct H3 as [ino1 H3]. apply (inode_of_name φ None l s ns p i HR Hn id1 ino1 H3) in H1. congruence.
    + destruct H3 as [_ H3], H4 as [_ H4]. rewrite Hphi in H1, H2 by done. by eapply re_inj0.
  - intros h. specialize (re_handles0 h). unfold handle_rel in *. cbn [opens set_opens handles next_handle inodes].
    destruct (handles (opens l) !! h), (descriptors s !! h); try done. destruct re_handles0 as (? & ? & ? & ? & ? & ?). split_and!; try done.
    + by rewrite Hphi.
    + apply lookup_insert_is_Some'. by right.
  - cbn. rewrite ?Hnext. lia.
Qed.

(** A handle for the pending opening. *)
Lemma rel_handle φ l s id ino i m :
  rel_at φ (Some id) l s -> inodes (opens l) !! id = Some ino -> φ !! id = Some i -> has_room s = true ->
  exists l', alloc_handle (mkOpenHandle id 0 m) l = Some (Ok (next_descriptor s), l') /\
    rel_at φ None l' (set_descriptors s (<[next_descriptor s := mkDescriptor i 0 m]> (descriptors s)) (next_descriptor s + 1)).
Proof.
  intros HR Hid Hphi Hroom. apply andb_true_iff in Hroom as [Hroom%N.ltb_lt _]. pose proof HR as []. unfold alloc_handle. rewrite re_next0.
  eexists. split; [reflexivity|]. set (h0 := next_descriptor s) in *.
  assert (Hnext : as_u64 (h0 + 1) = h0 + 1). { unfold as_u64. apply N.mod_small. unfold u64_max in *. lia. }
  assert (Hfree : handles (opens l) !! h0 = None).
  { destruct (handles (opens l) !! h0) as [o|] eqn:Eo; [|done]. specialize (re_handles0 h0). rewrite Eo in re_handles0. unfold handle_rel in re_handles0.
    destruct (descriptors s !! h0); [|done]. destruct re_handles0 as (_ & _ & _ & _ & Hlt & _). lia. }
  split; try done; rewrite ?Hnext.
  - intros id' ino' Hid'. destruct (re_inodes0 id' ino' Hid') as (j & g & []). exists j, g. split; try done.
    cbn [opens set_opens handles]. rewrite count_insert by done. cbn [h_inode]. rewrite ir_count0. unfold pending.
    rewrite (bool_decide_eq_false_2 (None = Some id')) by done. destruct (decide (id = id')) as [<-|Hne].
    + rewrite !bool_decide_eq_true_2 by done. lia.
    + rewrite !bool_decide_eq_false_2 by congruence. lia.
  - intros h. cbn [opens set_opens handles descriptors set_descriptors]. destruct (decide (h = h0)) as [->|Hne].
    + rewrite !lookup_insert_eq. cbn. split_and!; [done..|by exists ino|lia|done].
    + rewrite !lookup_insert_ne by done. specialize (re_handles0 h). unfold handle_rel in *. cbn [opens set_opens next_handle inodes].
      destruct (handles (opens l) !! h), (descriptors s !! h); try done. destruct re_handles0 as (? & ? & ? & ? & ? & ?). split_and!; try done. lia.
  - cbn in *. lia.
Qed.

Lemma rel_cursor φ l s h o d (f : N -> N) off :
  rel_at φ None l s -> handles (opens l) !! h = Some o -> descriptors s !! h = Some d -> f (h_offset o) = off -> off <= u64_max ->
  rel_at φ None (set_opens l (set_handles (opens l) (<[h := mkOpenHandle (h_inode o) (f (h_offset o)) (h_mode o)]> (handles (opens l)))))
    (set_descriptors s (<[h := mkDescriptor (d_file d) off (d_mode d)]> (descriptors s)) (next_descriptor s)).
Proof.
  intros HR Ho Hd Hf Hoff. pose proof HR as []. split; try done.
  - intros id ino Hid. destruct (re_inodes0 id ino Hid) as (j & g & []). exists j, g. split; try done. cbn [opens set_opens set_handles handles].
    rewrite (count_update id _ h o); done.
  - intros h'. cbn [opens set_opens set_handles handles descriptors set_descriptors]. destruct (decide (h' = h)) as [->|Hne].
    + rewrite !lookup_insert_eq. specialize (re_handles0 h). rewrite Ho, Hd in re_handles0. destruct re_handles0 as (? & ? & ? & ? & ? & ?). by cbn.
    + rewrite !lookup_insert_ne by done. apply re_handles0.
Qed.

(** The openings left of an inode that loses a handle. *)
Lemma close_count φ l s h o id ino i f :
  inode_rel l s φ None id ino i f -> handles (opens l) !! h = Some o ->
  N.of_nat (count id (delete h (handles (opens l)))) = if bool_decide (h_inode o = id) then open_count ino - 1 else open_count ino.
Proof.
  intros [] Ho. rewrite ir_count0. unfold pending. rewrite (bool_decide_eq_false_2 (None = Some id)) by done. rewrite (count_delete id _ h o Ho). case_bool_decide; lia.
Qed.

(** Closing: the inode keeps its other handles, or goes away with its path. *)
Record closes l (h id : N) (o' : Opens) : Prop := {
  cl_handles : handles o' = delete h (handles (opens l));
  cl_next : next_inode o' = next_inode (opens l) /\ next_handle o' = next_handle (opens l);
  cl_inodes id' : inodes o' !! id' = if bool_decide (id' = id)
    then ino ← inodes (opens l) !! id; if open_count ino - 1 =? 0 then None
      else Some (mkInode (i_ns ino) (i_path ino) (i_addr ino) (i_size ino) (i_mode ino) (open_count ino - 1))
    else inodes (opens l) !! id';
  cl_pti ns p : path_to_inode o' !! (ns, p) = match inodes (opens l) !! id with
    | Some ino => if (open_count ino - 1 =? 0) && bool_decide (i_ns ino = ns /\ i_path ino = Some p) then None else path_to_inode (opens l) !! (ns, p)
    | None => path_to_inode (opens l) !! (ns, p) end;
}.

Lemma close_closes l h id : closes l h id (close_inode (set_handles (opens l) (delete h (handles (opens l)))) id).
Proof.
  unfold close_inode. cbn [set_handles inodes]. destruct (inodes (opens l) !! id) as [ino|] eqn:Ei.
  - destruct (N.eqb_spec (open_count ino - 1) 0) as [Hz|Hz]; split; try done.
    + intros id'. cbn. destruct (decide (id' = id)) as [->|Hne].
      * rewrite lookup_delete_eq, bool_decide_eq_true_2 by done. rewrite Ei. cbn. by rewrite Hz.
      * by rewrite lookup_delete_ne, bool_decide_eq_false_2 by done.
    + intros ns p. rewrite Ei, Hz. cbn. destruct (i_path ino) as [q|]; cbn; [|by rewrite bool_decide_eq_false_2 by (intros [? ?]; done)].
      case_bool_decide as Hb; [destruct Hb as [<- [= <-]]; apply lookup_delete_eq|]. apply lookup_delete_ne. intros [= <- <-]. by apply Hb.
    + intros id'. cbn. destruct (decide (id' = id)) as [->|Hne].
      * rewrite lookup_insert_eq, bool_decide_eq_true_2 by done. rewrite Ei. cbn. by rewrite (proj2 (N.eqb_neq _ _) Hz).
      * by rewrite lookup_insert_ne, bool_decide_eq_false_2 by done.
    + intros ns p. rewrite Ei. by rewrite (proj2 (N.eqb_neq _ _) Hz).
  - split; try done; [|by intros; rewrite Ei]. intros id'. cbn. case_bool_decide as Hb; [by subst; rewrite Ei|done].
Qed.

(** What is left of the inodes. *)
Lemma close_survives l h id o' id' ino' :
  closes l h id o' -> inodes o' !! id' = Some ino' -> exists ino, inodes (opens l) !! id' = Some ino /\
    ino' = mkInode (i_ns ino) (i_path ino) (i_addr ino) (i_size ino) (i_mode ino) (if bool_decide (id = id') then open_count ino - 1 else open_count ino) /\
    (id = id' -> open_count ino - 1 <> 0).
Proof.
  intros [_ _ Hi _]. rewrite Hi. case_bool_decide as Hb.
  - subst id'. destruct (inodes (opens l) !! id) as [ino|] eqn:Ei; [|done]. cbn. destruct (N.eqb_spec (open_count ino - 1) 0); [done|].
    intros [= <-]. exists ino. rewrite bool_decide_eq_true_2 by done. done.
  - intros Hid. exists ino'. rewrite bool_decide_eq_false_2 by congruence. split; [done|]. split; [by destruct ino'|congruence].
Qed.

(** A surviving inode that has a name is still the one of the name. *)
Lemma close_keeps_pti φ l s h id o' id' ino i f :
  rel_at φ None l s -> closes l h id o' -> inodes (opens l) !! id' = Some ino -> inode_rel l s φ None id' ino i f ->
  (id = id' -> open_count ino - 1 <> 0) -> linked s i f = true -> path_to_inode o' !! (f_ns f, f_path f) = Some id'.
Proof.
  intros HR [_ _ _ Hp] Hino Hir Hz Hl. pose proof (ir_pti _ _ _ _ _ _ _ _ Hir Hl) as Hpt. rewrite Hp.
  destruct (inodes (opens l) !! id) as [ino2|] eqn:E2; [|done]. destruct (N.eqb_spec (open_count ino2 - 1) 0) as [Hz2|]; [|done].
  cbn [andb]. case_bool_decide as Hb; [|done]. destruct Hb as [Hns2 Hp2]. destruct (re_inodes _ _ _ _ HR _ _ E2) as (i2 & f2 & Hir2).
  assert (Hpt2 : path_to_inode (opens l) !! (f_ns f, f_path f) = Some id).
  { apply (pti_linked φ None l s _ _ _ _ _ _ HR Hir2). pose proof (ir_path _ _ _ _ _ _ _ _ Hir2) as Hpa. rewrite Hp2 in Hpa.
    rewrite (ir_ns _ _ _ _ _ _ _ _ Hir2) in Hns2. destruct (linked s i2 f2); [|done]. injection Hpa as <-. done. }
  rewrite Hpt in Hpt2. injection Hpt2 as ->. assert (ino2 = ino) as -> by congruence. by destruct (Hz eq_refl).
Qed.

Lemma rel_close φ l s h o d :
  rel_at φ None l s -> handles (opens l) !! h = Some o -> descriptors s !! h = Some d ->
  rel_at φ None (set_opens l (close_inode (set_handles (opens l) (delete h (handles (opens l)))) (h_inode o)))
    (set_descriptors s (delete h (descriptors s)) (next_descriptor s)).
Proof.
  intros HR Ho Hd. pose proof HR as []. pose proof (close_closes l h (h_inode o)) as Hcl. set (o' := close_inode _ _) in *. clearbody o'.
  pose proof (close_survives l h (h_inode o) o') as Hsurv. pose proof Hcl as [Hh [Hni Hnh] Hi Hp].
  split; try done; cbn [opens set_opens]; rewrite ?Hh, ?Hni, ?Hnh; try done.
  - intros id' ino' Hid'. destruct (Hsurv id' ino' Hcl Hid') as (ino & Hino & -> & Hz). destruct (re_inodes0 id' ino Hino) as (i & f & Hir).
    exists i, f. pose proof Hir as []. split; try done; cbn [opens set_opens]; rewrite ?Hh, ?Hni; try done.
    + intros Hl. by apply (close_keeps_pti φ l s h (h_inode o) o' id' ino i f).
    + cbn [open_count]. unfold pending. rewrite (bool_decide_eq_false_2 (None = Some id')) by done.
      pose proof (close_count φ l s h o id' ino i f Hir Ho) as Hc. destruct (bool_decide (h_inode o = id')); lia.
    + cbn [open_count]. case_bool_decide as Hb; [specialize (Hz Hb); lia|done].
  - intros ns p id' Hpp. rewrite Hp in Hpp. destruct (inodes (opens l) !! h_inode o) as [ino2|] eqn:E2.
    + destruct ((open_count ino2 - 1 =? 0) && bool_decide (i_ns ino2 = ns /\ i_path ino2 = Some p)) eqn:Ec; [done|].
      destruct (re_pti0 ns p id' Hpp) as (ino & Hino & Hns & Hpath). rewrite Hi. destruct (decide (id' = h_inode o)) as [->|Hne];
        [rewrite bool_decide_eq_true_2 by done|rewrite bool_decide_eq_false_2 by done; by exists ino]. cbn.
      assert (ino2 = ino) as -> by congruence. rewrite (bool_decide_eq_true_2 (i_ns ino = ns /\ i_path ino = Some p)) in Ec by done.
      rewrite andb_true_r in Ec. rewrite Ec. by eexists.
    + destruct (re_pti0 ns p id' Hpp) as (ino & Hino & ?). exists ino. rewrite Hi. rewrite bool_decide_eq_false_2; [done|congruence].
  - intros id1 id2 j H1 H2 [ino1 H3] [ino2 H4]. destruct (Hsurv _ _ Hcl H3) as (x1 & ? & _), (Hsurv _ _ Hcl H4) as (x2 & ? & _). eapply re_inj0; eauto.
  - intros h'. cbn [descriptors set_descriptors]. destruct (decide (h' = h)) as [->|Hne]; [by rewrite !lookup_delete_eq|].
    rewrite !lookup_delete_ne by done. specialize (re_handles0 h'). unfold handle_rel in *. cbn [opens set_opens]. rewrite ?Hnh.
    destruct (handles (opens l) !! h') as [o2|] eqn:Eo2, (descriptors s !! h'); try done. destruct re_handles0 as (? & ? & ? & [ino Hino] & ? & ?). split_and!; try done.
    rewrite Hi. case_bool_decide as Hb; [|by eexists]. rewrite <- Hb, Hino. cbn. destruct (N.eqb_spec (open_count ino - 1) 0) as [Hz|]; [|by eexists].
    destruct (re_inodes0 _ _ Hino) as (i & f & Hir). pose proof (close_count φ l s h o _ ino i f Hir Ho) as Hc. rewrite bool_decide_eq_true_2 in Hc by done.
    rewrite Hz in Hc. assert (Hc0 : count (h_inode o2) (delete h (handles (opens l))) = 0%nat) by lia.
    exfalso. apply (proj1 (count_zero _ _) Hc0 h' o2); [by rewrite lookup_delete_ne|done].
Qed.

End Refine.

End EnginePosix.
