(* ===== verification/FileRefine.v ===== *)
(** * The file operations refine their specification

    Every operation on files and handles returns on related states what [Posix] says, and leaves related
    states ([FileRefine]). The operations on directories are related in two steps ([DirRefine]): the facade does on the
    engine what it does on the file operations of the specification, and there it does what the specification
    says of directories and subtrees. *)

From S2P Require Import Prelude Codec Types Workspace Object Store Acl VcsTree VcsPath VcsHistory VcsContent VcsEdit EnginePosix Registry Effect Engine EngineFiles EngineFs Posix.

Module FileRefine.
Import Error Digest Store Acl VcsTree VcsPath VcsContent VcsContentProps VcsEdit ContentLaws Registry Effect Engine EngineFiles EngineFs Posix EnginePosix.

(** ** Directories above a path *)

Lemma elem_of_above p q : q ∈ above p <-> exists r, p = q ++ slash :: r.
Proof.
  revert q. induction p as [|c p IH]; intros q; cbn [above].
  { split; [by intros ?%not_elem_of_nil|]. intros [r E]. by destruct q. }
  rewrite elem_of_app, list_elem_of_fmap. setoid_rewrite IH. case_bool_decide as Hc.
  - rewrite list_elem_of_singleton. split; [intros [->|(q' & -> & r & ->)]; [exists p; by rewrite Hc|by exists r]|].
    intros [r E]. destruct q as [|c' q]; [by left|]. right. injection E as <- ->. eauto.
  - split; [intros [?%not_elem_of_nil|(q' & -> & r & ->)]; [done|by exists r]|].
    intros [r E]. destruct q as [|c' q]; [by injection E|]. right. injection E as <- ->. eauto.
Qed.

Lemma above_slash a b : above (a ++ slash :: b) = above a ++ a :: map (app (a ++ [slash])) (above b).
Proof.
  induction a as [|c a IH]; cbn [above app]; [by rewrite bool_decide_eq_true_2|]. rewrite IH, <-app_assoc, !map_app, map_cons, map_map. done.
Qed.

Lemma above_plain p : slash ∉ p -> above p = [].
Proof.
  intros H. destruct (above p) as [|q l] eqn:E; [done|]. destruct (proj1 (elem_of_above p q)) as [r ->]; [rewrite E; by left|]. set_solver.
Qed.

Lemma has_dir_exists s ns p : dir_exists (fs_dirs s) ns p = has_dir s ns p.
Proof. unfold dir_exists, has_dir, dirs_in. symmetry. rewrite bool_decide_or. done. Qed.

Lemma has_parent_exists s ns p : parent_exists (fs_dirs s) ns p = has_parent s ns p.
Proof.
  unfold parent_exists, has_parent. destruct (rsplit_once p) as [[a b]|] eqn:E.
  - apply rsplit_once_Some in E as [-> Hb]. rewrite above_slash, (above_plain b Hb). cbn [map]. rewrite last_snoc. apply has_dir_exists.
  - apply rsplit_once_None in E. by rewrite (above_plain p E).
Qed.

Lemma target_free_check s ns p : check_file_target (fs_dirs s) ns p = target_free s ns p.
Proof.
  unfold check_file_target, target_free. rewrite has_dir_exists, has_parent_exists. by destruct (has_dir s ns p), (has_parent s ns p).
Qed.

Section Refine.
Context `{hasher : Hasher} {S : Type} `{ops : !ObjectStore S} (storable : bytes -> bool) {cok : Contents S -> Prop}
  `{claws : !ContentLaws (fun b => fits storable b = true) cok} {U : bytes -> Prop} {ok : S -> Prop} `{laws : !StoreLaws S U ok}.
Abbreviation Loom := (Loom (S := S)).
Abbreviation rel := (EnginePosix.rel storable (cok := cok)).
Abbreviation rel_at := (EnginePosix.rel_at storable (cok := cok)).
Abbreviation stored := (EnginePosix.stored storable).
Abbreviation fits := (Posix.fits storable).
Abbreviation agree := (fun u v l s => u = v /\ rel l s).
Implicit Types (l : Loom) (s : Fs) (ns p b : bytes) (φ : gmap N N) (x : option N).

(** ** Reads of a name *)

Definition old_bytes (o : option File) : bytes := match o with Some f => f_bytes f | None => [] end.
Definition old_mode (o : option File) : N := match o with Some f => f_mode f | None => DEFAULT_FILE_MODE end.

Lemma file_slot_spec φ x l s ns p :
  rel_at φ x l s ->
  match lookup_file s ns p with
  | Ok (Some f) => exists addr, file_slot l ns p = Ok (Some (addr, f_mode f)) /\ stored l addr (f_bytes f)
  | Ok None => file_slot l ns p = Ok None
  | Err e => file_slot l ns p = Err e
  end.
Proof.
  intros HR. pose proof (re_slots _ _ _ _ _ HR ns p) as H. unfold lookup_file, file_slot, slot_rel in *.
  destruct (work_slot l ns p) as [[f| | | | | | |]|], (name s ns p) as [[i|e]|]; try done; try (by destruct H as [_ H]; destruct (H f)).
  destruct H as (b & -> & Hs). by exists (content_addr f).
Qed.

Lemma access_rel l s : rel l s -> access l = fs_access s.
Proof. by intros [φ []]. Qed.
Lemma dirs_rel l s : rel l s -> dirs l = fs_dirs s.
Proof. by intros [φ []]. Qed.

(** ** Steps *)

Lemma store_step b : simh rel rel (m_store_content b) (assume_fits storable b) (fun addr _ l s => rel l s /\ stored l addr b).
Proof.
  intros l s r s' [φ HR] H. unfold assume_fits in H. destruct (Posix.fits storable b) eqn:Hb; [|done]. injection H as <- <-.
  destruct (rel_store storable φ None l s b HR Hb) as (addr & c & E & HR' & Hs). unfold m_store_content. rewrite E.
  eexists _, _. split; [done|]. split; [by exists φ|done].
Qed.

Lemma put_step ns p b m addr sz :
  simh rel (fun l s => (rel l s /\ stored l addr b) /\ sz = Codec.len b) (m_modify (fun l => put_file_slot l ns p addr sz m)) (m_modify (fun s => put s ns p b m))
    agree.
Proof. apply simh_modify. intros l s [[[φ HR] Hs] ->]. split; [done|]. exists φ. by apply rel_put. Qed.

Lemma edit_step φ x l s plan old :
  rel_at φ x l s -> source (contents l) (ep_src plan) old -> planned old plan -> fits (edited old plan) = true ->
  exists addr c, m_edit_content plan l = Some (Ok (addr, Codec.len (edited old plan)), set_contents l c) /\
    rel_at φ x (set_contents l c) s /\ stored (set_contents l c) addr (edited old plan).
Proof.
  intros HR Hsrc Hplan Hfit. destruct (rel_store storable φ x l s _ HR Hfit) as (addr & c & E & HR' & Hs).
  exists addr, c. unfold m_edit_content. rewrite (build_edited_spec (U := U) (ok := ok) _ _ old Hsrc Hplan), E. done.
Qed.

Lemma fits_len b : fits b = true -> Codec.len b + BLOCK <= u64_max.
Proof. intros [_ H]%andb_true_iff. by apply N.leb_le in H. Qed.

Lemma write_planned src old offset data :
  fits (written old offset data) = true -> planned old (plan_write src (Codec.len old) offset data).
Proof.
  intros H%fits_len. assert (Codec.len (written old offset data) = N.max (Codec.len old) (offset + Codec.len data)) as Hl.
  { unfold Codec.len. rewrite length_written. lia. }
  unfold planned, plan_write, edited. cbn [ep_kind old_size new_size]. rewrite as_u64_id, Hl by lia. lia.
Qed.

Lemma truncate_planned src old size : fits (resized old size) = true -> planned old (plan_truncate src (Codec.len old) size).
Proof.
  intros H%fits_len. assert (Codec.len (resized old size) = size) as Hl by (unfold Codec.len; rewrite length_resized; lia).
  unfold planned, plan_truncate, edited. cbn [ep_kind old_size new_size]. rewrite Hl. lia.
Qed.

(** ** Tactics *)

(** One step that both sides take alike. *)
Ltac same :=
  lazymatch goal with
  | |- simh _ _ (m_bind (m_lift _) _) (m_bind (m_lift _) _) _ => apply simh_lift_bind; [done|intros ? _]
  | |- simh _ _ (m_bind (m_read _) _) (m_bind (m_read _) _) _ => apply simh_read_bind; [intros ? ? ?; split; [done|]|intros ?]
  | |- simh _ _ (m_bind (m_guard _ _) _) (m_bind (m_guard _ _) _) _ => apply simh_guard_bind; [done|intros _]
  | |- simh _ _ _ (m_bind (m_ret ?x) ?k) _ => change (m_bind (m_ret x) k) with (k x); cbv beta
  | |- simh _ _ _ (m_bind (m_bind _ _) _) _ => apply simh_assoc_r
  | |- simh _ _ (m_bind (m_bind _ _) _) _ _ => apply simh_assoc
  end.
Ltac by_access := match goal with H : EnginePosix.rel _ ?l ?s |- _ => by rewrite (access_rel l s H) end.
Ltac by_dirs := match goal with H : EnginePosix.rel _ ?l ?s |- _ => by rewrite (dirs_rel l s H), ?target_free_check, ?has_dir_exists, ?has_parent_exists end.

(** ** Whole files *)

Lemma write_norm_sim ns p b m : simh rel rel (write_file_norm ns p b m) (p_write_norm storable ns p b m) agree.
Proof.
  unfold write_file_norm, p_write_norm. same; [by_dirs|]. eapply simh_bind; [apply store_step|]. intros addr ?.
  eapply simh_pre; [|apply (put_step _ _ b)]. done.
Qed.

Lemma write_file_sim ns p b m : sim rel (write_file ns p b m) (p_write_file storable ns p b m).
Proof. apply simh_sim. unfold write_file, p_write_file, p_target, auth_path, p_auth_path. repeat same; [by_access|]. apply write_norm_sim. Qed.

Lemma write_file_reserved_sim ns p b m : sim rel (write_file_reserved ns p b m) (p_write_file_reserved storable ns p b m).
Proof. apply simh_sim. unfold write_file_reserved, p_write_file_reserved. same. apply write_norm_sim. Qed.

Lemma read_sim ns p : simh rel rel (read_file_norm ns p) (m_read (fun s => f ← p_found s ns p; Ok (f_bytes f))) agree.
Proof.
  apply simh_read. intros l s HR. pose proof HR as [φ HR']. pose proof (file_slot_spec φ None l s ns p HR') as H. unfold p_found.
  destruct (lookup_file s ns p) as [[f|]|e]; cbn [mbind result_bind ok_or]; [|by rewrite H|by rewrite H].
  destruct H as (addr & -> & Hs & _). cbn [mbind result_bind]. by rewrite (load_holds _ _ _ Hs).
Qed.

Lemma read_file_sim ns p : sim rel (read_file ns p) (p_read_file ns p).
Proof. apply simh_sim. unfold read_file, p_read_file, auth_path, p_auth_path. repeat same; [by_access|]. apply read_sim. Qed.

Lemma read_file_reserved_sim ns p : sim rel (read_file_reserved ns p) (p_read_file_reserved ns p).
Proof. apply simh_sim. unfold read_file_reserved, p_read_file_reserved. same. apply read_sim. Qed.

Lemma unlink_sim ns p : simh rel rel (remove_file_norm ns p) (m_modify (fun s => Posix.unlink s ns p)) agree.
Proof. apply simh_modify. intros l s [φ HR]. split; [done|]. exists φ. by apply rel_unlink. Qed.

Lemma remove_file_sim ns p : sim rel (remove_file ns p) (p_remove_file ns p).
Proof. apply simh_sim. unfold remove_file, p_remove_file, p_target, auth_path, p_auth_path. repeat same; [by_access|]. apply unlink_sim. Qed.

Lemma remove_file_reserved_sim ns p : sim rel (remove_file_reserved ns p) (p_remove_file_reserved ns p).
Proof. apply simh_sim. unfold remove_file_reserved, p_remove_file_reserved. same. apply unlink_sim. Qed.

Lemma name_slot l s ns p : rel l s -> is_Some (work_slot l ns p) <-> is_Some (name s ns p).
Proof.
  intros [φ HR]. pose proof (re_slots _ _ _ _ _ HR ns p) as H. unfold slot_rel in H.
  destruct (work_slot l ns p) as [[f| | | | | | |]|], (name s ns p) as [[i|e]|]; try done; split; intros [? ?]; by eexists.
Qed.

Lemma symlink_sim ns target p : sim rel (symlink ns target p) (p_symlink storable ns target p).
Proof.
  apply simh_sim. unfold symlink, p_symlink. repeat same.
  { match goal with H : EnginePosix.rel _ ?l ?s |- _ => rewrite (dirs_rel l s H), has_dir_exists, has_parent_exists end. erewrite bool_decide_ext; [done|by apply name_slot]. }
  eapply simh_bind; [apply store_step|]. intros addr ?. eapply simh_pre; [|apply (put_step _ _ target)]. done.
Qed.

Lemma read_link_sim ns p : sim rel (read_link ns p) (p_read_link ns p).
Proof.
  apply simh_sim. unfold read_link, p_read_link. same. apply simh_read. intros l s HR. pose proof HR as [φ HR'].
  pose proof (re_slots _ _ _ _ _ HR' ns x) as H. unfold lookup_file, slot_rel in *.
  destruct (work_slot l ns x) as [[f| | | | | | |]|], (name s ns x) as [[i|e]|]; try done; try (by destruct H as [_ H]; destruct (H f)).
  destruct H as (b & -> & Hs & _). cbn [mbind result_bind ok_or f_mode f_bytes]. rewrite (load_holds _ _ _ Hs). cbn [mbind result_bind].
  destruct (is_symlink_mode (mode f)); [|done]. cbn [negb]. by destruct (valid_utf8 b).
Qed.

(** ** Byte ranges *)

Lemma range_step addr b offset len : simh rel (fun l s => rel l s /\ stored l addr b) (m_read_range addr offset len) (m_ret (range b offset len)) agree.
Proof.
  intros l s r s' [HR [Hs _]] [= <- <-]. unfold m_read_range. rewrite (read_holds _ _ _ _ _ Hs). eexists _, _. split; [done|]. done.
Qed.

Lemma read_at_sim ns p offset len : sim rel (read_at ns p offset len) (p_read_at ns p offset len).
Proof.
  apply simh_sim. unfold read_at, p_read_at, auth_path, p_auth_path. repeat same; [by_access|].
  intros l s r s' HR [= <- <-]. pose proof HR as [φ HR']. pose proof (file_slot_spec φ None l s ns x HR') as H. unfold p_found.
  unfold m_bind, m_read. destruct (lookup_file s ns x) as [[f|]|e]; cbn [mbind result_bind ok_or].
  - destruct H as (addr & -> & Hs). exact (range_step addr (f_bytes f) offset len l s _ s (conj HR Hs) eq_refl).
  - rewrite H. eexists _, _. done.
  - rewrite H. eexists _, _. done.
Qed.

(** ** Edits of a name *)

Definition edit_start (q : option Digest * N * N) (old : option File) l s : Prop :=
  rel l s /\ source (contents l) q.1.1 (old_bytes old) /\ q.1.2 = Codec.len (old_bytes old) /\ q.2 = old_mode old.

Lemma edit_source_sim ns p : simh rel rel (edit_source ns p) (m_read (fun s => lookup_file s ns p)) edit_start.
Proof.
  apply simh_read. intros l s HR. pose proof HR as [φ HR']. pose proof (file_slot_spec φ None l s ns p HR') as H.
  destruct (lookup_file s ns p) as [[f|]|e]; [|by rewrite H|by rewrite H].
  destruct H as (addr & -> & Hs & _). cbn [mbind result_bind]. by rewrite (size_holds _ _ _ Hs).
Qed.

Lemma edit_put_sim ns p (plan : option Digest -> N -> EditPlan) (f : bytes -> bytes) src sz m old :
  (forall src b, ep_src (plan src (Codec.len b)) = src /\ edited b (plan src (Codec.len b)) = f b) ->
  (forall src b, fits (f b) = true -> planned b (plan src (Codec.len b))) ->
  simh rel (edit_start (src, sz, m) old)
    ('(addr, size) ⟸ m_edit_content (plan src sz); m_modify (fun l => put_file_slot l ns p addr size m))
    (_ ⟸ assume_fits storable (f (old_bytes old)); m_modify (fun s => put s ns p (f (old_bytes old)) (old_mode old))) agree.
Proof.
  intros Hplan Hfit l s r s' ([φ HR] & Hsrc & Hsz & Hm) H. cbn [fst snd] in *. subst sz m. unfold m_bind, assume_fits in H.
  destruct (Posix.fits storable (f (old_bytes old))) eqn:Hb; [|done]. injection H as <- <-. destruct (Hplan src (old_bytes old)) as [Ep Ee].
  destruct (edit_step φ None l s (plan src (Codec.len (old_bytes old))) (old_bytes old)) as (addr & c & E & HR' & Hs); rewrite ?Ep, ?Ee; auto.
  unfold m_bind. rewrite E. eexists _, _. split; [reflexivity|]. rewrite Ee in *. split; [done|]. exists φ. by apply rel_put.
Qed.

Lemma edit_file_sim ns p (plan : option Digest -> N -> EditPlan) (f : bytes -> bytes) :
  (forall src b, ep_src (plan src (Codec.len b)) = src /\ edited b (plan src (Codec.len b)) = f b) ->
  (forall src b, fits (f b) = true -> planned b (plan src (Codec.len b))) ->
  sim rel (edit_file ns p plan) (p_edit storable ns p f).
Proof.
  intros Hplan Hfit. apply simh_sim. unfold edit_file, p_edit, p_target, auth_path, p_auth_path. repeat same; [by_access|by_dirs|].
  eapply simh_bind; [apply edit_source_sim|]. intros [[src sz] m] old. by apply edit_put_sim.
Qed.

Lemma write_at_sim ns p offset data : sim rel (write_at ns p offset data) (p_write_at storable ns p offset data).
Proof. apply edit_file_sim; [done|]. intros src b. apply write_planned. Qed.

Lemma truncate_file_sim ns p size : sim rel (truncate_file ns p size) (p_truncate_file storable ns p size).
Proof. apply edit_file_sim; [done|]. intros src b. apply truncate_planned. Qed.

Lemma append_file_sim ns p b : sim rel (append_file ns p b) (p_append_file storable ns p b).
Proof.
  apply simh_sim. unfold append_file, p_append_file, p_edit, p_target, auth_path, p_auth_path. repeat same; [by_access|by_dirs|].
  eapply (simh_bind _ _ _ _ _ _ (fun q old l s => rel l s /\ q = (old_bytes old, old_mode old))).
  - apply simh_read. intros l s HR. pose proof HR as [φ HR']. pose proof (file_slot_spec φ None l s ns x HR') as H.
    destruct (lookup_file s ns x) as [[f|]|e]; [|by rewrite H|by rewrite H].
    destruct H as (addr & -> & Hs & _). cbn [mbind result_bind]. by rewrite (load_holds _ _ _ Hs).
  - intros [old m] o. eapply simh_pre with (P' := fun l s => (old, m) = (old_bytes o, old_mode o) /\ rel l s); [tauto|].
    apply simh_extract. intros [= -> ->]. eapply simh_bind; [apply store_step|]. intros addr ?.
    eapply simh_pre; [|apply (put_step _ _ (old_bytes o ++ b))]. done.
Qed.

(** ** Handles *)

(** A handle, its descriptor, its inode and its file. *)
Record opened (h : N) (o : OpenHandle) (ino : Inode) (d : Descriptor) (f : File) l s : Prop := {
  op_rel : rel l s;
  op_handle : handles (opens l) !! h = Some o;
  op_descriptor : descriptors s !! h = Some d;
  op_offset : h_offset o = d_offset d /\ h_mode o = d_mode d /\ d_offset d <= u64_max;
  op_inode : exists φ, rel_at φ None l s /\ inodes (opens l) !! h_inode o = Some ino /\
    inode_rel storable l s φ None (h_inode o) ino (d_file d) f;
}.

Lemma opened_handle φ l s h o d :
  rel_at φ None l s -> handles (opens l) !! h = Some o -> descriptors s !! h = Some d -> exists ino f, opened h o ino d f l s.
Proof.
  intros HR Ho Hd. pose proof (re_handles _ _ _ _ _ HR h) as H. rewrite Ho, Hd in H. destruct H as (H1 & H2 & H3 & [ino Hino] & _ & H5).
  destruct (re_inodes _ _ _ _ _ HR _ _ Hino) as (i & f & Hir). pose proof (ir_phi _ _ _ _ _ _ _ _ _ Hir) as Hphi.
  rewrite H3 in Hphi. injection Hphi as <-. exists ino, f. split; [by exists φ|done|done|done|]. by exists φ.
Qed.

Lemma handle_lookup φ l s h : rel_at φ None l s ->
  (handles (opens l) !! h = None /\ descriptors s !! h = None) \/ exists o d, handles (opens l) !! h = Some o /\ descriptors s !! h = Some d.
Proof.
  intros HR. pose proof (re_handles _ _ _ _ _ HR h) as H. unfold handle_rel in H.
  destruct (handles (opens l) !! h) as [o|], (descriptors s !! h) as [d|]; try done; [right; by exists o, d|by left].
Qed.

Definition both_opened (h : N) (c : OpenHandle * Inode) (a : Descriptor * File) l s : Prop := opened h c.1 c.2 a.1 a.2 l s.

Lemma authorize_opened h o ino d f l s right :
  opened h o ino d f l s ->
  authorize_handle o right l = Some ((if linked s (d_file d) f then authorize_path (fs_access s) (f_ns f) (f_path f) right
    else authorize (fs_access s) (f_ns f) FacetKind.Files right), l).
Proof.
  intros [HR _ _ _ (φ & _ & Hino & Hir)]. unfold authorize_handle, handle_inode, m_bind, m_read. rewrite Hino. cbn [ok_or].
  rewrite (ir_path _ _ _ _ _ _ _ _ _ Hir), (ir_ns _ _ _ _ _ _ _ _ _ Hir). by destruct (linked s (d_file d) f); unfold auth_path, auth_facet, m_read; rewrite (access_rel l s HR).
Qed.

Lemma checked_opened h o ino d f l s ok_mode right :
  opened h o ino d f l s ->
  let auth := if linked s (d_file d) f then authorize_path (fs_access s) (f_ns f) (f_path f) (right (d_mode d))
              else authorize (fs_access s) (f_ns f) FacetKind.Files (right (d_mode d)) in
  let check := fun (A : Type) (v : A) => if negb (ok_mode (d_mode d)) then Err InvalidArgument else match auth with Ok _ => Ok v | Err e => Err e end in
  checked_handle h ok_mode right l = Some (check _ (o, ino), l) /\ p_handle h ok_mode right s = Some (check _ (d, f), s).
Proof.
  intros Hop auth check. pose proof Hop as [_ Ho Hd (_ & Hm & _) (φ & _ & Hino & Hir)].
  unfold checked_handle, p_handle, handle_of, handle_inode, m_bind, m_read, m_guard, m_ret. rewrite Ho, Hd. cbn [ok_or]. rewrite Hm.
  subst check. cbv beta. destruct (negb (ok_mode (d_mode d))); [done|]. rewrite (authorize_opened h o ino d f l s _ Hop), Hino, (ir_file _ _ _ _ _ _ _ _ _ Hir).
  fold auth. cbn [ok_or mbind result_bind]. fold auth. by destruct auth.
Qed.

Lemma checked_sim h ok_mode right : simh rel rel (checked_handle h ok_mode right) (p_handle h ok_mode right) (both_opened h).
Proof.
  intros l s r s' HR H. pose proof HR as [φ HR']. destruct (handle_lookup φ l s h HR') as [[Ho Hd]|(o & d & Ho & Hd)].
  { unfold checked_handle, p_handle, handle_of, m_bind, m_read in *. rewrite Hd in H. rewrite Ho. injection H as <- <-. by eexists _, _. }
  destruct (opened_handle φ l s h o d HR' Ho Hd) as (ino & f & Hop). destruct (checked_opened h o ino d f l s ok_mode right Hop) as [-> E].
  rewrite E in H. injection H as <- <-. eexists _, _. split; [done|]. destruct (negb _); [done|]. by destruct (if linked _ _ _ then _ else _).
Qed.

Lemma opened_stored h o ino d f l s :
  opened h o ino d f l s -> rel l s /\ stored l (i_addr ino) (f_bytes f) /\ i_size ino = Codec.len (f_bytes f) /\ i_mode ino = f_mode f.
Proof. intros [HR _ _ _ (φ & _ & _ & [])]. done. Qed.

Lemma cursor_step h o d (g : N -> N) off (A : Type) (r : A) :
  g (h_offset o) = off -> off <= u64_max ->
  simh rel (fun l s => rel l s /\ handles (opens l) !! h = Some o /\ descriptors s !! h = Some d)
    (_ ⟸ move_cursor h g; m_ret r) (_ ⟸ seek h off; m_ret r) agree.
Proof.
  intros Hg Hoff l s r' s' ([φ HR] & Ho & Hd) H. unfold m_bind, move_cursor, seek, m_modify, m_ret in *. rewrite Hd in H. injection H as <- <-.
  rewrite Ho. eexists _, _. split; [done|]. split; [done|]. exists φ. by apply rel_cursor.
Qed.

Lemma range_len b offset len : Codec.len (range b offset len) = N.min (offset + len) (Codec.len b) - offset.
Proof. unfold range, sub, Codec.len. rewrite length_take, length_drop. lia. Qed.

Lemma file_read_sim h len : sim rel (file_read h len) (p_file_read h len).
Proof.
  apply simh_sim. unfold file_read, p_file_read. eapply simh_bind; [apply checked_sim|]. intros [o ino] [d f].
  eapply (simh_left _ _ (fun data l s => data = range (f_bytes f) (d_offset d) len /\ opened h o ino d f l s)).
  - intros l s Hop. unfold both_opened in Hop. cbn [fst snd] in Hop. destruct (opened_stored _ _ _ _ _ _ _ Hop) as (_ & [Hs _] & _).
    pose proof (op_offset _ _ _ _ _ _ _ Hop) as (-> & _). unfold m_read_range. rewrite (read_holds _ _ _ _ _ Hs). by eexists _, _.
  - intros data. apply simh_extract. intros ->. cbv zeta. intros l s r s' Hop. apply (cursor_step h o d); [| |by destruct Hop].
    + destruct Hop as [_ _ _ (-> & _ & Ho) (φ & _ & _ & [])]. apply as_u64_id. rewrite range_len. destruct ir_stored0 as [_ ?%fits_len]. lia.
    + destruct Hop as [_ _ _ (_ & _ & Ho) (φ & _ & _ & [])]. rewrite range_len. destruct ir_stored0 as [_ ?%fits_len]. lia.
Qed.

Lemma file_read_at_sim h offset len : sim rel (file_read_at h offset len) (p_file_read_at h offset len).
Proof.
  apply simh_sim. unfold file_read_at, p_file_read_at. eapply simh_bind; [apply checked_sim|]. intros [o ino] [d f].
  eapply simh_pre; [|apply range_step]. intros l s Hop. by destruct (opened_stored _ _ _ _ _ _ _ Hop) as (? & ? & _).
Qed.

Lemma file_stat_sim h : sim rel (file_stat h) (p_file_stat h).
Proof.
  apply simh_sim. unfold file_stat, p_file_stat. eapply simh_bind; [apply checked_sim|]. intros [o ino] [d f].
  apply simh_ret. intros l s Hop. destruct (opened_stored _ _ _ _ _ _ _ Hop) as (? & _ & Hs & Hm). cbn [fst snd] in *. by rewrite Hs, Hm.
Qed.

Lemma file_flush_sim h : sim rel (file_flush h) (p_file_flush h).
Proof.
  apply simh_sim. intros l s r s' [φ HR]. unfold file_flush, p_file_flush, handle_of, m_bind, m_read.
  destruct (handle_lookup φ l s h HR) as [[-> ->]|(o & d & -> & ->)]; intros [= <- <-]; eexists _, _; (split; [done|]); split; try done; by exists φ.
Qed.

Lemma file_close_sim h : sim rel (file_close h) (p_file_close h).
Proof.
  apply simh_sim. intros l s r s' [φ HR]. unfold file_close, p_file_close, handle_of, m_bind, m_read, m_modify.
  destruct (handle_lookup φ l s h HR) as [[-> ->]|(o & d & Ho & Hd)]; [intros [= <- <-]; eexists _, _; (split; [done|]); split; try done; by exists φ|].
  rewrite Ho, Hd. intros [= <- <-]. eexists _, _. split; [done|]. split; [done|]. exists φ. by apply (rel_close storable φ l s h o d).
Qed.

(** ** Writes through a handle *)

Lemma edit_inode_step h o ino d f plan b :
  edited (f_bytes f) plan = b -> ep_src plan = Some (i_addr ino) -> (fits b = true -> planned (f_bytes f) plan) ->
  simh rel (opened h o ino d f) (edit_inode (h_inode o) plan) (_ ⟸ assume_fits storable b; m_modify (fun s => set_bytes s (d_file d) b))
    (fun u v l s => u = v /\ fits b = true /\ rel l s /\ handles (opens l) !! h = Some o /\ descriptors s !! h = Some d).
Proof.
  intros <- Esrc Hplan l s r s' Hop H. unfold m_bind, assume_fits, m_modify in H. destruct (Posix.fits storable _) eqn:Hb; [|done]. injection H as <- <-.
  pose proof Hop as [HR Ho Hd _ (φ & HR' & Hino & Hir)]. destruct (edit_step φ None l s plan (f_bytes f) HR') as (addr & c & E & HR1 & Hs); [|by auto|done|].
  { rewrite Esrc. apply Hir. }
  unfold edit_inode, m_bind. rewrite E. destruct (re_inodes _ _ _ _ _ HR1 (h_inode o) ino Hino) as (i & g & Hir').
  assert (i = d_file d) as ->. { pose proof (ir_phi _ _ _ _ _ _ _ _ _ Hir). pose proof (ir_phi _ _ _ _ _ _ _ _ _ Hir'). congruence. }
  destruct (rel_apply storable (cok := cok) φ None (set_contents l c) s (h_inode o) ino (d_file d) g addr (edited (f_bytes f) plan)) as (l' & E' & HR2); [done..|].
  rewrite E'. eexists _, _. split; [done|]. split; [done|]. split; [done|]. split; [by exists φ|]. split.
  - unfold apply_inode_content in E'. cbn [opens set_contents] in E'. rewrite Hino in E'. injection E' as <-. by destruct (i_path ino).
  - unfold set_bytes. by destruct (files s !! d_file d).
Qed.

(** The same with the continuation of the specification inside. *)
Lemma simh_regroup {A B C} (P : Loom -> Fs -> Prop) (m1 : M Loom C) (b : bytes) (g : Fs -> Fs) (k : A -> M Fs B) (v : A) Q :
  simh rel P m1 (m_bind (m_bind (assume_fits storable b) (fun _ => m_modify g)) (fun _ => k v)) Q ->
  simh rel P m1 (m_bind (assume_fits storable b) (fun _ => m_bind (m_modify g) (fun _ => k v))) Q.
Proof.
  intros H l s r s' HP Hr. apply (H l s r s' HP). rewrite <- Hr. unfold m_bind. by destruct (assume_fits storable b s) as [[[x|e] t]|].
Qed.

Lemma file_write_at_sim h offset data : sim rel (file_write_at h offset data) (p_file_write_at storable h offset data).
Proof.
  apply simh_sim. unfold file_write_at, p_file_write_at. eapply simh_bind; [apply checked_sim|]. intros [o ino] [d f]. cbv zeta.
  eapply simh_pre with (P' := fun l s => i_size ino = Codec.len (f_bytes f) /\ opened h o ino d f l s).
  { intros l s Hop. split; [|done]. by destruct (opened_stored _ _ _ _ _ _ _ Hop) as (_ & _ & ? & _). }
  apply simh_extract. intros ->. apply (simh_regroup _ _ _ _ (fun v => m_ret v)).
  eapply simh_bind; [apply edit_inode_step; [done..|apply write_planned]|]. intros ? ?. apply simh_ret. tauto.
Qed.

Lemma file_truncate_sim h size : sim rel (file_truncate h size) (p_file_truncate storable h size).
Proof.
  apply simh_sim. unfold file_truncate, p_file_truncate. eapply simh_bind; [apply checked_sim|]. intros [o ino] [d f]. cbv zeta.
  intros l s r s' Hop H. destruct (opened_stored _ _ _ _ _ _ _ Hop) as (_ & _ & Hsz & _). cbn [fst snd] in Hsz. rewrite Hsz.
  destruct (edit_inode_step h o ino d f (plan_truncate (Some (i_addr ino)) (Codec.len (f_bytes f)) size) (resized (f_bytes f) size)) with (s1 := l) (s2 := s) (r2 := r) (s2' := s')
    as (r1 & l' & E & Hq); [done..|apply truncate_planned|done|done|]. exists r1, l'. split; [done|]. destruct r1, r; tauto.
Qed.

Lemma file_write_sim h data : sim rel (file_write h data) (p_file_write storable h data).
Proof.
  apply simh_sim. unfold file_write, p_file_write. eapply simh_bind; [apply checked_sim|]. intros [o ino] [d f]. cbv zeta.
  eapply simh_pre with (P' := fun l s => (i_size ino = Codec.len (f_bytes f) /\ h_offset o = d_offset d /\ h_mode o = d_mode d) /\ opened h o ino d f l s).
  { intros l s Hop. split; [|done]. destruct (opened_stored _ _ _ _ _ _ _ Hop) as (_ & _ & ? & _). by destruct (op_offset _ _ _ _ _ _ _ Hop) as (? & ? & _). }
  apply simh_extract. intros (-> & -> & ->). set (at_ := if bool_decide _ then _ else _).
  apply (simh_regroup _ _ _ _ (fun v => m_bind (seek h (at_ + Codec.len data)) (fun _ => m_ret v))).
  eapply simh_bind; [apply edit_inode_step; [done..|apply write_planned]|]. intros ? ?.
  eapply simh_pre with (P' := fun l s => fits (written (f_bytes f) at_ data) = true /\ rel l s /\ handles (opens l) !! h = Some o /\ descriptors s !! h = Some d); [tauto|].
  apply simh_extract. intros Hfit%fits_len. assert (at_ + Codec.len data <= u64_max).
  { unfold Codec.len in *. rewrite length_written in Hfit. lia. }
  apply cursor_step; [by apply as_u64_id|done].
Qed.

(** ** Opening *)

(** An inode with an opening that has no handle yet. *)
Definition opening (id i : N) l s : Prop :=
  has_room s = true /\ exists φ ino, rel_at φ (Some id) l s /\ inodes (opens l) !! id = Some ino /\ φ !! id = Some i.

Lemma open_known ns p m φ l s id :
  rel_at φ None l s -> has_room s = true -> path_to_inode (opens l) !! (ns, p) = Some id ->
  exists i l', name s ns p = Some (NFile i) /\ open_inode ns p m l = Some (Ok id, l') /\ opening id i l' s.
Proof.
  intros HR Hroom Hp. destruct (open_path storable φ None l s ns p id HR Hp) as (ino & i & f & Hino & Hir & Hn & _).
  exists i. eexists. unfold open_inode. rewrite Hp, Hino. split; [done|split; [done|]].
  split; [done|]. exists φ. eexists. split; [by eapply rel_reopen|]. split; [apply lookup_insert_eq|]. apply Hir.
Qed.

Lemma open_file_new ns p m φ l s i :
  rel_at φ None l s -> has_room s = true -> path_to_inode (opens l) !! (ns, p) = None -> name s ns p = Some (NFile i) ->
  exists id l', open_inode ns p m l = Some (Ok id, l') /\ opening id i l' s.
Proof.
  intros HR Hroom Hp Hn. destruct (slot_file storable l s ns p i (re_slots _ _ _ _ _ HR ns p) Hn) as (f & b & Hw & Hf & Hs).
  destruct (rel_open_new storable φ l s ns p i f b HR Hp Hn Hf Hs Hroom) as (l' & E & HR' & Hphi).
  exists (next_inode (opens l)), l'. unfold open_inode. rewrite Hp. unfold m_bind, m_read, file_slot. rewrite Hw, (size_holds _ _ _ (proj1 Hs)), E. split; [done|].
  split; [done|]. injection E as <-. eexists _, _. split; [done|]. split; [apply lookup_insert_eq|done].
Qed.

Lemma open_create ns p m φ l s :
  rel_at φ None l s -> has_room s = true -> fits [] = true -> name s ns p = None -> creates m = true -> parent_exists (dirs l) ns p = true ->
  exists id l', open_inode ns p m l = Some (Ok id, l') /\ opening id (next_file s) l' (create s ns p [] DEFAULT_FILE_MODE).
Proof.
  intros HR Hroom Hfit Hn Hcr Hpar. assert (Hno : forall i, name s ns p <> Some (NFile i)) by (intros i; by rewrite Hn).
  pose proof (pti_none storable φ None l s ns p HR Hno) as Hp. destruct (rel_store storable φ None l s [] HR Hfit) as (addr & c & E & HR1 & Hs).
  pose proof (rel_create storable φ None _ s ns p [] DEFAULT_FILE_MODE addr HR1 Hno Hs) as HR2. set (l1 := put_work _ _ _ _) in HR2.
  destruct (rel_open_new storable φ l1 (create s ns p [] DEFAULT_FILE_MODE) ns p (next_file s) (mkStagedFile addr DEFAULT_FILE_MODE) [] HR2) as (l' & E' & HR3 & Hphi).
  { done. } { rewrite name_create. by rewrite bool_decide_eq_true_2. } { apply lookup_insert_eq. } { done. } { done. }
  exists (next_inode (opens l1)), l'. unfold open_inode. rewrite Hp. unfold m_bind, m_read, m_guard, m_ret, m_modify, m_store_content, file_slot.
  pose proof (re_slots _ _ _ _ _ HR ns p) as Hslot. rewrite Hn in Hslot. unfold slot_rel in Hslot.
  destruct (work_slot l ns p) as [[f| | | | | | |]|]; try done. rewrite Hcr. cbn [negb]. rewrite Hpar. cbn [negb]. rewrite E. split; [by rewrite <- E'|].
  split; [done|]. injection E' as <-. eexists _, _. split; [done|]. split; [apply lookup_insert_eq|done].
Qed.

Lemma open_inode_sim ns p m : simh rel (fun l s => rel l s /\ has_room s = true) (open_inode ns p m) (p_open_file storable ns p m) opening.
Proof.
  intros l s r s' [[φ HR] Hroom] H. unfold p_open_file, m_bind, m_gets in H.
  destruct (path_to_inode (opens l) !! (ns, p)) as [id|] eqn:Hp.
  { destruct (open_known ns p m φ l s id HR Hroom Hp) as (i & l' & Hn & E & Ho). rewrite Hn in H. injection H as <- <-. by exists (Ok id), l'. }
  destruct (name s ns p) as [[i|e]|] eqn:Hn.
  - injection H as <- <-. destruct (open_file_new ns p m φ l s i HR Hroom Hp Hn) as (id & l' & E & Ho). by exists (Ok id), l'.
  - injection H as <- <-. pose proof (file_slot_spec φ None l s ns p HR) as Hs. unfold lookup_file in Hs. rewrite Hn in Hs.
    unfold open_inode, m_bind, m_read. rewrite Hp, Hs. eexists _, _. split; [done|]. split; [done|]. by exists φ.
  - pose proof (file_slot_spec φ None l s ns p HR) as Hs. unfold lookup_file in Hs. rewrite Hn in Hs. unfold m_guard, m_ret, m_err, m_read in H.
    destruct (creates m) eqn:Hcr; cbn [negb] in H.
    + rewrite <-has_parent_exists in H. destruct (parent_exists (fs_dirs s) ns p) eqn:Hpar; cbn [negb] in H.
      * unfold assume_fits in H. destruct (Posix.fits storable []) eqn:Hfit; [|done]. injection H as <- <-. rewrite <- (re_dirs _ _ _ _ _ HR) in Hpar.
        destruct (open_create ns p m φ l s HR Hroom Hfit Hn Hcr Hpar) as (id & l' & E & Ho). by exists (Ok id), l'.
      * injection H as <- <-. unfold open_inode, m_bind, m_read, m_guard, m_ret. rewrite Hp, Hs, Hcr. cbn [negb]. rewrite (re_dirs _ _ _ _ _ HR), Hpar. eexists _, _. split; [done|]. split; [done|]. by exists φ.
    + injection H as <- <-. unfold open_inode, m_bind, m_read, m_guard. rewrite Hp, Hs, Hcr. eexists _, _. split; [done|]. split; [done|]. by exists φ.
Qed.

Lemma truncate_opening id i :
  simh rel (opening id i) (empty ⟸ m_store_content []; apply_inode_content id empty 0) (_ ⟸ assume_fits storable []; m_modify (fun s => set_bytes s i []))
    (fun _ _ => opening id i).
Proof.
  intros l s r s' (Hroom & φ & ino & HR & Hino & Hphi) H. unfold m_bind, assume_fits in *. destruct (Posix.fits storable []) eqn:Hfit; [|done]. injection H as <- <-.
  destruct (rel_store storable φ (Some id) l s [] HR Hfit) as (addr & c & E & HR1 & Hs). unfold m_store_content. rewrite E.
  destruct (re_inodes _ _ _ _ _ HR1 id ino Hino) as (j & f & Hir). pose proof (ir_phi _ _ _ _ _ _ _ _ _ Hir) as Hj. rewrite Hphi in Hj. injection Hj as <-.
  destruct (rel_apply storable φ (Some id) (set_contents l c) s id ino i f addr [] HR1 Hino Hir Hs) as (l' & E' & HR2). change (Codec.len []) with 0 in E'. rewrite E'.
  eexists _, _. split; [done|]. cbv beta. split; [unfold set_bytes; by destruct (files s !! i)|]. unfold apply_inode_content in E'. cbn [opens set_contents] in E'. rewrite Hino in E'.
  assert (is_Some (inodes (opens l') !! id)) as [ino' Hino'] by (injection E' as <-; destruct (i_path ino); eexists; apply lookup_insert_eq).
  by exists φ, ino'.
Qed.

Lemma file_open_sim ns p m : sim rel (file_open ns p m) (p_file_open storable ns p m).
Proof.
  apply simh_sim. unfold file_open, p_file_open. same. rename x into q.
  eapply (simh_bind _ _ _ _ _ _ (fun _ _ => rel)). { destruct (can_read m); [|by apply simh_ret]. unfold auth_path, p_auth_path. apply simh_read. intros l s HR. rewrite (access_rel l s HR). by destruct (authorize_path _ _ _ _). }
  intros ? ?. eapply (simh_bind _ _ _ _ _ _ (fun _ _ => rel)). { destruct (can_write m); [|by apply simh_ret]. unfold auth_path, p_auth_path. apply simh_read. intros l s HR. rewrite (access_rel l s HR). by destruct (authorize_path _ _ _ _). }
  intros ? ?. eapply (simh_bind _ _ _ _ _ _ (fun _ _ => rel)). { destruct (negb _); [|by apply simh_ret]. apply simh_read with (f1 := fun _ => guard_reserved_write q) (f2 := fun _ => guard_reserved_write q). intros l s HR. by destruct (guard_reserved_write q). }
  intros ? ?. same; [by_dirs|]. apply simh_assume. eapply simh_bind; [apply open_inode_sim|]. intros id i.
  eapply (simh_bind _ _ _ _ _ _ (fun _ _ => opening id i)). { destruct (bool_decide _); [apply truncate_opening|by apply simh_ret]. }
  intros ? ? l s r s' (Hroom & φ & ino & HR & Hino & Hphi) H. unfold p_alloc in H. rewrite Hroom in H. injection H as <- <-.
  destruct (rel_handle storable φ l s id ino i m HR Hino Hphi Hroom) as (l' & E & HR'). eexists _, _. split; [done|]. split; [done|]. by exists φ.
Qed.
End Refine.

End FileRefine.

(** ** Directories

    The facade runs on the file operations of the specification as it does on those of the engine. There it
    does what the specification says of directories. *)
Module DirRefine.
Import Error Acl VcsTree VcsPath VcsHistoryProps Registry Effect Engine EngineFiles EngineFs Posix EnginePosix FileRefine.
Implicit Types (s : Fs) (ns p q dir : bytes).

Definition p_file_mode s ns p : option N :=
  match name s ns p with Some (NFile i) => f_mode <$> files s !! i | _ => None end.

Definition posix_layer (storable : bytes -> bool) : FileLayer Fs := {|
  fl_file_mode := p_file_mode;
  fl_staged s ns := map fst (btree_iter (names_of s ns));
  fl_dirs := fs_dirs;
  fl_set_dirs := set_fs_dirs;
  fl_read_file := p_read_file;
  fl_write_file := p_write_file storable;
  fl_remove_file := p_remove_file |}.

(** ** Paths *)

Lemma prefix_join dir r : prefix_of dir ++ r = join dir r.
Proof. unfold prefix_of, join. destruct dir; [done|]. by rewrite bool_decide_eq_false_2, <-app_assoc by done. Qed.

Lemma inside_join dir p : inside dir p = true <-> exists r, p = join dir r.
Proof.
  unfold inside, join. destruct dir as [|c dir]; [split; [by exists p|done]|]. rewrite bool_decide_eq_true. split.
  - intros H. exists (drop (S (length (c :: dir))) p). rewrite <-(take_drop (S (length (c :: dir))) p) at 1. rewrite H. by rewrite <-app_assoc.
  - intros [r ->]. change (slash :: r) with ([slash] ++ r). rewrite app_assoc. apply take_app_length'. rewrite length_app. cbn. lia.
Qed.

Lemma below_join dir r : below dir (join dir r) = r.
Proof. unfold below, join. destruct dir as [|c dir]; [done|]. change (slash :: r) with ([slash] ++ r). rewrite app_assoc. apply drop_app_length'. rewrite length_app. cbn. lia. Qed.

Lemma inside_starts dir p : starts_with p (prefix_of dir) = inside dir p.
Proof. apply eq_bool_prop_intro. rewrite !Is_true_true, starts_with_app, inside_join. by setoid_rewrite prefix_join. Qed.

Lemma prefix_dir dir : dir <> [] -> dir ++ [slash] = prefix_of dir.
Proof. intros H. unfold prefix_of. by rewrite bool_decide_eq_false_2. Qed.

Lemma trim_start_drop p : trim_start p = drop (slashes p) p.
Proof. induction p as [|c p IH]; [done|]. cbn [trim_start slashes]. by case_bool_decide. Qed.

Lemma strip_dir_path p : dir_path p = strip p.
Proof.
  unfold dir_path, strip. rewrite !trim_start_drop. set (q := drop (slashes p) p). cbv zeta. clearbody q. by rewrite drop_reverse, reverse_involutive.
Qed.

Lemma normalize_path_idem p q : normalize_path p = Ok q -> normalize_path q = Ok q.
Proof.
  assert (Ht : trim_start (trim_start p) = trim_start p).
  { induction p as [|c p IH]; cbn [trim_start]; [done|]. case_bool_decide as Hc; [done|]. cbn [trim_start]. by rewrite bool_decide_eq_false_2. }
  unfold normalize_path. destruct (_ || _) eqn:E; [done|]. intros [= <-]. by rewrite Ht, E.
Qed.

Lemma normalize_path_nonempty p q : normalize_path p = Ok q -> q <> [].
Proof. by intros [? _]%normalize_path_segments. Qed.

(** A path without empty segments is in normal form. *)
Lemma normal_double p : Forall (fun seg => seg <> []) (tail (segments p)) -> has_double_slash p = false.
Proof.
  induction p as [|c [|c' p] IH]; [done|done|]. intros H.
  change (has_double_slash (c :: c' :: p)) with ((bool_decide (c = slash) && bool_decide (c' = slash)) || has_double_slash (c' :: p)).
  change (segments (c :: c' :: p)) with (if bool_decide (c = slash) then [] :: segments (c' :: p)
    else match segments (c' :: p) with seg :: rest => (c :: seg) :: rest | [] => [[c]] end) in H.
  apply orb_false_iff. split.
  - case_bool_decide; [|done]. cbn [andb tail] in *. apply bool_decide_eq_false. intros ->. cbn [segments] in H. rewrite bool_decide_eq_true_2 in H by done.
    by apply Forall_cons in H as [H _].
  - apply IH. case_bool_decide; [by destruct (segments (c' :: p)) as [|? ?]; [|apply Forall_cons in H as [_ ?]]|]. by destruct (segments (c' :: p)).
Qed.

Lemma segments_last p : last p = Some slash -> [] ∈ segments p.
Proof.
  intros H. destruct (last_Some p slash) as [Hl _]. destruct (Hl H) as [p' ->]. rewrite segments_slash. apply elem_of_app. right. by left.
Qed.

Lemma normal_segments p : Forall (fun seg => seg <> []) (segments p) -> normalize_path p = Ok p.
Proof.
  intros H. assert (p <> []) as Hne by (intros ->; by apply Forall_cons in H as [H _]).
  assert (trim_start p = p) as Ht.
  { destruct p as [|c p]; [done|]. cbn [trim_start]. case_bool_decide as Hc; [|done]. cbn [segments] in H. rewrite bool_decide_eq_true_2 in H by done.
    by apply Forall_cons in H as [H _]. }
  unfold normalize_path. rewrite Ht, bool_decide_eq_false_2 by done. rewrite bool_decide_eq_false_2, normal_double; [done| |].
  - destruct (segments p); [done|]. by apply Forall_cons in H as [_ ?].
  - intros Hl%segments_last. rewrite Forall_forall in H. by apply (H [] Hl).
Qed.

Lemma normal_slash a b : normalize_path (a ++ slash :: b) = Ok (a ++ slash :: b) <-> normalize_path a = Ok a /\ normalize_path b = Ok b.
Proof.
  split.
  - intros [_ H]%normalize_path_segments. rewrite segments_slash in H. apply Forall_app in H as [Ha Hb]. split; by apply normal_segments.
  - intros [[_ Ha]%normalize_path_segments [_ Hb]%normalize_path_segments]. apply normal_segments. rewrite segments_slash. by apply Forall_app.
Qed.

(** ** Related file systems *)

(** Names are in normal form. *)
Definition clean s : Prop := forall ns p, is_Some (name s ns p) -> normalize_path p = Ok p.
Definition bounded s : Prop := forall i f, files s !! i = Some f -> i < next_file s.

(** A file under a name exists and has the name, and so does an open file. *)
Record sound s : Prop := {
  so_bounded : bounded s;
  so_named ns p i : name s ns p = Some (NFile i) -> exists f, files s !! i = Some f /\ f_ns f = ns /\ f_path f = p;
  so_open h d : descriptors s !! h = Some d -> is_Some (files s !! d_file d);
}.
Definition tidy s : Prop := clean s /\ sound s.

(** No call tells the two apart: they differ in the files that have a name and are not open. *)
Record alike s1 s2 : Prop := {
  al_access : fs_access s1 = fs_access s2;
  al_dirs : fs_dirs s1 = fs_dirs s2;
  al_descriptors : descriptors s1 = descriptors s2;
  al_next : next_descriptor s1 = next_descriptor s2;
  al_names ns p : match name s1 ns p, name s2 ns p with
    | Some (NFile i), Some (NFile j) => files s1 !! i = files s2 !! j
    | Some (NOther e), Some (NOther e') => e = e'
    | None, None => True
    | _, _ => False end;
  al_fresh i f : files s2 !! i = Some f -> i < next_file s2;
  al_open h d : descriptors s1 !! h = Some d -> files s1 !! d_file d = files s2 !! d_file d /\
    forall f, files s1 !! d_file d = Some f -> linked s1 (d_file d) f = linked s2 (d_file d) f;
}.

Lemma alike_refl s : bounded s -> alike s s.
Proof. intros Hb. split; try done. intros ns p. by destruct (name s ns p) as [[i|e]|]. Qed.

(** Where the second is defined the first does the same. *)
Definition meets {A} (m1 m2 : M Fs A) : Prop :=
  forall s r s', tidy s -> m2 s = Some (r, s') -> m1 s = Some (r, s').

Lemma meets_lift {A B} (r : res A) (k1 k2 : A -> M Fs B) :
  (forall x, r = Ok x -> meets (k1 x) (k2 x)) -> meets (m_bind (m_lift r) k1) (m_bind (m_lift r) k2).
Proof. intros H s r' s' Ht. unfold m_bind, m_lift. destruct r as [x|e]; [by apply (H x eq_refl)|done]. Qed.

Lemma name_unlink_all s ns l ns' p : name (unlink_all s ns l) ns' p = if bool_decide (ns' = ns /\ p ∈ l) then None else name s ns' p.
Proof.
  unfold name, names_of, unlink_all. cbn [names set_names]. destruct (decide (ns' = ns)) as [->|Hn].
  - rewrite lookup_alter_eq. destruct (names s !! ns) as [m|]; cbn; [|by rewrite lookup_empty; case_bool_decide]. case_bool_decide as Hp.
    + apply map_lookup_filter_None. right. intros n _ H. by apply H, Hp.
    + destruct (m !! p) eqn:E; [apply map_lookup_filter_Some; split; [done|]; cbn; tauto|apply map_lookup_filter_None; by left].
  - rewrite lookup_alter_ne by done. by rewrite bool_decide_eq_false_2 by tauto.
Qed.

Section Facade.
Context (storable : bytes -> bool).
#[local] Existing Instance posix_layer.
#[local] Instance layer : FileLayer Fs := posix_layer storable.

Lemma file_mode_some s ns p : tidy s -> has_file s ns p = bool_decide (is_Some (p_file_mode s ns p)).
Proof.
  intros [_ Ht]. unfold has_file, p_file_mode. destruct (name s ns p) as [[i|e]|] eqn:E; [|done|done].
  destruct (so_named _ Ht _ _ _ E) as (f & -> & _). by rewrite bool_decide_eq_true_2.
Qed.

Lemma is_file_has s ns p : tidy s -> is_file s ns p = has_file s ns p.
Proof. intros Ht. by rewrite file_mode_some. Qed.
Lemma is_dir_has s ns p : is_dir s ns p = has_dir s ns p.
Proof. apply has_dir_exists. Qed.

Lemma exists_meets ns p : meets (exists_path ns p) (p_exists ns p).
Proof.
  apply meets_lift. intros q _ s r s' Ht. unfold m_gets. rewrite is_file_has, is_dir_has by done. done.
Qed.

(** The file of a name. *)
Lemma has_file_found s ns p : tidy s -> has_file s ns p = true -> exists f, p_found s ns p = Ok f /\ p_file_mode s ns p = Some (f_mode f).
Proof.
  intros [_ Ht]. unfold has_file, p_found, lookup_file, p_file_mode. destruct (name s ns p) as [[i|e]|] eqn:E; [|done|done].
  destruct (so_named _ Ht _ _ _ E) as (f & -> & _). by exists f.
Qed.

Lemma read_normal ns p s : normalize_path p = Ok p ->
  p_read_file ns p s = Some (_ ← authorize_path (fs_access s) ns p Read; f ← p_found s ns p; Ok (f_bytes f), s).
Proof.
  intros Hp. unfold p_read_file, p_auth_path, m_bind, m_lift, m_read. rewrite Hp. by destruct (authorize_path _ _ _ _) as [[]|].
Qed.

Lemma stat_meets ns p : meets (stat ns p) (p_stat ns p).
Proof.
  apply meets_lift. intros q Hq s r s' Ht. apply normalize_path_idem in Hq. unfold m_bind, m_gets, m_read. cbn [fl_file_mode fl_read_file layer posix_layer].
  destruct (has_file s ns q) eqn:Hf.
  - destruct (has_file_found s ns q Ht Hf) as (f & Hfound & ->). rewrite read_normal, Hfound by done.
    destruct (authorize_path _ _ _ _) as [[]|]; done.
  - assert (p_file_mode s ns q = None) as ->. { rewrite (file_mode_some s ns q Ht) in Hf. apply bool_decide_eq_false in Hf. by destruct (p_file_mode s ns q); [destruct Hf|]. }
    rewrite is_dir_has. by destruct (has_dir s ns q).
Qed.

(** ** Listings *)

Lemma head_segments r : r <> [] -> head (segments r) = Some (match split_once r with Some (seg, _) => seg | None => r end).
Proof.
  intros Hr. destruct (split_once r) as [[seg t]|] eqn:E.
  - apply split_once_Some in E as [-> Hseg]. by rewrite segments_slash, (segments_plain seg Hseg).
  - apply split_once_None in E. by rewrite segments_plain.
Qed.

Lemma child_strip dir p :
  child dir p = match strip_prefix p (prefix_of dir) with
    | None | Some [] => None
    | Some r => Some (match split_once r with Some (seg, _) => seg | None => r end) end.
Proof.
  unfold child. destruct (strip_prefix p (prefix_of dir)) as [r|] eqn:E.
  - apply strip_prefix_Some in E as ->. rewrite prefix_join, below_join, (proj2 (inside_join dir _)) by eauto.
    destruct r as [|c r]; [done|]. rewrite bool_decide_eq_true_2 by done. by apply head_segments.
  - destruct (inside dir p) eqn:Hi; [|done]. apply inside_join in Hi as [r ->]. rewrite <-prefix_join in E.
    rewrite (proj2 (strip_prefix_Some _ _ r) eq_refl) in E. done.
Qed.

Lemma child_Some dir p n :
  child dir p = Some n <-> exists r, p = join dir r /\ r <> [] /\ ((exists t, r = n ++ slash :: t /\ slash ∉ n) \/ (r = n /\ slash ∉ n)).
Proof.
  rewrite child_strip. split.
  - destruct (strip_prefix p (prefix_of dir)) as [r|] eqn:E; [|done]. apply strip_prefix_Some in E as ->. rewrite prefix_join.
    destruct r as [|c r]; [done|]. intros Hc. exists (c :: r). split_and!; [done..|]. destruct (split_once (c :: r)) as [[seg t]|] eqn:E; apply Some_inj in Hc as <-.
    + apply split_once_Some in E as [E H]. left. by exists t.
    + apply split_once_None in E. by right.
  - intros (r & -> & Hr & H). rewrite <-prefix_join, (proj2 (strip_prefix_Some _ _ r) eq_refl). destruct r as [|c r]; [done|]. f_equal. destruct H as [(t & E & Hn)|[E Hn]].
    + rewrite (proj2 (split_once_Some _ n t)) by done. done.
    + rewrite E, (proj2 (split_once_None n)) by done. done.
Qed.

Lemma join_slash dir n t : join dir n <> [] -> join dir (n ++ slash :: t) = join (join dir n) t.
Proof. destruct dir; cbn [join app]; [by destruct n|]. intros _. by rewrite <-app_assoc. Qed.

Lemma join_inj dir r r' : join dir r = join dir r' -> r = r'.
Proof. intros H%(f_equal (below dir)). by rewrite !below_join in H. Qed.

(** A path goes on below the child. *)
Lemma child_deeper dir p n :
  child dir p = Some n -> inside (join dir n) p = true <-> exists t, p = join dir (n ++ slash :: t).
Proof.
  intros (r & -> & Hr & H)%child_Some. destruct (decide (join dir n = [])) as [E|E].
  - assert (dir = [] /\ n = []) as [-> ->] by (destruct dir, n; done). cbn [join inside app]. split; [|done]. intros _.
    destruct H as [(t & -> & _)|[-> _]]; [by exists t|done].
  - rewrite inside_join. setoid_rewrite join_slash; done.
Qed.

Lemma child_inside dir n p : slash ∉ n -> join dir n <> [] -> inside (join dir n) p = true -> child dir p = Some n.
Proof.
  intros Hn Hj [t ->]%inside_join. rewrite <-join_slash by done. apply child_Some. exists (n ++ slash :: t). split_and!; [done|by destruct n|by left; exists t].
Qed.

Definition add_child (dir : bytes) (m : gmap bytes bool) (p : bytes) (directory : bytes -> bool) : gmap bytes bool :=
  match child dir p with
  | Some n => if directory n then <[n := true]> m else match m !! n with Some _ => m | None => <[n := false]> m end
  | None => m
  end.

Lemma add_file_child_spec dir m p : add_file_child (prefix_of dir) m p = add_child dir m p (fun n => inside (join dir n) p).
Proof.
  unfold add_child. destruct (child dir p) as [n|] eqn:Hc.
  - pose proof (child_deeper dir p n Hc) as Hd. unfold add_file_child. rewrite child_strip in Hc.
    destruct (strip_prefix p (prefix_of dir)) as [[|c r]|] eqn:E; [done| |done]. apply strip_prefix_Some in E as ->. rewrite prefix_join in *.
    destruct (split_once (c :: r)) as [[seg t]|] eqn:Es; apply Some_inj in Hc as <-.
    + rewrite (proj2 Hd); [done|]. apply split_once_Some in Es as [-> _]. by exists t.
    + destruct (inside _ _) eqn:Hi; [|done]. destruct (proj1 Hd eq_refl) as [t H%join_inj]. apply split_once_None in Es. destruct Es. rewrite H. set_solver.
  - unfold add_file_child. rewrite child_strip in Hc. by destruct (strip_prefix p (prefix_of dir)) as [[|c r]|].
Qed.

Lemma add_dir_child_spec dir m p : add_dir_child (prefix_of dir) m p = add_child dir m p (fun _ => true).
Proof.
  unfold add_child, add_dir_child. rewrite child_strip. by destruct (strip_prefix p (prefix_of dir)) as [[|c r]|].
Qed.

(** What adding the paths of a list records. *)
Lemma add_children_spec dir (directory : bytes -> bytes -> bool) l m n :
  let m' := foldl (fun m p => add_child dir m p (directory p)) m l in
  (is_Some (m' !! n) <-> is_Some (m !! n) \/ exists p, p ∈ l /\ child dir p = Some n) /\
  (m' !! n = Some true <-> m !! n = Some true \/ exists p, p ∈ l /\ child dir p = Some n /\ directory p n = true).
Proof.
  revert m. induction l as [|p l IH]; intros m; cbn [foldl].
  { split; (split; [by left|]); intros [?|(p & ?%not_elem_of_nil & _)]; done. }
  destruct (IH (add_child dir m p (directory p))) as [H1 H2]. cbv zeta. rewrite H1, H2. setoid_rewrite elem_of_cons.
  assert ((is_Some (add_child dir m p (directory p) !! n) <-> is_Some (m !! n) \/ child dir p = Some n) /\
    (add_child dir m p (directory p) !! n = Some true <-> m !! n = Some true \/ child dir p = Some n /\ directory p n = true)) as [A1 A2].
  { unfold add_child. destruct (child dir p) as [n'|]; [|naive_solver]. destruct (decide (n' = n)) as [->|Hne].
    - destruct (directory p n) eqn:Ed; [rewrite lookup_insert_eq; naive_solver|]. destruct (m !! n) as [b|] eqn:Em; [rewrite Em|rewrite lookup_insert_eq]; naive_solver.
    - destruct (directory p n'); [by rewrite lookup_insert_ne; naive_solver|]. destruct (m !! n'); [naive_solver|]. rewrite lookup_insert_ne by done. naive_solver. }
  rewrite A1, A2. naive_solver.
Qed.

Lemma elem_of_keys {A} (m : gmap bytes A) p : p ∈ map fst (btree_iter m) <-> is_Some (m !! p).
Proof.
  rewrite list_elem_of_fmap. split.
  - intros ([k v] & -> & Hv%elem_of_btree_iter). by exists v.
  - intros [v Hv]. exists (p, v). split; [done|]. by apply elem_of_btree_iter.
Qed.

Lemma keys_sorted {A} (m : gmap bytes A) : sorted_by id (map fst (btree_iter m)).
Proof. apply (sorted_by_map fst); [done|]. apply btree_iter_sorted. Qed.

Lemma keys_set_iter {A} (m : gmap bytes A) X : (forall p, is_Some (m !! p) <-> p ∈ X) -> map fst (btree_iter m) = set_iter X.
Proof.
  intros H. apply (sorted_by_unique id); [apply keys_sorted|apply set_iter_sorted|]. intros p. by rewrite elem_of_keys, set_iter_elem.
Qed.

Lemma elem_of_paths s ns p : p ∈ paths s ns <-> p ∈ map fst (btree_iter (names_of s ns)) \/ p ∈ dirs_in s ns.
Proof. unfold paths. by rewrite elem_of_union, elem_of_dom, elem_of_keys. Qed.

Lemma foldl_same {A B} (f g : A -> B -> A) x l : (forall x y, f x y = g x y) -> foldl f x l = foldl g x l.
Proof. intros H. revert x. induction l as [|y l IH]; intros x; cbn [foldl]; [done|]. by rewrite H. Qed.

(** The children the code collects. *)
Definition collected s ns dir : gmap bytes bool :=
  foldl (add_dir_child (prefix_of dir)) (foldl (add_file_child (prefix_of dir)) ∅ (map fst (btree_iter (names_of s ns)))) (set_iter (dirs_in s ns)).

Lemma collected_spec s ns dir n :
  (is_Some (collected s ns dir !! n) <-> n ∈ children s ns dir) /\
  (collected s ns dir !! n = Some true <->
    (exists p, p ∈ map fst (btree_iter (names_of s ns)) /\ child dir p = Some n /\ inside (join dir n) p = true) \/
    (exists p, p ∈ dirs_in s ns /\ child dir p = Some n)).
Proof.
  unfold collected. rewrite (foldl_same _ _ _ _ (add_dir_child_spec dir)), (foldl_same _ _ ∅ _ (add_file_child_spec dir)).
  destruct (add_children_spec dir (fun _ _ => true) (set_iter (dirs_in s ns))
    (foldl (fun m p => add_child dir m p (fun n => inside (join dir n) p)) ∅ (map fst (btree_iter (names_of s ns)))) n) as [A1 A2].
  destruct (add_children_spec dir (fun p n => inside (join dir n) p) (map fst (btree_iter (names_of s ns))) ∅ n) as [B1 B2].
  cbv zeta in A1, A2, B1, B2. rewrite A1, A2, B1, B2, lookup_empty. setoid_rewrite set_iter_elem. split.
  - unfold children. rewrite elem_of_list_to_set, list_elem_of_omap. setoid_rewrite elem_of_elements. setoid_rewrite elem_of_paths.
    split; [intros [[[? ?]|(p & ? & ?)]|(p & ? & ?)]; [done|eauto..]|]. intros (p & [?|?] & ?); [left; right|right]; eauto.
  - naive_solver.
Qed.

(** A collected child is a directory where the specification says so. *)
Lemma collected_kind s ns dir n b :
  collected s ns dir !! n = Some b -> (if b : bool then KDirectory else KFile) = listed_as s ns (join dir n).
Proof.
  intros Hb. destruct (collected_spec s ns dir n) as [H1 H2].
  assert (exists p, p ∈ paths s ns /\ child dir p = Some n) as (p0 & Hp0 & Hc0).
  { destruct H1 as [H1 _]. specialize (H1 (ex_intro _ b Hb)). unfold children in H1. rewrite elem_of_list_to_set, list_elem_of_omap in H1.
    destruct H1 as (p & ?%elem_of_elements & ?). eauto. }
  assert (slash ∉ n) as Hn by (apply child_Some in Hc0 as (r & _ & _ & [(t & _ & ?)|[_ ?]]); done).
  assert (b = true <-> join dir n ∈ dirs_in s ns \/ exists p, p ∈ paths s ns /\ inside (join dir n) p = true) as Hk.
  { assert (b = true <-> collected s ns dir !! n = Some true) as -> by (rewrite Hb; split; [by intros ->|by intros [= ->]]).
    rewrite H2. destruct (decide (n = [])) as [->|Hne].
    - assert (inside (join dir []) p0 = true) as Hi.
      { apply child_deeper; [done|]. apply child_Some in Hc0 as (r & -> & Hr & [(t & -> & _)|[-> _]]); [by exists t|done]. }
      apply elem_of_paths in Hp0 as Hp. split; [intros _; right; by exists p0|]. intros _. destruct Hp; [left|right]; eauto.
    - assert (join dir n <> []) as Hj by (by destruct dir). split.
      + intros [(p & Hp & _ & Hi)|(p & Hp & Hc)]; [right; exists p; split; [|done]; apply elem_of_paths; by left|].
        apply child_Some in Hc as (r & -> & Hr & [(t & -> & _)|[-> _]]); [|by left]. right. eexists. split; [apply elem_of_paths; by right|].
        rewrite join_slash by done. apply inside_join. by eexists.
      + intros [Hd|(p & [Hp|Hp]%elem_of_paths & Hi)]; [right|left|right]; [exists (join dir n)|exists p|exists p].
        * split; [done|]. apply child_Some. exists n. split_and!; [done..|by right].
        * split_and!; [done|by apply child_inside|done].
        * split; [done|by apply child_inside]. }
  unfold listed_as. apply eq_sym. destruct b.
  - assert (bool_decide (join dir n ∈ dirs_in s ns) || existsb (inside (join dir n)) (elements (paths s ns)) = true) as ->; [|done].
    apply orb_true_iff. destruct (proj1 Hk eq_refl) as [?|(p & Hp & Hi)]; [left; by apply bool_decide_eq_true|right]. apply existsb_exists.
    exists p. split; [|done]. by apply list_elem_of_In, elem_of_elements.
  - destruct (_ || _) eqn:E; [|done]. apply orb_true_iff in E as [E|E].
    + apply bool_decide_eq_true in E. by assert (false = true) by (apply Hk; by left).
    + apply existsb_exists in E as (p & ?%list_elem_of_In%elem_of_elements & ?). by assert (false = true) by (apply Hk; right; eauto).
Qed.

Lemma list_directory_meets ns p : meets (list_directory ns p) (p_list_directory ns p).
Proof.
  intros s r s' Ht. unfold list_directory, p_list_directory, m_bind, m_gets, m_guard, m_read. rewrite strip_dir_path. cbv zeta.
  set (dir := strip p). rewrite is_dir_has. assert (negb (bool_decide (dir = [])) && negb (has_dir s ns dir) = negb (has_dir s ns dir)) as ->.
  { case_bool_decide as E; [|done]. rewrite E. unfold has_dir. by rewrite bool_decide_eq_true_2 by by left. }
  destruct (has_dir s ns dir); [|done]. cbn [negb]. intros <-. unfold m_ret. do 3 f_equal. cbn [fl_staged fl_dirs layer posix_layer].
  fold (dirs_in s ns). fold (collected s ns dir).
  rewrite <-(keys_set_iter (collected s ns dir)) by apply collected_spec. rewrite map_map. apply map_ext_in.
  intros [n b] Hin%list_elem_of_In%elem_of_btree_iter. cbn [fst snd]. by rewrite (collected_kind s ns dir n b).
Qed.

(** ** Subtrees *)

Lemma under_names s ns dir : staged_under s ns (prefix_of dir) = names_below s ns dir.
Proof.
  apply (sorted_by_unique id); [|apply set_iter_sorted|].
  - unfold staged_under, sorted_by. cbn [fl_staged layer posix_layer]. pose proof (keys_sorted (names_of s ns)) as H. unfold sorted_by in H.
    induction H as [|x l Hl IH Hx]; [constructor|]. rewrite filter_cons. destruct (decide _); [|done]. constructor; [done|].
    rewrite Forall_forall in *. intros y [_ Hy]%list_elem_of_filter. by apply Hx.
  - intros p. unfold staged_under, names_below. rewrite list_elem_of_filter, set_iter_elem, elem_of_filter, inside_starts, elem_of_dom. cbn [fl_staged layer posix_layer].
    by rewrite elem_of_keys.
Qed.

Lemma walk_meets ns p : meets (walk ns p) (p_walk ns p).
Proof.
  intros s r s' Ht. unfold walk, p_walk, m_bind, m_gets. rewrite strip_dir_path. cbv zeta. rewrite is_file_has by done. rewrite bool_decide_not.
  destruct (_ && _); [done|]. by rewrite under_names.
Qed.

(** ** New directories *)

Lemma elem_of_lineage p q : q ∈ lineage p <-> q <> [] /\ (q = p \/ exists r, p = q ++ slash :: r).
Proof.
  unfold lineage. rewrite elem_of_difference, elem_of_list_to_set, elem_of_cons, elem_of_above, elem_of_singleton. tauto.
Qed.

Lemma record_lineage d ns p : p <> [] -> record_dir d ns p = <[ns := default ∅ (d !! ns) ∪ lineage p]> d.
Proof.
  intros Hp. unfold record_dir. rewrite bool_decide_eq_false_2 by done. f_equal. apply set_eq. intros q.
  rewrite elem_of_union, elem_of_list_to_set, elem_of_cons, elem_of_path_ancestors, elem_of_union, elem_of_lineage. naive_solver.
Qed.

Lemma add_dirs_some s ns X : X <> ∅ -> add_dirs s ns X = set_fs_dirs s (<[ns := dirs_in s ns ∪ X]> (fs_dirs s)).
Proof. intros H. unfold add_dirs. by rewrite bool_decide_eq_false_2. Qed.

Lemma lineage_nonempty p : p <> [] -> lineage p <> ∅.
Proof. intros Hp E. assert (p ∈ lineage p) as H by (apply elem_of_lineage; by auto). rewrite E in H. set_solver. Qed.

Lemma make_dir_meets ns p recursive : p <> [] -> meets (create_directory_norm ns p recursive) (p_make_dir ns p recursive).
Proof.
  intros Hp s r s' Ht. unfold create_directory_norm, p_make_dir, m_bind, m_gets, m_guard, m_modify. rewrite is_file_has by done.
  destruct (has_file s ns p); [done|]. unfold m_ret. rewrite is_dir_has. destruct (has_dir s ns p); [done|].
  assert (match rsplit_once p with Some (parent, _) => bool_decide (parent = []) || is_dir s ns parent | None => true end = has_parent s ns p) as ->.
  { rewrite <-has_parent_exists. unfold parent_exists. destruct (rsplit_once p) as [[q t]|]; [|done]. unfold is_dir. cbn [fl_dirs layer posix_layer].
    unfold dir_exists. by case_bool_decide. }
  destruct (negb recursive && negb (has_parent s ns p)); [done|]. destruct (clashes s ns (lineage p)); [done|]. intros [= <- <-].
  cbn [fl_dirs fl_set_dirs layer posix_layer]. by rewrite record_lineage, add_dirs_some by (done || by apply lineage_nonempty).
Qed.

Lemma create_directory_meets ns p recursive : meets (create_directory ns p recursive) (p_create_directory ns p recursive).
Proof. apply meets_lift. intros q Hq. apply meets_lift. intros [] _. apply make_dir_meets. by eapply normalize_path_nonempty. Qed.

Lemma create_directory_reserved_meets ns p recursive : meets (create_directory_reserved ns p recursive) (p_create_directory_reserved ns p recursive).
Proof. apply meets_lift. intros q Hq. apply make_dir_meets. by eapply normalize_path_nonempty. Qed.

(** ** Removing a subtree *)

Lemma unlink_alter s ns p : unlink s ns p = set_names s (alter (delete p) ns (names s)).
Proof.
  unfold unlink. destruct (names s !! ns) as [m|] eqn:E.
  - f_equal. apply map_eq. intros ns'. destruct (decide (ns' = ns)) as [->|?]; [by rewrite lookup_insert_eq, lookup_alter_eq, E|by rewrite lookup_insert_ne, lookup_alter_ne].
  - destruct s as [nm ? ? ? ? ? ?]. unfold set_names. cbn [names fs_dirs files next_file descriptors next_descriptor fs_access] in *. f_equal. apply map_eq. intros ns'.
    destruct (decide (ns' = ns)) as [->|?]; [by rewrite lookup_alter_eq, E|by rewrite lookup_alter_ne].
Qed.

Lemma unlink_all_nil s ns : unlink_all s ns [] = s.
Proof.
  unfold unlink_all. destruct s as [nm ? ? ? ? ? ?]. unfold set_names. cbn [names fs_dirs files next_file descriptors next_descriptor fs_access]. f_equal.
  apply map_eq. intros ns'. destruct (decide (ns' = ns)) as [->|?]; [|by rewrite lookup_alter_ne]. rewrite lookup_alter_eq.
  destruct (nm !! ns) as [m|]; [|done]. cbn. f_equal. apply map_filter_id. intros i x _. apply not_elem_of_nil.
Qed.

Lemma unlink_all_cons s ns p l : unlink_all (unlink s ns p) ns l = unlink_all s ns (p :: l).
Proof.
  rewrite unlink_alter. unfold unlink_all, set_names. cbn [names fs_dirs files next_file descriptors next_descriptor fs_access]. f_equal.
  apply map_eq. intros ns'. destruct (decide (ns' = ns)) as [->|?]; [|by rewrite !lookup_alter_ne]. rewrite !lookup_alter_eq.
  destruct (names s !! ns) as [m|]; [|done]. cbn. f_equal. apply map_eq. intros q. apply option_eq. intros n.
  rewrite !map_lookup_filter_Some, lookup_delete_Some, not_elem_of_cons. cbn [fst]. naive_solver.
Qed.

Lemma may_write_unlink s ns p q : may_write (unlink s ns p) ns q = may_write s ns q.
Proof. rewrite unlink_alter. done. Qed.

Lemma allowed_ext {A} (f g : A -> res ()) l : (forall x, f x = g x) -> allowed f l = allowed g l.
Proof. intros H. induction l as [|x l IH]; cbn [allowed]; [done|]. by rewrite H, IH. Qed.

Lemma remove_each ns l s : Forall (fun p => normalize_path p = Ok p) l -> m_each (p_remove_file ns) l s = p_remove_all ns l s.
Proof.
  intros Hl. revert s. induction Hl as [|p l Hp _ IH]; intros s; cbn [m_each].
  { unfold p_remove_all. cbn [allowed]. by rewrite unlink_all_nil. }
  unfold p_remove_all. cbn [allowed]. unfold m_bind at 1, p_remove_file, p_target, p_auth_path.
  unfold m_bind, m_lift, m_read, m_modify, m_ret. rewrite Hp. unfold may_write at 1.
  destruct (authorize_path (fs_access s) ns p Write) as [[]|e]; cbn [mbind result_bind]; [|by rewrite unlink_all_nil].
  destruct (guard_reserved_write p) as [[]|e]; [|by rewrite unlink_all_nil]. rewrite IH. unfold p_remove_all.
  rewrite (allowed_ext _ (may_write s ns)) by apply may_write_unlink. destruct (allowed (may_write s ns) l) as [done_ r]. by rewrite unlink_all_cons.
Qed.

Lemma names_below_normal s ns dir : clean s -> Forall (fun p => normalize_path p = Ok p) (names_below s ns dir).
Proof.
  intros Hc. apply Forall_forall. intros p Hp. unfold names_below in Hp. rewrite set_iter_elem in Hp. apply elem_of_filter in Hp as [_ Hp%elem_of_dom]. by apply (Hc ns).
Qed.

Lemma drop_dirs_alter s ns p : p <> [] -> set_fs_dirs s (drop_dirs (fs_dirs s) ns p (p ++ [slash])) = drop_dir s ns p.
Proof.
  intros Hp. unfold drop_dir, drop_dirs. f_equal. apply map_eq. intros ns'. rewrite (prefix_dir p Hp).
  assert (forall X : gset bytes, filter (fun k => k <> p /\ starts_with k (prefix_of p) = false) X = filter (fun d => d <> p /\ inside p d = false) X) as Hf.
  { intros X. apply set_eq. intros q. by rewrite !elem_of_filter, inside_starts. }
  destruct (decide (ns' = ns)) as [->|Hne]; [rewrite lookup_alter_eq|rewrite lookup_alter_ne by done].
  - destruct (fs_dirs s !! ns) as [X|] eqn:E; [by rewrite lookup_insert_eq, Hf|by rewrite E].
  - destruct (fs_dirs s !! ns); [by rewrite lookup_insert_ne|done].
Qed.

Lemma remove_tree_run ns p s :
  clean s -> p <> [] ->
  (_ ⟸ m_each (fun key => p_remove_file ns key) (staged_under s ns (p ++ [slash]));
   m_modify (fun s => set_fs_dirs s (drop_dirs (fs_dirs s) ns p (p ++ [slash])))) s = p_remove_tree ns p s.
Proof.
  intros Hc Hp. unfold p_remove_tree. rewrite (m_bind_run (m_gets _) _ s s (names_below s ns p)) by done. rewrite (prefix_dir p Hp), under_names. unfold m_bind at 1.
  change (fun key => p_remove_file ns key) with (p_remove_file ns). rewrite remove_each by by apply names_below_normal. unfold m_bind.
  destruct (p_remove_all ns _ s) as [[[[]|e] s1]|]; [|done|done]. unfold m_modify. rewrite <-(prefix_dir p Hp). by rewrite drop_dirs_alter.
Qed.

Lemma nonempty_paths s ns p :
  negb (bool_decide (names_below s ns p = [])) || existsb (inside p) (elements (dirs_in s ns)) = existsb (inside p) (elements (paths s ns)).
Proof.
  apply eq_bool_prop_intro. rewrite !Is_true_true, orb_true_iff, negb_true_iff, bool_decide_eq_false, !existsb_exists. setoid_rewrite <-list_elem_of_In.
  setoid_rewrite elem_of_elements. setoid_rewrite elem_of_union. setoid_rewrite elem_of_dom. split.
  - intros [H|(q & ? & ?)]; [|by eauto]. destruct (names_below s ns p) as [|q l] eqn:E; [done|]. assert (q ∈ names_below s ns p) as Hq by (rewrite E; by left).
    unfold names_below in Hq. rewrite set_iter_elem in Hq. apply elem_of_filter in Hq as [? ?%elem_of_dom]. eauto.
  - intros (q & [Hq|Hq] & Hi); [left|right; by eauto]. intros E. assert (q ∈ names_below s ns p) as H; [|rewrite E in H; by apply not_elem_of_nil in H].
    unfold names_below. rewrite set_iter_elem. apply elem_of_filter. split; [done|]. by apply elem_of_dom.
Qed.

Lemma bind_read {A B} (f : Fs -> res A) (k : A -> M Fs B) s : m_bind (m_read f) k s = match f s with Ok x => k x s | Err e => Some (Err e, s) end.
Proof. done. Qed.
Lemma bind_guard {B} c e (k : unit -> M Fs B) s : m_bind (m_guard c e) k s = if c then Some (Err e, s) else k () s.
Proof. by destruct c. Qed.
Lemma bind_gets {A B} (f : Fs -> A) (k : A -> M Fs B) s : m_bind (m_gets f) k s = k (f s) s.
Proof. done. Qed.

Lemma remove_directory_meets ns p recursive : meets (remove_directory ns p recursive) (p_remove_directory ns p recursive).
Proof.
  apply meets_lift. intros q Hq. apply normalize_path_nonempty in Hq. apply meets_lift. intros [] _ s r s' [Hc _].
  rewrite bind_read, bind_gets, bind_guard, is_dir_has. destruct (has_dir s ns q); cbn [negb]; [|done].
  cbv zeta. rewrite !bind_gets, bind_guard. cbn [fl_dirs layer posix_layer]. fold (dirs_in s ns).
  assert (existsb (fun k => starts_with k (q ++ [slash])) (elements (dirs_in s ns)) = existsb (inside q) (elements (dirs_in s ns))) as ->.
  { induction (elements (dirs_in s ns)) as [|x l IH]; [done|]. cbn [existsb]. by rewrite IH, (prefix_dir q Hq), inside_starts. }
  rewrite <-(nonempty_paths s ns q), <-under_names, <-(prefix_dir q Hq). destruct (negb recursive && _); [done|].
  intros <-. by apply remove_tree_run.
Qed.

(** ** Copying a subtree *)

Lemma bind_modify {B} f (k : unit -> M Fs B) s : m_bind (m_modify f) k s = k () (f s).
Proof. done. Qed.

Lemma put_fields s ns p b m : fs_access (put s ns p b m) = fs_access s /\ fs_dirs (put s ns p b m) = fs_dirs s /\
  descriptors (put s ns p b m) = descriptors s /\ next_descriptor (put s ns p b m) = next_descriptor s.
Proof. unfold put. by destruct (name s ns p) as [[i|e]|]. Qed.

Lemma may_put_put s ns p b m q : may_put (put s ns p b m) ns q = may_put s ns q.
Proof.
  destruct (put_fields s ns p b m) as (Ha & Hd & _). unfold may_put, may_write, target_free, has_parent, has_dir, dirs_in. by rewrite Ha, Hd.
Qed.

Lemma write_run ns p f s :
  normalize_path p = Ok p -> fits storable (f_bytes f) = true ->
  p_write_file storable ns p (f_bytes f) (f_mode f) s =
  match may_put s ns p with Ok _ => Some (Ok (), put s ns p (f_bytes f) (f_mode f)) | Err e => Some (Err e, s) end.
Proof.
  intros Hp Hf. unfold p_write_file, p_target, p_auth_path, p_write_norm, assume_fits, m_bind, m_lift, m_read, m_modify, m_ret, may_put, may_write. rewrite Hp, Hf.
  destruct (authorize_path _ _ _ _) as [[]|]; cbn [mbind result_bind]; [|done]. destruct (guard_reserved_write p) as [[]|]; [|done]. cbn [mbind result_bind].
  by destruct (target_free s ns p) as [[]|].
Qed.

Lemma write_each ns l s :
  Forall (fun e : bytes * File => normalize_path e.1 = Ok e.1 /\ fits storable (f_bytes e.2) = true) l ->
  m_each (fun e => p_write_file storable ns e.1 (f_bytes e.2) (f_mode e.2)) l s =
  (let '(done, r) := allowed (fun e => may_put s ns e.1) l in Some (r, put_all s ns done)).
Proof.
  intros Hl. revert s. induction Hl as [|[p f] l [Hp Hf] _ IH]; intros s; cbn [m_each allowed]; [done|]. cbn [fst snd] in *.
  unfold m_bind. rewrite write_run by done. destruct (may_put s ns p) as [[]|e]; [|done]. rewrite IH.
  rewrite (allowed_ext _ (fun e => may_put s ns e.1)) by (intros e; apply may_put_put). by destruct (allowed (fun e => may_put s ns e.1) l) as [done_ r].
Qed.

Lemma each_map {A B} (f : A -> B) (body : B -> M Fs unit) l s : m_each body (map f l) s = m_each (fun x => body (f x)) l s.
Proof. revert s. induction l as [|x l IH]; intros s; cbn [map m_each]; [done|]. unfold m_bind. destruct (body (f x) s) as [[[[]|e] s1]|]; [apply IH|done|done]. Qed.

Lemma each_ext {A} (b1 b2 : A -> M Fs unit) l s : (forall x, x ∈ l -> forall s, b1 x s = b2 x s) -> m_each b1 l s = m_each b2 l s.
Proof.
  intros H. revert s. induction l as [|x l IH]; intros s; cbn [m_each]; [done|]. unfold m_bind. rewrite (H x ltac:(by left)).
  destruct (b2 x s) as [[[[]|e] s1]|]; [|done|done]. apply IH. intros y Hy. apply H. by right.
Qed.

(** The file under a key, as the code collects it. *)
Definition copy_read ns (prefix key : bytes) : M Fs (bytes * N * bytes) :=
  fm ⟸ m_gets (fun s => p_file_mode s ns key); b ⟸ p_read_file ns key; m_ret (drop (length prefix) key, default DEFAULT_FILE_MODE fm, b).

Lemma copy_read_run ns prefix p s :
  normalize_path p = Ok p ->
  copy_read ns prefix p s = Some (_ ← authorize_path (fs_access s) ns p Read; f ← p_found s ns p; Ok (drop (length prefix) p, f_mode f, f_bytes f), s).
Proof.
  intros Hp. unfold copy_read. rewrite bind_gets. unfold m_bind at 1. rewrite read_normal by done. destruct (authorize_path _ _ _ _) as [[]|]; cbn [mbind result_bind]; [|done].
  destruct (p_found s ns p) as [f|e] eqn:Hf; cbn [mbind result_bind]; [|done]. unfold m_ret. assert (p_file_mode s ns p = Some (f_mode f)) as ->; [|done].
  unfold p_found, lookup_file in Hf. unfold p_file_mode. destruct (name s ns p) as [[i|]|]; [|done|done]. cbn [mbind result_bind] in Hf.
  destruct (files s !! i); [|done]. by injection Hf as ->.
Qed.

Lemma read_each ns prefix l s :
  Forall (fun p => normalize_path p = Ok p) l ->
  m_map (copy_read ns prefix) l s = Some (es ← read_all s ns l; Ok (map (fun e => (drop (length prefix) e.1, f_mode e.2, f_bytes e.2)) es), s).
Proof.
  intros Hl. induction Hl as [|p l Hp _ IH]; cbn [m_map]; [done|]. unfold m_bind. rewrite copy_read_run by done. unfold read_all. cbn [try_map]. fold (read_all s ns l).
  destruct (authorize_path _ _ _ _) as [[]|]; cbn [mbind result_bind]; [|done]. destruct (p_found s ns p) as [f|e]; cbn [mbind result_bind]; [|done].
  rewrite IH. by destruct (read_all s ns l).
Qed.

Lemma record_each ns (target : bytes -> bytes) l s :
  m_each (fun d => m_modify (fun s => set_fs_dirs s (record_dir (fs_dirs s) ns (target d)))) l s =
  Some (Ok (), set_fs_dirs s (foldl (fun ds t => record_dir ds ns t) (fs_dirs s) (map target l))).
Proof.
  revert s. induction l as [|d l IH]; intros s; cbn [m_each map foldl]; [by destruct s|]. rewrite bind_modify, IH. done.
Qed.

Lemma record_all d ns t ts :
  Forall (fun t => t <> []) (t :: ts) ->
  foldl (fun ds t => record_dir ds ns t) (record_dir d ns t) ts = <[ns := default ∅ (d !! ns) ∪ ⋃ (map lineage (t :: ts))]> d.
Proof.
  revert d t. induction ts as [|t' ts IH]; intros d t [Ht Hts]%Forall_cons; cbn [foldl].
  - rewrite record_lineage by done. f_equal. cbn. set_solver.
  - rewrite IH by done. rewrite (record_lineage d) by done. rewrite lookup_insert_eq, insert_insert_eq. cbn [default from_option]. f_equal. cbn. set_solver.
Qed.

Lemma inside_moved src dst p :
  inside src p = true -> src <> [] -> normalize_path p = Ok p ->
  moved src dst p = dst ++ [slash] ++ drop (length (src ++ [slash])) p /\ (normalize_path dst = Ok dst -> normalize_path (moved src dst p) = Ok (moved src dst p)).
Proof.
  intros (r & ->)%inside_join Hs. unfold join. destruct src as [|c src]; [done|]. set (q := c :: src). rewrite normal_slash. intros [_ Hr].
  unfold moved. rewrite length_app. cbn [length]. rewrite Nat.add_1_r. change (q ++ slash :: r) with (q ++ [slash] ++ r). rewrite app_assoc, drop_app_length' by (rewrite length_app; cbn; lia).
  destruct r as [|c' r']; [done|]. split; [done|]. intros Hd. by apply normal_slash.
Qed.

(** The directories the code makes. *)
Definition dir_target (src dst d : bytes) : bytes :=
  let rel := if bool_decide (d = src) then [] else drop (length (src ++ [slash])) d in
  if bool_decide (rel = []) then dst else dst ++ [slash] ++ rel.

Lemma dir_target_moved src dst d : dir_target src dst d = moved src dst d.
Proof.
  unfold dir_target, moved. cbv zeta. rewrite length_app. cbn [length]. rewrite Nat.add_1_r. destruct (decide (d = src)) as [->|Hd].
  - rewrite (bool_decide_eq_true_2 (src = src)), bool_decide_eq_true_2 by done. by rewrite drop_ge by lia.
  - rewrite (bool_decide_eq_false_2 (d = src)) by done. case_bool_decide as Hr; [by rewrite Hr|]. by destruct (drop (S (length src)) d).
Qed.

Lemma moved_nonempty src dst d : dst <> [] -> moved src dst d <> [].
Proof. intros H. unfold moved. destruct (drop _ d); [done|]. by destruct dst. Qed.

Lemma recorded_dirs s ns src dst :
  src <> [] -> dst <> [] -> has_file s ns src = false ->
  set_fs_dirs s (foldl (fun ds t => record_dir ds ns t) (record_dir (fs_dirs s) ns dst)
    (map (dir_target src dst) (filter (fun k => k = src \/ starts_with k (src ++ [slash]) = true) (set_iter (dirs_in s ns))))) =
  add_dirs s ns (new_dirs s ns src dst).
Proof.
  intros Hs Hd Hf. rewrite record_all.
  2:{ constructor; [done|]. apply Forall_forall. intros t (d & -> & _)%list_elem_of_fmap. rewrite dir_target_moved. by apply moved_nonempty. }
  assert (⋃ (map lineage (dst :: map (dir_target src dst) (filter (fun k => k = src \/ starts_with k (src ++ [slash]) = true) (set_iter (dirs_in s ns))))) = new_dirs s ns src dst) as ->.
  { unfold new_dirs. rewrite Hf. cbn [map union_list foldr]. apply set_eq. intros q. rewrite !elem_of_union, !elem_of_union_list. split.
    - intros [?|(X & (t & -> & (d & -> & [Hin Hd'%set_iter_elem]%list_elem_of_filter)%list_elem_of_fmap)%list_elem_of_fmap & Hq)]; [by left|]. rewrite dir_target_moved in Hq.
      destruct Hin as [->|Hin]; [left; unfold moved in Hq; by rewrite drop_ge in Hq by lia|]. right. rewrite prefix_dir, inside_starts in Hin by done.
      eexists. split; [|done]. apply list_elem_of_fmap. exists d. split; [done|]. apply list_elem_of_filter. split; [done|]. by apply elem_of_elements.
    - intros [?|(X & (d & -> & [Hin Hd'%elem_of_elements]%list_elem_of_filter)%list_elem_of_fmap & Hq)]; [by left|right]. eexists. split; [|exact Hq].
      apply list_elem_of_fmap. exists (dir_target src dst d). split; [by rewrite dir_target_moved|]. apply list_elem_of_fmap. exists d. split; [done|].
      apply list_elem_of_filter. split; [|by apply set_iter_elem]. right. by rewrite prefix_dir, inside_starts. }
  rewrite add_dirs_some; [done|]. unfold new_dirs. rewrite Hf. intros E. pose proof (lineage_nonempty dst Hd). set_solver.
Qed.

Lemma moved_root src dst : moved src dst src = dst.
Proof. unfold moved. by rewrite drop_ge by lia. Qed.

Lemma copy_file_run ns src dst recursive s r s' f :
  normalize_path src = Ok src -> normalize_path dst = Ok dst -> has_file s ns src = true -> p_found s ns src = Ok f ->
  p_copy storable ns src dst recursive s = Some (r, s') -> (b ⟸ p_read_file ns src; p_write_file storable ns dst b (f_mode f)) s = Some (r, s').
Proof.
  intros Hs Hd Hf Hfound. unfold p_copy, subtree, new_dirs. rewrite Hf. cbn [negb andb]. unfold m_bind. rewrite read_normal by done.
  unfold read_all. cbn [try_map]. rewrite Hfound. destruct (authorize_path _ _ _ _) as [[]|]; cbn [mbind result_bind]; [|done]. cbn [map fst snd forallb allowed].
  assert (clashes s ns ∅ = false) as -> by (unfold clashes; apply bool_decide_eq_false; rewrite elements_empty; by intros ?%Exists_nil). rewrite andb_true_r.
  destruct (fits storable (f_bytes f)) eqn:Hfit; [|done]. cbn [orb negb]. assert (add_dirs s ns ∅ = s) as -> by (unfold add_dirs; by rewrite bool_decide_eq_true_2).
  rewrite moved_root, write_run by done. by destruct (may_put s ns dst) as [[]|].
Qed.

Lemma elem_of_names_below s ns dir p : p ∈ names_below s ns dir <-> inside dir p = true /\ is_Some (name s ns p).
Proof. unfold names_below. by rewrite set_iter_elem, elem_of_filter, elem_of_dom. Qed.

Lemma read_all_keys s ns l es : read_all s ns l = Ok es -> map fst es = l.
Proof.
  intros H%try_map_Ok. induction H as [|p [q f] l es Hp _ IH]; [done|]. cbn. f_equal; [|done]. destruct (authorize_path _ _ _ _) as [[]|]; [|done].
  cbn [mbind result_bind] in Hp. destruct (p_found s ns p); [|done]. by injection Hp as ->.
Qed.

(** The writes of a copied directory. *)
Lemma copy_writes ns src dst s0 s es :
  clean s0 -> src <> [] -> normalize_path dst = Ok dst -> map fst es = names_below s0 ns src -> forallb (fun e => fits storable (f_bytes e.2)) es = true ->
  m_each (fun '(rel, mode, b) => p_write_file storable ns (dst ++ [slash] ++ rel) b mode)
    (map (fun e : bytes * File => (drop (length (src ++ [slash])) e.1, f_mode e.2, f_bytes e.2)) es) s =
  (let '(done, r) := allowed (fun e => may_put s ns e.1) (map (fun e => (moved src dst e.1, e.2)) es) in Some (r, put_all s ns done)).
Proof.
  intros Hc Hs Hd Hes Hfit. assert (forall e, e ∈ es -> moved src dst e.1 = dst ++ [slash] ++ drop (length (src ++ [slash])) e.1 /\
    normalize_path (moved src dst e.1) = Ok (moved src dst e.1) /\ fits storable (f_bytes e.2) = true) as Hall.
  { intros e He. assert (e.1 ∈ names_below s0 ns src) as [Hi Hn]%elem_of_names_below by (rewrite <-Hes; by apply list_elem_of_fmap_2).
    destruct (inside_moved src dst e.1 Hi Hs (Hc _ _ Hn)) as [? ?]. rewrite forallb_forall in Hfit. split_and!; [done|auto|]. by apply (Hfit e), list_elem_of_In. }
  rewrite <-write_each.
  - rewrite !each_map. apply each_ext. intros e He s1. destruct (Hall e He) as [-> _]. done.
  - apply Forall_forall. intros e' (e & -> & He)%list_elem_of_fmap. destruct (Hall e He) as (_ & ? & ?). done.
Qed.

Lemma copy_meets ns src dst recursive : meets (copy_path ns src dst recursive) (p_copy_path storable ns src dst recursive).
Proof.
  apply meets_lift. intros s0 Hs0. apply meets_lift. intros d0 Hd0. pose proof (normalize_path_nonempty _ _ Hs0) as Hs. pose proof (normalize_path_nonempty _ _ Hd0) as Hd.
  apply normalize_path_idem in Hs0, Hd0. intros s r s' Ht Hr. rewrite bind_gets. cbn [fl_file_mode fl_read_file fl_write_file layer posix_layer]. destruct (has_file s ns s0) eqn:Hf.
  { destruct (has_file_found s ns s0 Ht Hf) as (f & Hfound & ->). by apply (copy_file_run ns s0 d0 recursive s r s' f). }
  assert (p_file_mode s ns s0 = None) as ->. { rewrite (file_mode_some s ns s0 Ht) in Hf. apply bool_decide_eq_false in Hf. by destruct (p_file_mode s ns s0); [destruct Hf|]. }
  rewrite bind_gets, !bind_guard, is_dir_has. unfold p_copy in Hr. rewrite Hf in Hr. cbn [negb andb] in Hr. destruct (has_dir s ns s0); cbn [negb] in *; [|done].
  destruct recursive; cbn [negb] in *; [|done]. cbv zeta. rewrite bind_gets. unfold subtree in Hr. rewrite Hf in Hr.
  change (fun key => fm ⟸ m_gets (fun s => p_file_mode s ns key); b ⟸ p_read_file ns key; m_ret (drop (length (s0 ++ [slash])) key, default DEFAULT_FILE_MODE fm, b))
    with (copy_read ns (s0 ++ [slash])). unfold m_bind at 1. rewrite (prefix_dir s0 Hs) at 2. rewrite under_names, read_each by apply names_below_normal, Ht.
  destruct (read_all s ns (names_below s ns s0)) as [es|e] eqn:Hes; cbn [mbind result_bind]; [|done]. apply read_all_keys in Hes.
  destruct (clashes _ _ _ || _) eqn:Hcl; [done|]. apply orb_false_iff in Hcl as [_ Hfit%negb_false_iff]. rewrite bind_gets, bind_modify.
  cbn [fl_dirs fl_set_dirs layer posix_layer]. unfold m_bind at 1.
  change (fun sd => m_modify (fun s => set_fs_dirs s (record_dir (fs_dirs s) ns (if bool_decide ((if bool_decide (sd = s0) then [] else drop (length (s0 ++ [slash])) sd) = [])
    then d0 else d0 ++ [slash] ++ (if bool_decide (sd = s0) then [] else drop (length (s0 ++ [slash])) sd)))))
    with (fun sd => m_modify (fun s => set_fs_dirs s (record_dir (fs_dirs s) ns (dir_target s0 d0 sd)))).
  rewrite record_each. change (set_fs_dirs (set_fs_dirs s ?d) ?d') with (set_fs_dirs s d'). cbn [fs_dirs set_fs_dirs]. fold (dirs_in s ns).
  rewrite recorded_dirs by done. rewrite (copy_writes ns s0 d0 s) by (done || apply Ht). done.
Qed.

(** ** Files written in turn *)

Lemma put_name s ns p b m ns' p' : (ns', p') <> (ns, p) -> name (put s ns p b m) ns' p' = name s ns' p'.
Proof.
  intros Hne. unfold put. destruct (name s ns p) as [[i|e]|]; [done| |]; rewrite name_create; by rewrite bool_decide_eq_false_2 by (intros [-> ->]; done).
Qed.

Lemma put_new s ns p b m : exists j, name (put s ns p b m) ns p = Some (NFile j) /\ files (put s ns p b m) !! j = Some (mkFile ns p b m) /\
  (name s ns p = Some (NFile j) \/ j = next_file s).
Proof.
  unfold put. destruct (name s ns p) as [[i|e]|] eqn:E.
  - exists i. split_and!; [done|apply lookup_insert_eq|by left].
  - exists (next_file s). rewrite name_create, bool_decide_eq_true_2 by done. split_and!; [done|apply lookup_insert_eq|by right].
  - exists (next_file s). rewrite name_create, bool_decide_eq_true_2 by done. split_and!; [done|apply lookup_insert_eq|by right].
Qed.

Lemma put_keeps s ns p b m i g : bounded s -> files s !! i = Some g -> name s ns p <> Some (NFile i) -> files (put s ns p b m) !! i = Some g.
Proof.
  intros Hb Hg Hn. unfold put. destruct (name s ns p) as [[j|e]|]; cbn [set_files create files].
  - by rewrite lookup_insert_ne by congruence.
  - apply Hb in Hg as Hlt. by rewrite lookup_insert_ne by lia.
  - apply Hb in Hg as Hlt. by rewrite lookup_insert_ne by lia.
Qed.

Lemma put_mono s ns p b m i : is_Some (files s !! i) -> is_Some (files (put s ns p b m) !! i).
Proof. intros [g Hg]. unfold put. destruct (name s ns p) as [[k|e]|]; cbn [set_files create files]; apply lookup_insert_is_Some'; eauto. Qed.

Lemma put_sound s ns p b m : sound s -> sound (put s ns p b m).
Proof.
  intros Hs. pose proof Hs as [Hb Hn Ho]. destruct (put_new s ns p b m) as (j & Hj & Hf & Hor).
  split.
  - intros i f. unfold put. destruct (name s ns p) as [[k|e]|] eqn:E; cbn [set_files create files next_file]; intros [[<- _]|[_ Hi]]%lookup_insert_Some; try (apply Hb in Hi); try lia; try done.
    destruct (Hn _ _ _ E) as (g & Hg & _). by apply Hb in Hg.
  - intros ns' p' i. destruct (decide ((ns', p') = (ns, p))) as [[= -> ->]|Hne].
    + rewrite Hj. intros [= <-]. eauto.
    + rewrite put_name by done. intros Hi. destruct (Hn _ _ _ Hi) as (f & Hfi & <- & <-). exists f. split_and!; [|done..]. apply put_keeps; [done..|].
      intros Hp. destruct (Hn _ _ _ Hp) as (f' & Hf' & Hns & Hpp). rewrite Hfi in Hf'. injection Hf' as <-. by rewrite Hns, Hpp in Hne.
  - intros h d. destruct (put_fields s ns p b m) as (_ & _ & -> & _). intros Hd. apply put_mono. by eapply Ho.
Qed.

(** What writing distinct names does. *)
Record puts s s' ns (l : list (bytes * File)) : Prop := {
  pu_fields : fs_access s' = fs_access s /\ fs_dirs s' = fs_dirs s /\ descriptors s' = descriptors s /\ next_descriptor s' = next_descriptor s;
  pu_sound : sound s';
  pu_other ns' p : (ns' = ns -> p ∉ map fst l) -> name s' ns' p = name s ns' p;
  pu_new p f : (p, f) ∈ l -> exists j, name s' ns p = Some (NFile j) /\ files s' !! j = Some (mkFile ns p (f_bytes f) (f_mode f)) /\
    (name s ns p = Some (NFile j) \/ files s !! j = None);
  pu_keeps i g : files s !! i = Some g -> (forall p, p ∈ map fst l -> name s ns p <> Some (NFile i)) -> files s' !! i = Some g;
}.

Lemma put_all_puts s ns l : sound s -> NoDup (map fst l) -> puts s (put_all s ns l) ns l.
Proof.
  revert s. induction l as [|[p f] l IH]; intros s Hs Hnd.
  { split; try done. intros p f H. by apply not_elem_of_nil in H. }
  cbn [map fst] in Hnd. apply NoDup_cons in Hnd as [Hp Hnd]. unfold put_all. cbn [foldl fst snd]. set (s1 := put s ns p (f_bytes f) (f_mode f)). fold (put_all s1 ns l).
  destruct (put_fields s ns p (f_bytes f) (f_mode f)) as (Fa & Fd & Fo & Fn). destruct (put_new s ns p (f_bytes f) (f_mode f)) as (j & Hj & Hfj & Hor).
  pose proof (put_sound s ns p (f_bytes f) (f_mode f) Hs) as Hs1. fold s1 in Fa, Fd, Fo, Fn, Hj, Hfj, Hs1.
  assert (Hn1 : forall q, q ∈ map fst l -> name s1 ns q = name s ns q) by (intros q Hq; apply put_name; by intros [= ->]).
  destruct (IH s1 Hs1 Hnd) as [(Ga & Gd & Go & Gn) Gs Gother Gnew Gkeeps]. split; [by rewrite Ga, Gd, Go, Gn|done| | |].
  - intros ns' q Hq. rewrite Gother by (intros E; specialize (Hq E); cbn [map] in Hq; set_solver). apply put_name. intros [= -> ->]. apply Hq; [done|]. left.
  - intros q g. rewrite elem_of_cons. intros [[= -> ->]|Hin].
    + exists j. rewrite Gother by done. split_and!; [done| |].
      * apply Gkeeps; [done|]. intros q Hq Hjq. destruct (so_named _ Hs1 _ _ _ Hjq) as (h & Hh & _ & Hpath). rewrite Hfj in Hh. injection Hh as <-. cbn in Hpath. by subst q.
      * destruct Hor as [?| ->]; [by left|right]. destruct (files s !! next_file s) eqn:E; [|done]. apply (so_bounded _ Hs) in E. lia.
    + destruct (Gnew q g Hin) as (k & Hk & Hfk & Hork). exists k. split_and!; [done..|]. rewrite Hn1 in Hork by by apply (list_elem_of_fmap_2 fst l (q, g)).
      destruct Hork as [?|Hnone]; [by left|right]. apply eq_None_not_Some. intros H%(put_mono s ns p (f_bytes f) (f_mode f)). fold s1 in H. rewrite Hnone in H. by destruct H.
  - intros i g Hg Hno. apply Gkeeps; [apply put_keeps; [apply Hs|done|apply Hno; left]|]. intros q Hq. rewrite Hn1 by done. apply Hno. by right.
Qed.

(** ** Moving a subtree *)

Lemma allowed_Ok {A} (f : A -> res ()) l done_ : allowed f l = (done_, Ok ()) -> done_ = l.
Proof.
  revert done_. induction l as [|x l IH]; intros done_; cbn [allowed]; [by intros [= <-]|]. destruct (f x) as [[]|]; [|done].
  destruct (allowed f l) as [a r]. intros [= <- ->]. f_equal. by apply IH.
Qed.

Lemma moved_below src dst r : r <> [] -> moved src dst (src ++ slash :: r) = dst ++ slash :: r.
Proof.
  intros Hr. unfold moved. change (src ++ slash :: r) with (src ++ [slash] ++ r). rewrite app_assoc, drop_app_length' by (rewrite length_app; cbn; lia). by destruct r.
Qed.

(** A subtree and where it goes. *)
Record moves s ns (src dst : bytes) : Prop := {
  mv_src : normalize_path src = Ok src;
  mv_dst : normalize_path dst = Ok dst;
  mv_tidy : tidy s;
  mv_apart : overlap s ns src dst = false;
}.

Section Moves.
Context s ns (src dst : bytes).
Hypothesis Hmv : moves s ns src dst.
Abbreviation L := (subtree s ns src).
Abbreviation to := (moved src dst).

Lemma src_nonempty : src <> [].
Proof. eapply normalize_path_nonempty, (mv_src _ _ _ _ Hmv). Qed.
Lemma dst_nonempty : dst <> [].
Proof. eapply normalize_path_nonempty, (mv_dst _ _ _ _ Hmv). Qed.

Lemma subtree_elem p :
  p ∈ L -> is_Some (name s ns p) /\ ((has_file s ns src = true /\ p = src) \/ (has_file s ns src = false /\ exists r, p = src ++ slash :: r /\ normalize_path r = Ok r)).
Proof.
  unfold subtree. destruct (has_file s ns src) eqn:Hf.
  - rewrite list_elem_of_singleton. intros ->. split; [|by left]. unfold has_file in Hf. by destruct (name s ns src).
  - intros [[r Hr]%inside_join Hn]%elem_of_names_below. split; [done|]. right. split; [done|]. pose proof src_nonempty as Hs. destruct (mv_tidy _ _ _ _ Hmv) as [Hc _].
    pose proof (Hc _ _ Hn) as Hp. unfold join in Hr. destruct src; [done|]. exists r. split; [done|]. rewrite Hr in Hp. by apply normal_slash in Hp as [_ ?].
Qed.

Lemma subtree_apart p k : p ∈ L -> k ∈ L -> to k <> p /\ to k <> src /\ normalize_path (to k) = Ok (to k) /\ (has_file s ns src = false -> inside src (to k) = false).
Proof.
  intros [_ Hp]%subtree_elem [_ Hk]%subtree_elem. pose proof (mv_apart _ _ _ _ Hmv) as Ha. unfold overlap in Ha. apply orb_false_iff in Ha as [Hne%bool_decide_eq_false Ha].
  pose proof src_nonempty as Hs. pose proof dst_nonempty as Hd. destruct Hk as [[Hf ->]|[Hf (r & -> & Hr)]]; rewrite Hf in Ha, Hp; cbn [negb andb] in Ha.
  - rewrite moved_root. split_and!; [|done|apply Hmv|by rewrite Hf]. destruct Hp as [[_ ->]|[? _]]; done.
  - rewrite moved_below by by eapply normalize_path_nonempty. apply orb_false_iff in Ha as [A1 A2].
    assert (forall t, dst ++ slash :: r <> src ++ slash :: t) as Hapart.
    { intros t E. apply app_eq_inv in E as [(k & -> & E)|(k & -> & E)].
      - destruct k as [|c k]; [by rewrite app_nil_r in Hne|]. injection E as <- _. rewrite (proj2 (inside_join src _)) in A1; [done|]. exists k. by destruct src.
      - destruct k as [|c k]; [by rewrite app_nil_r in Hne|]. injection E as <- _. rewrite (proj2 (inside_join dst _)) in A2; [done|]. exists k. by destruct dst. }
    split_and!.
    + destruct Hp as [[? _]|[_ (t & -> & _)]]; [done|]. apply Hapart.
    + intros E. rewrite (proj2 (inside_join dst _)) in A2; [done|]. exists r. rewrite <-E. by destruct dst.
    + apply normal_slash. split; [apply Hmv|done].
    + intros _. apply not_true_iff_false. intros [t E]%inside_join. apply (Hapart t). rewrite E. by destruct src.
Qed.

Lemma to_inj p q : p ∈ L -> q ∈ L -> to p = to q -> p = q.
Proof.
  intros [_ Hp]%subtree_elem [_ Hq]%subtree_elem. destruct Hp as [[Hf ->]|[Hf (r & -> & Hr)]], Hq as [[Hf' ->]|[Hf' (t & -> & Ht)]]; try done; try (rewrite Hf in Hf'; done).
  rewrite !moved_below by by eapply normalize_path_nonempty. intros E%(app_inv_head dst). by injection E as ->.
Qed.

Lemma subtree_NoDup : NoDup L.
Proof.
  unfold subtree. destruct (has_file s ns src); [apply NoDup_singleton|]. pose proof (sorted_by_NoDup id _ (set_iter_sorted (filter (fun p => inside src p = true) (dom (names_of s ns))))) as H.
  by rewrite map_id in H.
Qed.

Lemma targets_NoDup : NoDup (map to L).
Proof.
  pose proof subtree_NoDup as Hnd. assert (forall p q, p ∈ L -> q ∈ L -> to p = to q -> p = q) as Hinj by apply to_inj. revert Hinj.
  induction Hnd as [|p l Hp _ IH]; intros Hinj; [constructor|]. cbn [map]. constructor.
  - intros (q & E & Hq)%list_elem_of_fmap. apply Hinj in E as ->; [done|by left|by right].
  - apply IH. intros q q' H1 H2. apply Hinj; by right.
Qed.
End Moves.

Section Rename.
Context s ns (src dst : bytes).
Hypothesis Hmv : moves s ns src dst.
Abbreviation L := (subtree s ns src).
Abbreviation to := (moved src dst).
Abbreviation s' := (renamed s ns src dst).

Lemma rename_fields : fs_access s' = fs_access s /\ descriptors s' = descriptors s /\ next_descriptor s' = next_descriptor s /\ next_file s' = next_file s.
Proof. unfold renamed, add_dirs. cbv zeta. destruct (has_file s ns src); [done|]. by case_bool_decide. Qed.

Lemma rename_name ns' p :
  (ns' = ns -> p ∉ map to L) -> name s' ns' p = if bool_decide (ns' = ns /\ p ∈ L) then None else name s ns' p.
Proof.
  intros Hp. assert (name s' ns' p = default ∅ (<[ns := list_to_map (omap (fun p => (fun n => (to p, n)) <$> name s ns p) L) ∪ filter (fun e => e.1 ∉ L) (names_of s ns)]> (names s) !! ns') !! p) as ->.
  { unfold renamed, add_dirs. cbv zeta. destruct (has_file s ns src); [done|]. by case_bool_decide. }
  destruct (decide (ns' = ns)) as [->|Hne].
  - rewrite lookup_insert_eq. cbn [default from_option]. change (id ?x) with x. rewrite lookup_union_r.
    + case_bool_decide as Hin; [apply map_lookup_filter_None; right; intros n _ H; by apply H, Hin|]. unfold name.
      destruct (names_of s ns !! p) eqn:E; [apply map_lookup_filter_Some; split; [done|]; cbn; tauto|apply map_lookup_filter_None; by left].
    + apply not_elem_of_list_to_map_1. intros ([q n] & -> & (k & Hk & (n' & _ & [= -> ->])%fmap_Some)%list_elem_of_omap)%list_elem_of_fmap. apply Hp; [done|]. by apply (list_elem_of_fmap_2 to).
  - rewrite lookup_insert_ne by done. by rewrite bool_decide_eq_false_2 by tauto.
Qed.

Lemma rename_moved k : k ∈ L -> name s' ns (to k) = name s ns k.
Proof.
  intros Hk. destruct (subtree_elem s ns src dst Hmv k Hk) as [[n Hn] _].
  assert (name s' ns (to k) = (list_to_map (omap (fun p => (fun n => (to p, n)) <$> name s ns p) L) ∪ filter (fun e => e.1 ∉ L) (names_of s ns) : gmap bytes Node) !! to k) as ->.
  { assert (forall m, default ∅ (<[ns := m]> (names s) !! ns) = m) as Hins by (intros m; by rewrite lookup_insert_eq).
    unfold renamed, add_dirs. cbv zeta. unfold name at 1, names_of at 1. destruct (has_file s ns src); [apply (f_equal (lookup (to k))), Hins|]. case_bool_decide; apply (f_equal (lookup (to k))), Hins. }
  rewrite Hn. apply lookup_union_Some_l. apply elem_of_list_to_map_1'.
  - intros n' (q & Hq & (n2 & Hn2 & [= E ->])%fmap_Some)%list_elem_of_omap. apply (to_inj s ns src dst Hmv) in E as ->; [congruence|done|done].
  - apply list_elem_of_omap. exists k. split; [done|]. by rewrite Hn.
Qed.

Lemma rename_file i f : files s !! i = Some f ->
  files s' !! i = Some (if linked s i f && bool_decide (f_ns f = ns /\ f_path f ∈ L) then mkFile ns (to (f_path f)) (f_bytes f) (f_mode f) else f).
Proof.
  intros Hf. assert (files s' = map_imap (fun i f => Some (if linked s i f && bool_decide (f_ns f = ns /\ f_path f ∈ L) then mkFile ns (to (f_path f)) (f_bytes f) (f_mode f) else f)) (files s)) as ->.
  { unfold renamed, add_dirs. cbv zeta. destruct (has_file s ns src); [done|]. by case_bool_decide. }
  rewrite map_lookup_imap, Hf. done.
Qed.

Lemma rename_bounded : bounded s'.
Proof.
  intros i f Hf. destruct rename_fields as (_ & _ & _ & ->). destruct (mv_tidy _ _ _ _ Hmv) as [_ Hs].
  assert (files s' = map_imap (fun i f => Some (if linked s i f && bool_decide (f_ns f = ns /\ f_path f ∈ L) then mkFile ns (to (f_path f)) (f_bytes f) (f_mode f) else f)) (files s)) as E.
  { unfold renamed, add_dirs. cbv zeta. destruct (has_file s ns src); [done|]. by case_bool_decide. }
  rewrite E, map_lookup_imap in Hf. apply bind_Some in Hf as (g & Hg & _). by eapply so_bounded.
Qed.
End Rename.

Lemma busy_false s ns l p h d : busy s ns l = false -> p ∈ l -> descriptors s !! h = Some d -> name s ns p <> Some (NFile (d_file d)).
Proof.
  intros Hb Hp Hd Hn. assert (busy s ns l = true); [|congruence]. apply existsb_exists. exists p. split; [by apply list_elem_of_In|]. rewrite Hn.
  apply existsb_exists. exists (h, d). split; [|apply N.eqb_refl]. by apply list_elem_of_In, elem_of_map_to_list.
Qed.

Lemma read_all_found s ns l es k : read_all s ns l = Ok es -> k ∈ l -> exists i f, (k, f) ∈ es /\ name s ns k = Some (NFile i) /\ files s !! i = Some f.
Proof.
  intros H%try_map_Ok Hk. induction H as [|p [q f] l es Hp _ IH]; [by apply not_elem_of_nil in Hk|]. apply elem_of_cons in Hk as [->|Hk].
  - destruct (authorize_path _ _ _ _) as [[]|]; [|done]. cbn [mbind result_bind] in Hp. destruct (p_found s ns p) as [g|] eqn:Hg; [|done]. injection Hp as <- <-.
    unfold p_found, lookup_file in Hg. destruct (name s ns p) as [[i|]|]; [|done|done]. cbn [mbind result_bind] in Hg. destruct (files s !! i) as [f'|] eqn:Hf; [|done].
    injection Hg as ->. exists i, g. split; [by left|done].
  - destruct (IH Hk) as (i & g & ? & ?). exists i, g. split; [by right|done].
Qed.

Lemma add_dirs_fields s ns X : names (add_dirs s ns X) = names s /\ files (add_dirs s ns X) = files s /\ next_file (add_dirs s ns X) = next_file s /\
  descriptors (add_dirs s ns X) = descriptors s /\ next_descriptor (add_dirs s ns X) = next_descriptor s /\ fs_access (add_dirs s ns X) = fs_access s.
Proof. unfold add_dirs. by case_bool_decide. Qed.

Lemma add_dirs_name s ns X ns' p : name (add_dirs s ns X) ns' p = name s ns' p.
Proof. unfold name, names_of. by rewrite (proj1 (add_dirs_fields s ns X)). Qed.

Lemma add_dirs_sound s ns X : sound s -> sound (add_dirs s ns X).
Proof.
  intros [Hb Hn Ho]. destruct (add_dirs_fields s ns X) as (_ & Ef & En & Ed & _). split.
  - intros i f. rewrite Ef, En. apply Hb.
  - intros ns' p i. rewrite add_dirs_name, Ef. apply Hn.
  - intros h d. rewrite Ed, Ef. apply Ho.
Qed.

Section Moved.
Context s ns (src dst : bytes) (es : list (bytes * File)) (s2 : Fs).
Hypothesis Hmv : moves s ns src dst.
Abbreviation L := (subtree s ns src).
Abbreviation to := (moved src dst).
Abbreviation s' := (renamed s ns src dst).
Hypothesis Hbusy : busy s ns (L ++ map to L) = false.
Hypothesis Hes : read_all s ns L = Ok es.
Hypothesis Hputs : puts (add_dirs s ns (new_dirs s ns src dst)) s2 ns (map (fun e => (to e.1, e.2)) es).

Lemma moved_keys : map fst (map (fun e : bytes * File => (to e.1, e.2)) es) = map to L.
Proof. rewrite <-(read_all_keys _ _ _ _ Hes), !map_map. done. Qed.

(** The copy of a moved file, and the file renamed. *)
Lemma moved_target k : k ∈ L -> exists j i f, name s2 ns (to k) = Some (NFile j) /\ name s' ns (to k) = Some (NFile i) /\
  files s2 !! j = Some (mkFile ns (to k) (f_bytes f) (f_mode f)) /\ files s' !! i = Some (mkFile ns (to k) (f_bytes f) (f_mode f)) /\
  name s ns k = Some (NFile i) /\ (name s ns (to k) = Some (NFile j) \/ files s !! j = None).
Proof.
  intros Hk. destruct (read_all_found s ns L es k Hes Hk) as (i & f & Hin & Hn & Hf). destruct (mv_tidy _ _ _ _ Hmv) as [_ Hs].
  destruct (pu_new _ _ _ _ Hputs (to k) f) as (j & Hj & Hfj & Hor); [apply list_elem_of_fmap; by exists (k, f)|]. rewrite add_dirs_name, (proj1 (proj2 (add_dirs_fields _ _ _))) in Hor.
  exists j, i, f. split_and!; try done; [by rewrite (rename_moved s ns src dst Hmv)|]. destruct (so_named _ Hs _ _ _ Hn) as (g & Hg & Hns & Hp). rewrite Hf in Hg. injection Hg as <-.
  rewrite (rename_file s ns src dst i f Hf). assert (linked s i f = true) as -> by (apply linked_true; by rewrite Hns, Hp). by rewrite Hp, bool_decide_eq_true_2.
Qed.

Lemma moved_other ns' p : (ns' = ns -> p ∉ map to L) -> name s2 ns' p = name s ns' p.
Proof. intros H. rewrite (pu_other _ _ _ _ Hputs); [apply add_dirs_name|]. by rewrite moved_keys. Qed.

(** Other files stay, in both. *)
Lemma moved_keeps i g : files s !! i = Some g -> (forall p, p ∈ map to L -> name s ns p <> Some (NFile i)) -> (f_ns g = ns -> f_path g ∈ L -> name s ns (f_path g) <> Some (NFile i)) ->
  files s2 !! i = Some g /\ files s' !! i = Some g.
Proof.
  intros Hg Hto Hl. split.
  - apply (pu_keeps _ _ _ _ Hputs); [by rewrite (proj1 (proj2 (add_dirs_fields _ _ _)))|]. rewrite moved_keys. intros p Hp. rewrite add_dirs_name. by apply Hto.
  - rewrite (rename_file s ns src dst i g Hg). destruct (linked s i g) eqn:El; [|done]. case_bool_decide as Hb; [|done]. destruct Hb as [Hns Hp]. apply linked_true in El. rewrite Hns in El. by destruct (Hl Hns Hp).
Qed.

Lemma moved_names ns' p : match name (unlink_all s2 ns L) ns' p, name s' ns' p with
  | Some (NFile i), Some (NFile j) => files s2 !! i = files s' !! j
  | Some (NOther e), Some (NOther e') => e = e'
  | None, None => True
  | _, _ => False end.
Proof.
  rewrite name_unlink_all. destruct (decide (ns' = ns /\ p ∈ map to L)) as [[-> (k & -> & Hk)%list_elem_of_fmap]|Hno].
  - rewrite bool_decide_eq_false_2. 2:{ intros [_ Hin]. by destruct (subtree_apart s ns src dst Hmv (to k) k Hin Hk) as (? & _). }
    destruct (moved_target k Hk) as (j & i & f & -> & -> & -> & -> & _). done.
  - rewrite rename_name by tauto. case_bool_decide as Hin; [done|]. rewrite moved_other by tauto. destruct (name s ns' p) as [[i|e]|] eqn:Hn; [|done|done].
    destruct (mv_tidy _ _ _ _ Hmv) as [_ Hs]. destruct (so_named _ Hs _ _ _ Hn) as (g & Hg & Hns & Hp). destruct (moved_keeps i g Hg) as [-> ->]; [| |done].
    + intros q Hq Hqi. destruct (so_named _ Hs _ _ _ Hqi) as (g' & Hg' & Hns' & Hp'). apply Hno. rewrite Hg in Hg'. injection Hg' as <-. split; congruence.
    + intros E1 E2. destruct Hin. split; congruence.
Qed.

Lemma moved_open h d : descriptors s !! h = Some d -> files s2 !! d_file d = files s' !! d_file d /\
  forall f, files s2 !! d_file d = Some f -> linked (unlink_all s2 ns L) (d_file d) f = linked s' (d_file d) f.
Proof.
  intros Hd. destruct (mv_tidy _ _ _ _ Hmv) as [_ Hs]. destruct (so_open _ Hs h d Hd) as [g Hg].
  assert (forall p, p ∈ L ++ map to L -> name s ns p <> Some (NFile (d_file d))) as Hno by (intros p Hp; by eapply busy_false).
  destruct (moved_keeps (d_file d) g Hg) as [E2 E']; [intros p Hp; apply Hno, elem_of_app; by right|intros _ Hp; apply Hno, elem_of_app; by left|].
  rewrite E2, E'. split; [done|]. intros f [= <-]. unfold linked. rewrite name_unlink_all. destruct (decide (f_ns g = ns /\ f_path g ∈ map to L)) as [[Hns (k & Hp & Hk)%list_elem_of_fmap]|Hn].
  - rewrite Hns, Hp. rewrite bool_decide_eq_false_2. 2:{ intros [_ Hin]. by destruct (subtree_apart s ns src dst Hmv (to k) k Hin Hk) as (? & _). }
    destruct (moved_target k Hk) as (j & i & f & -> & -> & _ & _ & Hi & Hj). assert (j <> d_file d) as H1. { intros ->. destruct Hj as [Hj|Hj]; [|congruence]. by apply (Hno (to k)); [apply elem_of_app; right; apply list_elem_of_fmap_2|]. }
    assert (i <> d_file d) as H2. { intros ->. by apply (Hno k); [apply elem_of_app; left|]. } by rewrite !(proj2 (N.eqb_neq _ _)).
  - rewrite rename_name by tauto. case_bool_decide; [done|]. by rewrite moved_other by tauto.
Qed.

Lemma rename_alike s4 :
  s4 = (if has_file s ns src then unlink_all s2 ns L else drop_dir (unlink_all s2 ns L) ns src) -> alike s4 s'.
Proof.
  intros E4. assert (fs_access s4 = fs_access s2 /\ descriptors s4 = descriptors s2 /\ next_descriptor s4 = next_descriptor s2 /\ files s4 = files s2 /\ names s4 = names (unlink_all s2 ns L)) as (A1 & A2 & A3 & A4 & A5).
  { rewrite E4. by destruct (has_file s ns src). }
  assert (forall ns' p, name s4 ns' p = name (unlink_all s2 ns L) ns' p) as Hname by (intros; unfold name, names_of; by rewrite A5).
  destruct (pu_fields _ _ _ _ Hputs) as (B1 & B2 & B3 & B4). destruct (add_dirs_fields s ns (new_dirs s ns src dst)) as (_ & _ & _ & C1 & C2 & C3).
  destruct (rename_fields s ns src dst) as (D1 & D2 & D3 & D4). split.
  - by rewrite A1, B1, C3, D1.
  - rewrite E4. unfold renamed. cbv zeta. destruct (has_file s ns src) eqn:Hf.
    + unfold new_dirs in B2. rewrite Hf in B2. cbn [unlink_all set_names fs_dirs set_files]. rewrite B2. unfold add_dirs. by rewrite bool_decide_eq_true_2.
    + cbn [drop_dir set_fs_dirs unlink_all set_names fs_dirs]. rewrite B2. unfold add_dirs. by case_bool_decide.
  - by rewrite A2, B3, C1, D2.
  - by rewrite A3, B4, C2, D3.
  - intros ns' p. rewrite Hname, A4. apply moved_names.
  - apply (rename_bounded s ns src dst Hmv).
  - intros h d. rewrite A2, B3, C1. intros Hd. destruct (moved_open h d Hd) as [H1 H2]. rewrite A4. split; [done|]. intros f Hf. rewrite <-H2 by done. unfold linked. by rewrite Hname.
Qed.
End Moved.

Lemma copy_done ns src dst s s2 :
  p_copy storable ns src dst true s = Some (Ok (), s2) ->
  (has_file s ns src || has_dir s ns src) = true /\ exists es, read_all s ns (subtree s ns src) = Ok es /\
    s2 = put_all (add_dirs s ns (new_dirs s ns src dst)) ns (map (fun e => (moved src dst e.1, e.2)) es).
Proof.
  unfold p_copy. rewrite andb_false_r. destruct (has_file s ns src || has_dir s ns src) eqn:E; rewrite <-negb_orb, E; cbn [negb]; [|done].
  destruct (read_all _ _ _) as [es|]; [|done]. cbv zeta. destruct (clashes _ _ _ || _); [done|]. destruct (allowed _ _) as [done_ r] eqn:Ea. intros [= -> <-]. apply allowed_Ok in Ea as ->. eauto.
Qed.

Lemma each_one {A} (body : A -> M Fs unit) x s : m_each body [x] s = body x s.
Proof. cbn [m_each]. unfold m_bind, m_ret. by destruct (body x s) as [[[[]|e] s1]|]. Qed.

Section Move.
Context s ns (src dst : bytes) (s2 : Fs) (es : list (bytes * File)).
Hypothesis Hmv : moves s ns src dst.
Hypothesis Hes : read_all s ns (subtree s ns src) = Ok es.
Hypothesis Hs2 : s2 = put_all (add_dirs s ns (new_dirs s ns src dst)) ns (map (fun e => (moved src dst e.1, e.2)) es).

Lemma move_puts : puts (add_dirs s ns (new_dirs s ns src dst)) s2 ns (map (fun e => (moved src dst e.1, e.2)) es).
Proof.
  rewrite Hs2. apply put_all_puts; [apply add_dirs_sound, (mv_tidy _ _ _ _ Hmv)|]. rewrite (moved_keys s ns src dst es Hes). apply (targets_NoDup s ns src dst Hmv).
Qed.

Lemma move_tidy : tidy s2.
Proof.
  split; [|apply (pu_sound _ _ _ _ move_puts)]. intros ns' p. destruct (decide (ns' = ns /\ p ∈ map (moved src dst) (subtree s ns src))) as [[-> (k & -> & Hk)%list_elem_of_fmap]|Hno].
  - intros _. by destruct (subtree_apart s ns src dst Hmv k k Hk Hk) as (_ & _ & ? & _).
  - rewrite (moved_other s ns src dst es s2 Hes move_puts) by tauto. apply (proj1 (mv_tidy _ _ _ _ Hmv)).
Qed.

Lemma move_has_file : has_file s2 ns src = has_file s ns src.
Proof.
  unfold has_file. rewrite (moved_other s ns src dst es s2 Hes move_puts); [done|]. intros _ (k & E & Hk)%list_elem_of_fmap.
  by destruct (subtree_apart s ns src dst Hmv k k Hk Hk) as (_ & ? & _).
Qed.

Lemma move_below : has_file s ns src = false -> names_below s2 ns src = subtree s ns src.
Proof.
  intros Hf. unfold subtree. rewrite Hf. unfold names_below. f_equal. apply set_eq. intros p. rewrite !elem_of_filter, !elem_of_dom. fold (name s2 ns p) (name s ns p).
  split; intros [Hi Hp]; (split; [done|]); rewrite (moved_other s ns src dst es s2 Hes move_puts) in *; try done;
    intros _ (k & -> & Hk)%list_elem_of_fmap; destruct (subtree_apart s ns src dst Hmv k k Hk Hk) as (_ & _ & _ & H); by rewrite (H Hf) in Hi.
Qed.

(** What the code does after the copy, and where it ends. *)
Lemma move_clear r s3 :
  (if has_file s ns src then p_remove_all ns [src] else p_remove_tree ns src) s2 = Some (r, s3) ->
  (f ⟸ m_gets (fun s => is_file s ns src);
   if (f : bool) then p_remove_file ns src
   else
     under ⟸ m_gets (fun s => staged_under s ns (src ++ [slash]));
     _ ⟸ m_each (fun key => p_remove_file ns key) under;
     m_modify (fun s => set_fs_dirs s (drop_dirs (fs_dirs s) ns src (src ++ [slash])))) s2 = Some (r, s3) /\
  (r = Ok () -> s3 = if has_file s ns src then unlink_all s2 ns (subtree s ns src) else drop_dir (unlink_all s2 ns (subtree s ns src)) ns src).
Proof.
  rewrite bind_gets, is_file_has, move_has_file by apply move_tidy. destruct (has_file s ns src) eqn:Hf; intros H.
  - split.
    + rewrite <-H, <-remove_each, each_one; [done|]. constructor; [apply Hmv|constructor].
    + intros ->. unfold subtree. rewrite Hf. unfold p_remove_all in H. destruct (allowed _ _) as [done_ r'] eqn:E. injection H as -> <-. by apply allowed_Ok in E as ->.
  - split.
    + rewrite bind_gets, remove_tree_run; [done|apply move_tidy|]. eapply normalize_path_nonempty, (mv_src _ _ _ _ Hmv).
    + intros ->. unfold p_remove_tree in H. rewrite bind_gets, (move_below Hf) in H. unfold m_bind, p_remove_all in H. destruct (allowed _ _) as [done_ [[]|]] eqn:E; [|done].
      injection H as <-. by apply allowed_Ok in E as ->.
Qed.
End Move.

Lemma bind_eq {A B} (m : M Fs A) (k : A -> M Fs B) s :
  m_bind m k s = match m s with Some (Ok x, s1) => k x s1 | Some (Err e, s1) => Some (Err e, s1) | None => None end.
Proof. done. Qed.

Lemma move_run ns src dst s r s' :
  tidy s -> p_move_path storable ns src dst s = Some (r, s') -> exists s1, move_path ns src dst s = Some (r, s1) /\ (s1 = s' \/ alike s1 s').
Proof.
  intros Ht. unfold p_move_path, move_path. destruct (normalize_path src) as [s0|e] eqn:Hs0; [|intros [= <- <-]; by eauto]. rewrite !(m_bind_run (m_lift (Ok s0)) _ s s s0) by done.
  destruct (guard_reserved_write s0) as [[]|e]; [|intros [= <- <-]; by eauto]. rewrite !(m_bind_run (m_lift (Ok ())) _ s s ()) by done.
  destruct (normalize_path dst) as [d0|e] eqn:Hd0; [|intros [= <- <-]; by eauto]. rewrite !(m_bind_run (m_lift (Ok d0)) _ s s d0) by done.
  destruct (guard_reserved_write d0) as [[]|e]; [|intros [= <- <-]; by eauto]. rewrite !(m_bind_run (m_lift (Ok ())) _ s s ()) by done. unfold p_move. cbv zeta.
  destruct (_ && _) eqn:Hc; [done|]. assert (forall r s2, p_copy storable ns s0 d0 true s = Some (r, s2) -> copy_path ns src dst true s = Some (r, s2)) as Hcopy.
  { intros r2 s2 E. apply (copy_meets ns src dst true s r2 s2 Ht). unfold p_copy_path. by rewrite Hs0, Hd0. }
  rewrite (bind_eq (copy_path ns src dst true)), (bind_eq (p_copy storable ns s0 d0 true)). destruct (p_copy storable ns s0 d0 true s) as [[[[]|e] s2]|] eqn:Ecopy; [| |done]; rewrite (Hcopy _ _ eq_refl).
  2:{ intros [= <- <-]. by eauto. }
  destruct (copy_done _ _ _ _ _ Ecopy) as (Hex & es & Hes & Hs2). rewrite Hex in Hc. cbn [andb] in Hc. apply orb_false_iff in Hc as [Hov Hbusy].
  assert (moves s ns s0 d0) as Hmv by (split; [by eapply normalize_path_idem|by eapply normalize_path_idem|done|done]).
  destruct ((if has_file s ns s0 then p_remove_all ns [s0] else p_remove_tree ns s0) s2) as [[r3 s3]|] eqn:Eclear; [|done]. destruct (move_clear s ns s0 d0 s2 es Hmv Hes Hs2 r3 s3 Eclear) as [Hrun Hend].
  cbn [fl_remove_file fl_set_dirs fl_dirs layer posix_layer]. cbv zeta. rewrite Hrun. destruct r3 as [[]|e]; intros [= <- <-]; exists s3; (split; [done|]); [right|by left].
  eapply (rename_alike s ns s0 d0 es s2 Hmv Hbusy Hes (move_puts s ns s0 d0 s2 es Hmv Hes Hs2)). by apply Hend.
Qed.
End Facade.

(** ** Names stay in normal form *)

(** From names in normal form the computation leads to such names, and to a result with the property. *)
Definition stays {A} (P : A -> Prop) (m : M Fs A) : Prop := forall s r s', clean s -> m s = Some (r, s') -> clean s' /\ forall x, r = Ok x -> P x.
Abbreviation any := (fun _ => True).
Abbreviation normal := (fun p => normalize_path p = Ok p).

Lemma stays_bind {A B} (P : A -> Prop) (Q : B -> Prop) m k : stays P m -> (forall x, P x -> stays Q (k x)) -> stays Q (m_bind m k).
Proof.
  intros Hm Hk s r s' Hc. unfold m_bind. destruct (m s) as [[[x|e] s1]|] eqn:E; [| |done]; destruct (Hm s _ s1 Hc E) as [Hc1 Hx].
  - apply (Hk x (Hx x eq_refl) s1 r s' Hc1).
  - by intros [= <- <-].
Qed.
Lemma stays_weaken {A} (P Q : A -> Prop) m : (forall x, P x -> Q x) -> stays P m -> stays Q m.
Proof. intros H Hm s r s' Hc E. destruct (Hm s r s' Hc E) as [? Hx]. split; [done|]. intros x ->. by apply H, Hx. Qed.
Lemma stays_any {A} (P : A -> Prop) (m : M Fs A) : stays P m -> stays any m.
Proof. by apply stays_weaken. Qed.
Lemma stays_ret {A} (P : A -> Prop) x : P x -> stays P (m_ret x).
Proof. intros H s r s' Hc [= <- <-]. split; [done|]. by intros y [= <-]. Qed.
Lemma stays_lift {A} (r : res A) : stays (fun x => r = Ok x) (m_lift r).
Proof. intros s r' s' Hc [= <- <-]. done. Qed.
Lemma stays_normal p : stays normal (m_lift (normalize_path p)).
Proof. eapply stays_weaken; [|apply stays_lift]. intros q. apply normalize_path_idem. Qed.
Lemma stays_same {A} (m : M Fs A) : (forall s r s', m s = Some (r, s') -> s' = s) -> stays any m.
Proof. intros H s r s' Hc E. by rewrite (H s r s' E). Qed.
Lemma stays_modify f : (forall s, clean s -> clean (f s)) -> stays any (m_modify f).
Proof. intros H s r s' Hc [= <- <-]. auto. Qed.

Lemma clean_put s ns p b m : clean s -> normal p -> clean (put s ns p b m).
Proof.
  intros Hc Hp ns' p'. destruct (decide ((ns', p') = (ns, p))) as [[= -> ->]|Hne]; [done|]. rewrite put_name by done. apply Hc.
Qed.
Lemma clean_names s s' : names s' = names s -> clean s -> clean s'.
Proof. intros E Hc ns p. unfold name, names_of. rewrite E. apply Hc. Qed.
Lemma clean_less s s' : (forall ns p, is_Some (name s' ns p) -> is_Some (name s ns p)) -> clean s -> clean s'.
Proof. intros H Hc ns p Hp. apply (Hc ns), H, Hp. Qed.
Lemma clean_create s ns p b m : clean s -> normal p -> clean (create s ns p b m).
Proof. intros Hc Hp ns' p'. rewrite name_create. case_bool_decide as E; [by destruct E as [_ ->]|]. apply Hc. Qed.
Lemma clean_unlink s ns p : clean s -> clean (unlink s ns p).
Proof. apply clean_less. intros ns' p'. rewrite name_unlink. case_bool_decide; [by intros [? ?]|done]. Qed.
Lemma clean_unlink_all s ns l : clean s -> clean (unlink_all s ns l).
Proof. apply clean_less. intros ns' p'. rewrite name_unlink_all. case_bool_decide; [by intros [? ?]|done]. Qed.
Lemma clean_bytes s i b : clean s -> clean (set_bytes s i b).
Proof. apply clean_names. unfold set_bytes. by destruct (files s !! i). Qed.
Lemma clean_put_all s ns l : clean s -> Forall (fun e : bytes * File => normal e.1) l -> clean (put_all s ns l).
Proof. intros Hc Hl. revert s Hc. induction Hl as [|e l He _ IH]; intros s Hc; [done|]. apply IH. by apply clean_put. Qed.

(** A step that the rules above cover. *)
Ltac stay :=
  lazymatch goal with
  | |- stays _ (m_bind (m_lift (normalize_path _)) _) => eapply stays_bind; [apply stays_normal|intros ? ?]
  | |- stays _ (m_bind (m_bind _ _) _) => eapply stays_bind; [|intros ? ?]
  | |- stays _ (m_bind _ _) => apply (stays_bind any); [|intros ? _]
  | |- stays any (m_ret _) => by apply stays_ret
  | |- stays any (m_lift _) => by apply stays_same; intros ? ? ? [= _ <-]
  | |- stays any (m_err _) => by apply stays_same; intros ? ? ? [= _ <-]
  | |- stays any (m_read _) => by apply stays_same; intros ? ? ? [= _ <-]
  | |- stays any (m_gets _) => by apply stays_same; intros ? ? ? [= _ <-]
  | |- stays any (m_guard ?c _) => by apply stays_same; intros ? ? ?; unfold m_guard; destruct c; intros [= _ <-]
  | |- stays any (p_auth_path _ _ _) => by apply stays_same; intros ? ? ? [= _ <-]
  | |- stays any (assume_fits _ ?b) => apply stays_same; intros ? ? ?; unfold assume_fits; destruct (fits _ b); [by intros [= _ <-]|done]
  | |- stays any assume_room => apply stays_same; intros s ? ?; unfold assume_room; destruct (has_room s); [by intros [= _ <-]|done]
  | |- stays any (m_modify (fun s => put s _ _ _ _)) => apply stays_modify; intros; by apply clean_put
  | |- stays any (m_modify (fun s => create s _ _ _ _)) => apply stays_modify; intros; by apply clean_create
  | |- stays any (m_modify (fun s => Posix.unlink s _ _)) => apply stays_modify; intros; by apply clean_unlink
  | |- stays any (m_modify (fun s => set_bytes s _ _)) => apply stays_modify; intros; by apply clean_bytes
  | |- stays any (m_modify _) => apply stays_modify; intros ? ?; eapply clean_names; [|eassumption]; done
  | |- stays _ (let b := _ in _) => cbv zeta
  | |- stays any (if ?c then _ else _) => destruct c
  | |- stays any (match ?x with _ => _ end) => destruct x
  end.

Section Keeps.
Context (storable : bytes -> bool).

Lemma target_keeps ns p : stays normal (p_target ns p).
Proof. unfold p_target. do 3 stay; try by stay. by apply stays_ret. Qed.

Lemma write_norm_keeps ns p b m : normal p -> stays any (p_write_norm storable ns p b m).
Proof. intros Hp. unfold p_write_norm. repeat stay. Qed.
Lemma write_keeps ns p b m : stays any (p_write_file storable ns p b m).
Proof. eapply stays_bind; [apply target_keeps|]. intros q Hq. by apply write_norm_keeps. Qed.
Lemma write_reserved_keeps ns p b m : stays any (p_write_file_reserved storable ns p b m).
Proof. unfold p_write_file_reserved. stay. by apply write_norm_keeps. Qed.
Lemma edit_keeps ns p f : stays any (p_edit storable ns p f).
Proof. eapply stays_bind; [apply target_keeps|]. intros q Hq. repeat stay. Qed.
Lemma remove_keeps ns p : stays any (p_remove_file ns p).
Proof. eapply stays_bind; [apply target_keeps|]. intros q Hq. repeat stay. Qed.
Lemma remove_reserved_keeps ns p : stays any (p_remove_file_reserved ns p).
Proof. unfold p_remove_file_reserved. repeat stay. Qed.
Lemma symlink_keeps ns t p : stays any (p_symlink storable ns t p).
Proof. unfold p_symlink. repeat stay. Qed.
Lemma read_keeps ns p : stays any (p_read_file ns p) /\ stays any (p_read_file_reserved ns p) /\ stays any (p_read_link ns p) /\ forall o n, stays any (p_read_at ns p o n).
Proof. unfold p_read_file, p_read_file_reserved, p_read_link, p_read_at. split_and!; intros; repeat stay. Qed.

Lemma open_keeps ns p m : stays any (p_file_open storable ns p m).
Proof.
  unfold p_file_open. do 6 stay; try by repeat stay. stay; [unfold p_open_file; by repeat stay|]. stay; [by repeat stay|].
  intros s r s' Hc. unfold p_alloc. destruct (has_room s); [|done]. intros [= <- <-]. split; [|done]. by eapply clean_names.
Qed.

Lemma handle_keeps h ok_mode right : stays any (p_handle h ok_mode right).
Proof. unfold p_handle. repeat stay. Qed.
Lemma seek_keeps h o : stays any (seek h o).
Proof. unfold seek. apply stays_modify. intros s. apply clean_names. by destruct (descriptors s !! h). Qed.

Lemma handles_keep h :
  (forall n, stays any (p_file_read h n)) /\ (forall o n, stays any (p_file_read_at h o n)) /\ (forall b, stays any (p_file_write storable h b)) /\
  (forall o b, stays any (p_file_write_at storable h o b)) /\ (forall n, stays any (p_file_truncate storable h n)) /\ stays any (p_file_flush h) /\
  stays any (p_file_stat h) /\ stays any (p_file_close h).
Proof.
  unfold p_file_read, p_file_read_at, p_file_write, p_file_write_at, p_file_truncate, p_file_flush, p_file_stat, p_file_close.
  split_and!; intros; try (stay; [apply handle_keeps|]; match goal with x : Descriptor * File |- _ => destruct x end); cbv zeta; repeat first [apply seek_keeps|stay].
Qed.

Lemma make_dir_keeps ns p r : stays any (p_make_dir ns p r).
Proof.
  intros s x s' Hc. unfold p_make_dir. repeat (case_match; [by intros [= <- <-]|]). intros [= <- <-]. split; [|done].
  eapply clean_names; [|exact Hc]. apply add_dirs_fields.
Qed.
Lemma remove_all_keeps ns l : stays any (p_remove_all ns l).
Proof. intros s x s' Hc. unfold p_remove_all. destruct (allowed _ _) as [done_ r]. intros [= <- <-]. split; [|done]. by apply clean_unlink_all. Qed.
Lemma remove_tree_keeps ns p : stays any (p_remove_tree ns p).
Proof. unfold p_remove_tree. stay; [stay|]. stay; [apply remove_all_keeps|stay]. Qed.

Lemma allowed_Forall {A} (f : A -> res ()) (P : A -> Prop) l : Forall P l -> Forall P (allowed f l).1.
Proof. intros H. induction H as [|x l Hx _ IH]; cbn [allowed]; [constructor|]. destruct (f x); [|constructor]. destruct (allowed f l). by constructor. Qed.

Lemma copy_keeps ns src dst r : normal src -> normal dst -> stays any (p_copy storable ns src dst r).
Proof.
  intros Hs Hd s x s' Hc. unfold p_copy. case_match; [by intros [= <- <-]|]. case_match; [by intros [= <- <-]|].
  destruct (read_all _ _ _) as [es|e] eqn:Hes; [|by intros [= <- <-]]. cbv zeta. case_match; [done|]. destruct (allowed _ _) as [done_ r'] eqn:Ea. intros [= <- <-]. split; [|done].
  apply clean_put_all; [eapply clean_names; [apply add_dirs_fields|done]|]. assert (done_ = (allowed (fun e => may_put (add_dirs s ns (new_dirs s ns src dst)) ns e.1) (map (fun e => (moved src dst e.1, e.2)) es)).1) as -> by by rewrite Ea.
  apply allowed_Forall, Forall_fmap, Forall_forall. intros [k f] Hk. cbn. assert (k ∈ subtree s ns src) as Hin by (rewrite <-(read_all_keys _ _ _ _ Hes); by apply (list_elem_of_fmap_2 fst es (k, f))).
  unfold subtree in Hin. destruct (has_file s ns src); [apply list_elem_of_singleton in Hin as ->; by rewrite moved_root|]. apply elem_of_names_below in Hin as [Hi Hn].
  destruct (inside_moved src dst k Hi (normalize_path_nonempty _ _ Hs) (Hc _ _ Hn)) as [_ H']. by apply H'.
Qed.

Lemma move_keeps ns src dst : normal src -> normal dst -> forall s r s', tidy s -> p_move storable ns src dst s = Some (r, s') -> clean s'.
Proof.
  intros Hs Hd s r s' Ht. pose proof Ht as [Hc _]. unfold p_move. cbv zeta. destruct (_ && _) eqn:Hcond; [done|].
  destruct ((_ ⟸ p_copy storable ns src dst true; if has_file s ns src then p_remove_all ns [src] else p_remove_tree ns src) s) as [[[[]|e] s3]|] eqn:Erun; [| |done].
  - intros [= <- <-]. apply m_bind_done in Erun as ([] & s2 & Ecopy & _). destruct (copy_done storable _ _ _ _ _ Ecopy) as (Hex & _). rewrite Hex in Hcond. apply orb_false_iff in Hcond as [Hov _].
    assert (moves s ns src dst) as Hmv by done. intros ns' p. destruct (decide (ns' = ns /\ p ∈ map (moved src dst) (subtree s ns src))) as [[-> (k & -> & Hk)%list_elem_of_fmap]|Hno].
    + intros _. by destruct (subtree_apart s ns src dst Hmv k k Hk Hk) as (_ & _ & ? & _).
    + rewrite (rename_name storable s ns src dst ns' p) by (intros -> Hin; by apply Hno). case_bool_decide; [by intros [? ?]|]. apply Hc.
  - intros [= <- <-]. assert (stays any (_ ⟸ p_copy storable ns src dst true; if has_file s ns src then p_remove_all ns [src] else p_remove_tree ns src)) as Hk.
    { stay; [by apply copy_keeps|]. destruct (has_file s ns src); [apply remove_all_keeps|apply remove_tree_keeps]. }
    by destruct (Hk _ _ _ Hc Erun).
Qed.
End Keeps.

(** ** The engine *)

Section Engine.
Import Digest Store VcsContent ContentLaws.
Context `{hasher : Hasher} {S : Type} `{ops : !ObjectStore S} (storable : bytes -> bool) {cok : Contents S -> Prop}
  `{claws : !ContentLaws (fun b => fits storable b = true) cok} {U : bytes -> Prop} {ok : S -> Prop} `{laws : !StoreLaws S U ok}.
Abbreviation rel := (EnginePosix.rel storable (cok := cok)).
Implicit Types (l : Loom (S := S)).

Lemma live_open φ l s id ino i f :
  EnginePosix.rel_at storable (cok := cok) φ None l s -> inode_rel storable l s φ None id ino i f -> exists h d, descriptors s !! h = Some d /\ d_file d = i.
Proof.
  intros HR Hir. destruct (decide (filter (fun e => h_inode e.2 = id) (handles (opens l)) = ∅)) as [E|(h & o & [Ho Hid]%map_lookup_filter_Some)%map_choose].
  - pose proof (ir_live _ _ _ _ _ _ _ _ _ Hir) as Hlive. rewrite (ir_count _ _ _ _ _ _ _ _ _ Hir) in Hlive. unfold count in Hlive. rewrite E, map_size_empty in Hlive. unfold pending in Hlive.
    rewrite bool_decide_eq_false_2 in Hlive by done. lia.
  - pose proof (re_handles _ _ _ _ _ HR h) as Hh. rewrite Ho in Hh. unfold handle_rel in Hh. destruct (descriptors s !! h) as [d|] eqn:Hd; [|done]. exists h, d. split; [done|].
    destruct Hh as (_ & _ & Hphi & _). cbn in Hid. rewrite Hid in Hphi. pose proof (ir_phi _ _ _ _ _ _ _ _ _ Hir). congruence.
Qed.

Lemma rel_alike l s1 s2 : rel l s1 -> alike s1 s2 -> rel l s2.
Proof.
  intros [φ HR] [Ha Hd Ho Hn Hname Hfresh Hopen]. exists φ. pose proof HR as []. split; try done; rewrite <-?Ha, <-?Hd, <-?Ho, <-?Hn; try done.
  - intros ns p. specialize (re_slots0 ns p). specialize (Hname ns p). unfold slot_rel in *.
    destruct (work_slot l ns p) as [[g| | | | | | |]|], (name s1 ns p) as [[i|e]|], (name s2 ns p) as [[j|e']|]; try done; try (by rewrite <-Hname).
  - intros id ino Hid. destruct (re_inodes0 id ino Hid) as (i & f & Hir). exists i, f. destruct (live_open φ l s1 id ino i f HR Hir) as (h & d & Hdd & <-).
    destruct (Hopen h d Hdd) as [Hf Hl]. pose proof Hir as []. specialize (Hl f ir_file0). split; try done; [by rewrite <-Hf|by rewrite <-Hl|by rewrite <-Hl].
Qed.

Lemma rel_tidy l s : rel l s -> clean s -> tidy s.
Proof.
  intros [φ HR] Hc. split; [done|]. split.
  - intros i f. apply (re_fresh _ _ _ _ _ HR).
  - intros ns p i Hn. destruct (slot_file storable l s ns p i (re_slots _ _ _ _ _ HR ns p) Hn) as (f & b & _ & Hf & _). by eexists.
  - intros h d Hd. pose proof (re_handles _ _ _ _ _ HR h) as Hh. rewrite Hd in Hh. unfold handle_rel in Hh. destruct (handles (opens l) !! h) as [o|]; [|done].
    destruct Hh as (_ & _ & Hphi & [ino Hino] & _). destruct (re_inodes _ _ _ _ _ HR _ _ Hino) as (i & f & Hir). pose proof (ir_phi _ _ _ _ _ _ _ _ _ Hir) as Hp.
    rewrite Hphi in Hp. injection Hp as ->. exists f. apply Hir.
Qed.

Lemma staged_sim l s ns : rel l s -> staged_paths l ns = map fst (btree_iter (names_of s ns)).
Proof.
  intros HR. apply (sorted_by_unique id); [apply keys_sorted..|]. intros p. unfold staged_paths. rewrite !elem_of_keys. apply (name_slot storable l s ns p HR).
Qed.

#[local] Instance layer_sim : LayerSim (l2 := layer storable) rel.
Proof.
  split.
  - intros l s ns p [φ HR]. pose proof (re_slots _ _ _ _ _ HR ns p) as H. cbn [fl_file_mode engine_layer layer posix_layer]. unfold file_mode, p_file_mode, slot_rel in *.
    destruct (work_slot l ns p) as [[f| | | | | | |]|], (name s ns p) as [[i|e]|]; try done; [by destruct H as (b & -> & _)|].
    by destruct H as [_ H]; destruct (H f).
  - intros. by apply staged_sim.
  - apply dirs_rel.
  - intros l s d [φ []]. exists φ. split; try done. intros id ino Hid. destruct (re_inodes0 id ino Hid) as (i & f & []). exists i, f. by split.
  - apply read_file_sim.
  - exact (write_file_sim storable).
  - apply remove_file_sim.
Qed.

(** The relation, with names in normal form. *)
Definition dir_rel l s : Prop := rel l s /\ clean s.

Lemma dir_sim {A} (m1 : M (Loom (S := S)) A) (m2 m3 : M Fs A) : sim rel m1 m2 -> meets m2 m3 -> stays any m3 -> sim dir_rel m1 m3.
Proof.
  intros Hs Hm Hk l s r s' [HR Hc] E. pose proof (Hm s r s' (rel_tidy l s HR Hc) E) as E2. destruct (Hs l s r s' HR E2) as (l' & E1 & HR'). exists l'. split; [done|]. split; [done|].
  by destruct (Hk s r s' Hc E).
Qed.

Lemma file_sim {A} (m1 : M (Loom (S := S)) A) (m2 : M Fs A) : sim rel m1 m2 -> stays any m2 -> sim dir_rel m1 m2.
Proof. intros Hs. apply (dir_sim m1 m2 m2 Hs). by intros s r s' _. Qed.

Lemma exists_refines ns p : sim dir_rel (exists_path ns p) (p_exists ns p).
Proof. eapply dir_sim; [apply (exists_sim (l2 := layer storable) rel)|apply exists_meets|]. unfold p_exists. repeat stay. Qed.
Lemma stat_refines ns p : sim dir_rel (stat ns p) (p_stat ns p).
Proof. eapply dir_sim; [apply (stat_sim (l2 := layer storable) rel)|apply stat_meets|]. unfold p_stat. repeat stay. Qed.
Lemma list_directory_refines ns p : sim dir_rel (list_directory ns p) (p_list_directory ns p).
Proof. eapply dir_sim; [apply (list_directory_sim (l2 := layer storable) rel)|apply list_directory_meets|]. unfold p_list_directory. repeat stay. Qed.
Lemma walk_refines ns p : sim dir_rel (walk ns p) (p_walk ns p).
Proof. eapply dir_sim; [apply (walk_sim (l2 := layer storable) rel)|apply walk_meets|]. unfold p_walk. repeat stay. Qed.
Lemma create_directory_refines ns p r : sim dir_rel (create_directory ns p r) (p_create_directory ns p r).
Proof. eapply dir_sim; [apply (create_directory_sim (l2 := layer storable) rel)|apply create_directory_meets|]. unfold p_create_directory. do 2 stay; [stay|apply make_dir_keeps]. Qed.
Lemma create_directory_reserved_refines ns p r : sim dir_rel (create_directory_reserved ns p r) (p_create_directory_reserved ns p r).
Proof. eapply dir_sim; [apply (create_directory_reserved_sim (l2 := layer storable) rel)|apply create_directory_reserved_meets|]. unfold p_create_directory_reserved. stay. apply make_dir_keeps. Qed.
Lemma remove_directory_refines ns p r : sim dir_rel (remove_directory ns p r) (p_remove_directory ns p r).
Proof. eapply dir_sim; [apply (remove_directory_sim (l2 := layer storable) rel)|apply remove_directory_meets|]. unfold p_remove_directory. stay. do 2 (stay; [stay|]). apply remove_tree_keeps. Qed.
Lemma copy_path_refines ns p q r : sim dir_rel (copy_path ns p q r) (p_copy_path storable ns p q r).
Proof. eapply dir_sim; [apply (copy_path_sim (l2 := layer storable) rel)|apply copy_meets|]. unfold p_copy_path. do 2 stay. by apply copy_keeps. Qed.

Lemma move_path_refines ns p q : sim dir_rel (move_path ns p q) (p_move_path storable ns p q).
Proof.
  intros l s r s' [HR Hc] E. pose proof (rel_tidy l s HR Hc) as Ht. destruct (move_run storable ns p q s r s' Ht E) as (s1 & E1 & H1).
  destruct (move_path_sim (l2 := layer storable) rel ns p q l s r s1 HR E1) as (l' & El & HR'). exists l'. split; [done|]. split; [destruct H1 as [->|H1]; [done|by eapply rel_alike]|].
  unfold p_move_path in E. destruct (normalize_path p) as [p'|] eqn:Hp; [|by injection E as _ <-]. rewrite (m_bind_run (m_lift (Ok p')) _ s s p') in E by done.
  destruct (guard_reserved_write p') as [[]|]; [|by injection E as _ <-]. rewrite (m_bind_run (m_lift (Ok ())) _ s s ()) in E by done.
  destruct (normalize_path q) as [q'|] eqn:Hq; [|by injection E as _ <-]. rewrite (m_bind_run (m_lift (Ok q')) _ s s q') in E by done.
  destruct (guard_reserved_write q') as [[]|]; [|by injection E as _ <-]. rewrite (m_bind_run (m_lift (Ok ())) _ s s ()) in E by done.
  exact (move_keeps storable ns p' q' (normalize_path_idem _ _ Hp) (normalize_path_idem _ _ Hq) s r s' Ht E).
Qed.
End Engine.

End DirRefine.
