(* ===== verification/FileClaims.v ===== *)
(** * The engine as a file system

    Runs of file, handle and directory operations: on a new engine every run that [Posix] specifies
    returns the specified results. Two facts about the facade follow the code where it parts from
    what a file system does. *)

From S2P Require Import Prelude Codec Types Workspace Object Store Acl VcsTree VcsShard VcsContent VcsEdit EnginePosix Registry Effect Engine EngineFiles EngineFs Posix FileRefine.

Module FileClaims.
Import Error Digest Store Acl VcsTree VcsWrite VcsContent VcsContentProps VcsEdit ContentLaws Registry Effect Engine EngineFiles EngineFs Posix EnginePosix FileRefine DirRefine.

(** ** Runs *)

Inductive FsOp : Type :=
| WriteFile (ns path b : bytes) (mode : N)
| WriteReserved (ns path b : bytes) (mode : N)
| AppendFile (ns path b : bytes)
| ReadFile (ns path : bytes)
| ReadReserved (ns path : bytes)
| RemoveFile (ns path : bytes)
| RemoveReserved (ns path : bytes)
| Symlink (ns target path : bytes)
| ReadLink (ns path : bytes)
| ReadAt (ns path : bytes) (offset len : N)
| WriteAt (ns path : bytes) (offset : N) (data : bytes)
| TruncateFile (ns path : bytes) (size : N)
| FOpen (ns path : bytes) (m : OpenMode)
| FRead (h len : N)
| FReadAt (h offset len : N)
| FWrite (h : N) (data : bytes)
| FWriteAt (h offset : N) (data : bytes)
| FTruncate (h size : N)
| FFlush (h : N)
| FStat (h : N)
| FClose (h : N)
| Exists (ns path : bytes)
| StatPath (ns path : bytes)
| ListDir (ns path : bytes)
| CreateDir (ns path : bytes) (recursive : bool)
| CreateDirReserved (ns path : bytes) (recursive : bool)
| RemoveDir (ns path : bytes) (recursive : bool)
| CopyPath (ns src dst : bytes) (recursive : bool)
| MovePath (ns src dst : bytes)
| Walk (ns path : bytes).

(** The result of a call. *)
Inductive Out : Type :=
| ODone
| OBytes (b : bytes)
| ONum (n : N)
| OBool (b : bool)
| OFileStat (s : FileStat)
| OStat (s : Stat)
| OEntries (es : list DirEntry)
| OPaths (ps : list bytes).

(** [m] with its result in [Out]. *)
Definition returning {St A} (f : A -> Out) (m : M St A) : M St Out := x ⟸ m; m_ret (f x).
Abbreviation unit_out := (fun _ : () => ODone).

Section Steps.
Context `{hasher : Hasher} {S : Type} `{ops : !ObjectStore S}.

Definition engine_step (op : FsOp) : M (Loom (S := S)) Out :=
  match op with
  | WriteFile ns p b m => returning unit_out (write_file ns p b m)
  | WriteReserved ns p b m => returning unit_out (write_file_reserved ns p b m)
  | AppendFile ns p b => returning unit_out (append_file ns p b)
  | ReadFile ns p => returning OBytes (read_file ns p)
  | ReadReserved ns p => returning OBytes (read_file_reserved ns p)
  | RemoveFile ns p => returning unit_out (remove_file ns p)
  | RemoveReserved ns p => returning unit_out (remove_file_reserved ns p)
  | Symlink ns t p => returning unit_out (symlink ns t p)
  | ReadLink ns p => returning OBytes (read_link ns p)
  | ReadAt ns p o n => returning OBytes (read_at ns p o n)
  | WriteAt ns p o b => returning unit_out (write_at ns p o b)
  | TruncateFile ns p n => returning unit_out (truncate_file ns p n)
  | FOpen ns p m => returning ONum (file_open ns p m)
  | FRead h n => returning OBytes (file_read h n)
  | FReadAt h o n => returning OBytes (file_read_at h o n)
  | FWrite h b => returning ONum (file_write h b)
  | FWriteAt h o b => returning ONum (file_write_at h o b)
  | FTruncate h n => returning unit_out (file_truncate h n)
  | FFlush h => returning unit_out (file_flush h)
  | FStat h => returning OFileStat (file_stat h)
  | FClose h => returning unit_out (file_close h)
  | Exists ns p => returning OBool (exists_path ns p)
  | StatPath ns p => returning OStat (stat ns p)
  | ListDir ns p => returning OEntries (list_directory ns p)
  | CreateDir ns p r => returning unit_out (create_directory ns p r)
  | CreateDirReserved ns p r => returning unit_out (create_directory_reserved ns p r)
  | RemoveDir ns p r => returning unit_out (remove_directory ns p r)
  | CopyPath ns p q r => returning unit_out (copy_path ns p q r)
  | MovePath ns p q => returning unit_out (move_path ns p q)
  | Walk ns p => returning OPaths (walk ns p)
  end.
End Steps.

Section SpecSteps.
Context (storable : bytes -> bool).

Definition posix_step (op : FsOp) : M Fs Out :=
  match op with
  | WriteFile ns p b m => returning unit_out (p_write_file storable ns p b m)
  | WriteReserved ns p b m => returning unit_out (p_write_file_reserved storable ns p b m)
  | AppendFile ns p b => returning unit_out (p_append_file storable ns p b)
  | ReadFile ns p => returning OBytes (p_read_file ns p)
  | ReadReserved ns p => returning OBytes (p_read_file_reserved ns p)
  | RemoveFile ns p => returning unit_out (p_remove_file ns p)
  | RemoveReserved ns p => returning unit_out (p_remove_file_reserved ns p)
  | Symlink ns t p => returning unit_out (p_symlink storable ns t p)
  | ReadLink ns p => returning OBytes (p_read_link ns p)
  | ReadAt ns p o n => returning OBytes (p_read_at ns p o n)
  | WriteAt ns p o b => returning unit_out (p_write_at storable ns p o b)
  | TruncateFile ns p n => returning unit_out (p_truncate_file storable ns p n)
  | FOpen ns p m => returning ONum (p_file_open storable ns p m)
  | FRead h n => returning OBytes (p_file_read h n)
  | FReadAt h o n => returning OBytes (p_file_read_at h o n)
  | FWrite h b => returning ONum (p_file_write storable h b)
  | FWriteAt h o b => returning ONum (p_file_write_at storable h o b)
  | FTruncate h n => returning unit_out (p_file_truncate storable h n)
  | FFlush h => returning unit_out (p_file_flush h)
  | FStat h => returning OFileStat (p_file_stat h)
  | FClose h => returning unit_out (p_file_close h)
  | Exists ns p => returning OBool (p_exists ns p)
  | StatPath ns p => returning OStat (p_stat ns p)
  | ListDir ns p => returning OEntries (p_list_directory ns p)
  | CreateDir ns p r => returning unit_out (p_create_directory ns p r)
  | CreateDirReserved ns p r => returning unit_out (p_create_directory_reserved ns p r)
  | RemoveDir ns p r => returning unit_out (p_remove_directory ns p r)
  | CopyPath ns p q r => returning unit_out (p_copy_path storable ns p q r)
  | MovePath ns p q => returning unit_out (p_move_path storable ns p q)
  | Walk ns p => returning OPaths (p_walk ns p)
  end.
End SpecSteps.

(** The calls one after another; a failed call does not end the run. *)
Fixpoint run {St} (step : FsOp -> M St Out) (l : list FsOp) (s : St) : option (list (res Out) * St) :=
  match l with
  | [] => Some ([], s)
  | op :: l => '(r, s) ← step op s; '(rs, s) ← run step l s; Some (r :: rs, s)
  end.

(** A new file system with some directories. *)
Definition fs_new (d : gmap bytes (gset bytes)) (acc : Access) : Fs := mkFs ∅ d ∅ 0 ∅ 1 acc.

Lemma run_sim {St1 St2} (R : St1 -> St2 -> Prop) step1 step2 l s1 s2 rs s2' :
  (forall op, sim R (step1 op) (step2 op)) -> R s1 s2 -> run step2 l s2 = Some (rs, s2') -> exists s1', run step1 l s1 = Some (rs, s1') /\ R s1' s2'.
Proof.
  intros Hs. revert s1 s2 rs. induction l as [|op l IH]; intros s1 s2 rs HR; cbn [run].
  { intros [= <- <-]. by exists s1. }
  intros ([r t2] & Ht & ([rs' u2] & Hu & [= <- <-])%bind_Some)%bind_Some. destruct (Hs op s1 s2 r t2 HR Ht) as (t1 & -> & HR').
  destruct (IH t1 t2 rs' HR' Hu) as (u1 & E & HR''). exists u1. cbn [mbind option_bind]. rewrite E. done.
Qed.

Section Refine.
Context `{hasher : Hasher} {S : Type} `{ops : !ObjectStore S} {U : bytes -> Prop} {ok : S -> Prop} `{laws : !StoreLaws S U ok}.
Context (storable : bytes -> bool).

Section Layer.
Context {cok : Contents S -> Prop} `{claws : !ContentLaws (fun b => fits storable b = true) cok}.
Abbreviation rel := (dir_rel storable (cok := cok)).

Lemma returning_sim {A} (f : A -> Out) (m1 : M (Loom (S := S)) A) (m2 : M Fs A) : sim rel m1 m2 -> sim rel (returning f m1) (returning f m2).
Proof. intros H. apply sim_bind; [done|]. intros y. apply sim_ret. Qed.

Lemma step_sim op : sim rel (engine_step op) (posix_step storable op).
Proof.
  destruct op; apply returning_sim.
  - apply file_sim; [apply write_file_sim; exact _|apply write_keeps].
  - apply file_sim; [apply write_file_reserved_sim; exact _|apply write_reserved_keeps].
  - apply file_sim; [apply append_file_sim; exact _|apply edit_keeps].
  - apply file_sim; [apply read_file_sim; exact _|apply read_keeps].
  - apply file_sim; [apply read_file_reserved_sim; exact _|apply read_keeps].
  - apply file_sim; [apply remove_file_sim; exact _|apply remove_keeps].
  - apply file_sim; [apply remove_file_reserved_sim; exact _|apply remove_reserved_keeps].
  - apply file_sim; [apply symlink_sim; exact _|apply symlink_keeps].
  - apply file_sim; [apply read_link_sim; exact _|apply read_keeps].
  - apply file_sim; [apply read_at_sim; exact _|apply read_keeps].
  - apply file_sim; [by eapply write_at_sim|apply edit_keeps].
  - apply file_sim; [by eapply truncate_file_sim|apply edit_keeps].
  - apply file_sim; [apply file_open_sim; exact _|apply open_keeps].
  - apply file_sim; [apply file_read_sim; exact _|apply (handles_keep storable)].
  - apply file_sim; [apply file_read_at_sim; exact _|apply (handles_keep storable)].
  - apply file_sim; [by eapply file_write_sim|apply handles_keep].
  - apply file_sim; [by eapply file_write_at_sim|apply handles_keep].
  - apply file_sim; [by eapply file_truncate_sim|apply handles_keep].
  - apply file_sim; [apply file_flush_sim; exact _|apply (handles_keep storable)].
  - apply file_sim; [apply file_stat_sim; exact _|apply (handles_keep storable)].
  - apply file_sim; [apply file_close_sim; exact _|apply (handles_keep storable)].
  - apply exists_refines; exact _.
  - apply stat_refines; exact _.
  - apply list_directory_refines; exact _.
  - apply create_directory_refines; exact _.
  - apply create_directory_reserved_refines; exact _.
  - apply remove_directory_refines; exact _.
  - apply copy_path_refines; exact _.
  - apply move_path_refines; exact _.
  - apply walk_refines; exact _.
Qed.

Lemma new_rel st d acc : cok st -> rel (mkLoom st registry_new ∅ d ∅ ∅ (mkOpens ∅ ∅ ∅ 1 1) ∅ acc) (fs_new d acc).
Proof.
  intros Hc. split; [exists ∅; by split|]. intros ns p. unfold name, names_of. cbn [names fs_new]. rewrite !lookup_empty. by intros [? ?].
Qed.
End Layer.

(** C1: The engine is a file system. Start a new engine, with any directories and any access control, on a
    store whose contents are those it was told to store. Every run of file, byte-range, handle, symlink
    and directory operations that the file-system specification gives an outcome gives the same results and the same
    errors on the engine, step by step, and leaves the engine in a state that represents the specified one. The
    specification has files with bytes and a mode under names, handles with a cursor that share a
    file and survive its removal, and directories as sets of names: a listing has the children of a directory, a removal
    takes what is below it, a copy adds the files and directories of a subtree under new names, a successful move is a
    rename; no content addresses, chunks, inode tables or reference counts. It gives no outcome where a
    content is outside the chosen set, where a directory would get the name of a file, and to a move of a path
    onto itself, of a directory into itself or onto one above it, and of a file that is open or replaces an open one. *)
Theorem files_refine a st d acc l outs s :
  admissible (U := U) a (fun b => fits storable b = true) -> indexed (ok := ok) a (fun b => fits storable b = true) st ->
  run (posix_step storable) l (fs_new d acc) = Some (outs, s) ->
  exists e, run engine_step l (mkLoom st registry_new ∅ d ∅ ∅ (mkOpens ∅ ∅ ∅ 1 1) ∅ acc) = Some (outs, e) /\
    EnginePosix.rel storable (cok := indexed (ok := ok) a (fun b => fits storable b = true)) e s.
Proof.
  intros Hadm Hst Hrun. pose proof (content_laws a _ Hadm). destruct (run_sim (dir_rel storable (cok := indexed (ok := ok) a (fun b => fits storable b = true))) engine_step (posix_step storable) l
    (mkLoom st registry_new ∅ d ∅ ∅ (mkOpens ∅ ∅ ∅ 1 1) ∅ acc) (fs_new d acc) outs s) as (e & He & HR & _); [apply step_sim|by apply new_rel|done|]. by exists e.
Qed.
End Refine.


(** ** Where the code parts from a file system *)

Section Divergence.
Context `{hasher : Hasher} {S : Type} `{ops : !ObjectStore S}.
Implicit Types (l : Loom (S := S)) (ns p q b : bytes).

(** What a successful write has done. *)
Lemma write_file_done l ns q b m l1 :
  normalize_path q = Ok q -> write_file ns q b m l = Some (Ok (), l1) ->
  authorize_path (access l1) ns q Write = Ok () /\ guard_reserved_write q = Ok () /\ file_mode l1 ns q = Some m.
Proof.
  intros Hq (x & l2 & [= Hx <-] & H)%m_bind_done. rewrite Hq in Hx. injection Hx as <-. apply m_bind_done in H as ([] & l3 & [= Ha <-] & H).
  apply m_bind_done in H as ([] & l4 & [= Hg <-] & H). apply m_bind_done in H as ([] & l5 & [= _ <-] & H). apply m_bind_done in H as (addr & l6 & Hs & [= <-]).
  unfold m_store_content in Hs. destruct (store_content (contents l) b) as [[d c]|e]; [|done]. injection Hs as <- <-.
  split; [done|]. split; [done|]. unfold file_mode, put_file_slot. by rewrite work_slot_put, bool_decide_eq_true_2.
Qed.

(** C34: Renaming a file to its own name deletes it. Where the name leads to a file that its owner can read and
    write, [move_path] from the name to the same name succeeds and leaves no file under the name: it copies
    the file onto itself and then removes the source. *)
Theorem move_onto_itself l ns p q b m l1 :
  normalize_path p = Ok q -> file_mode l ns q = Some m ->
  read_file ns q l = Some (Ok b, l) -> write_file ns q b m l = Some (Ok (), l1) ->
  exists l2, move_path ns p p l = Some (Ok (), l2) /\ file_mode l2 ns q = None.
Proof.
  intros Hp Hm Hr Hw. pose proof (normalize_path_idem p q Hp) as Hq. destruct (write_file_done l ns q b m l1 Hq Hw) as (Ha & Hg & Hm1).
  exists (EngineFiles.unlink l1 ns q). split.
  - unfold move_path. rewrite Hp, (m_bind_run _ _ l l q), Hg, (m_bind_run _ _ l l ()), (m_bind_run _ _ l l q), Hg, (m_bind_run _ _ l l ()) by done.
    rewrite (m_bind_run _ _ l l1 ()).
    + rewrite (m_bind_run _ _ l1 l1 true); [|unfold m_gets, is_file; cbn [fl_file_mode engine_layer]; by rewrite Hm1]. cbn [fl_remove_file engine_layer].
      unfold remove_file. rewrite Hq, (m_bind_run _ _ l1 l1 q) by done. rewrite (m_bind_run _ _ l1 l1 ()) by (unfold auth_path, m_read; by rewrite Ha).
      by rewrite Hg, (m_bind_run _ _ l1 l1 ()).
    + unfold copy_path. rewrite Hp, (m_bind_run _ _ l l q), (m_bind_run _ _ l l q) by done.
      rewrite (m_bind_run _ _ l l (Some m)); [|unfold m_gets; cbn [fl_file_mode engine_layer]; by rewrite Hm]. by rewrite (m_bind_run _ _ l l b).
  - unfold file_mode. rewrite (ul_work _ _ _ _ (unlink_unlinks l1 ns q)). by rewrite bool_decide_eq_true_2.
Qed.

(** The computation does not look at the access control. *)
Definition unaffected {A} (m : M (Loom (S := S)) A) : Prop :=
  forall l acc, m (set_access l acc) = (fun '(r, l') => (r, set_access l' acc)) <$> m l.

Lemma unaffected_bind {A B} (m : M (Loom (S := S)) A) (k : A -> M (Loom (S := S)) B) :
  unaffected m -> (forall x, unaffected (k x)) -> unaffected (m_bind m k).
Proof. intros Hm Hk l acc. unfold m_bind. rewrite Hm. destruct (m l) as [[[x|e] l']|]; [apply Hk|done|done]. Qed.
Lemma unaffected_lift {A} (r : res A) : unaffected (m_lift r).
Proof. by intros l acc. Qed.
Lemma unaffected_read {A} (f : Loom (S := S) -> res A) : (forall l acc, f (set_access l acc) = f l) -> unaffected (m_read f).
Proof. intros H l acc. unfold m_read. by rewrite H. Qed.
Lemma unaffected_gets {A} (f : Loom (S := S) -> A) : (forall l acc, f (set_access l acc) = f l) -> unaffected (m_gets f).
Proof. intros H l acc. unfold m_gets. by rewrite H. Qed.
Lemma unaffected_guard c e : unaffected (m_guard c e).
Proof. by intros l acc; destruct c. Qed.
Lemma unaffected_modify f : (forall l acc, f (set_access l acc) = set_access (f l) acc) -> unaffected (m_modify f).
Proof. intros H l acc. unfold m_modify. by rewrite H. Qed.
Lemma unaffected_store b : unaffected (m_store_content b).
Proof. intros l acc. unfold m_store_content. cbn [contents set_access]. by destruct (store_content (contents l) b) as [[d c]|e]. Qed.

Ltac unaffected_step :=
  lazymatch goal with
  | |- unaffected (m_bind _ _) => apply unaffected_bind; [|intros ?]
  | |- unaffected (m_lift _) => apply unaffected_lift
  | |- unaffected (m_ret _) => done
  | |- unaffected (m_read _) => by apply unaffected_read
  | |- unaffected (m_gets _) => by apply unaffected_gets
  | |- unaffected (m_guard _ _) => apply unaffected_guard
  | |- unaffected (m_store_content _) => apply unaffected_store
  | |- unaffected (if ?c then _ else _) => destruct c
  | |- unaffected (m_modify _) => apply unaffected_modify
  end.

(** C35: Creating a symbolic link, reading its target, creating a directory, listing one, walking a subtree and
    asking whether a path exists do not look at the access control: each returns the same result and makes
    the same changes whoever calls it and whatever the grants, also for a caller that may neither read nor
    write the path. *)
Theorem unchecked_operations ns target p recursive :
  unaffected (symlink ns target p) /\ unaffected (read_link ns p) /\ unaffected (create_directory ns p recursive) /\
  unaffected (list_directory ns p) /\ unaffected (walk ns p) /\ unaffected (exists_path ns p).
Proof.
  split_and!.
  - unfold symlink. repeat unaffected_step. intros l acc. unfold put_file_slot. cbn [opens set_access].
    destruct (path_to_inode (opens l) !! _) as [id|]; [|done]. by destruct (inodes (opens l) !! id).
  - unfold read_link. repeat unaffected_step.
  - unfold create_directory, create_directory_norm. repeat unaffected_step. done.
  - unfold list_directory. cbv zeta. repeat unaffected_step.
  - unfold walk. cbv zeta. repeat unaffected_step.
  - unfold exists_path. repeat unaffected_step.
Qed.
End Divergence.

(** ** A run on the memory store *)

#[local] Existing Instance toy_hasher.

Definition demo_contents : list bytes := [str "hello"; str "hello world"; str "J"; str "Jello world"; str "a"; []].
Definition demo_storable (b : bytes) : bool := bool_decide (b ∈ demo_contents).
Definition demo_objects : list bytes := Eval vm_compute in
  concat (map (fun b => match put_content (ops := log_store Blake3) [] b with Ok (_, w) => w | Err _ => [] end) demo_contents).

#[local] Instance demo_laws : StoreLaws MemoryStore (fun b => b ∈ demo_objects) (fun s => addressed s /\ within (fun b => b ∈ demo_objects) s).
Proof. apply finite_universe; vm_compute; reflexivity. Qed.

Lemma demo_in b : fits demo_storable b = true -> b ∈ demo_contents.
Proof. intros [H _]%andb_true_iff. by apply bool_decide_eq_true_1 in H. Qed.

Lemma demo_admissible : admissible (U := fun b => b ∈ demo_objects) Blake3 (fun b => fits demo_storable b = true).
Proof.
  split.
  - intros b Hb%fits_len. lia.
  - intros b d w Hb%demo_in E. assert (Hall : forallb (fun b => match put_content (ops := log_store Blake3) [] b with
      Ok (_, w) => forallb (fun o => bool_decide (o ∈ demo_objects)) w | Err _ => true end) demo_contents = true) by (vm_compute; reflexivity).
    rewrite forallb_forall in Hall. specialize (Hall b (proj1 (list_elem_of_In _ _) Hb)). rewrite E in Hall. apply Forall_forall. intros o Ho.
    rewrite forallb_forall in Hall. by apply (bool_decide_eq_true_1 (o ∈ demo_objects)), Hall, list_elem_of_In.
  - intros b b' Hb%demo_in Hb'%demo_in. apply (toy_injective_on demo_contents); [|done|done]. apply (bool_decide_eq_true_1 _). vm_compute. reflexivity.
Qed.

Definition demo_ns : bytes := repeat x01 16.

(** A directory filled, renamed and copied, its copy kept when it is removed; a file opened, extended, removed with its
    directory while open and written through the handle; a file renamed into a directory below, and a few errors. *)
Definition demo_ops : list FsOp :=
  [CreateDir demo_ns (str "docs/sub") true; WriteFile demo_ns (str "docs/a") (str "hello") 33188; WriteFile demo_ns (str "docs/sub/b") (str "a") 33188;
   ListDir demo_ns (str "docs"); StatPath demo_ns (str "docs/a"); MovePath demo_ns (str "docs") (str "old"); Exists demo_ns (str "docs"); ListDir demo_ns (str "/");
   Walk demo_ns (str "old"); FOpen demo_ns (str "old/a") OpenReadWrite; FReadAt 1 1 3; FWriteAt 1 5 (str " world"); ReadFile demo_ns (str "old/a");
   CopyPath demo_ns (str "old") (str "copy") true; RemoveDir demo_ns (str "old") false; RemoveDir demo_ns (str "old") true; FWriteAt 1 0 (str "J"); FRead 1 20;
   FStat 1; FClose 1; FRead 1 1; ReadFile demo_ns (str "copy/a"); WriteFile demo_ns (str "no/b") (str "a") 33188; CopyPath demo_ns (str "copy/a") (str "copy") false;
   MovePath demo_ns (str "copy/a") (str "copy/sub/c"); Walk demo_ns []; CreateDir demo_ns (str "copy/x/y") false; Symlink demo_ns (str "a") (str "link");
   ReadLink demo_ns (str "link")].

Definition demo_run : option (list (res Out) * Fs) := run (posix_step demo_storable) demo_ops (fs_new ∅ (mkAccess None acl_new None None)).
Definition demo_outs : list (res Out) := Eval vm_compute in match demo_run with Some (outs, _) => outs | None => [] end.

Lemma demo_run_outs : exists s, demo_run = Some (demo_outs, s).
Proof.
  assert (H : fst <$> demo_run = Some demo_outs) by (vm_cast_no_check (@eq_refl _ (Some demo_outs))).
  apply fmap_Some in H as ([outs s] & H & ->). by exists s.
Qed.

Lemma files_refine_witness :
  exists e, run engine_step demo_ops (loom_new memory_new) = Some (demo_outs, e) /\ length demo_outs = 29%nat.
Proof.
  destruct demo_run_outs as [s E].
  destruct (files_refine (ok := fun s => addressed s /\ within (fun b => b ∈ demo_objects) s) demo_storable Blake3 (mkContents memory_new ∅) ∅
    (mkAccess None acl_new None None) demo_ops demo_outs s demo_admissible) as (e & He & _); [|exact E|].
  - split; [split; apply map_Forall_empty|]. split; [done|]. by intros.
  - exists e. split; [exact He|reflexivity].
Defined.

(** ** A file moved onto itself *)

Definition after_write (l : Loom (S := MemoryStore)) : Loom (S := MemoryStore) :=
  match write_file demo_ns (str "a") (str "hello") 33188 l with Some (_, l') => l' | None => l end.
Definition with_file : Loom (S := MemoryStore) := after_write (loom_new memory_new).

Lemma move_onto_itself_witness :
  exists l2, move_path demo_ns (str "/a") (str "/a") with_file = Some (Ok (), l2) /\ file_mode l2 demo_ns (str "a") = None.
Proof.
  apply (move_onto_itself with_file demo_ns (str "/a") (str "a") (str "hello") 33188 (after_write with_file)).
  - vm_compute. reflexivity.
  - vm_compute. reflexivity.
  - vm_compute. reflexivity.
  - vm_compute. reflexivity.
Defined.

End FileClaims.
