(* ===== verification/EngineVcs.v ===== *)
(** * Version control on the engine (crates/loom-core/src/vcs/commit.rs, vcs/merge.rs, vcs/replay.rs,
    vcs/protected_refs.rs, vcs/access.rs, and [committed_fs_entries] of fs.rs)

    Commits, staging, checkout and restore, branches, tags and revisions, protected refs, merges that
    stop on conflicts and are resolved, continued or aborted, and the replay operations cherry-pick,
    revert, rebase and squash. The state has no document overlay, so the materialization of overlay
    records that precedes a commit has nothing to do. The mergers of the typed facets are an interface.
    [fuel] bounds the walks over the history and the depth of trees. *)

From S2P Require Import Prelude Codec Types Workspace Object ObjectProps Store Acl VcsTree VcsTreeProps VcsPath VcsHistory VcsContent Registry Identity Effect Engine EngineFiles EngineFs.

Module EngineVcs.
Import Error Digest Object Store Acl VcsTree VcsTreeProps VcsPath VcsHistory VcsContent Registry Identity Effect Engine EngineFiles EngineFs.

(** ** Reports *)

Record Status : Type := mkStatus { st_staged : list Change; st_unstaged : list Change; st_untracked : list bytes; st_conflicts : list bytes }.

Inductive MergeOutcome : Type := UpToDate | FastForward (d : Digest) | Merged (d : Digest) | Conflicts (paths : list bytes).
Inductive ReplayOutcome : Type := Replayed (d : Digest) | Clean | ReplayConflicts (paths : list bytes) | Empty.
Inductive ConflictResolution : Type := Ours | Theirs | Working.

Record ReplayPatch : Type := mkReplayPatch {
  rp_base : WorkTree; rp_theirs : WorkTree; rp_dirs : gset bytes; rp_author : bytes; rp_message : bytes;
}.

Record CommittedFsEntry : Type := mkCommittedFsEntry { ce_path : bytes; ce_kind : FileKind; ce_mode : N; ce_bytes : bytes }.

Definition branch_ref (name : bytes) : bytes := str "branch/" ++ name.
Definition tag_ref (name : bytes) : bytes := str "tag/" ++ name.

(** ** Facet mergers *)

(** The mergers of tables, documents, vector entries and search collections: the merged slot, or
    nothing where the conflict stays. *)
Class FacetMergers `{hasher : Hasher} (S : Type) `{ops : !ObjectStore S} : Type := {
  try_row_merge_table : option Digest -> Digest -> Digest -> bool -> M (Loom (S := S)) (option Digest);
  try_merge_document_roots : bytes -> option Digest -> Digest -> Digest -> M (Loom (S := S)) (option Digest);
  try_vector_entry_merge : bytes -> bytes -> option StagedEntry -> option StagedEntry -> option StagedEntry -> M (Loom (S := S)) (option StagedEntry);
  try_search_collection_merge : bytes -> bytes -> WorkTree -> WorkTree -> WorkTree -> WorkTree -> M (Loom (S := S)) (option WorkTree);
}.

Section Ops.
Context `{hasher : Hasher} {S : Type} `{ops : !ObjectStore S} `{crypto : Crypto} `{fm : !FacetMergers S} (fuel : nat).
Abbreviation Loom := (Loom (S := S)).
Implicit Types (l : Loom) (ns path name rev : bytes).

(** ** Lifting *)

Definition m_auth (check : Access -> res ()) : M Loom () := m_read (fun l => check (access l)).
Definition m_reg {A} (f : Registry -> res A) : M Loom A := m_read (fun l => f (registry l)).
Definition m_refs (f : Registry -> res Registry) : M Loom () := fun l =>
  match f (registry l) with Ok r => Some (Ok (), set_registry l r) | Err e => Some (Err e, l) end.

Definition set_store l (s : S) : Loom := set_contents l (mkContents s (content (contents l))).

(** A walk over the objects of the store. *)
Definition m_look {A} (f : S -> option (res A)) : M Loom A := fun l => m_run (f (c_store (contents l))) l.
Definition m_put (f : S -> option (res (Digest * S))) : M Loom Digest := fun l =>
  match f (c_store (contents l)) with
  | Some (Ok (d, s)) => Some (Ok d, set_store l s)
  | Some (Err e) => Some (Err e, l)
  | None => None
  end.

(** ** Protected refs *)

Definition validate_protected_ref_name (ref_name : bytes) : res () :=
  match split_once ref_name with
  | None => Err InvalidArgument
  | Some (kind, name) =>
      if negb (bool_decide (kind = str "branch")) && negb (bool_decide (kind = str "tag")) then Err InvalidArgument
      else validate_ref_name name
  end.

Definition set_protected_ref_policy ns (ref_name : bytes) (policy : ProtectedRefPolicy) : M Loom () :=
  _ ⟸ m_lift (validate_protected_ref_name ref_name);
  _ ⟸ m_auth (fun a => authorize_ref a ns ref_name Admin);
  m_modify (fun l => set_protected_refs l (<[(ns, ref_name) := policy]> (protected_refs l))).

Definition remove_protected_ref_policy ns (ref_name : bytes) : M Loom bool :=
  _ ⟸ m_lift (validate_protected_ref_name ref_name);
  _ ⟸ m_auth (fun a => authorize_ref a ns ref_name Admin);
  p ⟸ m_gets (fun l => protected_refs l !! (ns, ref_name));
  _ ⟸ m_modify (fun l => set_protected_refs l (delete (ns, ref_name) (protected_refs l)));
  m_ret (bool_decide (is_Some p)).

Definition protected_ref_policy ns (ref_name : bytes) : M Loom (option ProtectedRefPolicy) :=
  _ ⟸ m_lift (validate_protected_ref_name ref_name);
  _ ⟸ m_auth (fun a => authorize_ref a ns ref_name Read);
  m_gets (fun l => protected_refs l !! (ns, ref_name)).

(** In the order of the ref names. *)
Definition protected_ref_policies ns : M Loom (list (bytes * ProtectedRefPolicy)) :=
  _ ⟸ m_auth (fun a => authorize a ns FacetKind.Vcs Read);
  m_gets (fun l => sort_by fst (omap (fun e => if bool_decide (e.1.1 = ns) then Some (e.1.2, e.2) else None) (map_to_list (protected_refs l)))).

(** [old != new] compares the bytes of the digests. *)
Definition evaluate_protected_ref_update ns (ref_name : bytes) (old new : option Digest) : M Loom () :=
  policy ⟸ m_gets (fun l => protected_refs l !! (ns, ref_name));
  match policy with
  | None => m_ret ()
  | Some p =>
      _ ⟸ m_guard (bool_decide (new = None) && (fast_forward_only p || retention_lock p || governance_lock p)) PermissionDenied;
      _ ⟸ match old, new with
           | Some o, Some n =>
               if fast_forward_only p && negb (bool_decide (dbytes o = dbytes n)) then
                 anc ⟸ m_look (fun s => is_ancestor fuel s o n);
                 m_guard (negb anc) PermissionDenied
               else m_ret ()
           | _, _ => m_ret ()
           end;
      m_guard (signed_commits_required p || signed_ref_advance_required p || (0 <? required_review_count p)) PermissionDenied
  end.

Definition authorize_branch_update ns (ref_name : bytes) (old : option Digest) (new : Digest) : M Loom () :=
  _ ⟸ evaluate_protected_ref_update ns ref_name old (Some new);
  match old with
  | Some o =>
      anc ⟸ m_look (fun s => is_ancestor fuel s o new);
      if (anc : bool) then m_ret () else m_auth (fun a => authorize a ns FacetKind.Vcs Admin)
  | None => m_ret ()
  end.

(** ** Commits *)

(** The tree of a snapshot and the commit over it. *)
Definition snapshot (files : WorkTree) (dirs : gset bytes) (parents : list Digest) (author : bytes) (timestamp_ms : N) (message : bytes) : M Loom Digest :=
  root ⟸ m_put (fun s => build_subtree fuel s files dirs []);
  m_put (fun s => Some (put_object s (OCommit (mkCommit root parents author timestamp_ms message ∅)))).

Definition head_tip ns : M Loom (bytes * option Digest) :=
  head ⟸ m_reg (fun r => head_branch r ns);
  tip ⟸ m_reg (fun r => branch_tip r ns head);
  m_ret (head, tip).

(** Commit the files that [select] takes from the state onto the current branch. *)
Definition commit_files ns (select : Loom -> WorkTree) (author message : bytes) (timestamp_ms : N) : M Loom (WorkTree * Digest) :=
  head ⟸ m_reg (fun r => head_branch r ns);
  _ ⟸ m_auth (fun a => authorize_ref a ns (branch_ref head) Write);
  _ ⟸ m_auth (fun a => authorize_ref a ns (branch_ref head) Advance);
  parent ⟸ m_reg (fun r => branch_tip r ns head);
  files ⟸ m_gets select;
  dirs ⟸ m_gets (fun l => dirs_of l ns);
  _ ⟸ m_lift (validate_vcs_namespace_preflight files dirs);
  digest ⟸ snapshot files dirs (option_list parent) author timestamp_ms message;
  _ ⟸ authorize_branch_update ns (branch_ref head) parent digest;
  _ ⟸ m_refs (fun r => match parent with
                        | None => Registry.branch_create r ns head digest
                        | Some prev => update_branch r ns head (Some prev) digest
                        end);
  m_ret (files, digest).

Definition commit ns (author message : bytes) (timestamp_ms : N) : M Loom Digest :=
  '(files, digest) ⟸ commit_files ns (fun l => work_of l ns) author message timestamp_ms;
  _ ⟸ m_modify (fun l => set_index l (<[ns := files]> (index l)));
  m_ret digest.

Definition commit_staged ns (author message : bytes) (timestamp_ms : N) : M Loom Digest :=
  '(_, digest) ⟸ commit_files ns (fun l => index_of l ns) author message timestamp_ms;
  m_ret digest.

(** ** Staging *)

Definition head_tree ns : M Loom WorkTree :=
  '(_, tip) ⟸ head_tip ns;
  match tip with
  | Some d => t ⟸ m_look (fun s => flatten_commit fuel s d); m_ret t.1
  | None => m_ret ∅
  end.

(** Copy the slots of [paths] from a tree into the index; an invalid path ends the loop. *)
Fixpoint index_paths (from idx : WorkTree) (paths : list bytes) : res () * WorkTree :=
  match paths with
  | [] => (Ok (), idx)
  | p :: paths =>
      match normalize_path p with
      | Ok path => index_paths from (put_slot path (from !! path) idx) paths
      | Err e => (Err e, idx)
      end
  end.

Definition copy_to_index ns (from : WorkTree) (paths : list bytes) : M Loom () := fun l =>
  let '(r, idx) := index_paths from (index_of l ns) paths in Some (r, set_index l (<[ns := idx]> (index l))).

Definition stage ns (paths : list bytes) : M Loom () :=
  _ ⟸ m_auth (fun a => authorize a ns FacetKind.Vcs Write);
  work ⟸ m_gets (fun l => work_of l ns);
  copy_to_index ns work paths.

Definition stage_all ns : M Loom () :=
  _ ⟸ m_auth (fun a => authorize a ns FacetKind.Vcs Write);
  m_modify (fun l => set_index l (<[ns := work_of l ns]> (index l))).

Definition unstage ns (paths : list bytes) : M Loom () :=
  _ ⟸ m_auth (fun a => authorize a ns FacetKind.Vcs Write);
  head ⟸ head_tree ns;
  copy_to_index ns head paths.

Definition merge_in_progress ns : M Loom bool :=
  _ ⟸ m_auth (fun a => authorize a ns FacetKind.Vcs Read);
  m_gets (fun l => bool_decide (is_Some (merge_state l !! ns))).

Definition merge_conflicts ns : M Loom (list bytes) :=
  _ ⟸ m_auth (fun a => authorize a ns FacetKind.Vcs Read);
  m_gets (fun l => match merge_state l !! ns with Some m => map mc_path (merge_conflicts_of m) | None => [] end).

(** A path in neither the index nor [HEAD]. *)
Definition untracked_change (head : WorkTree) (c : Change) : bool :=
  match change_kind c with Added => negb (bool_decide (is_Some (head !! change_path c))) | _ => false end.

Definition status ns : M Loom Status :=
  _ ⟸ m_auth (fun a => authorize a ns FacetKind.Vcs Read);
  head ⟸ head_tree ns;
  index ⟸ m_gets (fun l => index_of l ns);
  work ⟸ m_gets (fun l => work_of l ns);
  conflicts ⟸ merge_conflicts ns;
  let pending := worktree_changes index work in
  m_ret (mkStatus (worktree_changes head index) (filter (fun c => untracked_change head c = false) pending)
    (map change_path (filter (fun c => untracked_change head c = true) pending)) conflicts).

Definition vcs_namespace_preflight ns : M Loom (gset (bytes * bytes)) :=
  _ ⟸ m_auth (fun a => authorize a ns FacetKind.Vcs Read);
  m_gets (fun l => namespace_preflight (work_of l ns) (dirs_of l ns)).

Definition vcs_staged_namespace_preflight ns : M Loom (gset (bytes * bytes)) :=
  _ ⟸ m_auth (fun a => authorize a ns FacetKind.Vcs Read);
  m_gets (fun l => namespace_preflight (index_of l ns) (dirs_of l ns)).

(** ** Checkout *)

(** [self.work.insert(ns, files); self.dirs.insert(ns, dirs)] *)
Definition set_tree l ns (files : WorkTree) (dirs_ : gset bytes) : Loom :=
  set_dirs (set_work l (<[ns := files]> (work l))) (<[ns := dirs_]> (dirs l)).
Definition put_index l ns (files : WorkTree) : Loom := set_index l (<[ns := files]> (index l)).

Definition checkout_commit ns (c : Digest) : M Loom () :=
  _ ⟸ m_auth (fun a => authorize a ns FacetKind.Vcs Read);
  '(files, dirs) ⟸ m_look (fun s => flatten_commit fuel s c);
  m_modify (fun l => set_tree (put_index l ns files) ns files dirs).

Definition checkout_branch ns (branch : bytes) : M Loom () :=
  _ ⟸ m_auth (fun a => authorize_ref a ns (branch_ref branch) Read);
  _ ⟸ m_auth (fun a => authorize_ref a ns (branch_ref branch) Write);
  _ ⟸ m_refs (fun r => set_head r ns branch);
  tip ⟸ m_reg (fun r => branch_tip r ns branch);
  match tip with
  | Some d => checkout_commit ns d
  | None => m_modify (fun l => set_tree (put_index l ns ∅) ns ∅ ∅)
  end.

(** ** Revisions *)

Definition algo_from_name (name : bytes) : res Algo :=
  if bool_decide (name = str "blake3") then Ok Blake3
  else if bool_decide (name = str "sha256") then Ok Sha256
  else Err Unsupported.

(** [s.split_once(':')] *)
Fixpoint split_colon (s : bytes) : option (bytes * bytes) :=
  match s with
  | [] => None
  | c :: s => if bool_decide (c = x3a) then Some ([], s) else p ← split_colon s; Some (c :: p.1, p.2)
  end.

Definition digest_parse (s : bytes) : res Digest :=
  '(algo_str, hex_str) ← ok_or (split_colon s) InvalidArgument;
  a ← algo_from_name algo_str;
  raw ← ok_or (hex_decode hex_str) InvalidArgument;
  if Codec.len raw =? 32 then Ok (mkDigest a raw) else Err InvalidArgument.

Definition hex_value (b : byte) : option N :=
  let n := Byte.to_N b in
  if (48 <=? n) && (n <=? 57) then Some (n - 48)
  else if (97 <=? n) && (n <=? 102) then Some (n - 87)
  else if (65 <=? n) && (n <=? 70) then Some (n - 55)
  else None.

(** [u8::from_str_radix] over the pairs of digits. *)
Fixpoint hex_pairs (s : bytes) : option bytes :=
  match s with
  | [] => Some []
  | h :: lo :: s => x ← hex_value h; y ← hex_value lo; rest ← hex_pairs s; Some (as_u8 (16 * x + y) :: rest)
  | [_] => None
  end.

Definition parse_rev_digest (a : Algo) rev : option Digest :=
  if existsb (fun b => bool_decide (b = x3a)) rev then match digest_parse rev with Ok d => Some d | Err _ => None end
  else if Codec.len rev =? 64 then mkDigest a <$> hex_pairs rev
  else None.

Definition resolve_tag_rev ns (tag : bytes) : M Loom Digest :=
  t ⟸ m_reg (fun r => Registry.tag_target r ns tag);
  target ⟸ m_lift (ok_or t NotFound);
  o ⟸ m_look (fun s => Some (get_object s target));
  match o with
  | OCommit _ => m_ret target
  | OTag t => match t_target_type t with OT_Commit => m_ret (t_target t) | _ => m_err InvalidArgument end
  | _ => m_err InvalidArgument
  end.

Definition m_found {A} (m : M Loom (option A)) : M Loom A := o ⟸ m; m_lift (ok_or o NotFound).

Definition rev_digest ns rev : M Loom Digest :=
  if bool_decide (rev = str "HEAD") then
    '(_, tip) ⟸ head_tip ns; m_lift (ok_or tip NotFound)
  else match strip_prefix rev (str "commit:") with
  | Some value => m_found (m_gets (fun l => parse_rev_digest (digest_algo (c_store (contents l))) value))
  | None =>
  match strip_prefix rev (str "branch:") with
  | Some branch => m_found (m_reg (fun r => branch_tip r ns branch))
  | None =>
  match strip_prefix rev (str "tag:") with
  | Some tag => resolve_tag_rev ns tag
  | None =>
      d ⟸ m_gets (fun l => parse_rev_digest (digest_algo (c_store (contents l))) rev);
      match d with
      | Some d => m_ret d
      | None => m_found (m_reg (fun r => branch_tip r ns rev))
      end
  end end end.

Definition resolve_rev ns rev : M Loom Digest :=
  d ⟸ rev_digest ns rev;
  o ⟸ m_look (fun s => Some (get_object s d));
  match o with OCommit _ => m_ret d | _ => m_err InvalidArgument end.

(** ** Restoring paths *)

(** The proper directories of a path, from the top. *)
Definition add_ancestor (acc : bytes * gset bytes) (seg : bytes) : bytes * gset bytes :=
  let p := if bool_decide (acc.1 = []) then seg else acc.1 ++ [slash] ++ seg in (p, {[p]} ∪ acc.2).

Definition ensure_ancestor_dirs l ns path : Loom :=
  set_dirs l (<[ns := (foldl add_ancestor ([], dirs_of l ns) (removelast (segments path))).2]> (dirs l)).

Definition restore_file ns rev path : M Loom () :=
  _ ⟸ m_auth (fun a => authorize a ns FacetKind.Vcs Write);
  path ⟸ m_lift (normalize_path path);
  c ⟸ resolve_rev ns rev;
  '(files, _) ⟸ m_look (fun s => flatten_commit fuel s c);
  m_modify (fun l =>
    match files !! path with
    | Some slot => put_work (ensure_ancestor_dirs l ns path) ns path slot
    | None => remove_work l ns path
    end).

(** [prefix.is_empty() || key == prefix || key.starts_with(&format!("{prefix}/"))] *)
Definition under (prefix key : bytes) : bool :=
  bool_decide (prefix = []) || bool_decide (key = prefix) || starts_with key (prefix ++ [slash]).

Definition restore_tree (prefix : bytes) (work files : WorkTree) : WorkTree :=
  filter (fun kv => under prefix kv.1 = true) files ∪ filter (fun kv => under prefix kv.1 = false) work.

Definition restore_dirs (prefix : bytes) (dirs_ snap : gset bytes) : gset bytes :=
  filter (fun d => under prefix d = false) dirs_ ∪ filter (fun d => under prefix d = true) snap.

Definition restore_path ns rev (prefix : bytes) : M Loom () :=
  _ ⟸ m_auth (fun a => authorize a ns FacetKind.Vcs Write);
  c ⟸ resolve_rev ns rev;
  '(files, snap_dirs) ⟸ m_look (fun s => flatten_commit fuel s c);
  let prefix := dir_path prefix in
  m_modify (fun l =>
    let l := set_tree l ns (restore_tree prefix (work_of l ns) files) (restore_dirs prefix (dirs_of l ns) snap_dirs) in
    if bool_decide (prefix = []) then l else ensure_ancestor_dirs l ns prefix).

(** ** Branches and tags *)

Definition branch ns name : M Loom () :=
  _ ⟸ m_auth (fun a => authorize_ref a ns (branch_ref name) Advance);
  '(_, t) ⟸ head_tip ns;
  tip ⟸ m_lift (ok_or t NotFound);
  _ ⟸ evaluate_protected_ref_update ns (branch_ref name) None (Some tip);
  m_refs (fun r => Registry.branch_create r ns name tip).

Definition branch_delete ns name : M Loom () :=
  _ ⟸ m_auth (fun a => authorize_ref a ns (branch_ref name) Admin);
  old ⟸ m_reg (fun r => branch_tip r ns name);
  _ ⟸ evaluate_protected_ref_update ns (branch_ref name) old None;
  m_refs (fun r => Registry.branch_delete r ns name).

Definition tag_create ns name rev (tagger message : bytes) (timestamp_ms : N) : M Loom Digest :=
  _ ⟸ m_auth (fun a => authorize_ref a ns (tag_ref name) Admin);
  c ⟸ resolve_rev ns rev;
  target ⟸ (if bool_decide (message = []) then m_ret c
             else m_put (fun s => Some (put_object s (OTag (mkTag c OT_Commit name tagger timestamp_ms message)))));
  _ ⟸ evaluate_protected_ref_update ns (tag_ref name) None (Some target);
  _ ⟸ m_refs (fun r => Registry.tag_create r ns name target);
  m_ret target.

Definition tag_list ns : M Loom (list bytes) :=
  _ ⟸ m_auth (fun a => authorize a ns FacetKind.Vcs Read);
  m_reg (fun r => Registry.tag_list r ns).

Definition tag_target ns name : M Loom (option Digest) :=
  _ ⟸ m_auth (fun a => authorize_ref a ns (tag_ref name) Read);
  m_reg (fun r => Registry.tag_target r ns name).

Definition tag_delete ns name : M Loom () :=
  _ ⟸ m_auth (fun a => authorize_ref a ns (tag_ref name) Admin);
  old ⟸ m_reg (fun r => Registry.tag_target r ns name);
  _ ⟸ evaluate_protected_ref_update ns (tag_ref name) old None;
  m_refs (fun r => Registry.tag_delete r ns name).

Definition tag_rename ns (old new : bytes) : M Loom () :=
  _ ⟸ m_auth (fun a => authorize_ref a ns (tag_ref old) Admin);
  _ ⟸ m_auth (fun a => authorize_ref a ns (tag_ref new) Admin);
  target ⟸ m_reg (fun r => Registry.tag_target r ns old);
  _ ⟸ evaluate_protected_ref_update ns (tag_ref old) target None;
  _ ⟸ evaluate_protected_ref_update ns (tag_ref new) None target;
  m_refs (fun r => Registry.tag_rename r ns old new).

(** ** Committed files *)

(** In the order of the paths, a directory before a file. *)
Definition committed_fs_entries ns rev : M Loom (list CommittedFsEntry) :=
  _ ⟸ m_auth (fun a => authorize a ns FacetKind.Vcs Read);
  c ⟸ resolve_rev ns rev;
  '(files, dirs) ⟸ m_look (fun s => flatten_commit fuel s c);
  fs ⟸ m_read (fun l => try_map (fun e =>
          match e.2 with
          | SFile f => b ← load_content (contents l) (content_addr f); Ok (mkCommittedFsEntry e.1 (kind_of_mode (mode f)) (mode f) b)
          | _ => Err Unsupported
          end) (btree_iter files));
  m_ret (sort_by ce_path (map (fun d => mkCommittedFsEntry d KDirectory DIR_MODE []) (set_iter dirs) ++ fs)).

(** ** Merging *)

Definition as_table (e : StagedEntry) : option Digest := match e with STable d => Some d | _ => None end.
Definition as_document (e : StagedEntry) : option Digest := match e with SDocument d => Some d | _ => None end.

(** A conflict that both sides have as [kind]: what its merger makes of it. *)
Definition merge_kind (kind : StagedEntry -> option Digest) (wrap : Digest -> StagedEntry)
    (merger : option Digest -> Digest -> Digest -> M Loom (option Digest)) (b o t : option StagedEntry) : M Loom (option StagedEntry) :=
  match o ≫= kind, t ≫= kind with
  | Some o, Some t => r ⟸ merger (b ≫= kind) o t; m_ret (wrap <$> r)
  | _, _ => m_ret None
  end.

(** The tree with the conflict resolved, where a merger resolves it. *)
Definition resolve_conflict ns (base ours theirs : WorkTree) (cell_level : bool) (merged : WorkTree) path : M Loom (option WorkTree) :=
  let b := base !! path in let o := ours !! path in let t := theirs !! path in
  table ⟸ merge_kind as_table STable (fun b o t => try_row_merge_table b o t cell_level) b o t;
  match table with Some e => m_ret (Some (<[path := e]> merged)) | None =>
  document ⟸ merge_kind as_document SDocument (try_merge_document_roots ns) b o t;
  match document with Some e => m_ret (Some (<[path := e]> merged)) | None =>
  vector ⟸ try_vector_entry_merge ns path b o t;
  match vector with Some e => m_ret (Some (<[path := e]> merged)) | None =>
  try_search_collection_merge ns path base ours theirs merged
  end end end.

Fixpoint resolve_conflicts ns (base ours theirs : WorkTree) (cell_level : bool) (merged : WorkTree) (unresolved conflicts : list bytes) : M Loom (WorkTree * list bytes) :=
  match conflicts with
  | [] => m_ret (merged, unresolved)
  | path :: conflicts =>
      r ⟸ resolve_conflict ns base ours theirs cell_level merged path;
      match r with
      | Some merged => resolve_conflicts ns base ours theirs cell_level merged unresolved conflicts
      | None => resolve_conflicts ns base ours theirs cell_level merged (unresolved ++ [path]) conflicts
      end
  end.

Definition resolve_three_way ns (base ours theirs : WorkTree) (cell_level : bool) : M Loom (WorkTree * list bytes) :=
  let '(merged, conflicts) := three_way_merge_files base ours theirs in
  resolve_conflicts ns base ours theirs cell_level merged [] conflicts.

Definition newline : byte := x0a.
Definition ensure_newline (b : bytes) : bytes := if bool_decide (last b = Some newline) then b else b ++ [newline].

Definition conflict_marker_blob l (ours theirs : StagedFile) : res (option bytes) :=
  ob ← load_content (contents l) (content_addr ours);
  tb ← load_content (contents l) (content_addr theirs);
  if negb (valid_utf8 ob) || negb (valid_utf8 tb) then Ok None
  else Ok (Some (str "<<<<<<< ours" ++ [newline] ++ ensure_newline ob ++ str "=======" ++ [newline] ++ ensure_newline tb
                 ++ str ">>>>>>> theirs" ++ [newline])).

(** One conflict: the markers of two texts in the staged tree, and its record. *)
Definition enter_conflict (base ours theirs : WorkTree) (acc : WorkTree * list MergeConflict) path : M Loom (WorkTree * list MergeConflict) :=
  let conflict := mkMergeConflict path (base !! path) (ours !! path) (theirs !! path) in
  match ours !! path, theirs !! path with
  | Some (SFile o), Some (SFile t) =>
      marker ⟸ m_read (fun l => conflict_marker_blob l o t);
      match marker with
      | Some b =>
          addr ⟸ m_store_content b;
          m_ret (<[path := SFile (mkStagedFile addr (mode o))]> acc.1, acc.2 ++ [conflict])
      | None => m_ret (acc.1, acc.2 ++ [conflict])
      end
  | _, _ => m_ret (acc.1, acc.2 ++ [conflict])
  end.

Fixpoint enter_conflicts (base ours theirs : WorkTree) (acc : WorkTree * list MergeConflict) (paths : list bytes) : M Loom (WorkTree * list MergeConflict) :=
  match paths with
  | [] => m_ret acc
  | path :: paths => acc ⟸ enter_conflict base ours theirs acc path; enter_conflicts base ours theirs acc paths
  end.

Definition merge_text (from_branch : bytes) : bytes := str "merge " ++ from_branch.

Definition put_merge l ns (m : MergeInProgress) : Loom := set_merge_state l (<[ns := m]> (merge_state l)).
Definition clear_merge l ns : Loom := set_merge_state l (delete ns (merge_state l)).

Definition enter_merge_conflict_state ns (ours theirs : Digest) (from_branch : bytes) (merged : WorkTree) (merged_dirs : gset bytes)
    (base_files our_files their_files : WorkTree) (unresolved : list bytes) : M Loom MergeOutcome :=
  pre_work ⟸ m_gets (fun l => work_of l ns);
  pre_dirs ⟸ m_gets (fun l => dirs_of l ns);
  '(staged, conflicts) ⟸ enter_conflicts base_files our_files their_files (merged, []) unresolved;
  _ ⟸ m_modify (fun l => put_merge (set_tree l ns staged merged_dirs) ns
                  (mkMergeInProgress theirs ours (merge_text from_branch) conflicts pre_work pre_dirs));
  m_ret (Conflicts unresolved).

(** The commit over the working tree that ends a merge, on the current branch from its tip [ours]. *)
Definition merge_commit ns (head : bytes) (ours theirs : Digest) (author message : bytes) (timestamp_ms : N) : M Loom Digest :=
  files ⟸ m_gets (fun l => work_of l ns);
  dirs ⟸ m_gets (fun l => dirs_of l ns);
  _ ⟸ m_lift (validate_vcs_namespace_preflight files dirs);
  digest ⟸ snapshot files dirs [ours; theirs] author timestamp_ms message;
  _ ⟸ authorize_branch_update ns (branch_ref head) (Some ours) digest;
  _ ⟸ m_refs (fun r => update_branch r ns head (Some ours) digest);
  _ ⟸ checkout_commit ns digest;
  m_ret digest.

(** Move the current branch to a commit and check it out. *)
Definition move_head ns (head : bytes) (old : option Digest) (new : Digest) : M Loom () :=
  _ ⟸ authorize_branch_update ns (branch_ref head) old new;
  _ ⟸ m_refs (fun r => update_branch r ns head old new);
  checkout_commit ns new.

(** The three-way merge of two tips neither of which contains the other. *)
Definition merge_tips ns (head : bytes) (ours theirs : Digest) (from_branch author : bytes) (timestamp_ms : N) (cell_level : bool) : M Loom MergeOutcome :=
  bases ⟸ m_look (fun s => merge_base_set fuel s ours theirs);
  '(base_files, _) ⟸ m_look (fun s => reduce_bases fuel s bases);
  '(our_files, our_dirs) ⟸ m_look (fun s => flatten_commit fuel s ours);
  '(their_files, their_dirs) ⟸ m_look (fun s => flatten_commit fuel s theirs);
  let merged_dirs := our_dirs ∪ their_dirs in
  '(merged, unresolved) ⟸ resolve_three_way ns base_files our_files their_files cell_level;
  if negb (bool_decide (unresolved = [])) then
    enter_merge_conflict_state ns ours theirs from_branch merged merged_dirs base_files our_files their_files unresolved
  else
    _ ⟸ m_modify (fun l => set_tree l ns merged merged_dirs);
    digest ⟸ merge_commit ns head ours theirs author (merge_text from_branch) timestamp_ms;
    m_ret (Merged digest).

Definition merge_inner ns (from_branch author : bytes) (timestamp_ms : N) (cell_level : bool) : M Loom MergeOutcome :=
  busy ⟸ m_gets (fun l => bool_decide (is_Some (merge_state l !! ns)));
  _ ⟸ m_guard busy Conflict;
  head ⟸ m_reg (fun r => head_branch r ns);
  _ ⟸ m_auth (fun a => authorize_ref a ns (branch_ref head) Merge);
  _ ⟸ m_auth (fun a => authorize_ref a ns (branch_ref from_branch) Read);
  ours ⟸ m_found (m_reg (fun r => branch_tip r ns head));
  theirs ⟸ m_found (m_reg (fun r => branch_tip r ns from_branch));
  contained ⟸ (if bool_decide (dbytes ours = dbytes theirs) then m_ret true else m_look (fun s => is_ancestor fuel s theirs ours));
  if (contained : bool) then m_ret UpToDate
  else
    behind ⟸ m_look (fun s => is_ancestor fuel s ours theirs);
    if (behind : bool) then
      _ ⟸ move_head ns head (Some ours) theirs;
      m_ret (FastForward theirs)
    else merge_tips ns head ours theirs from_branch author timestamp_ms cell_level.

Definition merge ns (from_branch author : bytes) (timestamp_ms : N) : M Loom MergeOutcome := merge_inner ns from_branch author timestamp_ms false.
Definition merge_cell_level ns (from_branch author : bytes) (timestamp_ms : N) : M Loom MergeOutcome := merge_inner ns from_branch author timestamp_ms true.

(** ** A merge in progress *)

Definition set_conflicts (m : MergeInProgress) (cs : list MergeConflict) : MergeInProgress :=
  mkMergeInProgress (other_parent m) (our_head m) (merge_message m) cs (pre_work m) (pre_dirs m).

(** The first conflict of a path, and the others. *)
Fixpoint take_conflict path (cs : list MergeConflict) : option (MergeConflict * list MergeConflict) :=
  match cs with
  | [] => None
  | c :: cs =>
      if bool_decide (mc_path c = path) then Some (c, cs)
      else p ← take_conflict path cs; Some (p.1, c :: p.2)
  end.

Definition merge_resolve ns path (resolution : ConflictResolution) : M Loom () :=
  _ ⟸ m_auth (fun a => authorize a ns FacetKind.Vcs Merge);
  path ⟸ m_lift (normalize_path path);
  m ⟸ m_read (fun l => ok_or (merge_state l !! ns) InvalidArgument);
  '(c, rest) ⟸ m_lift (ok_or (take_conflict path (merge_conflicts_of m)) InvalidArgument);
  m_modify (fun l =>
    let chosen := match resolution with
                  | Ours => mc_ours c
                  | Theirs => mc_theirs c
                  | Working => work_slot l ns path
                  end in
    let l := put_merge l ns (set_conflicts m rest) in
    set_work l (<[ns := put_slot path chosen (work_of l ns)]> (work l))).

Definition merge_abort ns : M Loom () :=
  _ ⟸ m_auth (fun a => authorize a ns FacetKind.Vcs Merge);
  m ⟸ m_read (fun l => ok_or (merge_state l !! ns) InvalidArgument);
  m_modify (fun l => set_tree (clear_merge l ns) ns (pre_work m) (pre_dirs m)).

Definition merge_continue ns (author : bytes) (timestamp_ms : N) : M Loom Digest :=
  _ ⟸ m_auth (fun a => authorize a ns FacetKind.Vcs Merge);
  m ⟸ m_read (fun l => ok_or (merge_state l !! ns) InvalidArgument);
  _ ⟸ m_guard (negb (bool_decide (merge_conflicts_of m = []))) Conflict;
  head ⟸ m_reg (fun r => head_branch r ns);
  digest ⟸ merge_commit ns head (our_head m) (other_parent m) author (merge_message m) timestamp_ms;
  _ ⟸ m_modify (fun l => clear_merge l ns);
  m_ret digest.

(** ** Replay *)

(** Apply the patches onto a running tree; a run that is not dry commits each. *)
Fixpoint replay_steps ns (steps : list ReplayPatch) (timestamp_ms : N) (dry_run : bool) (running : WorkTree) (running_dirs : gset bytes)
    (tip : option Digest) : M Loom (list bytes + option Digest) :=
  match steps with
  | [] => m_ret (inr tip)
  | patch :: steps =>
      '(merged, unresolved) ⟸ resolve_three_way ns (rp_base patch) running (rp_theirs patch) false;
      if negb (bool_decide (unresolved = [])) then m_ret (inl unresolved)
      else
        let running_dirs := running_dirs ∪ rp_dirs patch in
        tip ⟸ (if dry_run then m_ret tip
               else d ⟸ snapshot merged running_dirs (option_list tip) (rp_author patch) timestamp_ms (rp_message patch); m_ret (Some d));
        replay_steps ns steps timestamp_ms dry_run merged running_dirs tip
  end.

Definition m_flatten (c : option Digest) : M Loom (WorkTree * gset bytes) :=
  match c with Some d => m_look (fun s => flatten_commit fuel s d) | None => m_ret (∅, ∅) end.

(** [tip.expect(..)] of a replay with a step. *)
Definition m_expect {A} (o : option A) : M Loom A := fun l => match o with Some x => Some (Ok x, l) | None => None end.

Definition replay_onto ns (start : option Digest) (steps : list ReplayPatch) (timestamp_ms : N) (dry_run : bool) : M Loom ReplayOutcome :=
  busy ⟸ m_gets (fun l => bool_decide (is_Some (merge_state l !! ns)));
  _ ⟸ m_guard (negb dry_run && busy) Conflict;
  match steps with
  | [] => m_ret Empty
  | _ =>
      '(head, orig_tip) ⟸ head_tip ns;
      '(running, running_dirs) ⟸ m_flatten start;
      r ⟸ replay_steps ns steps timestamp_ms dry_run running running_dirs start;
      match r with
      | inl unresolved => m_ret (ReplayConflicts unresolved)
      | inr tip =>
          if dry_run then m_ret Clean
          else
            final_tip ⟸ m_expect tip;
            _ ⟸ move_head ns head orig_tip final_tip;
            m_ret (Replayed final_tip)
      end
  end.

Definition m_commit (c : Digest) : M Loom Commit := m_look (fun s => Some (get_commit s c)).

Definition pick_patch (c : Digest) : M Loom ReplayPatch :=
  commit ⟸ m_commit c;
  '(theirs, dirs) ⟸ m_flatten (Some c);
  '(base, _) ⟸ m_flatten (head (c_parents commit));
  m_ret (mkReplayPatch base theirs dirs (c_author commit) (c_message commit)).

Definition replay_rights ns : M Loom () :=
  _ ⟸ m_auth (fun a => authorize a ns FacetKind.Vcs Write);
  m_auth (fun a => authorize a ns FacetKind.Vcs Advance).

Definition cherry_pick ns (commits : list Digest) (timestamp_ms : N) (dry_run : bool) : M Loom ReplayOutcome :=
  _ ⟸ replay_rights ns;
  '(_, tip) ⟸ head_tip ns;
  steps ⟸ m_map pick_patch commits;
  replay_onto ns tip steps timestamp_ms dry_run.

(** [message.lines().next().unwrap_or("")]: up to a newline, without a carriage return before it. *)
Fixpoint until_newline (b : bytes) : bytes * bool :=
  match b with
  | [] => ([], false)
  | c :: b => if bool_decide (c = newline) then ([], true) else let '(x, e) := until_newline b in (c :: x, e)
  end.
Definition first_line (b : bytes) : bytes :=
  let '(x, ended) := until_newline b in
  if ended && bool_decide (last x = Some x0d) then removelast x else x.

(** [{:?}] of a text: quotes, backslashes and control characters of ASCII are escaped; other characters
    are printed, as the printable ones are. *)
Definition debug_byte (b : byte) : bytes :=
  let n := Byte.to_N b in
  if bool_decide (b = x22) || bool_decide (b = x5c) then [x5c; b]
  else if n =? 9 then str "\t" else if n =? 10 then str "\n" else if n =? 13 then str "\r" else if n =? 0 then str "\0"
  else if (n <? 16) || (n =? 127) || ((16 <=? n) && (n <? 32)) then
    str "\u{" ++ (if n <? 16 then [hex_digit n] else hex_byte b) ++ str "}"
  else [b].
Definition debug_str (b : bytes) : bytes := [x22] ++ concat (map debug_byte b) ++ [x22].

Definition revert_patch (author : bytes) (c : Digest) : M Loom ReplayPatch :=
  commit ⟸ m_commit c;
  '(base, _) ⟸ m_flatten (Some c);
  '(theirs, dirs) ⟸ m_flatten (head (c_parents commit));
  m_ret (mkReplayPatch base theirs dirs author (str "Revert " ++ debug_str (first_line (c_message commit)))).

Definition revert ns (commits : list Digest) (author : bytes) (timestamp_ms : N) (dry_run : bool) : M Loom ReplayOutcome :=
  _ ⟸ replay_rights ns;
  '(_, tip) ⟸ head_tip ns;
  steps ⟸ m_map (revert_patch author) commits;
  replay_onto ns tip steps timestamp_ms dry_run.

(** The first-parent commits not contained in [onto], oldest first; [n] bounds their number. *)
Fixpoint commits_to_replay (n : nat) (onto : Digest) (cur : option Digest) (acc : list Digest) : M Loom (list Digest) :=
  match cur with
  | None => m_ret acc
  | Some c =>
      match n with
      | O => fun _ => None
      | Datatypes.S n =>
          contained ⟸ m_look (fun s => is_ancestor fuel s c onto);
          if (contained : bool) then m_ret acc
          else commit ⟸ m_commit c; commits_to_replay n onto (head (c_parents commit)) (c :: acc)
      end
  end.

Definition rebase ns (onto : bytes) (timestamp_ms : N) (dry_run : bool) : M Loom ReplayOutcome :=
  _ ⟸ replay_rights ns;
  onto_d ⟸ resolve_rev ns onto;
  '(head, t) ⟸ head_tip ns;
  tip ⟸ m_lift (ok_or t NotFound);
  if bool_decide (dbytes tip = dbytes onto_d) then m_ret Empty
  else
    behind ⟸ m_look (fun s => is_ancestor fuel s tip onto_d);
    if (behind : bool) then
      if dry_run then m_ret Clean
      else _ ⟸ move_head ns head (Some tip) onto_d; m_ret (Replayed onto_d)
    else
      to_replay ⟸ commits_to_replay fuel onto_d (Some tip) [];
      match to_replay with
      | [] => m_ret Empty
      | _ =>
          _ ⟸ m_auth (fun a => authorize a ns FacetKind.Vcs Admin);
          steps ⟸ m_map pick_patch to_replay;
          replay_onto ns (Some onto_d) steps timestamp_ms dry_run
      end.

Definition squash ns (onto author message : bytes) (timestamp_ms : N) : M Loom Digest :=
  _ ⟸ replay_rights ns;
  _ ⟸ m_auth (fun a => authorize a ns FacetKind.Vcs Admin);
  busy ⟸ m_gets (fun l => bool_decide (is_Some (merge_state l !! ns)));
  _ ⟸ m_guard busy Conflict;
  onto_d ⟸ resolve_rev ns onto;
  '(head, t) ⟸ head_tip ns;
  tip ⟸ m_lift (ok_or t NotFound);
  _ ⟸ m_guard (bool_decide (dbytes tip = dbytes onto_d)) InvalidArgument;
  anc ⟸ m_look (fun s => is_ancestor fuel s onto_d tip);
  _ ⟸ m_guard (negb anc) InvalidArgument;
  '(files, dirs) ⟸ m_flatten (Some tip);
  new ⟸ snapshot files dirs [onto_d] author timestamp_ms message;
  _ ⟸ authorize_branch_update ns (branch_ref head) (Some tip) new;
  _ ⟸ m_refs (fun r => update_branch r ns head (Some tip) new);
  m_ret new.
End Ops.
End EngineVcs.
