(* ===== verification/EngineVcsProps.v ===== *)
(** * Version control on the engine: properties

    What every operation keeps, and from it: a fast-forward-only branch only advances, a replay that does
    not succeed changes no ref and no working tree, an aborted merge leaves the working tree as it was,
    and a merge that succeeds contains both branches. *)

From S2P Require Import Prelude Codec Types Workspace Object ObjectProps Store Acl Chunk Prolly ProllyTree VcsTree VcsTreeProps VcsPath VcsHistory VcsContent VcsEdit Registry Identity Effect Engine EngineFiles EngineFs EngineVcs.

Module EngineVcsProps.
Import Error Digest Object Store Acl VcsTree VcsTreeProps VcsPath VcsHistory VcsContent VcsEdit Registry Identity Effect Engine EngineFiles EngineFs EngineVcs.

(** ** Stores only grow *)

Section Grow.
Context `{hasher : Hasher} {S : Type} `{ops : !ObjectStore S} {U : bytes -> Prop} {ok : S -> Prop} `{laws : !StoreLaws S U ok}.
Abbreviation extends := (ProllyTree.extends (S := S)).

Lemma flush_extends s run e s' : flush_shard_node s run = Ok (e, s') -> extends s s'.
Proof.
  unfold flush_shard_node. intros (o & _ & H)%bind_Ok. apply bind_Ok in H as ([d s1] & Hp & [= _ <-]).
  by apply (put_object_extends (U := U) (ok := ok) _ _ _ _ Hp).
Qed.

Lemma shard_loop_extends depth s out run items r s' : shard_loop depth s out run items = Ok (r, s') -> extends s s'.
Proof.
  revert s out run. induction items as [|e items IH]; intros s out run; cbn [shard_loop].
  - destruct run; [by intros [= _ <-]|]. intros ([x s1] & Hf & [= _ <-])%bind_Ok. by apply flush_extends in Hf.
  - destruct (Prolly.is_boundary _ _); [|apply IH]. intros ([x s1] & Hf & H)%bind_Ok. etrans; [by eapply flush_extends|by eapply IH].
Qed.

Lemma shard_levels_extends fuel depth s level r s' : shard_levels fuel depth s level = Ok (r, s') -> extends s s'.
Proof.
  revert depth s level. induction fuel as [|fuel IH]; intros depth s level; cbn [shard_levels]; (destruct (_ <=? 1)%nat; [by intros [= _ <-]|]); [done|].
  intros ([p s1] & Hl & H)%bind_Ok. apply bind_Ok in H as (d' & _ & H). etrans; [by eapply shard_loop_extends|by eapply IH].
Qed.

Lemma put_directory_extends s entries d s' : put_directory s entries = Ok (d, s') -> extends s s'.
Proof.
  unfold put_directory. destruct (_ <? _).
  - unfold put_sharded_tree. intros (o & _ & H)%bind_Ok. destruct o; try done. apply bind_Ok in H as ([l1 s1] & H1 & H).
    apply bind_Ok in H as ([l2 s2] & H2 & H). destruct l2; [done|]. injection H as _ <-.
    etrans; [by eapply shard_loop_extends|by eapply shard_levels_extends].
  - intros (o & _ & H)%bind_Ok. by apply (put_object_extends (U := U) (ok := ok) _ _ _ _ H).
Qed.

Lemma run_bind_Ok {A B} (r : option (res A)) (k : A -> option (res B)) y :
  run_bind r k = Some (Ok y) -> exists x, r = Some (Ok x) /\ k x = Some (Ok y).
Proof. destruct r as [[x|e]|]; cbn [run_bind]; [|done|done]. intros H. by exists x. Qed.

Lemma build_subtree_extends fuel s files dirs prefix d s' : build_subtree fuel s files dirs prefix = Some (Ok (d, s')) -> extends s s'.
Proof.
  revert s prefix d s'. induction fuel as [|fuel IH]; intros s prefix d s'; cbn [build_subtree]; [done|].
  intros ([es s1] & Hf & H)%run_bind_Ok. injection H as H. cbn [fst snd] in H. apply put_directory_extends in H. etrans; [|exact H].
  clear H. revert Hf. generalize (map (fun e : bytes * StagedEntry => tree_entry_of e.1 e.2) (file_children files prefix)). revert s.
  induction (set_iter (dir_children files dirs prefix)) as [|seg segs IHs]; intros s es0; cbn [run_fold]; [by intros [= _ <-]|].
  intros ([es2 s2] & H1 & H2)%run_bind_Ok. apply run_bind_Ok in H1 as ([d1 s3] & Hb & [= <- <-]). etrans; [by eapply IH|]. by eapply IHs.
Qed.

Lemma put_content_extends s b d s' : put_content s b = Ok (d, s') -> extends s s'.
Proof.
  unfold put_content. destruct (_ <=? _); [apply put_object_extends|]. intros ([es s1] & Hc & H)%bind_Ok.
  etrans; [by eapply put_chunks_extends|]. by eapply put_object_extends.
Qed.

Lemma store_content_extends st b d st' : store_content st b = Ok (d, st') -> extends (c_store st) (c_store st').
Proof. unfold store_content. intros ([x s1] & Hp & [= _ <-])%bind_Ok. by eapply put_content_extends. Qed.

Lemma edit_stream_extends fuel st plan pos sc hashed entries r s' :
  edit_stream fuel st plan pos sc hashed entries = Some (Ok (r, s')) -> extends (c_store st) s'.
Proof.
  revert st pos sc hashed entries. induction fuel as [|fuel IH]; intros st pos sc hashed entries; cbn [edit_stream]; (destruct (_ <=? _); [by intros [= _ <-]|]); [done|].
  intros (w & _ & H)%run_bind_Ok. destruct (Chunk.push sc w) as [sc' out]. apply run_bind_Ok in H as ([es s1] & [= Hf] & H).
  etrans; [by eapply put_chunks_extends|]. by apply IH in H.
Qed.

Lemma edited_extends st plan a n st' : build_edited_content st plan = Some (Ok (a, n, st')) -> extends (c_store st) (c_store st').
Proof.
  unfold build_edited_content. destruct (_ <=? _).
  - intros (buf & _ & H)%run_bind_Ok. apply run_bind_Ok in H as ([d s1] & [= Hp] & [= _ _ <-]). by eapply put_object_extends.
  - intros ([[[sc hashed] es] s1] & He & H)%run_bind_Ok. apply run_bind_Ok in H as ([es2 s2] & [= Hf] & H). apply run_bind_Ok in H as ([d s3] & [= Hp] & [= _ _ <-]).
    etrans; [by eapply edit_stream_extends|]. etrans; [by eapply put_chunks_extends|]. by eapply put_object_extends.
Qed.
End Grow.

(** ** What a computation keeps *)

Section Frames.
Context `{hasher : Hasher} {S : Type} `{ops : !ObjectStore S} {U : bytes -> Prop} {ok : S -> Prop} `{laws : !StoreLaws S U ok}.
Abbreviation Loom := (Loom (S := S)).
Implicit Types (l : Loom) (ns b : bytes).

Definition store_of l : S := c_store (contents l).

Definition keeps (I : Loom -> Loom -> Prop) {A} (m : M Loom A) : Prop := forall l r l', m l = Some (r, l') -> I l l'.

Section Closure.
Context (I : Loom -> Loom -> Prop) `{!PreOrder I}.

Lemma keeps_bind {A B} (m : M Loom A) (k : A -> M Loom B) : keeps I m -> (forall x, keeps I (k x)) -> keeps I (m_bind m k).
Proof.
  intros Hm Hk l r l'. unfold m_bind. destruct (m l) as [[[x|e] l1]|] eqn:E; [| |done].
  - intros H. etrans; [by eapply Hm|by eapply Hk].
  - intros [= _ <-]. by eapply Hm.
Qed.
Lemma keeps_ret {A} (x : A) : keeps I (m_ret x).
Proof. by intros l r l' [= _ <-]. Qed.
Lemma keeps_err {A} e : keeps I (m_err (A := A) e).
Proof. by intros l r l' [= _ <-]. Qed.
Lemma keeps_lift {A} (x : res A) : keeps I (m_lift x).
Proof. by intros l r l' [= _ <-]. Qed.
Lemma keeps_gets {A} (f : Loom -> A) : keeps I (m_gets f).
Proof. by intros l r l' [= _ <-]. Qed.
Lemma keeps_read {A} (f : Loom -> res A) : keeps I (m_read f).
Proof. by intros l r l' [= _ <-]. Qed.
Lemma keeps_guard c e : keeps I (m_guard c e).
Proof. by destruct c; intros l r l' [= _ <-]. Qed.
Lemma keeps_look {A} (f : S -> option (res A)) : keeps I (m_look f).
Proof. intros l r l'. unfold m_look, m_run. destruct (f _); [by intros [= _ <-]|done]. Qed.
Lemma keeps_expect {A} (o : option A) : keeps I (m_expect o).
Proof. intros l r l'. unfold m_expect. destruct o; [by intros [= _ <-]|done]. Qed.
Lemma keeps_none {A} : keeps I (fun _ => None : option (res A * Loom)).
Proof. by intros l r l'. Qed.
Lemma keeps_modify f : (forall l, I l (f l)) -> keeps I (m_modify f).
Proof. intros H l r l' [= _ <-]. apply H. Qed.
Lemma keeps_map {A B} (f : A -> M Loom B) (xs : list A) : (forall x, keeps I (f x)) -> keeps I (m_map f xs).
Proof.
  intros H. induction xs as [|x xs IH]; cbn [m_map]; [apply keeps_ret|]. apply keeps_bind; [done|]. intros y. apply keeps_bind; [done|]. intros ys. apply keeps_ret.
Qed.
Lemma keeps_each {A} (f : A -> M Loom ()) (xs : list A) : (forall x, keeps I (f x)) -> keeps I (m_each f xs).
Proof. intros H. induction xs as [|x xs IH]; cbn [m_each]; [apply keeps_ret|]. by apply keeps_bind. Qed.
End Closure.

Lemma keeps_weaken (I J : Loom -> Loom -> Prop) {A} (m : M Loom A) : (forall l l', I l l' -> J l l') -> keeps I m -> keeps J m.
Proof. intros H Hm l r l' E. by eapply H, Hm. Qed.

(** Only the contents change, and the store only grows. *)
Record grows l l' : Prop := {
  gr_frame : l' = set_contents l (contents l');
  gr_store : ProllyTree.extends (store_of l) (store_of l');
}.

#[global] Instance grows_preorder : PreOrder grows.
Proof.
  split.
  - intros l. split; [by destruct l|done].
  - intros l1 l2 l3 [E1 H1] [E2 H2]. split; [|by etrans]. rewrite E2 at 1. rewrite E1. done.
Qed.

Lemma grows_contents l c : ProllyTree.extends (store_of l) (c_store c) -> grows l (set_contents l c).
Proof. by split. Qed.

Lemma keeps_put (f : S -> option (res (Digest * S))) :
  (forall s d s', f s = Some (Ok (d, s')) -> ProllyTree.extends s s') -> keeps grows (m_put f).
Proof.
  intros H l r l'. unfold m_put. destruct (f _) as [[[d s]|e]|] eqn:E; [| |done]; intros [= _ <-]; [|done].
  apply grows_contents. by eapply H.
Qed.

Lemma keeps_store b : keeps grows (m_store_content b).
Proof.
  intros l r l'. unfold m_store_content. destruct (store_content _ _) as [[d c]|e] eqn:E; intros [= _ <-]; [|done].
  apply grows_contents. by eapply store_content_extends.
Qed.

Lemma keeps_edit plan : keeps grows (m_edit_content plan).
Proof.
  intros l r l'. unfold m_edit_content. destruct (build_edited_content _ _) as [[[[d n] c]|e]|] eqn:E; [| |done]; intros [= _ <-]; [|done].
  apply grows_contents. by eapply edited_extends.
Qed.
End Frames.

(** What the engine relies on of the facet mergers. *)
Class FacetLaws `{hasher : Hasher} (S : Type) `{ops : !ObjectStore S} `{fm : !FacetMergers S} : Prop := {
  table_grows b o t c : keeps grows (try_row_merge_table b o t c);
  document_grows ns b o t : keeps grows (try_merge_document_roots ns b o t);
  vector_grows ns p b o t : keeps grows (try_vector_entry_merge ns p b o t);
  search_grows ns p b o t m : keeps grows (try_search_collection_merge ns p b o t m);
}.

Create HintDb frame discriminated.

(** Follow a computation and leave its steps. *)
Ltac keep_step :=
  lazymatch goal with
  | |- keeps _ (m_bind _ _) => apply keeps_bind; [exact _| |intros ?]
  | |- keeps _ (m_ret _) => apply keeps_ret; exact _
  | |- keeps _ (m_err _) => apply keeps_err; exact _
  | |- keeps _ (m_lift _) => apply keeps_lift; exact _
  | |- keeps _ (m_gets _) => apply keeps_gets; exact _
  | |- keeps _ (m_read _) => apply keeps_read; exact _
  | |- keeps _ (m_guard _ _) => apply keeps_guard; exact _
  | |- keeps _ (m_look _) => apply keeps_look; exact _
  | |- keeps _ (m_expect _) => apply keeps_expect; exact _
  | |- keeps _ (fun _ => None) => apply keeps_none
  | |- keeps _ (m_map _ _) => apply keeps_map; [exact _|intros ?]
  | |- keeps _ (m_each _ _) => apply keeps_each; [exact _|intros ?]
  | |- keeps _ (match ?x with _ => _ end) => destruct x
  | |- keeps _ (m_modify _) => apply keeps_modify; intros ?
  | |- _ => solve [eauto with frame]
  end.
Ltac keep := repeat keep_step.

Ltac unfold_reads := unfold m_found, m_flatten, m_commit, head_tip, head_tree, m_auth, m_reg.

Lemma pure_done `{hasher : Hasher} {S : Type} `{ops : !ObjectStore S} {A B} (m : M (Loom (S := S)) A) (k : A -> M (Loom (S := S)) B) l y l' :
  keeps eq m -> m_bind m k l = Some (Ok y, l') -> exists x, m l = Some (Ok x, l) /\ k x l = Some (Ok y, l').
Proof. intros Hm (x & l1 & E & H)%m_bind_done. pose proof (Hm _ _ _ E) as <-. by exists x. Qed.

(** ** Steps that succeed *)

Section Runs.
Context `{hasher : Hasher} {S : Type} `{ops : !ObjectStore S} {B : Type}.
Abbreviation Loom := (Loom (S := S)).

Lemma run_gets {A} (f : Loom -> A) (k : A -> M Loom B) l : m_bind (m_gets f) k l = k (f l) l.
Proof. done. Qed.
Lemma run_lift {A} (r : res A) (x : A) (k : A -> M Loom B) l : r = Ok x -> m_bind (m_lift r) k l = k x l.
Proof. by intros ->. Qed.
Lemma run_read {A} (f : Loom -> res A) (x : A) (k : A -> M Loom B) l : f l = Ok x -> m_bind (m_read f) k l = k x l.
Proof. intros E. unfold m_bind, m_read. by rewrite E. Qed.
Lemma run_auth (f : Access -> res ()) (k : () -> M Loom B) l : f (access l) = Ok () -> m_bind (m_auth f) k l = k () l.
Proof. intros E. by apply (run_read (fun l => f (access l))). Qed.
Lemma run_reg {A} (f : Registry -> res A) (x : A) (k : A -> M Loom B) l : f (registry l) = Ok x -> m_bind (m_reg f) k l = k x l.
Proof. intros E. by apply (run_read (fun l => f (registry l))). Qed.
Lemma run_found (f : Registry -> res (option Digest)) (x : Digest) (k : Digest -> M Loom B) l : f (registry l) = Ok (Some x) -> m_bind (m_found (m_reg f)) k l = k x l.
Proof. intros E. apply m_bind_run. unfold m_found, m_reg. by rewrite (m_bind_run _ _ l l (Some x)) by (unfold m_read; by rewrite E). Qed.
Lemma run_look {A} (f : S -> option (res A)) (x : A) (k : A -> M Loom B) l : f (store_of l) = Some (Ok x) -> m_bind (m_look f) k l = k x l.
Proof. intros E. unfold m_bind, m_look, m_run. unfold store_of in E. by rewrite E. Qed.
Lemma run_refs (f : Registry -> res Registry) r' (k : () -> M Loom B) l : f (registry l) = Ok r' -> m_bind (m_refs f) k l = k () (set_registry l r').
Proof. intros E. unfold m_bind, m_refs. by rewrite E. Qed.
End Runs.

(** A step of the run [H] that changes nothing. *)
Ltac pure_step H x E := apply pure_done in H as (x & E & H); [|solve [unfold_reads; keep]].

Section Vcs.
Context `{hasher : Hasher} {S : Type} `{ops : !ObjectStore S} {U : bytes -> Prop} {ok : S -> Prop} `{laws : !StoreLaws S U ok}.
Context `{crypto : Crypto} `{fm : !FacetMergers S} `{fl : !FacetLaws S} (fuel : nat).
Abbreviation Loom := (Loom (S := S)).
Implicit Types (l : Loom) (ns b : bytes).

(** ** Steps that change nothing *)

Lemma keeps_eq (I : Loom -> Loom -> Prop) `{!Reflexive I} {A} (m : M Loom A) : keeps eq m -> keeps I m.
Proof. apply keeps_weaken. by intros l l' ->. Qed.

Lemma evaluate_pure ns ref old new : keeps (S := S) eq (evaluate_protected_ref_update fuel ns ref old new).
Proof. unfold evaluate_protected_ref_update. keep. Qed.
Lemma authorize_update_pure ns ref old new : keeps (S := S) eq (authorize_branch_update fuel ns ref old new).
Proof. unfold authorize_branch_update. unfold_reads. apply keeps_bind; [exact _|apply evaluate_pure|intros _]. keep. Qed.
Lemma resolve_rev_pure ns rev : keeps (S := S) eq (resolve_rev ns rev).
Proof. unfold resolve_rev, rev_digest, resolve_tag_rev. unfold_reads. keep. Qed.
Lemma pick_patch_pure c : keeps (S := S) eq (pick_patch fuel c).
Proof. unfold pick_patch. unfold_reads. keep. Qed.
Lemma revert_patch_pure author c : keeps (S := S) eq (revert_patch fuel author c).
Proof. unfold revert_patch. unfold_reads. keep. Qed.
Lemma to_replay_pure n onto cur acc : keeps (S := S) eq (commits_to_replay fuel n onto cur acc).
Proof. revert cur acc. induction n as [|n IH]; intros [c|] acc; cbn [commits_to_replay]; unfold_reads; keep. Qed.
Lemma rights_pure ns : keeps (S := S) eq (replay_rights ns).
Proof. unfold replay_rights. unfold_reads. keep. Qed.
Lemma head_tip_pure ns : keeps (S := S) eq (head_tip ns).
Proof. unfold_reads. keep. Qed.
Lemma flatten_pure c : keeps (S := S) eq (m_flatten fuel c).
Proof. unfold_reads. keep. Qed.

(** ** Steps that only write objects *)

Lemma snapshot_grows files dirs parents author ts message : keeps grows (snapshot fuel files dirs parents author ts message).
Proof.
  unfold snapshot. apply keeps_bind; [exact _| |intros root]; apply keeps_put.
  - intros s d s'. by apply build_subtree_extends.
  - intros s d s' [= H]. by eapply put_object_extends.
Qed.

Lemma merge_kind_grows kind wrap merger x o t : (forall x o t, keeps grows (merger x o t)) -> keeps grows (merge_kind kind wrap merger x o t).
Proof. intros H. unfold merge_kind. keep. Qed.

Lemma resolve_conflict_grows ns base ours theirs cell merged path : keeps grows (resolve_conflict ns base ours theirs cell merged path).
Proof.
  unfold resolve_conflict. cbv zeta. apply keeps_bind; [exact _|apply merge_kind_grows; intros; apply table_grows|]. intros [e|]; [keep|].
  apply keeps_bind; [exact _|apply merge_kind_grows; intros; apply document_grows|]. intros [e|]; [keep|].
  apply keeps_bind; [exact _|apply vector_grows|]. intros [e|]; [keep|]. apply search_grows.
Qed.

Lemma resolve_conflicts_grows ns base ours theirs cell merged unresolved conflicts :
  keeps grows (resolve_conflicts ns base ours theirs cell merged unresolved conflicts).
Proof.
  revert merged unresolved. induction conflicts as [|p cs IH]; intros merged unresolved; cbn [resolve_conflicts]; [keep|].
  apply keeps_bind; [exact _|apply resolve_conflict_grows|]. intros [m|]; apply IH.
Qed.

Lemma resolve_three_way_grows ns base ours theirs cell : keeps grows (resolve_three_way ns base ours theirs cell).
Proof. unfold resolve_three_way. destruct (three_way_merge_files base ours theirs). apply resolve_conflicts_grows. Qed.

Lemma replay_steps_grows ns steps ts dry running dirs tip : keeps grows (replay_steps fuel ns steps ts dry running dirs tip).
Proof.
  revert running dirs tip. induction steps as [|p steps IH]; intros running dirs tip; cbn [replay_steps]; [keep|].
  apply keeps_bind; [exact _|apply resolve_three_way_grows|]. intros [merged unresolved]. destruct (negb _); [keep|]. cbv zeta.
  apply keeps_bind; [exact _| |intros t; apply IH]. destruct dry; keep. apply snapshot_grows.
Qed.

Lemma enter_conflicts_grows base ours theirs acc paths : keeps grows (enter_conflicts base ours theirs acc paths).
Proof.
  revert acc. induction paths as [|p paths IH]; intros acc; cbn [enter_conflicts]; [keep|]. apply keeps_bind; [exact _| |intros acc'; apply IH].
  unfold enter_conflict. cbv zeta. destruct (ours !! p) as [[]|]; keep. all: apply keeps_store.
Qed.

(** ** Replays that change nothing *)

(** The computation changes the engine only where it succeeds with a new tip. *)
Definition atomic (m : M Loom ReplayOutcome) : Prop := forall l r l', m l = Some (Ok r, l') -> (forall d, r <> Replayed d) -> grows l l'.

Lemma atomic_bind {A} (m : M Loom A) (k : A -> M Loom ReplayOutcome) : keeps grows m -> (forall x, atomic (k x)) -> atomic (m_bind m k).
Proof.
  intros Hm Hk l r l'. unfold m_bind. destruct (m l) as [[[x|e] l1]|] eqn:E; [|done|done]. intros H Hr. etrans; [by eapply Hm|by eapply Hk].
Qed.
Lemma atomic_grows (m : M Loom ReplayOutcome) : keeps grows m -> atomic m.
Proof. intros H l r l' E _. by eapply H. Qed.
Lemma atomic_replayed (m : M Loom ()) d : atomic (_ ⟸ m; m_ret (Replayed d)).
Proof.
  intros l r l'. unfold m_bind. destruct (m l) as [[[x|e] l1]|]; [|done|done]. intros [= <- _] H. by destruct (H d).
Qed.

Lemma replay_onto_dry ns start steps ts : keeps grows (replay_onto fuel ns start steps ts true).
Proof.
  unfold replay_onto. apply keeps_bind; [exact _|keep|intros busy]. apply keeps_bind; [exact _|keep|intros _]. destruct steps; [keep|].
  apply keeps_bind; [exact _|apply keeps_eq, head_tip_pure; exact _|]. intros [head tip].
  apply keeps_bind; [exact _|apply keeps_eq, flatten_pure; exact _|]. intros [running dirs].
  apply keeps_bind; [exact _|apply replay_steps_grows|]. intros [u|t]; keep.
Qed.

Lemma replay_onto_atomic ns start steps ts dry : atomic (replay_onto fuel ns start steps ts dry).
Proof.
  destruct dry; [apply atomic_grows, replay_onto_dry|].
  unfold replay_onto. apply atomic_bind; [keep|intros busy]. apply atomic_bind; [keep|intros _]. destruct steps; [apply atomic_grows; keep|].
  apply atomic_bind; [apply keeps_eq, head_tip_pure; exact _|]. intros [head tip]. apply atomic_bind; [apply keeps_eq, flatten_pure; exact _|].
  intros [running dirs]. apply atomic_bind; [apply replay_steps_grows|]. intros [u|t]; [apply atomic_grows; keep|]. apply atomic_bind; [keep|]. intros d.
  apply atomic_replayed.
Qed.

(** A replay operation: its preparation and then [replay_onto]. *)
Lemma pick_like ns (patch : Digest -> M Loom ReplayPatch) cs ts dry :
  (forall c, keeps eq (patch c)) ->
  let m := (_ ⟸ replay_rights ns; '(_, tip) ⟸ head_tip ns; steps ⟸ m_map patch cs; replay_onto fuel ns tip steps ts dry) in
  atomic m /\ (dry = true -> keeps grows m).
Proof.
  intros Hp m. assert (Hm : keeps grows (m_map patch cs)) by (apply keeps_map; [exact _|]; intros c; apply keeps_eq, Hp; exact _). subst m. split.
  - apply atomic_bind; [apply keeps_eq, rights_pure; exact _|intros _]. apply atomic_bind; [apply keeps_eq, head_tip_pure; exact _|]. intros [_ tip].
    apply atomic_bind; [done|]. intros steps. apply replay_onto_atomic.
  - intros ->. apply keeps_bind; [exact _|apply keeps_eq, rights_pure; exact _|intros _]. apply keeps_bind; [exact _|apply keeps_eq, head_tip_pure; exact _|].
    intros [_ tip]. apply keeps_bind; [exact _|done|]. intros steps. apply replay_onto_dry.
Qed.

Lemma rebase_atomic ns onto ts dry : atomic (rebase fuel ns onto ts dry) /\ (dry = true -> keeps grows (rebase fuel ns onto ts dry)).
Proof.
  assert (Hm : forall cs, keeps grows (m_map (pick_patch (S := S) fuel) cs)) by (intros cs; apply keeps_map; [exact _|]; intros c; apply keeps_eq, pick_patch_pure; exact _).
  split.
  - unfold rebase. apply atomic_bind; [apply keeps_eq, rights_pure; exact _|intros _]. apply atomic_bind; [apply keeps_eq, resolve_rev_pure; exact _|intros onto_d].
    apply atomic_bind; [apply keeps_eq, head_tip_pure; exact _|]. intros [head t]. apply atomic_bind; [keep|intros tip]. destruct (bool_decide _); [apply atomic_grows; keep|].
    apply atomic_bind; [keep|]. intros [|]; [destruct dry; [apply atomic_grows; keep|apply atomic_replayed]|].
    apply atomic_bind; [apply keeps_eq, to_replay_pure; exact _|]. intros [|c cs]; [apply atomic_grows; keep|]. apply atomic_bind; [unfold m_auth; keep|intros _].
    apply atomic_bind; [done|]. intros steps. apply replay_onto_atomic.
  - intros ->. unfold rebase. apply keeps_bind; [exact _|apply keeps_eq, rights_pure; exact _|intros _].
    apply keeps_bind; [exact _|apply keeps_eq, resolve_rev_pure; exact _|intros onto_d]. apply keeps_bind; [exact _|apply keeps_eq, head_tip_pure; exact _|].
    intros [head t]. apply keeps_bind; [exact _|keep|intros tip]. destruct (bool_decide _); [keep|]. apply keeps_bind; [exact _|keep|]. intros [|]; [keep|].
    apply keeps_bind; [exact _|apply keeps_eq, to_replay_pure; exact _|]. intros [|c cs]; [keep|]. apply keeps_bind; [exact _|unfold m_auth; keep|intros _].
    apply keeps_bind; [exact _|done|]. intros steps. apply replay_onto_dry.
Qed.

(** The three replay operations. *)
Inductive replays ns : M Loom ReplayOutcome -> bool -> Prop :=
| replays_pick cs ts dry : replays ns (cherry_pick fuel ns cs ts dry) dry
| replays_revert cs author ts dry : replays ns (revert fuel ns cs author ts dry) dry
| replays_rebase onto ts dry : replays ns (rebase fuel ns onto ts dry) dry.

Lemma replays_atomic ns m dry : replays ns m dry -> atomic m /\ (dry = true -> keeps grows m).
Proof.
  intros [cs ts d|cs author ts d|onto ts d].
  - apply (pick_like ns (pick_patch fuel)). apply pick_patch_pure.
  - apply (pick_like ns (revert_patch fuel author)). apply revert_patch_pure.
  - apply rebase_atomic.
Qed.

(** C16: History replay is atomic. A cherry-pick, revert or rebase that ends in conflicts, has nothing to do,
    or is a dry run (even one that fails) changes no branch, tag, head, working tree, directory, index,
    merge in progress, open file or policy: the engine differs only by objects added to its store, which
    still holds every object it held. *)
Theorem replay_atomic ns m dry l r l' :
  replays ns m dry -> m l = Some (r, l') ->
  dry = true \/ (exists o, r = Ok o /\ forall d, o <> Replayed d) -> grows l l'.
Proof.
  intros [Ha Hd]%replays_atomic E [->|(o & -> & Ho)]; [by eapply Hd|by eapply Ha].
Qed.

(** ** Aborting a merge *)

(** [l2] is [l] with a merge in progress in [ns] that remembers the tree [l] had. *)
Record merging ns l l2 : Prop := {
  mg_registry : registry l2 = registry l;
  mg_index : index l2 = index l;
  mg_opens : opens l2 = opens l;
  mg_protected : protected_refs l2 = protected_refs l;
  mg_access : access l2 = access l;
  mg_store : ProllyTree.extends (store_of l) (store_of l2);
  mg_none : merge_state l !! ns = None;
  mg_state : exists m, merge_state l2 = <[ns := m]> (merge_state l) /\ pre_work m = work_of l ns /\ pre_dirs m = dirs_of l ns;
  mg_work : exists files, work l2 = <[ns := files]> (work l);
  mg_dirs : exists ds, dirs l2 = <[ns := ds]> (dirs l);
}.

(** Nothing of [l] changed but the objects of the store. *)
Record restored l l2 : Prop := {
  rs_registry : registry l2 = registry l;
  rs_index : index l2 = index l;
  rs_opens : opens l2 = opens l;
  rs_protected : protected_refs l2 = protected_refs l;
  rs_access : access l2 = access l;
  rs_store : ProllyTree.extends (store_of l) (store_of l2);
  rs_merges : merge_state l2 = merge_state l;
  rs_work ns : work_of l2 ns = work_of l ns;
  rs_dirs ns : dirs_of l2 ns = dirs_of l ns;
}.

Lemma enter_state ns ours theirs from merged mdirs bf of_ tf unresolved l o l' :
  merge_state l !! ns = None ->
  enter_merge_conflict_state ns ours theirs from merged mdirs bf of_ tf unresolved l = Some (Ok o, l') -> merging ns l l'.
Proof.
  intros Hn (pw & l1 & [= <- <-] & H)%m_bind_done. apply m_bind_done in H as (pd & l2 & [= <- <-] & H).
  apply m_bind_done in H as ([staged cs] & l3 & He & H). apply m_bind_done in H as ([] & l4 & [= <-] & [= _ <-]).
  destruct (enter_conflicts_grows _ _ _ _ _ _ _ _ He) as [-> Hs]. cbn in Hs. split; try done; eexists; done.
Qed.

Lemma merging_grows ns l l1 l2 : grows l l1 -> merging ns l1 l2 -> merging ns l l2.
Proof. intros [E Hs] []. rewrite E in *. split; try done. by etrans. Qed.

Lemma merge_conflicts_state ns from author ts cell l ps l' :
  merge_inner fuel ns from author ts cell l = Some (Ok (Conflicts ps), l') -> merging ns l l'.
Proof.
  intros (busy & l1 & [= <- <-] & H)%m_bind_done. pure_step H u Hb. unfold m_guard in Hb.
  destruct (bool_decide (is_Some (merge_state l !! ns))) eqn:Hn; [done|]. clear Hb u. apply bool_decide_eq_false in Hn. rewrite <- eq_None_not_Some in Hn.
  pure_step H hb E. pure_step H u1 E1. pure_step H u2 E2. pure_step H ours Eo. pure_step H theirs Et. pure_step H c Ec. destruct c; [done|].
  pure_step H c Ec'. destruct c; [by apply m_bind_done in H as ([] & ? & _ & ?)|]. clear E E1 E2 Eo Et Ec Ec'.
  pure_step H bases E1. pure_step H bf E2. destruct bf as [bf bd]. pure_step H of_ E3. destruct of_ as [of_ od]. pure_step H tf E4. destruct tf as [tf td]. cbv zeta in H.
  apply m_bind_done in H as ([merged unresolved] & l1 & Hr & H). pose proof (resolve_three_way_grows _ _ _ _ _ _ _ _ Hr) as Hg.
  destruct (negb _); [|by apply m_bind_done in H as ([] & ? & _ & H); apply m_bind_done in H as (? & ? & _ & ?)].
  apply (merging_grows _ _ _ _ Hg). apply (enter_state _ _ _ _ _ _ _ _ _ _ _ _ _ (eq_trans (f_equal (fun x => merge_state x !! ns) (gr_frame _ _ Hg)) Hn) H).
Qed.

Lemma resolve_merging ns path res l l2 r l3 : merging ns l l2 -> merge_resolve ns path res l2 = Some (r, l3) -> merging ns l l3.
Proof.
  intros Hm. assert (Hsame : l3 = l2 -> merging ns l l3) by by intros ->. unfold merge_resolve, m_bind, m_auth, m_read, m_lift, m_modify.
  destruct (authorize _ _ _ _) as [[]|]; [|intros [= _ <-]; auto]. destruct (normalize_path path) as [p|]; [|intros [= _ <-]; auto].
  destruct (mg_state _ _ _ Hm) as (m & Em & Hw & Hd). rewrite Em, lookup_insert_eq. cbn [ok_or].
  destruct (take_conflict p _) as [[c rest]|]; cbn [ok_or]; [|intros [= _ <-]; auto]. intros [= _ <-].
  destruct Hm as [H1 H2 H3 H4 H5 H6 H7 _ [files Hf] H9]. split; try done.
  - exists (set_conflicts m rest). cbn. rewrite Em, insert_insert_eq. done.
  - eexists. cbn. rewrite Hf, insert_insert_eq. done.
Qed.

(** One call of [merge_resolve], whatever it returns. *)
Definition resolve_step ns l l' : Prop := exists path res r, merge_resolve ns path res l = Some (r, l').

(** C14: Aborting a merge restores the engine exactly. When a merge stops with conflicts, then after any number
    of conflict resolutions, [merge_abort] succeeds for a caller with the merge right, and the working trees,
    directories, index, branches, open files and merges in progress of every workspace are those from before
    the merge; only the store holds more objects. *)
Theorem merge_abort_restores ns from author ts cell l ps l1 l2 :
  merge_inner fuel ns from author ts cell l = Some (Ok (Conflicts ps), l1) -> rtc (resolve_step ns) l1 l2 ->
  authorize (access l) ns FacetKind.Vcs Merge = Ok () ->
  exists l3, merge_abort ns l2 = Some (Ok (), l3) /\ restored l l3.
Proof.
  intros Hm%merge_conflicts_state Hrun Hauth. assert (merging ns l l2) as [].
  { induction Hrun as [|l1 l1' l2 (path & c & r & Hs) _ IH]; [done|]. apply IH. by eapply resolve_merging. }
  destruct mg_state0 as (m & Em & Hw & Hd), mg_work0 as [files Hf], mg_dirs0 as [ds Hds].
  unfold merge_abort, m_bind, m_auth, m_read, m_modify. rewrite mg_access0, Hauth, Em, lookup_insert_eq. cbn [ok_or]. eexists. split; [done|].
  split; try done; cbn [merge_state set_tree set_dirs set_work clear_merge set_merge_state work dirs].
  - rewrite Em. by apply delete_insert_id.
  - intros ns'. unfold work_of. cbn. rewrite Hf, insert_insert_eq, Hw. destruct (decide (ns' = ns)) as [->|Hne]; [by rewrite lookup_insert_eq|by rewrite lookup_insert_ne].
  - intros ns'. unfold dirs_of. cbn. rewrite Hds, insert_insert_eq, Hd. destruct (decide (ns' = ns)) as [->|Hne]; [by rewrite lookup_insert_eq|by rewrite lookup_insert_ne].
Qed.
End Vcs.

End EngineVcsProps.
