(* ===== verification/EngineRefs.v ===== *)
(** * What file operations leave alone

    No file, handle or directory operation changes the refs of a workspace, the policies of refs or a merge in
    progress, and the store keeps its objects. *)

From S2P Require Import Prelude Codec Types Workspace Object Store Acl ProllyTree VcsTree VcsContent Registry Effect Engine EngineFiles EngineFs EngineVcs EngineVcsProps Posix EnginePosix FileRefine FileClaims ObjectProps Prolly VcsTreeProps VcsPath VcsHistory VcsEdit Identity.

Module EngineFrames.
Import Error Digest Store Acl VcsTree VcsContent Registry Effect Engine EngineFiles EngineFs EngineVcs EngineVcsProps FileClaims.

Section Frames.
Context `{hasher : Hasher} {S : Type} `{ops : !ObjectStore S} {U : bytes -> Prop} {ok : S -> Prop} `{laws : !StoreLaws S U ok}.
Abbreviation Loom := (Loom (S := S)).
Implicit Types (l : Loom) (ns path : bytes).

Record same_refs l l' : Prop := {
  sr_registry : registry l' = registry l;
  sr_protected : protected_refs l' = protected_refs l;
  sr_merges : merge_state l' = merge_state l;
  sr_index : index l' = index l;
  sr_access : access l' = access l;
  sr_store : ProllyTree.extends (store_of l) (store_of l');
}.

#[global] Instance same_refs_preorder : PreOrder same_refs.
Proof. split; [by split|]. intros l1 l2 l3 [] []. split; try congruence. by etrans. Qed.

Lemma grows_same l l' : grows l l' -> same_refs l l'.
Proof. intros [E Hs]. rewrite E. by split. Qed.

Lemma store_same b : keeps same_refs (m_store_content b).
Proof. eapply keeps_weaken; [apply grows_same|apply keeps_store]. Qed.
Lemma edit_same plan : keeps same_refs (m_edit_content plan).
Proof. eapply keeps_weaken; [apply grows_same|apply keeps_edit]. Qed.
Lemma read_range_same addr offset len : keeps same_refs (m_read_range addr offset len).
Proof. intros l r l'. unfold m_read_range, m_run. destruct (content_read_range _ _ _ _); [by intros [= _ <-]|done]. Qed.
Lemma apply_same id addr size : keeps same_refs (apply_inode_content id addr size).
Proof.
  intros l r l'. unfold apply_inode_content. destruct (inodes (opens l) !! id) as [ino|]; [|by intros [= _ <-]].
  destruct (i_path ino); intros [= _ <-]; by split.
Qed.
Lemma alloc_inode_same ino linked : keeps same_refs (alloc_inode ino linked).
Proof. intros l r l' [= _ <-]. by split. Qed.
Lemma alloc_handle_same h : keeps same_refs (alloc_handle h).
Proof. intros l r l' [= _ <-]. by split. Qed.
Hint Resolve store_same edit_same read_range_same apply_same alloc_inode_same alloc_handle_same : frame.

Lemma put_slot_same l ns path addr size mode : same_refs l (put_file_slot l ns path addr size mode).
Proof. unfold put_file_slot. destruct (path_to_inode _ !! _) as [id|]; [destruct (inodes _ !! _)|]; by split. Qed.
Lemma unlink_same l ns path : same_refs l (EngineFiles.unlink l ns path).
Proof.
  unfold EngineFiles.unlink, remove_work. destruct (path_to_inode _ !! _) as [id|]; [destruct (inodes _ !! _)|]; cbn; destruct (work l !! ns); by split.
Qed.
Lemma cursor_same h f : keeps same_refs (move_cursor h f).
Proof. apply keeps_modify. intros l. cbv zeta. destruct (handles (opens l) !! h); by split. Qed.
Hint Resolve put_slot_same unlink_same cursor_same : frame.

Ltac files := unfold auth_path, auth_facet; keep; try (intros; solve [eauto with frame]); try (by split).

Lemma open_inode_same ns path m : keeps same_refs (open_inode ns path m).
Proof.
  intros l r l'. unfold open_inode. destruct (path_to_inode _ !! _) as [id|].
  - destruct (inodes _ !! _); intros [= _ <-]; by split.
  - revert l r l'. change (keeps same_refs (slot ⟸ m_read (fun l => file_slot l ns path);
       match slot with
       | Some (addr, mode) =>
           size ⟸ m_read (fun l => content_size (contents l) addr);
           alloc_inode (mkInode ns (Some path) addr size mode 1) (Some (ns, path))
       | None =>
           _ ⟸ m_guard (negb (creates m)) NotFound;
           _ ⟸ m_read (fun l => if negb (parent_exists (dirs l) ns path) then Err NotFound else Ok ());
           empty ⟸ m_store_content [];
           id ⟸ alloc_inode (mkInode ns (Some path) empty 0 DEFAULT_FILE_MODE 1) (Some (ns, path));
           _ ⟸ m_modify (fun l => put_work l ns path (SFile (mkStagedFile empty DEFAULT_FILE_MODE)));
           m_ret id
       end)). files.
Qed.
Hint Resolve open_inode_same : frame.

Lemma checked_same h okm right : keeps same_refs (checked_handle h okm right).
Proof. unfold checked_handle, handle_of, authorize_handle, handle_inode. files. Qed.
Lemma edit_inode_same id plan : keeps same_refs (edit_inode id plan).
Proof. unfold edit_inode. files. Qed.
Lemma edit_file_same ns path plan : keeps same_refs (edit_file ns path plan).
Proof. unfold edit_file, edit_source. files. Qed.
Lemma write_norm_same ns path b m : keeps same_refs (write_file_norm ns path b m).
Proof. unfold write_file_norm. files. Qed.
Lemma write_same ns path b m : keeps same_refs (write_file ns path b m).
Proof. unfold write_file, write_file_norm. files. Qed.
Lemma read_same ns path : keeps same_refs (read_file ns path).
Proof. unfold read_file, read_file_norm. files. Qed.
Lemma remove_same ns path : keeps same_refs (remove_file ns path).
Proof. unfold remove_file, remove_file_norm. files. Qed.
Hint Resolve checked_same edit_inode_same edit_file_same write_norm_same write_same read_same remove_same : frame.

Lemma copy_same ns p q r : keeps same_refs (copy_path ns p q r).
Proof. unfold copy_path. cbn [fl_write_file fl_read_file engine_layer fl_set_dirs]. cbv zeta. files. Qed.
Hint Resolve copy_same : frame.

Lemma file_step_same op : keeps same_refs (engine_step op).
Proof.
  destruct op; cbn [engine_step]; unfold returning; (apply keeps_bind; [exact _| |intros ?; keep]).
  all: unfold write_file_reserved, append_file, read_file_reserved, read_file_norm, remove_file_reserved, remove_file_norm, EngineFiles.symlink, read_link, read_at,
    write_at, truncate_file, file_open, file_read, file_read_at, file_write, file_write_at, file_truncate, file_flush, EngineFiles.file_stat, file_close, handle_of,
    exists_path, stat, list_directory, create_directory, create_directory_reserved, create_directory_norm, remove_directory, move_path, walk.
  all: cbn [fl_write_file fl_read_file fl_remove_file engine_layer fl_set_dirs]; cbv zeta; files.
Qed.
End Frames.

End EngineFrames.

(** * Version control on the engine: protected branches

    Runs of version-control operations. A branch with the fast-forward-only policy is never deleted and
    only moves to commits from which its tip is reached through parents. *)

Module EngineRefs.
Import Error Digest Object Store Acl VcsTree VcsTreeProps VcsPath VcsHistory VcsContent VcsEdit Registry Identity Effect Engine EngineFiles EngineFs EngineVcs EngineVcsProps FileClaims EngineFrames.

(** ** Reaching a commit *)

Section Descent.
Context `{hasher : Hasher} {S : Type} `{ops : !ObjectStore S} {U : bytes -> Prop} {ok : S -> Prop} `{laws : !StoreLaws S U ok}.
Implicit Types (s : S) (d : Digest).

(** A parent of a commit of the store, by the bytes of their digests. *)
Definition links s (x p : bytes) : Prop := exists d c, dbytes d = x /\ get_commit s d = Ok c /\ p ∈ map dbytes (c_parents c).

(** [old] is reached from [new] through parents. *)
Definition descends s (new old : Digest) : Prop := rtc (links s) (dbytes new) (dbytes old).

Lemma get_commit_mono s s' d c : ProllyTree.extends s s' -> get_commit s d = Ok c -> get_commit s' d = Ok c.
Proof. intros He. unfold get_commit. intros (o & Ho & H)%bind_Ok. by rewrite (get_object_mono _ _ _ _ He Ho). Qed.

Lemma descends_mono s s' new old : ProllyTree.extends s s' -> descends s new old -> descends s' new old.
Proof.
  intros He. apply rtc_subrel. intros x p (d & c & Hd & Hc & Hp). exists d, c. split_and!; [done| |done]. by eapply get_commit_mono.
Qed.

Lemma walk_sound fuel s queue seen X :
  ancestors_walk fuel s queue seen = Some (Ok X) -> forall x, x ∈ X -> x ∈ seen \/ exists d, d ∈ queue /\ rtc (links s) (dbytes d) x.
Proof.
  revert queue seen. induction fuel as [|fuel IH]; intros [|d queue] seen; cbn [ancestors_walk]; try done; try (intros [= <-] x Hx; by left).
  case_bool_decide as Hd.
  - intros H x Hx. destruct (IH _ _ H x Hx) as [?|(e & He & Hr)]; [by left|]. right. exists e. split; [by right|done].
  - intros (c & Hc & H)%run_bind_Ok x Hx. injection Hc as Hc. destruct (IH _ _ H x Hx) as [Hin|(e & He & Hr)].
    + apply elem_of_union in Hin as [->%elem_of_singleton|Hin]; [|by left]. right. exists d. split; [by left|]. apply rtc_refl.
    + right. apply elem_of_app in He as [He|He]; [exists e; split; [by right|done]|]. exists d. split; [by left|].
      eapply rtc_l; [|exact Hr]. exists d, c. split_and!; [done..|]. by apply list_elem_of_fmap_2.
Qed.

Lemma is_ancestor_descends fuel s a d : is_ancestor fuel s a d = Some (Ok true) -> descends s d a.
Proof.
  unfold is_ancestor, ancestors. intros (X & Hw & [= Hx])%run_bind_Ok. apply bool_decide_eq_true in Hx.
  destruct (walk_sound _ _ _ _ _ Hw _ Hx) as [?|(e & He & Hr)]; [set_solver|]. by apply list_elem_of_singleton in He as ->.
Qed.
End Descent.

(** ** Protected branches *)

(** ** Calls *)

Inductive VcsOp : Type :=
| VFile (op : FsOp)
| VCommit (ns author message : bytes) (ts : N)
| VCommitStaged (ns author message : bytes) (ts : N)
| VStage (ns : bytes) (paths : list bytes)
| VStageAll (ns : bytes)
| VUnstage (ns : bytes) (paths : list bytes)
| VStatus (ns : bytes)
| VCheckout (ns : bytes) (c : Digest)
| VCheckoutBranch (ns name : bytes)
| VRestoreFile (ns rev path : bytes)
| VRestorePath (ns rev prefix : bytes)
| VBranch (ns name : bytes)
| VBranchDelete (ns name : bytes)
| VTagCreate (ns name rev tagger message : bytes) (ts : N)
| VTagDelete (ns name : bytes)
| VTagRename (ns old new : bytes)
| VSetPolicy (ns ref : bytes) (p : ProtectedRefPolicy)
| VRemovePolicy (ns ref : bytes)
| VMerge (ns from author : bytes) (ts : N) (cell : bool)
| VMergeResolve (ns path : bytes) (r : ConflictResolution)
| VMergeAbort (ns : bytes)
| VMergeContinue (ns author : bytes) (ts : N)
| VCherryPick (ns : bytes) (cs : list Digest) (ts : N) (dry : bool)
| VRevert (ns : bytes) (cs : list Digest) (author : bytes) (ts : N) (dry : bool)
| VRebase (ns onto : bytes) (ts : N) (dry : bool)
| VSquash (ns onto author message : bytes) (ts : N).

Section Calls.
Context `{hasher : Hasher} {S : Type} `{ops : !ObjectStore S} `{crypto : Crypto} `{fm : !FacetMergers S}.
Abbreviation Loom := (Loom (S := S)).

(** [m], its result dropped. *)
Definition void {A} (m : M Loom A) : M Loom () := _ ⟸ m; m_ret ().

Definition vcs_step (fuel : nat) (op : VcsOp) : M Loom () :=
  match op with
  | VFile op => void (engine_step op)
  | VCommit ns a m ts => void (commit fuel ns a m ts)
  | VCommitStaged ns a m ts => void (commit_staged fuel ns a m ts)
  | VStage ns ps => stage ns ps
  | VStageAll ns => stage_all ns
  | VUnstage ns ps => unstage fuel ns ps
  | VStatus ns => void (status fuel ns)
  | VCheckout ns c => checkout_commit fuel ns c
  | VCheckoutBranch ns n => checkout_branch fuel ns n
  | VRestoreFile ns r p => restore_file fuel ns r p
  | VRestorePath ns r p => restore_path fuel ns r p
  | VBranch ns n => branch fuel ns n
  | VBranchDelete ns n => EngineVcs.branch_delete fuel ns n
  | VTagCreate ns n r t m ts => void (EngineVcs.tag_create fuel ns n r t m ts)
  | VTagDelete ns n => EngineVcs.tag_delete fuel ns n
  | VTagRename ns o n => EngineVcs.tag_rename fuel ns o n
  | VSetPolicy ns r p => set_protected_ref_policy ns r p
  | VRemovePolicy ns r => void (remove_protected_ref_policy ns r)
  | VMerge ns f a ts c => void (if c then merge_cell_level fuel ns f a ts else merge fuel ns f a ts)
  | VMergeResolve ns p r => merge_resolve ns p r
  | VMergeAbort ns => merge_abort ns
  | VMergeContinue ns a ts => void (merge_continue fuel ns a ts)
  | VCherryPick ns cs ts d => void (cherry_pick fuel ns cs ts d)
  | VRevert ns cs a ts d => void (revert fuel ns cs a ts d)
  | VRebase ns o ts d => void (rebase fuel ns o ts d)
  | VSquash ns o a m ts => void (squash fuel ns o a m ts)
  end.

(** The state after calls, each of which may succeed or fail; [None]: a walk needs more fuel. *)
Fixpoint vcs_run (fuel : nat) (ops : list VcsOp) (l : Loom) : option Loom :=
  match ops with
  | [] => Some l
  | op :: ops => match vcs_step fuel op l with Some (_, l') => vcs_run fuel ops l' | None => None end
  end.
End Calls.

Section Protected.
Context `{hasher : Hasher} {S : Type} `{ops : !ObjectStore S} {U : bytes -> Prop} {ok : S -> Prop} `{laws : !StoreLaws S U ok}.
Context `{crypto : Crypto} `{fm : !FacetMergers S} `{fl : !FacetLaws S} (fuel : nat) (ns b : bytes).
Abbreviation Loom := (Loom (S := S)).
Implicit Types (l : Loom) (r : Registry).

Definition reg_tip r : option Digest := rec ← by_id r !! ns; branches rec !! b.

(** The branch is fast-forward-only. *)
Definition guarded l : Prop := exists p, protected_refs l !! (ns, branch_ref b) = Some p /\ fast_forward_only p = true.

Record advanced l l' : Prop := {
  ad_policy : protected_refs l' !! (ns, branch_ref b) = protected_refs l !! (ns, branch_ref b);
  ad_store : ProllyTree.extends (store_of l) (store_of l');
  ad_tip t : reg_tip (registry l) = Some t -> exists t', reg_tip (registry l') = Some t' /\ descends (store_of l') t' t;
}.

(** Under the policy, the branch only advances. *)
Definition advances l l' : Prop := guarded l -> advanced l l'.

#[global] Instance advances_preorder : PreOrder advances.
Proof.
  split.
  - intros l _. split; [done..|]. intros t Ht. exists t. split; [done|]. apply rtc_refl.
  - intros l1 l2 l3 H1 H2 Hg. destruct (H1 Hg) as [P1 S1 T1]. destruct H2 as [P2 S2 T2]. { unfold guarded in *. by rewrite P1. }
    split; [congruence|by etrans|]. intros t Ht. destruct (T1 t Ht) as (t' & Ht' & D1). destruct (T2 t' Ht') as (t2 & Ht2 & D2). exists t2. split; [done|].
    unfold descends in *. etrans; [exact D2|]. by eapply descends_mono.
Qed.

(** The refs of the branch and its policy are as before. *)
Lemma advances_same l l' :
  reg_tip (registry l') = reg_tip (registry l) -> protected_refs l' !! (ns, branch_ref b) = protected_refs l !! (ns, branch_ref b) -> ProllyTree.extends (store_of l) (store_of l') -> advances l l'.
Proof. intros Ht Hp Hs _. split; [done..|]. intros t E. exists t. rewrite Ht. split; [done|]. apply rtc_refl. Qed.

Lemma grows_advances l l' : grows l l' -> advances l l'.
Proof. intros [E Hs]. apply advances_same; [by rewrite E|by rewrite E|done]. Qed.

Lemma keeps_grows {A} (m : M Loom A) : keeps grows m -> keeps advances m.
Proof. apply keeps_weaken, grows_advances. Qed.

Lemma keeps_refs (f : Registry -> res Registry) : (forall r r', f r = Ok r' -> reg_tip r' = reg_tip r) -> keeps advances (m_refs f).
Proof.
  intros H l r l'. unfold m_refs. destruct (f (registry l)) as [r1|e] eqn:E; intros [= _ <-]; [|done]. apply advances_same; [by apply H|done|done].
Qed.

(** ** Changes of refs *)

Lemma reg_tip_set r ns' rec rec' :
  by_id r !! ns' = Some rec -> (ns' = ns -> branches rec' !! b = branches rec !! b) -> reg_tip (set_record r ns' rec') = reg_tip r.
Proof.
  intros Hr Hb. unfold reg_tip, set_record. cbn [by_id]. destruct (decide (ns' = ns)) as [->|Hne]; [|by rewrite lookup_insert_ne].
  rewrite lookup_insert_eq, Hr. by apply Hb.
Qed.

Lemma record_found r id rec : record r id = Ok rec -> by_id r !! id = Some rec.
Proof. unfold record. destruct (by_id r !! id); [by intros [= ->]|done]. Qed.

Lemma keeps_branch_create ns' name d : keeps advances (m_refs (fun r => Registry.branch_create r ns' name d)).
Proof.
  intros l res l'. unfold m_refs. destruct (Registry.branch_create _ _ _ _) as [r1|e] eqn:E; intros [= _ <-]; [|done].
  unfold Registry.branch_create in E. apply bind_Ok in E as ([] & _ & E). apply bind_Ok in E as (rec & Hr%record_found & E). case_bool_decide as Hn; [done|]. injection E as <-.
  intros _. split; [done..|]. intros t Ht. exists t. split; [|apply rtc_refl]. cbn [registry set_registry]. rewrite (reg_tip_set _ ns' rec); [done|done|].
  intros ->. cbn [set_branches branches]. rewrite lookup_insert_ne; [done|]. intros ->. apply Hn. unfold reg_tip in Ht. rewrite Hr in Ht. by exists t.
Qed.

Lemma branch_ref_inj x y : branch_ref x = branch_ref y -> x = y.
Proof. apply app_inv_head. Qed.

(** What the policy lets through. *)
Lemma evaluate_done old new l l' :
  guarded l -> evaluate_protected_ref_update fuel ns (branch_ref b) old new l = Some (Ok (), l') ->
  exists n, new = Some n /\ forall o, old = Some o -> dbytes o = dbytes n \/ is_ancestor fuel (store_of l) o n = Some (Ok true).
Proof.
  intros (p & Hp & Hff). unfold evaluate_protected_ref_update. intros (policy & l1 & [= <- <-] & H)%m_bind_done. rewrite Hp in H.
  apply m_bind_done in H as ([] & l2 & Hg & H). rewrite Hff in Hg. destruct new as [n|]; [|done]. injection Hg as <-. exists n. split; [done|]. intros o ->.
  apply m_bind_done in H as ([] & l3 & H & _). rewrite Hff in H. cbn [andb] in H. case_bool_decide as Heq; [by left|]. cbn [negb] in H.
  apply m_bind_done in H as (anc & l4 & Ha & H). unfold m_look, m_run in Ha. destruct (is_ancestor _ _ _ _) as [[x|e]|] eqn:Ex; try done. injection Ha as -> <-.
  right. destruct anc; [done|]. done.
Qed.

Lemma keeps_update {A} ns' hb old new (k : M Loom A) :
  keeps advances k ->
  keeps advances (_ ⟸ authorize_branch_update fuel ns' (branch_ref hb) old new; _ ⟸ m_refs (fun r => update_branch r ns' hb old new); k).
Proof.
  intros Hk l res l'. unfold m_bind at 1. destruct (authorize_branch_update _ _ _ _ _ l) as [[[[]|e] l1]|] eqn:Ea; [|intros [= _ <-]|done];
    pose proof (authorize_update_pure fuel _ _ _ _ _ _ _ Ea) as <-; [|done].
  unfold m_bind, m_refs. destruct (update_branch _ _ _ _ _) as [r1|e] eqn:E; [|by intros [= _ <-]]. intros H. apply Hk in H. etrans; [|exact H]. clear H Hk.
  unfold update_branch in E. apply bind_Ok in E as ([] & _ & E). apply bind_Ok in E as (rec & Hr%record_found & E). destruct (same_tip _ _) eqn:Es; [|done]. injection E as <-.
  apply bool_decide_eq_true in Es. intros Hg. split; [done..|]. intros t Ht. cbn [registry set_registry].
  destruct (decide (ns' = ns /\ hb = b)) as [[-> ->]|Hne].
  - exists new. unfold reg_tip in Ht |- *. cbn [set_record by_id set_branches branches]. rewrite lookup_insert_eq. cbn [mbind option_bind set_branches branches]. rewrite lookup_insert_eq. split; [done|].
    rewrite Hr in Ht. cbn [mbind option_bind] in Ht. rewrite Ht in Es. destruct old as [o|]; [|done]. injection Es as Es.
    unfold authorize_branch_update in Ea. apply m_bind_done in Ea as ([] & l1 & Ev & _). destruct (evaluate_done _ _ _ _ Hg Ev) as (n & [= <-] & Hn).
    unfold descends. rewrite Es. destruct (Hn o eq_refl) as [->|Hanc]; [apply rtc_refl|]. by apply is_ancestor_descends in Hanc.
  - exists t. split; [|apply rtc_refl]. rewrite (reg_tip_set _ ns' rec); [done|done|]. intros ->. cbn [set_branches branches]. rewrite lookup_insert_ne; [done|]. intros ->. by apply Hne.
Qed.

Lemma keeps_delete ns' name old :
  keeps advances (_ ⟸ evaluate_protected_ref_update fuel ns' (branch_ref name) old None; m_refs (fun r => Registry.branch_delete r ns' name)).
Proof.
  intros l res l'. unfold m_bind. destruct (evaluate_protected_ref_update _ _ _ _ _ l) as [[[[]|e] l1]|] eqn:Ea; [|intros [= _ <-]|done];
    pose proof (evaluate_pure fuel _ _ _ _ _ _ _ Ea) as <-; [|done]. unfold m_refs.
  destruct (Registry.branch_delete _ _ _) as [r1|e] eqn:E; intros [= _ <-]; [|done].
  unfold Registry.branch_delete in E. apply bind_Ok in E as ([] & _ & E). apply bind_Ok in E as (rec & Hr%record_found & E). case_bool_decide; [done|].
  destruct (branches rec !! name) as [t0|] eqn:Et; [|done]. injection E as <-. intros Hg. destruct (decide (ns' = ns /\ name = b)) as [[-> ->]|Hne].
  { by destruct (evaluate_done _ _ _ _ Hg Ea) as (n & ? & _). }
  apply advances_same; [|done|done|done]. cbn [registry set_registry]. apply (reg_tip_set _ ns' rec); [done|]. intros ->. cbn [set_branches branches].
  rewrite lookup_delete_ne; [done|]. intros ->. by apply Hne.
Qed.

(** ** Operations *)

Lemma same_advances l l' : same_refs l l' -> advances l l'.
Proof. intros []. apply advances_same; [by rewrite sr_registry0|by rewrite sr_protected0|done]. Qed.

Lemma keeps_tree f : (forall l, registry (f l) = registry l /\ protected_refs (f l) = protected_refs l /\ contents (f l) = contents l) -> keeps advances (m_modify f).
Proof. intros H. apply keeps_modify. intros l. destruct (H l) as (Hr & Hp & Hc). apply advances_same; [by rewrite Hr|by rewrite Hp|]. unfold store_of. by rewrite Hc. Qed.

Lemma pure_advances {A} (m : M Loom A) : keeps eq m -> keeps advances m.
Proof. apply keeps_eq. exact _. Qed.

Ltac adv_step :=
  lazymatch goal with
  | |- keeps _ (m_modify _) => apply keeps_tree; intros ?; unfold remove_work; repeat case_match; done
  | |- keeps _ (m_bind (evaluate_protected_ref_update _ _ _ _ None) (fun _ => m_refs (fun r => Registry.branch_delete r _ _))) => apply keeps_delete
  | |- keeps _ (m_put (fun s => Some (put_object s _))) => apply keeps_grows, keeps_put; intros s d s' [= H]; by eapply put_object_extends
  | |- keeps _ (m_bind (authorize_branch_update _ _ _ _ _) (fun _ => m_bind (m_refs (fun r => update_branch r _ _ _ _)) _)) => apply keeps_update
  | |- keeps _ (m_bind (snapshot _ _ _ _ _ _ _) _) => apply keeps_bind; [exact _|apply keeps_grows, snapshot_grows|intros ?]
  | |- keeps _ (m_bind _ _) => apply keeps_bind; [exact _| |intros ?]
  | |- keeps _ (authorize_branch_update _ _ _ _ _) => apply pure_advances, authorize_update_pure
  | |- keeps _ (m_refs (fun r => Registry.branch_create r _ _ _)) => apply keeps_branch_create
  | |- _ => first [solve [eauto with advance] | keep_step]
  end.
Ltac adv := repeat adv_step.
Create HintDb advance.

Lemma checkout_advances ns' c : keeps advances (checkout_commit fuel ns' c).
Proof. unfold checkout_commit. unfold_reads. adv. Qed.
#[local] Hint Resolve checkout_advances : advance.

Lemma move_head_advances ns' hb old new : keeps advances (move_head fuel ns' hb old new).
Proof. unfold move_head. adv. Qed.
#[local] Hint Resolve move_head_advances : advance.

Lemma commit_files_advances ns' select author message ts : keeps advances (commit_files fuel ns' select author message ts).
Proof. unfold commit_files. unfold_reads. do 3 adv_step. all: try solve [adv]. do 2 adv_step; try solve [adv]. adv_step; [solve [adv]|]. destruct x2; adv. Qed.
#[local] Hint Resolve commit_files_advances : advance.

Lemma merge_commit_advances ns' hb ours theirs author message ts : keeps advances (merge_commit fuel ns' hb ours theirs author message ts).
Proof. unfold merge_commit. adv. Qed.
#[local] Hint Resolve merge_commit_advances : advance.

Lemma merge_advances ns' from author ts cell : keeps advances (merge_inner fuel ns' from author ts cell).
Proof.
  unfold merge_inner, merge_tips, enter_merge_conflict_state. unfold_reads. adv.
  - apply keeps_grows, resolve_three_way_grows.
  - apply keeps_grows, enter_conflicts_grows.
Qed.

Lemma replay_onto_advances ns' start steps ts dry : keeps advances (replay_onto fuel ns' start steps ts dry).
Proof. unfold replay_onto. unfold_reads. adv. all: apply keeps_grows, replay_steps_grows. Qed.
#[local] Hint Resolve replay_onto_advances : advance.

Lemma keeps_void {A} (m : M Loom A) : keeps advances m -> keeps advances (void m).
Proof. intros H. unfold void. apply keeps_bind; [exact _|done|intros _]. keep. Qed.

Lemma copy_index_advances ns' from paths : keeps advances (copy_to_index ns' from paths).
Proof. intros l r l'. unfold copy_to_index. destruct (index_paths _ _ _). intros [= _ <-]. by apply advances_same. Qed.

(** A change of the registry that leaves the branches of each workspace. *)
Lemma same_branches_tip r ns' rec rec' : by_id r !! ns' = Some rec -> branches rec' = branches rec -> reg_tip (set_record r ns' rec') = reg_tip r.
Proof. intros Hr Hb. apply (reg_tip_set _ _ rec); [done|]. intros _. by rewrite Hb. Qed.

Lemma set_head_advances ns' name : keeps advances (m_refs (fun r => set_head r ns' name)).
Proof.
  apply keeps_refs. intros r r' (? & _ & (rec & Hr%record_found & E)%bind_Ok)%bind_Ok. destruct (_ && _); [done|]. injection E as <-. by apply (same_branches_tip _ _ rec).
Qed.
Lemma tag_create_advances ns' name d : keeps advances (m_refs (fun r => Registry.tag_create r ns' name d)).
Proof.
  apply keeps_refs. intros r r' (? & _ & (rec & Hr%record_found & E)%bind_Ok)%bind_Ok. case_bool_decide; [done|]. injection E as <-. by apply (same_branches_tip _ _ rec).
Qed.
Lemma tag_delete_advances ns' name : keeps advances (m_refs (fun r => Registry.tag_delete r ns' name)).
Proof.
  apply keeps_refs. intros r r' (? & _ & (rec & Hr%record_found & E)%bind_Ok)%bind_Ok. destruct (tags rec !! name); [|done]. injection E as <-. by apply (same_branches_tip _ _ rec).
Qed.
Lemma tag_rename_advances ns' old new : keeps advances (m_refs (fun r => Registry.tag_rename r ns' old new)).
Proof.
  apply keeps_refs. intros r r' (? & _ & (? & _ & (rec & Hr%record_found & E)%bind_Ok)%bind_Ok)%bind_Ok. destruct (tags rec !! old); [|done].
  case_bool_decide; [done|]. injection E as <-. by apply (same_branches_tip _ _ rec).
Qed.
Lemma evaluate_advances ns' ref old new : keeps advances (evaluate_protected_ref_update fuel ns' ref old new).
Proof. apply pure_advances, evaluate_pure. Qed.
Lemma resolve_rev_advances ns' rev : keeps advances (resolve_rev ns' rev).
Proof. apply pure_advances, resolve_rev_pure. Qed.
Lemma pick_patch_advances c : keeps advances (pick_patch fuel c).
Proof. apply pure_advances, pick_patch_pure. Qed.
Lemma revert_patch_advances author c : keeps advances (revert_patch fuel author c).
Proof. apply pure_advances, revert_patch_pure. Qed.
Lemma to_replay_advances n onto cur acc : keeps advances (commits_to_replay fuel n onto cur acc).
Proof. apply pure_advances, to_replay_pure. Qed.
#[local] Hint Resolve copy_index_advances set_head_advances tag_create_advances tag_delete_advances tag_rename_advances evaluate_advances
  resolve_rev_advances pick_patch_advances revert_patch_advances to_replay_advances merge_advances : advance.

(** The call sets or removes no policy of the branch. *)
Definition leaves_policy (op : VcsOp) : bool :=
  match op with
  | VSetPolicy n r _ | VRemovePolicy n r => negb (bool_decide ((n, r) = (ns, branch_ref b)))
  | _ => true
  end.

Lemma policy_advances f : (forall m : gmap (bytes * bytes) ProtectedRefPolicy, f m !! (ns, branch_ref b) = m !! (ns, branch_ref b)) ->
  keeps advances (m_modify (fun l : Loom => set_protected_refs l (f (protected_refs l)))).
Proof. intros Hf. apply keeps_modify. intros l. apply advances_same; [done|apply Hf|done]. Qed.

Lemma step_advances op : leaves_policy op = true -> keeps advances (vcs_step fuel op).
Proof.
  destruct op; cbn [vcs_step leaves_policy]; intros Hp; try apply keeps_void.
  { eapply keeps_weaken; [apply same_advances|apply file_step_same]. }
  all: unfold commit, commit_staged, stage, stage_all, unstage, status, checkout_branch, restore_file, restore_path, branch, EngineVcs.branch_delete,
    EngineVcs.tag_create, EngineVcs.tag_delete, EngineVcs.tag_rename, merge_resolve, merge_abort, merge_continue, cherry_pick, revert, rebase, squash, replay_rights, merge_conflicts, merge, merge_cell_level;
    unfold_reads; unfold_reads; cbv zeta.
  all: try solve [adv].
  all: apply negb_true_iff, bool_decide_eq_false in Hp; unfold set_protected_ref_policy, remove_protected_ref_policy; unfold_reads; apply keeps_bind; [exact _|keep|intros ?]; apply keeps_bind; [exact _|keep|intros ?].
  - apply policy_advances. intros m. by apply lookup_insert_ne.
  - apply keeps_bind; [exact _|keep|intros ?]. apply keeps_bind; [exact _|apply policy_advances; intros m; by apply lookup_delete_ne|intros _]. keep.
Qed.

Lemma run_advances calls l l' : forallb leaves_policy calls = true -> vcs_run fuel calls l = Some l' -> advances l l'.
Proof.
  revert l. induction calls as [|op calls IH]; intros l; cbn [forallb vcs_run]; [by intros _ [= <-]|]. intros [Hop Hops]%andb_true_iff.
  destruct (vcs_step fuel op l) as [[r l1]|] eqn:E; [|done]. intros H. etrans; [by eapply step_advances|by apply IH].
Qed.

(** C3: A fast-forward-only branch never loses history. While the policy of a branch with a tip is
    fast-forward-only and no call touches that policy, any sequence of file calls, commits, staging, checkouts,
    restores, branch and tag calls, merges, cherry-picks, reverts, rebases and squashes, by any caller
    (the unauthenticated and the administrator's alike), and whether each call succeeds or fails, leaves the branch
    with a tip, from which the tip it had is reached by parent links, and keeps the policy. *)
Theorem protected_branch_advances calls l l' t :
  guarded l -> forallb leaves_policy calls = true -> vcs_run fuel calls l = Some l' -> reg_tip (registry l) = Some t ->
  guarded l' /\ exists t', reg_tip (registry l') = Some t' /\ descends (store_of l') t' t.
Proof.
  intros Hg Hops Hrun Ht. destruct (run_advances _ _ _ Hops Hrun Hg) as [Hp _ H]. split; [|by apply H].
  unfold guarded in *. by rewrite Hp.
Qed.
End Protected.

End EngineRefs.
