(* ===== verification/EngineCommit.v ===== *)
(** * Version control on the engine: commits

    A commit of a working tree succeeds where its caller has the rights, moves the current branch to a commit
    with the old tip as its parent, and holds the working tree: a checkout at any later time restores it. *)

From S2P Require Import Prelude Codec Types Workspace Object ObjectProps Store Acl Prolly ProllyTree VcsTree VcsTreeProps VcsPath VcsShard VcsHistory VcsContent VcsEdit Registry Identity Effect Engine EngineFiles EngineFs EngineVcs EngineVcsProps.

Module EngineCommit.
Import Error Digest Object ObjectProps Store Acl VcsTree VcsTreeProps VcsPath VcsWrite VcsHistory VcsHistoryProps VcsContent VcsEdit Registry Identity Effect Engine EngineFiles EngineFs EngineVcs EngineVcsProps.

Section Snapshots.
Context `{hasher : Hasher} {S : Type} `{ops : !ObjectStore S} {U : bytes -> Prop} {ok : S -> Prop} `{laws : !StoreLaws S U ok}.
Context (fuel : nat).
Abbreviation Loom := (Loom (S := S)).
Implicit Types (l : Loom) (s : S) (H : gmap bytes (list bytes)).

(** ** Snapshots *)

(** The objects of a snapshot in a store with the digests of [a]. *)
Definition snapshot_writes (a : Algo) files dirs parents author ts message : list bytes :=
  match build_subtree (ops := log_store a) fuel [] files dirs [] with
  | Some (Ok (root, w)) => match canonical (OCommit (mkCommit root parents author ts message ∅)) with Ok b => w ++ [b] | Err _ => w end
  | _ => []
  end.

(** [d] is a commit of [s] over the tree, with these parents. *)
Record snapshotted s (d : Digest) (files : WorkTree) (dirs : gset bytes) (parents : list Digest) author ts message : Prop := {
  sn_commit : exists root, forall d', d' ≡ d -> get_commit s d' = Ok (mkCommit root (map retag parents) author ts message ∅);
  sn_tree d' : d' ≡ d -> flatten_commit fuel s d' = Some (Ok (retag_staged <$> files, closed_dirs files dirs));
}.

(** Texts and a time that the format can hold. *)
Record wf_meta (parents : list Digest) (author message : bytes) (ts : N) : Prop := {
  wm_parents : Forall wf_digest parents;
  wm_count : Codec.len parents <= u64_max;
  wm_author : wf_text author;
  wm_message : wf_text message;
  wm_time : ts <= u64_max;
}.

Lemma snapshot_spec l files dirs parents author ts message :
  ok (store_of l) -> committable files dirs -> (depth_of files dirs < fuel)%nat -> wf_meta parents author message ts ->
  Forall U (snapshot_writes (digest_algo (store_of l)) files dirs parents author ts message) ->
  exists d s', snapshot fuel files dirs parents author ts message l = Some (Ok d, set_store l s') /\ wf_digest d /\ ok s' /\
    ProllyTree.extends (store_of l) s' /\ forall s2, ProllyTree.extends s' s2 -> snapshotted s2 d files dirs parents author ts message.
Proof.
  intros Hok Hct Hf Hm. unfold snapshot_writes.
  destruct (build_subtree_spec (S := S) (digest_algo (store_of l)) files dirs Hct fuel []) with (l := @nil bytes) as (root & w & E & Hroot & Hfl);
    [by left|lia|by apply fits_root|]. rewrite E. cbn [app].
  set (o := OCommit (mkCommit root parents author ts message ∅)). destruct (canonical_ok o) as [b Hb]. rewrite Hb. intros [HU HUb]%Forall_app.
  destruct (carries_build_subtree (U := U) (ok := ok) _ _ _ _ _ _ _ _ E) as (w' & [= <-] & Hw). destruct (Hw (store_of l) Hok eq_refl HU) as (s1 & E1 & Hok1 & He1 & Hst1).
  destruct (carries_put_object (U := U) (ok := ok) (digest_algo (store_of l)) o [] (hash (digest_algo (store_of l)) b) [b]) as (w2 & [= <-] & Hw2);
    [unfold put_object; by rewrite Hb|]. destruct (Hw2 s1 Hok1 (proj1 He1) HUb) as (s2 & E2 & Hok2 & He2 & Hst2). injection E2 as E2.
  exists (hash (digest_algo (store_of l)) b), s2. split_and!; [|apply hash_wf|done|by etrans|].
  - unfold snapshot, m_bind, m_put. fold (store_of l). rewrite E1. cbn [set_store set_contents contents c_store]. subst o. by rewrite E2.
  - intros s3 He3. assert (Ha : digest_algo s3 = digest_algo (store_of l)) by (rewrite (proj1 He3), (proj1 He2); by apply He1).
    assert (Hc : forall d', d' ≡ hash (digest_algo (store_of l)) b -> get_commit s3 d' = Ok (mkCommit (retag root) (map retag parents) author ts message ∅)).
    { intros d' Hd. eapply (stores_mono _ _ _ He3) in Hst2. apply Forall_cons in Hst2 as [[Hget Hlen] _]. rewrite Ha in Hget.
      unfold get_commit, get_object. rewrite (Hget d' Hd). cbn [mbind result_bind ok_or]. rewrite (decode_canonical_object o b); [done| |done|done].
      destruct Hm. cbn. split_and!; try done. }
    split; [by exists (retag root)|]. intros d' Hd. unfold flatten_commit. rewrite (Hc d' Hd). cbn [run_bind c_tree].
    rewrite (Hfl s3 (retag root) fuel (∅, ∅)); [|done| |done|lia].
    + cbn [fst snd]. by rewrite files_under_root, dirs_under_root, !(right_id_L ∅ (∪)).
    + eapply stores_mono; [|exact Hst1]. by etrans.
Qed.

(** ** The history with one more commit *)

Lemma pending_insert H (b : bytes) (ps : list bytes) : H !! b = None -> pending (<[b := ps]> H) ∅ = (length ps + pending H ∅)%nat.
Proof.
  intros Hb. unfold pending. rewrite (sum_list_perm _ _ (Permutation_map _ (map_to_list_insert _ _ ps Hb))). cbn [map sum_list fst snd].
  unfold links at 1. cbn [fst snd]. by rewrite decide_False by set_solver.
Qed.

Lemma history_mono s s' H : ProllyTree.extends s s' -> history s H -> history s' H.
Proof.
  intros He Hh b ps Hb. destruct (Hh b ps Hb) as [(c & Hc & Hp) Hk]. split; [|done]. exists c. split; [|done].
  intros d Hd. specialize (Hc d Hd). unfold get_commit in *. apply bind_Ok in Hc as (o & Ho & Hc). by rewrite (get_object_mono _ _ _ _ He Ho).
Qed.

Lemma history_insert s H (d : Digest) c :
  history s H -> (forall d', d' ≡ d -> get_commit s d' = Ok c) -> Forall (fun p => is_Some (H !! p)) (map dbytes (c_parents c)) ->
  history s (<[dbytes d := map dbytes (c_parents c)]> H) /\ (walk_cost (<[dbytes d := map dbytes (c_parents c)]> H) <= length (c_parents c) + walk_cost H)%nat.
Proof.
  intros Hh Hc Hk. destruct (H !! dbytes d) as [ps|] eqn:E.
  - destruct (Hh _ _ E) as [(c' & Hc' & <-) _]. pose proof (Hc' d eq_refl) as Hd. rewrite (Hc d eq_refl) in Hd. injection Hd as ->. rewrite insert_id by done. split; [done|lia].
  - split; [|unfold walk_cost; rewrite pending_insert, length_map by done; lia]. apply map_Forall_insert_2.
    + split; [by exists c|]. eapply Forall_impl; [exact Hk|]. intros p [ps Hp]. destruct (decide (p = dbytes d)) as [->|]; [by rewrite lookup_insert_eq|by rewrite lookup_insert_ne].
    + intros b ps Hb. destruct (Hh b ps Hb) as [? Hk']. split; [done|]. eapply Forall_impl; [exact Hk'|]. intros p Hp.
      destruct (decide (p = dbytes d)) as [->|]; [by rewrite lookup_insert_eq|by rewrite lookup_insert_ne].
Qed.

(** A parent of a new commit is an ancestor of it. *)
Lemma parent_is_ancestor s H (d p : Digest) c :
  history s H -> (forall d', d' ≡ d -> get_commit s d' = Ok c) -> Forall (fun x => is_Some (H !! x)) (map dbytes (c_parents c)) ->
  dbytes p ∈ map dbytes (c_parents c) -> (length (c_parents c) + walk_cost H <= fuel)%nat -> is_ancestor fuel s p d = Some (Ok true).
Proof.
  intros Hh Hc Hk Hp Hf. destruct (history_insert s H d c Hh Hc Hk) as [Hh' Hcost]. unfold is_ancestor.
  destruct (ancestors_spec s _ fuel d Hh') as (X & EX & HX); [by rewrite lookup_insert_eq|lia|]. rewrite EX. cbn [run_bind]. rewrite bool_decide_eq_true_2; [done|].
  apply HX. apply rtc_once. exists (map dbytes (c_parents c)). by rewrite lookup_insert_eq.
Qed.
End Snapshots.

Section Commits.
Context `{hasher : Hasher} {S : Type} `{ops : !ObjectStore S} {U : bytes -> Prop} {ok : S -> Prop} `{laws : !StoreLaws S U ok}.
Context `{crypto : Crypto} `{fm : !FacetMergers S} (fuel : nat) (ns : bytes).
Abbreviation Loom := (Loom (S := S)).
Implicit Types (l : Loom) (s : S) (H : gmap bytes (list bytes)) (hb : bytes) (r : Registry).

(** ** Moving a branch forward *)

(** The policy of the ref asks for no signature and no review. *)
Definition mild l (ref : bytes) : Prop := forall p, protected_refs l !! (ns, ref) = Some p ->
  signed_commits_required p = false /\ signed_ref_advance_required p = false /\ required_review_count p = 0.

Lemma authorize_runs l ref old d :
  mild l ref -> (forall o, old = Some o -> is_ancestor fuel (store_of l) o d = Some (Ok true)) ->
  authorize_branch_update fuel ns ref old d l = Some (Ok (), l).
Proof.
  intros Hm Ha. unfold authorize_branch_update. rewrite (m_bind_run _ _ l l ()).
  - destruct old as [o|]; [|done]. by rewrite (run_look _ _ _ _ (Ha o eq_refl)).
  - unfold evaluate_protected_ref_update. rewrite run_gets.
    destruct (protected_refs l !! (ns, ref)) as [p|] eqn:Ep; [|done]. destruct (Hm p Ep) as (H1 & H2 & H3).
    rewrite (m_bind_run _ _ l l ()) by done. rewrite (m_bind_run _ _ l l ()); [by rewrite H1, H2, H3|].
    destruct old as [o|]; [|done]. destruct (_ && _); [|done]. by rewrite (run_look _ _ _ _ (Ha o eq_refl)).
Qed.

(** The head and the branch of the registry. *)
Definition at_tip r hb (tip : option Digest) : Prop := head_branch r ns = Ok hb /\ branch_tip r ns hb = Ok tip.

Lemma tip_set r hb rec d :
  by_id r !! ns = Some rec -> head_of rec = hb -> validate_ref_name hb = Ok () ->
  at_tip (set_record r ns (set_branches rec (<[hb := d]> (branches rec)))) hb (Some d).
Proof.
  intros Hr <- Hv. unfold at_tip, head_branch, branch_tip, record. cbn [set_record by_id]. rewrite lookup_insert_eq, Hv. cbn. by rewrite lookup_insert_eq.
Qed.

Lemma at_tip_Ok r hb tip : at_tip r hb tip -> exists rec, by_id r !! ns = Some rec /\ head_of rec = hb /\ validate_ref_name hb = Ok () /\ branches rec !! hb = tip.
Proof.
  intros [(rec & Hr & [= Hh])%bind_Ok ([] & Hv & (rec' & Hr' & [= Ht])%bind_Ok)%bind_Ok]. rewrite Hr in Hr'. injection Hr' as <-.
  unfold record in Hr. destruct (by_id r !! ns) as [rec'|]; [|done]. injection Hr as ->. by exists rec.
Qed.

(** The registry where the branch has moved and nothing else: every other branch, the tags, the head and the
    name of the workspace and all other workspaces are as before. *)
Record only_branch r hb (d : Digest) r' : Prop := {
  ob_names : by_name r' = by_name r;
  ob_others id : id <> ns -> by_id r' !! id = by_id r !! id;
  ob_record : exists rec rec', by_id r !! ns = Some rec /\ by_id r' !! ns = Some rec' /\
    ws_name rec' = ws_name rec /\ facets_of rec' = facets_of rec /\ tags rec' = tags rec /\ head_of rec' = head_of rec /\
    branches rec' !! hb = Some d /\ forall b, b <> hb -> branches rec' !! b = branches rec !! b;
}.

Lemma branch_set r hb rec d : by_id r !! ns = Some rec -> only_branch r hb d (set_record r ns (set_branches rec (<[hb := d]> (branches rec)))).
Proof.
  intros Hr. split; [done|intros id Hid; by apply lookup_insert_ne|]. exists rec. eexists. split; [done|]. split; [apply lookup_insert_eq|].
  split_and!; try done; [apply lookup_insert_eq|]. intros b Hb. by apply lookup_insert_ne.
Qed.

Lemma update_runs r hb tip d :
  at_tip r hb tip -> exists r', update_branch r ns hb tip d = Ok r' /\ at_tip r' hb (Some d) /\ only_branch r hb d r'.
Proof.
  intros (rec & Hr & Hh & Hv & Ht)%at_tip_Ok. eexists. split; [|split; [by eapply tip_set|by apply branch_set]]. unfold update_branch, record. rewrite Hv, Hr. cbn.
  unfold same_tip. by rewrite Ht, bool_decide_eq_true_2.
Qed.

Lemma create_runs r hb d :
  at_tip r hb None -> exists r', Registry.branch_create r ns hb d = Ok r' /\ at_tip r' hb (Some d) /\ only_branch r hb d r'.
Proof.
  intros (rec & Hr & Hh & Hv & Ht)%at_tip_Ok. eexists. split; [|split; [by eapply tip_set|by apply branch_set]]. unfold Registry.branch_create, record. rewrite Hv, Hr. cbn.
  rewrite Ht, bool_decide_eq_false_2; [done|]. by intros [? ?].
Qed.

(** ** Committing *)

(** A caller who may write to and advance the current branch [hb], whose commits are the history [H]; the
    tree, the texts and the walks fit. *)
Record ready l hb (tip : option Digest) H (files : WorkTree) (author message : bytes) (ts : N) : Prop := {
  rd_tip : at_tip (registry l) hb tip;
  rd_write : authorize_ref (access l) ns (branch_ref hb) Write = Ok ();
  rd_advance : authorize_ref (access l) ns (branch_ref hb) Advance = Ok ();
  rd_policy : mild l (branch_ref hb);
  rd_ok : ok (store_of l);
  rd_history : history (store_of l) H;
  rd_known t : tip = Some t -> is_Some (H !! dbytes t);
  rd_tree : committable files (dirs_of l ns);
  rd_meta : wf_meta (option_list tip) author message ts;
  rd_depth : (depth_of files (dirs_of l ns) < fuel)%nat;
  rd_walk : (walk_cost H < fuel)%nat;
  rd_stored : Forall U (snapshot_writes fuel (digest_algo (store_of l)) files (dirs_of l ns) (option_list tip) author ts message);
}.

Lemma commit_files_spec l hb (tip : option Digest) H (select : Loom -> WorkTree) (author message : bytes) (ts : N) :
  ready l hb tip H (select l) author message ts ->
  exists d s' r', commit_files fuel ns select author message ts l = Some (Ok (select l, d), set_registry (set_store l s') r') /\
    (at_tip r' hb (Some d) /\ only_branch (registry l) hb d r') /\ wf_digest d /\ ok s' /\ ProllyTree.extends (store_of l) s' /\
    forall s2, ProllyTree.extends s' s2 -> snapshotted fuel s2 d (select l) (dirs_of l ns) (option_list tip) author ts message.
Proof.
  intros []. destruct (snapshot_spec fuel l (select l) (dirs_of l ns) (option_list tip) author ts message) as (d & s' & Es & Hd & Hok & He & Hsn); [done..|].
  unfold commit_files. rewrite (run_reg _ hb), run_auth, run_auth, (run_reg _ tip), !run_gets, (run_lift _ ()), (m_bind_run _ _ l _ d) by (done || apply rd_tip0 || apply rd_tree0).
  rewrite (m_bind_run _ _ _ (set_store l s') ()).
  - assert (exists r', match tip with None => Registry.branch_create (registry l) ns hb d | Some prev => update_branch (registry l) ns hb (Some prev) d end = Ok r' /\ at_tip r' hb (Some d) /\ only_branch (registry l) hb d r')
      as (r' & Er & Ht') by (destruct tip; [by apply update_runs|by apply create_runs]).
    exists d, s', r'. split; [|done]. by rewrite (run_refs _ r') by exact Er.
  - apply authorize_runs; [done|]. intros o ->. cbn [option_list] in *. change (store_of (set_store l s')) with s'. destruct (sn_commit _ _ _ _ _ _ _ _ _ (Hsn s' (reflexivity s'))) as [root Hc].
    eapply (parent_is_ancestor fuel s' H d o); [by eapply history_mono|exact Hc| |by left|cbn; lia]. cbn. apply Forall_singleton. by apply rd_known0.
Qed.

Lemma checkout_snapshot l (d : Digest) files ds parents author ts message :
  snapshotted fuel (store_of l) d files ds parents author ts message -> authorize (access l) ns FacetKind.Vcs Read = Ok () ->
  checkout_commit fuel ns d l = Some (Ok (), set_tree (put_index l ns (retag_staged <$> files)) ns (retag_staged <$> files) (closed_dirs files ds)).
Proof.
  intros Hs Ha. unfold checkout_commit. by rewrite run_auth, (run_look _ _ _ _ (sn_tree _ _ _ _ _ _ _ _ _ Hs d (reflexivity d))).
Qed.

(** The workspace holds exactly the tree, staged. *)
Definition holds_tree l (files : WorkTree) (ds : gset bytes) : Prop := work_of l ns = files /\ index_of l ns = files /\ dirs_of l ns = ds.

Lemma holds_set_tree l files ds : holds_tree (set_tree (put_index l ns files) ns files ds) files ds.
Proof. unfold holds_tree, work_of, index_of, dirs_of. cbn. by rewrite !lookup_insert_eq. Qed.

(** What a commit leaves alone, besides the refs: the working trees and directories, the index of every other
    workspace, merges, open files, policies and access control; the store only gains objects. *)
Record only_commits l l' : Prop := {
  oc_work : work l' = work l;
  oc_dirs : dirs l' = dirs l;
  oc_index ns' : ns' <> ns -> index l' !! ns' = index l !! ns';
  oc_merges : merge_state l' = merge_state l;
  oc_opens : opens l' = opens l;
  oc_policies : protected_refs l' = protected_refs l;
  oc_access : access l' = access l;
  oc_contents : content (contents l') = content (contents l);
  oc_store : ProllyTree.extends (store_of l) (store_of l');
}.

(** C6: A commit saves the working tree for good. For a caller who may write and advance the current branch, a
    commit succeeds: that branch moves to a new commit whose only parent is the old tip and which carries the
    author, time and message, and the index of the workspace becomes its working tree. No other branch, no tag, no head, no other
    workspace and no other state of the engine changes. At any later time, in any engine whose store still holds the objects,
    checking the commit out restores the files, tables and other slots of the working tree, with their
    addresses and modes, and its directories, the implied ones included. *)
Theorem commit_saves l hb (tip : option Digest) H (author message : bytes) (ts : N) :
  ready l hb tip H (work_of l ns) author message ts ->
  exists d l', commit fuel ns author message ts l = Some (Ok d, l') /\
    at_tip (registry l') hb (Some d) /\ only_branch (registry l) hb d (registry l') /\ index_of l' ns = work_of l ns /\ only_commits l l' /\
    (exists root, get_commit (store_of l') d = Ok (mkCommit root (map retag (option_list tip)) author ts message ∅)) /\
    forall l2, ProllyTree.extends (store_of l') (store_of l2) -> authorize (access l2) ns FacetKind.Vcs Read = Ok () ->
    exists l3, checkout_commit fuel ns d l2 = Some (Ok (), l3) /\ holds_tree l3 (retag_staged <$> work_of l ns) (closed_dirs (work_of l ns) (dirs_of l ns)).
Proof.
  intros Hr. destruct (commit_files_spec l hb tip H (fun l => work_of l ns) author message ts Hr) as (d & s' & r' & E & [Ht Hb] & _ & _ & He & Hs).
  eexists d, _. unfold commit. rewrite (m_bind_run _ _ _ _ _ E). split; [done|]. split; [done|]. split; [done|]. split; [unfold index_of; cbn; by rewrite lookup_insert_eq|].
  split; [split; try done; intros ns' Hns; by apply lookup_insert_ne|]. split.
  - destruct (sn_commit _ _ _ _ _ _ _ _ _ (Hs s' (reflexivity s'))) as [root Hc]. exists root. by apply Hc.
  - intros l2 He2 Ha. eexists. split; [|apply holds_set_tree]. eapply checkout_snapshot; [|done]. by apply Hs.
Qed.

(** ** Clean status *)

Lemma no_changes (x y : WorkTree) : (forall p, same_slot (x !! p) (y !! p)) -> worktree_changes x y = [].
Proof.
  intros Hxy. unfold worktree_changes. induction (both_paths x y) as [|p ps IH]; [done|]. cbn [omap list_omap]. rewrite IH. specialize (Hxy p).
  unfold change_at. apply slot_eqb_spec in Hxy. destruct (x !! p), (y !! p); [by rewrite Hxy|by vm_compute in Hxy..|done].
Qed.

Lemma same_retag (x : WorkTree) p : same_slot ((retag_staged <$> x) !! p) (x !! p).
Proof. rewrite lookup_fmap. destruct (x !! p) as [e|]; [|done]. unfold same_slot. cbn. f_equal. by destruct e. Qed.

(** A fresh commit leaves nothing to commit: right after a successful commit, the status of the workspace
    has no staged, unstaged or untracked path; only the conflicts of a merge in progress, if any, are reported. *)
Theorem commit_clean l hb (tip : option Digest) H (author message : bytes) (ts : N) (d : Digest) l' :
  ready l hb tip H (work_of l ns) author message ts -> authorize (access l) ns FacetKind.Vcs Read = Ok () ->
  commit fuel ns author message ts l = Some (Ok d, l') ->
  exists conflicts, status fuel ns l' = Some (Ok (mkStatus [] [] [] conflicts), l') /\ (merge_state l !! ns = None -> conflicts = []).
Proof.
  intros Hr Ha. destruct (commit_files_spec l hb tip H (fun l => work_of l ns) author message ts Hr) as (d' & s' & r' & E & [[Hh Ht] _] & _ & _ & _ & Hs).
  unfold commit. rewrite (m_bind_run _ _ _ _ _ E). intros [= <- <-]. set (l' := set_index _ _). assert (Hi : index_of l' ns = work_of l ns) by (unfold index_of; cbn; by rewrite lookup_insert_eq). assert (Ha' : authorize (access l') ns FacetKind.Vcs Read = Ok ()) by exact Ha.
  exists (match merge_state l !! ns with Some m => map mc_path (merge_conflicts_of m) | None => [] end). split; [|by intros ->].
  unfold status. rewrite run_auth by done. rewrite (m_bind_run _ _ l' l' (retag_staged <$> work_of l ns)).
  - rewrite !run_gets, Hi. change (work_of l' ns) with (work_of l ns).
    rewrite (m_bind_run _ _ l' l' (match merge_state l !! ns with Some m => map mc_path (merge_conflicts_of m) | None => [] end)).
    + cbv zeta. rewrite (no_changes (work_of l ns) (work_of l ns)) by done. by rewrite (no_changes (retag_staged <$> work_of l ns) (work_of l ns)) by apply same_retag.
    + unfold merge_conflicts. by rewrite run_auth.
  - unfold head_tree. rewrite (m_bind_run _ _ l' l' (hb, Some d')).
    + by rewrite (run_look _ _ _ l' (sn_tree _ _ _ _ _ _ _ _ _ (Hs s' (reflexivity s')) d' (reflexivity d'))).
    + unfold head_tip. by rewrite (run_reg _ hb), (run_reg _ (Some d')).
Qed.
End Commits.

End EngineCommit.

(** * Version control on the engine: merges without conflicts

    A merge of two diverged branches that changed no path differently succeeds, commits the combination of both
    sides over both tips and checks it out. *)

Module EngineMerge.
Import Error Digest Object ObjectProps Store Acl VcsTree VcsTreeProps VcsPath VcsWrite VcsHistory VcsHistoryProps VcsContent VcsEdit Registry Identity Effect Engine EngineFiles EngineFs EngineVcs EngineVcsProps EngineCommit.

(** The slot [m] combines the sides: the side that changed, and either where they agree. *)
Record combines (b o t m : option StagedEntry) : Prop := {
  cb_theirs : same_slot b o -> same_slot m t;
  cb_ours : same_slot b t -> same_slot m o;
  cb_agree : same_slot o t -> same_slot m o;
}.

Lemma three_way_combines base ours theirs p :
  combines (base !! p) (ours !! p) (theirs !! p) ((retag_staged <$> (three_way_merge_files base ours theirs).1) !! p).
Proof.
  assert (Hr : forall x : option StagedEntry, same_slot (retag_staged <$> x) x) by (intros [[]|]; done). rewrite lookup_fmap, merged_slot. unfold takes_theirs.
  destruct (slot_eqb (ours !! p) (theirs !! p)) eqn:E1; cbn [negb andb]; [apply slot_eqb_spec in E1|apply slot_eqb_false in E1].
  - split; intros; unfold same_slot in *; by rewrite ?Hr, ?E1.
  - destruct (slot_eqb (base !! p) (ours !! p)) eqn:E2; [apply slot_eqb_spec in E2|apply slot_eqb_false in E2]; split; intros; try done; unfold same_slot in *; rewrite ?Hr; congruence.
Qed.

Section Merge.
Context `{hasher : Hasher} {S : Type} `{ops : !ObjectStore S} {U : bytes -> Prop} {ok : S -> Prop} `{laws : !StoreLaws S U ok}.
Context `{crypto : Crypto} `{fm : !FacetMergers S} (fuel : nat) (ns : bytes).
Abbreviation Loom := (Loom (S := S)).
Implicit Types (l : Loom) (s : S) (H : gmap bytes (list bytes)) (hb from : bytes) (ours theirs : Digest).

Lemma is_ancestor_spec s H (a b : Digest) :
  history s H -> is_Some (H !! dbytes b) -> (walk_cost H <= fuel)%nat ->
  exists x, is_ancestor fuel s a b = Some (Ok x) /\ (x = true <-> ancestor H (dbytes a) (dbytes b)).
Proof.
  intros Hh Hb Hf. destruct (ancestors_spec s H fuel b Hh Hb Hf) as (X & E & HX). unfold is_ancestor. rewrite E. cbn [run_bind]. eexists. split; [done|].
  rewrite bool_decide_eq_true. apply HX.
Qed.

(** The trees of a merge without conflicts. *)
Record clean_merge s ours theirs (base our_files their_files : WorkTree) (our_dirs their_dirs : gset bytes) : Prop := {
  cl_base : exists bases bd, merge_base_set fuel s ours theirs = Some (Ok bases) /\ reduce_bases fuel s bases = Some (Ok (base, bd));
  cl_ours : flatten_commit fuel s ours = Some (Ok (our_files, our_dirs));
  cl_theirs : flatten_commit fuel s theirs = Some (Ok (their_files, their_dirs));
  cl_clean : (three_way_merge_files base our_files their_files).2 = [];
}.

Definition merged_files (base our_files their_files : WorkTree) : WorkTree := (three_way_merge_files base our_files their_files).1.

(** A caller who may merge [from] into the current branch [hb], which contains neither the other. *)
Record may_merge l hb from ours theirs H : Prop := {
  mm_idle : merge_state l !! ns = None;
  mm_tip : at_tip ns (registry l) hb (Some ours);
  mm_from : branch_tip (registry l) ns from = Ok (Some theirs);
  mm_merge : authorize_ref (access l) ns (branch_ref hb) Merge = Ok ();
  mm_read_from : authorize_ref (access l) ns (branch_ref from) Read = Ok ();
  mm_read : authorize (access l) ns FacetKind.Vcs Read = Ok ();
  mm_policy : mild ns l (branch_ref hb);
  mm_ok : ok (store_of l);
  mm_history : history (store_of l) H;
  mm_ours : is_Some (H !! dbytes ours);
  mm_theirs : is_Some (H !! dbytes theirs);
  mm_apart : ~ ancestor H (dbytes theirs) (dbytes ours) /\ ~ ancestor H (dbytes ours) (dbytes theirs);
  mm_fuel : (2 + walk_cost H <= fuel)%nat;
}.

(** The merge commit over the working tree. *)
Lemma merge_commit_spec l hb ours theirs H author message ts :
  at_tip ns (registry l) hb (Some ours) -> authorize (access l) ns FacetKind.Vcs Read = Ok () -> mild ns l (branch_ref hb) -> ok (store_of l) ->
  history (store_of l) H -> is_Some (H !! dbytes ours) -> is_Some (H !! dbytes theirs) -> (2 + walk_cost H <= fuel)%nat ->
  committable (work_of l ns) (dirs_of l ns) -> (depth_of (work_of l ns) (dirs_of l ns) < fuel)%nat -> wf_meta [ours; theirs] author message ts ->
  Forall U (snapshot_writes fuel (digest_algo (store_of l)) (work_of l ns) (dirs_of l ns) [ours; theirs] author ts message) ->
  exists d l', merge_commit fuel ns hb ours theirs author message ts l = Some (Ok d, l') /\ at_tip ns (registry l') hb (Some d) /\
    holds_tree ns l' (retag_staged <$> work_of l ns) (closed_dirs (work_of l ns) (dirs_of l ns)) /\ merge_state l' = merge_state l /\
    (exists root, get_commit (store_of l') d = Ok (mkCommit root [retag ours; retag theirs] author ts message ∅)).
Proof.
  intros Ht Ha Hp Hok Hh Ho Hth Hf Hct Hd Hm HU.
  destruct (snapshot_spec fuel l (work_of l ns) (dirs_of l ns) [ours; theirs] author ts message) as (d & s' & Es & _ & Hok' & He & Hsn); [done..|].
  destruct (update_runs ns (registry l) hb (Some ours) d Ht) as (r' & Er & Ht' & _). destruct (sn_commit _ _ _ _ _ _ _ _ _ (Hsn s' (reflexivity s'))) as [root Hc].
  exists d. eexists. unfold merge_commit. rewrite !run_gets, (run_lift _ ()), (m_bind_run _ _ l _ d) by (done || apply Hct).
  rewrite (m_bind_run _ _ _ (set_store l s') ()).
  - rewrite (run_refs _ r') by exact Er.
    erewrite m_bind_run; [|eapply checkout_snapshot; [exact (Hsn s' (reflexivity s'))|exact Ha]]. split; [done|]. split; [done|]. split; [apply holds_set_tree|]. split; [done|]. exists root. by apply Hc.
  - apply authorize_runs; [done|]. intros o [= <-]. change (store_of (set_store l s')) with s'. eapply (parent_is_ancestor fuel s' H d ours); [by eapply history_mono|exact Hc| |by left|cbn; lia].
    cbn. by repeat constructor.
Qed.

(** C9: Merging combines both sides. When neither the current branch nor the other contains the other's tip and no
    path was changed differently by both since their merge base, a merge by a caller with the rights succeeds:
    the branch moves to a new commit whose parents are both tips, and the workspace holds the committed tree, clean,
    in which every path has the slot of the side that changed it (deletions included), or the slot the sides agree on;
    the directories are those of both sides. *)
Theorem merge_combines l hb from ours theirs H base our_files their_files our_dirs their_dirs author ts cell :
  may_merge l hb from ours theirs H -> clean_merge (store_of l) ours theirs base our_files their_files our_dirs their_dirs ->
  let files := merged_files base our_files their_files in
  let ds := our_dirs ∪ their_dirs in
  committable files ds -> (depth_of files ds < fuel)%nat -> wf_meta [ours; theirs] author (merge_text from) ts ->
  Forall U (snapshot_writes fuel (digest_algo (store_of l)) files ds [ours; theirs] author ts (merge_text from)) ->
  exists d l' tree, merge_inner fuel ns from author ts cell l = Some (Ok (Merged d), l') /\ at_tip ns (registry l') hb (Some d) /\
    (exists root, get_commit (store_of l') d = Ok (mkCommit root [retag ours; retag theirs] author ts (merge_text from) ∅)) /\
    holds_tree ns l' tree (closed_dirs files ds) /\ merge_state l' = merge_state l /\
    forall p, combines (base !! p) (our_files !! p) (their_files !! p) (tree !! p).
Proof.
  intros [] [(bases & bd & Eb & Er) Eo Et Ec] files ds Hct Hd Hm HU.
  destruct (is_ancestor_spec (store_of l) H theirs ours) as (x & Ex & Hx); [done..|lia|]. destruct (is_ancestor_spec (store_of l) H ours theirs) as (y & Ey & Hy); [done..|lia|].
  destruct mm_apart0 as [Hn1 Hn2]. assert (x = false) as -> by (destruct x; naive_solver). assert (y = false) as -> by (destruct y; naive_solver).
  destruct (merge_commit_spec (set_tree l ns files ds) hb ours theirs H author (merge_text from) ts) as (d & l' & Em & Ht & Hh & Hms & Hc);
    try done; [unfold work_of, dirs_of; cbn; by rewrite !lookup_insert_eq..|].
  assert (Hw : work_of (set_tree l ns files ds) ns = files /\ dirs_of (set_tree l ns files ds) ns = ds) by (unfold work_of, dirs_of; cbn; by rewrite !lookup_insert_eq).
  destruct Hw as [Hw Hds]. rewrite Hw, Hds in Hh. exists d, l', (retag_staged <$> files). split_and!; [|done..|intros p; apply three_way_combines].
  unfold merge_inner. rewrite run_gets, mm_idle0, (m_bind_run _ _ l l ()), (run_reg _ hb), run_auth, run_auth, (run_found _ ours), (run_found _ theirs) by (done || apply mm_tip0).
  rewrite bool_decide_eq_false_2 by (intros E; apply Hn1; rewrite E; apply rtc_refl). rewrite (run_look _ _ _ _ Ex), (run_look _ _ _ _ Ey).
  unfold merge_tips. rewrite (run_look _ _ _ _ Eb), (run_look _ _ _ _ Er), (run_look _ _ _ _ Eo), (run_look _ _ _ _ Et). cbv zeta.
  rewrite (m_bind_run _ _ l l (files, [])) by (unfold resolve_three_way, files, merged_files; destruct (three_way_merge_files _ _ _) as [m cs]; cbn in Ec; by subst cs).
  rewrite bool_decide_eq_true_2 by done. cbn [negb]. rewrite (m_bind_run _ _ l (set_tree l ns files ds) ()) by done. by rewrite (m_bind_run _ _ _ _ _ Em).
Qed.
End Merge.

End EngineMerge.
