(* ===== verification/EngineDemo.v ===== *)
(** * An engine on the memory store

    Concrete engines on which the theorems of the version-control operations apply: a workspace with two
    branches that changed the same file, and one whose main branch is fast-forward-only. *)

From S2P Require Import Prelude Codec Types Workspace Object ObjectProps Store Acl ProllyTree VcsTree VcsTreeProps VcsPath VcsHistory VcsContent Registry Identity IdentityProps Effect Engine EngineFiles EngineFs EngineVcs EngineVcsProps Posix EnginePosix FileRefine FileClaims EngineRefs EngineCommit.

Module EngineDemo.
Import Error Digest Object ObjectProps Store Acl VcsTree VcsTreeProps VcsPath VcsHistory VcsHistoryProps VcsContent Registry Identity IdentityProps Effect Engine EngineFiles EngineFs EngineVcs EngineVcsProps FileClaims EngineFrames EngineRefs EngineCommit EngineMerge.

#[local] Existing Instance toy_hasher.
#[local] Existing Instance toy_crypto.
Abbreviation Loom := (Loom (S := MemoryStore)).

#[local] Instance no_objects : StoreLaws MemoryStore (fun b => b ∈ []) (fun s => addressed s /\ within (fun b => b ∈ []) s).
Proof. apply finite_universe; vm_compute; reflexivity. Qed.

(** No collection merges by its contents. *)
#[local] Instance files_only : FacetMergers MemoryStore := {|
  try_row_merge_table _ _ _ _ := m_ret None;
  try_merge_document_roots _ _ _ _ := m_ret None;
  try_vector_entry_merge _ _ _ _ _ := m_ret None;
  try_search_collection_merge _ _ _ _ _ _ := m_ret None;
|}.
#[local] Instance files_only_laws : FacetLaws MemoryStore.
Proof. split; intros; cbn; keep. Qed.

Definition ns : bytes := demo_ns.

Definition base_engine : Loom :=
  match create_workspace registry_new (Some (str "w")) ns with Ok r => set_registry (loom_new memory_new) r | Err _ => loom_new memory_new end.

Definition ran (calls : list VcsOp) (l : Loom) : Loom := default l (vcs_run 20 calls l).

Definition put (path b : bytes) : VcsOp := VFile (WriteFile ns path b 33188).
Definition save (n : N) : VcsOp := VCommit ns (str "ann") (str "change") n.

(** The branches [main] and [side] changed the file [a]; [main] is current. *)
Definition diverged : Loom := ran
  [put (str "a") (str "1"); save 1; VBranch ns (str "side"); put (str "a") (str "2"); save 2;
   VCheckoutBranch ns (str "side"); put (str "a") (str "3"); save 3; VCheckoutBranch ns (str "main")] base_engine.

Definition main_tip (l : Loom) : Digest := default (mkDigest Blake3 []) (reg_tip ns (str "main") (registry l)).
Definition side_tip (l : Loom) : Digest := default (mkDigest Blake3 []) (reg_tip ns (str "side") (registry l)).

(** The result of a call. *)
Definition outcome {A} (m : M Loom A) (l : Loom) : option (res A) := fst <$> m l.
Definition after {A} (m : M Loom A) (l : Loom) : Loom := default l (snd <$> m l).

Lemma outcome_run {A} (m : M Loom A) l r : outcome m l = Some r -> m l = Some (r, after m l).
Proof. unfold outcome, after. by destruct (m l) as [[r' l']|]; [intros [= ->]|]. Qed.

(** ** Witnesses *)

Definition pick_side : M Loom ReplayOutcome := cherry_pick 20 ns [side_tip diverged] 4 false.

Lemma pick_conflicts : outcome pick_side diverged = Some (Ok (ReplayConflicts [str "a"])).
Proof. vm_cast_no_check (@eq_refl (option (res ReplayOutcome)) (Some (Ok (ReplayConflicts [str "a"])))). Qed.

Lemma replay_atomic_witness : outcome pick_side diverged = Some (Ok (ReplayConflicts [str "a"])) /\ grows diverged (after pick_side diverged).
Proof.
  split; [exact pick_conflicts|]. apply (replay_atomic 20 ns pick_side false diverged (Ok (ReplayConflicts [str "a"])) _ (replays_pick _ _ _ _ _)).
  - apply outcome_run, pick_conflicts.
  - right. exists (ReplayConflicts [str "a"]). split; [reflexivity|]. intros d Hd. discriminate Hd.
Defined.

Definition merge_side : M Loom MergeOutcome := merge_inner 20 ns (str "side") (str "ann") 4 false.
Definition keep_theirs : M Loom () := merge_resolve ns (str "a") Theirs.
Definition resolved : Loom := after keep_theirs (after merge_side diverged).

Lemma merge_stops : outcome merge_side diverged = Some (Ok (Conflicts [str "a"])).
Proof. vm_cast_no_check (@eq_refl (option (res MergeOutcome)) (Some (Ok (Conflicts [str "a"])))). Qed.
Lemma resolve_runs : outcome keep_theirs (after merge_side diverged) = Some (Ok ()).
Proof. vm_cast_no_check (@eq_refl (option (res ())) (Some (Ok ()))). Qed.

Lemma merge_abort_restores_witness : exists l, merge_abort ns resolved = Some (Ok (), l) /\ restored diverged l.
Proof.
  apply (merge_abort_restores 20 ns (str "side") (str "ann") 4 false diverged [str "a"] (after merge_side diverged) resolved).
  - apply outcome_run, merge_stops.
  - apply rtc_once. exists (str "a"), Theirs, (Ok ()). exact (outcome_run keep_theirs _ _ resolve_runs).
  - vm_cast_no_check (@eq_refl (res ()) (Ok ())).
Defined.

(** [main] may only be fast-forwarded. *)
Definition protected_engine : Loom := ran [VSetPolicy ns (str "branch/main") (mkProtectedRefPolicy true false false 0 false false)] diverged.

(** The branch is squashed, rebased, deleted, merged into and committed to. *)
Definition attempts : list VcsOp :=
  [VRebase ns (str "side") 5 false; VSquash ns (str "side") (str "ann") (str "all") 6; VBranchDelete ns (str "main"); VMerge ns (str "side") (str "ann") 7 false;
   VMergeResolve ns (str "a") Ours; VMergeContinue ns (str "ann") 8; put (str "b") (str "1"); save 9].

Definition tip_of (l : Loom) : option Digest := reg_tip ns (str "main") (registry l).
Definition policy_of (l : Loom) : option ProtectedRefPolicy := protected_refs l !! (ns, branch_ref (str "main")).

Lemma protected_branch_advances_witness :
  exists l t', vcs_run 20 attempts protected_engine = Some l /\ tip_of l = Some t' /\ dbytes t' <> dbytes (main_tip protected_engine) /\
    descends (store_of l) t' (main_tip protected_engine).
Proof.
  assert (Hp : policy_of protected_engine = Some (mkProtectedRefPolicy true false false 0 false false)).
  { vm_cast_no_check (@eq_refl (option ProtectedRefPolicy) (Some (mkProtectedRefPolicy true false false 0 false false))). }
  assert (Ht : bool_decide (tip_of protected_engine = Some (main_tip protected_engine)) = true) by (vm_cast_no_check (@eq_refl bool true)).
  apply bool_decide_eq_true_1 in Ht.
  assert (Hr : match vcs_run 20 attempts protected_engine with Some _ => true | None => false end = true) by (vm_cast_no_check (@eq_refl bool true)).
  assert (Hn : bool_decide (dbytes (main_tip (ran attempts protected_engine)) = dbytes (main_tip protected_engine)) = false) by (vm_cast_no_check (@eq_refl bool false)).
  apply bool_decide_eq_false_1 in Hn. revert Hn. unfold ran. destruct (vcs_run 20 attempts protected_engine) as [l|] eqn:E; [|discriminate Hr]. change (default protected_engine (Some l)) with l. intros Hn.
  destruct (protected_branch_advances 20 ns (str "main") attempts protected_engine l (main_tip protected_engine)) as (_ & t' & Ht' & Hd).
  - exists (mkProtectedRefPolicy true false false 0 false false). split; [exact Hp|reflexivity].
  - reflexivity.
  - exact E.
  - exact Ht.
  - exists l, t'. split; [reflexivity|]. split; [exact Ht'|]. split; [|exact Hd]. unfold main_tip at 1 in Hn. rewrite Ht' in Hn. exact Hn.
Defined.

(** ** Checks of concrete engines *)

Ltac by_vm := lazymatch goal with |- _ = ?x => vm_cast_no_check (eq_refl x) end.

(** The objects of a memory store. *)
Definition held (l : Loom) : list bytes := map snd (map_to_list (objects (store_of l))).

Definition sound_in (us : list bytes) (s : MemoryStore) : bool :=
  forallb (fun e => bool_decide (e.1 = toy_hash e.2) && bool_decide (e.2 ∈ us)) (map_to_list (objects s)).

Lemma sound_in_ok us s : sound_in us s = true -> addressed s /\ within (fun b => b ∈ us) s.
Proof.
  unfold sound_in. rewrite forallb_forall. intros H. split; intros k b Hb; apply elem_of_map_to_list, list_elem_of_In in Hb; apply H, andb_true_iff in Hb as [H1 H2];
    [by apply bool_decide_eq_true_1 in H1|by apply bool_decide_eq_true_1 in H2].
Qed.

Definition commits_map (s : MemoryStore) (ds : list Digest) : gmap bytes (list bytes) :=
  list_to_map (omap (fun d => match get_commit s d with Ok c => Some (dbytes d, map dbytes (c_parents c)) | Err _ => None end) ds).

Definition is_history (s : MemoryStore) (H : gmap bytes (list bytes)) : bool :=
  forallb (fun e => match get_commit s (from_blake3_bytes e.1) with Ok c => bool_decide (map dbytes (c_parents c) = e.2) | Err _ => false end
    && forallb (fun p => bool_decide (is_Some (H !! p))) e.2) (map_to_list H).

Lemma is_history_ok s H : is_history s H = true -> history s H.
Proof.
  unfold is_history. rewrite forallb_forall. intros Hb b ps Hin. apply elem_of_map_to_list, list_elem_of_In, Hb, andb_true_iff in Hin as [H1 H2]. cbn [fst snd] in *. split.
  - destruct (get_commit s (from_blake3_bytes b)) as [c|] eqn:E; [|done]. exists c. apply bool_decide_eq_true_1 in H1. split; [|done]. intros d <-. rewrite <- E.
    unfold get_commit, get_object. by rewrite (get_proper s d (from_blake3_bytes (dbytes d)) eq_refl).
  - apply Forall_forall. intros p Hp. rewrite forallb_forall in H2. by apply (bool_decide_eq_true_1 (is_Some (H !! p))), H2, list_elem_of_In.
Qed.

Definition is_committable (files : WorkTree) (ds : gset bytes) : bool :=
  forallb (fun p => bool_decide (wf_path p)) (elements (dom files ∪ ds)) && forallb (fun e => bool_decide (wf_staged e.2)) (map_to_list files) &&
  match validate_vcs_namespace_preflight files ds with Ok _ => true | Err _ => false end && bool_decide (2 * size files + size ds <= 256)%nat.

Lemma is_committable_ok files ds : is_committable files ds = true -> committable files ds.
Proof.
  unfold is_committable. rewrite !andb_true_iff. intros [[[H1 H2] H3] H4]. apply small_committable; [done| |by destruct (validate_vcs_namespace_preflight files ds) as [[]|]|by apply bool_decide_eq_true_1 in H4].
  intros k e He. apply elem_of_map_to_list, list_elem_of_In in He. rewrite forallb_forall in H2. by apply H2, bool_decide_eq_true_1 in He.
Qed.

Definition is_meta (parents : list Digest) (author message : bytes) (ts : N) : bool :=
  forallb (fun d => bool_decide (wf_digest d)) parents && (Codec.len parents <=? u64_max) && bool_decide (wf_text author) && bool_decide (wf_text message) && (ts <=? u64_max).

Lemma is_meta_ok parents author message ts : is_meta parents author message ts = true -> wf_meta parents author message ts.
Proof.
  unfold is_meta. rewrite !andb_true_iff, !N.leb_le. intros [[[[H1 H2] H3] H4] H5]. split; [|done|by apply bool_decide_eq_true_1 in H3|by apply bool_decide_eq_true_1 in H4|done].
  apply Forall_forall. intros d Hd%list_elem_of_In. rewrite forallb_forall in H1. by apply H1, bool_decide_eq_true_1 in Hd.
Qed.

(** The value of a walk that ends well. *)
Definition value {A} (o : option (res A)) (x : A) : A := match o with Some (Ok y) => y | _ => x end.
Definition answered {A} (o : option (res A)) : bool := match o with Some (Ok _) => true | _ => false end.
Lemma value_answered {A} (o : option (res A)) x : answered o = true -> o = Some (Ok (value o x)).
Proof. by destruct o as [[]|]. Qed.

(** A workspace with a commit and a change. *)
Definition edited : Loom := ran [put (str "a") (str "1"); save 1; VFile (CreateDir ns (str "e/f") true); put (str "e/b") (str "2")] base_engine.
Definition edited_history : gmap bytes (list bytes) := commits_map (store_of edited) [main_tip edited].
Definition committed : Loom := after (commit 20 ns (str "ann") (str "change") 2) edited.

#[local] Instance committed_laws : StoreLaws MemoryStore (fun b => b ∈ held committed) (fun s => addressed s /\ within (fun b => b ∈ held committed) s).
Proof. apply finite_universe; [vm_cast_no_check (@eq_refl bool true)|vm_cast_no_check (@eq_refl bool true)]. Qed.

Definition all_in (us ws : list bytes) : bool := forallb (fun b => bool_decide (b ∈ us)) ws.
Lemma all_in_ok us ws : all_in us ws = true -> Forall (fun b => b ∈ us) ws.
Proof. unfold all_in. rewrite forallb_forall. intros H. apply Forall_forall. intros b Hb%list_elem_of_In. by apply (bool_decide_eq_true_1 (b ∈ us)), H. Qed.

Lemma edited_ready : ready (U := fun b => b ∈ held committed) (ok := fun s => addressed s /\ within (fun b => b ∈ held committed) s)
  20 ns edited (str "main") (Some (main_tip edited)) edited_history (work_of edited ns) (str "ann") (str "change") 2.
Proof.
  split.
  - split; by_vm.
  - by_vm.
  - by_vm.
  - intros p Hp. assert (E : protected_refs edited !! (ns, branch_ref (str "main")) = None) by by_vm. rewrite E in Hp. discriminate Hp.
  - apply sound_in_ok. by_vm.
  - apply is_history_ok. by_vm.
  - intros t Ht. apply (inj Some) in Ht as <-. apply (bool_decide_eq_true_1 (is_Some (edited_history !! dbytes (main_tip edited)))). by_vm.
  - apply is_committable_ok. by_vm.
  - apply is_meta_ok. by_vm.
  - apply Nat.ltb_lt. by_vm.
  - apply Nat.ltb_lt. by_vm.
  - apply all_in_ok. by_vm.
Qed.
Definition save_edits : M Loom Digest := commit 20 ns (str "ann") (str "change") 2.

Lemma commit_saves_witness :
  exists d l', save_edits edited = Some (Ok d, l') /\ at_tip ns (registry l') (str "main") (Some d) /\ only_branch ns (registry edited) (str "main") d (registry l') /\
    exists l3, checkout_commit 20 ns d l' = Some (Ok (), l3) /\ holds_tree ns l3 (retag_staged <$> work_of edited ns) (closed_dirs (work_of edited ns) (dirs_of edited ns)).
Proof.
  destruct (commit_saves 20 ns edited (str "main") (Some (main_tip edited)) edited_history (str "ann") (str "change") 2 edited_ready) as (d & l' & E & Ht & Hb & _ & Hk & _ & Hc).
  exists d, l'. split; [exact E|]. split; [exact Ht|]. split; [exact Hb|]. apply Hc; [reflexivity|].
  rewrite (oc_access _ _ _ Hk). by_vm.
Defined.

Lemma commit_clean_witness : exists d l', save_edits edited = Some (Ok d, l') /\ status 20 ns l' = Some (Ok (mkStatus [] [] [] []), l').
Proof.
  assert (Hs : match outcome save_edits edited with Some (Ok _) => true | _ => false end = true) by by_vm.
  destruct (outcome save_edits edited) as [[d|e]|] eqn:E; [|discriminate Hs|discriminate Hs]. apply outcome_run in E. exists d, (after save_edits edited). split; [exact E|].
  destruct (commit_clean 20 ns edited (str "main") (Some (main_tip edited)) edited_history (str "ann") (str "change") 2 d (after save_edits edited) edited_ready) as (cs & Hst & Hcs); [by_vm|exact E|].
  rewrite (Hcs ltac:(by_vm)) in Hst. exact Hst.
Defined.

(** [main] and [side] changed different paths; [main] is current. *)
Definition apart : Loom := ran
  [put (str "a") (str "1"); save 1; VBranch ns (str "side"); put (str "a") (str "2"); save 2;
   VCheckoutBranch ns (str "side"); VFile (CreateDir ns (str "e") false); put (str "e/b") (str "3"); save 3; VCheckoutBranch ns (str "main")] base_engine.

Definition first_tip : Digest := main_tip (ran [put (str "a") (str "1"); save 1] base_engine).
Definition apart_history : gmap bytes (list bytes) := commits_map (store_of apart) [first_tip; main_tip apart; side_tip apart].
Definition merge_apart : M Loom MergeOutcome := merge_inner 20 ns (str "side") (str "ann") 4 false.
Definition joined : Loom := after merge_apart apart.

Definition tree_of (d : Digest) : WorkTree * gset bytes := value (flatten_commit 20 (store_of apart) d) (∅, ∅).
Definition base_set : list Digest := value (merge_base_set 20 (store_of apart) (main_tip apart) (side_tip apart)) [].
Definition base_tree : WorkTree * gset bytes := value (reduce_bases 20 (store_of apart) base_set) (∅, ∅).

#[local] Instance joined_laws : StoreLaws MemoryStore (fun b => b ∈ held joined) (fun s => addressed s /\ within (fun b => b ∈ held joined) s).
Proof. apply finite_universe; by_vm. Qed.

Lemma pair_tree (t : WorkTree * gset bytes) : (t.1, t.2) = t.
Proof. by destruct t. Qed.

Lemma tree_of_ok d : answered (flatten_commit 20 (store_of apart) d) = true -> flatten_commit 20 (store_of apart) d = Some (Ok ((tree_of d).1, (tree_of d).2)).
Proof. rewrite pair_tree. exact (value_answered _ _). Qed.
Lemma base_set_ok : answered (merge_base_set 20 (store_of apart) (main_tip apart) (side_tip apart)) = true ->
  merge_base_set 20 (store_of apart) (main_tip apart) (side_tip apart) = Some (Ok base_set).
Proof. exact (value_answered _ _). Qed.
Lemma base_tree_ok : answered (reduce_bases 20 (store_of apart) base_set) = true -> reduce_bases 20 (store_of apart) base_set = Some (Ok (base_tree.1, base_tree.2)).
Proof. rewrite pair_tree. exact (value_answered _ _). Qed.

Lemma apart_clean : clean_merge 20 (store_of apart) (main_tip apart) (side_tip apart) base_tree.1 (tree_of (main_tip apart)).1 (tree_of (side_tip apart)).1
  (tree_of (main_tip apart)).2 (tree_of (side_tip apart)).2.
Proof.
  split.
  - exists base_set, base_tree.2. split; [apply base_set_ok|apply base_tree_ok]; by_vm.
  - apply tree_of_ok. by_vm.
  - apply tree_of_ok. by_vm.
  - by_vm.
Qed.

Lemma apart_history_ok : history (store_of apart) apart_history.
Proof. apply is_history_ok. by_vm. Qed.

Lemma not_ancestor (a b : Digest) :
  bool_decide (is_Some (apart_history !! dbytes b)) = true -> (walk_cost apart_history <=? 20)%nat = true -> is_ancestor 20 (store_of apart) a b = Some (Ok false) ->
  ~ ancestor apart_history (dbytes a) (dbytes b).
Proof.
  intros Hb%bool_decide_eq_true_1 Hf%Nat.leb_le E Ha. destruct (is_ancestor_spec 20 (store_of apart) apart_history a b apart_history_ok Hb Hf) as (x & Ex & Hx).
  rewrite E in Ex. injection Ex as <-. by apply Hx in Ha.
Qed.

Lemma apart_may : may_merge (ok := fun s => addressed s /\ within (fun b => b ∈ held joined) s) 20 ns apart (str "main") (str "side") (main_tip apart) (side_tip apart) apart_history.
Proof.
  split.
  - by_vm.
  - split; by_vm.
  - by_vm.
  - by_vm.
  - by_vm.
  - by_vm.
  - intros p Hp. assert (E : protected_refs apart !! (ns, branch_ref (str "main")) = None) by by_vm. rewrite E in Hp. discriminate Hp.
  - apply sound_in_ok. by_vm.
  - exact apart_history_ok.
  - apply (bool_decide_eq_true_1 (is_Some (apart_history !! dbytes (main_tip apart)))). by_vm.
  - apply (bool_decide_eq_true_1 (is_Some (apart_history !! dbytes (side_tip apart)))). by_vm.
  - split; apply not_ancestor; by_vm.
  - apply Nat.leb_le. by_vm.
Qed.

Lemma merge_combines_witness :
  exists d l' tree, merge_apart apart = Some (Ok (Merged d), l') /\ holds_tree ns l' tree {[str "e"]} /\
    same_slot (tree !! str "a") ((tree_of (main_tip apart)).1 !! str "a") /\ same_slot (tree !! str "e/b") ((tree_of (side_tip apart)).1 !! str "e/b").
Proof.
  destruct (merge_combines 20 ns apart (str "main") (str "side") (main_tip apart) (side_tip apart) apart_history _ _ _ _ _ (str "ann") 4 false apart_may apart_clean)
    as (d & l' & tree & E & _ & _ & Ht & _ & Hc).
  - apply is_committable_ok. by_vm.
  - apply Nat.ltb_lt. by_vm.
  - apply is_meta_ok. by_vm.
  - apply all_in_ok. by_vm.
  - exists d, l', tree. split; [exact E|]. split; [|split].
    + assert (Hd : bool_decide (closed_dirs (merged_files base_tree.1 (tree_of (main_tip apart)).1 (tree_of (side_tip apart)).1)
        ((tree_of (main_tip apart)).2 ∪ (tree_of (side_tip apart)).2) = {[str "e"]}) = true) by by_vm. apply bool_decide_eq_true_1 in Hd. rewrite Hd in Ht. exact Ht.
    + apply (cb_ours _ _ _ _ (Hc (str "a"))). apply slot_eqb_spec. by_vm.
    + apply (cb_theirs _ _ _ _ (Hc (str "e/b"))). apply slot_eqb_spec. by_vm.
Defined.

End EngineDemo.
