(* ===== verification/Ledger.v ===== *)
(** * Ledgers (crates/loom-core/src/ledger.rs)

    The hash chain of a ledger, its segments and metadata with their stored forms, retention ranges, and the
    Merkle trees with inclusion and consistency proofs over the entries. Sequence arithmetic wraps at 64
    bits, as in a release build; digests compare by their bytes. *)

From S2P Require Import Prelude Codec Types Workspace Object Cbor.

Module Ledger.
Import Error Codec Digest Cbor.

Definition GENESIS : bytes := repeat x00 32.
Definition LEDGER_SEGMENT_V1 : bytes := str "loom.ledger.segment.v1".
Definition LEDGER_SEGMENT_INDEX_V1 : bytes := str "loom.ledger.segment_index.v1".
Definition LEDGER_HEAD_V1 : bytes := str "loom.ledger.head.v1".
Definition LEDGER_MANIFEST_V1 : bytes := str "loom.ledger.manifest.v1".
Definition LEDGER_RETENTION_V1 : bytes := str "loom.ledger.retention.v1".
Definition LEDGER_CHECKPOINT_PAYLOAD_V1 : bytes := str "loom.ledger.checkpoint.payload.v1".
Definition LEDGER_SIGNED_CHECKPOINT_V1 : bytes := str "loom.ledger.signed_checkpoint.v1".
Definition LEDGER_PROOF_TREE_V1 : bytes := str "loom.ledger.proof.tree.v1".
Definition LEDGER_INCLUSION_PROOF_V1 : bytes := str "loom.ledger.proof.inclusion.v1".
Definition LEDGER_CONSISTENCY_PROOF_V1 : bytes := str "loom.ledger.proof.consistency.v1".
Definition LEDGER_PROOF_EMPTY_V1 : bytes := str "loom.ledger.proof.empty.v1".
Definition LEDGER_PROOF_LEAF_V1 : bytes := str "loom.ledger.proof.leaf.v1".
Definition LEDGER_PROOF_NODE_V1 : bytes := str "loom.ledger.proof.node.v1".

(** [Algo::as_str] *)
Definition algo_as_str (a : Algo) : bytes := match a with Blake3 => str "blake3" | Sha256 => str "sha256" end.

Definition algo_from_str (value : bytes) : res Algo :=
  if bool_decide (value = str "blake3") then Ok Blake3
  else if bool_decide (value = str "sha256") then Ok Sha256
  else Err Unsupported.

Definition digest_from_value (a : Algo) (v : Value) : res Digest :=
  b ← as_bytes v;
  if bool_decide (length b = DIGEST_LEN) then Ok (mkDigest a b) else Err CorruptObject.

Definition optional_value {A} (f : A -> Value) (o : option A) : Value := match o with Some x => f x | None => Null end.
Definition optional_from_value {A} (f : Value -> res A) (v : Value) : res (option A) :=
  match v with Null => Ok None | v => x ← f v; Ok (Some x) end.

Definition workspace_id_bytes (b : bytes) : res bytes := if bool_decide (length b = 16%nat) then Ok b else Err CorruptObject.

Inductive LedgerAppendMode : Type := Draft | Authoritative.
#[global] Instance append_mode_eq_dec : EqDecision LedgerAppendMode.
Proof. solve_decision. Defined.

Definition append_mode_as_str (m : LedgerAppendMode) : bytes := match m with Draft => str "draft" | Authoritative => str "authoritative" end.
Definition append_mode_parse (value : bytes) : res LedgerAppendMode :=
  if bool_decide (value = str "draft") then Ok Draft
  else if bool_decide (value = str "authoritative") then Ok Authoritative
  else Err CorruptObject.

(** The head of a stored form: its tag and version. *)
Definition fields_tagged (tag : bytes) (f : Fields) : res Fields :=
  '(t, f) ← fields_text f;
  _ ← (if bool_decide (t = tag) then Ok () else Err CorruptObject);
  '(v, f) ← fields_uint f;
  if v =? 1 then Ok f else Err Unsupported.

Definition fields_algo (f : Fields) : res (Algo * Fields) := '(t, f) ← fields_text f; a ← algo_from_str t; Ok (a, f).
Definition fields_mode (f : Fields) : res (LedgerAppendMode * Fields) := '(t, f) ← fields_text f; m ← append_mode_parse t; Ok (m, f).
Definition fields_id (f : Fields) : res (bytes * Fields) := '(b, f) ← fields_bytes f; b ← workspace_id_bytes b; Ok (b, f).

Definition encode_tagged (tag : bytes) (fields : list Value) : bytes := cbor_encode (Array (Text tag :: Uint 1 :: fields)).
Definition decode_tagged (tag : bytes) (b : bytes) : res Fields := f ← decode_array b; fields_tagged tag f.

(** ** Segments *)

Record LedgerSegmentEntry : Type := mkSegmentEntry { se_seq : N; se_payload : bytes; se_prev : Digest; se_hash : Digest }.
Record LedgerSegment : Type := mkSegment { sg_algo : Algo; sg_first : N; sg_entries : list LedgerSegmentEntry }.

Section Chain.
Context `{hasher : Hasher}.

Definition chain (a : Algo) (prev payload : bytes) : Digest := hash a (prev ++ payload).

(** The loop of [LedgerSegment::build]. *)
Fixpoint build_entries (a : Algo) (seq : N) (prev : bytes) (payloads : list bytes) : list LedgerSegmentEntry :=
  match payloads with
  | [] => []
  | p :: payloads =>
      let h := chain a prev p in
      mkSegmentEntry seq p (mkDigest a prev) h :: build_entries a (as_u64 (seq + 1)) (dbytes h) payloads
  end.

Definition segment_build (a : Algo) (first_seq : N) (prev : option Digest) (payloads : list bytes) : LedgerSegment :=
  mkSegment a first_seq (build_entries a first_seq (from_option dbytes GENESIS prev) payloads).

Definition last_seq (s : LedgerSegment) : option N := se_seq <$> last (sg_entries s).
Definition segment_head (s : LedgerSegment) : option Digest := se_hash <$> last (sg_entries s).

Definition segment_entry_value (e : LedgerSegmentEntry) : Value :=
  Array [Uint (se_seq e); Bytes (se_payload e); digest_value (se_prev e); digest_value (se_hash e)].

Definition segment_encode (s : LedgerSegment) : bytes :=
  encode_tagged LEDGER_SEGMENT_V1 [Text (algo_as_str (sg_algo s)); Uint (sg_first s); Array (map segment_entry_value (sg_entries s))].

Definition segment_digest (s : LedgerSegment) : Digest := hash (sg_algo s) (segment_encode s).

(** One entry of a stored segment: its expected number [seq], whether it is the first of a segment that
    does not start the ledger, and the hash before it. *)
Definition segment_entry_from (a : Algo) (expected : N) (open : bool) (prev : bytes) (item : Value) : res LedgerSegmentEntry :=
  f ← as_array item;
  '(seq, f) ← fields_uint f;
  '(payload, f) ← fields_bytes f;
  '(prev_hash, f) ← read_field (digest_from_value a) f;
  '(entry_hash, f) ← read_field (digest_from_value a) f;
  _ ← fields_end f;
  if negb (seq =? expected) then Err CorruptObject
  else
    let prev := if open then dbytes prev_hash else prev in
    if negb (bool_decide (dbytes prev_hash = prev)) then Err CorruptObject
    else if negb (bool_decide (dbytes entry_hash = dbytes (chain a prev payload))) then Err IntegrityFailure
    else Ok (mkSegmentEntry seq payload prev_hash entry_hash).

Fixpoint segment_entries_from (a : Algo) (seq : N) (open : bool) (prev : bytes) (items : list Value) : res (list LedgerSegmentEntry) :=
  match items with
  | [] => Ok []
  | item :: items =>
      e ← segment_entry_from a seq open prev item;
      es ← segment_entries_from a (as_u64 (seq + 1)) false (dbytes (se_hash e)) items;
      Ok (e :: es)
  end.

Definition segment_decode (b : bytes) : res LedgerSegment :=
  f ← decode_tagged LEDGER_SEGMENT_V1 b;
  '(a, f) ← fields_algo f;
  '(first_seq, f) ← fields_uint f;
  '(items, f) ← fields_array f;
  _ ← fields_end f;
  entries ← segment_entries_from a first_seq (0 <? first_seq) GENESIS items;
  Ok (mkSegment a first_seq entries).

(** ** Ledgers *)

Record Ledger : Type := mkLedger { l_algo : Algo; payloads : list bytes; hashes : list Digest }.

Definition with_algo (a : Algo) : Ledger := mkLedger a [] [].

Definition head_bytes (l : Ledger) : bytes := from_option dbytes GENESIS (last (hashes l)).

(** The new ledger and the number of the entry. *)
Definition append (l : Ledger) (payload : bytes) : Ledger * N :=
  (mkLedger (l_algo l) (payloads l ++ [payload]) (hashes l ++ [chain (l_algo l) (head_bytes l) payload]), len (payloads l)).

Definition ledger_entry (l : Ledger) (seq : N) : option bytes := payloads l !! N.to_nat seq.
Definition entry_hash (l : Ledger) (seq : N) : option Digest := hashes l !! N.to_nat seq.
Definition ledger_head_hash (l : Ledger) : option Digest := last (hashes l).

(** The loop of [verify]: hashes compare by their bytes. *)
Fixpoint verify_from (a : Algo) (prev : bytes) (payloads : list bytes) (hashes : list Digest) : res () :=
  match payloads with
  | [] => Ok ()
  | p :: payloads =>
      let expect := chain a prev p in
      match hashes with
      | h :: hashes => if bool_decide (dbytes h = dbytes expect) then verify_from a (dbytes expect) payloads hashes else Err IntegrityFailure
      | [] => Err IntegrityFailure
      end
  end.

Definition verify (l : Ledger) : res () := verify_from (l_algo l) GENESIS (payloads l) (hashes l).

Definition ledger_encode (l : Ledger) : bytes :=
  cbor_encode (Array (zip_with (fun p h => Array [Bytes p; digest_value h]) (payloads l) (hashes l))).

Definition ledger_item (a : Algo) (v : Value) : res (bytes * Digest) :=
  f ← as_array v;
  '(p, f) ← fields_bytes f;
  '(d, f) ← fields_digest f;
  _ ← fields_end f;
  Ok (p, mkDigest a (dbytes d)).

Definition ledger_decode (a : Algo) (b : bytes) : res Ledger :=
  items ← decode_array b;
  es ← try_map (ledger_item a) items;
  Ok (mkLedger a (map fst es) (map snd es)).

(** ** The segment index *)

Record LedgerSegmentIndexEntry : Type := mkIndexEntry {
  ie_first : N; ie_last : N; ie_root : Digest; ie_count : N; ie_head : Digest;
}.
Record LedgerSegmentIndex : Type := mkIndex { ix_algo : Algo; ix_entries : list LedgerSegmentIndexEntry }.

(** [validate], after an entry that ends at [previous]. *)
Fixpoint index_validate_from (previous : option N) (entries : list LedgerSegmentIndexEntry) : res () :=
  match entries with
  | [] => Ok ()
  | e :: entries =>
      if ie_count e =? 0 then Err InvalidArgument
      else if ie_last e <? ie_first e then Err InvalidArgument
      else if negb (as_u64 (ie_last e - ie_first e + 1) =? ie_count e) then Err InvalidArgument
      else
        _ ← match previous with
            | Some previous =>
                if ie_first e <=? previous then Err InvalidArgument
                else if negb (ie_first e =? as_u64 (previous + 1)) then Err InvalidArgument
                else Ok ()
            | None => if negb (ie_first e =? 0) then Err InvalidArgument else Ok ()
            end;
        index_validate_from (Some (ie_last e)) entries
  end.

Definition index_new (a : Algo) (entries : list LedgerSegmentIndexEntry) : res LedgerSegmentIndex :=
  _ ← index_validate_from None entries; Ok (mkIndex a entries).

Definition index_from_segments (segments : list LedgerSegment) : res LedgerSegmentIndex :=
  match segments with
  | [] => Ok (mkIndex Blake3 [])
  | first :: _ =>
      let a := sg_algo first in
      entries ← try_map (fun s =>
        if negb (bool_decide (sg_algo s = a)) then Err InvalidArgument
        else
          last ← ok_or (last_seq s) InvalidArgument;
          head ← ok_or (segment_head s) InvalidArgument;
          Ok (mkIndexEntry (sg_first s) last (segment_digest s) (len (sg_entries s)) head)) segments;
      index_new a entries
  end.

Definition index_entry_value (e : LedgerSegmentIndexEntry) : Value :=
  Array [Uint (ie_first e); Uint (ie_last e); digest_value (ie_root e); Uint (ie_count e); digest_value (ie_head e)].

Definition index_encode (i : LedgerSegmentIndex) : bytes :=
  encode_tagged LEDGER_SEGMENT_INDEX_V1 [Text (algo_as_str (ix_algo i)); Array (map index_entry_value (ix_entries i))].

Definition index_digest (i : LedgerSegmentIndex) : Digest := hash (ix_algo i) (index_encode i).

Definition index_entry_from (a : Algo) (item : Value) : res LedgerSegmentIndexEntry :=
  f ← as_array item;
  '(first_seq, f) ← fields_uint f;
  '(last_seq, f) ← fields_uint f;
  '(segment_root, f) ← read_field (digest_from_value a) f;
  '(entry_count, f) ← fields_uint f;
  '(head_hash, f) ← read_field (digest_from_value a) f;
  _ ← fields_end f;
  Ok (mkIndexEntry first_seq last_seq segment_root entry_count head_hash).

Definition index_decode (b : bytes) : res LedgerSegmentIndex :=
  f ← decode_tagged LEDGER_SEGMENT_INDEX_V1 b;
  '(a, f) ← fields_algo f;
  '(items, f) ← fields_array f;
  entries ← try_map (index_entry_from a) items;
  _ ← fields_end f;
  index_new a entries.

(** ** Head and manifest *)

Record LedgerHeadMetadata : Type := mkHead {
  hm_algo : Algo; hm_latest_seq : option N; hm_latest_segment_root : option Digest; hm_chain_head : option Digest;
  hm_append_mode : LedgerAppendMode; hm_retention_horizon : option N; hm_latest_checkpoint_root : option Digest;
}.

Definition head_encode (h : LedgerHeadMetadata) : bytes :=
  encode_tagged LEDGER_HEAD_V1
    [Text (algo_as_str (hm_algo h)); optional_value Uint (hm_latest_seq h); optional_value digest_value (hm_latest_segment_root h);
     optional_value digest_value (hm_chain_head h); Text (append_mode_as_str (hm_append_mode h));
     optional_value Uint (hm_retention_horizon h); optional_value digest_value (hm_latest_checkpoint_root h)].

Definition head_digest (h : LedgerHeadMetadata) : Digest := hash (hm_algo h) (head_encode h).

Definition fields_optional_digest (a : Algo) : Fields -> res (option Digest * Fields) := read_field (optional_from_value (digest_from_value a)).
Definition fields_optional_uint : Fields -> res (option N * Fields) := read_field (optional_from_value as_uint).

Definition head_decode (b : bytes) : res LedgerHeadMetadata :=
  f ← decode_tagged LEDGER_HEAD_V1 b;
  '(a, f) ← fields_algo f;
  '(latest_seq, f) ← fields_optional_uint f;
  '(latest_segment_root, f) ← fields_optional_digest a f;
  '(chain_head, f) ← fields_optional_digest a f;
  '(mode, f) ← fields_mode f;
  '(retention_horizon, f) ← fields_optional_uint f;
  '(latest_checkpoint_root, f) ← fields_optional_digest a f;
  _ ← fields_end f;
  if negb (Bool.eqb (bool_decide (latest_seq = None)) (bool_decide (chain_head = None))) then Err CorruptObject
  else Ok (mkHead a latest_seq latest_segment_root chain_head mode retention_horizon latest_checkpoint_root).

Record LedgerManifest : Type := mkManifest {
  mf_algo : Algo; mf_head_root : Digest; mf_segment_index_root : Digest;
  mf_checkpoint_root : option Digest; mf_proof_root : option Digest; mf_retention_root : option Digest;
}.

Definition manifest_encode (m : LedgerManifest) : bytes :=
  encode_tagged LEDGER_MANIFEST_V1
    [Text (algo_as_str (mf_algo m)); digest_value (mf_head_root m); digest_value (mf_segment_index_root m);
     optional_value digest_value (mf_checkpoint_root m); optional_value digest_value (mf_proof_root m);
     optional_value digest_value (mf_retention_root m)].

Definition manifest_decode (b : bytes) : res LedgerManifest :=
  f ← decode_tagged LEDGER_MANIFEST_V1 b;
  '(a, f) ← fields_algo f;
  '(head_root, f) ← read_field (digest_from_value a) f;
  '(segment_index_root, f) ← read_field (digest_from_value a) f;
  '(checkpoint_root, f) ← fields_optional_digest a f;
  '(proof_root, f) ← fields_optional_digest a f;
  '(retention_root, f) ← fields_optional_digest a f;
  _ ← fields_end f;
  Ok (mkManifest a head_root segment_index_root checkpoint_root proof_root retention_root).

(** ** Retention *)

Inductive LedgerRangeState : Type := Retained | PlannedPrune | Pruned | LegalHold.
#[global] Instance range_state_eq_dec : EqDecision LedgerRangeState.
Proof. solve_decision. Defined.

Definition range_state_as_str (s : LedgerRangeState) : bytes :=
  match s with Retained => str "retained" | PlannedPrune => str "planned_prune" | Pruned => str "pruned" | LegalHold => str "legal_hold" end.

Definition range_state_parse (value : bytes) : res LedgerRangeState :=
  if bool_decide (value = str "retained") then Ok Retained
  else if bool_decide (value = str "planned_prune") then Ok PlannedPrune
  else if bool_decide (value = str "pruned") then Ok Pruned
  else if bool_decide (value = str "legal_hold") then Ok LegalHold
  else Err CorruptObject.

Record LedgerRetentionRange : Type := mkRetentionRange { rr_first : N; rr_last : N; rr_state : LedgerRangeState }.
Record LedgerRetentionMetadata : Type := mkRetention { rt_algo : Algo; rt_ranges : list LedgerRetentionRange }.

Fixpoint retention_validate_from (previous : option N) (ranges : list LedgerRetentionRange) : res () :=
  match ranges with
  | [] => Ok ()
  | r :: ranges =>
      if rr_last r <? rr_first r then Err InvalidArgument
      else if from_option (fun last => rr_first r <=? last) false previous then Err InvalidArgument
      else retention_validate_from (Some (rr_last r)) ranges
  end.

Definition retention_new (a : Algo) (ranges : list LedgerRetentionRange) : res LedgerRetentionMetadata :=
  _ ← retention_validate_from None ranges; Ok (mkRetention a ranges).

Definition retention_range_value (r : LedgerRetentionRange) : Value :=
  Array [Uint (rr_first r); Uint (rr_last r); Text (range_state_as_str (rr_state r))].

Definition retention_encode (r : LedgerRetentionMetadata) : bytes :=
  encode_tagged LEDGER_RETENTION_V1 [Text (algo_as_str (rt_algo r)); Array (map retention_range_value (rt_ranges r))].

Definition retention_digest (r : LedgerRetentionMetadata) : Digest := hash (rt_algo r) (retention_encode r).

Definition retention_range_from (item : Value) : res LedgerRetentionRange :=
  f ← as_array item;
  '(first_seq, f) ← fields_uint f;
  '(last_seq, f) ← fields_uint f;
  '(t, f) ← fields_text f;
  state ← range_state_parse t;
  _ ← fields_end f;
  Ok (mkRetentionRange first_seq last_seq state).

Definition retention_decode (b : bytes) : res LedgerRetentionMetadata :=
  f ← decode_tagged LEDGER_RETENTION_V1 b;
  '(a, f) ← fields_algo f;
  '(items, f) ← fields_array f;
  _ ← fields_end f;
  ranges ← try_map retention_range_from items;
  retention_new a ranges.

(** The loop of [state_for_half_open_range]: a pruned range ends it. *)
Fixpoint range_state_from (state : LedgerRangeState) (ranges : list LedgerRetentionRange) (start end_ : N) : LedgerRangeState :=
  match ranges with
  | [] => state
  | r :: ranges =>
      if (start <=? rr_last r) && (rr_first r <? end_) then
        match rr_state r with
        | Pruned => Pruned
        | LegalHold => range_state_from LegalHold ranges start end_
        | PlannedPrune => range_state_from (if bool_decide (state = Retained) then PlannedPrune else state) ranges start end_
        | Retained => range_state_from state ranges start end_
        end
      else range_state_from state ranges start end_
  end.

Definition state_for_half_open_range (r : LedgerRetentionMetadata) (start end_ : N) : LedgerRangeState :=
  range_state_from Retained (rt_ranges r) start end_.

Definition validate_retention_against_ledger (r : LedgerRetentionMetadata) (l : Ledger) : res () :=
  if negb (bool_decide (rt_algo r = l_algo l)) then Err InvalidArgument
  else
    match payloads l with
    | [] => if bool_decide (length (rt_ranges r) = 0%nat) then Ok () else Err InvalidArgument
    | _ => if existsb (fun g => len (payloads l) - 1 <? rr_last g) (rt_ranges r) then Err InvalidArgument else Ok ()
    end.

Record LedgerRangeEntry : Type := mkRangeEntry { re_seq : N; re_payload : bytes; re_hash : Digest }.
Record LedgerRangeScan : Type := mkRangeScan { rs_start : N; rs_end : N; rs_state : LedgerRangeState; rs_entries : list LedgerRangeEntry }.

(** ** Checkpoints *)

Record LedgerCheckpointPayload : Type := mkCheckpointPayload {
  cp_algo : Algo; cp_namespace : bytes; cp_collection : bytes; cp_latest_seq : option N; cp_chain_head : option Digest;
  cp_head_root : Digest; cp_segment_index_root : Digest; cp_latest_segment_root : option Digest;
  cp_retention_root : option Digest; cp_append_mode : LedgerAppendMode;
}.

Definition checkpoint_payload_encode (p : LedgerCheckpointPayload) : bytes :=
  encode_tagged LEDGER_CHECKPOINT_PAYLOAD_V1
    [Text (algo_as_str (cp_algo p)); Bytes (cp_namespace p); Text (cp_collection p); optional_value Uint (cp_latest_seq p);
     optional_value digest_value (cp_chain_head p); digest_value (cp_head_root p); digest_value (cp_segment_index_root p);
     optional_value digest_value (cp_latest_segment_root p); optional_value digest_value (cp_retention_root p);
     Text (append_mode_as_str (cp_append_mode p))].

Definition checkpoint_payload_decode (b : bytes) : res LedgerCheckpointPayload :=
  f ← decode_tagged LEDGER_CHECKPOINT_PAYLOAD_V1 b;
  '(a, f) ← fields_algo f;
  '(ns, f) ← fields_id f;
  '(collection, f) ← fields_text f;
  '(latest_seq, f) ← fields_optional_uint f;
  '(chain_head, f) ← fields_optional_digest a f;
  '(head_root, f) ← read_field (digest_from_value a) f;
  '(segment_index_root, f) ← read_field (digest_from_value a) f;
  '(latest_segment_root, f) ← fields_optional_digest a f;
  '(retention_root, f) ← fields_optional_digest a f;
  '(mode, f) ← fields_mode f;
  _ ← fields_end f;
  Ok (mkCheckpointPayload a ns collection latest_seq chain_head head_root segment_index_root latest_segment_root retention_root mode).

Record LedgerCheckpointSignature : Type := mkCheckpointSignature { cs_principal : bytes; cs_key_id : bytes; cs_suite : bytes; cs_signature : bytes }.
Record LedgerSignedCheckpoint : Type := mkSignedCheckpoint { sc_payload : LedgerCheckpointPayload; sc_signatures : list LedgerCheckpointSignature }.

Definition checkpoint_signature_value (s : LedgerCheckpointSignature) : Value :=
  Array [Bytes (cs_principal s); Bytes (cs_key_id s); Text (cs_suite s); Bytes (cs_signature s)].

Definition signed_checkpoint_encode (c : LedgerSignedCheckpoint) : bytes :=
  encode_tagged LEDGER_SIGNED_CHECKPOINT_V1
    [Bytes (checkpoint_payload_encode (sc_payload c)); Array (map checkpoint_signature_value (sc_signatures c))].

Definition checkpoint_signature_from (v : Value) : res LedgerCheckpointSignature :=
  f ← as_array v;
  '(principal, f) ← fields_id f;
  '(key_id, f) ← fields_id f;
  '(suite, f) ← fields_text f;
  '(signature, f) ← fields_bytes f;
  _ ← fields_end f;
  Ok (mkCheckpointSignature principal key_id suite signature).

Definition signed_checkpoint_decode (b : bytes) : res LedgerSignedCheckpoint :=
  f ← decode_tagged LEDGER_SIGNED_CHECKPOINT_V1 b;
  '(p, f) ← fields_bytes f;
  payload ← checkpoint_payload_decode p;
  '(items, f) ← fields_array f;
  _ ← fields_end f;
  signatures ← try_map checkpoint_signature_from items;
  Ok (mkSignedCheckpoint payload signatures).
End Chain.
End Ledger.

(** * Ledger proofs

    The Merkle tree over the entries of a ledger, proofs that an entry is in a tree and that a tree
    extends another, and their stored forms. The recursions over the leaves split at the largest power of
    two, which leaves two shorter parts: the number of leaves is fuel enough. *)

Module LedgerProof.
Import Error Codec Digest Cbor Ledger.

Record LedgerProofTree : Type := mkProofTree { pt_algo : Algo; pt_namespace : bytes; pt_collection : bytes; tree_size : N; root_hash : Digest }.
Record LedgerInclusionProof : Type := mkInclusionProof { ip_tree : LedgerProofTree; ip_seq : N; ip_leaf_hash : Digest; ip_path : list Digest }.
Record LedgerConsistencyProof : Type := mkConsistencyProof {
  kp_algo : Algo; kp_namespace : bytes; kp_collection : bytes; first_tree_size : N; second_tree_size : N;
  first_root_hash : Digest; second_root_hash : Digest; kp_path : list Digest;
}.

(** ** Stored forms *)

Definition proof_tree_encode (t : LedgerProofTree) : bytes :=
  encode_tagged LEDGER_PROOF_TREE_V1
    [Text (algo_as_str (pt_algo t)); Bytes (pt_namespace t); Text (pt_collection t); Uint (tree_size t); digest_value (root_hash t)].

Definition proof_tree_decode (b : bytes) : res LedgerProofTree :=
  f ← decode_tagged LEDGER_PROOF_TREE_V1 b;
  '(a, f) ← fields_algo f;
  '(ns, f) ← fields_id f;
  '(collection, f) ← fields_text f;
  '(size, f) ← fields_uint f;
  '(root, f) ← read_field (digest_from_value a) f;
  _ ← fields_end f;
  Ok (mkProofTree a ns collection size root).

Definition fields_path (a : Algo) (f : Fields) : res (list Digest * Fields) :=
  '(items, f) ← fields_array f; path ← try_map (digest_from_value a) items; Ok (path, f).

Definition inclusion_proof_encode (p : LedgerInclusionProof) : bytes :=
  encode_tagged LEDGER_INCLUSION_PROOF_V1
    [Bytes (proof_tree_encode (ip_tree p)); Uint (ip_seq p); digest_value (ip_leaf_hash p); Array (map digest_value (ip_path p))].

Definition inclusion_proof_decode (b : bytes) : res LedgerInclusionProof :=
  f ← decode_tagged LEDGER_INCLUSION_PROOF_V1 b;
  '(t, f) ← fields_bytes f;
  tree ← proof_tree_decode t;
  '(seq, f) ← fields_uint f;
  '(leaf, f) ← read_field (digest_from_value (pt_algo tree)) f;
  '(path, f) ← fields_path (pt_algo tree) f;
  _ ← fields_end f;
  Ok (mkInclusionProof tree seq leaf path).

Definition consistency_proof_encode (p : LedgerConsistencyProof) : bytes :=
  encode_tagged LEDGER_CONSISTENCY_PROOF_V1
    [Text (algo_as_str (kp_algo p)); Bytes (kp_namespace p); Text (kp_collection p); Uint (first_tree_size p);
     Uint (second_tree_size p); digest_value (first_root_hash p); digest_value (second_root_hash p);
     Array (map digest_value (kp_path p))].

Definition consistency_proof_decode (b : bytes) : res LedgerConsistencyProof :=
  f ← decode_tagged LEDGER_CONSISTENCY_PROOF_V1 b;
  '(a, f) ← fields_algo f;
  '(ns, f) ← fields_id f;
  '(collection, f) ← fields_text f;
  '(first_size, f) ← fields_uint f;
  '(second_size, f) ← fields_uint f;
  '(first_root, f) ← read_field (digest_from_value a) f;
  '(second_root, f) ← read_field (digest_from_value a) f;
  '(path, f) ← fields_path a f;
  _ ← fields_end f;
  Ok (mkConsistencyProof a ns collection first_size second_size first_root second_root path).

Definition largest_power_of_two_less_than (n : N) : N := 2 ^ N.log2 (n - 1).

(** [leaves[..split]] and [leaves[split..]] *)
Definition left_leaves {A} (leaves : list A) : list A := take (N.to_nat (largest_power_of_two_less_than (len leaves))) leaves.
Definition right_leaves {A} (leaves : list A) : list A := drop (N.to_nat (largest_power_of_two_less_than (len leaves))) leaves.

Section Merkle.
Context `{hasher : Hasher} (a : Algo).
Implicit Types (ns collection : bytes) (leaf node left right : Digest) (leaves path : list Digest).

(** The strings hashed for an empty tree, a leaf and a node. *)
Definition empty_string ns collection : bytes := cbor_encode (Array [Text LEDGER_PROOF_EMPTY_V1; Bytes ns; Text collection]).
Definition leaf_string ns collection (e : LedgerSegmentEntry) : bytes :=
  cbor_encode (Array [Text LEDGER_PROOF_LEAF_V1; Bytes ns; Text collection; Uint (se_seq e); digest_value (se_hash e)]).
Definition node_string left right : bytes := cbor_encode (Array [Text LEDGER_PROOF_NODE_V1; digest_value left; digest_value right]).

Definition ledger_proof_empty_hash ns collection : Digest := hash a (empty_string ns collection).
Definition ledger_proof_leaf_hash ns collection (e : LedgerSegmentEntry) : Digest := hash a (leaf_string ns collection e).
Definition ledger_proof_node_hash left right : Digest := hash a (node_string left right).

(** [ledger_merkle_root] of one leaf or more; the code does not call it on none. *)
Fixpoint merkle_root_fuel (fuel : nat) leaves : Digest :=
  match fuel, leaves with
  | _, [leaf] => leaf
  | S fuel, _ => ledger_proof_node_hash (merkle_root_fuel fuel (left_leaves leaves)) (merkle_root_fuel fuel (right_leaves leaves))
  | O, _ => mkDigest a []
  end.
Definition ledger_merkle_root leaves : Digest := merkle_root_fuel (length leaves) leaves.

(** ** Inclusion *)

Fixpoint inclusion_path_fuel (fuel : nat) leaves (index : N) : res (list Digest) :=
  if len leaves <=? index then Err InvalidArgument
  else if len leaves =? 1 then Ok []
  else
    match fuel with
    | O => Err InvalidArgument
    | S fuel =>
        let split := largest_power_of_two_less_than (len leaves) in
        if index <? split then
          path ← inclusion_path_fuel fuel (left_leaves leaves) index; Ok (path ++ [ledger_merkle_root (right_leaves leaves)])
        else
          path ← inclusion_path_fuel fuel (right_leaves leaves) (index - split); Ok (path ++ [ledger_merkle_root (left_leaves leaves)])
    end.
Definition ledger_merkle_inclusion_path leaves (index : N) : res (list Digest) := inclusion_path_fuel (length leaves) leaves index.

(** [ledger_merkle_inclusion_root] takes the last node of the path first. *)
Fixpoint inclusion_root_rev leaf (index size : N) (rpath : list Digest) : res Digest :=
  if size <=? index then Err InvalidArgument
  else if size =? 1 then match rpath with [] => Ok leaf | _ => Err InvalidArgument end
  else
    match rpath with
    | [] => Err InvalidArgument
    | last :: rest =>
        let split := largest_power_of_two_less_than size in
        if index <? split then left ← inclusion_root_rev leaf index split rest; Ok (ledger_proof_node_hash left last)
        else right ← inclusion_root_rev leaf (index - split) (size - split) rest; Ok (ledger_proof_node_hash last right)
    end.
Definition ledger_merkle_inclusion_root leaf (index size : N) path : res Digest := inclusion_root_rev leaf index size (rev path).

(** ** Consistency *)

Fixpoint subproof_fuel (fuel : nat) leaves (first_size : N) (complete : bool) : list Digest :=
  if first_size =? len leaves then if complete then [] else [ledger_merkle_root leaves]
  else
    match fuel with
    | O => []
    | S fuel =>
        let split := largest_power_of_two_less_than (len leaves) in
        if first_size <=? split then subproof_fuel fuel (left_leaves leaves) first_size complete ++ [ledger_merkle_root (right_leaves leaves)]
        else subproof_fuel fuel (right_leaves leaves) (first_size - split) false ++ [ledger_merkle_root (left_leaves leaves)]
    end.
Definition subproof leaves (first_size : N) (complete : bool) : list Digest := subproof_fuel (length leaves) leaves first_size complete.

Definition ledger_merkle_consistency_path leaves (first_size : N) : res (list Digest) :=
  if (first_size =? 0) || (len leaves <? first_size) then Err InvalidArgument
  else if first_size =? len leaves then Ok []
  else Ok (subproof leaves first_size true).

(** [while first_node & 1 == 1 { first_node >>= 1; second_node >>= 1 }] *)
Fixpoint strip_ones_fuel (fuel : nat) (first_node second_node : N) : N * N :=
  match fuel with
  | O => (first_node, second_node)
  | S fuel => if N.odd first_node then strip_ones_fuel fuel (N.div2 first_node) (N.div2 second_node) else (first_node, second_node)
  end.
Definition strip_ones (first_node second_node : N) : N * N := strip_ones_fuel (N.size_nat first_node) first_node second_node.

(** [while first_node != 0 && first_node & 1 == 0 { first_node >>= 1; second_node >>= 1 }] *)
Fixpoint strip_zeros_fuel (fuel : nat) (first_node second_node : N) : N * N :=
  match fuel with
  | O => (first_node, second_node)
  | S fuel =>
      if negb (first_node =? 0) && negb (N.odd first_node) then strip_zeros_fuel fuel (N.div2 first_node) (N.div2 second_node)
      else (first_node, second_node)
  end.
Definition strip_zeros (first_node second_node : N) : N * N := strip_zeros_fuel (N.size_nat first_node) first_node second_node.

(** The loop over the nodes of the path: the two hashes it ends with. *)
Fixpoint consistency_loop (first_node second_node : N) (first_hash second_hash : Digest) path : res (Digest * Digest) :=
  match path with
  | [] => Ok (first_hash, second_hash)
  | node :: path =>
      if second_node =? 0 then Err InvalidArgument
      else if N.odd first_node || (first_node =? second_node) then
        let '(f, s) := strip_zeros first_node second_node in
        consistency_loop (N.div2 f) (N.div2 s) (ledger_proof_node_hash node first_hash) (ledger_proof_node_hash node second_hash) path
      else consistency_loop (N.div2 first_node) (N.div2 second_node) first_hash (ledger_proof_node_hash second_hash node) path
  end.
End Merkle.

Section Verify.
Context `{hasher : Hasher}.

Definition ledger_verify_inclusion_proof (p : LedgerInclusionProof) : res () :=
  let t := ip_tree p in
  if tree_size t =? 0 then Err InvalidArgument
  else
    root ← ledger_merkle_inclusion_root (pt_algo t) (ip_leaf_hash p) (ip_seq p) (tree_size t) (ip_path p);
    if bool_decide (dbytes root = dbytes (root_hash t)) then Ok () else Err IntegrityFailure.

(** [ledger_merkle_verify_consistency] *)
Definition ledger_verify_consistency_proof (p : LedgerConsistencyProof) : res () :=
  if (first_tree_size p =? 0) || (second_tree_size p <? first_tree_size p) || (second_tree_size p =? 0) then Err InvalidArgument
  else if first_tree_size p =? second_tree_size p then
    if bool_decide (kp_path p <> []) || bool_decide (dbytes (first_root_hash p) <> dbytes (second_root_hash p)) then Err IntegrityFailure
    else Ok ()
  else
    match kp_path p with
    | [] => Err InvalidArgument
    | node :: rest =>
        let '(first_node, second_node) := strip_ones (first_tree_size p - 1) (second_tree_size p - 1) in
        let '(start, path) := if first_node =? 0 then (first_root_hash p, kp_path p) else (node, rest) in
        '(first_hash, second_hash) ← consistency_loop (kp_algo p) first_node second_node start start path;
        if bool_decide (dbytes first_hash <> dbytes (first_root_hash p)) || bool_decide (dbytes second_hash <> dbytes (second_root_hash p))
        then Err IntegrityFailure else Ok ()
    end.
End Verify.
End LedgerProof.
