(* ===== verification/LedgerMerkle.v ===== *)
(** * The Merkle proofs of ledgers are complete and sound

    A tree is a binary tree over its leaves. Paths the prover builds are accepted by the verifier; an
    accepted path, where no two of the strings that occur have the same hash, proves what it says. *)

From S2P Require Import Prelude Codec CodecFacts CodecProps Types Workspace Object Cbor Store Ledger.

Module LedgerMerkle.
Import Error Codec Digest Cbor Ledger LedgerProof.

(** ** Splitting at a power of two *)

Lemma split_bounds n : 1 < n -> let k := largest_power_of_two_less_than n in 0 < k /\ k < n /\ n <= 2 * k.
Proof.
  intros Hn. unfold largest_power_of_two_less_than. cbn zeta.
  pose proof (N.log2_spec (n - 1) ltac:(lia)) as [H1 H2]. rewrite N.pow_succ_r' in H2. lia.
Qed.

Lemma split_unique n k : 2 ^ k < n -> n <= 2 * 2 ^ k -> largest_power_of_two_less_than n = 2 ^ k.
Proof.
  intros H1 H2. unfold largest_power_of_two_less_than. f_equal. apply N.log2_unique; [lia|]. rewrite N.pow_succ_r'. lia.
Qed.

Lemma split_power n : 1 < n -> exists k, largest_power_of_two_less_than n = 2 ^ k /\ n - 1 < 2 ^ N.succ k.
Proof. intros Hn. exists (N.log2 (n - 1)). split; [done|]. apply N.log2_spec. lia. Qed.

Section Split.
Context {A : Type}.
Implicit Types (l : list A).

Lemma split_length l : (1 < length l)%nat ->
  len (left_leaves l) = largest_power_of_two_less_than (len l) /\
  len (right_leaves l) = len l - largest_power_of_two_less_than (len l).
Proof.
  intros H. destruct (split_bounds (len l)) as (H1 & H2 & _); [unfold len; lia|].
  unfold left_leaves, right_leaves, len in *. rewrite length_take, length_drop. lia.
Qed.

Lemma split_shorter l : (1 < length l)%nat ->
  (0 < length (left_leaves l) < length l)%nat /\ (0 < length (right_leaves l) < length l)%nat.
Proof.
  intros H. destruct (split_bounds (len l)) as (H1 & H2 & _); [unfold len; lia|].
  destruct (split_length l H) as [H3 H4]. unfold len in *. lia.
Qed.

Lemma split_nonempty l : (1 < length l)%nat -> left_leaves l <> [] /\ right_leaves l <> [].
Proof. intros H. destruct (split_shorter l H) as [H1 H2]. split; intros E; rewrite E in *; cbn in *; lia. Qed.

Lemma split_app l : left_leaves l ++ right_leaves l = l.
Proof. apply take_drop. Qed.

(** Induction along the splits. *)
Lemma split_ind (P : list A -> Prop) :
  (forall x, P [x]) ->
  (forall l, (1 < length l)%nat -> P (left_leaves l) -> P (right_leaves l) -> P l) ->
  forall l, l <> [] -> P l.
Proof.
  intros H1 H2 l. remember (length l) as n eqn:Hn. revert l Hn.
  induction n as [n IH] using lt_wf_ind. intros l -> Hl. destruct l as [|x [|y l]]; [done|apply H1|].
  set (xs := x :: y :: l) in *. assert (1 < length xs)%nat as Hxs by (cbn; lia). destruct (split_shorter xs Hxs) as [Hs1 Hs2], (split_nonempty xs Hxs) as [Hn1 Hn2].
  apply H2; [done| |]; (eapply IH; [|reflexivity|done]); lia.
Qed.
End Split.

(** ** Trees *)

Inductive tree : Type := Leaf (d : Digest) | Node (l r : tree).

Fixpoint tleaves (t : tree) : list Digest := match t with Leaf d => [d] | Node l r => tleaves l ++ tleaves r end.

(** The tree of some leaves, with the shape [ledger_merkle_root] hashes. *)
Fixpoint merkle_tree_fuel (fuel : nat) (leaves : list Digest) : tree :=
  match fuel, leaves with
  | _, [d] => Leaf d
  | S fuel, _ => Node (merkle_tree_fuel fuel (left_leaves leaves)) (merkle_tree_fuel fuel (right_leaves leaves))
  | O, _ => Leaf (mkDigest Blake3 [])
  end.
Definition merkle_tree (leaves : list Digest) : tree := merkle_tree_fuel (length leaves) leaves.

Lemma merkle_tree_enough n leaves : leaves <> [] -> (length leaves <= n)%nat -> merkle_tree_fuel n leaves = merkle_tree leaves.
Proof.
  intros Hl. revert n. unfold merkle_tree. 
  assert (forall m n, (length leaves <= n)%nat -> (length leaves <= m)%nat -> merkle_tree_fuel n leaves = merkle_tree_fuel m leaves) as H; [|by auto].
  revert leaves Hl. apply (split_ind (fun leaves => forall m n, (length leaves <= n)%nat -> (length leaves <= m)%nat -> merkle_tree_fuel n leaves = merkle_tree_fuel m leaves)).
  - intros x m n. by destruct n, m.
  - intros l Hl IH1 IH2 m n Hn Hm. destruct (split_shorter l Hl) as [H1 H2]. destruct l as [|x [|y l]]; [cbn in Hl; lia..|].
    destruct n as [|n]; [cbn in Hn; lia|]. destruct m as [|m]; [cbn in Hm; lia|]. cbn [merkle_tree_fuel].
    f_equal; [apply IH1|apply IH2]; lia.
Qed.

Lemma merkle_tree_split l : (1 < length l)%nat -> merkle_tree l = Node (merkle_tree (left_leaves l)) (merkle_tree (right_leaves l)).
Proof.
  intros Hl. destruct (split_shorter l Hl) as [H1 H2], (split_nonempty l Hl). unfold merkle_tree at 1.
  destruct (length l) as [|n] eqn:E; [lia|]. destruct l as [|x [|y l]]; [discriminate E|injection E as <-; cbn in Hl; lia|].
  cbn [merkle_tree_fuel]. f_equal; apply merkle_tree_enough; done || lia.
Qed.

Lemma tleaves_merkle l : l <> [] -> tleaves (merkle_tree l) = l.
Proof.
  revert l. apply split_ind; [done|]. intros l Hl IH1 IH2. rewrite merkle_tree_split by done. cbn [tleaves].
  by rewrite IH1, IH2, split_app.
Qed.

Section Hashes.
Context `{hasher : Hasher} (a : Algo).
Implicit Types (t : tree) (d : Digest) (W : list bytes).

Fixpoint thash t : Digest := match t with Leaf d => d | Node l r => ledger_proof_node_hash a (thash l) (thash r) end.

(** The strings hashed in a tree. *)
Fixpoint tstrings t : list bytes := match t with Leaf _ => [] | Node l r => node_string (thash l) (thash r) :: tstrings l ++ tstrings r end.

Lemma merkle_root_tree l : l <> [] -> ledger_merkle_root a l = thash (merkle_tree l).
Proof.
  unfold ledger_merkle_root, merkle_tree.
  assert (forall n l, l <> [] -> (length l <= n)%nat -> merkle_root_fuel a n l = thash (merkle_tree_fuel n l)) as H; [|auto].
  induction n as [|n IH]; intros l' Hne Hn; destruct l' as [|x [|y l']]; try done; [cbn in Hn; lia|].
  cbn [merkle_root_fuel merkle_tree_fuel thash]. set (xs := x :: y :: l') in *.
  assert (1 < length xs)%nat as Hxs by (cbn; lia). destruct (split_shorter xs Hxs), (split_nonempty xs Hxs).
  by rewrite !IH by (done || lia).
Qed.

Lemma merkle_root_split l : (1 < length l)%nat ->
  ledger_merkle_root a l = ledger_proof_node_hash a (ledger_merkle_root a (left_leaves l)) (ledger_merkle_root a (right_leaves l)).
Proof.
  intros Hl. destruct (split_nonempty l Hl). rewrite !merkle_root_tree; [by rewrite merkle_tree_split|done..|].
  intros ->. cbn in Hl. lia.
Qed.

(** ** The hashed strings *)

Definition node_head : bytes := put_head [] 4 3 ++ (put_head [] 3 25 ++ LEDGER_PROOF_NODE_V1) ++ put_head [] 2 32.

Lemma node_string_eq l r : wf_digest l -> wf_digest r -> node_string l r = node_head ++ dbytes l ++ put_head [] 2 32 ++ dbytes r.
Proof.
  unfold wf_digest, DIGEST_LEN. intros Hl Hr. unfold node_string, cbor_encode, node_head. rewrite CodecFacts.encode_Array.
  cbn [try_map encode encode_into digest_value mbind result_bind concat]. unfold len. rewrite Hl, Hr. cbn [length]. 
  rewrite app_nil_r, <-!app_assoc. done.
Qed.

Lemma node_string_inj l r l' r' : wf_digest l -> wf_digest r -> wf_digest l' -> wf_digest r' ->
  node_string l r = node_string l' r' -> dbytes l = dbytes l' /\ dbytes r = dbytes r'.
Proof.
  intros Hl Hr Hl' Hr'. rewrite !node_string_eq by done. intros [E1 E2]%(inj (app node_head))%app_inj_1; [|by rewrite Hl, Hl'].
  split; [done|]. by apply (inj (app (put_head [] 2 32))) in E2.
Qed.

Definition leaf_head (ns collection : bytes) (seq : N) : bytes :=
  put_head [] 4 5 ++ (put_head [] 3 25 ++ LEDGER_PROOF_LEAF_V1) ++ (put_head [] 2 (len ns) ++ ns) ++
  (put_head [] 3 (len collection) ++ collection) ++ put_head [] 0 seq ++ put_head [] 2 32.

Lemma leaf_string_eq ns collection e : wf_digest (se_hash e) ->
  leaf_string ns collection e = leaf_head ns collection (se_seq e) ++ dbytes (se_hash e).
Proof.
  unfold wf_digest, DIGEST_LEN. intros Hh. unfold leaf_string, cbor_encode, leaf_head. rewrite CodecFacts.encode_Array.
  cbn [try_map encode encode_into digest_value mbind result_bind concat]. unfold len. rewrite Hh. cbn [length].
  rewrite app_nil_r, <-!app_assoc. done.
Qed.

Lemma leaf_not_node ns collection e l r :
  wf_digest (se_hash e) -> wf_digest l -> wf_digest r -> leaf_string ns collection e <> node_string l r.
Proof. intros He Hl Hr. rewrite leaf_string_eq, node_string_eq by done. unfold leaf_head, node_head. done. Qed.

Lemma node_hash_wf l r : wf_digest (ledger_proof_node_hash a l r).
Proof. apply raw_hash_len. Qed.

Lemma thash_wf t : Forall wf_digest (tleaves t) -> wf_digest (thash t).
Proof. destruct t as [d|l r]; cbn [tleaves thash]; intros H; [by inversion H|apply node_hash_wf]. Qed.

(** ** No collisions *)

(** No two of the strings have the same hash. *)
Definition no_collision W : Prop := forall x y, x ∈ W -> y ∈ W -> raw_hash a x = raw_hash a y -> x = y.

Lemma node_hash_inj W l r l' r' :
  no_collision W -> node_string l r ∈ W -> node_string l' r' ∈ W -> wf_digest l -> wf_digest r -> wf_digest l' -> wf_digest r' ->
  dbytes (ledger_proof_node_hash a l r) = dbytes (ledger_proof_node_hash a l' r') -> dbytes l = dbytes l' /\ dbytes r = dbytes r'.
Proof. intros HW H1 H2 ???? E. apply node_string_inj; try done. by apply HW. Qed.

(** ** Inclusion *)

Definition from_result {A} (f : A -> list bytes) (r : res A) : list bytes := match r with Ok x => f x | Err _ => [] end.

Lemma inclusion_root_unfold leaf index size rpath : index < size ->
  inclusion_root_rev a leaf index size rpath =
    if size =? 1 then match rpath with [] => Ok leaf | _ => Err InvalidArgument end
    else
      match rpath with
      | [] => Err InvalidArgument
      | last :: rest =>
          let split := largest_power_of_two_less_than size in
          if index <? split then left ← inclusion_root_rev a leaf index split rest; Ok (ledger_proof_node_hash a left last)
          else right ← inclusion_root_rev a leaf (index - split) (size - split) rest; Ok (ledger_proof_node_hash a last right)
      end.
Proof. intros H. destruct rpath; cbn [inclusion_root_rev]; (destruct (N.leb_spec size index); [lia|done]). Qed.

Lemma lookup_split {A} (l : list A) (i : N) : (1 < length l)%nat -> i < len l ->
  l !! N.to_nat i = let k := largest_power_of_two_less_than (len l) in
    if i <? k then left_leaves l !! N.to_nat i else right_leaves l !! N.to_nat (i - k).
Proof.
  intros Hl Hi. cbn zeta. destruct (split_length l Hl) as [H1 H2]. rewrite <-(split_app l) at 1. unfold len in *.
  destruct (N.ltb_spec i (largest_power_of_two_less_than (N.of_nat (length l)))); [apply lookup_app_l; lia|].
  rewrite lookup_app_r by lia. f_equal. lia.
Qed.

(** What the prover builds, the verifier takes back to the root. *)
Lemma inclusion_complete l : l <> [] -> forall n i leaf, (length l <= n)%nat -> i < len l -> l !! N.to_nat i = Some leaf ->
  exists path, inclusion_path_fuel a n l i = Ok path /\ inclusion_root_rev a leaf i (len l) (rev path) = Ok (ledger_merkle_root a l).
Proof.
  revert l. apply (split_ind (fun l => forall n i leaf, (length l <= n)%nat -> i < len l -> l !! N.to_nat i = Some leaf ->
    exists path, inclusion_path_fuel a n l i = Ok path /\ inclusion_root_rev a leaf i (len l) (rev path) = Ok (ledger_merkle_root a l))).
  { intros x n i leaf Hn Hi Hx. unfold len in Hi. cbn [length] in Hi. replace i with 0 in * by lia. injection Hx as <-. exists []. by destruct n. }
  intros l Hl IH1 IH2 n i leaf Hn Hi Hx. destruct n as [|n]; [lia|]. cbn [inclusion_path_fuel].
  destruct (split_shorter l Hl), (split_length l Hl) as [L1 L2]. rewrite lookup_split in Hx by done. cbn zeta in Hx.
  destruct (N.leb_spec (len l) i); [lia|]. destruct (N.eqb_spec (len l) 1); [unfold len in *; lia|].
  destruct (N.ltb_spec i (largest_power_of_two_less_than (len l))) as [Hs|Hs].
  - destruct (IH1 n i leaf) as (path & E1 & E2); [lia|lia|done|]. rewrite E1. eexists. split; [reflexivity|].
    rewrite rev_unit, inclusion_root_unfold by done. destruct (N.eqb_spec (len l) 1); [lia|]. cbn zeta.
    destruct (N.ltb_spec i (largest_power_of_two_less_than (len l))); [|lia]. rewrite <-L1, E2. cbn [mbind result_bind]. by rewrite (merkle_root_split l).
  - destruct (IH2 n (i - largest_power_of_two_less_than (len l)) leaf) as (path & E1 & E2); [lia|lia|done|]. rewrite E1. eexists. split; [reflexivity|].
    rewrite rev_unit, inclusion_root_unfold by done. destruct (N.eqb_spec (len l) 1); [lia|]. cbn zeta.
    destruct (N.ltb_spec i (largest_power_of_two_less_than (len l))); [lia|]. rewrite <-L2, E2. cbn [mbind result_bind]. by rewrite (merkle_root_split l).
Qed.

(** The strings the verifier hashes. *)
Fixpoint inclusion_strings (leaf : Digest) (index size : N) (rpath : list Digest) : list bytes :=
  match rpath with
  | [] => []
  | last :: rest =>
      let split := largest_power_of_two_less_than size in
      if index <? split then
        from_result (fun left => [node_string left last]) (inclusion_root_rev a leaf index split rest) ++ inclusion_strings leaf index split rest
      else
        from_result (fun right => [node_string last right]) (inclusion_root_rev a leaf (index - split) (size - split) rest)
        ++ inclusion_strings leaf (index - split) (size - split) rest
  end.

Lemma inclusion_root_wf leaf index size rpath d :
  wf_digest leaf -> inclusion_root_rev a leaf index size rpath = Ok d -> wf_digest d.
Proof.
  intros Hl. destruct rpath as [|last rest]; cbn [inclusion_root_rev]; destruct (size <=? index); try done; destruct (size =? 1); try done.
  { by intros [= <-]. }
  cbn zeta. destruct (index <? _); intros (x & _ & [= <-])%bind_Ok; apply node_hash_wf.
Qed.

Lemma tstrings_split l W : (1 < length l)%nat -> tstrings (merkle_tree l) ⊆ W ->
  node_string (ledger_merkle_root a (left_leaves l)) (ledger_merkle_root a (right_leaves l)) ∈ W /\
  tstrings (merkle_tree (left_leaves l)) ⊆ W /\ tstrings (merkle_tree (right_leaves l)) ⊆ W.
Proof.
  intros Hl. destruct (split_nonempty l Hl). rewrite merkle_tree_split by done. rewrite !merkle_root_tree by done. cbn [tstrings]. set_solver.
Qed.

Lemma merkle_root_wf l : l <> [] -> Forall wf_digest l -> wf_digest (ledger_merkle_root a l).
Proof. intros Hl H. rewrite merkle_root_tree by done. apply thash_wf. by rewrite tleaves_merkle. Qed.

Lemma inclusion_sound W leaf l : no_collision W -> wf_digest leaf -> l <> [] -> forall i rpath d,
  Forall wf_digest l -> Forall wf_digest rpath ->
  tstrings (merkle_tree l) ⊆ W -> inclusion_strings leaf i (len l) rpath ⊆ W ->
  inclusion_root_rev a leaf i (len l) rpath = Ok d -> dbytes d = dbytes (ledger_merkle_root a l) ->
  exists x, l !! N.to_nat i = Some x /\ dbytes leaf = dbytes x.
Proof.
  intros HW Hleaf. revert l. apply (split_ind (fun l => forall i rpath d,
    Forall wf_digest l -> Forall wf_digest rpath ->
    tstrings (merkle_tree l) ⊆ W -> inclusion_strings leaf i (len l) rpath ⊆ W ->
    inclusion_root_rev a leaf i (len l) rpath = Ok d -> dbytes d = dbytes (ledger_merkle_root a l) ->
    exists x, l !! N.to_nat i = Some x /\ dbytes leaf = dbytes x)).
  { intros x i rpath d _ _ _ _. destruct (N.lt_ge_cases i 1) as [Hi|Hi].
    - rewrite inclusion_root_unfold by exact Hi. replace i with 0 by lia. cbn. destruct rpath; [|done]. intros [= <-] E. by exists x.
    - destruct rpath; cbn [inclusion_root_rev]; change (len [x]) with 1; (destruct (N.leb_spec 1 i); [done|lia]). }
  intros l Hl IH1 IH2 i rpath d Hwf Hp Ht Hs Hd E.
  destruct (N.lt_ge_cases i (len l)) as [Hi|Hi]; [|destruct rpath; cbn [inclusion_root_rev] in Hd; (destruct (N.leb_spec (len l) i); [done|lia])].
  rewrite inclusion_root_unfold in Hd by done. destruct (split_length l Hl) as [L1 L2], (split_nonempty l Hl) as [N1 N2].
  destruct (N.eqb_spec (len l) 1) as [?|_]; [unfold len in *; lia|]. destruct rpath as [|last rest]; [done|].
  cbn [inclusion_strings] in Hs. rewrite lookup_split by done. cbn zeta in *. rewrite <-L1, <-L2 in *.
  destruct (tstrings_split l W Hl Ht) as (T0 & T1 & T2). rewrite (merkle_root_split l Hl) in E.
  pose proof Hwf as [Hw1 Hw2]%(fun H => proj1 (Forall_app wf_digest (left_leaves l) (right_leaves l)) ltac:(by rewrite split_app)).
  apply Forall_cons in Hp as [Hlast Hp]. pose proof (merkle_root_wf _ N1 Hw1). pose proof (merkle_root_wf _ N2 Hw2).
  destruct (N.ltb_spec i (len (left_leaves l))) as [Hk|Hk]; apply bind_Ok in Hd as (x & Hx & [= <-]); rewrite Hx in Hs; cbn [from_result] in Hs;
    pose proof (inclusion_root_wf _ _ _ _ _ Hleaf Hx); (eapply node_hash_inj in E as [E1 E2]; [|done|set_solver|done..]).
  - apply (IH1 i rest x); try done. set_solver.
  - apply (IH2 (i - len (left_leaves l)) rest x); try done. set_solver.
Qed.

(** ** Consistency is sound *)

(** The strings the loop of the verifier hashes. *)
Fixpoint consistency_strings (first_node second_node : N) (first_hash second_hash : Digest) (path : list Digest) : list bytes :=
  match path with
  | [] => []
  | node :: path =>
      if N.odd first_node || (first_node =? second_node) then
        let '(f, s) := strip_zeros first_node second_node in
        node_string node first_hash :: node_string node second_hash ::
        consistency_strings (N.div2 f) (N.div2 s) (ledger_proof_node_hash a node first_hash) (ledger_proof_node_hash a node second_hash) path
      else
        node_string second_hash node ::
        consistency_strings (N.div2 first_node) (N.div2 second_node) first_hash (ledger_proof_node_hash a second_hash node) path
  end.

(** Every leaf of a tree is the hash of a string of [W] that is not that of a node, and so are its nodes. *)
Record sealed W t : Prop := {
  sealed_leaf d : d ∈ tleaves t -> exists s, s ∈ W /\ d = hash a s /\ forall l r, wf_digest l -> wf_digest r -> s <> node_string l r;
  sealed_nodes : tstrings t ⊆ W;
}.

Lemma sealed_wf W t : sealed W t -> Forall wf_digest (tleaves t).
Proof. intros [H _]. apply Forall_forall. intros d (s & _ & -> & _)%H. apply raw_hash_len. Qed.

Lemma sealed_Node W l r : sealed W (Node l r) -> node_string (thash l) (thash r) ∈ W /\ sealed W l /\ sealed W r.
Proof.
  intros [H1 H2]. cbn [tleaves tstrings] in *. split; [set_solver|]. split; split; try set_solver.
Qed.

Abbreviation leaf_bytes t := (map dbytes (tleaves t)).

(** A node is not a leaf. *)
Lemma sealed_node_hash W t l r : no_collision W -> sealed W t -> wf_digest l -> wf_digest r -> node_string l r ∈ W ->
  dbytes (thash t) = dbytes (ledger_proof_node_hash a l r) ->
  exists t1 t2, t = Node t1 t2 /\ sealed W t1 /\ sealed W t2 /\ dbytes (thash t1) = dbytes l /\ dbytes (thash t2) = dbytes r.
Proof.
  intros HW Ht Hl Hr Hin E. destruct t as [d|t1 t2].
  - destruct (sealed_leaf W _ Ht d) as (s & Hs & -> & Hne); [by apply list_elem_of_singleton|].
    destruct (Hne l r Hl Hr). by apply HW.
  - destruct (sealed_Node W t1 t2 Ht) as (Hn & H1 & H2). exists t1, t2. split_and!; try done;
      eapply (node_hash_inj W (thash t1) (thash t2) l r); try done; by apply thash_wf, (sealed_wf W).
Qed.

Lemma thash_inj W t1 t2 : no_collision W -> sealed W t1 -> sealed W t2 ->
  dbytes (thash t1) = dbytes (thash t2) -> leaf_bytes t1 = leaf_bytes t2.
Proof.
  intros HW. revert t2. induction t1 as [d|l1 IHl r1 IHr]; intros t2 H1 H2 E.
  - destruct t2 as [d'|l2 r2]; [by cbn in *; rewrite E|]. destruct (sealed_Node W l2 r2 H2) as (Hn & Hl & Hr).
    apply (sealed_node_hash W (Leaf d)) in E as (? & ? & [=] & _); try done; by apply thash_wf, (sealed_wf W).
  - destruct (sealed_Node W l1 r1 H1) as (Hn & Hl & Hr). symmetry in E.
    apply (sealed_node_hash W t2) in E as (l2 & r2 & -> & Hl2 & Hr2 & El & Er); try done; [|by apply thash_wf, (sealed_wf W)..].
    cbn [tleaves]. rewrite !map_app. by rewrite (IHl l2), (IHr r2).
Qed.

(** Undoing the loop: it started from the hashes of two trees whose order the final trees keep. *)
Lemma consistency_undo W path : no_collision W -> Forall wf_digest path -> forall f s fh sh t1 t2 fd sd,
  wf_digest fh -> wf_digest sh -> sealed W t1 -> sealed W t2 -> consistency_strings f s fh sh path ⊆ W ->
  consistency_loop a f s fh sh path = Ok (fd, sd) -> dbytes fd = dbytes (thash t1) -> dbytes sd = dbytes (thash t2) ->
  exists u1 u2, sealed W u1 /\ sealed W u2 /\ dbytes (thash u1) = dbytes fh /\ dbytes (thash u2) = dbytes sh /\
    (leaf_bytes u1 `prefix_of` leaf_bytes u2 -> leaf_bytes t1 `prefix_of` leaf_bytes t2).
Proof.
  intros HW. induction 1 as [|node path Hn Hp IH]; intros f s fh sh t1 t2 fd sd Hfh Hsh Ht1 Ht2 Hin; cbn [consistency_loop consistency_strings] in *.
  { intros [= <- <-] E1 E2. by exists t1, t2. }
  destruct (s =? 0); [done|]. destruct (N.odd f || (f =? s)).
  - destruct (strip_zeros f s) as [f' s']. intros Hr E1 E2.
    edestruct IH as (u1 & u2 & H1 & H2 & Eu1 & Eu2 & Hpre); [apply node_hash_wf..|exact Ht1|exact Ht2| |exact Hr|done|done|]; [set_solver|].
    apply (sealed_node_hash W) in Eu1 as (x1 & y1 & -> & Hx1 & Hy1 & Ex1 & Ey1); try done; [|set_solver].
    apply (sealed_node_hash W) in Eu2 as (x2 & y2 & -> & Hx2 & Hy2 & Ex2 & Ey2); try done; [|set_solver].
    exists y1, y2. split_and!; try done. intros H. apply Hpre. cbn [tleaves]. rewrite !map_app.
    rewrite (thash_inj W x1 x2) by (done || congruence). by apply prefix_app.
  - intros Hr E1 E2.
    edestruct IH as (u1 & u2 & H1 & H2 & Eu1 & Eu2 & Hpre); [exact Hfh|apply node_hash_wf|exact Ht1|exact Ht2| |exact Hr|done|done|]; [set_solver|].
    apply (sealed_node_hash W) in Eu2 as (x2 & y2 & -> & Hx2 & Hy2 & Ex2 & Ey2); try done; [|set_solver].
    exists u1, x2. split_and!; try done. intros H. apply Hpre. cbn [tleaves]. rewrite map_app. by apply prefix_app_r.
Qed.
End Hashes.

(** ** Consistency is complete *)

Lemma strip_ones_unfold f s : strip_ones f s = if N.odd f then strip_ones (N.div2 f) (N.div2 s) else (f, s).
Proof. by destruct f as [|[p|p|]]. Qed.

Lemma strip_zeros_unfold f s :
  strip_zeros f s = if negb (f =? 0) && negb (N.odd f) then strip_zeros (N.div2 f) (N.div2 s) else (f, s).
Proof. by destruct f as [|[p|p|]]. Qed.

Lemma strip_zeros_odd f s : N.odd f = true -> strip_zeros f s = (f, s).
Proof. intros H. rewrite strip_zeros_unfold, H. by rewrite andb_false_r. Qed.

Lemma strip_zeros_shifted X j : N.odd X = true -> strip_zeros (X * 2 ^ j) (X * 2 ^ j) = (X, X).
Proof.
  intros HX. induction j as [|j IH] using N.peano_ind; [rewrite N.pow_0_r, N.mul_1_r; by apply strip_zeros_odd|].
  assert (0 < X) by (destruct X; [done|lia]). replace (X * 2 ^ N.succ j) with (2 * (X * 2 ^ j)) by (rewrite N.pow_succ_r'; lia).
  rewrite strip_zeros_unfold, N.odd_mul. cbn [N.odd andb negb]. rewrite andb_true_r, N.div2_double.
  destruct (N.eqb_spec (2 * (X * 2 ^ j)) 0) as [E|_]; [|exact IH]. pose proof (N.pow_nonzero 2 j ltac:(lia)). nia.
Qed.

Lemma strip_ones_full k X s : N.odd X = false -> strip_ones (2 ^ k - 1 + 2 ^ k * X) s = (X, s / 2 ^ k).
Proof.
  intros HX. revert s. induction k as [|k IH] using N.peano_ind; intros s.
  { rewrite N.pow_0_r, N.div_1_r. replace (1 - 1 + 1 * X) with X by lia. by rewrite strip_ones_unfold, HX. }
  pose proof (N.pow_nonzero 2 k ltac:(lia)). rewrite N.pow_succ_r'.
  replace (2 * 2 ^ k - 1 + 2 * 2 ^ k * X) with (2 * (2 ^ k - 1 + 2 ^ k * X) + 1) by nia.
  rewrite strip_ones_unfold, N.odd_odd, N.div2_odd', IH. f_equal. rewrite N.div2_div, N.Div0.div_div. done.
Qed.

Lemma strip_ones_zero f s : (strip_ones f s).1 = 0 -> exists k, f + 1 = 2 ^ k.
Proof.
  revert s. induction f as [f IH] using (well_founded_induction N.lt_wf_0). intros s. rewrite strip_ones_unfold.
  destruct (N.odd f) eqn:Ho; cbn [fst]; [|intros ->; by exists 0]. pose proof (N.div2_odd f) as Hf. rewrite Ho in Hf. cbn [N.b2n] in Hf.
  intros H. destruct (IH (N.div2 f)) with (s := N.div2 s) as [k Hk]; [lia|done|]. exists (N.succ k). rewrite N.pow_succ_r'. lia.
Qed.

Section Complete.
Context `{hasher : Hasher} (a : Algo).
Implicit Types (l leaves : list Digest) (m X Y : N).
Abbreviation root := (ledger_merkle_root a).
Abbreviation loop := (consistency_loop a).
Abbreviation takeN m l := (take (N.to_nat m) l).

Lemma subproof_enough l : l <> [] -> forall n m c, 0 < m -> m <= len l -> (length l <= n)%nat -> subproof_fuel a n l m c = subproof a l m c.
Proof.
  intros Hl. enough (forall n1 n2 m c, 0 < m -> m <= len l -> (length l <= n1)%nat -> (length l <= n2)%nat -> subproof_fuel a n1 l m c = subproof_fuel a n2 l m c) as H.
  { intros n m c ???. by apply H. }
  revert l Hl. apply (split_ind (fun l => forall n1 n2 m c, 0 < m -> m <= len l -> (length l <= n1)%nat -> (length l <= n2)%nat -> subproof_fuel a n1 l m c = subproof_fuel a n2 l m c)).
  - intros x n1 n2 m c H1 H2 _ _. unfold len in H2. cbn [length] in H2. replace m with 1 by lia. by destruct n1, n2.
  - intros l Hl IH1 IH2 n1 n2 m c H1 H2 Hn1 Hn2. destruct (split_shorter l Hl), (split_length l Hl) as [L1 L2].
    destruct n1 as [|n1], n2 as [|n2]; [lia..|]. cbn [subproof_fuel]. destruct (N.eqb_spec m (len l)); [done|]. cbn zeta.
    destruct (N.leb_spec m (largest_power_of_two_less_than (len l))); f_equal; [apply IH1|apply IH2]; lia.
Qed.

Lemma subproof_unfold l m c : (1 < length l)%nat -> 0 < m -> m < len l ->
  subproof a l m c = if m <=? largest_power_of_two_less_than (len l)
    then subproof a (left_leaves l) m c ++ [root (right_leaves l)]
    else subproof a (right_leaves l) (m - largest_power_of_two_less_than (len l)) false ++ [root (left_leaves l)].
Proof.
  intros Hl H1 H2. destruct (split_shorter l Hl), (split_length l Hl) as [L1 L2], (split_nonempty l Hl). unfold subproof at 1.
  destruct (length l) as [|n] eqn:E; [lia|]. cbn [subproof_fuel]. destruct (N.eqb_spec m (len l)); [lia|]. cbn zeta.
  destruct (N.leb_spec m (largest_power_of_two_less_than (len l))); f_equal; apply subproof_enough; done || lia.
Qed.

Lemma subproof_whole l c : subproof a l (len l) c = if c then [] else [root l].
Proof. unfold subproof. destruct (length l); cbn [subproof_fuel]; by rewrite N.eqb_refl. Qed.

(** The first leaves, where they reach over the split. *)
Lemma root_take_right l m : (1 < length l)%nat -> let k := largest_power_of_two_less_than (len l) in
  k < m -> m <= len l -> root (takeN m l) = ledger_proof_node_hash a (root (left_leaves l)) (root (takeN (m - k) (right_leaves l))).
Proof.
  intros Hl k Hk Hm. destruct (split_bounds (len l)) as (B1 & B2 & B3); [unfold len; lia|]. fold k in B1, B2, B3.
  assert (len (takeN m l) = m) as Hlen by (unfold len in *; rewrite length_take; lia).
  assert (largest_power_of_two_less_than (len (takeN m l)) = k) as Hs.
  { rewrite Hlen. destruct (split_power (len l)) as (j & Hj & _); [unfold len; lia|]. fold k in Hj. rewrite Hj. apply split_unique; lia. }
  rewrite (merkle_root_split a (takeN m l)) by (unfold len in Hlen; lia). unfold left_leaves at 1, right_leaves at 1. rewrite Hs.
  f_equal; f_equal.
  - unfold left_leaves. fold k. rewrite take_take. f_equal. lia.
  - unfold right_leaves. fold k. rewrite skipn_firstn_comm. f_equal. lia.
Qed.

Lemma take_left l m : m <= largest_power_of_two_less_than (len l) -> takeN m (left_leaves l) = takeN m l.
Proof. intros H. unfold left_leaves. rewrite take_take. f_equal. lia. Qed.

(** What one node of the path does to the loop. *)
Lemma loop_left f s fh sh node rest : s <> 0 -> N.odd f = true -> 
  loop f s fh sh (node :: rest) = loop (N.div2 f) (N.div2 s) (ledger_proof_node_hash a node fh) (ledger_proof_node_hash a node sh) rest.
Proof. intros Hs Hf. cbn [consistency_loop]. apply N.eqb_neq in Hs. rewrite Hs, Hf. cbn [orb]. by rewrite strip_zeros_odd. Qed.

Lemma loop_right f s fh sh node rest : f < s -> N.odd f = false ->
  loop f s fh sh (node :: rest) = loop (N.div2 f) (N.div2 s) fh (ledger_proof_node_hash a sh node) rest.
Proof.
  intros Hs Hf. cbn [consistency_loop]. destruct (N.eqb_spec s 0); [lia|]. rewrite Hf. destruct (N.eqb_spec f s); [lia|done].
Qed.

Lemma loop_tied X j fh sh node rest : N.odd X = true ->
  loop (X * 2 ^ j) (X * 2 ^ j) fh sh (node :: rest)
  = loop (N.div2 X) (N.div2 X) (ledger_proof_node_hash a node fh) (ledger_proof_node_hash a node sh) rest.
Proof.
  intros HX. cbn [consistency_loop]. assert (X <> 0) by (by intros ->). pose proof (N.pow_nonzero 2 j ltac:(lia)).
  destruct (N.eqb_spec (X * 2 ^ j) 0); [nia|]. rewrite N.eqb_refl, orb_true_r, strip_zeros_shifted; done.
Qed.

(** The loop, from the leaves where it starts to the root of [l]: with [first_node] and [second_node] it
    reaches [f] and [s] and the roots of the first [m] leaves and of all. *)
Definition climbs l m (first_node second_node f s : N) : Prop :=
  exists x q, subproof a l m false = x :: q /\ forall rest,
    let '(f0, s0) := strip_ones first_node second_node in
    loop f0 s0 x x (q ++ rest) = loop f s (root (takeN m l)) (root l) rest.

Lemma climbs_left l m fn sn f s : (1 < length l)%nat -> 0 < m -> m <= largest_power_of_two_less_than (len l) ->
  climbs (left_leaves l) m fn sn f s -> f < s -> N.odd f = false -> climbs l m fn sn (N.div2 f) (N.div2 s).
Proof.
  intros Hl H0 Hm (x & q & E & H) Hfs Hf. destruct (split_bounds (len l)) as (_ & B & _); [unfold len; lia|].
  exists x, (q ++ [root (right_leaves l)]). rewrite subproof_unfold by (done || lia).
  destruct (N.leb_spec m (largest_power_of_two_less_than (len l))); [|lia]. rewrite E. split; [done|]. intros rest.
  specialize (H (root (right_leaves l) :: rest)). destruct (strip_ones fn sn) as [f0 s0]. rewrite <-app_assoc. cbn [app]. rewrite H, loop_right by done.
  by rewrite take_left, <-(merkle_root_split a l).
Qed.

Lemma climbs_right l m fn sn f s f' s' : (1 < length l)%nat -> largest_power_of_two_less_than (len l) < m -> m < len l ->
  climbs (right_leaves l) (m - largest_power_of_two_less_than (len l)) fn sn f s ->
  (forall fh sh node rest, loop f s fh sh (node :: rest) = loop f' s' (ledger_proof_node_hash a node fh) (ledger_proof_node_hash a node sh) rest) ->
  climbs l m fn sn f' s'.
Proof.
  intros Hl H0 Hm (x & q & E & H) Hstep. exists x, (q ++ [root (left_leaves l)]). rewrite subproof_unfold by (done || lia).
  destruct (N.leb_spec m (largest_power_of_two_less_than (len l))); [lia|]. rewrite E. split; [done|]. intros rest.
  specialize (H (root (left_leaves l) :: rest)). destruct (strip_ones fn sn) as [f0 s0]. rewrite <-app_assoc. cbn [app]. rewrite H, Hstep.
  rewrite (root_take_right l m) by (done || lia). by rewrite <-(merkle_root_split a l).
Qed.

(** Below a full subtree, whose [second_node] lies further right. *)
Lemma climbs_full k : forall l m X Y fn sn, len l = 2 ^ k -> 0 < m -> m <= 2 ^ k -> X < Y -> m < 2 ^ k \/ N.odd X = false ->
  fn = m - 1 + 2 ^ k * X -> sn / 2 ^ k = Y -> climbs l m fn sn X Y.
Proof.
  induction k as [|k IH] using N.peano_ind; intros l m X Y fn sn Hl H0 Hm HXY Hc Hfn Hsn.
  all: destruct (decide (m = len l)) as [->|Hne]; [|try (rewrite Hl, N.pow_0_r in *; lia)].
  1,2: exists (root l), []; rewrite subproof_whole; split; [done|]; intros rest; subst fn; rewrite Hl, strip_ones_full by (destruct Hc; [lia|done]);
    rewrite Hsn; rewrite take_ge by (unfold len in Hl; lia); done.
  pose proof (N.pow_nonzero 2 k ltac:(lia)). rewrite N.pow_succ_r' in *. set (Y' := sn / 2 ^ k).
  assert (Y' / 2 = Y) as HY by (unfold Y'; rewrite N.Div0.div_div, N.mul_comm; done).
  assert (2 * Y <= Y') as HY' by (rewrite <-HY; apply N.Div0.mul_div_le).
  assert (1 < length l)%nat as Hl1 by (unfold len in Hl; lia).
  assert (largest_power_of_two_less_than (len l) = 2 ^ k) as Hs by (rewrite Hl; apply split_unique; lia).
  destruct (split_length l Hl1) as [L1 L2]. rewrite Hs in L1, L2. destruct (N.le_gt_cases m (2 ^ k)) as [Hk|Hk].
  - replace X with (N.div2 (2 * X)) by apply N.div2_double. rewrite <-HY, <-N.div2_div. apply climbs_left; [done|done|lia| |lia|apply N.odd_even].
    apply IH; [lia|lia|lia|lia|right; apply N.odd_even|nia|done].
  - eapply (climbs_right _ _ _ _ (2 * X + 1) Y'); [done|lia|lia| |].
    + rewrite Hs. apply IH; [lia|lia|lia|lia|left; lia|nia|done].
    + intros fh sh node rest. rewrite loop_left by (lia || apply N.odd_odd). by rewrite N.div2_odd', N.div2_div, HY.
Qed.

(** Along the right edge, where the two nodes stay the same. *)
Lemma climbs_edge l : l <> [] -> forall h m X fn sn, 0 < m -> m < len l -> len l <= 2 ^ h -> fn = m - 1 + 2 ^ h * X -> sn = len l - 1 + 2 ^ h * X ->
  exists j, climbs l m fn sn (X * 2 ^ j) (X * 2 ^ j).
Proof.
  revert l. apply (split_ind (fun l => forall h m X fn sn, 0 < m -> m < len l -> len l <= 2 ^ h -> fn = m - 1 + 2 ^ h * X -> sn = len l - 1 + 2 ^ h * X ->
    exists j, climbs l m fn sn (X * 2 ^ j) (X * 2 ^ j))).
  { intros x h m X fn sn H1 H2. unfold len in H2. cbn [length] in H2. lia. }
  intros l Hl _ IH h m X fn sn H0 Hm Hh Hfn Hsn. destruct (split_length l Hl) as [L1 L2].
  destruct (split_bounds (len l)) as (B1 & B2 & B3); [unfold len; lia|]. destruct (split_power (len l)) as (K & HK & _); [unfold len; lia|].
  rewrite HK in *. assert (K < h) as HKh by (apply (N.pow_lt_mono_r_iff 2); lia).
  assert (exists i, h = K + 1 + i) as [i ->] by (exists (h - K - 1); lia). rewrite !N.pow_add_r, N.pow_1_r in *.
  exists i. set (Z := X * 2 ^ i). destruct (N.le_gt_cases m (2 ^ K)) as [Hk|Hk].
  - replace Z with (N.div2 (2 * Z)) at 1 by apply N.div2_double. replace Z with (N.div2 (2 * Z + 1)) at 2 by apply N.div2_odd'.
    apply climbs_left; [done|done|lia| |lia|apply N.odd_even].
    apply (climbs_full K); [lia|lia|lia|lia|right; apply N.odd_even|unfold Z; nia|].
    rewrite Hsn. replace (len l - 1 + 2 ^ K * 2 * 2 ^ i * X) with ((len l - 1 - 2 ^ K) + (2 * Z + 1) * 2 ^ K) by (unfold Z; nia).
    rewrite N.div_add by lia. rewrite N.div_small by lia. lia.
  - destruct (IH K (m - 2 ^ K) (2 * Z + 1) fn sn) as [j Hj]; [lia|lia|lia|unfold Z; nia|unfold Z; nia|].
    eapply (climbs_right l m fn sn _ _ Z Z); [done|lia|lia|rewrite HK; exact Hj|].
    intros fh sh node rest. rewrite loop_tied by apply N.odd_odd. by rewrite N.div2_odd'.
Qed.

(** The proof names the node it starts from, unless that is the first tree itself. *)
Lemma subproof_power l k : l <> [] -> 2 ^ k <= len l -> subproof a l (2 ^ k) false = root (takeN (2 ^ k) l) :: subproof a l (2 ^ k) true.
Proof.
  intros Hl. revert l Hl. apply (split_ind (fun l => 2 ^ k <= len l -> subproof a l (2 ^ k) false = root (takeN (2 ^ k) l) :: subproof a l (2 ^ k) true));
    [|intros l Hl IH _]; pose proof (N.pow_nonzero 2 k ltac:(lia)).
  { intros x Hx. unfold len in Hx. cbn [length] in Hx. by replace (2 ^ k) with (len [x]) by (unfold len; cbn [length]; lia). }
  intros Hk. destruct (N.eq_dec (2 ^ k) (len l)) as [E|Hne].
  { rewrite E, !subproof_whole, take_ge by (unfold len; lia). done. }
  destruct (split_length l Hl) as [L1 _]. destruct (split_power (len l)) as (K & HK & HK2); [unfold len; lia|].
  assert (k <= K) by (apply N.lt_succ_r, (N.pow_lt_mono_r_iff 2); lia). assert (2 ^ k <= 2 ^ K) by (by apply N.pow_le_mono_r).
  rewrite (subproof_unfold l (2 ^ k) false), (subproof_unfold l (2 ^ k) true) by (done || lia). rewrite HK. destruct (N.leb_spec (2 ^ k) (2 ^ K)); [|lia].
  rewrite IH by lia. rewrite take_left by lia. done.
Qed.

Lemma subproof_no_power l m : l <> [] -> 0 < m -> m < len l -> (forall k, m <> 2 ^ k) -> subproof a l m false = subproof a l m true.
Proof.
  intros Hl H0 Hm Hp. revert l Hl Hm. apply (split_ind (fun l => m < len l -> subproof a l m false = subproof a l m true)).
  { intros x Hx. unfold len in Hx. cbn [length] in Hx. lia. }
  intros l Hl IH _ Hm. destruct (split_length l Hl) as [L1 _]. destruct (split_power (len l)) as (K & HK & _); [unfold len; lia|].
  rewrite (subproof_unfold l m false), (subproof_unfold l m true) by done. destruct (N.leb_spec m (largest_power_of_two_less_than (len l))); [|done].
  rewrite IH; [done|]. specialize (Hp K). lia.
Qed.

(** The loop accepts what the prover builds. *)
Lemma consistency_complete l m : 0 < m -> m < len l -> let '(f0, s0) := strip_ones (m - 1) (len l - 1) in
  if f0 =? 0 then subproof a l m true <> [] /\ loop f0 s0 (root (takeN m l)) (root (takeN m l)) (subproof a l m true) = Ok (root (takeN m l), root l)
  else exists x q, subproof a l m true = x :: q /\ loop f0 s0 x x q = Ok (root (takeN m l), root l).
Proof.
  intros H0 Hm. assert (l <> []) as Hl by (intros ->; unfold len in Hm; cbn [length] in Hm; lia). pose proof (N.size_gt (len l)) as Hh.
  destruct (climbs_edge l Hl (N.size (len l)) m 0 (m - 1) (len l - 1)) as [j (x & q & E & H)]; [lia..|].
  specialize (H []). rewrite app_nil_r in H. destruct (strip_ones (m - 1) (len l - 1)) as [f0 s0] eqn:Es.
  destruct (N.eqb_spec f0 0) as [Hf|Hf].
  - destruct (strip_ones_zero (m - 1) (len l - 1)) as [k Hk]; [by rewrite Es|]. replace (m - 1 + 1) with m in Hk by lia. subst m.
    rewrite subproof_power in E by (done || lia). injection E as <- <-. split; [|exact H].
    assert (1 < length l)%nat by (unfold len in Hm; lia). rewrite subproof_unfold by done. destruct (_ <=? _); intros ?%app_eq_nil; naive_solver.
  - exists x, q. split; [|exact H]. rewrite <-subproof_no_power; try done. intros k ->. apply Hf.
    replace (2 ^ k - 1) with (2 ^ k - 1 + 2 ^ k * 0) in Es by lia. rewrite strip_ones_full in Es by done. by injection Es as <- _.
Qed.
End Complete.
End LedgerMerkle.
