(* ===== verification/LedgerClaims.v ===== *)
(** * What ledgers promise

    Two ledgers with the same head hold the same payloads; inclusion and consistency proofs are accepted
    where they are true and, where the strings that occur do not collide, only there. *)

From S2P Require Import Prelude Codec Types Store Cbor Ledger LedgerMerkle.

Module LedgerClaims.
Import Error Codec Digest Cbor Store Ledger LedgerProof LedgerMerkle.

Section Chain.
Context `{hasher : Hasher} (a : Algo).
Implicit Types (prev p : bytes) (ps : list bytes) (W : list bytes) (l : Ledger).

(** The strings hashed along a chain, its hashes and the last of them. *)
Fixpoint chain_strings prev ps : list bytes :=
  match ps with [] => [] | p :: ps => (prev ++ p) :: chain_strings (dbytes (chain a prev p)) ps end.

Fixpoint chain_from prev ps : list bytes :=
  match ps with [] => [] | p :: ps => let h := dbytes (chain a prev p) in h :: chain_from h ps end.

Definition chain_end prev ps : bytes := foldl (fun h p => dbytes (chain a h p)) prev ps.

Lemma chain_from_snoc prev ps p : chain_from prev (ps ++ [p]) = chain_from prev ps ++ [dbytes (chain a (chain_end prev ps) p)].
Proof. revert prev. induction ps as [|q ps IH]; intros prev; cbn [app chain_from]; [done|]. by rewrite IH. Qed.

Lemma chain_strings_snoc prev ps p : chain_strings prev (ps ++ [p]) = chain_strings prev ps ++ [chain_end prev ps ++ p].
Proof. revert prev. induction ps as [|q ps IH]; intros prev; cbn [app chain_strings]; [done|]. by rewrite IH. Qed.

Lemma chain_end_snoc prev ps p : chain_end prev (ps ++ [p]) = dbytes (chain a (chain_end prev ps) p).
Proof. unfold chain_end. by rewrite foldl_app. Qed.

Lemma chain_end_last prev ps : chain_end prev ps = default prev (last (chain_from prev ps)).
Proof. destruct ps as [|p ps _] using rev_ind; [done|]. by rewrite chain_end_snoc, chain_from_snoc, last_snoc. Qed.

Lemma chain_end_len prev ps : length prev = DIGEST_LEN -> length (chain_end prev ps) = DIGEST_LEN.
Proof. intros H. destruct ps as [|p ps _] using rev_ind; [done|]. rewrite chain_end_snoc. apply raw_hash_len. Qed.

Lemma chain_from_length prev ps : length (chain_from prev ps) = length ps.
Proof. revert prev. induction ps as [|p ps IH]; intros prev; cbn [chain_from length]; [done|]. by rewrite IH. Qed.

(** ** A chain is determined by its hashes, and by its last hash *)

Lemma chain_prefix W ps1 ps2 prev :
  no_collision a W -> chain_strings prev ps1 ⊆ W -> chain_strings prev ps2 ⊆ W ->
  chain_from prev ps1 `prefix_of` chain_from prev ps2 -> ps1 `prefix_of` ps2.
Proof.
  intros HW. revert ps2 prev. induction ps1 as [|p1 ps1 IH]; intros ps2 prev H1 H2 Hp; [apply prefix_nil|].
  destruct ps2 as [|p2 ps2]; [by apply prefix_nil_not in Hp|]. cbn [chain_from chain_strings] in *.
  assert (prev ++ p1 = prev ++ p2) as E by (apply HW; [set_solver|set_solver|by apply prefix_cons_inv_1 in Hp]).
  apply (inj (app prev)) in E as ->. apply prefix_cons_inv_2 in Hp. apply prefix_cons. eapply IH; [| |exact Hp]; set_solver.
Qed.

Lemma chain_end_inj W ps1 ps2 :
  no_collision a W -> (forall s, s ∈ W -> raw_hash a s <> GENESIS) -> chain_strings GENESIS ps1 ⊆ W -> chain_strings GENESIS ps2 ⊆ W ->
  chain_end GENESIS ps1 = chain_end GENESIS ps2 -> ps1 = ps2.
Proof.
  intros HW HG. revert ps2. induction ps1 as [|p1 ps1 IH] using rev_ind; intros ps2; destruct ps2 as [|p2 ps2 _] using rev_ind; try done;
    rewrite ?chain_strings_snoc, ?chain_end_snoc; intros H1 H2 E.
  - symmetry in E. apply HG in E; [done|set_solver].
  - apply HG in E; [done|set_solver].
  - assert (chain_end GENESIS ps1 ++ p1 = chain_end GENESIS ps2 ++ p2) as [E1 ->]%app_inj_1 by (apply HW; [set_solver|set_solver|exact E]);
      [|by rewrite !chain_end_len]. f_equal. apply IH; [set_solver|set_solver|done].
Qed.

(** ** Segments and ledgers *)

Lemma build_entries_hashes seq prev ps : map (fun e => dbytes (se_hash e)) (build_entries a seq prev ps) = chain_from prev ps.
Proof. revert seq prev. induction ps as [|p ps IH]; intros seq prev; cbn [build_entries map chain_from]; [done|]. by rewrite IH. Qed.

Lemma build_entries_wf seq prev ps : Forall (fun e => wf_digest (se_hash e)) (build_entries a seq prev ps).
Proof. revert seq prev. induction ps as [|p ps IH]; intros seq prev; cbn [build_entries]; constructor; [apply raw_hash_len|apply IH]. Qed.

Lemma build_entries_payloads seq prev ps : map se_payload (build_entries a seq prev ps) = ps.
Proof. revert seq prev. induction ps as [|p ps IH]; intros seq prev; cbn [build_entries map]; [done|]. by rewrite IH. Qed.

(** Every payload has its hash. *)
Definition wf_ledger l : Prop := length (hashes l) = length (payloads l).

Lemma verify_from_Ok prev ps hs : length hs = length ps -> verify_from a prev ps hs = Ok () <-> map dbytes hs = chain_from prev ps.
Proof.
  revert prev hs. induction ps as [|p ps IH]; intros prev [|h hs] Hl; try done. injection Hl as Hl. cbn [verify_from map chain_from].
  case_bool_decide as E; [|by split; [|intros [= ??]]]. rewrite IH by done. rewrite E. split; [by intros ->|by intros [=]].
Qed.
End Chain.

Section Claims.
Context `{hasher : Hasher}.
Implicit Types (l : Ledger) (a : Algo) (W ps : list bytes).

Lemma verify_Ok l : wf_ledger l -> verify l = Ok () <-> map dbytes (hashes l) = chain_from (l_algo l) GENESIS (payloads l).
Proof. apply verify_from_Ok. Qed.

Lemma head_bytes_end l : map dbytes (hashes l) = chain_from (l_algo l) GENESIS (payloads l) -> head_bytes l = chain_end (l_algo l) GENESIS (payloads l).
Proof. intros H. rewrite chain_end_last, <-H. unfold head_bytes. rewrite (fmap_last dbytes). by destruct (last (hashes l)). Qed.

(** C24: The head of a ledger attests to all of it: two ledgers that verify under the same algorithm and
    have the same head hold the same payloads and the same hashes, provided no two of the strings hashed
    along the two chains have the same hash and none hashes to the seed of the chain. *)
Theorem head_attests l1 l2 :
  wf_ledger l1 -> wf_ledger l2 -> l_algo l1 = l_algo l2 ->
  no_collision (l_algo l1) (chain_strings (l_algo l1) GENESIS (payloads l1) ++ chain_strings (l_algo l1) GENESIS (payloads l2)) ->
  (forall s, s ∈ chain_strings (l_algo l1) GENESIS (payloads l1) ++ chain_strings (l_algo l1) GENESIS (payloads l2) -> raw_hash (l_algo l1) s <> GENESIS) ->
  verify l1 = Ok () -> verify l2 = Ok () -> head_bytes l1 = head_bytes l2 ->
  payloads l1 = payloads l2 /\ map dbytes (hashes l1) = map dbytes (hashes l2).
Proof.
  intros W1 W2 Ha HW HG V1%verify_Ok V2%verify_Ok E; [|done..]. rewrite !head_bytes_end in E by done. rewrite <-Ha in *.
  assert (payloads l1 = payloads l2) as Ep by (eapply chain_end_inj; [exact HW|exact HG|set_solver|set_solver|exact E]).
  split; [done|]. by rewrite V1, V2, Ep.
Qed.

(** ** Trees over entries *)

Abbreviation leaves_of a ns collection es := (map (ledger_proof_leaf_hash a ns collection) es).
Implicit Types (ns collection : bytes) (es : list LedgerSegmentEntry) (e : LedgerSegmentEntry).

Definition wf_entry e : Prop := wf_digest (se_hash e).

(** The strings hashed for the tree of some entries. *)
Definition tree_strings a ns collection es : list bytes :=
  map (leaf_string ns collection) es ++ tstrings a (merkle_tree (leaves_of a ns collection es)).

(** The strings the verifier of consistency hashes. *)
Definition proof_strings (p : LedgerConsistencyProof) : list bytes :=
  match kp_path p with
  | [] => []
  | node :: rest =>
      let '(first_node, second_node) := strip_ones (first_tree_size p - 1) (second_tree_size p - 1) in
      let '(start, path) := if first_node =? 0 then (first_root_hash p, kp_path p) else (node, rest) in
      consistency_strings (kp_algo p) first_node second_node start start path
  end.

Lemma leaves_wf a ns collection es : Forall wf_digest (leaves_of a ns collection es).
Proof. apply Forall_forall. intros d (e & -> & _)%list_elem_of_fmap. apply raw_hash_len. Qed.

Lemma leaves_sealed a ns collection es W : es <> [] -> Forall wf_entry es -> tree_strings a ns collection es ⊆ W ->
  sealed a W (merkle_tree (leaves_of a ns collection es)).
Proof.
  intros Hne Hes HW. unfold tree_strings in HW. split; [|set_solver]. rewrite tleaves_merkle by (by destruct es).
  intros d (e & -> & He)%list_elem_of_fmap. exists (leaf_string ns collection e). split_and!; [|done|].
  - apply HW, elem_of_app. left. by apply list_elem_of_fmap_2.
  - intros l r Hl Hr. apply leaf_not_node; try done. rewrite Forall_forall in Hes. by apply Hes.
Qed.

Lemma leaf_hash_inj a ns collection W e1 e2 :
  no_collision a W -> leaf_string ns collection e1 ∈ W -> leaf_string ns collection e2 ∈ W -> wf_entry e1 -> wf_entry e2 ->
  dbytes (ledger_proof_leaf_hash a ns collection e1) = dbytes (ledger_proof_leaf_hash a ns collection e2) -> dbytes (se_hash e1) = dbytes (se_hash e2).
Proof.
  intros HW H1 H2 He1 He2 E. apply HW in E; [|done..]. rewrite !leaf_string_eq in E by done. apply app_inj_2 in E as [_ E]; [done|].
  unfold wf_entry, wf_digest in *. congruence.
Qed.

(** C15: Inclusion proofs are complete and sound. The proof built for an entry of a ledger is accepted against
    the root of its tree. A proof accepted against that root, at the size of the tree, for the leaf of some
    entry shows that the ledger has an entry with that chain hash at the number the proof names, provided no
    two of the strings hashed for the tree, the leaf and the proof have the same hash. *)
Theorem inclusion_proofs a ns collection es :
  es <> [] -> Forall wf_entry es ->
  let leaves := leaves_of a ns collection es in
  let root := ledger_merkle_root a leaves in
  (forall seq e, es !! N.to_nat seq = Some e -> exists path, ledger_merkle_inclusion_path a leaves seq = Ok path /\
     ledger_verify_inclusion_proof (mkInclusionProof (mkProofTree a ns collection (len es) root) seq (ledger_proof_leaf_hash a ns collection e) path) = Ok ()) /\
  (forall d seq e' path, dbytes d = dbytes root -> Forall wf_digest path -> wf_entry e' ->
     let leaf := ledger_proof_leaf_hash a ns collection e' in
     no_collision a (leaf_string ns collection e' :: tree_strings a ns collection es ++ inclusion_strings a leaf seq (len es) (rev path)) ->
     ledger_verify_inclusion_proof (mkInclusionProof (mkProofTree a ns collection (len es) d) seq leaf path) = Ok () ->
     exists e, es !! N.to_nat seq = Some e /\ dbytes (se_hash e') = dbytes (se_hash e)).
Proof.
  intros Hne Hes leaves root. assert (len leaves = len es) as Hlen by (unfold len, leaves; by rewrite length_map).
  assert (leaves <> []) as Hl by (by destruct es). unfold ledger_verify_inclusion_proof, ledger_merkle_inclusion_root; cbn [ip_tree ip_leaf_hash ip_seq ip_path tree_size pt_algo root_hash].
  assert (len es <> 0) as H0 by (destruct es; [done|unfold len; cbn [length]; lia]). apply N.eqb_neq in H0. rewrite H0. split.
  - intros seq e He. pose proof (lookup_lt_Some _ _ _ He) as Hlt.
    destruct (inclusion_complete a leaves Hl (length leaves) seq (ledger_proof_leaf_hash a ns collection e)) as (path & E1 & E2);
      [done|unfold len; unfold leaves; rewrite length_map; lia|unfold leaves; by rewrite (list_lookup_fmap (ledger_proof_leaf_hash a ns collection)), He|].
    exists path. split; [done|]. rewrite Hlen in E2. rewrite E2. cbn [mbind result_bind]. by rewrite bool_decide_eq_true_2.
  - intros d seq e' path Hd Hp He' HW (r & Hr & E)%bind_Ok. case_bool_decide as Er; [|done]. clear E. unfold tree_strings in HW. rewrite <-Hlen in *.
    edestruct (inclusion_sound a _ (ledger_proof_leaf_hash a ns collection e') leaves HW) as (x & Hx & Ex); [apply raw_hash_len|done|apply leaves_wf|apply Forall_rev, Hp| | |exact Hr|by rewrite Er, Hd|];
      [fold leaves; set_solver|set_solver|].
    unfold leaves in Hx. rewrite (list_lookup_fmap (ledger_proof_leaf_hash a ns collection)) in Hx. destruct (es !! N.to_nat seq) as [e|] eqn:He; [|done]. injection Hx as <-. exists e. split; [done|].
    apply (leaf_hash_inj a ns collection _ e' e HW); [set_solver| |done| |exact Ex].
    + apply elem_of_cons. right. apply elem_of_app. left. apply elem_of_app. left. apply list_elem_of_fmap_2. by eapply list_elem_of_lookup_2.
    + rewrite Forall_forall in Hes. apply Hes. by eapply list_elem_of_lookup_2.
Qed.

Abbreviation takeN m l := (take (N.to_nat m) l).

(** C21: Consistency proofs are complete: for any two sizes of a tree, the first not empty and not larger than
    the second, the path the prover builds is accepted between the roots at those sizes. *)
Theorem consistency_accepted a ns collection leaves m n :
  0 < m -> m <= n -> n <= len leaves ->
  exists path, ledger_merkle_consistency_path a (takeN n leaves) m = Ok path /\
    ledger_verify_consistency_proof
      (mkConsistencyProof a ns collection m n (ledger_merkle_root a (takeN m leaves)) (ledger_merkle_root a (takeN n leaves)) path) = Ok ().
Proof.
  intros H0 Hmn Hn. set (l := takeN n leaves). assert (len l = n) as Hl by (unfold l, len in *; rewrite length_take; lia).
  assert (takeN m leaves = takeN m l) as -> by (unfold l; rewrite take_take; f_equal; lia).
  unfold ledger_merkle_consistency_path, ledger_verify_consistency_proof. cbn [first_tree_size second_tree_size first_root_hash second_root_hash kp_path kp_algo].
  rewrite Hl. destruct (N.eqb_spec m 0); [lia|]. destruct (N.ltb_spec n m); [lia|]. destruct (N.eqb_spec n 0); [lia|]. cbn [orb].
  destruct (N.eqb_spec m n) as [->|Hne].
  { exists []. split; [done|]. rewrite take_ge by (unfold len in Hl; lia). by rewrite !bool_decide_eq_false_2 by auto. }
  pose proof (consistency_complete a l m H0 ltac:(lia)) as HC. rewrite Hl in HC. exists (subproof a l m true). split; [done|].
  destruct (strip_ones (m - 1) (n - 1)) as [f0 s0]. destruct (f0 =? 0).
  - destruct HC as [Hp HC]. destruct (subproof a l m true) as [|x q]; [done|]. rewrite HC. cbn [mbind result_bind]. by rewrite !bool_decide_eq_false_2 by auto.
  - destruct HC as (x & q & -> & HC). rewrite HC. cbn [mbind result_bind]. by rewrite !bool_decide_eq_false_2 by auto.
Qed.

Lemma leaves_prefix a ns collection W es1 es2 :
  no_collision a W -> Forall wf_entry es1 -> Forall wf_entry es2 ->
  map (leaf_string ns collection) es1 ⊆ W -> map (leaf_string ns collection) es2 ⊆ W ->
  map dbytes (leaves_of a ns collection es1) `prefix_of` map dbytes (leaves_of a ns collection es2) ->
  map (fun e => dbytes (se_hash e)) es1 `prefix_of` map (fun e => dbytes (se_hash e)) es2.
Proof.
  intros HW H1. revert es2. induction H1 as [|e1 es1 He1 H1 IH]; intros es2 H2 S1 S2 Hp; [apply prefix_nil|].
  destruct H2 as [|e2 es2 He2 H2]; [by apply prefix_nil_not in Hp|]. cbn [map] in *.
  rewrite (leaf_hash_inj a ns collection W e1 e2); try done; [|set_solver|set_solver|by apply prefix_cons_inv_1 in Hp].
  apply prefix_cons, IH; [done|set_solver|set_solver|by apply prefix_cons_inv_2 in Hp].
Qed.

Lemma verify_consistency_prefix p W t1 t2 :
  no_collision (kp_algo p) W -> Forall wf_digest (kp_path p) -> proof_strings p ⊆ W -> sealed (kp_algo p) W t1 -> sealed (kp_algo p) W t2 ->
  wf_digest (first_root_hash p) ->
  dbytes (first_root_hash p) = dbytes (thash (kp_algo p) t1) -> dbytes (second_root_hash p) = dbytes (thash (kp_algo p) t2) ->
  ledger_verify_consistency_proof p = Ok () -> map dbytes (tleaves t1) `prefix_of` map dbytes (tleaves t2).
Proof.
  intros HW Hp Hs H1 H2 Hr E1 E2. unfold ledger_verify_consistency_proof, proof_strings in *.
  destruct (_ || _ || _); [done|]. destruct (_ =? _).
  { destruct (bool_decide (kp_path p <> [])); [done|]. cbn [orb]. case_bool_decide as E; [done|]. intros _.
    rewrite (thash_inj (kp_algo p) W t1 t2); [done|done..|congruence]. }
  destruct (kp_path p) as [|node rest] eqn:Ep; [done|]. apply Forall_cons in Hp as [Hn Hp].
  destruct (strip_ones _ _) as [f0 s0].
  destruct (if f0 =? 0 then (first_root_hash p, node :: rest) else (node, rest)) as [start path] eqn:Est.
  assert (wf_digest start /\ Forall wf_digest path) as [Hst Hpath] by (destruct (f0 =? 0); injection Est as <- <-; [by split; [|constructor]|done]).
  intros ([fd sd] & Hl & E)%bind_Ok. case_bool_decide as F1; [done|]. case_bool_decide as F2; [done|].
  edestruct (consistency_undo (kp_algo p) W path HW Hpath) as (u1 & u2 & U1 & U2 & V1 & V2 & Hpre);
    [exact Hst|exact Hst|exact H1|exact H2|exact Hs|exact Hl|congruence|congruence|].
  apply Hpre. rewrite (thash_inj (kp_algo p) W u1 u2); [done|done..|congruence].
Qed.

(** C11: Consistency proofs are sound: where a proof is accepted between the roots of the trees of two ledgers
    of one collection, the payloads of the first are a prefix of those of the second, whatever sizes the proof
    claims, provided no two of the strings hashed along the chains, for the trees and for the proof have the
    same hash. *)
Theorem consistency_extends p ns collection ps1 ps2 :
  let a := kp_algo p in
  let es1 := build_entries a 0 GENESIS ps1 in
  let es2 := build_entries a 0 GENESIS ps2 in
  ps1 <> [] -> ps2 <> [] -> Forall wf_digest (kp_path p) ->
  dbytes (first_root_hash p) = dbytes (ledger_merkle_root a (leaves_of a ns collection es1)) ->
  dbytes (second_root_hash p) = dbytes (ledger_merkle_root a (leaves_of a ns collection es2)) ->
  no_collision a (chain_strings a GENESIS ps1 ++ chain_strings a GENESIS ps2 ++
    tree_strings a ns collection es1 ++ tree_strings a ns collection es2 ++ proof_strings p) ->
  ledger_verify_consistency_proof p = Ok () -> ps1 `prefix_of` ps2.
Proof.
  intros a es1 es2 N1 N2 Hp E1 E2 HW Hv. set (W := chain_strings a GENESIS ps1 ++ _) in HW.
  assert (es1 <> []) as M1 by (by destruct ps1). assert (es2 <> []) as M2 by (by destruct ps2).
  assert (Forall wf_entry es1) as F1 by apply build_entries_wf. assert (Forall wf_entry es2) as F2 by apply build_entries_wf.
  assert (leaves_of a ns collection es1 <> []) as L1 by (by destruct es1). assert (leaves_of a ns collection es2 <> []) as L2 by (by destruct es2).
  assert (wf_digest (first_root_hash p)) as Hr by (unfold wf_digest; rewrite E1; apply merkle_root_wf; [done|apply leaves_wf]).
  assert (sealed a W (merkle_tree (leaves_of a ns collection es1))) as S1 by (apply leaves_sealed; [done|done|set_solver]).
  assert (sealed a W (merkle_tree (leaves_of a ns collection es2))) as S2 by (apply leaves_sealed; [done|done|set_solver]).
  rewrite merkle_root_tree in E1, E2 by done. assert (proof_strings p ⊆ W) as HP by set_solver.
  pose proof (verify_consistency_prefix p W _ _ HW Hp HP S1 S2 Hr E1 E2 Hv) as Hpre. rewrite !tleaves_merkle in Hpre by done.
  apply (chain_prefix a W ps1 ps2 GENESIS HW); [set_solver|set_solver|].
  rewrite <-(build_entries_hashes a 0 _ ps1), <-(build_entries_hashes a 0 _ ps2).
  unfold tree_strings in W. apply (leaves_prefix a ns collection W es1 es2 HW F1 F2); [set_solver|set_solver|exact Hpre].
Qed.

(** C37: The size a proof claims for its second tree is not checked: the proof between the first two leaves of a
    tree of four and that tree is accepted with any claimed size from three up. *)
Theorem consistency_size_unchecked a ns collection leaves n :
  len leaves = 4 -> 3 <= n ->
  ledger_verify_consistency_proof (mkConsistencyProof a ns collection 2 n (ledger_merkle_root a (take 2 leaves)) (ledger_merkle_root a leaves)
    [ledger_merkle_root a (drop 2 leaves)]) = Ok ().
Proof.
  intros Hl Hn. unfold ledger_verify_consistency_proof. cbn [first_tree_size second_tree_size first_root_hash second_root_hash kp_path kp_algo].
  destruct (N.eqb_spec 2 0); [lia|]. destruct (N.ltb_spec n 2); [lia|]. destruct (N.eqb_spec n 0); [lia|]. destruct (N.eqb_spec 2 n); [lia|]. cbn [orb].
  change (strip_ones (2 - 1) (n - 1)) with (0, N.div2 (n - 1)). destruct (N.div2 (n - 1)) as [|q] eqn:E.
  { rewrite N.div2_div in E. apply N.div_small_iff in E; lia. }
  set (r := ledger_merkle_root a (take 2 leaves)). set (x := ledger_merkle_root a (drop 2 leaves)).
  rewrite N.eqb_refl. cbv iota beta. change (consistency_loop a 0 (N.pos q) r r [x]) with (Ok (E := Code) (r, ledger_proof_node_hash a r x)).
  cbn [mbind result_bind].
  rewrite bool_decide_eq_false_2 by auto. rewrite bool_decide_eq_false_2; [done|]. intros Hx. apply Hx.
  rewrite (merkle_root_split a leaves) by (unfold len in Hl; lia). unfold left_leaves, right_leaves. by rewrite Hl.
Qed.
End Claims.

(** ** Examples *)

#[local] Existing Instance toy_hasher.

(** Deciding that no two strings of a list collide. *)
Definition distinct (W : list bytes) : bool :=
  let H := map (fun x => (toy_hash x, x)) W in
  forallb (fun x => forallb (fun y => negb (bool_decide (x.1 = y.1)) || bool_decide (x.2 = y.2)) H) H.

Lemma distinct_no_collision a W : distinct W = true -> no_collision a W.
Proof.
  unfold distinct. cbn zeta. rewrite forallb_forall. intros H x y Hx%list_elem_of_In Hy%list_elem_of_In E.
  specialize (H _ (in_map (fun x => (toy_hash x, x)) _ _ Hx)). rewrite forallb_forall in H. specialize (H _ (in_map (fun x => (toy_hash x, x)) _ _ Hy)).
  cbn [fst snd] in H. apply orb_true_iff in H as [H|H]; [|by apply bool_decide_eq_true_1 in H].
  apply negb_true_iff, bool_decide_eq_false_1 in H. by destruct H.
Qed.

Definition demo_ledger : Ledger := Eval vm_compute in foldl (fun l p => (append l p).1) (with_algo Blake3) [str "open"; str "pay"].
Definition demo_reloaded : Ledger := Eval vm_compute in match ledger_decode Blake3 (ledger_encode demo_ledger) with Ok l => l | Err _ => with_algo Blake3 end.

Lemma head_attests_witness : payloads demo_ledger = payloads demo_reloaded /\ map dbytes (hashes demo_ledger) = map dbytes (hashes demo_reloaded).
Proof.
  apply (head_attests demo_ledger demo_reloaded).
  - vm_compute. reflexivity.
  - vm_compute. reflexivity.
  - vm_compute. reflexivity.
  - apply distinct_no_collision. vm_compute. reflexivity.
  - assert (forallb (fun s => negb (bool_decide (toy_hash s = GENESIS)))
      (chain_strings Blake3 GENESIS (payloads demo_ledger) ++ chain_strings Blake3 GENESIS (payloads demo_reloaded)) = true) as H by (vm_compute; reflexivity).
    intros s Hs%list_elem_of_In. rewrite forallb_forall in H. specialize (H s Hs). by apply negb_true_iff, bool_decide_eq_false_1 in H.
  - vm_compute. reflexivity.
  - vm_compute. reflexivity.
  - vm_compute. reflexivity.
Defined.

Definition demo_ns : bytes := repeat x01 16.
Definition demo_collection : bytes := str "audit".
Definition demo_payloads : list bytes := [str "open"; str "pay"; str "refund"; str "close"].
Definition demo_entries : list LedgerSegmentEntry := Eval vm_compute in build_entries Blake3 0 GENESIS demo_payloads.
Definition demo_leaves : list Digest := Eval vm_compute in map (ledger_proof_leaf_hash Blake3 demo_ns demo_collection) demo_entries.
Definition demo_path : list Digest := Eval vm_compute in match ledger_merkle_inclusion_path Blake3 demo_leaves 2 with Ok p => p | Err _ => [] end.
Definition demo_entry : LedgerSegmentEntry := Eval vm_compute in List.nth 2 demo_entries (mkSegmentEntry 0 [] (mkDigest Blake3 []) (mkDigest Blake3 [])).
Definition demo_root : Digest := Eval vm_compute in ledger_merkle_root Blake3 demo_leaves.

Lemma demo_entries_wf : Forall wf_entry demo_entries.
Proof. apply (bool_decide_eq_true_1 (Forall (fun e => length (dbytes (se_hash e)) = 32%nat) demo_entries)). vm_compute. reflexivity. Qed.

Lemma demo_path_wf : Forall wf_digest demo_path.
Proof. apply (bool_decide_eq_true_1 (Forall (fun d => length (dbytes d) = 32%nat) demo_path)). vm_compute. reflexivity. Qed.

Lemma inclusion_proofs_witness : exists e, demo_entries !! 2%nat = Some e /\ dbytes (se_hash demo_entry) = dbytes (se_hash e).
Proof.
  destruct (inclusion_proofs Blake3 demo_ns demo_collection demo_entries ltac:(discriminate) demo_entries_wf) as [_ Hsound].
  apply (Hsound demo_root 2 demo_entry demo_path).
  - vm_compute. reflexivity.
  - exact demo_path_wf.
  - vm_compute. reflexivity.
  - apply distinct_no_collision. vm_compute. reflexivity.
  - vm_compute. reflexivity.
Defined.

Lemma consistency_accepted_witness :
  exists path, ledger_merkle_consistency_path Blake3 (take (N.to_nat 4) demo_leaves) 3 = Ok path /\
    ledger_verify_consistency_proof (mkConsistencyProof Blake3 demo_ns demo_collection 3 4 (ledger_merkle_root Blake3 (take (N.to_nat 3) demo_leaves))
      (ledger_merkle_root Blake3 (take (N.to_nat 4) demo_leaves)) path) = Ok ().
Proof. apply (consistency_accepted Blake3 demo_ns demo_collection demo_leaves 3 4); vm_compute; congruence. Defined.

Definition demo_proof : LedgerConsistencyProof := Eval vm_compute in
  mkConsistencyProof Blake3 demo_ns demo_collection 3 4 (ledger_merkle_root Blake3 (take (N.to_nat 3) demo_leaves)) demo_root
    (match ledger_merkle_consistency_path Blake3 demo_leaves 3 with Ok p => p | Err _ => [] end).

Lemma demo_proof_wf : Forall wf_digest (kp_path demo_proof).
Proof. apply (bool_decide_eq_true_1 (Forall (fun d => length (dbytes d) = 32%nat) (kp_path demo_proof))). vm_compute. reflexivity. Qed.

Lemma consistency_extends_witness : [str "open"; str "pay"; str "refund"] `prefix_of` demo_payloads.
Proof.
  apply (consistency_extends demo_proof demo_ns demo_collection [str "open"; str "pay"; str "refund"] demo_payloads).
  - discriminate.
  - discriminate.
  - exact demo_proof_wf.
  - vm_compute. reflexivity.
  - vm_compute. reflexivity.
  - apply distinct_no_collision. vm_compute. reflexivity.
  - vm_compute. reflexivity.
Defined.

Lemma consistency_size_unchecked_witness :
  ledger_verify_consistency_proof (mkConsistencyProof Blake3 demo_ns demo_collection 2 1000 (ledger_merkle_root Blake3 (take 2 demo_leaves))
    (ledger_merkle_root Blake3 demo_leaves) [ledger_merkle_root Blake3 (drop 2 demo_leaves)]) = Ok ().
Proof. apply (consistency_size_unchecked Blake3 demo_ns demo_collection demo_leaves 1000); vm_compute; congruence. Defined.

End LedgerClaims.
