(* ===== verification/LedgerCodec.v ===== *)
(** * The stored forms of ledgers round-trip

    Decoding what was encoded gives it back, for every record of a ledger root and for the proofs. *)

From S2P Require Import Prelude Codec CodecFacts Types Cbor Prolly ProllyNode Ledger LedgerMerkle LedgerClaims.

Module LedgerCodec.
Import Error Codec CodecFacts Digest Cbor ProllyNode Ledger LedgerProof LedgerMerkle LedgerClaims.

(** ** Fields *)

(** A digest of the algorithm [a]. *)
Definition tagged (a : Algo) (d : Digest) : Prop := algo d = a /\ wf_digest d.
Definition tagged_opt (a : Algo) (d : option Digest) : Prop := forall x, d = Some x -> tagged a x.
Definition u64 (n : N) : Prop := n <= u64_max.
Definition u64_opt (n : option N) : Prop := forall x, n = Some x -> u64 x.
Definition utf8 (t : bytes) : Prop := valid_utf8 t = true.
Definition id16 (b : bytes) : Prop := length b = 16%nat.

Lemma hash_tagged `{Hasher} a b : tagged a (hash a b).
Proof. split; [done|apply raw_hash_len]. Qed.

Lemma decode_tagged_encode tag fs :
  utf8 tag -> forallb simple fs = true -> (depth (Array (Text tag :: Uint 1 :: fs)) <= MAX_DEPTH)%nat -> len (encode_tagged tag fs) <= u64_max ->
  decode_tagged tag (encode_tagged tag fs) = Ok fs.
Proof.
  intros Ht Hf Hd Hl. unfold decode_tagged, encode_tagged in *.
  assert (decode_array (cbor_encode (Array (Text tag :: Uint 1 :: fs))) = Ok (Text tag :: Uint 1 :: fs)) as ->.
  { apply decode_array_Ok. apply simple_decode; [|done|done]. cbn [simple forallb]. rewrite Ht. cbn [andb]. by rewrite Hf. }
  cbn [mbind result_bind]. unfold fields_tagged, fields_text, fields_uint, read_field. cbn [next_field mbind result_bind as_text as_uint].
  rewrite bool_decide_eq_true_2 by done. done.
Qed.

Lemma digest_from_value_tagged a d : tagged a d -> digest_from_value a (digest_value d) = Ok d.
Proof. intros [Ha Hd]. unfold digest_from_value. cbn. rewrite bool_decide_eq_true_2 by done. destruct d. by cbn in Ha; subst. Qed.

Lemma read_tagged a d f : tagged a d -> read_field (digest_from_value a) (digest_value d :: f) = Ok (d, f).
Proof. intros H. unfold read_field. cbn [next_field mbind result_bind]. by rewrite digest_from_value_tagged. Qed.

Lemma read_tagged_opt a d f : tagged_opt a d -> fields_optional_digest a (optional_value digest_value d :: f) = Ok (d, f).
Proof.
  intros H. unfold fields_optional_digest, read_field. cbn [next_field mbind result_bind]. destruct d as [d|]; [|done].
  cbn [optional_value]. unfold optional_from_value. rewrite digest_from_value_tagged by by apply H. done.
Qed.

Lemma read_uint_opt n f : fields_optional_uint (optional_value Uint n :: f) = Ok (n, f).
Proof. by destruct n. Qed.

Lemma read_algo a f : fields_algo (Text (algo_as_str a) :: f) = Ok (a, f).
Proof. by destruct a. Qed.

Lemma read_mode m f : fields_mode (Text (append_mode_as_str m) :: f) = Ok (m, f).
Proof. by destruct m. Qed.

Lemma read_id b f : id16 b -> fields_id (Bytes b :: f) = Ok (b, f).
Proof. intros H. unfold fields_id, fields_bytes, read_field, workspace_id_bytes. cbn. by rewrite bool_decide_eq_true_2. Qed.

Lemma read_uint n f : fields_uint (Uint n :: f) = Ok (n, f).
Proof. done. Qed.
Lemma read_bytes b f : fields_bytes (Bytes b :: f) = Ok (b, f).
Proof. done. Qed.
Lemma read_text t f : fields_text (Text t :: f) = Ok (t, f).
Proof. done. Qed.
Lemma read_array l f : fields_array (Array l :: f) = Ok (l, f).
Proof. done. Qed.

Lemma algo_utf8 a : valid_utf8 (algo_as_str a) = true.
Proof. by destruct a. Qed.
Lemma mode_utf8 m : valid_utf8 (append_mode_as_str m) = true.
Proof. by destruct m. Qed.
Lemma state_utf8 s : valid_utf8 (range_state_as_str s) = true.
Proof. by destruct s. Qed.

Lemma simple_optional_uint n : u64_opt n -> simple (optional_value Uint n) = true.
Proof. destruct n as [n|]; [|done]. intros H. apply N.leb_le. by apply H. Qed.
Lemma simple_optional_digest d : simple (optional_value digest_value d) = true.
Proof. by destruct d. Qed.

Lemma depth_optional_uint n : depth (optional_value Uint n) = O.
Proof. by destruct n. Qed.
Lemma depth_optional_digest d : depth (optional_value digest_value d) = O.
Proof. by destruct d. Qed.

(** An array of values of depth [n] has depth at most one more. *)
Lemma depth_array (items : list Value) n : (forall v, v ∈ items -> depth v <= n)%nat -> (depth (Array items) <= S n)%nat.
Proof.
  intros H. cbn [depth]. induction items as [|v items IH]; cbn [map max_list]; unfold id in *; [lia|].
  pose proof (H v ltac:(by left)). specialize (IH ltac:(intros w Hw; apply H; by right)). lia.
Qed.

Lemma depth_array_map {A} (f : A -> Value) l n : (forall x, depth (f x) <= n)%nat -> (depth (Array (map f l)) <= S n)%nat.
Proof. intros H. apply depth_array. intros v (x & -> & _)%list_elem_of_fmap. apply H. Qed.

Lemma forallb_map {A B} (f : B -> bool) (g : A -> B) l : (forall x, x ∈ l -> f (g x) = true) -> forallb f (map g l) = true.
Proof. intros H. apply forallb_forall. intros y (x & <- & Hx)%in_map_iff. apply H. by apply list_elem_of_In. Qed.

Lemma read_items l : as_array (Array l) = Ok l.
Proof. done. Qed.
Lemma read_end : fields_end [] = Ok ().
Proof. done. Qed.

Lemma bind_run {E A B} (m : result E A) x (k : A -> result E B) : m = Ok x -> (m ≫= k) = k x.
Proof. by intros ->. Qed.

Create HintDb ledger_fields.
#[export] Hint Resolve read_algo read_mode read_uint_opt read_uint read_bytes read_text read_array read_tagged read_tagged_opt read_id read_items read_end : ledger_fields.
Create Rewrite HintDb ledger.
#[export] Hint Rewrite algo_utf8 mode_utf8 state_utf8 simple_optional_digest depth_optional_uint depth_optional_digest : ledger.

(** Reading the fields one after the other. *)
Ltac read_fields := repeat (erewrite bind_run by (solve [eauto with ledger_fields]); cbv beta iota).

(** The fields are simple, and not nested deeply. *)
Ltac simple_fields := cbn [forallb simple digest_value]; autorewrite with ledger; rewrite ?simple_optional_uint by done.
Ltac shallow := cbn [depth map max_list digest_value]; autorewrite with ledger; unfold id, MAX_DEPTH; lia.

Ltac nested f l n :=
  let Hd := fresh in pose proof (depth_array_map f l n ltac:(done)) as Hd; cbn [depth map max_list digest_value] in Hd |- *; unfold id, MAX_DEPTH in Hd |- *; lia.

(** ** Round trips *)

Definition round_trips {A} (wf : A -> Prop) (enc : A -> bytes) (dec : bytes -> res A) : Prop :=
  forall x, wf x -> len (enc x) <= u64_max -> dec (enc x) = Ok x.

Record wf_manifest (m : LedgerManifest) : Prop := {
  wm_head : tagged (mf_algo m) (mf_head_root m);
  wm_index : tagged (mf_algo m) (mf_segment_index_root m);
  wm_checkpoint : tagged_opt (mf_algo m) (mf_checkpoint_root m);
  wm_proof : tagged_opt (mf_algo m) (mf_proof_root m);
  wm_retention : tagged_opt (mf_algo m) (mf_retention_root m);
}.

Lemma manifest_roundtrip : round_trips wf_manifest manifest_encode manifest_decode.
Proof.
  intros m [H1 H2 H3 H4 H5] Hl. unfold manifest_decode, manifest_encode in *.
  erewrite bind_run by (apply decode_tagged_encode; [done|by simple_fields|shallow|done]). read_fields. by destruct m.
Qed.

Record wf_head (h : LedgerHeadMetadata) : Prop := {
  wh_seq : u64_opt (hm_latest_seq h);
  wh_root : tagged_opt (hm_algo h) (hm_latest_segment_root h);
  wh_chain : tagged_opt (hm_algo h) (hm_chain_head h);
  wh_horizon : u64_opt (hm_retention_horizon h);
  wh_checkpoint : tagged_opt (hm_algo h) (hm_latest_checkpoint_root h);
  wh_both : hm_latest_seq h = None <-> hm_chain_head h = None;
}.

Lemma head_roundtrip : round_trips wf_head head_encode head_decode.
Proof.
  intros h [H1 H2 H3 H4 H5 H6] Hl. unfold head_decode, head_encode in *.
  erewrite bind_run by (apply decode_tagged_encode; [done|by simple_fields|shallow|done]). read_fields.
  rewrite (bool_decide_ext _ _ H6), eqb_reflx. by destruct h.
Qed.

Record wf_checkpoint_payload (p : LedgerCheckpointPayload) : Prop := {
  wc_ns : id16 (cp_namespace p);
  wc_collection : utf8 (cp_collection p);
  wc_seq : u64_opt (cp_latest_seq p);
  wc_chain : tagged_opt (cp_algo p) (cp_chain_head p);
  wc_head : tagged (cp_algo p) (cp_head_root p);
  wc_index : tagged (cp_algo p) (cp_segment_index_root p);
  wc_segment : tagged_opt (cp_algo p) (cp_latest_segment_root p);
  wc_retention : tagged_opt (cp_algo p) (cp_retention_root p);
}.

Lemma checkpoint_payload_roundtrip : round_trips wf_checkpoint_payload checkpoint_payload_encode checkpoint_payload_decode.
Proof.
  intros p [H1 H2 H3 H4 H5 H6 H7 H8] Hl. unfold checkpoint_payload_decode, checkpoint_payload_encode in *.
  erewrite bind_run by (apply decode_tagged_encode; [done|by simple_fields; rewrite H2|shallow|done]). read_fields. by destruct p.
Qed.

Definition wf_signature (s : LedgerCheckpointSignature) : Prop := id16 (cs_principal s) /\ id16 (cs_key_id s) /\ utf8 (cs_suite s).
Definition wf_signed_checkpoint (c : LedgerSignedCheckpoint) : Prop :=
  wf_checkpoint_payload (sc_payload c) /\ len (checkpoint_payload_encode (sc_payload c)) <= u64_max /\ Forall wf_signature (sc_signatures c).

Lemma try_map_back {A} (f : Value -> res A) (g : A -> Value) (P : A -> Prop) l :
  (forall x, P x -> f (g x) = Ok x) -> Forall P l -> try_map f (map g l) = Ok l.
Proof. intros H Hl. induction Hl as [|x l Hx Hl IH]; cbn [map try_map]; [done|]. by rewrite H, IH. Qed.

Lemma signature_back s : wf_signature s -> checkpoint_signature_from (checkpoint_signature_value s) = Ok s.
Proof. intros (P1 & P2 & P3). unfold checkpoint_signature_from, checkpoint_signature_value. read_fields. by destruct s. Qed.

Lemma signed_checkpoint_roundtrip : round_trips wf_signed_checkpoint signed_checkpoint_encode signed_checkpoint_decode.
Proof.
  intros c (H1 & H2 & H3) Hl. unfold signed_checkpoint_decode, signed_checkpoint_encode in *.
  erewrite bind_run; [|apply decode_tagged_encode; [done| | |done]].
  - read_fields. rewrite (bind_run _ _ _ (checkpoint_payload_roundtrip (sc_payload c) H1 H2)). read_fields.
    rewrite (bind_run _ _ _ (try_map_back _ _ _ _ signature_back H3)). by destruct c.
  - simple_fields. rewrite (forallb_map simple); [done|]. intros s Hs. rewrite Forall_forall in H3. apply H3 in Hs as (_ & _ & P3). unfold checkpoint_signature_value. cbn [simple forallb]. unfold utf8 in P3. by rewrite P3.
  - nested checkpoint_signature_value (sc_signatures c) 1%nat.
Qed.

Definition wf_index_entry (a : Algo) (e : LedgerSegmentIndexEntry) : Prop :=
  u64 (ie_first e) /\ u64 (ie_last e) /\ tagged a (ie_root e) /\ u64 (ie_count e) /\ tagged a (ie_head e).
Definition wf_index (i : LedgerSegmentIndex) : Prop := Forall (wf_index_entry (ix_algo i)) (ix_entries i) /\ index_validate_from None (ix_entries i) = Ok ().

Lemma index_entry_back a e : wf_index_entry a e -> index_entry_from a (index_entry_value e) = Ok e.
Proof. intros (H1 & H2 & H3 & H4 & H5). unfold index_entry_from, index_entry_value. read_fields. by destruct e. Qed.

Lemma index_roundtrip : round_trips wf_index index_encode index_decode.
Proof.
  intros i (H1 & H2) Hl. unfold index_decode, index_encode in *. erewrite bind_run; [|apply decode_tagged_encode; [done| | |done]].
  - read_fields. rewrite (bind_run _ _ _ (try_map_back _ _ _ _ (index_entry_back (ix_algo i)) H1)). read_fields.
    unfold index_new. rewrite (bind_run _ _ _ H2). by destruct i.
  - simple_fields. rewrite (forallb_map simple); [done|]. intros e He. rewrite Forall_forall in H1. apply H1 in He as (P1 & P2 & _ & P4 & _).
    unfold index_entry_value. cbn [simple forallb digest_value]. apply N.leb_le in P1, P2, P4. by rewrite P1, P2, P4.
  - nested index_entry_value (ix_entries i) 1%nat.
Qed.

Definition wf_range (r : LedgerRetentionRange) : Prop := u64 (rr_first r) /\ u64 (rr_last r).
Definition wf_retention (r : LedgerRetentionMetadata) : Prop := Forall wf_range (rt_ranges r) /\ retention_validate_from None (rt_ranges r) = Ok ().

Lemma state_back s : range_state_parse (range_state_as_str s) = Ok s.
Proof. by destruct s. Qed.

Lemma range_back r : wf_range r -> retention_range_from (retention_range_value r) = Ok r.
Proof.
  intros _. unfold retention_range_from, retention_range_value. read_fields. rewrite (bind_run _ _ _ (state_back (rr_state r))). read_fields. by destruct r.
Qed.

Lemma retention_roundtrip : round_trips wf_retention retention_encode retention_decode.
Proof.
  intros r (H1 & H2) Hl. unfold retention_decode, retention_encode in *. erewrite bind_run; [|apply decode_tagged_encode; [done| | |done]].
  - read_fields. rewrite (bind_run _ _ _ (try_map_back _ _ _ _ range_back H1)). unfold retention_new. rewrite (bind_run _ _ _ H2). by destruct r.
  - simple_fields. rewrite (forallb_map simple); [done|]. intros e He. rewrite Forall_forall in H1. apply H1 in He as (P1 & P2).
    unfold retention_range_value. cbn [simple forallb]. apply N.leb_le in P1, P2. by rewrite P1, P2, state_utf8.
  - nested retention_range_value (rt_ranges r) 1%nat.
Qed.

(** Ranges that were read are well formed. *)
Lemma decode_tagged_wf tag b f : decode_tagged tag b = Ok f -> forallb wf_value f = true.
Proof.
  unfold decode_tagged. intros (items & Hd%decode_array_Ok & H)%bind_Ok. apply decode_canonical in Hd as (_ & Hw & _).
  apply wf_Array in Hw as [_ Hw]. unfold fields_tagged, fields_text, fields_uint in H.
  apply bind_Ok in H as ([t f1] & H1 & H). apply read_field_Ok in H1 as (v1 & -> & _). apply bind_Ok in H as (? & _ & H).
  apply bind_Ok in H as ([v f2] & H2 & H). apply read_field_Ok in H2 as (v2 & -> & _). destruct (v =? 1); [|done]. injection H as <-.
  cbn [forallb] in Hw. by apply andb_true_iff in Hw as [_ [_ Hw]%andb_true_iff].
Qed.

Lemma range_from_wf v r : wf_value v = true -> retention_range_from v = Ok r -> wf_range r.
Proof.
  unfold retention_range_from, fields_uint, fields_text. intros Hw (f & ->%as_array_Ok & H)%bind_Ok. apply wf_Array in Hw as [_ Hw].
  apply bind_Ok in H as ([n1 f1] & H1 & H). apply read_field_Ok in H1 as (v1 & -> & ->%as_uint_Ok).
  apply bind_Ok in H as ([n2 f2] & H2 & H). apply read_field_Ok in H2 as (v2 & -> & ->%as_uint_Ok).
  apply bind_Ok in H as ([t f3] & _ & H). apply bind_Ok in H as (st & _ & H). apply bind_Ok in H as (? & _ & [= <-]).
  cbn [forallb wf_value] in Hw. apply andb_true_iff in Hw as [W1%N.leb_le [W2%N.leb_le _]%andb_true_iff]. done.
Qed.

Lemma retention_decode_wf b r : retention_decode b = Ok r -> wf_retention r.
Proof.
  unfold retention_decode, fields_algo, fields_array. intros (f & Hf%decode_tagged_wf & H)%bind_Ok.
  apply bind_Ok in H as ([a f1] & H1 & H). apply bind_Ok in H1 as ([t f1'] & H1 & H2). apply bind_Ok in H2 as (? & _ & [= _ ->]).
  apply read_field_Ok in H1 as (v & -> & _). apply bind_Ok in H as ([items f2] & H2 & H). apply read_field_Ok in H2 as (w & -> & ->%as_array_Ok).
  apply bind_Ok in H as (? & _ & H). apply bind_Ok in H as (ranges & Hr%try_map_Ok & H). unfold retention_new in H.
  apply bind_Ok in H as ([] & Hv & [= <-]). split; [|exact Hv]. cbn [rt_ranges].
  cbn [forallb] in Hf. apply andb_true_iff in Hf as [_ [Hi _]%andb_true_iff]. apply wf_Array in Hi as [_ Hi]. clear Hv.
  induction Hr as [|v1 r1 vs rs Hx _ IH]; constructor; cbn [forallb] in Hi; apply andb_true_iff in Hi as [Hw Hi]; [by eapply range_from_wf|by apply IH].
Qed.

(** ** Segments *)

Section Segments.
Context `{hasher : Hasher}.

(** A segment as [LedgerSegment::build] makes it; the first one follows no hash. *)
Definition built (s : LedgerSegment) : Prop :=
  exists prev ps, s = segment_build (sg_algo s) (sg_first s) prev ps /\ u64 (sg_first s) /\ tagged_opt (sg_algo s) prev /\ (sg_first s = 0 -> prev = None).

Lemma build_entries_u64 a seq prev ps : u64 seq -> Forall (fun e => u64 (se_seq e)) (build_entries a seq prev ps).
Proof.
  revert seq prev. induction ps as [|p ps IH]; intros seq prev H; cbn [build_entries]; constructor; [done|]. apply IH. unfold u64, as_u64, u64_max.
  pose proof (N.mod_lt (seq + 1) (2 ^ 64)). lia.
Qed.

Lemma segment_entries_back a seq open prev ps : length prev = DIGEST_LEN ->
  segment_entries_from a seq open prev (map segment_entry_value (build_entries a seq prev ps)) = Ok (build_entries a seq prev ps).
Proof.
  revert seq open prev. induction ps as [|p ps IH]; intros seq open prev Hp; cbn [build_entries map segment_entries_from]; [done|].
  erewrite bind_run; cycle 1.
  { unfold segment_entry_from, segment_entry_value. cbn [se_seq se_payload se_prev se_hash]. assert (tagged a (mkDigest a prev)) by done. pose proof (hash_tagged a (prev ++ p)).
    unfold chain. read_fields. rewrite N.eqb_refl. cbn [negb dbytes]. assert ((if open then prev else prev) = prev) as -> by by destruct open.
    rewrite bool_decide_eq_true_2 by done. cbn [negb]. unfold chain. by rewrite bool_decide_eq_true_2. }
  erewrite bind_run; [done|]. apply IH, raw_hash_len.
Qed.

(** An open segment takes the hash before it from its first entry. *)
Lemma segment_entries_open a seq p1 p2 items : segment_entries_from a seq true p1 items = segment_entries_from a seq true p2 items.
Proof. by destruct items. Qed.

Lemma segment_roundtrip : round_trips built segment_encode segment_decode.
Proof.
  intros [a first es] (prev & ps & Hs & H1 & H2 & H3) Hl. cbn [sg_algo sg_first] in *. injection Hs as Hes. unfold segment_decode, segment_encode in *. cbn [sg_algo sg_first sg_entries] in *.
  assert (length (from_option dbytes GENESIS prev) = DIGEST_LEN) as Hp by (destruct prev as [d|]; [by apply H2|done]).
  erewrite bind_run; [|apply decode_tagged_encode; [done| | |done]].
  - read_fields. erewrite bind_run; [done|]. subst es. destruct (N.ltb_spec 0 first) as [Hf|Hf].
    + rewrite (segment_entries_open a first GENESIS (from_option dbytes GENESIS prev)). by apply segment_entries_back.
    + rewrite H3 by lia. by apply segment_entries_back.
  - simple_fields. apply N.leb_le in H1 as H1'. rewrite H1'. rewrite (forallb_map simple); [done|]. intros e He. subst es.
    pose proof (build_entries_u64 a first (from_option dbytes GENESIS prev) ps H1) as HF. rewrite Forall_forall in HF. apply HF, N.leb_le in He.
    unfold segment_entry_value. cbn [simple forallb digest_value]. by rewrite He.
  - nested segment_entry_value es 1%nat.
Qed.
End Segments.

(** ** Proofs *)

Definition wf_proof_tree (t : LedgerProofTree) : Prop := id16 (pt_namespace t) /\ utf8 (pt_collection t) /\ u64 (tree_size t) /\ tagged (pt_algo t) (root_hash t).

Lemma proof_tree_roundtrip : round_trips wf_proof_tree proof_tree_encode proof_tree_decode.
Proof.
  intros t (H1 & H2 & H3 & H4) Hl. unfold proof_tree_decode, proof_tree_encode in *. apply N.leb_le in H3.
  erewrite bind_run by (apply decode_tagged_encode; [done|by simple_fields; rewrite H2, H3|shallow|done]). read_fields. by destruct t.
Qed.

Lemma read_path a path f : Forall (tagged a) path -> fields_path a (Array (map digest_value path) :: f) = Ok (path, f).
Proof. intros H. unfold fields_path. read_fields. by rewrite (bind_run _ _ _ (try_map_back _ _ _ _ (digest_from_value_tagged a) H)). Qed.
#[local] Hint Resolve read_path : ledger_fields.

Definition wf_inclusion (p : LedgerInclusionProof) : Prop :=
  wf_proof_tree (ip_tree p) /\ len (proof_tree_encode (ip_tree p)) <= u64_max /\ u64 (ip_seq p) /\
  tagged (pt_algo (ip_tree p)) (ip_leaf_hash p) /\ Forall (tagged (pt_algo (ip_tree p))) (ip_path p).

Lemma inclusion_roundtrip : round_trips wf_inclusion inclusion_proof_encode inclusion_proof_decode.
Proof.
  intros p (H1 & H2 & H3 & H4 & H5) Hl. unfold inclusion_proof_decode, inclusion_proof_encode in *. apply N.leb_le in H3.
  erewrite bind_run; [|apply decode_tagged_encode; [done| | |done]].
  - read_fields. rewrite (bind_run _ _ _ (proof_tree_roundtrip (ip_tree p) H1 H2)). read_fields. by destruct p.
  - simple_fields. rewrite H3, (forallb_map simple); done.
  - nested digest_value (ip_path p) 0%nat.
Qed.

Definition wf_consistency (p : LedgerConsistencyProof) : Prop :=
  id16 (kp_namespace p) /\ utf8 (kp_collection p) /\ u64 (first_tree_size p) /\ u64 (second_tree_size p) /\
  tagged (kp_algo p) (first_root_hash p) /\ tagged (kp_algo p) (second_root_hash p) /\ Forall (tagged (kp_algo p)) (kp_path p).

Lemma consistency_roundtrip : round_trips wf_consistency consistency_proof_encode consistency_proof_decode.
Proof.
  intros p (H1 & H2 & H3 & H4 & H5 & H6 & H7) Hl. unfold consistency_proof_decode, consistency_proof_encode in *. apply N.leb_le in H3, H4.
  erewrite bind_run; [|apply decode_tagged_encode; [done| | |done]].
  - read_fields. by destruct p.
  - simple_fields. rewrite H2, H3, H4, (forallb_map simple); done.
  - nested digest_value (kp_path p) 0%nat.
Qed.

(** C32: Everything a ledger stores or publishes round-trips: segments as they are built, the segment index, the
    head, the manifest, retention ranges, checkpoint payloads and signed checkpoints, proof trees, inclusion
    and consistency proofs decode from their bytes to what was encoded, wherever the bytes fit in memory. *)
Theorem ledger_roundtrip `{Hasher} :
  round_trips built segment_encode segment_decode /\
  round_trips wf_index index_encode index_decode /\
  round_trips wf_head head_encode head_decode /\
  round_trips wf_manifest manifest_encode manifest_decode /\
  round_trips wf_retention retention_encode retention_decode /\
  round_trips wf_checkpoint_payload checkpoint_payload_encode checkpoint_payload_decode /\
  round_trips wf_signed_checkpoint signed_checkpoint_encode signed_checkpoint_decode /\
  round_trips wf_proof_tree proof_tree_encode proof_tree_decode /\
  round_trips wf_inclusion inclusion_proof_encode inclusion_proof_decode /\
  round_trips wf_consistency consistency_proof_encode consistency_proof_decode.
Proof.
  split_and!; [apply segment_roundtrip|apply index_roundtrip|apply head_roundtrip|apply manifest_roundtrip|apply retention_roundtrip|
    apply checkpoint_payload_roundtrip|apply signed_checkpoint_roundtrip|apply proof_tree_roundtrip|apply inclusion_roundtrip|apply consistency_roundtrip].
Qed.
End LedgerCodec.
