(* ===== verification/LedgerEngine.v ===== *)
(** * Ledgers in the engine (crates/loom-core/src/ledger.rs, the operations on [Loom])

    A ledger of a workspace is a tree object of the working tree: its segment, the segment index, the head,
    the manifest, and where it has them the retention ranges and the signed checkpoint. Reading it checks all
    of them against each other. A [usize] has 64 bits. *)

From S2P Require Import Prelude Codec Types Workspace Object Cbor Store Acl VcsTree VcsContent Registry Identity Effect Engine EngineFiles EngineFs EngineVcs Ledger.

Module LedgerEngine.
Import Error Codec Digest Object Cbor Store Acl VcsTree VcsContent Registry Identity Effect Engine EngineFiles EngineFs EngineVcs Ledger LedgerProof.

Definition LEDGER_CHECKPOINT_SIGNATURE_PURPOSE : bytes := str "ledger.checkpoint".
Definition LEDGER_ROOT_MANIFEST_ENTRY : bytes := str "manifest".
Definition LEDGER_ROOT_HEAD_ENTRY : bytes := str "head".
Definition LEDGER_ROOT_SEGMENT_INDEX_ENTRY : bytes := str "segment_index".
Definition LEDGER_ROOT_RETENTION_ENTRY : bytes := str "retention".
Definition LEDGER_ROOT_CHECKPOINT_ENTRY : bytes := str "checkpoint".

Definition FACETS_RESERVED_DIR : bytes := str ".loom/facets".
Definition facet_root (facet : FacetKind.FacetKind) : bytes := FACETS_RESERVED_DIR ++ [slash] ++ FacetKind.facet_as_str facet.
Definition facet_path (facet : FacetKind.FacetKind) (relative : bytes) : bytes :=
  let relative := trim_start relative in
  if bool_decide (relative = []) then facet_root facet else facet_root facet ++ [slash] ++ relative.

Definition ledger_path (collection : bytes) : bytes := facet_path FacetKind.Ledger collection.

Definition collection_from_ledger_path (path : bytes) : res bytes :=
  collection ← ok_or (strip_prefix path (facet_root FacetKind.Ledger ++ [slash])) CorruptObject;
  if bool_decide (collection = []) || bool_decide (slash ∈ collection) then Err CorruptObject else Ok collection.

(** [format!("segment_{:020}", first_seq)] *)
Fixpoint decimal (width : nat) (n : N) : bytes :=
  match width with O => [] | S width => decimal width (n / 10) ++ [as_u8 (48 + n mod 10)] end.
Definition segment_name (first_seq : N) : bytes := str "segment_" ++ decimal 20 first_seq.

(** Digests compare by their bytes. *)
Definition same (d1 d2 : Digest) : bool := bool_decide (dbytes d1 = dbytes d2).
Definition same_opt (d1 d2 : option Digest) : bool := bool_decide (dbytes <$> d1 = dbytes <$> d2).

Record LedgerRootState : Type := mkRootState {
  st_head : LedgerHeadMetadata; st_manifest : LedgerManifest; st_index : LedgerSegmentIndex; st_segments : list LedgerSegment;
  st_retention : option LedgerRetentionMetadata; st_checkpoint : option LedgerSignedCheckpoint;
}.

Definition latest_of (l : Ledger) : option N := match payloads l with [] => None | _ => Some (len (payloads l) - 1) end.

Definition clear_checkpoint (h : LedgerHeadMetadata) : LedgerHeadMetadata :=
  mkHead (hm_algo h) (hm_latest_seq h) (hm_latest_segment_root h) (hm_chain_head h) (hm_append_mode h) (hm_retention_horizon h) None.

(** [PartialEq] of payloads *)
Definition same_payload (p q : LedgerCheckpointPayload) : bool :=
  bool_decide (cp_algo p = cp_algo q) && bool_decide (cp_namespace p = cp_namespace q) && bool_decide (cp_collection p = cp_collection q) &&
  bool_decide (cp_latest_seq p = cp_latest_seq q) && same_opt (cp_chain_head p) (cp_chain_head q) && same (cp_head_root p) (cp_head_root q) &&
  same (cp_segment_index_root p) (cp_segment_index_root q) && same_opt (cp_latest_segment_root p) (cp_latest_segment_root q) &&
  same_opt (cp_retention_root p) (cp_retention_root q) && bool_decide (cp_append_mode p = cp_append_mode q).

(** The entries of a ledger root, as the loop over them collects them. *)
Record Roots : Type := mkRoots {
  r_manifest : option Digest; r_head : option Digest; r_index : option Digest;
  r_retention : option Digest; r_checkpoint : option Digest; r_segments : list bytes;
}.

Definition root_entry (r : Roots) (e : TreeEntry) : res Roots :=
  let name := te_name e in
  let d := te_target e in
  if negb (bool_decide (te_kind e = EK_Blob)) then Err CorruptObject
  else if bool_decide (name = LEDGER_ROOT_MANIFEST_ENTRY) then Ok (mkRoots (Some d) (r_head r) (r_index r) (r_retention r) (r_checkpoint r) (r_segments r))
  else if bool_decide (name = LEDGER_ROOT_HEAD_ENTRY) then Ok (mkRoots (r_manifest r) (Some d) (r_index r) (r_retention r) (r_checkpoint r) (r_segments r))
  else if bool_decide (name = LEDGER_ROOT_SEGMENT_INDEX_ENTRY) then Ok (mkRoots (r_manifest r) (r_head r) (Some d) (r_retention r) (r_checkpoint r) (r_segments r))
  else if bool_decide (name = LEDGER_ROOT_RETENTION_ENTRY) then Ok (mkRoots (r_manifest r) (r_head r) (r_index r) (Some d) (r_checkpoint r) (r_segments r))
  else if bool_decide (name = LEDGER_ROOT_CHECKPOINT_ENTRY) then Ok (mkRoots (r_manifest r) (r_head r) (r_index r) (r_retention r) (Some d) (r_segments r))
  else if starts_with name (str "segment_") then Ok (mkRoots (r_manifest r) (r_head r) (r_index r) (r_retention r) (r_checkpoint r) (dbytes d :: r_segments r))
  else Err CorruptObject.

Definition no_roots : Roots := mkRoots None None None None None [].

Definition check (b : bool) (e : Code) : res () := if b then Ok () else Err e.

Section Read.
Context `{hasher : Hasher} {S : Type} `{ops : !ObjectStore S}.
Implicit Types (st : Contents S) (ns collection : bytes) (s : LedgerRootState).

Definition to_ledger s : res Ledger :=
  let es := concat (map sg_entries (st_segments s)) in
  let l := mkLedger (hm_algo (st_head s)) (map se_payload es) (map se_hash es) in
  _ ← check (bool_decide (hm_latest_seq (st_head s) = latest_of l) && same_opt (hm_chain_head (st_head s)) (ledger_head_hash l) &&
             same_opt (hm_latest_segment_root (st_head s)) (ie_root <$> last (ix_entries (st_index s)))) CorruptObject;
  _ ← verify l;
  Ok l.

Definition checkpoint_payload_from_state s ns collection : LedgerCheckpointPayload :=
  let h := st_head s in
  mkCheckpointPayload (hm_algo h) ns collection (hm_latest_seq h) (hm_chain_head h) (head_digest (clear_checkpoint h))
    (mf_segment_index_root (st_manifest s)) (hm_latest_segment_root h) (mf_retention_root (st_manifest s)) (hm_append_mode h).

Definition validate_checkpoint_payload (p : LedgerCheckpointPayload) s ns collection : res () :=
  check (same_payload p (checkpoint_payload_from_state s ns collection)) CorruptObject.

(** One segment of the index. *)
Definition load_segment st (a : Algo) (reachable : list bytes) (e : LedgerSegmentIndexEntry) : res LedgerSegment :=
  _ ← check (bool_decide (dbytes (ie_root e) ∈ reachable)) CorruptObject;
  b ← load_content st (ie_root e);
  _ ← check (same (hash a b) (ie_root e)) CorruptObject;
  g ← segment_decode b;
  _ ← check ((sg_first g =? ie_first e) && bool_decide (last_seq g = Some (ie_last e)) && (len (sg_entries g) =? ie_count e) &&
             same_opt (segment_head g) (Some (ie_head e))) CorruptObject;
  Ok g.

Definition load_retention st (a : Algo) (root : option Digest) : res (option LedgerRetentionMetadata) :=
  match root with
  | None => Ok None
  | Some d => b ← load_content st d; r ← retention_decode b; _ ← check (bool_decide (rt_algo r = a)) CorruptObject; Ok (Some r)
  end.

Definition load_checkpoint st (a : Algo) (root : option Digest) : res (option LedgerSignedCheckpoint) :=
  match root with
  | None => Ok None
  | Some d => b ← load_content st d; c ← signed_checkpoint_decode b; _ ← check (bool_decide (cp_algo (sc_payload c) = a)) CorruptObject; Ok (Some c)
  end.

Definition ledger_root_state st (root : Digest) ns collection : res LedgerRootState :=
  o ← get_object (c_store st) root;
  entries ← match o with OTree entries => Ok entries | _ => Err CorruptObject end;
  r ← try_fold root_entry no_roots entries;
  manifest_root ← ok_or (r_manifest r) CorruptObject;
  head_root ← ok_or (r_head r) CorruptObject;
  index_root ← ok_or (r_index r) CorruptObject;
  b ← load_content st manifest_root;
  manifest ← manifest_decode b;
  let a := mf_algo manifest in
  _ ← check (same (mf_head_root manifest) head_root && same (mf_segment_index_root manifest) index_root) CorruptObject;
  _ ← check (same_opt (mf_retention_root manifest) (r_retention r)) CorruptObject;
  _ ← check (same_opt (mf_checkpoint_root manifest) (r_checkpoint r)) CorruptObject;
  b ← load_content st head_root;
  head ← head_decode b;
  b ← load_content st index_root;
  index ← index_decode b;
  _ ← check (bool_decide (hm_algo head = a) && bool_decide (ix_algo index = a)) CorruptObject;
  _ ← check (same_opt (hm_latest_checkpoint_root head) (mf_checkpoint_root manifest)) CorruptObject;
  retention ← load_retention st a (mf_retention_root manifest);
  checkpoint ← load_checkpoint st a (mf_checkpoint_root manifest);
  segments ← try_map (load_segment st a (r_segments r)) (ix_entries index);
  let s := mkRootState head manifest index segments retention checkpoint in
  l ← to_ledger s;
  _ ← match retention with Some r => validate_retention_against_ledger r l | None => Ok () end;
  _ ← match checkpoint with Some c => validate_checkpoint_payload (sc_payload c) s ns collection | None => Ok () end;
  Ok s.

Definition ledger_proof_leaves s ns collection : list Digest :=
  map (ledger_proof_leaf_hash (hm_algo (st_head s)) ns collection) (concat (map sg_entries (st_segments s))).
End Read.

Section Ops.
Context `{hasher : Hasher} {S : Type} `{ops : !ObjectStore S}.
Abbreviation Loom := (Loom (S := S)).
Implicit Types (l : Loom) (ns collection path : bytes) (g : Ledger).

Definition auth_collection ns collection (right : AclRight) : M Loom () :=
  m_read (fun l => authorize_collection (access l) ns FacetKind.Ledger collection right).

Definition store_algo l : Algo := digest_algo (c_store (contents l)).

(** ** Building a root *)

Definition blob_entry (name : bytes) (d : Digest) : TreeEntry := mkTreeEntry name EK_Blob d 0.

Definition build_ledger_root_tree ns collection g (retention : option LedgerRetentionMetadata) (mode : LedgerAppendMode)
    (checkpoint : option LedgerSignedCheckpoint) : M Loom Digest :=
  let a := l_algo g in
  _ ⟸ m_lift (match retention with Some r => validate_retention_against_ledger r g | None => Ok () end);
  '(entries, index_entries) ⟸
    (if bool_decide (payloads g = []) then m_ret ([], [])
     else
       let segment := segment_build a 0 None (payloads g) in
       segment_root ⟸ m_store_content (segment_encode segment);
       last ⟸ m_lift (ok_or (last_seq segment) CorruptObject);
       head ⟸ m_lift (ok_or (segment_head segment) CorruptObject);
       m_ret ([blob_entry (segment_name (sg_first segment)) segment_root],
              [mkIndexEntry (sg_first segment) last segment_root (len (sg_entries segment)) head]));
  index ⟸ m_lift (index_new a index_entries);
  index_root ⟸ m_store_content (index_encode index);
  let latest_segment_root := ie_root <$> last (ix_entries index) in
  let head := mkHead a (latest_of g) latest_segment_root (ledger_head_hash g) mode None None in
  base_root ⟸ m_store_content (head_encode head);
  retention_root ⟸ (match retention with Some r => d ⟸ m_store_content (retention_encode r); m_ret (Some d) | None => m_ret None end);
  '(checkpoint_root, entries) ⟸
    (match checkpoint with
     | None => m_ret (None, entries)
     | Some c =>
         let expected := mkCheckpointPayload a ns collection (latest_of g) (ledger_head_hash g) base_root index_root latest_segment_root retention_root mode in
         _ ⟸ m_guard (negb (same_payload (sc_payload c) expected)) InvalidArgument;
         d ⟸ m_store_content (signed_checkpoint_encode c);
         m_ret (Some d, entries ++ [blob_entry LEDGER_ROOT_CHECKPOINT_ENTRY d])
     end);
  let head := mkHead a (latest_of g) latest_segment_root (ledger_head_hash g) mode None checkpoint_root in
  head_root ⟸ m_store_content (head_encode head);
  manifest_root ⟸ m_store_content (manifest_encode (mkManifest a head_root index_root checkpoint_root None retention_root));
  let entries := entries ++ [blob_entry LEDGER_ROOT_HEAD_ENTRY head_root; blob_entry LEDGER_ROOT_MANIFEST_ENTRY manifest_root;
                             blob_entry LEDGER_ROOT_SEGMENT_INDEX_ENTRY index_root]
                 ++ match retention_root with Some d => [blob_entry LEDGER_ROOT_RETENTION_ENTRY d] | None => [] end in
  o ⟸ m_lift (tree entries);
  m_put (fun s => Some (put_object s o)).

(** [stage_ledger_reserved_with_retention] and [stage_ledger_reserved_with_checkpoint] *)
Definition stage_ledger ns path g (retention : option LedgerRetentionMetadata) (mode : LedgerAppendMode) (checkpoint : option LedgerSignedCheckpoint) : M Loom () :=
  path ⟸ m_lift (normalize_path path);
  collection ⟸ m_lift (collection_from_ledger_path path);
  root ⟸ build_ledger_root_tree ns collection g retention mode checkpoint;
  m_modify (fun l => put_work l ns path (SLedger root)).

Definition make_ledger_facet ns : M Loom () := create_directory_reserved ns (facet_root FacetKind.Ledger) true.

Definition put_ledger_unchecked ns collection g : M Loom () :=
  a ⟸ m_gets store_algo;
  _ ⟸ m_guard (negb (bool_decide (l_algo g = a))) InvalidArgument;
  _ ⟸ make_ledger_facet ns;
  stage_ledger ns (ledger_path collection) g None Draft None.

Definition put_ledger ns collection g : M Loom () :=
  _ ⟸ auth_collection ns collection Write;
  put_ledger_unchecked ns collection g.

(** ** Reading *)

Definition read_ledger_root_state_reserved l ns path : res LedgerRootState :=
  path ← normalize_path path;
  collection ← collection_from_ledger_path path;
  match work_slot l ns path with
  | Some (SLedger root) => ledger_root_state (contents l) root ns collection
  | Some _ => Err InvalidArgument
  | None => Err NotFound
  end.

Definition read_ledger_reserved l ns path : res Ledger := s ← read_ledger_root_state_reserved l ns path; to_ledger s.

Definition get_ledger ns collection : M Loom Ledger :=
  _ ⟸ auth_collection ns collection Read;
  m_read (fun l => read_ledger_reserved l ns (ledger_path collection)).

Definition load_or_new_unchecked l ns collection : res Ledger :=
  match read_ledger_reserved l ns (ledger_path collection) with
  | Ok g => Ok g
  | Err NotFound => Ok (with_algo (store_algo l))
  | Err e => Err e
  end.

Definition validate_ledger_append_mode ns (mode : LedgerAppendMode) : M Loom () :=
  match mode with
  | Draft => m_ret ()
  | Authoritative =>
      branch ⟸ m_reg (fun r => head_branch r ns);
      _ ⟸ m_lift (validate_protected_ref_name (branch_ref branch));
      p ⟸ m_gets (fun l => protected_refs l !! (ns, branch_ref branch));
      match p with
      | None => m_err PermissionDenied
      | Some p => m_guard (negb (fast_forward_only p)) PermissionDenied
      end
  end.

Definition ledger_append_with_mode ns collection (payload : bytes) (mode : LedgerAppendMode) : M Loom N :=
  _ ⟸ auth_collection ns collection Write;
  _ ⟸ validate_ledger_append_mode ns mode;
  '(g, retention) ⟸ m_read (fun l =>
     match read_ledger_root_state_reserved l ns (ledger_path collection) with
     | Ok s => g ← to_ledger s; Ok (g, st_retention s)
     | Err NotFound => Ok (with_algo (store_algo l), None)
     | Err e => Err e
     end);
  let '(g, seq) := append g payload in
  a ⟸ m_gets store_algo;
  _ ⟸ m_guard (negb (bool_decide (l_algo g = a))) InvalidArgument;
  _ ⟸ make_ledger_facet ns;
  _ ⟸ stage_ledger ns (ledger_path collection) g retention mode None;
  m_ret seq.

Definition ledger_append ns collection (payload : bytes) : M Loom N := ledger_append_with_mode ns collection payload Draft.

Definition ledger_set_retention_ranges ns collection (ranges : list LedgerRetentionRange) : M Loom () :=
  _ ⟸ auth_collection ns collection Write;
  '(g, mode) ⟸ m_read (fun l =>
     match read_ledger_root_state_reserved l ns (ledger_path collection) with
     | Ok s => g ← to_ledger s; Ok (g, hm_append_mode (st_head s))
     | Err NotFound => Ok (with_algo (store_algo l), Draft)
     | Err e => Err e
     end);
  retention ⟸ m_lift (retention_new (l_algo g) ranges);
  _ ⟸ make_ledger_facet ns;
  stage_ledger ns (ledger_path collection) g (Some retention) mode None.

(** ** Ranges and single entries *)

Definition range_entries (segments : list LedgerSegment) (start end_ : N) : list LedgerRangeEntry :=
  concat (map (fun seg : LedgerSegment =>
    match last_seq seg with
    | None => []
    | Some last =>
        if (last <? start) || (end_ <=? sg_first seg) then []
        else omap (fun e => if (start <=? se_seq e) && (se_seq e <? end_) then Some (mkRangeEntry (se_seq e) (se_payload e) (se_hash e)) else None) (sg_entries seg)
    end) segments).

Definition ledger_range ns collection (start end_ : N) : M Loom LedgerRangeScan :=
  _ ⟸ auth_collection ns collection Read;
  _ ⟸ m_guard (end_ <? start) InvalidArgument;
  m_read (fun l =>
    match read_ledger_root_state_reserved l ns (ledger_path collection) with
    | Ok s =>
        let state := from_option (fun r => state_for_half_open_range r start end_) Retained (st_retention s) in
        if bool_decide (state = Pruned) then Err RetainedGap
        else Ok (mkRangeScan start end_ state (range_entries (st_segments s) start end_))
    | Err NotFound => Ok (mkRangeScan start end_ Retained [])
    | Err e => Err e
    end).

Definition ledger_get ns collection (seq : N) : M Loom (option bytes) :=
  _ ⟸ auth_collection ns collection Read;
  if u64_max <? seq + 1 then m_ret None
  else scan ⟸ ledger_range ns collection seq (seq + 1); m_ret (re_payload <$> head (rs_entries scan)).

Definition ledger_head ns collection : M Loom (option Digest) :=
  _ ⟸ auth_collection ns collection Read;
  m_read (fun l => g ← load_or_new_unchecked l ns collection; Ok (ledger_head_hash g)).

Definition ledger_len ns collection : M Loom N :=
  _ ⟸ auth_collection ns collection Read;
  m_read (fun l => g ← load_or_new_unchecked l ns collection; Ok (len (payloads g))).

Definition ledger_verify ns collection : M Loom () :=
  _ ⟸ auth_collection ns collection Read;
  m_read (fun l => g ← load_or_new_unchecked l ns collection; verify g).

(** The names come in order and once, as the staged paths do: [out.sort(); out.dedup()] keeps them. *)
Definition ledger_list_collections ns : M Loom (list bytes) :=
  _ ⟸ auth_collection ns [] Read;
  m_gets (fun l =>
    let names := omap (fun p =>
      match strip_prefix p (facet_root FacetKind.Ledger ++ [slash]) with
      | Some rest => if bool_decide (slash ∈ rest) || starts_with rest [x2e] then None else Some rest
      | None => None
      end) (staged_paths l ns) in
    names).

(** ** Proofs *)

Definition read_state ns collection : M Loom LedgerRootState :=
  _ ⟸ auth_collection ns collection Read;
  m_read (fun l => read_ledger_root_state_reserved l ns (ledger_path collection)).

Definition ledger_proof_tree ns collection : M Loom LedgerProofTree :=
  s ⟸ read_state ns collection;
  let a := hm_algo (st_head s) in
  let leaves := ledger_proof_leaves s ns collection in
  let root := if bool_decide (leaves = []) then ledger_proof_empty_hash a ns collection else ledger_merkle_root a leaves in
  m_ret (mkProofTree a ns collection (len leaves) root).

Definition ledger_inclusion_proof ns collection (seq : N) : M Loom LedgerInclusionProof :=
  s ⟸ read_state ns collection;
  let a := hm_algo (st_head s) in
  let leaves := ledger_proof_leaves s ns collection in
  match leaves !! N.to_nat seq with
  | None => m_err NotFound
  | Some leaf =>
      path ⟸ m_lift (ledger_merkle_inclusion_path a leaves seq);
      m_ret (mkInclusionProof (mkProofTree a ns collection (len leaves) (ledger_merkle_root a leaves)) seq leaf path)
  end.

Definition ledger_consistency_proof ns collection (first second : N) : M Loom LedgerConsistencyProof :=
  s ⟸ read_state ns collection;
  let a := hm_algo (st_head s) in
  let leaves := ledger_proof_leaves s ns collection in
  _ ⟸ m_guard ((first =? 0) || (second <? first) || (len leaves <? second)) InvalidArgument;
  path ⟸ m_lift (ledger_merkle_consistency_path a (take (N.to_nat second) leaves) first);
  m_ret (mkConsistencyProof a ns collection first second (ledger_merkle_root a (take (N.to_nat first) leaves))
    (ledger_merkle_root a (take (N.to_nat second) leaves)) path).

(** ** Checkpoints *)

Definition ledger_checkpoint_payload ns collection : M Loom LedgerCheckpointPayload :=
  s ⟸ read_state ns collection; m_ret (checkpoint_payload_from_state s ns collection).

Definition ledger_checkpoint_payload_bytes ns collection : M Loom bytes :=
  p ⟸ ledger_checkpoint_payload ns collection; m_ret (checkpoint_payload_encode p).

(** The signature of the same principal, key and suite is replaced where it stands. *)
Fixpoint put_signature (sig : LedgerCheckpointSignature) (l : list LedgerCheckpointSignature) : list LedgerCheckpointSignature :=
  match l with
  | [] => [sig]
  | s :: l =>
      if bool_decide (cs_principal s = cs_principal sig) && bool_decide (cs_key_id s = cs_key_id sig) && bool_decide (cs_suite s = cs_suite sig)
      then mkCheckpointSignature (cs_principal s) (cs_key_id s) (cs_suite s) (cs_signature sig) :: l
      else s :: put_signature sig l
  end.

Context `{crypto : Crypto}.

Definition identity_of : M Loom IdentityStore := m_read (fun l => ok_or (identity (access l)) PermissionDenied).

Definition ledger_attach_checkpoint_signature ns collection (principal key_id suite signature : bytes) : M Loom () :=
  _ ⟸ auth_collection ns collection Write;
  s ⟸ m_read (fun l => read_ledger_root_state_reserved l ns (ledger_path collection));
  let payload := checkpoint_payload_from_state s ns collection in
  i ⟸ identity_of;
  _ ⟸ m_lift (verify_principal_signature i principal key_id suite LEDGER_CHECKPOINT_SIGNATURE_PURPOSE (checkpoint_payload_encode payload) signature);
  let checkpoint := default (mkSignedCheckpoint payload []) (st_checkpoint s) in
  _ ⟸ m_guard (negb (same_payload (sc_payload checkpoint) payload)) CorruptObject;
  let checkpoint := mkSignedCheckpoint (sc_payload checkpoint)
    (put_signature (mkCheckpointSignature principal key_id suite signature) (sc_signatures checkpoint)) in
  g ⟸ m_lift (to_ledger s);
  _ ⟸ make_ledger_facet ns;
  stage_ledger ns (ledger_path collection) g (st_retention s) (hm_append_mode (st_head s)) (Some checkpoint).

Definition ledger_verify_checkpoint_signatures ns collection : M Loom N :=
  s ⟸ read_state ns collection;
  match st_checkpoint s with
  | None => m_ret 0
  | Some c =>
      _ ⟸ m_lift (validate_checkpoint_payload (sc_payload c) s ns collection);
      i ⟸ identity_of;
      let payload := checkpoint_payload_encode (sc_payload c) in
      _ ⟸ m_lift (try_fold (fun _ sig =>
             verify_principal_signature i (cs_principal sig) (cs_key_id sig) (cs_suite sig) LEDGER_CHECKPOINT_SIGNATURE_PURPOSE payload (cs_signature sig))
             () (sc_signatures c));
      m_ret (len (sc_signatures c))
  end.
End Ops.
End LedgerEngine.
