(* ===== verification/LedgerAppend.v ===== *)
(** * Appending to a ledger and reading it back

    A ledger root that is built reads back as the ledger it was built from, with its retention ranges; an
    append stores the ledger with one entry more. *)

From S2P Require Import Prelude Codec Types Workspace Object ObjectProps Cbor Store Acl ProllyTree VcsTree VcsPath VcsShard VcsContent VcsEdit Registry Identity Effect Engine EngineFiles EngineFs EnginePosix EngineVcs EngineVcsProps Ledger LedgerMerkle LedgerClaims LedgerCodec LedgerEngine.

Module LedgerAppend.
Import Error Codec Digest Object ObjectProps Cbor Store Acl VcsTree VcsPath VcsWrite VcsShard VcsContent VcsContentProps VcsEdit ContentLaws Registry Identity Effect Engine EngineFiles EngineFs EngineVcs EngineVcsProps Ledger LedgerProof LedgerMerkle LedgerClaims LedgerCodec LedgerEngine.

(** ** Built segments *)

Section Segments.
Context `{hasher : Hasher} (a : Algo).
Implicit Types (ps : list bytes).

Lemma build_entries_snoc seq prev ps p : seq + len ps <= u64_max ->
  build_entries a seq prev (ps ++ [p]) = build_entries a seq prev ps ++
    [mkSegmentEntry (seq + len ps) p (mkDigest a (chain_end a prev ps)) (chain a (chain_end a prev ps) p)].
Proof.
  revert seq prev. induction ps as [|q ps IH]; intros seq prev H; cbn [app build_entries].
  { unfold len. cbn. by rewrite N.add_0_r. }
  unfold len in H. cbn [length] in H. rewrite as_u64_id by lia. rewrite IH by (unfold len; lia). cbn [app]. do 4 f_equal. unfold len. cbn [length]. lia.
Qed.

Lemma built_last ps : ps <> [] -> len ps <= u64_max ->
  exists e, last (build_entries a 0 GENESIS ps) = Some e /\ se_seq e = len ps - 1 /\ se_hash e = mkDigest a (chain_end a GENESIS ps).
Proof.
  intros Hne Hl. destruct ps as [|p ps _] using rev_ind; [done|]. unfold len in Hl. rewrite length_app in Hl. cbn [length] in Hl.
  rewrite build_entries_snoc, last_snoc by (unfold len; lia). eexists. split; [done|]. cbn [se_seq se_hash]. split; [unfold len; rewrite length_app; cbn [length]; lia|].
  by rewrite chain_end_snoc.
Qed.

Lemma built_hashes seq prev ps : map se_hash (build_entries a seq prev ps) = map (mkDigest a) (chain_from a prev ps).
Proof. revert seq prev. induction ps as [|p ps IH]; intros seq prev; cbn [build_entries map chain_from]; [done|]. by rewrite IH. Qed.
End Segments.

(** ** Names *)

(** A collection has a name without a slash. *)
Definition collection_name (c : bytes) : Prop := c <> [] /\ slash ∉ c.

Lemma no_double_slash c : slash ∉ c -> has_double_slash c = false.
Proof.
  induction c as [|x c IH]; intros H; [done|]. cbn [has_double_slash]. destruct c as [|y c]; [done|].
  rewrite bool_decide_eq_false_2 by set_solver. cbn [andb orb]. apply IH. set_solver.
Qed.

Lemma ledger_path_eq c : collection_name c -> ledger_path c = facet_root FacetKind.Ledger ++ [slash] ++ c.
Proof.
  intros [Hne Hs]. unfold ledger_path, facet_path. assert (trim_start c = c) as ->; [|by rewrite bool_decide_eq_false_2].
  destruct c as [|x c]; [done|]. cbn [trim_start]. rewrite bool_decide_eq_false_2; [done|set_solver].
Qed.

Lemma ledger_path_normal c : collection_name c -> normalize_path (ledger_path c) = Ok (ledger_path c).
Proof.
  intros Hc. rewrite ledger_path_eq by done. destruct Hc as [Hne Hs]. unfold normalize_path.
  change (trim_start (facet_root FacetKind.Ledger ++ [slash] ++ c)) with (facet_root FacetKind.Ledger ++ [slash] ++ c).
  rewrite bool_decide_eq_false_2 by done. cbn [orb]. rewrite app_assoc, last_app.
  destruct c as [|x c _] using rev_ind; [done|]. rewrite last_snoc. rewrite bool_decide_eq_false_2 by (intros [= ->]; set_solver). cbn [orb].
  assert (has_double_slash ((facet_root FacetKind.Ledger ++ [slash]) ++ c ++ [x]) = has_double_slash (slash :: c ++ [x])) as -> by (by destruct c).
  assert (has_double_slash (slash :: c ++ [x]) = has_double_slash (c ++ [x])) as ->; [|by rewrite no_double_slash].
  destruct (c ++ [x]) as [|y q]; [done|]. apply not_elem_of_cons in Hs as [Hy _]. change (has_double_slash (slash :: y :: q)) with
    ((bool_decide (slash = slash) && bool_decide (y = slash)) || has_double_slash (y :: q)).
  by rewrite (bool_decide_eq_false_2 (y = slash)), andb_false_r by done.
Qed.

Lemma ledger_path_collection c : collection_name c -> collection_from_ledger_path (ledger_path c) = Ok c.
Proof.
  intros Hc. rewrite ledger_path_eq by done. destruct Hc as [Hne Hs]. unfold collection_from_ledger_path. rewrite app_assoc.
  rewrite (proj2 (strip_prefix_Some _ _ c)) by done. cbn [ok_or]. rewrite (bind_run _ _ _ eq_refl), !bool_decide_eq_false_2 by done. done.
Qed.

(** ** What the root of a ledger holds *)

Section Root.
Context `{hasher : Hasher} (a : Algo).
Implicit Types (ps : list bytes) (r : option LedgerRetentionMetadata) (mode : LedgerAppendMode).

(** The ledger of some payloads. *)
Definition ledger_of ps : Ledger := mkLedger a ps (map (mkDigest a) (chain_from a GENESIS ps)).

Definition segment_of ps : LedgerSegment := segment_build a 0 None ps.
Definition segment_root ps : Digest := hash a (segment_encode (segment_of ps)).
Definition head_hash ps : Digest := mkDigest a (chain_end a GENESIS ps).
Definition index_of ps : LedgerSegmentIndex := mkIndex a [mkIndexEntry 0 (len ps - 1) (segment_root ps) (len ps) (head_hash ps)].
Definition index_root ps : Digest := hash a (index_encode (index_of ps)).
Definition head_of ps mode : LedgerHeadMetadata := mkHead a (Some (len ps - 1)) (Some (segment_root ps)) (Some (head_hash ps)) mode None None.
Definition head_root ps mode : Digest := hash a (head_encode (head_of ps mode)).
Definition retention_root r : option Digest := (fun x => hash a (retention_encode x)) <$> r.
Definition manifest_of ps r mode : LedgerManifest := mkManifest a (head_root ps mode) (index_root ps) None None (retention_root r).
Definition manifest_root ps r mode : Digest := hash a (manifest_encode (manifest_of ps r mode)).

Definition root_entries ps r mode : list TreeEntry :=
  [blob_entry LEDGER_ROOT_HEAD_ENTRY (head_root ps mode); blob_entry LEDGER_ROOT_MANIFEST_ENTRY (manifest_root ps r mode)]
  ++ match retention_root r with Some d => [blob_entry LEDGER_ROOT_RETENTION_ENTRY d] | None => [] end
  ++ [blob_entry (segment_name 0) (segment_root ps); blob_entry LEDGER_ROOT_SEGMENT_INDEX_ENTRY (index_root ps)].

(** The contents an append stores, and the tree over them. *)
Definition root_contents ps r mode : list bytes :=
  [segment_encode (segment_of ps); index_encode (index_of ps); head_encode (head_of ps mode)]
  ++ match r with Some r => [retention_encode r] | None => [] end
  ++ [manifest_encode (manifest_of ps r mode)].

Definition root_object ps r mode : Object := OTree (root_entries ps r mode).

Definition root_state ps r mode : LedgerRootState :=
  mkRootState (head_of ps mode) (manifest_of ps r mode) (index_of ps) [segment_of ps] r None.

Lemma chain_end_wf ps : length (chain_end a GENESIS ps) = DIGEST_LEN.
Proof. by apply chain_end_len. Qed.

Lemma root_tree ps r mode :
  Object.tree ([blob_entry (segment_name 0) (segment_root ps)] ++ [blob_entry LEDGER_ROOT_HEAD_ENTRY (head_root ps mode);
         blob_entry LEDGER_ROOT_MANIFEST_ENTRY (manifest_root ps r mode); blob_entry LEDGER_ROOT_SEGMENT_INDEX_ENTRY (index_root ps)]
        ++ match retention_root r with Some d => [blob_entry LEDGER_ROOT_RETENTION_ENTRY d] | None => [] end) = Ok (root_object ps r mode).
Proof. unfold root_object, root_entries. generalize (head_root ps mode) (manifest_root ps r mode) (index_root ps) (segment_root ps). intros. by destruct (retention_root r). Qed.

Lemma ledger_of_wf ps : wf_ledger (ledger_of ps).
Proof. unfold wf_ledger. cbn [ledger_of hashes payloads]. by rewrite length_map, chain_from_length. Qed.

Lemma ledger_of_chained ps : map dbytes (hashes (ledger_of ps)) = chain_from a GENESIS ps.
Proof. cbn [ledger_of hashes]. rewrite map_map. apply map_id. Qed.

Lemma verify_ledger_of ps : verify (ledger_of ps) = Ok ().
Proof. apply verify_Ok; [apply ledger_of_wf|apply ledger_of_chained]. Qed.

Lemma head_ledger_of ps : ps <> [] -> ledger_head_hash (ledger_of ps) = Some (head_hash ps).
Proof.
  intros Hne. unfold ledger_head_hash, head_hash. cbn [ledger_of hashes]. rewrite (fmap_last (mkDigest a)). destruct ps as [|p ps _] using rev_ind; [done|].
  by rewrite chain_from_snoc, last_snoc, chain_end_snoc.
Qed.

Lemma latest_ledger_of ps : ps <> [] -> latest_of (ledger_of ps) = Some (len ps - 1).
Proof. by destruct ps. Qed.

(** The parts of a root can be stored and read. *)
Lemma head_hash_tagged ps : tagged a (head_hash ps).
Proof. split; [done|apply chain_end_wf]. Qed.

Lemma segment_of_built ps : built (segment_of ps).
Proof. exists None, ps. split_and!; [done|by apply N.le_0_l|done|done]. Qed.

Lemma index_of_valid ps : ps <> [] -> len ps <= u64_max -> index_validate_from None (ix_entries (index_of ps)) = Ok ().
Proof.
  intros Hne Hl. assert (0 < len ps) by (destruct ps; [done|unfold len; cbn [length]; lia]). cbn [index_of ix_entries index_validate_from ie_count ie_first ie_last].
  destruct (N.eqb_spec (len ps) 0); [lia|]. destruct (N.ltb_spec (len ps - 1) 0); [lia|].
  replace (len ps - 1 - 0 + 1) with (len ps) by lia. rewrite as_u64_id by done. by rewrite N.eqb_refl.
Qed.

Lemma index_of_wf ps : ps <> [] -> len ps <= u64_max -> wf_index (index_of ps).
Proof.
  intros Hne Hl. split; [|by apply index_of_valid]. apply Forall_singleton.
  split_and!; [by apply N.le_0_l|cbn; unfold u64; lia|apply hash_tagged|done|apply head_hash_tagged].
Qed.

Lemma head_of_wf ps mode : len ps <= u64_max -> wf_head (head_of ps mode).
Proof.
  intros Hl. split; try done.
  - intros x [= <-]. unfold u64. lia.
  - intros x [= <-]. apply hash_tagged.
  - intros x [= <-]. apply head_hash_tagged.
Qed.

Lemma manifest_of_wf ps r mode : wf_manifest (manifest_of ps r mode).
Proof. split; try apply hash_tagged; try done. intros x. destruct r; [|done]. intros [= <-]. apply hash_tagged. Qed.
End Root.

(** ** Reading a root back *)

Section Read.
Context `{hasher : Hasher} {S : Type} `{ops : !ObjectStore S} (a : Algo).
Implicit Types (st : Contents S) (ps : list bytes) (r : option LedgerRetentionMetadata) (mode : LedgerAppendMode).

Lemma holds_retag st d b : holds st d b -> holds st (retag d) b.
Proof. done. Qed.

Lemma same_retagged d : same d (retag d) = true.
Proof. apply bool_decide_eq_true_2. done. Qed.
Lemma same_refl d : same d d = true.
Proof. by apply bool_decide_eq_true_2. Qed.
Lemma same_opt_refl d : same_opt d d = true.
Proof. by apply bool_decide_eq_true_2. Qed.
Lemma same_opt_retag d : same_opt d (retag <$> d) = true.
Proof. apply bool_decide_eq_true_2. by destruct d. Qed.

Lemma check_true b e : b = true -> check b e = Ok ().
Proof. by intros ->. Qed.

Lemma roots_of ps r mode :
  try_fold root_entry no_roots (map retag_entry (root_entries a ps r mode)) =
    Ok (mkRoots (Some (retag (manifest_root a ps r mode))) (Some (retag (head_root a ps mode))) (Some (retag (index_root a ps)))
      (retag <$> retention_root a r) None [dbytes (segment_root a ps)]).
Proof. unfold root_entries. generalize (head_root a ps mode) (manifest_root a ps r mode) (index_root a ps) (segment_root a ps). intros. by destruct (retention_root a r). Qed.

Lemma load_segment_of st ps : ps <> [] -> len ps <= u64_max -> holds st (segment_root a ps) (segment_encode (segment_of a ps)) ->
  load_segment st a [dbytes (segment_root a ps)] (mkIndexEntry 0 (len ps - 1) (segment_root a ps) (len ps) (head_hash a ps)) = Ok (segment_of a ps).
Proof.
  intros Hne Hl Hs. unfold load_segment. cbn [ie_root ie_first ie_last ie_count ie_head].
  erewrite bind_run by (by apply check_true, bool_decide_eq_true_2, list_elem_of_singleton).
  rewrite (bind_run _ _ _ (load_holds _ _ _ Hs)). rewrite (bind_run _ _ _ (check_true _ CorruptObject (same_refl _))).
  rewrite (bind_run _ _ _ (segment_roundtrip _ (segment_of_built a ps) (proj1 Hs))).
  destruct (built_last a ps Hne Hl) as (e & He & Hq & Hh). unfold last_seq, segment_head. cbn [segment_of segment_build sg_entries sg_first from_option]. rewrite He.
  cbn [fmap option_fmap option_map]. rewrite Hq, Hh. erewrite bind_run; [done|]. apply check_true. rewrite N.eqb_refl, bool_decide_eq_true_2 by done.
  replace (len (build_entries a 0 GENESIS ps)) with (len ps); [rewrite N.eqb_refl; by apply same_opt_refl|].
  unfold len. f_equal. rewrite <-(build_entries_payloads a 0 GENESIS ps) at 1. by rewrite length_map.
Qed.

Lemma to_ledger_of ps r mode : ps <> [] -> to_ledger (root_state a ps r mode) = Ok (ledger_of a ps).
Proof.
  intros Hne. unfold to_ledger. cbn [root_state st_head st_segments st_index head_of hm_algo hm_latest_seq hm_chain_head hm_latest_segment_root map concat].
  rewrite app_nil_r. cbn [segment_of segment_build sg_entries from_option]. rewrite build_entries_payloads, built_hashes. fold (ledger_of a ps).
  rewrite latest_ledger_of, head_ledger_of by done. erewrite bind_run by (apply check_true; by rewrite bool_decide_eq_true_2, !same_opt_refl).
  by rewrite (bind_run _ _ _ (verify_ledger_of a ps)).
Qed.

(** Retention ranges that a ledger of [a] can carry. *)
Definition carries_retention ps (x : LedgerRetentionMetadata) : Prop :=
  wf_retention x /\ rt_algo x = a /\ validate_retention_against_ledger x (ledger_of a ps) = Ok ().

(** A store that has the root and everything it refers to. *)
Record root_stored st (root : Digest) ps r mode : Prop := {
  rs_root : get_object (c_store st) root = Ok (retag_object (root_object a ps r mode));
  rs_contents b : b ∈ root_contents a ps r mode -> holds st (hash a b) b;
}.

Lemma load_retention_of st ps r : (forall x, r = Some x -> carries_retention ps x /\ holds st (hash a (retention_encode x)) (retention_encode x)) ->
  load_retention st a (retention_root a r) = Ok r.
Proof.
  destruct r as [x|]; [|done]. intros H. destruct (H x eq_refl) as [(H1 & H2 & _) Hh]. cbn [load_retention retention_root fmap option_fmap option_map].
  rewrite (bind_run _ _ _ (load_holds _ _ _ Hh)), (bind_run _ _ _ (retention_roundtrip x H1 (proj1 Hh))).
  by erewrite bind_run by (by apply check_true, bool_decide_eq_true_2).
Qed.

Lemma root_reads st root ps r mode ns collection :
  ps <> [] -> len ps <= u64_max -> (forall x, r = Some x -> carries_retention ps x) -> root_stored st root ps r mode ->
  ledger_root_state st root ns collection = Ok (root_state a ps r mode).
Proof.
  intros Hne Hl Hr [Hroot Hc]. unfold ledger_root_state.
  assert (Hs : holds st (segment_root a ps) (segment_encode (segment_of a ps))) by (apply Hc; unfold root_contents; set_solver).
  assert (Hi : holds st (index_root a ps) (index_encode (index_of a ps))) by (apply Hc; unfold root_contents; set_solver).
  assert (Hh : holds st (head_root a ps mode) (head_encode (head_of a ps mode))) by (apply Hc; unfold root_contents; set_solver).
  assert (Hm : holds st (manifest_root a ps r mode) (manifest_encode (manifest_of a ps r mode))) by (apply Hc; unfold root_contents; set_solver).
  rewrite (bind_run _ _ _ Hroot). cbn [root_object retag_object]. erewrite bind_run by reflexivity. rewrite (bind_run _ _ _ (roots_of ps r mode)).
  cbn [r_manifest r_head r_index r_retention r_checkpoint r_segments ok_or]. do 3 (erewrite bind_run by reflexivity).
  rewrite (bind_run _ _ _ (load_holds _ _ _ (holds_retag _ _ _ Hm))), (bind_run _ _ _ (manifest_roundtrip _ (manifest_of_wf a ps r mode) (proj1 Hm))).
  cbn [manifest_of mf_algo mf_head_root mf_segment_index_root mf_retention_root mf_checkpoint_root].
  erewrite bind_run by (apply check_true; by rewrite !same_retagged). erewrite bind_run by (apply check_true, same_opt_retag). erewrite bind_run by (by apply check_true).
  rewrite (bind_run _ _ _ (load_holds _ _ _ (holds_retag _ _ _ Hh))), (bind_run _ _ _ (head_roundtrip _ (head_of_wf a ps mode Hl) (proj1 Hh))).
  rewrite (bind_run _ _ _ (load_holds _ _ _ (holds_retag _ _ _ Hi))), (bind_run _ _ _ (index_roundtrip _ (index_of_wf a ps Hne Hl) (proj1 Hi))).
  cbn [head_of hm_algo hm_latest_checkpoint_root index_of ix_algo ix_entries].
  erewrite bind_run by (apply check_true; by rewrite bool_decide_eq_true_2). erewrite bind_run by (by apply check_true).
  erewrite bind_run by (apply (load_retention_of st ps r); intros x ->; split; [by apply Hr|apply Hc; unfold root_contents; set_solver]).
  erewrite bind_run by reflexivity.
  assert (try_map (load_segment st a [dbytes (segment_root a ps)]) (ix_entries (index_of a ps)) = Ok [segment_of a ps]) as Hseg
    by (cbn [index_of ix_entries try_map]; by rewrite (bind_run _ _ _ (load_segment_of st ps Hne Hl Hs))).
  cbn [index_of ix_entries] in Hseg. rewrite (bind_run _ _ _ Hseg). fold (head_of a ps mode) (manifest_of a ps r mode) (index_of a ps) (root_state a ps r mode).
  rewrite (bind_run _ _ _ (to_ledger_of ps r mode Hne)). destruct r as [x|]; [|done]. destruct (Hr x eq_refl) as (_ & _ & Hv). by rewrite (bind_run _ _ _ Hv).
Qed.
End Read.

(** ** What reading establishes *)

Section Establish.
Context `{hasher : Hasher} {S : Type} `{ops : !ObjectStore S}.
Implicit Types (st : Contents S) (s : LedgerRootState) (g : Ledger).

Lemma check_Ok b e u : check b e = Ok u -> b = true.
Proof. by destruct b. Qed.

Lemma to_ledger_Ok s g : to_ledger s = Ok g -> l_algo g = hm_algo (st_head s) /\ wf_ledger g /\ verify g = Ok ().
Proof.
  unfold to_ledger. intros (? & _ & H)%bind_Ok. apply bind_Ok in H as ([] & Hv & [= <-]). split_and!; [done| |done].
  unfold wf_ledger. cbn [hashes payloads]. by rewrite !length_map.
Qed.

Lemma root_state_Ok st root ns collection s : ledger_root_state st root ns collection = Ok s ->
  exists g, to_ledger s = Ok g /\ forall x, st_retention s = Some x -> wf_retention x /\ rt_algo x = l_algo g /\ validate_retention_against_ledger x g = Ok ().
Proof.
  unfold ledger_root_state. intros (o & _ & H)%bind_Ok. do 11 (apply bind_Ok in H as (? & _ & H)).
  apply bind_Ok in H as (head & _ & H). do 2 (apply bind_Ok in H as (? & _ & H)). apply bind_Ok in H as (u & Ha%check_Ok & H). apply bind_Ok in H as (? & _ & H).
  apply bind_Ok in H as (r & Hr & H). do 2 (apply bind_Ok in H as (? & _ & H)). apply bind_Ok in H as (g & Hg & H). apply bind_Ok in H as ([] & Hv & H).
  apply bind_Ok in H as (? & _ & [= <-]). exists g. split; [exact Hg|]. cbn [st_retention]. intros rx ->. apply to_ledger_Ok in Hg as (Hal & _).
  apply andb_true_iff in Ha as [Ha%bool_decide_eq_true_1 _]. cbn [st_head] in Hal.
  destruct (mf_retention_root _) as [d|]; [|done]. apply bind_Ok in Hr as (b & _ & Hr). apply bind_Ok in Hr as (y & Hy & Hr).
  apply bind_Ok in Hr as (? & Hc%check_Ok%bool_decide_eq_true_1 & [= ->]). split_and!; [by eapply retention_decode_wf|congruence|exact Hv].
Qed.
End Establish.

(** ** Building a root *)

Section Build.
Context `{hasher : Hasher} {S : Type} `{ops : !ObjectStore S} {U : bytes -> Prop} {ok : S -> Prop} `{laws : !StoreLaws S U ok}.
Context (a : Algo) (V : bytes -> Prop) (Hadm : admissible (U := U) a V).
Abbreviation Loom := (Loom (S := S)).
Implicit Types (l : Loom) (b : bytes) (ps : list bytes) (r : option LedgerRetentionMetadata) (mode : LedgerAppendMode) (g : Ledger).
Abbreviation indexed := (indexed (ok := ok) a V).

(** [l'] is [l] with the contents [bs] stored. *)
Record grown l (bs : list bytes) l' : Prop := {
  gr_contents : exists st, l' = set_contents l st;
  gr_indexed : indexed (contents l');
  gr_extends : ProllyTree.extends (c_store (contents l)) (c_store (contents l'));
  gr_new b : b ∈ bs -> holds (contents l') (hash a b) b;
  gr_old addr b : V b -> holds (contents l) addr b -> holds (contents l') addr b;
}.

Lemma grown_refl l : indexed (contents l) -> grown l [] l.
Proof. intros H. split; [|done|done|by intros b Hb%not_elem_of_nil|done]. exists (contents l). by destruct l. Qed.

Lemma grown_store l bs l1 b : grown l bs l1 -> Forall V bs -> V b -> exists l2, m_store_content b l1 = Some (Ok (hash a b), l2) /\ grown l (bs ++ [b]) l2.
Proof.
  intros [(st & E) Hi He Hn Ho] HV Hb. pose proof (content_laws a V Hadm) as [Hlaw].
  destruct (Hlaw _ b Hi Hb) as (addr & st' & Hs & Hi' & Hh & Hk). pose proof Hi as (_ & Ha & _).
  assert (addr = hash a b) as -> by (unfold store_content in Hs; apply bind_Ok in Hs as ([d s1] & _ & [= <- _]); by rewrite Ha).
  exists (set_contents l1 st'). split; [unfold m_store_content; by rewrite Hs|]. split; cbn [contents set_contents].
  - exists st'. by rewrite E.
  - done.
  - etrans; [exact He|]. by eapply store_content_extends.
  - intros b' [Hb'|Hb'%list_elem_of_singleton]%elem_of_app; [|by subst b']. apply Hk; [|by apply Hn]. rewrite Forall_forall in HV. by apply HV.
  - intros addr' b' HV' Hh'. apply Hk; [done|]. by apply Ho.
Qed.

(** Storing an object keeps the contents. *)
Lemma grown_object l bs l1 o bo : grown l bs l1 -> wf_object o -> canonical o = Ok bo -> U bo ->
  exists l2, m_put (fun s => Some (put_object s o)) l1 = Some (Ok (hash a bo), l2) /\ grown l bs l2 /\ get_object (c_store (contents l2)) (hash a bo) = Ok (retag_object o).
Proof.
  intros [(st & E) Hi He Hn Ho] Hw Hb HU. pose proof Hi as (Hok & Ha & Hidx).
  destruct (carries_put_object (U := U) (ok := ok) a o [] (hash a bo) [bo]) as (w & [= <-] & Hc); [unfold put_object; by rewrite Hb|].
  destruct (Hc _ Hok Ha ltac:(by constructor)) as (s' & [= Hp] & Hok' & He' & Hst).
  assert (Hobj : forall d x, get_object (c_store (contents l1)) d = Ok x -> get_object s' d = Ok x) by (intros; by eapply get_object_mono).
  assert (Hhold : forall addr b, holds (contents l1) addr b -> holds (mkContents s' (content (contents l1))) addr b).
  { intros addr b [Hl (x & Hx & Hob)]. split; [done|]. exists x. split; [|by eapply object_holds_mono]. unfold content_object in *. cbn [content c_store].
    apply bind_Ok in Hx as (d & -> & Hd). by apply Hobj. }
  exists (set_store l1 s'). split_and!.
  - unfold m_put. by rewrite Hp.
  - split; cbn [set_store set_contents contents c_store content].
    + eexists. rewrite E. done.
    + split_and!; [done|cbn [c_store]; by rewrite (proj1 He')|]. intros k d Hk. destruct (Hidx k d Hk) as (b & x & H1 & H2 & H3 & H4).
      exists b, x. split_and!; [done|done|by apply Hobj|by eapply object_holds_mono].
    + by etrans.
    + intros b Hb'. by apply Hhold, Hn.
    + intros addr b HV Hh. by apply Hhold, Ho.
  - apply Forall_cons in Hst as [[Hg Hlen] _]. cbn [set_store set_contents contents c_store]. unfold get_object. rewrite (proj1 He'), Ha in Hg.
    rewrite (Hg (hash a bo)) by done. cbn [mbind result_bind ok_or]. by apply decode_canonical_object.
Qed.

(** A ledger that the engine has read or appended to. *)
Record current g ps : Prop := {
  cu_algo : l_algo g = a;
  cu_payloads : payloads g = ps;
  cu_head : ledger_head_hash g = Some (head_hash a ps);
  cu_some : ps <> [];
  cu_len : len ps <= u64_max;
}.

Lemma root_object_wf ps r mode : wf_object (root_object a ps r mode).
Proof.
  unfold root_object, root_entries. split_and!.
  - destruct (retention_root a r); by vm_compute.
  - assert (forall name d, valid_utf8 name = true -> len name <= u64_max -> wf_digest d -> wf_tree_entry (blob_entry name d)) as H by done.
    repeat apply Forall_app_2; repeat constructor; try (apply H; [done|by vm_compute|apply raw_hash_len]).
    destruct r as [x|]; cbn; constructor; [|constructor]. apply H; [done|by vm_compute|apply raw_hash_len].
  - generalize (head_root a ps mode) (manifest_root a ps r mode) (index_root a ps) (segment_root a ps). intros.
    unfold sorted_by. destruct (retention_root a r); cbn; repeat constructor.
Qed.

(** The segment step of [build_ledger_root_tree]. *)
Lemma segment_step g ps l l1 : current g ps -> m_store_content (segment_encode (segment_of a ps)) l = Some (Ok (segment_root a ps), l1) ->
  (if bool_decide (payloads g = []) then m_ret ([], [])
   else
     let segment := segment_build (l_algo g) 0 None (payloads g) in
     segment_root ⟸ m_store_content (segment_encode segment);
     last ⟸ m_lift (ok_or (last_seq segment) CorruptObject);
     head ⟸ m_lift (ok_or (segment_head segment) CorruptObject);
     m_ret ([blob_entry (segment_name (sg_first segment)) segment_root],
            [mkIndexEntry (sg_first segment) last segment_root (len (sg_entries segment)) head])) l
  = Some (Ok ([blob_entry (segment_name 0) (segment_root a ps)], ix_entries (index_of a ps)), l1).
Proof.
  intros [Ha Hp Hh Hne Hl] Hs. rewrite Ha, Hp, bool_decide_eq_false_2 by done. cbn zeta. fold (segment_of a ps). rewrite (m_bind_run _ _ _ _ _ Hs).
  destruct (built_last a ps Hne Hl) as (e & He & Hq & Hhe). unfold last_seq, segment_head. cbn [segment_of segment_build sg_entries sg_first from_option]. rewrite He.
  cbn [fmap option_fmap option_map ok_or]. rewrite Hq, Hhe. unfold m_bind, m_lift, m_ret. cbn. do 5 f_equal. unfold len. do 2 f_equal.
  rewrite <-(build_entries_payloads a 0 GENESIS ps) at 2. by rewrite length_map.
Qed.

Lemma build_run g ps l r mode ns collection bo :
  current g ps -> (forall x, r = Some x -> carries_retention a ps x) -> indexed (contents l) ->
  Forall V (root_contents a ps r mode) -> canonical (root_object a ps r mode) = Ok bo -> U bo ->
  exists l', build_ledger_root_tree ns collection g r mode None l = Some (Ok (hash a bo), l') /\
    grown l (root_contents a ps r mode) l' /\ root_stored a (contents l') (hash a bo) ps r mode.
Proof.
  intros Hg Hr Hi HV Hb HU. pose proof Hg as [Ha Hp Hh Hne Hl]. unfold root_contents in HV. apply Forall_app in HV as [HV1 [HV2 HV3]%Forall_app].
  apply Forall_cons in HV1 as [Vs [Vi [Vh _]%Forall_cons]%Forall_cons]. apply Forall_cons in HV3 as [Vm _].
  assert (m_lift (match r with Some x => validate_retention_against_ledger x g | None => Ok () end) l = Some (Ok (), l)) as S0.
  { destruct r as [x|]; [|done]. destruct (Hr x eq_refl) as (_ & _ & Hv). unfold m_lift, validate_retention_against_ledger in *. cbn [ledger_of l_algo payloads] in Hv. by rewrite Ha, Hp, Hv. }
  destruct (grown_store l [] l _ (grown_refl l Hi) ltac:(done) Vs) as (l1 & S1 & G1).
  destruct (grown_store l _ l1 _ G1 ltac:(by repeat constructor) Vi) as (l2 & S2 & G2).
  destruct (grown_store l _ l2 _ G2 ltac:(by repeat constructor) Vh) as (l3 & S3 & G3).
  assert (exists l4, (match r with Some x => d ⟸ m_store_content (retention_encode x); m_ret (Some d) | None => m_ret None end) l3
      = Some (Ok (retention_root a r), l4) /\
      grown l ((([] ++ [segment_encode (segment_of a ps)]) ++ [index_encode (index_of a ps)]) ++ [head_encode (head_of a ps mode)]
               ++ match r with Some x => [retention_encode x] | None => [] end) l4) as (l4 & S4 & G4).
  { destruct r as [x|]; [|by exists l3; rewrite app_nil_r]. apply Forall_cons in HV2 as [Vr _].
    destruct (grown_store l _ l3 _ G3 ltac:(by repeat constructor) Vr) as (l4 & S4 & G4). exists l4. split; [by rewrite (m_bind_run _ _ _ _ _ S4)|]. by rewrite <-app_assoc in G4. }
  destruct (grown_store l _ l4 _ G4 ltac:(repeat apply Forall_app_2; by repeat constructor) Vh) as (l5 & S5 & G5).
  destruct (grown_store l _ l5 _ G5 ltac:(repeat apply Forall_app_2; by repeat constructor) Vm) as (l6 & S6 & G6).
  destruct (grown_object l _ l6 _ bo G6 (root_object_wf ps r mode) Hb HU) as (l7 & S7 & G7 & Hroot).
  exists l7. split_and!.
  - unfold build_ledger_root_tree. rewrite (m_bind_run _ _ _ _ _ S0), (m_bind_run _ _ _ _ _ (segment_step g ps l l1 Hg S1)). cbv beta iota.
    unfold index_new. rewrite (m_bind_run (m_lift _) _ l1 l1 (index_of a ps)) by (unfold m_lift; by rewrite Ha, (bind_run _ _ _ (index_of_valid a ps Hne Hl))).
    rewrite (m_bind_run _ _ _ _ _ S2). rewrite Hh, Ha. assert (latest_of g = Some (len ps - 1)) as -> by (unfold latest_of; rewrite Hp; by destruct ps).
    rewrite (m_bind_run _ _ _ _ _ S3), (m_bind_run _ _ _ _ _ S4), (m_bind_run (m_ret _) _ l4 l4 _ eq_refl). cbv beta iota.
    rewrite (m_bind_run _ _ _ _ _ S5), (m_bind_run _ _ _ _ _ S6).
    rewrite (m_bind_run (m_lift _) _ l6 l6 (root_object a ps r mode)) by (unfold m_lift; do 2 f_equal; apply root_tree). exact S7.
  - destruct G7 as [H1 H2 H3 H4 H5]. split; try done. intros b Hb'. apply H4. unfold root_contents in Hb'. set_solver.
  - split; [exact Hroot|]. intros b Hb'. apply (gr_new _ _ _ G7). unfold root_contents in Hb'. set_solver.
Qed.

(** ** Appending *)

(** The ledger of a collection and its retention ranges; a collection without one has an empty ledger. *)
Definition ledger_at l ns c g r : Prop :=
  (exists s, read_ledger_root_state_reserved l ns (ledger_path c) = Ok s /\ to_ledger s = Ok g /\ st_retention s = r)
  \/ (work_slot l ns (ledger_path c) = None /\ g = with_algo (store_algo l) /\ r = None).

Lemma read_state_slot l ns c s : read_ledger_root_state_reserved l ns (ledger_path c) = Ok s ->
  exists root coll, ledger_root_state (contents l) root ns coll = Ok s.
Proof.
  unfold read_ledger_root_state_reserved. intros (p & _ & H)%bind_Ok. apply bind_Ok in H as (coll & _ & H).
  destruct (work_slot l ns p) as [[]|]; try done. by eexists _, _.
Qed.

Lemma ledger_at_facts l ns c g r : ledger_at l ns c g r -> l_algo g = a ->
  map dbytes (hashes g) = chain_from a GENESIS (payloads g) /\
  forall x, r = Some x -> wf_retention x /\ rt_algo x = a /\ validate_retention_against_ledger x g = Ok ().
Proof.
  intros [(s & Hs & Hg & <-)|(_ & -> & ->)] Ha; [|by split; [|done]].
  destruct (to_ledger_Ok s g Hg) as (_ & Hw & Hv). split; [rewrite <-Ha; by apply verify_Ok|].
  apply read_state_slot in Hs as (root & coll & Hs). apply root_state_Ok in Hs as (g' & Hg' & Hr). rewrite Hg in Hg'. injection Hg' as <-. by rewrite <-Ha.
Qed.

Lemma append_current g payload : l_algo g = a -> map dbytes (hashes g) = chain_from a GENESIS (payloads g) ->
  len (payloads g ++ [payload]) <= u64_max -> current (append g payload).1 (payloads g ++ [payload]).
Proof.
  intros Ha Hc Hl. split; cbn [append fst l_algo payloads]; [done|done| |by destruct (payloads g)|done].
  unfold ledger_head_hash, head_hash. cbn [append fst hashes]. rewrite last_snoc, chain_end_snoc. do 2 f_equal. rewrite Ha, head_bytes_end by (by rewrite Ha). by rewrite Ha.
Qed.

Lemma retention_extends ps payload g x : payloads g = ps -> l_algo g = a -> rt_algo x = a ->
  wf_retention x -> validate_retention_against_ledger x g = Ok () -> carries_retention a (ps ++ [payload]) x.
Proof.
  intros <- Ha Hx Hw Hv. split_and!; [done|done|]. unfold validate_retention_against_ledger in *. cbn [ledger_of l_algo payloads]. rewrite Ha, Hx in Hv.
  rewrite Hx. rewrite bool_decide_eq_true_2 in Hv by done. rewrite bool_decide_eq_true_2 by done. cbn [negb] in *. destruct (payloads g) as [|p0 ps0] eqn:E.
  - destruct (rt_ranges x); [done|]. by rewrite bool_decide_eq_false_2 in Hv.
  - destruct (existsb (fun y => len (p0 :: ps0) - 1 <? rr_last y) (rt_ranges x)) eqn:E1; [done|]. cbn [app].
    match goal with |- (if ?b then _ else _) = _ => destruct b eqn:E2; [|done] end.
    apply existsb_exists in E2 as (y & Hy & Hlt%N.ltb_lt). assert (existsb (fun y => len (p0 :: ps0) - 1 <? rr_last y) (rt_ranges x) = true); [|congruence].
    apply existsb_exists. exists y. split; [done|]. apply N.ltb_lt. unfold len in *. cbn [length] in *. rewrite length_app in Hlt. cbn [length] in Hlt. lia.
Qed.

Lemma facet_run l ns : file_mode l ns (facet_root FacetKind.Ledger) = None -> exists d, make_ledger_facet ns l = Some (Ok (), set_dirs l d).
Proof.
  intros Hf. unfold make_ledger_facet, create_directory_reserved. change (normalize_path (facet_root FacetKind.Ledger)) with (Ok (E := Code) (facet_root FacetKind.Ledger)).
  rewrite (m_bind_run (m_lift _) _ l l _ eq_refl). unfold create_directory_norm. rewrite (m_bind_run (m_gets _) _ l l _ eq_refl).
  unfold is_file. cbn [fl_file_mode engine_layer]. rewrite Hf, bool_decide_eq_false_2 by (by intros [? [=]]). rewrite (m_bind_run (m_guard false _) _ l l () eq_refl).
  rewrite (m_bind_run (m_gets _) _ l l _ eq_refl). destruct (is_dir l ns _); [exists (dirs l); unfold m_ret; by destruct l|].
  rewrite (m_bind_run (m_gets _) _ l l _ eq_refl). cbn [negb andb]. rewrite (m_bind_run (m_guard false _) _ l l () eq_refl). by eexists.
Qed.

Lemma stage_run g ps l r mode ns c :
  collection_name c -> current g ps -> (forall x, r = Some x -> carries_retention a ps x) -> indexed (contents l) ->
  Forall V (root_contents a ps r mode) -> (forall b, canonical (root_object a ps r mode) = Ok b -> U b) ->
  exists root l1, stage_ledger ns (ledger_path c) g r mode None l = Some (Ok (), put_work l1 ns (ledger_path c) (SLedger root)) /\
    grown l (root_contents a ps r mode) l1 /\ root_stored a (contents l1) root ps r mode.
Proof.
  intros Hc Hg Hr Hi HV HU. destruct (canonical_ok (root_object a ps r mode)) as [b Hb].
  destruct (build_run g ps l r mode ns c b Hg Hr Hi HV Hb (HU b Hb)) as (l1 & E & G & R). exists (hash a b), l1. split; [|done]. unfold stage_ledger.
  rewrite (m_bind_run (m_lift _) _ l l (ledger_path c)) by (unfold m_lift; by rewrite ledger_path_normal).
  rewrite (m_bind_run (m_lift _) _ l l c) by (unfold m_lift; by rewrite ledger_path_collection). by rewrite (m_bind_run _ _ _ _ _ E).
Qed.

Lemma work_slot_here l ns p e : work_slot (put_work l ns p e) ns p = Some e.
Proof. unfold work_slot, put_work, work_of. cbn [set_work work]. rewrite lookup_insert_eq. cbn. apply lookup_insert_eq. Qed.

Lemma work_slot_elsewhere l ns p e ns' p' : (ns', p') <> (ns, p) -> work_slot (put_work l ns p e) ns' p' = work_slot l ns' p'.
Proof.
  intros H. unfold work_slot, put_work, work_of. cbn [set_work work]. destruct (decide (ns' = ns)) as [->|Hn]; [|by rewrite lookup_insert_ne by done].
  rewrite lookup_insert_eq. cbn [default from_option id]. rewrite lookup_insert_ne by congruence. done.
Qed.

Lemma store_algo_indexed l : indexed (contents l) -> store_algo l = a.
Proof. by intros (_ & H & _). Qed.

(** The state that [ledger_append_with_mode] and its readers find. *)
Lemma append_reads l ns c g r : collection_name c -> ledger_at l ns c g r ->
  match read_ledger_root_state_reserved l ns (ledger_path c) with
  | Ok s => g ← to_ledger s; Ok (g, st_retention s)
  | Err NotFound => Ok (with_algo (store_algo l), None)
  | Err e => Err e
  end = Ok (g, r).
Proof.
  intros Hc [(s & -> & Hg & <-)|(Hs & -> & ->)]; [by rewrite (bind_run _ _ _ Hg)|].
  unfold read_ledger_root_state_reserved. by rewrite (bind_run _ _ _ (ledger_path_normal c Hc)), (bind_run _ _ _ (ledger_path_collection c Hc)), Hs.
Qed.

Lemma append_run l ns c payload mode g r :
  let ps := payloads g ++ [payload] in
  collection_name c -> indexed (contents l) -> ledger_at l ns c g r -> l_algo g = a -> len ps <= u64_max ->
  authorize_collection (access l) ns FacetKind.Ledger c Write = Ok () -> validate_ledger_append_mode ns mode l = Some (Ok (), l) ->
  file_mode l ns (facet_root FacetKind.Ledger) = None ->
  Forall V (root_contents a ps r mode) -> (forall b, canonical (root_object a ps r mode) = Ok b -> U b) ->
  exists root d l1, ledger_append_with_mode ns c payload mode l = Some (Ok (len (payloads g)), put_work l1 ns (ledger_path c) (SLedger root)) /\
    grown (set_dirs l d) (root_contents a ps r mode) l1 /\ root_stored a (contents l1) root ps r mode.
Proof.
  intros ps Hc Hi Hat Ha Hl Hau Hm Hf HV HU. destruct (ledger_at_facts l ns c g r Hat Ha) as [Hch Hret].
  destruct (facet_run l ns Hf) as [d Hd]. pose proof (append_current g payload Ha Hch Hl) as Hg.
  assert (forall x, r = Some x -> carries_retention a ps x) as Hr by (intros x Hx; destruct (Hret x Hx) as (? & ? & ?); by eapply retention_extends).
  destruct (stage_run _ ps (set_dirs l d) r mode ns c Hc Hg Hr Hi HV HU) as (root & l1 & Hst & G & R). exists root, d, l1. split; [|done].
  unfold ledger_append_with_mode. rewrite (m_bind_run (auth_collection _ _ _) _ l l ()) by (unfold auth_collection, m_read; by rewrite Hau).
  rewrite (m_bind_run _ _ _ _ _ Hm). rewrite (m_bind_run (m_read _) _ l l (g, r)) by (unfold m_read; by rewrite (append_reads l ns c g r)).
  cbn [append]. rewrite (m_bind_run (m_gets _) _ l l a) by (unfold m_gets; by rewrite store_algo_indexed). cbn [l_algo].
  rewrite Ha, bool_decide_eq_true_2 by done. cbn [negb]. rewrite (m_bind_run (m_guard false _) _ l l () eq_refl), (m_bind_run _ _ _ _ _ Hd).
  unfold append in Hst. cbn [fst] in Hst. rewrite Ha in Hst. by rewrite (m_bind_run _ _ _ _ _ Hst).
Qed.

(** ** Reading entries *)

Lemma range_one ps seq s0 prev : s0 + len ps <= u64_max ->
  head (omap (fun e => if (seq <=? se_seq e) && (se_seq e <? seq + 1) then Some (mkRangeEntry (se_seq e) (se_payload e) (se_hash e)) else None) (build_entries a s0 prev ps))
  = if s0 <=? seq then (fun e => mkRangeEntry (se_seq e) (se_payload e) (se_hash e)) <$> build_entries a s0 prev ps !! N.to_nat (seq - s0) else None.
Proof.
  revert s0 prev. induction ps as [|p ps IH]; intros s0 prev H; cbn [build_entries omap list_omap]; [by destruct (s0 <=? seq)|].
  unfold len in H. cbn [length] in H. rewrite as_u64_id by lia. cbn [se_seq se_payload se_hash]. specialize (IH (s0 + 1)).
  destruct (N.leb_spec s0 seq), (N.leb_spec seq s0); cbn [andb]; try (destruct (N.ltb_spec s0 (seq + 1)); try lia).
  - replace (N.to_nat (seq - s0)) with 0%nat by lia. done.
  - rewrite IH by (unfold len; lia). destruct (N.leb_spec (s0 + 1) seq); [|lia]. by replace (N.to_nat (seq - s0)) with (Datatypes.S (N.to_nat (seq - (s0 + 1)))) by lia.
  - rewrite IH by (unfold len; lia). destruct (N.leb_spec (s0 + 1) seq); [lia|done].
Qed.

(** The ranges do not hide the entry. *)
Definition visible r (seq : N) : Prop := forall x, r = Some x -> state_for_half_open_range x seq (seq + 1) <> Pruned.

Lemma get_run l ns c ps r mode seq :
  ps <> [] -> len ps <= u64_max -> authorize_collection (access l) ns FacetKind.Ledger c Read = Ok () ->
  read_ledger_root_state_reserved l ns (ledger_path c) = Ok (root_state a ps r mode) -> seq < u64_max -> visible r seq ->
  ledger_get ns c seq l = Some (Ok (ps !! N.to_nat seq), l).
Proof.
  intros Hne Hl Hau Hs Hseq Hv. unfold ledger_get, ledger_range.
  assert (auth_collection ns c Read l = Some (Ok (), l)) as Hm by (unfold auth_collection, m_read; by rewrite Hau).
  rewrite (m_bind_run _ _ _ _ _ Hm). destruct (N.ltb_spec u64_max (seq + 1)); [lia|]. unfold m_bind at 1.
  rewrite (m_bind_run _ _ _ _ _ Hm). destruct (N.ltb_spec (seq + 1) seq); [lia|]. rewrite (m_bind_run (m_guard false _) _ l l () eq_refl).
  unfold m_read. rewrite Hs. cbn [root_state st_retention st_segments].
  rewrite bool_decide_eq_false_2 by (destruct r as [x|]; [by apply Hv|done]). unfold m_ret. do 3 f_equal. cbn [rs_entries].
  unfold range_entries. cbn [map concat]. rewrite app_nil_r. destruct (built_last a ps Hne Hl) as (e & He & Hq & _).
  unfold last_seq. cbn [segment_of segment_build sg_entries sg_first from_option]. rewrite He. cbn [fmap option_fmap option_map]. rewrite Hq.
  destruct (N.leb_spec (seq + 1) 0); [lia|]. rewrite orb_false_r. destruct (N.ltb_spec (len ps - 1) seq) as [Hlt|Hge].
  - cbn. symmetry. apply lookup_ge_None. unfold len in *. destruct ps; [done|]. cbn [length] in *. lia.
  - rewrite range_one by lia. cbn [N.leb]. destruct (N.leb_spec 0 seq); [|lia]. rewrite N.sub_0_r. rewrite <-(build_entries_payloads a 0 GENESIS ps) at 2.
    rewrite (list_lookup_fmap se_payload). by destruct (build_entries a 0 GENESIS ps !! N.to_nat seq).
Qed.

(** C7: Appending to a ledger adds one entry and loses none. Where the caller may write the collection, the mode
    is allowed and the store takes the contents, the append succeeds with the number of entries before as its
    sequence number; then the collection holds the chained ledger of the old payloads and the new one, with the
    retention ranges it had, no other slot of any working tree has changed, and a caller that may read the
    collection gets that ledger, and from every sequence number that is not pruned the payload stored there. *)
Theorem ledger_appends l ns c payload mode g r :
  let ps := payloads g ++ [payload] in
  collection_name c -> indexed (contents l) -> ledger_at l ns c g r -> l_algo g = a -> len ps <= u64_max ->
  authorize_collection (access l) ns FacetKind.Ledger c Write = Ok () -> validate_ledger_append_mode ns mode l = Some (Ok (), l) ->
  file_mode l ns (facet_root FacetKind.Ledger) = None ->
  Forall V (root_contents a ps r mode) -> (forall b, canonical (root_object a ps r mode) = Ok b -> U b) ->
  exists l', ledger_append_with_mode ns c payload mode l = Some (Ok (len (payloads g)), l') /\
    indexed (contents l') /\ ledger_at l' ns c (ledger_of a ps) r /\
    (forall ns' p, (ns', p) <> (ns, ledger_path c) -> work_slot l' ns' p = work_slot l ns' p) /\
    (authorize_collection (access l) ns FacetKind.Ledger c Read = Ok () ->
       get_ledger ns c l' = Some (Ok (ledger_of a ps), l') /\
       forall seq, seq < u64_max -> visible r seq -> ledger_get ns c seq l' = Some (Ok (ps !! N.to_nat seq), l')).
Proof.
  intros ps Hc Hi Hat Ha Hl Hau Hm Hf HV HU. destruct (append_run l ns c payload mode g r Hc Hi Hat Ha Hl Hau Hm Hf HV HU) as (root & d & l1 & E & G & R).
  destruct G as [(st & ->) Hi1 _ _ _]. set (l' := put_work _ ns (ledger_path c) (SLedger root)) in *. exists l'. assert (ps <> []) as Hne by (by destruct (payloads g)).
  destruct (ledger_at_facts l ns c g r Hat Ha) as [_ Hret].
  assert (forall x, r = Some x -> carries_retention a ps x) as Hr by (intros x Hx; destruct (Hret x Hx) as (? & ? & ?); by eapply retention_extends).
  assert (read_ledger_root_state_reserved l' ns (ledger_path c) = Ok (root_state a ps r mode)) as Hs.
  { unfold read_ledger_root_state_reserved. rewrite (bind_run _ _ _ (ledger_path_normal c Hc)), (bind_run _ _ _ (ledger_path_collection c Hc)).
    unfold l'. rewrite work_slot_here. by apply root_reads. }
  split_and!; [exact E|exact Hi1|left; exists (root_state a ps r mode); split_and!; [exact Hs|by apply to_ledger_of|done]| |].
  - intros ns' p Hp. unfold l'. by rewrite work_slot_elsewhere.
  - intros Hrd. split; [|intros; by eapply get_run]. unfold get_ledger.
    rewrite (m_bind_run (auth_collection _ _ _) _ l' l' ()) by (unfold auth_collection, m_read; cbn [l' access put_work set_work set_contents set_dirs]; by rewrite Hrd).
    unfold m_read, read_ledger_reserved. by rewrite (bind_run _ _ _ Hs), to_ledger_of.
Qed.
End Build.

(** ** A ledger whose root is missing *)

Section Missing.
Context `{hasher : Hasher} {S : Type} `{ops : !ObjectStore S}.
Implicit Types (l : Loom (S := S)).

(** C36: A ledger whose root object the store does not have is taken for an absent one: its length is zero, it has
    no head, verifying it succeeds, and an append that succeeds returns the sequence number zero, whatever the
    ledger held. *)
Theorem missing_root_restarts l ns c root payload mode :
  collection_name c -> work_slot l ns (ledger_path c) = Some (SLedger root) -> get (c_store (contents l)) root = Ok None ->
  authorize_collection (access l) ns FacetKind.Ledger c Read = Ok () ->
  ledger_len ns c l = Some (Ok 0, l) /\ ledger_head ns c l = Some (Ok None, l) /\ ledger_verify ns c l = Some (Ok (), l) /\
  forall n l', ledger_append_with_mode ns c payload mode l = Some (Ok n, l') -> n = 0.
Proof.
  intros Hc Hs Hg Hau.
  assert (read_ledger_root_state_reserved l ns (ledger_path c) = Err NotFound) as Hr.
  { unfold read_ledger_root_state_reserved. rewrite (bind_run _ _ _ (ledger_path_normal c Hc)), (bind_run _ _ _ (ledger_path_collection c Hc)), Hs.
    unfold ledger_root_state, get_object. by rewrite (bind_run _ _ _ Hg). }
  assert (load_or_new_unchecked l ns c = Ok (with_algo (store_algo l))) as Hn by (unfold load_or_new_unchecked, read_ledger_reserved; by rewrite Hr).
  assert (auth_collection ns c Read l = Some (Ok (), l)) as Hm by (unfold auth_collection, m_read; by rewrite Hau).
  split_and!; [unfold ledger_len|unfold ledger_head|unfold ledger_verify|].
  1-3: rewrite (m_bind_run _ _ _ _ _ Hm); unfold m_read; by rewrite Hn.
  intros n l'. unfold ledger_append_with_mode. intros ([] & l1 & H1 & H)%m_bind_done. apply m_bind_done in H as ([] & l2 & H2 & H).
  assert (l1 = l) as -> by (unfold auth_collection, m_read in H1; by injection H1).
  assert (l2 = l) as ->.
  { destruct mode; [by injection H2|]. apply m_bind_done in H2 as (br & la & Ha & H2). injection Ha as _ <-. apply m_bind_done in H2 as ([] & lb & Hb & H2).
    injection Hb as _ <-. apply m_bind_done in H2 as (pl & lc & Hd & H2). injection Hd as _ <-. destruct pl as [pl|]; [|done].
    unfold m_guard in H2. destruct (negb _); [done|by injection H2]. }
  apply m_bind_done in H as ([g r] & l3 & H3 & H). unfold m_read in H3. rewrite Hr in H3. injection H3 as <- <- <-. cbn [append with_algo] in H.
  do 4 (apply m_bind_done in H as (? & ? & _ & H)). by injection H as <- _.
Qed.
End Missing.

(** ** Examples on the memory store *)

#[local] Existing Instance toy_hasher.

Definition sample_payloads : list bytes := [str "open"].
Definition sample_contents : list bytes := Eval vm_compute in root_contents Blake3 sample_payloads None Draft.
Definition sample_tree : bytes := Eval vm_compute in match canonical (root_object Blake3 sample_payloads None Draft) with Ok b => b | Err _ => [] end.
Definition sample_objects : list bytes := Eval vm_compute in
  sample_tree :: concat (map (fun b => match put_content (ops := log_store Blake3) [] b with Ok (_, w) => w | Err _ => [] end) sample_contents).

#[local] Instance sample_laws : StoreLaws MemoryStore (fun b => b ∈ sample_objects) (fun s => addressed s /\ within (fun b => b ∈ sample_objects) s).
Proof. apply finite_universe; vm_compute; reflexivity. Qed.

Lemma sample_admissible : admissible (U := fun b => b ∈ sample_objects) Blake3 (fun b => b ∈ sample_contents).
Proof.
  split.
  - intros b Hb. assert (forallb (fun b => Codec.len b <=? u64_max) sample_contents = true) as H by (vm_compute; reflexivity).
    rewrite forallb_forall in H. by apply N.leb_le, H, list_elem_of_In.
  - intros b d w Hb E. assert (forallb (fun b => match put_content (ops := log_store Blake3) [] b with
      Ok (_, w) => forallb (fun o => bool_decide (o ∈ sample_objects)) w | Err _ => true end) sample_contents = true) as H by (vm_compute; reflexivity).
    rewrite forallb_forall in H. specialize (H b (proj1 (list_elem_of_In _ _) Hb)). rewrite E in H. apply Forall_forall. intros o Ho.
    rewrite forallb_forall in H. by apply (bool_decide_eq_true_1 (o ∈ sample_objects)), H, list_elem_of_In.
  - intros b b' Hb Hb'. apply (toy_injective_on sample_contents); [|done|done]. apply (bool_decide_eq_true_1 _). vm_compute. reflexivity.
Qed.

Lemma ledger_appends_witness :
  exists l', ledger_append_with_mode demo_ns demo_collection (str "open") Draft (loom_new memory_new) = Some (Ok 0, l') /\
    ledger_get demo_ns demo_collection 0 l' = Some (Ok (Some (str "open")), l').
Proof.
  destruct (ledger_appends (ok := fun s => addressed s /\ within (fun b => b ∈ sample_objects) s) Blake3 (fun b => b ∈ sample_contents) sample_admissible
    (loom_new memory_new) demo_ns demo_collection (str "open") Draft (with_algo Blake3) None) as (l' & E & _ & _ & _ & Hread).
  - split; [discriminate|]. apply (bool_decide_eq_true_1 (slash ∉ demo_collection)). vm_compute. reflexivity.
  - split; [split; apply map_Forall_empty|]. split; [reflexivity|]. by intros.
  - right. vm_compute. done.
  - reflexivity.
  - vm_compute. discriminate.
  - reflexivity.
  - reflexivity.
  - vm_compute. reflexivity.
  - apply (bool_decide_eq_true_1 (Forall (fun b => b ∈ sample_contents) _)). vm_compute. reflexivity.
  - intros b Hb. assert (b = sample_tree) as -> by (vm_compute in Hb; by injection Hb as <-). by left.
  - exists l'. split; [exact E|]. destruct Hread as [_ Hget]; [reflexivity|]. apply Hget; [vm_compute; reflexivity|]. by intros x.
Defined.

(** A workspace whose ledger the store has lost. *)
Definition lost_ledger : Loom (S := MemoryStore) := put_work (loom_new memory_new) demo_ns (ledger_path demo_collection) (SLedger (hash Blake3 (str "lost"))).

Lemma missing_root_restarts_witness :
  ledger_len demo_ns demo_collection lost_ledger = Some (Ok 0, lost_ledger) /\ ledger_verify demo_ns demo_collection lost_ledger = Some (Ok (), lost_ledger).
Proof.
  destruct (missing_root_restarts lost_ledger demo_ns demo_collection (hash Blake3 (str "lost")) (str "open") Draft) as (H1 & _ & H3 & _).
  - split; [discriminate|]. apply (bool_decide_eq_true_1 (slash ∉ demo_collection)). vm_compute. reflexivity.
  - vm_compute. reflexivity.
  - vm_compute. reflexivity.
  - reflexivity.
  - by split.
Defined.

End LedgerAppend.
